(* ===== verification/_CoqProject ===== *)
-Q . S2P
Prelude.v
Binary64.v
Nostr.v
Filter.v
Subscription.v
SubscriptionIndex.v
SubscriptionSpec.v
SubscriptionTheorems.v
Channel.v
GitPattern.v
GitPerms.v
GitPolicy.v
Network.v
Ifc.v
Thread.v
Queue.v
QueueInv.v
QueueCap.v
QueueFlush.v
QueueProtocol.v
Pairing.v
PairingTheorems.v
PairingRun.v
PairingQr.v
MeshWire.v
Directory.v
DirectorySpec.v
DirectoryRun.v
Reliable.v
ReliableTheorems.v
JsonValue.v
AuditLog.v
AuditTheorems.v
Gossip.v
Membership.v
MembershipTheorems.v
MeshRuntime.v
MeshRuntimeTheorems.v
PairRelay.v
PairRelayTheorems.v
PairRelayDedup.v
Auth.v
AdminAuth.v
AuthTheorems.v
AuthRun.v
RustStr.v
GitManifest.v
GitStore.v
GitPublish.v
GitHistory.v
GitCommit.v
GitPkt.v
GitTransport.v
GitWorld.v
GitTheorems.v
GitWitness.v
ReadGate.v
EventStore.v
ReadQuery.v
ReadReq.v
ReadTheorems.v
ReadPush.v
ReadStored.v
ReadCount.v
ReadTopics.v
ReadWitness.v
Tenant.v
Conformance.v
ConformanceTheorems.v
Replace.v
ReplaceTheorems.v
ReplaceConverge.v
Workflow.v
WorkflowRun.v
WorkflowTheorems.v
WorkflowSchedule.v
WorkflowFires.v
ThreadStore.v
ThreadTheorems.v
Ingest.v
