(* ===== verification/Prelude.v ===== *)
(** * Verification of the relay and agent core

    The program is a chat relay for people and agents: clients publish signed
    Nostr events over WebSockets, the relay stores them per community and fans
    them out to subscriptions, hosts git repositories whose pushes it authorizes,
    and agent harnesses turn the events they receive into prompts.  Relay
    processes of one deployment form a mesh, agree through Redis on which of them
    owns a tunnel session, and write an audit log; devices are paired through a
    small relay of their own; workflows react to events and schedules.  This
    library models the parts of it that decide something, as executable functions
    translated from the Rust sources under src/crates, and proves that they
    decide it correctly.

    ** Files

    Each component has one file with its data, operations and basic lemmas, and
    further files where its invariants and theorems need them.

    - [Prelude]: results and the [let?] notation for the question-mark operator,
      strings and lists as Rust uses them (splitting, prefixes, decimal numbers,
      stable sorting), and the lemmas every component shares.
    - [Binary64]: the [f64] arithmetic of the retry jitter, rounded as IEEE 754
      does, with error bounds.
    - [Nostr]: events, tags, filters, identifiers, and the classes that stand for
      the [nostr], [uuid] and [hex] crates.
    - [Filter]: NIP-01 filter matching, buzz-core/src/filter.rs.
    - [Subscription], [SubscriptionIndex], [SubscriptionSpec],
      [SubscriptionTheorems]: the subscription registry of the relay,
      buzz-relay/src/subscription.rs.  The record [SubscriptionRegistry] holds
      the authoritative table and the five indexes of the struct of that name;
      every method is a function on it.  [SubscriptionIndex] reduces index
      maintenance to pushing and retaining rows by key, [SubscriptionSpec]
      relates the indexes to the table.
    - [Channel]: channel kinds, visibility and roles, buzz-core/src/channel.rs.
    - [GitPattern], [GitPerms]: ref patterns, protection rules and the push
      policy, buzz-core/src/git_perms.rs.
    - [GitPolicy]: the policy callback of the pre-receive hook with its HMAC
      (buzz-relay/src/api/git/policy.rs), the channel binding (binding.rs) and
      the read gate (transport.rs, [authorize_git_read]).  The database is the
      record [GitDb] of the four queries they make.
    - [Network]: the SSRF address predicate, buzz-core/src/network.rs.
    - [Ifc]: confidentiality labels and the flow state, ifc-core/src/lib.rs.
    - [Thread]: NIP-10 markers (buzz-core/src/nip10.rs), thread tags
      (buzz-acp/src/queue.rs) and conversation identities
      (buzz-acp/src/conversation.rs).
    - [Queue], [QueueInv], [QueueCap], [QueueFlush], [QueueProtocol]: the event
      queue of the agent harness, buzz-acp/src/queue.rs up to line 1180, with
      queue-routing-cap.rs.  The record [EventQueue] has the fields of the
      struct; calls of [Instant::now] and the sub-second clock are arguments.
    - [Pairing], [PairingTheorems], [PairingRun], [PairingQr]: NIP-AB device
      pairing, buzz-core/src/pairing (session.rs, crypto.rs, types.rs, mod.rs,
      qr.rs).  A session method is a computation in a state and error monad that
      keeps the state it leaves behind on failure too.
    - [MeshWire]: frames of the relay mesh and their length-prefixed transport,
      buzz-relay-mesh/src (wire.rs, lib.rs, peer.rs).
    - [Directory], [DirectorySpec], [DirectoryRun]: the
      session directory, buzz-relay/src/tunnel/directory.rs, with its Lua scripts
      over a Redis whose keys expire.  [DirectorySpec] is the abstract cell of
      one session (a counter and at most one lease) and the proof that every
      operation refines it; [DirectoryRun] the histories of any runtimes.
    - [Reliable], [ReliableTheorems]: reliable tunnel streams over the mesh,
      buzz-relay/src/tunnel/reliable.rs.
    - [JsonValue]: JSON values and their accessors as [serde_json] has them.
    - [AuditLog], [AuditTheorems]: the hash-chained audit log, buzz-audit/src.  The
      table is the map of its primary key; an append is interleaved with others
      at every statement ([AuditStep]), under the advisory lock.
    - [Gossip], [Membership], [MembershipTheorems]: gossip records, the failure
      detector, the attested readiness registry and the membership table,
      buzz-relay-mesh/src (gossip.rs, registry.rs, membership.rs, status.rs).
    - [MeshRuntime], [MeshRuntimeTheorems]: connections, control streams and the
      registry heartbeat, runtime.rs and registry.rs; every event of a loop is a
      function on the record [Inner].
    - [PairRelay], [PairRelayTheorems], [PairRelayDedup]: the pairing relay, buzz-pair-relay/src/lib.rs; [act]
      is one locked step of one connection, so a history interleaves connections
      wherever the code releases its locks.
    - [Auth], [AdminAuth], [AuthTheorems], [AuthRun]: buzz-auth/src,
      the Redis replay guard and rate limiter of buzz-pubsub/src, and the admin
      gate, buzz-relay/src/api/admin/auth.rs.
    - [RustStr]: more of [str]: UTF-8 validity, trimming, lines, suffixes.
    - [GitManifest], [GitStore], [GitPublish], [GitPkt], [GitTransport]: git
      repositories on object storage, buzz-relay/src/api/git: manifests and their
      announcement (manifest.rs, manifest_event.rs), the store client (store.rs),
      publishing by compare-and-swap with compaction (cas_publish.rs), loading
      (hydrate.rs), packet lines and the push and advertisement endpoints
      (transport.rs), and the announcement of a repository, which reserves its
      name and seeds its pointer with the empty manifest
      (buzz-relay/src/handlers/side_effects.rs).  An operation is a program of requests to the store
      ([Prog]), so that what happens between two requests is explicit.
    - [GitHistory], [GitCommit], [GitWorld]: the state pushes share and its
      invariant, rules for programs that run beside others ([wp]) with the proofs
      of every operation, and the steps of any number of processes, each a push,
      a read or an announcement ([Job]).
      [GitTheorems], [GitWitness]: what follows.
    - [ReadGate], [EventStore], [ReadQuery], [ReadReq]: the read path of the
      relay: the gates and visibility rules (buzz-relay/src/handlers/req.rs,
      buzz-core/src/kind.rs), the event tables with their writes and queries
      (buzz-db/src/store/event.rs, runtime/mod.rs), the translation of filters
      into queries and full-text search (req.rs, buzz-search/src/query.rs), and
      the handlers of REQ and COUNT (req.rs, count.rs).  What a handler awaits is
      a field of [ReadEnv], one answer for each call, so that no two reads of one
      request need agree; a [WHERE] clause is the predicate it selects rows by.
    - [ReadTheorems], [ReadPush], [ReadStored], [ReadCount], [ReadWitness]: what is delivered, searched, stored and counted.
    - [ReadTopics]: the registration of a subscription and the Redis topics it
      holds (req.rs, close.rs, state.rs, buzz-pubsub/src/lib.rs), as tasks that
      interleave at every await over the registry of [Subscription].
    - [Tenant]: host normalization and the binding of a request to its community,
      tenant.rs of buzz-core and of buzz-relay, buzz-db/src/store/community.rs.
    - [Conformance], [ConformanceTheorems]: the tenancy
      trace, its checker (buzz-conformance/src) and the relay's emitters
      (buzz-relay/src/conformance, and the emit sites of req.rs and ingest.rs).
      What a REQ records is computed along the handlers of [ReadReq].
    - [Replace], [ReplaceTheorems], [ReplaceConverge]: replaceable events,
      buzz-db/src/store/replaceable.rs, over the tables of [EventStore].  A write
      is one transaction under its advisory lock, hence one step; its argument
      [ok] says which statements ran.  [ReplaceTheorems] reduces a write to what
      it does to the rows and has the histories.
    - [Workflow], [WorkflowRun], [WorkflowSchedule]: the workflow
      engine, buzz-workflow/src: definitions, templates and conditions
      (schema.rs, executor.rs), its tables (buzz-db/src/store/workflow.rs), the
      dispatch of actions and the record of a run (executor.rs, lib.rs), and what
      starts runs, stored events, behind the relay's guard against its own
      workflow messages ([dispatch_workflows], buzz-relay/src/handlers/event.rs,
      workflow_sink.rs), and the scheduler (lib.rs).  A step's effects on
      the outside are a list; the scheduler is a machine with one step per query
      ([tick_step]), so the pods of a deployment interleave ([sys_step]).
      [WorkflowTheorems], [WorkflowFires]: what follows.
    - [ThreadStore], [ThreadTheorems]: threads in the store: the table
      [thread_metadata] with its writes (buzz-db/src/store/event.rs, thread.rs),
      the ancestry of a reply (buzz-relay/src/handlers/ingest.rs), the replies of
      workflows (workflow_sink.rs) and deletion (side_effects.rs).  A transaction
      is one step; the reads before it see any earlier table ([thread_history]).
    - [Ingest]: the gate of event ingest, the beginning of [ingest_event_inner]
      (ingest.rs) up to the membership check, with the classification of
      conditional publications (source_publication.rs, buzz-core/src/wiki_page.rs),
      over the tables it reads ([IngestEnv]).

    The components meet where the code calls across: the registry and the push
    gate use the events of [Nostr], the registry uses [Filter], the policy
    callback composes [GitPerms] and [Channel], the queue groups events by the
    identities of [Thread].  Reliable streams run over [MeshWire] and validate every
    frame against [Directory]; the mesh runtime carries [Gossip] messages in
    [MeshWire] frames into [Membership]; the directory, the readiness registry,
    the replay guard and the rate limiter share the interface [Redis].  A push
    composes loading, git, publishing and the announcement in [receive_pack].  The
    read handlers check rows again with [Filter], register in [Subscription] and
    read the principal that [Auth] established.  Replaceable writes go to the
    rows the read path reads; workflow webhooks are checked with [Network], and
    triggers use [Thread] and the events of [Nostr].  Thread metadata is written
    with the events of [EventStore] after the markers of [Thread]; the ingest gate
    reads the same events, the channels of the read path, the communities of
    [Tenant] and the scopes of [Auth].

    ** Theorems

    - Registry: the five indexes always hold exactly the rows the table induces;
      the indexed fan-out refines a scan of the table, without duplicates;
      registration, revocation and disconnection change exactly the deliveries
      they should; an interleaved fan-out delivers only what was authoritative
      when it looked.
    - Filters: matching is membership on every constrained field.
    - Git: the endpoint allows exactly the pushes that meet every condition and
      answers 403 otherwise; the policy agrees with its declarative form, is
      monotone and binds every role; tags mean what they say; signatures bind
      the push and verify in any ref order; broken bindings close both gates;
      pushing implies reading; patterns round-trip and never reach their
      unreachable arm.
    - Addresses: the SSRF predicate is exactly membership in a table of
      special-purpose blocks, for all addresses of both families.
    - Labels: reader sets are a lattice; egress is permitted exactly when every
      input may flow, and never widens the readers.
    - Threads: replies are what well-formed markers say; identities separate
      threads.
    - Queue: bookkeeping invariant over all reachable states; one 500-event bound
      per channel however it is split into conversations; a flush picks the
      longest waiting eligible channel and reports exactly the deliverable work;
      retries are bounded and backed off; no event is delivered twice.
    - Pairing: sessions follow the protocol order whatever they are sent, accept
      only authentic, fresh and expected events, never one twice; two honest
      devices always finish with the same SAS code and the payload intact; the
      transcript binds the session; QR codes round-trip.
    - Directory: while a lease lasts nobody else is granted the session and its
      holder's frames validate; a later grant fences every earlier one; at most
      one fence is accepted at a time.
    - Tunnels: the frame codec is exact; a transfer delivers the bytes, the close
      reason and the end; only frames of the pinned community and a currently
      valid fence are received; joins reach the lease holder; the renewer reports
      every loss.
    - Audit: whatever interleaves, fails or panics, the log has no gaps and its
      rows are linked, and it verifies when the details survive storage; a verifying substitute with the same last hash is the true log;
      canonical JSON does not depend on field order.
    - Mesh: gossip converges and never rolls back; admission follows the anchor;
      simultaneous dials agree; a node's state stays well formed; readiness is
      advertised exactly; an attestation names one runtime and one key.
    - Pairing relay: no event is delivered twice, deliveries reach the one
      subscriber of their key, every bound holds, the content check is exactly
      base64 of a NIP-44 payload.
    - Authentication: NIP-98 verification and the admin gate are exact; reuse of an
      event is confined to one second; the rate limiter refines a fixed-window
      counter, with at most twice the limit in any stretch of one window.

    - Git storage: each repository has one linear history of complete states,
      whatever races, fails or arrives late, made by accepted pushes on top of each
      other and, possibly, on the empty manifest of an announcement; a push that
      git accepted and that is answered with success is in it right after the
      state it was made from; advertisements and announcements say what is
      published; repositories are separate; an undisturbed push succeeds.

    - Reading: whatever the awaited reads answer, a REQ or a search delivers only
      live rows of the own community that match, that the reader may see under
      the rules of gated kinds, in channels shown readable by this request; a REQ
      misses none of them, and COUNT agrees with a reference, as far as the tags
      that the filter's clauses read agree with the columns SQL reads instead
      ([addressed], [plain_event]); writes keep the columns those of the event
      ([well_stored]); topics are held as often as needed.
    - Tenancy: a request is bound by its host to one active community or refused,
      however the host is spelled; the trace checker accepts exactly the traces
      that stay in one community and names the first step that does not; the
      read seam judges rows by the channels table; the traces of the relay's own
      reads are accepted.
    - Replaceable events: one live version per coordinate; the store is a
      last-writer-wins register, whatever the order of arrival; read states never
      move back; Wiki pages are immutable and within their quota.
    - Workflows: templates are resolved in one pass; a run's effects stay within
      its definition, its community and its channel, webhooks reach public
      addresses only; the record of a run is the history of its steps; a schedule
      instant starts at most one run over all pods; every run starts under its
      owner's current authority, and what workflows emit starts none; the interval
      of the only scheduled workflow of a deployment fires exactly when it has
      elapsed.
    - Threads in the store: the rows form trees of one channel each, with bounded
      depths, whatever races and fails, as long as no event that names a thread
      is stored in a channel without metadata; reply and descendant counts are the
      numbers of live replies and descendants.
    - Ingest: exactly the events that meet every condition pass the gate, each to
      the handler of its kind or into the pipeline with its channel.

    Some theorems also state behaviour that differs from what the sources
    announce: [closed_connection_still_counted], [channel_subscribers_exact],
    [put_back_forgets_cancelled] and [version_gate]; the example [stray_h_lost]
    that an event stored without a channel but with an [h] tag is lost to the
    filters that accept it; the example [reprinted_detail_fails] that a detail
    the database reprints breaks the verification of an untouched log;
    [matches_never_panics] that patterns may end in [**]; [retry_policy] shows that
    the jitter only shortens delays; [detail_boundary_not_hashed] that text can
    move between two hashed fields of an audit entry; [gossip_admits_unattested]
    that gossip adds runtimes without attestation; the example
    [lost_reply_still_advertised] that a lost reply leaves a runtime advertised;
    [replay_window] and the example [event_used_twice] that a credential can be
    used twice in its last second; [load_settled] that a manifest can be too large
    to be read; [landed_changed] that a push always counts as a change; the
    examples [report_mixed_rejected] and [report_split_missed] which reports of
    git are misjudged; [count_garbled_h_unscoped] that a COUNT can lose its
    channel condition; [registration_races] that two races leave wrong topic
    counts; [channel_write_verdict] that the trace of an ordinary channel write is
    refused; [collision_order_decides] that a channel id live in two communities
    blinds the read seam; [ingest_seam_covered] what the ingest guard counts; the
    examples [restart_fires_within_interval] and [failed_anchor_read_waits] what a
    restart does to an interval schedule; the examples
    [unindexed_parent_refuses_second_reply], [racing_reply_depth] and
    [deleted_root_second_row] what threads record of parents without metadata,
    racing parents and deleted roots; the example [far_future_event_passes] the
    one date far from the clock that the drift check lets through.

    ** Parameters and hypotheses

    Code outside the repository is a class with its documented behaviour as a
    second class of laws: [NostrLib] and [NostrLaws], [HexLib] and [HexLaws],
    [UuidLib],
    [GitLib] and [GitLaws], [ConversationLib] and [ConversationLaws],
    [PairingLib] and [PairingLaws], [QrLib] and [QrLaws], [Redis], [RedisMore] and
    their laws (answers, expiry, increments), [LuaLib] and [LuaLaws] ([tostring]
    of a counter, exact below [lua_exact], ten to the fourteenth), [Postcard] and
    [PostcardLaws], [UuidBytes] and [UuidBytesLaws], [AuditLib], [PgLib] and their
    laws (time stamps and JSON as the database stores them), [Sha256Lib] and
    [Sha256Laws], [SchnorrLib], [ReadyJson] and [ReadyJsonLaws], [PairRelayLib]
    and [PairRelayLaws], [AuthLib], [AdminLib], [S3] and [S3Laws] (conditional
    writes and entity tags of an object store), [ManifestJson] and its laws,
    [EventBuilder] and its laws, [GitObjects] with [git_faithful] (what
    [git pack-objects] puts into a pack), [ReadLib] and [ReadLaws] (keys and ids
    as bytes and hexadecimal), [TagLaws] and [UuidRound] (tag kinds and printed
    ids), [StoreLib] and [StoreLaws] (an event read back from its columns), [FtsLib]
    (Postgres text search), [TenantUrl] (URL parsing), [SqlLower] (SQL's [lower]),
    [WikiLib] and [WikiLaws] (lengths of events as JSON), [JsonText] (parsing JSON
    text), [DefLib] (YAML and JSON
    of definitions, cron), [TemplateLib], [EvalLib] (expressions), [HttpLib].  Every class of laws has
    an instance in a [Sample] module, which the witnesses use.  Cryptographic
    strength is never assumed of all messages: a theorem that needs it assumes that
    the messages at hand do not collide ([no_collision] on the two it compares,
    [ids_differ] on two events of a pairing, distinct ids of the events submitted
    to a store).  The order in which hash
    maps are enumerated is the class [HashOrder]: each operation may meet a
    different one.  Redis answers by one clock, in milliseconds, which does not
    run backwards; calls may be lost before Redis acts or after.  The theorems on
    the verification of an audit log have the hypothesis [storable_details]: the
    canonical text of the details survives JSONB, which it does not for
    floating-point numbers the database reprints.

    Widths: sizes and counters that the code bounds are natural numbers, with
    saturating subtraction as truncated subtraction; depths and counters of
    threads are 32-bit and the drift of an event 64-bit; the 32-bit version number
    and the 64-bit backoff product are bounded explicitly.  Fuel: [cap_loop],
    the eviction loop of the routing cap, removes one queued event per iteration,
    so one more than the number of queued events is enough, and [cap_loop_spec]
    proves that the loop ends within it; [chunks] takes the length of the text,
    [recv_all] that of the input, each step consuming at least one byte;
    [pkt_lines_from] the length of the stream, each round consuming four;
    [resolve_loop] one more than the length of the template, each round consuming
    four ([resolve_loop_segments]); [drive], a whole tick of a lone pod, nine
    queries for one workflow ([lone_tick]).  The
    deduplication theorem of the pairing relay takes a bound of 59 seconds on the
    handling of one event, less than the margin between entry lifetime and
    freshness.

    ** Not modelled

    Logging, metrics and the wiping of secrets; serialization of HTTP responses;
    the SQL behind the database queries, but for the event, thread, membership
    and workflow tables; subprocesses and network code; the pack cache, the
    conformance probe and the removal of a deleted community's objects of the git
    store, and the registry of repository names behind its answers; prompt text; of the read path huddle
    liveness delivery, the HTTP bridge and the choice of a replica; of the tenancy
    trace the steps of the special ingest branches and the file it is written
    to; of workflows the approval tables and the relay's commands that save,
    trigger and delete them.  Operations on one concurrent map entry are atomic.
    Event ingest (buzz-relay/src/handlers/ingest.rs) is, behind its gate, a
    dispatch over some hundred kinds to validators and handlers that mostly read
    and write further tables: contact decisions, the validators of single kinds,
    reactions and most side effects of a stored event are not here, its gate with
    the classification of conditional publications, repository announcements, its trace seam, the thread of a reply and the writes
    at its end are; so are not the listing queries of threads.  The agent harness around the
    queue, the agent runtimes, the command-line tools and the clients consist of
    subprocesses, network protocols, terminals and user interfaces, whose
    behaviour is that of code outside the repository.

    ** Plan

    What could follow, in this order: the validators of single kinds between the
    gate of [Ingest] and the tables of [EventStore] and [Replace]; moderation
    commands and relay administration; the dispatch loop of the harness
    around the queue (buzz-acp); the life cycle of communities
    (buzz-db/src/store/community.rs). *)

From stdpp Require Export base gmap strings list fin_maps fin_sets option sorting.
From Stdlib Require Export ZArith Lia.
From Stdlib Require Export Ascii.
From Stdlib Require Import DecimalString DecimalN.

#[export] Set Warnings "-clear-no-such-hyp".

(** * Results

    Rust's [Result<T, E>]; the [let?] notation is the [?] operator: bind the
    success value or return the error unchanged. *)
Inductive result (A E : Type) : Type :=
| Ok (a : A)
| Err (e : E).
Arguments Ok {A E} a.
Arguments Err {A E} e.

Declare Scope rust_scope.
Delimit Scope rust_scope with rust.
Open Scope rust_scope.

Notation "'let?' x ':=' c 'in' k" :=
  (match c with Ok x => k | Err e_ => Err e_ end)
  (at level 10, x binder, c at level 100, k at level 200)
  : rust_scope.

Definition is_ok {A E} (r : result A E) : bool :=
  match r with Ok _ => true | Err _ => false end.

(** [Result::err]. *)
Definition err_of {A E} (r : result A E) : option E :=
  match r with Ok _ => None | Err e => Some e end.

(** [Option::ok_or]. *)
Definition ok_or {A E} (o : option A) (e : E) : result A E :=
  match o with Some a => Ok a | None => Err e end.

(** * Strings

    A Rust [&str] is modelled by its UTF-8 bytes, a [string]. *)

(** [str::split(c)]: always at least one piece, the separators dropped. *)
Fixpoint split_on (c : Ascii.ascii) (s : string) : list string :=
  match s with
  | EmptyString => [EmptyString]
  | String a s' =>
      if Ascii.eqb a c then EmptyString :: split_on c s'
      else match split_on c s' with
           | [] => [String a EmptyString]
           | w :: ws => String a w :: ws
           end
  end.

(** [join] of the pieces with a one-character separator. *)
Fixpoint join_with (c : Ascii.ascii) (ws : list string) : string :=
  match ws with
  | [] => EmptyString
  | [w] => w
  | w :: ws' => w +:+ String c (join_with c ws')
  end.

(** [str::strip_prefix]. *)
Fixpoint strip_prefix (p s : string) : option string :=
  match p, s with
  | EmptyString, _ => Some s
  | String a p', String b s' => if Ascii.eqb a b then strip_prefix p' s' else None
  | String _ _, EmptyString => None
  end.

(** [str::starts_with]. *)
Definition starts_with (p s : string) : bool :=
  match strip_prefix p s with Some _ => true | None => false end.

(** [str::contains(char)]. *)
Fixpoint contains_char (c : Ascii.ascii) (s : string) : bool :=
  match s with
  | EmptyString => false
  | String a s' => Ascii.eqb a c || contains_char c s'
  end.

(** [s.chars().all(f)] for a predicate that only accepts ASCII characters. *)
Fixpoint all_chars (f : Ascii.ascii -> bool) (s : string) : bool :=
  match s with
  | EmptyString => true
  | String a s' => f a && all_chars f s'
  end.

(** [str::contains(&str)]. *)
Fixpoint contains_str (p s : string) : bool :=
  starts_with p s ||
  match s with
  | EmptyString => false
  | String _ s' => contains_str p s'
  end.

(** [u64::to_string] and [usize::to_string]: decimal digits, no sign. *)
Definition to_decimal (n : N) : string := NilEmpty.string_of_uint (N.to_uint n).

(** [char::is_ascii_digit]. *)
Definition is_ascii_digit (c : Ascii.ascii) : bool :=
  let n := N_of_ascii c in ((48 <=? n) && (n <=? 57))%N.

(** [char::is_ascii_hexdigit] and [char::is_ascii_uppercase]. *)
Definition is_ascii_uppercase (c : Ascii.ascii) : bool :=
  let n := N_of_ascii c in ((65 <=? n) && (n <=? 90))%N.
Definition is_ascii_hexdigit (c : Ascii.ascii) : bool :=
  let n := N_of_ascii c in
  is_ascii_digit c || ((65 <=? n) && (n <=? 70))%N || ((97 <=? n) && (n <=? 102))%N.

(** [str::parse] for an unsigned integer type whose values are below [bound]:
    an optional plus sign and at least one decimal digit, overflow refused at
    every digit. *)
Fixpoint parse_digits (bound acc : N) (s : string) : option N :=
  match s with
  | EmptyString => Some acc
  | String c s' =>
      if is_ascii_digit c then
        let acc' := (10 * acc + (N_of_ascii c - 48))%N in
        if (acc' <? bound)%N then parse_digits bound acc' s' else None
      else None
  end.

Definition parse_uint (bound : N) (s : string) : option N :=
  match s with
  | String "+" (String _ _ as s') => parse_digits bound 0 s'
  | String _ _ => parse_digits bound 0 s
  | EmptyString => None
  end.

Definition parse_u32 : string -> option N := parse_uint (2 ^ 32).
Definition parse_u64 : string -> option N := parse_uint (2 ^ 64).

(** * Lists *)

(** [slice::sort_by] and [sort_by_key], which are stable: [le] is the order
    the comparison decides, equal elements keep their relative order. *)
Fixpoint insert_by {A} (le : A -> A -> bool) (x : A) (l : list A) : list A :=
  match l with
  | [] => [x]
  | y :: l' => if le x y then x :: l else y :: insert_by le x l'
  end.

Definition sort_by {A} (le : A -> A -> bool) (l : list A) : list A :=
  foldr (insert_by le) [] l.

(** [Iterator::min_by_key] with an [u64]-like key: the first of the least. *)
Definition min_by_key {A} (key : A -> N) (l : list A) : option A :=
  foldl (fun best x =>
           match best with
           | None => Some x
           | Some b => if (key x <? key b)%N then Some x else best
           end) None l.

(** The idiom [if seen.insert(x) { out.push(x) }]: keep first occurrences. *)
Definition push_unique {A} `{EqDecision A} (out : list A) (x : A) : list A :=
  if decide (x ∈ out) then out else out ++ [x].

Definition dedup_first {A} `{EqDecision A} (xs : list A) : list A :=
  foldl push_unique [] xs.

(** * Automation *)

(** The lemmas that rewrite a boolean guard of the code into the proposition
    it decides. *)
Create HintDb crew.
Create Rewrite HintDb crew.

Ltac bool_prop :=
  repeat match goal with
  | H : (_ && _)%bool = true |- _ => apply andb_true_iff in H as [? ?]
  | H : (_ || _)%bool = false |- _ => apply orb_false_iff in H as [? ?]
  | H : (_ || _)%bool = true |- _ => apply orb_true_iff in H
  | H : (_ && _)%bool = false |- _ => apply andb_false_iff in H
  | H : negb _ = true |- _ => apply negb_true_iff in H
  | H : negb _ = false |- _ => apply negb_false_iff in H
  | H : bool_decide _ = true |- _ => apply bool_decide_eq_true_1 in H
  | H : bool_decide _ = false |- _ => apply bool_decide_eq_false_1 in H
  end.

(** Case split on every [match] of the goal, discarding absurd branches. *)
Ltac case_all :=
  repeat (case_match; simplify_eq/=; try done).

(** ** Lemmas on the string operations *)

Lemma string_app_cons a (s t : string) : String a s +:+ t = String a (s +:+ t).
Proof. reflexivity. Qed.

Lemma string_app_nil_l (s : string) : "" +:+ s = s.
Proof. done. Qed.

Lemma string_app_nil_r (s : string) : s +:+ "" = s.
Proof. induction s as [|a s IH]; [done|]. by rewrite string_app_cons, IH. Qed.

Lemma string_length_app (s t : string) :
  String.length (s +:+ t) = String.length s + String.length t.
Proof. induction s as [|a s IH]; [done|]. rewrite string_app_cons. simpl. by rewrite IH. Qed.

Lemma string_app_assoc (s t u : string) : (s +:+ t) +:+ u = s +:+ (t +:+ u).
Proof. induction s as [|a s IH]; [done|]. by rewrite !string_app_cons, IH. Qed.

Lemma strip_prefix_Some p s r : strip_prefix p s = Some r <-> s = p +:+ r.
Proof.
  revert s; induction p as [|a p IH]; intros s; simpl.
  - split; [by intros [= ->]|by intros ->].
  - destruct s as [|b s]; [by split|].
    destruct (Ascii.eqb_spec a b) as [->|Hne].
    + rewrite IH. split; [by intros ->|by intros [= ->]].
    + split; [done|by intros [= ->]].
Qed.

Lemma starts_with_spec p s : starts_with p s = true <-> exists r, s = p +:+ r.
Proof.
  unfold starts_with. split.
  - case_match eqn:E; [|done]. apply strip_prefix_Some in E. eauto.
  - intros [r Hr]. apply strip_prefix_Some in Hr. by rewrite Hr.
Qed.

Lemma split_on_nonempty c s : split_on c s <> [].
Proof. destruct s; simpl; [done|]. repeat case_match; done. Qed.

(** Splitting and joining again gives the string back. *)
Lemma join_split c s : join_with c (split_on c s) = s.
Proof.
  induction s as [|a s IH]; [done|]; simpl.
  destruct (Ascii.eqb_spec a c) as [->|Hne].
  - pose proof (split_on_nonempty c s). rewrite <- IH at 2.
    by destruct (split_on c s).
  - destruct (split_on c s) as [|w ws]; simpl in *; [by subst|].
    rewrite <- IH. by destruct ws.
Qed.

(** No piece of a split holds the separator. *)
Lemma split_on_no_sep c s w : w ∈ split_on c s -> contains_char c w = false.
Proof.
  revert w; induction s as [|a s IH]; intros w; simpl.
  - rewrite list_elem_of_singleton. by intros ->.
  - destruct (Ascii.eqb_spec a c) as [->|Hne].
    + intros [->|Hw]%elem_of_cons; auto.
    + destruct (split_on c s) as [|w0 ws] eqn:E.
      * by destruct (split_on_nonempty c s).
      * intros [->|Hw]%elem_of_cons; simpl.
        -- destruct (Ascii.eqb_spec a c); [done|]. apply IH. set_solver.
        -- apply IH. set_solver.
Qed.

(** Splitting a piece without separators followed by a separator. *)
Lemma split_on_app_sep c w s :
  contains_char c w = false ->
  split_on c (w +:+ String c s) = w :: split_on c s.
Proof.
  induction w as [|a w IH]; simpl; intros H.
  - by rewrite Ascii.eqb_refl.
  - apply orb_false_iff in H as [Ha Hw]. rewrite Ha. change (String.append w ?x) with (w +:+ x).
    by rewrite IH.
Qed.

Lemma split_on_single c w : contains_char c w = false -> split_on c w = [w].
Proof.
  induction w as [|a w IH]; [done|]; simpl; intros H.
  apply orb_false_iff in H as [Ha Hw]. rewrite Ha. by rewrite IH.
Qed.

Lemma split_join c ws :
  ws <> [] -> Forall (fun w => contains_char c w = false) ws ->
  split_on c (join_with c ws) = ws.
Proof.
  intros Hne HF. induction ws as [|w ws IH]; [done|].
  apply Forall_cons in HF as [Hw HF].
  destruct ws as [|w' ws]; [by apply split_on_single|].
  simpl join_with. rewrite split_on_app_sep by done. f_equal. by apply IH.
Qed.

(** ** Lemmas on the list idioms *)

Lemma omap_cons_eq {A B} (f : A -> option B) x (l : list A) :
  omap f (x :: l) = match f x with Some y => y :: omap f l | None => omap f l end.
Proof. reflexivity. Qed.

Section Dedup.
Context {A : Type} `{EqDecision A}.
Implicit Types (x : A) (xs : list A).

Lemma elem_of_push_unique xs x y : y ∈ push_unique xs x <-> y ∈ xs \/ y = x.
Proof. unfold push_unique. case_decide as Hin; set_solver. Qed.

Lemma NoDup_push_unique xs x : NoDup xs -> NoDup (push_unique xs x).
Proof.
  unfold push_unique. intros Hnd. case_decide; [done|].
  apply NoDup_app. split_and!; [done| |apply NoDup_singleton]. set_solver.
Qed.

Lemma elem_of_foldl_push xs acc y :
  y ∈ foldl push_unique acc xs <-> y ∈ acc \/ y ∈ xs.
Proof.
  revert acc; induction xs as [|x xs IH]; intros acc; simpl.
  - set_solver.
  - rewrite IH, elem_of_push_unique. set_solver.
Qed.

Lemma NoDup_foldl_push xs acc : NoDup acc -> NoDup (foldl push_unique acc xs).
Proof.
  revert acc; induction xs; simpl; intros; auto using NoDup_push_unique.
Qed.

Lemma elem_of_dedup_first xs y : y ∈ dedup_first xs <-> y ∈ xs.
Proof. unfold dedup_first. rewrite elem_of_foldl_push. set_solver. Qed.

Lemma NoDup_dedup_first xs : NoDup (dedup_first xs).
Proof. apply NoDup_foldl_push, NoDup_nil_2. Qed.
End Dedup.

#[export] Hint Rewrite @elem_of_dedup_first @elem_of_foldl_push @elem_of_push_unique : crew.
#[export] Hint Resolve NoDup_dedup_first NoDup_foldl_push NoDup_push_unique : crew.

(** ** Lemmas on cutting a concatenation back into its parts *)

Lemma app_inj_length (a b x y : string) :
  String.length a = String.length b -> a +:+ x = b +:+ y -> a = b /\ x = y.
Proof.
  revert b; induction a as [|c a IH]; intros [|d b] Hl Heq; try done.
  rewrite !string_app_cons in Heq. injection Heq as -> Heq.
  injection Hl as Hl. by destruct (IH b Hl Heq) as [-> ->].
Qed.

Lemma app_inj_suffix (a b x y : string) :
  String.length x = String.length y -> a +:+ x = b +:+ y -> a = b /\ x = y.
Proof.
  intros Hl Heq. apply app_inj_length; [|done].
  apply (f_equal String.length) in Heq. rewrite !string_length_app in Heq. lia.
Qed.

Lemma app_inj_sep c (a b x y : string) :
  contains_char c a = false -> contains_char c b = false ->
  a +:+ String c x = b +:+ String c y -> a = b /\ x = y.
Proof.
  revert b; induction a as [|d a IH]; intros [|e b] Ha Hb Heq;
    rewrite ?string_app_cons in Heq; cbn in Heq, Ha, Hb; inversion Heq; subst.
  - done.
  - by rewrite Ascii.eqb_refl in Hb.
  - by rewrite Ascii.eqb_refl in Ha.
  - bool_prop. by destruct (IH b) as [-> ->].
Qed.

Lemma all_chars_excludes f c s :
  f c = false -> all_chars f s = true -> contains_char c s = false.
Proof.
  intros Hf. induction s as [|a s IH]; [done|]. cbn. intros. bool_prop.
  rewrite IH by done. destruct (Ascii.eqb_spec a c); [congruence|done].
Qed.

Lemma to_decimal_digits n : all_chars is_ascii_digit (to_decimal n) = true.
Proof. unfold to_decimal. induction (N.to_uint n); cbn; auto. Qed.

Lemma to_decimal_no_char c n :
  is_ascii_digit c = false -> contains_char c (to_decimal n) = false.
Proof. intros Hc. apply (all_chars_excludes is_ascii_digit); [done|apply to_decimal_digits]. Qed.

Lemma to_decimal_inj n m : to_decimal n = to_decimal m -> n = m.
Proof.
  unfold to_decimal. intros H.
  apply (f_equal NilEmpty.uint_of_string) in H. rewrite !NilEmpty.usu in H.
  injection H as H. by apply DecimalN.Unsigned.to_uint_inj.
Qed.

Lemma to_decimal_nonempty n : to_decimal n <> "".
Proof.
  destruct n as [|p]; [done|]. intros H.
  unfold to_decimal in H. destruct (N.to_uint (N.pos p)) eqn:E; cbn in H; try done.
  apply (f_equal N.of_uint) in E. by rewrite DecimalN.Unsigned.of_to in E.
Qed.

(** Parsing what [to_string] printed gives the number back when it fits. *)
Fixpoint uint_value (acc : N) (s : string) : N :=
  match s with
  | EmptyString => acc
  | String c s' => uint_value (10 * acc + (N_of_ascii c - 48)) s'
  end.

Lemma uint_value_grows s acc : (acc <= uint_value acc s)%N.
Proof.
  revert acc. induction s as [|c s IH]; intros acc; cbn [uint_value]; [lia|].
  etrans; [|apply IH]. lia.
Qed.

Lemma parse_digits_value bound s acc :
  all_chars is_ascii_digit s = true -> (uint_value acc s < bound)%N ->
  parse_digits bound acc s = Some (uint_value acc s).
Proof.
  revert acc. induction s as [|c s IH]; intros acc Hd Hb; [done|].
  cbn [all_chars parse_digits uint_value] in *. bool_prop.
  match goal with H : is_ascii_digit c = true |- _ => rewrite H end. cbv zeta.
  pose proof (uint_value_grows s (10 * acc + (N_of_ascii c - 48))).
  rewrite (proj2 (N.ltb_lt _ bound)) by lia. by apply IH.
Qed.

Lemma uint_value_pos d p :
  uint_value (N.pos p) (NilEmpty.string_of_uint d) = N.pos (Pos.of_uint_acc d p).
Proof.
  revert p. induction d; intros p; [done|..];
    cbn -[Pos.mul Pos.add N.mul N.add N.sub];
    match goal with IH : forall p, _ = _ |- _ = N.pos (Pos.of_uint_acc _ ?q) =>
      rewrite <- (IH q); f_equal; lia end.
Qed.

Lemma uint_value_to_decimal n : uint_value 0 (to_decimal n) = n.
Proof.
  unfold to_decimal. rewrite <- (DecimalN.Unsigned.of_to n) at 2.
  generalize (N.to_uint n). intros d. induction d as [|d IHd|d _|d _|d _|d _|d _|d _|d _|d _|d _];
    [done|exact IHd|..]; exact (uint_value_pos d _).
Qed.

Lemma parse_uint_to_decimal bound n :
  (n < bound)%N -> parse_uint bound (to_decimal n) = Some n.
Proof.
  intros Hb. pose proof (to_decimal_nonempty n) as Hne.
  pose proof (to_decimal_digits n) as Hd. pose proof (uint_value_to_decimal n) as Hv.
  unfold parse_uint. destruct (to_decimal n) as [|c s]; [done|].
  assert (parse_digits bound 0 (String c s) = Some n) as Hp.
  { rewrite parse_digits_value, Hv; [done|done|by rewrite Hv]. }
  cbn [all_chars] in Hd. bool_prop.
  destruct c as [[] [] [] [] [] [] [] []]; done.
Qed.

(** ** Sorting *)

Section sorting.
Context {A : Type} (le : A -> A -> bool).

Lemma insert_by_perm x l : insert_by le x l ≡ₚ x :: l.
Proof.
  induction l as [|y l IH]; cbn; [done|]. destruct (le x y); [done|].
  rewrite IH. constructor.
Qed.

Lemma sort_by_perm l : sort_by le l ≡ₚ l.
Proof. induction l as [|x l IH]; cbn; [done|]. by rewrite insert_by_perm, IH. Qed.

Lemma length_sort_by l : length (sort_by le l) = length l.
Proof. apply Permutation_length, sort_by_perm. Qed.

Lemma elem_of_sort_by l x : x ∈ sort_by le l <-> x ∈ l.
Proof. by rewrite sort_by_perm. Qed.

Context (le_total : forall x y, le x y = true \/ le y x = true)
        (le_trans : forall x y z, le x y = true -> le y z = true -> le x z = true).

Lemma insert_by_sorted x l :
  StronglySorted (fun a b => le a b = true) l ->
  StronglySorted (fun a b => le a b = true) (insert_by le x l).
Proof.
  induction 1 as [|y l Hs IH Hall]; cbn; [by repeat constructor|].
  destruct (le x y) eqn:E.
  - constructor; [by constructor|]. constructor; [done|].
    eapply Forall_impl; [exact Hall|]. eauto.
  - constructor; [done|]. rewrite insert_by_perm. constructor; [|done].
    by destruct (le_total x y); [congruence|].
Qed.

Lemma sort_by_sorted l : StronglySorted (fun a b => le a b = true) (sort_by le l).
Proof. induction l; cbn; [constructor|]. by apply insert_by_sorted. Qed.

Lemma sort_by_id l : StronglySorted (fun a b => le a b = true) l -> sort_by le l = l.
Proof.
  induction 1 as [|y l Hs IH Hall]; cbn; [done|]. fold (sort_by le l). rewrite IH.
  destruct l as [|z l]; [done|]. cbn. inversion Hall as [|?? Hz]; subst. by rewrite Hz.
Qed.
End sorting.

(** The bytewise order of strings. *)
Lemma string_leb_cons a b s t :
  String.leb (String a s) (String b t) = true <->
  (N_of_ascii a < N_of_ascii b)%N \/ (a = b /\ String.leb s t = true).
Proof.
  unfold String.leb. cbn. unfold Ascii.compare.
  destruct (N.compare_spec (N_of_ascii a) (N_of_ascii b)) as [E|E|E].
  - apply (f_equal ascii_of_N) in E. rewrite !ascii_N_embedding in E. subst b.
    split; [|intros [?|[_ ?]]; [lia|done]]. auto.
  - split; auto.
  - split; [done|]. intros [?|[-> _]]; lia.
Qed.

Lemma string_leb_trans s t u :
  String.leb s t = true -> String.leb t u = true -> String.leb s u = true.
Proof.
  revert t u. induction s as [|a s IH]; intros [|b t] [|c u]; try done.
  rewrite !string_leb_cons. intros [?|[-> ?]] [?|[<- ?]]; eauto.
  left. lia.
Qed.

(** ** Hash functions *)

(** A function does not collide on two given inputs. *)
Definition no_collision {A} (h : string -> A) (m m' : string) : Prop := h m = h m' -> m = m'.
