(* ===== verification/Binary64.v ===== *)
(** Non-negative binary64 arithmetic as the backoff computation uses it, and
    [Duration::from_secs_f64].

    A finite non-negative [f64] is the number of times it holds [2 ^ -1074], the
    smallest subnormal, so every value is an integer and every operation rounds
    a quotient of two integers: to the nearest value with 53 significant bits,
    ties to even.  Overflow beyond [2 ^ 1024] is not represented; the values
    of the program stay below [2 ^ 10]. *)

From S2P Require Import Prelude.

Local Open Scope N_scope.

Definition UNIT : N := 2 ^ 1074.

(** The integer nearest to [n / d], ties to even. *)
Definition nearest_even (n d : N) : N :=
  let q := n / d in
  let r := n mod d in
  if 2 * r <? d then q else if d <? 2 * r then q + 1 else if N.even q then q else q + 1.

(** [n / d] rounded to 53 significant bits (fewer below the normal range). *)
Definition f64_round (n d : N) : N :=
  let e := N.log2 (n / d) - 52 in
  2 ^ e * nearest_even n (d * 2 ^ e).

(** [n as f64], a decimal literal, and the operators. *)
Definition f64_of_N (n : N) : N := f64_round (n * UNIT) 1.
Definition f64_literal (num den : N) : N := f64_round (num * UNIT) den.
Definition f64_add (a b : N) : N := f64_round (a + b) 1.
Definition f64_mul (a b : N) : N := f64_round (a * b) UNIT.
Definition f64_div (a b : N) : N := f64_round (a * UNIT) b.

(** [Duration::from_secs_f64], in nanoseconds: rounded to the nearest one. *)
Definition from_secs_f64 (x : N) : N := nearest_even (x * 1000000000) UNIT.

(** ** Rounding errors *)

Lemma nearest_even_error n d :
  0 < d -> 2 * (d * nearest_even n d) <= 2 * n + d /\ 2 * n <= 2 * (d * nearest_even n d) + d.
Proof.
  intros Hd. unfold nearest_even.
  pose proof (N.div_mod n d ltac:(lia)) as Hdm. pose proof (N.mod_lt n d ltac:(lia)) as Hlt.
  set (q := n / d) in *. set (r := n mod d) in *. clearbody q r.
  destruct (N.ltb_spec (2 * r) d); [nia|].
  destruct (N.ltb_spec d (2 * r)); [nia|].
  destruct (N.even q); nia.
Qed.

(** Half a unit in the last place, plus one unit for the subnormal range. *)
Lemma f64_round_error n d :
  0 < d ->
  2 ^ 53 * (d * f64_round n d) <= (2 ^ 53 + 1) * n + 2 ^ 53 * d /\
  (2 ^ 53 - 1) * n <= 2 ^ 53 * (d * f64_round n d) + 2 ^ 53 * d.
Proof.
  intros Hd. unfold f64_round. set (e := N.log2 (n / d) - 52).
  assert (d * 2 ^ e * 2 ^ 52 <= n \/ e = 0) as Hulp.
  { destruct (N.le_gt_cases (N.log2 (n / d)) 52) as [|Hlog]; [right; unfold e; lia|left].
    assert (0 < n / d) as Hpos by (destruct (n / d); [done|lia]).
    rewrite <- N.mul_assoc, <- N.pow_add_r. replace (e + 52) with (N.log2 (n / d)) by (unfold e; lia).
    transitivity (d * (n / d)); [|by apply N.Div0.mul_div_le].
    apply N.mul_le_mono_l, N.log2_spec, Hpos. }
  assert (0 < 2 ^ e) as He by (apply N.neq_0_lt_0, N.pow_nonzero; done).
  assert (0 < d * 2 ^ e) as HD by (apply N.mul_pos_pos; done).
  destruct (nearest_even_error n (d * 2 ^ e) HD) as [Hu Hl].
  rewrite (N.mul_assoc d). set (D := d * 2 ^ e) in *. set (v := D * nearest_even n D) in *.
  change (2 ^ 53) with 9007199254740992. change (2 ^ 52) with 4503599627370496 in Hulp.
  assert (e = 0 -> D = d) by (intros E; unfold D; by rewrite E, N.mul_1_r).
  clearbody D v. clearbody e. destruct Hulp as [Hulp|He0]; [lia|]. specialize (H He0). lia.
Qed.

(** The same with a per-mille margin, for upper bounds that have room. *)
Lemma f64_round_upper n d : 0 < d -> 1000 * (d * f64_round n d) <= 1001 * n + 1000 * d.
Proof.
  intros Hd. destruct (f64_round_error n d Hd) as [Hu _].
  change (2 ^ 53) with 9007199254740992 in Hu. lia.
Qed.

Lemma UNIT_big : 1000000000000000000 <= UNIT.
Proof. apply N.leb_le. vm_compute. reflexivity. Qed.

(** Bounds of the operators on operands given in units. *)
Lemma f64_add_upper a b : 1000 * f64_add a b <= 1001 * (a + b) + 1000.
Proof. pose proof (f64_round_upper (a + b) 1). unfold f64_add. lia. Qed.

Lemma f64_add_lower a b : (2 ^ 53 - 1) * (a + b) <= 2 ^ 53 * f64_add a b + 2 ^ 53.
Proof. pose proof (f64_round_error (a + b) 1 eq_refl) as [_ Hl]. unfold f64_add. lia. Qed.

Lemma f64_of_N_upper n : 1000 * f64_of_N n <= 1001 * (n * UNIT) + 1000.
Proof. pose proof (f64_round_upper (n * UNIT) 1). unfold f64_of_N. lia. Qed.

(** Multiplying or dividing by an integer [k], whose value is [k * UNIT]. *)
Lemma f64_mul_int_upper k b : 1000 * f64_mul (k * UNIT) b <= 1001 * (k * b) + 1000.
Proof.
  pose proof UNIT_big. pose proof (f64_round_upper (k * UNIT * b) UNIT ltac:(lia)) as Hu.
  unfold f64_mul. nia.
Qed.

Lemma f64_mul_int_lower k b : (2 ^ 53 - 1) * (k * b) <= 2 ^ 53 * f64_mul (k * UNIT) b + 2 ^ 53.
Proof.
  pose proof UNIT_big as HU. pose proof (f64_round_error (k * UNIT * b) UNIT ltac:(lia)) as [_ Hl].
  unfold f64_mul. change (2 ^ 53) with 9007199254740992 in *.
  replace (k * UNIT * b) with (UNIT * (k * b)) in * by lia.
  apply (N.mul_le_mono_pos_l _ _ UNIT); [lia|]. lia.
Qed.

Lemma f64_div_int_upper a k : 0 < k -> 1000 * (k * f64_div a (k * UNIT)) <= 1001 * a + 1000 * k.
Proof.
  intros Hk. pose proof UNIT_big. pose proof (f64_round_upper (a * UNIT) (k * UNIT) ltac:(nia)) as Hu.
  unfold f64_div. apply (N.mul_le_mono_pos_l _ _ UNIT); [lia|]. lia.
Qed.

(** Integers of at most 53 bits are represented exactly. *)
Lemma nearest_even_multiple k d : 0 < d -> nearest_even (k * d) d = k.
Proof.
  intros Hd. unfold nearest_even. rewrite N.Div0.mod_mul, N.div_mul by lia.
  by destruct (N.ltb_spec (2 * 0) d); [|lia].
Qed.

Lemma f64_of_N_exact n : n < 2 ^ 53 -> f64_of_N n = n * UNIT.
Proof.
  intros Hn. unfold f64_of_N, f64_round. rewrite N.div_1_r, N.mul_1_l.
  set (e := N.log2 (n * UNIT) - 52).
  assert (e <= 1074) as He.
  { destruct (N.eq_dec n 0) as [->|Hpos]; [done|]. unfold e, UNIT.
    rewrite N.log2_mul_pow2 by lia. pose proof (proj1 (N.log2_lt_pow2 n 53 ltac:(lia)) Hn). lia. }
  assert (UNIT = 2 ^ (1074 - e) * 2 ^ e) as ->
    by (unfold UNIT; rewrite <- N.pow_add_r; f_equal; lia).
  rewrite N.mul_assoc, nearest_even_multiple; [by rewrite N.mul_comm|].
  apply N.neq_0_lt_0, N.pow_nonzero. done.
Qed.

(** Proofs use the bounds only. *)
Opaque UNIT f64_round nearest_even.
