(* ===== verification/Nostr.v ===== *)
(** The Nostr vocabulary the components share.

    The [nostr] and [uuid] crates are not part of the repository.  Their plain
    data (an event's fields, a filter's fields) appears as records of exactly
    the fields the modelled code reads; every {e function} of theirs that the
    code calls is a field of the class [NostrLib], a parameter of the model.
    The relay-side wrapper [StoredEvent] is buzz-core/src/event.rs and the
    tenant key [CommunityId] is buzz-core/src/tenant.rs. *)

From S2P Require Import Prelude.

(** [uuid::Uuid]: an opaque 128-bit value, compared by equality only. *)
Abbreviation Uuid := N (only parsing).
(** [nostr::Kind], compared through its [u16] number. *)
Abbreviation Kind := N (only parsing).
(** [nostr::EventId] and [nostr::PublicKey]: opaque 32-byte values. *)
Abbreviation EventId := N (only parsing).
Abbreviation PublicKey := N (only parsing).
(** [nostr::Timestamp]: seconds, ordered. *)
Abbreviation Timestamp := N (only parsing).
(** [nostr::Tag] as [Tag::as_slice] shows it: the NIP-01 array of strings. *)
Abbreviation Tag := (list string) (only parsing).

(** [nostr::SingleLetterTag]: a letter and its case. *)
Record SingleLetterTag := mkSingleLetterTag {
  slt_character : Ascii.ascii;
  slt_uppercase : bool;
}.

#[export] Instance SingleLetterTag_eq_dec : EqDecision SingleLetterTag.
Proof. solve_decision. Defined.
#[export] Instance SingleLetterTag_countable : Countable SingleLetterTag.
Proof.
  apply (inj_countable' (fun t => (slt_character t, slt_uppercase t))
                        (fun p => mkSingleLetterTag p.1 p.2)).
  by intros [].
Defined.

(** [SingleLetterTag::lowercase(Alphabet::P)]. *)
Definition p_tag : SingleLetterTag := mkSingleLetterTag "P"%char false.

(** [nostr::Event], the signed event. *)
Record Event := mkEvent {
  ev_id : EventId;
  ev_pubkey : PublicKey;
  ev_created_at : Timestamp;
  ev_kind : Kind;
  ev_tags : list Tag;
  ev_content : string;
}.

(** [nostr::Filter]: the fields the matching code reads. *)
Record Filter := mkFilter {
  f_ids : option (gset EventId);
  f_authors : option (gset PublicKey);
  f_kinds : option (gset Kind);
  f_since : option Timestamp;
  f_until : option Timestamp;
  f_generic_tags : gmap SingleLetterTag (gset string);
}.

(** The functions of the third-party crates that the modelled code calls. *)
Class NostrLib := {
  (** [tag.kind().to_string()] *)
  tag_kind_string : Tag -> string;
  (** [tag.content()] *)
  tag_content : Tag -> option string;
  (** [Tags::filter(TagKind::SingleLetter(s))] keeps the tag *)
  tag_is_single_letter : SingleLetterTag -> Tag -> bool;
  (** [Display] of a [SingleLetterTag] *)
  single_letter_to_string : SingleLetterTag -> string;
  (** [EventId::to_hex] *)
  event_id_to_hex : EventId -> string;
  (** [Display] of a [Uuid] *)
  uuid_to_string : Uuid -> string;
}.

(** [Uuid::parse_str] of the [uuid] crate. *)
Class UuidLib := { uuid_parse_str : string -> option Uuid }.

(** [hex::decode] (its error carries nothing the code reads) and [hex::encode];
    byte strings ([Vec<u8>], [u8; n]) are [string]s. *)
Class HexLib := {
  hex_decode : string -> option string;
  hex_encode : string -> string;
}.

Class HexLaws `{HexLib} : Prop := { hex_decode_encode : forall b, hex_decode (hex_encode b) = Some b }.

(** [Sha256] of the [sha2] crate: a 32-byte digest. *)
Class Sha256Lib := { sha256_digest : string -> string }.
Class Sha256Laws `{Sha256Lib} : Prop := {
  sha256_length : forall m, String.length (sha256_digest m) = 32%nat;
}.

(** The text [hex::encode] writes: two hexadecimal digits per byte. *)
Class HexTextLaws `{HexLib} : Prop := {
  hex_encode_chars : forall b, all_chars is_ascii_hexdigit (hex_encode b) = true;
  hex_encode_length : forall b, String.length (hex_encode b) = (2 * String.length b)%nat;
}.

(** [Display] of a UUID: hyphenated hexadecimal, injective, of constant length. *)
Class UuidTextLaws `{NostrLib} : Prop := {
  uuid_text_inj : forall u v,
    (u < 2 ^ 128)%N -> (v < 2 ^ 128)%N -> uuid_to_string u = uuid_to_string v -> u = v;
  uuid_text_length : forall u v,
    String.length (uuid_to_string u) = String.length (uuid_to_string v);
}.

(** Documented behaviour of the crates that some theorems rely on: the lower
    case [p] tag prints as its letter, and a 32-byte id prints injectively, as
    hexadecimal of a fixed length. *)
Class NostrLaws `{NostrLib} : Prop := {
  p_tag_display : single_letter_to_string p_tag = "p";
  event_id_hex_inj : forall i j,
    (i < 2 ^ 256)%N -> (j < 2 ^ 256)%N -> event_id_to_hex i = event_id_to_hex j -> i = j;
  event_id_hex_length : forall i j,
    String.length (event_id_to_hex i) = String.length (event_id_to_hex j);
}.

(** buzz-core/src/tenant.rs: the community key, an opaque UUID newtype. *)
Record CommunityId := from_uuid { as_uuid : Uuid }.

#[export] Instance CommunityId_eq_dec : EqDecision CommunityId.
Proof. solve_decision. Defined.
#[export] Instance CommunityId_countable : Countable CommunityId.
Proof. apply (inj_countable' as_uuid from_uuid). by intros []. Defined.

(** buzz-core/src/event.rs: an event with relay-assigned metadata. *)
Record StoredEvent := mkStoredEvent {
  se_event : Event;
  se_received_at : Z;
  se_channel_id : option Uuid;
  se_verified : bool;
}.

(** [StoredEvent::new]; the wall clock is an argument. *)
Definition StoredEvent_new (now : Z) (e : Event) (ch : option Uuid) : StoredEvent :=
  mkStoredEvent e now ch false.

(** [StoredEvent::with_received_at]. *)
Definition StoredEvent_with_received_at
    (e : Event) (received_at : Z) (ch : option Uuid) (verified : bool) : StoredEvent :=
  mkStoredEvent e received_at ch verified.

(** A concrete instance of the third-party interface, used by the witnesses:
    the tag name and its first value, lower-case hexadecimal digits. *)
Module Sample.
Definition kind_string (t : Tag) : string := default "" (t !! 0).
Definition content (t : Tag) : option string := t !! 1.
Definition letter (t : SingleLetterTag) : string :=
  if slt_uppercase t then String (slt_character t) ""
  else String (Ascii.ascii_of_nat (Ascii.nat_of_ascii (slt_character t) + 32)) "".
(** One bit per character, padded: injective on every [N] below [2 ^ n] and
    of constant length. *)
Fixpoint bits (n : nat) (i : N) : string :=
  match n with
  | O => ""
  | S n' => String (if N.odd i then "1" else "0")%char (bits n' (N.div2 i))
  end.

#[export] Instance lib : NostrLib := {|
  tag_kind_string := kind_string;
  tag_content := content;
  tag_is_single_letter := fun s t => bool_decide (kind_string t = letter s);
  single_letter_to_string := letter;
  event_id_to_hex := bits 256;
  uuid_to_string := bits 128;
|}.

Lemma bits_length n i : String.length (bits n i) = n.
Proof. revert i; induction n; intros; simpl; auto. Qed.

Lemma bits_inj n i j :
  (i < 2 ^ N.of_nat n)%N -> (j < 2 ^ N.of_nat n)%N -> bits n i = bits n j -> i = j.
Proof.
  revert i j; induction n as [|n IH]; intros i j Hi Hj Heq.
  - change (2 ^ N.of_nat 0)%N with 1%N in *. lia.
  - rewrite Nat2N.inj_succ, N.pow_succ_r' in Hi, Hj.
    simpl in Heq. injection Heq as Hodd Hrest.
    assert (N.odd i = N.odd j) as Ho by (destruct (N.odd i), (N.odd j); congruence).
    pose proof (N.div2_odd i) as Ei. pose proof (N.div2_odd j) as Ej.
    apply IH in Hrest; [congruence| |]; lia.
Qed.

#[export] Instance laws : NostrLaws.
Proof.
  split; [reflexivity| |].
  - intros i j Hi Hj. apply (bits_inj 256); done.
  - intros i j. cbn [event_id_to_hex lib]. by rewrite !bits_length.
Qed.

#[export] Instance uuid_laws : UuidTextLaws.
Proof.
  split.
  - intros u v Hu Hv. apply (bits_inj 128); done.
  - intros u v. cbn [uuid_to_string lib]. by rewrite !bits_length.
Qed.
End Sample.

(** Real lower-case hexadecimal. *)
Module SampleHex.
Definition digit (n : N) : ascii := ascii_of_N (if (n <? 10)%N then 48 + n else 87 + n).
Definition undigit (c : ascii) : option N :=
  let n := N_of_ascii c in
  if is_ascii_digit c then Some (n - 48)%N
  else if ((97 <=? n) && (n <=? 102))%N then Some (n - 87)%N
  else if ((65 <=? n) && (n <=? 70))%N then Some (n - 55)%N
  else None.

Fixpoint encode (s : string) : string :=
  match s with
  | EmptyString => EmptyString
  | String c s' =>
      let n := N_of_ascii c in String (digit (n / 16)) (String (digit (n mod 16)) (encode s'))
  end.

Fixpoint decode (s : string) : option string :=
  match s with
  | EmptyString => Some EmptyString
  | String a (String b s') =>
      match undigit a, undigit b, decode s' with
      | Some x, Some y, Some r => Some (String (ascii_of_N (16 * x + y)) r)
      | _, _, _ => None
      end
  | String _ EmptyString => None
  end.

#[export] Instance lib : HexLib := {| hex_decode := decode; hex_encode := encode |}.

Lemma undigit_digit n : (n < 16)%N -> undigit (digit n) = Some n.
Proof.
  intros Hn. assert (forallb (fun k => bool_decide (undigit (digit (N.of_nat k)) = Some (N.of_nat k)))
    (seq 0 16) = true) as Hall by (vm_compute; reflexivity).
  rewrite forallb_forall in Hall. specialize (Hall (N.to_nat n)).
  rewrite N2Nat.id in Hall. eapply bool_decide_eq_true_1, Hall, in_seq. lia.
Qed.

Lemma decode_encode s : decode (encode s) = Some s.
Proof.
  induction s as [|c s IH]; [done|]. cbn [encode decode].
  pose proof (N_ascii_bounded c). pose proof (N.div_mod (N_of_ascii c) 16).
  rewrite !undigit_digit, IH.
  - rewrite <- N.div_mod by lia. by rewrite ascii_N_embedding.
  - apply N.mod_lt. lia.
  - apply N.Div0.div_lt_upper_bound. lia.
Qed.

#[export] Instance laws : HexLaws := {| hex_decode_encode := decode_encode |}.

Lemma digit_hex n : (n < 16)%N -> is_ascii_hexdigit (digit n) = true.
Proof.
  intros Hn. assert (forallb (fun k => is_ascii_hexdigit (digit (N.of_nat k)))
    (seq 0 16) = true) as Hall by (vm_compute; reflexivity).
  rewrite forallb_forall in Hall. specialize (Hall (N.to_nat n)).
  rewrite N2Nat.id in Hall. apply Hall, in_seq. lia.
Qed.

#[export] Instance text_laws : HexTextLaws.
Proof.
  split; intros b; induction b as [|c b IH]; try done; cbn [hex_encode lib encode all_chars String.length] in *.
  - pose proof (N_ascii_bounded c). rewrite !digit_hex, IH; [done|..].
    + apply N.mod_lt. lia.
    + apply N.Div0.div_lt_upper_bound. lia.
  - cbn [hex_encode lib] in IH. rewrite IH. lia.
Qed.
End SampleHex.
