(* ===== verification/Filter.v ===== *)
(** NIP-01 filter matching, buzz-core/src/filter.rs. *)

From S2P Require Import Prelude Nostr.

(** buzz-core/src/kind.rs. *)
Definition KIND_DM_VISIBILITY : N := 30622.
Definition KIND_AGENT_TURN_METRIC : N := 44200.

Section Filter.
Context `{NostrLib}.

(** One iteration of the loop over [f.generic_tags]; [false] is the loop's
    early [return false]. *)
Definition tag_clause (ev : StoredEvent) (clause : SingleLetterTag * gset string) : bool :=
  let '(tag_key, tag_values) := clause in
  let tag_key_str := single_letter_to_string tag_key in
  let tags := ev_tags (se_event ev) in
  let has_match :=
    existsb (fun filter_val =>
      existsb (fun event_val => bool_decide (event_val = filter_val))
        (omap tag_content
           (List.filter (fun t => bool_decide (tag_kind_string t = tag_key_str)) tags)))
      (elements tag_values) in
  if negb has_match && bool_decide (tag_key_str = "h") then
    let event_has_h_tags :=
      existsb (fun t => bool_decide (tag_kind_string t = "h")) tags in
    if negb event_has_h_tags then
      match se_channel_id ev with
      | Some ch_id =>
          let ch_str := uuid_to_string ch_id in
          existsb (fun v => bool_decide (v = ch_str)) (elements tag_values)
      | None => false
      end
    else false
  else has_match.

Definition filter_match_one (f : Filter) (ev : StoredEvent) : bool :=
  let e := se_event ev in
  if match f_kinds f with Some kinds => negb (bool_decide (ev_kind e ∈ kinds)) | None => false end
  then false
  else if match f_authors f with
          | Some authors => negb (bool_decide (ev_pubkey e ∈ authors)) | None => false end
  then false
  else if match f_since f with Some since => N.ltb (ev_created_at e) since | None => false end
  then false
  else if match f_until f with Some until => N.ltb until (ev_created_at e) | None => false end
  then false
  else if match f_ids f with
          | Some ids =>
              negb (existsb (fun i => starts_with (event_id_to_hex i) (event_id_to_hex (ev_id e)))
                      (elements ids))
          | None => false end
  then false
  else forallb (tag_clause ev) (map_to_list (f_generic_tags f)).

Definition filters_match (filters : list Filter) (ev : StoredEvent) : bool :=
  existsb (fun f => filter_match_one f ev) filters.

Definition reader_authorized_for_event (e : Event) (reader_pubkey_hex : string) : bool :=
  let kind := ev_kind e in
  if negb (N.eqb kind KIND_DM_VISIBILITY) && negb (N.eqb kind KIND_AGENT_TURN_METRIC)
  then true
  else existsb (fun t => bool_decide (tag_content t = Some reader_pubkey_hex))
         (List.filter (tag_is_single_letter p_tag) (ev_tags e)).

(** ** Declarative reading of a filter *)

(** Some tag of the event named by the clause's letter carries one of the
    clause's values. *)
Definition tag_hit (ev : StoredEvent) (name : string) (values : gset string) : Prop :=
  exists t v, t ∈ ev_tags (se_event ev) /\ tag_kind_string t = name /\
              tag_content t = Some v /\ v ∈ values.

(** The channel fallback: only for [h], only when the event has no [h] tag. *)
Definition channel_hit (ev : StoredEvent) (name : string) (values : gset string) : Prop :=
  name = "h" /\
  (forall t, t ∈ ev_tags (se_event ev) -> tag_kind_string t <> "h") /\
  exists ch, se_channel_id ev = Some ch /\ uuid_to_string ch ∈ values.

Record filter_accepts (f : Filter) (ev : StoredEvent) : Prop := {
  fa_kinds : forall ks, f_kinds f = Some ks -> ev_kind (se_event ev) ∈ ks;
  fa_authors : forall ps, f_authors f = Some ps -> ev_pubkey (se_event ev) ∈ ps;
  fa_since : forall t, f_since f = Some t -> (t <= ev_created_at (se_event ev))%N;
  fa_until : forall t, f_until f = Some t -> (ev_created_at (se_event ev) <= t)%N;
  fa_ids : forall ids, f_ids f = Some ids ->
    exists i, i ∈ ids /\
      starts_with (event_id_to_hex i) (event_id_to_hex (ev_id (se_event ev))) = true;
  fa_tags : forall k vs, f_generic_tags f !! k = Some vs ->
    tag_hit ev (single_letter_to_string k) vs \/
    channel_hit ev (single_letter_to_string k) vs;
}.

(** ** Lemmas *)

Lemma existsb_elem_of {A} (p : A -> bool) (l : list A) :
  existsb p l = true <-> exists x, x ∈ l /\ p x = true.
Proof.
  rewrite existsb_exists. by setoid_rewrite list_elem_of_In.
Qed.

Lemma has_match_spec ev name (values : gset string) :
  existsb (fun filter_val =>
    existsb (fun event_val => bool_decide (event_val = filter_val))
      (omap tag_content
         (List.filter (fun t => bool_decide (tag_kind_string t = name)) (ev_tags (se_event ev)))))
    (elements values) = true <-> tag_hit ev name values.
Proof.
  rewrite existsb_elem_of. setoid_rewrite existsb_elem_of.
  setoid_rewrite list_elem_of_omap. setoid_rewrite list_elem_of_In.
  setoid_rewrite filter_In. setoid_rewrite <- list_elem_of_In.
  setoid_rewrite bool_decide_eq_true. setoid_rewrite elem_of_elements.
  unfold tag_hit. naive_solver.
Qed.

Lemma has_h_spec ev :
  existsb (fun t => bool_decide (tag_kind_string t = "h")) (ev_tags (se_event ev)) = false <->
  forall t, t ∈ ev_tags (se_event ev) -> tag_kind_string t <> "h".
Proof.
  rewrite <- not_true_iff_false, existsb_elem_of.
  setoid_rewrite bool_decide_eq_true. naive_solver.
Qed.

Lemma tag_clause_spec ev k vs :
  tag_clause ev (k, vs) = true <->
  tag_hit ev (single_letter_to_string k) vs \/
  channel_hit ev (single_letter_to_string k) vs.
Proof.
  unfold tag_clause. pose proof (has_match_spec ev (single_letter_to_string k) vs) as Hm.
  destruct (existsb _ (elements vs)) eqn:E; simpl.
  - naive_solver.
  - assert (~ tag_hit ev (single_letter_to_string k) vs) as Hno by naive_solver.
    unfold channel_hit. case_bool_decide as Hh; [|naive_solver].
    pose proof (has_h_spec ev) as Hs.
    destruct (existsb _ (ev_tags _)) eqn:Eh; simpl.
    + split; [done|]. intros [?|(_ & Hn & _)]; [done|].
      by apply Hs in Hn.
    + destruct (se_channel_id ev) as [ch|]; [|naive_solver].
      rewrite existsb_elem_of. setoid_rewrite bool_decide_eq_true.
      setoid_rewrite elem_of_elements. naive_solver.
Qed.

Lemma guard_spec {A} (o : option A) (bad : A -> bool) :
  match o with Some a => bad a | None => false end = false <->
  forall a, o = Some a -> bad a = false.
Proof. destruct o; naive_solver. Qed.

Lemma if_false_then (b c : bool) : (if b then false else c) = true <-> b = false /\ c = true.
Proof. destruct b; naive_solver. Qed.

(** The matcher decides the declarative reading. *)
Lemma filter_match_one_spec f ev : filter_match_one f ev = true <-> filter_accepts f ev.
Proof.
  unfold filter_match_one. rewrite !if_false_then, !guard_spec, forallb_forall.
  setoid_rewrite <- list_elem_of_In.
  setoid_rewrite negb_false_iff. setoid_rewrite bool_decide_eq_true.
  setoid_rewrite N.ltb_ge. setoid_rewrite existsb_elem_of. setoid_rewrite elem_of_elements.
  split.
  - intros (?&?&?&?&?&Ht). split; auto.
    intros k vs Hk. apply tag_clause_spec, Ht. by apply elem_of_map_to_list.
  - intros []. split_and!; auto.
    intros [k vs] Hk. apply tag_clause_spec. apply elem_of_map_to_list in Hk. auto.
Qed.

Lemma filters_match_spec fs ev :
  filters_match fs ev = true <-> exists f, f ∈ fs /\ filter_accepts f ev.
Proof.
  unfold filters_match. rewrite existsb_elem_of.
  by setoid_rewrite filter_match_one_spec.
Qed.

Lemma starts_with_same_length p s :
  String.length p = String.length s -> starts_with p s = true -> p = s.
Proof.
  intros Hl [r ->]%starts_with_spec. rewrite string_length_app in Hl.
  destruct r; [|simpl in Hl; lia]. by rewrite string_app_nil_r.
Qed.
End Filter.

(** ** Properties *)
Section FilterProperties.
Context `{NostrLib} `{!NostrLaws}.

(** A list of filters matches exactly when one of them accepts the event
    on every constrained field: kind, author, the closed time window, and
    each tag clause (through a tag of the event, or, for [h] only and only
    when the event carries no [h] tag, through its stored channel).  The id
    clause is exact membership: although the code compares by prefix, both
    sides are full 32-byte ids. *)
Theorem filters_match_correct (fs : list Filter) (ev : StoredEvent) :
  (ev_id (se_event ev) < 2 ^ 256)%N ->
  (forall f ids i, f ∈ fs -> f_ids f = Some ids -> i ∈ ids -> (i < 2 ^ 256)%N) ->
  filters_match fs ev = true <->
  exists f, f ∈ fs /\ filter_accepts f ev /\
            (forall ids, f_ids f = Some ids -> ev_id (se_event ev) ∈ ids).
Proof.
  intros Hid Hids. rewrite filters_match_spec. split; [|naive_solver].
  intros (f & Hf & Hacc). exists f. split_and!; [done..|]. intros ids Hi.
  destruct (fa_ids f ev Hacc ids Hi) as (i & Hin & Hpre).
  apply starts_with_same_length in Hpre; [|apply event_id_hex_length].
  apply event_id_hex_inj in Hpre; [by subst|eauto|done].
Qed.
End FilterProperties.

Import Sample.

(** A chat message of channel 7 that carries no [h] tag. *)
Definition sample_event : StoredEvent :=
  mkStoredEvent (mkEvent 5 3 100 9 [["p"; "alice"]; ["e"; "x"]] "hi") 0 (Some 7%N) true.

(** A filter on kinds, time window, recipient and channel. *)
Definition sample_filter : Filter :=
  mkFilter (Some {[5%N]}) None (Some {[9%N; 7%N]}) (Some 100%N) (Some 100%N)
    {[p_tag := {["alice"]};
      mkSingleLetterTag "H"%char false := {[Sample.bits 128 7]}]}.

Lemma filters_match_correct_witness :
  filters_match [sample_filter] sample_event = true /\
  exists f, f ∈ [sample_filter] /\ filter_accepts f sample_event /\
            (forall ids, f_ids f = Some ids -> ev_id (se_event sample_event) ∈ ids).
Proof.
  split; [vm_compute; reflexivity|].
  apply (filters_match_correct [sample_filter] sample_event).
  - vm_compute. reflexivity.
  - intros f ids i ->%list_elem_of_singleton [= <-] ->%elem_of_singleton. vm_compute. reflexivity.
  - vm_compute. reflexivity.
Defined.
