(* ===== verification/Subscription.v ===== *)
(** The relay's subscription registry, buzz-relay/src/subscription.rs.

    The five [DashMap] indexes and the authoritative [subs] table are [gmap]s
    of one record; each public method is a function from registry to registry.
    The [buzz_subscriptions_active] gauge is a field, so that its drift can be
    stated.  A [HashMap] is iterated in [map_to_list] order: the order is not
    observable in what the methods promise, and no theorem depends on it. *)

From S2P Require Import Prelude Nostr Filter.

(** [ConnId] and [SubId]; an index row names a subscription by the pair. *)
Abbreviation ConnId := N (only parsing).
Abbreviation SubId := string (only parsing).
Abbreviation Entry := (N * string)%type (only parsing).

Inductive SubscriptionScope :=
| Global
| Channels (channels : list Uuid).

#[export] Instance SubscriptionScope_eq_dec : EqDecision SubscriptionScope.
Proof. solve_decision. Defined.

Abbreviation SubEntry := (list Filter * CommunityId * SubscriptionScope)%type (only parsing).

Definition matches_channel (scope : SubscriptionScope) (channel_id : option Uuid) : bool :=
  match scope, channel_id with
  | Global, None => true
  | Channels channels, Some ch => bool_decide (ch ∈ channels)
  | _, _ => false
  end.

Definition channel_ids (scope : SubscriptionScope) : list Uuid :=
  match scope with Global => [] | Channels channels => channels end.

Definition is_global (scope : SubscriptionScope) : bool :=
  match scope with Global => true | _ => false end.

Record IndexKey := mkIndexKey { ik_channel_id : Uuid; ik_kind : Kind }.

Record GlobalPKindIndexKey := mkGlobalPKindIndexKey {
  gk_community_id : CommunityId;
  gk_kind : Kind;
  gk_p : string;
}.

#[export] Instance IndexKey_eq_dec : EqDecision IndexKey.
Proof. solve_decision. Defined.
#[export] Instance IndexKey_countable : Countable IndexKey.
Proof.
  apply (inj_countable' (fun k => (ik_channel_id k, ik_kind k))
                        (fun p => mkIndexKey p.1 p.2)). by intros [].
Defined.
#[export] Instance GlobalPKindIndexKey_eq_dec : EqDecision GlobalPKindIndexKey.
Proof. solve_decision. Defined.
#[export] Instance GlobalPKindIndexKey_countable : Countable GlobalPKindIndexKey.
Proof.
  apply (inj_countable' (fun k => (gk_community_id k, gk_kind k, gk_p k))
                        (fun p => mkGlobalPKindIndexKey p.1.1 p.1.2 p.2)). by intros [].
Defined.

Record RemovedSubscription := mkRemoved {
  rs_sub_id : SubId;
  rs_community_id : CommunityId;
  rs_scope : SubscriptionScope;
}.

Record ChannelSubscriptionUpdate := mkUpdate {
  cu_sub_id : SubId;
  cu_removed : bool;
}.

Record SubscriptionRegistry := mkRegistry {
  subs : gmap ConnId (gmap SubId SubEntry);
  channel_kind_index : gmap (CommunityId * IndexKey) (list Entry);
  channel_wildcard_index : gmap (CommunityId * Uuid) (list Entry);
  global_kind_index : gmap (CommunityId * Kind) (list Entry);
  global_p_kind_index : gmap GlobalPKindIndexKey (list Entry);
  global_wildcard_index : gmap CommunityId (list Entry);
  active_gauge : Z;
}.

(** [SubscriptionRegistry::new]. *)
Definition registry_new : SubscriptionRegistry := mkRegistry ∅ ∅ ∅ ∅ ∅ ∅ 0.

(** Field updates. *)
Definition with_subs s r :=
  mkRegistry s (channel_kind_index r) (channel_wildcard_index r) (global_kind_index r)
    (global_p_kind_index r) (global_wildcard_index r) (active_gauge r).
Definition with_channel_kind_index i r :=
  mkRegistry (subs r) i (channel_wildcard_index r) (global_kind_index r)
    (global_p_kind_index r) (global_wildcard_index r) (active_gauge r).
Definition with_channel_wildcard_index i r :=
  mkRegistry (subs r) (channel_kind_index r) i (global_kind_index r)
    (global_p_kind_index r) (global_wildcard_index r) (active_gauge r).
Definition with_global_kind_index i r :=
  mkRegistry (subs r) (channel_kind_index r) (channel_wildcard_index r) i
    (global_p_kind_index r) (global_wildcard_index r) (active_gauge r).
Definition with_global_p_kind_index i r :=
  mkRegistry (subs r) (channel_kind_index r) (channel_wildcard_index r) (global_kind_index r)
    i (global_wildcard_index r) (active_gauge r).
Definition with_global_wildcard_index i r :=
  mkRegistry (subs r) (channel_kind_index r) (channel_wildcard_index r) (global_kind_index r)
    (global_p_kind_index r) i (active_gauge r).
Definition gauge_add (d : Z) r :=
  mkRegistry (subs r) (channel_kind_index r) (channel_wildcard_index r) (global_kind_index r)
    (global_p_kind_index r) (global_wildcard_index r) (active_gauge r + d)%Z.

(** [index.entry(k).or_default().push(e)]. *)
Definition index_push `{Countable K} (k : K) (e : Entry) (idx : gmap K (list Entry))
  : gmap K (list Entry) :=
  <[k := default [] (idx !! k) ++ [e]]> idx.

(** [if let Some(entries) = index.get_mut(k)]: drop [e] from the row, and the
    row itself when it becomes empty. *)
Definition index_retain `{Countable K} (k : K) (e : Entry) (idx : gmap K (list Entry))
  : gmap K (list Entry) :=
  match idx !! k with
  | Some entries =>
      let entries := List.filter (fun x => negb (bool_decide (x = e))) entries in
      if bool_decide (entries = []) then delete k idx else <[k := entries]> idx
  | None => idx
  end.

(** ** Key extraction from filters *)

Fixpoint extract_kinds_go (kinds : list Kind) (filters : list Filter) : option (list Kind) :=
  match filters with
  | [] => Some kinds
  | f :: fs =>
      match f_kinds f with
      | Some filter_kinds => extract_kinds_go (foldl push_unique kinds (elements filter_kinds)) fs
      | None => None
      end
  end.

Definition extract_kinds_from_filters (filters : list Filter) : option (list Kind) :=
  extract_kinds_go [] filters.

Fixpoint extract_global_p_go (community_id : CommunityId) (keys : list GlobalPKindIndexKey)
    (filters : list Filter) : option (list GlobalPKindIndexKey) :=
  match filters with
  | [] => Some keys
  | f :: fs =>
      match f_kinds f with
      | None => None
      | Some kinds =>
          if bool_decide (elements kinds = []) then extract_global_p_go community_id keys fs
          else
            match f_generic_tags f !! p_tag with
            | None => None
            | Some p_values =>
                if bool_decide (elements p_values = []) then None
                else
                  extract_global_p_go community_id
                    (foldl push_unique keys
                       (elements kinds ≫= fun kind =>
                          (fun p => mkGlobalPKindIndexKey community_id kind p)
                            <$> elements p_values)) fs
            end
      end
  end.

Definition extract_global_p_kind_index_keys (community_id : CommunityId) (filters : list Filter)
  : option (list GlobalPKindIndexKey) :=
  extract_global_p_go community_id [] filters.

(** ** Index maintenance *)

(** The second half of [register_with_scope]: push the subscription under
    every key of the indexes its scope and filters select. *)
Definition add_to_index (conn_id : ConnId) (sub_id : SubId) (filters : list Filter)
    (community_id : CommunityId) (scope : SubscriptionScope) (r : SubscriptionRegistry)
  : SubscriptionRegistry :=
  let e := (conn_id, sub_id) in
  match scope with
  | Channels chs =>
      foldl (fun r ch_id =>
        match extract_kinds_from_filters filters with
        | None =>
            with_channel_wildcard_index
              (index_push (community_id, ch_id) e (channel_wildcard_index r)) r
        | Some kinds =>
            foldl (fun r kind =>
              with_channel_kind_index
                (index_push (community_id, mkIndexKey ch_id kind) e (channel_kind_index r)) r)
              r kinds
        end) r chs
  | Global =>
      match extract_global_p_kind_index_keys community_id filters with
      | Some keys =>
          foldl (fun r key =>
            with_global_p_kind_index (index_push key e (global_p_kind_index r)) r) r keys
      | None =>
          match extract_kinds_from_filters filters with
          | None =>
              with_global_wildcard_index
                (index_push community_id e (global_wildcard_index r)) r
          | Some kinds =>
              foldl (fun r kind =>
                with_global_kind_index
                  (index_push (community_id, kind) e (global_kind_index r)) r) r kinds
          end
      end
  end.

Definition remove_from_index (conn_id : ConnId) (sub_id : SubId) (filters : list Filter)
    (community_id : CommunityId) (scope : SubscriptionScope) (r : SubscriptionRegistry)
  : SubscriptionRegistry :=
  let e := (conn_id, sub_id) in
  match scope with
  | Channels chs =>
      foldl (fun r ch_id =>
        match extract_kinds_from_filters filters with
        | None =>
            with_channel_wildcard_index
              (index_retain (community_id, ch_id) e (channel_wildcard_index r)) r
        | Some kinds =>
            foldl (fun r kind =>
              with_channel_kind_index
                (index_retain (community_id, mkIndexKey ch_id kind) e (channel_kind_index r)) r)
              r kinds
        end) r chs
  | Global =>
      match extract_global_p_kind_index_keys community_id filters with
      | Some keys =>
          foldl (fun r key =>
            with_global_p_kind_index (index_retain key e (global_p_kind_index r)) r) r keys
      | None =>
          match extract_kinds_from_filters filters with
          | None =>
              with_global_wildcard_index
                (index_retain community_id e (global_wildcard_index r)) r
          | Some kinds =>
              foldl (fun r kind =>
                with_global_kind_index
                  (index_retain (community_id, kind) e (global_kind_index r)) r) r kinds
          end
      end
  end.

(** ** Operations *)

Definition remove_subscription (conn_id : ConnId) (sub_id : SubId) (r : SubscriptionRegistry)
  : SubscriptionRegistry * option RemovedSubscription :=
  match subs r !! conn_id with
  | None => (r, None)
  | Some conn_subs =>
      match conn_subs !! sub_id with
      | None => (r, None)
      | Some (filters, community_id, scope) =>
          let r := with_subs (<[conn_id := delete sub_id conn_subs]> (subs r)) r in
          let r := remove_from_index conn_id sub_id filters community_id scope r in
          (gauge_add (-1) r, Some (mkRemoved sub_id community_id scope))
      end
  end.

Definition register_with_scope (community_id : CommunityId) (conn_id : ConnId) (sub_id : SubId)
    (filters : list Filter) (scope : SubscriptionScope) (r : SubscriptionRegistry)
  : SubscriptionRegistry * option RemovedSubscription :=
  let '(r, removed) := remove_subscription conn_id sub_id r in
  let r := with_subs
    (<[conn_id := <[sub_id := (filters, community_id, scope)]> (default ∅ (subs r !! conn_id))]>
       (subs r)) r in
  let r := gauge_add 1 r in
  (add_to_index conn_id sub_id filters community_id scope r, removed).

Definition register_scoped (community_id : CommunityId) (conn_id : ConnId) (sub_id : SubId)
    (filters : list Filter) (channel_id : option Uuid) (r : SubscriptionRegistry)
  : SubscriptionRegistry * option RemovedSubscription :=
  let scope := match channel_id with Some ch => Channels [ch] | None => Global end in
  register_with_scope community_id conn_id sub_id filters scope r.

Definition register_channels_scoped (community_id : CommunityId) (conn_id : ConnId) (sub_id : SubId)
    (filters : list Filter) (chs : list Uuid) (r : SubscriptionRegistry)
  : SubscriptionRegistry * option RemovedSubscription :=
  register_with_scope community_id conn_id sub_id filters (Channels chs) r.

Definition remove_connection (conn_id : ConnId) (r : SubscriptionRegistry)
  : SubscriptionRegistry * list RemovedSubscription :=
  match subs r !! conn_id with
  | None => (r, [])
  | Some conn_subs =>
      let r := with_subs (delete conn_id (subs r)) r in
      let rows := map_to_list conn_subs in
      let r := foldl (fun r '(sub_id, (filters, community_id, scope)) =>
                 remove_from_index conn_id sub_id filters community_id scope r) r rows in
      let removed := (fun '(sub_id, (_, community_id, scope)) =>
                        mkRemoved sub_id community_id scope) <$> rows in
      (gauge_add (- Z.of_nat (size conn_subs)) r, removed)
  end.

(** One iteration of the loop over the affected subscription ids: [None] is
    [break], [Some (r, None)] is [continue]. *)
Definition revoke_one (community_id : CommunityId) (conn_id : ConnId) (channel_id : Uuid)
    (sub_id : SubId) (r : SubscriptionRegistry)
  : option (SubscriptionRegistry * option ChannelSubscriptionUpdate) :=
  match subs r !! conn_id with
  | None => None
  | Some conn_subs =>
      match conn_subs !! sub_id with
      | None => Some (r, None)
      | Some (filters, sub_community, scope) =>
          match scope with
          | Global => Some (r, None)
          | Channels chs =>
              let chs := List.filter (fun c => negb (N.eqb c channel_id)) chs in
              let conn_subs := <[sub_id := (filters, sub_community, Channels chs)]> conn_subs in
              let removed := bool_decide (chs = []) in
              let r := with_subs (<[conn_id := conn_subs]> (subs r)) r in
              let r := remove_from_index conn_id sub_id filters community_id
                         (Channels [channel_id]) r in
              let r :=
                if removed
                then gauge_add (-1)
                       (with_subs (<[conn_id := delete sub_id conn_subs]> (subs r)) r)
                else r in
              Some (r, Some (mkUpdate sub_id removed))
          end
      end
  end.

Fixpoint revoke_loop (community_id : CommunityId) (conn_id : ConnId) (channel_id : Uuid)
    (sub_ids : list SubId) (updates : list ChannelSubscriptionUpdate) (r : SubscriptionRegistry)
  : SubscriptionRegistry * list ChannelSubscriptionUpdate :=
  match sub_ids with
  | [] => (r, updates)
  | sub_id :: rest =>
      match revoke_one community_id conn_id channel_id sub_id r with
      | None => (r, updates)
      | Some (r, update) =>
          revoke_loop community_id conn_id channel_id rest (updates ++ option_list update) r
      end
  end.

(** The subscriptions a revocation affects. *)
Definition affected_sub_ids (community_id : CommunityId) (conn_id : ConnId) (channel_id : Uuid)
    (r : SubscriptionRegistry) : list SubId :=
  match subs r !! conn_id with
  | None => []
  | Some conn_subs =>
      omap (fun '(sub_id, (_, sub_community_id, scope)) =>
        if bool_decide (sub_community_id = community_id)
           && bool_decide (channel_id ∈ channel_ids scope)
        then Some sub_id else None) (map_to_list conn_subs)
  end.

Definition remove_channel_subscriptions_scoped (community_id : CommunityId) (conn_id : ConnId)
    (channel_id : Uuid) (r : SubscriptionRegistry)
  : SubscriptionRegistry * list ChannelSubscriptionUpdate :=
  revoke_loop community_id conn_id channel_id
    (affected_sub_ids community_id conn_id channel_id r) [] r.

Definition channel_subscriber_conns_scoped (community_id : CommunityId) (channel_id : Uuid)
    (r : SubscriptionRegistry) : list ConnId :=
  let conns : gset ConnId :=
    foldl (fun conns '((c, key), entries) =>
      if bool_decide (c = community_id) && N.eqb (ik_channel_id key) channel_id
      then conns ∪ list_to_set (fst <$> entries) else conns)
      ∅ (map_to_list (channel_kind_index r)) in
  let conns :=
    match channel_wildcard_index r !! (community_id, channel_id) with
    | Some entries => conns ∪ list_to_set (fst <$> entries)
    | None => conns
    end in
  elements conns.

Section FanOut.
Context `{NostrLib}.

Definition event_p_tag_values (event : StoredEvent) : list string :=
  dedup_first
    (omap (fun t => if bool_decide (tag_kind_string t = "p") then tag_content t else None)
       (ev_tags (se_event event))).

(** The accumulators of a fan-out: the results and the [seen] set. *)
Abbreviation Acc := (list Entry * gset Entry)%type (only parsing).

Definition push_match (r : SubscriptionRegistry) (community_id : CommunityId)
    (event : StoredEvent) (acc : Acc) (candidate : Entry) : Acc :=
  let '(results, seen) := acc in
  let '(conn_id, sub_id) := candidate in
  match subs r !! conn_id with
  | None => acc
  | Some conn_subs =>
      match conn_subs !! sub_id with
      | None => acc
      | Some (filters, sub_community_id, scope) =>
          if bool_decide (sub_community_id = community_id)
             && matches_channel scope (se_channel_id event)
             && filters_match filters event
          then if decide (candidate ∈ seen) then acc
               else (results ++ [candidate], {[candidate]} ∪ seen)
          else acc
      end
  end.

(** [if let Some(candidates) = index.get(..) { for .. push_match(..) }]. *)
Definition push_matches (r : SubscriptionRegistry) (community_id : CommunityId)
    (event : StoredEvent) (candidates : option (list Entry)) (acc : Acc) : Acc :=
  match candidates with
  | Some candidates => foldl (push_match r community_id event) acc candidates
  | None => acc
  end.

Definition fan_out_scoped (r : SubscriptionRegistry) (community_id : CommunityId)
    (event : StoredEvent) : list Entry :=
  let kind := ev_kind (se_event event) in
  let acc : Acc := ([], ∅) in
  let acc :=
    match se_channel_id event with
    | Some channel_id =>
        let acc := push_matches r community_id event
          (channel_kind_index r !! (community_id, mkIndexKey channel_id kind)) acc in
        push_matches r community_id event
          (channel_wildcard_index r !! (community_id, channel_id)) acc
    | None =>
        let acc := foldl (fun acc p =>
          push_matches r community_id event
            (global_p_kind_index r !! mkGlobalPKindIndexKey community_id kind p) acc)
          acc (event_p_tag_values event) in
        let acc := push_matches r community_id event
          (global_kind_index r !! (community_id, kind)) acc in
        push_matches r community_id event (global_wildcard_index r !! community_id) acc
    end in
  acc.1.
End FanOut.

(** ** Queries *)

Definition get_filters (conn_id : ConnId) (sub_id : SubId) (r : SubscriptionRegistry)
  : option (list Filter) :=
  subs r !! conn_id ≫= fun conn_subs => (fun en : SubEntry => en.1.1) <$> conn_subs !! sub_id.

Definition contains (conn_id : ConnId) (sub_id : SubId) (r : SubscriptionRegistry) : bool :=
  match subs r !! conn_id with
  | Some conn_subs => bool_decide (is_Some (conn_subs !! sub_id))
  | None => false
  end.

Definition total_subscriptions (r : SubscriptionRegistry) : nat :=
  map_fold (fun _ conn_subs n => size conn_subs + n) 0 (subs r).

Definition total_connections (r : SubscriptionRegistry) : nat := size (subs r).

Definition per_community_subscriptions (r : SubscriptionRegistry) : gmap CommunityId N :=
  foldl (fun counts (conn_subs : gmap SubId SubEntry) =>
    foldl (fun counts (en : SubEntry) =>
      let community_id := en.1.2 in
      <[community_id := (default 0 (counts !! community_id) + 1)%N]> counts)
      counts (snd <$> map_to_list conn_subs))
    ∅ (snd <$> map_to_list (subs r)).
