(* ===== verification/SubscriptionIndex.v ===== *)
(** The subscription indexes seen as one relation.

    The five indexes of the registry are gathered into one index over a sum of
    key types ([AnyKey]); [keys_of] is the set of keys a subscription belongs
    under.  Pushing and retaining become single operations on that index, and
    the registry invariant [registry_wf] says that the index is exactly the
    relation the authoritative [subs] table induces. *)

From S2P Require Import Prelude Nostr Filter Subscription.

Inductive AnyKey :=
| KChannelKind (k : CommunityId * IndexKey)
| KChannelWildcard (k : CommunityId * Uuid)
| KGlobalKind (k : CommunityId * Kind)
| KGlobalPKind (k : GlobalPKindIndexKey)
| KGlobalWildcard (k : CommunityId).

#[export] Instance AnyKey_eq_dec : EqDecision AnyKey.
Proof. solve_decision. Defined.

(** The row of the index a key names. *)
Definition row (r : SubscriptionRegistry) (k : AnyKey) : option (list Entry) :=
  match k with
  | KChannelKind k => channel_kind_index r !! k
  | KChannelWildcard k => channel_wildcard_index r !! k
  | KGlobalKind k => global_kind_index r !! k
  | KGlobalPKind k => global_p_kind_index r !! k
  | KGlobalWildcard k => global_wildcard_index r !! k
  end.

Definition indexed (r : SubscriptionRegistry) (k : AnyKey) (e : Entry) : Prop :=
  exists es, row r k = Some es /\ e ∈ es.

Definition push_any (k : AnyKey) (e : Entry) (r : SubscriptionRegistry) : SubscriptionRegistry :=
  match k with
  | KChannelKind k => with_channel_kind_index (index_push k e (channel_kind_index r)) r
  | KChannelWildcard k => with_channel_wildcard_index (index_push k e (channel_wildcard_index r)) r
  | KGlobalKind k => with_global_kind_index (index_push k e (global_kind_index r)) r
  | KGlobalPKind k => with_global_p_kind_index (index_push k e (global_p_kind_index r)) r
  | KGlobalWildcard k => with_global_wildcard_index (index_push k e (global_wildcard_index r)) r
  end.

Definition retain_any (k : AnyKey) (e : Entry) (r : SubscriptionRegistry) : SubscriptionRegistry :=
  match k with
  | KChannelKind k => with_channel_kind_index (index_retain k e (channel_kind_index r)) r
  | KChannelWildcard k => with_channel_wildcard_index (index_retain k e (channel_wildcard_index r)) r
  | KGlobalKind k => with_global_kind_index (index_retain k e (global_kind_index r)) r
  | KGlobalPKind k => with_global_p_kind_index (index_retain k e (global_p_kind_index r)) r
  | KGlobalWildcard k => with_global_wildcard_index (index_retain k e (global_wildcard_index r)) r
  end.

(** The keys a subscription is filed under. *)
Definition channel_keys (c : CommunityId) (fs : list Filter) (ch : Uuid) : list AnyKey :=
  match extract_kinds_from_filters fs with
  | None => [KChannelWildcard (c, ch)]
  | Some kinds => (fun kind => KChannelKind (c, mkIndexKey ch kind)) <$> kinds
  end.

Definition global_keys (c : CommunityId) (fs : list Filter) : list AnyKey :=
  match extract_global_p_kind_index_keys c fs with
  | Some keys => KGlobalPKind <$> keys
  | None =>
      match extract_kinds_from_filters fs with
      | None => [KGlobalWildcard c]
      | Some kinds => (fun kind => KGlobalKind (c, kind)) <$> kinds
      end
  end.

Definition keys_of (c : CommunityId) (fs : list Filter) (scope : SubscriptionScope) : list AnyKey :=
  match scope with
  | Channels chs => chs ≫= channel_keys c fs
  | Global => global_keys c fs
  end.

(** The authoritative entry of a subscription. *)
Definition lookup_sub (r : SubscriptionRegistry) (conn : ConnId) (sub : SubId) : option SubEntry :=
  subs r !! conn ≫= fun m => m !! sub.

Record registry_wf (r : SubscriptionRegistry) : Prop := {
  wf_index : forall k conn sub,
    indexed r k (conn, sub) <->
    exists fs c sc, lookup_sub r conn sub = Some (fs, c, sc) /\ k ∈ keys_of c fs sc;
  wf_rows : forall k, row r k <> Some [];
  wf_gauge : active_gauge r = Z.of_nat (total_subscriptions r);
}.

(** ** Single index rows *)

Section Rows.
Context `{Countable K}.
Implicit Types (idx : gmap K (list Entry)) (k : K) (e : Entry).

Definition in_row idx k e : Prop := exists es, idx !! k = Some es /\ e ∈ es.

Lemma in_row_push idx k e k' e' :
  in_row (index_push k e idx) k' e' <-> (k' = k /\ e' = e) \/ in_row idx k' e'.
Proof.
  unfold in_row, index_push. destruct (decide (k = k')) as [<-|Hne].
  - rewrite lookup_insert_eq. split.
    + intros (? & [= <-] & [Hin|Hin%list_elem_of_singleton]%elem_of_app); [|by left].
      right. destruct (idx !! k) as [es|]; [eauto|]. by apply elem_of_nil in Hin.
    + intros [[_ ->]|(es & -> & Hin)]; eexists; split; [done|set_solver|done|set_solver].
  - rewrite lookup_insert_ne by done. naive_solver.
Qed.

Lemma push_no_empty idx k e k' :
  (forall k, idx !! k <> Some []) -> index_push k e idx !! k' <> Some [].
Proof.
  intros Hne. unfold index_push. destruct (decide (k = k')) as [<-|].
  - rewrite lookup_insert_eq. by destruct (default [] _).
  - by rewrite lookup_insert_ne.
Qed.

Lemma elem_of_retained es e e' :
  e' ∈ List.filter (fun x => negb (bool_decide (x = e))) es <-> e' ∈ es /\ e' <> e.
Proof.
  rewrite list_elem_of_In, filter_In, <- list_elem_of_In, negb_true_iff.
  by rewrite bool_decide_eq_false.
Qed.

Lemma in_row_retain idx k e k' e' :
  in_row (index_retain k e idx) k' e' <-> in_row idx k' e' /\ ~ (k' = k /\ e' = e).
Proof.
  unfold in_row, index_retain. destruct (idx !! k) as [es|] eqn:Ek.
  2: { split; [|naive_solver]. intros (es & ? & ?). split; [eauto|]. naive_solver. }
  pose proof (elem_of_retained es e) as Hel.
  destruct (decide (k = k')) as [<-|Hne].
  - rewrite Ek. case_bool_decide as Hnil.
    + rewrite lookup_delete_eq. split; [naive_solver|]. intros [(? & [= <-] & Hin) Hn].
      assert (e' ∈ ([] : list Entry)) as []%elem_of_nil.
      rewrite <- Hnil. apply Hel. naive_solver.
    + rewrite lookup_insert_eq. naive_solver.
  - case_bool_decide; rewrite ?lookup_delete_ne, ?lookup_insert_ne by done; naive_solver.
Qed.

Lemma retain_no_empty idx k e k' :
  (forall k, idx !! k <> Some []) -> index_retain k e idx !! k' <> Some [].
Proof.
  intros Hne. unfold index_retain. destruct (idx !! k) as [es|]; [|done].
  case_bool_decide as Hnil.
  - destruct (decide (k = k')) as [<-|]; [by rewrite lookup_delete_eq|by rewrite lookup_delete_ne].
  - destruct (decide (k = k')) as [<-|]; [rewrite lookup_insert_eq; congruence|].
    by rewrite lookup_insert_ne.
Qed.
End Rows.

(** ** The combined index *)

Lemma indexed_push r k e k' e' :
  indexed (push_any k e r) k' e' <-> (k' = k /\ e' = e) \/ indexed r k' e'.
Proof.
  destruct k, k';
    first [ etrans; [apply in_row_push|]; split; (intros [[? ?]|?]; simplify_eq; auto)
          | split; [by right|intros [[? ?]|?]; simplify_eq; done] ].
Qed.

Lemma indexed_retain r k e k' e' :
  indexed (retain_any k e r) k' e' <-> indexed r k' e' /\ ~ (k' = k /\ e' = e).
Proof.
  destruct k, k';
    first [ etrans; [apply in_row_retain|]; split; intros [? Hn]; split; try done;
              intros [? ?]; apply Hn; simplify_eq; done
          | split; [intros; split; [done|by intros [? ?]]|by intros [? _]] ].
Qed.

Definition rows_ok (r : SubscriptionRegistry) : Prop := forall k, row r k <> Some [].

Ltac rows_ok_solve H :=
  let Ha := fresh in let Hb := fresh in let Hc := fresh in let Hd := fresh in let He := fresh in
  pose proof (fun k => H (KChannelKind k)) as Ha;
  pose proof (fun k => H (KChannelWildcard k)) as Hb;
  pose proof (fun k => H (KGlobalKind k)) as Hc;
  pose proof (fun k => H (KGlobalPKind k)) as Hd;
  pose proof (fun k => H (KGlobalWildcard k)) as He;
  simpl in Ha, Hb, Hc, Hd, He; eauto using push_no_empty, retain_no_empty.

Lemma rows_ok_push r k e : rows_ok r -> rows_ok (push_any k e r).
Proof. intros Hr k'. destruct k, k'; simpl; rows_ok_solve Hr. Qed.

Lemma rows_ok_retain r k e : rows_ok r -> rows_ok (retain_any k e r).
Proof. intros Hr k'. destruct k, k'; simpl; rows_ok_solve Hr. Qed.

Lemma push_any_subs k e r : subs (push_any k e r) = subs r.
Proof. by destruct k. Qed.
Lemma push_any_gauge k e r : active_gauge (push_any k e r) = active_gauge r.
Proof. by destruct k. Qed.
Lemma retain_any_subs k e r : subs (retain_any k e r) = subs r.
Proof. by destruct k. Qed.
Lemma retain_any_gauge k e r : active_gauge (retain_any k e r) = active_gauge r.
Proof. by destruct k. Qed.

(** ** Folding over a list of keys *)

Definition push_all (ks : list AnyKey) (e : Entry) (r : SubscriptionRegistry) :=
  foldl (fun r k => push_any k e r) r ks.
Definition retain_all (ks : list AnyKey) (e : Entry) (r : SubscriptionRegistry) :=
  foldl (fun r k => retain_any k e r) r ks.

Lemma indexed_push_all ks r e k' e' :
  indexed (push_all ks e r) k' e' <-> (k' ∈ ks /\ e' = e) \/ indexed r k' e'.
Proof.
  revert r; induction ks as [|k ks IH]; intros r; simpl.
  - set_solver.
  - rewrite IH, indexed_push, elem_of_cons. naive_solver.
Qed.

Lemma indexed_retain_all ks r e k' e' :
  indexed (retain_all ks e r) k' e' <-> indexed r k' e' /\ ~ (k' ∈ ks /\ e' = e).
Proof.
  revert r; induction ks as [|k ks IH]; intros r; simpl.
  - set_solver.
  - rewrite IH, indexed_retain, elem_of_cons. naive_solver.
Qed.

Lemma push_all_frame ks e r :
  subs (push_all ks e r) = subs r /\ active_gauge (push_all ks e r) = active_gauge r /\
  (rows_ok r -> rows_ok (push_all ks e r)).
Proof.
  revert r; induction ks as [|k ks IH]; intros r; simpl; [done|].
  destruct (IH (push_any k e r)) as (-> & -> & Hr).
  rewrite push_any_subs, push_any_gauge. auto using rows_ok_push.
Qed.

Lemma retain_all_frame ks e r :
  subs (retain_all ks e r) = subs r /\ active_gauge (retain_all ks e r) = active_gauge r /\
  (rows_ok r -> rows_ok (retain_all ks e r)).
Proof.
  revert r; induction ks as [|k ks IH]; intros r; simpl; [done|].
  destruct (IH (retain_any k e r)) as (-> & -> & Hr).
  rewrite retain_any_subs, retain_any_gauge. auto using rows_ok_retain.
Qed.

(** The code's loops are these folds. *)

Lemma foldl_fmap_keys {A B C} (f : C -> B -> C) (g : A -> B) (l : list A) c :
  foldl f c (g <$> l) = foldl (fun c a => f c (g a)) c l.
Proof. revert c; induction l; simpl; auto. Qed.

Lemma foldl_bind_keys {A B C} (f : C -> B -> C) (g : A -> list B) (l : list A) c :
  foldl f c (l ≫= g) = foldl (fun c a => foldl f c (g a)) c l.
Proof. revert c; induction l; intros; simpl; [done|]. by rewrite foldl_app. Qed.

Lemma foldl_ext_keys {A C} (f g : C -> A -> C) (l : list A) c :
  (forall c a, f c a = g c a) -> foldl f c l = foldl g c l.
Proof. intros Hfg. revert c; induction l; intros; simpl; [done|]. by rewrite Hfg. Qed.

Lemma add_to_index_push_all conn sub fs c sc r :
  add_to_index conn sub fs c sc r = push_all (keys_of c fs sc) (conn, sub) r.
Proof.
  unfold add_to_index, push_all, keys_of. destruct sc as [|chs].
  - unfold global_keys. case_match; [by rewrite foldl_fmap_keys|].
    case_match; [by rewrite foldl_fmap_keys|done].
  - rewrite foldl_bind_keys. apply foldl_ext_keys. intros r' ch. unfold channel_keys.
    case_match; [by rewrite foldl_fmap_keys|done].
Qed.

Lemma remove_from_index_retain_all conn sub fs c sc r :
  remove_from_index conn sub fs c sc r = retain_all (keys_of c fs sc) (conn, sub) r.
Proof.
  unfold remove_from_index, retain_all, keys_of. destruct sc as [|chs].
  - unfold global_keys. case_match; [by rewrite foldl_fmap_keys|].
    case_match; [by rewrite foldl_fmap_keys|done].
  - rewrite foldl_bind_keys. apply foldl_ext_keys. intros r' ch. unfold channel_keys.
    case_match; [by rewrite foldl_fmap_keys|done].
Qed.
