(* ===== verification/SubscriptionSpec.v ===== *)
(** Correctness of the subscription registry.

    Every operation preserves [registry_wf]; the indexed fan-out delivers to
    exactly the subscriptions a scan of the authoritative table would select;
    revocation and disconnection leave no trace behind. *)

From S2P Require Import Prelude Nostr Filter Subscription SubscriptionIndex.

(** ** Extraction of index keys from filters *)

Lemma extract_kinds_go_Some fs acc ks :
  extract_kinds_go acc fs = Some ks ->
  (forall k, k ∈ ks <-> k ∈ acc \/ exists f K, f ∈ fs /\ f_kinds f = Some K /\ k ∈ K) /\
  (forall f, f ∈ fs -> is_Some (f_kinds f)).
Proof.
  revert acc; induction fs as [|f fs IH]; intros acc; simpl.
  - intros [= ->]. split; set_solver.
  - destruct (f_kinds f) as [K|] eqn:EK; [|done]. intros [Hk Hs]%IH. split.
    + intros k. rewrite Hk, elem_of_foldl_push, elem_of_elements.
      setoid_rewrite elem_of_cons. naive_solver.
    + intros f' [->|Hin]%elem_of_cons; eauto.
Qed.

Lemma extract_global_p_go_Some c fs acc keys :
  extract_global_p_go c acc fs = Some keys ->
  (forall key, key ∈ acc -> key ∈ keys) /\
  (forall f, f ∈ fs -> exists K, f_kinds f = Some K /\
     (K ≢ ∅ -> exists ps, f_generic_tags f !! p_tag = Some ps /\
       forall k p, k ∈ K -> p ∈ ps -> mkGlobalPKindIndexKey c k p ∈ keys)).
Proof.
  revert acc; induction fs as [|f fs IH]; intros acc; simpl.
  - intros [= ->]. split; set_solver.
  - destruct (f_kinds f) as [K|] eqn:EK; [|done].
    case_bool_decide as HK.
    + intros [Ha Hf]%IH. split; [done|]. intros f' [->|Hin]%elem_of_cons; [|auto].
      exists K. split; [done|]. apply elements_empty_inv in HK. done.
    + destruct (f_generic_tags f !! p_tag) as [ps|] eqn:EP; [|done].
      case_bool_decide as HP; [done|]. intros [Ha Hf]%IH. split.
      * intros key Hin. apply Ha, elem_of_foldl_push. by left.
      * intros f' [->|Hin]%elem_of_cons; [|auto]. exists K. split; [done|]. intros _.
        exists ps. split; [done|]. intros k p Hk Hp. apply Ha, elem_of_foldl_push. right.
        apply list_elem_of_bind. exists k. rewrite list_elem_of_fmap, elem_of_elements.
        split; [|done]. exists p. by rewrite elem_of_elements.
Qed.

(** ** Authoritative delivery: the specification of a fan-out *)

Section Delivery.
Context `{NostrLib}.

(** The subscription exists, belongs to the community, routes the event's
    channel and has a matching filter. *)
Definition deliverable (r : SubscriptionRegistry) (c : CommunityId) (ev : StoredEvent)
    (e : Entry) : Prop :=
  exists fs sc, lookup_sub r e.1 e.2 = Some (fs, c, sc) /\
    matches_channel sc (se_channel_id ev) = true /\ filters_match fs ev = true.

Definition acc_ok (acc : list Entry * gset Entry) : Prop :=
  acc.2 = list_to_set acc.1 /\ NoDup acc.1.

Lemma push_match_spec r c ev acc e :
  acc_ok acc ->
  acc_ok (push_match r c ev acc e) /\
  forall e', e' ∈ (push_match r c ev acc e).1 <->
             e' ∈ acc.1 \/ (e' = e /\ deliverable r c ev e).
Proof.
  intros Hok. destruct acc as [res seen], e as [conn sub]. unfold push_match.
  assert (deliverable r c ev (conn, sub) <->
    exists m fs sc, subs r !! conn = Some m /\ m !! sub = Some (fs, c, sc) /\
      matches_channel sc (se_channel_id ev) = true /\ filters_match fs ev = true) as Hd.
  { unfold deliverable, lookup_sub. simpl. destruct (subs r !! conn); naive_solver. }
  setoid_rewrite Hd. destruct (subs r !! conn) as [m|]; [|naive_solver].
  destruct (m !! sub) as [[[fs c'] sc]|] eqn:Em; [|naive_solver].
  destruct (bool_decide (c' = c) && matches_channel sc (se_channel_id ev) && filters_match fs ev)
    eqn:Eg.
  - bool_prop. subst. destruct Hok as [Hs Hn]; simpl in *. case_decide as Hin; simpl.
    + split; [done|]. subst. apply elem_of_list_to_set in Hin. intros e'. naive_solver.
    + subst. rewrite elem_of_list_to_set in Hin. split.
      * split; simpl; [rewrite list_to_set_app_L; set_solver|].
        apply NoDup_app. split_and!; [done| |apply NoDup_singleton]. set_solver.
      * intros e'. rewrite elem_of_app, list_elem_of_singleton. naive_solver.
  - split; [done|]. intros e'. split; [by left|]. intros [?|(-> & m' & fs' & sc' & ? & ? & ? & ?)];
      [done|]. simplify_eq. rewrite bool_decide_eq_true_2 in Eg by done.
    destruct (matches_channel _ _), (filters_match _ _); done.
Qed.

Lemma push_matches_spec r c ev cands acc :
  acc_ok acc ->
  acc_ok (push_matches r c ev cands acc) /\
  forall e, e ∈ (push_matches r c ev cands acc).1 <->
    e ∈ acc.1 \/ ((exists es, cands = Some es /\ e ∈ es) /\ deliverable r c ev e).
Proof.
  destruct cands as [es|]; simpl; [|naive_solver]. revert acc.
  induction es as [|e es IH]; intros acc Hok; simpl.
  - split; [done|]. intros e. split; [by left|].
    by intros [?|[(? & [= <-] & []%elem_of_nil) _]].
  - destruct (push_match_spec r c ev acc e Hok) as [Hok' Hm].
    destruct (IH _ Hok') as [Hok'' Hm']. split; [done|].
    intros e'. rewrite Hm', Hm. split.
    + intros [[?|[-> ?]]|[(? & [= <-] & ?) ?]]; [by left| |]; right;
        (split; [|done]); eexists; (split; [done|]); set_solver.
    + intros [?|[(? & [= <-] & [->|?]%elem_of_cons) ?]]; eauto 10.
Qed.

Lemma push_matches_fold_spec {A} r c ev (cands : A -> option (list Entry)) (ps : list A) acc :
  acc_ok acc ->
  let out := foldl (fun acc p => push_matches r c ev (cands p) acc) acc ps in
  acc_ok out /\
  forall e, e ∈ out.1 <->
    e ∈ acc.1 \/
    ((exists p es, p ∈ ps /\ cands p = Some es /\ e ∈ es) /\ deliverable r c ev e).
Proof.
  revert acc; induction ps as [|p ps IH]; intros acc Hok; simpl.
  - split; [done|]. intros e. split; [by left|].
    by intros [?|[(? & ? & []%elem_of_nil & _) _]].
  - destruct (push_matches_spec r c ev (cands p) acc Hok) as [Hok' Hm].
    destruct (IH _ Hok') as [Hok'' Hm']. split; [done|].
    intros e. rewrite Hm', Hm. setoid_rewrite elem_of_cons. naive_solver.
Qed.

(** The keys a fan-out looks up. *)
Definition lookup_keys (c : CommunityId) (ev : StoredEvent) : list AnyKey :=
  let kind := ev_kind (se_event ev) in
  match se_channel_id ev with
  | Some ch => [KChannelKind (c, mkIndexKey ch kind); KChannelWildcard (c, ch)]
  | None => (KGlobalPKind ∘ mkGlobalPKindIndexKey c kind <$> event_p_tag_values ev)
            ++ [KGlobalKind (c, kind); KGlobalWildcard c]
  end.

(** A fan-out is the deliverable part of the rows it looks up. *)
Lemma fan_out_lookup r c ev :
  NoDup (fan_out_scoped r c ev) /\
  forall e, e ∈ fan_out_scoped r c ev <->
    (exists k, k ∈ lookup_keys c ev /\ indexed r k e) /\ deliverable r c ev e.
Proof.
  assert (acc_ok ([], ∅)) as H0 by (split; [done|apply NoDup_nil_2]).
  unfold fan_out_scoped, lookup_keys, indexed. destruct (se_channel_id ev) as [ch|].
  - edestruct push_matches_spec as [H1 M1]; [exact H0|].
    edestruct push_matches_spec as [H2 M2]; [exact H1|].
    split; [apply H2|]. intros e. rewrite M2, M1. simpl.
    setoid_rewrite elem_of_cons. setoid_rewrite list_elem_of_singleton. split.
    + intros [[[]%elem_of_nil|[(es & ? & ?) ?]]|[(es & ? & ?) ?]]; (split; [|done]); eauto 10.
    + intros [(k & [->| ->] & es & ? & ?) ?]; simpl in *; eauto 10.
  - edestruct (push_matches_fold_spec r c ev
      (fun p => global_p_kind_index r !! mkGlobalPKindIndexKey c (ev_kind (se_event ev)) p)
      (event_p_tag_values ev)) as [H1 M1]; [exact H0|].
    edestruct push_matches_spec as [H2 M2]; [exact H1|].
    edestruct push_matches_spec as [H3 M3]; [exact H2|].
    split; [apply H3|]. intros e. rewrite M3, M2, M1. simpl.
    setoid_rewrite elem_of_app. setoid_rewrite list_elem_of_fmap.
    setoid_rewrite elem_of_cons. setoid_rewrite list_elem_of_singleton. split.
    + intros [[[[]%elem_of_nil|[(p & es & ? & ? & ?) ?]]|[(es & ? & ?) ?]]|[(es & ? & ?) ?]];
        (split; [|done]); eauto 12.
    + intros [(k & [(p & -> & ?)|[->| ->]] & es & ? & ?) ?]; simpl in *; eauto 12.
Qed.

(** A matching event is looked up under one of the subscription's keys. *)

Lemma match_kind fs ev ks :
  filters_match fs ev = true -> extract_kinds_from_filters fs = Some ks ->
  ev_kind (se_event ev) ∈ ks.
Proof.
  intros (f & Hf & Hacc)%filters_match_spec [Hk Hs]%extract_kinds_go_Some.
  apply Hk. right. destruct (Hs f Hf) as [K HK]. exists f, K. split_and!; [done..|].
  by apply (fa_kinds f ev Hacc).
Qed.

Lemma event_p_tag_values_hit ev vs :
  tag_hit ev "p" vs -> exists p, p ∈ event_p_tag_values ev /\ p ∈ vs.
Proof.
  intros (t & v & Ht & Hk & Hc & Hv). exists v. split; [|done].
  unfold event_p_tag_values. rewrite elem_of_dedup_first, list_elem_of_omap.
  exists t. split; [done|]. by rewrite bool_decide_eq_true_2.
Qed.

Lemma match_p_key `{!NostrLaws} c fs ev keys :
  filters_match fs ev = true -> extract_global_p_kind_index_keys c fs = Some keys ->
  exists p, p ∈ event_p_tag_values ev /\
            mkGlobalPKindIndexKey c (ev_kind (se_event ev)) p ∈ keys.
Proof.
  intros (f & Hf & Hacc)%filters_match_spec [_ Hs]%extract_global_p_go_Some.
  destruct (Hs f Hf) as (K & HK & Hps). pose proof (fa_kinds f ev Hacc K HK) as Hkind.
  destruct Hps as (ps & Hp & Hkeys); [set_solver|].
  destruct (fa_tags f ev Hacc _ _ Hp) as [Hhit|(Hh & _)]; rewrite p_tag_display in *; [|done].
  destruct (event_p_tag_values_hit _ _ Hhit) as (p & ? & ?). eauto.
Qed.

Lemma deliverable_looked_up `{!NostrLaws} c ev fs sc :
  matches_channel sc (se_channel_id ev) = true -> filters_match fs ev = true ->
  exists k, k ∈ lookup_keys c ev /\ k ∈ keys_of c fs sc.
Proof.
  intros Hch Hm. unfold lookup_keys, keys_of.
  destruct sc as [|chs], (se_channel_id ev) as [ch|]; simpl in *; try done.
  - unfold global_keys. destruct (extract_global_p_kind_index_keys c fs) as [keys|] eqn:EP.
    + destruct (match_p_key _ _ _ _ Hm EP) as (p & Hp & Hk).
      eexists. split; [apply elem_of_app; left; apply list_elem_of_fmap; eauto|].
      apply list_elem_of_fmap. eauto.
    + destruct (extract_kinds_from_filters fs) as [ks|] eqn:EK.
      * pose proof (match_kind _ _ _ Hm EK). exists (KGlobalKind (c, ev_kind (se_event ev))).
        split; [set_solver|]. apply list_elem_of_fmap. eauto.
      * exists (KGlobalWildcard c). set_solver.
  - bool_prop. unfold channel_keys. setoid_rewrite list_elem_of_bind.
    destruct (extract_kinds_from_filters fs) as [ks|] eqn:EK.
    + pose proof (match_kind _ _ _ Hm EK).
      exists (KChannelKind (c, mkIndexKey ch (ev_kind (se_event ev)))).
      split; [set_solver|]. exists ch. split; [|done]. apply list_elem_of_fmap. eauto.
    + exists (KChannelWildcard (c, ch)). set_solver.
Qed.

Lemma fan_out_spec `{!NostrLaws} r c ev e :
  registry_wf r -> e ∈ fan_out_scoped r c ev <-> deliverable r c ev e.
Proof.
  intros Hwf. rewrite (proj2 (fan_out_lookup r c ev)). split; [by intros [_ ?]|].
  intros Hd. split; [|done]. destruct e as [conn sub]. destruct Hd as (fs & sc & Hl & Hc & Hm).
  destruct (deliverable_looked_up c ev fs sc Hc Hm) as (k & Hk & Hk').
  exists k. split; [done|]. apply (wf_index r Hwf). eauto.
Qed.
End Delivery.

(** ** The authoritative table under each operation *)

Lemma lookup_sub_insert r conn m conn' sub' :
  lookup_sub (with_subs (<[conn := m]> (subs r)) r) conn' sub' =
  if decide (conn' = conn) then m !! sub' else lookup_sub r conn' sub'.
Proof.
  unfold lookup_sub, with_subs; simpl. case_decide as Hc.
  - subst. by rewrite lookup_insert_eq.
  - by rewrite lookup_insert_ne by congruence.
Qed.

Lemma lookup_sub_subs r r' conn sub :
  subs r = subs r' -> lookup_sub r conn sub = lookup_sub r' conn sub.
Proof. unfold lookup_sub. by intros ->. Qed.

Lemma indexed_with_subs s r k e : indexed (with_subs s r) k e <-> indexed r k e.
Proof. by destruct k. Qed.
Lemma indexed_gauge d r k e : indexed (gauge_add d r) k e <-> indexed r k e.
Proof. by destruct k. Qed.
Lemma rows_with_subs s r k : row (with_subs s r) k = row r k.
Proof. by destruct k. Qed.
Lemma rows_gauge d r k : row (gauge_add d r) k = row r k.
Proof. by destruct k. Qed.

(** Sum of the table sizes under an update of one connection. *)
Definition total_of (s : gmap ConnId (gmap SubId SubEntry)) : nat :=
  map_fold (fun _ (m : gmap SubId SubEntry) n => size m + n) 0 s.

Lemma total_insert s conn m :
  total_of (<[conn := m]> s) = size m + total_of (delete conn s).
Proof.
  unfold total_of. rewrite <- insert_delete_eq, map_fold_insert_L; [done| |apply lookup_delete_eq].
  intros. lia.
Qed.

Lemma total_lookup s conn m :
  s !! conn = Some m -> total_of s = size m + total_of (delete conn s).
Proof. intros Hs. rewrite <- total_insert. by rewrite insert_id. Qed.

Lemma size_delete_S {V} (m : gmap SubId V) sub x :
  m !! sub = Some x -> size m = S (size (delete sub m)).
Proof.
  intros Hm. rewrite <- (insert_delete_id m sub x Hm) at 1.
  by rewrite map_size_insert_None by apply lookup_delete_eq.
Qed.

Lemma total_missing s conn : s !! conn = None -> total_of (delete conn s) = total_of s.
Proof. intros Hs. by rewrite delete_id. Qed.

Lemma wf_new : registry_wf registry_new.
Proof.
  split.
  - intros k conn sub. split.
    + intros (es & He & _). by destruct k; simpl in He; rewrite lookup_empty in He.
    + intros (fs & c & sc & Hl & _). unfold lookup_sub in Hl. simpl in Hl.
      by rewrite lookup_empty in Hl.
  - intros k. by destruct k; simpl; rewrite lookup_empty.
  - unfold total_subscriptions. simpl. by rewrite map_fold_empty.
Qed.

(** Dropping one entry of the table and its index rows. *)
Lemma wf_index_drop r r' conn sub fs c sc :
  registry_wf r -> lookup_sub r conn sub = Some (fs, c, sc) ->
  (forall k e, indexed r' k e <-> indexed r k e /\ ~ (k ∈ keys_of c fs sc /\ e = (conn, sub))) ->
  (forall conn' sub', lookup_sub r' conn' sub' =
     if decide ((conn', sub') = (conn, sub)) then None else lookup_sub r conn' sub') ->
  forall k conn' sub', indexed r' k (conn', sub') <->
    exists fs c sc, lookup_sub r' conn' sub' = Some (fs, c, sc) /\ k ∈ keys_of c fs sc.
Proof.
  intros Hwf Hl Hi Ht k conn' sub'. rewrite Hi, (wf_index r Hwf), Ht.
  case_decide as Heq; [|naive_solver]. simplify_eq. split; [|naive_solver].
  intros [(fs' & c' & sc' & Hl' & Hk) Hn]. simplify_eq. naive_solver.
Qed.

(** Adding one entry to the table and its index rows. *)
Lemma wf_index_add r r' conn sub fs c sc :
  registry_wf r -> lookup_sub r conn sub = None ->
  (forall k e, indexed r' k e <-> (k ∈ keys_of c fs sc /\ e = (conn, sub)) \/ indexed r k e) ->
  (forall conn' sub', lookup_sub r' conn' sub' =
     if decide ((conn', sub') = (conn, sub)) then Some (fs, c, sc) else lookup_sub r conn' sub') ->
  forall k conn' sub', indexed r' k (conn', sub') <->
    exists fs c sc, lookup_sub r' conn' sub' = Some (fs, c, sc) /\ k ∈ keys_of c fs sc.
Proof.
  intros Hwf Hl Hi Ht k conn' sub'. rewrite Hi, (wf_index r Hwf), Ht.
  case_decide as Heq; [|naive_solver]. simplify_eq. split; [|naive_solver].
  intros [[Hk _]|(fs' & c' & sc' & Hl' & Hk)]; [eauto|]. congruence.
Qed.

Lemma remove_subscription_none r conn sub :
  lookup_sub r conn sub = None -> remove_subscription conn sub r = (r, None).
Proof.
  unfold lookup_sub, remove_subscription. destruct (subs r !! conn) as [m|]; simpl; [|done].
  by intros ->.
Qed.

Lemma remove_subscription_table r conn sub conn' sub' :
  lookup_sub (remove_subscription conn sub r).1 conn' sub' =
  if decide ((conn', sub') = (conn, sub)) then None else lookup_sub r conn' sub'.
Proof.
  unfold remove_subscription. destruct (subs r !! conn) as [m|] eqn:Em.
  2: { simpl. case_decide; [|done]. simplify_eq. unfold lookup_sub. by rewrite Em. }
  destruct (m !! sub) as [[[fs c] sc]|] eqn:Es.
  2: { simpl. case_decide; [|done]. simplify_eq. unfold lookup_sub. by rewrite Em. }
  simpl. rewrite remove_from_index_retain_all.
  erewrite lookup_sub_subs; [|simpl; apply retain_all_frame].
  rewrite lookup_sub_insert. repeat case_decide; simplify_eq; try done.
  - by rewrite lookup_delete_eq.
  - rewrite lookup_delete_ne by congruence. unfold lookup_sub. by rewrite Em.
Qed.

Lemma remove_subscription_result r conn sub :
  (remove_subscription conn sub r).2 =
  (fun en : SubEntry => mkRemoved sub en.1.2 en.2) <$> lookup_sub r conn sub.
Proof.
  unfold remove_subscription, lookup_sub. destruct (subs r !! conn) as [m|]; simpl; [|done].
  by destruct (m !! sub) as [[[fs c] sc]|].
Qed.

Lemma wf_remove_subscription r conn sub :
  registry_wf r -> registry_wf (remove_subscription conn sub r).1.
Proof.
  intros Hwf. pose proof (remove_subscription_table r conn sub) as Ht. revert Ht.
  unfold remove_subscription. destruct (subs r !! conn) as [m|] eqn:Em; [|done].
  destruct (m !! sub) as [[[fs c] sc]|] eqn:Es; [|done].
  assert (lookup_sub r conn sub = Some (fs, c, sc)) as Hl by (unfold lookup_sub; by rewrite Em).
  simpl. rewrite remove_from_index_retain_all.
  edestruct retain_all_frame as (Hs & Hg & Hr). intros Ht. split.
  - eapply wf_index_drop; [done|done| |done]. intros k e.
    rewrite indexed_gauge, indexed_retain_all, indexed_with_subs. done.
  - intros k. rewrite rows_gauge. revert k. apply Hr. intros k.
    rewrite rows_with_subs. apply (wf_rows r Hwf).
  - simpl. rewrite Hg. unfold total_subscriptions. simpl. rewrite Hs. simpl.
    rewrite (wf_gauge r Hwf). unfold total_subscriptions.
    pose proof (total_lookup (subs r) conn m Em) as E1.
    pose proof (total_insert (subs r) conn (delete sub m)) as E2.
    pose proof (size_delete_S m sub _ Es) as E3.
    unfold total_of in *. lia.
Qed.

Lemma register_table c conn sub fs sc r conn' sub' :
  lookup_sub (register_with_scope c conn sub fs sc r).1 conn' sub' =
  if decide ((conn', sub') = (conn, sub)) then Some (fs, c, sc) else lookup_sub r conn' sub'.
Proof.
  unfold register_with_scope. destruct (remove_subscription conn sub r) as [r1 rem] eqn:Er.
  assert (r1 = (remove_subscription conn sub r).1) as Hr1 by (by rewrite Er).
  simpl. rewrite add_to_index_push_all.
  erewrite lookup_sub_subs; [|simpl; apply push_all_frame].
  rewrite (lookup_sub_subs _ (with_subs _ r1)) by reflexivity. rewrite lookup_sub_insert.
  repeat case_decide; simplify_eq; try done.
  - by rewrite lookup_insert_eq.
  - rewrite lookup_insert_ne by congruence.
    pose proof (remove_subscription_table r conn sub conn sub') as Ht.
    rewrite decide_False in Ht by congruence. rewrite <- Ht. unfold lookup_sub.
    by destruct (subs _ !! conn).
  - rewrite remove_subscription_table. by rewrite decide_False by congruence.
Qed.

Lemma wf_register c conn sub fs sc r :
  registry_wf r -> registry_wf (register_with_scope c conn sub fs sc r).1.
Proof.
  intros Hwf. pose proof (register_table c conn sub fs sc r) as Ht. revert Ht.
  unfold register_with_scope. destruct (remove_subscription conn sub r) as [r1 rem] eqn:Er.
  assert (registry_wf r1) as Hwf1.
  { replace r1 with (remove_subscription conn sub r).1 by (by rewrite Er).
    by apply wf_remove_subscription. }
  assert (forall conn' sub', lookup_sub r1 conn' sub' =
    if decide ((conn', sub') = (conn, sub)) then None else lookup_sub r conn' sub') as Ht1.
  { intros. replace r1 with (remove_subscription conn sub r).1 by (by rewrite Er).
    apply remove_subscription_table. }
  simpl. rewrite add_to_index_push_all.
  edestruct push_all_frame as (Hs & Hg & Hr). intros Ht. split.
  - eapply (wf_index_add r1); [done| | |].
    + rewrite Ht1. by rewrite decide_True.
    + intros k e. rewrite indexed_push_all, indexed_gauge, indexed_with_subs. done.
    + intros conn' sub'. rewrite Ht, Ht1. by case_decide.
  - apply Hr. intros k. rewrite rows_gauge, rows_with_subs. apply (wf_rows r1 Hwf1).
  - rewrite Hg. unfold total_subscriptions. rewrite Hs. simpl.
    rewrite (wf_gauge r1 Hwf1). unfold total_subscriptions.
    pose proof (total_insert (subs r1) conn (<[sub:=(fs, c, sc)]> (default ∅ (subs r1 !! conn)))) as E2.
    pose proof (Ht1 conn sub) as Hn. rewrite decide_True in Hn by done. unfold lookup_sub in Hn.
    destruct (subs r1 !! conn) as [m|] eqn:Em; simpl in *.
    + pose proof (total_lookup (subs r1) conn m Em) as E1.
      rewrite map_size_insert_None in E2 by done. unfold total_of in *. lia.
    + pose proof (total_missing (subs r1) conn Em).
      rewrite map_size_insert_None in E2 by apply lookup_empty.
      rewrite map_size_empty in E2. unfold total_of in *. lia.
Qed.

(** ** Disconnection *)

Definition retain_rows (conn : ConnId) (rows : list (SubId * SubEntry)) (r : SubscriptionRegistry) :=
  foldl (fun r '(sub_id, (filters, community_id, scope)) =>
    remove_from_index conn sub_id filters community_id scope r) r rows.

Lemma retain_rows_frame conn rows r :
  subs (retain_rows conn rows r) = subs r /\
  active_gauge (retain_rows conn rows r) = active_gauge r /\
  (rows_ok r -> rows_ok (retain_rows conn rows r)).
Proof.
  revert r; induction rows as [|[sub [[fs c] sc]] rows IH]; intros r; simpl; [done|].
  destruct (IH (remove_from_index conn sub fs c sc r)) as (-> & -> & Hr).
  rewrite remove_from_index_retain_all in *.
  edestruct retain_all_frame as (-> & -> & Hr'). auto.
Qed.

Lemma indexed_retain_rows conn rows r k e :
  indexed (retain_rows conn rows r) k e <->
  indexed r k e /\
  ~ exists sub fs c sc, (sub, (fs, c, sc)) ∈ rows /\ k ∈ keys_of c fs sc /\ e = (conn, sub).
Proof.
  revert r; induction rows as [|[sub [[fs c] sc]] rows IH]; intros r; simpl.
  - setoid_rewrite elem_of_nil. naive_solver.
  - rewrite IH, remove_from_index_retain_all, indexed_retain_all.
    setoid_rewrite elem_of_cons. split; [|naive_solver].
    intros [[Hi Hn1] Hn2]. split; [done|].
    intros (sub' & fs' & c' & sc' & [[= -> -> -> ->]|Hin] & Hk & He); [naive_solver|].
    apply Hn2. by exists sub', fs', c', sc'.
Qed.

Lemma remove_connection_table r conn conn' sub' :
  lookup_sub (remove_connection conn r).1 conn' sub' =
  if decide (conn' = conn) then None else lookup_sub r conn' sub'.
Proof.
  unfold remove_connection. destruct (subs r !! conn) as [m|] eqn:Em; simpl.
  - erewrite lookup_sub_subs; [|simpl; apply (retain_rows_frame conn)].
    unfold lookup_sub. simpl. case_decide; simplify_eq.
    + by rewrite lookup_delete_eq.
    + by rewrite lookup_delete_ne by congruence.
  - case_decide; [|done]. simplify_eq. unfold lookup_sub. by rewrite Em.
Qed.

Lemma wf_remove_connection r conn :
  registry_wf r -> registry_wf (remove_connection conn r).1.
Proof.
  intros Hwf. pose proof (remove_connection_table r conn) as Ht. revert Ht.
  unfold remove_connection. destruct (subs r !! conn) as [m|] eqn:Em; [|done].
  simpl. fold (retain_rows conn (map_to_list m) (with_subs (delete conn (subs r)) r)).
  destruct (retain_rows_frame conn (map_to_list m) (with_subs (delete conn (subs r)) r))
    as (Hs & Hg & Hr).
  intros Ht. split.
  - intros k conn' sub'.
    rewrite Ht, indexed_gauge, indexed_retain_rows, indexed_with_subs, (wf_index r Hwf).
    case_decide as Hc; [subst|naive_solver]. split; [|naive_solver].
    intros [(fs & c & sc & Hl & Hk) Hn]. exfalso. apply Hn.
    unfold lookup_sub in Hl. rewrite Em in Hl. exists sub', fs, c, sc.
    rewrite elem_of_map_to_list. naive_solver.
  - intros k. rewrite rows_gauge. revert k. apply Hr. intros k.
    rewrite rows_with_subs. apply (wf_rows r Hwf).
  - simpl. rewrite Hg. unfold total_subscriptions. simpl. rewrite Hs. simpl.
    rewrite (wf_gauge r Hwf). unfold total_subscriptions.
    pose proof (total_lookup (subs r) conn m Em). unfold total_of in *. lia.
Qed.

Lemma remove_connection_result r conn x :
  x ∈ (remove_connection conn r).2 <->
  lookup_sub r conn (rs_sub_id x) ≫= (fun en : SubEntry =>
    if decide (en.1.2 = rs_community_id x /\ en.2 = rs_scope x) then Some () else None) = Some ().
Proof.
  unfold remove_connection, lookup_sub. destruct (subs r !! conn) as [m|]; simpl.
  2: { split; [by intros ?%elem_of_nil|done]. }
  rewrite list_elem_of_fmap. split.
  - intros ([sub [[fs c] sc]] & -> & Hin%elem_of_map_to_list). simpl. rewrite Hin. simpl.
    by rewrite decide_True.
  - destruct x as [sub c sc]. simpl. destruct (m !! sub) as [[[fs c'] sc']|] eqn:Em; simpl; [|done].
    case_decide as Hd; [|done]. destruct Hd as [-> ->]. intros _.
    exists (sub, (fs, c, sc)). by rewrite elem_of_map_to_list.
Qed.

(** ** Revocation of a channel *)

(** What revoking a channel does to one table entry. *)
Definition revoke_entry (c : CommunityId) (ch : Uuid) (en : SubEntry) : option SubEntry :=
  let '(fs, c', sc) := en in
  if decide (c' = c /\ ch ∈ channel_ids sc) then
    let chs := List.filter (fun x => negb (N.eqb x ch)) (channel_ids sc) in
    if decide (chs = []) then None else Some (fs, c', Channels chs)
  else Some (fs, c', sc).

Lemma elem_of_without ch x (chs : list N) :
  x ∈ List.filter (fun x => negb (N.eqb x ch)) chs <-> x ∈ chs /\ x <> ch.
Proof.
  rewrite list_elem_of_In, filter_In, <- list_elem_of_In, negb_true_iff. by rewrite N.eqb_neq.
Qed.

Lemma channel_keys_inj c fs ch ch' k :
  k ∈ channel_keys c fs ch -> k ∈ channel_keys c fs ch' -> ch = ch'.
Proof. unfold channel_keys. case_match; set_solver. Qed.

Lemma keys_of_without c fs ch chs k :
  k ∈ keys_of c fs (Channels (List.filter (fun x => negb (N.eqb x ch)) chs)) <->
  k ∈ keys_of c fs (Channels chs) /\ k ∉ keys_of c fs (Channels [ch]).
Proof.
  simpl. rewrite app_nil_r, !list_elem_of_bind. setoid_rewrite elem_of_without. split.
  - intros (x & Hk & Hx & Hne). split; [eauto|]. intros Hk'. apply Hne.
    by eapply channel_keys_inj.
  - intros [(x & Hk & Hx) Hn]. exists x. split_and!; [done..|]. by intros ->.
Qed.

(** One iteration of the loop, on an entry of the revoked community. *)
Section RevokeOne.
Context (c : CommunityId) (conn : ConnId) (ch : Uuid) (sub : SubId) (r : SubscriptionRegistry)
  (m : gmap SubId SubEntry) (fs : list Filter) (chs : list Uuid).
Context (Em : subs r !! conn = Some m) (Es : m !! sub = Some (fs, c, Channels chs))
  (Hch : ch ∈ chs).

Let chs' := List.filter (fun x => negb (N.eqb x ch)) chs.
Let m' := <[sub := (fs, c, Channels chs')]> m.
(** The registry with the narrowed entry and the index rows dropped. *)
Let kept := retain_all (keys_of c fs (Channels [ch])) (conn, sub)
              (with_subs (<[conn := m']> (subs r)) r).
(** The registry when no channel is left. *)
Let dropped := gauge_add (-1) (with_subs (<[conn := delete sub m']> (subs kept)) kept).

Lemma revoke_entry_eq :
  revoke_entry c ch (fs, c, Channels chs) =
  if decide (chs' = []) then None else Some (fs, c, Channels chs').
Proof. unfold revoke_entry. simpl. by rewrite decide_True. Qed.

Lemma revoke_one_eq :
  revoke_one c conn ch sub r =
  Some (if bool_decide (chs' = []) then dropped else kept,
        Some (mkUpdate sub (bool_decide (chs' = [])))).
Proof.
  unfold revoke_one. rewrite Em, Es, remove_from_index_retain_all. reflexivity.
Qed.

Lemma revoke_lookup : lookup_sub r conn sub = Some (fs, c, Channels chs).
Proof. unfold lookup_sub. by rewrite Em. Qed.

Lemma kept_subs : subs kept = <[conn := m']> (subs r).
Proof. unfold kept. by rewrite (proj1 (retain_all_frame _ _ _)). Qed.

Lemma kept_gauge : active_gauge kept = active_gauge r.
Proof. unfold kept. by rewrite (proj1 (proj2 (retain_all_frame _ _ _))). Qed.

Lemma kept_rows : registry_wf r -> rows_ok kept.
Proof.
  intros Hwf. apply (proj2 (proj2 (retain_all_frame _ _ _))). intros k.
  rewrite rows_with_subs. apply (wf_rows r Hwf).
Qed.

Lemma kept_indexed k e : indexed kept k e <->
  indexed r k e /\ ~ (k ∈ keys_of c fs (Channels [ch]) /\ e = (conn, sub)).
Proof. unfold kept. by rewrite indexed_retain_all, indexed_with_subs. Qed.

Lemma kept_table conn' sub' : lookup_sub kept conn' sub' =
  if decide ((conn', sub') = (conn, sub)) then Some (fs, c, Channels chs')
  else lookup_sub r conn' sub'.
Proof.
  unfold lookup_sub. rewrite kept_subs. case_decide; simplify_eq.
  - rewrite lookup_insert_eq. simpl. unfold m'. by rewrite lookup_insert_eq.
  - destruct (decide (conn' = conn)) as [->|]; [|by rewrite lookup_insert_ne by congruence].
    rewrite lookup_insert_eq. simpl. unfold m'. rewrite lookup_insert_ne by congruence.
    by rewrite Em.
Qed.

Lemma dropped_table conn' sub' : lookup_sub dropped conn' sub' =
  if decide ((conn', sub') = (conn, sub)) then None else lookup_sub r conn' sub'.
Proof.
  unfold dropped. rewrite (lookup_sub_subs _ (with_subs _ kept)) by reflexivity.
  rewrite lookup_sub_insert. repeat case_decide; simplify_eq; try done.
  - by rewrite lookup_delete_eq.
  - rewrite lookup_delete_ne by congruence. unfold m'. rewrite lookup_insert_ne by congruence.
    unfold lookup_sub. by rewrite Em.
  - rewrite kept_table. by rewrite decide_False by congruence.
Qed.

(** With no channel left, the narrowed keys were all the keys. *)
Lemma last_channel_keys k :
  chs' = [] -> k ∈ keys_of c fs (Channels chs) <-> k ∈ keys_of c fs (Channels [ch]).
Proof.
  intros Hnil. pose proof (keys_of_without c fs ch chs k) as Hkw. fold chs' in Hkw.
  rewrite Hnil in Hkw. split.
  - intros Hk. destruct (decide (k ∈ keys_of c fs (Channels [ch]))) as [|Hn]; [done|].
    assert (k ∈ keys_of c fs (Channels [])) as []%elem_of_nil by (apply Hkw; done).
  - simpl. rewrite app_nil_r. intros Hk. apply list_elem_of_bind. eauto.
Qed.

Lemma wf_dropped : chs' = [] -> registry_wf r -> registry_wf dropped.
Proof.
  intros Hnil Hwf. split.
  - eapply wf_index_drop; [done|apply revoke_lookup| |apply dropped_table]. intros k e.
    unfold dropped. rewrite indexed_gauge, indexed_with_subs, kept_indexed.
    by rewrite last_channel_keys.
  - intros k. unfold dropped. rewrite rows_gauge, rows_with_subs. by apply kept_rows.
  - unfold dropped, total_subscriptions. simpl.
    rewrite kept_gauge, (wf_gauge r Hwf), kept_subs, insert_insert_eq.
    pose proof (total_lookup (subs r) conn m Em) as E1.
    pose proof (total_insert (subs r) conn (delete sub m')) as E2.
    unfold m' in *. rewrite delete_insert_eq in *.
    pose proof (size_delete_S m sub _ Es). unfold total_of, total_subscriptions in *. lia.
Qed.

Lemma wf_kept : registry_wf r -> registry_wf kept.
Proof.
  intros Hwf. split.
  - intros k conn' sub'. rewrite kept_indexed, (wf_index r Hwf), kept_table.
    case_decide as He; [|naive_solver]. simplify_eq.
    pose proof revoke_lookup as Hl. pose proof (keys_of_without c fs ch chs k) as Hkw.
    fold chs' in Hkw. split.
    + intros [(fs' & c' & sc' & Hl' & Hk) Hn]. simplify_eq. eexists _, _, _. split; [done|].
      apply Hkw. naive_solver.
    + intros (fs' & c' & sc' & Hl' & Hk). simplify_eq. apply Hkw in Hk as [Hk Hn].
      split; [|naive_solver]. eexists _, _, _. done.
  - by apply kept_rows.
  - unfold total_subscriptions. rewrite kept_gauge, (wf_gauge r Hwf), kept_subs.
    pose proof (total_lookup (subs r) conn m Em) as E1.
    pose proof (total_insert (subs r) conn m') as E2.
    assert (size m' = size m) as Hm' by (apply map_size_insert_Some; eauto).
    unfold total_of, total_subscriptions in *. lia.
Qed.

Lemma revoke_one_spec :
  exists r', revoke_one c conn ch sub r =
      Some (r', Some (mkUpdate sub (bool_decide (revoke_entry c ch (fs, c, Channels chs) = None)))) /\
    (forall conn' sub', lookup_sub r' conn' sub' =
       if decide ((conn', sub') = (conn, sub)) then revoke_entry c ch (fs, c, Channels chs)
       else lookup_sub r conn' sub') /\
    is_Some (subs r' !! conn) /\
    (registry_wf r -> registry_wf r').
Proof.
  rewrite revoke_one_eq, revoke_entry_eq. destruct (decide (chs' = [])) as [Hnil|Hnil].
  - rewrite !bool_decide_eq_true_2 by done. exists dropped. split_and!; [done| | |].
    + apply dropped_table.
    + unfold dropped. simpl. rewrite lookup_insert_eq. eauto.
    + by apply wf_dropped.
  - rewrite !bool_decide_eq_false_2 by done. exists kept. split_and!; [done| | |].
    + apply kept_table.
    + rewrite kept_subs, lookup_insert_eq. eauto.
    + apply wf_kept.
Qed.
End RevokeOne.

(** The whole loop over subscriptions of the revoked community. *)
Lemma revoke_loop_spec c conn ch subs_todo ups r :
  registry_wf r -> NoDup subs_todo ->
  (forall sub, sub ∈ subs_todo -> exists fs chs, lookup_sub r conn sub = Some (fs, c, Channels chs) /\
                                                 ch ∈ chs) ->
  let out := revoke_loop c conn ch subs_todo ups r in
  registry_wf out.1 /\
  (forall conn' sub', lookup_sub out.1 conn' sub' =
     if decide (conn' = conn /\ sub' ∈ subs_todo)
     then lookup_sub r conn sub' ≫= revoke_entry c ch else lookup_sub r conn' sub') /\
  out.2 = ups ++ ((fun sub => mkUpdate sub
            (bool_decide (lookup_sub r conn sub ≫= revoke_entry c ch = None))) <$> subs_todo).
Proof.
  revert ups r. induction subs_todo as [|sub rest IH]; intros ups r Hwf Hnd Hall; simpl.
  { split_and!; [done| |by rewrite app_nil_r]. intros.
    rewrite decide_False; [done|]. by intros [_ []%elem_of_nil]. }
  apply NoDup_cons in Hnd as [Hnotin Hnd].
  destruct (Hall sub) as (fs & chs & Hl & Hch); [by left|].
  unfold lookup_sub in Hl. destruct (subs r !! conn) as [m|] eqn:Em; [|done]. simpl in Hl.
  destruct (revoke_one_spec c conn ch sub r m fs chs Em Hl Hch) as (r' & -> & Ht & _ & Hwf').
  assert (lookup_sub r conn sub = Some (fs, c, Channels chs)) as Hls
    by (unfold lookup_sub; by rewrite Em).
  assert (forall sub', sub' <> sub -> lookup_sub r' conn sub' = lookup_sub r conn sub') as Hoth.
  { intros sub' Hne. rewrite Ht. by rewrite decide_False by congruence. }
  destruct (IH (ups ++ option_list (Some (mkUpdate sub (bool_decide
    (revoke_entry c ch (fs, c, Channels chs) = None))))) r') as (H1 & H2 & H3); [auto|done| |].
  { intros sub' Hin. rewrite Hoth by (by intros ->). apply Hall. by right. }
  split_and!; [done| |].
  - intros conn' sub'. rewrite H2. destruct (decide (conn' = conn)) as [->|Hne].
    2: { rewrite !decide_False by naive_solver. rewrite Ht. by rewrite decide_False by congruence. }
    destruct (decide (sub' = sub)) as [->|Hne].
    + rewrite decide_False by naive_solver. rewrite (decide_True (P := _ /\ _)) by (split; [done|by left]).
      rewrite Ht, Hls. by rewrite decide_True.
    + rewrite Hoth by done. destruct (decide (sub' ∈ rest)) as [Hin|Hin].
      * rewrite !decide_True; [done|split; [done|by right]|done].
      * rewrite !decide_False; [done| |naive_solver]. intros [_ [?|?]%elem_of_cons]; done.
  - etrans; [exact H3|]. rewrite Hls, <- app_assoc. cbn [option_list app]. do 2 f_equal.
    apply list_fmap_ext. intros i sub' Hin%list_elem_of_lookup_2. by rewrite Hoth by (by intros ->).
Qed.

Lemma affected_sub_ids_spec c conn ch r :
  NoDup (affected_sub_ids c conn ch r) /\
  forall sub, sub ∈ affected_sub_ids c conn ch r <->
    exists fs chs, lookup_sub r conn sub = Some (fs, c, Channels chs) /\ ch ∈ chs.
Proof.
  unfold affected_sub_ids, lookup_sub. destruct (subs r !! conn) as [m|]; simpl.
  2: { split; [apply NoDup_nil_2|]. split; [by intros ?%elem_of_nil|naive_solver]. }
  split.
  - pose proof (NoDup_fst_map_to_list m) as Hnd. revert Hnd.
    induction (map_to_list m) as [|[sub [[fs c'] sc]] l IH]; intros Hnd; [apply NoDup_nil_2|].
    apply NoDup_cons in Hnd as [Hn Hnd]. cbn.
    destruct (bool_decide _ && bool_decide _); [|by apply IH].
    constructor; [|by apply IH]. intros ([sub' [[fs' c''] sc']] & Hin & E')%list_elem_of_omap.
    destruct (bool_decide _ && bool_decide _); simplify_eq.
    apply Hn, list_elem_of_fmap. eexists. split; [|exact Hin]. done.
  - intros sub. rewrite list_elem_of_omap. split.
    + intros ([sub' [[fs c'] sc]] & Hin%elem_of_map_to_list & E).
      case_match eqn:Eb; simplify_eq. bool_prop. subst. destruct sc as [|chs]; simpl in *; [set_solver|].
      eauto.
    + intros (fs & chs & Hl & Hch). exists (sub, (fs, c, Channels chs)).
      rewrite elem_of_map_to_list. split; [done|]. simpl.
      by rewrite !bool_decide_eq_true_2 by done.
Qed.

(** Revocation is [revoke_entry] on every subscription of the connection. *)
Lemma revoke_table c conn ch r conn' sub' :
  registry_wf r ->
  lookup_sub (remove_channel_subscriptions_scoped c conn ch r).1 conn' sub' =
  if decide (conn' = conn) then lookup_sub r conn sub' ≫= revoke_entry c ch
  else lookup_sub r conn' sub'.
Proof.
  intros Hwf. destruct (affected_sub_ids_spec c conn ch r) as [Hnd Haff].
  unfold remove_channel_subscriptions_scoped.
  edestruct (revoke_loop_spec c conn ch _ [] r Hwf Hnd) as (_ & Ht & _).
  { intros sub. apply Haff. }
  rewrite Ht. destruct (decide (conn' = conn)) as [->|Hne].
  2: { rewrite decide_False; [done|]. by intros [? _]. }
  case_decide as Hin; [done|].
  destruct (lookup_sub r conn sub') as [[[fs c'] sc]|] eqn:El; [|done]. simpl.
  rewrite decide_False; [done|]. intros [-> Hch]. apply Hin. split; [done|]. apply Haff.
  destruct sc; simpl in *; [set_solver|eauto].
Qed.

Lemma wf_revoke c conn ch r :
  registry_wf r -> registry_wf (remove_channel_subscriptions_scoped c conn ch r).1.
Proof.
  intros Hwf. destruct (affected_sub_ids_spec c conn ch r) as [Hnd Haff].
  unfold remove_channel_subscriptions_scoped.
  edestruct (revoke_loop_spec c conn ch _ [] r Hwf Hnd) as (H1 & _ & _); [|done].
  intros sub. apply Haff.
Qed.
