(* ===== verification/SubscriptionTheorems.v ===== *)
(** The properties of the subscription registry, stated over every sequence of
    operations a relay can perform on it. *)

From S2P Require Import Prelude Nostr Filter Subscription SubscriptionIndex SubscriptionSpec.

(** ** Runs of the registry *)

Inductive RegistryOp :=
| OpRegister (c : CommunityId) (conn : ConnId) (sub : SubId) (fs : list Filter) (ch : option Uuid)
| OpRegisterChannels (c : CommunityId) (conn : ConnId) (sub : SubId) (fs : list Filter)
    (chs : list Uuid)
| OpRemove (conn : ConnId) (sub : SubId)
| OpRemoveConnection (conn : ConnId)
| OpRevokeChannel (c : CommunityId) (conn : ConnId) (ch : Uuid).

Definition apply_op (r : SubscriptionRegistry) (op : RegistryOp) : SubscriptionRegistry :=
  match op with
  | OpRegister c conn sub fs ch => (register_scoped c conn sub fs ch r).1
  | OpRegisterChannels c conn sub fs chs => (register_channels_scoped c conn sub fs chs r).1
  | OpRemove conn sub => (remove_subscription conn sub r).1
  | OpRemoveConnection conn => (remove_connection conn r).1
  | OpRevokeChannel c conn ch => (remove_channel_subscriptions_scoped c conn ch r).1
  end.

Definition run_ops (ops : list RegistryOp) : SubscriptionRegistry :=
  foldl apply_op registry_new ops.

Lemma wf_apply_op r op : registry_wf r -> registry_wf (apply_op r op).
Proof.
  intros Hwf. destruct op; simpl;
    auto using wf_register, wf_remove_subscription, wf_remove_connection, wf_revoke.
  - by apply wf_register.
  - by apply wf_register.
Qed.

Lemma wf_foldl ops r : registry_wf r -> registry_wf (foldl apply_op r ops).
Proof. revert r; induction ops; simpl; auto using wf_apply_op. Qed.

Lemma wf_run ops : registry_wf (run_ops ops).
Proof. apply wf_foldl, wf_new. Qed.

#[export] Hint Resolve wf_run wf_register wf_remove_subscription wf_remove_connection wf_revoke : crew.

(** after any sequence of operations the five indexes hold exactly the
    rows that the authoritative table induces, no index keeps an empty row,
    and the activity gauge equals the number of subscriptions. *)
Theorem registry_invariant (ops : list RegistryOp) : registry_wf (run_ops ops).
Proof. apply wf_run. Qed.

(** A fan-out whose candidates are re-checked one by one, each against the
    registry as it is at that moment: other threads may have changed it since
    the candidate list was copied out of the index. *)
Definition interleaved_fan_out `{NostrLib} (c : CommunityId) (ev : StoredEvent)
    (schedule : list (SubscriptionRegistry * Entry)) : list Entry :=
  (foldl (fun acc '(r, e) => push_match r c ev acc e) ([], ∅) schedule).1.

Section Properties.
Context `{NostrLib} `{!NostrLaws}.

(** C1: on every reachable registry the indexed fan-out returns, without
    duplicates, exactly the subscriptions that a scan of the authoritative
    table selects: same community, a scope that routes the event's channel,
    a matching filter. *)
Theorem fan_out_refines_scan (ops : list RegistryOp) (c : CommunityId) (ev : StoredEvent) :
  NoDup (fan_out_scoped (run_ops ops) c ev) /\
  forall e, e ∈ fan_out_scoped (run_ops ops) c ev <-> deliverable (run_ops ops) c ev e.
Proof.
  split; [apply fan_out_lookup|]. intros e. apply fan_out_spec, wf_run.
Qed.

(** revoking a channel removes exactly the deliveries of that channel,
    in that community, to that connection; every other delivery of every
    community is unchanged. *)
Theorem revocation_exact ops c conn ch c' ev e :
  let r := run_ops ops in
  let r' := (remove_channel_subscriptions_scoped c conn ch r).1 in
  e ∈ fan_out_scoped r' c' ev <->
  e ∈ fan_out_scoped r c' ev /\ ~ (e.1 = conn /\ c' = c /\ se_channel_id ev = Some ch).
Proof.
  intros r r'. rewrite !fan_out_spec by eauto with crew. unfold deliverable, r', r.
  rewrite revoke_table by auto with crew. destruct e as [conn' sub']; simpl.
  case_decide as Hc; [subst conn'|naive_solver].
  destruct (lookup_sub (run_ops ops) conn sub') as [[[fs c0] sc]|]; simpl; [|naive_solver].
  destruct (decide (c0 = c /\ ch ∈ channel_ids sc)) as [[-> Hin]|Hn].
  2: { split; [|naive_solver]. intros (fs' & sc' & [= -> -> ->] & Hm & Hf). split; [eauto|].
       intros (_ & -> & Hch). apply Hn. split; [done|]. rewrite Hch in Hm.
       destruct sc'; simpl in *; [done|]. by bool_prop. }
  destruct sc as [|chs]; simpl in *; [set_solver|].
  set (chs' := List.filter (fun x => negb (x =? ch)%N) chs).
  assert (forall x, x ∈ chs' <-> x ∈ chs /\ x <> ch) as Hel by (intros; apply elem_of_without).
  destruct (se_channel_id ev) as [x|] eqn:Ex; simpl.
  2: { case_decide; simpl; split; naive_solver. }
  case_decide as Hnil; split.
  - naive_solver.
  - intros [(fs' & sc' & [= <- <- <-] & Hm & Hf) Hne]. simpl in Hm. bool_prop.
    assert (x ∈ chs') as Hx by (apply Hel; naive_solver). rewrite Hnil in Hx.
    by apply elem_of_nil in Hx.
  - intros (fs' & sc' & [= <- <- <-] & Hm & Hf). simpl in Hm. bool_prop.
    apply Hel in Hm as [Hx Hne]. split; [|naive_solver]. eexists _, _. split; [done|].
    simpl. by rewrite bool_decide_eq_true_2.
  - intros [(fs' & sc' & [= <- <- <-] & Hm & Hf) Hne]. simpl in Hm. bool_prop.
    eexists _, _. split; [done|]. simpl. split; [|done].
    apply bool_decide_eq_true_2, Hel. naive_solver.
Qed.

(** registering replaces: afterwards the subscription id delivers by its
    new community, scope and filters only, and every other subscription
    delivers as before. *)
Theorem register_exact ops c conn sub fs sc c' ev e :
  let r := run_ops ops in
  let r' := (register_with_scope c conn sub fs sc r).1 in
  e ∈ fan_out_scoped r' c' ev <->
  if decide (e = (conn, sub))
  then c' = c /\ matches_channel sc (se_channel_id ev) = true /\ filters_match fs ev = true
  else e ∈ fan_out_scoped r c' ev.
Proof.
  intros r r'. rewrite fan_out_spec by eauto with crew. unfold deliverable, r', r.
  destruct e as [conn' sub']. rewrite register_table; simpl. case_decide; simplify_eq.
  - naive_solver.
  - rewrite fan_out_spec by auto with crew. done.
Qed.

(** a disconnect removes the connection everywhere: no index row names
    it, no event reaches it, the other connections' deliveries are unchanged,
    and the returned list names exactly the subscriptions it had. *)
Theorem disconnect_exact ops conn :
  let r := run_ops ops in
  let '(r', removed) := remove_connection conn r in
  (forall k sub, ~ indexed r' k (conn, sub)) /\
  (forall c ev e, e ∈ fan_out_scoped r' c ev <-> e ∈ fan_out_scoped r c ev /\ e.1 <> conn) /\
  (forall sub c sc, mkRemoved sub c sc ∈ removed <->
     exists fs, lookup_sub r conn sub = Some (fs, c, sc)).
Proof.
  intros r. pose proof (remove_connection_table r conn) as Ht.
  pose proof (wf_remove_connection r conn (wf_run ops)) as Hwf.
  pose proof (remove_connection_result r conn) as Hres.
  destruct (remove_connection conn r) as [r' removed]. simpl in *. split_and!.
  - intros k sub (fs & c & sc & Hl & _)%(wf_index r' Hwf). rewrite Ht in Hl.
    by rewrite decide_True in Hl.
  - intros c ev [conn' sub']. rewrite fan_out_spec, fan_out_spec by (done || apply wf_run).
    unfold deliverable. rewrite Ht. simpl. case_decide; naive_solver.
  - intros sub c sc. rewrite Hres. simpl.
    destruct (lookup_sub r conn sub) as [[[fs c'] sc']|]; simpl; [|naive_solver].
    case_decide; naive_solver.
Qed.
End Properties.

Section Interleaving.
Context `{NostrLib}.

(** however the fan-out interleaves with other operations, it names no
    subscription twice and only names subscriptions that were authoritative
    for the event (community, scope and filters) when they were checked; a
    stale index row cannot deliver across scopes. *)
Theorem interleaved_fan_out_safe c ev (schedule : list (SubscriptionRegistry * Entry)) :
  NoDup (interleaved_fan_out c ev schedule) /\
  forall e, e ∈ interleaved_fan_out c ev schedule <->
            exists r, (r, e) ∈ schedule /\ deliverable r c ev e.
Proof.
  unfold interleaved_fan_out.
  enough (forall acc, acc_ok acc ->
    let out := foldl (fun acc '(r, e) => push_match r c ev acc e) acc schedule in
    acc_ok out /\ forall e, e ∈ out.1 <->
      e ∈ acc.1 \/ exists r, (r, e) ∈ schedule /\ deliverable r c ev e) as Hgen.
  { destruct (Hgen ([], ∅)) as [[_ Hnd] Hel]; [split; [done|apply NoDup_nil_2]|].
    split; [done|]. intros e. rewrite Hel. set_solver. }
  induction schedule as [|[r e0] schedule IH]; intros acc Hok; simpl.
  - split; [done|]. setoid_rewrite elem_of_nil. naive_solver.
  - destruct (push_match_spec r c ev acc e0 Hok) as [Hok' Hm].
    destruct (IH _ Hok') as [Hok'' Hel]. split; [done|]. intros e. rewrite Hel, Hm.
    setoid_rewrite elem_of_cons. naive_solver.
Qed.
End Interleaving.

(** ** Queries *)

Lemma subscriber_fold_spec (c : CommunityId) (ch : Uuid)
    (rows : list ((CommunityId * IndexKey) * list Entry)) (acc : gset ConnId) conn :
  conn ∈ foldl (fun conns '((c0, key), entries) =>
      if bool_decide (c0 = c) && N.eqb (ik_channel_id key) ch
      then conns ∪ list_to_set (fst <$> entries) else conns) acc rows <->
  conn ∈ acc \/ exists kind es sub,
    ((c, mkIndexKey ch kind), es) ∈ rows /\ (conn, sub) ∈ es.
Proof.
  revert acc; induction rows as [|[[c0 [ch0 kind0]] es0] rows IH]; intros acc; simpl.
  - setoid_rewrite elem_of_nil. naive_solver.
  - rewrite IH. clear IH. setoid_rewrite elem_of_cons.
    destruct (bool_decide (c0 = c) && (ch0 =? ch)%N) eqn:E.
    + bool_prop. apply N.eqb_eq in H0. subst.
      rewrite elem_of_union, elem_of_list_to_set, list_elem_of_fmap. split.
      * intros [[?|([? sub] & -> & ?)]|(kind & es & sub & ? & ?)]; eauto 10.
      * intros [?|(kind & es & sub & [[= -> ->]|?] & ?)]; [eauto| |eauto 10].
        left. right. by exists (conn, sub).
    + split; [naive_solver|]. intros [?|(kind & es & sub & [[= -> -> ->]|?] & ?)]; [eauto| |eauto 10].
      rewrite bool_decide_eq_true_2, N.eqb_refl in E; done.
Qed.

Lemma subscribers_indexed c ch r conn :
  conn ∈ channel_subscriber_conns_scoped c ch r <->
  (exists kind sub, indexed r (KChannelKind (c, mkIndexKey ch kind)) (conn, sub)) \/
  exists sub, indexed r (KChannelWildcard (c, ch)) (conn, sub).
Proof.
  unfold channel_subscriber_conns_scoped, indexed. simpl. rewrite elem_of_elements.
  assert (forall es : list Entry, conn ∈ (fst <$> es) <-> exists sub, (conn, sub) ∈ es) as Hfst.
  { intros es. rewrite list_elem_of_fmap. split; [intros ([] & -> & ?); eauto|].
    intros [sub Hs]. by exists (conn, sub). }
  destruct (channel_wildcard_index r !! (c, ch)) as [es|];
    rewrite ?elem_of_union, subscriber_fold_spec, ?elem_of_list_to_set, ?Hfst;
    setoid_rewrite elem_of_map_to_list; rewrite elem_of_empty; split.
  - intros [[[]|(kind & es' & sub & ? & ?)]|[sub ?]]; eauto 10.
  - intros [(kind & sub & es' & ? & ?)|(sub & es' & [= <-] & ?)]; eauto 10.
  - intros [[]|(kind & es' & sub & ? & ?)]; eauto 10.
  - intros [(kind & sub & es' & ? & ?)|(sub & es' & ? & ?)]; [eauto 10|done].
Qed.

(** Which channel keys a subscription is filed under. *)
Lemma channel_kind_key c fs sc c' ch kind :
  KChannelKind (c', mkIndexKey ch kind) ∈ keys_of c fs sc <->
  c' = c /\ exists chs ks, sc = Channels chs /\ ch ∈ chs /\
    extract_kinds_from_filters fs = Some ks /\ kind ∈ ks.
Proof.
  destruct sc as [|chs]; simpl.
  - split; [|naive_solver]. unfold global_keys. repeat case_match; set_solver.
  - rewrite list_elem_of_bind. unfold channel_keys.
    destruct (extract_kinds_from_filters fs) as [ks|]; [|set_solver].
    setoid_rewrite list_elem_of_fmap. split.
    + intros (ch' & (k' & [= -> -> ->] & ?) & ?). eauto 10.
    + intros (-> & chs' & ks' & [= <-] & ? & [= <-] & ?). eauto 10.
Qed.

Lemma channel_wildcard_key c fs sc c' ch :
  KChannelWildcard (c', ch) ∈ keys_of c fs sc <->
  c' = c /\ exists chs, sc = Channels chs /\ ch ∈ chs /\ extract_kinds_from_filters fs = None.
Proof.
  destruct sc as [|chs]; simpl.
  - split; [|naive_solver]. unfold global_keys. repeat case_match; set_solver.
  - rewrite list_elem_of_bind. unfold channel_keys.
    destruct (extract_kinds_from_filters fs) as [ks|]; [set_solver|].
    setoid_rewrite list_elem_of_singleton. split.
    + intros (ch' & [= -> ->] & ?). eauto 10.
    + intros (-> & chs' & [= <-] & ? & _). eauto 10.
Qed.

(** the subscriber query returns, once each, exactly the connections with
    a subscription scoped to the channel in that community, except those whose
    filters all have an empty kinds list (they match nothing and are in no
    index). *)
Theorem channel_subscribers_exact ops c ch conn :
  let r := run_ops ops in
  NoDup (channel_subscriber_conns_scoped c ch r) /\
  (conn ∈ channel_subscriber_conns_scoped c ch r <->
   exists sub fs chs, lookup_sub r conn sub = Some (fs, c, Channels chs) /\ ch ∈ chs /\
                      extract_kinds_from_filters fs <> Some []).
Proof.
  intros r. split; [apply NoDup_elements|]. rewrite subscribers_indexed.
  setoid_rewrite (wf_index r (wf_run ops)).
  setoid_rewrite channel_kind_key. setoid_rewrite channel_wildcard_key. split.
  - intros [(kind & sub & fs & c' & sc & Hl & <- & chs & ks & -> & ? & EK & Hk)
           |(sub & fs & c' & sc & Hl & <- & chs & -> & ? & EK)];
      exists sub, fs, chs; rewrite EK; split_and!; try done.
    intros [= ->]. by apply elem_of_nil in Hk.
  - intros (sub & fs & chs & Hl & Hch & Hne).
    destruct (extract_kinds_from_filters fs) as [[|k ks]|] eqn:EK; [done| |].
    + left. exists k, sub, fs, c, (Channels chs). split_and!; [done..|].
      exists chs, (k :: ks). split_and!; [done..|]. by left.
    + right. exists sub, fs, c, (Channels chs). eauto 10.
Qed.

(** closing the only subscription of a connection restores the number of
    subscriptions and the gauge, but the connection stays counted by
    [total_connections] until it disconnects. *)
Theorem closed_connection_still_counted ops c conn sub fs sc :
  let r := run_ops ops in
  subs r !! conn = None ->
  let r' := (remove_subscription conn sub (register_with_scope c conn sub fs sc r).1).1 in
  total_subscriptions r' = total_subscriptions r /\
  active_gauge r' = active_gauge r /\
  (forall sub', contains conn sub' r' = false) /\
  total_connections r' = S (total_connections r).
Proof.
  intros r Hnone r'. pose proof (wf_run ops : registry_wf r) as Hwf.
  assert (registry_wf r') as Hwf' by eauto with crew.
  assert (subs r' = <[conn := ∅]> (subs r)) as Hs.
  { unfold r', register_with_scope. rewrite (remove_subscription_none r conn sub)
      by (unfold lookup_sub; by rewrite Hnone). simpl. rewrite Hnone. simpl.
    rewrite add_to_index_push_all. unfold remove_subscription.
    rewrite (proj1 (push_all_frame _ _ _)). simpl. rewrite lookup_insert_eq, lookup_insert_eq.
    simpl. rewrite remove_from_index_retain_all, (proj1 (retain_all_frame _ _ _)). simpl.
    rewrite insert_insert_eq. by rewrite delete_insert_id by apply lookup_empty. }
  assert (total_subscriptions r' = total_subscriptions r) as Ht.
  { unfold total_subscriptions. rewrite Hs. change (total_of (<[conn := ∅]> (subs r)) = total_of (subs r)).
    by rewrite total_insert, total_missing. }
  split_and!; [done|by rewrite (wf_gauge r' Hwf'), (wf_gauge r Hwf), Ht| |].
  - intros sub'. unfold contains. rewrite Hs, lookup_insert_eq, lookup_empty. done.
  - unfold total_connections. rewrite Hs. by apply map_size_insert_None.
Qed.

(** ** Witnesses

    Connection 1 follows channels 7 and 8, connection 2 follows everything in
    channel 7, connection 3 is a global subscription by recipient. *)
Import Sample.

Definition town : CommunityId := from_uuid 1.

Definition all_kinds : Filter := mkFilter None None None None None ∅.

Definition sample_ops : list RegistryOp :=
  [OpRegisterChannels town 1 "a" [sample_filter] [7%N; 8%N];
   OpRegister town 2 "b" [all_kinds] (Some 7%N);
   OpRegister town 3 "c" [mkFilter None None (Some {[9%N]}) None None {[p_tag := {["alice"]}]}] None].

Lemma fan_out_refines_scan_witness :
  fan_out_scoped (run_ops sample_ops) town sample_event = [(1%N, "a"); (2%N, "b")] /\
  deliverable (run_ops sample_ops) town sample_event (1%N, "a").
Proof.
  assert (fan_out_scoped (run_ops sample_ops) town sample_event = [(1%N, "a"); (2%N, "b")]) as E
    by (vm_compute; reflexivity).
  split; [exact E|].
  apply (proj2 (fan_out_refines_scan sample_ops town sample_event)). rewrite E. by left.
Defined.

Lemma revocation_exact_witness :
  let r' := (remove_channel_subscriptions_scoped town 1 7 (run_ops sample_ops)).1 in
  fan_out_scoped r' town sample_event = [(2%N, "b")] /\
  ~ (1%N, "a") ∈ fan_out_scoped r' town sample_event.
Proof.
  split; [vm_compute; reflexivity|].
  intros [_ Hn]%(revocation_exact sample_ops town 1 7 town sample_event (1%N, "a")).
  apply Hn. split_and!; reflexivity.
Defined.

Lemma register_exact_witness :
  contains 2 "b" (register_with_scope town 2 "b" [all_kinds] Global (run_ops sample_ops)).1 = true /\
  ~ (2%N, "b") ∈ fan_out_scoped
      (register_with_scope town 2 "b" [all_kinds] Global (run_ops sample_ops)).1 town sample_event.
Proof.
  split; [vm_compute; reflexivity|]. intros Hin.
  apply (register_exact sample_ops town 2 "b" [all_kinds] Global town sample_event (2%N, "b")) in Hin.
  vm_compute in Hin. destruct Hin as (_ & Hf & _). discriminate Hf.
Defined.

Lemma disconnect_exact_witness :
  contains 1 "a" (run_ops sample_ops) = true /\
  ~ indexed (remove_connection 1 (run_ops sample_ops)).1
      (KChannelKind (town, mkIndexKey 7 9)) (1%N, "a").
Proof.
  split; [vm_compute; reflexivity|].
  pose proof (disconnect_exact sample_ops 1) as Hd. cbv zeta in Hd.
  destruct (remove_connection 1 (run_ops sample_ops)) as [r' removed].
  destruct Hd as [Hd _]. exact (Hd (KChannelKind (town, mkIndexKey 7 9)) "a").
Defined.

Lemma closed_connection_still_counted_witness :
  total_connections
    (remove_subscription 9 "x"
       (register_with_scope town 9 "x" [all_kinds] Global (run_ops sample_ops)).1).1 = 4.
Proof.
  destruct (closed_connection_still_counted sample_ops town 9 "x" [all_kinds] Global)
    as (_ & _ & _ & Hc).
  - vm_compute. reflexivity.
  - rewrite Hc. vm_compute. reflexivity.
Defined.
