(* ===== verification/Channel.v ===== *)
(** Channel and membership enums, buzz-core/src/channel.rs. *)

From S2P Require Import Prelude.

Inductive ChannelVisibility := Open | Private.

Definition ChannelVisibility_as_str (v : ChannelVisibility) : string :=
  match v with Open => "open" | Private => "private" end.

(** The error of every [FromStr] here is a message; the model keeps the
    offending text, which is all that varies in it. *)
Definition ChannelVisibility_from_str (s : string) : result ChannelVisibility string :=
  if String.eqb s "open" then Ok Open
  else if String.eqb s "private" then Ok Private
  else Err s.

Inductive ChannelType := Stream | Forum | Dm | Workflow.

Definition ChannelType_as_str (t : ChannelType) : string :=
  match t with
  | Stream => "stream" | Forum => "forum" | Dm => "dm" | Workflow => "workflow"
  end.

Definition ChannelType_from_str (s : string) : result ChannelType string :=
  if String.eqb s "stream" then Ok Stream
  else if String.eqb s "forum" then Ok Forum
  else if String.eqb s "dm" then Ok Dm
  else if String.eqb s "workflow" then Ok Workflow
  else Err s.

Inductive MemberRole := Owner | Admin | Member | Guest | Bot.

#[export] Instance MemberRole_eq_dec : EqDecision MemberRole.
Proof. solve_decision. Defined.

Definition MemberRole_as_str (r : MemberRole) : string :=
  match r with
  | Owner => "owner" | Admin => "admin" | Member => "member"
  | Guest => "guest" | Bot => "bot"
  end.

Definition is_elevated (r : MemberRole) : bool :=
  match r with Owner | Admin => true | _ => false end.

Definition permission_level (r : MemberRole) : nat :=
  match r with Owner => 4 | Admin => 3 | Member => 2 | Guest => 1 | Bot => 0 end.

Definition has_at_least (r required : MemberRole) : bool :=
  permission_level required <=? permission_level r.

Definition MemberRole_from_str (s : string) : result MemberRole string :=
  if String.eqb s "owner" then Ok Owner
  else if String.eqb s "admin" then Ok Admin
  else if String.eqb s "member" then Ok Member
  else if String.eqb s "guest" then Ok Guest
  else if String.eqb s "bot" then Ok Bot
  else Err s.

(** ** Lemmas *)

Lemma has_at_least_spec r required :
  has_at_least r required = true <-> permission_level required <= permission_level r.
Proof. apply Nat.leb_le. Qed.

Lemma permission_level_inj r r' : permission_level r = permission_level r' -> r = r'.
Proof. by destruct r, r'. Qed.

Ltac parse_enum :=
  match goal with
  | |- context [String.eqb ?s ?t] => destruct (String.eqb_spec s t) as [->|?]
  end.

Lemma MemberRole_from_str_spec s r :
  MemberRole_from_str s = Ok r <-> s = MemberRole_as_str r.
Proof.
  split; [|intros ->; by destruct r]. unfold MemberRole_from_str.
  repeat (parse_enum; [by intros [= <-]|]). done.
Qed.

Lemma MemberRole_as_str_inj r r' : MemberRole_as_str r = MemberRole_as_str r' -> r = r'.
Proof. by destruct r, r'. Qed.

Lemma MemberRole_from_str_err s e : MemberRole_from_str s = Err e -> e = s.
Proof. unfold MemberRole_from_str. repeat (parse_enum; [done|]). by intros [= ->]. Qed.

Lemma ChannelType_from_str_spec s t :
  ChannelType_from_str s = Ok t <-> s = ChannelType_as_str t.
Proof.
  split; [|intros ->; by destruct t]. unfold ChannelType_from_str.
  repeat (parse_enum; [by intros [= <-]|]). done.
Qed.

Lemma ChannelVisibility_from_str_spec s v :
  ChannelVisibility_from_str s = Ok v <-> s = ChannelVisibility_as_str v.
Proof.
  split; [|intros ->; by destruct v]. unfold ChannelVisibility_from_str.
  repeat (parse_enum; [by intros [= <-]|]). done.
Qed.
