(* ===== verification/GitPattern.v ===== *)
(** Ref patterns of the git permission system, the first half of
    buzz-core/src/git_perms.rs. *)

From S2P Require Import Prelude.

Definition MAX_PATTERN_LENGTH : nat := 256.
Definition MAX_WILDCARDS_PER_PATTERN : nat := 3.

Inductive PatternSegment :=
| Literal (s : string)
| Wildcard
| RecursiveWildcard.

#[export] Instance PatternSegment_eq_dec : EqDecision PatternSegment.
Proof. solve_decision. Defined.

Record RefPattern := mkRefPattern {
  rp_raw : string;
  rp_segments : list PatternSegment;
}.

#[export] Instance RefPattern_eq_dec : EqDecision RefPattern.
Proof. solve_decision. Defined.

Inductive PatternError :=
| PeEmpty
| PeTooLong
| PeMissingRefsPrefix
| PeInvalidSegment (s : string)
| PeTooManyWildcards.

(** [is_ascii_alphanumeric() || '.' || '_' || '-']. *)
Definition ref_char (c : ascii) : bool :=
  let n := N_of_ascii c in
  ((48 <=? n) && (n <=? 57) || (65 <=? n) && (n <=? 90) || (97 <=? n) && (n <=? 122))%N
  || Ascii.eqb c "." || Ascii.eqb c "_" || Ascii.eqb c "-".

(** The loop of [RefPattern::parse] over the remaining parts: [last] says
    whether the current index is [parts.len() - 1]. *)
Fixpoint parse_segments (parts : list string) (segments : list PatternSegment)
    (wildcard_count : nat) : result (list PatternSegment) PatternError :=
  match parts with
  | [] => Ok segments
  | part :: rest =>
      if String.eqb part "**" then
        if negb (bool_decide (rest = [])) then
          Err (PeInvalidSegment "** must be the last segment")
        else if MAX_WILDCARDS_PER_PATTERN <? S wildcard_count then Err PeTooManyWildcards
        else parse_segments rest (segments ++ [RecursiveWildcard]) (S wildcard_count)
      else if String.eqb part "*" then
        if MAX_WILDCARDS_PER_PATTERN <? S wildcard_count then Err PeTooManyWildcards
        else parse_segments rest (segments ++ [Wildcard]) (S wildcard_count)
      else if String.eqb part "" then Err (PeInvalidSegment "")
      else if contains_char "*" part || contains_char "?" part
              || contains_char "[" part || contains_char "]" part
      then Err (PeInvalidSegment part)
      else if negb (all_chars ref_char part) then Err (PeInvalidSegment part)
      else parse_segments rest (segments ++ [Literal part]) wildcard_count
  end.

Definition RefPattern_parse (pattern : string) : result RefPattern PatternError :=
  if String.eqb pattern "" then Err PeEmpty
  else if MAX_PATTERN_LENGTH <? String.length pattern then Err PeTooLong
  else if negb (starts_with "refs/" pattern) then Err PeMissingRefsPrefix
  else
    let? segments := parse_segments (split_on "/" pattern) [] 0 in
    Ok (mkRefPattern pattern segments).

(** [zip(..).all(..)]: stops at the first mismatch; [None] is the panic of the
    [unreachable!()] arm. *)
Fixpoint all_match (pairs : list (PatternSegment * string)) : option bool :=
  match pairs with
  | [] => Some true
  | (pat, seg) :: rest =>
      match pat with
      | Wildcard => all_match rest
      | Literal lit => if String.eqb lit seg then all_match rest else Some false
      | RecursiveWildcard => None
      end
  end.

(** [RefPattern::matches], with the panic visible. *)
Definition matches_or_panic (p : RefPattern) (ref_name : string) : option bool :=
  let ref_segments := split_on "/" ref_name in
  let segments := rp_segments p in
  match last segments with
  | Some RecursiveWildcard =>
      let prefix_len := length segments - 1 in
      if length ref_segments <=? prefix_len then Some false
      else all_match (zip (take prefix_len segments) (take prefix_len ref_segments))
  | _ =>
      if negb (length ref_segments =? length segments) then Some false
      else all_match (zip segments ref_segments)
  end.

(** [RefPattern::matches] as its callers see it; patterns only come from
    [RefPattern_parse], for which the panic is unreachable
    ([matches_never_panics]). *)
Definition matches (p : RefPattern) (ref_name : string) : bool :=
  default false (matches_or_panic p ref_name).

(** ** Declarative reading *)

Inductive segments_match : list PatternSegment -> list string -> Prop :=
| sm_nil : segments_match [] []
| sm_literal l ps ss : segments_match ps ss -> segments_match (Literal l :: ps) (l :: ss)
| sm_wildcard s ps ss : segments_match ps ss -> segments_match (Wildcard :: ps) (s :: ss)
| sm_recursive s ss : segments_match [RecursiveWildcard] (s :: ss).

(** The text of a segment. *)
Definition segment_text (p : PatternSegment) : string :=
  match p with Literal s => s | Wildcard => "*" | RecursiveWildcard => "**" end.

Definition is_wildcard (p : PatternSegment) : bool :=
  match p with Literal _ => false | _ => true end.

Definition literal_ok (s : string) : Prop :=
  s <> "" /\ all_chars ref_char s = true.

(** Segment lists that a pattern can have: literals over the ref alphabet, a
    recursive wildcard only at the end, at most three wildcards. *)
Fixpoint segments_ok (ps : list PatternSegment) : Prop :=
  match ps with
  | [] => True
  | Literal s :: ps' => literal_ok s /\ segments_ok ps'
  | Wildcard :: ps' => segments_ok ps'
  | RecursiveWildcard :: ps' => ps' = []
  end.

Definition wildcards (ps : list PatternSegment) : nat := length (List.filter is_wildcard ps).

(** ** Lemmas *)

Lemma literal_ok_parts s :
  literal_ok s ->
  String.eqb s "**" = false /\ String.eqb s "*" = false /\ String.eqb s "" = false /\
  contains_char "*" s || contains_char "?" s || contains_char "[" s || contains_char "]" s = false.
Proof.
  intros [Hne Hall].
  rewrite !(all_chars_excludes ref_char _ s) by done.
  split_and!; try done; apply String.eqb_neq; intros ->; done.
Qed.

(** A successful parse: the segments print as the parts and are well formed. *)
Lemma parse_segments_sound parts acc wc segs :
  wc <= MAX_WILDCARDS_PER_PATTERN -> parse_segments parts acc wc = Ok segs ->
  exists ps, segs = acc ++ ps /\ segment_text <$> ps = parts /\ segments_ok ps /\
             wc + wildcards ps <= MAX_WILDCARDS_PER_PATTERN.
Proof.
  revert acc wc; induction parts as [|part rest IH]; intros acc wc Hwc; simpl.
  { intros [= <-]. exists []. rewrite app_nil_r. unfold wildcards. simpl. split_and!; try done. lia. }
  destruct (String.eqb_spec part "**") as [->|H2].
  { case_bool_decide as Hrest; simpl negb; cbv iota; [|done]. subst rest. case_match eqn:Ew; [done|].
    apply Nat.ltb_ge in Ew. intros [= <-]. exists [RecursiveWildcard].
    unfold wildcards; simpl in *. split_and!; try done; lia. }
  destruct (String.eqb_spec part "*") as [->|H1].
  { case_match eqn:Ew; [done|]. apply Nat.ltb_ge in Ew.
    intros (ps & -> & <- & Hok & Hw)%IH; [|lia]. exists (Wildcard :: ps).
    unfold wildcards in *; simpl in *. rewrite <- app_assoc. split_and!; try done; lia. }
  destruct (String.eqb_spec part "") as [->|H0]; [done|].
  case_match; [done|]. destruct (all_chars ref_char part) eqn:Ec; [|done]. simpl.
  intros (ps & -> & <- & Hok & Hw)%IH; [|done]. exists (Literal part :: ps).
  rewrite <- app_assoc. unfold literal_ok. by split_and!.
Qed.

(** Well-formed segments parse back from their text. *)
Lemma parse_segments_complete ps acc wc :
  segments_ok ps -> wc + wildcards ps <= MAX_WILDCARDS_PER_PATTERN ->
  parse_segments (segment_text <$> ps) acc wc = Ok (acc ++ ps).
Proof.
  revert acc wc; induction ps as [|p ps IH]; intros acc wc Hok Hw; simpl.
  { by rewrite app_nil_r. }
  destruct p as [s| |]; simpl in *.
  - destruct Hok as [Hlit Hok]. destruct (literal_ok_parts s Hlit) as (-> & -> & -> & ->).
    destruct Hlit as [_ ->]. simpl. rewrite IH by done. by rewrite <- app_assoc.
  - unfold wildcards in Hw; simpl in Hw.
    destruct (Nat.ltb_spec MAX_WILDCARDS_PER_PATTERN (S wc)); [lia|].
    rewrite IH; [by rewrite <- app_assoc|done|]. unfold wildcards. lia.
  - subst ps. unfold wildcards in Hw; simpl in Hw.
    destruct (Nat.ltb_spec MAX_WILDCARDS_PER_PATTERN (S wc)); [lia|]. done.
Qed.

Lemma segment_text_no_slash ps :
  segments_ok ps -> Forall (fun w => contains_char "/" w = false) (segment_text <$> ps).
Proof.
  induction ps as [|p ps IH]; intros Hok; simpl; [constructor|].
  destruct p as [s| |]; simpl in *.
  - destruct Hok as [[_ Hs] Hok]. constructor; [|auto]. by apply (all_chars_excludes ref_char).
  - constructor; auto.
  - subst. by repeat constructor.
Qed.

Lemma last_recursive ps :
  segments_ok ps -> last ps = Some RecursiveWildcard ->
  exists qs, ps = qs ++ [RecursiveWildcard] /\ segments_ok qs /\ RecursiveWildcard ∉ qs.
Proof.
  induction ps as [|p ps IH]; [done|]. intros Hok Hl.
  destruct ps as [|p' ps'].
  - exists []. simpl in Hl. injection Hl as ->. set_solver.
  - destruct p as [s| |]; simpl in Hok; [destruct Hok as [Hlit Hok]| |done].
    + destruct IH as (qs & -> & Hqs & Hn); [done|done|]. exists (Literal s :: qs). set_solver.
    + destruct IH as (qs & -> & Hqs & Hn); [done|done|]. exists (Wildcard :: qs). set_solver.
Qed.

Lemma no_recursive ps :
  segments_ok ps -> last ps <> Some RecursiveWildcard -> RecursiveWildcard ∉ ps.
Proof.
  induction ps as [|p ps IH]; [set_solver|]. intros Hok Hl.
  destruct p as [s| |]; simpl in Hok; [destruct Hok as [Hlit Hok]| |subst; done];
    (destruct ps as [|p' ps']; [set_solver|]); apply not_elem_of_cons; auto.
Qed.

(** Without a recursive wildcard the loop decides the relation. *)
Lemma all_match_plain qs ss :
  RecursiveWildcard ∉ qs -> length qs = length ss ->
  exists b, all_match (zip qs ss) = Some b /\ (b = true <-> segments_match qs ss).
Proof.
  revert ss; induction qs as [|q qs IH]; intros [|s ss] Hn Hlen; try done; simpl.
  { exists true. split; [done|]. split; [constructor|done]. }
  apply not_elem_of_cons in Hn as [Hq Hn]. injection Hlen as Hlen.
  destruct (IH ss Hn Hlen) as (b & Hb & Hspec). destruct q as [l| |]; [| |done].
  - destruct (String.eqb_spec l s) as [->|Hne].
    + exists b. split; [done|]. rewrite Hspec. split; [by constructor|by inversion 1].
    + exists false. split; [done|]. split; [done|by inversion 1].
  - exists b. split; [done|]. rewrite Hspec. split; [by constructor|by inversion 1].
Qed.

Lemma segments_match_length qs ss :
  RecursiveWildcard ∉ qs -> segments_match qs ss -> length qs = length ss.
Proof. intros Hn. induction 1; simpl; try set_solver. all: f_equal; apply IHsegments_match; set_solver. Qed.

Lemma segments_match_recursive qs ss :
  RecursiveWildcard ∉ qs ->
  segments_match (qs ++ [RecursiveWildcard]) ss <->
  length qs < length ss /\ segments_match qs (take (length qs) ss).
Proof.
  revert ss; induction qs as [|q qs IH]; intros ss Hn; simpl.
  { split.
    - inversion 1; subst. simpl. split; [lia|constructor].
    - intros [Hl _]. destruct ss; simpl in Hl; [lia|constructor]. }
  apply not_elem_of_cons in Hn as [Hq Hn]. split.
  - inversion 1 as [|? ? ss' Hm|? ? ss' Hm|]; subst; try done;
      apply IH in Hm as [? ?]; try done; simpl; (split; [lia|by constructor]).
  - intros [Hl Hm]. destruct ss as [|s ss]; simpl in *; [lia|]. inversion Hm; subst; try done;
      constructor; apply IH; [done|split; [lia|done]|done|split; [lia|done]].
Qed.

(** On well-formed segments the code decides the relation without panicking. *)
Lemma matches_or_panic_spec p ref_name :
  segments_ok (rp_segments p) ->
  exists b, matches_or_panic p ref_name = Some b /\
            (b = true <-> segments_match (rp_segments p) (split_on "/" ref_name)).
Proof.
  intros Hok. unfold matches_or_panic. set (ss := split_on "/" ref_name).
  set (ps := rp_segments p) in *.
  destruct (decide (last ps = Some RecursiveWildcard)) as [Hl|Hl].
  - destruct (last_recursive ps Hok Hl) as (qs & Hps & _ & Hn). rewrite Hl, Hps.
    rewrite length_app. simpl. replace (length qs + 1 - 1) with (length qs) by lia.
    rewrite take_app_length. destruct (Nat.leb_spec (length ss) (length qs)) as [Hle|Hlt].
    + exists false. split; [done|]. rewrite segments_match_recursive by done. split; [done|lia].
    + destruct (all_match_plain qs (take (length qs) ss) Hn) as (b & -> & Hb).
      { rewrite length_take. lia. }
      exists b. split; [done|]. rewrite Hb, segments_match_recursive by done. naive_solver.
  - pose proof (no_recursive ps Hok Hl) as Hn.
    assert (forall b (x y : option bool), match last ps with
      | Some RecursiveWildcard => x | _ => y end = Some b <-> y = Some b) as Hlast.
    { intros. destruct (last ps) as [[| |]|]; done. }
    setoid_rewrite Hlast.
    destruct (Nat.eqb_spec (length ss) (length ps)) as [Hlen|Hlen]; simpl.
    + destruct (all_match_plain ps ss Hn) as (b & -> & Hb); [done|]. eauto.
    + exists false. split; [done|]. split; [done|]. intros Hm.
      apply segments_match_length in Hm; [congruence|done].
Qed.

Lemma RefPattern_parse_sound pattern p :
  RefPattern_parse pattern = Ok p ->
  rp_raw p = pattern /\ String.length pattern <= MAX_PATTERN_LENGTH /\
  starts_with "refs/" pattern = true /\
  segment_text <$> rp_segments p = split_on "/" pattern /\
  segments_ok (rp_segments p) /\ wildcards (rp_segments p) <= MAX_WILDCARDS_PER_PATTERN.
Proof.
  unfold RefPattern_parse. case_match; [done|].
  destruct (Nat.ltb_spec MAX_PATTERN_LENGTH (String.length pattern)); [done|].
  destruct (starts_with "refs/" pattern) eqn:Hs; [|done]. simpl.
  destruct (parse_segments _ _ _) as [segs|] eqn:Ep; [|done]. intros [= <-].
  apply parse_segments_sound in Ep as (ps & -> & Hps & Hok & Hw); [|unfold MAX_WILDCARDS_PER_PATTERN; lia].
  by split_and!.
Qed.

(** ** Properties *)

(** C40: a parsed pattern matches a ref, without ever reaching the
    [unreachable!()] arm, exactly when the segments match one by one: a
    literal itself, [*] any one segment, a final [**] one or more segments.
    This is what [parse] and [matches] do; the documentation of [RefPattern]
    knows [*] only and rules [**] out. *)
Theorem matches_never_panics pattern p ref_name :
  RefPattern_parse pattern = Ok p ->
  matches_or_panic p ref_name = Some (matches p ref_name) /\
  (matches p ref_name = true <-> segments_match (rp_segments p) (split_on "/" ref_name)).
Proof.
  intros (_ & _ & _ & _ & Hok & _)%RefPattern_parse_sound.
  destruct (matches_or_panic_spec p ref_name Hok) as (b & Hb & Hspec).
  unfold matches. rewrite Hb. simpl. by split.
Qed.

(** parsing and printing are inverse.  A parsed pattern prints back to the
    text it came from, keeps it, and has well-formed segments with at most
    three wildcards; and the text of any such segment list under [refs/] of
    at most 256 bytes parses to exactly those segments. *)
Theorem pattern_round_trip :
  (forall pattern p, RefPattern_parse pattern = Ok p ->
     rp_raw p = pattern /\ join_with "/" (segment_text <$> rp_segments p) = pattern /\
     segments_ok (rp_segments p) /\ wildcards (rp_segments p) <= MAX_WILDCARDS_PER_PATTERN) /\
  (forall ps, ps <> [] -> segments_ok ps -> wildcards ps <= MAX_WILDCARDS_PER_PATTERN ->
     let text := join_with "/" (segment_text <$> (Literal "refs" :: ps)) in
     String.length text <= MAX_PATTERN_LENGTH ->
     RefPattern_parse text = Ok (mkRefPattern text (Literal "refs" :: ps))).
Proof.
  split.
  - intros pattern p (? & _ & _ & Hps & ? & ?)%RefPattern_parse_sound.
    split_and!; try done. rewrite Hps. apply join_split.
  - intros ps Hne Hok Hw text Hlen.
    assert (exists rest, text = "refs/" +:+ rest) as [rest Htext].
    { destruct ps as [|p ps]; [done|]. by eexists. }
    assert (segments_ok (Literal "refs" :: ps)) as Hok' by done.
    assert (split_on "/" text = segment_text <$> (Literal "refs" :: ps)) as Hsplit.
    { apply split_join; [done|]. by apply segment_text_no_slash. }
    unfold RefPattern_parse.
    destruct (String.eqb_spec text "") as [E|_]; [by rewrite Htext in E|].
    destruct (Nat.ltb_spec MAX_PATTERN_LENGTH (String.length text)); [lia|].
    replace (starts_with "refs/" text) with true by (symmetry; apply starts_with_spec; eauto).
    simpl negb. cbv iota. rewrite Hsplit, (parse_segments_complete (Literal "refs" :: ps)); done.
Qed.

(** ** Witnesses *)

Definition release_pattern : RefPattern :=
  mkRefPattern "refs/heads/*/release/**"
    [Literal "refs"; Literal "heads"; Wildcard; Literal "release"; RecursiveWildcard].

Lemma matches_never_panics_witness :
  matches release_pattern "refs/heads/team/release/v1/rc" = true /\
  segments_match (rp_segments release_pattern)
    (split_on "/" "refs/heads/team/release/v1/rc").
Proof.
  split; [reflexivity|].
  apply (matches_never_panics "refs/heads/*/release/**" release_pattern); reflexivity.
Defined.
