(* ===== verification/GitPerms.v ===== *)
(** Protection rules and the push policy, the second half of
    buzz-core/src/git_perms.rs. *)

From S2P Require Import Prelude Channel GitPattern.

Definition MAX_PROTECTION_RULES : nat := 50.

Inductive UpdateKind := Create | FastForward | NonFastForward | Delete.

#[export] Instance UpdateKind_eq_dec : EqDecision UpdateKind.
Proof. solve_decision. Defined.

Definition ZERO_OID : string := "0000000000000000000000000000000000000000".

Definition classify (old_oid new_oid : string) (is_ancestor : bool) : UpdateKind :=
  if String.eqb old_oid ZERO_OID then Create
  else if String.eqb new_oid ZERO_OID then Delete
  else if is_ancestor then FastForward
  else NonFastForward.

Record RefUpdate := mkRefUpdate {
  ru_ref_name : string;
  ru_kind : UpdateKind;
  ru_old_oid : string;
  ru_new_oid : string;
}.

Record ProtectionRule := mkProtectionRule {
  pr_pattern : RefPattern;
  pr_push_role : option MemberRole;
  pr_no_force_push : bool;
  pr_no_delete : bool;
  pr_require_patch : bool;
}.

Inductive RuleParseError :=
| TooFewValues
| TooManyRules
| InvalidPattern (e : PatternError)
| UnknownRule (r : string)
| InvalidRole (r : string).

(** "Take the strictest": keep the existing role unless the new one is strictly
    higher. *)
Definition strictest (existing : option MemberRole) (role : MemberRole) : MemberRole :=
  match existing with
  | None => role
  | Some existing =>
      if permission_level existing <? permission_level role then role else existing
  end.

(** The mutable locals of [parse_protection_tag_with_warnings]. *)
Record RuleAcc := mkRuleAcc {
  ra_push_role : option MemberRole;
  ra_no_force_push : bool;
  ra_no_delete : bool;
  ra_require_patch : bool;
  ra_unknown : list string;
}.

Definition parse_rule_str (acc : RuleAcc) (rule_str : string) : result RuleAcc RuleParseError :=
  match strip_prefix "push:" rule_str with
  | Some role_str =>
      match MemberRole_from_str role_str with
      | Err _ => Err (InvalidRole role_str)
      | Ok role =>
          match role with
          | Bot | Guest => Err (InvalidRole role_str)
          | _ => Ok (mkRuleAcc (Some (strictest (ra_push_role acc) role)) (ra_no_force_push acc)
                       (ra_no_delete acc) (ra_require_patch acc) (ra_unknown acc))
          end
      end
  | None =>
      if String.eqb rule_str "no-force-push" then
        Ok (mkRuleAcc (ra_push_role acc) true (ra_no_delete acc) (ra_require_patch acc) (ra_unknown acc))
      else if String.eqb rule_str "no-delete" then
        Ok (mkRuleAcc (ra_push_role acc) (ra_no_force_push acc) true (ra_require_patch acc) (ra_unknown acc))
      else if String.eqb rule_str "require-patch" then
        Ok (mkRuleAcc (ra_push_role acc) (ra_no_force_push acc) (ra_no_delete acc) true (ra_unknown acc))
      else
        Ok (mkRuleAcc (ra_push_role acc) (ra_no_force_push acc) (ra_no_delete acc)
              (ra_require_patch acc) (ra_unknown acc ++ [rule_str]))
  end.

Fixpoint parse_rule_strs (acc : RuleAcc) (strs : list string) : result RuleAcc RuleParseError :=
  match strs with
  | [] => Ok acc
  | s :: rest => let? acc' := parse_rule_str acc s in parse_rule_strs acc' rest
  end.

Definition parse_protection_tag_with_warnings (values : list string)
  : result (ProtectionRule * list string) RuleParseError :=
  match values with
  | pattern_str :: ((_ :: _) as rules) =>
      match RefPattern_parse pattern_str with
      | Err e => Err (InvalidPattern e)
      | Ok pattern =>
          let? acc := parse_rule_strs (mkRuleAcc None false false false []) rules in
          Ok (mkProtectionRule pattern (ra_push_role acc) (ra_no_force_push acc)
                (ra_no_delete acc) (ra_require_patch acc), ra_unknown acc)
      end
  | _ => Err TooFewValues
  end.

Definition parse_protection_tag (values : list string) : result ProtectionRule RuleParseError :=
  let? parsed := parse_protection_tag_with_warnings values in Ok (fst parsed).

Record ParsedProtection := mkParsedProtection {
  pp_rules : list ProtectionRule;
  pp_unknown_rules : list string;
}.

Fixpoint parse_protection_go (rules : list ProtectionRule) (unknown : list string)
    (tags : list (list string)) : result ParsedProtection RuleParseError :=
  match tags with
  | [] => Ok (mkParsedProtection rules unknown)
  | tag :: rest =>
      match tag with
      | name :: values =>
          if negb (String.eqb name "buzz-protect") then parse_protection_go rules unknown rest
          else if MAX_PROTECTION_RULES <=? length rules then Err TooManyRules
          else
            let? parsed := parse_protection_tag_with_warnings values in
            parse_protection_go (rules ++ [fst parsed]) (unknown ++ snd parsed) rest
      | [] => parse_protection_go rules unknown rest
      end
  end.

Definition parse_protection_tags (tags : list (list string))
  : result ParsedProtection RuleParseError :=
  parse_protection_go [] [] tags.

Definition default_min_role (ref_name : string) (kind : UpdateKind) : MemberRole :=
  let is_branch := starts_with "refs/heads/" ref_name in
  let is_tag := starts_with "refs/tags/" ref_name in
  match kind with
  | Create => if is_branch || is_tag then Member else Admin
  | FastForward => if is_branch then Member else if is_tag then Admin else Admin
  | NonFastForward => Admin
  | Delete => Admin
  end.

Record EffectiveRules := mkEffective {
  er_push_role : option MemberRole;
  er_no_force_push : bool;
  er_no_delete : bool;
  er_require_patch : bool;
  er_has_explicit_match : bool;
}.

Definition union_rule (ref_name : string) (er : EffectiveRules) (rule : ProtectionRule)
  : EffectiveRules :=
  if negb (matches (pr_pattern rule) ref_name) then er
  else mkEffective
    (match pr_push_role rule with
     | Some role => Some (strictest (er_push_role er) role)
     | None => er_push_role er
     end)
    (er_no_force_push er || pr_no_force_push rule)
    (er_no_delete er || pr_no_delete rule)
    (er_require_patch er || pr_require_patch rule)
    true.

(** [EffectiveRules::for_ref]. *)
Definition for_ref (ref_name : string) (rules : list ProtectionRule) : EffectiveRules :=
  foldl (union_rule ref_name) (mkEffective None false false false false) rules.

Record Denial := mkDenial { d_ref_name : string; d_reason : string }.

Definition evaluate_ref_update (update : RefUpdate) (role : MemberRole)
    (rules : list ProtectionRule) : result () Denial :=
  let effective := for_ref (ru_ref_name update) rules in
  if negb (er_has_explicit_match effective) then
    let min_role := default_min_role (ru_ref_name update) (ru_kind update) in
    if negb (has_at_least role min_role) then
      Err (mkDenial (ru_ref_name update)
             ("requires " +:+ MemberRole_as_str min_role +:+ " role (you have "
              +:+ MemberRole_as_str role +:+ "), using built-in defaults"))
    else Ok ()
  else if er_require_patch effective then
    Err (mkDenial (ru_ref_name update)
           "direct push denied: require-patch is set, submit a NIP-34 patch")
  else
    let default_role := default_min_role (ru_ref_name update) (ru_kind update) in
    let min_role :=
      match er_push_role effective with
      | Some explicit =>
          if permission_level default_role <=? permission_level explicit
          then explicit else default_role
      | None => default_role
      end in
    if negb (has_at_least role min_role) then
      Err (mkDenial (ru_ref_name update)
             ("requires " +:+ MemberRole_as_str min_role +:+ " role (you have "
              +:+ MemberRole_as_str role +:+ ")"))
    else if er_no_force_push effective && bool_decide (ru_kind update = NonFastForward) then
      Err (mkDenial (ru_ref_name update)
             "non-fast-forward update denied: no-force-push is set")
    else if er_no_delete effective && bool_decide (ru_kind update = Delete) then
      Err (mkDenial (ru_ref_name update) "ref deletion denied: no-delete is set")
    else Ok ().

Definition evaluate_push (updates : list RefUpdate) (role : MemberRole)
    (rules : list ProtectionRule) : result () (list Denial) :=
  let denials := omap (fun update => err_of (evaluate_ref_update update role rules)) updates in
  if bool_decide (length denials = 0) then Ok () else Err denials.

(** ** Specification of the policy *)

Definition rank (r : MemberRole) : nat := permission_level r.

(** What one matching rule demands of an update. *)
Definition rule_permits (update : RefUpdate) (role : MemberRole) (rule : ProtectionRule) : Prop :=
  pr_require_patch rule = false /\
  (forall required, pr_push_role rule = Some required -> rank required <= rank role) /\
  (pr_no_force_push rule = true -> ru_kind update <> NonFastForward) /\
  (pr_no_delete rule = true -> ru_kind update <> Delete).

(** The built-in minimum always holds, and so does every matching rule. *)
Definition permitted (update : RefUpdate) (role : MemberRole) (rules : list ProtectionRule) : Prop :=
  rank (default_min_role (ru_ref_name update) (ru_kind update)) <= rank role /\
  forall rule, rule ∈ rules -> matches (pr_pattern rule) (ru_ref_name update) = true ->
    rule_permits update role rule.

(** ** The union of the matching rules *)

Definition matching (ref_name : string) (rules : list ProtectionRule) : list ProtectionRule :=
  List.filter (fun r => matches (pr_pattern r) ref_name) rules.

Lemma elem_of_matching ref_name rules r :
  r ∈ matching ref_name rules <-> r ∈ rules /\ matches (pr_pattern r) ref_name = true.
Proof. unfold matching. by rewrite list_elem_of_In, filter_In, <- list_elem_of_In. Qed.

Lemma strictest_rank existing role :
  rank (strictest existing role) =
  Nat.max (match existing with Some e => rank e | None => 0 end) (rank role).
Proof.
  destruct existing as [e|]; simpl; [|done]. unfold strictest, rank.
  destruct (Nat.ltb_spec (permission_level e) (permission_level role)); lia.
Qed.

(** The flags of the fold are disjunctions over the matching rules. *)
Lemma for_ref_flags ref_name rules er :
  let out := foldl (union_rule ref_name) er rules in
  let ms := matching ref_name rules in
  er_require_patch out = er_require_patch er || existsb pr_require_patch ms /\
  er_no_force_push out = er_no_force_push er || existsb pr_no_force_push ms /\
  er_no_delete out = er_no_delete er || existsb pr_no_delete ms /\
  er_has_explicit_match out = er_has_explicit_match er || negb (bool_decide (ms = [])).
Proof.
  revert er; induction rules as [|r rules IH]; intros er; simpl.
  { by rewrite !orb_false_r. }
  destruct (IH (union_rule ref_name er r)) as (-> & -> & -> & ->).
  unfold union_rule. destruct (matches (pr_pattern r) ref_name); simpl; [|done].
  by rewrite !orb_assoc, orb_true_r.
Qed.

(** The role of the fold is the strictest over the matching rules: it bounds a
    rank exactly when every one of them does. *)
Lemma for_ref_role ref_name rules er n :
  (forall e, er_push_role (foldl (union_rule ref_name) er rules) = Some e -> rank e <= n) <->
  (forall e, er_push_role er = Some e -> rank e <= n) /\
  (forall r e, r ∈ matching ref_name rules -> pr_push_role r = Some e -> rank e <= n).
Proof.
  revert er; induction rules as [|r rules IH]; intros er; simpl; [set_solver|].
  rewrite IH. unfold union_rule. destruct (matches (pr_pattern r) ref_name); simpl; [|done].
  setoid_rewrite elem_of_cons. destruct (pr_push_role r) as [role|] eqn:Er; [|naive_solver].
  assert ((forall e, Some (strictest (er_push_role er) role) = Some e -> rank e <= n) <->
    (forall e, er_push_role er = Some e -> rank e <= n) /\ rank role <= n) as ->; [|naive_solver].
  pose proof (strictest_rank (er_push_role er) role) as Hs. split.
  - intros Hb. specialize (Hb _ eq_refl). rewrite Hs in Hb. split; [|lia].
    intros e He. rewrite He in Hb. lia.
  - intros [Ha Hb] e [= <-]. rewrite Hs. destruct (er_push_role er); [|lia].
    specialize (Ha _ eq_refl). lia.
Qed.

Lemma existsb_false {A} (f : A -> bool) l : existsb f l = false <-> forall x, x ∈ l -> f x = false.
Proof.
  rewrite <- not_true_iff_false, existsb_exists. setoid_rewrite <- list_elem_of_In.
  setoid_rewrite <- not_true_iff_false. naive_solver.
Qed.

(** The role test after taking the higher of explicit and default. *)
Lemma min_role_spec explicit default role :
  has_at_least role
    (match explicit with
     | Some e => if permission_level default <=? permission_level e then e else default
     | None => default end) = true <->
  rank default <= rank role /\ forall e, explicit = Some e -> rank e <= rank role.
Proof.
  rewrite has_at_least_spec. unfold rank. destruct explicit as [e|]; [|naive_solver].
  destruct (Nat.leb_spec (permission_level default) (permission_level e)); split; intros Hx.
  - split; [lia|]. intros ? [= <-]. lia.
  - destruct Hx as [? Hx]. by apply Hx.
  - split; [lia|]. intros ? [= <-]. lia.
  - lia.
Qed.

Lemma if_err_ok {E} (b : bool) (e : E) (k : result () E) :
  (if b then Err e else k) = Ok () <-> b = false /\ k = Ok ().
Proof. destruct b; naive_solver. Qed.

Lemma flag_kind_spec (flag : ProtectionRule -> bool) (ms : list ProtectionRule) (k k' : UpdateKind) :
  existsb flag ms && bool_decide (k = k') = false <->
  forall r, r ∈ ms -> flag r = true -> k <> k'.
Proof.
  rewrite andb_false_iff, existsb_false, bool_decide_eq_false.
  destruct (decide (k = k')) as [->|Hne]; [|naive_solver].
  setoid_rewrite <- not_true_iff_false. naive_solver.
Qed.

Lemma evaluate_ref_update_spec update role rules :
  evaluate_ref_update update role rules = Ok () <-> permitted update role rules.
Proof.
  unfold evaluate_ref_update, permitted, rule_permits. set (ref := ru_ref_name update).
  destruct (for_ref_flags ref rules (mkEffective None false false false false))
    as (Hp & Hf & Hd & Hm). simpl in Hp, Hf, Hd, Hm.
  pose proof (for_ref_role ref rules (mkEffective None false false false false) (rank role)) as Hr.
  fold (for_ref ref rules) in *. rewrite Hm, negb_involutive.
  pose proof (elem_of_matching ref rules) as Hel. case_bool_decide as Hnil.
  - rewrite if_err_ok, negb_false_iff, has_at_least_spec. split; [|by intros [? _]].
    intros [Hrank _]. split; [done|]. intros r Hin Hmt.
    assert (r ∈ matching ref rules) as Hc by (apply Hel; done). rewrite Hnil in Hc. set_solver.
  - rewrite !if_err_ok, negb_false_iff, min_role_spec, Hp, Hf, Hd, Hr, existsb_false,
      !flag_kind_spec. simpl. split.
    + intros (H1 & (H2 & _ & H3) & H4 & H5 & _). split; [done|]. intros r Hin Hmt.
      assert (r ∈ matching ref rules) as Hc by (apply Hel; done).
      split_and!; eauto.
    + intros (H1 & H2).
      assert (forall r, r ∈ matching ref rules -> rule_permits update role r) as H3.
      { intros r [? ?]%Hel. by apply H2. }
      split_and!; try done; intros r; intros; edestruct (H3 r) as (? & ? & ? & ?); eauto.
Qed.

Lemma evaluate_push_spec updates role rules :
  evaluate_push updates role rules = Ok () <->
  forall u, u ∈ updates -> permitted u role rules.
Proof.
  unfold evaluate_push. setoid_rewrite <- evaluate_ref_update_spec.
  induction updates as [|u us IH]; [by split; [set_solver|]|]. cbn.
  destruct (evaluate_ref_update u role rules) as [[]|d] eqn:Eu; simpl.
  - rewrite IH. setoid_rewrite elem_of_cons. naive_solver.
  - split; [done|]. intros Hall. specialize (Hall u). rewrite Eu in Hall.
    ospecialize (Hall _); [by left|done].
Qed.

(** ** Parsing of protection tags *)

(** What a rule must say about the rule strings of its tag. *)
Record tag_rule (tag : list string) (rule : ProtectionRule) : Prop := {
  tr_shape : exists pat strs, tag = "buzz-protect" :: pat :: strs /\ strs <> [] /\
    RefPattern_parse pat = Ok (pr_pattern rule);
  tr_no_force_push : pr_no_force_push rule = true <-> "no-force-push" ∈ drop 2 tag;
  tr_no_delete : pr_no_delete rule = true <-> "no-delete" ∈ drop 2 tag;
  tr_require_patch : pr_require_patch rule = true <-> "require-patch" ∈ drop 2 tag;
  tr_roles_ok : forall s, ("push:" +:+ s) ∈ drop 2 tag -> s ∈ ["owner"; "admin"; "member"];
  tr_role_some : forall e, pr_push_role rule = Some e ->
    ("push:" +:+ MemberRole_as_str e) ∈ drop 2 tag;
  tr_role_strictest : forall e, ("push:" +:+ MemberRole_as_str e) ∈ drop 2 tag ->
    exists e', pr_push_role rule = Some e' /\ rank e <= rank e';
}.

(** The accumulator after some rule strings. *)
Record acc_of (strs : list string) (acc : RuleAcc) : Prop := {
  ao_no_force_push : ra_no_force_push acc = true <-> "no-force-push" ∈ strs;
  ao_no_delete : ra_no_delete acc = true <-> "no-delete" ∈ strs;
  ao_require_patch : ra_require_patch acc = true <-> "require-patch" ∈ strs;
  ao_roles_ok : forall s, ("push:" +:+ s) ∈ strs -> s ∈ ["owner"; "admin"; "member"];
  ao_role_some : forall e, ra_push_role acc = Some e -> ("push:" +:+ MemberRole_as_str e) ∈ strs;
  ao_role_strictest : forall e, ("push:" +:+ MemberRole_as_str e) ∈ strs ->
    exists e', ra_push_role acc = Some e' /\ rank e <= rank e';
}.

Lemma push_prefix_inj s t : "push:" +:+ s = "push:" +:+ t -> s = t.
Proof. apply (inj (String.append "push:")). Qed.

Lemma strictest_cases existing role :
  strictest existing role = role \/ existing = Some (strictest existing role).
Proof.
  destruct existing as [e|]; [|by left]. simpl.
  destruct (permission_level e <? permission_level role); [by left|by right].
Qed.

Lemma acc_of_push strs acc role :
  acc_of strs acc -> MemberRole_as_str role ∈ ["owner"; "admin"; "member"] ->
  acc_of (strs ++ ["push:" +:+ MemberRole_as_str role])
    (mkRuleAcc (Some (strictest (ra_push_role acc) role)) (ra_no_force_push acc)
       (ra_no_delete acc) (ra_require_patch acc) (ra_unknown acc)).
Proof.
  intros [H1 H2 H3 H4 H5 H6] Hrole. split; simpl; try (rewrite elem_of_app, list_elem_of_singleton;
    destruct role; simpl; naive_solver).
  - intros s [Hs|Hs%list_elem_of_singleton]%elem_of_app; [auto|].
    apply push_prefix_inj in Hs as ->. done.
  - intros e [= <-]. apply elem_of_app. rewrite list_elem_of_singleton.
    destruct (strictest_cases (ra_push_role acc) role) as [->|He]; [by right|left; auto].
  - intros e [He|He%list_elem_of_singleton]%elem_of_app;
      eexists; (split; [done|]); rewrite strictest_rank.
    + destruct (H6 e He) as (e' & -> & ?). lia.
    + apply push_prefix_inj in He. assert (e = role) as -> by (destruct e, role; done). lia.
Qed.

Lemma parse_rule_str_ok strs acc s acc' :
  acc_of strs acc -> parse_rule_str acc s = Ok acc' -> acc_of (strs ++ [s]) acc'.
Proof.
  intros Hacc. unfold parse_rule_str. destruct (strip_prefix "push:" s) as [role_str|] eqn:Ep.
  - apply strip_prefix_Some in Ep as ->.
    destruct (MemberRole_from_str role_str) as [role|] eqn:Er; [|done].
    apply MemberRole_from_str_spec in Er as ->.
    destruct role; try done; intros [= <-]; apply acc_of_push; set_solver.
  - assert (forall t, s <> "push:" +:+ t) as Hnp.
    { intros t ->. rewrite (proj2 (strip_prefix_Some "push:" ("push:" +:+ t) t)) in Ep; done. }
    destruct Hacc as [H1 H2 H3 H4 H5 H6].
    assert (forall t, ("push:" +:+ t) ∈ strs ++ [s] <-> ("push:" +:+ t) ∈ strs) as Hpush.
    { intros t. rewrite elem_of_app, list_elem_of_singleton. naive_solver. }
    destruct (String.eqb_spec s "no-force-push") as [->|];
      [|destruct (String.eqb_spec s "no-delete") as [->|];
      [|destruct (String.eqb_spec s "require-patch") as [->|]]];
      intros [= <-]; split; simpl; try setoid_rewrite Hpush; auto;
      rewrite elem_of_app, list_elem_of_singleton; naive_solver.
Qed.

Lemma parse_rule_strs_ok rest strs acc acc' :
  acc_of strs acc -> parse_rule_strs acc rest = Ok acc' -> acc_of (strs ++ rest) acc'.
Proof.
  revert strs acc; induction rest as [|s rest IH]; intros strs acc Hacc; simpl.
  - intros [= <-]. by rewrite app_nil_r.
  - destruct (parse_rule_str acc s) as [acc1|] eqn:Es; [|done]. intros Hr.
    rewrite cons_middle, app_assoc. eapply IH; [|done]. by eapply parse_rule_str_ok.
Qed.

Lemma parse_tag_ok values rule unknown :
  parse_protection_tag_with_warnings values = Ok (rule, unknown) ->
  tag_rule ("buzz-protect" :: values) rule.
Proof.
  unfold parse_protection_tag_with_warnings. destruct values as [|pat [|s strs]]; try done.
  destruct (RefPattern_parse pat) as [p|] eqn:Ep; [|done].
  destruct (parse_rule_strs _ _) as [acc|] eqn:Er; [|done]. intros [= <- <-].
  eapply (parse_rule_strs_ok _ []) in Er; [|split; simpl; set_solver].
  destruct Er. split; simpl; auto. by exists pat, (s :: strs).
Qed.

Definition is_protect (tag : list string) : bool :=
  match tag with name :: _ => String.eqb name "buzz-protect" | [] => false end.

Lemma parse_go_ok tags rules unknown pp :
  length rules <= MAX_PROTECTION_RULES ->
  parse_protection_go rules unknown tags = Ok pp ->
  length (pp_rules pp) <= MAX_PROTECTION_RULES /\
  exists new, pp_rules pp = rules ++ new /\ Forall2 tag_rule (List.filter is_protect tags) new.
Proof.
  revert rules unknown; induction tags as [|tag tags IH]; intros rules unknown Hlen;
    cbn [parse_protection_go List.filter].
  { intros [= <-]. split; [done|]. exists []. split; [by rewrite app_nil_r|constructor]. }
  destruct tag as [|name values]; cbn [is_protect]; [exact (IH _ _ Hlen)|].
  destruct (String.eqb_spec name "buzz-protect") as [->|Hne]; cbn [negb]; [|exact (IH _ _ Hlen)].
  destruct (Nat.leb_spec MAX_PROTECTION_RULES (length rules)) as [|Hlt]; [done|].
  destruct (parse_protection_tag_with_warnings values) as [[rule unk]|] eqn:Ep; [|done].
  intros [Hl (new & Hn & HF)]%IH.
  2: { rewrite length_app. cbn [length fst]. lia. }
  split; [done|]. exists (rule :: new). rewrite Hn, <- app_assoc. split; [done|].
  constructor; [|done]. by eapply parse_tag_ok.
Qed.

(** ** Properties *)

(** A push is accepted exactly when every update of it is permitted by the
    built-in minimum role and by every matching rule; when it is refused the
    denials name, in order, exactly the refs of the updates that are not
    permitted, so one bad update rejects the whole push. *)
Theorem push_policy_correct updates role rules :
  match evaluate_push updates role rules with
  | Ok _ => forall u, u ∈ updates -> permitted u role rules
  | Err denials =>
      denials <> [] /\
      exists bad, Forall (fun u => ~ permitted u role rules) bad /\
        sublist bad updates /\ d_ref_name <$> denials = ru_ref_name <$> bad /\
        (forall u, u ∈ updates -> u ∈ bad \/ permitted u role rules)
  end.
Proof.
  destruct (evaluate_push updates role rules) as [[]|denials] eqn:E.
  { by apply evaluate_push_spec. }
  unfold evaluate_push in E. case_bool_decide as Hl; [done|]. injection E as <-.
  split; [by contradict Hl; rewrite Hl|]. clear Hl.
  assert (forall u d, evaluate_ref_update u role rules = Err d -> d_ref_name d = ru_ref_name u) as Hname.
  { intros u d. unfold evaluate_ref_update. repeat case_match; by intros [= <-]. }
  induction updates as [|u us (bad & Hb & Hs & Hn & Ha)].
  { exists []. split_and!; try done. set_solver. }
  rewrite omap_cons_eq. destruct (evaluate_ref_update u role rules) as [[]|d] eqn:Eu; cbn [err_of].
  - exists bad. apply evaluate_ref_update_spec in Eu. split_and!; [done| |done|].
    + by apply sublist_cons.
    + intros u' [->|?]%elem_of_cons; auto.
  - exists (u :: bad). split_and!.
    + constructor; [|done]. rewrite <- evaluate_ref_update_spec. by rewrite Eu.
    + by apply sublist_skip.
    + by rewrite !fmap_cons, Hn, (Hname u d Eu).
    + intros u' [->|Hin]%elem_of_cons; [set_solver|]. destruct (Ha u' Hin); set_solver.
Qed.

(** the policy is monotone: a push that is accepted stays accepted for a
    role of equal or higher rank and under any subset of the rules (so adding
    a rule never opens a ref, and the order and repetition of rules do not
    matter). *)
Theorem policy_monotone updates role role' rules rules' :
  rank role <= rank role' -> rules' ⊆ rules ->
  evaluate_push updates role rules = Ok () -> evaluate_push updates role' rules' = Ok ().
Proof.
  rewrite !evaluate_push_spec. intros Hr Hsub Hall u Hu.
  destruct (Hall u Hu) as [Hd Hrules]. split; [lia|]. intros r Hin Hm.
  destruct (Hrules r (Hsub r Hin) Hm) as (? & Hpush & ? & ?). split_and!; auto.
  intros required Hreq. specialize (Hpush _ Hreq). lia.
Qed.

(** a parsed announcement has one rule per [buzz-protect] tag, at most
    fifty, and each rule says exactly what its tag says: the pattern, the three
    flags, and the strictest of the [push:] roles, none of which is bot or
    guest. *)
Theorem protection_tags_faithful tags pp :
  parse_protection_tags tags = Ok pp ->
  length (pp_rules pp) <= MAX_PROTECTION_RULES /\
  Forall2 tag_rule (List.filter is_protect tags) (pp_rules pp).
Proof.
  intros [Hl (new & Hn & HF)]%parse_go_ok; [|simpl; unfold MAX_PROTECTION_RULES; lia].
  split; [done|]. by rewrite Hn.
Qed.

(** a tag that says [require-patch] closes every ref its pattern matches to
    every role, the owner included; [no-delete] and [no-force-push] do the same
    for deletions and non-fast-forward updates. *)
Theorem protection_binds_everyone tags pp pat strs p update role :
  parse_protection_tags tags = Ok pp ->
  ("buzz-protect" :: pat :: strs) ∈ tags -> RefPattern_parse pat = Ok p ->
  matches p (ru_ref_name update) = true ->
  ("require-patch" ∈ strs \/
   ("no-delete" ∈ strs /\ ru_kind update = Delete) \/
   ("no-force-push" ∈ strs /\ ru_kind update = NonFastForward)) ->
  exists denials, evaluate_push [update] role (pp_rules pp) = Err denials.
Proof.
  intros Hparse Htag Hp Hm Hwhy.
  destruct (evaluate_push [update] role (pp_rules pp)) as [[]|ds] eqn:E; [exfalso|eauto].
  apply parse_go_ok in Hparse as [_ (new & Hn & HF)];
    [|simpl; unfold MAX_PROTECTION_RULES; lia].
  simpl in Hn. rewrite <- Hn in HF.
  rewrite evaluate_push_spec in E. destruct (E update) as [_ Hrules]; [by left|].
  destruct (list_elem_of_lookup_1 (List.filter is_protect tags) ("buzz-protect" :: pat :: strs))
    as [i Hi].
  { rewrite list_elem_of_In, filter_In, <- list_elem_of_In. done. }
  destruct (Forall2_lookup_l _ _ _ _ _ HF Hi) as (rule & Hrule & Htr).
  destruct (tr_shape _ _ Htr) as (pat' & strs' & [= <- <-] & _ & Hpat). rewrite Hp in Hpat.
  injection Hpat as Hpat. destruct (Hrules rule) as (H1 & _ & H3 & H4).
  { by eapply list_elem_of_lookup_2. }
  { by rewrite <- Hpat. }
  destruct Hwhy as [Hw|[[Hw Hk]|[Hw Hk]]].
  - apply (tr_require_patch _ _ Htr) in Hw. congruence.
  - apply (tr_no_delete _ _ Htr) in Hw. by apply H4.
  - apply (tr_no_force_push _ _ Htr) in Hw. by apply H3.
Qed.

(** ** Witnesses *)

Definition sample_tags : list (list string) :=
  [["d"; "repo"];
   ["buzz-protect"; "refs/heads/main"; "push:admin"; "no-force-push"];
   ["buzz-protect"; "refs/heads/release/**"; "require-patch"; "later-rule"]].

Definition sample_protection : ParsedProtection :=
  mkParsedProtection
    [mkProtectionRule
       (mkRefPattern "refs/heads/main" [Literal "refs"; Literal "heads"; Literal "main"])
       (Some Admin) true false false;
     mkProtectionRule
       (mkRefPattern "refs/heads/release/**"
          [Literal "refs"; Literal "heads"; Literal "release"; RecursiveWildcard])
       None false false true]
    ["later-rule"].

Definition update_of (ref_name : string) (kind : UpdateKind) : RefUpdate :=
  mkRefUpdate ref_name kind "1111111111111111111111111111111111111111"
    "2222222222222222222222222222222222222222".

Lemma policy_monotone_witness :
  evaluate_push [update_of "refs/heads/main" FastForward] Admin (pp_rules sample_protection) = Ok () /\
  evaluate_push [update_of "refs/heads/main" FastForward] Owner [] = Ok ().
Proof.
  assert (evaluate_push [update_of "refs/heads/main" FastForward] Admin
            (pp_rules sample_protection) = Ok ()) as H by reflexivity.
  split; [exact H|].
  apply (policy_monotone _ Admin Owner (pp_rules sample_protection) []).
  - simpl. lia.
  - set_solver.
  - exact H.
Defined.

Lemma protection_tags_faithful_witness :
  parse_protection_tags sample_tags = Ok sample_protection /\
  Forall2 tag_rule (List.filter is_protect sample_tags) (pp_rules sample_protection).
Proof.
  split; [reflexivity|]. apply (protection_tags_faithful sample_tags sample_protection).
  reflexivity.
Defined.

Lemma protection_binds_everyone_witness :
  parse_protection_tags sample_tags = Ok sample_protection /\
  exists denials,
    evaluate_push [update_of "refs/heads/release/v1" FastForward] Owner
      (pp_rules sample_protection) = Err denials.
Proof.
  split; [reflexivity|].
  apply (protection_binds_everyone sample_tags sample_protection "refs/heads/release/**"
           ["require-patch"; "later-rule"]
           (mkRefPattern "refs/heads/release/**"
              [Literal "refs"; Literal "heads"; Literal "release"; RecursiveWildcard])).
  - reflexivity.
  - apply list_elem_of_In. simpl. tauto.
  - reflexivity.
  - reflexivity.
  - left. apply list_elem_of_In. simpl. tauto.
Defined.
