(* ===== verification/GitPolicy.v ===== *)
(** The git authorization endpoints: the repository-to-channel binding
    (buzz-relay/src/api/git/binding.rs), the push policy callback
    (api/git/policy.rs) and the read gate ([authorize_git_read] of
    api/git/transport.rs).

    Byte strings ([Vec<u8>]) are [string]s.  The database is a record of the
    four queries the endpoints make; the [hmac], [hex], [uuid] and [nostr]
    functions are the class [GitLib].  The wall clock is an argument. *)

From S2P Require Import Prelude Nostr Channel GitPattern GitPerms.

(** The third-party functions the endpoints call. *)
Class GitLib := {
  (** [Hmac::<Sha256>] of a key and a message *)
  hmac_sha256 : string -> string -> string;
  git_hex :: HexLib;
  (** [Uuid::parse_str] *)
  git_uuid :: UuidLib;
  (** [PublicKey::to_bytes] *)
  pk_to_bytes : PublicKey -> string;
}.

(** Documented behaviour of those crates: hexadecimal round-trips, and no accepted spelling of a UUID contains a vertical bar. *)
Class GitLaws `{GitLib} : Prop := {
  git_hex_laws :: HexLaws;
  uuid_no_bar : forall s u, uuid_parse_str s = Some u -> contains_char "|" s = false;
}.

(** ** Binding *)

Inductive RepoBinding := NotBound | Bound (id : Uuid) | Broken.

(** The closure of [find]: the tag's first element is ["buzz-channel"]. *)
Definition is_binding_tag (t : Tag) : bool :=
  match t with name :: _ => String.eqb name "buzz-channel" | [] => false end.

Definition resolve_repo_binding `{GitLib} (event : Event) : RepoBinding :=
  match List.find is_binding_tag (ev_tags event) with
  | None => NotBound
  | Some first =>
      match uuid_parse_str <$> first !! 1 with
      | Some (Some id) => Bound id
      | _ => Broken
      end
  end.

(** ** The database queries *)

(** The fields of [EventQuery] the endpoints set; the rest keep the defaults of
    [EventQuery::for_community]. *)
Record EventQuery := mkEventQuery {
  eq_community : CommunityId;
  eq_kinds : option (list Kind);
  eq_pubkey : option string;
  eq_d_tag : option string;
  eq_global_only : bool;
  eq_limit : option N;
}.

(** The one field of a channel row the policy reads. *)
Record ChannelRow := mkChannelRow { cr_archived_at : option Z }.

Record GitDb := mkGitDb {
  query_events : EventQuery -> result (list StoredEvent) string;
  get_channel : CommunityId -> Uuid -> result ChannelRow string;
  is_agent_owner : CommunityId -> string -> string -> result bool string;
  get_member_role : CommunityId -> Uuid -> string -> result (option string) string;
}.

(** The kind:30617 query both endpoints build. *)
Definition repo_query (community : CommunityId) (owner_bytes repo_id : string) : EventQuery :=
  mkEventQuery community (Some [30617%N]) (Some owner_bytes) (Some repo_id) true (Some 1%N).

(** ** The hook callback *)

Definition MAX_CALLBACK_AGE_SECS : N := 30.

Record HookRefUpdate := mkHookRefUpdate {
  hr_old_oid : string;
  hr_new_oid : string;
  hr_ref_name : string;
  hr_is_ancestor : bool;
}.

Record HookCallbackRequest := mkHookCallbackRequest {
  hq_repo_id : string;
  hq_repo_owner : string;
  hq_community_id : string;
  hq_pusher_pubkey : string;
  hq_ref_updates : list HookRefUpdate;
  hq_timestamp : N;
  hq_signature : string;
}.

Record DenialResponse := mkDenialResponse { dr_ref_name : string; dr_reason : string }.

Definition DenialResponse_from (d : Denial) : DenialResponse :=
  mkDenialResponse (d_ref_name d) (d_reason d).

Record HookCallbackResponse := mkHookCallbackResponse {
  hc_allowed : bool;
  hc_denials : list DenialResponse;
}.

(** What an endpoint answers: a status with a text body, or with a JSON body. *)
Inductive Response :=
| StatusText (status : N) (body : string)
| StatusJson (status : N) (body : HookCallbackResponse).

Definition FORBIDDEN : N := 403.
Definition NOT_FOUND : N := 404.
Definition forbidden (body : string) : Response := StatusText FORBIDDEN body.

Definition GIT_NO_CHANNEL_BINDING_BODY : string :=
  "no_channel_binding: repository has no channel binding".

(** The bytes fed to the MAC for one ref update. *)
Definition ref_payload (r : HookRefUpdate) : string :=
  hr_old_oid r +:+ hr_new_oid r
  +:+ to_decimal (N.of_nat (String.length (hr_ref_name r))) +:+ ":" +:+ hr_ref_name r
  +:+ (if hr_is_ancestor r then "1" else "0").

(** [sort_by_key(|r| r.ref_name.clone())]: bytewise order on names, stable. *)
Definition ref_le (r1 r2 : HookRefUpdate) : bool := String.leb (hr_ref_name r1) (hr_ref_name r2).
Definition refs_sorted (rs : list HookRefUpdate) : list HookRefUpdate := sort_by ref_le rs.

Definition refs_payload (rs : list HookRefUpdate) : string :=
  foldr (fun r acc => ref_payload r +:+ acc) "" rs.

(** Everything [compute_hmac] passes to [mac.update], in order. *)
Definition canonical_payload (req : HookCallbackRequest) : string :=
  to_decimal (N.of_nat (String.length (hq_repo_id req))) +:+ ":" +:+ hq_repo_id req
  +:+ "|" +:+ hq_repo_owner req
  +:+ "|" +:+ hq_community_id req
  +:+ "|" +:+ hq_pusher_pubkey req
  +:+ "|" +:+ refs_payload (refs_sorted (hq_ref_updates req))
  +:+ "|" +:+ to_decimal (hq_timestamp req).

Definition compute_hmac `{GitLib} (secret : string) (req : HookCallbackRequest) : string :=
  hmac_sha256 secret (canonical_payload req).

Definition verify_hmac `{GitLib} (secret : string) (req : HookCallbackRequest) : bool :=
  let expected := compute_hmac secret req in
  match hex_decode (hq_signature req) with
  | None => false
  | Some provided => String.eqb expected provided
  end.

Definition generate_hook_hmac `{GitLib} (secret repo_id repo_owner community_id pusher : string)
    (ref_updates : list HookRefUpdate) (timestamp : N) : string :=
  hex_encode (compute_hmac secret
    (mkHookCallbackRequest repo_id repo_owner community_id pusher ref_updates timestamp "")).

(** The structural checks of step 1, each with its answer. *)
Definition lower_hex_64 (s : string) : bool :=
  (String.length s =? 64)
  && all_chars (fun c => is_ascii_hexdigit c && negb (is_ascii_uppercase c)) s.

Definition bad_oid (s : string) : bool :=
  negb (String.length s =? 40) || negb (all_chars is_ascii_hexdigit s).

Definition control_byte (c : ascii) : bool :=
  ((N_of_ascii c <=? 32) || (N_of_ascii c =? 127))%N.

Definition bad_ref_name (s : string) : bool :=
  String.eqb s "" || (256 <? String.length s) || negb (starts_with "refs/" s)
  || contains_str ".." s || negb (all_chars (fun c => negb (control_byte c)) s).

Fixpoint check_refs (rs : list HookRefUpdate) : result () Response :=
  match rs with
  | [] => Ok ()
  | r :: rest =>
      if bad_oid (hr_old_oid r) then Err (forbidden "invalid old_oid")
      else if bad_oid (hr_new_oid r) then Err (forbidden "invalid new_oid")
      else if bad_ref_name (hr_ref_name r) then Err (forbidden "invalid ref_name")
      else check_refs rest
  end.

(** Step 1; the success value is the parsed community. *)
Definition check_structure `{GitLib} (req : HookCallbackRequest) : result CommunityId Response :=
  if String.eqb (hq_repo_id req) "" || (64 <? String.length (hq_repo_id req))
  then Err (forbidden "invalid repo_id")
  else if negb (lower_hex_64 (hq_repo_owner req)) then Err (forbidden "invalid repo_owner")
  else if negb (lower_hex_64 (hq_pusher_pubkey req)) then Err (forbidden "invalid pusher_pubkey")
  else
    match uuid_parse_str (hq_community_id req) with
    | None => Err (forbidden "invalid community_id")
    | Some id =>
        if match hq_ref_updates req with [] => true | _ => false end
           || (500 <? length (hq_ref_updates req))
        then Err (forbidden "invalid ref_updates count")
        else let? _ := check_refs (hq_ref_updates req) in Ok (from_uuid id)
    end.

(** Step 3; [saturating_sub] is the truncated subtraction of [N]. *)
Definition check_timestamp (now : N) (req : HookCallbackRequest) : result () Response :=
  if (MAX_CALLBACK_AGE_SECS <? now - hq_timestamp req)%N then Err (forbidden "callback expired")
  else if (5 <? hq_timestamp req - now)%N then Err (forbidden "callback timestamp invalid")
  else Ok ().

(** [Ok(b) if b.len() == 32 => b]. *)
Definition decode_key `{GitLib} (s : string) : option string :=
  match hex_decode s with
  | Some b => if String.length b =? 32 then Some b else None
  | None => None
  end.

(** Step 4: the announcement, [events.pop()] taking the last row. *)
Definition lookup_repo (db : GitDb) (community : CommunityId) (owner_bytes repo_id : string)
  : result StoredEvent Response :=
  match query_events db (repo_query community owner_bytes repo_id) with
  | Err _ => Err (forbidden "internal error")
  | Ok events =>
      match last events with
      | Some event => Ok event
      | None => Err (forbidden "repository not found")
      end
  end.

(** Step 6: the bound channel, if any, which must not be archived. *)
Definition bound_channel `{GitLib} (db : GitDb) (community : CommunityId) (event : Event)
  : result (option Uuid) Response :=
  match resolve_repo_binding event with
  | NotBound => Ok None
  | Broken => Err (forbidden "invalid channel binding")
  | Bound ch_id =>
      match get_channel db community ch_id with
      | Ok ch =>
          match cr_archived_at ch with
          | Some _ => Err (forbidden "channel is archived (read-only)")
          | None => Ok (Some ch_id)
          end
      | Err _ => Err (forbidden "internal error")
      end
  end.

(** Step 7: the pusher's role. *)
Definition resolve_role `{GitLib} (db : GitDb) (community : CommunityId) (event : Event)
    (owner_bytes : string) (channel_id : option Uuid) (pusher : string)
  : result MemberRole Response :=
  let repo_owner_hex := hex_encode (pk_to_bytes (ev_pubkey event)) in
  match decode_key pusher with
  | None => Err (forbidden "invalid pusher pubkey")
  | Some pusher_bytes =>
      let is_repo_owner := String.eqb pusher repo_owner_hex in
      let? is_managed_agent_owner :=
        (if is_repo_owner then Ok false
         else match is_agent_owner db community owner_bytes pusher_bytes with
              | Ok is_owner => Ok is_owner
              | Err _ => Err (forbidden "internal error")
              end) in
      if is_repo_owner || is_managed_agent_owner then Ok Owner
      else
        match channel_id with
        | None => Err (forbidden GIT_NO_CHANNEL_BINDING_BODY)
        | Some ch_id =>
            match get_member_role db community ch_id pusher_bytes with
            | Ok (Some role_str) =>
                match MemberRole_from_str role_str with
                | Ok role => Ok role
                | Err _ => Err (forbidden "internal error")
                end
            | Ok None => Err (forbidden "not a channel member")
            | Err _ => Err (forbidden "internal error")
            end
        end
  end.

(** Step 8. *)
Definition git_role (role : MemberRole) : MemberRole :=
  match role with Bot => Member | other => other end.

(** Step 9: the classified update. *)
Definition to_ref_update (r : HookRefUpdate) : RefUpdate :=
  mkRefUpdate (hr_ref_name r) (classify (hr_old_oid r) (hr_new_oid r) (hr_is_ancestor r))
    (hr_old_oid r) (hr_new_oid r).

(** Steps 1 to 7: every early return of the handler before the rules are
    evaluated. *)
Definition authorize_push `{GitLib} (secret : string) (now : N) (db : GitDb)
    (req : HookCallbackRequest) : result (MemberRole * list ProtectionRule) Response :=
  let? community := check_structure req in
  if negb (verify_hmac secret req) then Err (forbidden "signature verification failed")
  else
    let? _ := check_timestamp now req in
    match decode_key (hq_repo_owner req) with
    | None => Err (forbidden "invalid repo owner")
    | Some owner_bytes =>
        let? repo_event := lookup_repo db community owner_bytes (hq_repo_id req) in
        match parse_protection_tags (ev_tags (se_event repo_event)) with
        | Err _ => Err (forbidden "malformed protection rules")
        | Ok parsed =>
            let? channel_id := bound_channel db community (se_event repo_event) in
            let? role := resolve_role db community (se_event repo_event) owner_bytes channel_id
                           (hq_pusher_pubkey req) in
            Ok (role, pp_rules parsed)
        end
    end.

(** [POST /internal/git/policy]. *)
Definition hook_policy_check `{GitLib} (secret : string) (now : N) (db : GitDb)
    (req : HookCallbackRequest) : Response :=
  match authorize_push secret now db req with
  | Err response => response
  | Ok (role, rules) =>
      match evaluate_push (map to_ref_update (hq_ref_updates req)) (git_role role) rules with
      | Ok _ => StatusJson 200 (mkHookCallbackResponse true [])
      | Err denials =>
          StatusJson FORBIDDEN (mkHookCallbackResponse false (map DenialResponse_from denials))
      end
  end.

(** ** The read gate *)

(** The refusals of the read gate, all of status 404: the generic body, or the
    line offering the author of an unbound repository the command to bind it
    (the model keeps the repository name, which is all that varies in it). *)
Inductive ReadDenial := RepositoryNotFound | BindRemediation (repo_name : string).

Definition read_role_allows (role : option string) : bool :=
  match role with Some r => is_ok (MemberRole_from_str r) | None => false end.

Definition authorize_git_read `{GitLib} (db : GitDb) (community : CommunityId)
    (caller : PublicKey) (owner_hex repo_name : string) : result () ReadDenial :=
  match hex_decode owner_hex with
  | None => Err RepositoryNotFound
  | Some owner_bytes =>
      if negb (String.length owner_bytes =? 32) then Err RepositoryNotFound
      else
        match query_events db (repo_query community owner_bytes repo_name) with
        | Err _ => Err RepositoryNotFound
        | Ok events =>
            match last events with
            | None => Err RepositoryNotFound
            | Some repo_event =>
                match resolve_repo_binding (se_event repo_event) with
                | Bound channel_id =>
                    match get_member_role db community channel_id (pk_to_bytes caller) with
                    | Ok role => if read_role_allows role then Ok () else Err RepositoryNotFound
                    | Err _ => Err RepositoryNotFound
                    end
                | NotBound =>
                    if (ev_pubkey (se_event repo_event) =? caller)%N
                    then Err (BindRemediation repo_name)
                    else Err RepositoryNotFound
                | Broken => Err RepositoryNotFound
                end
            end
        end
  end.

(** ** Specification

    What the endpoint promises, without the order of its checks. *)

(** A structurally valid ref update and request. *)
Definition ref_valid (r : HookRefUpdate) : Prop :=
  String.length (hr_old_oid r) = 40 /\ all_chars is_ascii_hexdigit (hr_old_oid r) = true /\
  String.length (hr_new_oid r) = 40 /\ all_chars is_ascii_hexdigit (hr_new_oid r) = true /\
  bad_ref_name (hr_ref_name r) = false.

Record request_valid `{GitLib} (req : HookCallbackRequest) (community : CommunityId) : Prop := {
  rv_repo_id : 1 <= String.length (hq_repo_id req) <= 64;
  rv_owner : lower_hex_64 (hq_repo_owner req) = true;
  rv_pusher : lower_hex_64 (hq_pusher_pubkey req) = true;
  rv_community : uuid_parse_str (hq_community_id req) = Some (as_uuid community);
  rv_count : 1 <= length (hq_ref_updates req) <= 500;
  rv_refs : Forall ref_valid (hq_ref_updates req);
}.

(** The announcement's channel, if bound, exists and is not archived. *)
Definition channel_open `{GitLib} (db : GitDb) (community : CommunityId) (event : Event)
    (channel_id : option Uuid) : Prop :=
  match resolve_repo_binding event with
  | NotBound => channel_id = None
  | Bound id => channel_id = Some id /\
      exists row, get_channel db community id = Ok row /\ cr_archived_at row = None
  | Broken => False
  end.

(** On whose authority a key pushes. *)
Inductive push_role `{GitLib} (db : GitDb) (community : CommunityId) (event : Event)
    (owner_bytes : string) (channel_id : option Uuid) (pusher pusher_bytes : string)
  : MemberRole -> Prop :=
| by_repo_key :
    pusher = hex_encode (pk_to_bytes (ev_pubkey event)) ->
    push_role db community event owner_bytes channel_id pusher pusher_bytes Owner
| by_managed_agent_owner :
    pusher <> hex_encode (pk_to_bytes (ev_pubkey event)) ->
    is_agent_owner db community owner_bytes pusher_bytes = Ok true ->
    push_role db community event owner_bytes channel_id pusher pusher_bytes Owner
| by_membership ch role :
    pusher <> hex_encode (pk_to_bytes (ev_pubkey event)) ->
    is_agent_owner db community owner_bytes pusher_bytes = Ok false ->
    channel_id = Some ch ->
    get_member_role db community ch pusher_bytes = Ok (Some (MemberRole_as_str role)) ->
    push_role db community event owner_bytes channel_id pusher pusher_bytes role.

(** Everything the endpoint requires of a push it evaluates with [role] and
    [rules]. *)
Record push_authorized `{GitLib} (secret : string) (now : N) (db : GitDb)
    (req : HookCallbackRequest) (role : MemberRole) (rules : list ProtectionRule)
    (community : CommunityId) (owner_bytes pusher_bytes : string)
    (events : list StoredEvent) (repo : StoredEvent) (channel_id : option Uuid)
    (parsed : ParsedProtection) : Prop := {
  pa_valid : request_valid req community;
  pa_signed : verify_hmac secret req = true;
  pa_not_old : (now <= hq_timestamp req + 30)%N;
  pa_not_future : (hq_timestamp req <= now + 5)%N;
  pa_owner : decode_key (hq_repo_owner req) = Some owner_bytes;
  pa_pusher : decode_key (hq_pusher_pubkey req) = Some pusher_bytes;
  pa_query : query_events db (repo_query community owner_bytes (hq_repo_id req)) = Ok events;
  pa_repo : last events = Some repo;
  pa_rules : parse_protection_tags (ev_tags (se_event repo)) = Ok parsed;
  pa_rules_eq : rules = pp_rules parsed;
  pa_channel : channel_open db community (se_event repo) channel_id;
  pa_role : push_role db community (se_event repo) owner_bytes channel_id
              (hq_pusher_pubkey req) pusher_bytes role;
}.

Definition allowed : Response := StatusJson 200 (mkHookCallbackResponse true []).

Definition status (r : Response) : N :=
  match r with StatusText s _ | StatusJson s _ => s end.

(** Two requests describe the same push: every field but the signature agrees,
    the ref updates up to their order. *)
Definition same_push (r1 r2 : HookCallbackRequest) : Prop :=
  hq_repo_id r1 = hq_repo_id r2 /\ hq_repo_owner r1 = hq_repo_owner r2 /\
  hq_community_id r1 = hq_community_id r2 /\ hq_pusher_pubkey r1 = hq_pusher_pubkey r2 /\
  hq_ref_updates r1 ≡ₚ hq_ref_updates r2 /\ hq_timestamp r1 = hq_timestamp r2.

(** ** Lemmas *)

Lemma check_refs_ok rs : check_refs rs = Ok () <-> Forall ref_valid rs.
Proof.
  induction rs as [|r rs IH]; cbn [check_refs].
  - split; [constructor|done].
  - rewrite Forall_cons, <- IH. unfold ref_valid, bad_oid.
    destruct (Nat.eqb_spec (String.length (hr_old_oid r)) 40),
      (all_chars is_ascii_hexdigit (hr_old_oid r)),
      (Nat.eqb_spec (String.length (hr_new_oid r)) 40),
      (all_chars is_ascii_hexdigit (hr_new_oid r)), (bad_ref_name (hr_ref_name r));
      cbn [negb orb]; intuition (discriminate || congruence).
Qed.

Lemma eqb_empty_length s : String.eqb s "" = false <-> 1 <= String.length s.
Proof. destruct s; cbn; split; intros; try done; lia. Qed.

Lemma check_refs_cases rs :
  (check_refs rs = Ok () /\ Forall ref_valid rs) \/
  ((exists b, check_refs rs = Err (forbidden b)) /\ ~ Forall ref_valid rs).
Proof.
  destruct (check_refs rs) as [[]|e] eqn:E.
  - left. by rewrite <- check_refs_ok.
  - right. split; [|by rewrite <- check_refs_ok, E].
    clear -E. revert E. induction rs; cbn [check_refs]; [done|]. case_all; eauto.
Qed.

(** Every early return is a 403 with a text body. *)
Definition refusal {A} (r : result A Response) : Prop :=
  match r with Ok _ => True | Err e => exists b, e = forbidden b end.

Lemma refusal_bind {A B} (r : result A Response) (k : A -> result B Response) :
  refusal r -> (forall a, refusal (k a)) -> refusal (let? a := r in k a).
Proof. destruct r; cbn; auto. Qed.

Section endpoint.
Context `{GitLib}.

Lemma check_structure_ok req c : check_structure req = Ok c <-> request_valid req c.
Proof.
  unfold check_structure. split.
  - intros Hc.
    destruct (String.eqb (hq_repo_id req) "") eqn:E1; [done|].
    destruct (Nat.ltb_spec 64 (String.length (hq_repo_id req))); [done|].
    destruct (lower_hex_64 (hq_repo_owner req)) eqn:E2; [|done].
    destruct (lower_hex_64 (hq_pusher_pubkey req)) eqn:E3; [|done].
    destruct (uuid_parse_str (hq_community_id req)) as [u|] eqn:E4; [|done].
    destruct (Nat.ltb_spec 500 (length (hq_ref_updates req)));
      [by destruct (hq_ref_updates req)|].
    destruct (check_refs_cases (hq_ref_updates req)) as [[E5 Hr]|[[b E5] _]];
      destruct (hq_ref_updates req) as [|r rs] eqn:E6; try discriminate Hc;
      cbn [orb negb] in Hc; rewrite E5 in Hc; [|discriminate Hc].
    injection Hc as <-. apply eqb_empty_length in E1.
    split; rewrite ?E6; cbn [length] in *; auto; lia.
  - intros [[Hr1 Hr2] -> -> Hu [Hl1 Hl2] Hrefs]. apply eqb_empty_length in Hr1. rewrite Hr1, Hu.
    apply Nat.ltb_ge in Hr2, Hl2. rewrite Hr2, Hl2. apply check_refs_ok in Hrefs. rewrite Hrefs.
    destruct (hq_ref_updates req); [cbn in Hl1; lia|]. by destruct c.
Qed.

Lemma check_timestamp_ok now req :
  check_timestamp now req = Ok () <->
  (now <= hq_timestamp req + 30)%N /\ (hq_timestamp req <= now + 5)%N.
Proof.
  unfold check_timestamp, MAX_CALLBACK_AGE_SECS.
  destruct (N.ltb_spec 30 (now - hq_timestamp req)); [split; [done|lia]|].
  destruct (N.ltb_spec 5 (hq_timestamp req - now)); split; try done; lia.
Qed.

Lemma bound_channel_ok db c ev ch : bound_channel db c ev = Ok ch <-> channel_open db c ev ch.
Proof.
  unfold bound_channel, channel_open. destruct (resolve_repo_binding ev) as [|id|].
  - naive_solver.
  - destruct (get_channel db c id) as [row|e] eqn:E; [destruct (cr_archived_at row) eqn:E'|];
      naive_solver.
  - done.
Qed.

Lemma resolve_role_ok db c ev ob ch pusher role :
  resolve_role db c ev ob ch pusher = Ok role <->
  exists pb, decode_key pusher = Some pb /\ push_role db c ev ob ch pusher pb role.
Proof.
  unfold resolve_role. destruct (decode_key pusher) as [pb|]; [|naive_solver].
  transitivity (push_role db c ev ob ch pusher pb role); [|naive_solver].
  destruct (String.eqb_spec pusher (hex_encode (pk_to_bytes (ev_pubkey ev)))) as [Eo|Eo].
  { cbn. split; [intros [= <-]; by constructor|]. by inversion 1. }
  destruct (is_agent_owner db c ob pb) as [[]|e] eqn:Ea; cbn.
  - split; [intros [= <-]; by apply by_managed_agent_owner|]. inversion 1; congruence.
  - destruct ch as [ch|]; [|split; [done|inversion 1; congruence]].
    destruct (get_member_role db c ch pb) as [[s|]|] eqn:Eg.
    + destruct (MemberRole_from_str s) as [r'|] eqn:Er.
      * apply MemberRole_from_str_spec in Er as ->.
        split; [intros [= <-]; by eapply by_membership|].
        inversion 1; try congruence. simplify_eq.
        apply f_equal, MemberRole_as_str_inj. congruence.
      * split; [done|]. inversion 1; try congruence.
        assert (MemberRole_from_str s = Ok role); [|congruence].
        apply MemberRole_from_str_spec. congruence.
    + split; [done|]. inversion 1; congruence.
    + split; [done|]. inversion 1; congruence.
  - split; [done|]. inversion 1; congruence.
Qed.

Lemma authorize_push_ok secret now db req role rules :
  authorize_push secret now db req = Ok (role, rules) <->
  exists c ob pb evs repo ch parsed,
    push_authorized secret now db req role rules c ob pb evs repo ch parsed.
Proof.
  unfold authorize_push. split.
  - destruct (check_structure req) as [c|] eqn:Hs; [|done].
    destruct (verify_hmac secret req) eqn:Hv; [|done]. cbn [negb].
    destruct (check_timestamp now req) as [[]|] eqn:Ht; [|done].
    destruct (decode_key (hq_repo_owner req)) as [ob|] eqn:Ho; [|done].
    unfold lookup_repo.
    destruct (query_events db _) as [evs|] eqn:Hq; [|done].
    destruct (last evs) as [repo|] eqn:Hl; [|done].
    destruct (parse_protection_tags _) as [parsed|] eqn:Hp; [|done].
    destruct (bound_channel db c (se_event repo)) as [ch|] eqn:Hb; [|done].
    destruct (resolve_role _ _ _ _ _ _) as [r|] eqn:Hr; [|done]. intros [= <- <-].
    apply resolve_role_ok in Hr as (pb & Hpb & Hr). apply check_timestamp_ok in Ht as [??].
    exists c, ob, pb, evs, repo, ch, parsed.
    split; auto; [by apply check_structure_ok|by apply bound_channel_ok].
  - intros (c & ob & pb & evs & repo & ch & parsed & [Hv Hs Ht1 Ht2 Ho Hpb Hq Hl Hp -> Hb Hr]).
    apply check_structure_ok in Hv. apply bound_channel_ok in Hb.
    assert (check_timestamp now req = Ok ()) as Ht by by apply check_timestamp_ok.
    assert (resolve_role db c (se_event repo) ob ch (hq_pusher_pubkey req) = Ok role) as Hr'
      by (apply resolve_role_ok; eauto).
    rewrite Hv, Hs. cbn [negb]. rewrite Ht, Ho. unfold lookup_repo.
    by rewrite Hq, Hl, Hp, Hb, Hr'.
Qed.

Ltac refusals :=
  repeat first
    [ progress cbn [refusal] | done | by eexists
    | apply refusal_bind; [|intros ?]
    | case_match ].

Lemma check_structure_refusal req : refusal (check_structure req).
Proof.
  unfold check_structure. destruct (check_refs_cases (hq_ref_updates req)) as [[E _]|[[b E] _]];
    rewrite E; refusals.
Qed.

Lemma authorize_push_refusal secret now db req : refusal (authorize_push secret now db req).
Proof.
  unfold authorize_push. apply refusal_bind; [apply check_structure_refusal|intros c].
  unfold check_timestamp, lookup_repo, bound_channel, resolve_role. refusals.
Qed.
End endpoint.

(** ** The canonical payload is a prefix code *)

Lemma length_prefixed_inj (s t x y : string) :
  to_decimal (N.of_nat (String.length s)) +:+ ":" +:+ s +:+ x =
  to_decimal (N.of_nat (String.length t)) +:+ ":" +:+ t +:+ y -> s = t /\ x = y.
Proof.
  intros Heq. rewrite !string_app_cons, !string_app_nil_l in Heq.
  apply app_inj_sep in Heq as [Hn Heq];
    [|by apply to_decimal_no_char..].
  apply to_decimal_inj in Hn. apply app_inj_length in Heq; [done|lia].
Qed.

Lemma hex_no_bar s : all_chars is_ascii_hexdigit s = true -> contains_char "|" s = false.
Proof. by apply all_chars_excludes. Qed.

Lemma lower_hex_no_bar s : lower_hex_64 s = true -> contains_char "|" s = false.
Proof. intros [_ Hs]%andb_true_iff. eapply all_chars_excludes; [|exact Hs]; done. Qed.

Lemma lower_hex_length s : lower_hex_64 s = true -> String.length s = 64.
Proof. intros [Hs _]%andb_true_iff. by apply Nat.eqb_eq. Qed.

Lemma ref_payload_inj r1 r2 x y :
  ref_valid r1 -> ref_valid r2 ->
  ref_payload r1 +:+ x = ref_payload r2 +:+ y -> r1 = r2 /\ x = y.
Proof.
  intros (Ho1 & _ & Hn1 & _) (Ho2 & _ & Hn2 & _). unfold ref_payload.
  rewrite !string_app_assoc. intros Heq.
  apply app_inj_length in Heq as [Eo Heq]; [|congruence].
  apply app_inj_length in Heq as [En Heq]; [|congruence].
  apply length_prefixed_inj in Heq as [Er Heq].
  apply app_inj_length in Heq as [Ef ->];
    [|by destruct (hr_is_ancestor r1), (hr_is_ancestor r2)].
  destruct r1 as [? ? ? []], r2 as [? ? ? []]; cbn in *; by subst.
Qed.

(** A ref's payload starts with a hexadecimal digit, so the bar that closes the
    list cannot be read as the start of another ref. *)
Lemma ref_payload_no_bar r x y : ref_valid r -> ref_payload r +:+ x <> String "|" y.
Proof.
  intros (Ho & Hh & _). unfold ref_payload. destruct (hr_old_oid r) as [|c s]; [done|].
  rewrite !string_app_cons. intros [= -> _]. cbn in Hh. done.
Qed.

Lemma refs_payload_inj rs1 rs2 x y :
  Forall ref_valid rs1 -> Forall ref_valid rs2 ->
  refs_payload rs1 +:+ String "|" x = refs_payload rs2 +:+ String "|" y -> rs1 = rs2 /\ x = y.
Proof.
  intros H1. revert rs2. induction H1 as [|r1 rs1 Hr1 _ IH]; intros rs2 H2 Heq.
  - destruct H2 as [|r2 rs2 Hr2 _]; [by injection Heq as ->|].
    exfalso. symmetry in Heq. cbn in Heq. rewrite string_app_assoc in Heq.
    by apply ref_payload_no_bar in Heq.
  - destruct H2 as [|r2 rs2 Hr2 H2]; cbn in Heq; rewrite string_app_assoc in Heq.
    { by apply ref_payload_no_bar in Heq. }
    rewrite string_app_assoc in Heq. apply ref_payload_inj in Heq as [-> Heq]; [|done..].
    by destruct (IH rs2 H2 Heq) as [-> ->].
Qed.

Lemma refs_sorted_valid rs : Forall ref_valid rs -> Forall ref_valid (refs_sorted rs).
Proof. unfold refs_sorted. by rewrite sort_by_perm. Qed.

Lemma canonical_payload_inj `{GitLaws} r1 r2 c1 c2 :
  request_valid r1 c1 -> request_valid r2 c2 ->
  canonical_payload r1 = canonical_payload r2 -> same_push r1 r2.
Proof.
  intros [_ Ho1 Hp1 Hc1 _ Hr1] [_ Ho2 Hp2 Hc2 _ Hr2]. unfold canonical_payload. intros Heq.
  apply length_prefixed_inj in Heq as [Ei Heq].
  rewrite !(string_app_cons "|"), !string_app_nil_l in Heq. injection Heq as Heq.
  apply app_inj_sep in Heq as [Eo Heq]; [|by apply lower_hex_no_bar..].
  apply app_inj_sep in Heq as [Ec Heq]; [|by eapply uuid_no_bar..].
  apply app_inj_sep in Heq as [Ep Heq]; [|by apply lower_hex_no_bar..].
  apply refs_payload_inj in Heq as [Er Et]; [|by apply refs_sorted_valid..].
  apply to_decimal_inj in Et. repeat split; auto.
  rewrite <- (sort_by_perm ref_le (hq_ref_updates r1)),
    <- (sort_by_perm ref_le (hq_ref_updates r2)). unfold refs_sorted in Er. by rewrite Er.
Qed.

Lemma refs_sorted_perm rs1 rs2 :
  NoDup (map hr_ref_name rs1) -> rs1 ≡ₚ rs2 -> refs_sorted rs1 = refs_sorted rs2.
Proof.
  intros Hnd Hp. unfold refs_sorted.
  assert (forall x y z, ref_le x y = true -> ref_le y z = true -> ref_le x z = true) as Htr
    by (intros ???; apply string_leb_trans).
  apply (StronglySorted_unique_strong (fun a b => ref_le a b = true)).
  - intros x y Hx%elem_of_sort_by Hy%elem_of_sort_by Hxy Hyx.
    rewrite <- Hp in Hy. assert (hr_ref_name x = hr_ref_name y) as En
      by (by apply String.leb_antisym).
    apply list_elem_of_lookup in Hx as [i Hi], Hy as [j Hj].
    assert (i = j) as ->; [|congruence].
    eapply NoDup_lookup; [exact Hnd|..]; rewrite list_lookup_fmap.
    + by rewrite Hi.
    + rewrite Hj. cbn. by rewrite En.
  - apply sort_by_sorted; [|done]. intros ??; apply String.leb_total.
  - apply sort_by_sorted; [|done]. intros ??; apply String.leb_total.
  - by rewrite !sort_by_perm.
Qed.

Lemma find_app_some {A} (f : A -> bool) l l' x :
  List.find f l = Some x -> List.find f (l ++ l') = Some x.
Proof. induction l as [|y l IH]; cbn; [done|]. by destruct (f y). Qed.

(** The announcement with tags appended at the end. *)
Definition with_more_tags (ev : Event) (extra : list Tag) : Event :=
  mkEvent (ev_id ev) (ev_pubkey ev) (ev_created_at ev) (ev_kind ev)
    (ev_tags ev ++ extra) (ev_content ev).

(** The request with its signature replaced. *)
Definition signed (req : HookCallbackRequest) (signature : string) : HookCallbackRequest :=
  mkHookCallbackRequest (hq_repo_id req) (hq_repo_owner req) (hq_community_id req)
    (hq_pusher_pubkey req) (hq_ref_updates req) (hq_timestamp req) signature.

(** What [generate_hook_hmac] signs for a request's fields. *)
Definition signature_of `{GitLib} (secret : string) (req : HookCallbackRequest) : string :=
  generate_hook_hmac secret (hq_repo_id req) (hq_repo_owner req) (hq_community_id req)
    (hq_pusher_pubkey req) (hq_ref_updates req) (hq_timestamp req).

Lemma hook_allowed_iff `{GitLib} secret now db req :
  hook_policy_check secret now db req = allowed <->
  exists role rules, authorize_push secret now db req = Ok (role, rules) /\
    forall r, r ∈ hq_ref_updates req -> permitted (to_ref_update r) (git_role role) rules.
Proof.
  unfold hook_policy_check. destruct (authorize_push secret now db req) as [[role rules]|e] eqn:E.
  - assert ((forall r, r ∈ hq_ref_updates req -> permitted (to_ref_update r) (git_role role) rules)
      <-> evaluate_push (map to_ref_update (hq_ref_updates req)) (git_role role) rules = Ok ())
      as Hev.
    { rewrite evaluate_push_spec. setoid_rewrite list_elem_of_fmap. naive_solver. }
    transitivity (evaluate_push (map to_ref_update (hq_ref_updates req)) (git_role role) rules = Ok ()).
    + destruct (evaluate_push _ _ _) as [[]|]; split; done.
    + rewrite <- Hev. naive_solver.
  - pose proof (authorize_push_refusal secret now db req) as Hr. rewrite E in Hr.
    destruct Hr as [b ->]. split; [done|]. naive_solver.
Qed.

(** * Properties *)

Section claims.
Context `{GitLib}.

(** C7: the push endpoint allows exactly the pushes that meet every condition:
    a structurally valid, correctly signed and fresh request, an announcement
    with well-formed protection rules and an intact binding to a channel that
    is not archived, a pusher who is the repository key, its verified managed
    owner or a member of the bound channel, and ref updates that the declarative
    policy permits to that role (a bot acting as a member).  Every other request
    is answered 403. *)
Theorem push_endpoint_correct secret now db req :
  (hook_policy_check secret now db req = allowed <->
   exists role rules c ob pb evs repo ch parsed,
     push_authorized secret now db req role rules c ob pb evs repo ch parsed /\
     forall r, r ∈ hq_ref_updates req -> permitted (to_ref_update r) (git_role role) rules) /\
  (hook_policy_check secret now db req = allowed \/
   status (hook_policy_check secret now db req) = FORBIDDEN).
Proof.
  split.
  - rewrite hook_allowed_iff. setoid_rewrite authorize_push_ok. naive_solver.
  - unfold hook_policy_check. pose proof (authorize_push_refusal secret now db req) as Hr.
    destruct (authorize_push secret now db req) as [[role rules]|e]; [|by destruct Hr as [b ->]; right].
    destruct (evaluate_push _ _ _) as [[]|]; [by left|by right].
Qed.

(** the two git gates agree: a key that may push without owner authority
    (it is neither the repository key nor its managed owner) may also read, so
    whoever loses read access loses push access with it. *)
Theorem push_implies_read secret now db req u caller :
  hook_policy_check secret now db req = allowed ->
  uuid_parse_str (hq_community_id req) = Some u ->
  hex_decode (hq_pusher_pubkey req) = Some (pk_to_bytes caller) ->
  authorize_git_read db (from_uuid u) caller (hq_repo_owner req) (hq_repo_id req) = Ok () \/
  (exists owner_bytes, hex_decode (hq_repo_owner req) = Some owner_bytes /\
     is_agent_owner db (from_uuid u) owner_bytes (pk_to_bytes caller) = Ok true) \/
  exists owner_bytes evs repo, hex_decode (hq_repo_owner req) = Some owner_bytes /\
    query_events db (repo_query (from_uuid u) owner_bytes (hq_repo_id req)) = Ok evs /\
    last evs = Some repo /\ hq_pusher_pubkey req = hex_encode (pk_to_bytes (ev_pubkey (se_event repo))).
Proof.
  intros (role & rules & (c & ob & pb & evs & repo & ch & parsed & Ha)%authorize_push_ok & _)%hook_allowed_iff
    Hu Hp.
  destruct Ha as [[_ _ _ Hc _ _] _ _ _ Ho Hpb Hq Hl _ _ Hch Hr].
  assert (c = from_uuid u) as -> by (destruct c; cbn in Hc; congruence).
  unfold decode_key in Ho, Hpb. rewrite Hp in Hpb.
  destruct (hex_decode (hq_repo_owner req)) as [ob'|] eqn:Ho'; [|done].
  destruct (Nat.eqb_spec (String.length ob') 32) as [Hlen|]; [|done]. injection Ho as ->.
  destruct (Nat.eqb _ _); [|done]. injection Hpb as <-.
  destruct Hr as [Heq|_ Hag|ch' role _ _ -> Hm]; [right; right; eauto 8|right; left; eauto|left].
  unfold authorize_git_read. rewrite Ho', Hlen. cbn [Nat.eqb negb]. rewrite Hq, Hl.
  unfold channel_open in Hch. destruct (resolve_repo_binding (se_event repo)) as [|id|]; try done.
  destruct Hch as [[= <-] _]. rewrite Hm. unfold read_role_allows.
  by rewrite (proj2 (MemberRole_from_str_spec _ role) eq_refl).
Qed.

(** a malformed first binding fails closed: appending any tags, a valid
    binding included, leaves it malformed, and an announcement that carries it
    grants neither a push (not even to the owner) nor a read. *)
Theorem broken_binding_fails_closed ev extra :
  resolve_repo_binding ev = Broken ->
  let ev' := with_more_tags ev extra in
  resolve_repo_binding ev' = Broken /\
  forall db c owner_hex ob repo_id evs repo,
    hex_decode owner_hex = Some ob ->
    query_events db (repo_query c ob repo_id) = Ok evs ->
    last evs = Some repo -> se_event repo = ev' ->
    (forall caller, authorize_git_read db c caller owner_hex repo_id = Err RepositoryNotFound) /\
    forall secret now req,
      hq_repo_owner req = owner_hex -> hq_repo_id req = repo_id ->
      uuid_parse_str (hq_community_id req) = Some (as_uuid c) ->
      status (hook_policy_check secret now db req) = FORBIDDEN.
Proof.
  intros Hb ev'. assert (resolve_repo_binding ev' = Broken) as Hb'.
  { unfold resolve_repo_binding in *. cbn.
    destruct (List.find is_binding_tag (ev_tags ev)) as [t|] eqn:Ef; [|done].
    by erewrite find_app_some by done. }
  split; [done|]. intros db c oh ob rid evs repo Ho Hq Hl He. split.
  - intros caller. unfold authorize_git_read. rewrite Ho. destruct (negb _); [done|].
    by rewrite Hq, Hl, He, Hb'.
  - intros secret now req Eo Ei Hu. unfold hook_policy_check.
    pose proof (authorize_push_refusal secret now db req) as Hr.
    destruct (authorize_push secret now db req) as [[role rules]|e] eqn:Ea; [|by destruct Hr as [b ->]].
    apply authorize_push_ok in Ea as (c' & ob' & pb & evs' & repo' & ch & parsed & Hpa).
    destruct Hpa as [[_ _ _ Hc _ _] _ _ _ Ho' _ Hq' Hl' _ _ Hch _].
    assert (c' = c) as -> by (destruct c', c; cbn in *; congruence).
    unfold decode_key in Ho'. rewrite Eo, Ho in Ho'. destruct (Nat.eqb _ _); [|done].
    injection Ho' as <-. rewrite Ei in Hq'. assert (repo' = repo) as -> by congruence.
    unfold channel_open in Hch.
    by rewrite He, Hb' in Hch.
Qed.
End claims.

Section signatures.
Context `{GitLaws}.

(** A signature the relay generated for one push authenticates no other:
    if a request carrying it verifies, the request describes the same
    repository, owner, community, pusher, time and ref updates (up to order),
    provided the MAC does not collide on the two payloads. *)
Theorem signature_binds_push secret req0 req c0 c :
  request_valid req0 c0 -> request_valid req c ->
  no_collision (hmac_sha256 secret) (canonical_payload req0) (canonical_payload req) ->
  verify_hmac secret (signed req (signature_of secret req0)) = true ->
  same_push req0 req.
Proof.
  intros Hr0 Hr Hnc Hv. unfold verify_hmac, signature_of, generate_hook_hmac in Hv.
  cbn [hq_signature signed] in Hv. rewrite hex_decode_encode in Hv.
  apply String.eqb_eq in Hv. unfold compute_hmac in Hv.
  eapply canonical_payload_inj; [done..|]. apply Hnc. symmetry. exact Hv.
Qed.

(** the signature the relay generates for a push is accepted for it, in
    whatever order the hook lists the ref updates (whose names are distinct). *)
Theorem generated_signature_verifies secret req refs :
  NoDup (map hr_ref_name (hq_ref_updates req)) -> refs ≡ₚ hq_ref_updates req ->
  verify_hmac secret (signed req (generate_hook_hmac secret (hq_repo_id req) (hq_repo_owner req)
    (hq_community_id req) (hq_pusher_pubkey req) refs (hq_timestamp req))) = true.
Proof.
  intros Hnd Hp. unfold verify_hmac, generate_hook_hmac. cbn [hq_signature signed].
  rewrite hex_decode_encode. apply String.eqb_eq. unfold compute_hmac, canonical_payload.
  cbn [hq_repo_id hq_repo_owner hq_community_id hq_pusher_pubkey hq_ref_updates hq_timestamp signed].
  by rewrite (refs_sorted_perm (hq_ref_updates req) refs).
Qed.
End signatures.

(** ** Witnesses *)

(** A concrete library: the message tagged with the key for the MAC, real
    hexadecimal, and the hyphenated spelling of a UUID. *)
Module SampleGit.
Definition uuid_char (c : ascii) : bool := is_ascii_hexdigit c || Ascii.eqb c "-".

Fixpoint repeat_char (c : ascii) (n : nat) : string :=
  match n with O => EmptyString | S n' => String c (repeat_char c n') end.

#[export] Instance lib : GitLib := {|
  hmac_sha256 := fun k m => k +:+ m;
  git_hex := SampleHex.lib;
  git_uuid := {| uuid_parse_str := fun s =>
    if (String.length s =? 36) && all_chars uuid_char s then Some (N.of_nat (String.length s)) else None |};
  pk_to_bytes := fun n => repeat_char (ascii_of_N n) 32;
|}.

#[export] Instance laws : GitLaws.
Proof.
  split; [exact SampleHex.laws|]. cbn. intros s u. destruct (String.length s =? 36); [|done]. cbn [andb].
  destruct (all_chars uuid_char s) eqn:E; [|done]. intros _.
  eapply all_chars_excludes; [|exact E]. done.
Qed.

Definition uuid_text : string := "00000000-0000-4000-8000-000000000001".
Definition oid (c : ascii) : string := repeat_char c 40.
Definition main_update : HookRefUpdate := mkHookRefUpdate (oid "1") (oid "2") "refs/heads/main" true.
Definition tag_update : HookRefUpdate := mkHookRefUpdate (oid "0") (oid "3") "refs/tags/v1" false.

(** Key 161 pushes to the repository of key 160. *)
Definition request : HookCallbackRequest :=
  mkHookCallbackRequest "test-repo" (SampleHex.encode (pk_to_bytes 160)) uuid_text (SampleHex.encode (pk_to_bytes 161))
    [main_update; tag_update] 1000 "".

Definition secret : string := "k".
Definition signed_request : HookCallbackRequest := signed request (signature_of secret request).

Definition announcement (tags : list Tag) : StoredEvent :=
  StoredEvent_new 0 (mkEvent 1 160 900 30617 tags "") None.

Definition bound_tags : list Tag := [["d"; "test-repo"]; ["buzz-channel"; uuid_text]].
Definition broken_tags : list Tag := [["d"; "test-repo"]; ["buzz-channel"; "oops"]].

(** The database of one repository whose bound channel has the pusher as a bot. *)
Definition db (tags : list Tag) : GitDb :=
  mkGitDb (fun _ => Ok [announcement tags]) (fun _ _ => Ok (mkChannelRow None))
    (fun _ _ _ => Ok false) (fun _ _ _ => Ok (Some "bot")).

Lemma request_ok : request_valid request (from_uuid 36).
Proof. apply check_structure_ok. vm_compute. reflexivity. Qed.
End SampleGit.

Import SampleGit.

Lemma push_implies_read_witness :
  hook_policy_check secret 1010 (db bound_tags)
    signed_request = allowed /\
  (authorize_git_read (db bound_tags) (from_uuid 36) 161
     (hq_repo_owner signed_request) "test-repo" = Ok () \/
   (exists owner_bytes, hex_decode (hq_repo_owner signed_request) = Some owner_bytes /\
     is_agent_owner (db bound_tags) (from_uuid 36) owner_bytes (pk_to_bytes 161)
     = Ok true) \/
   exists owner_bytes evs repo,
     hex_decode (hq_repo_owner signed_request) = Some owner_bytes /\
     query_events (db bound_tags)
       (repo_query (from_uuid 36) owner_bytes "test-repo") = Ok evs /\
     last evs = Some repo /\
     hq_pusher_pubkey signed_request = hex_encode (pk_to_bytes (ev_pubkey (se_event repo)))).
Proof.
  split; [vm_compute; reflexivity|].
  apply (push_implies_read secret 1010 (db bound_tags)
           signed_request 36 161); vm_compute; reflexivity.
Defined.

Lemma broken_binding_fails_closed_witness :
  status (hook_policy_check secret 1010
            (db (broken_tags ++ bound_tags))
            signed_request) = FORBIDDEN.
Proof.
  destruct (@broken_binding_fails_closed lib (se_event (announcement broken_tags))
    bound_tags ltac:(vm_compute; reflexivity)) as [_ Hall].
  destruct (Hall (db (broken_tags ++ bound_tags)) (from_uuid 36)
    (hq_repo_owner signed_request) (repeat_char (ascii_of_N 160) 32) "test-repo"
    [announcement (broken_tags ++ bound_tags)]
    (announcement (broken_tags ++ bound_tags))
    ltac:(vm_compute; reflexivity) eq_refl eq_refl eq_refl) as [_ Hpush].
  apply Hpush; vm_compute; reflexivity.
Defined.

Lemma signature_binds_push_witness :
  verify_hmac secret signed_request = true /\
  same_push request request.
Proof.
  split; [vm_compute; reflexivity|].
  apply (signature_binds_push secret request request
           (from_uuid 36) (from_uuid 36) request_ok request_ok).
  - done.
  - vm_compute; reflexivity.
Defined.

Lemma generated_signature_verifies_witness :
  verify_hmac secret (signed request
    (generate_hook_hmac secret "test-repo" (hq_repo_owner request)
       uuid_text (hq_pusher_pubkey request)
       [tag_update; main_update] 1000)) = true.
Proof.
  apply (generated_signature_verifies secret request
           [tag_update; main_update]).
  - apply (bool_decide_unpack (NoDup _)). vm_compute. exact I.
  - apply Permutation_swap.
Defined.
