(* ===== verification/Network.v ===== *)
(** The SSRF address predicate, buzz-core/src/network.rs.

    An address is its number, as the standard library's [to_bits] gives it;
    octets and segments are read off in network order.  The specification is a
    table of address blocks. *)

From S2P Require Import Prelude.

Local Open Scope N_scope.

(** ** Addresses *)

Inductive IpAddr := V4 (bits : N) | V6 (bits : N).

Definition valid_ip (ip : IpAddr) : Prop :=
  match ip with V4 a => a < 2 ^ 32 | V6 a => a < 2 ^ 128 end.

(** [Ipv4Addr::octets] and [Ipv4Addr::new]. *)
Definition ipv4_octets (a : N) : N * N * N * N :=
  (a / 2 ^ 24 mod 256, a / 2 ^ 16 mod 256, a / 2 ^ 8 mod 256, a mod 256).
Definition ipv4_new (a b c d : N) : N := a * 2 ^ 24 + b * 2 ^ 16 + c * 2 ^ 8 + d.

(** [Ipv6Addr::octets] and [Ipv6Addr::segments]. *)
Definition ipv6_octets (a : N) : list N :=
  map (fun k => a / 2 ^ k mod 256) [120; 112; 104; 96; 88; 80; 72; 64; 56; 48; 40; 32; 24; 16; 8; 0].
Definition segment (i : N) (a : N) : N := a / 2 ^ (112 - 16 * i) mod 65536.

(** The classifiers of [std::net]. *)
Definition is_loopback_v4 (a : N) : bool := let '(o0, _, _, _) := ipv4_octets a in o0 =? 127.
Definition is_private (a : N) : bool :=
  let '(o0, o1, _, _) := ipv4_octets a in
  (o0 =? 10) || ((o0 =? 172) && (16 <=? o1) && (o1 <=? 31)) || ((o0 =? 192) && (o1 =? 168)).
Definition is_link_local (a : N) : bool :=
  let '(o0, o1, _, _) := ipv4_octets a in (o0 =? 169) && (o1 =? 254).
Definition is_broadcast (a : N) : bool :=
  let '(o0, o1, o2, o3) := ipv4_octets a in (o0 =? 255) && (o1 =? 255) && (o2 =? 255) && (o3 =? 255).
Definition is_loopback_v6 (a : N) : bool := a =? 1.
Definition is_unspecified (a : N) : bool := a =? 0.

(** [Ipv6Addr::to_ipv4]: compatible [::a.b.c.d] and mapped [::ffff:a.b.c.d]. *)
Definition to_ipv4 (a : N) : option N :=
  if (segment 0 a =? 0) && (segment 1 a =? 0) && (segment 2 a =? 0) && (segment 3 a =? 0)
     && (segment 4 a =? 0) && ((segment 5 a =? 0) || (segment 5 a =? 65535))
  then Some (segment 6 a * 65536 + segment 7 a) else None.

(** ** The predicate *)

Definition NAT64_WELL_KNOWN_PREFIX : list N := [0; 100; 255; 155; 0; 0; 0; 0; 0; 0; 0; 0].
Definition IPV4_TRANSLATED_PREFIX : list N := [0; 0; 0; 0; 0; 0; 0; 0; 255; 255; 0; 0].

Definition embedded_ipv4 (v6 : N) (prefix : list N) : option N :=
  let octets := ipv6_octets v6 in
  if bool_decide (take 12 octets = prefix)
  then Some (ipv4_new (nth 12 octets 0) (nth 13 octets 0) (nth 14 octets 0) (nth 15 octets 0))
  else None.

Definition not_global_v4 (a : N) : bool :=
  let '(o0, o1, o2, o3) := ipv4_octets a in
  is_loopback_v4 a
  || is_private a
  || is_link_local a
  || (o0 =? 0)
  || is_broadcast a
  || ((o0 =? 100) && (N.land o1 192 =? 64))
  || ((o0 =? 198) && (N.land o1 254 =? 18))
  || (N.land o0 240 =? 224)
  || (N.land o0 240 =? 240)
  || ((o0 =? 192) && (o1 =? 0) && (o2 =? 0) && negb (o3 =? 9) && negb (o3 =? 10))
  || ((o0 =? 192) && (o1 =? 0) && (o2 =? 2))
  || ((o0 =? 192) && (o1 =? 88) && (o2 =? 99))
  || ((o0 =? 198) && (o1 =? 51) && (o2 =? 100))
  || ((o0 =? 203) && (o1 =? 0) && (o2 =? 113)).

Definition is_global_exception (s : N -> N) : bool :=
  ((s 1 =? 1) && (s 2 =? 0) && (s 3 =? 0) && (s 4 =? 0) && (s 5 =? 0) && (s 6 =? 0)
   && ((1 <=? s 7) && (s 7 <=? 3)))
  || (s 1 =? 3)
  || ((s 1 =? 4) && (s 2 =? 274))
  || (N.shiftr (s 1) 4 =? 2)
  || (N.shiftr (s 1) 4 =? 3).

Definition not_global_v6 (a : N) : bool :=
  let s i := segment i a in
  match to_ipv4 a with
  | Some v4 => not_global_v4 v4
  | None =>
  match embedded_ipv4 a NAT64_WELL_KNOWN_PREFIX with
  | Some v4 => not_global_v4 v4
  | None =>
  match embedded_ipv4 a IPV4_TRANSLATED_PREFIX with
  | Some v4 => not_global_v4 v4
  | None =>
      if is_loopback_v6 a || is_unspecified a then true
      else if ((s 0 =? 8193) && (N.shiftr (s 1) 9 =? 0)) && negb (is_global_exception s) then true
      else
        (N.land (s 0) 65024 =? 64512)
        || (N.land (s 0) 65472 =? 65152)
        || (N.land (s 0) 65472 =? 65216)
        || (N.land (s 0) 65280 =? 65280)
        || ((s 0 =? 100) && (s 1 =? 65435) && (s 2 =? 1))
        || ((s 0 =? 256) && (s 1 =? 0) && (s 2 =? 0) && (s 3 =? 0))
        || ((s 0 =? 256) && (s 1 =? 0) && (s 2 =? 0) && (s 3 =? 1))
        || ((s 0 =? 8193) && (s 1 =? 3512))
        || (s 0 =? 8194)
        || ((s 0 =? 16383) && (N.shiftr (s 1) 12 =? 0))
        || (s 0 =? 24320)
  end end end.

Definition is_not_global_unicast (ip : IpAddr) : bool :=
  match ip with V4 a => not_global_v4 a | V6 a => not_global_v6 a end.

Definition is_private_ip (ip : IpAddr) : bool := is_not_global_unicast ip.

(** ** Specification: the special-purpose address blocks

    A block is a base address and a prefix length. *)

Definition in_block (width a : N) (block : N * N) : bool :=
  let shift := 2 ^ (width - block.2) in a / shift =? block.1 / shift.

Definition in_any (width a : N) (blocks : list (N * N)) : bool := existsb (in_block width a) blocks.

Definition ip6 (s0 s1 s2 s3 s4 s5 s6 s7 : N) : N :=
  s0 * 2 ^ 112 + s1 * 2 ^ 96 + s2 * 2 ^ 80 + s3 * 2 ^ 64 + s4 * 2 ^ 48 + s5 * 2 ^ 32 + s6 * 2 ^ 16 + s7.

Definition special_v4 : list (N * N) :=
  [ (ipv4_new 127 0 0 0, 8);       (* loopback *)
    (ipv4_new 10 0 0 0, 8);        (* private *)
    (ipv4_new 172 16 0 0, 12);     (* private *)
    (ipv4_new 192 168 0 0, 16);    (* private *)
    (ipv4_new 169 254 0 0, 16);    (* link local *)
    (ipv4_new 0 0 0 0, 8);         (* this network *)
    (ipv4_new 100 64 0 0, 10);     (* shared, carrier-grade NAT *)
    (ipv4_new 198 18 0 0, 15);     (* benchmarking *)
    (ipv4_new 224 0 0 0, 4);       (* multicast *)
    (ipv4_new 240 0 0 0, 4);       (* reserved, broadcast *)
    (ipv4_new 192 0 0 0, 24);      (* IETF protocol assignments *)
    (ipv4_new 192 0 2 0, 24);      (* documentation *)
    (ipv4_new 192 88 99 0, 24);    (* 6to4 relay anycast *)
    (ipv4_new 198 51 100 0, 24);   (* documentation *)
    (ipv4_new 203 0 113 0, 24) ].  (* documentation *)

Definition global_v4 : list (N * N) :=
  [ (ipv4_new 192 0 0 9, 32); (ipv4_new 192 0 0 10, 32) ].

(** Blocks whose last 32 bits are an IPv4 address. *)
Definition wrappers : list (N * N) :=
  [ (0, 96);                                (* compatible *)
    (ip6 0 0 0 0 0 65535 0 0, 96);          (* mapped *)
    (ip6 100 65435 0 0 0 0 0 0, 96);        (* NAT64 *)
    (ip6 0 0 0 0 65535 0 0 0, 96) ].        (* translated *)

Definition special_v6 : list (N * N) :=
  [ (ip6 8193 0 0 0 0 0 0 0, 23);           (* 2001::/23 *)
    (ip6 64512 0 0 0 0 0 0 0, 7);           (* fc00::/7 *)
    (ip6 65152 0 0 0 0 0 0 0, 10);          (* fe80::/10 *)
    (ip6 65216 0 0 0 0 0 0 0, 10);          (* fec0::/10 *)
    (ip6 65280 0 0 0 0 0 0 0, 8);           (* ff00::/8 *)
    (ip6 100 65435 1 0 0 0 0 0, 48);        (* 64:ff9b:1::/48 *)
    (ip6 256 0 0 0 0 0 0 0, 64);            (* 100::/64 *)
    (ip6 256 0 0 1 0 0 0 0, 64);            (* 100:0:0:1::/64 *)
    (ip6 8193 3512 0 0 0 0 0 0, 32);        (* 2001:db8::/32 *)
    (ip6 8194 0 0 0 0 0 0 0, 16);           (* 2002::/16 *)
    (ip6 16383 0 0 0 0 0 0 0, 20);          (* 3fff::/20 *)
    (ip6 24320 0 0 0 0 0 0 0, 16) ].        (* 5f00::/16 *)

Definition global_v6 : list (N * N) :=
  [ (ip6 8193 1 0 0 0 0 0 1, 128); (ip6 8193 1 0 0 0 0 0 2, 128); (ip6 8193 1 0 0 0 0 0 3, 128);
    (ip6 8193 3 0 0 0 0 0 0, 32);           (* 2001:3::/32 *)
    (ip6 8193 4 274 0 0 0 0 0, 48);         (* 2001:4:112::/48 *)
    (ip6 8193 32 0 0 0 0 0 0, 28);          (* 2001:20::/28 *)
    (ip6 8193 48 0 0 0 0 0 0, 28) ].        (* 2001:30::/28 *)

Definition special4 (a : N) : bool := in_any 32 a special_v4 && negb (in_any 32 a global_v4).

Definition special (ip : IpAddr) : bool :=
  match ip with
  | V4 a => special4 a
  | V6 a =>
      if in_any 128 a wrappers then special4 (a mod 2 ^ 32)
      else in_any 128 a special_v6 && negb (in_any 128 a global_v6)
  end.

(** ** Masks and octets *)

#[local] Ltac Zify.zify_post_hook ::= Z.to_euclidean_division_equations.

(** Masking with the high bits of an [n]-bit word is rounding down. *)
Lemma land_high n k s :
  s < 2 ^ n -> N.land s (N.shiftl (N.ones (n - k)) k) = s / 2 ^ k * 2 ^ k.
Proof.
  intros Hs. rewrite <- N.shiftr_div_pow2, <- N.shiftl_mul_pow2.
  apply N.bits_inj. intros i. rewrite N.land_spec.
  destruct (N.lt_ge_cases i k) as [Hi|Hi].
  - rewrite !N.shiftl_spec_low by done. apply andb_false_r.
  - rewrite !N.shiftl_spec_high' by done. rewrite N.shiftr_spec'.
    replace (i - k + k) with i by lia.
    destruct (N.lt_ge_cases i n) as [Hn|Hn].
    + rewrite N.ones_spec_low by lia. apply andb_true_r.
    + rewrite N.ones_spec_high by lia. rewrite andb_false_r. symmetry.
      destruct (N.eq_dec s 0) as [->|H0]; [by destruct i|].
      apply N.bits_above_log2. apply N.log2_lt_pow2 in Hs; lia.
Qed.

Lemma land_192 o : o < 256 -> N.land o 192 = o / 64 * 64.
Proof. apply (land_high 8 6). Qed.
Lemma land_254 o : o < 256 -> N.land o 254 = o / 2 * 2.
Proof. apply (land_high 8 1). Qed.
Lemma land_240 o : o < 256 -> N.land o 240 = o / 16 * 16.
Proof. apply (land_high 8 4). Qed.
Lemma land_fe00 s : s < 65536 -> N.land s 65024 = s / 512 * 512.
Proof. apply (land_high 16 9). Qed.
Lemma land_ffc0 s : s < 65536 -> N.land s 65472 = s / 64 * 64.
Proof. apply (land_high 16 6). Qed.
Lemma land_ff00 s : s < 65536 -> N.land s 65280 = s / 256 * 256.
Proof. apply (land_high 16 8). Qed.

(** Every address is given by its octets, every IPv6 address by its segments. *)
Lemma ipv4_cases a :
  a < 2 ^ 32 ->
  exists o0 o1 o2 o3, o0 < 256 /\ o1 < 256 /\ o2 < 256 /\ o3 < 256 /\
    a = o0 * 16777216 + o1 * 65536 + o2 * 256 + o3 /\ ipv4_octets a = (o0, o1, o2, o3).
Proof.
  intros Ha. change (2 ^ 32) with 4294967296 in Ha.
  exists (a / 16777216 mod 256), (a / 65536 mod 256), (a / 256 mod 256), (a mod 256).
  split_and!; try done; lia.
Qed.

(** Decides an equation between a block test and octet or segment tests. *)
Ltac decide_block :=
  apply Bool.eq_iff_eq_true;
  repeat rewrite ?orb_true_iff, ?andb_true_iff, ?negb_true_iff, ?N.eqb_eq, ?N.leb_le, ?N.eqb_neq;
  lia.

(** The block tests of an IPv4 address on its octets. *)
Lemma v4_blocks o0 o1 o2 o3 :
  o0 < 256 -> o1 < 256 -> o2 < 256 -> o3 < 256 ->
  let x := o0 * 16777216 + o1 * 65536 + o2 * 256 + o3 in
  (forall a, in_block 32 x (ipv4_new a 0 0 0, 8) = (o0 =? a)) /\
  (forall a b, b < 256 -> in_block 32 x (ipv4_new a b 0 0, 16) = (o0 =? a) && (o1 =? b)) /\
  (forall a b c, b < 256 -> c < 256 ->
     in_block 32 x (ipv4_new a b c 0, 24) = (o0 =? a) && (o1 =? b) && (o2 =? c)) /\
  (forall a b c d, b < 256 -> c < 256 -> d < 256 ->
     in_block 32 x (ipv4_new a b c d, 32) = (o0 =? a) && (o1 =? b) && (o2 =? c) && (o3 =? d)) /\
  in_block 32 x (ipv4_new 172 16 0 0, 12) = (o0 =? 172) && (16 <=? o1) && (o1 <=? 31) /\
  in_block 32 x (ipv4_new 100 64 0 0, 10) = (o0 =? 100) && (o1 / 64 * 64 =? 64) /\
  in_block 32 x (ipv4_new 198 18 0 0, 15) = (o0 =? 198) && (o1 / 2 * 2 =? 18) /\
  in_block 32 x (ipv4_new 224 0 0 0, 4) = (o0 / 16 * 16 =? 224) /\
  in_block 32 x (ipv4_new 240 0 0 0, 4) = (o0 / 16 * 16 =? 240).
Proof.
  intros H0 H1 H2 H3 x. unfold x, in_block, ipv4_new. cbn [fst snd].
  change (2 ^ 24) with 16777216. change (2 ^ 16) with 65536. change (2 ^ 8) with 256.
  change (2 ^ (32 - 8)) with 16777216. change (2 ^ (32 - 16)) with 65536.
  change (2 ^ (32 - 24)) with 256. change (2 ^ (32 - 32)) with 1. change (2 ^ (32 - 12)) with 1048576.
  change (2 ^ (32 - 10)) with 4194304. change (2 ^ (32 - 15)) with 131072.
  change (2 ^ (32 - 4)) with 268435456.
  split_and!; intros; decide_block.
Qed.

Lemma not_global_v4_exact a : a < 2 ^ 32 -> not_global_v4 a = special4 a.
Proof.
  intros Ha. destruct (ipv4_cases a Ha) as (o0 & o1 & o2 & o3 & H0 & H1 & H2 & H3 & -> & Ho).
  unfold not_global_v4, is_loopback_v4, is_private, is_link_local, is_broadcast. rewrite Ho.
  rewrite land_192, land_254, !land_240 by done.
  destruct (v4_blocks o0 o1 o2 o3 H0 H1 H2 H3) as (B8 & B16 & B24 & B32 & Bp & Bc & Bb & Bm & Br).
  unfold special4, in_any, special_v4, global_v4. cbn [existsb].
  rewrite !B8, !B16, !B24, !B32, Bp, Bc, Bb, Bm, Br by done. clear.
  destruct ((o0 =? 192) && (o1 =? 0) && (o2 =? 0)) eqn:E.
  - apply andb_true_iff in E as [[->%N.eqb_eq ->%N.eqb_eq]%andb_true_iff ->%N.eqb_eq].
    cbn. by destruct (o3 =? 9), (o3 =? 10).
  - rewrite !andb_false_l. cbn [orb negb]. rewrite andb_true_r.
    destruct ((o0 =? 255) && (o1 =? 255) && (o2 =? 255) && (o3 =? 255)) eqn:E'.
    + apply andb_true_iff in E' as [[[->%N.eqb_eq _]%andb_true_iff _]%andb_true_iff _].
      cbn. by rewrite !orb_true_r.
    + rewrite !orb_false_r, <- !orb_assoc. done.
Qed.

Lemma ipv6_cases a :
  a < 2 ^ 128 ->
  exists s0 s1 s2 s3 s4 s5 s6 s7,
    s0 < 65536 /\ s1 < 65536 /\ s2 < 65536 /\ s3 < 65536 /\
    s4 < 65536 /\ s5 < 65536 /\ s6 < 65536 /\ s7 < 65536 /\
    a = ip6 s0 s1 s2 s3 s4 s5 s6 s7 /\
    segment 0 a = s0 /\ segment 1 a = s1 /\ segment 2 a = s2 /\ segment 3 a = s3 /\
    segment 4 a = s4 /\ segment 5 a = s5 /\ segment 6 a = s6 /\ segment 7 a = s7.
Proof.
  intros Ha.
  exists (segment 0 a), (segment 1 a), (segment 2 a), (segment 3 a), (segment 4 a), (segment 5 a),
    (segment 6 a), (segment 7 a).
  assert (forall i, segment i a < 65536) as Hs by (intros i; by apply N.mod_lt).
  split_and!; try apply Hs; try done.
  assert (forall k m, m = k + 16 -> a / 2 ^ k = a / 2 ^ m * 65536 + a / 2 ^ k mod 65536) as Hstep.
  { intros k m ->. rewrite N.pow_add_r, <- N.Div0.div_div. change (2 ^ 16) with 65536.
    rewrite (N.div_mod (a / 2 ^ k) 65536) at 1 by done. lia. }
  pose proof (Hstep 0 16 eq_refl) as E0. pose proof (Hstep 16 32 eq_refl) as E1. pose proof (Hstep 32 48 eq_refl) as E2.
  pose proof (Hstep 48 64 eq_refl) as E3. pose proof (Hstep 64 80 eq_refl) as E4. pose proof (Hstep 80 96 eq_refl) as E5.
  pose proof (Hstep 96 112 eq_refl) as E6. pose proof (Hstep 112 128 eq_refl) as E7.
  assert (a / 2 ^ 128 = 0) as Ez by (apply N.div_small; exact Ha).
  rewrite Ez in E7. change (2 ^ 0) with 1 in E0. rewrite N.div_1_r in E0.
  unfold ip6, segment. clear -E0 E1 E2 E3 E4 E5 E6 E7.
  change (112 - 16 * 0) with 112. change (112 - 16 * 1) with 96. change (112 - 16 * 2) with 80.
  change (112 - 16 * 3) with 64. change (112 - 16 * 4) with 48. change (112 - 16 * 5) with 32.
  change (112 - 16 * 6) with 16. change (a / 2 ^ (112 - 16 * 7)) with (a / 1). rewrite N.div_1_r.
  set (t1 := a / 2 ^ 16) in *. set (t2 := a / 2 ^ 32) in *. set (t3 := a / 2 ^ 48) in *.
  set (t4 := a / 2 ^ 64) in *. set (t5 := a / 2 ^ 80) in *. set (t6 := a / 2 ^ 96) in *.
  set (t7 := a / 2 ^ 112) in *. clearbody t1 t2 t3 t4 t5 t6 t7.
  set (r1 := t1 mod 65536) in *. set (r2 := t2 mod 65536) in *. set (r3 := t3 mod 65536) in *.
  set (r4 := t4 mod 65536) in *. set (r5 := t5 mod 65536) in *. set (r6 := t6 mod 65536) in *.
  set (r7 := t7 mod 65536) in *. set (r0 := a mod 65536) in *.
  clearbody r0 r1 r2 r3 r4 r5 r6 r7. lia.
Qed.

(** Dropping a number of segments divides by a power of [65536]. *)
Lemma drop_low d hi lo : lo < 2 ^ d -> (hi * 2 ^ d + lo) / 2 ^ d = hi.
Proof.
  intros Hlo. rewrite N.div_add_l by (apply N.pow_nonzero; done).
  rewrite N.div_small by done. lia.
Qed.

(** Octets are the halves of the segments. *)
Lemma octets_segments a :
  ipv6_octets a
  = concat (map (fun i => [segment i a / 256; segment i a mod 256]) [0; 1; 2; 3; 4; 5; 6; 7]).
Proof.
  assert (forall k m, m = k + 8 ->
    a / 2 ^ m mod 256 = a / 2 ^ k mod 65536 / 256 /\ a / 2 ^ k mod 256 = a / 2 ^ k mod 65536 mod 256) as Hk.
  { intros k m ->. rewrite (N.pow_add_r 2 k 8), <- N.Div0.div_div. change (2 ^ 8) with 256.
    generalize (a / 2 ^ k). intros y. lia. }
  unfold ipv6_octets, segment. cbn [map concat app].
  change (112 - 16 * 0) with 112. change (112 - 16 * 1) with 96. change (112 - 16 * 2) with 80.
  change (112 - 16 * 3) with 64. change (112 - 16 * 4) with 48. change (112 - 16 * 5) with 32.
  change (112 - 16 * 6) with 16. change (112 - 16 * 7) with 0.
  destruct (Hk 112 120 eq_refl) as [-> ->]. destruct (Hk 96 104 eq_refl) as [-> ->].
  destruct (Hk 80 88 eq_refl) as [-> ->]. destruct (Hk 64 72 eq_refl) as [-> ->].
  destruct (Hk 48 56 eq_refl) as [-> ->]. destruct (Hk 32 40 eq_refl) as [-> ->].
  destruct (Hk 16 24 eq_refl) as [-> ->]. destruct (Hk 0 8 eq_refl) as [-> ->]. done.
Qed.

(** The embedded address of a [/96] prefix, given by its six segments. *)
Lemma embedded_spec a p0 p1 p2 p3 p4 p5 :
  (p0 < 65536 /\ p1 < 65536 /\ p2 < 65536 /\ p3 < 65536 /\ p4 < 65536 /\ p5 < 65536) ->
  embedded_ipv4 a (concat (map (fun s => [s / 256; s mod 256]) [p0; p1; p2; p3; p4; p5]))
  = if (segment 0 a =? p0) && (segment 1 a =? p1) && (segment 2 a =? p2) && (segment 3 a =? p3)
       && (segment 4 a =? p4) && (segment 5 a =? p5)
    then Some (segment 6 a * 65536 + segment 7 a) else None.
Proof.
  intros Hp. unfold embedded_ipv4. rewrite octets_segments. cbn [map concat app take nth].
  assert (forall s p, s / 256 = p / 256 /\ s mod 256 = p mod 256 <-> s = p) as Hhalf by lia.
  set (t := _ && _). assert (forall A (u v : A),
    (if bool_decide ([segment 0 a / 256; segment 0 a mod 256; segment 1 a / 256; segment 1 a mod 256;
       segment 2 a / 256; segment 2 a mod 256; segment 3 a / 256; segment 3 a mod 256;
       segment 4 a / 256; segment 4 a mod 256; segment 5 a / 256; segment 5 a mod 256]
       = [p0 / 256; p0 mod 256; p1 / 256; p1 mod 256; p2 / 256; p2 mod 256; p3 / 256; p3 mod 256;
          p4 / 256; p4 mod 256; p5 / 256; p5 mod 256]) then u else v) = if t then u else v) as ->.
  { intros A u v. destruct t eqn:Et; unfold t in Et.
    - rewrite bool_decide_eq_true_2; [done|].
      repeat rewrite andb_true_iff in Et. rewrite !N.eqb_eq in Et. by destruct Et as [[[[[-> ->] ->] ->] ->] ->].
    - rewrite bool_decide_eq_false_2; [done|]. intros [=]. apply not_true_iff_false in Et. apply Et.
      repeat rewrite andb_true_iff. rewrite !N.eqb_eq. split_and!; apply Hhalf; done. }
  destruct t; [|done]. f_equal. unfold ipv4_new.
  change (2 ^ 24) with 16777216. change (2 ^ 16) with 65536. change (2 ^ 8) with 256.
  assert (segment 6 a < 65536 /\ segment 7 a < 65536) by (split; by apply N.mod_lt).
  generalize dependent (segment 6 a). generalize dependent (segment 7 a). intros. lia.
Qed.

(** Powers of two as numerals, for [lia]. *)
Ltac numerals :=
  change (2 ^ 112) with 5192296858534827628530496329220096 in *;
  change (2 ^ 96) with 79228162514264337593543950336 in *;
  change (2 ^ 80) with 1208925819614629174706176 in *;
  change (2 ^ 64) with 18446744073709551616 in *; change (2 ^ 48) with 281474976710656 in *;
  change (2 ^ 32) with 4294967296 in *; change (2 ^ 16) with 65536 in *.

(** The leading parts of an IPv6 address on its segments. *)
Section segments.
Variables s0 s1 s2 s3 s4 s5 s6 s7 : N.
Hypothesis Hs : s0 < 65536 /\ s1 < 65536 /\ s2 < 65536 /\ s3 < 65536 /\
                s4 < 65536 /\ s5 < 65536 /\ s6 < 65536 /\ s7 < 65536.
Let x := ip6 s0 s1 s2 s3 s4 s5 s6 s7.

Ltac top k hi lo :=
  unfold x, ip6;
  match goal with |- ?n / _ = _ => replace n with (hi * 2 ^ k + lo) by (numerals; lia) end;
  apply drop_low; numerals; lia.

Lemma top_16 : x / 2 ^ 112 = s0.
Proof. top 112 s0 (s1 * 2 ^ 96 + s2 * 2 ^ 80 + s3 * 2 ^ 64 + s4 * 2 ^ 48 + s5 * 2 ^ 32 + s6 * 2 ^ 16 + s7). Qed.
Lemma top_32 : x / 2 ^ 96 = s0 * 65536 + s1.
Proof.
  top 96 (s0 * 65536 + s1) (s2 * 2 ^ 80 + s3 * 2 ^ 64 + s4 * 2 ^ 48 + s5 * 2 ^ 32 + s6 * 2 ^ 16 + s7).
Qed.
Lemma top_48 : x / 2 ^ 80 = (s0 * 65536 + s1) * 65536 + s2.
Proof.
  top 80 ((s0 * 65536 + s1) * 65536 + s2) (s3 * 2 ^ 64 + s4 * 2 ^ 48 + s5 * 2 ^ 32 + s6 * 2 ^ 16 + s7).
Qed.
Lemma top_64 : x / 2 ^ 64 = ((s0 * 65536 + s1) * 65536 + s2) * 65536 + s3.
Proof.
  top 64 (((s0 * 65536 + s1) * 65536 + s2) * 65536 + s3) (s4 * 2 ^ 48 + s5 * 2 ^ 32 + s6 * 2 ^ 16 + s7).
Qed.
Lemma top_96 :
  x / 2 ^ 32 = ((((s0 * 65536 + s1) * 65536 + s2) * 65536 + s3) * 65536 + s4) * 65536 + s5.
Proof.
  top 32 (((((s0 * 65536 + s1) * 65536 + s2) * 65536 + s3) * 65536 + s4) * 65536 + s5) (s6 * 2 ^ 16 + s7).
Qed.
Lemma low_32 : x mod 2 ^ 32 = s6 * 65536 + s7.
Proof.
  assert (x = 2 ^ 32 * (x / 2 ^ 32) + (s6 * 65536 + s7)) as Hx
    by (rewrite top_96; unfold x, ip6; numerals; lia).
  symmetry. apply (N.mod_unique _ _ (x / 2 ^ 32)); [numerals; lia|exact Hx].
Qed.

(** A shorter prefix divides further. *)
Lemma shorter j k : x / 2 ^ (k + j) = x / 2 ^ k / 2 ^ j.
Proof. by rewrite N.pow_add_r, N.Div0.div_div. Qed.

Lemma wrapper_tests :
  in_any 128 x wrappers
  = ((s0 =? 0) && (s1 =? 0) && (s2 =? 0) && (s3 =? 0) && (s4 =? 0) && ((s5 =? 0) || (s5 =? 65535)))
    || ((s0 =? 100) && (s1 =? 65435) && (s2 =? 0) && (s3 =? 0) && (s4 =? 0) && (s5 =? 0))
    || ((s0 =? 0) && (s1 =? 0) && (s2 =? 0) && (s3 =? 0) && (s4 =? 65535) && (s5 =? 0)).
Proof.
  unfold in_any, wrappers. cbn [existsb]. unfold in_block. cbn [fst snd].
  change (128 - 96) with 32. rewrite top_96.
  repeat match goal with |- context [?h =? ?n / 2 ^ 32] =>
    let v := eval vm_compute in (n / 2 ^ 32) in change (n / 2 ^ 32) with v end.
  decide_block.
Qed.

(** Proves a block test: [k] bits are cut by the lemma [Htop], [j] more by
    division. *)
Ltac block_test k j Htop :=
  unfold in_block; cbn [fst snd];
  match goal with |- context [2 ^ (128 - ?l)] => change (128 - l) with (k + j) end;
  rewrite shorter, Htop;
  match goal with |- context [?h =? ?n / 2 ^ ?m] =>
    let v := eval vm_compute in (n / 2 ^ m) in change (n / 2 ^ m) with v end;
  match goal with |- context [2 ^ ?m] => let v := eval vm_compute in (2 ^ m) in change (2 ^ m) with v end;
  decide_block.

Lemma special_tests :
  in_any 128 x special_v6
  = ((s0 =? 8193) && (s1 / 512 =? 0))
    || (s0 / 512 * 512 =? 64512) || (s0 / 64 * 64 =? 65152) || (s0 / 64 * 64 =? 65216)
    || (s0 / 256 * 256 =? 65280)
    || ((s0 =? 100) && (s1 =? 65435) && (s2 =? 1))
    || ((s0 =? 256) && (s1 =? 0) && (s2 =? 0) && (s3 =? 0))
    || ((s0 =? 256) && (s1 =? 0) && (s2 =? 0) && (s3 =? 1))
    || ((s0 =? 8193) && (s1 =? 3512))
    || (s0 =? 8194)
    || ((s0 =? 16383) && (s1 / 4096 =? 0))
    || (s0 =? 24320).
Proof.
  unfold in_any, special_v6. cbn [existsb]. rewrite orb_false_r, !orb_assoc.
  repeat match goal with |- _ || _ = _ || _ => apply (f_equal2 orb) end.
  - block_test 96 9 top_32.
  - block_test 112 9 top_16.
  - block_test 112 6 top_16.
  - block_test 112 6 top_16.
  - block_test 112 8 top_16.
  - block_test 80 0 top_48.
  - block_test 64 0 top_64.
  - block_test 64 0 top_64.
  - block_test 96 0 top_32.
  - block_test 112 0 top_16.
  - block_test 96 12 top_32.
  - block_test 112 0 top_16.
Qed.

Lemma global_tests :
  in_any 128 x global_v6
  = (s0 =? 8193) &&
    (((s1 =? 1) && (s2 =? 0) && (s3 =? 0) && (s4 =? 0) && (s5 =? 0) && (s6 =? 0)
      && ((1 <=? s7) && (s7 <=? 3)))
     || (s1 =? 3) || ((s1 =? 4) && (s2 =? 274)) || (s1 / 16 =? 2) || (s1 / 16 =? 3)).
Proof.
  unfold in_any, global_v6. cbn [existsb].
  assert (in_block 128 x (ip6 8193 3 0 0 0 0 0 0, 32) = (s0 =? 8193) && (s1 =? 3)) as ->
    by block_test 96 0 top_32.
  assert (in_block 128 x (ip6 8193 4 274 0 0 0 0 0, 48) = (s0 =? 8193) && (s1 =? 4) && (s2 =? 274)) as ->
    by block_test 80 0 top_48.
  assert (in_block 128 x (ip6 8193 32 0 0 0 0 0 0, 28) = (s0 =? 8193) && (s1 / 16 =? 2)) as ->
    by block_test 96 4 top_32.
  assert (in_block 128 x (ip6 8193 48 0 0 0 0 0 0, 28) = (s0 =? 8193) && (s1 / 16 =? 3)) as ->
    by block_test 96 4 top_32.
  assert (forall c, c < 65536 -> in_block 128 x (ip6 8193 1 0 0 0 0 0 c, 128) =
    (s0 =? 8193) && ((s1 =? 1) && (s2 =? 0) && (s3 =? 0) && (s4 =? 0) && (s5 =? 0) && (s6 =? 0)
      && (s7 =? c))) as Hone.
  { intros c Hc. unfold in_block. cbn [fst snd]. change (2 ^ (128 - 128)) with 1. rewrite !N.div_1_r.
    unfold x, ip6. numerals. decide_block. }
  rewrite !Hone by done.
  assert ((1 <=? s7) && (s7 <=? 3) = (s7 =? 1) || (s7 =? 2) || (s7 =? 3)) as -> by decide_block.
  destruct (s0 =? 8193); [|done]. cbn [andb].
  by destruct ((s1 =? 1) && (s2 =? 0) && (s3 =? 0) && (s4 =? 0) && (s5 =? 0) && (s6 =? 0)),
    (s7 =? 1), (s7 =? 2), (s7 =? 3), (s1 =? 3), ((s1 =? 4) && (s2 =? 274)), (s1 / 16 =? 2), (s1 / 16 =? 3).
Qed.
End segments.

(** * Properties *)

(** The SSRF predicate blocks exactly the special-purpose addresses: for
    every IPv4 and IPv6 address it answers whether the address lies in one of
    the listed non-global blocks outside their globally reachable exceptions,
    where an IPv6 address that wraps an IPv4 address (compatible, mapped, NAT64
    or translated) is judged by the address it wraps. *)
Theorem ssrf_predicate_exact ip : valid_ip ip -> is_not_global_unicast ip = special ip.
Proof.
  destruct ip as [a|a]; cbn [valid_ip is_not_global_unicast special]; intros Ha.
  { by apply not_global_v4_exact. }
  destruct (ipv6_cases a Ha) as (s0 & s1 & s2 & s3 & s4 & s5 & s6 & s7 & H0 & H1 & H2 & H3 & H4 & H5 &
    H6 & H7 & Ea & E0 & E1 & E2 & E3 & E4 & E5 & E6 & E7).
  assert (s0 < 65536 /\ s1 < 65536 /\ s2 < 65536 /\ s3 < 65536 /\ s4 < 65536 /\ s5 < 65536 /\
    s6 < 65536 /\ s7 < 65536) as Hs by done.
  unfold not_global_v6, to_ipv4, is_global_exception.
  change NAT64_WELL_KNOWN_PREFIX with
    (concat (map (fun s => [s / 256; s mod 256]) [100; 65435; 0; 0; 0; 0])).
  change IPV4_TRANSLATED_PREFIX with
    (concat (map (fun s => [s / 256; s mod 256]) [0; 0; 0; 0; 65535; 0])).
  rewrite !embedded_spec by done. rewrite E0, E1, E2, E3, E4, E5, E6, E7, Ea.
  rewrite wrapper_tests, special_tests, global_tests, low_32 by done.
  assert (not_global_v4 (s6 * 65536 + s7) = special4 (s6 * 65536 + s7)) as Hw.
  { apply not_global_v4_exact. change (2 ^ 32) with 4294967296. lia. }
  match goal with |- context [if ?t then Some _ else None] => destruct t eqn:W1; [exact Hw|] end.
  match goal with |- context [if ?t then Some _ else None] => destruct t eqn:W2; [exact Hw|] end.
  match goal with |- context [if ?t then Some _ else None] => destruct t eqn:W3; [exact Hw|] end.
  cbn [orb].
  assert (is_loopback_v6 (ip6 s0 s1 s2 s3 s4 s5 s6 s7) || is_unspecified (ip6 s0 s1 s2 s3 s4 s5 s6 s7) = false)
    as ->.
  { apply not_true_iff_false. intros Hlow. apply not_true_iff_false in W1. apply W1.
    unfold is_loopback_v6, is_unspecified, ip6 in Hlow. revert Hlow. numerals.
    repeat rewrite ?orb_true_iff, ?andb_true_iff, ?N.eqb_eq. lia. }
  rewrite land_fe00, !land_ffc0, land_ff00 by done. rewrite !N.shiftr_div_pow2.
  change (2 ^ 9) with 512. change (2 ^ 4) with 16. change (2 ^ 12) with 4096.
  set (ex := _ || (s1 / 16 =? 3)).
  destruct (s0 =? 8193) eqn:F; cbn [andb orb negb].
  - apply N.eqb_eq in F as ->.
    change (8193 / 512 * 512 =? 64512) with false. change (8193 / 64 * 64 =? 65152) with false.
    change (8193 / 64 * 64 =? 65216) with false. change (8193 / 256 * 256 =? 65280) with false.
    change (8193 =? 100) with false. change (8193 =? 256) with false. change (8193 =? 8194) with false.
    change (8193 =? 16383) with false. change (8193 =? 24320) with false.
    cbn [andb orb]. rewrite !orb_false_r.
    destruct (s1 / 512 =? 0) eqn:F1.
    + apply N.eqb_eq in F1. assert ((s1 =? 3512) = false) as -> by (apply N.eqb_neq; lia).
      by destruct ex.
    + apply N.eqb_neq in F1. assert (ex = false) as ->; [|by destruct (s1 =? 3512)].
      unfold ex. apply not_true_iff_false.
      repeat rewrite ?orb_true_iff, ?andb_true_iff, ?N.eqb_eq. lia.
  - by rewrite andb_true_r.
Qed.

Lemma ssrf_predicate_exact_witness :
  valid_ip (V6 (ip6 100 65435 0 0 0 0 43518 43518)) /\
  is_not_global_unicast (V6 (ip6 100 65435 0 0 0 0 43518 43518))
  = special (V6 (ip6 100 65435 0 0 0 0 43518 43518)).
Proof. split; [done|]. apply (ssrf_predicate_exact (V6 (ip6 100 65435 0 0 0 0 43518 43518))). done. Defined.

(** NAT64 of the link-local metadata address 169.254.169.254 is blocked. *)
Example nat64_metadata_blocked :
  is_not_global_unicast (V6 (ip6 100 65435 0 0 0 0 43518 43518)) = true.
Proof. reflexivity. Qed.
