(* ===== verification/Ifc.v ===== *)
(** Information-flow control over reader sets, ifc-core/src/lib.rs.

    [Universe] and [Principal] are the type parameters of the crate: the first
    compared for equality ([Eq]), the second held in finite sets ([BTreeSet],
    here [gset]). *)

From S2P Require Import Prelude.

Inductive LabelError := EmptyReaderSet | CrossUniverse.
Inductive EgressError := UnresolvedInput | DestinationUniverseMismatch | DestinationWidensReaders.

#[export] Instance LabelError_eq_dec : EqDecision LabelError.
Proof. solve_decision. Defined.
#[export] Instance EgressError_eq_dec : EqDecision EgressError.
Proof. solve_decision. Defined.

Definition LabelError_fmt (e : LabelError) : string :=
  match e with
  | EmptyReaderSet => "restricted label has no authorized readers"
  | CrossUniverse => "labels belong to different universes"
  end.

Definition EgressError_fmt (e : EgressError) : string :=
  match e with
  | UnresolvedInput => "input provenance is unresolved"
  | DestinationUniverseMismatch => "destination belongs to a different universe"
  | DestinationWidensReaders => "destination widens the accumulated reader set"
  end.

Section model.
Context {Universe Principal : Type}.
Context `{EqDecision Universe} `{Countable Principal}.

Inductive ReaderSet :=
| Everyone
| Only (readers : gset Principal).

Definition reader_can_flow_to (source destination : ReaderSet) : bool :=
  match source, destination with
  | Everyone, _ => true
  | Only _, Everyone => false
  | Only source, Only destination => bool_decide (destination ⊆ source)
  end.

Definition reader_join (left right : ReaderSet) : ReaderSet :=
  match left, right with
  | Everyone, value => value
  | value, Everyone => value
  | Only l, Only r => Only (l ∩ r)
  end.

Definition reader_meet (left right : ReaderSet) : ReaderSet :=
  match left, right with
  | Everyone, _ | _, Everyone => Everyone
  | Only l, Only r => Only (l ∪ r)
  end.

Definition explicit_readers (r : ReaderSet) : option (gset Principal) :=
  match r with Everyone => None | Only readers => Some readers end.

Definition explicit_count (r : ReaderSet) : option nat := size <$> explicit_readers r.

Record ConfidentialityLabel := mkLabel {
  cl_universe : Universe;
  cl_readers : ReaderSet;
}.

Definition public (universe : Universe) : ConfidentialityLabel := mkLabel universe Everyone.

Definition restricted (universe : Universe) (readers : gset Principal)
  : result ConfidentialityLabel LabelError :=
  if bool_decide (readers = ∅) then Err EmptyReaderSet else Ok (mkLabel universe (Only readers)).

Definition restricted_to (universe : Universe) (principal : Principal) : ConfidentialityLabel :=
  mkLabel universe (Only {[principal]}).

Definition is_public (l : ConfidentialityLabel) : bool :=
  match cl_readers l with Everyone => true | Only _ => false end.

Definition reader_count (l : ConfidentialityLabel) : option nat := explicit_count (cl_readers l).

Definition can_flow_to (l destination : ConfidentialityLabel) : bool :=
  bool_decide (cl_universe l = cl_universe destination)
  && reader_can_flow_to (cl_readers l) (cl_readers destination).

Definition label_join (l other : ConfidentialityLabel) : result ConfidentialityLabel LabelError :=
  if bool_decide (cl_universe l <> cl_universe other) then Err CrossUniverse
  else Ok (mkLabel (cl_universe l) (reader_join (cl_readers l) (cl_readers other))).

Record FlowState := mkFlowState {
  fs_accumulated : option ConfidentialityLabel;
  fs_unresolved_input : bool;
}.

Definition FlowState_default : FlowState := mkFlowState None false.

Definition observe (label : ConfidentialityLabel) (s : FlowState) : FlowState :=
  match fs_accumulated s with
  | None => mkFlowState (Some label) (fs_unresolved_input s)
  | Some existing =>
      match label_join existing label with
      | Ok combined => mkFlowState (Some combined) (fs_unresolved_input s)
      | Err (CrossUniverse | EmptyReaderSet) => mkFlowState (Some existing) true
      end
  end.

Definition mark_unknown (s : FlowState) : FlowState := mkFlowState (fs_accumulated s) true.

Definition check_egress (s : FlowState) (destination : ConfidentialityLabel) : result () EgressError :=
  if fs_unresolved_input s then Err UnresolvedInput
  else
    match fs_accumulated s with
    | None => Ok ()
    | Some accumulated =>
        if bool_decide (cl_universe accumulated <> cl_universe destination)
        then Err DestinationUniverseMismatch
        else if negb (reader_can_flow_to (cl_readers accumulated) (cl_readers destination))
        then Err DestinationWidensReaders
        else Ok ()
    end.

Definition has_observed_input (s : FlowState) : bool :=
  match fs_accumulated s with Some _ => true | None => false end.
Definition accumulated_label (s : FlowState) : option ConfidentialityLabel := fs_accumulated s.
Definition has_unresolved_input (s : FlowState) : bool := fs_unresolved_input s.

Record FlowSnapshot := mkFlowSnapshot {
  sn_accumulated : option ConfidentialityLabel;
  sn_unresolved_input : bool;
}.

Definition snapshot (s : FlowState) : FlowSnapshot :=
  mkFlowSnapshot (fs_accumulated s) (fs_unresolved_input s).

(** ** Specification

    A principal [p] of universe [u] may learn a value with label [l]. *)
Definition may_read (u : Universe) (p : Principal) (l : ConfidentialityLabel) : Prop :=
  u = cl_universe l /\
  match cl_readers l with Everyone => True | Only readers => p ∈ readers end.

(** An input of a computation: a label, or input of unknown provenance. *)
Inductive Input := Labeled (l : ConfidentialityLabel) | Unknown.

Definition step (s : FlowState) (i : Input) : FlowState :=
  match i with Labeled l => observe l s | Unknown => mark_unknown s end.

Definition run (inputs : list Input) : FlowState := foldl step FlowState_default inputs.

(** The computation's inputs all have known provenance in one universe. *)
Definition resolved (inputs : list Input) : Prop :=
  (Unknown ∉ inputs) /\
  forall l l', Labeled l ∈ inputs -> Labeled l' ∈ inputs -> cl_universe l = cl_universe l'.

(** ** Lemmas *)

Lemma reader_flow_refl r : reader_can_flow_to r r = true.
Proof. destruct r; [done|]. by apply bool_decide_eq_true. Qed.

Lemma reader_flow_trans r1 r2 r3 :
  reader_can_flow_to r1 r2 = true -> reader_can_flow_to r2 r3 = true ->
  reader_can_flow_to r1 r3 = true.
Proof.
  destruct r1, r2, r3; cbn; try done. rewrite !bool_decide_eq_true. set_solver.
Qed.

Lemma reader_flow_antisym r1 r2 :
  reader_can_flow_to r1 r2 = true -> reader_can_flow_to r2 r1 = true -> r1 = r2.
Proof.
  destruct r1, r2; cbn; try done. rewrite !bool_decide_eq_true.
  intros ??. f_equal. by apply (anti_symm (⊆)).
Qed.

Lemma reader_join_lub r1 r2 r :
  reader_can_flow_to (reader_join r1 r2) r = true <->
  reader_can_flow_to r1 r = true /\ reader_can_flow_to r2 r = true.
Proof.
  destruct r1, r2, r; cbn; rewrite ?bool_decide_eq_true; try naive_solver. set_solver.
Qed.

Lemma reader_meet_glb r1 r2 r :
  reader_can_flow_to r (reader_meet r1 r2) = true <->
  reader_can_flow_to r r1 = true /\ reader_can_flow_to r r2 = true.
Proof.
  destruct r1, r2, r; cbn; rewrite ?bool_decide_eq_true; try naive_solver. set_solver.
Qed.

Lemma can_flow_to_spec l d :
  can_flow_to l d = true <->
  cl_universe l = cl_universe d /\ reader_can_flow_to (cl_readers l) (cl_readers d) = true.
Proof. unfold can_flow_to. by rewrite andb_true_iff, bool_decide_eq_true. Qed.

(** What the state holds after a list of inputs: either it is poisoned, or its
    label is the join of what was observed. *)
Definition summarises (inputs : list Input) (s : FlowState) : Prop :=
  (fs_unresolved_input s = true <-> ~ resolved inputs) /\
  match fs_accumulated s with
  | None => forall l, Labeled l ∉ inputs
  | Some acc =>
      (exists l, Labeled l ∈ inputs /\ cl_universe l = cl_universe acc) /\
      (resolved inputs -> forall r,
         reader_can_flow_to (cl_readers acc) r = true <->
         forall l, Labeled l ∈ inputs -> reader_can_flow_to (cl_readers l) r = true)
  end.

Lemma resolved_snoc_unknown inputs : ~ resolved (inputs ++ [Unknown]).
Proof. intros [Hu _]. set_solver. Qed.

Lemma resolved_snoc inputs l :
  resolved (inputs ++ [Labeled l]) <->
  resolved inputs /\ forall l', Labeled l' ∈ inputs -> cl_universe l' = cl_universe l.
Proof.
  unfold resolved. setoid_rewrite elem_of_app. setoid_rewrite list_elem_of_singleton. split.
  - intros [Hu Hc]. split_and!; [tauto|naive_solver..].
  - intros [[Hu Hc] Hl]. split; [intros [?|?]; done|].
    intros l1 l2 [?|[= ->]] [?|[= ->]]; [auto|auto|symmetry; auto|done].
Qed.

Lemma summarises_step inputs s i :
  summarises inputs s -> summarises (inputs ++ [i]) (step s i).
Proof.
  intros [Hun Hacc]. destruct i as [l|]; cbn [step].
  - unfold observe, label_join. destruct (fs_accumulated s) as [acc|] eqn:Ea.
    + destruct Hacc as ((l0 & Hl0 & Hu0) & Hj).
      case_bool_decide as Hne.
      * split; cbn [fs_unresolved_input fs_accumulated].
        -- split; [intros _|done]. rewrite resolved_snoc. intros [_ Hl]. apply Hne.
           rewrite <- Hu0. by apply Hl.
        -- split; [exists l0; set_solver|]. rewrite resolved_snoc. intros [_ Hl]. destruct Hne.
           rewrite <- Hu0. by apply Hl.
      * assert (cl_universe acc = cl_universe l) as Hu by (destruct (decide (cl_universe acc = cl_universe l)); tauto).
        split; cbn [fs_unresolved_input fs_accumulated cl_universe cl_readers].
        -- rewrite Hun, resolved_snoc. split; [tauto|]. intros Hn Hr. apply Hn. split; [done|].
           intros l' Hl'. rewrite <- Hu, <- Hu0. by apply Hr.
        -- split; [exists l0; set_solver|]. rewrite resolved_snoc. intros [Hr _] r.
           rewrite reader_join_lub, Hj by done. set_solver.
    + split; cbn [fs_unresolved_input fs_accumulated].
      * rewrite Hun, resolved_snoc. split; [tauto|]. intros Hn Hr. apply Hn. split; [done|].
        intros l' Hl'. by destruct (Hacc l').
      * split; [exists l; set_solver|]. intros _ r. set_solver.
  - split; cbn [fs_unresolved_input fs_accumulated mark_unknown].
    + split; [intros _; apply resolved_snoc_unknown|done].
    + destruct (fs_accumulated s) as [acc|].
      * destruct Hacc as ((l0 & Hl0 & Hu0) & Hj).
        split; [exists l0; set_solver|]. by intros ?%resolved_snoc_unknown.
      * intros l. specialize (Hacc l). set_solver.
Qed.

Lemma run_summarises inputs : summarises inputs (run inputs).
Proof.
  unfold run. induction inputs as [|i inputs IH] using rev_ind.
  - split; cbn; [|set_solver]. split; [done|]. intros Hn. destruct Hn. split; set_solver.
  - rewrite foldl_app. by apply summarises_step.
Qed.
(** Which answer a computation gets, by its inputs alone. *)
Definition egress_spec (inputs : list Input) (d : ConfidentialityLabel)
    (r : result () EgressError) : Prop :=
  match r with
  | Ok _ => (Unknown ∉ inputs) /\ forall l, Labeled l ∈ inputs -> can_flow_to l d = true
  | Err UnresolvedInput => ~ resolved inputs
  | Err DestinationUniverseMismatch =>
      resolved inputs /\ exists l, Labeled l ∈ inputs /\ cl_universe l <> cl_universe d
  | Err DestinationWidensReaders =>
      resolved inputs /\
      (forall l, Labeled l ∈ inputs -> cl_universe l = cl_universe d) /\
      exists l, Labeled l ∈ inputs /\ reader_can_flow_to (cl_readers l) (cl_readers d) = false
  end.

Lemma flow_fails_somewhere (inputs : list Input) r :
  ~ (forall l, Labeled l ∈ inputs -> reader_can_flow_to (cl_readers l) r = true) ->
  exists l, Labeled l ∈ inputs /\ reader_can_flow_to (cl_readers l) r = false.
Proof.
  induction inputs as [|[l|] inputs IH]; intros Hn.
  - destruct Hn. set_solver.
  - destruct (reader_can_flow_to (cl_readers l) r) eqn:E; [|exists l; set_solver].
    destruct IH as (l' & ? & ?); [|exists l'; set_solver].
    intros Hall. apply Hn. intros l' [[= ->]|?]%elem_of_cons; auto.
  - destruct IH as (l' & ? & ?); [|exists l'; set_solver].
    intros Hall. apply Hn. intros l' [?|?]%elem_of_cons; [done|auto].
Qed.

Lemma check_egress_meets_spec inputs d : egress_spec inputs d (check_egress (run inputs) d).
Proof.
  unfold check_egress. destruct (run_summarises inputs) as [Hun Hacc].
  destruct (fs_unresolved_input (run inputs)); [by apply Hun|].
  assert (~ ~ resolved inputs) as Hnn by (intros Hn; by apply Hun in Hn).
  assert (resolved inputs) as Hr.
  { split.
    - intros Hu. apply Hnn. intros [? _]. done.
    - intros l l' ? ?. destruct (decide (cl_universe l = cl_universe l')); [done|].
      destruct Hnn. intros [_ Hc]. auto. }
  clear Hun Hnn.
  destruct (fs_accumulated (run inputs)) as [acc|]; cbn [egress_spec].
  2: { split; [apply Hr|]. intros l Hl. by destruct (Hacc l). }
  destruct Hacc as ((l0 & Hl0 & Hu0) & Hj). specialize (Hj Hr).
  case_bool_decide as Hne; cbn [egress_spec].
  { split; [done|]. exists l0. split; [done|congruence]. }
  assert (cl_universe acc = cl_universe d) as Hud
    by (destruct (decide (cl_universe acc = cl_universe d)); tauto).
  assert (forall l, Labeled l ∈ inputs -> cl_universe l = cl_universe d) as Hall.
  { intros l Hl. rewrite <- Hud, <- Hu0. by apply Hr. }
  destruct (reader_can_flow_to (cl_readers acc) (cl_readers d)) eqn:E; cbn.
  - split; [apply Hr|]. intros l Hl. apply can_flow_to_spec. split; [auto|].
    by apply (proj1 (Hj _) E).
  - split_and!; try done. apply flow_fails_somewhere. intros Hf.
    apply Hj in Hf. congruence.
Qed.

Lemma resolved_of_flows (inputs : list Input) d :
  (Unknown ∉ inputs) -> (forall l, Labeled l ∈ inputs -> can_flow_to l d = true) -> resolved inputs.
Proof.
  intros Hu Hf. split; [done|]. intros l l' Hl Hl'.
  apply Hf, can_flow_to_spec in Hl, Hl'. destruct Hl, Hl'. congruence.
Qed.

Lemma egress_spec_unique inputs d r r' : egress_spec inputs d r -> egress_spec inputs d r' -> r = r'.
Proof.
  assert (forall e, egress_spec inputs d (Ok ()) -> egress_spec inputs d (Err e) -> False) as Hex.
  { intros e [Hu Hf]. pose proof (resolved_of_flows inputs d Hu Hf) as Hr.
    destruct e; cbn; [tauto| |].
    - intros (_ & l & Hl & Hne). apply Hf, can_flow_to_spec in Hl as [? _]. done.
    - intros (_ & _ & l & Hl & Hne). apply Hf, can_flow_to_spec in Hl as [_ Hl]. congruence. }
  destruct r as [[]|e], r' as [[]|e']; intros H1 H2; try (by exfalso; eauto).
  - done.
  - f_equal. destruct e, e'; cbn in *; try done; try tauto.
    + destruct H1 as (_ & l & Hl & Hne), H2 as (_ & Hall & _). by destruct (Hne (Hall l Hl)).
    + destruct H2 as (_ & l & Hl & Hne), H1 as (_ & Hall & _). by destruct (Hne (Hall l Hl)).
Qed.

Lemma resolved_ext (inputs inputs' : list Input) :
  (forall i, i ∈ inputs <-> i ∈ inputs') -> resolved inputs -> resolved inputs'.
Proof. intros Heq [Hu Hc]. split; [by rewrite <- Heq|]. intros l l'. rewrite <- !Heq. auto. Qed.

Lemma egress_spec_ext (inputs inputs' : list Input) d r :
  (forall i, i ∈ inputs <-> i ∈ inputs') -> egress_spec inputs d r -> egress_spec inputs' d r.
Proof.
  intros Heq. assert (forall i, i ∈ inputs' <-> i ∈ inputs) as Heq' by (intros; by rewrite Heq).
  destruct r as [?|[]]; cbn.
  - by setoid_rewrite Heq'.
  - intros Hn Hr. apply Hn. by eapply resolved_ext.
  - intros [Hr ?]. setoid_rewrite Heq'. split; [by eapply resolved_ext|done].
  - intros [Hr ?]. setoid_rewrite Heq'. split; [by eapply resolved_ext|done].
Qed.

(** * Properties *)

(** the reader sets form a lattice under the flow relation: it is a partial
    order in which everyone-may-read is least, [join] is the least upper bound
    and [meet] the greatest lower bound. *)
Theorem reader_sets_form_lattice (a b c : ReaderSet) :
  reader_can_flow_to Everyone a = true /\
  reader_can_flow_to a a = true /\
  (reader_can_flow_to a b = true -> reader_can_flow_to b c = true -> reader_can_flow_to a c = true) /\
  (reader_can_flow_to a b = true -> reader_can_flow_to b a = true -> a = b) /\
  (reader_can_flow_to (reader_join a b) c = true <->
   reader_can_flow_to a c = true /\ reader_can_flow_to b c = true) /\
  (reader_can_flow_to c (reader_meet a b) = true <->
   reader_can_flow_to c a = true /\ reader_can_flow_to c b = true).
Proof.
  split_and!; [done|apply reader_flow_refl|apply reader_flow_trans|apply reader_flow_antisym|
    apply reader_join_lub|apply reader_meet_glb].
Qed.

(** after any sequence of inputs the egress check gives exactly the answer
    the inputs call for: it permits the destination when and only when no input
    was unknown and every observed label may flow there, and otherwise its error
    names the right reason (unresolved or mixed-universe input, a destination in
    another universe, or one that adds a reader). *)
Theorem egress_correct inputs d r :
  check_egress (run inputs) d = r <-> egress_spec inputs d r.
Proof.
  split; [intros <-; apply check_egress_meets_spec|].
  intros Hr. eapply egress_spec_unique; [apply check_egress_meets_spec|done].
Qed.

(** No information leak: when egress is permitted, whoever may read the
    destination may read every input of the computation; an input can never be
    undone by later inputs, and neither the order nor the repetition of inputs
    changes the answer. *)
Theorem egress_never_leaks inputs d :
  (check_egress (run inputs) d = Ok () ->
   forall u p l, Labeled l ∈ inputs -> may_read u p d -> may_read u p l) /\
  (forall later, check_egress (run (inputs ++ later)) d = Ok () ->
     check_egress (run inputs) d = Ok ()) /\
  (forall inputs', (forall i, i ∈ inputs <-> i ∈ inputs') ->
     check_egress (run inputs) d = check_egress (run inputs') d).
Proof.
  split_and!.
  - intros Hok u p l Hl [Hu Hp]. pose proof (check_egress_meets_spec inputs d) as Hs.
    rewrite Hok in Hs. destruct Hs as [_ Hf].
    apply Hf, can_flow_to_spec in Hl as [Hul Hfl]. split; [congruence|].
    destruct (cl_readers l), (cl_readers d); cbn in *; try done.
    apply bool_decide_eq_true in Hfl. by apply Hfl.
  - intros later Hok. pose proof (check_egress_meets_spec (inputs ++ later) d) as Hs.
    rewrite Hok in Hs. destruct Hs as [Hu Hf].
    eapply egress_spec_unique; [apply check_egress_meets_spec|].
    split; [set_solver|]. intros l Hl. apply Hf. set_solver.
  - intros inputs' Heq. eapply egress_spec_unique; [|apply check_egress_meets_spec].
    eapply egress_spec_ext; [exact Heq|apply check_egress_meets_spec].
Qed.
End model.

Arguments ReaderSet Principal {_ _}.
Arguments ConfidentialityLabel Universe Principal {_ _}.
Arguments FlowState Universe Principal {_ _}.
Arguments Input Universe Principal {_ _}.

(** ** A concrete computation *)

Example observed_then_narrowed :
  let private := mkLabel (Universe := string) "example" (Only {[1%N; 2%N]}) in
  check_egress (run [Labeled private]) (restricted_to "example" 1%N) = Ok () /\
  check_egress (run [Labeled private]) (public "example") = Err DestinationWidensReaders /\
  check_egress (run [Labeled private; Labeled (public "other")]) (restricted_to "example" 1%N)
  = Err UnresolvedInput.
Proof. vm_compute. done. Qed.
