(* ===== verification/Thread.v ===== *)
(** NIP-10 threads and conversation identities: buzz-core/src/nip10.rs, the
    thread tags of buzz-acp/src/queue.rs and buzz-acp/src/conversation.rs. *)

From S2P Require Import Prelude Nostr.

(** ** Thread markers *)

Record ThreadMarkers := mkThreadMarkers {
  tm_root : option string;
  tm_reply : option string;
}.

Definition resolve (m : ThreadMarkers) : option (string * string) :=
  match tm_root m, tm_reply m with
  | Some root, Some reply => Some (root, reply)
  | None, Some reply => Some (reply, reply)
  | Some _, None | None, None => None
  end.

Definition is_event_id_hex (id : string) : bool :=
  (String.length id =? 64) && all_chars is_ascii_hexdigit id.

(** The loop body of the parser. *)
Definition marker_step (markers : ThreadMarkers) (parts : Tag) : ThreadMarkers :=
  match parts with
  | name :: id :: _ :: marker :: _ =>
      if String.eqb name "e" && is_event_id_hex id then
        if String.eqb marker "root" then mkThreadMarkers (Some id) (tm_reply markers)
        else if String.eqb marker "reply" then mkThreadMarkers (tm_root markers) (Some id)
        else markers
      else markers
  | _ => markers
  end.

Definition parse_thread_markers_from_parts (tags : list Tag) : ThreadMarkers :=
  foldl marker_step (mkThreadMarkers None None) tags.

Definition parse_thread_markers (tags : list Tag) : ThreadMarkers :=
  parse_thread_markers_from_parts tags.

Record ThreadTags := mkThreadTags {
  root_event_id : option string;
  parent_event_id : option string;
  mentioned_pubkeys : list string;
}.

Definition parse_thread_tags (event : Event) : ThreadTags :=
  let markers := parse_thread_markers (ev_tags event) in
  let '(root, parent) :=
    match resolve markers with
    | Some (root, parent) => (Some root, Some parent)
    | None => (None, None)
    end in
  let mentions := omap (fun parts : Tag =>
    match parts with
    | name :: value :: _ => if String.eqb name "p" then Some value else None
    | _ => None
    end) (ev_tags event) in
  mkThreadTags root parent mentions.

(** ** Conversations *)

(** The functions of [sha2] and [uuid] that identities are derived with. *)
Class ConversationLib := {
  conversation_uuid :: UuidLib;
  (** [Sha256] of the concatenated updates *)
  sha256 : string -> string;
  (** [Uuid::as_bytes] and [Uuid::from_bytes] *)
  uuid_as_bytes : Uuid -> string;
  uuid_from_bytes : string -> Uuid;
}.

(** Documented behaviour: a UUID is its 16 bytes. *)
Class ConversationLaws `{ConversationLib} : Prop := {
  uuid_bytes_length : forall u, String.length (uuid_as_bytes u) = 16;
  uuid_bytes_inj : forall u v,
    (u < 2 ^ 128)%N -> (v < 2 ^ 128)%N -> uuid_as_bytes u = uuid_as_bytes v -> u = v;
}.

(** [&hash[..16]]. *)
Definition first_16 (hash : string) : string := String.substring 0 16 hash.

Definition deterministic_input `{ConversationLib} (channel_id : Uuid) (root : string) : string :=
  "buzz-acp-conversation-v1" +:+ uuid_as_bytes channel_id +:+ root.

Definition deterministic_id `{ConversationLib} (channel_id : Uuid) (root : string) : Uuid :=
  uuid_from_bytes (first_16 (sha256 (deterministic_input channel_id root))).

Definition id_for_event `{NostrLib, ConversationLib} (channel_id : Uuid) (event : Event)
    (is_dm : bool) : Uuid :=
  if is_dm then channel_id
  else
    let root := default (event_id_to_hex (ev_id event)) (root_event_id (parse_thread_tags event)) in
    deterministic_id channel_id root.

(** [find_map] over the tags: the first [h] tag whose value is a UUID. *)
Definition h_tag_uuid `{UuidLib} (parts : Tag) : option Uuid :=
  match parts with
  | name :: rest =>
      if String.eqb name "h" then
        match rest with value :: _ => uuid_parse_str value | [] => None end
      else None
  | [] => None
  end.

Fixpoint find_map {A B} (f : A -> option B) (l : list A) : option B :=
  match l with
  | [] => None
  | x :: l' => match f x with Some y => Some y | None => find_map f l' end
  end.

Definition routing_channel_id `{UuidLib} (event : Event) : option Uuid :=
  find_map h_tag_uuid (ev_tags event).

(** ** Specification *)

(** [parts] is a well-formed marker of the given kind naming [id]. *)
Definition is_marker (kind : string) (id : string) (parts : Tag) : Prop :=
  exists relay rest, parts = "e" :: id :: relay :: kind :: rest /\ is_event_id_hex id = true.

(** [id] is the last well-formed marker of that kind. *)
Definition last_marker (kind : string) (tags : list Tag) (o : option string) : Prop :=
  match o with
  | Some id => exists before parts after, tags = before ++ parts :: after /\
      is_marker kind id parts /\ forall id' parts', parts' ∈ after -> ~ is_marker kind id' parts'
  | None => forall id parts, parts ∈ tags -> ~ is_marker kind id parts
  end.

(** ** Lemmas *)

Lemma last_marker_keep kind tags parts o :
  (forall id, ~ is_marker kind id parts) -> last_marker kind tags o ->
  last_marker kind (tags ++ [parts]) o.
Proof.
  intros Hn. destruct o as [id|]; cbn.
  - intros (b & p & a & -> & Hm & Ha). exists b, p, (a ++ [parts]).
    rewrite <- app_assoc. split_and!; [done|done|].
    intros id' p' [?|Hp%list_elem_of_singleton]%elem_of_app; [eauto|by subst p'].
  - intros Ha id p [?|Hp%list_elem_of_singleton]%elem_of_app; [eauto|by subst p].
Qed.

Lemma last_marker_new kind tags parts id :
  is_marker kind id parts -> last_marker kind (tags ++ [parts]) (Some id).
Proof. intros Hm. exists tags, parts, []. split_and!; [done|done|set_solver]. Qed.

Lemma marker_step_cases m parts :
  (exists id, is_marker "root" id parts /\ marker_step m parts = mkThreadMarkers (Some id) (tm_reply m)) \/
  (exists id, is_marker "reply" id parts /\ marker_step m parts = mkThreadMarkers (tm_root m) (Some id)) \/
  ((forall k id, k = "root" \/ k = "reply" -> ~ is_marker k id parts) /\ marker_step m parts = m).
Proof.
  destruct parts as [|name [|id [|relay [|marker rest]]]];
    try (right; right; split; [intros k i _ (? & ? & ? & _); done|done]).
  cbn [marker_step].
  destruct (String.eqb_spec name "e") as [->|Hne]; cbn [andb].
  2: { right; right. split; [|done]. intros k i _ (? & ? & Heq & _). congruence. }
  destruct (is_event_id_hex id) eqn:Hid.
  2: { right; right. split; [|done]. intros k i _ (? & ? & Heq & ?). congruence. }
  destruct (String.eqb_spec marker "root") as [->|].
  { left. exists id. split; [|done]. by exists relay, rest. }
  destruct (String.eqb_spec marker "reply") as [->|].
  { right; left. exists id. split; [|done]. by exists relay, rest. }
  right; right. split; [|done]. intros k i [-> | ->] (? & ? & Heq & _); congruence.
Qed.

Lemma is_marker_kind k k' id id' parts : is_marker k id parts -> is_marker k' id' parts -> k = k'.
Proof. intros (? & ? & -> & _) (? & ? & Heq & _). congruence. Qed.

Lemma parse_thread_markers_spec tags :
  last_marker "root" tags (tm_root (parse_thread_markers tags)) /\
  last_marker "reply" tags (tm_reply (parse_thread_markers tags)).
Proof.
  unfold parse_thread_markers, parse_thread_markers_from_parts.
  induction tags as [|parts tags [IHroot IHreply]] using rev_ind; [cbn; set_solver|].
  rewrite foldl_app. cbn [foldl]. set (m := foldl _ _ _) in *.
  destruct (marker_step_cases m parts) as [(id & Hm & ->)|[(id & Hm & ->)|[Hno ->]]]; cbn.
  - split; [by apply last_marker_new|]. apply last_marker_keep; [|done].
    intros id' Hm'. by pose proof (is_marker_kind _ _ _ _ _ Hm Hm').
  - split; [|by apply last_marker_new]. apply last_marker_keep; [|done].
    intros id' Hm'. by pose proof (is_marker_kind _ _ _ _ _ Hm Hm').
  - split; apply last_marker_keep; auto.
Qed.

Lemma find_map_spec {A B} (f : A -> option B) l y :
  find_map f l = Some y <->
  exists b x a, l = b ++ x :: a /\ f x = Some y /\ forall z, z ∈ b -> f z = None.
Proof.
  split.
  - induction l as [|x l IH]; [done|]. cbn. destruct (f x) as [y'|] eqn:E.
    + intros [= ->]. exists [], x, l. split_and!; [done|done|set_solver].
    + intros (b & x' & a & -> & Hf & Hn)%IH. exists (x :: b), x', a. split_and!; [done|done|].
      intros z [->|?]%elem_of_cons; auto.
  - intros (b & x & a & -> & Hf & Hn). induction b as [|z b IH]; cbn; [by rewrite Hf|].
    rewrite Hn by set_solver. apply IH. intros; apply Hn; set_solver.
Qed.

(** The event a message's thread is rooted at: its resolved root, or itself. *)
Definition thread_root `{NostrLib} (event : Event) : string :=
  default (event_id_to_hex (ev_id event)) (root_event_id (parse_thread_tags event)).

(** * Properties *)

(** thread ancestry: an event is a reply exactly when it carries a
    well-formed [reply] marker (an [e] tag of 64 hexadecimal digits); its parent
    is then the last such marker, and its root the last well-formed [root]
    marker or, without one, the parent itself.  Malformed markers and lone
    [root] markers never make a reply. *)
Theorem thread_tags_correct event :
  let t := parse_thread_tags event in
  last_marker "reply" (ev_tags event) (parent_event_id t) /\
  match parent_event_id t with
  | None => root_event_id t = None
  | Some parent =>
      last_marker "root" (ev_tags event) (root_event_id t) \/
      (last_marker "root" (ev_tags event) None /\ root_event_id t = Some parent)
  end.
Proof.
  unfold parse_thread_tags, resolve. cbv zeta.
  destruct (parse_thread_markers_spec (ev_tags event)) as [Hroot Hreply].
  destruct (tm_root (parse_thread_markers (ev_tags event))) as [root|],
    (tm_reply (parse_thread_markers (ev_tags event))) as [reply|]; cbn -[last_marker]; auto.
Qed.

(** The channel an event is routed to is the first [h] tag that parses as a
    UUID: unparseable [h] tags before it are skipped, later ones ignored. *)
Lemma routing_channel_first_valid `{UuidLib} event channel :
  routing_channel_id event = Some channel <->
  exists before value rest after,
    ev_tags event = before ++ ("h" :: value :: rest) :: after /\
    uuid_parse_str value = Some channel /\
    forall v r, "h" :: v :: r ∈ before -> uuid_parse_str v = None.
Proof.
  unfold routing_channel_id. rewrite find_map_spec. split.
  - intros (b & x & a & -> & Hx & Hn). destruct x as [|name [|value rest]]; cbn in Hx; [done|..];
      destruct (String.eqb_spec name "h") as [->|]; try done.
    exists b, value, rest, a. split_and!; [done|done|]. intros v r Hv. apply (Hn _ Hv).
  - intros (b & value & rest & a & -> & Hv & Hn). exists b, ("h" :: value :: rest), a.
    split_and!; [done|done|]. intros [|name [|v r]] Hz; cbn; [done|..];
      destruct (String.eqb_spec name "h") as [->|]; try done. by eapply Hn.
Qed.

Section conversation_claims.
Context `{NostrLib, ConversationLaws}.

(** conversation identities partition channel traffic by thread: messages
    of one channel with the same thread root get the same identity, and two
    messages with the same identity agree on channel and root unless the
    truncated digest collides on their inputs; a direct message keeps its
    channel as identity. *)
Theorem conversation_identity channel1 channel2 e1 e2 :
  (channel1 < 2 ^ 128)%N -> (channel2 < 2 ^ 128)%N ->
  (channel1 = channel2 /\ thread_root e1 = thread_root e2 ->
   id_for_event channel1 e1 false = id_for_event channel2 e2 false) /\
  (no_collision (fun m => uuid_from_bytes (first_16 (sha256 m)))
     (deterministic_input channel1 (thread_root e1)) (deterministic_input channel2 (thread_root e2)) ->
   id_for_event channel1 e1 false = id_for_event channel2 e2 false ->
   channel1 = channel2 /\ thread_root e1 = thread_root e2) /\
  id_for_event channel1 e1 true = channel1.
Proof.
  intros Hc1 Hc2.
  unfold id_for_event, deterministic_id. fold (thread_root e1) (thread_root e2). split_and!.
  - by intros [-> ->].
  - intros Hnc E%Hnc. unfold deterministic_input in E.
    apply app_inj_length in E as [_ E]; [|done].
    apply app_inj_length in E as [Ec Er]; [|by rewrite !uuid_bytes_length].
    by apply uuid_bytes_inj in Ec.
  - done.
Qed.
End conversation_claims.

(** ** Witnesses *)

Module SampleConversation.
(** The digest is its input, a UUID its 16 base-256 digits. *)
Fixpoint bytes (n : nat) (u : N) : string :=
  match n with
  | O => ""
  | S n' => String (ascii_of_N (u mod 256)) (bytes n' (u / 256))
  end.

Lemma bytes_length n u : String.length (bytes n u) = n.
Proof. revert u. induction n; intros; cbn; auto. Qed.

Lemma bytes_inj n u v :
  (u < 256 ^ N.of_nat n)%N -> (v < 256 ^ N.of_nat n)%N -> bytes n u = bytes n v -> u = v.
Proof.
  revert u v. induction n as [|n IH]; intros u v Hu Hv Heq.
  - change (256 ^ N.of_nat 0)%N with 1%N in *. lia.
  - rewrite Nat2N.inj_succ, N.pow_succ_r' in Hu, Hv. cbn in Heq. injection Heq as Hm Hd.
    apply IH in Hd; [|by apply N.Div0.div_lt_upper_bound..].
    apply (f_equal N_of_ascii) in Hm.
    rewrite !N_ascii_embedding in Hm by (apply N.mod_lt; lia).
    rewrite (N.div_mod u 256), (N.div_mod v 256) by lia. congruence.
Qed.

#[export] Instance lib : ConversationLib := {|
  conversation_uuid := {| uuid_parse_str := fun s => Some (N.of_nat (String.length s)) |};
  sha256 := fun m => m;
  uuid_as_bytes := bytes 16;
  uuid_from_bytes := fun s => N.of_nat (String.length s);
|}.

#[export] Instance laws : ConversationLaws.
Proof. split; [intros u; apply bytes_length|]. intros u v. apply (bytes_inj 16). Qed.

Definition root_message : Event := mkEvent 5 2 3 9 [["h"; "abc"]] "hello".
Definition reply_message : Event :=
  mkEvent 6 2 4 9 [["e"; "bad"; ""; "reply"]; ["h"; "abc"]] "not a reply".
End SampleConversation.

Import Sample SampleConversation.

Lemma conversation_identity_witness :
  (3 < 2 ^ 128)%N /\
  (3%N = 3%N /\ thread_root root_message = thread_root root_message).
Proof. split; [lia|]. apply (conversation_identity 3 3 root_message root_message); done. Defined.

Example malformed_reply_is_top_level :
  parse_thread_tags reply_message = mkThreadTags None None [].
Proof. reflexivity. Qed.
