(* ===== verification/Queue.v ===== *)
(** The event queue of the agent harness, buzz-acp/src/queue.rs (lines 1 to
    1180) with its routing cap, queue-routing-cap.rs.

    [Instant] and [Duration] are nanoseconds; every call of [Instant::now] is an
    argument.  The iteration order of a [HashMap] or [HashSet] is unspecified:
    it is the class [HashOrder], any enumeration of the entries, and each
    operation may meet a different one.  Logging is left out. *)

From S2P Require Import Prelude Binary64 Nostr Thread.

Abbreviation Instant := N (only parsing).
Abbreviation Duration := N (only parsing).

(** One enumeration of every map and set. *)
Class HashOrder := {
  iter : forall {A}, gmap N A -> list (N * A);
  iter_perm : forall A (m : gmap N A), iter m ≡ₚ map_to_list m;
  iter_set : gset N -> list N;
  iter_set_perm : forall X : gset N, iter_set X ≡ₚ elements X;
}.

(** ** Constants *)

Definition MAX_PENDING_PER_CHANNEL : nat := 500.
Definition MAX_BATCH_EVENTS : nat := 50.
Definition MAX_RETRIES : N := 10.
Definition BASE_RETRY_DELAY_SECS : N := 5.
Definition MAX_RETRY_DELAY_SECS : N := 300.
Definition IN_FLIGHT_DEADLINE_BUFFER_SECS : N := 100.
Definition DEFAULT_IN_FLIGHT_DEADLINE_SECS : N := 7300.

(** [Duration::from_secs]. *)
Definition NANOS : N := 1000000000.
Definition from_secs (n : N) : Duration := (n * NANOS)%N.

(** ** Data *)

(** config.rs: what happens to events for a channel in flight. *)
Inductive DedupMode := Drop | Queue.

Record QueuedEvent := mkQueuedEvent {
  qe_channel_id : Uuid;
  qe_event : Event;
  qe_received_at : Instant;
  qe_prompt_tag : string;
  qe_edited_content : option string;
  qe_hold_exempt : bool;
}.

Record BatchEvent := mkBatchEvent {
  be_event : Event;
  be_prompt_tag : string;
  be_received_at : Instant;
  be_edited_content : option string;
}.

Inductive CancelReason := Interrupt | Steer.

Record FlushBatch := mkFlushBatch {
  fb_channel_id : Uuid;
  fb_events : list BatchEvent;
  fb_cancelled_events : list BatchEvent;
  fb_cancel_reason : option CancelReason;
}.

(** [FlushBatch::routing_channel_id]. *)
Definition fb_routing_channel_id `{UuidLib} (b : FlushBatch) : Uuid :=
  let last_event := match last (fb_events b) with
                    | Some e => Some e
                    | None => last (fb_cancelled_events b)
                    end in
  default (fb_channel_id b) (last_event ≫= fun e => routing_channel_id (be_event e)).

Record EventQueue := mkEventQueue {
  queues : gmap Uuid (list QueuedEvent);
  in_flight_channels : gset Uuid;
  in_flight_deadlines : gmap Uuid Instant;
  in_flight_batch_sizes : gmap Uuid nat;
  in_flight_event_ids : gmap Uuid (gset EventId);
  retry_after : gmap Uuid Instant;
  retry_counts : gmap Uuid N;
  busy_notice_sent : gset Uuid;
  dedup_mode : DedupMode;
  cancelled_batches : gmap Uuid (list BatchEvent);
  cancel_reasons : gmap Uuid CancelReason;
  withheld_native_steer : gmap Uuid (list QueuedEvent);
  in_flight_deadline : Duration;
  dispatch_hold : Duration;
}.

(** Assignment to one field. *)
Definition set_queues (x : gmap Uuid (list QueuedEvent)) (s : EventQueue) : EventQueue :=
  mkEventQueue x (in_flight_channels s) (in_flight_deadlines s) (in_flight_batch_sizes s)
    (in_flight_event_ids s) (retry_after s) (retry_counts s) (busy_notice_sent s) (dedup_mode s)
    (cancelled_batches s) (cancel_reasons s) (withheld_native_steer s) (in_flight_deadline s)
    (dispatch_hold s).
Definition set_in_flight_channels (x : gset Uuid) (s : EventQueue) : EventQueue :=
  mkEventQueue (queues s) x (in_flight_deadlines s) (in_flight_batch_sizes s)
    (in_flight_event_ids s) (retry_after s) (retry_counts s) (busy_notice_sent s) (dedup_mode s)
    (cancelled_batches s) (cancel_reasons s) (withheld_native_steer s) (in_flight_deadline s)
    (dispatch_hold s).
Definition set_in_flight_deadlines (x : gmap Uuid Instant) (s : EventQueue) : EventQueue :=
  mkEventQueue (queues s) (in_flight_channels s) x (in_flight_batch_sizes s)
    (in_flight_event_ids s) (retry_after s) (retry_counts s) (busy_notice_sent s) (dedup_mode s)
    (cancelled_batches s) (cancel_reasons s) (withheld_native_steer s) (in_flight_deadline s)
    (dispatch_hold s).
Definition set_in_flight_batch_sizes (x : gmap Uuid nat) (s : EventQueue) : EventQueue :=
  mkEventQueue (queues s) (in_flight_channels s) (in_flight_deadlines s) x
    (in_flight_event_ids s) (retry_after s) (retry_counts s) (busy_notice_sent s) (dedup_mode s)
    (cancelled_batches s) (cancel_reasons s) (withheld_native_steer s) (in_flight_deadline s)
    (dispatch_hold s).
Definition set_in_flight_event_ids (x : gmap Uuid (gset EventId)) (s : EventQueue) : EventQueue :=
  mkEventQueue (queues s) (in_flight_channels s) (in_flight_deadlines s)
    (in_flight_batch_sizes s) x (retry_after s) (retry_counts s) (busy_notice_sent s)
    (dedup_mode s) (cancelled_batches s) (cancel_reasons s) (withheld_native_steer s)
    (in_flight_deadline s) (dispatch_hold s).
Definition set_retry_after (x : gmap Uuid Instant) (s : EventQueue) : EventQueue :=
  mkEventQueue (queues s) (in_flight_channels s) (in_flight_deadlines s)
    (in_flight_batch_sizes s) (in_flight_event_ids s) x (retry_counts s) (busy_notice_sent s)
    (dedup_mode s) (cancelled_batches s) (cancel_reasons s) (withheld_native_steer s)
    (in_flight_deadline s) (dispatch_hold s).
Definition set_retry_counts (x : gmap Uuid N) (s : EventQueue) : EventQueue :=
  mkEventQueue (queues s) (in_flight_channels s) (in_flight_deadlines s)
    (in_flight_batch_sizes s) (in_flight_event_ids s) (retry_after s) x (busy_notice_sent s)
    (dedup_mode s) (cancelled_batches s) (cancel_reasons s) (withheld_native_steer s)
    (in_flight_deadline s) (dispatch_hold s).
Definition set_busy_notice_sent (x : gset Uuid) (s : EventQueue) : EventQueue :=
  mkEventQueue (queues s) (in_flight_channels s) (in_flight_deadlines s)
    (in_flight_batch_sizes s) (in_flight_event_ids s) (retry_after s) (retry_counts s) x
    (dedup_mode s) (cancelled_batches s) (cancel_reasons s) (withheld_native_steer s)
    (in_flight_deadline s) (dispatch_hold s).
Definition set_cancelled_batches (x : gmap Uuid (list BatchEvent)) (s : EventQueue) : EventQueue :=
  mkEventQueue (queues s) (in_flight_channels s) (in_flight_deadlines s)
    (in_flight_batch_sizes s) (in_flight_event_ids s) (retry_after s) (retry_counts s)
    (busy_notice_sent s) (dedup_mode s) x (cancel_reasons s) (withheld_native_steer s)
    (in_flight_deadline s) (dispatch_hold s).
Definition set_cancel_reasons (x : gmap Uuid CancelReason) (s : EventQueue) : EventQueue :=
  mkEventQueue (queues s) (in_flight_channels s) (in_flight_deadlines s)
    (in_flight_batch_sizes s) (in_flight_event_ids s) (retry_after s) (retry_counts s)
    (busy_notice_sent s) (dedup_mode s) (cancelled_batches s) x (withheld_native_steer s)
    (in_flight_deadline s) (dispatch_hold s).
Definition set_withheld_native_steer (x : gmap Uuid (list QueuedEvent)) (s : EventQueue) : EventQueue :=
  mkEventQueue (queues s) (in_flight_channels s) (in_flight_deadlines s)
    (in_flight_batch_sizes s) (in_flight_event_ids s) (retry_after s) (retry_counts s)
    (busy_notice_sent s) (dedup_mode s) (cancelled_batches s) (cancel_reasons s) x
    (in_flight_deadline s) (dispatch_hold s).
Definition set_in_flight_deadline (x : Duration) (s : EventQueue) : EventQueue :=
  mkEventQueue (queues s) (in_flight_channels s) (in_flight_deadlines s)
    (in_flight_batch_sizes s) (in_flight_event_ids s) (retry_after s) (retry_counts s)
    (busy_notice_sent s) (dedup_mode s) (cancelled_batches s) (cancel_reasons s)
    (withheld_native_steer s) x (dispatch_hold s).
Definition set_dispatch_hold (x : Duration) (s : EventQueue) : EventQueue :=
  mkEventQueue (queues s) (in_flight_channels s) (in_flight_deadlines s)
    (in_flight_batch_sizes s) (in_flight_event_ids s) (retry_after s) (retry_counts s)
    (busy_notice_sent s) (dedup_mode s) (cancelled_batches s) (cancel_reasons s)
    (withheld_native_steer s) (in_flight_deadline s) x.

(** [EventQueue::new]. *)
Definition EventQueue_new (mode : DedupMode) : EventQueue :=
  mkEventQueue ∅ ∅ ∅ ∅ ∅ ∅ ∅ ∅ mode ∅ ∅ ∅ (from_secs DEFAULT_IN_FLIGHT_DEADLINE_SECS) 0.

Definition with_in_flight_deadline (max_turn_duration_secs : N) (s : EventQueue) : EventQueue :=
  set_in_flight_deadline (from_secs (max_turn_duration_secs + IN_FLIGHT_DEADLINE_BUFFER_SECS)) s.

Definition with_dispatch_hold (hold : Duration) (s : EventQueue) : EventQueue :=
  set_dispatch_hold hold s.

(** ** Shared pieces *)

(** [while queue.len() > MAX_PENDING_PER_CHANNEL { queue.pop_back() }]. *)
Definition trim_back (q : list QueuedEvent) : list QueuedEvent := take MAX_PENDING_PER_CHANNEL q.

(** The conversion of a drained event, and of one put back. *)
Definition to_batch_event (qe : QueuedEvent) : BatchEvent :=
  mkBatchEvent (qe_event qe) (qe_prompt_tag qe) (qe_received_at qe) (qe_edited_content qe).
Definition to_queued_event (channel_id : Uuid) (be : BatchEvent) : QueuedEvent :=
  mkQueuedEvent channel_id (be_event be) (be_received_at be) (be_prompt_tag be)
    (be_edited_content be) true.

(** [for x in xs.into_iter().rev() { queue.push_front(x) }]. *)
Definition push_front_all (xs queue : list QueuedEvent) : list QueuedEvent :=
  foldl (fun q x => x :: q) queue (rev xs).

Definition head_past_dispatch_hold (head : QueuedEvent) (hold : Duration) (now : Instant) : bool :=
  qe_hold_exempt head || (hold =? 0)%N || (qe_received_at head + hold <=? now)%N.

(** [self.retry_after.get(id).is_none_or(|&t| t <= now)]. *)
Definition not_throttled (now : Instant) (s : EventQueue) (id : Uuid) : bool :=
  match retry_after s !! id with None => true | Some t => (t <=? now)%N end.

(** Removing a list entry that has become empty. *)
Definition store_or_remove {A} (id : Uuid) (q : list A) (m : gmap Uuid (list A)) : gmap Uuid (list A) :=
  match q with [] => delete id m | _ => <[id := q]> m end.

(** ** The routing-channel cap *)

Section queue.
Context `{NostrLib, UuidLib, HashOrder}.

Definition queued_routing_channel (conversation : Uuid) (queue : list QueuedEvent) : Uuid :=
  default conversation (head queue ≫= fun e => routing_channel_id (qe_event e)).

(** The order of the candidates [(received_at, id)]. *)
Definition candidate_lt (a b : Instant * Uuid) : bool :=
  ((a.1 <? b.1) || ((a.1 =? b.1) && (a.2 <? b.2)))%N.

(** The body of the inner [for]: the total length and the oldest head of the
    queues routed to [channel]. *)
Definition cap_scan (channel : Uuid) (acc : nat * option (Instant * Uuid))
    (entry : Uuid * list QueuedEvent) : nat * option (Instant * Uuid) :=
  let '(total, oldest) := acc in
  let '(id, queue) := entry in
  if negb (queued_routing_channel id queue =? channel)%N then acc
  else
    (total + length queue,
     match head queue with
     | None => oldest
     | Some qe =>
         let candidate := (qe_received_at qe, id) in
         match oldest with
         | None => Some candidate
         | Some current => if candidate_lt candidate current then Some candidate else oldest
         end
     end).

(** The outer [loop]; every round removes one event, so the number of queued
    events is enough fuel (theorem [routing_cap_enforced]). *)
Fixpoint cap_loop (fuel : nat) (channel : Uuid) (qs : gmap Uuid (list QueuedEvent))
  : gmap Uuid (list QueuedEvent) :=
  match fuel with
  | O => qs
  | S fuel' =>
      let '(total, oldest) := foldl (cap_scan channel) (0, None) (iter qs) in
      if total <=? MAX_PENDING_PER_CHANNEL then qs
      else
        match oldest with
        | None => qs
        | Some (_, victim) =>
            match qs !! victim with
            | Some queue => cap_loop fuel' channel (store_or_remove victim (tail queue) qs)
            | None => cap_loop fuel' channel qs
            end
        end
  end.

Definition total_events (qs : gmap Uuid (list QueuedEvent)) : nat :=
  sum_list_with (fun e => length (snd e)) (map_to_list qs).

Definition enforce_routing_channel_cap (conversation : Uuid) (s : EventQueue) : EventQueue :=
  match queues s !! conversation with
  | None => s
  | Some queue =>
      let channel := queued_routing_channel conversation queue in
      set_queues (cap_loop (S (total_events (queues s))) channel (queues s)) s
  end.

(** ** Accepting events *)

Definition batch_ids (bs : list BatchEvent) : list EventId := map (fun b => ev_id (be_event b)) bs.
Definition queued_ids (qs : list QueuedEvent) : list EventId := map (fun q => ev_id (qe_event q)) qs.

Definition contains_event (channel_id : Uuid) (event_id : EventId) (s : EventQueue) : bool :=
  match queues s !! channel_id with
  | Some events => bool_decide (event_id ∈ queued_ids events) | None => false end
  || match in_flight_event_ids s !! channel_id with
     | Some ids => bool_decide (event_id ∈ ids) | None => false end
  || match cancelled_batches s !! channel_id with
     | Some events => bool_decide (event_id ∈ batch_ids events) | None => false end
  || match withheld_native_steer s !! channel_id with
     | Some events => bool_decide (event_id ∈ queued_ids events) | None => false end.

Definition push (event : QueuedEvent) (s : EventQueue) : EventQueue * bool :=
  let conversation_id := qe_channel_id event in
  if contains_event conversation_id (ev_id (qe_event event)) s then (s, false)
  else if match dedup_mode s with Drop => true | Queue => false end
          && bool_decide (conversation_id ∈ in_flight_channels s) then (s, false)
  else
    let queue := default [] (queues s !! conversation_id) in
    let queue := if MAX_PENDING_PER_CHANNEL <=? length queue then tail queue else queue in
    let s := set_queues (<[conversation_id := queue ++ [event]]> (queues s)) s in
    (enforce_routing_channel_cap conversation_id s, true).

(** ** Expiry *)

Definition recover_withheld_for_expired_channel (channel_id : Uuid) (s : EventQueue) : EventQueue :=
  match withheld_native_steer s !! channel_id with
  | None => s
  | Some entries =>
      let s := set_withheld_native_steer (delete channel_id (withheld_native_steer s)) s in
      let queue := default [] (queues s !! channel_id) in
      let queue := trim_back (push_front_all entries queue) in
      enforce_routing_channel_cap channel_id (set_queues (<[channel_id := queue]> (queues s)) s)
  end.

(** The ids whose deadline has passed, and the body of the expiry loop. *)
Definition expired_ids (now : Instant) (s : EventQueue) : list Uuid :=
  map fst (List.filter (fun e => (snd e <=? now)%N) (iter (in_flight_deadlines s))).

Definition expire_one (s : EventQueue) (id : Uuid) : EventQueue :=
  let s := set_in_flight_batch_sizes (delete id (in_flight_batch_sizes s)) s in
  let s := set_in_flight_channels (in_flight_channels s ∖ {[id]}) s in
  let s := set_in_flight_event_ids (delete id (in_flight_event_ids s)) s in
  let s := set_in_flight_deadlines (delete id (in_flight_deadlines s)) s in
  recover_withheld_for_expired_channel id s.

Definition expire (now : Instant) (s : EventQueue) : EventQueue :=
  foldl expire_one s (expired_ids now s).

(** ** Flushing *)

(** The filter of [flush_next] and [has_flushable_work]. *)
Definition eligible (now : Instant) (s : EventQueue) (entry : Uuid * list QueuedEvent) : bool :=
  let '(id, q) := entry in
  match q with
  | [] => false
  | qe :: _ =>
      bool_decide (id ∉ in_flight_channels s) && not_throttled now s id
      && head_past_dispatch_hold qe (dispatch_hold s) now
  end.

(** [q.front().unwrap().received_at]; the filter keeps non-empty queues only. *)
Definition head_received_at (entry : Uuid * list QueuedEvent) : Instant :=
  match snd entry with qe :: _ => qe_received_at qe | [] => 0%N end.

Definition pick_ready (now : Instant) (s : EventQueue) : option Uuid :=
  fst <$> min_by_key head_received_at (List.filter (eligible now s) (iter (queues s))).

Definition pick_cancelled (s : EventQueue) : option Uuid :=
  List.find (fun id => bool_decide (id ∉ in_flight_channels s)) (map fst (iter (cancelled_batches s))).

(** Registering a dispatched batch of [size] events. *)
Definition mark_in_flight (id : Uuid) (now : Instant) (size : nat) (s : EventQueue) : EventQueue :=
  let s := set_in_flight_channels ({[id]} ∪ in_flight_channels s) s in
  let s := set_in_flight_deadlines (<[id := (now + in_flight_deadline s)%N]> (in_flight_deadlines s)) s in
  set_in_flight_batch_sizes (<[id := size]> (in_flight_batch_sizes s)) s.

(** The fallback: re-dispatch a cancelled batch unchanged. *)
Definition flush_cancelled (id : Uuid) (now : Instant) (s : EventQueue) : EventQueue * FlushBatch :=
  let cancelled := default [] (cancelled_batches s !! id) in
  let s := set_cancelled_batches (delete id (cancelled_batches s)) s in
  let cancel_reason := cancel_reasons s !! id in
  let s := set_cancel_reasons (delete id (cancel_reasons s)) s in
  let s := mark_in_flight id now (length cancelled) s in
  let s := set_in_flight_event_ids
             (<[id := list_to_set (batch_ids cancelled)]> (in_flight_event_ids s)) s in
  (s, mkFlushBatch id cancelled [] cancel_reason).

Definition be_le (a b : BatchEvent) : bool :=
  (ev_created_at (be_event a) <=? ev_created_at (be_event b))%N.

(** Drain the head of one queue and merge what was cancelled there. *)
Definition flush_queue (id : Uuid) (now : Instant) (s : EventQueue) : EventQueue * FlushBatch :=
  let queue := default [] (queues s !! id) in
  let drain_count := Nat.min MAX_BATCH_EVENTS (length queue) in
  let events := sort_by be_le (map to_batch_event (take drain_count queue)) in
  let s := set_queues (store_or_remove id (drop drain_count queue) (queues s)) s in
  let s := mark_in_flight id now (length events) s in
  let cancelled_events := default [] (cancelled_batches s !! id) in
  let s := set_cancelled_batches (delete id (cancelled_batches s)) s in
  let cancel_reason :=
    match cancelled_events with [] => None | _ => cancel_reasons s !! id end in
  let s := set_cancel_reasons (delete id (cancel_reasons s)) s in
  let s := set_in_flight_event_ids
             (<[id := list_to_set (batch_ids (events ++ cancelled_events))]> (in_flight_event_ids s)) s in
  (s, mkFlushBatch id events cancelled_events cancel_reason).

Definition flush_next (now : Instant) (s : EventQueue) : EventQueue * option FlushBatch :=
  let s := expire now s in
  match pick_ready now s with
  | Some id => let '(s', b) := flush_queue id now s in (s', Some b)
  | None =>
      match pick_cancelled s with
      | Some id => let '(s', b) := flush_cancelled id now s in (s', Some b)
      | None => (s, None)
      end
  end.

Definition has_flushable_work (now : Instant) (s : EventQueue) : EventQueue * bool :=
  let s := expire now s in
  (s, existsb (eligible now s) (iter (queues s))
      || existsb (fun id => bool_decide (id ∉ in_flight_channels s)) (map fst (iter (cancelled_batches s)))).

Definition has_undispatched_work (s : EventQueue) : bool :=
  let idle id := bool_decide (id ∉ in_flight_channels s) in
  let has_queued := existsb (fun e => match snd e with [] => false | _ => idle (fst e) end) (iter (queues s)) in
  let has_cancelled := existsb (fun e => idle (fst e)) (iter (cancelled_batches s)) in
  let has_withheld :=
    existsb (fun e => match snd e with [] => false | _ => idle (fst e) end) (iter (withheld_native_steer s)) in
  has_queued || has_cancelled || has_withheld.

Definition next_hold_ready_at (now : Instant) (s : EventQueue) : option Instant :=
  if (dispatch_hold s =? 0)%N then None
  else
    let hold := dispatch_hold s in
    let held := omap (fun e : Uuid * list QueuedEvent =>
      let '(id, q) := e in
      match q with
      | [] => None
      | head :: _ =>
          if bool_decide (id ∉ in_flight_channels s) && not_throttled now s id then
            if head_past_dispatch_hold head hold now then None
            else Some (qe_received_at head + hold)%N
          else None
      end) (iter (queues s)) in
    min_by_key (fun t => t) held.

Definition extend_in_flight_deadline (now : Instant) (channel_id : Uuid) (max_turn_secs : N)
    (s : EventQueue) : EventQueue :=
  match in_flight_deadlines s !! channel_id with
  | None => s
  | Some current =>
      let extended := (now + from_secs (max_turn_secs + IN_FLIGHT_DEADLINE_BUFFER_SECS))%N in
      if (current <? extended)%N
      then set_in_flight_deadlines (<[channel_id := extended]> (in_flight_deadlines s)) s
      else s
  end.

(** ** Completion and requeueing *)

Definition mark_complete (now : Instant) (channel_id : Uuid) (s : EventQueue) : EventQueue :=
  let s := set_in_flight_event_ids (delete channel_id (in_flight_event_ids s)) s in
  let s := set_in_flight_channels (in_flight_channels s ∖ {[channel_id]}) s in
  let s := set_in_flight_deadlines (delete channel_id (in_flight_deadlines s)) s in
  let s := set_in_flight_batch_sizes (delete channel_id (in_flight_batch_sizes s)) s in
  let reset s :=
    set_busy_notice_sent (busy_notice_sent s ∖ {[channel_id]})
      (set_retry_counts (delete channel_id (retry_counts s)) s) in
  match retry_after s !! channel_id with
  | Some deadline =>
      if (now <? deadline)%N then s
      else reset (set_retry_after (delete channel_id (retry_after s)) s)
  | None => reset s
  end.

(** The capped exponential delay of an attempt, in seconds. *)
Definition U64_MAX : N := (2 ^ 64 - 1)%N.
Definition U32_MAX : N := (2 ^ 32 - 1)%N.
Definition capped_secs (attempt : N) : N :=
  let base_secs :=
    N.min U64_MAX (BASE_RETRY_DELAY_SECS * N.shiftl 1 (N.min (attempt - 1) 6)) in
  N.min base_secs MAX_RETRY_DELAY_SECS.

(** [nanos] is the [subsec_nanos] of the wall clock. *)
Definition jitter (nanos : N) : N :=
  f64_add (f64_literal 8 10)
    (f64_mul (f64_div (f64_of_N nanos) (f64_of_N U32_MAX)) (f64_literal 4 10)).

Definition retry_delay (attempt nanos : N) : Duration :=
  from_secs_f64 (f64_mul (f64_of_N (capped_secs attempt)) (jitter nanos)).

Definition requeue (now : Instant) (nanos : N) (batch : FlushBatch) (s : EventQueue)
  : EventQueue * option FlushBatch :=
  let channel_id := fb_channel_id batch in
  let attempt := (default 0 (retry_counts s !! channel_id) + 1)%N in
  let s := set_retry_counts (<[channel_id := attempt]> (retry_counts s)) s in
  if (MAX_RETRIES <? attempt)%N then
    let s := set_retry_counts (delete channel_id (retry_counts s)) s in
    let s := set_retry_after (delete channel_id (retry_after s)) s in
    let s := set_busy_notice_sent (busy_notice_sent s ∖ {[channel_id]}) s in
    (s, Some batch)
  else
    let delay := retry_delay attempt nanos in
    let queue := default [] (queues s !! channel_id) in
    let queue := push_front_all (map (to_queued_event channel_id) (fb_events batch)) queue in
    let s := set_queues (<[channel_id := trim_back queue]> (queues s)) s in
    let s := enforce_routing_channel_cap channel_id s in
    (set_retry_after (<[channel_id := (now + delay)%N]> (retry_after s)) s, None).

(** [HashSet::insert] answers whether the value was new. *)
Definition take_busy_notice_pending (channel_id : Uuid) (s : EventQueue) : EventQueue * bool :=
  (set_busy_notice_sent ({[channel_id]} ∪ busy_notice_sent s) s,
   bool_decide (channel_id ∉ busy_notice_sent s)).

Definition requeue_preserve_timestamps (batch : FlushBatch) (s : EventQueue) : EventQueue :=
  let channel_id := fb_channel_id batch in
  let queue := default [] (queues s !! channel_id) in
  let queue := push_front_all (map (to_queued_event channel_id) (fb_events batch)) queue in
  let s := set_queues (<[channel_id := trim_back queue]> (queues s)) s in
  enforce_routing_channel_cap channel_id s.

Definition requeue_as_cancelled (batch : FlushBatch) (reason : CancelReason) (s : EventQueue)
  : EventQueue :=
  let channel_id := fb_channel_id batch in
  let entry := default [] (cancelled_batches s !! channel_id)
               ++ fb_cancelled_events batch ++ fb_events batch in
  let entry :=
    if MAX_PENDING_PER_CHANNEL <? length entry
    then drop (length entry - MAX_PENDING_PER_CHANNEL) entry else entry in
  let s := set_cancelled_batches (<[channel_id := entry]> (cancelled_batches s)) s in
  set_cancel_reasons (<[channel_id := reason]> (cancel_reasons s)) s.

(** ** Queries *)

Definition pending_channels (s : EventQueue) : nat := size (queues s).
Definition retry_count (channel_id : Uuid) (s : EventQueue) : N :=
  default 0%N (retry_counts s !! channel_id).
Definition clear_retry_after (channel_id : Uuid) (s : EventQueue) : EventQueue :=
  set_retry_after (delete channel_id (retry_after s)) s.
Definition is_channel_in_flight (channel_id : Uuid) (s : EventQueue) : bool :=
  bool_decide (channel_id ∈ in_flight_channels s).
Definition has_in_flight (s : EventQueue) : bool := bool_decide (in_flight_channels s <> ∅).

(** ** Draining *)

Definition drain_channel (channel_id : Uuid) (s : EventQueue) : EventQueue * list string :=
  let ids := match queues s !! channel_id with
             | Some q => map (fun e => event_id_to_hex (ev_id (qe_event e))) q
             | None => []
             end in
  let s := set_queues (delete channel_id (queues s)) s in
  let s := set_retry_after (delete channel_id (retry_after s)) s in
  let s := set_retry_counts (delete channel_id (retry_counts s)) s in
  let s := set_busy_notice_sent (busy_notice_sent s ∖ {[channel_id]}) s in
  let s := set_cancelled_batches (delete channel_id (cancelled_batches s)) s in
  let s := set_cancel_reasons (delete channel_id (cancel_reasons s)) s in
  (set_withheld_native_steer (delete channel_id (withheld_native_steer s)) s, ids).

Definition routed_to (routing : Uuid) (e : Event) : bool :=
  bool_decide (routing_channel_id e = Some routing).

(** The conversations collected from the three tables. *)
Definition conversations_of (routing : Uuid) (s : EventQueue) : gset Uuid :=
  dom (filter (fun e => existsb (fun q => routed_to routing (qe_event q)) (snd e) = true) (queues s))
  ∪ dom (filter (fun e => existsb (fun b => routed_to routing (be_event b)) (snd e) = true)
           (cancelled_batches s))
  ∪ dom (filter (fun e => existsb (fun q => routed_to routing (qe_event q)) (snd e) = true)
           (withheld_native_steer s)).

Definition drain_routing_channel (routing : Uuid) (s : EventQueue) : EventQueue * list string :=
  foldl (fun acc conversation =>
           let '(s, ids) := acc in
           let '(s', more) := drain_channel conversation s in (s', ids ++ more))
        (s, []) (iter_set (conversations_of routing s)).

(** ** Withholding events for a native steer *)

Definition has_hex (event_id : string) (qe : QueuedEvent) : bool :=
  String.eqb (event_id_to_hex (ev_id (qe_event qe))) event_id.

(** [position] and [remove]: the first match and the list without it. *)
Fixpoint take_first {A} (f : A -> bool) (l : list A) : option (A * list A) :=
  match l with
  | [] => None
  | x :: l' =>
      if f x then Some (x, l')
      else match take_first f l' with Some (y, rest) => Some (y, x :: rest) | None => None end
  end.

Definition mark_native_steer_pending (channel_id : Uuid) (event_id : string) (s : EventQueue)
  : EventQueue * bool :=
  match queues s !! channel_id with
  | None => (s, false)
  | Some q =>
      match take_first (has_hex event_id) q with
      | None => (s, false)
      | Some (qe, rest) =>
          let s := set_queues (store_or_remove channel_id rest (queues s)) s in
          let entries := default [] (withheld_native_steer s !! channel_id) ++ [qe] in
          (set_withheld_native_steer (<[channel_id := entries]> (withheld_native_steer s)) s, true)
      end
  end.

Definition release_native_steer (channel_id : Uuid) (event_id : string) (s : EventQueue)
  : EventQueue :=
  match withheld_native_steer s !! channel_id with
  | None => s
  | Some entries =>
      match take_first (has_hex event_id) entries with
      | None => s
      | Some (qe, rest) =>
          let s := set_withheld_native_steer
                     (store_or_remove channel_id rest (withheld_native_steer s)) s in
          let queue := default [] (queues s !! channel_id) in
          let s := set_queues (<[channel_id := trim_back (qe :: queue)]> (queues s)) s in
          enforce_routing_channel_cap channel_id s
      end
  end.

(** [retain] on one row of a table, the row removed when empty. *)
Definition retain_row (event_id : string) (channel_id : Uuid) (m : gmap Uuid (list QueuedEvent))
  : gmap Uuid (list QueuedEvent) * bool :=
  match m !! channel_id with
  | None => (m, false)
  | Some q =>
      let q' := List.filter (fun qe => negb (has_hex event_id qe)) q in
      (store_or_remove channel_id q' m, negb (length q' =? length q))
  end.

Definition remove_event (channel_id : Uuid) (event_id : string) (s : EventQueue)
  : EventQueue * bool :=
  let '(w, removed_w) := retain_row event_id channel_id (withheld_native_steer s) in
  let s := set_withheld_native_steer w s in
  let '(q, removed_q) := retain_row event_id channel_id (queues s) in
  (set_queues q s, removed_w || removed_q).

(** [retain] on every row, empty rows removed. *)
Definition retain_all (event_id : string) (m : gmap Uuid (list QueuedEvent))
  : gmap Uuid (list QueuedEvent) * bool :=
  (omap (fun q => match List.filter (fun qe => negb (has_hex event_id qe)) q with
                  | [] => None | q' => Some q' end) m,
   existsb (fun e => negb (length (List.filter (fun qe => negb (has_hex event_id qe)) (snd e))
                           =? length (snd e))) (iter m)).

Definition remove_event_by_id (event_id : string) (s : EventQueue) : EventQueue * bool :=
  let '(w, removed_w) := retain_all event_id (withheld_native_steer s) in
  let s := set_withheld_native_steer w s in
  let '(q, removed_q) := retain_all event_id (queues s) in
  (set_queues q s, removed_w || removed_q).

(** [find] through [iter_mut]: edit the first matching event of a row. *)
Fixpoint edit_first (event_id : string) (content : string) (q : list QueuedEvent)
  : option (list QueuedEvent) :=
  match q with
  | [] => None
  | qe :: rest =>
      if has_hex event_id qe then
        Some (mkQueuedEvent (qe_channel_id qe) (qe_event qe) (qe_received_at qe)
                (qe_prompt_tag qe) (Some content) (qe_hold_exempt qe) :: rest)
      else (fun rest' => qe :: rest') <$> edit_first event_id content rest
  end.

(** The [for] over [values_mut]: stop at the first row that has the event. *)
Definition patch_table (event_id : string) (content : string) (m : gmap Uuid (list QueuedEvent))
  : option (gmap Uuid (list QueuedEvent)) :=
  find_map (fun e : Uuid * list QueuedEvent =>
    (fun q' => <[e.1 := q']> m) <$> edit_first event_id content e.2) (iter m).

Definition patch_event (event_id : string) (content : string) (s : EventQueue) : EventQueue * bool :=
  match patch_table event_id content (withheld_native_steer s) with
  | Some w => (set_withheld_native_steer w s, true)
  | None =>
      match patch_table event_id content (queues s) with
      | Some q => (set_queues q s, true)
      | None => (s, false)
      end
  end.

(** ** Compaction *)

(** The predicate of [retry_counts.retain]. *)
Definition keeps_count (s : EventQueue) (ch : Uuid) : bool :=
  bool_decide (is_Some (retry_after s !! ch))
  || match queues s !! ch with Some (_ :: _) => true | _ => false end
  || bool_decide (ch ∈ in_flight_channels s).

Definition compact_expired_state (now : Instant) (s : EventQueue) : EventQueue :=
  let s := set_retry_after (filter (fun e => (now < snd e)%N) (retry_after s)) s in
  set_retry_counts (filter (fun e => keeps_count s (fst e) = true) (retry_counts s)) s.
End queue.

(** One concrete enumeration order and the libraries it is used with. *)
Module SampleQueue.
#[export] Instance order : HashOrder.
Proof.
  refine {| iter := fun A m => map_to_list m; iter_set := fun X => elements X |}; done.
Defined.

(** A UUID is spelled by a string of its length. *)
#[export] Instance uuid : UuidLib := {| uuid_parse_str := fun s => Some (N.of_nat (String.length s)) |}.

Definition event (id created_at : N) : Event := mkEvent id 1 created_at 9 [["h"; "abc"]] "hi".
Definition queued (c id created_at received_at : N) : QueuedEvent :=
  mkQueuedEvent c (event id created_at) received_at "mention" None false.
End SampleQueue.
