(* ===== verification/QueueInv.v ===== *)
(** Invariants of the event queue: the bookkeeping maps agree, every table is
    bounded, and the routing cap holds across conversations. *)

From S2P Require Import Prelude Nostr Thread Queue.

(** ** The routing cap *)

(** The number of queued events of the conversations routed to [channel]. *)
Definition routed_total `{UuidLib} (channel : Uuid) (qs : gmap Uuid (list QueuedEvent)) : nat :=
  sum_list_with (fun e : Uuid * list QueuedEvent =>
    if (queued_routing_channel e.1 e.2 =? channel)%N then length e.2 else 0) (map_to_list qs).

(** Every row of [qs'] is what is left of a row of [qs] after removing events
    at its front. *)
Definition trimmed (qs' qs : gmap Uuid (list QueuedEvent)) : Prop :=
  forall c q', qs' !! c = Some q' -> exists q, qs !! c = Some q /\ q' `suffix_of` q.

Lemma trimmed_refl qs : trimmed qs qs.
Proof. intros c q Hq. exists q. split; [done|reflexivity]. Qed.

Lemma trimmed_trans qs1 qs2 qs3 : trimmed qs1 qs2 -> trimmed qs2 qs3 -> trimmed qs1 qs3.
Proof.
  intros H12 H23 c q (q2 & Hq2 & Hs)%H12. apply H23 in Hq2 as (q3 & Hq3 & Hs').
  exists q3. split; [done|]. by etransitivity.
Qed.

Lemma lookup_store_or_remove {A} c c' (q q' : list A) m :
  store_or_remove c q m !! c' = Some q' <->
  (c = c' /\ q = q' /\ q <> []) \/ (c <> c' /\ m !! c' = Some q').
Proof.
  unfold store_or_remove. destruct q as [|x q].
  - rewrite lookup_delete_Some. naive_solver.
  - rewrite lookup_insert_Some. naive_solver.
Qed.

Lemma suffix_tail {A} (q : list A) : tail q `suffix_of` q.
Proof. destruct q as [|x q]; [reflexivity|]. by exists [x]. Qed.

Lemma trimmed_pop c q qs : qs !! c = Some q -> trimmed (store_or_remove c (tail q) qs) qs.
Proof.
  intros Hq c' q' [(<- & <- & _)|(Hne & Hq')]%lookup_store_or_remove.
  - exists q. split; [done|apply suffix_tail].
  - by apply trimmed_refl.
Qed.

(** The row of [c] counted separately. *)
Lemma sum_list_with_perm {A} (f : A -> nat) l l' : l ≡ₚ l' -> sum_list_with f l = sum_list_with f l'.
Proof. induction 1; cbn; lia. Qed.

Section totals.
Context (f : Uuid * list QueuedEvent -> nat).
Definition row_sum (qs : gmap Uuid (list QueuedEvent)) : nat := sum_list_with f (map_to_list qs).

Lemma row_sum_insert qs c q : qs !! c = None -> row_sum (<[c := q]> qs) = f (c, q) + row_sum qs.
Proof. intros Hn. unfold row_sum. by rewrite (sum_list_with_perm f _ _ (map_to_list_insert qs c q Hn)). Qed.

Lemma row_sum_delete qs c q : qs !! c = Some q -> row_sum qs = f (c, q) + row_sum (delete c qs).
Proof.
  intros Hq. rewrite <- (insert_delete_id qs c q Hq) at 1.
  by rewrite row_sum_insert by apply lookup_delete_eq.
Qed.

Lemma row_sum_update qs c q : row_sum (<[c := q]> qs) = f (c, q) + row_sum (delete c qs).
Proof.
  rewrite <- insert_delete_eq. by rewrite row_sum_insert by apply lookup_delete_eq.
Qed.

Lemma row_sum_store qs c q :
  row_sum (store_or_remove c q qs) = (match q with [] => 0 | _ => f (c, q) end) + row_sum (delete c qs).
Proof. destruct q; cbn [store_or_remove]; [done|apply row_sum_update]. Qed.
End totals.

Lemma total_events_sum qs : total_events qs = row_sum (fun e => length e.2) qs.
Proof. done. Qed.

Lemma total_events_pop qs c q :
  qs !! c = Some q -> q <> [] -> S (total_events (store_or_remove c (tail q) qs)) = total_events qs.
Proof.
  intros Hq Hne. rewrite (total_events_sum (store_or_remove _ _ _)), (total_events_sum qs),
    row_sum_store, (row_sum_delete _ qs c q Hq).
  destruct q as [|x [|y q]]; [done|..]; cbn; lia.
Qed.

Section cap.
Context `{UuidLib, HashOrder}.

Definition routed_length (channel : Uuid) (e : Uuid * list QueuedEvent) : nat :=
  if (queued_routing_channel e.1 e.2 =? channel)%N then length e.2 else 0.

Lemma routed_total_sum channel qs : routed_total channel qs = row_sum (routed_length channel) qs.
Proof. done. Qed.

Lemma cap_scan_fst channel l acc :
  (foldl (cap_scan channel) acc l).1 = acc.1 + sum_list_with (routed_length channel) l.
Proof.
  revert acc. induction l as [|[c q] l IH]; intros [t o]; cbn [foldl sum_list_with fst]; [lia|].
  rewrite IH. unfold cap_scan, routed_length. cbn [fst snd].
  destruct (queued_routing_channel c q =? channel)%N; cbn [negb fst]; lia.
Qed.

(** A victim is the key of a non-empty queue. *)
Definition victim_of (l : list (Uuid * list QueuedEvent)) (o : option (Instant * Uuid)) : Prop :=
  match o with
  | Some (_, v) => exists q, (v, q) ∈ l /\ q <> []
  | None => forall v q, (v, q) ∈ l -> q <> [] -> False
  end.

Lemma cap_scan_snd channel l t o :
  let o' := (foldl (cap_scan channel) (t, o) l).2 in
  (o' = o /\ forall c q, (c, q) ∈ l -> routed_length channel (c, q) = 0 \/ is_Some o) \/
  exists r c q, o' = Some (r, c) /\ (c, q) ∈ l /\ q <> [].
Proof.
  cbv zeta. revert t o. induction l as [|[c q] l IH]; intros t o; cbn [foldl].
  - left. split; [done|]. set_solver.
  - destruct (cap_scan channel (t, o) (c, q)) as [t1 o1] eqn:Es.
    unfold cap_scan in Es.
    destruct (queued_routing_channel c q =? channel)%N eqn:Er; cbn [negb] in Es.
    2: { injection Es as <- <-. destruct (IH t o) as [[-> Hz]|(r & c' & q' & -> & Hin & Hne)].
      - left. split; [done|]. intros c' q' [[= -> ->]|?]%elem_of_cons; [|by eapply Hz].
        left. unfold routed_length. cbn [fst snd]. by rewrite Er.
      - right. exists r, c', q'. split_and!; [done|by right|done]. }
    destruct q as [|x q]; cbn [head] in Es; injection Es as _ Eo.
    { subst o1. destruct (IH t1 o) as [[-> Hz]|(r & c' & q' & -> & Hin & Hne)].
      - left. split; [done|]. intros c' q' [[= -> ->]|?]%elem_of_cons; [|by eapply Hz].
        left. unfold routed_length. by destruct (_ =? _)%N.
      - right. exists r, c', q'. split_and!; [done|by right|done]. }
    assert (is_Some o1 /\ (o1 = o \/ exists r, o1 = Some (r, c))) as [Hs1 Ho1].
    { subst o1. destruct o as [cur|]; [|split; [done|right; by eexists]].
      destruct (candidate_lt _ cur); (split; [done|]); [right; by eexists|by left]. }
    destruct (IH t1 o1) as [[Heq Hz]|(r & c' & q' & Heq & Hin & Hne)].
    + destruct Ho1 as [Ho1|[r Ho1]].
      * left. split; [congruence|]. intros c' q' _. right. congruence.
      * right. exists r, c, (x :: q). split_and!; [congruence|by left|done].
    + right. exists r, c', q'. split_and!; [done|by right|done].
Qed.

Lemma sum_list_with_zero {A} (f : A -> nat) l :
  (forall x, x ∈ l -> f x = 0) -> sum_list_with f l = 0.
Proof.
  induction l as [|x l IH]; intros Hz; cbn; [done|].
  rewrite Hz by set_solver. apply IH. intros; apply Hz; set_solver.
Qed.

(** What one round of the loop sees. *)
Lemma cap_scan_spec channel qs :
  let r := foldl (cap_scan channel) (0, None) (iter qs) in
  r.1 = routed_total channel qs /\
  match r.2 with
  | Some (_, v) => exists q, qs !! v = Some q /\ q <> []
  | None => routed_total channel qs = 0
  end.
Proof.
  cbv zeta. rewrite cap_scan_fst. cbn [fst].
  assert (sum_list_with (routed_length channel) (iter qs) = routed_total channel qs) as Hsum.
  { apply sum_list_with_perm, iter_perm. }
  split; [done|].
  destruct (cap_scan_snd channel (iter qs) 0 None) as [[-> Hz]|(r & c & q & -> & Hin & Hne)].
  - rewrite <- Hsum. apply sum_list_with_zero. intros [c q] Hin.
    destruct (Hz c q Hin) as [?|[? ?]]; done.
  - exists q. split; [|done]. rewrite iter_perm in Hin. by apply elem_of_map_to_list.
Qed.

Lemma cap_loop_spec fuel channel qs :
  trimmed (cap_loop fuel channel qs) qs /\
  (total_events qs < fuel -> routed_total channel (cap_loop fuel channel qs) <= MAX_PENDING_PER_CHANNEL).
Proof.
  revert qs. induction fuel as [|fuel IH]; intros qs; cbn [cap_loop].
  { split; [apply trimmed_refl|lia]. }
  pose proof (cap_scan_spec channel qs) as [Ht Ho].
  destruct (foldl (cap_scan channel) (0, None) (iter qs)) as [total oldest]. cbn [fst snd] in Ht, Ho.
  subst total. destruct (Nat.leb_spec (routed_total channel qs) MAX_PENDING_PER_CHANNEL) as [Hle|Hgt].
  { split; [apply trimmed_refl|done]. }
  destruct oldest as [[r v]|]; [|lia]. destruct Ho as (q & Hq & Hne). rewrite Hq.
  destruct (IH (store_or_remove v (tail q) qs)) as [IHt IHc]. split.
  - eapply trimmed_trans; [exact IHt|by apply trimmed_pop].
  - intros Hf. apply IHc. pose proof (total_events_pop qs v q Hq Hne). lia.
Qed.
End cap.

(** ** The operations of the harness *)

Inductive Op :=
| OpPush (e : QueuedEvent)
| OpFlushNext (now : Instant)
| OpHasFlushableWork (now : Instant)
| OpMarkComplete (now : Instant) (c : Uuid)
| OpRequeue (now : Instant) (nanos : N) (b : FlushBatch)
| OpRequeuePreserve (b : FlushBatch)
| OpRequeueAsCancelled (b : FlushBatch) (r : CancelReason)
| OpTakeBusyNotice (c : Uuid)
| OpClearRetryAfter (c : Uuid)
| OpDrainChannel (c : Uuid)
| OpDrainRoutingChannel (c : Uuid)
| OpMarkNativeSteerPending (c : Uuid) (id : string)
| OpReleaseNativeSteer (c : Uuid) (id : string)
| OpRemoveEvent (c : Uuid) (id : string)
| OpRemoveEventById (id : string)
| OpPatchEvent (id content : string)
| OpCompact (now : Instant)
| OpExtendDeadline (now : Instant) (c : Uuid) (secs : N).

Definition apply_op `{NostrLib, UuidLib} (O : HashOrder) (op : Op) (s : EventQueue) : EventQueue :=
  match op with
  | OpPush e => (push e s).1
  | OpFlushNext now => (flush_next now s).1
  | OpHasFlushableWork now => (has_flushable_work now s).1
  | OpMarkComplete now c => mark_complete now c s
  | OpRequeue now nanos b => (requeue now nanos b s).1
  | OpRequeuePreserve b => requeue_preserve_timestamps b s
  | OpRequeueAsCancelled b r => requeue_as_cancelled b r s
  | OpTakeBusyNotice c => (take_busy_notice_pending c s).1
  | OpClearRetryAfter c => clear_retry_after c s
  | OpDrainChannel c => (drain_channel c s).1
  | OpDrainRoutingChannel c => (drain_routing_channel c s).1
  | OpMarkNativeSteerPending c id => (mark_native_steer_pending c id s).1
  | OpReleaseNativeSteer c id => release_native_steer c id s
  | OpRemoveEvent c id => (remove_event c id s).1
  | OpRemoveEventById id => (remove_event_by_id id s).1
  | OpPatchEvent id content => (patch_event id content s).1
  | OpCompact now => compact_expired_state now s
  | OpExtendDeadline now c secs => extend_in_flight_deadline now c secs s
  end.

(** The states a queue can reach: any operations with any arguments at any
    time, each meeting its own enumeration order, from a fresh queue with any
    configuration. *)
Inductive reachable `{NostrLib, UuidLib} : EventQueue -> Prop :=
| reach_new mode secs hold :
    reachable (with_dispatch_hold hold (with_in_flight_deadline secs (EventQueue_new mode)))
| reach_default mode : reachable (EventQueue_new mode)
| reach_step O op s : reachable s -> reachable (apply_op O op s).

(** ** The invariant *)

Definition row_ok (c : Uuid) (q : list QueuedEvent) : Prop :=
  length q <= MAX_PENDING_PER_CHANNEL /\ Forall (fun e => qe_channel_id e = c) q.

Definition withheld_ok (c : Uuid) (q : list QueuedEvent) : Prop :=
  q <> [] /\ Forall (fun e => qe_channel_id e = c) q.

Record queue_wf (s : EventQueue) : Prop := {
  wf_deadlines : dom (in_flight_deadlines s) = in_flight_channels s;
  wf_sizes : dom (in_flight_batch_sizes s) = in_flight_channels s;
  wf_ids : dom (in_flight_event_ids s) = in_flight_channels s;
  wf_queues : map_Forall row_ok (queues s);
  wf_withheld : map_Forall withheld_ok (withheld_native_steer s);
  wf_cancelled : map_Forall (fun _ q => length q <= MAX_PENDING_PER_CHANNEL) (cancelled_batches s);
  wf_reasons : dom (cancel_reasons s) = dom (cancelled_batches s);
  wf_counts : map_Forall (fun _ n => (1 <= n <= MAX_RETRIES)%N) (retry_counts s);
}.

(** Split a goal [queue_wf _] from a known one, solving the untouched fields. *)
Ltac wf_split Hwf := destruct Hwf; constructor; cbn; try assumption.

Lemma row_ok_suffix c q q' : q' `suffix_of` q -> row_ok c q -> row_ok c q'.
Proof.
  intros [k ->] [Hl Hf]. rewrite length_app in Hl. apply Forall_app in Hf as [_ Hf].
  split; [lia|done].
Qed.

Lemma trimmed_rows qs' qs : trimmed qs' qs -> map_Forall row_ok qs -> map_Forall row_ok qs'.
Proof.
  intros Ht Hok c q' Hq'. destruct (Ht c q' Hq') as (q & Hq & Hs).
  eapply row_ok_suffix; [exact Hs|by apply Hok].
Qed.

Lemma set_queues_id s : set_queues (queues s) s = s.
Proof. by destruct s. Qed.

Lemma push_front_all_app xs q : push_front_all xs q = xs ++ q.
Proof.
  unfold push_front_all. induction xs as [|x xs IH]; [done|].
  cbn [rev]. rewrite foldl_app. cbn. by rewrite IH.
Qed.

Lemma map_Forall_delete' {A} (P : Uuid -> A -> Prop) (m : gmap Uuid A) c :
  map_Forall P m -> map_Forall P (delete c m).
Proof. intros Hm c' q [_ Hq]%lookup_delete_Some. by apply Hm. Qed.

Lemma map_Forall_store {A} (P : Uuid -> list A -> Prop) (m : gmap Uuid (list A)) c q :
  (q <> [] -> P c q) -> map_Forall P m -> map_Forall P (store_or_remove c q m).
Proof.
  intros Hq Hm c' q' [(<- & <- & Hne)|(_ & Hc)]%lookup_store_or_remove; [by apply Hq|by apply Hm].
Qed.

Lemma trim_back_length q : length (trim_back q) <= MAX_PENDING_PER_CHANNEL.
Proof. unfold trim_back. rewrite length_take. lia. Qed.

Lemma trim_back_forall P q : Forall P q -> Forall P (trim_back q).
Proof. intros Hq. by apply Forall_take. Qed.

Lemma set_retry_after_wf x s : queue_wf s -> queue_wf (set_retry_after x s).
Proof. intros Hwf. wf_split Hwf. Qed.

Section preservation.
Context `{NostrLib, UuidLib, HashOrder}.

Lemma enforce_effect c s :
  exists qs', enforce_routing_channel_cap c s = set_queues qs' s /\ trimmed qs' (queues s) /\
    forall q, queues s !! c = Some q ->
      routed_total (queued_routing_channel c q) qs' <= MAX_PENDING_PER_CHANNEL.
Proof.
  unfold enforce_routing_channel_cap. destruct (queues s !! c) as [q|] eqn:Eq.
  - eexists. split; [reflexivity|]. destruct (cap_loop_spec (S (total_events (queues s)))
      (queued_routing_channel c q) (queues s)) as [Ht Hc].
    split; [done|]. intros q' [= <-]. apply Hc. lia.
  - exists (queues s). split_and!; [by rewrite set_queues_id|apply trimmed_refl|done].
Qed.

Lemma enforce_wf c s : queue_wf s -> queue_wf (enforce_routing_channel_cap c s).
Proof.
  intros Hwf. destruct (enforce_effect c s) as (qs' & -> & Ht & _).
  wf_split Hwf. by eapply trimmed_rows.
Qed.

(** Every operation that puts a row back ends this way. *)
Lemma restock_wf c row s :
  row_ok c row -> queue_wf s ->
  queue_wf (enforce_routing_channel_cap c (set_queues (<[c := row]> (queues s)) s)).
Proof. intros Hr Hwf. apply enforce_wf. wf_split Hwf. by apply map_Forall_insert_2. Qed.

Lemma row_channel c s :
  queue_wf s -> Forall (fun e => qe_channel_id e = c) (default [] (queues s !! c)).
Proof.
  intros Hwf. destruct (queues s !! c) as [q|] eqn:Eq; [|constructor].
  by apply (wf_queues _ Hwf c q).
Qed.

Lemma restored_row_ok c xs s :
  queue_wf s -> Forall (fun e => qe_channel_id e = c) xs ->
  row_ok c (trim_back (push_front_all xs (default [] (queues s !! c)))).
Proof.
  intros Hwf Hxs. split; [apply trim_back_length|]. apply trim_back_forall.
  rewrite push_front_all_app. apply Forall_app. split; [done|by apply row_channel].
Qed.

Lemma push_wf e s : queue_wf s -> queue_wf (push e s).1.
Proof.
  intros Hwf. unfold push. destruct (contains_event _ _ _); [done|].
  destruct (_ && _); [done|]. cbn [fst]. apply restock_wf; [|done].
  pose proof (row_channel (qe_channel_id e) s Hwf) as Hch.
  assert (length (default [] (queues s !! qe_channel_id e)) <= MAX_PENDING_PER_CHANNEL) as Hlen.
  { destruct (queues s !! qe_channel_id e) as [q|] eqn:Eq; [|cbn; lia].
    by apply (wf_queues _ Hwf _ q) in Eq as [? _]. }
  destruct (Nat.leb_spec MAX_PENDING_PER_CHANNEL (length (default [] (queues s !! qe_channel_id e))))
    as [Hge|Hlt]; split; rewrite ?length_app; cbn [length].
  - unfold MAX_PENDING_PER_CHANNEL in *.
    destruct (default [] (queues s !! qe_channel_id e)); cbn [tail length] in *; lia.
  - apply Forall_app. split; [|by repeat constructor]. by destruct Hch.
  - unfold MAX_PENDING_PER_CHANNEL in *. lia.
  - apply Forall_app. split; [done|by repeat constructor].
Qed.

Lemma recover_wf c s : queue_wf s -> queue_wf (recover_withheld_for_expired_channel c s).
Proof.
  intros Hwf. unfold recover_withheld_for_expired_channel.
  destruct (withheld_native_steer s !! c) as [entries|] eqn:Ew; [|done].
  assert (queue_wf (set_withheld_native_steer (delete c (withheld_native_steer s)) s)) as Hwf'.
  { wf_split Hwf. by apply map_Forall_delete'. }
  apply restock_wf; [|done]. apply restored_row_ok; [done|].
  by apply (wf_withheld _ Hwf c entries).
Qed.

Lemma expire_one_wf s c : queue_wf s -> queue_wf (expire_one s c).
Proof.
  intros Hwf. unfold expire_one. apply recover_wf.
  wf_split Hwf; rewrite dom_delete_L; congruence.
Qed.

Lemma expire_wf now s : queue_wf s -> queue_wf (expire now s).
Proof.
  unfold expire. generalize (expired_ids now s) as ids. intros ids. revert s.
  induction ids as [|c ids IH]; intros s Hwf; cbn; [done|]. by apply IH, expire_one_wf.
Qed.

Lemma flush_queue_wf c now s : queue_wf s -> queue_wf (flush_queue c now s).1.
Proof.
  intros Hwf. unfold flush_queue, mark_in_flight. cbv zeta. wf_split Hwf.
  - rewrite dom_insert_L. congruence.
  - rewrite dom_insert_L. congruence.
  - rewrite dom_insert_L. congruence.
  - apply map_Forall_store; [|done]. intros _. destruct (queues s !! c) as [q|] eqn:Eq.
    + apply (row_ok_suffix c q); [|by apply wf_queues0]. cbn.
      exists (take (Nat.min MAX_BATCH_EVENTS (length q)) q). by rewrite take_drop.
    + cbn. split; [cbn; lia|constructor].
  - by apply map_Forall_delete'.
  - rewrite !dom_delete_L. congruence.
Qed.

Lemma flush_cancelled_wf c now s : queue_wf s -> queue_wf (flush_cancelled c now s).1.
Proof.
  intros Hwf. unfold flush_cancelled, mark_in_flight. cbv zeta. wf_split Hwf.
  - rewrite dom_insert_L. congruence.
  - rewrite dom_insert_L. congruence.
  - rewrite dom_insert_L. congruence.
  - by apply map_Forall_delete'.
  - rewrite !dom_delete_L. congruence.
Qed.

Lemma flush_next_wf now s : queue_wf s -> queue_wf (flush_next now s).1.
Proof.
  intros Hwf%(expire_wf now). unfold flush_next.
  destruct (pick_ready now (expire now s)) as [c|].
  - pose proof (flush_queue_wf c now _ Hwf) as Hf. by destruct (flush_queue c now _).
  - destruct (pick_cancelled (expire now s)) as [c|]; [|done].
    pose proof (flush_cancelled_wf c now _ Hwf) as Hf. by destruct (flush_cancelled c now _).
Qed.

Lemma mark_complete_wf now c s : queue_wf s -> queue_wf (mark_complete now c s).
Proof.
  intros Hwf. unfold mark_complete. cbv zeta. case_match; [case_match|];
    wf_split Hwf; rewrite ?dom_delete_L; try congruence; by apply map_Forall_delete'.
Qed.

Lemma requeue_wf now nanos b s : queue_wf s -> queue_wf (requeue now nanos b s).1.
Proof.
  intros Hwf. unfold requeue. cbv zeta.
  set (attempt := (default 0 (retry_counts s !! fb_channel_id b) + 1)%N).
  destruct (N.ltb_spec MAX_RETRIES attempt); cbn [fst].
  - wf_split Hwf. by rewrite delete_insert_eq; apply map_Forall_delete'.
  - assert (queue_wf (set_retry_counts (<[fb_channel_id b:=attempt]> (retry_counts s)) s)) as Hwf'.
    { wf_split Hwf. apply map_Forall_insert_2; [lia|done]. }
    apply set_retry_after_wf, restock_wf; [|done].
    apply restored_row_ok; [done|]. by apply Forall_map, Forall_true.
Qed.

Lemma requeue_preserve_wf b s : queue_wf s -> queue_wf (requeue_preserve_timestamps b s).
Proof.
  intros Hwf. apply restock_wf; [|done]. apply restored_row_ok; [done|].
  by apply Forall_map, Forall_true.
Qed.

Lemma requeue_as_cancelled_wf b r s : queue_wf s -> queue_wf (requeue_as_cancelled b r s).
Proof.
  intros Hwf. unfold requeue_as_cancelled. cbv zeta.
  set (entry := default [] _ ++ _).
  set (entry' := if MAX_PENDING_PER_CHANNEL <? length entry then _ else entry).
  assert (length entry' <= MAX_PENDING_PER_CHANNEL) as Hlen.
  { unfold entry'. destruct (Nat.ltb_spec MAX_PENDING_PER_CHANNEL (length entry)); [|done].
    rewrite length_drop. lia. }
  clearbody entry'. wf_split Hwf.
  - by apply map_Forall_insert_2.
  - rewrite !dom_insert_L. congruence.
Qed.

Lemma drain_channel_wf c s : queue_wf s -> queue_wf (drain_channel c s).1.
Proof.
  intros Hwf. wf_split Hwf; try by apply map_Forall_delete'. rewrite !dom_delete_L. congruence.
Qed.

Lemma drain_all_wf cs s ids :
  queue_wf s ->
  queue_wf (foldl (fun acc conversation =>
    let '(s, ids) := acc in
    let '(s', more) := drain_channel conversation s in (s', ids ++ more)) (s, ids) cs).1.
Proof.
  revert s ids. induction cs as [|c cs IH]; intros s ids Hwf; [done|]. cbn [foldl].
  destruct (drain_channel c s) as [s' more] eqn:Ed. apply IH.
  pose proof (drain_channel_wf c s Hwf) as Hd. by rewrite Ed in Hd.
Qed.

Lemma take_first_spec {A} (f : A -> bool) l x rest :
  take_first f l = Some (x, rest) ->
  f x = true /\ exists a b, l = a ++ x :: b /\ rest = a ++ b.
Proof.
  revert rest. induction l as [|y l IH]; intros rest; cbn; [done|].
  destruct (f y) eqn:Ef.
  - intros [= -> ->]. split; [done|]. by exists [], rest.
  - destruct (take_first f l) as [[z rest']|]; [|done]. intros [= -> <-].
    destruct (IH rest' eq_refl) as (Hf & a & b & -> & ->). split; [done|]. by exists (y :: a), b.
Qed.

Lemma take_first_Forall {A} (f : A -> bool) P l x rest :
  take_first f l = Some (x, rest) -> Forall P l -> P x /\ Forall P rest.
Proof.
  intros (_ & a & b & -> & ->)%take_first_spec [Ha Hb]%Forall_app.
  inversion Hb; subst. split; [done|by apply Forall_app].
Qed.

Lemma take_first_length {A} (f : A -> bool) l x rest :
  take_first f l = Some (x, rest) -> length l = S (length rest).
Proof. intros (_ & a & b & -> & ->)%take_first_spec. rewrite !length_app. cbn. lia. Qed.

Lemma mark_native_steer_pending_wf c id s :
  queue_wf s -> queue_wf (mark_native_steer_pending c id s).1.
Proof.
  intros Hwf. unfold mark_native_steer_pending.
  destruct (queues s !! c) as [q|] eqn:Eq; [|done].
  destruct (take_first (has_hex id) q) as [[qe rest]|] eqn:Et; [|done]. cbv zeta.
  destruct (wf_queues _ Hwf c q Eq) as [Hl Hf].
  destruct (take_first_Forall _ _ _ _ _ Et Hf) as [Hqe Hrest].
  pose proof (take_first_length _ _ _ _ Et) as Hlen. wf_split Hwf.
  - apply map_Forall_store; [|done]. intros _. split; [lia|done].
  - apply map_Forall_insert_2; [|done]. split; [by destruct (default _ _)|].
    apply Forall_app. split; [|by repeat constructor].
    destruct (withheld_native_steer s !! c) as [w|] eqn:Ew; [|constructor].
    by apply (wf_withheld0 c w).
Qed.

Lemma release_native_steer_wf c id s : queue_wf s -> queue_wf (release_native_steer c id s).
Proof.
  intros Hwf. unfold release_native_steer.
  destruct (withheld_native_steer s !! c) as [w|] eqn:Ew; [|done].
  destruct (take_first (has_hex id) w) as [[qe rest]|] eqn:Et; [|done]. cbv zeta.
  destruct (wf_withheld _ Hwf c w Ew) as [_ Hf].
  destruct (take_first_Forall _ _ _ _ _ Et Hf) as [Hqe Hrest].
  assert (queue_wf (set_withheld_native_steer (store_or_remove c rest (withheld_native_steer s)) s))
    as Hwf'.
  { wf_split Hwf. by apply map_Forall_store. }
  apply restock_wf; [|done].
  apply (restored_row_ok c [qe]); [done|by repeat constructor].
Qed.

Lemma filter_row_ok c f q : row_ok c q -> row_ok c (List.filter f q).
Proof.
  intros [Hl Hf]. split.
  - pose proof (filter_length_le f q). lia.
  - apply Forall_forall. intros x Hx. apply list_elem_of_In, filter_In in Hx as [Hx _].
    rewrite Forall_forall in Hf. by apply Hf, list_elem_of_In.
Qed.

Lemma filter_channel c f (q : list QueuedEvent) :
  Forall (fun e => qe_channel_id e = c) q -> Forall (fun e => qe_channel_id e = c) (List.filter f q).
Proof.
  rewrite !Forall_forall. intros Hf x Hx. apply list_elem_of_In, filter_In in Hx as [Hx _].
  by apply Hf, list_elem_of_In.
Qed.

Lemma retain_row_rows id c m : map_Forall row_ok m -> map_Forall row_ok (retain_row id c m).1.
Proof.
  intros Hm. unfold retain_row. destruct (m !! c) as [q|] eqn:Eq; [|done]. cbn [fst].
  apply map_Forall_store; [|done]. intros _. by apply filter_row_ok, Hm.
Qed.

Lemma retain_row_withheld id c m :
  map_Forall withheld_ok m -> map_Forall withheld_ok (retain_row id c m).1.
Proof.
  intros Hm. unfold retain_row. destruct (m !! c) as [q|] eqn:Eq; [|done]. cbn [fst].
  apply map_Forall_store; [|done]. intros Hne. split; [done|]. by apply filter_channel, (Hm c q).
Qed.

Lemma remove_event_wf c id s : queue_wf s -> queue_wf (remove_event c id s).1.
Proof.
  intros Hwf. unfold remove_event.
  pose proof (retain_row_withheld id c _ (wf_withheld _ Hwf)) as Hw.
  pose proof (retain_row_rows id c _ (wf_queues _ Hwf)) as Hq.
  destruct (retain_row id c (withheld_native_steer s)) as [w rw]. cbn [queues set_withheld_native_steer].
  destruct (retain_row id c (queues s)) as [q rq]. wf_split Hwf.
Qed.

Lemma retain_all_lookup id m c q' :
  (retain_all id m).1 !! c = Some q' ->
  q' <> [] /\ exists q, m !! c = Some q /\ q' = List.filter (fun qe => negb (has_hex id qe)) q.
Proof.
  unfold retain_all. cbn [fst]. rewrite lookup_omap. destruct (m !! c) as [q|]; cbn; [|done].
  destruct (List.filter _ q) eqn:Ef; [done|]. intros [= <-]. split; [done|]. by exists q.
Qed.

Lemma remove_event_by_id_wf id s : queue_wf s -> queue_wf (remove_event_by_id id s).1.
Proof.
  intros Hwf. unfold remove_event_by_id.
  assert (map_Forall withheld_ok (retain_all id (withheld_native_steer s)).1) as Hw.
  { intros c q' (Hne & q & Hq & ->)%retain_all_lookup. split; [done|].
    by apply filter_channel, (wf_withheld _ Hwf c q). }
  assert (map_Forall row_ok (retain_all id (queues s)).1) as Hq.
  { intros c q' (_ & q & Hq & ->)%retain_all_lookup. by apply filter_row_ok, (wf_queues _ Hwf). }
  destruct (retain_all id (withheld_native_steer s)) as [w rw]. cbn [queues set_withheld_native_steer].
  destruct (retain_all id (queues s)) as [q rq]. wf_split Hwf.
Qed.

Lemma edit_first_shape id content q q' :
  edit_first id content q = Some q' ->
  length q' = length q /\ q' <> [] /\ forall c,
    Forall (fun e => qe_channel_id e = c) q -> Forall (fun e => qe_channel_id e = c) q'.
Proof.
  revert q'. induction q as [|x q IH]; intros q'; cbn; [done|]. destruct (has_hex id x).
  - intros [= <-]. split_and!; [done|done|]. intros c Hf. inversion Hf; subst. by constructor.
  - destruct (edit_first id content q) as [r|]; cbn; [|done]. intros [= <-].
    destruct (IH r eq_refl) as (Hl & _ & Hf). split_and!; [cbn; lia|done|].
    intros c Hc. inversion Hc; subst. constructor; auto.
Qed.

Lemma patch_table_lookup id content m m' c q' :
  patch_table id content m = Some m' -> m' !! c = Some q' ->
  m !! c = Some q' \/ exists q, m !! c = Some q /\ edit_first id content q = Some q'.
Proof.
  unfold patch_table. rewrite find_map_spec. intros (b & [k q] & a & Hit & Hf & _) Hc. cbn in Hf.
  destruct (edit_first id content q) as [r|] eqn:Er; [|done]. injection Hf as <-.
  apply lookup_insert_Some in Hc as [[<- <-]|[_ Hc]]; [|by left]. right. exists q. split; [|done].
  apply elem_of_map_to_list. rewrite <- iter_perm, Hit. set_solver.
Qed.

Lemma patch_event_wf id content s : queue_wf s -> queue_wf (patch_event id content s).1.
Proof.
  intros Hwf. unfold patch_event.
  destruct (patch_table id content (withheld_native_steer s)) as [w|] eqn:Ew.
  { wf_split Hwf. intros c q' Hc.
    destruct (patch_table_lookup _ _ _ _ _ _ Ew Hc) as [?|(q & Hq & He)]; [by apply wf_withheld0|].
    apply edit_first_shape in He as (_ & Hne & Hf). split; [done|]. by apply Hf, (wf_withheld0 c q). }
  destruct (patch_table id content (queues s)) as [q0|] eqn:Eq; [|done].
  wf_split Hwf. intros c q' Hc.
  destruct (patch_table_lookup _ _ _ _ _ _ Eq Hc) as [?|(q & Hq & He)]; [by apply wf_queues0|].
  apply edit_first_shape in He as (Hl & _ & Hf). destruct (wf_queues0 c q Hq) as [? ?].
  split; [lia|auto].
Qed.

Lemma compact_wf now s : queue_wf s -> queue_wf (compact_expired_state now s).
Proof.
  intros Hwf. wf_split Hwf. intros c n [Hn _]%map_lookup_filter_Some. by apply (wf_counts0 c).
Qed.

Lemma extend_wf now c secs s : queue_wf s -> queue_wf (extend_in_flight_deadline now c secs s).
Proof.
  intros Hwf. unfold extend_in_flight_deadline.
  destruct (in_flight_deadlines s !! c) as [d|] eqn:Ed; [|done]. cbv zeta.
  destruct (d <? _)%N; [|done]. wf_split Hwf. rewrite dom_insert_L.
  apply elem_of_dom_2 in Ed. set_solver.
Qed.
End preservation.

Lemma EventQueue_new_wf mode : queue_wf (EventQueue_new mode).
Proof. constructor; cbn; try done; by rewrite ?dom_empty_L. Qed.

Lemma apply_op_wf `{NostrLib, UuidLib} O op s : queue_wf s -> queue_wf (apply_op O op s).
Proof.
  intros Hwf. destruct op; cbn [apply_op];
    auto using push_wf, flush_next_wf, expire_wf, mark_complete_wf, requeue_wf, requeue_preserve_wf,
      requeue_as_cancelled_wf, drain_channel_wf, mark_native_steer_pending_wf,
      release_native_steer_wf, remove_event_wf, remove_event_by_id_wf, patch_event_wf, compact_wf,
      extend_wf, set_retry_after_wf.
  - cbn [has_flushable_work fst]. by apply expire_wf.
  - wf_split Hwf.
  - by apply set_retry_after_wf.
  - unfold drain_routing_channel. by apply drain_all_wf.
Qed.

Lemma reachable_wf `{NostrLib, UuidLib} s : reachable s -> queue_wf s.
Proof.
  induction 1 as [mode secs hold|mode|O op s _ IH].
  - pose proof (EventQueue_new_wf mode) as Hwf. wf_split Hwf.
  - apply EventQueue_new_wf.
  - by apply apply_op_wf.
Qed.

(** ** Where cancelled batches come from *)

(** Every cancelled row of [s'] is one of [s]. *)
Definition cancelled_kept (s s' : EventQueue) : Prop := cancelled_batches s' ⊆ cancelled_batches s.

#[local] Instance cancelled_kept_preorder : PreOrder cancelled_kept.
Proof. split; [intros s; unfold cancelled_kept; reflexivity|]. intros s1 s2 s3 H12 H23. unfold cancelled_kept in *. by etrans. Qed.

Section cancelled.
Context `{NostrLib, UuidLib, HashOrder}.

Lemma enforce_cancelled c s : cancelled_batches (enforce_routing_channel_cap c s) = cancelled_batches s.
Proof. unfold enforce_routing_channel_cap. by destruct (queues s !! c). Qed.

Lemma expire_cancelled now s : cancelled_batches (expire now s) = cancelled_batches s.
Proof.
  unfold expire. generalize (expired_ids now s). intros ids. revert s.
  induction ids as [|i ids IH]; intros s; [done|]. cbn [foldl]. rewrite IH.
  unfold expire_one, recover_withheld_for_expired_channel. case_match; by rewrite ?enforce_cancelled.
Qed.

Lemma flush_next_cancelled now s : cancelled_kept s (flush_next now s).1.
Proof.
  unfold cancelled_kept, flush_next. rewrite <- (expire_cancelled now s). generalize (expire now s). clear s. intros s.
  destruct (pick_ready now s); [apply delete_subseteq|]. destruct (pick_cancelled s); [apply delete_subseteq|done].
Qed.

Lemma drain_cancelled c s : cancelled_kept s (drain_channel c s).1.
Proof. apply delete_subseteq. Qed.

Lemma drain_routing_cancelled c s : cancelled_kept s (drain_routing_channel c s).1.
Proof.
  unfold drain_routing_channel. generalize (iter_set (conversations_of c s)) (@nil string). intros cs. revert s.
  induction cs as [|x cs IH]; intros s ids; [done|]. cbn [foldl].
  pose proof (drain_cancelled x s) as Hx. destruct (drain_channel x s) as [s1 more].
  transitivity s1; [exact Hx|apply IH].
Qed.

Lemma apply_op_cancelled op s c q :
  cancelled_batches (apply_op _ op s) !! c = Some q ->
  cancelled_batches s !! c = Some q \/
  exists b r, op = OpRequeueAsCancelled b r /\ fb_channel_id b = c /\
    q `suffix_of` (default [] (cancelled_batches s !! c) ++ fb_cancelled_events b ++ fb_events b).
Proof.
  destruct op; cbn [apply_op]; intros Hq.
  7:{ unfold requeue_as_cancelled in Hq. cbn [cancelled_batches set_cancel_reasons set_cancelled_batches] in Hq.
      apply lookup_insert_Some in Hq as [[<- <-]|[_ Hq]]; [|by left]. right. exists b, r. split_and!; [done..|].
      case_match; [apply suffix_drop|done]. }
  all: left.
  - revert Hq. unfold push. repeat case_match; cbn [fst]; by rewrite ?enforce_cancelled.
  - by apply (lookup_weaken _ _ _ _ Hq), flush_next_cancelled.
  - revert Hq. cbn [has_flushable_work fst]. by rewrite expire_cancelled.
  - revert Hq. unfold mark_complete. by repeat case_match.
  - revert Hq. unfold requeue. case_match; cbn; by rewrite ?enforce_cancelled.
  - revert Hq. unfold requeue_preserve_timestamps. by rewrite enforce_cancelled.
  - done.
  - done.
  - by apply (lookup_weaken _ _ _ _ Hq), drain_cancelled.
  - by apply (lookup_weaken _ _ _ _ Hq), drain_routing_cancelled.
  - revert Hq. unfold mark_native_steer_pending. by repeat case_match.
  - revert Hq. unfold release_native_steer. repeat case_match; by rewrite ?enforce_cancelled.
  - revert Hq. unfold remove_event. by repeat case_match.
  - done.
  - revert Hq. unfold patch_event. by repeat case_match.
  - done.
  - revert Hq. unfold extend_in_flight_deadline. by repeat case_match.
Qed.
End cancelled.


