(* ===== verification/QueueCap.v ===== *)
(** The aggregate cap: partitioning a channel into conversations does not
    multiply its 500-event bound.

    A conversation identity is derived from one channel, so all events of a
    conversation carry the same [h] tag; [route] is that assignment.  Under it
    the cap that [enforce_routing_channel_cap] restores for the channel of one
    conversation holds for every channel at all times. *)

From S2P Require Import Prelude Nostr Thread Queue QueueInv.

Section routed.
Context `{NostrLib, UuidLib} (route : Uuid -> Uuid).

(** An event belongs to the channel of its conversation. *)
Definition routed_event (c : Uuid) (e : Event) : Prop :=
  default c (routing_channel_id e) = route c.

Definition routed_row (c : Uuid) (q : list QueuedEvent) : Prop :=
  Forall (fun qe => routed_event c (qe_event qe)) q.

(** The events an operation brings into the queue obey the assignment. *)
Definition op_routed (op : Op) : Prop :=
  match op with
  | OpPush e => routed_event (qe_channel_id e) (qe_event e)
  | OpRequeue _ _ b | OpRequeuePreserve b =>
      Forall (fun be => routed_event (fb_channel_id b) (be_event be)) (fb_events b)
  | _ => True
  end.

Inductive reachable_routed : EventQueue -> Prop :=
| routed_new mode secs hold :
    reachable_routed (with_dispatch_hold hold (with_in_flight_deadline secs (EventQueue_new mode)))
| routed_step O op s : reachable_routed s -> op_routed op -> reachable_routed (apply_op O op s).

(** ** Rows that only lose events *)

Definition shrunk_row (q' q : list QueuedEvent) : Prop :=
  map qe_event q' `sublist_of` map qe_event q.

Definition shrunk (qs' qs : gmap Uuid (list QueuedEvent)) : Prop :=
  forall c q', qs' !! c = Some q' -> exists q, qs !! c = Some q /\ shrunk_row q' q.

Lemma shrunk_row_length q' q : shrunk_row q' q -> length q' <= length q.
Proof. intros Hs%sublist_length. by rewrite !length_map in Hs. Qed.

Lemma shrunk_row_routed c q' q : shrunk_row q' q -> routed_row c q -> routed_row c q'.
Proof.
  unfold routed_row. intros Hs Hq. apply (Forall_map qe_event (routed_event c)) in Hq.
  apply (Forall_map qe_event (routed_event c)). rewrite Forall_forall in *.
  intros x Hx. apply Hq. by eapply sublist_subseteq.
Qed.

Lemma shrunk_refl qs : shrunk qs qs.
Proof. intros c q Hq. exists q. split; [done|]. unfold shrunk_row. reflexivity. Qed.

Lemma shrunk_trans qs1 qs2 qs3 : shrunk qs1 qs2 -> shrunk qs2 qs3 -> shrunk qs1 qs3.
Proof.
  intros H12 H23 c q (q2 & Hq2 & Hs)%H12. apply H23 in Hq2 as (q3 & Hq3 & Hs').
  exists q3. split; [done|]. unfold shrunk_row in *. by etransitivity.
Qed.

Lemma shrunk_suffix q' q : q' `suffix_of` q -> shrunk_row q' q.
Proof. intros [k ->]. unfold shrunk_row. rewrite map_app. by apply sublist_inserts_l. Qed.

Lemma trimmed_shrunk qs' qs : trimmed qs' qs -> shrunk qs' qs.
Proof. intros Ht c q' (q & Hq & Hs)%Ht. exists q. split; [done|by apply shrunk_suffix]. Qed.

Lemma shrunk_delete c qs : shrunk (delete c qs) qs.
Proof. intros c' q' [_ Hq]%lookup_delete_Some. by apply shrunk_refl. Qed.

Lemma shrunk_store c q' q qs : qs !! c = Some q -> shrunk_row q' q -> shrunk (store_or_remove c q' qs) qs.
Proof.
  intros Hq Hs c' r [(<- & <- & _)|(_ & Hr)]%lookup_store_or_remove; [by exists q|by apply shrunk_refl].
Qed.

Lemma shrunk_filter f q : shrunk_row (List.filter f q) q.
Proof.
  unfold shrunk_row. induction q as [|x q IH]; cbn; [done|].
  destruct (f x); cbn; [by apply sublist_skip|by apply sublist_cons].
Qed.

Lemma shrunk_take_first f q x rest : take_first f q = Some (x, rest) -> shrunk_row rest q.
Proof.
  intros (_ & a & b & -> & ->)%take_first_spec. unfold shrunk_row. rewrite !map_app.
  apply sublist_app; [done|]. cbn. by apply sublist_cons.
Qed.

Lemma shrunk_edit id content q q' : edit_first id content q = Some q' -> shrunk_row q' q.
Proof.
  revert q'. induction q as [|x q IH]; intros q'; cbn; [done|]. destruct (has_hex id x).
  - intros [= <-]. unfold shrunk_row. reflexivity.
  - destruct (edit_first id content q) as [r|]; cbn; [|done]. intros [= <-].
    unfold shrunk_row. cbn. apply sublist_skip. by apply IH.
Qed.

(** ** Totals under the assignment *)

Definition route_length (channel : Uuid) (e : Uuid * list QueuedEvent) : nat :=
  if (route e.1 =? channel)%N then length e.2 else 0.

Definition route_total (channel : Uuid) (qs : gmap Uuid (list QueuedEvent)) : nat :=
  row_sum (route_length channel) qs.

Lemma routed_length_eq channel c q :
  routed_row c q -> routed_length channel (c, q) = route_length channel (c, q).
Proof.
  unfold routed_length, route_length, queued_routing_channel. cbn [fst snd].
  destruct 1 as [|x q Hx _]; [by destruct (_ =? _)%N, (_ =? _)%N|]. cbn. by rewrite Hx.
Qed.

Lemma routed_total_eq channel qs :
  map_Forall routed_row qs -> routed_total channel qs = route_total channel qs.
Proof.
  rewrite routed_total_sum. unfold route_total.
  induction qs as [|c q qs Hn IH] using map_ind; [done|]. intros Hr.
  rewrite !row_sum_insert by done. rewrite map_Forall_insert in Hr by done. destruct Hr as [Hq Hr].
  by rewrite (routed_length_eq channel c q Hq), IH.
Qed.

Lemma route_total_shrunk channel qs' qs : shrunk qs' qs -> route_total channel qs' <= route_total channel qs.
Proof.
  unfold route_total. revert qs. induction qs' as [|c q' qs' Hn IH] using map_ind; intros qs Hs.
  { unfold row_sum. rewrite map_to_list_empty. cbn. lia. }
  destruct (Hs c q') as (q & Hq & Hrow); [apply lookup_insert_eq|].
  rewrite row_sum_insert by done. rewrite (row_sum_delete _ qs c q Hq).
  apply shrunk_row_length in Hrow. apply Nat.add_le_mono.
  - unfold route_length. cbn [fst snd]. destruct (_ =? _)%N; lia.
  - apply IH. intros c' r Hr. destruct (decide (c = c')) as [<-|Hne]; [congruence|].
    destruct (Hs c' r) as (r0 & Hr0 & ?); [by rewrite lookup_insert_ne|].
    exists r0. by rewrite lookup_delete_ne.
Qed.

Lemma routed_shrunk qs' qs : shrunk qs' qs -> map_Forall routed_row qs -> map_Forall routed_row qs'.
Proof. intros Hs Hr c q' (q & Hq & Hrow)%Hs. eapply shrunk_row_routed; [exact Hrow|by apply Hr]. Qed.

(** ** The invariant *)

Record capped (s : EventQueue) : Prop := {
  cap_queues : map_Forall routed_row (queues s);
  cap_withheld : map_Forall routed_row (withheld_native_steer s);
  cap_total : forall channel, route_total channel (queues s) <= MAX_PENDING_PER_CHANNEL;
}.

Lemma capped_shrunk s' s :
  shrunk (queues s') (queues s) -> shrunk (withheld_native_steer s') (withheld_native_steer s) ->
  capped s -> capped s'.
Proof.
  intros Hq Hw [Hcq Hcw Ht]. constructor; [by eapply routed_shrunk..|].
  intros channel. etransitivity; [by apply route_total_shrunk|done].
Qed.

Lemma capped_same s' s :
  queues s' = queues s -> withheld_native_steer s' = withheld_native_steer s -> capped s -> capped s'.
Proof. intros Hq Hw. apply capped_shrunk; rewrite ?Hq, ?Hw; apply shrunk_refl. Qed.

Lemma capped_set_retry_after x s : capped s -> capped (set_retry_after x s).
Proof. by apply capped_same. Qed.

(** Putting a row back and enforcing the cap keeps every channel's total. *)
Lemma capped_restock `{HashOrder} c row s :
  routed_row c row -> capped s ->
  capped (enforce_routing_channel_cap c (set_queues (<[c := row]> (queues s)) s)).
Proof.
  intros Hrow [Hcq Hcw Ht].
  destruct (enforce_effect c (set_queues (<[c := row]> (queues s)) s)) as (qs' & -> & Htr & Hcap).
  cbn [queues set_queues] in Htr, Hcap. apply trimmed_shrunk in Htr.
  assert (map_Forall routed_row qs') as Hqs'.
  { eapply routed_shrunk; [exact Htr|]. by apply map_Forall_insert_2. }
  constructor; cbn [queues withheld_native_steer set_queues]; [done|done|]. intros channel.
  destruct (decide (route c = channel /\ row <> [])) as [[<- Hne]|Hno].
  - rewrite <- routed_total_eq by done. specialize (Hcap row (lookup_insert_eq _ _ _)).
    destruct Hrow as [|x q Hx _]; [done|]. cbn in Hcap. by rewrite Hx in Hcap.
  - etransitivity; [by apply route_total_shrunk|]. unfold route_total. rewrite row_sum_update.
    assert (route_length channel (c, row) = 0) as ->.
    { unfold route_length. cbn [fst snd]. destruct (N.eqb_spec (route c) channel); [|done].
      destruct row; [done|]. destruct Hno. by split. }
    etransitivity; [apply route_total_shrunk, shrunk_delete|apply Ht].
Qed.

Lemma routed_default c s : capped s -> routed_row c (default [] (queues s !! c)).
Proof.
  intros Hc. destruct (queues s !! c) as [q|] eqn:Eq; [|constructor]. by apply (cap_queues _ Hc).
Qed.

Lemma routed_restored c xs s :
  capped s -> routed_row c xs -> routed_row c (trim_back (push_front_all xs (default [] (queues s !! c)))).
Proof.
  intros Hc Hxs. apply trim_back_forall. rewrite push_front_all_app. apply Forall_app.
  split; [done|by apply routed_default].
Qed.

Lemma routed_tail c q : routed_row c q -> routed_row c (tail q).
Proof. intros Hq. by destruct Hq; [constructor|]. Qed.

Section with_order.
Context `{HashOrder}.

Lemma push_capped e s :
  routed_event (qe_channel_id e) (qe_event e) -> capped s -> capped (push e s).1.
Proof.
  intros He Hc. unfold push. destruct (contains_event _ _ _); [done|].
  destruct (_ && _); [done|]. cbn [fst]. apply capped_restock; [|done].
  apply Forall_app. split; [|by repeat constructor].
  pose proof (routed_default (qe_channel_id e) s Hc). destruct (_ <=? _); [by apply routed_tail|done].
Qed.

Lemma recover_capped c s : capped s -> capped (recover_withheld_for_expired_channel c s).
Proof.
  intros Hc. unfold recover_withheld_for_expired_channel.
  destruct (withheld_native_steer s !! c) as [w|] eqn:Ew; [|done]. cbv zeta.
  assert (capped (set_withheld_native_steer (delete c (withheld_native_steer s)) s)) as Hc'.
  { apply (capped_shrunk _ s); [apply shrunk_refl|apply shrunk_delete|done]. }
  apply capped_restock; [|done]. apply routed_restored; [done|]. by apply (cap_withheld _ Hc).
Qed.

Lemma expire_capped now s : capped s -> capped (expire now s).
Proof.
  unfold expire. generalize (expired_ids now s) as ids. intros ids. revert s.
  induction ids as [|c ids IH]; intros s Hc; cbn [foldl]; [done|]. apply IH, recover_capped.
  by apply (capped_same _ s).
Qed.

Lemma flush_queue_capped c now s : capped s -> capped (flush_queue c now s).1.
Proof.
  intros Hc. apply (capped_shrunk _ s); [|apply shrunk_refl|done]. cbn -[MAX_BATCH_EVENTS].
  destruct (queues s !! c) as [q|] eqn:Eq; cbn [default].
  - eapply shrunk_store; [done|]. apply shrunk_suffix.
    exists (take (Nat.min MAX_BATCH_EVENTS (length q)) q). by rewrite take_drop.
  - apply shrunk_delete.
Qed.

Lemma flush_next_capped now s : capped s -> capped (flush_next now s).1.
Proof.
  intros Hc%(expire_capped now). unfold flush_next.
  destruct (pick_ready now (expire now s)) as [c|].
  - pose proof (flush_queue_capped c now _ Hc) as Hf. by destruct (flush_queue c now _).
  - destruct (pick_cancelled (expire now s)) as [c|]; [|done].
    by apply (capped_same _ (expire now s)).
Qed.

Lemma requeue_capped now nanos b s :
  Forall (fun be => routed_event (fb_channel_id b) (be_event be)) (fb_events b) ->
  capped s -> capped (requeue now nanos b s).1.
Proof.
  intros Hb Hc. unfold requeue. cbv zeta. destruct (_ <? _)%N; cbn [fst].
  - by apply (capped_same _ s).
  - set (s1 := set_retry_counts _ s).
    assert (capped s1) as Hc1 by (by apply (capped_same _ s)).
    apply capped_set_retry_after, capped_restock; [|done]. apply routed_restored; [done|]. by apply Forall_map.
Qed.

Lemma release_capped c id s : capped s -> capped (release_native_steer c id s).
Proof.
  intros Hc. unfold release_native_steer.
  destruct (withheld_native_steer s !! c) as [w|] eqn:Ew; [|done].
  destruct (take_first (has_hex id) w) as [[qe rest]|] eqn:Et; [|done]. cbv zeta.
  pose proof (cap_withheld _ Hc c w Ew) as Hw.
  destruct (take_first_Forall _ _ _ _ _ Et Hw) as [Hqe Hrest].
  set (s1 := set_withheld_native_steer _ s).
  assert (capped s1) as Hc1.
  { apply (capped_shrunk _ s); [apply shrunk_refl| |done].
    eapply shrunk_store; [done|by eapply shrunk_take_first]. }
  apply capped_restock; [|done]. apply (routed_restored c [qe]); [done|by repeat constructor].
Qed.

Lemma mark_native_capped c id s : capped s -> capped (mark_native_steer_pending c id s).1.
Proof.
  intros Hc. unfold mark_native_steer_pending.
  destruct (queues s !! c) as [q|] eqn:Eq; [|done].
  destruct (take_first (has_hex id) q) as [[qe rest]|] eqn:Et; [|done]. cbn [fst].
  pose proof (cap_queues _ Hc c q Eq) as Hq.
  destruct (take_first_Forall _ _ _ _ _ Et Hq) as [Hqe Hrest].
  assert (shrunk (store_or_remove c rest (queues s)) (queues s)) as Hs.
  { eapply shrunk_store; [done|by eapply shrunk_take_first]. }
  destruct Hc as [Hcq Hcw Ht]. constructor; cbn.
  - by eapply routed_shrunk.
  - apply map_Forall_insert_2; [|done]. apply Forall_app. split; [|by repeat constructor].
    destruct (withheld_native_steer s !! c) as [w|] eqn:Ew; [by apply (Hcw c)|constructor].
  - intros channel. etransitivity; [by apply route_total_shrunk|done].
Qed.

Lemma retain_row_shrunk id c m : shrunk (retain_row id c m).1 m.
Proof.
  unfold retain_row. destruct (m !! c) as [q|] eqn:Eq; [|apply shrunk_refl]. cbn [fst].
  eapply shrunk_store; [done|apply shrunk_filter].
Qed.

Lemma retain_all_shrunk id m : shrunk (retain_all id m).1 m.
Proof.
  intros c q' (_ & q & Hq & ->)%retain_all_lookup. exists q. split; [done|apply shrunk_filter].
Qed.

Lemma patch_table_shrunk id content m m' : patch_table id content m = Some m' -> shrunk m' m.
Proof.
  intros Hp c q' Hc. destruct (patch_table_lookup _ _ _ _ _ _ Hp Hc) as [?|(q & Hq & He)].
  - by apply shrunk_refl.
  - exists q. split; [done|by eapply shrunk_edit].
Qed.

Lemma remove_event_capped c id s : capped s -> capped (remove_event c id s).1.
Proof.
  intros Hc. unfold remove_event.
  pose proof (retain_row_shrunk id c (withheld_native_steer s)) as Hw.
  pose proof (retain_row_shrunk id c (queues s)) as Hq.
  destruct (retain_row id c (withheld_native_steer s)) as [w rw]. cbn [queues set_withheld_native_steer].
  destruct (retain_row id c (queues s)) as [q rq]. by apply (capped_shrunk _ s).
Qed.

Lemma remove_event_by_id_capped id s : capped s -> capped (remove_event_by_id id s).1.
Proof.
  intros Hc. unfold remove_event_by_id.
  pose proof (retain_all_shrunk id (withheld_native_steer s)) as Hw.
  pose proof (retain_all_shrunk id (queues s)) as Hq.
  destruct (retain_all id (withheld_native_steer s)) as [w rw]. cbn [queues set_withheld_native_steer].
  destruct (retain_all id (queues s)) as [q rq]. by apply (capped_shrunk _ s).
Qed.

Lemma patch_event_capped id content s : capped s -> capped (patch_event id content s).1.
Proof.
  intros Hc. unfold patch_event.
  destruct (patch_table id content (withheld_native_steer s)) as [w|] eqn:Ew.
  { apply (capped_shrunk _ s); [apply shrunk_refl|by eapply patch_table_shrunk|done]. }
  destruct (patch_table id content (queues s)) as [q|] eqn:Eq; [|done].
  apply (capped_shrunk _ s); [by eapply patch_table_shrunk|apply shrunk_refl|done].
Qed.

Lemma drain_channel_capped c s : capped s -> capped (drain_channel c s).1.
Proof. intros Hc. apply (capped_shrunk _ s); [apply shrunk_delete..|done]. Qed.

Lemma drain_all_capped cs s ids :
  capped s ->
  capped (foldl (fun acc conversation =>
    let '(s, ids) := acc in
    let '(s', more) := drain_channel conversation s in (s', ids ++ more)) (s, ids) cs).1.
Proof.
  revert s ids. induction cs as [|c cs IH]; intros s ids Hc; [done|]. cbn [foldl].
  destruct (drain_channel c s) as [s' more] eqn:Ed. apply IH.
  pose proof (drain_channel_capped c s Hc) as Hd. by rewrite Ed in Hd.
Qed.

Lemma mark_complete_capped now c s : capped s -> capped (mark_complete now c s).
Proof.
  intros Hc. unfold mark_complete. cbv zeta.
  case_match; [case_match|]; by apply (capped_same _ s).
Qed.

Lemma extend_capped now c secs s : capped s -> capped (extend_in_flight_deadline now c secs s).
Proof.
  intros Hc. unfold extend_in_flight_deadline. case_match; [|done]. cbv zeta.
  case_match; [|done]. by apply (capped_same _ s).
Qed.
End with_order.

Lemma apply_op_capped O op s : op_routed op -> capped s -> capped (apply_op O op s).
Proof.
  intros Hop Hc. destruct op; cbn [apply_op op_routed] in *;
    auto using push_capped, flush_next_capped, mark_complete_capped, requeue_capped,
      drain_channel_capped, mark_native_capped, release_capped, remove_event_capped,
      remove_event_by_id_capped, patch_event_capped, extend_capped;
    try by apply (capped_same _ s).
  - cbn [has_flushable_work fst]. by apply expire_capped.
  - apply capped_restock; [|done]. apply routed_restored; [done|]. by apply Forall_map.
  - by apply drain_all_capped.
Qed.

Lemma reachable_routed_capped s : reachable_routed s -> capped s.
Proof.
  induction 1 as [mode secs hold|O op s _ IH Hop].
  - constructor; cbn; [done..|]. intros channel. unfold route_total, row_sum.
    rewrite map_to_list_empty. cbn. lia.
  - by apply apply_op_capped.
Qed.

(** one pending-work bound per channel: as long as the events of a
    conversation all carry its channel, in every reachable state the queues of
    all conversations routed to one channel hold at most 500 events together,
    whatever was pushed, requeued, released or recovered; a conversation split
    never multiplies the cap. *)
Theorem routing_cap_invariant s channel :
  reachable_routed s -> routed_total channel (queues s) <= MAX_PENDING_PER_CHANNEL.
Proof.
  intros Hc%reachable_routed_capped. rewrite routed_total_eq by apply (cap_queues _ Hc).
  apply (cap_total _ Hc).
Qed.
End routed.

Lemma routing_cap_invariant_witness :
  @routed_total SampleQueue.uuid 3
    (queues (@apply_op Sample.lib SampleQueue.uuid SampleQueue.order
       (OpPush (SampleQueue.queued 7 101 50 5))
       (with_dispatch_hold 0 (with_in_flight_deadline 60 (EventQueue_new Queue)))))
  <= MAX_PENDING_PER_CHANNEL.
Proof.
  apply (@routing_cap_invariant Sample.lib SampleQueue.uuid (fun _ => 3%N) _ 3%N).
  apply routed_step; [apply routed_new|]. vm_compute. reflexivity.
Defined.
