(* ===== verification/QueueFlush.v ===== *)
(** What a flush delivers, when there is work to flush, and the retry policy. *)

From S2P Require Import Prelude Binary64 Nostr Thread Queue QueueInv.

(** ** Selection *)

Section selection.
Context {A : Type} (key : A -> N).

Lemma min_by_key_go l b :
  let step := fun best x => match best with
    | None => Some x
    | Some b => if (key x <? key b)%N then Some x else best end in
  match foldl step b l with
  | None => b = None /\ l = []
  | Some m => (m ∈ l \/ b = Some m) /\
      (forall x, x ∈ l -> (key m <= key x)%N) /\ forall x, b = Some x -> (key m <= key x)%N
  end.
Proof.
  cbv zeta. revert b. induction l as [|x l IH]; intros b; cbn [foldl].
  { destruct b as [b|]; [|done]. split_and!; [by right|set_solver|]. by intros ? [= ->]. }
  specialize (IH (match b with None => Some x
    | Some b0 => if (key x <? key b0)%N then Some x else b end)).
  destruct (foldl _ _ l) as [m|].
  - destruct IH as (Hm & Hall & Hb). destruct b as [b|].
    + destruct (N.ltb_spec (key x) (key b)) as [Hlt|Hge].
      * specialize (Hb x eq_refl). split_and!; [set_solver| |intros ? [= <-]; lia].
        intros y [->|?]%elem_of_cons; auto.
      * specialize (Hb b eq_refl). split_and!; [set_solver| |by intros ? [= <-]].
        intros y [->|?]%elem_of_cons; [lia|auto].
    + specialize (Hb x eq_refl). split_and!; [set_solver| |done].
      intros y [->|?]%elem_of_cons; auto.
  - destruct IH as [Hn _]. destruct b as [b|]; [|done]. by destruct (_ <? _)%N.
Qed.

Lemma min_by_key_spec l :
  match min_by_key key l with
  | None => l = []
  | Some m => m ∈ l /\ forall x, x ∈ l -> (key m <= key x)%N
  end.
Proof.
  pose proof (min_by_key_go l None) as Hgo. cbv zeta in Hgo. fold (min_by_key key l) in Hgo.
  destruct (min_by_key key l); [|tauto]. destruct Hgo as ([?|?] & ? & _); done.
Qed.
End selection.

Lemma elem_of_iter `{HashOrder} {A} (m : gmap N A) k x : (k, x) ∈ iter m <-> m !! k = Some x.
Proof. rewrite iter_perm. apply elem_of_map_to_list. Qed.

Section flush.
Context `{NostrLib, UuidLib, HashOrder}.

(** The channel [c] is ready, its queue [q] having the oldest ready head. *)
Definition oldest_ready (now : Instant) (s : EventQueue) (c : Uuid) (q : list QueuedEvent) : Prop :=
  queues s !! c = Some q /\ eligible now s (c, q) = true /\
  forall c' q', queues s !! c' = Some q' -> eligible now s (c', q') = true ->
    (head_received_at (c, q) <= head_received_at (c', q'))%N.

Definition none_ready (now : Instant) (s : EventQueue) : Prop :=
  forall c q, queues s !! c = Some q -> eligible now s (c, q) = false.

Lemma pick_ready_spec now s :
  match pick_ready now s with
  | Some c => exists q, oldest_ready now s c q
  | None => none_ready now s
  end.
Proof.
  unfold pick_ready.
  pose proof (min_by_key_spec head_received_at (List.filter (eligible now s) (iter (queues s)))) as Hm.
  destruct (min_by_key _ _) as [[c q]|]; cbn.
  - destruct Hm as [Hin Hmin]. apply list_elem_of_In, filter_In in Hin as [Hin He].
    exists q. split_and!; [by apply elem_of_iter, list_elem_of_In|done|].
    intros c' q' Hq' He'. apply Hmin, list_elem_of_In, filter_In. split; [|done].
    by apply list_elem_of_In, elem_of_iter.
  - intros c q Hq. destruct (eligible now s (c, q)) eqn:He; [|done].
    assert ((c, q) ∈ List.filter (eligible now s) (iter (queues s))) as Hin.
    { apply list_elem_of_In, filter_In. split; [|done]. by apply list_elem_of_In, elem_of_iter. }
    rewrite Hm in Hin. set_solver.
Qed.

Lemma pick_cancelled_spec s :
  match pick_cancelled s with
  | Some c => is_Some (cancelled_batches s !! c) /\ c ∉ in_flight_channels s
  | None => forall c, is_Some (cancelled_batches s !! c) -> c ∈ in_flight_channels s
  end.
Proof.
  unfold pick_cancelled.
  assert (forall c, c ∈ map fst (iter (cancelled_batches s)) <-> is_Some (cancelled_batches s !! c)) as Hk.
  { intros c. rewrite list_elem_of_fmap. split.
    - intros ([k x] & -> & Hin). exists x. by apply elem_of_iter.
    - intros [x Hx]. exists (c, x). split; [done|by apply elem_of_iter]. }
  destruct (List.find _ _) as [c|] eqn:Ef.
  - apply find_some in Ef as [Hin Hb]. apply bool_decide_eq_true in Hb.
    split; [|done]. apply Hk. by apply list_elem_of_In.
  - intros c Hc%Hk. pose proof (find_none _ _ Ef c (proj1 (list_elem_of_In _ _) Hc)) as Hb.
    cbn in Hb. apply bool_decide_eq_false in Hb. destruct (decide (c ∈ in_flight_channels s)); tauto.
Qed.

(** ** What a flush does *)

(** Everything of channel [c] that the harness holds while it is in flight. *)
Record in_flight_as (now : Instant) (s' : EventQueue) (b : FlushBatch) : Prop := {
  fa_channel : fb_channel_id b ∈ in_flight_channels s';
  fa_deadline : in_flight_deadlines s' !! fb_channel_id b = Some (now + in_flight_deadline s')%N;
  fa_size : in_flight_batch_sizes s' !! fb_channel_id b = Some (length (fb_events b));
  fa_ids : in_flight_event_ids s' !! fb_channel_id b
           = Some (list_to_set (batch_ids (fb_events b ++ fb_cancelled_events b)));
  fa_no_cancelled : cancelled_batches s' !! fb_channel_id b = None;
}.

(** The batch drained from the head of [q]: at most 50 events, in [created_at]
    order, ties in queue order, the rest of the queue left in place. *)
Record drained (s s' : EventQueue) (q : list QueuedEvent) (b : FlushBatch) : Prop := {
  dr_sorted : StronglySorted (fun a b => be_le a b = true) (fb_events b);
  dr_events : fb_events b ≡ₚ map to_batch_event (take MAX_BATCH_EVENTS q);
  dr_length : length (fb_events b) = Nat.min MAX_BATCH_EVENTS (length q);
  dr_rest : default [] (queues s' !! fb_channel_id b) = drop MAX_BATCH_EVENTS q;
  dr_others : forall c, c <> fb_channel_id b -> queues s' !! c = queues s !! c;
  dr_cancelled : fb_cancelled_events b = default [] (cancelled_batches s !! fb_channel_id b);
  dr_reason : fb_cancel_reason b =
    match fb_cancelled_events b with [] => None | _ => cancel_reasons s !! fb_channel_id b end;
}.

Inductive flush_spec (now : Instant) (s : EventQueue) : EventQueue -> option FlushBatch -> Prop :=
| flush_idle :
    none_ready now s ->
    (forall c, is_Some (cancelled_batches s !! c) -> c ∈ in_flight_channels s) ->
    flush_spec now s s None
| flush_drained s' q b :
    oldest_ready now s (fb_channel_id b) q -> drained s s' q b -> in_flight_as now s' b ->
    flush_spec now s s' (Some b)
| flush_redelivered s' b :
    none_ready now s -> fb_channel_id b ∉ in_flight_channels s ->
    cancelled_batches s !! fb_channel_id b = Some (fb_events b) ->
    fb_cancelled_events b = [] -> fb_cancel_reason b = cancel_reasons s !! fb_channel_id b ->
    queues s' = queues s -> in_flight_as now s' b ->
    flush_spec now s s' (Some b).

Lemma take_min {A} n (l : list A) : take (Nat.min n (length l)) l = take n l.
Proof. rewrite <- take_take. by rewrite take_ge with (n := length l). Qed.

Lemma drop_min {A} n (l : list A) : drop (Nat.min n (length l)) l = drop n l.
Proof.
  destruct (Nat.min_spec n (length l)) as [[_ ->]|[? ->]]; [done|]. by rewrite !drop_ge by lia.
Qed.

Lemma be_le_total x y : be_le x y = true \/ be_le y x = true.
Proof. unfold be_le. rewrite !N.leb_le. lia. Qed.

Lemma be_le_trans x y z : be_le x y = true -> be_le y z = true -> be_le x z = true.
Proof. unfold be_le. rewrite !N.leb_le. lia. Qed.

Lemma default_store_or_remove {A} c (q : list A) m : default [] (store_or_remove c q m !! c) = q.
Proof. destruct q; cbn; [by rewrite lookup_delete_eq|by rewrite lookup_insert_eq]. Qed.

Lemma store_or_remove_ne {A} c c' (q : list A) m : c' <> c -> store_or_remove c q m !! c' = m !! c'.
Proof. intros Hne. destruct q; cbn; [by rewrite lookup_delete_ne|by rewrite lookup_insert_ne]. Qed.

Lemma flush_queue_drained now s c q :
  queues s !! c = Some q ->
  let '(s', b) := flush_queue c now s in
  fb_channel_id b = c /\ drained s s' q b /\ in_flight_as now s' b.
Proof.
  intros Hq. unfold flush_queue, mark_in_flight. rewrite Hq. cbv zeta. cbn [default].
  rewrite take_min, drop_min. cbn [fb_channel_id].
  split; [done|]. split.
  - constructor; cbn [fb_events fb_cancelled_events fb_cancel_reason fb_channel_id queues
      set_in_flight_event_ids set_cancel_reasons set_cancelled_batches set_in_flight_batch_sizes
      set_in_flight_deadlines set_in_flight_channels set_queues cancelled_batches cancel_reasons].
    + apply sort_by_sorted; [apply be_le_total|apply be_le_trans].
    + apply sort_by_perm.
    + by rewrite length_sort_by, length_map, length_take.
    + apply default_store_or_remove.
    + intros c' Hne. by apply store_or_remove_ne.
    + done.
    + done.
  - constructor; cbn [fb_events fb_cancelled_events fb_channel_id set_in_flight_event_ids
      set_cancel_reasons set_cancelled_batches set_in_flight_batch_sizes set_in_flight_deadlines
      set_in_flight_channels set_queues in_flight_channels in_flight_deadlines in_flight_deadline
      in_flight_batch_sizes in_flight_event_ids cancelled_batches].
    + set_solver.
    + by rewrite lookup_insert_eq.
    + by rewrite lookup_insert_eq.
    + by rewrite lookup_insert_eq.
    + by rewrite lookup_delete_eq.
Qed.

Lemma flush_cancelled_spec now s c q :
  cancelled_batches s !! c = Some q ->
  let '(s', b) := flush_cancelled c now s in
  b = mkFlushBatch c q [] (cancel_reasons s !! c) /\ queues s' = queues s /\ in_flight_as now s' b.
Proof.
  intros Hq. unfold flush_cancelled, mark_in_flight. rewrite Hq. cbv zeta. cbn [default].
  split_and!; [done..|]. constructor; cbn -[batch_ids].
  - set_solver.
  - by rewrite lookup_insert_eq.
  - by rewrite lookup_insert_eq.
  - rewrite lookup_insert_eq. by rewrite app_nil_r.
  - by rewrite lookup_delete_eq.
Qed.

Lemma flush_next_meets_spec now s :
  flush_spec now (expire now s) (flush_next now s).1 (flush_next now s).2.
Proof.
  unfold flush_next. set (s0 := expire now s).
  pose proof (pick_ready_spec now s0) as Hr. destruct (pick_ready now s0) as [c|].
  - destruct Hr as (q & Ho). pose proof (flush_queue_drained now s0 c q (proj1 Ho)) as Hf.
    destruct (flush_queue c now s0) as [s' b]. destruct Hf as (<- & Hd & Hi). by eapply flush_drained.
  - pose proof (pick_cancelled_spec s0) as Hc. destruct (pick_cancelled s0) as [c|].
    + destruct Hc as [[q Hq] Hni]. pose proof (flush_cancelled_spec now s0 c q Hq) as Hf.
      destruct (flush_cancelled c now s0) as [s' b]. destruct Hf as (-> & Hqs & Hi).
      by apply flush_redelivered.
    + by apply flush_idle.
Qed.

(** * Properties *)

(** A flush serves the channel whose head has waited longest among those
    not in flight, not throttled and past the dispatch hold; the batch is the
    first (at most 50) events of its queue in [created_at] order, merged with
    what was cancelled there, the rest stays queued and no other queue changes;
    without such a channel it re-delivers a cancelled batch, and it returns
    nothing only when nothing at all can be delivered.  The dispatched channel
    is reserved with its deadline and exactly the batch's event ids. *)
Theorem flush_next_correct now s :
  flush_spec now (expire now s) (flush_next now s).1 (flush_next now s).2.
Proof. apply flush_next_meets_spec. Qed.

(** [has_flushable_work] answers exactly whether a flush at that moment
    would deliver a batch, so the harness neither sleeps on deliverable work nor
    spins on work it cannot deliver; and whenever it answers yes,
    [has_undispatched_work] sees work as well. *)
Theorem flushable_work_iff_batch now s :
  ((has_flushable_work now s).2 = true <-> is_Some (flush_next now s).2) /\
  ((has_flushable_work now s).2 = true -> has_undispatched_work (expire now s) = true).
Proof.
  cbn [has_flushable_work snd]. set (s0 := expire now s). split.
  - pose proof (flush_next_meets_spec now s) as Hf. fold s0 in Hf. rewrite orb_true_iff.
    setoid_rewrite existsb_exists. inversion Hf as [Hn Hc| s' q b Ho Hd _|s' b Hn Hni Hc _ _ _ _]; subst.
    + split; [|by intros [? ?]]. intros [([c q] & Hin & He)|(c & Hin & Hb)].
      * apply list_elem_of_In, elem_of_iter in Hin. by rewrite (Hn c q Hin) in He.
      * apply list_elem_of_In, list_elem_of_fmap in Hin as ([k x] & -> & Hin).
        apply elem_of_iter in Hin. apply bool_decide_eq_true in Hb. destruct Hb. by apply Hc.
    + split; [done|]. intros _. left. exists (fb_channel_id b, q). destruct Ho as (Hq & He & _).
      split; [|done]. by apply list_elem_of_In, elem_of_iter.
    + split; [done|]. intros _. right. exists (fb_channel_id b). split; [|by apply bool_decide_eq_true].
      apply list_elem_of_In, list_elem_of_fmap. exists (fb_channel_id b, fb_events b).
      split; [done|by apply elem_of_iter].
  - unfold has_undispatched_work. rewrite !orb_true_iff. setoid_rewrite existsb_exists.
    intros [([c q] & Hin & He)|(c & Hin & Hb)].
    + left; left. exists (c, q). split; [done|]. cbn in *. destruct q; [done|].
      by apply andb_true_iff in He as [[? _]%andb_true_iff _].
    + left; right. apply list_elem_of_In, list_elem_of_fmap in Hin as ([k x] & -> & Hin).
      exists (k, x). split; [by apply list_elem_of_In|done].
Qed.
End flush.

(** ** The retry policy *)

Lemma capped_secs_bounds attempt : (1 <= attempt)%N -> (5 <= capped_secs attempt <= 300)%N.
Proof.
  intros Ha. unfold capped_secs, BASE_RETRY_DELAY_SECS, MAX_RETRY_DELAY_SECS, U64_MAX.
  rewrite N.shiftl_1_l. assert (1 <= 2 ^ N.min (attempt - 1) 6)%N by (apply N.lt_pred_le, N.neq_0_lt_0, N.pow_nonzero; lia).
  assert (2 ^ 64 - 1 = 18446744073709551615)%N as -> by reflexivity. lia.
Qed.

(** The jitter factor lies between 0.8 and 0.896. *)
Lemma jitter_bounds nanos :
  (nanos < NANOS)%N ->
  ((2 ^ 53 - 1) * (8 * UNIT) <= 10 * (2 ^ 53 * jitter nanos + 2 ^ 53))%N /\
  (1000 * jitter nanos <= 896 * UNIT)%N.
Proof.
  intros Hn. unfold jitter, NANOS in *. pose proof UNIT_big as HU.
  assert ((8 * UNIT <=? 10 * f64_literal 8 10)%N = true) as L8%N.leb_le by (vm_compute; reflexivity).
  assert ((100000 * f64_literal 8 10 <=? 80001 * UNIT)%N = true) as U8%N.leb_le by (vm_compute; reflexivity).
  assert ((100000 * f64_literal 4 10 <=? 40001 * UNIT)%N = true) as U4%N.leb_le by (vm_compute; reflexivity).
  assert (f64_of_N U32_MAX = (4294967295 * UNIT)%N) as -> by (vm_compute; reflexivity).
  set (l8 := f64_literal 8 10) in *. set (l4 := f64_literal 4 10) in *. clearbody l8 l4.
  pose proof (f64_of_N_upper nanos) as Hnf.
  pose proof (f64_div_int_upper (f64_of_N nanos) 4294967295 eq_refl) as Hq.
  set (nf := f64_of_N nanos) in *. clearbody nf.
  set (q := f64_div nf (4294967295 * UNIT)) in *. clearbody q.
  assert (nanos * UNIT <= 1000000000 * UNIT)%N by (apply N.mul_le_mono_r; lia).
  assert (10000 * q <= 2334 * UNIT)%N as Hq' by lia.
  assert (1000000000 * f64_mul q l4 <= 93600000 * UNIT)%N as Ht.
  { pose proof (f64_round_upper (q * l4) UNIT ltac:(lia)) as Ht. fold (f64_mul q l4) in Ht.
    assert (10000 * q * (100000 * l4) <= 2334 * UNIT * (40001 * UNIT))%N by (by apply N.mul_le_mono).
    apply (N.mul_le_mono_pos_l _ _ UNIT); [lia|]. nia. }
  set (t := f64_mul q l4) in *. clearbody t.
  pose proof (f64_add_lower l8 t) as Hlo. pose proof (f64_add_upper l8 t) as Hhi.
  change (2 ^ 53)%N with 9007199254740992%N in *. lia.
Qed.

Lemma retry_delay_bounds attempt nanos :
  (1 <= attempt)%N -> (nanos < NANOS)%N ->
  (from_secs (capped_secs attempt) * 8 <= retry_delay attempt nanos * 10)%N /\
  (retry_delay attempt nanos * 10 <= from_secs (capped_secs attempt) * 9)%N.
Proof.
  intros Ha Hn. pose proof (capped_secs_bounds attempt Ha) as Hc.
  destruct (jitter_bounds nanos Hn) as [Hjl Hju].
  unfold retry_delay, from_secs, NANOS, from_secs_f64 in *. rewrite f64_of_N_exact by lia.
  set (c := capped_secs attempt) in *. set (j := jitter nanos) in *. clearbody c j.
  pose proof (f64_mul_int_upper c j) as Hxu. pose proof (f64_mul_int_lower c j) as Hxl.
  set (x := f64_mul (c * UNIT) j) in *. clearbody x. pose proof UNIT_big as HU.
  destruct (nearest_even_error (x * 1000000000) UNIT ltac:(lia)) as [Hdu Hdl].
  set (d := nearest_even (x * 1000000000) UNIT) in *. clearbody d.
  apply (N.mul_le_mono_l _ _ c) in Hjl, Hju. change (2 ^ 53)%N with 9007199254740992%N in *.
  assert (UNIT * 5 <= UNIT * c)%N by (apply N.mul_le_mono_l; lia).
  assert (UNIT * c <= UNIT * 300)%N by (apply N.mul_le_mono_l; lia).
  split; apply N.lt_succ_r, N.nle_gt; intros Hlt.
  - assert (UNIT * (10 * d + 10) <= UNIT * (8 * (c * 1000000000)))%N by (apply N.mul_le_mono_l; lia). lia.
  - assert (UNIT * (9 * (c * 1000000000) + 1) <= UNIT * (10 * d))%N by (apply N.mul_le_mono_l; lia). lia.
Qed.

(** One failed turn as the harness handles it: requeue, then mark complete
    while the new backoff is still running. *)
Definition fail_turn `{UuidLib, HashOrder} (t : N * N * N) (b : FlushBatch) (s : EventQueue)
  : EventQueue * option FlushBatch :=
  let '(now, nanos, later) := t in
  let '(s', dead) := requeue now nanos b s in (mark_complete later (fb_channel_id b) s', dead).

Fixpoint fail_turns `{UuidLib, HashOrder} (ts : list (N * N * N)) (b : FlushBatch)
    (s : EventQueue) : EventQueue * list (option FlushBatch) :=
  match ts with
  | [] => (s, [])
  | t :: ts' =>
      let '(s1, dead) := fail_turn t b s in
      let '(s2, rest) := fail_turns ts' b s1 in (s2, dead :: rest)
  end.

(** The completion follows the requeue within the shortest backoff, 4 s. *)
Definition prompt_completion (t : N * N * N) : Prop :=
  let '(now, nanos, later) := t in (nanos < NANOS)%N /\ (later < now + from_secs 4)%N.

Section retries.
Context `{UuidLib, HashOrder}.

Lemma enforce_retry_fields c s :
  retry_counts (enforce_routing_channel_cap c s) = retry_counts s /\
  retry_after (enforce_routing_channel_cap c s) = retry_after s.
Proof. by destruct (enforce_effect c s) as (qs' & -> & _). Qed.

Lemma fail_turn_count t b s n :
  prompt_completion t -> retry_count (fb_channel_id b) s = n ->
  ((n < MAX_RETRIES)%N -> (fail_turn t b s).2 = None /\
     retry_count (fb_channel_id b) (fail_turn t b s).1 = (n + 1)%N) /\
  ((MAX_RETRIES <= n)%N -> (fail_turn t b s).2 = Some b /\
     retry_count (fb_channel_id b) (fail_turn t b s).1 = 0%N /\
     retry_after (fail_turn t b s).1 !! fb_channel_id b = None).
Proof.
  destruct t as [[now nanos] later]. intros [Hn Hl] Hcount. unfold fail_turn, requeue. cbv zeta.
  unfold retry_count in Hcount. rewrite Hcount. split; intros Hlt.
  - assert ((MAX_RETRIES <? n + 1)%N = false) as -> by (apply N.ltb_ge; lia).
    set (s1 := enforce_routing_channel_cap _ _).
    assert (retry_counts s1 !! fb_channel_id b = Some (n + 1)%N) as Hc1.
    { unfold s1. rewrite (proj1 (enforce_retry_fields _ _)). cbn. by rewrite lookup_insert_eq. }
    clearbody s1. split; [done|]. cbn [fst]. unfold retry_count, mark_complete. cbv zeta.
    cbn -[retry_delay N.add]. rewrite lookup_insert_eq.
    pose proof (retry_delay_bounds (n + 1) nanos ltac:(lia) Hn) as [Hd _].
    pose proof (capped_secs_bounds (n + 1) ltac:(lia)) as [Hcap _].
    assert ((later <? now + retry_delay (n + 1) nanos)%N = true) as ->.
    { apply N.ltb_lt. unfold from_secs, NANOS in *. lia. }
    cbn. by rewrite Hc1.
  - assert ((MAX_RETRIES <? n + 1)%N = true) as -> by (apply N.ltb_lt; lia).
    cbn [fst]. unfold retry_count, mark_complete. cbv zeta. cbn.
    rewrite lookup_delete_eq. cbn. rewrite !lookup_delete_eq. done.
Qed.

Lemma fail_turns_count b ts s n :
  retry_count (fb_channel_id b) s = n -> Forall prompt_completion ts ->
  (n + N.of_nat (length ts) <= MAX_RETRIES)%N ->
  (fail_turns ts b s).2 = repeat None (length ts) /\
  retry_count (fb_channel_id b) (fail_turns ts b s).1 = (n + N.of_nat (length ts))%N.
Proof.
  revert s n. induction ts as [|t ts IH]; intros s n Hn Hf Hle; cbn [fail_turns length repeat].
  { split; [done|]. cbn [fst]. lia. }
  inversion Hf as [|?? Ht Hf']; subst. cbn [length] in Hle.
  destruct (fail_turn_count t b s _ Ht eq_refl) as [Hstep _].
  destruct (fail_turn t b s) as [s1 dead]. cbn [fst snd] in Hstep.
  destruct Hstep as [-> Hc1]; [lia|].
  destruct (IH s1 _ Hc1 Hf') as [IH1 IH2]; [lia|].
  destruct (fail_turns ts b s1) as [s2 rest]. cbn [fst snd] in *. subst rest. split; [done|lia].
Qed.

(** bounded retries with backoff: every delay lies between 80 and 90 per
    cent of the capped exponential delay (which grows from 5 to 300 seconds; the
    jitter never lengthens it), a conversation that keeps failing is retried
    exactly ten times, its retry counter counting up, and the eleventh
    consecutive failure hands the batch back as dead-lettered with the counter
    and the throttle cleared. *)
Theorem retry_policy b s ts t s' answers :
  retry_count (fb_channel_id b) s = 0%N ->
  length ts = 10 -> Forall prompt_completion ts -> prompt_completion t ->
  fail_turns ts b s = (s', answers) ->
  answers = repeat None 10 /\ retry_count (fb_channel_id b) s' = MAX_RETRIES /\
  (fail_turn t b s').2 = Some b /\
  retry_count (fb_channel_id b) (fail_turn t b s').1 = 0%N /\
  retry_after (fail_turn t b s').1 !! fb_channel_id b = None /\
  forall attempt nanos, (1 <= attempt)%N -> (nanos < NANOS)%N ->
    (5 <= capped_secs attempt <= 300)%N /\
    (from_secs (capped_secs attempt) * 8 <= retry_delay attempt nanos * 10)%N /\
    (retry_delay attempt nanos * 10 <= from_secs (capped_secs attempt) * 9)%N.
Proof.
  intros Hz Hlen Hts Ht Hrun.
  destruct (fail_turns_count b ts s 0%N Hz Hts) as [Ha Hc]; [rewrite Hlen; done|].
  rewrite Hrun in Ha, Hc. cbn [fst snd] in Ha, Hc. rewrite Hlen in Ha, Hc.
  destruct (fail_turn_count t b s' _ Ht Hc) as [_ Hdead].
  destruct Hdead as (Hd1 & Hd2 & Hd3); [done|]. split_and!; try done.
  intros attempt nanos Ha1 Hn1.
  split; [by apply capped_secs_bounds|by apply retry_delay_bounds].
Qed.
End retries.

(** ** Witnesses *)

Definition sample_batch : FlushBatch :=
  mkFlushBatch 7 [to_batch_event (SampleQueue.queued 7 101 50 5)] [] None.

Definition sample_turn : N * N * N := (100, 500, 101)%N.

Lemma retry_policy_witness :
  retry_count 7 (EventQueue_new Queue) = 0%N /\
  forall s' answers,
  @fail_turns SampleQueue.uuid SampleQueue.order (repeat sample_turn 10) sample_batch
    (EventQueue_new Queue) = (s', answers) ->
  answers = repeat None 10 /\ retry_count 7 s' = MAX_RETRIES /\
  (@fail_turn SampleQueue.uuid SampleQueue.order sample_turn sample_batch s').2 = Some sample_batch.
Proof.
  split; [reflexivity|]. intros s' answers Hrun.
  destruct (@retry_policy SampleQueue.uuid SampleQueue.order sample_batch (EventQueue_new Queue)
           (repeat sample_turn 10) sample_turn s' answers) as (Ha & Hc & Hd & _).
  - reflexivity.
  - reflexivity.
  - by repeat constructor.
  - by split.
  - exact Hrun.
  - exact (conj Ha (conj Hc Hd)).
Defined.
