(* ===== verification/QueueProtocol.v ===== *)
(** The dispatch protocol of the harness over the event queue: no event is ever
    in two places, so none is delivered twice.

    The harness (buzz-acp/src/lib.rs, [dispatch_pending] and
    [handle_prompt_result]) holds the batch of every turn it started; [out] is
    that table.  A turn ends by completion, by a failure (requeue with
    backoff), by being put back unclaimed, or by a cancel; a turn whose in-flight
    deadline has passed is given up. *)

From S2P Require Import Prelude Nostr Thread Queue QueueInv QueueFlush.

(** ** Where the events of a channel are *)

Definition row_ids (m : gmap Uuid (list QueuedEvent)) (c : Uuid) : list EventId :=
  queued_ids (default [] (m !! c)).

Definition cancelled_ids (s : EventQueue) (c : Uuid) : list EventId :=
  batch_ids (default [] (cancelled_batches s !! c)).

(** Everything waiting for delivery to channel [c]. *)
Definition waiting (s : EventQueue) (c : Uuid) : list EventId :=
  row_ids (queues s) c ++ row_ids (withheld_native_steer s) c ++ cancelled_ids s c.

Definition delivered_ids (b : FlushBatch) : list EventId :=
  batch_ids (fb_events b ++ fb_cancelled_events b).

Record proto_wf (s : EventQueue) (out : gmap Uuid FlushBatch) : Prop := {
  pw_nodup : forall c, NoDup (waiting s c);
  pw_disjoint : forall c I, in_flight_event_ids s !! c = Some I ->
    forall id, id ∈ waiting s c -> id ∉ I;
  pw_out : forall c b, out !! c = Some b ->
    fb_channel_id b = c /\ NoDup (delivered_ids b) /\
    in_flight_event_ids s !! c = Some (list_to_set (delivered_ids b));
}.

(** ** The protocol *)

Section protocol.
Context `{NostrLib, UuidLib}.

(** The turns given up at [now]. *)
Definition live (s : EventQueue) (out : gmap Uuid FlushBatch) : gmap Uuid FlushBatch :=
  filter (fun e => is_Some (in_flight_event_ids s !! fst e)) out.

Inductive proto_step : EventQueue * gmap Uuid FlushBatch -> EventQueue * gmap Uuid FlushBatch -> Prop :=
| ps_push (O : HashOrder) e s out : proto_step (s, out) ((push e s).1, out)
| ps_flush (O : HashOrder) now s out s' b :
    flush_next now s = (s', Some b) ->
    proto_step (s, out) (s', <[fb_channel_id b := b]> (live (expire now s) out))
| ps_idle (O : HashOrder) now s out s' :
    flush_next now s = (s', None) -> proto_step (s, out) (s', live s' out)
| ps_flushable (O : HashOrder) now s out :
    proto_step (s, out) ((has_flushable_work now s).1, live (has_flushable_work now s).1 out)
| ps_complete now c s out : proto_step (s, out) (mark_complete now c s, delete c out)
| ps_failed (O : HashOrder) now nanos later c b s out :
    out !! c = Some b ->
    proto_step (s, out) (mark_complete later c (requeue now nanos b s).1, delete c out)
| ps_put_back (O : HashOrder) later c b s out :
    out !! c = Some b ->
    proto_step (s, out) (mark_complete later c (requeue_preserve_timestamps b s), delete c out)
| ps_cancelled later c b r s out :
    out !! c = Some b ->
    proto_step (s, out) (mark_complete later c (requeue_as_cancelled b r s), delete c out)
| ps_withhold c id s out : proto_step (s, out) ((mark_native_steer_pending c id s).1, out)
| ps_release (O : HashOrder) c id s out : proto_step (s, out) (release_native_steer c id s, out)
| ps_remove c id s out : proto_step (s, out) ((remove_event c id s).1, out)
| ps_remove_by_id (O : HashOrder) id s out : proto_step (s, out) ((remove_event_by_id id s).1, out)
| ps_drain c s out : proto_step (s, out) ((drain_channel c s).1, out)
| ps_clear_retry c s out : proto_step (s, out) (clear_retry_after c s, out)
| ps_compact now s out : proto_step (s, out) (compact_expired_state now s, out)
| ps_extend now c secs s out : proto_step (s, out) (extend_in_flight_deadline now c secs s, out).

Inductive proto_reachable : EventQueue -> gmap Uuid FlushBatch -> Prop :=
| pr_new mode secs hold :
    proto_reachable (with_dispatch_hold hold (with_in_flight_deadline secs (EventQueue_new mode))) ∅
| pr_step s out s' out' :
    proto_reachable s out -> proto_step (s, out) (s', out') -> proto_reachable s' out'.
End protocol.

(** ** Operations that only lose waiting events *)

Lemma submseteq_NoDup {A} (l k : list A) : l ⊆+ k -> NoDup k -> NoDup l.
Proof. intros [l' ->]%submseteq_Permutation [? _]%NoDup_app. done. Qed.

Record fewer (s' s : EventQueue) : Prop := {
  fw_waiting : forall c, waiting s' c ⊆+ waiting s c;
  fw_ids : forall c I, in_flight_event_ids s' !! c = Some I -> in_flight_event_ids s !! c = Some I;
}.

Lemma fewer_refl s : fewer s s.
Proof. by split. Qed.

Lemma fewer_trans s1 s2 s3 : fewer s1 s2 -> fewer s2 s3 -> fewer s1 s3.
Proof. intros [W1 I1] [W2 I2]. split; [|eauto]. intros c. etransitivity; [apply W1|apply W2]. Qed.

Lemma proto_wf_fewer s' s out out' :
  fewer s' s -> proto_wf s out ->
  (forall c b, out' !! c = Some b -> out !! c = Some b /\ is_Some (in_flight_event_ids s' !! c)) ->
  proto_wf s' out'.
Proof.
  intros [Hw Hi] [Hnd Hdis Ho] Hout. split.
  - intros c. eapply submseteq_NoDup; [apply Hw|apply Hnd].
  - intros c I HI id Hid. apply (Hdis c I); [by apply Hi|]. by eapply elem_of_submseteq.
  - intros c b (Hb & I & HI)%Hout. destruct (Ho c b Hb) as (Hc & Hn & Hids). split_and!; [done..|].
    apply Hi in HI as HI'. congruence.
Qed.

Lemma suffix_submseteq {A} (l k : list A) : l `suffix_of` k -> l ⊆+ k.
Proof. intros [p ->]. by apply submseteq_inserts_l. Qed.

Lemma queued_ids_app a b : queued_ids (a ++ b) = queued_ids a ++ queued_ids b.
Proof. apply map_app. Qed.

Lemma batch_ids_app a b : batch_ids (a ++ b) = batch_ids a ++ batch_ids b.
Proof. apply map_app. Qed.

Lemma queued_ids_submseteq q' q : q' ⊆+ q -> queued_ids q' ⊆+ queued_ids q.
Proof. intros Hs. by apply fmap_submseteq. Qed.

Lemma row_ids_trimmed qs' qs c : trimmed qs' qs -> row_ids qs' c ⊆+ row_ids qs c.
Proof.
  intros Ht. unfold row_ids. destruct (qs' !! c) as [q'|] eqn:Eq; [|apply submseteq_nil_l].
  destruct (Ht c q' Eq) as (q & -> & Hs). by apply queued_ids_submseteq, suffix_submseteq.
Qed.

Lemma row_ids_insert m c q : row_ids (<[c := q]> m) c = queued_ids q.
Proof. unfold row_ids. by rewrite lookup_insert_eq. Qed.

Lemma row_ids_insert_ne m c c' q : c <> c' -> row_ids (<[c := q]> m) c' = row_ids m c'.
Proof. intros Hne. unfold row_ids. by rewrite lookup_insert_ne. Qed.

Lemma row_ids_delete m c : row_ids (delete c m) c = [].
Proof. unfold row_ids. by rewrite lookup_delete_eq. Qed.

Lemma row_ids_delete_ne m c c' : c <> c' -> row_ids (delete c m) c' = row_ids m c'.
Proof. intros Hne. unfold row_ids. by rewrite lookup_delete_ne. Qed.

Lemma row_ids_store m c q : row_ids (store_or_remove c q m) c = queued_ids q.
Proof. unfold row_ids. by rewrite default_store_or_remove. Qed.

Lemma row_ids_store_ne m c c' q : c <> c' -> row_ids (store_or_remove c q m) c' = row_ids m c'.
Proof. intros Hne. unfold row_ids. by rewrite store_or_remove_ne. Qed.

Lemma trim_back_ids q : queued_ids (trim_back q) ⊆+ queued_ids q.
Proof. apply queued_ids_submseteq, sublist_submseteq, sublist_take. Qed.

Lemma batch_ids_to_queued c bs : queued_ids (map (to_queued_event c) bs) = batch_ids bs.
Proof. unfold queued_ids, batch_ids. rewrite map_map. done. Qed.

Lemma batch_ids_of_queued q : batch_ids (map to_batch_event q) = queued_ids q.
Proof. unfold queued_ids, batch_ids. rewrite map_map. done. Qed.

Lemma enforce_fewer `{UuidLib, HashOrder} c s : fewer (enforce_routing_channel_cap c s) s.
Proof.
  destruct (enforce_effect c s) as (qs' & -> & Ht & _). split; [|done]. intros c'.
  unfold waiting. cbn. apply submseteq_app; [by apply row_ids_trimmed|done].
Qed.

(** Restocking the row of one channel. *)
Lemma restock_waiting `{UuidLib, HashOrder} c row s :
  let s' := enforce_routing_channel_cap c (set_queues (<[c := row]> (queues s)) s) in
  in_flight_event_ids s' = in_flight_event_ids s /\
  (forall c', c <> c' -> waiting s' c' ⊆+ waiting s c') /\
  waiting s' c ⊆+ queued_ids row ++ row_ids (withheld_native_steer s) c ++ cancelled_ids s c.
Proof.
  cbv zeta. set (s1 := set_queues _ s).
  destruct (enforce_effect c s1) as (qs' & -> & Ht & _). split_and!; [done|..].
  - intros c' Hne. unfold waiting. cbn. apply submseteq_app; [|done].
    etransitivity; [by apply row_ids_trimmed|]. cbn. by rewrite row_ids_insert_ne.
  - unfold waiting. cbn. apply submseteq_app; [|done].
    etransitivity; [by apply row_ids_trimmed|]. cbn. by rewrite row_ids_insert.
Qed.

Lemma mark_complete_effect now c s :
  (forall c', waiting (mark_complete now c s) c' = waiting s c') /\
  in_flight_event_ids (mark_complete now c s) = delete c (in_flight_event_ids s).
Proof. unfold mark_complete. cbv zeta. case_match; [case_match|]; done. Qed.

(** A turn is settled: what comes back are ids of its batch. *)
Lemma settle later c b s s1 out :
  proto_wf s out -> out !! c = Some b ->
  in_flight_event_ids s1 = in_flight_event_ids s ->
  (forall c', c <> c' -> waiting s1 c' ⊆+ waiting s c') ->
  waiting s1 c ⊆+ delivered_ids b ++ waiting s c ->
  proto_wf (mark_complete later c s1) (delete c out).
Proof.
  intros [Hnd Hdis Ho] Hb Hids Hother Hc.
  destruct (mark_complete_effect later c s1) as [Hw Hi]. rewrite Hids in Hi.
  destruct (Ho c b Hb) as (_ & Hndb & Hib). split.
  - intros c'. rewrite Hw. destruct (decide (c = c')) as [<-|Hne].
    + eapply submseteq_NoDup; [exact Hc|]. apply NoDup_app. split_and!; [done| |done].
      intros id Hid Hin. apply (Hdis c _ Hib id Hin). set_solver.
    + eapply submseteq_NoDup; [by apply Hother|done].
  - intros c' I. rewrite Hi, Hw. intros [Hne HI]%lookup_delete_Some id Hid.
    apply (Hdis c' I HI). eapply elem_of_submseteq; [exact Hid|by apply Hother].
  - intros c' b' [Hne Hb']%lookup_delete_Some. rewrite Hi, lookup_delete_ne by done. by apply Ho.
Qed.

(** ** Each step *)

Lemma fewer_same s' s :
  queues s' = queues s -> withheld_native_steer s' = withheld_native_steer s ->
  cancelled_batches s' = cancelled_batches s -> in_flight_event_ids s' = in_flight_event_ids s ->
  fewer s' s.
Proof.
  intros Hq Hw Hc Hi. split; [|by rewrite Hi]. intros c. unfold waiting, cancelled_ids.
  by rewrite Hq, Hw, Hc.
Qed.

(** Rows of the two tables that lose events. *)
Lemma fewer_rows s' s :
  (forall c, row_ids (queues s') c ⊆+ row_ids (queues s) c) ->
  (forall c, row_ids (withheld_native_steer s') c ⊆+ row_ids (withheld_native_steer s) c) ->
  (forall c, cancelled_ids s' c ⊆+ cancelled_ids s c) ->
  in_flight_event_ids s' = in_flight_event_ids s -> fewer s' s.
Proof.
  intros Hq Hw Hc Hi. split; [|by rewrite Hi]. intros c.
  unfold waiting. apply submseteq_app; [done|]. by apply submseteq_app.
Qed.

Lemma row_ids_filter f q : queued_ids (List.filter f q) ⊆+ queued_ids q.
Proof.
  apply queued_ids_submseteq, sublist_submseteq. induction q as [|x q IH]; cbn; [done|].
  destruct (f x); [by apply sublist_skip|by apply sublist_cons].
Qed.

Lemma row_ids_delete_sub m c c' : row_ids (delete c m) c' ⊆+ row_ids m c'.
Proof.
  destruct (decide (c = c')) as [<-|Hne].
  - rewrite row_ids_delete. apply submseteq_nil_l.
  - by rewrite row_ids_delete_ne.
Qed.

Lemma take_first_perm {A} (f : A -> bool) l x rest :
  take_first f l = Some (x, rest) -> l ≡ₚ x :: rest.
Proof. intros (_ & a & b & -> & ->)%take_first_spec. by rewrite Permutation_middle. Qed.

Lemma row_ids_false (m : gmap Uuid (list QueuedEvent)) c id :
  match m !! c with Some events => bool_decide (id ∈ queued_ids events) | None => false end = false
  <-> id ∉ row_ids m c.
Proof.
  unfold row_ids. destruct (m !! c); cbn [default]; [apply bool_decide_eq_false|].
  split; [cbn; set_solver|done].
Qed.

Lemma not_contained c id s :
  contains_event c id s = false <->
  (id ∉ waiting s c) /\ forall I, in_flight_event_ids s !! c = Some I -> id ∉ I.
Proof.
  unfold contains_event, waiting. rewrite !orb_false_iff, !row_ids_false, !not_elem_of_app.
  assert (match cancelled_batches s !! c with Some events => bool_decide (id ∈ batch_ids events)
    | None => false end = false <-> id ∉ cancelled_ids s c) as ->.
  { unfold cancelled_ids. destruct (cancelled_batches s !! c); cbn [default];
      [apply bool_decide_eq_false|]. split; [cbn; set_solver|done]. }
  assert (match in_flight_event_ids s !! c with Some ids => bool_decide (id ∈ ids) | None => false end
    = false <-> forall I, in_flight_event_ids s !! c = Some I -> id ∉ I) as ->.
  { destruct (in_flight_event_ids s !! c) as [I|]; [|done]. rewrite bool_decide_eq_false.
    split; [by intros ? ? [= <-]|auto]. }
  tauto.
Qed.

Section steps.
Context `{NostrLib, UuidLib}.

Lemma recover_fewer `{HashOrder} c s : fewer (recover_withheld_for_expired_channel c s) s.
Proof.
  unfold recover_withheld_for_expired_channel.
  destruct (withheld_native_steer s !! c) as [w|] eqn:Ew; [|apply fewer_refl]. cbv zeta.
  set (s1 := set_withheld_native_steer _ s).
  destruct (restock_waiting c (trim_back (push_front_all w (default [] (queues s1 !! c)))) s1)
    as (Hi & Hother & Hc). split; [|by rewrite Hi]. intros c'.
  destruct (decide (c = c')) as [<-|Hne].
  - etransitivity; [exact Hc|]. unfold waiting, s1. cbn. rewrite row_ids_delete. cbn [app].
    rewrite app_assoc. apply submseteq_app; [|done].
    etransitivity; [apply trim_back_ids|]. rewrite push_front_all_app, queued_ids_app.
    unfold row_ids. rewrite Ew. cbn. by rewrite Permutation_app_comm.
  - etransitivity; [by apply Hother|]. unfold waiting, s1. cbn. by rewrite row_ids_delete_ne.
Qed.

Lemma expire_one_fewer `{HashOrder} s c : fewer (expire_one s c) s.
Proof.
  unfold expire_one. cbv zeta. eapply fewer_trans; [apply recover_fewer|]. split; [done|].
  cbn. intros c' I [_ HI]%lookup_delete_Some. done.
Qed.

Lemma expire_fewer `{HashOrder} now s : fewer (expire now s) s.
Proof.
  unfold expire. generalize (expired_ids now s) as ids. intros ids. revert s.
  induction ids as [|c ids IH]; intros s; cbn [foldl]; [apply fewer_refl|].
  eapply fewer_trans; [apply IH|apply expire_one_fewer].
Qed.

Lemma expire_proto `{HashOrder} now s out :
  proto_wf s out -> proto_wf (expire now s) (live (expire now s) out).
Proof.
  intros Hwf. eapply proto_wf_fewer; [apply expire_fewer|exact Hwf|].
  intros c b [Hb HI]%map_lookup_filter_Some. done.
Qed.

Lemma push_proto `{HashOrder} e s out : proto_wf s out -> proto_wf (push e s).1 out.
Proof.
  intros Hwf. unfold push. set (c := qe_channel_id e).
  destruct (contains_event c (ev_id (qe_event e)) s) eqn:Ec; [done|].
  destruct (_ && _); [done|]. cbn [fst].
  apply not_contained in Ec as [Hnw Hni]. destruct Hwf as [Hnd Hdis Ho].
  set (q := if MAX_PENDING_PER_CHANNEL <=? _ then _ else _).
  assert (queued_ids q ⊆+ row_ids (queues s) c) as Hq.
  { unfold q, row_ids. destruct (_ <=? _); [|done].
    apply queued_ids_submseteq, suffix_submseteq, suffix_tail. }
  destruct (restock_waiting c (q ++ [e]) s) as (Hi & Hother & Hc).
  assert (waiting (enforce_routing_channel_cap c (set_queues (<[c := q ++ [e]]> (queues s)) s)) c
          ⊆+ ev_id (qe_event e) :: waiting s c) as Hc'.
  { etransitivity; [exact Hc|]. unfold waiting. rewrite queued_ids_app.
    rewrite <- app_assoc, (Permutation_app_comm (queued_ids [e])), app_assoc.
    rewrite Permutation_app_comm. cbn [queued_ids map app]. apply submseteq_skip.
    by apply submseteq_app. }
  set (s' := enforce_routing_channel_cap _ _) in *. split.
  - intros c'. destruct (decide (c = c')) as [<-|Hne].
    + eapply submseteq_NoDup; [exact Hc'|]. by constructor.
    + eapply submseteq_NoDup; [by apply Hother|done].
  - intros c' I. rewrite Hi. intros HI id Hid. destruct (decide (c = c')) as [<-|Hne].
    + eapply elem_of_submseteq in Hid; [|exact Hc']. apply elem_of_cons in Hid as [->|Hid].
      * by apply Hni.
      * by eapply Hdis.
    + eapply elem_of_submseteq in Hid; [|by apply Hother]. by eapply Hdis.
  - intros c' b Hb. rewrite Hi. by apply Ho.
Qed.

Lemma mark_complete_proto now c s out :
  proto_wf s out -> proto_wf (mark_complete now c s) (delete c out).
Proof.
  intros Hwf. destruct (mark_complete_effect now c s) as [Hw Hi].
  eapply proto_wf_fewer; [|exact Hwf|].
  - split.
    + intros c'. by rewrite Hw.
    + rewrite Hi. intros c' I [_ HI]%lookup_delete_Some. done.
  - intros c' b [Hne Hb]%lookup_delete_Some. split; [done|]. rewrite Hi, lookup_delete_ne by done.
    apply (pw_out _ _ Hwf) in Hb as (_ & _ & ->). done.
Qed.

(** Requeued events are ids of the batch. *)
Lemma requeued_ids c xs q :
  queued_ids (trim_back (push_front_all (map (to_queued_event c) xs) q)) ⊆+ batch_ids xs ++ queued_ids q.
Proof.
  etransitivity; [apply trim_back_ids|]. by rewrite push_front_all_app, queued_ids_app, batch_ids_to_queued.
Qed.

Lemma events_delivered b : batch_ids (fb_events b) ⊆+ delivered_ids b.
Proof. unfold delivered_ids, batch_ids. rewrite map_app. by apply submseteq_inserts_r. Qed.

Lemma put_back_waiting `{HashOrder} b s c :
  fb_channel_id b = c ->
  let s' := requeue_preserve_timestamps b s in
  in_flight_event_ids s' = in_flight_event_ids s /\
  (forall c', c <> c' -> waiting s' c' ⊆+ waiting s c') /\
  waiting s' c ⊆+ batch_ids (fb_events b) ++ waiting s c.
Proof.
  intros <-. unfold requeue_preserve_timestamps. cbv zeta.
  match goal with |- context [<[_ := ?r]> _] =>
    destruct (restock_waiting (fb_channel_id b) r s) as (Hi & Hother & Hc) end.
  split_and!; [done..|]. etransitivity; [exact Hc|]. unfold waiting.
  rewrite (app_assoc (batch_ids _)). apply submseteq_app; [|done]. apply requeued_ids.
Qed.

Lemma requeue_waiting `{HashOrder} now nanos b s c :
  fb_channel_id b = c ->
  let s' := (requeue now nanos b s).1 in
  in_flight_event_ids s' = in_flight_event_ids s /\
  (forall c', c <> c' -> waiting s' c' ⊆+ waiting s c') /\
  waiting s' c ⊆+ batch_ids (fb_events b) ++ waiting s c.
Proof.
  intros <-. unfold requeue. cbv zeta. destruct (_ <? _)%N; cbn [fst].
  - split_and!; [done|done|]. by apply submseteq_inserts_l.
  - set (s1 := set_retry_counts _ s).
    match goal with |- context [<[_ := ?r]> (queues s1)] =>
      destruct (restock_waiting (fb_channel_id b) r s1) as (Hi & Hother & Hc) end.
    split_and!; [done..|]. etransitivity; [exact Hc|]. unfold waiting.
    rewrite (app_assoc (batch_ids _)). apply submseteq_app; [|done]. apply requeued_ids.
Qed.

Lemma cancelled_waiting b r s c :
  fb_channel_id b = c ->
  let s' := requeue_as_cancelled b r s in
  in_flight_event_ids s' = in_flight_event_ids s /\
  (forall c', c <> c' -> waiting s' c' ⊆+ waiting s c') /\
  waiting s' c ⊆+ delivered_ids b ++ waiting s c.
Proof.
  intros <-. unfold requeue_as_cancelled. cbv zeta.
  set (entry := default [] _ ++ _).
  set (entry' := if MAX_PENDING_PER_CHANNEL <? length entry then _ else entry).
  assert (batch_ids entry' ⊆+ cancelled_ids s (fb_channel_id b) ++ delivered_ids b) as Hsub.
  { transitivity (batch_ids entry).
    - apply fmap_submseteq, sublist_submseteq. unfold entry'.
      destruct (_ <? _); [apply sublist_drop|done].
    - unfold entry, batch_ids, cancelled_ids, delivered_ids, batch_ids. rewrite !map_app.
      by rewrite (Permutation_app_comm (map _ (fb_cancelled_events b))). }
  clearbody entry'. split_and!; [done|..].
  - intros c' Hne. unfold waiting, cancelled_ids. cbn. by rewrite lookup_insert_ne.
  - unfold waiting. cbn. unfold cancelled_ids at 1. cbn. rewrite lookup_insert_eq. cbn [default].
    etransitivity; [apply submseteq_app; [done|]; apply submseteq_app; [done|exact Hsub]|].
    by rewrite (Permutation_app_comm (delivered_ids b)), <- !app_assoc.
Qed.

Lemma flush_cancelled_proto now s out c q :
  proto_wf s out -> cancelled_batches s !! c = Some q ->
  proto_wf (flush_cancelled c now s).1 (<[c := (flush_cancelled c now s).2]> out).
Proof.
  intros [Hnd Hdis Ho] Hq. unfold flush_cancelled, mark_in_flight. rewrite Hq. cbv zeta. cbn [default fst snd].
  set (s' := set_in_flight_event_ids _ _).
  assert (forall c', c <> c' -> waiting s' c' = waiting s c') as Hother.
  { intros c' Hne. unfold waiting, cancelled_ids. cbn. by rewrite lookup_delete_ne. }
  assert (waiting s' c ++ batch_ids q = waiting s c) as Hc.
  { unfold waiting, cancelled_ids. cbn. rewrite lookup_delete_eq, Hq. cbn.
    by rewrite app_nil_r, <- !app_assoc. }
  pose proof (Hnd c) as Hn. rewrite <- Hc in Hn. apply NoDup_app in Hn as (Hn1 & Hd & Hn2). split.
  - intros c'. destruct (decide (c = c')) as [<-|Hne]; [done|]. by rewrite Hother.
  - intros c' I. cbn. intros HI id Hid. destruct (decide (c = c')) as [<-|Hne].
    + rewrite lookup_insert_eq in HI. injection HI as <-.
      specialize (Hd id Hid). set_solver.
    + rewrite lookup_insert_ne in HI by done. rewrite Hother in Hid by done. by eapply Hdis.
  - intros c' b. cbn. intros [[<- <-]|[Hne Hb]]%lookup_insert_Some.
    + cbn. unfold delivered_ids. cbn. rewrite app_nil_r, lookup_insert_eq. done.
    + rewrite lookup_insert_ne by done. by apply Ho.
Qed.

Lemma flush_queue_proto now s out c q :
  proto_wf s out -> queues s !! c = Some q ->
  proto_wf (flush_queue c now s).1 (<[c := (flush_queue c now s).2]> out).
Proof.
  intros [Hnd Hdis Ho] Hq. unfold flush_queue, mark_in_flight. rewrite Hq. cbv zeta. cbn [default fst snd].
  rewrite take_min, drop_min.
  cbn [cancelled_batches set_queues set_in_flight_channels set_in_flight_deadlines set_in_flight_batch_sizes].
  set (events := sort_by be_le _). set (cancelled := default [] (cancelled_batches s !! c)).
  set (s' := set_in_flight_event_ids _ _). set (b := mkFlushBatch c events cancelled _).
  assert (batch_ids events ≡ₚ queued_ids (take MAX_BATCH_EVENTS q)) as Hev.
  { unfold events, batch_ids. rewrite sort_by_perm. fold (batch_ids (map to_batch_event (take MAX_BATCH_EVENTS q))).
    by rewrite batch_ids_of_queued. }
  assert (forall c', c <> c' -> waiting s' c' = waiting s c') as Hother.
  { intros c' Hne. unfold waiting, cancelled_ids. cbn -[row_ids].
    by rewrite lookup_delete_ne, row_ids_store_ne. }
  assert (waiting s' c ++ delivered_ids b ≡ₚ waiting s c) as Hc.
  { assert (row_ids (queues s) c = queued_ids (take MAX_BATCH_EVENTS q) ++ queued_ids (drop MAX_BATCH_EVENTS q))
      as Hrow by (unfold row_ids; rewrite Hq, <- queued_ids_app; cbn; by rewrite take_drop).
    assert (cancelled_ids s' c = []) as Hnone by (unfold cancelled_ids; cbn; by rewrite lookup_delete_eq).
    unfold waiting. rewrite Hnone, Hrow. cbn -[row_ids MAX_BATCH_EVENTS delivered_ids].
    rewrite row_ids_store. unfold delivered_ids. cbn [fb_events fb_cancelled_events b].
    rewrite batch_ids_app, Hev. fold (cancelled_ids s c). rewrite app_nil_r. solve_Permutation. }
  pose proof (Hnd c) as Hn. rewrite <- Hc in Hn. apply NoDup_app in Hn as (Hn1 & Hd & Hn2). split.
  - intros c'. destruct (decide (c = c')) as [<-|Hne]; [done|]. by rewrite Hother.
  - intros c' I. cbn. intros HI id Hid. destruct (decide (c = c')) as [<-|Hne].
    + rewrite lookup_insert_eq in HI. injection HI as <-. specialize (Hd id Hid).
      by rewrite elem_of_list_to_set.
    + rewrite lookup_insert_ne in HI by done. rewrite Hother in Hid by done. by eapply Hdis.
  - intros c' b'. cbn -[delivered_ids]. intros [[<- <-]|[Hne Hb]]%lookup_insert_Some.
    + by rewrite lookup_insert_eq.
    + rewrite lookup_insert_ne by done. by apply Ho.
Qed.

Lemma flush_proto `{HashOrder} now s out :
  proto_wf s out ->
  match (flush_next now s).2 with
  | Some b => proto_wf (flush_next now s).1 (<[fb_channel_id b := b]> (live (expire now s) out))
  | None => proto_wf (flush_next now s).1 (live (flush_next now s).1 out)
  end.
Proof.
  intros Hwf%(expire_proto now). unfold flush_next.
  pose proof (pick_ready_spec now (expire now s)) as Hr.
  destruct (pick_ready now (expire now s)) as [c|].
  - destruct Hr as (q & Hq & _). pose proof (flush_queue_proto now _ _ c q Hwf Hq) as Hf.
    pose proof (flush_queue_drained now _ c q Hq) as Hc.
    destruct (flush_queue c now (expire now s)) as [s' b]. cbn [fst snd] in *.
    destruct Hc as [-> _]. done.
  - pose proof (pick_cancelled_spec (expire now s)) as Hp.
    destruct (pick_cancelled (expire now s)) as [c|]; [|done].
    destruct Hp as [[q Hq] _]. pose proof (flush_cancelled_proto now _ _ c q Hwf Hq) as Hf.
    pose proof (flush_cancelled_spec now _ c q Hq) as Hb.
    destruct (flush_cancelled c now (expire now s)) as [s' b]. cbn [fst snd] in *.
    destruct Hb as (-> & _). done.
Qed.

Lemma withhold_fewer c id s : fewer (mark_native_steer_pending c id s).1 s.
Proof.
  unfold mark_native_steer_pending. destruct (queues s !! c) as [q|] eqn:Eq; [|apply fewer_refl].
  destruct (take_first (has_hex id) q) as [[qe rest]|] eqn:Et; [|apply fewer_refl]. cbn [fst].
  split; [|done]. intros c'. unfold waiting. cbn -[row_ids]. destruct (decide (c = c')) as [<-|Hne].
  - rewrite row_ids_store, row_ids_insert, queued_ids_app. fold (row_ids (withheld_native_steer s) c).
    assert (row_ids (queues s) c ≡ₚ queued_ids [qe] ++ queued_ids rest) as ->.
    { unfold row_ids. rewrite Eq. cbn [default]. unfold queued_ids.
      by rewrite (take_first_perm _ _ _ _ Et). }
    apply Permutation_submseteq. solve_Permutation.
  - by rewrite row_ids_store_ne, row_ids_insert_ne.
Qed.

Lemma release_fewer `{HashOrder} c id s : fewer (release_native_steer c id s) s.
Proof.
  unfold release_native_steer.
  destruct (withheld_native_steer s !! c) as [w|] eqn:Ew; [|apply fewer_refl].
  destruct (take_first (has_hex id) w) as [[qe rest]|] eqn:Et; [|apply fewer_refl]. cbv zeta.
  set (s1 := set_withheld_native_steer _ s).
  destruct (restock_waiting c (trim_back (qe :: default [] (queues s1 !! c))) s1) as (Hi & Hother & Hc).
  split; [|by rewrite Hi]. intros c'. destruct (decide (c = c')) as [<-|Hne].
  - etransitivity; [exact Hc|].
    etransitivity; [apply submseteq_app; [apply trim_back_ids|done]|].
    unfold waiting, s1. cbn -[row_ids queued_ids]. rewrite row_ids_store.
    assert (row_ids (withheld_native_steer s) c ≡ₚ queued_ids [qe] ++ queued_ids rest) as ->.
    { unfold row_ids. rewrite Ew. cbn [default]. unfold queued_ids.
      by rewrite (take_first_perm _ _ _ _ Et). }
    change (qe :: default [] (queues s !! c)) with ([qe] ++ default [] (queues s !! c)).
    rewrite queued_ids_app. fold (row_ids (queues s) c).
    change (cancelled_ids (set_withheld_native_steer _ s) c) with (cancelled_ids s c).
    apply Permutation_submseteq. solve_Permutation.
  - etransitivity; [by apply Hother|]. unfold waiting, s1. cbn -[row_ids]. by rewrite row_ids_store_ne.
Qed.

Lemma retain_row_ids id c m c' : row_ids (retain_row id c m).1 c' ⊆+ row_ids m c'.
Proof.
  unfold retain_row. destruct (m !! c) as [q|] eqn:Eq; [|done]. cbn [fst].
  destruct (decide (c = c')) as [<-|Hne]; [|by rewrite row_ids_store_ne].
  rewrite row_ids_store. unfold row_ids. rewrite Eq. apply row_ids_filter.
Qed.

Lemma retain_all_ids `{HashOrder} id m c : row_ids (retain_all id m).1 c ⊆+ row_ids m c.
Proof.
  unfold row_ids at 1. destruct ((retain_all id m).1 !! c) as [q'|] eqn:Eq; [|apply submseteq_nil_l].
  apply retain_all_lookup in Eq as (_ & q & Hq & ->). unfold row_ids. rewrite Hq. apply row_ids_filter.
Qed.

Lemma remove_fewer c id s : fewer (remove_event c id s).1 s.
Proof.
  unfold remove_event. pose proof (retain_row_ids id c (withheld_native_steer s)) as Hw.
  pose proof (retain_row_ids id c (queues s)) as Hq.
  destruct (retain_row id c (withheld_native_steer s)) as [w rw]. cbn [queues set_withheld_native_steer].
  destruct (retain_row id c (queues s)) as [q rq]. by apply fewer_rows.
Qed.

Lemma remove_by_id_fewer `{HashOrder} id s : fewer (remove_event_by_id id s).1 s.
Proof.
  unfold remove_event_by_id. pose proof (retain_all_ids id (withheld_native_steer s)) as Hw.
  pose proof (retain_all_ids id (queues s)) as Hq.
  destruct (retain_all id (withheld_native_steer s)) as [w rw]. cbn [queues set_withheld_native_steer].
  destruct (retain_all id (queues s)) as [q rq]. by apply fewer_rows.
Qed.

Lemma drain_fewer c s : fewer (drain_channel c s).1 s.
Proof.
  apply fewer_rows; [intros c'; apply row_ids_delete_sub..| |done].
  intros c'. unfold cancelled_ids. cbn. destruct (decide (c = c')) as [<-|Hne].
  - rewrite lookup_delete_eq. apply submseteq_nil_l.
  - by rewrite lookup_delete_ne.
Qed.

Lemma proto_wf_same_out s' s out :
  fewer s' s -> in_flight_event_ids s' = in_flight_event_ids s -> proto_wf s out -> proto_wf s' out.
Proof.
  intros Hf Hi Hwf. eapply proto_wf_fewer; [exact Hf|exact Hwf|]. intros c b Hb. split; [done|].
  rewrite Hi. by apply (pw_out _ _ Hwf) in Hb as (_ & _ & ->).
Qed.

Lemma proto_step_wf x y : proto_step x y -> proto_wf x.1 x.2 -> proto_wf y.1 y.2.
Proof.
  destruct 1; cbn [fst snd]; intros Hwf.
  - by apply push_proto.
  - pose proof (flush_proto now s out Hwf) as Hf.
    match goal with Heq : flush_next _ _ = _ |- _ => by rewrite Heq in Hf end.
  - pose proof (flush_proto now s out Hwf) as Hf.
    match goal with Heq : flush_next _ _ = _ |- _ => by rewrite Heq in Hf end.
  - by apply expire_proto.
  - by apply mark_complete_proto.
  - destruct (pw_out _ _ Hwf c b ltac:(done)) as (Hb & _).
    destruct (requeue_waiting now nanos b s c Hb) as (Hi & Ho & Hc). eapply settle; [done..|].
    etransitivity; [exact Hc|]. apply submseteq_app; [apply events_delivered|done].
  - destruct (pw_out _ _ Hwf c b ltac:(done)) as (Hb & _).
    destruct (put_back_waiting b s c Hb) as (Hi & Ho & Hc). eapply settle; [done..|].
    etransitivity; [exact Hc|]. apply submseteq_app; [apply events_delivered|done].
  - destruct (pw_out _ _ Hwf c b ltac:(done)) as (Hb & _).
    destruct (cancelled_waiting b r s c Hb) as (Hi & Ho & Hc). by eapply settle.
  - apply (proto_wf_same_out _ s); [apply withhold_fewer| |done].
    unfold mark_native_steer_pending. by repeat case_match.
  - apply (proto_wf_same_out _ s); [apply release_fewer| |done].
    unfold release_native_steer. repeat case_match; try done. cbv zeta.
    by rewrite (proj1 (restock_waiting _ _ _)).
  - apply (proto_wf_same_out _ s); [apply remove_fewer| |done]. unfold remove_event.
    destruct (retain_row _ _ _) as [w rw]. cbn [queues set_withheld_native_steer].
    by destruct (retain_row _ _ _).
  - apply (proto_wf_same_out _ s); [apply remove_by_id_fewer| |done].
    unfold remove_event_by_id. destruct (retain_all _ _) as [w rw].
    cbn [queues set_withheld_native_steer]. by destruct (retain_all _ _).
  - apply (proto_wf_same_out _ s); [apply drain_fewer|done|done].
  - apply (proto_wf_same_out _ s); [by apply fewer_same|done|done].
  - apply (proto_wf_same_out _ s); [by apply fewer_same|done|done].
  - apply (proto_wf_same_out _ s); [|unfold extend_in_flight_deadline; by repeat case_match|done].
    unfold extend_in_flight_deadline. repeat case_match; [|apply fewer_refl..]. by apply fewer_same.
Qed.

Lemma proto_reachable_wf s out : proto_reachable s out -> proto_wf s out.
Proof.
  induction 1 as [mode secs hold|s out s' out' _ IH Hstep]; [|by apply (proto_step_wf _ _ Hstep)].
  split; cbn; [intros c; constructor|done|done].
Qed.
End steps.

(** * Properties *)

Section claims.
Context `{NostrLib, UuidLib}.

(** C14: no double delivery: in every state the dispatch protocol reaches, each
    event waiting for a channel is in exactly one place (queued once, withheld
    once or in a cancelled batch once) and none of them is part of the batch the
    agent is working on; a batch never repeats an event, and pushing an event
    that is queued, dispatched, withheld or cancelled is refused. *)
Theorem no_double_delivery s out c :
  proto_reachable s out ->
  NoDup (waiting s c) /\
  (forall b, out !! c = Some b ->
     NoDup (delivered_ids b) /\ forall id, id ∈ delivered_ids b -> id ∉ waiting s c) /\
  (forall (O : HashOrder) e, qe_channel_id e = c ->
     ev_id (qe_event e) ∈ waiting s c \/
     (exists b, out !! c = Some b /\ ev_id (qe_event e) ∈ delivered_ids b) ->
     push e s = (s, false)).
Proof.
  intros Hwf%proto_reachable_wf. split_and!.
  - apply (pw_nodup _ _ Hwf).
  - intros b Hb. destruct (pw_out _ _ Hwf c b Hb) as (_ & Hn & Hi). split; [done|].
    intros id Hid Hw. apply (pw_disjoint _ _ Hwf c _ Hi id Hw). set_solver.
  - intros O e <- Hin. unfold push.
    assert (contains_event (qe_channel_id e) (ev_id (qe_event e)) s = true) as ->; [|done].
    destruct (contains_event _ _ s) eqn:Ec; [done|]. apply not_contained in Ec as [Hw Hi].
    destruct Hin as [?|(b & Hb & Hid)]; [done|].
    destruct (pw_out _ _ Hwf _ b Hb) as (_ & _ & HI). apply Hi in HI. set_solver.
Qed.

(** putting a batch back when no agent can take it keeps its new events but
    forgets the cancelled ones it carried: after [requeue_preserve_timestamps]
    and [mark_complete] every event of the interrupted request is gone from the
    queue, although it was accepted and never answered. *)
Theorem put_back_forgets_cancelled (O : HashOrder) s out c b later id :
  proto_reachable s out -> out !! c = Some b -> id ∈ batch_ids (fb_cancelled_events b) ->
  contains_event c id (mark_complete later c (requeue_preserve_timestamps b s)) = false.
Proof.
  intros Hwf%proto_reachable_wf Hb Hid.
  destruct (pw_out _ _ Hwf c b Hb) as (Hch & Hn & HI).
  destruct (put_back_waiting b s c Hch) as (Hi & _ & Hc).
  set (s1 := requeue_preserve_timestamps b s) in *.
  unfold delivered_ids in Hn. rewrite batch_ids_app in Hn. apply NoDup_app in Hn as (_ & Hd & _).
  assert (id ∉ waiting s1 c) as Hw.
  { intros Hin. eapply elem_of_submseteq in Hin; [|exact Hc]. apply elem_of_app in Hin as [Hin|Hin].
    - by apply (Hd id).
    - apply (pw_disjoint _ _ Hwf c _ HI id Hin). unfold delivered_ids. rewrite batch_ids_app. set_solver. }
  destruct (mark_complete_effect later c s1) as [Hmw Hmi].
  apply not_contained. rewrite Hmw, Hmi. split; [done|]. by rewrite lookup_delete_eq.
Qed.
End claims.

(** ** Witnesses *)

(** A request, its interruption, a second message, and the flush that merges
    them. *)
Module Story.
Import Sample SampleQueue.

Definition first_message : QueuedEvent := queued 7 101 50 5.
Definition second_message : QueuedEvent := queued 7 102 60 20.

Definition s0 : EventQueue := with_dispatch_hold 0 (with_in_flight_deadline 60 (EventQueue_new Queue)).
Definition s1 : EventQueue := (push first_message s0).1.
Definition s2 : EventQueue := (flush_next 10 s1).1.
Definition b1 : FlushBatch := mkFlushBatch 7 [to_batch_event first_message] [] None.
Definition out2 : gmap Uuid FlushBatch := <[fb_channel_id b1 := b1]> (live (expire 10 s1) ∅).
Definition s3 : EventQueue := mark_complete 15 7 (requeue_as_cancelled b1 Steer s2).
Definition out3 : gmap Uuid FlushBatch := delete 7%N out2.
Definition s4 : EventQueue := (push second_message s3).1.
Definition s5 : EventQueue := (flush_next 30 s4).1.
Definition b2 : FlushBatch :=
  mkFlushBatch 7 [to_batch_event second_message] [to_batch_event first_message] (Some Steer).
Definition out5 : gmap Uuid FlushBatch := <[fb_channel_id b2 := b2]> (live (expire 30 s4) out3).

Lemma reach5 : proto_reachable s5 out5.
Proof.
  apply (pr_step s4 out3).
  2: { unfold out5. apply (ps_flush order 30 s4 out3 s5 b2). vm_compute. reflexivity. }
  apply (pr_step s3 out3); [|apply (ps_push order)].
  apply (pr_step s2 out2); [|apply ps_cancelled; vm_compute; reflexivity].
  apply (pr_step s1 ∅).
  2: { unfold out2. apply (ps_flush order 10 s1 ∅ s2 b1). vm_compute. reflexivity. }
  apply (pr_step s0 ∅); [apply pr_new|apply (ps_push order)].
Qed.
End Story.

Lemma no_double_delivery_witness :
  Story.out5 !! 7%N = Some Story.b2 /\
  NoDup (waiting Story.s5 7) /\
  (forall b, Story.out5 !! 7%N = Some b ->
     NoDup (delivered_ids b) /\ forall id, id ∈ delivered_ids b -> id ∉ waiting Story.s5 7) /\
  (forall (O : HashOrder) e, qe_channel_id e = 7%N ->
     ev_id (qe_event e) ∈ waiting Story.s5 7 \/
     (exists b, Story.out5 !! 7%N = Some b /\ ev_id (qe_event e) ∈ delivered_ids b) ->
     @push SampleQueue.uuid O e Story.s5 = (Story.s5, false)).
Proof.
  split; [vm_compute; reflexivity|].
  apply (@no_double_delivery Sample.lib SampleQueue.uuid Story.s5 Story.out5 7 Story.reach5).
Defined.

Lemma put_back_forgets_cancelled_witness :
  contains_event 7 101 Story.s5 = true /\
  contains_event 7 101 (mark_complete 31 7
    (@requeue_preserve_timestamps SampleQueue.uuid SampleQueue.order Story.b2 Story.s5)) = false.
Proof.
  split; [vm_compute; reflexivity|].
  apply (@put_back_forgets_cancelled Sample.lib SampleQueue.uuid SampleQueue.order
           Story.s5 Story.out5 7 Story.b2 31 101 Story.reach5).
  - vm_compute. reflexivity.
  - apply (bool_decide_unpack (_ ∈ _)). vm_compute. exact I.
Defined.
