(* ===== verification/Pairing.v ===== *)
(** NIP-AB device pairing: the key derivations (buzz-core/src/pairing/crypto.rs),
    the messages (types.rs) and the session state machine (session.rs).

    Every method of [PairingSession] is a computation [M] over the session:
    it returns the session it leaves behind, also when it fails.  The clock,
    fresh keys and random bytes are arguments; the cryptography, signing and
    the [serde] codec are the class [PairingLib].  Zeroing of dropped memory is
    not modelled. *)

From S2P Require Import Prelude Nostr.

(** ** Messages *)

Inductive PayloadType := Nsec | Bunker | Connect | Custom.
Inductive AbortReason := AbortSasMismatch | UserDenied | Timeout | ProtocolError | UnknownReason.

Inductive PairingMessage :=
| Offer (session_id : string) (version : N)
| SasConfirm (transcript_hash : string)
| Payload (payload_type : PayloadType) (payload : string)
| Complete (success : bool)
| Abort_ (reason : AbortReason).

Inductive PairingError :=
| InvalidQr (m : string)
| InvalidSessionId
| SasMismatch
| TranscriptMismatch
| UnexpectedMessage (expected got : string)
| SessionExpired
| Nip44 (e : string)
| Json (e : string)
| InvalidPubkey (m : string)
| SigningError (m : string).

(** The third-party functions; a secret key is a number, and what they draw at
    random ([nonce]) is an argument. *)
Class PairingLib := {
  pairing_hex :: HexLib;
  (** [Keys::public_key] of a secret *)
  public_key : N -> PublicKey;
  (** [PublicKey::to_bytes] and [PublicKey::to_hex] *)
  pubkey_bytes : PublicKey -> string;
  pubkey_hex : PublicKey -> string;
  (** [nostr::util::generate_shared_key] *)
  generate_shared_key : N -> PublicKey -> result string string;
  (** [nostr::util::hkdf::extract] and [expand] *)
  hkdf_extract : string -> string -> string;
  hkdf_expand : string -> string -> nat -> string;
  (** [nip44::encrypt] and [nip44::decrypt], version 2 *)
  nip44_encrypt : N -> PublicKey -> string -> N -> result string string;
  nip44_decrypt : N -> PublicKey -> string -> result string string;
  (** [serde_json] on [PairingMessage] *)
  to_json : PairingMessage -> result string string;
  from_json : string -> result PairingMessage string;
  (** [EventBuilder::sign_with_keys] and [Event::verify] *)
  sign_with_keys : N -> Kind -> string -> list Tag -> Timestamp -> N -> result Event string;
  verify : Event -> result () string;
}.

(** ** Derivations *)

Definition INFO_SESSION_ID : string := "nostr-pair-session-id".
Definition INFO_SAS : string := "nostr-pair-sas-v1".
Definition INFO_TRANSCRIPT : string := "nostr-pair-transcript-v1".

Section derivations.
Context `{PairingLib}.

Definition hkdf32 (salt ikm info : string) : string :=
  let prk := hkdf_extract salt ikm in
  String.substring 0 32 (hkdf_expand prk info 32).

Definition derive_session_id (session_secret : string) : string :=
  hkdf32 "" session_secret INFO_SESSION_ID.

(** [u32::from_be_bytes] of the first four bytes. *)
Fixpoint be_number (acc : N) (s : string) : N :=
  match s with
  | EmptyString => acc
  | String c s' => be_number (256 * acc + N_of_ascii c) s'
  end.

Definition derive_sas (ecdh_shared session_secret : string) : N * string :=
  let sas_input := hkdf32 session_secret ecdh_shared INFO_SAS in
  let sas_code := (be_number 0 (String.substring 0 4 sas_input) mod 1000000)%N in
  (sas_code, sas_input).

Definition derive_transcript_hash
    (session_id source_pubkey target_pubkey sas_input session_secret : string) : string :=
  let transcript := session_id +:+ source_pubkey +:+ target_pubkey +:+ sas_input in
  hkdf32 session_secret transcript INFO_TRANSCRIPT.
End derivations.

(** [format!("{code:06}")]. *)
Fixpoint zeros (n : nat) : string :=
  match n with O => "" | S n' => String "0" (zeros n') end.
Definition format_sas (code : N) : string :=
  let digits := to_decimal code in zeros (6 - String.length digits) +:+ digits.

(** ** The session *)

Inductive Role := Source | Target.
Inductive SessionState :=
| Waiting | Confirming | AwaitingConfirmation | Transferring | PayloadExchanged | Completed | Aborted.

#[export] Instance Role_eq_dec : EqDecision Role.
Proof. solve_decision. Defined.
#[export] Instance SessionState_eq_dec : EqDecision SessionState.
Proof. solve_decision. Defined.

Definition Role_debug (r : Role) : string := match r with Source => "Source" | Target => "Target" end.
Definition SessionState_debug (s : SessionState) : string :=
  match s with
  | Waiting => "Waiting" | Confirming => "Confirming" | AwaitingConfirmation => "AwaitingConfirmation"
  | Transferring => "Transferring" | PayloadExchanged => "PayloadExchanged"
  | Completed => "Completed" | Aborted => "Aborted"
  end.

(** Durations in seconds. *)
Definition DEFAULT_TIMEOUT : N := 120.
Definition KIND_PAIRING : N := 24134.

Record PairingSession := mkSession {
  role : Role;
  state : SessionState;
  keys : N;
  session_secret : string;
  relay_urls : list string;
  peer_pubkey : option PublicKey;
  session_id : string;
  sas_code : option N;
  sas_input : option string;
  processed_ids : gset EventId;
  created_at : N;
  timeout : N;
}.

Definition set_state (x : SessionState) (s : PairingSession) : PairingSession :=
  mkSession (role s) x (keys s) (session_secret s) (relay_urls s) (peer_pubkey s) (session_id s)
    (sas_code s) (sas_input s) (processed_ids s) (created_at s) (timeout s).
Definition set_peer (x : option PublicKey) (s : PairingSession) : PairingSession :=
  mkSession (role s) (state s) (keys s) (session_secret s) (relay_urls s) x (session_id s)
    (sas_code s) (sas_input s) (processed_ids s) (created_at s) (timeout s).
Definition set_sas (code : option N) (input : option string) (s : PairingSession) : PairingSession :=
  mkSession (role s) (state s) (keys s) (session_secret s) (relay_urls s) (peer_pubkey s) (session_id s)
    code input (processed_ids s) (created_at s) (timeout s).
Definition set_processed (x : gset EventId) (s : PairingSession) : PairingSession :=
  mkSession (role s) (state s) (keys s) (session_secret s) (relay_urls s) (peer_pubkey s) (session_id s)
    (sas_code s) (sas_input s) x (created_at s) (timeout s).

(** ** Computations over the session *)

Definition M (A : Type) : Type := PairingSession -> PairingSession * result A PairingError.

Definition ret {A} (a : A) : M A := fun s => (s, Ok a).
Definition fail {A} (e : PairingError) : M A := fun s => (s, Err e).
Definition bind {A B} (m : M A) (k : A -> M B) : M B :=
  fun s => match m s with
           | (s', Ok a) => k a s'
           | (s', Err e) => (s', Err e)
           end.
(** A call of a [&self] method with [?], and an assignment. *)
Definition lift {A} (f : PairingSession -> result A PairingError) : M A := fun s => (s, f s).
Definition modify (f : PairingSession -> PairingSession) : M () := fun s => (f s, Ok ()).

Declare Scope pairing_scope.
Delimit Scope pairing_scope with pairing.
Notation "'let*' x ':=' m 'in' k" := (bind m (fun x => k))
  (at level 10, x binder, m at level 100, k at level 200) : pairing_scope.
Notation "m ';;;' k" := (bind m (fun _ => k)) (at level 60, right associativity) : pairing_scope.
Open Scope pairing_scope.

(** What one call draws from outside: the nonce of the encryption, the wall
    clock, the [created_at] jitter and the nonce of the signature. *)
Record Draw := mkDraw { dw_nonce : N; dw_clock : N; dw_jitter : N; dw_aux : N }.

(** ** Guards *)

(** [created_at.elapsed() > timeout]. *)
Definition is_expired (now : N) (s : PairingSession) : bool := (timeout s <? now - created_at s)%N.

Definition check_expired (now : N) (s : PairingSession) : result () PairingError :=
  if is_expired now s then Err SessionExpired else Ok ().

Definition expect_state (expected : SessionState) (s : PairingSession) : result () PairingError :=
  if bool_decide (state s <> expected)
  then Err (UnexpectedMessage ("state " +:+ SessionState_debug expected)
                              ("state " +:+ SessionState_debug (state s)))
  else Ok ().

Definition expect_role (expected : Role) (s : PairingSession) : result () PairingError :=
  if bool_decide (role s <> expected)
  then Err (UnexpectedMessage ("role " +:+ Role_debug expected)
                              ("role " +:+ Role_debug (role s)))
  else Ok ().

Definition unexpected (expected : string) (got : PairingMessage) : PairingError :=
  UnexpectedMessage expected
    (match got with
     | Offer _ _ => "offer" | SasConfirm _ => "sas-confirm" | Payload _ _ => "payload"
     | Complete _ => "complete" | Abort_ _ => "abort"
     end).

(** [Result::map_err]. *)
Definition map_err {A E F} (f : E -> F) (r : result A E) : result A F :=
  match r with Ok a => Ok a | Err e => Err (f e) end.

Section session.
Context `{PairingLib}.

(** [hex::decode] followed by [try_into] a 32-byte array. *)
Definition decode_32 (hex : string) : option string :=
  match hex_decode hex with
  | Some b => if String.length b =? 32 then Some b else None
  | None => None
  end.

(** Building and reading events. *)
Definition build_event (d : Draw) (message : PairingMessage) (s : PairingSession)
  : result Event PairingError :=
  match peer_pubkey s with
  | None => Err (InvalidPubkey "no peer pubkey set")
  | Some peer =>
      let? plaintext := map_err Json (to_json message) in
      let? encrypted := map_err Nip44 (nip44_encrypt (keys s) peer plaintext (dw_nonce d)) in
      let ts := (dw_clock d - dw_jitter d mod 31)%N in
      map_err SigningError
        (sign_with_keys (keys s) KIND_PAIRING encrypted [["p"; pubkey_hex peer]] ts (dw_aux d))
  end.

Definition decrypt_message (event : Event) (s : PairingSession) : result PairingMessage PairingError :=
  let content_len := N.of_nat (String.length (ev_content event)) in
  if negb ((132 <=? content_len) && (content_len <=? 87472))%N
  then Err (UnexpectedMessage "NIP-44 content (132–87472 chars)" (to_decimal content_len +:+ " chars"))
  else
    let? decrypted := map_err Nip44 (nip44_decrypt (keys s) (ev_pubkey event) (ev_content event)) in
    if (65535 <? N.of_nat (String.length decrypted))%N
    then (* the length is read after [zeroize] has emptied the string *)
      Err (UnexpectedMessage "plaintext ≤ 65535 bytes" (to_decimal 0 +:+ " bytes"))
    else map_err Json (from_json decrypted).

Definition names_us (our_hex : string) (t : Tag) : bool :=
  match t with
  | name :: value :: _ => String.eqb name "p" && String.eqb value our_hex
  | _ => false
  end.

Definition validate_event_basics (event : Event) (s : PairingSession) : result () PairingError :=
  match verify event with
  | Err e => Err (InvalidPubkey ("event verification failed: " +:+ e))
  | Ok _ =>
      if bool_decide (ev_id event ∈ processed_ids s)
      then Err (UnexpectedMessage "new event" "duplicate event id")
      else if negb (ev_kind event =? KIND_PAIRING)%N
      then Err (UnexpectedMessage ("kind " +:+ to_decimal KIND_PAIRING)
                                  ("kind " +:+ to_decimal (ev_kind event)))
      else if negb (existsb (names_us (pubkey_hex (public_key (keys s)))) (ev_tags event))
      then Err (InvalidPubkey "event p-tag does not match our ephemeral pubkey")
      else Ok ()
  end.

Definition record_event (event : Event) : M () :=
  modify (fun s => set_processed ({[ev_id event]} ∪ processed_ids s) s).

Definition validate_event_from_peer (event : Event) (s : PairingSession) : result () PairingError :=
  let? _ := validate_event_basics event s in
  match peer_pubkey s with
  | Some expected =>
      if negb (ev_pubkey event =? expected)%N
      then Err (InvalidPubkey ("event from " +:+ pubkey_hex (ev_pubkey event)
                               +:+ " but expected " +:+ pubkey_hex expected))
      else Ok ()
  | None => Ok ()
  end.

(** [Option::ok_or(..)?] on a field. *)
Definition require {A} (f : PairingSession -> option A) (e : PairingError) : M A :=
  lift (fun s => ok_or (f s) e).

(** ** Source *)

(** The keys and the secret are drawn by the caller ([Keys::generate], [rand::fill]). *)
Record QrPayload := mkQrPayload {
  qr_source_pubkey : PublicKey;
  qr_session_secret : string;
  qr_relays : list string;
  qr_version : N;
}.

Definition new_source (fresh_keys : N) (secret : string) (now : N) (relay_url : string)
  : PairingSession * QrPayload :=
  (mkSession Source Waiting fresh_keys secret [relay_url] None (derive_session_id secret)
     None None ∅ now DEFAULT_TIMEOUT,
   mkQrPayload (public_key fresh_keys) secret [relay_url] 1).

Definition handle_offer (now : N) (event : Event) : M string :=
  lift (check_expired now) ;;;
  lift (expect_state Waiting) ;;;
  lift (expect_role Source) ;;;
  lift (validate_event_basics event) ;;;
  let* msg := lift (decrypt_message event) in
  match msg with
  | Offer session_id_hex version =>
      if negb (version =? 1)%N
      then fail (UnexpectedMessage "version 1" ("version " +:+ to_decimal version))
      else
        lift (fun s =>
          match decode_32 session_id_hex with
          | Some id => if String.eqb id (session_id s) then Ok () else Err InvalidSessionId
          | None => Err InvalidSessionId
          end) ;;;
        let peer := ev_pubkey event in
        modify (set_peer (Some peer)) ;;;
        let* ecdh := lift (fun s => map_err SigningError (generate_shared_key (keys s) peer)) in
        let* sas := lift (fun s => Ok (derive_sas ecdh (session_secret s))) in
        let '(code, input) := sas in
        modify (set_sas (Some code) (Some input)) ;;;
        modify (set_state Confirming) ;;;
        record_event event ;;;
        ret (format_sas code)
  | other => fail (unexpected "offer" other)
  end.

Definition confirm_sas (now : N) (d : Draw) : M Event :=
  lift (check_expired now) ;;;
  lift (expect_state Confirming) ;;;
  lift (expect_role Source) ;;;
  let* input := require sas_input SasMismatch in
  let* peer := require peer_pubkey (InvalidPubkey "no peer") in
  let* hash := lift (fun s => Ok (derive_transcript_hash (session_id s)
                 (pubkey_bytes (public_key (keys s))) (pubkey_bytes peer) input (session_secret s))) in
  let* event := lift (build_event d (SasConfirm (hex_encode hash))) in
  modify (set_state Transferring) ;;;
  ret event.

(** The tail shared by the two payload handlers. *)
Definition accept_payload (event : Event) : M (PayloadType * string) :=
  lift (validate_event_from_peer event) ;;;
  let* msg := lift (decrypt_message event) in
  match msg with
  | Payload payload_type payload =>
      modify (set_state PayloadExchanged) ;;;
      record_event event ;;;
      ret (payload_type, payload)
  | other => fail (unexpected "payload" other)
  end.

Definition handle_return_payload (now : N) (event : Event) : M (PayloadType * string) :=
  lift (check_expired now) ;;;
  lift (expect_state Transferring) ;;;
  lift (expect_role Source) ;;;
  accept_payload event.

Definition send_source_complete (now : N) (d : Draw) (success : bool) : M Event :=
  lift (check_expired now) ;;;
  lift (expect_state PayloadExchanged) ;;;
  lift (expect_role Source) ;;;
  let* event := lift (build_event d (Complete success)) in
  modify (set_state (if success then Completed else Aborted)) ;;;
  ret event.

Definition send_payload (now : N) (d : Draw) (payload_type : PayloadType) (payload : string) : M Event :=
  lift (check_expired now) ;;;
  lift (expect_state Transferring) ;;;
  lift (expect_role Source) ;;;
  let* event := lift (build_event d (Payload payload_type payload)) in
  modify (set_state PayloadExchanged) ;;;
  ret event.

Definition handle_complete (now : N) (event : Event) : M () :=
  lift (check_expired now) ;;;
  lift (expect_state PayloadExchanged) ;;;
  lift (expect_role Source) ;;;
  lift (validate_event_from_peer event) ;;;
  let* msg := lift (decrypt_message event) in
  match msg with
  | Complete true =>
      modify (set_state Completed) ;;;
      record_event event
  | Complete false =>
      modify (set_state Aborted) ;;;
      fail (UnexpectedMessage "complete(success=true)" "complete(success=false)")
  | other => fail (unexpected "complete" other)
  end.

(** ** Target *)

Definition new_target (fresh_keys : N) (now : N) (d : Draw) (qr : QrPayload)
  : result (PairingSession * Event) PairingError :=
  let? ecdh := map_err SigningError (generate_shared_key fresh_keys (qr_source_pubkey qr)) in
  let '(code, input) := derive_sas ecdh (qr_session_secret qr) in
  let id := derive_session_id (qr_session_secret qr) in
  let session := mkSession Target Waiting fresh_keys (qr_session_secret qr) (qr_relays qr)
                   (Some (qr_source_pubkey qr)) id (Some code) (Some input) ∅ now DEFAULT_TIMEOUT in
  let? event := build_event d (Offer (hex_encode id) 1) session in
  Ok (set_state Confirming session, event).

Definition handle_sas_confirm (now : N) (event : Event) : M string :=
  lift (check_expired now) ;;;
  lift (expect_state Confirming) ;;;
  lift (expect_role Target) ;;;
  lift (validate_event_from_peer event) ;;;
  let* msg := lift (decrypt_message event) in
  match msg with
  | SasConfirm received_hash =>
      let* input := require sas_input SasMismatch in
      let* peer := require peer_pubkey (InvalidPubkey "no peer") in
      let* expected_hash := lift (fun s => Ok (derive_transcript_hash (session_id s)
          (pubkey_bytes peer) (pubkey_bytes (public_key (keys s))) input (session_secret s))) in
      let matches := match decode_32 received_hash with
                     | Some rb => String.eqb rb expected_hash
                     | None => false
                     end in
      if negb matches then
        modify (set_state Aborted) ;;;
        fail TranscriptMismatch
      else
        modify (set_state AwaitingConfirmation) ;;;
        record_event event ;;;
        let* code := require sas_code SasMismatch in
        ret (format_sas code)
  | other => fail (unexpected "sas-confirm" other)
  end.

Definition confirm_target_sas (now : N) : M () :=
  lift (check_expired now) ;;;
  lift (expect_state AwaitingConfirmation) ;;;
  lift (expect_role Target) ;;;
  modify (set_state Transferring).

Definition handle_payload (now : N) (event : Event) : M (PayloadType * string) :=
  lift (check_expired now) ;;;
  lift (expect_state Transferring) ;;;
  lift (expect_role Target) ;;;
  accept_payload event.

Definition send_complete (now : N) (d : Draw) : M Event :=
  lift (check_expired now) ;;;
  lift (expect_state PayloadExchanged) ;;;
  lift (expect_role Target) ;;;
  let* event := lift (build_event d (Complete true)) in
  modify (set_state Completed) ;;;
  ret event.

(** ** Either side *)

Definition terminal (st : SessionState) : bool :=
  match st with Completed | Aborted => true | _ => false end.

Definition reject_terminal (s : PairingSession) : result () PairingError :=
  if terminal (state s)
  then Err (UnexpectedMessage "non-terminal state" ("state " +:+ SessionState_debug (state s)))
  else Ok ().

Definition abort (d : Draw) (reason : AbortReason) : M (option Event) :=
  lift reject_terminal ;;;
  let* peer := lift (fun s => Ok (peer_pubkey s)) in
  match peer with
  | None => modify (set_state Aborted) ;;; ret None
  | Some _ =>
      let* event := lift (build_event d (Abort_ reason)) in
      modify (set_state Aborted) ;;;
      ret (Some event)
  end.

Definition handle_abort (event : Event) : M AbortReason :=
  lift reject_terminal ;;;
  require peer_pubkey (InvalidPubkey "cannot accept abort before peer is known") ;;;
  lift (validate_event_from_peer event) ;;;
  let* msg := lift (decrypt_message event) in
  match msg with
  | Abort_ reason =>
      modify (set_state Aborted) ;;;
      record_event event ;;;
      ret reason
  | other => fail (unexpected "abort" other)
  end.

(** The code to show to the user. *)
Definition shown_sas (s : PairingSession) : option string := format_sas <$> sas_code s.
End session.
