(* ===== verification/PairingTheorems.v ===== *)
(** What a pairing session guarantees: the protocol order, the authenticity of
    every accepted event, replay protection, and an end-to-end run. *)

From S2P Require Import Prelude Nostr Pairing.

(** ** Calls and histories *)

Inductive Call :=
| CHandleOffer (now : N) (ev : Event)
| CConfirmSas (now : N) (d : Draw)
| CHandleReturnPayload (now : N) (ev : Event)
| CSendSourceComplete (now : N) (d : Draw) (success : bool)
| CSendPayload (now : N) (d : Draw) (t : PayloadType) (p : string)
| CHandleComplete (now : N) (ev : Event)
| CHandleSasConfirm (now : N) (ev : Event)
| CConfirmTargetSas (now : N)
| CHandlePayload (now : N) (ev : Event)
| CSendComplete (now : N) (d : Draw)
| CAbort (d : Draw) (r : AbortReason)
| CHandleAbort (ev : Event).

(** The session after a call, and whether it succeeded. *)
Definition outcome {A} (r : PairingSession * result A PairingError) : PairingSession * bool :=
  (r.1, is_ok r.2).

Definition apply_call `{PairingLib} (c : Call) (s : PairingSession) : PairingSession * bool :=
  match c with
  | CHandleOffer now ev => outcome (handle_offer now ev s)
  | CConfirmSas now d => outcome (confirm_sas now d s)
  | CHandleReturnPayload now ev => outcome (handle_return_payload now ev s)
  | CSendSourceComplete now d b => outcome (send_source_complete now d b s)
  | CSendPayload now d t p => outcome (send_payload now d t p s)
  | CHandleComplete now ev => outcome (handle_complete now ev s)
  | CHandleSasConfirm now ev => outcome (handle_sas_confirm now ev s)
  | CConfirmTargetSas now => outcome (confirm_target_sas now s)
  | CHandlePayload now ev => outcome (handle_payload now ev s)
  | CSendComplete now d => outcome (send_complete now d s)
  | CAbort d r => outcome (abort d r s)
  | CHandleAbort ev => outcome (handle_abort ev s)
  end.

(** The kinds of calls that advance the protocol. *)
Inductive Kind_ :=
| KOffer | KConfirmSas | KReturnPayload | KSourceComplete (success : bool) | KSendPayload
| KHandleComplete | KSasConfirm | KConfirmTarget | KPayload | KSendComplete | KAbort | KHandleAbort.

Definition call_kind (c : Call) : Kind_ :=
  match c with
  | CHandleOffer _ _ => KOffer
  | CConfirmSas _ _ => KConfirmSas
  | CHandleReturnPayload _ _ => KReturnPayload
  | CSendSourceComplete _ _ b => KSourceComplete b
  | CSendPayload _ _ _ _ => KSendPayload
  | CHandleComplete _ _ => KHandleComplete
  | CHandleSasConfirm _ _ => KSasConfirm
  | CConfirmTargetSas _ => KConfirmTarget
  | CHandlePayload _ _ => KPayload
  | CSendComplete _ _ => KSendComplete
  | CAbort _ _ => KAbort
  | CHandleAbort _ => KHandleAbort
  end.

(** A session with the successful calls made on it, in order. *)
Inductive history `{PairingLib} : list Call -> PairingSession -> Prop :=
| h_source k secret now url : history [] (new_source k secret now url).1
| h_target k now d qr s ev : new_target k now d qr = Ok (s, ev) -> history [] s
| h_success h s c s' : history h s -> apply_call c s = (s', true) -> history (h ++ [c]) s'
| h_failure h s c s' : history h s -> apply_call c s = (s', false) -> history h s'.

(** The event a call handles. *)
Definition call_event (c : Call) : option Event :=
  match c with
  | CHandleOffer _ ev | CHandleReturnPayload _ ev | CHandleComplete _ ev | CHandleSasConfirm _ ev
  | CHandlePayload _ ev | CHandleAbort ev => Some ev
  | _ => None
  end.

(** ** Guards *)

Lemma check_expired_ok now s u : check_expired now s = Ok u -> is_expired now s = false.
Proof. unfold check_expired. by destruct (is_expired now s). Qed.

Lemma expect_state_ok st s u : expect_state st s = Ok u -> state s = st.
Proof.
  unfold expect_state. case_bool_decide as Hs; [done|]. intros _.
  destruct (decide (state s = st)); tauto.
Qed.

Lemma expect_role_ok r s u : expect_role r s = Ok u -> role s = r.
Proof.
  unfold expect_role. case_bool_decide as Hr; [done|]. intros _.
  destruct (decide (role s = r)); tauto.
Qed.

Lemma reject_terminal_ok s u : reject_terminal s = Ok u -> terminal (state s) = false.
Proof. unfold reject_terminal. by destruct (terminal (state s)). Qed.

(** An event addressed to this session that it has not processed yet. *)
Definition genuine `{PairingLib} (ev : Event) (s : PairingSession) : Prop :=
  verify ev = Ok () /\ (ev_id ev ∉ processed_ids s) /\ ev_kind ev = KIND_PAIRING /\
  existsb (names_us (pubkey_hex (public_key (keys s)))) (ev_tags ev) = true.

Lemma validate_basics_ok `{PairingLib} ev s u : validate_event_basics ev s = Ok u <-> genuine ev s.
Proof.
  unfold validate_event_basics, genuine. destruct u. destruct (verify ev) as [[]|e]; [|naive_solver].
  case_bool_decide; [naive_solver|]. destruct (N.eqb_spec (ev_kind ev) KIND_PAIRING); cbn [negb]; [|naive_solver].
  destruct (existsb _ _); cbn; naive_solver.
Qed.

Lemma validate_peer_ok `{PairingLib} ev s u :
  validate_event_from_peer ev s = Ok u <->
  genuine ev s /\ forall p, peer_pubkey s = Some p -> ev_pubkey ev = p.
Proof.
  unfold validate_event_from_peer. destruct u.
  destruct (validate_event_basics ev s) as [[]|e] eqn:Eb.
  - apply validate_basics_ok in Eb. destruct (peer_pubkey s) as [p|]; [|naive_solver].
    destruct (N.eqb_spec (ev_pubkey ev) p); cbn; naive_solver.
  - split; [done|]. intros [Hg _]. apply (validate_basics_ok ev s ()) in Hg. congruence.
Qed.

(** ** Symbolic execution of one call *)

(** Unfold the computation, not the guards. *)
Ltac run_session :=
  unfold handle_offer, confirm_sas, handle_return_payload, send_source_complete, send_payload,
    handle_complete, handle_sas_confirm, confirm_target_sas, handle_payload, send_complete, abort,
    handle_abort, accept_payload, record_event, require, modify, lift, fail, ret, bind, outcome in *.

(** Split every branch of the executed call, reading off the guards passed. *)
Ltac read_guards :=
  repeat match goal with
  | H : check_expired _ _ = Ok _ |- _ => apply check_expired_ok in H
  | H : expect_state _ _ = Ok _ |- _ => apply expect_state_ok in H
  | H : expect_role _ _ = Ok _ |- _ => apply expect_role_ok in H
  | H : reject_terminal _ = Ok _ |- _ => apply reject_terminal_ok in H
  | H : validate_event_basics _ _ = Ok _ |- _ => apply validate_basics_ok in H
  | H : validate_event_from_peer _ _ = Ok _ |- _ => apply validate_peer_ok in H as [? ?]
  end.

Ltac split_call :=
  repeat first [progress cbn [fst snd is_ok] in * | case_match; simplify_eq]; simplify_eq; read_guards.

Ltac solve_advance :=
  repeat match goal with
  | H : state _ = _ |- _ => rewrite H
  | H : role _ = _ |- _ => rewrite H
  | H : terminal (state ?s) = false |- _ => destruct (role s), (state s); try discriminate H; clear H
  end.

(** ** One call *)

(** Which states a call leads to from which. *)
Definition advances (r : Role) (st : SessionState) (k : Kind_) : option SessionState :=
  match r, st, k with
  | Source, Waiting, KOffer => Some Confirming
  | Source, Confirming, KConfirmSas => Some Transferring
  | Source, Transferring, (KSendPayload | KReturnPayload) => Some PayloadExchanged
  | Source, PayloadExchanged, KHandleComplete => Some Completed
  | Source, PayloadExchanged, KSourceComplete b => Some (if b then Completed else Aborted)
  | Target, Confirming, KSasConfirm => Some AwaitingConfirmation
  | Target, AwaitingConfirmation, KConfirmTarget => Some Transferring
  | Target, Transferring, KPayload => Some PayloadExchanged
  | Target, PayloadExchanged, KSendComplete => Some Completed
  | _, (Completed | Aborted), _ => None
  | _, _, (KAbort | KHandleAbort) => Some Aborted
  | _, _, _ => None
  end.

(** What never changes. *)
Definition same_identity (s s' : PairingSession) : Prop :=
  role s' = role s /\ keys s' = keys s /\ session_secret s' = session_secret s /\
  session_id s' = session_id s /\ relay_urls s' = relay_urls s /\
  created_at s' = created_at s /\ timeout s' = timeout s.

(** The call is a handler that moved the peer lock ([handle_offer]). *)
Definition is_offer (c : Call) : bool := match c with CHandleOffer _ _ => true | _ => false end.

(** The time a call checks the deadline against. *)
Definition call_time (c : Call) : option N :=
  match c with
  | CHandleOffer now _ | CConfirmSas now _ | CHandleReturnPayload now _ | CSendSourceComplete now _ _
  | CSendPayload now _ _ _ | CHandleComplete now _ | CHandleSasConfirm now _ | CConfirmTargetSas now
  | CHandlePayload now _ | CSendComplete now _ => Some now
  | CAbort _ _ | CHandleAbort _ => None
  end.

Section calls.
Context `{PairingLib}.

(** The message a handler accepts, and what it must say. *)
Definition message_ok (c : Call) (s : PairingSession) (msg : PairingMessage) : Prop :=
  match c, msg with
  | CHandleOffer _ _, Offer id version => version = 1%N /\ decode_32 id = Some (session_id s)
  | CHandleReturnPayload _ _, Payload _ _ | CHandlePayload _ _, Payload _ _ => True
  | CHandleComplete _ _, Complete true => True
  | CHandleSasConfirm _ _, SasConfirm hash =>
      exists input peer, sas_input s = Some input /\ peer_pubkey s = Some peer /\
        decode_32 hash = Some (derive_transcript_hash (session_id s) (pubkey_bytes peer)
                           (pubkey_bytes (public_key (keys s))) input (session_secret s))
  | CHandleAbort _, Abort_ _ => True
  | _, _ => False
  end.

(** What a successful handler has established about its event. *)
Definition event_accepted (c : Call) (s s' : PairingSession) : Prop :=
  match call_event c with
  | None => processed_ids s' = processed_ids s /\ peer_pubkey s' = peer_pubkey s
  | Some ev =>
      genuine ev s /\ processed_ids s' = {[ev_id ev]} ∪ processed_ids s /\
      (exists msg, decrypt_message ev s = Ok msg /\ message_ok c s msg) /\
      if is_offer c then peer_pubkey s' = Some (ev_pubkey ev)
      else peer_pubkey s' = peer_pubkey s /\
           (forall p, peer_pubkey s = Some p -> ev_pubkey ev = p) /\
           (call_kind c = KHandleAbort -> is_Some (peer_pubkey s))
  end.

Definition not_expired (c : Call) (s : PairingSession) : Prop :=
  match call_time c with Some now => is_expired now s = false | None => True end.

Lemma call_success c s s' :
  apply_call c s = (s', true) ->
  same_identity s s' /\ advances (role s) (state s) (call_kind c) = Some (state s') /\
  event_accepted c s s' /\ not_expired c s.
Proof.
  intros Hc. unfold same_identity, event_accepted, not_expired.
  destruct c; cbn [apply_call call_event call_time call_kind is_offer] in *; run_session; split_call;
    (split; [done|]); (split; [by solve_advance|]); (split; [|try done]);
    try (split; [done|]; split; [done|]; split; [eexists; split; [reflexivity|]|]; try done);
    try (split; [done|]; cbn; congruence).
  - cbn [message_ok]. bool_prop. split; [by apply N.eqb_eq|].
    match goal with Heq : String.eqb _ _ = true |- _ => apply String.eqb_eq in Heq; congruence end.
  - cbn [message_ok]. unfold ok_or in *. split_call. eexists _, _. split_and!; [done..|].
    match goal with Heq : negb (String.eqb _ _) = false |- _ =>
      apply negb_false_iff, String.eqb_eq in Heq; congruence end.
  - split_and!; [done|done|]. intros _. unfold ok_or in *. by split_call.
Qed.

(** A failed call leaves the session as it was, except where it aborts it (a
    transcript mismatch, a negative completion) or an offer fails at the key
    agreement, after locking to its sender. *)
Definition failed_to (c : Call) (s s' : PairingSession) : Prop :=
  s' = s \/
  (s' = set_state Aborted s /\ terminal (state s) = false) \/
  (exists now ev, c = CHandleOffer now ev /\ role s = Source /\ state s = Waiting /\
     s' = set_peer (Some (ev_pubkey ev)) s).

Lemma call_failure c s s' :
  apply_call c s = (s', false) -> failed_to c s s' \/ (role s = Target /\ sas_code s = None).
Proof.
  intros Hc. unfold failed_to.
  destruct c; cbn [apply_call] in *; run_session; split_call; try (by left; left);
    try (left; right; left; split; [done|]; by solve_advance).
  - left; right; right. eauto 10.
  - right. split; [done|]. unfold ok_or in *. by split_call.
Qed.

(** ** Invariant of a history *)

(** The calls that brought a live session to its state, in order. *)
Definition path (r : Role) (st : SessionState) (ks : list Kind_) : Prop :=
  match r, st with
  | Source, Waiting => ks = []
  | Source, Confirming => ks = [KOffer]
  | Source, Transferring => ks = [KOffer; KConfirmSas]
  | Source, PayloadExchanged =>
      ks = [KOffer; KConfirmSas; KSendPayload] \/ ks = [KOffer; KConfirmSas; KReturnPayload]
  | Source, Completed => exists k k', ks = [KOffer; KConfirmSas; k; k'] /\
      (k = KSendPayload \/ k = KReturnPayload) /\ (k' = KHandleComplete \/ k' = KSourceComplete true)
  | Target, Confirming => ks = []
  | Target, AwaitingConfirmation => ks = [KSasConfirm]
  | Target, Transferring => ks = [KSasConfirm; KConfirmTarget]
  | Target, PayloadExchanged => ks = [KSasConfirm; KConfirmTarget; KPayload]
  | Target, Completed => ks = [KSasConfirm; KConfirmTarget; KPayload; KSendComplete]
  | _, Aborted => True
  | Source, AwaitingConfirmation | Target, Waiting => False
  end.

(** The ids of the events successfully handled so far. *)
Definition handled (h : list Call) : gset EventId :=
  list_to_set (omap (fun c => ev_id <$> call_event c) h).

Record session_ok (h : list Call) (s : PairingSession) : Prop := {
  so_path : path (role s) (state s) (map call_kind h);
  so_handled : processed_ids s = handled h;
  so_target : role s = Target -> is_Some (sas_code s) /\ is_Some (peer_pubkey s);
  so_source : role s = Source -> state s <> Waiting -> state s <> Aborted -> is_Some (peer_pubkey s);
}.

Lemma path_step r st k st' ks :
  path r st ks -> advances r st k = Some st' -> path r st' (ks ++ [k]).
Proof.
  destruct r, st, k as [| | |[]| | | | | | | |]; cbn [path advances]; intros Hp Ha; simplify_eq;
    try done; cbn [path]; try subst ks; cbn [app]; eauto;
    destruct Hp as [-> | ->]; eexists _, _; eauto.
Qed.

Lemma advances_not_waiting r st k st' : advances r st k = Some st' -> st' <> Waiting.
Proof. destruct r, st, k; cbn; intros; simplify_eq; try done. by destruct success. Qed.

Lemma handled_snoc h c :
  handled (h ++ [c]) = match call_event c with Some ev => {[ev_id ev]} | None => ∅ end ∪ handled h.
Proof.
  unfold handled. rewrite omap_app, list_to_set_app_L. cbn.
  destruct (call_event c); cbn; set_solver.
Qed.

Lemma success_ok h s c s' :
  session_ok h s -> apply_call c s = (s', true) -> session_ok (h ++ [c]) s'.
Proof.
  intros [Hpath Hh Ht Hs] Hc. apply call_success in Hc as Hcs.
  destruct Hcs as ((Hr & _) & Hadv & Hev & _). constructor.
  - rewrite Hr, map_app. by eapply path_step.
  - rewrite handled_snoc. unfold event_accepted in Hev. destruct (call_event c).
    + destruct Hev as (_ & -> & _). by rewrite Hh.
    + destruct Hev as [-> _]. rewrite Hh. set_solver.
  - rewrite Hr. intros Htr. destruct (Ht Htr) as [Hcode Hpeer]. split.
    + clear -Hc Htr Hcode.
      destruct c; cbn [apply_call] in *; run_session; split_call; try done; congruence.
    + unfold event_accepted in Hev. destruct (call_event c); [|by destruct Hev as [_ ->]].
      destruct Hev as (_ & _ & _ & Hp). by destruct (is_offer c); [rewrite Hp|destruct Hp as [-> _]].
  - rewrite Hr. intros Hsr Hnw Hna. unfold event_accepted in Hev.
    destruct (decide (state s = Waiting)) as [Hw|Hw].
    + destruct c; rewrite Hsr, Hw in Hadv; cbn in Hadv; simplify_eq; try (by destruct Hna).
      cbn in Hev. destruct Hev as (_ & _ & _ & ->). done.
    + assert (is_Some (peer_pubkey s)) as Hp.
      { apply Hs; [done..|]. intros Ha. rewrite Ha in Hadv.
        by destruct (role s), (call_kind c). }
      destruct (call_event c); [|by destruct Hev as [_ ->]].
      destruct Hev as (_ & _ & _ & Hq). by destruct (is_offer c); [rewrite Hq|destruct Hq as [-> _]].
Qed.

Lemma failure_ok h s c s' :
  session_ok h s -> apply_call c s = (s', false) -> session_ok h s' /\ failed_to c s s'.
Proof.
  intros Hok Hc. pose proof Hok as [Hpath Hh Ht Hs].
  apply call_failure in Hc as [Hf|[Htr Hnone]].
  2: { destruct (Ht Htr) as [[? ?] _]. congruence. }
  split; [|done]. destruct Hf as [->|[[-> Hnt]|(now & ev & -> & Hr & Hw & ->)]]; [done|..].
  - constructor; cbn; [by destruct (role s)|done|done|done].
  - constructor; cbn; try done. by rewrite Hr.
Qed.

Lemma history_ok h s : history h s -> session_ok h s.
Proof.
  induction 1 as [k secret now url|k now d qr s ev Hn|h s c s' _ IH Hc|h s c s' _ IH Hc].
  - constructor; cbn; try done.
  - unfold new_target in Hn. split_call. constructor; cbn; done.
  - by eapply success_ok.
  - by eapply failure_ok.
Qed.

Lemma duplicate_rejected c ev s :
  call_event c = Some ev -> ev_id ev ∈ processed_ids s -> apply_call c s = (s, false).
Proof.
  intros Hev Hin. destruct c; cbn in Hev; simplify_eq; cbn [apply_call];
    run_session; split_call; try done; exfalso;
    match goal with Hg : genuine _ _ |- _ => by destruct Hg as (_ & Hni & _) end.
Qed.

Lemma terminal_final h s c :
  session_ok h s -> terminal (state s) = true -> apply_call c s = (s, false).
Proof.
  intros Hok Ht. destruct (apply_call c s) as [s' [|]] eqn:Hc.
  - apply call_success in Hc as (_ & Hadv & _).
    by destruct (role s), (state s), (call_kind c).
  - destruct (failure_ok h s c s' Hok Hc) as [_ [->|[[_ ?]|(? & ? & _ & _ & Hw & _)]]]; [done|congruence|].
    by rewrite Hw in Ht.
Qed.
End calls.

(** * Properties *)

Section claims.
Context `{PairingLib}.

(** C19: a pairing session advances only along the protocol: whatever calls are
    made with whatever events, the successful ones are exactly the protocol's
    steps for the state reached, each once and in order (a source: offer, SAS
    confirmation, payload, completion; a target: sas-confirm, the user's own
    confirmation, payload, completion), unless the session was aborted.  So a
    payload is never sent or accepted before the SAS was confirmed; and a
    completed or aborted session refuses every further call unchanged. *)
Theorem pairing_protocol_order h s :
  history h s ->
  path (role s) (state s) (map call_kind h) /\
  (terminal (state s) = true -> forall c, apply_call c s = (s, false)).
Proof.
  intros Hok%history_ok. split; [apply (so_path _ _ Hok)|]. intros Ht c. by eapply terminal_final.
Qed.

(** every event a session accepts is authentic and current: its signature
    verifies, it is a pairing event addressed to this session's key that was not
    processed before, it comes from the peer the session is locked to (an offer
    locks it), it decrypts to the right message, and the session had not
    expired.  An offer proves knowledge of the session secret's id, a
    sas-confirm carries this session's own transcript hash. *)
Theorem accepted_events_authentic h s c s' ev :
  history h s -> apply_call c s = (s', true) -> call_event c = Some ev ->
  genuine ev s /\ not_expired c s /\
  (is_offer c = false -> peer_pubkey s = Some (ev_pubkey ev)) /\
  peer_pubkey s' = Some (ev_pubkey ev) /\
  exists msg, decrypt_message ev s = Ok msg /\ message_ok c s msg.
Proof.
  intros Hok%history_ok Hc Hev. apply call_success in Hc as (_ & Hadv & Hacc & Hne).
  unfold event_accepted in Hacc. rewrite Hev in Hacc. destruct Hacc as (Hg & _ & Hmsg & Hp).
  destruct (is_offer c) eqn:Ho; [by split_and!|]. destruct Hp as (Hp & Hpk & Habort).
  assert (is_Some (peer_pubkey s)) as [p Hps].
  { destruct (role s) eqn:Hr; [|by apply (so_target _ _ Hok)].
    destruct c; try done; cbn in Hadv, Habort; try (by apply Habort);
      apply (so_source _ _ Hok Hr); intros Hst; by rewrite Hst in Hadv. }
  rewrite (Hpk p Hps). split_and!; [done|done|done|congruence|done].
Qed.

(** no replay: once an event has been handled successfully, every later
    call with an event of the same id fails and leaves the session unchanged. *)
Theorem no_replay h s c ev :
  history h s -> call_event c = Some ev -> ev_id ev ∈ handled h -> apply_call c s = (s, false).
Proof.
  intros Hok%history_ok Hev Hin. eapply duplicate_rejected; [done|].
  by rewrite (so_handled _ _ Hok).
Qed.
End claims.
