(* ===== verification/PairingRun.v ===== *)
(** Two honest devices: the pairing protocol run end to end, and what the
    transcript hash binds. *)

From S2P Require Import Prelude Nostr Pairing PairingTheorems.

(** Documented behaviour of the libraries: hexadecimal and [serde] round-trip,
    HKDF yields the requested length, ECDH is symmetric, NIP-44 decrypts what it
    encrypted (plaintexts of 1 to 65535 bytes, payloads of 132 to 87472), and a
    signed event verifies and carries what was signed. *)
Class PairingLaws `{PairingLib} : Prop := {
  pairing_hex_laws :: HexLaws;
  hkdf_expand_length : forall prk info n, String.length (hkdf_expand prk info n) = n;
  pubkey_bytes_length : forall pk, String.length (pubkey_bytes pk) = 32;
  ecdh_symmetric : forall a b, exists k,
    generate_shared_key a (public_key b) = Ok k /\ generate_shared_key b (public_key a) = Ok k;
  json_round_trip : forall m, exists j,
    to_json m = Ok j /\ from_json j = Ok m /\ 1 <= String.length j;
  json_control_size : forall m j, to_json m = Ok j ->
    match m with
    | Offer id v => String.length id <= 64 -> v = 1%N -> (N.of_nat (String.length j) <= 65535)%N
    | SasConfirm h => String.length h <= 64 -> (N.of_nat (String.length j) <= 65535)%N
    | Payload _ _ => True
    | Complete _ | Abort_ _ => (N.of_nat (String.length j) <= 65535)%N
    end;
  nip44_round_trip : forall a b m nonce,
    1 <= String.length m -> (N.of_nat (String.length m) <= 65535)%N -> exists c,
      nip44_encrypt a (public_key b) m nonce = Ok c /\
      (132 <= N.of_nat (String.length c) <= 87472)%N /\
      nip44_decrypt b (public_key a) c = Ok m;
  hex_encode_length : forall b, String.length (hex_encode b) = 2 * String.length b;
  sign_verifies : forall k kind content tags ts aux, exists ev,
    sign_with_keys k kind content tags ts aux = Ok ev /\ verify ev = Ok () /\
    ev_pubkey ev = public_key k /\ ev_kind ev = kind /\ ev_content ev = content /\ ev_tags ev = tags;
}.

(** The whole run between a source with keys [ks] and a target with keys [kt]:
    call [i] happens at time [t i] and draws [d i]. *)
Definition pair_devices `{PairingLib} (ks kt : N) (secret url : string) (t : nat -> N) (d : nat -> Draw)
    (ptype : PayloadType) (payload : string)
  : result (PairingSession * PairingSession * string * string * (PayloadType * string)) PairingError :=
  let '(src0, qr) := new_source ks secret (t 0) url in
  let? joined := new_target kt (t 1) (d 1) qr in
  let '(tgt1, offer) := joined in
  let '(src1, r) := handle_offer (t 2) offer src0 in
  let? sas_src := r in
  let '(src2, r) := confirm_sas (t 3) (d 3) src1 in
  let? confirm := r in
  let '(tgt2, r) := handle_sas_confirm (t 4) confirm tgt1 in
  let? sas_tgt := r in
  let '(tgt3, r) := confirm_target_sas (t 5) tgt2 in
  let? _ := r in
  let '(src3, r) := send_payload (t 6) (d 6) ptype payload src2 in
  let? payload_event := r in
  let '(tgt4, r) := handle_payload (t 7) payload_event tgt3 in
  let? received := r in
  let '(tgt5, r) := send_complete (t 8) (d 8) tgt4 in
  let? complete_event := r in
  let '(src4, r) := handle_complete (t 9) complete_event src3 in
  let? _ := r in
  Ok (src4, tgt5, sas_src, sas_tgt, received).

Section run.
Context `{PairingLaws}.

(** [ev] carries message [m] from the keys [a] to the keys [b]. *)
Definition delivers (a b : N) (m : PairingMessage) (ev : Event) : Prop :=
  verify ev = Ok () /\ ev_kind ev = KIND_PAIRING /\
  ev_tags ev = [["p"; pubkey_hex (public_key b)]] /\ ev_pubkey ev = public_key a /\
  forall s, keys s = b -> decrypt_message ev s = Ok m.

(** The events two calls of one device sign, for messages to one peer, have
    different ids. *)
Definition ids_differ (a b : N) (d d' : Draw) (m m' : PairingMessage) : Prop :=
  forall s s' ev ev', keys s = a -> keys s' = a ->
    peer_pubkey s = Some (public_key b) -> peer_pubkey s' = Some (public_key b) ->
    build_event d m s = Ok ev -> build_event d' m' s' = Ok ev' -> ev_id ev <> ev_id ev'.

(** The confirmation the source sends: the hash of the transcript. *)
Definition confirmation (ks kt : N) (secret : string) : PairingMessage :=
  match generate_shared_key ks (public_key kt) with
  | Ok k => SasConfirm (hex_encode (derive_transcript_hash (derive_session_id secret) (pubkey_bytes (public_key ks))
              (pubkey_bytes (public_key kt)) (derive_sas k secret).2 secret))
  | Err _ => Complete false
  end.

(** A message within the plaintext limit of NIP-44. *)
Definition encodable (m : PairingMessage) : Prop :=
  forall j, to_json m = Ok j -> (N.of_nat (String.length j) <= 65535)%N.

Lemma build_delivers d m s b :
  peer_pubkey s = Some (public_key b) -> encodable m ->
  exists ev, build_event d m s = Ok ev /\ delivers (keys s) b m ev.
Proof.
  intros Hp He. unfold build_event. rewrite Hp.
  destruct (json_round_trip m) as (j & Hj & Hback & Hlen). rewrite Hj. cbn [map_err].
  pose proof (He j Hj) as Hsize.
  destruct (nip44_round_trip (keys s) b j (dw_nonce d) Hlen Hsize) as (c & Hc & Hcl & Hdec).
  rewrite Hc. cbn [map_err]. set (ts := (dw_clock d - dw_jitter d mod 31)%N).
  destruct (sign_verifies (keys s) KIND_PAIRING c [["p"; pubkey_hex (public_key b)]] ts (dw_aux d))
    as (ev & Hs & Hv & Hpk & Hk & Hct & Htags).
  rewrite Hs. exists ev. split; [done|]. unfold delivers. split_and!; try done.
  intros s' Hkeys. unfold decrypt_message. rewrite Hct, Hpk, Hkeys, Hdec. cbv zeta.
  assert (((132 <=? N.of_nat (String.length c)) && (N.of_nat (String.length c) <=? 87472))%N = true) as ->.
  { rewrite andb_true_iff, !N.leb_le. lia. }
  cbn [negb map_err]. assert ((65535 <? N.of_nat (String.length j))%N = false) as -> by (apply N.ltb_ge; lia).
  by rewrite Hback.
Qed.

Lemma delivers_genuine a b m ev s :
  delivers a b m ev -> keys s = b -> ev_id ev ∉ processed_ids s -> genuine ev s.
Proof.
  intros (Hv & Hk & Ht & _) Hkeys Hid. split_and!; try done. rewrite Ht, Hkeys. cbn.
  by rewrite String.eqb_refl.
Qed.

Lemma delivers_basics a b m ev s :
  delivers a b m ev -> keys s = b -> ev_id ev ∉ processed_ids s -> validate_event_basics ev s = Ok ().
Proof. intros Hd Hk Hid. by apply validate_basics_ok, (delivers_genuine a b m). Qed.

Lemma delivers_peer a b m ev s :
  delivers a b m ev -> keys s = b -> ev_id ev ∉ processed_ids s ->
  peer_pubkey s = Some (public_key a) -> validate_event_from_peer ev s = Ok ().
Proof.
  intros Hd Hk Hid Hp. apply validate_peer_ok. split; [by eapply delivers_genuine|].
  intros p Hp'. destruct Hd as (_ & _ & _ & -> & _). congruence.
Qed.

Lemma hkdf32_length salt ikm info : String.length (hkdf32 salt ikm info) = 32.
Proof.
  unfold hkdf32. set (k := hkdf_expand _ _ _).
  assert (String.length k = 32) as Hk by apply hkdf_expand_length. revert Hk. generalize 32 as n.
  induction k as [|c k IH]; intros [|n] Hn; cbn in *; try done. f_equal. apply IH. lia.
Qed.

Lemma decode_32_hash salt ikm info :
  decode_32 (hex_encode (hkdf32 salt ikm info)) = Some (hkdf32 salt ikm info).
Proof. unfold decode_32. by rewrite hex_decode_encode, hkdf32_length. Qed.

Lemma small_hash salt ikm info : String.length (hex_encode (hkdf32 salt ikm info)) <= 64.
Proof. rewrite hex_encode_length, hkdf32_length. lia. Qed.

(** ** Each call of an honest run succeeds *)

Definition alive (now : N) (s : PairingSession) : Prop := (now <= created_at s + timeout s)%N.

Lemma alive_ok now s : alive now s -> check_expired now s = Ok ().
Proof.
  unfold alive, check_expired, is_expired. intros Ha.
  assert ((timeout s <? now - created_at s)%N = false) as -> by (apply N.ltb_ge; lia). done.
Qed.

Lemma state_ok st s : state s = st -> expect_state st s = Ok ().
Proof. intros Hs. unfold expect_state. by rewrite bool_decide_false by tauto. Qed.

Lemma role_ok r s : role s = r -> expect_role r s = Ok ().
Proof. intros Hr. unfold expect_role. by rewrite bool_decide_false by tauto. Qed.

(** Run the guards and the event checks from the hypotheses. *)
Ltac honest :=
  unfold require, record_event, bind, lift, modify, ret; cbv beta;
  repeat match goal with
  | H : alive ?now ?s |- context [check_expired ?now ?s] => rewrite (alive_ok now s H)
  | H : state ?s = ?st |- context [expect_state ?st ?s] => rewrite (state_ok st s H)
  | H : role ?s = ?r |- context [expect_role ?r ?s] => rewrite (role_ok r s H)
  end.

Lemma handle_offer_succeeds now ev s kt k code input :
  role s = Source -> state s = Waiting -> alive now s ->
  delivers kt (keys s) (Offer (hex_encode (session_id s)) 1) ev ->
  decode_32 (hex_encode (session_id s)) = Some (session_id s) ->
  ev_id ev ∉ processed_ids s -> generate_shared_key (keys s) (public_key kt) = Ok k ->
  derive_sas k (session_secret s) = (code, input) ->
  handle_offer now ev s =
    (set_processed ({[ev_id ev]} ∪ processed_ids s)
       (set_state Confirming (set_sas (Some code) (Some input) (set_peer (Some (public_key kt)) s))),
     Ok (format_sas code)).
Proof.
  intros Hr Hst Ha Hd Hid Hn Hk Hs. unfold handle_offer. honest.
  rewrite (delivers_basics _ _ _ _ _ Hd eq_refl Hn).
  destruct Hd as (_ & _ & _ & Hpk & Hdec). rewrite (Hdec s eq_refl). cbn [N.eqb Pos.eqb negb].
  rewrite Hid, String.eqb_refl, Hpk. cbn [keys set_peer session_secret]. rewrite Hk. cbn [map_err].
  by rewrite Hs.
Qed.

Lemma confirm_sas_succeeds now d s kt input :
  role s = Source -> state s = Confirming -> alive now s ->
  sas_input s = Some input -> peer_pubkey s = Some (public_key kt) ->
  let m := SasConfirm (hex_encode (derive_transcript_hash (session_id s)
      (pubkey_bytes (public_key (keys s))) (pubkey_bytes (public_key kt)) input (session_secret s))) in
  exists ev, confirm_sas now d s = (set_state Transferring s, Ok ev) /\ build_event d m s = Ok ev /\
    delivers (keys s) kt m ev.
Proof.
  intros Hr Hst Ha Hi Hp m. unfold confirm_sas. honest. rewrite Hi, Hp. cbn [ok_or]. fold m. destruct (build_delivers d m s kt Hp) as (ev & Hb & Hd).
  { intros j Hj. apply json_control_size in Hj. apply Hj, small_hash. }
  exists ev. rewrite Hb. done.
Qed.

Lemma handle_sas_confirm_succeeds now ev s ks code input :
  role s = Target -> state s = Confirming -> alive now s ->
  sas_input s = Some input -> sas_code s = Some code -> peer_pubkey s = Some (public_key ks) ->
  delivers ks (keys s) (SasConfirm (hex_encode (derive_transcript_hash (session_id s)
    (pubkey_bytes (public_key ks)) (pubkey_bytes (public_key (keys s))) input (session_secret s)))) ev ->
  ev_id ev ∉ processed_ids s ->
  handle_sas_confirm now ev s =
    (set_processed ({[ev_id ev]} ∪ processed_ids s) (set_state AwaitingConfirmation s), Ok (format_sas code)).
Proof.
  intros Hr Hst Ha Hi Hc Hp Hd Hn. unfold handle_sas_confirm. honest.
  rewrite (delivers_peer _ _ _ _ _ Hd eq_refl Hn Hp).
  destruct Hd as (_ & _ & _ & _ & Hdec). rewrite (Hdec s eq_refl), Hi, Hp. cbn [ok_or].
  unfold derive_transcript_hash. rewrite decode_32_hash, String.eqb_refl. cbn [negb].
  cbn [sas_code set_processed set_state]. by rewrite Hc.
Qed.

Lemma send_payload_succeeds now d s kt ptype payload :
  role s = Source -> state s = Transferring -> alive now s ->
  peer_pubkey s = Some (public_key kt) -> encodable (Payload ptype payload) ->
  exists ev, send_payload now d ptype payload s = (set_state PayloadExchanged s, Ok ev) /\
    build_event d (Payload ptype payload) s = Ok ev /\ delivers (keys s) kt (Payload ptype payload) ev.
Proof.
  intros Hr Hst Ha Hp He. unfold send_payload. honest.
  destruct (build_delivers d _ s kt Hp He) as (ev & Hb & Hd). exists ev. by rewrite Hb.
Qed.

Lemma handle_payload_succeeds now ev s ks ptype payload :
  role s = Target -> state s = Transferring -> alive now s ->
  peer_pubkey s = Some (public_key ks) -> delivers ks (keys s) (Payload ptype payload) ev ->
  ev_id ev ∉ processed_ids s ->
  handle_payload now ev s =
    (set_processed ({[ev_id ev]} ∪ processed_ids s) (set_state PayloadExchanged s), Ok (ptype, payload)).
Proof.
  intros Hr Hst Ha Hp Hd Hn. unfold handle_payload, accept_payload. honest.
  rewrite (delivers_peer _ _ _ _ _ Hd eq_refl Hn Hp).
  destruct Hd as (_ & _ & _ & _ & Hdec). by rewrite (Hdec s eq_refl).
Qed.

Lemma send_complete_succeeds now d s ks :
  role s = Target -> state s = PayloadExchanged -> alive now s ->
  peer_pubkey s = Some (public_key ks) ->
  exists ev, send_complete now d s = (set_state Completed s, Ok ev) /\
    build_event d (Complete true) s = Ok ev /\ delivers (keys s) ks (Complete true) ev.
Proof.
  intros Hr Hst Ha Hp. unfold send_complete. honest.
  destruct (build_delivers d (Complete true) s ks Hp) as (ev & Hb & Hd).
  { intros j Hj. by apply json_control_size in Hj. }
  exists ev. by rewrite Hb.
Qed.

Lemma handle_complete_succeeds now ev s kt :
  role s = Source -> state s = PayloadExchanged -> alive now s ->
  peer_pubkey s = Some (public_key kt) -> delivers kt (keys s) (Complete true) ev ->
  ev_id ev ∉ processed_ids s ->
  handle_complete now ev s =
    (set_processed ({[ev_id ev]} ∪ processed_ids s) (set_state Completed s), Ok ()).
Proof.
  intros Hr Hst Ha Hp Hd Hn. unfold handle_complete. honest.
  rewrite (delivers_peer _ _ _ _ _ Hd eq_refl Hn Hp).
  destruct Hd as (_ & _ & _ & _ & Hdec). by rewrite (Hdec s eq_refl).
Qed.

Lemma confirm_target_succeeds now s :
  role s = Target -> state s = AwaitingConfirmation -> alive now s ->
  confirm_target_sas now s = (set_state Transferring s, Ok ()).
Proof. intros Hr Hst Ha. unfold confirm_target_sas. by honest. Qed.

(** * Properties *)

(** C36: two honest devices always succeed: with any keys and any secret, if
    every call is made within 120 seconds of each session's creation, the
    payload fits a NIP-44 plaintext, and the ids of the two events each device
    receives do not collide, every step of the run is accepted, both
    devices show the same SAS code, the target receives exactly the payload the
    source sent, and both sessions end completed. *)
Theorem pairing_end_to_end ks kt secret url t d ptype payload :
  (forall i, (t 0%nat <= t i <= t 0%nat + 120)%N) ->
  encodable (Payload ptype payload) ->
  ids_differ kt ks (d 1) (d 8) (Offer (hex_encode (derive_session_id secret)) 1) (Complete true) ->
  ids_differ ks kt (d 3) (d 6) (confirmation ks kt secret) (Payload ptype payload) ->
  exists src tgt sas,
    pair_devices ks kt secret url t d ptype payload = Ok (src, tgt, sas, sas, (ptype, payload)) /\
    state src = Completed /\ state tgt = Completed /\
    shown_sas src = Some sas /\ shown_sas tgt = Some sas.
Proof.
  intros Ht Hpay Hids_t Hids_s. unfold pair_devices, new_source, new_target. cbn [qr_source_pubkey qr_session_secret qr_relays].
  destruct (ecdh_symmetric ks kt) as (k & Hk1 & Hk2). rewrite Hk2. cbn [map_err].
  unfold confirmation in Hids_s. rewrite Hk1 in Hids_s.
  destruct (derive_sas k secret) as [code input] eqn:Es. cbn [snd] in Hids_s.
  set (tgt0 := mkSession Target Waiting kt _ _ _ _ _ _ _ _ _).
  destruct (build_delivers (d 1) (Offer (hex_encode (derive_session_id secret)) 1) tgt0 ks eq_refl)
    as (offer & Hboffer & Hoffer).
  { intros j Hj. apply json_control_size in Hj. apply Hj; [apply small_hash|done]. }
  rewrite Hboffer. set (src0 := mkSession Source Waiting ks _ _ _ _ _ _ _ _ _).
  assert (forall i s, created_at s = t 0 -> timeout s = 120%N -> alive (t i) s) as Halive_s.
  { intros i s Hc Hto. unfold alive. rewrite Hc, Hto. specialize (Ht i). lia. }
  assert (forall i s, created_at s = t 1 -> timeout s = 120%N -> alive (t i) s) as Halive_t.
  { intros i s Hc Hto. unfold alive. rewrite Hc, Hto. pose proof (Ht i). specialize (Ht 1). lia. }
  rewrite (handle_offer_succeeds (t 2) offer src0 kt k code input);
    [|done|done|by apply Halive_s|done|apply decode_32_hash|set_solver|done|done].
  set (src1 := set_processed _ _).
  destruct (confirm_sas_succeeds (t 3) (d 3) src1 kt input) as (confirm & -> & Hbconfirm & Hconfirm);
    [done|done|by apply Halive_s|done|done|].
  set (src2 := set_state Transferring src1). set (tgt1 := set_state Confirming tgt0).
  rewrite (handle_sas_confirm_succeeds (t 4) confirm tgt1 ks code input);
    [|done|done|by apply Halive_t|done|done|done|exact Hconfirm|set_solver].
  set (tgt2 := set_processed _ _).
  rewrite (confirm_target_succeeds (t 5) tgt2); [|done|done|by apply Halive_t].
  set (tgt3 := set_state Transferring tgt2).
  destruct (send_payload_succeeds (t 6) (d 6) src2 kt ptype payload) as (pev & -> & Hbpev & Hpev);
    [done|done|by apply Halive_s|done|done|].
  set (src3 := set_state PayloadExchanged src2).
  rewrite (handle_payload_succeeds (t 7) pev tgt3 ks ptype payload);
    [|done|done|by apply Halive_t|done|exact Hpev|].
  2: { cbn. rewrite elem_of_union, elem_of_singleton. intros [Heq|Hin]; [|set_solver].
       by apply (Hids_s src1 src2 confirm pev). }
  set (tgt4 := set_processed _ _).
  destruct (send_complete_succeeds (t 8) (d 8) tgt4 ks) as (cev & -> & Hbcev & Hcev);
    [done|done|by apply Halive_t|done|].
  rewrite (handle_complete_succeeds (t 9) cev src3 kt);
    [|done|done|by apply Halive_s|done|exact Hcev|].
  2: { cbn. rewrite elem_of_union, elem_of_singleton. intros [Heq|Hin]; [|set_solver].
       by apply (Hids_t tgt0 tgt4 offer cev). }
  eexists _, _, _. split; [reflexivity|]. done.
Qed.

(** the transcript hash binds the session: when two devices that share the
    session secret agree on the transcript hash, they agree on the session id,
    on both public keys and on the SAS input, provided HKDF does not collide on
    the two transcripts. *)
Theorem transcript_binds_session secret id id' src src' tgt tgt' input input' :
  String.length id = 32 -> String.length id' = 32 ->
  derive_transcript_hash id (pubkey_bytes src) (pubkey_bytes tgt) input secret =
  derive_transcript_hash id' (pubkey_bytes src') (pubkey_bytes tgt') input' secret ->
  no_collision (fun m => hkdf32 secret m INFO_TRANSCRIPT)
    (id +:+ pubkey_bytes src +:+ pubkey_bytes tgt +:+ input)
    (id' +:+ pubkey_bytes src' +:+ pubkey_bytes tgt' +:+ input') ->
  id = id' /\ pubkey_bytes src = pubkey_bytes src' /\ pubkey_bytes tgt = pubkey_bytes tgt' /\
  input = input'.
Proof.
  intros Hl Hl' Heq Hnc. unfold derive_transcript_hash in Heq. apply Hnc in Heq as Em.
  apply app_inj_length in Em as [-> Em]; [|congruence].
  apply app_inj_length in Em as [-> Em]; [|by rewrite !pubkey_bytes_length].
  apply app_inj_length in Em as [-> ->]; [done|by rewrite !pubkey_bytes_length].
Qed.
End run.

(** ** Witnesses *)

(** A toy library that satisfies the laws. *)
Module SamplePairing.
Definition pad : string := zeros 132.

Definition encode_message (m : PairingMessage) : string :=
  match m with
  | Offer id v => "o" +:+ zeros (N.to_nat v) +:+ ":" +:+ id
  | SasConfirm h => "s" +:+ h
  | Payload Nsec p => "pn" +:+ p
  | Payload Bunker p => "pb" +:+ p
  | Payload Connect p => "pc" +:+ p
  | Payload Custom p => "px" +:+ p
  | Complete b => if b then "c1" else "c0"
  | Abort_ AbortSasMismatch => "am"
  | Abort_ UserDenied => "ad"
  | Abort_ Timeout => "at"
  | Abort_ ProtocolError => "ap"
  | Abort_ UnknownReason => "au"
  end.

Fixpoint decode_offer (v : N) (s : string) : result PairingMessage string :=
  match s with
  | String "0" s' => decode_offer (v + 1) s'
  | String ":" s' => Ok (Offer s' v)
  | _ => Err "offer"
  end.

Definition decode_message (s : string) : result PairingMessage string :=
  match s with
  | String "o" s' => decode_offer 0 s'
  | String "s" h => Ok (SasConfirm h)
  | String "p" (String "n" p) => Ok (Payload Nsec p)
  | String "p" (String "b" p) => Ok (Payload Bunker p)
  | String "p" (String "c" p) => Ok (Payload Connect p)
  | String "p" (String "x" p) => Ok (Payload Custom p)
  | String "c" (String "1" "") => Ok (Complete true)
  | String "c" (String "0" "") => Ok (Complete false)
  | String "a" (String "m" "") => Ok (Abort_ AbortSasMismatch)
  | String "a" (String "d" "") => Ok (Abort_ UserDenied)
  | String "a" (String "t" "") => Ok (Abort_ Timeout)
  | String "a" (String "p" "") => Ok (Abort_ ProtocolError)
  | String "a" (String "u" "") => Ok (Abort_ UnknownReason)
  | _ => Err "message"
  end.

#[export] Instance lib : PairingLib := {|
  pairing_hex := SampleHex.lib;
  public_key := fun k => k;
  pubkey_bytes := fun _ => zeros 32;
  pubkey_hex := to_decimal;
  generate_shared_key := fun a b => Ok (to_decimal (a + b));
  hkdf_extract := fun salt ikm => salt +:+ ikm;
  hkdf_expand := fun _ _ n => zeros n;
  nip44_encrypt := fun _ _ m _ => Ok (pad +:+ m);
  nip44_decrypt := fun _ _ c => ok_or (strip_prefix pad c) "short";
  to_json := fun m => Ok (encode_message m);
  from_json := decode_message;
  sign_with_keys := fun k kind content tags ts _ =>
    Ok (mkEvent (Npos (encode content)) k ts kind tags content);
  verify := fun _ => Ok ();
|}.

Lemma zeros_length n : String.length (zeros n) = n.
Proof. induction n; cbn; auto. Qed.

Lemma decode_offer_zeros n v id : decode_offer v (zeros n +:+ ":" +:+ id) = Ok (Offer id (v + N.of_nat n)).
Proof.
  revert v. induction n as [|n IH]; intros v.
  - cbn. by rewrite N.add_0_r.
  - change (zeros (S n) +:+ ":" +:+ id) with (String "0" (zeros n +:+ ":" +:+ id)). cbn [decode_offer].
    rewrite IH. do 2 f_equal. lia.
Qed.

Lemma decode_message_encode m : decode_message (encode_message m) = Ok m.
Proof.
  destruct m as [id v|h|[] p|[]|[]]; try done.
  change (decode_message _) with (decode_offer 0 (zeros (N.to_nat v) +:+ ":" +:+ id)).
  rewrite decode_offer_zeros. do 2 f_equal. lia.
Qed.

Lemma hex_length b : String.length (SampleHex.encode b) = 2 * String.length b.
Proof. induction b as [|c b IH]; [done|]. cbn -[SampleHex.digit N.div N.modulo]. lia. Qed.

#[export] Instance laws : PairingLaws.
Proof.
  split.
  - apply SampleHex.laws.
  - intros. apply zeros_length.
  - intros. apply zeros_length.
  - intros a b. exists (to_decimal (a + b)). split; [done|]. cbn. by rewrite N.add_comm.
  - intros m. exists (encode_message m). split_and!; [done|apply decode_message_encode|].
    destruct m as [id v|h|[] p|[]|[]]; cbn [encode_message]; rewrite ?string_length_app;
      cbn [String.length]; lia.
  - intros m j [= <-]. destruct m as [id v|h|[] p|[]|[]]; cbn [encode_message]; try done.
    + intros Hid ->. rewrite !string_length_app, zeros_length. cbn [String.length].
      change (N.to_nat 1) with 1. lia.
    + intros Hh. rewrite string_length_app. cbn [String.length]. lia.
  - intros a b m nonce H1 H2. exists (pad +:+ m). split_and!; [done|..].
    + rewrite string_length_app. unfold pad. rewrite zeros_length. lia.
    + rewrite string_length_app. unfold pad. rewrite zeros_length. lia.
    + cbn [nip44_decrypt lib]. by rewrite (proj2 (strip_prefix_Some pad (pad +:+ m) m) eq_refl).
  - apply hex_length.
  - intros. eexists. split; [reflexivity|]. done.
Qed.

Lemma sample_ids_differ a b d d' m m' : encode_message m <> encode_message m' -> ids_differ a b d d' m m'.
Proof.
  intros Hne s s' ev ev' _ _ Hp Hp'. unfold build_event. rewrite Hp, Hp'. intros [= <-] [= <-] Heq. cbn [ev_id] in Heq.
  apply (inj N.pos), (inj encode), (inj (String.append pad)) in Heq. done.
Qed.

Definition draw (i : nat) : Draw := mkDraw (N.of_nat i) 500 7 0.
Definition time (i : nat) : N := if i =? 0 then 100%N else 110%N.
Definition source : PairingSession := (new_source 11 "secret" 100 "wss://relay").1.
Definition qr : QrPayload := (new_source 11 "secret" 100 "wss://relay").2.
Definition offer : Event :=
  match new_target 22 110 (draw 1) qr with Ok (_, ev) => ev | Err _ => mkEvent 0 0 0 0 [] "" end.
Definition offered : PairingSession := (apply_call (CHandleOffer 115 offer) source).1.

Lemma offered_history : history [CHandleOffer 115 offer] offered.
Proof.
  assert ((apply_call (CHandleOffer 115 offer) source).2 = true) as Hok by (vm_compute; reflexivity).
  apply (h_success [] source (CHandleOffer 115 offer) offered); [apply h_source|].
  rewrite <- Hok. apply surjective_pairing.
Qed.
End SamplePairing.

Import SamplePairing.

Lemma pairing_end_to_end_witness :
  exists src tgt sas,
    pair_devices 11 22 "secret" "wss://relay" time draw Nsec "nsec1abc"
    = Ok (src, tgt, sas, sas, (Nsec, "nsec1abc")) /\
    state src = Completed /\ state tgt = Completed /\
    shown_sas src = Some sas /\ shown_sas tgt = Some sas.
Proof.
  apply (pairing_end_to_end 11 22 "secret" "wss://relay" time draw Nsec "nsec1abc").
  - intros i. unfold time. destruct (i =? 0); cbn; lia.
  - intros j [= <-]. vm_compute. discriminate.
  - apply sample_ids_differ. discriminate.
  - apply sample_ids_differ. vm_compute. discriminate.
Defined.

Lemma transcript_binds_session_witness :
  String.length (zeros 32) = 32 /\
  (zeros 32 = zeros 32 /\ pubkey_bytes 1 = pubkey_bytes 1 /\ pubkey_bytes 2 = pubkey_bytes 2 /\ "x" = "x").
Proof.
  split; [reflexivity|].
  apply (transcript_binds_session "k" (zeros 32) (zeros 32) 1 1 2 2 "x" "x"); done.
Defined.

Lemma pairing_protocol_order_witness :
  path (role offered) (state offered) [KOffer] /\
  (terminal (state offered) = true -> forall c, apply_call c offered = (offered, false)).
Proof. apply (pairing_protocol_order [CHandleOffer 115 offer] offered offered_history). Defined.

Lemma accepted_events_authentic_witness :
  call_event (CHandleOffer 115 offer) = Some offer /\
  (genuine offer source /\ not_expired (CHandleOffer 115 offer) source /\
   (is_offer (CHandleOffer 115 offer) = false -> peer_pubkey source = Some (ev_pubkey offer)) /\
   peer_pubkey offered = Some (ev_pubkey offer) /\
   exists msg, decrypt_message offer source = Ok msg /\ message_ok (CHandleOffer 115 offer) source msg).
Proof.
  split; [reflexivity|].
  apply (accepted_events_authentic [] source (CHandleOffer 115 offer) offered offer).
  - apply h_source.
  - transitivity ((apply_call (CHandleOffer 115 offer) source).1, (apply_call (CHandleOffer 115 offer) source).2).
    + apply surjective_pairing.
    + unfold offered. f_equal.
  - reflexivity.
Defined.

Lemma no_replay_witness :
  apply_call (CHandleOffer 116 offer) offered = (offered, false).
Proof.
  apply (no_replay [CHandleOffer 115 offer] offered (CHandleOffer 116 offer) offer offered_history).
  - reflexivity.
  - cbn. set_solver.
Defined.
