(* ===== verification/PairingQr.v ===== *)
(** The QR code of a pairing session, buzz-core/src/pairing/qr.rs.

    The [percent-encoding] and [url] crates and the key codec of [nostr] are the
    class [QrLib]. *)

From S2P Require Import Prelude Nostr Pairing.

(** What the code reads of a parsed [url::Url]. *)
Record Url := mkUrl { url_scheme : string; url_has_host : bool }.

Class QrLib := {
  qr_hex :: HexLib;
  (** [PublicKey::to_hex] and [PublicKey::from_hex] *)
  pk_to_hex : PublicKey -> string;
  pk_from_hex : string -> result PublicKey string;
  (** [utf8_percent_encode(s, NON_ALPHANUMERIC)] and
      [percent_decode_str(s).decode_utf8_lossy()] *)
  percent_encode : string -> string;
  percent_decode : string -> string;
  (** [Url::parse] *)
  url_parse : string -> result Url string;
}.

(** Documented behaviour: keys print as 64 lower-case hexadecimal digits and
    parse back (a key is a 256-bit number), percent-encoding leaves only alphanumerics and [%] and is undone
    by decoding, hexadecimal is lower-case and twice as long. *)
Definition is_lowercase_hex (c : ascii) : bool :=
  is_ascii_digit c || (let n := N_of_ascii c in ((97 <=? n) && (n <=? 102))%N).

Definition encoded_char (c : ascii) : bool :=
  let n := N_of_ascii c in
  is_ascii_digit c || is_ascii_uppercase c || ((97 <=? n) && (n <=? 122))%N || Ascii.eqb c "%".

Class QrLaws `{QrLib} : Prop := {
  qr_hex_laws :: HexLaws;
  qr_hex_digits : forall b, all_chars is_lowercase_hex (hex_encode b) = true;
  qr_hex_length : forall b, String.length (hex_encode b) = 2 * String.length b;
  pk_round_trip : forall pk, (pk < 2 ^ 256)%N -> pk_from_hex (pk_to_hex pk) = Ok pk;
  pk_hex_digits : forall pk, all_chars is_lowercase_hex (pk_to_hex pk) = true;
  pk_hex_length : forall pk, String.length (pk_to_hex pk) = 64;
  percent_round_trip : forall s, percent_decode (percent_encode s) = s;
  percent_chars : forall s, all_chars encoded_char (percent_encode s) = true;
}.

(** ** Standard library *)

(** [str::split_once(char)]. *)
Fixpoint split_once (c : ascii) (s : string) : option (string * string) :=
  match s with
  | EmptyString => None
  | String a s' =>
      if Ascii.eqb a c then Some (EmptyString, s')
      else match split_once c s' with Some (l, r) => Some (String a l, r) | None => None end
  end.

Section qr.
Context `{QrLib}.

(** ** Encoding *)

Definition url_encode (s : string) : string := percent_encode s.
Definition url_decode (s : string) : string := percent_decode s.

Definition encode_qr (payload : QrPayload) : string :=
  let uri := "nostrpair://" +:+ pk_to_hex (qr_source_pubkey payload)
             +:+ "?secret=" +:+ hex_encode (qr_session_secret payload) in
  foldl (fun uri relay => uri +:+ "&relay=" +:+ url_encode relay) uri (qr_relays payload) +:+ "&v=1".

(** ** Decoding *)

(** The mutable locals of the query loop, and its body. *)
Record QueryParams := mkQueryParams {
  qp_secret : option string;
  qp_relays : list string;
  qp_version : option N;
}.

Definition query_step (q : QueryParams) (pair : string) : QueryParams :=
  match split_once "=" pair with
  | Some (key, value) =>
      if String.eqb key "secret" then mkQueryParams (Some value) (qp_relays q) (qp_version q)
      else if String.eqb key "relay" then
        mkQueryParams (qp_secret q) (qp_relays q ++ [url_decode value]) (qp_version q)
      else if String.eqb key "v" then mkQueryParams (qp_secret q) (qp_relays q) (parse_u32 value)
      else q
  | None => q
  end.

Definition parse_query (query : string) : QueryParams :=
  foldl query_step (mkQueryParams None [] None) (split_on "&" query).

Definition hex_64 (s : string) : bool := (String.length s =? 64) && all_chars is_lowercase_hex s.

(** The loop over the relay URLs. *)
Fixpoint check_relays (relays : list string) : result () PairingError :=
  match relays with
  | [] => Ok ()
  | relay :: rest =>
      match url_parse relay with
      | Err e => Err (InvalidQr "invalid relay URL")
      | Ok parsed =>
          if negb (String.eqb (url_scheme parsed) "wss" || String.eqb (url_scheme parsed) "ws")
          then Err (InvalidQr "relay URL must use wss:// or ws:// scheme")
          else if negb (url_has_host parsed) then Err (InvalidQr "relay URL has no host")
          else check_relays rest
      end
  end.

(** Errors keep the fixed part of their message. *)
Definition decode_qr (uri : string) : result QrPayload PairingError :=
  if (2048 <? N.of_nat (String.length uri))%N then Err (InvalidQr "URI exceeds 2048-character limit")
  else
    let? rest := ok_or (strip_prefix "nostrpair://" uri) (InvalidQr "URI must start with nostrpair://") in
    let? parts := ok_or (split_once "?" rest) (InvalidQr "missing query string") in
    let '(pubkey_text, query) := parts in
    if negb (hex_64 pubkey_text) then Err (InvalidQr "pubkey must be 64 lowercase hex chars")
    else
      let? source_pubkey := map_err (fun e => InvalidQr "invalid pubkey") (pk_from_hex pubkey_text) in
      let params := parse_query query in
      let version := default 1%N (qp_version params) in
      if negb (version =? 1)%N then Err (InvalidQr "unsupported protocol version")
      else
        let? secret_str := ok_or (qp_secret params) (InvalidQr "missing 'secret' query parameter") in
        if negb (hex_64 secret_str) then Err (InvalidQr "secret must be 64 lowercase hex chars")
        else
          let? secret_bytes := ok_or (hex_decode secret_str) (InvalidQr "invalid secret hex") in
          if negb (String.length secret_bytes =? 32)
          then Err (InvalidQr "secret must be exactly 32 bytes")
          else if all_chars (fun c => Ascii.eqb c "000") secret_bytes
          then Err (InvalidQr "session_secret must not be all zeros")
          else if match qp_relays params with [] => true | _ => false end
          then Err (InvalidQr "at least one 'relay' query parameter is required")
          else
            let? _ := check_relays (qp_relays params) in
            Ok (mkQrPayload source_pubkey secret_bytes (qp_relays params) version).

(** ** Lemmas *)

Lemma split_once_spec c s l r :
  split_once c s = Some (l, r) <-> s = l +:+ String c r /\ contains_char c l = false.
Proof.
  revert l. induction s as [|a s IH]; intros l; cbn [split_once].
  - split; [done|]. intros [Heq _]. by destruct l.
  - destruct (Ascii.eqb_spec a c) as [->|Hne].
    + split.
      * intros [= <- <-]. done.
      * intros [Heq Hc]. destruct l as [|b l]; [by injection Heq as ->|].
        rewrite string_app_cons in Heq. injection Heq as -> _. cbn in Hc.
        by rewrite Ascii.eqb_refl in Hc.
    + split.
      * destruct (split_once c s) as [[l' r']|] eqn:E; [|done]. intros [= <- <-].
        destruct (proj1 (IH l') eq_refl) as [-> Hc]. split; [done|]. cbn. rewrite Hc.
        by destruct (Ascii.eqb_spec a c).
      * intros [Heq Hc]. destruct l as [|b l]; [injection Heq as ->; done|].
        rewrite string_app_cons in Heq. injection Heq as -> Heq. cbn in Hc. apply orb_false_iff in Hc as [_ Hc].
        rewrite (proj2 (IH l) (conj Heq Hc)). done.
Qed.

Lemma foldl_relays relays uri :
  foldl (fun uri relay => uri +:+ "&relay=" +:+ url_encode relay) uri relays +:+ "&v=1"
  = uri +:+ String "&" (join_with "&" (map (fun r => "relay=" +:+ url_encode r) relays ++ ["v=1"])).
Proof.
  revert uri. induction relays as [|r rs IH]; intros uri; cbn [foldl map app]; [done|].
  rewrite IH, !string_app_assoc. f_equal.
  destruct (map _ rs ++ ["v=1"]) as [|w ws] eqn:E; [by destruct rs|]. done.
Qed.

Lemma query_relays relays q :
  (forall r, percent_decode (percent_encode r) = r) ->
  foldl query_step q (map (fun r => "relay=" +:+ url_encode r) relays)
  = mkQueryParams (qp_secret q) (qp_relays q ++ relays) (qp_version q).
Proof.
  intros Hrt. revert q. induction relays as [|r rs IH]; intros q; cbn [map foldl].
  - rewrite app_nil_r. by destruct q.
  - rewrite IH. unfold query_step at 1 2 3.
    assert (split_once "=" ("relay=" +:+ url_encode r) = Some ("relay", url_encode r)) as ->
      by (by apply split_once_spec).
    cbn [String.eqb Ascii.eqb Bool.eqb qp_secret qp_relays qp_version].
    unfold url_decode, url_encode. by rewrite Hrt, <- app_assoc.
Qed.
End qr.

(** The URI of a payload with a given text as its version parameter, as the list
    of its query parameters; [encode_qr] writes version 1. *)
Definition qr_query `{QrLib} (p : QrPayload) (v : string) : list string :=
  ("secret=" +:+ hex_encode (qr_session_secret p))
  :: map (fun r => "relay=" +:+ url_encode r) (qr_relays p) ++ ["v=" +:+ v].

Definition qr_uri `{QrLib} (p : QrPayload) (v : string) : string :=
  "nostrpair://" +:+ pk_to_hex (qr_source_pubkey p) +:+ String "?" (join_with "&" (qr_query p v)).

(** The payloads the protocol can use: a 256-bit key, a 32-byte secret that is
    not all zeros, at least one relay, each a WebSocket URL with a host. *)
Record usable `{QrLib} (p : QrPayload) : Prop := {
  us_key : (qr_source_pubkey p < 2 ^ 256)%N;
  us_version : qr_version p = 1%N;
  us_length : String.length (qr_session_secret p) = 32;
  us_nonzero : all_chars (fun c => Ascii.eqb c "000") (qr_session_secret p) = false;
  us_some_relay : qr_relays p <> [];
  us_relays : check_relays (qr_relays p) = Ok ();
}.

Section round_trip.
Context `{QrLaws}.

Lemma encode_qr_shape p : encode_qr p = qr_uri p "1".
Proof.
  unfold encode_qr, qr_uri. rewrite foldl_relays, !string_app_assoc. do 2 f_equal. unfold qr_query.
  change ("v=" +:+ "1") with "v=1".
  destruct (map _ (qr_relays p) ++ ["v=1"]) as [|w ws] eqn:E; [by destruct (qr_relays p)|].
  cbn [join_with]. by rewrite !string_app_cons.
Qed.

Lemma contains_char_app c a b :
  contains_char c (a +:+ b) = contains_char c a || contains_char c b.
Proof.
  induction a as [|d a IH]; [done|]. rewrite string_app_cons. cbn. by rewrite IH, orb_assoc.
Qed.

Lemma qr_query_no_amp p v w :
  contains_char "&" v = false -> w ∈ qr_query p v -> contains_char "&" w = false.
Proof.
  intros Hv. unfold qr_query. rewrite elem_of_cons, elem_of_app, list_elem_of_fmap, list_elem_of_singleton.
  intros [->|[(r & -> & _)| ->]]; rewrite contains_char_app; cbn [orb contains_char Ascii.eqb Bool.eqb].
  - eapply all_chars_excludes; [|apply qr_hex_digits]. done.
  - eapply all_chars_excludes; [|apply percent_chars]. done.
  - done.
Qed.

Lemma parse_qr_query p v :
  contains_char "&" v = false ->
  parse_query (join_with "&" (qr_query p v))
  = mkQueryParams (Some (hex_encode (qr_session_secret p))) (qr_relays p) (parse_u32 v).
Proof.
  intros Hv. unfold parse_query.
  rewrite split_join; [|done|apply Forall_forall; intros w; by apply qr_query_no_amp].
  unfold qr_query. cbn [foldl]. rewrite foldl_app, query_relays by apply percent_round_trip.
  unfold query_step at 2.
  assert (split_once "=" ("secret=" +:+ hex_encode (qr_session_secret p))
    = Some ("secret", hex_encode (qr_session_secret p))) as -> by (by apply split_once_spec).
  cbn [foldl]. unfold query_step.
  assert (split_once "=" ("v=" +:+ v) = Some ("v", v)) as -> by (by apply split_once_spec). done.
Qed.

(** What decoding makes of a well-formed URI depends on its version text alone. *)
Lemma decode_qr_uri p v :
  usable p -> contains_char "&" v = false ->
  (N.of_nat (String.length (qr_uri p v)) <= 2048)%N ->
  decode_qr (qr_uri p v)
  = if (default 1%N (parse_u32 v) =? 1)%N then Ok p else Err (InvalidQr "unsupported protocol version").
Proof.
  intros [Hk Hver Hlen Hz Hne Hrel] Hv Hsize. unfold decode_qr.
  assert ((2048 <? N.of_nat (String.length (qr_uri p v)))%N = false) as -> by (apply N.ltb_ge; lia).
  unfold qr_uri. rewrite (proj2 (strip_prefix_Some "nostrpair://" _ _) eq_refl). cbn [ok_or].
  assert (contains_char "?" (pk_to_hex (qr_source_pubkey p)) = false) as Hq.
  { eapply all_chars_excludes; [|apply pk_hex_digits]. done. }
  rewrite (proj2 (split_once_spec "?" _ _ _) (conj eq_refl Hq)). cbn [ok_or].
  assert (hex_64 (pk_to_hex (qr_source_pubkey p)) = true) as ->
    by (unfold hex_64; by rewrite pk_hex_length, pk_hex_digits).
  cbn [negb]. rewrite pk_round_trip by done. cbn [map_err]. rewrite parse_qr_query by done.
  cbv zeta. cbn [qp_version qp_secret qp_relays].
  destruct (N.eqb_spec (default 1%N (parse_u32 v)) 1) as [Hone|]; cbn [negb]; [|done].
  cbn [ok_or]. assert (hex_64 (hex_encode (qr_session_secret p)) = true) as ->
    by (unfold hex_64; by rewrite qr_hex_length, Hlen, qr_hex_digits).
  cbn [negb]. rewrite hex_decode_encode. cbn [ok_or]. rewrite Hlen. cbn [Nat.eqb negb]. rewrite Hz.
  destruct (qr_relays p) as [|r rs] eqn:Er; [done|]. rewrite Hrel, <- Er, Hone, <- Hver. by destruct p.
Qed.

(** * Properties *)

(** a QR code round-trips: decoding the URI a source displays gives back its
    key, secret, relays and version, for every usable payload whose URI is
    within 2048 characters. *)
Theorem qr_round_trip p :
  usable p -> (N.of_nat (String.length (encode_qr p)) <= 2048)%N -> decode_qr (encode_qr p) = Ok p.
Proof. rewrite encode_qr_shape. intros Hp Hsize. by rewrite decode_qr_uri. Qed.

(** the version gate: an otherwise well-formed URI is rejected exactly when
    its version parameter reads as a 32-bit number other than 1. A parameter
    that does not read as one, 4294967297 for instance, is taken for an absent
    one and the URI accepted as version 1, although values above 1 are to be
    rejected. *)
Theorem version_gate p v :
  usable p -> contains_char "&" v = false ->
  (N.of_nat (String.length (qr_uri p v)) <= 2048)%N ->
  (forall n, parse_u32 v = Some n -> n <> 1%N ->
     decode_qr (qr_uri p v) = Err (InvalidQr "unsupported protocol version")) /\
  (parse_u32 v = Some 1%N \/ parse_u32 v = None -> decode_qr (qr_uri p v) = Ok p).
Proof.
  intros Hp Hv Hsize. rewrite decode_qr_uri by done. split.
  - intros n -> Hn. change (default 1%N (Some n)) with n. by rewrite (proj2 (N.eqb_neq n 1) Hn).
  - by intros [-> | ->].
Qed.
End round_trip.

(** ** A library satisfying the laws *)

Module SampleQr.
Import SampleHex.

(** Sixty-four digits, least significant first. *)
Fixpoint digits (k : nat) (n : N) : string :=
  match k with
  | O => EmptyString
  | S k => String (digit (n mod 16)) (digits k (n / 16))
  end.

Fixpoint undigits (s : string) : option N :=
  match s with
  | EmptyString => Some 0%N
  | String c s' =>
      match undigit c, undigits s' with Some d, Some n => Some (d + 16 * n)%N | _, _ => None end
  end.

Definition parse_wss (s : string) : result Url string :=
  match strip_prefix "wss://" s with
  | Some host => Ok (mkUrl "wss" (negb (String.eqb host "")))
  | None => Err "relative URL without a base"
  end.

#[export] Instance lib : QrLib := {|
  qr_hex := SampleHex.lib;
  pk_to_hex := digits 64;
  pk_from_hex s := ok_or (undigits s) "invalid key";
  percent_encode := encode;
  percent_decode s := default "" (decode s);
  url_parse := parse_wss;
|}.

Lemma digit_lowercase n : (n < 16)%N -> is_lowercase_hex (digit n) = true.
Proof.
  intros Hn. assert (forallb (fun k => is_lowercase_hex (digit (N.of_nat k))) (seq 0 16) = true) as Hall
    by (vm_compute; reflexivity).
  rewrite forallb_forall in Hall. specialize (Hall (N.to_nat n)). rewrite N2Nat.id in Hall.
  apply Hall, in_seq. lia.
Qed.

Lemma lowercase_encoded c : is_lowercase_hex c = true -> encoded_char c = true.
Proof.
  unfold is_lowercase_hex, encoded_char. intros [->|Hc]%orb_true_iff; [done|].
  apply andb_true_iff in Hc as [H1%N.leb_le H2%N.leb_le].
  assert (((97 <=? N_of_ascii c) && (N_of_ascii c <=? 122))%N = true) as ->
    by (apply andb_true_iff; split; apply N.leb_le; lia).
  by rewrite orb_true_r.
Qed.

Lemma all_chars_impl (f g : ascii -> bool) s :
  (forall c, f c = true -> g c = true) -> all_chars f s = true -> all_chars g s = true.
Proof.
  intros Hfg. induction s as [|c s IH]; [done|]. cbn. intros [Hc Hs]%andb_true_iff.
  by rewrite (Hfg c), IH.
Qed.

Lemma encode_digits s : all_chars is_lowercase_hex (encode s) = true.
Proof.
  induction s as [|c s IH]; [done|]. cbn [encode all_chars].
  pose proof (N_ascii_bounded c). rewrite !digit_lowercase, IH; [done| |].
  - apply N.mod_lt. lia.
  - apply N.Div0.div_lt_upper_bound. lia.
Qed.

Lemma encode_length s : String.length (encode s) = 2 * String.length s.
Proof. induction s as [|c s IH]; [done|]. cbn [encode String.length]. lia. Qed.

Lemma digits_lowercase k n : all_chars is_lowercase_hex (digits k n) = true.
Proof.
  revert n. induction k as [|k IH]; intros n; [done|]. cbn [digits all_chars].
  rewrite digit_lowercase, IH; [done|]. apply N.mod_lt. lia.
Qed.

Lemma digits_length k n : String.length (digits k n) = k.
Proof. revert n. induction k as [|k IH]; intros n; [done|]. cbn. by rewrite IH. Qed.

Lemma undigits_digits k n : (n < 16 ^ N.of_nat k)%N -> undigits (digits k n) = Some n.
Proof.
  revert n. induction k as [|k IH]; intros n Hn.
  - cbn in Hn. cbn. f_equal. lia.
  - cbn [digits undigits]. rewrite undigit_digit by (apply N.mod_lt; lia). rewrite IH.
    + f_equal. rewrite N.add_comm, <- N.div_mod; lia.
    + apply N.Div0.div_lt_upper_bound. by rewrite <- N.pow_succ_r', <- Nat2N.inj_succ.
Qed.

#[export] Instance laws : QrLaws.
Proof.
  split; try exact _.
  - apply encode_digits.
  - apply encode_length.
  - intros pk Hpk. change (ok_or (undigits (digits 64 pk)) "invalid key" = Ok pk). by rewrite undigits_digits.
  - apply digits_lowercase.
  - apply digits_length.
  - intros s. cbn. by rewrite decode_encode.
  - intros s. eapply all_chars_impl; [apply lowercase_encoded|apply encode_digits].
Qed.

Definition payload : QrPayload :=
  mkQrPayload 3735928559 "0123456789abcdef0123456789abcdef" ["wss://relay.example.com"] 1.

Lemma payload_usable : usable payload.
Proof. split; vm_compute; done. Qed.
End SampleQr.

#[local] Existing Instances SampleQr.lib SampleQr.laws.

Lemma qr_round_trip_witness :
  decode_qr (encode_qr SampleQr.payload) = Ok SampleQr.payload.
Proof. apply qr_round_trip; [apply SampleQr.payload_usable|vm_compute; discriminate]. Defined.

Lemma version_gate_witness :
  decode_qr (qr_uri SampleQr.payload "4294967297") = Ok SampleQr.payload /\
  decode_qr (qr_uri SampleQr.payload "2") = Err (InvalidQr "unsupported protocol version").
Proof.
  split.
  - apply (version_gate SampleQr.payload "4294967297");
      [apply SampleQr.payload_usable|done|vm_compute; discriminate|right; reflexivity].
  - apply (version_gate SampleQr.payload "2") with (n := 2%N);
      [apply SampleQr.payload_usable|done|vm_compute; discriminate|reflexivity|done].
Defined.
