(* ===== verification/MeshWire.v ===== *)
(** The inter-relay wire contract: buzz-relay-mesh/src/wire.rs, the errors and
    the datagram check of lib.rs, and the length-delimited framing of peer.rs.

    [postcard] is the class [Postcard]; a QUIC stream is the byte string its
    sender has written, read from the front.  Lengths are binary numbers, since
    frames may be megabytes long. *)

From S2P Require Import Prelude Nostr.

Definition str_len (s : string) : N := N.of_nat (String.length s).

(** [Uuid::as_bytes] and [Uuid::from_bytes]. *)
Class UuidBytes := { uuid_bytes : Uuid -> string; uuid_of_bytes : string -> Uuid }.
Class UuidBytesLaws `{UuidBytes} : Prop := {
  uuid_bytes_len : forall u, str_len (uuid_bytes u) = 16%N;
  uuid_of_bytes_bytes : forall u, (u < 2 ^ 128)%N -> uuid_of_bytes (uuid_bytes u) = u;
  uuid_bytes_of_bytes : forall b, str_len b = 16%N -> uuid_bytes (uuid_of_bytes b) = b;
}.

(** ** Identities and frames *)

(** [RuntimeId(pub [u8; 32])]. *)
Record RuntimeId := mkRuntimeId { rid_bytes : string }.
#[export] Instance RuntimeId_eq_dec : EqDecision RuntimeId.
Proof. solve_decision. Defined.
#[export] Instance RuntimeId_countable : Countable RuntimeId.
Proof. apply (inj_countable' rid_bytes mkRuntimeId). by intros []. Defined.

Definition RuntimeId_to_hex `{HexLib} (r : RuntimeId) : string := hex_encode (rid_bytes r).

Record FencedHeader := mkFencedHeader {
  fh_session_id : Uuid;
  fh_generation : N;
  fh_owner_runtime_id : RuntimeId;
}.
#[export] Instance FencedHeader_eq_dec : EqDecision FencedHeader.
Proof. solve_decision. Defined.

Inductive Profile := ReliableStream | RealtimeMedia | HuddleControl.
#[export] Instance Profile_eq_dec : EqDecision Profile.
Proof. solve_decision. Defined.

Record MeshDatagram := mkMeshDatagram {
  dg_fenced : FencedHeader;
  dg_seq : N;
  dg_payload : string;
}.

Inductive GoodbyeReason := SessionEnded | Draining | StaleGenerationReason.

Inductive StreamRole :=
| Control
| SessionRole (fenced : FencedHeader) (profile : Profile).

Record StreamHello := mkStreamHello { hello_sender : RuntimeId; hello_role : StreamRole }.

Inductive MeshStreamFrame :=
| FrameHello (hello : StreamHello)
| FrameData (fenced : FencedHeader) (payload : string)
| FrameGoodbye (fenced : FencedHeader) (reason : GoodbyeReason)
| FrameGossip (payload : string).

(** [MeshError]; errors of other crates are their text. *)
Inductive MeshError :=
| EncodeError (e : string)
| DecodeError (e : string)
| UnknownWireVersion (v : N)
| EmptyFrame
| FrameTooLarge (size max : N)
| DatagramTooLarge (size max : N)
| PeerNotConnected (r : RuntimeId)
| PeerDraining (r : RuntimeId)
| StaleGeneration (session_id : Uuid) (frame_generation known_generation : N)
| NoActiveLease (session_id : Uuid) (frame_generation known_generation : N)
    (frame_owner_runtime_id : RuntimeId)
| OwnerMismatch (session_id : Uuid) (generation : N)
    (frame_owner_runtime_id current_owner_runtime_id : RuntimeId)
| FutureGeneration (session_id : Uuid) (frame_generation known_generation : N)
| Disabled
| Transport (e : string)
| MeshRedis (e : string).

Definition WIRE_VERSION : N := 1.
Definition MAX_STREAM_FRAME : N := 16 * 1024 * 1024.

(** ** Encoding *)

(** [postcard::to_extend] (the bytes it appends) and [postcard::from_bytes]. *)
Class Postcard (T : Type) := {
  to_extend : T -> result string string;
  from_bytes : string -> result T string;
}.
(** Postcard is lossless: what it writes it reads back. *)
Class PostcardLaws (T : Type) `{Postcard T} : Prop := {
  from_to : forall (x : T) b, to_extend x = Ok b -> from_bytes b = Ok x;
}.

Section codec.
Context {T : Type} `{Postcard T}.

Definition encode (frame : T) : result string MeshError :=
  match to_extend frame with
  | Ok b => Ok (String (ascii_of_N WIRE_VERSION) b)
  | Err e => Err (EncodeError e)
  end.

Definition decode (bytes : string) : result T MeshError :=
  match bytes with
  | EmptyString => Err EmptyFrame
  | String v rest =>
      if (N_of_ascii v =? WIRE_VERSION)%N then
        match from_bytes rest with Ok x => Ok x | Err e => Err (DecodeError e) end
      else Err (UnknownWireVersion (N_of_ascii v))
  end.
End codec.

Definition encode_datagram_checked `{Postcard MeshDatagram}
    (dgram : MeshDatagram) (max_datagram_size : N) : result string MeshError :=
  let? bytes := encode dgram in
  if (max_datagram_size <? str_len bytes)%N
  then Err (DatagramTooLarge (str_len bytes) max_datagram_size)
  else Ok bytes.

(** ** Streams *)

(** [u32::to_le_bytes] and [u32::from_le_bytes]. *)
Fixpoint le_bytes (n : nat) (w : N) : string :=
  match n with
  | O => EmptyString
  | S n' => String (ascii_of_N (w mod 256)) (le_bytes n' (w / 256))
  end.
Fixpoint le_number (s : string) : N :=
  match s with
  | EmptyString => 0
  | String c s' => (N_of_ascii c + 256 * le_number s')%N
  end.

(** The first [n] bytes and the rest, or nothing when there are fewer. *)
Fixpoint split_bytes (n : N) (s : string) : option (string * string) :=
  if (n =? 0)%N then Some (EmptyString, s)
  else match s with
       | EmptyString => None
       | String c s' =>
           match split_bytes (n - 1) s' with
           | Some (l, r) => Some (String c l, r)
           | None => None
           end
       end.

Section framing.
Context `{Postcard MeshStreamFrame}.

(** [IrohSendHalf::send_frame]: the bytes written to the stream; a write error
    of the connection is [conn_err]. *)
Definition send_frame (conn_err : option string) (frame : MeshStreamFrame)
    : result string MeshError :=
  let? bytes := encode frame in
  if (MAX_STREAM_FRAME <? str_len bytes)%N
  then Err (FrameTooLarge (str_len bytes) MAX_STREAM_FRAME)
  else match conn_err with
       | Some e => Err (Transport e)
       | None => Ok (le_bytes 4 (str_len bytes) +:+ bytes)
       end.

(** [IrohRecvHalf::recv_frame] on a stream whose remaining bytes, up to its
    end, are [input]: the answer and what is left to read. *)
Definition recv_frame (input : string) : result (option MeshStreamFrame) MeshError * string :=
  match split_bytes 4 input with
  | None =>
      match input with
      | EmptyString => (Ok None, EmptyString)
      | _ => (Err (Transport "stream finished early"), EmptyString)
      end
  | Some (len, input1) =>
      let len := le_number len in
      if (MAX_STREAM_FRAME <? len)%N then (Err (FrameTooLarge len MAX_STREAM_FRAME), input1)
      else match split_bytes len input1 with
           | None => (Err (Transport "stream finished early"), EmptyString)
           | Some (bytes, input2) =>
               match decode (T := MeshStreamFrame) bytes with
               | Ok f => (Ok (Some f), input2)
               | Err e => (Err e, input2)
               end
           end
  end.

(** Everything a stream carries: frames until its end or the first error; a
    frame takes at least five bytes, so the length is fuel enough. *)
Fixpoint recv_all (fuel : nat) (input : string) : result (list MeshStreamFrame) MeshError :=
  match fuel with
  | O => Ok []
  | S fuel' =>
      match recv_frame input with
      | (Err e, _) => Err e
      | (Ok None, _) => Ok []
      | (Ok (Some f), rest) => let? fs := recv_all fuel' rest in Ok (f :: fs)
      end
  end.

Fixpoint send_all (frames : list MeshStreamFrame) : result string MeshError :=
  match frames with
  | [] => Ok EmptyString
  | f :: fs => let? b := send_frame None f in let? bs := send_all fs in Ok (b +:+ bs)
  end.
End framing.

(** ** Lemmas *)

Lemma str_len_cons c s : str_len (String c s) = (1 + str_len s)%N.
Proof. unfold str_len. cbn [String.length]. lia. Qed.

Lemma str_len_app a b : str_len (a +:+ b) = (str_len a + str_len b)%N.
Proof. unfold str_len. rewrite string_length_app. lia. Qed.

Lemma le_bytes_length n w : String.length (le_bytes n w) = n.
Proof. revert w. induction n; intros; cbn; auto. Qed.

Lemma le_number_bytes n w : (w < 256 ^ N.of_nat n)%N -> le_number (le_bytes n w) = w.
Proof.
  revert w. induction n as [|n IH]; intros w Hw.
  - change (256 ^ N.of_nat 0)%N with 1%N in Hw. cbn. lia.
  - rewrite Nat2N.inj_succ, N.pow_succ_r' in Hw. cbn [le_bytes le_number].
    rewrite IH by by apply N.Div0.div_lt_upper_bound.
    rewrite N_ascii_embedding by (apply N.mod_lt; lia).
    rewrite (N.div_mod w 256) at 3 by lia. lia.
Qed.

Lemma le_bytes_number b : le_bytes (String.length b) (le_number b) = b.
Proof.
  induction b as [|c b IH]; [done|]. cbn [String.length le_bytes le_number].
  pose proof (N_ascii_bounded c).
  rewrite (N.mul_comm 256), N.Div0.mod_add, N.mod_small by lia.
  rewrite N.div_add, N.div_small by lia. by rewrite N.add_0_l, IH, ascii_N_embedding.
Qed.

Lemma split_bytes_app a b : split_bytes (str_len a) (a +:+ b) = Some (a, b).
Proof.
  induction a as [|c a IH].
  - rewrite string_app_nil_l. by destruct b.
  - rewrite str_len_cons, string_app_cons. cbn [split_bytes].
    rewrite (proj2 (N.eqb_neq _ 0)) by lia.
    replace (1 + str_len a - 1)%N with (str_len a) by lia. by rewrite IH.
Qed.

Lemma split_bytes_some n s l r :
  split_bytes n s = Some (l, r) -> s = l +:+ r /\ str_len l = n.
Proof.
  revert n l r. induction s as [|c s IH]; intros n l r; cbn [split_bytes];
    destruct (N.eqb_spec n 0) as [->|Hn]; intros H; simplify_eq; try done.
  destruct (split_bytes (n - 1) s) as [[l' r']|] eqn:E; simplify_eq.
  apply IH in E as [-> E]. split; [done|]. rewrite str_len_cons, E. lia.
Qed.

Section framing_facts.
Context `{PostcardLaws MeshStreamFrame}.

Lemma decode_encode_frame (f : MeshStreamFrame) b :
  encode f = Ok b -> decode b = Ok f /\ (0 < str_len b)%N.
Proof.
  unfold encode. destruct (to_extend f) as [b'|] eqn:E; [|done]. intros [= <-].
  split; [|rewrite str_len_cons; lia]. cbn. by rewrite (from_to f b' E).
Qed.

(** One frame written is one frame read, whatever follows it. *)
Lemma recv_send_frame f b rest :
  send_frame None f = Ok b -> recv_frame (b +:+ rest) = (Ok (Some f), rest).
Proof.
  unfold send_frame. destruct (encode f) as [bytes|] eqn:E; [|done].
  destruct (MAX_STREAM_FRAME <? str_len bytes)%N eqn:Hlen; [done|]. intros Hb.
  assert (b = le_bytes 4 (str_len bytes) +:+ bytes) as -> by congruence. clear Hb.
  apply decode_encode_frame in E as [E _]. unfold recv_frame.
  rewrite string_app_assoc.
  assert (str_len (le_bytes 4 (str_len bytes)) = 4%N) as H4
    by (unfold str_len at 1; by rewrite le_bytes_length).
  rewrite <- H4 at 1. rewrite split_bytes_app. cbv beta zeta iota.
  apply N.ltb_ge in Hlen. rewrite le_number_bytes; cycle 1.
  { change (256 ^ N.of_nat 4)%N with 4294967296%N.
    change MAX_STREAM_FRAME with 16777216%N in Hlen. lia. }
  rewrite (proj2 (N.ltb_ge _ _)) by done.
  by rewrite split_bytes_app, E.
Qed.

Lemma send_frame_nonempty f b : send_frame None f = Ok b -> (4 <= String.length b)%nat.
Proof.
  unfold send_frame. destruct (encode f); [|done]. case_match; [done|].
  intros [= <-]. rewrite !string_app_cons. cbn. lia.
Qed.

Lemma recv_all_send_all frames bytes fuel :
  send_all frames = Ok bytes -> (String.length bytes < fuel)%nat -> recv_all fuel bytes = Ok frames.
Proof.
  revert bytes fuel. induction frames as [|f fs IH]; intros bytes [|fuel] Hs Hf; cbn in Hs;
    simplify_eq; try lia; [done|].
  destruct (send_frame None f) as [b|] eqn:Ef; [|done].
  destruct (send_all fs) as [bs|] eqn:Efs; simplify_eq.
  apply send_frame_nonempty in Ef as Hb. rewrite string_length_app in Hf.
  cbn [recv_all]. rewrite (recv_send_frame _ _ _ Ef).
  rewrite (IH bs fuel) by (done || lia). done.
Qed.
End framing_facts.

#[export] Hint Rewrite str_len_app str_len_cons : crew.

(** UUIDs as sixteen little-endian bytes. *)
Module SampleUuid.
#[export] Instance uuid : UuidBytes := {| uuid_bytes := le_bytes 16; uuid_of_bytes := le_number |}.
#[export] Instance uuid_laws : UuidBytesLaws.
Proof.
  split.
  - intros u. unfold str_len. cbn [uuid_bytes uuid]. by rewrite le_bytes_length.
  - intros u Hu. apply le_number_bytes. exact Hu.
  - intros b Hb. cbn [uuid_bytes uuid_of_bytes uuid].
    replace 16%nat with (String.length b) by (unfold str_len in Hb; lia). apply le_bytes_number.
Qed.
End SampleUuid.
