(* ===== verification/Directory.v ===== *)
(** The fenced session directory, buzz-relay/src/tunnel/directory.rs.

    Redis is the class [Redis]: what [GET] answers now and later is all that is
    observed of it, and the laws say what each command does to that.  The four
    Lua scripts of the source are the functions [acquire_script],
    [renew_script], [release_script] and [validate_script]; the methods around
    them are functions on the Redis state.  Failures of the connection and of
    the serving-write guard are the record [CallEnv]. *)

From S2P Require Import Prelude Nostr MeshWire.

(** ** Redis and Lua *)

Class Redis := {
  redis : Type;
  (** [GET key] as answered at a time, in milliseconds *)
  r_get : redis -> Z -> string -> option string;
  (** [INCR key], [SET key value PX ttl], [PEXPIRE key ttl], [DEL key] *)
  r_incr : redis -> Z -> string -> result (redis * N) string;
  r_set_px : redis -> Z -> string -> string -> Z -> redis;
  r_pexpire : redis -> Z -> string -> Z -> redis;
  r_del : redis -> Z -> string -> redis;
}.

(** A key answers [o] from [now] on. *)
Definition steady `{Redis} (s : redis) (now : Z) (k : string) (o : option string) : Prop :=
  forall t, (now <= t)%Z -> r_get s t k = o.
(** A key answers [v] until its expiry [e]. *)
Definition expiring `{Redis} (s : redis) (now : Z) (k v : string) (e : Z) : Prop :=
  forall t, (now <= t)%Z -> r_get s t k = if (t <? e)%Z then Some v else None.
(** Two states agree on a key from [now] on. *)
Definition same_key `{Redis} (s s' : redis) (now : Z) (k : string) : Prop :=
  forall t, (now <= t)%Z -> r_get s' t k = r_get s t k.

Class RedisLaws `{Redis} : Prop := {
  incr_absent : forall s now k, steady s now k None ->
    exists s', r_incr s now k = Ok (s', 1%N) /\ steady s' now k (Some (to_decimal 1)) /\
      forall k', k' <> k -> same_key s s' now k';
  incr_number : forall s now k n, steady s now k (Some (to_decimal n)) -> (n + 1 < 2 ^ 63)%N ->
    exists s', r_incr s now k = Ok (s', n + 1)%N /\ steady s' now k (Some (to_decimal (n + 1))) /\
      forall k', k' <> k -> same_key s s' now k';
  set_px_key : forall s now k v ttl, expiring (r_set_px s now k v ttl) now k v (now + ttl);
  set_px_other : forall s now k v ttl k', k' <> k -> same_key s (r_set_px s now k v ttl) now k';
  pexpire_key : forall s now k v ttl, r_get s now k = Some v ->
    expiring (r_pexpire s now k ttl) now k v (now + ttl);
  pexpire_other : forall s now k ttl k', k' <> k -> same_key s (r_pexpire s now k ttl) now k';
  del_key : forall s now k, steady (r_del s now k) now k None;
  del_other : forall s now k k', k' <> k -> same_key s (r_del s now k) now k';
}.

(** Lua's [tostring] on the integer reply of [INCR].  Lua numbers are doubles
    printed with 14 significant digits, so only smaller ones print exactly. *)
Class LuaLib := { lua_tostring : N -> string }.
Definition lua_exact : N := 10 ^ 14.
Class LuaLaws `{LuaLib} : Prop := {
  lua_tostring_exact : forall n, (n < lua_exact)%N -> lua_tostring n = to_decimal n;
}.

(** ** Data *)

Record SessionLease := mkSessionLease {
  sl_community_id : CommunityId;
  sl_session_id : Uuid;
  sl_owner_runtime_id : RuntimeId;
  sl_generation : N;
  sl_profile : Profile;
}.
#[export] Instance SessionLease_eq_dec : EqDecision SessionLease.
Proof. solve_decision. Defined.

Inductive AcquireResult := Acquired (l : SessionLease) | Exists (l : SessionLease).
Inductive RenewResult :=
| Renewed (l : SessionLease)
| Lost (current : option SessionLease) (known_generation : option N).
Inductive ReleaseResult :=
| Released (l : SessionLease)
| NotOwner (current : option SessionLease) (known_generation : option N).

(** [DirectoryError]; the two [expect]s of the code are [Panicked]. *)
Inductive DirectoryError :=
| PoolError (e : string)
| RedisError (e : string)
| MalformedLease (c : CommunityId) (s : Uuid) (value : string)
| MalformedGeneration (c : CommunityId) (s : Uuid) (value : string)
| UnexpectedScriptStatus (status : string)
| InvalidLeaseTtl
| CommunityWriteFenced (e : string)
| Panicked (message : string).

Definition fenced_header (l : SessionLease) : FencedHeader :=
  mkFencedHeader (sl_session_id l) (sl_generation l) (sl_owner_runtime_id l).

Record SessionKeys := mkSessionKeys { sk_lease : string; sk_generation : string }.

Definition SessionKeys_new `{NostrLib} (c : CommunityId) (s : Uuid) : SessionKeys :=
  let base := "buzz:" +:+ uuid_to_string (as_uuid c) +:+ ":tunnel:" +:+ uuid_to_string s in
  mkSessionKeys (base +:+ ":lease") (base +:+ ":generation").

Definition as_wire_str (p : Profile) : string :=
  match p with
  | ReliableStream => "reliable-stream"
  | RealtimeMedia => "realtime-media"
  | HuddleControl => "huddle-control"
  end.

Definition profile_from_wire (v : string) : option Profile :=
  if String.eqb v "reliable-stream" then Some ReliableStream
  else if String.eqb v "realtime-media" then Some RealtimeMedia
  else if String.eqb v "huddle-control" then Some HuddleControl
  else None.

(** [ttl_ms] of a duration given in whole milliseconds. *)
Definition ttl_ms (millis : N) : result Z DirectoryError :=
  if ((millis <? 2 ^ 63) && (0 <? millis))%N then Ok (Z.of_N millis) else Err InvalidLeaseTtl.

(** ** Lease text *)

Definition parse_lease `{HexLib} (c : CommunityId) (sid : Uuid) (value : string)
    : result SessionLease DirectoryError :=
  let malformed := Err (MalformedLease c sid value) in
  match split_on "|" value with
  | owner_hex :: generation :: rest =>
      match parse_u64 generation with
      | None => malformed
      | Some g =>
          if (g =? 0)%N then malformed
          else match rest with
               | [] => malformed
               | profile :: rest' =>
                   match profile_from_wire profile with
                   | None => malformed
                   | Some p =>
                       match rest', hex_decode owner_hex with
                       | [], Some owner =>
                           if (String.length owner =? 32)%nat
                           then Ok (mkSessionLease c sid (mkRuntimeId owner) g p)
                           else malformed
                       | _, _ => malformed
                       end
                   end
               end
      end
  | _ => malformed
  end.

Definition parse_optional_lease `{HexLib} (c : CommunityId) (sid : Uuid) (value : string)
    : result (option SessionLease) DirectoryError :=
  if String.eqb value "" then Ok None
  else let? l := parse_lease c sid value in Ok (Some l).

Definition parse_optional_generation (c : CommunityId) (sid : Uuid) (value : string)
    : result (option N) DirectoryError :=
  if String.eqb value "" then Ok None
  else match parse_u64 value with
       | None => Err (MalformedGeneration c sid value)
       | Some g => if (g =? 0)%N then Err (MalformedGeneration c sid value) else Ok (Some g)
       end.

(** ** Scripts *)

Section directory.
Context `{Redis, LuaLib, HexLib, NostrLib}.

(** [owner .. '|' .. tostring(generation) .. '|' .. profile]. *)
Definition lease_value (owner : string) (generation : N) (profile : string) : string :=
  owner +:+ "|" +:+ lua_tostring generation +:+ "|" +:+ profile.

(** [string.match(current, '^([^|]+)|([^|]+)|([^|]+)$')]. *)
Definition lease_match (current : string) : option (string * string * string) :=
  match split_on "|" current with
  | [a; b; c] =>
      if String.eqb a "" || String.eqb b "" || String.eqb c "" then None else Some (a, b, c)
  | _ => None
  end.

Definition Reply : Type := (string * string * string)%type.

Definition acquire_script (now : Z) (k : SessionKeys) (owner profile : string) (ttl : Z)
    (s : redis) : result (redis * Reply) string :=
  match r_get s now (sk_lease k) with
  | Some current => Ok (s, ("exists", current, default "" (r_get s now (sk_generation k))))
  | None =>
      match r_incr s now (sk_generation k) with
      | Err e => Err e
      | Ok (s1, generation) =>
          let value := lease_value owner generation profile in
          Ok (r_set_px s1 now (sk_lease k) value ttl, ("acquired", value, lua_tostring generation))
      end
  end.

(** The shape [renew] and [release] share: compare and act, or report. *)
Definition owner_script (done_status : string) (act : redis -> redis) (now : Z) (k : SessionKeys)
    (owner generation : string) (s : redis) : result (redis * Reply) string :=
  match r_get s now (sk_lease k) with
  | None => Ok (s, ("missing", "", default "" (r_get s now (sk_generation k))))
  | Some current =>
      match lease_match current with
      | Some (current_owner, current_generation, _) =>
          if String.eqb current_owner owner && String.eqb current_generation generation then
            let s' := act s in
            Ok (s', (done_status, current, default current_generation (r_get s' now (sk_generation k))))
          else
            Ok (s, ("lost", current, default current_generation (r_get s now (sk_generation k))))
      | None => Ok (s, ("lost", current, default "" (r_get s now (sk_generation k))))
      end
  end.

Definition renew_script (now : Z) (k : SessionKeys) (owner generation : string) (ttl : Z)
    : redis -> result (redis * Reply) string :=
  owner_script "renewed" (fun s => r_pexpire s now (sk_lease k) ttl) now k owner generation.

Definition release_script (now : Z) (k : SessionKeys) (owner generation : string)
    : redis -> result (redis * Reply) string :=
  owner_script "released" (fun s => r_del s now (sk_lease k)) now k owner generation.

Definition validate_script (now : Z) (k : SessionKeys) (s : redis) : string * string :=
  (default "" (r_get s now (sk_lease k)), default "" (r_get s now (sk_generation k))).

(** ** Methods *)

(** What the environment of one call answers: an error of
    [acquire_serving_write], of the pool, of [protect] and of [finish]; whether
    the script reached Redis; and a connection error in place of its reply. *)
Record CallEnv := mkCallEnv {
  ce_begin : option string;
  ce_pool : option string;
  ce_ran : bool;
  ce_reply : option string;
  ce_protect : option string;
  ce_finish : option string;
}.
Definition healthy : CallEnv := mkCallEnv None None true None None None.

Definition fail_with (o : option string) (f : string -> DirectoryError) : result unit DirectoryError :=
  match o with Some e => Err (f e) | None => Ok tt end.

Definition begin_serving_write (env : CallEnv) : result unit DirectoryError :=
  fail_with (ce_begin env) CommunityWriteFenced.

(** The script under the serving-write guard: its effect happens when it
    reached Redis, whatever the caller gets to hear. *)
Definition protected_invoke (env : CallEnv) (script : redis -> result (redis * Reply) string)
    (s : redis) : redis * result Reply DirectoryError :=
  let '(s', reply) :=
    if ce_ran env then
      match script s with
      | Ok (s', r) => (s', Ok r)
      | Err e => (s, Err (RedisError e))
      end
    else (s, Err (RedisError "connection lost")) in
  (s', let? _ := fail_with (ce_protect env) CommunityWriteFenced in
       let? _ := fail_with (ce_reply env) RedisError in
       reply).

Definition acquire (lease_ttl : N) (env : CallEnv) (now : Z) (c : CommunityId) (sid : Uuid)
    (owner : RuntimeId) (profile : Profile) (s : redis) : redis * result AcquireResult DirectoryError :=
  match begin_serving_write env with
  | Err e => (s, Err e)
  | Ok _ =>
      match ttl_ms lease_ttl with
      | Err e => (s, Err e)
      | Ok ttl =>
          match fail_with (ce_pool env) PoolError with
          | Err e => (s, Err e)
          | Ok _ =>
              let '(s', reply) := protected_invoke env
                (acquire_script now (SessionKeys_new c sid) (RuntimeId_to_hex owner)
                   (as_wire_str profile) ttl) s in
              (s', let? r := reply in
                   let '(status, value, _) := r in
                   let? lease := parse_lease c sid value in
                   let? _ := fail_with (ce_finish env) CommunityWriteFenced in
                   if String.eqb status "acquired" then Ok (Acquired lease)
                   else if String.eqb status "exists" then Ok (Exists lease)
                   else Err (UnexpectedScriptStatus status))
          end
      end
  end.

Definition takeover : N -> CallEnv -> Z -> CommunityId -> Uuid -> RuntimeId -> Profile -> redis ->
    redis * result AcquireResult DirectoryError := acquire.

Definition renew (lease_ttl : N) (env : CallEnv) (now : Z) (l : SessionLease) (s : redis)
    : redis * result RenewResult DirectoryError :=
  match begin_serving_write env with
  | Err e => (s, Err e)
  | Ok _ =>
      match ttl_ms lease_ttl with
      | Err e => (s, Err e)
      | Ok ttl =>
          match fail_with (ce_pool env) PoolError with
          | Err e => (s, Err e)
          | Ok _ =>
              let c := sl_community_id l in let sid := sl_session_id l in
              let '(s', reply) := protected_invoke env
                (renew_script now (SessionKeys_new c sid) (RuntimeId_to_hex (sl_owner_runtime_id l))
                   (to_decimal (sl_generation l)) ttl) s in
              (s', let? r := reply in
                   let '(status, value, known) := r in
                   let? current := parse_optional_lease c sid value in
                   let? _ := fail_with (ce_finish env) CommunityWriteFenced in
                   if String.eqb status "renewed" then
                     match current with
                     | Some l' => Ok (Renewed l')
                     | None => Err (Panicked "renewed returns lease")
                     end
                   else if String.eqb status "missing" || String.eqb status "lost" then
                     let? g := parse_optional_generation c sid known in Ok (Lost current g)
                   else Err (UnexpectedScriptStatus status))
          end
      end
  end.

Definition release (env : CallEnv) (now : Z) (l : SessionLease) (s : redis)
    : redis * result ReleaseResult DirectoryError :=
  match begin_serving_write env with
  | Err e => (s, Err e)
  | Ok _ =>
      match fail_with (ce_pool env) PoolError with
      | Err e => (s, Err e)
      | Ok _ =>
          let c := sl_community_id l in let sid := sl_session_id l in
          let '(s', reply) := protected_invoke env
            (release_script now (SessionKeys_new c sid) (RuntimeId_to_hex (sl_owner_runtime_id l))
               (to_decimal (sl_generation l))) s in
          (s', let? r := reply in
               let '(status, value, known) := r in
               let? current := parse_optional_lease c sid value in
               let? _ := fail_with (ce_finish env) CommunityWriteFenced in
               if String.eqb status "released" then
                 match current with
                 | Some l' => Ok (Released l')
                 | None => Err (Panicked "released returns lease")
                 end
               else if String.eqb status "missing" || String.eqb status "lost" then
                 let? g := parse_optional_generation c sid known in Ok (NotOwner current g)
               else Err (UnexpectedScriptStatus status))
      end
  end.

Definition lookup_lease (env : CallEnv) (now : Z) (c : CommunityId) (sid : Uuid) (s : redis)
    : result (option SessionLease) DirectoryError :=
  let? _ := fail_with (ce_pool env) PoolError in
  let? _ := fail_with (ce_reply env) RedisError in
  match r_get s now (sk_lease (SessionKeys_new c sid)) with
  | Some v => let? l := parse_lease c sid v in Ok (Some l)
  | None => Ok None
  end.

Definition known_generation (env : CallEnv) (now : Z) (c : CommunityId) (sid : Uuid) (s : redis)
    : result (option N) DirectoryError :=
  let? _ := fail_with (ce_pool env) PoolError in
  let? _ := fail_with (ce_reply env) RedisError in
  match r_get s now (sk_generation (SessionKeys_new c sid)) with
  | Some v => parse_optional_generation c sid v
  | None => Ok None
  end.

(** [e.to_string()] of the two errors parsing can give. *)
Definition malformed_text (e : DirectoryError) : string :=
  match e with
  | MalformedLease _ _ _ => "malformed session lease"
  | MalformedGeneration _ _ _ => "malformed session generation"
  | _ => ""
  end.

Definition validate_fenced_header (env : CallEnv) (now : Z) (c : CommunityId)
    (fenced : FencedHeader) (s : redis) : result unit MeshError :=
  let sid := fh_session_id fenced in
  match ce_pool env, ce_reply env with
  | Some e, _ => Err (Transport ("redis pool: " +:+ e))
  | None, Some e => Err (MeshRedis e)
  | None, None =>
      let '(lease_value, known) := validate_script now (SessionKeys_new c sid) s in
      match parse_optional_generation c sid known with
      | Err e => Err (Transport (malformed_text e))
      | Ok known_from_counter =>
          let known_from_counter := default 0%N known_from_counter in
          match parse_optional_lease c sid lease_value with
          | Err e => Err (Transport (malformed_text e))
          | Ok current =>
              let known := N.max (from_option sl_generation known_from_counter current)
                                 known_from_counter in
              if ((0 <? known) && (fh_generation fenced <? known))%N then
                Err (StaleGeneration sid (fh_generation fenced) known)
              else match current with
                   | None => Err (NoActiveLease sid (fh_generation fenced) known
                                    (fh_owner_runtime_id fenced))
                   | Some current =>
                       if negb (fh_generation fenced =? sl_generation current)%N then
                         Err (FutureGeneration sid (fh_generation fenced) (sl_generation current))
                       else if bool_decide (fh_owner_runtime_id fenced <> sl_owner_runtime_id current) then
                         Err (OwnerMismatch sid (fh_generation fenced) (fh_owner_runtime_id fenced)
                                (sl_owner_runtime_id current))
                       else Ok tt
                   end
          end
      end
  end.
End directory.
