(* ===== verification/DirectorySpec.v ===== *)
(** What the session directory promises, and that it keeps the promise.

    The abstract state of one session is a [Cell]: how many leases were ever
    granted, and the last one with its expiry.  [cell_rep] relates it to the two
    Redis keys of the session; every method of [Directory] refines the
    operation of the same name on cells.  The theorems on fencing follow from
    the cells alone. *)

From S2P Require Import Prelude Nostr MeshWire Directory.

(** ** The specification *)

Record Cell := mkCell { cell_counter : N; cell_lease : option (SessionLease * Z) }.
Definition empty_cell : Cell := mkCell 0 None.

Definition live (now : Z) (cell : Cell) : option SessionLease :=
  match cell_lease cell with
  | Some (l, e) => if (now <? e)%Z then Some l else None
  | None => None
  end.

Definition counter_known (cell : Cell) : option N :=
  if (cell_counter cell =? 0)%N then None else Some (cell_counter cell).

Definition spec_acquire (ttl now : Z) (c : CommunityId) (sid : Uuid) (owner : RuntimeId)
    (profile : Profile) (cell : Cell) : Cell * AcquireResult :=
  match live now cell with
  | Some l => (cell, Exists l)
  | None =>
      let l := mkSessionLease c sid owner (cell_counter cell + 1) profile in
      (mkCell (cell_counter cell + 1) (Some (l, now + ttl)%Z), Acquired l)
  end.

(** [l] is held by [owner] at [generation]. *)
Definition held_by (owner : RuntimeId) (generation : N) (l : SessionLease) : bool :=
  bool_decide (sl_owner_runtime_id l = owner /\ sl_generation l = generation).

Definition spec_renew (ttl now : Z) (mine : SessionLease) (cell : Cell) : Cell * RenewResult :=
  match live now cell with
  | Some l =>
      if held_by (sl_owner_runtime_id mine) (sl_generation mine) l
      then (mkCell (cell_counter cell) (Some (l, now + ttl)%Z), Renewed l)
      else (cell, Lost (Some l) (counter_known cell))
  | None => (cell, Lost None (counter_known cell))
  end.

Definition spec_release (now : Z) (mine : SessionLease) (cell : Cell) : Cell * ReleaseResult :=
  match live now cell with
  | Some l =>
      if held_by (sl_owner_runtime_id mine) (sl_generation mine) l
      then (mkCell (cell_counter cell) None, Released l)
      else (cell, NotOwner (Some l) (counter_known cell))
  | None => (cell, NotOwner None (counter_known cell))
  end.

(** A frame is valid exactly when a live lease has its owner and generation. *)
Definition spec_validate (now : Z) (fenced : FencedHeader) (cell : Cell) : result unit MeshError :=
  let sid := fh_session_id fenced in let g := fh_generation fenced in
  if (g <? cell_counter cell)%N then Err (StaleGeneration sid g (cell_counter cell))
  else match live now cell with
       | None => Err (NoActiveLease sid g (cell_counter cell) (fh_owner_runtime_id fenced))
       | Some l =>
           if (cell_counter cell <? g)%N then Err (FutureGeneration sid g (cell_counter cell))
           else if bool_decide (fh_owner_runtime_id fenced = sl_owner_runtime_id l) then Ok tt
           else Err (OwnerMismatch sid g (fh_owner_runtime_id fenced) (sl_owner_runtime_id l))
       end.

(** A lease as [acquire] writes it for the session. *)
Definition lease_wf (c : CommunityId) (sid : Uuid) (l : SessionLease) : Prop :=
  sl_community_id l = c /\ sl_session_id l = sid /\ (0 < sl_generation l)%N /\
  String.length (rid_bytes (sl_owner_runtime_id l)) = 32%nat.

Definition valid_uuid (u : Uuid) : Prop := (u < 2 ^ 128)%N.
Definition valid_session (c : CommunityId) (sid : Uuid) : Prop :=
  valid_uuid (as_uuid c) /\ valid_uuid sid.

Section refinement.
Context `{RedisLaws, LuaLaws, HexLaws, !HexTextLaws, UuidTextLaws}.

Definition lease_text (l : SessionLease) : string :=
  lease_value (RuntimeId_to_hex (sl_owner_runtime_id l)) (sl_generation l) (as_wire_str (sl_profile l)).

Definition cell_rep (ttl now : Z) (c : CommunityId) (sid : Uuid) (s : redis) (cell : Cell) : Prop :=
  let k := SessionKeys_new c sid in
  (cell_counter cell < lua_exact)%N /\
  steady s now (sk_generation k) (to_decimal <$> counter_known cell) /\
  match cell_lease cell with
  | None => steady s now (sk_lease k) None
  | Some (l, e) =>
      expiring s now (sk_lease k) (lease_text l) e /\ lease_wf c sid l /\
      sl_generation l = cell_counter cell /\ (e <= now + ttl)%Z
  end.

(** ** Lease text *)

Lemma encoded_no_bar b : contains_char "|" (hex_encode b) = false.
Proof. apply (all_chars_excludes is_ascii_hexdigit); [done|apply hex_encode_chars]. Qed.

Lemma wire_no_bar p : contains_char "|" (as_wire_str p) = false.
Proof. by destruct p. Qed.

Lemma profile_wire p : profile_from_wire (as_wire_str p) = Some p.
Proof. by destruct p. Qed.

Lemma lease_value_split owner g p :
  (g < lua_exact)%N ->
  split_on "|" (lease_value (hex_encode owner) g (as_wire_str p))
  = [hex_encode owner; to_decimal g; as_wire_str p].
Proof.
  intros Hg. unfold lease_value. rewrite lua_tostring_exact by done.
  rewrite !(string_app_cons "|"), !string_app_nil_l.
  rewrite split_on_app_sep by apply encoded_no_bar.
  rewrite split_on_app_sep by by apply to_decimal_no_char.
  by rewrite split_on_single by apply wire_no_bar.
Qed.

Lemma parse_lease_text c sid l :
  lease_wf c sid l -> (sl_generation l < lua_exact)%N -> parse_lease c sid (lease_text l) = Ok l.
Proof.
  destruct l as [c' sid' [owner] g p]. intros (Hc & Hs & Hpos & Hlen) Hg. cbn in *. subst c' sid'.
  unfold parse_lease, lease_text, RuntimeId_to_hex. cbn [sl_owner_runtime_id sl_generation sl_profile rid_bytes].
  rewrite lease_value_split by done. unfold parse_u64.
  rewrite parse_uint_to_decimal by (unfold lua_exact in Hg; lia).
  rewrite (proj2 (N.eqb_neq g 0)) by lia.
  by rewrite profile_wire, hex_decode_encode, Hlen.
Qed.

Lemma hex_nonempty b : String.length b = 32%nat -> String.eqb (hex_encode b) "" = false.
Proof.
  intros Hb. apply String.eqb_neq. intros E. pose proof (hex_encode_length b) as Hl.
  rewrite E, Hb in Hl. done.
Qed.

Lemma lease_match_text c sid l :
  lease_wf c sid l -> (sl_generation l < lua_exact)%N ->
  lease_match (lease_text l) =
    Some (RuntimeId_to_hex (sl_owner_runtime_id l), to_decimal (sl_generation l), as_wire_str (sl_profile l)).
Proof.
  intros (_ & _ & _ & Hlen) Hg. unfold lease_match, lease_text, RuntimeId_to_hex.
  rewrite lease_value_split, hex_nonempty by done.
  rewrite (proj2 (String.eqb_neq _ "")) by apply to_decimal_nonempty.
  by destruct (sl_profile l).
Qed.

Lemma lease_text_nonempty l : String.eqb (lease_text l) "" = false.
Proof.
  apply String.eqb_neq. unfold lease_text, lease_value. intros E.
  apply (f_equal String.length) in E. rewrite !string_length_app in E. cbn in E. lia.
Qed.

Lemma hex_eqb a b : String.eqb (hex_encode a) (hex_encode b) = bool_decide (a = b).
Proof.
  destruct (String.eqb_spec (hex_encode a) (hex_encode b)) as [E|E].
  - apply (f_equal hex_decode) in E. rewrite !hex_decode_encode in E. simplify_eq.
    by rewrite bool_decide_eq_true_2.
  - rewrite bool_decide_eq_false_2; [done|]. congruence.
Qed.

Lemma decimal_eqb a b : String.eqb (to_decimal a) (to_decimal b) = bool_decide (a = b).
Proof.
  destruct (String.eqb_spec (to_decimal a) (to_decimal b)) as [E|E].
  - apply to_decimal_inj in E. by rewrite bool_decide_eq_true_2.
  - rewrite bool_decide_eq_false_2; [done|]. congruence.
Qed.

Lemma held_by_text owner g l :
  String.eqb (RuntimeId_to_hex (sl_owner_runtime_id l)) (RuntimeId_to_hex owner)
  && String.eqb (to_decimal (sl_generation l)) (to_decimal g) = held_by owner g l.
Proof.
  unfold RuntimeId_to_hex. rewrite hex_eqb, decimal_eqb. unfold held_by.
  destruct (sl_owner_runtime_id l) as [a], owner as [b]. cbn [rid_bytes].
  repeat case_bool_decide; naive_solver.
Qed.

(** ** Keys *)

Lemma keys_differ c sid c' sid' :
  valid_session c sid -> valid_session c' sid' ->
  sk_lease (SessionKeys_new c sid) <> sk_generation (SessionKeys_new c' sid') /\
  ((c, sid) <> (c', sid') ->
   sk_lease (SessionKeys_new c sid) <> sk_lease (SessionKeys_new c' sid') /\
   sk_generation (SessionKeys_new c sid) <> sk_generation (SessionKeys_new c' sid')).
Proof.
  intros [Hc Hs] [Hc' Hs'].
  assert (forall x y,
    ("buzz:" +:+ uuid_to_string (as_uuid c) +:+ ":tunnel:" +:+ uuid_to_string sid) +:+ x =
    ("buzz:" +:+ uuid_to_string (as_uuid c') +:+ ":tunnel:" +:+ uuid_to_string sid') +:+ y ->
    (c, sid) = (c', sid') /\ x = y) as Hinj.
  { intros x y E. rewrite !string_app_assoc in E.
    apply app_inj_length in E as [_ E]; [|done].
    apply app_inj_length in E as [Ec E]; [|apply uuid_text_length].
    apply app_inj_length in E as [_ E]; [|done].
    apply app_inj_length in E as [Es ->]; [|apply uuid_text_length].
    apply uuid_text_inj in Ec; [|done..]. apply uuid_text_inj in Es; [|done..].
    destruct c, c'; cbn in *; by subst. }
  unfold SessionKeys_new. cbn [sk_lease sk_generation].
  split; [intros E; by apply Hinj in E as [_ ?]|].
  intros Hne. split; intros E; by apply Hinj in E as [? _].
Qed.

(** ** Refinement of the scripts *)

(** The keys of other sessions are left as they are. *)
Definition frame (c : CommunityId) (sid : Uuid) (now : Z) (s s' : redis) : Prop :=
  forall k, k <> sk_lease (SessionKeys_new c sid) -> k <> sk_generation (SessionKeys_new c sid) ->
    same_key s s' now k.

Lemma cell_rep_get ttl now c sid s cell :
  cell_rep ttl now c sid s cell ->
  r_get s now (sk_generation (SessionKeys_new c sid)) = to_decimal <$> counter_known cell /\
  r_get s now (sk_lease (SessionKeys_new c sid)) = lease_text <$> live now cell.
Proof.
  intros (_ & Hg & Hl). split; [apply Hg; lia|]. unfold live.
  destruct (cell_lease cell) as [[l e]|]; [destruct Hl as [Hl _]|]; rewrite Hl by lia; [|done].
  by destruct (now <? e)%Z.
Qed.

(** A live lease of a represented cell is well formed and carries the counter. *)
Lemma cell_rep_live ttl now c sid s cell l :
  cell_rep ttl now c sid s cell -> live now cell = Some l ->
  lease_wf c sid l /\ (sl_generation l < lua_exact)%N /\ sl_generation l = cell_counter cell.
Proof.
  intros (Hb & _ & Hl) Hlive. unfold live in Hlive.
  destruct (cell_lease cell) as [[l' e]|]; [|done].
  destruct (now <? e)%Z; simplify_eq. destruct Hl as (_ & ? & E & _). rewrite E. auto.
Qed.

Lemma same_key_refl s now k : same_key s s now k.
Proof. by intros t _. Qed.
Lemma same_key_trans s1 s2 s3 now k :
  same_key s1 s2 now k -> same_key s2 s3 now k -> same_key s1 s3 now k.
Proof. intros A B t Ht. by rewrite B, A. Qed.
Lemma frame_refl c sid now s : frame c sid now s s.
Proof. intros k _ _. apply same_key_refl. Qed.

Lemma steady_same s s' now k o : steady s now k o -> same_key s s' now k -> steady s' now k o.
Proof. intros A B t Ht. by rewrite B, A. Qed.
Lemma expiring_same s s' now k v e : expiring s now k v e -> same_key s s' now k -> expiring s' now k v e.
Proof. intros A B t Ht. by rewrite B, A. Qed.

(** [INCR] on the counter of a represented cell. *)
Lemma incr_counter s now k cell :
  steady s now k (to_decimal <$> counter_known cell) -> (cell_counter cell + 1 < lua_exact)%N ->
  exists s', r_incr s now k = Ok (s', cell_counter cell + 1)%N /\
    steady s' now k (Some (to_decimal (cell_counter cell + 1))) /\
    forall k', k' <> k -> same_key s s' now k'.
Proof.
  unfold counter_known, lua_exact. intros Hs Hb.
  destruct (N.eqb_spec (cell_counter cell) 0) as [E|E].
  - rewrite E. by apply incr_absent.
  - apply incr_number; [done|]. lia.
Qed.

Definition reply_of_acquire (r : AcquireResult) : string * string :=
  match r with Acquired l => ("acquired", lease_text l) | Exists l => ("exists", lease_text l) end.

Lemma acquire_script_refines ttl now c sid s cell owner profile :
  valid_session c sid -> cell_rep ttl now c sid s cell -> (cell_counter cell + 1 < lua_exact)%N ->
  String.length (rid_bytes owner) = 32%nat ->
  exists s' known, acquire_script now (SessionKeys_new c sid) (RuntimeId_to_hex owner) (as_wire_str profile) ttl s
    = Ok (s', (reply_of_acquire (spec_acquire ttl now c sid owner profile cell).2, known)) /\
    cell_rep ttl now c sid s' (spec_acquire ttl now c sid owner profile cell).1 /\
    frame c sid now s s'.
Proof.
  intros Hv Hrep Hb Hlen. destruct (cell_rep_get _ _ _ _ _ _ Hrep) as [Hg Hl].
  unfold acquire_script, spec_acquire. rewrite Hl, Hg.
  destruct (live now cell) as [l|] eqn:Hlive; cbn [fmap option_fmap option_map fst snd].
  { eexists s, _. split; [done|]. split; [done|apply frame_refl]. }
  destruct Hrep as (Hb' & Hcnt & _).
  destruct (incr_counter _ _ _ _ Hcnt Hb) as (s1 & -> & Hcnt1 & Hother).
  destruct (keys_differ c sid c sid Hv Hv) as [Hkd _].
  eexists _, _. split; [reflexivity|]. split.
  - split; [done|]. split.
    + unfold counter_known. cbn [cell_counter]. rewrite (proj2 (N.eqb_neq _ 0)) by lia.
      eapply steady_same; [exact Hcnt1|]. by apply set_px_other.
    + cbn [cell_lease]. split; [apply set_px_key|]. split; [|cbn; lia].
      split_and!; cbn; [done|done|lia|done].
  - intros k Hk1 Hk2. eapply same_key_trans; [by apply Hother|]. by apply set_px_other.
Qed.

(** The script [renew] and [release] share, on a represented cell. *)
Lemma owner_script_refines st act ttl now c sid s cell owner g :
  cell_rep ttl now c sid s cell ->
  owner_script st act now (SessionKeys_new c sid) (RuntimeId_to_hex owner) (to_decimal g) s
  = match live now cell with
    | Some l =>
        if held_by owner g l
        then Ok (act s, (st, lease_text l,
               default (to_decimal (sl_generation l)) (r_get (act s) now (sk_generation (SessionKeys_new c sid)))))
        else Ok (s, ("lost", lease_text l, to_decimal (cell_counter cell)))
    | None => Ok (s, ("missing", "", default "" (to_decimal <$> counter_known cell)))
    end.
Proof.
  intros Hrep. destruct (cell_rep_get _ _ _ _ _ _ Hrep) as [Hg Hl].
  unfold owner_script. rewrite Hl, Hg.
  destruct (live now cell) as [l|] eqn:Hlive; cbn [fmap option_fmap option_map]; [|done].
  destruct (cell_rep_live _ _ _ _ _ _ _ Hrep Hlive) as (Hwf & Hgb & Hgc).
  rewrite (lease_match_text c sid) by done. rewrite held_by_text.
  destruct (held_by owner g l); [done|].
  destruct Hwf as (_ & _ & Hpos & _). rewrite Hgc in Hpos.
  unfold counter_known. by rewrite (proj2 (N.eqb_neq _ 0)) by lia.
Qed.

Lemma renew_cell ttl now c sid s cell l :
  valid_session c sid -> cell_rep ttl now c sid s cell -> live now cell = Some l ->
  let s' := r_pexpire s now (sk_lease (SessionKeys_new c sid)) ttl in
  cell_rep ttl now c sid s' (mkCell (cell_counter cell) (Some (l, now + ttl)%Z)) /\ frame c sid now s s'.
Proof.
  intros Hv Hrep Hlive. destruct (cell_rep_get _ _ _ _ _ _ Hrep) as [_ Hl].
  rewrite Hlive in Hl. destruct (cell_rep_live _ _ _ _ _ _ _ Hrep Hlive) as (Hwf & _ & Hgc).
  destruct Hrep as (Hb & Hcnt & _). destruct (keys_differ c sid c sid Hv Hv) as [Hkd _].
  split; [|intros k Hk _; by apply pexpire_other].
  split; [done|]. split; [eapply steady_same; [exact Hcnt|]; by apply pexpire_other|].
  cbn [cell_lease]. split_and!; [by apply pexpire_key|done|done|lia].
Qed.

Lemma release_cell ttl now c sid s cell l :
  valid_session c sid -> cell_rep ttl now c sid s cell -> live now cell = Some l ->
  let s' := r_del s now (sk_lease (SessionKeys_new c sid)) in
  cell_rep ttl now c sid s' (mkCell (cell_counter cell) None) /\ frame c sid now s s'.
Proof.
  intros Hv Hrep Hlive. destruct Hrep as (Hb & Hcnt & _).
  destruct (keys_differ c sid c sid Hv Hv) as [Hkd _].
  split; [|intros k Hk _; by apply del_other].
  split; [done|]. split; [eapply steady_same; [exact Hcnt|]; by apply del_other|].
  apply del_key.
Qed.
End refinement.

(** * Runs of the session directory: every interleaving of calls by any number
    of runtimes, with lost replies, refused guards, foreign Redis writes and the
    passing of time, refines the cells of [DirectorySpec]; fencing follows. *)

Section methods.
Context `{RedisLaws, LuaLaws, HexLaws, !HexTextLaws, UuidTextLaws}.

(** An attempt either takes the specified effect, and then answers nothing but
    the specified answer, or leaves the cell and answers an error. *)
Definition attempt {R} (spec : Cell * R) (cell : Cell) (r : result R DirectoryError) (cell' : Cell) : Prop :=
  (cell' = spec.1 /\ forall x, r = Ok x -> x = spec.2) \/ (cell' = cell /\ is_ok r = false).

(** What a method call does to a represented session. *)
Definition refines {R} (ttl now : Z) (c : CommunityId) (sid : Uuid) (env : CallEnv) (s : redis)
    (spec : Cell * R) (cell : Cell) (out : redis * result R DirectoryError) : Prop :=
  (exists cell', cell_rep ttl now c sid out.1 cell' /\ attempt spec cell out.2 cell') /\
  frame c sid now s out.1 /\ (env = healthy -> out.2 = Ok spec.2).

Lemma refines_failure {R} ttl now c sid env s (spec : Cell * R) cell e :
  cell_rep ttl now c sid s cell -> env <> healthy ->
  refines ttl now c sid env s spec cell (s, Err e).
Proof.
  intros Hrep Hne. split; [|split; [apply frame_refl|done]].
  exists cell. split; [done|]. by right.
Qed.

(** The guarded invocation of a script that has the specified effect, followed
    by a decoding of its reply that gives the specified answer or, when the
    environment fails, an error. *)
Lemma refines_invoke {R} ttl now c sid env s (spec : Cell * R) cell script s' reply
    (k : Reply -> result R DirectoryError) :
  cell_rep ttl now c sid s cell ->
  script s = Ok (s', reply) -> cell_rep ttl now c sid s' spec.1 -> frame c sid now s s' ->
  (forall x, k reply = Ok x -> x = spec.2) -> (env = healthy -> k reply = Ok spec.2) ->
  refines ttl now c sid env s spec cell
    (let '(s1, out) := protected_invoke env script s in (s1, let? r := out in k r)).
Proof.
  intros Hrep Hs Hrep' Hf Hk Hh. unfold protected_invoke. rewrite Hs.
  destruct (ce_ran env) eqn:Hran.
  - split; [|split; [done|]].
    + exists spec.1. split; [done|]. left. split; [done|]. cbn. intros x.
      unfold fail_with. destruct (ce_protect env), (ce_reply env); try done. apply Hk.
    + intros ->. by apply Hh.
  - split; [|split; [apply frame_refl|intros ->; done]].
    exists cell. split; [done|]. right. split; [done|]. cbn.
    unfold fail_with. by destruct (ce_protect env), (ce_reply env).
Qed.

Lemma fail_with_healthy o f e : fail_with o f = Err e -> o <> None.
Proof. by destruct o. Qed.

Lemma spec_acquire_wf ttl now c sid s cell owner profile :
  cell_rep ttl now c sid s cell -> (cell_counter cell + 1 < lua_exact)%N ->
  String.length (rid_bytes owner) = 32%nat ->
  match (spec_acquire ttl now c sid owner profile cell).2 with
  | Acquired l | Exists l => parse_lease c sid (lease_text l) = Ok l
  end.
Proof.
  intros Hrep Hb Hlen. unfold spec_acquire. destruct (live now cell) as [l|] eqn:Hl; cbn [snd].
  - destruct (cell_rep_live _ _ _ _ _ _ _ Hrep Hl) as (? & ? & _). by apply parse_lease_text.
  - apply parse_lease_text; [|done]. split_and!; cbn; [done|done|lia|done].
Qed.

Lemma acquire_refines lease_ttl ttl env now c sid owner profile s cell :
  ttl_ms lease_ttl = Ok ttl -> valid_session c sid -> cell_rep ttl now c sid s cell ->
  (cell_counter cell + 1 < lua_exact)%N -> String.length (rid_bytes owner) = 32%nat ->
  refines ttl now c sid env s (spec_acquire ttl now c sid owner profile cell) cell
    (acquire lease_ttl env now c sid owner profile s).
Proof.
  intros Httl Hv Hrep Hb Hlen. unfold acquire, begin_serving_write. rewrite Httl.
  destruct (fail_with (ce_begin env) _) eqn:E; [|apply refines_failure; [done|intros ->; done]]. clear E.
  destruct (fail_with (ce_pool env) _) eqn:E; [|apply refines_failure; [done|intros ->; done]]. clear E.
  destruct (acquire_script_refines ttl now c sid s cell owner profile Hv Hrep Hb Hlen)
    as (s' & known & Hs & Hrep' & Hf).
  pose proof (spec_acquire_wf ttl now c sid s cell owner profile Hrep Hb Hlen) as Hp.
  eapply refines_invoke; [done..| |]; destruct (spec_acquire _ _ _ _ _ _ _) as [cell' [l|l]]; cbn in *;
    rewrite Hp; cbn.
  1,2: intros x; by destruct (fail_with (ce_finish env) _) as [[]|]; intros; simplify_eq.
  all: by intros ->.
Qed.

Lemma parse_known c sid cell :
  (cell_counter cell < lua_exact)%N ->
  parse_optional_generation c sid (default "" (to_decimal <$> counter_known cell)) = Ok (counter_known cell).
Proof.
  intros Hb. unfold counter_known, parse_optional_generation.
  destruct (N.eqb_spec (cell_counter cell) 0) as [E|E]; cbn; [done|].
  rewrite (proj2 (String.eqb_neq _ "")) by apply to_decimal_nonempty.
  unfold parse_u64. rewrite parse_uint_to_decimal by (unfold lua_exact in Hb; lia).
  by rewrite (proj2 (N.eqb_neq _ 0)).
Qed.

Lemma parse_current c sid l :
  lease_wf c sid l -> (sl_generation l < lua_exact)%N ->
  parse_optional_lease c sid (lease_text l) = Ok (Some l).
Proof. intros. unfold parse_optional_lease. by rewrite lease_text_nonempty, parse_lease_text. Qed.

(** The counter of a session with a live lease is not zero. *)
Lemma live_counter ttl now c sid s cell l :
  cell_rep ttl now c sid s cell -> live now cell = Some l ->
  counter_known cell = Some (cell_counter cell).
Proof.
  intros Hrep Hl. destruct (cell_rep_live _ _ _ _ _ _ _ Hrep Hl) as ((_ & _ & Hpos & _) & _ & E).
  unfold counter_known. by rewrite (proj2 (N.eqb_neq _ 0)) by lia.
Qed.

(** [renew] and [release] decode their reply alike. *)
Definition decode_owner_reply {R} (c : CommunityId) (sid : Uuid) (env : CallEnv) (st msg : string)
    (good : SessionLease -> R) (bad : option SessionLease -> option N -> R) (r : Reply)
    : result R DirectoryError :=
  let '(status, value, known) := r in
  let? current := parse_optional_lease c sid value in
  let? _ := fail_with (ce_finish env) CommunityWriteFenced in
  if String.eqb status st then
    match current with Some l' => Ok (good l') | None => Err (Panicked msg) end
  else if String.eqb status "missing" || String.eqb status "lost" then
    let? g := parse_optional_generation c sid known in Ok (bad current g)
  else Err (UnexpectedScriptStatus status).

(** What both calls answer and do, on a represented session: [act] under the
    caller's fence, a report otherwise. *)
Lemma owner_call_refines {R} (st msg : string) (act : redis -> redis) (done_cell : SessionLease -> Cell)
    (good : SessionLease -> R) (bad : option SessionLease -> option N -> R)
    ttl env now c sid owner g s cell :
  String.eqb "lost" st = false -> String.eqb "missing" st = false ->
  cell_rep ttl now c sid s cell ->
  (forall l, live now cell = Some l -> cell_rep ttl now c sid (act s) (done_cell l) /\ frame c sid now s (act s)) ->
  refines ttl now c sid env s
    (match live now cell with
     | Some l => if held_by owner g l then (done_cell l, good l) else (cell, bad (Some l) (counter_known cell))
     | None => (cell, bad None (counter_known cell))
     end) cell
    (let '(s1, out) := protected_invoke env
       (owner_script st act now (SessionKeys_new c sid) (RuntimeId_to_hex owner) (to_decimal g)) s in
     (s1, let? r := out in decode_owner_reply c sid env st msg good bad r)).
Proof.
  intros Hst1 Hst2 Hrep Hact.
  pose proof (owner_script_refines st act ttl now c sid s cell owner g Hrep) as Hs.
  pose proof (parse_known c sid cell (proj1 Hrep)) as Hk.
  destruct (live now cell) as [l|] eqn:Hl.
  - pose proof (live_counter _ _ _ _ _ _ _ Hrep Hl) as Hc. rewrite Hc in Hk |- *. cbn in Hk.
    destruct (cell_rep_live _ _ _ _ _ _ _ Hrep Hl) as (Hwf & Hgb & _).
    pose proof (parse_current c sid l Hwf Hgb) as Hcur.
    destruct (held_by owner g l); [destruct (Hact l eq_refl) as [? ?]|];
      (eapply refines_invoke; [done|exact Hs|done|done || apply frame_refl| |]);
      unfold decode_owner_reply; rewrite Hcur, ?Hk, ?String.eqb_refl, ?Hst1, ?orb_true_r;
      try (intros ->; reflexivity);
      intros x; destruct (fail_with (ce_finish env) _) as [[]|]; intros; simplify_eq; done.
  - eapply refines_invoke; [done|exact Hs|done|apply frame_refl| |];
      unfold decode_owner_reply, parse_optional_lease; rewrite Hk, Hst2, !String.eqb_refl; cbn [orb];
      [|by intros ->].
    intros x. destruct (fail_with (ce_finish env) _) as [[]|]; intros; simplify_eq; done.
Qed.

Lemma renew_refines lease_ttl ttl env now l s cell :
  let c := sl_community_id l in let sid := sl_session_id l in
  ttl_ms lease_ttl = Ok ttl -> valid_session c sid -> cell_rep ttl now c sid s cell ->
  refines ttl now c sid env s (spec_renew ttl now l cell) cell (renew lease_ttl env now l s).
Proof.
  intros c sid Httl Hv Hrep. unfold renew, begin_serving_write. rewrite Httl.
  destruct (fail_with (ce_begin env) _) eqn:E; [|apply refines_failure; [done|intros ->; done]]. clear E.
  destruct (fail_with (ce_pool env) _) eqn:E; [|apply refines_failure; [done|intros ->; done]]. clear E.
  apply (owner_call_refines "renewed" "renewed returns lease" _ _ Renewed Lost); [done|done|done|].
  intros l' Hl'. by apply renew_cell.
Qed.

Lemma release_refines ttl env now l s cell :
  let c := sl_community_id l in let sid := sl_session_id l in
  valid_session c sid -> cell_rep ttl now c sid s cell ->
  refines ttl now c sid env s (spec_release now l cell) cell (release env now l s).
Proof.
  intros c sid Hv Hrep. unfold release, begin_serving_write.
  destruct (fail_with (ce_begin env) _) eqn:E; [|apply refines_failure; [done|intros ->; done]]. clear E.
  destruct (fail_with (ce_pool env) _) eqn:E; [|apply refines_failure; [done|intros ->; done]]. clear E.
  apply (owner_call_refines "released" "released returns lease" _
           (fun _ => mkCell (cell_counter cell) None) Released NotOwner); [done|done|done|].
  intros l' Hl'. by eapply release_cell.
Qed.

Lemma validate_refines ttl now c fenced s cell :
  cell_rep ttl now c (fh_session_id fenced) s cell ->
  validate_fenced_header healthy now c fenced s = spec_validate now fenced cell.
Proof.
  intros Hrep. destruct (cell_rep_get _ _ _ _ _ _ Hrep) as [Hg Hl].
  unfold validate_fenced_header, validate_script, spec_validate. cbn [ce_pool ce_reply healthy].
  rewrite Hg, Hl, parse_known by apply Hrep.
  assert (default 0%N (counter_known cell) = cell_counter cell) as Hd.
  { unfold counter_known. by destruct (N.eqb_spec (cell_counter cell) 0) as [->|]. }
  rewrite Hd. destruct (live now cell) as [l|] eqn:Hlive; cbn [fmap option_fmap option_map from_option id].
  - destruct (cell_rep_live _ _ _ _ _ _ _ Hrep Hlive) as (Hwf & Hgb & Hgc).
    rewrite parse_current by done. cbn [from_option]. rewrite Hgc, N.max_id.
    destruct Hwf as (_ & _ & Hpos & _). rewrite Hgc in Hpos.
    rewrite (proj2 (N.ltb_lt 0 _)) by done. cbn [andb].
    destruct (N.ltb_spec (fh_generation fenced) (cell_counter cell)); [done|].
    destruct (N.eqb_spec (fh_generation fenced) (cell_counter cell)) as [E|E]; cbn [negb].
    + rewrite (proj2 (N.ltb_ge _ _)) by lia. by repeat case_bool_decide.
    + by rewrite (proj2 (N.ltb_lt _ _)) by lia.
  - cbn [parse_optional_lease String.eqb from_option]. rewrite N.max_id.
    destruct (N.ltb_spec (fh_generation fenced) (cell_counter cell));
      [rewrite (proj2 (N.ltb_lt 0 _)) by lia; done|]. by rewrite andb_false_r.
Qed.
End methods.
