(* ===== verification/DirectoryRun.v ===== *)
(** Runs of the session directory: any interleaving of calls by any number of
    runtimes on any sessions, with failing environments, foreign Redis writes
    and the passing of time.  Each session's view of a run is a run of its cell,
    and the fencing theorems are read off the cells. *)

From S2P Require Import Prelude Nostr MeshWire Directory DirectorySpec.

Inductive DirEvent :=
| EvAcquire (c : CommunityId) (sid : Uuid) (owner : RuntimeId) (profile : Profile)
    (r : result AcquireResult DirectoryError)
| EvRenew (l : SessionLease) (r : result RenewResult DirectoryError)
| EvRelease (l : SessionLease) (r : result ReleaseResult DirectoryError)
| EvWait (dt : Z)
| EvForeign.

Definition event_time (now : Z) (ev : DirEvent) : Z :=
  match ev with EvWait dt => (now + dt)%Z | _ => now end.

Section runs.
Context `{RedisLaws, LuaLaws, HexLaws, !HexTextLaws, UuidTextLaws}.
Variable lease_ttl : N.

(** One step of the world: a Redis state and its clock.  A foreign step is any
    command of another component; it does not touch the keys of a session. *)
Inductive dir_step : redis * Z -> DirEvent -> redis * Z -> Prop :=
| step_acquire s now env c sid owner profile s' r :
    valid_session c sid -> String.length (rid_bytes owner) = 32%nat ->
    acquire lease_ttl env now c sid owner profile s = (s', r) ->
    dir_step (s, now) (EvAcquire c sid owner profile r) (s', now)
| step_renew s now env l s' r :
    valid_session (sl_community_id l) (sl_session_id l) ->
    renew lease_ttl env now l s = (s', r) -> dir_step (s, now) (EvRenew l r) (s', now)
| step_release s now env l s' r :
    valid_session (sl_community_id l) (sl_session_id l) ->
    release env now l s = (s', r) -> dir_step (s, now) (EvRelease l r) (s', now)
| step_wait s now dt : (0 <= dt)%Z -> dir_step (s, now) (EvWait dt) (s, now + dt)%Z
| step_foreign s now s' :
    (forall c sid, valid_session c sid ->
       same_key s s' now (sk_lease (SessionKeys_new c sid)) /\
       same_key s s' now (sk_generation (SessionKeys_new c sid))) ->
    dir_step (s, now) EvForeign (s', now).

Inductive dir_run : redis * Z -> list DirEvent -> redis * Z -> Prop :=
| run_nil w : dir_run w [] w
| run_cons w ev w1 evs w2 : dir_step w ev w1 -> dir_run w1 evs w2 -> dir_run w (ev :: evs) w2.

(** A Redis in which the directory has not been used. *)
Definition clean (w : redis * Z) : Prop :=
  forall c sid, valid_session c sid ->
    steady w.1 w.2 (sk_lease (SessionKeys_new c sid)) None /\
    steady w.1 w.2 (sk_generation (SessionKeys_new c sid)) None.

(** The view of one session. *)
Definition cell_step (ttl : Z) (c : CommunityId) (sid : Uuid) (now : Z) (ev : DirEvent)
    (cell cell' : Cell) : Prop :=
  match ev with
  | EvAcquire c' sid' owner profile r =>
      if decide ((c', sid') = (c, sid))
      then attempt (spec_acquire ttl now c sid owner profile cell) cell r cell'
      else cell' = cell
  | EvRenew l r =>
      if decide ((sl_community_id l, sl_session_id l) = (c, sid))
      then attempt (spec_renew ttl now l cell) cell r cell'
      else cell' = cell
  | EvRelease l r =>
      if decide ((sl_community_id l, sl_session_id l) = (c, sid))
      then attempt (spec_release now l cell) cell r cell'
      else cell' = cell
  | EvWait _ | EvForeign => cell' = cell
  end.

Inductive cell_run (ttl : Z) (c : CommunityId) (sid : Uuid) : Z -> list DirEvent -> Cell -> Cell -> Prop :=
| cell_run_nil now cell : cell_run ttl c sid now [] cell cell
| cell_run_cons now ev evs cell cell1 cell2 :
    cell_step ttl c sid now ev cell cell1 ->
    cell_run ttl c sid (event_time now ev) evs cell1 cell2 ->
    cell_run ttl c sid now (ev :: evs) cell cell2.

(** [lookup] reports exactly the live lease. *)
Lemma lookup_refines ttl now c sid s cell :
  cell_rep ttl now c sid s cell -> lookup_lease healthy now c sid s = Ok (live now cell).
Proof.
  intros Hrep. destruct (cell_rep_get _ _ _ _ _ _ Hrep) as [_ Hl]. unfold lookup_lease.
  cbn [ce_pool ce_reply fail_with healthy]. rewrite Hl. destruct (live now cell) as [l|] eqn:E; [|done].
  destruct (cell_rep_live _ _ _ _ _ _ _ Hrep E) as (? & ? & _). cbn. by rewrite parse_lease_text.
Qed.

(** ** Simulation *)

Lemma cell_rep_agree ttl now c sid s s' cell :
  cell_rep ttl now c sid s cell ->
  same_key s s' now (sk_lease (SessionKeys_new c sid)) ->
  same_key s s' now (sk_generation (SessionKeys_new c sid)) ->
  cell_rep ttl now c sid s' cell.
Proof.
  intros (Hb & Hg & Hl) Hsl Hsg. split; [done|]. split; [by eapply steady_same|].
  destruct (cell_lease cell) as [[l e]|]; [|by eapply steady_same].
  destruct Hl as [Hl ?]. split; [by eapply expiring_same|done].
Qed.

Lemma cell_rep_later ttl now dt c sid s cell :
  (0 <= dt)%Z -> cell_rep ttl now c sid s cell -> cell_rep ttl (now + dt) c sid s cell.
Proof.
  intros Hdt (Hb & Hg & Hl). split; [done|]. split; [intros t Ht; apply Hg; lia|].
  destruct (cell_lease cell) as [[l e]|]; [|intros t Ht; apply Hl; lia].
  destruct Hl as (Hl & ? & ? & ?). split_and!; [intros t Ht; apply Hl; lia|done|done|lia].
Qed.

(** A call on another session is invisible. *)
Lemma cell_rep_frame ttl now c sid c' sid' s s' cell :
  valid_session c sid -> valid_session c' sid' -> (c', sid') <> (c, sid) ->
  frame c' sid' now s s' -> cell_rep ttl now c sid s cell -> cell_rep ttl now c sid s' cell.
Proof.
  intros Hv Hv' Hne Hf Hrep.
  destruct (keys_differ c sid c' sid' Hv Hv') as [Hk1 [Hk2 Hk3]]; [congruence|].
  destruct (keys_differ c' sid' c sid Hv' Hv) as [Hk4 _].
  eapply cell_rep_agree; [done|apply Hf; congruence..].
Qed.

(** One call, seen from one session: [attempt] when it is the session's own,
    nothing otherwise. *)
Lemma call_simulates {R} ttl now c sid c' sid' env s (spec : Cell -> Cell * R) cell out :
  valid_session c sid -> valid_session c' sid' ->
  cell_rep ttl now c sid s cell ->
  (forall cell0, (c', sid') = (c, sid) -> cell0 = cell ->
     refines ttl now c sid env s (spec cell0) cell0 out) ->
  frame c' sid' now s out.1 ->
  exists cell', cell_rep ttl now c sid out.1 cell' /\
    if decide ((c', sid') = (c, sid)) then attempt (spec cell) cell out.2 cell' else cell' = cell.
Proof.
  intros Hv Hv' Hrep Href Hf. case_decide as E.
  - destruct (Href cell E eq_refl) as [(cell' & ? & ?) _]. eauto.
  - exists cell. split; [|done]. by eapply cell_rep_frame.
Qed.

Definition all_represented (ttl : Z) (w : redis * Z) (bound : N) : Prop :=
  forall c sid, valid_session c sid ->
    exists cell, cell_rep ttl w.2 c sid w.1 cell /\ (cell_counter cell < bound)%N.

Lemma acquire_frame ttl env now c sid owner profile s bound :
  ttl_ms lease_ttl = Ok ttl -> (bound < lua_exact)%N -> all_represented ttl (s, now) bound ->
  valid_session c sid -> String.length (rid_bytes owner) = 32%nat ->
  frame c sid now s (acquire lease_ttl env now c sid owner profile s).1.
Proof.
  intros Httl Hb Hall Hv Hlen. destruct (Hall c sid Hv) as (cell & Hrep & Hc).
  eapply (acquire_refines lease_ttl ttl env now c sid owner profile s cell); [done..|lia|done].
Qed.

Lemma step_simulates ttl w ev w' bound c sid cell :
  ttl_ms lease_ttl = Ok ttl -> (bound < lua_exact)%N -> all_represented ttl w bound ->
  dir_step w ev w' -> valid_session c sid -> cell_rep ttl w.2 c sid w.1 cell ->
  (cell_counter cell < bound)%N ->
  exists cell', cell_rep ttl w'.2 c sid w'.1 cell' /\ cell_step ttl c sid w.2 ev cell cell' /\
    w'.2 = event_time w.2 ev.
Proof.
  intros Httl Hb Hall Hstep Hv Hrep Hc. destruct Hstep as
    [s now env c' sid' owner profile s' r Hv' Hlen E|s now env l s' r Hv' E|s now env l s' r Hv' E
    |s now dt Hdt|s now s' Hsame]; cbn [fst snd cell_step event_time] in *.
  - pose proof (acquire_frame ttl env now c' sid' owner profile s bound Httl Hb Hall Hv' Hlen) as Hf.
    rewrite E in Hf.
    destruct (call_simulates ttl now c sid c' sid' env s (spec_acquire ttl now c sid owner profile)
                cell (s', r) Hv Hv' Hrep) as (cell' & ? & ?); [|done|by eauto].
    intros cell0 [= -> ->] ->. rewrite <- E. apply acquire_refines; try done. lia.
  - destruct (Hall _ _ Hv') as (cl & Hcl & _).
    pose proof (renew_refines lease_ttl ttl env now l s cl Httl Hv' Hcl) as (_ & Hf & _). rewrite E in Hf.
    destruct (call_simulates ttl now c sid _ _ env s (spec_renew ttl now l) cell (s', r) Hv Hv' Hrep)
      as (cell' & ? & ?); [|done|by eauto].
    intros cell0 [= <- <-] ->. rewrite <- E. by apply renew_refines.
  - destruct (Hall _ _ Hv') as (cl & Hcl & _).
    pose proof (release_refines ttl env now l s cl Hv' Hcl) as (_ & Hf & _). rewrite E in Hf.
    destruct (call_simulates ttl now c sid _ _ env s (spec_release now l) cell (s', r) Hv Hv' Hrep)
      as (cell' & ? & ?); [|done|by eauto].
    intros cell0 [= <- <-] ->. rewrite <- E. by apply release_refines.
  - exists cell. split; [by apply cell_rep_later|done].
  - exists cell. split; [|done]. destruct (Hsame c sid Hv). by eapply cell_rep_agree.
Qed.

(** Cells count up, by at most one per step. *)
Lemma cell_step_counter ttl c sid now ev cell cell' :
  cell_step ttl c sid now ev cell cell' ->
  (cell_counter cell <= cell_counter cell' <= cell_counter cell + 1)%N.
Proof.
  destruct ev; cbn [cell_step]; try (intros ->; lia);
    case_decide; try (intros ->; lia); intros [[-> _]|[-> _]]; try lia;
    unfold spec_acquire, spec_renew, spec_release; repeat case_match; cbn; lia.
Qed.

Lemma cell_run_counter ttl c sid now evs cell cell' :
  cell_run ttl c sid now evs cell cell' -> (cell_counter cell <= cell_counter cell')%N.
Proof.
  induction 1 as [|? ? ? ? ? ? Hstep _ IH]; [lia|]. apply cell_step_counter in Hstep. lia.
Qed.

Lemma run_simulates ttl w evs w' bound c sid cell :
  ttl_ms lease_ttl = Ok ttl -> dir_run w evs w' ->
  (bound + N.of_nat (length evs) < lua_exact)%N -> all_represented ttl w bound ->
  valid_session c sid -> cell_rep ttl w.2 c sid w.1 cell -> (cell_counter cell < bound)%N ->
  exists cell', cell_rep ttl w'.2 c sid w'.1 cell' /\ cell_run ttl c sid w.2 evs cell cell'.
Proof.
  intros Httl Hrun. revert bound cell.
  induction Hrun as [w|w ev w1 evs w2 Hstep Hrun IH]; intros bound cell Hb Hall Hv Hrep Hc.
  { exists cell. split; [done|constructor]. }
  cbn [length] in Hb.
  destruct (step_simulates ttl w ev w1 bound c sid cell) as (cell1 & Hrep1 & Hs1 & Ht); try done; [lia|].
  pose proof (cell_step_counter _ _ _ _ _ _ _ Hs1).
  destruct (IH (bound + 1)%N cell1) as (cell2 & ? & ?); try done; [lia| |lia|].
  - intros c' sid' Hv'. destruct (Hall c' sid' Hv') as (cl & Hcl & Hclb).
    destruct (step_simulates ttl w ev w1 bound c' sid' cl) as (cl1 & ? & Hs & _); try done; [lia|].
    apply cell_step_counter in Hs. exists cl1. split; [done|lia].
  - exists cell2. split; [done|]. econstructor; [done|]. by rewrite <- Ht.
Qed.

Lemma clean_rep ttl w c sid : clean w -> valid_session c sid -> cell_rep ttl w.2 c sid w.1 empty_cell.
Proof. intros Hcl Hv. destruct (Hcl c sid Hv). split; [done|]. by split. Qed.

(** The whole run, seen from one session, starting in an unused Redis. *)
Lemma clean_run_simulates ttl w evs w' c sid :
  ttl_ms lease_ttl = Ok ttl -> clean w -> dir_run w evs w' ->
  (N.of_nat (length evs) + 1 < lua_exact)%N -> valid_session c sid ->
  exists cell', cell_rep ttl w'.2 c sid w'.1 cell' /\ cell_run ttl c sid w.2 evs empty_cell cell'.
Proof.
  intros Httl Hcl Hrun Hb Hv.
  apply (run_simulates ttl w evs w' 1 c sid empty_cell); try done; [lia| |by apply clean_rep].
  intros c' sid' Hv'. exists empty_cell. split; [by apply clean_rep|done].
Qed.

Lemma cell_run_app ttl c sid now evs1 evs2 cell cell' :
  cell_run ttl c sid now (evs1 ++ evs2) cell cell' ->
  exists mid, cell_run ttl c sid now evs1 cell mid /\
    cell_run ttl c sid (foldl event_time now evs1) evs2 mid cell'.
Proof.
  revert now cell. induction evs1 as [|ev evs1 IH]; intros now cell Hr; cbn in *.
  - exists cell. split; [constructor|done].
  - inversion Hr as [|? ? ? ? cell1 ? Hs Hr']; subst. apply IH in Hr' as (mid & ? & ?).
    exists mid. split; [by econstructor|done].
Qed.

(** A granted lease carries the counter after the step. *)
Lemma cell_step_acquired ttl c sid now owner profile l cell cell' :
  cell_step ttl c sid now (EvAcquire c sid owner profile (Ok (Acquired l))) cell cell' ->
  live now cell = None /\ cell' = mkCell (sl_generation l) (Some (l, now + ttl)%Z) /\
  sl_generation l = (cell_counter cell + 1)%N /\
  l = mkSessionLease c sid owner (cell_counter cell + 1) profile.
Proof.
  cbn [cell_step]. rewrite decide_True by done. intros [[-> Hx]|[_ ?]]; [|done].
  specialize (Hx _ eq_refl). unfold spec_acquire in *. destruct (live now cell); [done|].
  cbn in *. by simplify_eq.
Qed.

Definition granted (c : CommunityId) (sid : Uuid) (l : SessionLease) : DirEvent :=
  EvAcquire c sid (sl_owner_runtime_id l) (sl_profile l) (Ok (Acquired l)).

Lemma cell_run_granted ttl c sid now evs1 evs2 owner profile l cell cell' :
  cell_run ttl c sid now (evs1 ++ EvAcquire c sid owner profile (Ok (Acquired l)) :: evs2) cell cell' ->
  exists mid, (cell_counter cell < sl_generation l)%N /\ cell_counter mid = sl_generation l /\
    cell_lease mid = Some (l, foldl event_time now evs1 + ttl)%Z /\
    cell_run ttl c sid (foldl event_time now evs1) evs2 mid cell' /\
    (sl_generation l <= cell_counter cell')%N.
Proof.
  intros Hr. apply cell_run_app in Hr as (c1 & Hr1 & Hr2).
  inversion Hr2 as [|? ? ? ? c2 ? Hs Hr3]; subst.
  apply cell_step_acquired in Hs as (_ & -> & Hg & _).
  pose proof (cell_run_counter _ _ _ _ _ _ _ Hr1). pose proof (cell_run_counter _ _ _ _ _ _ _ Hr3).
  eexists. split_and!; [| | |exact Hr3|done]; [lia|done..].
Qed.

(** ** Leases in their term *)

Definition forward (ev : DirEvent) : Prop := match ev with EvWait dt => (0 <= dt)%Z | _ => True end.

Lemma run_time w evs w' :
  dir_run w evs w' -> w'.2 = foldl event_time w.2 evs /\ Forall forward evs.
Proof.
  induction 1 as [|w ev w1 evs w2 Hs _ [IH1 IH2]]; [by split|].
  assert (w1.2 = event_time w.2 ev /\ forward ev) as [Ht Hf] by (by destruct Hs).
  cbn [foldl]. rewrite <- Ht. split; [done|]. by constructor.
Qed.

Lemma forward_time now evs : Forall forward evs -> (now <= foldl event_time now evs)%Z.
Proof.
  intros HF. revert now. induction HF as [|ev evs Hf _ IH]; intros now; cbn; [lia|].
  etrans; [|apply IH]. destruct ev; cbn in *; lia.
Qed.

(** The event is not the holder of [l] giving it up. *)
Definition keeps (l : SessionLease) (ev : DirEvent) : Prop :=
  match ev with
  | EvRelease l0 _ =>
      ~ (sl_community_id l0 = sl_community_id l /\ sl_session_id l0 = sl_session_id l /\
         sl_owner_runtime_id l0 = sl_owner_runtime_id l /\ sl_generation l0 = sl_generation l)
  | _ => True
  end.

(** Whoever asked for the session was told that [l] holds it. *)
Definition told (c : CommunityId) (sid : Uuid) (l : SessionLease) (ev : DirEvent) : Prop :=
  match ev with
  | EvAcquire c' sid' _ _ (Ok x) => (c', sid') = (c, sid) -> x = Exists l
  | _ => True
  end.

(** A cell only ever holds leases of its own session. *)
Definition lease_of (c : CommunityId) (sid : Uuid) (l : SessionLease) : Prop :=
  sl_community_id l = c /\ sl_session_id l = sid.
Definition cell_own (c : CommunityId) (sid : Uuid) (cell : Cell) : Prop :=
  forall l e, cell_lease cell = Some (l, e) -> lease_of c sid l.

Lemma live_own c sid now cell l : cell_own c sid cell -> live now cell = Some l -> lease_of c sid l.
Proof.
  unfold live. intros Ho. destruct (cell_lease cell) as [[l' e]|] eqn:E; [|done].
  case_match; intros; simplify_eq. by eapply Ho.
Qed.

Lemma cell_step_own ttl c sid now ev cell cell' :
  cell_step ttl c sid now ev cell cell' -> cell_own c sid cell -> cell_own c sid cell'.
Proof.
  intros Hs Ho. destruct ev; cbn [cell_step] in Hs; try (by subst);
    (case_decide; [destruct Hs as [[-> _]|[-> _]]; [|done]|by subst]);
    unfold spec_acquire, spec_renew, spec_release;
    (destruct (live now cell) eqn:E; [|try done]); repeat case_match; try done;
    intros l' e' [= <- <-]; try done; by eapply live_own.
Qed.

Lemma cell_run_own ttl c sid now evs cell cell' :
  cell_run ttl c sid now evs cell cell' -> cell_own c sid cell -> cell_own c sid cell'.
Proof. induction 1; [done|]. eauto using cell_step_own. Qed.

Lemma cell_step_protected ttl c sid now ev cell cell' l e :
  forward ev -> cell_step ttl c sid now ev cell cell' -> cell_lease cell = Some (l, e) ->
  lease_of c sid l -> (now < e)%Z -> (e <= now + ttl)%Z -> keeps l ev ->
  told c sid l ev /\ exists e', cell_lease cell' = Some (l, e') /\ (e <= e' <= event_time now ev + ttl)%Z.
Proof.
  intros Hfw Hstep Hl (Hc & Hs) Hnow He Hk.
  assert (live now cell = Some l) as Hlive by (unfold live; rewrite Hl, (proj2 (Z.ltb_lt _ _)); done).
  destruct ev as [c' sid' o p r|l0 r|l0 r|dt|]; cbn [cell_step event_time forward told keeps] in *;
    try (case_decide as E; simplify_eq).
  - split.
    + destruct r as [x|]; [|done]. intros _. destruct Hstep as [[_ Hx]|[_ ?]]; [|done].
      rewrite (Hx _ eq_refl). unfold spec_acquire. by rewrite Hlive.
    + exists e. split; [|lia]. destruct Hstep as [[-> _]|[-> _]]; [|done].
      unfold spec_acquire. by rewrite Hlive.
  - split; [by destruct r|]. exists e. split; [done|lia].
  - split; [done|]. destruct Hstep as [[-> _]|[-> _]]; [|by exists e; split; [|lia]].
    unfold spec_renew. rewrite Hlive. case_match; cbn; [|by exists e; split; [|lia]].
    eexists. split; [done|]. lia.
  - split; [done|]. by exists e; split; [|lia].
  - split; [done|]. exists e. split; [|lia]. destruct Hstep as [[-> _]|[-> _]]; [|done].
    unfold spec_release, held_by. rewrite Hlive. case_bool_decide as Hb; [|done].
    exfalso. apply Hk. destruct Hb. split_and!; congruence.
  - split; [done|]. by exists e; split; [|lia].
  - split; [done|]. exists e. split; [congruence|lia].
  - split; [done|]. exists e. split; [congruence|lia].
Qed.

Lemma cell_run_protected ttl c sid now evs cell cell' l e :
  cell_run ttl c sid now evs cell cell' -> Forall forward evs -> cell_lease cell = Some (l, e) ->
  lease_of c sid l -> (foldl event_time now evs < e)%Z -> (e <= now + ttl)%Z -> Forall (keeps l) evs ->
  Forall (told c sid l) evs /\ exists e', cell_lease cell' = Some (l, e') /\ (e <= e')%Z.
Proof.
  intros Hrun. revert e. induction Hrun as [now cell|now ev evs cell cell1 cell2 Hstep Hrun IH];
    intros e HF Hl Hwf Hend He Hk.
  { split; [done|]. by exists e. }
  apply Forall_cons in HF as [Hfw HF]. apply Forall_cons in Hk as [Hk1 Hk]. cbn [foldl] in Hend.
  pose proof (forward_time (event_time now ev) evs HF).
  assert (now <= event_time now ev)%Z by (destruct ev; cbn in *; lia).
  destruct (cell_step_protected ttl c sid now ev cell cell1 l e) as (Ht & e1 & Hl1 & Hle); try done; [lia|].
  destruct (IH e1) as (Hts & e2 & ? & ?); try done; [lia|lia|].
  split; [by constructor|]. exists e2. split; [done|lia].
Qed.

(** The event grants or extends the lease [l]. *)
Definition holds_from (c : CommunityId) (sid : Uuid) (l : SessionLease) (ev : DirEvent) : Prop :=
  match ev with
  | EvAcquire c' sid' _ _ (Ok (Acquired l')) => (c', sid') = (c, sid) /\ l' = l
  | EvRenew l0 (Ok (Renewed l')) => (sl_community_id l0, sl_session_id l0) = (c, sid) /\ l' = l
  | _ => False
  end.

Lemma cell_step_holds ttl c sid now ev cell cell' l :
  cell_step ttl c sid now ev cell cell' -> holds_from c sid l ev ->
  cell_lease cell' = Some (l, now + ttl)%Z /\ event_time now ev = now.
Proof.
  destruct ev as [c' sid' o p [[l'|]|]|l0 [[l'|]|]| | |]; cbn; try done; intros Hs [E ->];
    rewrite decide_True in Hs by done; (split; [|done]);
    destruct Hs as [[-> Hx]|[_ ?]]; try done; specialize (Hx _ eq_refl);
    unfold spec_acquire, spec_renew in *; repeat case_match; cbn in *; by simplify_eq.
Qed.

(** ** The theorems *)

(** C5: No split ownership.  From the moment a lease is granted or renewed, for
    the length of its term and unless its holder releases it: every runtime that
    asks for the session is told who holds it, nobody else is granted it, and
    the holder's frames validate at every hop. *)
Theorem lease_protects_owner w evs1 ev evs2 s' now' c sid l ttl :
  ttl_ms lease_ttl = Ok ttl -> clean w -> valid_session c sid ->
  dir_run w (evs1 ++ ev :: evs2) (s', now') ->
  (N.of_nat (length evs1 + length evs2) + 2 < lua_exact)%N ->
  holds_from c sid l ev -> Forall (keeps l) evs2 ->
  (now' < foldl event_time w.2 evs1 + ttl)%Z ->
  Forall (told c sid l) evs2 /\
  lookup_lease healthy now' c sid s' = Ok (Some l) /\
  validate_fenced_header healthy now' c (fenced_header l) s' = Ok tt.
Proof.
  intros Httl Hcl Hv Hrun Hlen Hhold Hkeep Hterm.
  destruct (clean_run_simulates ttl _ _ _ c sid Httl Hcl Hrun) as (cell & Hrep & Hcr); [|done|].
  { rewrite length_app. cbn [length]. lia. }
  apply run_time in Hrun as [Ht HF]. rewrite foldl_app in Ht. cbn [foldl snd fst] in Ht, Hrep.
  apply Forall_app in HF as [_ HF]. apply Forall_cons in HF as [_ HF].
  apply cell_run_app in Hcr as (c1 & Hr1 & Hr2). inversion Hr2 as [|? ? ? ? c2 ? Hs Hr3]; subst.
  destruct (cell_step_holds _ _ _ _ _ _ _ _ Hs Hhold) as [Hl2 Het]. rewrite Het in *.
  assert (lease_of c sid l) as Hof.
  { assert (cell_own c sid c2) as Ho; [|by eapply Ho].
    eapply cell_step_own; [exact Hs|]. eapply cell_run_own; [exact Hr1|done]. }
  destruct (cell_run_protected _ _ _ _ _ _ _ _ _ Hr3 HF Hl2 Hof Hterm) as (Htold & e' & Hl & Hle);
    [lia|done|].
  assert (live (foldl event_time (foldl event_time w.2 evs1) evs2) cell = Some l) as Hlive.
  { unfold live. rewrite Hl. rewrite (proj2 (Z.ltb_lt _ _)); [done|lia]. }
  split; [done|]. split; [by rewrite (lookup_refines _ _ _ _ _ _ Hrep), Hlive|].
  assert (fh_session_id (fenced_header l) = sid) as Hsid by apply Hof.
  rewrite <- Hsid in Hrep. rewrite (validate_refines _ _ _ _ _ _ Hrep).
  destruct (cell_rep_live _ _ _ _ _ _ _ Hrep Hlive) as (_ & _ & Hg).
  unfold spec_validate. rewrite Hlive. cbn. rewrite Hg, N.ltb_irrefl. by rewrite bool_decide_eq_true_2.
Qed.

(** C29: Fencing.  In any run from an unused Redis, whatever the runtimes do and
    whatever replies are lost: when a session is granted twice, the second
    grant has the larger generation, and from then on every frame carrying the
    first grant's fence is rejected as stale, naming a generation at least as
    large as the second grant's. *)
Theorem stale_owner_fenced w evs1 l evs2 l' evs3 s' now' c sid owner profile owner' profile' :
  is_ok (ttl_ms lease_ttl) = true -> clean w -> valid_session c sid ->
  dir_run w (evs1 ++ EvAcquire c sid owner profile (Ok (Acquired l)) ::
             evs2 ++ EvAcquire c sid owner' profile' (Ok (Acquired l')) :: evs3) (s', now') ->
  (N.of_nat (length evs1 + length evs2 + length evs3) + 3 < lua_exact)%N ->
  (sl_generation l < sl_generation l')%N /\
  exists known, (sl_generation l' <= known)%N /\
    validate_fenced_header healthy now' c (fenced_header l) s'
      = Err (StaleGeneration sid (sl_generation l) known).
Proof.
  intros Httl Hcl Hv Hrun Hlen. destruct (ttl_ms lease_ttl) as [ttl|] eqn:Et; [|done].
  destruct (clean_run_simulates ttl _ _ _ c sid Et Hcl Hrun) as (cell & Hrep & Hcr); [|done|].
  { rewrite length_app. cbn [length]. rewrite length_app. cbn [length]. lia. }
  apply cell_run_app in Hcr as (c1 & Hr1 & Hr2). inversion Hr2 as [|? ? ? ? c2 ? Hs Hr3]; subst.
  apply cell_step_acquired in Hs as (_ & -> & Hg & Hl).
  apply cell_run_granted in Hr3 as (mid & Hlt & _ & _ & _ & Hle). cbn in Hlt, Hle.
  split; [done|]. exists (cell_counter cell). split; [done|].
  assert (fh_session_id (fenced_header l) = sid) as Hsid by by rewrite Hl.
  rewrite <- Hsid in Hrep |- *. cbn [fst snd] in Hrep. rewrite (validate_refines ttl _ _ _ _ cell Hrep).
  unfold spec_validate. rewrite (proj2 (N.ltb_lt _ _)); [done|]. cbn. lia.
Qed.

(** One owner at a time.  In any state a run reaches, at most one fence of a
    session is accepted, its generation is at least every generation granted so
    far, and it is accepted exactly as long as [lookup] still reports its lease. *)
Theorem one_valid_fence w evs s' now' c f :
  is_ok (ttl_ms lease_ttl) = true -> clean w -> valid_session c (fh_session_id f) ->
  dir_run w evs (s', now') -> (N.of_nat (length evs) + 1 < lua_exact)%N ->
  (validate_fenced_header healthy now' c f s' = Ok tt <->
   exists l, lookup_lease healthy now' c (fh_session_id f) s' = Ok (Some l) /\ f = fenced_header l) /\
  (validate_fenced_header healthy now' c f s' = Ok tt ->
   forall owner profile l, EvAcquire c (fh_session_id f) owner profile (Ok (Acquired l)) ∈ evs ->
     (sl_generation l <= fh_generation f)%N).
Proof.
  intros Httl Hcl Hv Hrun Hlen. destruct (ttl_ms lease_ttl) as [ttl|] eqn:Et; [|done].
  destruct (clean_run_simulates ttl _ _ _ c _ Et Hcl Hrun Hlen Hv) as (cell & Hrep & Hcr).
  cbn [fst snd] in Hrep. rewrite (validate_refines ttl _ _ _ _ cell Hrep).
  rewrite (lookup_refines _ _ _ _ _ _ Hrep). unfold spec_validate. split; [split|].
  - destruct (N.ltb_spec (fh_generation f) (cell_counter cell)); [done|].
    destruct (live now' cell) as [l|] eqn:E; [|done].
    destruct (cell_rep_live _ _ _ _ _ _ _ Hrep E) as ((_ & Hs & _) & _ & Hg).
    destruct (N.ltb_spec (cell_counter cell) (fh_generation f)); [done|]. case_bool_decide as Ho; [|done].
    intros _. exists l. split; [done|]. destruct f as [sid g o]. unfold fenced_header. cbn in *. f_equal; [done|lia|done].
  - intros (l & [= E] & ->). destruct (cell_rep_live _ _ _ _ _ _ _ Hrep E) as (_ & _ & Hg).
    rewrite E. cbn. rewrite Hg, N.ltb_irrefl. by rewrite bool_decide_eq_true_2.
  - intros Hok owner profile l Hin. apply list_elem_of_split in Hin as (e1 & e2 & ->).
    apply cell_run_granted in Hcr as (_ & _ & _ & _ & _ & Hle).
    destruct (N.ltb_spec (fh_generation f) (cell_counter cell)); [done|lia].
Qed.
End runs.

(** ** Witnesses *)

#[local] Existing Instances Sample.lib Sample.uuid_laws SampleHex.lib SampleHex.laws SampleHex.text_laws.

(** A Redis as a map of values with optional expiries, and a Lua that prints
    every number in full. *)
Module SampleRedis.
Definition answer (o : option (string * option Z)) (t : Z) : option string :=
  match o with
  | Some (v, None) => Some v
  | Some (v, Some e) => if (t <? e)%Z then Some v else None
  | None => None
  end.

Definition incr (s : gmap string (string * option Z)) (now : Z) (k : string)
    : result (gmap string (string * option Z) * N) string :=
  match answer (s !! k) now with
  | None => Ok (<[k := (to_decimal 1, None)]> s, 1%N)
  | Some v =>
      match parse_u64 v with
      | Some n =>
          if (n + 1 <? 2 ^ 63)%N
          then Ok (<[k := (to_decimal (n + 1), from_option snd None (s !! k))]> s, n + 1)%N
          else Err "overflow"
      | None => Err "not an integer"
      end
  end.

#[export] Instance lib : Redis := {|
  redis := gmap string (string * option Z);
  r_get s t k := answer (s !! k) t;
  r_incr := incr;
  r_set_px s now k v ttl := <[k := (v, Some (now + ttl)%Z)]> s;
  r_pexpire s now k ttl :=
    match answer (s !! k) now with Some v => <[k := (v, Some (now + ttl)%Z)]> s | None => s end;
  r_del s _ k := delete k s;
|}.

#[export] Instance lua : LuaLib := {| lua_tostring := to_decimal |}.
#[export] Instance lua_laws : LuaLaws.
Proof. by split. Qed.

Lemma steady_entry (s : gmap string (string * option Z)) now k v :
  steady (H := lib) s now k (Some v) -> s !! k = Some (v, None).
Proof.
  intros Hs. pose proof (Hs now (Z.le_refl now)) as H0. cbn in H0.
  destruct (s !! k) as [[v' [e|]]|] eqn:E; cbn in H0; simplify_eq; [|done].
  pose proof (Hs (Z.max now e)) as H1. cbn in H1. rewrite E in H1. cbn in H1.
  specialize (H1 ltac:(lia)). rewrite (proj2 (Z.ltb_ge _ _)) in H1 by lia. done.
Qed.

#[export] Instance laws : RedisLaws.
Proof.
  split.
  - intros s now k Hs. exists (<[k := (to_decimal 1, None)]> s).
    split_and!; [cbn; unfold incr|intros t _; cbn; by rewrite lookup_insert_eq|
                 intros k' Hk t _; cbn; by rewrite lookup_insert_ne].
    pose proof (Hs now (Z.le_refl now)) as H0. cbn in H0. by rewrite H0.
  - intros s now k n Hs Hn. apply steady_entry in Hs.
    exists (<[k := (to_decimal (n + 1), None)]> s).
    split_and!; [cbn; unfold incr; rewrite Hs; cbn|intros t _; cbn; by rewrite lookup_insert_eq|
                 intros k' Hk t _; cbn; by rewrite lookup_insert_ne].
    unfold parse_u64. rewrite parse_uint_to_decimal by lia. by rewrite (proj2 (N.ltb_lt _ _)).
  - intros s now k v ttl t _. cbn. by rewrite lookup_insert_eq.
  - intros s now k v ttl k' Hk t _. cbn. by rewrite lookup_insert_ne.
  - intros s now k v ttl Hg t Ht. cbn in *. rewrite Hg. by rewrite lookup_insert_eq.
  - intros s now k ttl k' Hk t _. cbn. case_match; [by rewrite lookup_insert_ne|done].
  - intros s now k t _. cbn. by rewrite lookup_delete_eq.
  - intros s now k k' Hk t _. cbn. by rewrite lookup_delete_ne.
Qed.

Definition community : CommunityId := from_uuid 7.
Definition session : Uuid := 9.
Definition alice : RuntimeId := mkRuntimeId "aaaaaaaaaaaaaaaaaaaaaaaaaaaaaaaa".
Definition bob : RuntimeId := mkRuntimeId "bbbbbbbbbbbbbbbbbbbbbbbbbbbbbbbb".
Definition lease_a : SessionLease := mkSessionLease community session alice 1 ReliableStream.
Definition lease_b : SessionLease := mkSessionLease community session bob 2 ReliableStream.

Definition s0 : redis := (∅ : gmap string (string * option Z)).
(** Alice acquires at time 0; Bob asks at time 10, or after expiry. *)
Definition s1 : redis := (acquire 30000 healthy 0 community session alice ReliableStream s0).1.
Definition s1' : redis := (acquire 30000 healthy 10 community session bob ReliableStream s1).1.
Definition s2 : redis := (acquire 30000 healthy 30000 community session bob ReliableStream s1).1.

Lemma s0_clean : clean (s0, 0%Z).
Proof. intros c sid _. by split; intros t _. Qed.
Lemma session_valid : valid_session community session.
Proof. by split. Qed.

Lemma alice_acquires :
  dir_step 30000 (s0, 0%Z) (EvAcquire community session alice ReliableStream (Ok (Acquired lease_a))) (s1, 0%Z).
Proof.
  apply (step_acquire _ _ _ healthy); [apply session_valid|done|].
  apply pair_eq. split; [reflexivity|vm_compute; reflexivity].
Qed.
Lemma bob_waits :
  dir_step 30000 (s1, 10%Z) (EvAcquire community session bob ReliableStream (Ok (Exists lease_a))) (s1', 10%Z).
Proof.
  apply (step_acquire _ _ _ healthy); [apply session_valid|done|].
  apply pair_eq. split; [reflexivity|vm_compute; reflexivity].
Qed.
Lemma bob_takes_over :
  dir_step 30000 (s1, 30000%Z) (EvAcquire community session bob ReliableStream (Ok (Acquired lease_b))) (s2, 30000%Z).
Proof.
  apply (step_acquire _ _ _ healthy); [apply session_valid|done|].
  apply pair_eq. split; [reflexivity|vm_compute; reflexivity].
Qed.

Definition run_a : list DirEvent :=
  [EvAcquire community session alice ReliableStream (Ok (Acquired lease_a)); EvWait 10;
   EvAcquire community session bob ReliableStream (Ok (Exists lease_a))].
Lemma run_a_ok : dir_run 30000 (s0, 0%Z) run_a (s1', 10%Z).
Proof.
  eapply run_cons; [apply alice_acquires|].
  eapply run_cons; [by apply step_wait|]. eapply run_cons; [apply bob_waits|constructor].
Qed.

Definition run_b : list DirEvent :=
  [EvAcquire community session alice ReliableStream (Ok (Acquired lease_a)); EvWait 30000;
   EvAcquire community session bob ReliableStream (Ok (Acquired lease_b))].
Lemma run_b_ok : dir_run 30000 (s0, 0%Z) run_b (s2, 30000%Z).
Proof.
  eapply run_cons; [apply alice_acquires|].
  eapply run_cons; [by apply step_wait|]. eapply run_cons; [apply bob_takes_over|constructor].
Qed.
End SampleRedis.

Import SampleRedis.

Lemma stale_owner_fenced_witness :
  (1 < 2)%N /\ exists known, (2 <= known)%N /\
    validate_fenced_header healthy 30000 community (fenced_header lease_a) s2
      = Err (StaleGeneration session 1 known).
Proof.
  apply (stale_owner_fenced 30000 (s0, 0%Z) [] lease_a [EvWait 30000] lease_b [] s2 30000 community session
           alice ReliableStream bob ReliableStream); [done|apply s0_clean|apply session_valid|apply run_b_ok|done].
Defined.

Lemma one_valid_fence_witness :
  (validate_fenced_header healthy 30000 community (fenced_header lease_b) s2 = Ok tt <->
   exists l, lookup_lease healthy 30000 community session s2 = Ok (Some l) /\
     fenced_header lease_b = fenced_header l) /\
  (validate_fenced_header healthy 30000 community (fenced_header lease_b) s2 = Ok tt ->
   forall owner profile l, EvAcquire community session owner profile (Ok (Acquired l)) ∈ run_b ->
     (sl_generation l <= 2)%N).
Proof.
  apply (one_valid_fence 30000 (s0, 0%Z) run_b s2 30000 community (fenced_header lease_b));
    [done|apply s0_clean|apply session_valid|apply run_b_ok|done].
Defined.

Lemma lease_protects_owner_witness :
  Forall (told community session lease_a)
    [EvWait 10; EvAcquire community session bob ReliableStream (Ok (Exists lease_a))] /\
  lookup_lease healthy 10 community session s1' = Ok (Some lease_a) /\
  validate_fenced_header healthy 10 community (fenced_header lease_a) s1' = Ok tt.
Proof.
  apply (lease_protects_owner 30000 (s0, 0%Z) []
           (EvAcquire community session alice ReliableStream (Ok (Acquired lease_a)))
           [EvWait 10; EvAcquire community session bob ReliableStream (Ok (Exists lease_a))]
           s1' 10 community session lease_a 30000);
    [done|apply s0_clean|apply session_valid|apply run_a_ok|done|done|by repeat constructor|done].
Defined.
