(* ===== verification/Reliable.v ===== *)
(** Reliable tunnel sessions, buzz-relay/src/tunnel/reliable.rs.

    A mesh stream is the bytes written to it so far, the answers its connection
    will give to coming writes, and the bytes that are left to read.  The
    methods of [ReliableMeshStream] are functions on a record of the struct's
    fields; the directory they consult is that of [Directory]. *)

From S2P Require Import Prelude Nostr MeshWire Directory.

Definition MAX_RELIABLE_PAYLOAD_BYTES : N := 1024 * 1024.

(** ** Frames inside a stream's data *)

Inductive ReliableWireFrame :=
| WireData (community_id : CommunityId) (payload : string)
| WireGoodbye (community_id : CommunityId) (reason : GoodbyeReason).

Inductive ReliableStreamError :=
| DirectoryErr (e : DirectoryError)
| MeshErr (e : MeshError)
| ProfileMismatch (session_id : Uuid) (expected actual : Profile)
| SenderMismatch (peer hello_sender : RuntimeId)
| UnexpectedStreamRole
| OwnerIsNotLocal (session_id : Uuid) (owner_runtime_id local_runtime_id : RuntimeId)
| UnexpectedFrame (what : string)
| FrameFenceMismatch (expected actual : FencedHeader)
| CommunityMismatch (expected actual : CommunityId)
| MalformedReliableFrame (why : string).

Definition wire_community_id (f : ReliableWireFrame) : CommunityId :=
  match f with WireData c _ | WireGoodbye c _ => c end.

Definition VERSION : N := 1.
Definition DATA : N := 1.
Definition GOODBYE : N := 2.

Definition to_wire_byte (r : GoodbyeReason) : N :=
  match r with SessionEnded => 1 | Draining => 2 | StaleGenerationReason => 3 end.

Definition from_wire_byte (b : N) : result GoodbyeReason ReliableStreamError :=
  match b with
  | 1%N => Ok SessionEnded
  | 2%N => Ok Draining
  | 3%N => Ok StaleGenerationReason
  | _ => Err (MalformedReliableFrame "unknown goodbye reason")
  end.

Section wire.
Context `{UuidBytes}.

Definition wire_encode (f : ReliableWireFrame) : string :=
  match f with
  | WireData c payload =>
      String (ascii_of_N VERSION) (String (ascii_of_N DATA) (uuid_bytes (as_uuid c) +:+ payload))
  | WireGoodbye c reason =>
      String (ascii_of_N VERSION) (String (ascii_of_N GOODBYE)
        (uuid_bytes (as_uuid c) +:+ String (ascii_of_N (to_wire_byte reason)) ""))
  end.

(** [bytes[2..18]] and [bytes[18..]] are the two parts of [split_bytes 16]
    behind the first two bytes. *)
Definition wire_decode (bytes : string) : result ReliableWireFrame ReliableStreamError :=
  if (str_len bytes <? 18)%N then Err (MalformedReliableFrame "too short")
  else match bytes with
  | String v (String kind rest) =>
      if negb (N_of_ascii v =? VERSION)%N then Err (MalformedReliableFrame "unknown version")
      else match split_bytes 16 rest with
      | Some (id, body) =>
          let community_id := from_uuid (uuid_of_bytes id) in
          if (N_of_ascii kind =? DATA)%N then Ok (WireData community_id body)
          else if (N_of_ascii kind =? GOODBYE)%N then
            if negb (str_len bytes =? 19)%N then Err (MalformedReliableFrame "bad goodbye length")
            else match body with
                 | String b _ =>
                     let? reason := from_wire_byte (N_of_ascii b) in Ok (WireGoodbye community_id reason)
                 | EmptyString => Err (MalformedReliableFrame "bad goodbye length")
                 end
          else Err (MalformedReliableFrame "unknown kind")
      | None => Err (MalformedReliableFrame "too short")
      end
  | _ => Err (MalformedReliableFrame "too short")
  end.
End wire.

(** ** Streams *)

Record MeshStream := mkMeshStream {
  ms_out : string;                  (* bytes written *)
  ms_link : list (option string);   (* answers to the coming writes; none: accepted *)
  ms_finished : bool;
  ms_in : string;                   (* bytes left to read *)
}.

Record ReliableMeshStream := mkReliable {
  rs_fenced : FencedHeader;
  rs_stream : MeshStream;
  rs_community_id : option CommunityId;
}.

Inductive ReliableFrame := RData (bytes : string) | RGoodbye (reason : GoodbyeReason).

Definition ReliableMeshStream_new (fenced : FencedHeader) (stream : MeshStream) : ReliableMeshStream :=
  mkReliable fenced stream None.
Definition with_community (c : CommunityId) (st : ReliableMeshStream) : ReliableMeshStream :=
  mkReliable (rs_fenced st) (rs_stream st) (Some c).

(** [slice::chunks(n)]: pieces of [n] bytes, the last one shorter. *)
Fixpoint chunks (fuel : nat) (n : N) (s : string) : list string :=
  match fuel, s with
  | S fuel', String _ _ =>
      match split_bytes n s with
      | Some (l, r) => l :: chunks fuel' n r
      | None => [s]
      end
  | _, _ => []
  end.
Definition chunks_of (n : N) (s : string) : list string := chunks (String.length s) n s.

Section streams.
Context `{Postcard MeshStreamFrame, UuidBytes, Redis, HexLib, NostrLib}.

(** [MeshStream::send_frame]. *)
Definition stream_send (frame : MeshStreamFrame) (m : MeshStream) : MeshStream * result unit MeshError :=
  match send_frame (default None (head (ms_link m))) frame with
  | Ok bytes => (mkMeshStream (ms_out m +:+ bytes) (tail (ms_link m)) (ms_finished m) (ms_in m), Ok tt)
  | Err e => (mkMeshStream (ms_out m) (tail (ms_link m)) (ms_finished m) (ms_in m), Err e)
  end.

(** [MeshStream::finish], refused by the connection when it was finished before. *)
Definition stream_finish (m : MeshStream) : MeshStream * result unit MeshError :=
  if ms_finished m then (m, Err (Transport "stream closed"))
  else (mkMeshStream (ms_out m) (ms_link m) true (ms_in m), Ok tt).

Definition ensure_outbound_community (c : CommunityId) (st : ReliableMeshStream)
    : ReliableMeshStream * result unit ReliableStreamError :=
  match rs_community_id st with
  | Some expected =>
      if bool_decide (expected <> c) then (st, Err (CommunityMismatch expected c)) else (st, Ok tt)
  | None => (with_community c st, Ok tt)
  end.

Definition set_stream (m : MeshStream) (st : ReliableMeshStream) : ReliableMeshStream :=
  mkReliable (rs_fenced st) m (rs_community_id st).

Fixpoint send_chunks (c : CommunityId) (cs : list string) (st : ReliableMeshStream)
    : ReliableMeshStream * result unit ReliableStreamError :=
  match cs with
  | [] => (st, Ok tt)
  | chunk :: cs' =>
      let payload := wire_encode (WireData c chunk) in
      match stream_send (FrameData (rs_fenced st) payload) (rs_stream st) with
      | (m, Err e) => (set_stream m st, Err (MeshErr e))
      | (m, Ok _) => send_chunks c cs' (set_stream m st)
      end
  end.

Definition send_bytes (c : CommunityId) (bytes : string) (st : ReliableMeshStream)
    : ReliableMeshStream * result unit ReliableStreamError :=
  match ensure_outbound_community c st with
  | (st, Err e) => (st, Err e)
  | (st, Ok _) => send_chunks c (chunks_of MAX_RELIABLE_PAYLOAD_BYTES bytes) st
  end.

Definition finish (st : ReliableMeshStream) : ReliableMeshStream * result unit ReliableStreamError :=
  match stream_finish (rs_stream st) with
  | (m, Ok _) => (set_stream m st, Ok tt)
  | (m, Err e) => (set_stream m st, Err (MeshErr e))
  end.

Definition send_goodbye (c : CommunityId) (reason : GoodbyeReason) (st : ReliableMeshStream)
    : ReliableMeshStream * result unit ReliableStreamError :=
  match ensure_outbound_community c st with
  | (st, Err e) => (st, Err e)
  | (st, Ok _) =>
      let payload := wire_encode (WireGoodbye c reason) in
      match stream_send (FrameData (rs_fenced st) payload) (rs_stream st) with
      | (m, Err e) => (set_stream m st, Err (MeshErr e))
      | (m, Ok _) => finish (set_stream m st)
      end
  end.

(** The directory as one call meets it. *)
Record DirView := mkDirView { dv_env : CallEnv; dv_now : Z; dv_redis : redis }.

Definition validate_frame_fence (dir : DirView) (c : CommunityId) (fenced : FencedHeader)
    (st : ReliableMeshStream) : ReliableMeshStream * result unit ReliableStreamError :=
  if bool_decide (fenced <> rs_fenced st) then (st, Err (FrameFenceMismatch (rs_fenced st) fenced))
  else match rs_community_id st with
       | Some expected =>
           if bool_decide (expected <> c) then (st, Err (CommunityMismatch expected c))
           else match validate_fenced_header (dv_env dir) (dv_now dir) c fenced (dv_redis dir) with
                | Err e => (st, Err (MeshErr e))
                | Ok _ => (st, Ok tt)
                end
       | None =>
           match validate_fenced_header (dv_env dir) (dv_now dir) c fenced (dv_redis dir) with
           | Err e => (st, Err (MeshErr e))
           | Ok _ => (with_community c st, Ok tt)
           end
       end.

Definition recv_validated (dir : DirView) (st : ReliableMeshStream)
    : ReliableMeshStream * result (option ReliableFrame) ReliableStreamError :=
  let m := rs_stream st in
  let '(answer, rest) := recv_frame (ms_in m) in
  let st := set_stream (mkMeshStream (ms_out m) (ms_link m) (ms_finished m) rest) st in
  match answer with
  | Err e => (st, Err (MeshErr e))
  | Ok None => (st, Ok None)
  | Ok (Some (FrameData fenced payload)) =>
      match wire_decode payload with
      | Err e => (st, Err e)
      | Ok frame =>
          match validate_frame_fence dir (wire_community_id frame) fenced st with
          | (st, Err e) => (st, Err e)
          | (st, Ok _) =>
              (st, Ok (Some (match frame with
                             | WireData _ payload => RData payload
                             | WireGoodbye _ reason => RGoodbye reason
                             end)))
          end
      end
  | Ok (Some (FrameGoodbye _ _)) => (st, Err (UnexpectedFrame "goodbye"))
  | Ok (Some (FrameHello _)) => (st, Err (UnexpectedFrame "hello"))
  | Ok (Some (FrameGossip _)) => (st, Err (UnexpectedFrame "gossip"))
  end.

(** ** Routing *)

Inductive ReliableJoin :=
| Owned (lease : SessionLease)
| Forwarded (lease : SessionLease) (stream : ReliableMeshStream).

Record ReliableInbound := mkInbound {
  in_fenced : FencedHeader;
  in_from : RuntimeId;
  in_stream : ReliableMeshStream;
}.

(** [join]; [open_session_stream] is the transport's answer. *)
Definition join `{LuaLib} (lease_ttl : N) (env : CallEnv) (now : Z)
    (open_session_stream : RuntimeId -> StreamHello -> result MeshStream MeshError)
    (local_runtime_id : RuntimeId) (c : CommunityId) (sid : Uuid) (s : redis)
    : redis * result ReliableJoin ReliableStreamError :=
  let '(s', r) := acquire lease_ttl env now c sid local_runtime_id ReliableStream s in
  (s', match r with
       | Err e => Err (DirectoryErr e)
       | Ok (Acquired lease) => Ok (Owned lease)
       | Ok (Exists lease) =>
           if bool_decide (sl_profile lease <> ReliableStream) then
             Err (ProfileMismatch sid ReliableStream (sl_profile lease))
           else if bool_decide (sl_owner_runtime_id lease = local_runtime_id) then Ok (Owned lease)
           else
             let fenced := fenced_header lease in
             let hello := mkStreamHello local_runtime_id (SessionRole fenced ReliableStream) in
             match open_session_stream (sl_owner_runtime_id lease) hello with
             | Err e => Err (MeshErr e)
             | Ok stream => Ok (Forwarded lease (ReliableMeshStream_new fenced stream))
             end
       end).

Definition accept_inbound (local_runtime_id from : RuntimeId) (hello : StreamHello) (stream : MeshStream)
    : result ReliableInbound ReliableStreamError :=
  if bool_decide (hello_sender hello <> from) then Err (SenderMismatch from (hello_sender hello))
  else match hello_role hello with
       | Control => Err UnexpectedStreamRole
       | SessionRole fenced profile =>
           if bool_decide (profile <> ReliableStream) then
             Err (ProfileMismatch (fh_session_id fenced) ReliableStream profile)
           else if bool_decide (fh_owner_runtime_id fenced <> local_runtime_id) then
             Err (OwnerIsNotLocal (fh_session_id fenced) (fh_owner_runtime_id fenced) local_runtime_id)
           else Ok (mkInbound fenced from (ReliableMeshStream_new fenced stream))
       end.

(** ** Renewal *)

(** What wakes the renewal task: the caller's cancellation, or a tick, at which
    time and in which environment, with the Redis of that moment.  Other
    runtimes change Redis between ticks, so each wake-up brings its own state. *)
Inductive Wake := Cancelled | Tick (env : CallEnv) (now : Z) (s : redis).

(** The renewal loop up to its exit: whether the caller cancelled, or [None]
    while it goes on.  A lost lease or an error cancels [lost]. *)
Fixpoint renew_loop (lease_ttl : N) (lease : SessionLease) (wakes : list Wake) : option bool :=
  match wakes with
  | [] => None
  | Cancelled :: _ => Some true
  | Tick env now s :: wakes' =>
      match (renew lease_ttl env now lease s).2 with
      | Ok (Renewed _) => renew_loop lease_ttl lease wakes'
      | Ok (Lost _ _) | Err _ => Some false
      end
  end.

(** The task of [spawn_lease_renewer_with_interval]: the state it leaves in
    Redis and whether the [lost] token is cancelled. *)
Definition renewer (lease_ttl : N) (lease : SessionLease) (wakes : list Wake)
    (env : CallEnv) (now : Z) (s : redis) : option (redis * bool) :=
  match renew_loop lease_ttl lease wakes with
  | None => None
  | Some caller_cancelled =>
      let '(s', r) := release env now lease s in
      let lost := negb caller_cancelled in
      Some (s', match r with
                | Ok (Released _) => lost
                | Ok (NotOwner _ _) => true
                | Err _ => lost || negb caller_cancelled
                end)
  end.
End streams.
