(* ===== verification/ReliableTheorems.v ===== *)
(** Correctness of reliable tunnel sessions: the frame codec is exact, what one
    side sends the other receives in order and nothing else, a stream never
    leaves its community or its fence, joins route to the lease holder, and the
    renewal task reports every loss. *)

From S2P Require Import Prelude Nostr MeshWire Directory DirectorySpec DirectoryRun Reliable.

(** ** The codec *)

Section codec.
Context `{UuidBytesLaws}.

Lemma wire_decode_encode f :
  valid_uuid (as_uuid (wire_community_id f)) -> wire_decode (wire_encode f) = Ok f.
Proof.
  intros Hv. unfold wire_decode.
  assert (forall c rest, split_bytes 16 (uuid_bytes c +:+ rest) = Some (uuid_bytes c, rest)) as Hsp.
  { intros c rest. rewrite <- (uuid_bytes_len c). apply split_bytes_app. }
  destruct f as [[c] p|[c] r]; cbn [wire_encode wire_community_id as_uuid] in *;
    autorewrite with crew; rewrite uuid_bytes_len.
  - rewrite (proj2 (N.ltb_ge _ _)) by lia. cbn. rewrite Hsp.
    by rewrite uuid_of_bytes_bytes.
  - change (str_len "") with 0%N. cbn. rewrite Hsp.
    rewrite uuid_of_bytes_bytes by done. by destruct r.
Qed.

Lemma from_wire_byte_ok b r : from_wire_byte b = Ok r -> to_wire_byte r = b.
Proof.
  unfold from_wire_byte. destruct b as [|[[]|[]|]]; intros; simplify_eq; done.
Qed.

Lemma wire_encode_decode b f : wire_decode b = Ok f -> wire_encode f = b.
Proof.
  unfold wire_decode. destruct (str_len b <? 18)%N; [done|].
  destruct b as [|v [|kind rest]]; try done.
  destruct (N.eqb_spec (N_of_ascii v) VERSION) as [Hv|]; [|done]. cbn [negb].
  destruct (split_bytes 16 rest) as [[id body]|] eqn:Hsp; [|done].
  apply split_bytes_some in Hsp as [-> Hid].
  apply (f_equal ascii_of_N) in Hv. rewrite ascii_N_embedding in Hv. subst v.
  destruct (N.eqb_spec (N_of_ascii kind) DATA) as [Hk|_].
  - apply (f_equal ascii_of_N) in Hk. rewrite ascii_N_embedding in Hk. subst kind.
    intros [= <-]. cbn. by rewrite uuid_bytes_of_bytes.
  - destruct (N.eqb_spec (N_of_ascii kind) GOODBYE) as [Hk|_]; [|done].
    apply (f_equal ascii_of_N) in Hk. rewrite ascii_N_embedding in Hk. subst kind.
    match goal with |- context [(?n =? 19)%N] => destruct (N.eqb_spec n 19) as [Hl|] end; [|done]. cbn [negb].
    autorewrite with crew in Hl. rewrite Hid in Hl.
    destruct body as [|x body]; [done|]. rewrite str_len_cons in Hl.
    destruct body as [|y body]; [|rewrite str_len_cons in Hl; lia].
    destruct (from_wire_byte (N_of_ascii x)) as [r|] eqn:Hr; [|done]. intros [= <-].
    apply from_wire_byte_ok in Hr. cbn [wire_encode as_uuid]. rewrite uuid_bytes_of_bytes by done.
    by rewrite Hr, ascii_N_embedding.
Qed.

(** The frame codec of reliable streams is exact: every frame of a real
    community decodes to itself, and a byte string that decodes at all is the
    encoding of the frame it decodes to, so each frame has one encoding. *)
Theorem reliable_frame_codec f b :
  valid_uuid (as_uuid (wire_community_id f)) ->
  wire_decode (wire_encode f) = Ok f /\ (wire_decode b = Ok f <-> b = wire_encode f).
Proof.
  intros Hv. split; [by apply wire_decode_encode|]. split.
  - intros E. symmetry. by apply wire_encode_decode.
  - intros ->. by apply wire_decode_encode.
Qed.
End codec.

(** ** Chunks *)

Lemma chunks_spec fuel n s :
  (0 < n)%N -> (String.length s <= fuel)%nat ->
  foldr (fun a b => a +:+ b) "" (chunks fuel n s) = s /\
  Forall (fun c => (0 < str_len c <= n)%N) (chunks fuel n s).
Proof.
  intros Hn. revert s. induction fuel as [|fuel IH]; intros s Hf.
  - destruct s; [by split|cbn in Hf; lia].
  - destruct s as [|a s]; [by split|]. cbn [chunks].
    destruct (split_bytes n (String a s)) as [[l r]|] eqn:E.
    + apply split_bytes_some in E as [E El]. rewrite E in Hf |- *.
      assert (0 < String.length l)%nat by (unfold str_len in El; lia).
      rewrite string_length_app in Hf.
      destruct (IH r ltac:(lia)) as [IH1 IH2]. cbn [foldr]. rewrite IH1.
      split; [done|]. constructor; [lia|done].
    + cbn [foldr]. rewrite string_app_nil_r. split; [done|]. constructor; [|constructor].
      split; [rewrite str_len_cons; lia|]. apply N.nlt_ge. intros Hlt.
      clear IH Hf. revert n E Hn Hlt. generalize (String a s) as t. clear a s fuel.
      induction t as [|x t IH]; intros n E Hn Hlt; [cbn in Hlt; unfold str_len in Hlt; cbn in Hlt; lia|].
      cbn [split_bytes] in E. rewrite (proj2 (N.eqb_neq n 0)) in E by lia.
      destruct (split_bytes (n - 1) t) as [[]|] eqn:E'; [done|]. rewrite str_len_cons in Hlt.
      destruct (N.eq_dec n 1) as [->|Hn1]; [by destruct t|].
      apply (IH (n - 1)%N E'); lia.
Qed.

(** ** Transfer *)

Section transfer.
Context `{PostcardLaws MeshStreamFrame, UuidBytesLaws, Redis, HexLib, NostrLib}.

Lemma stream_send_ok frame m m' :
  stream_send frame m = (m', Ok tt) ->
  exists b, send_frame None frame = Ok b /\ ms_out m' = ms_out m +:+ b.
Proof.
  unfold stream_send. destruct (send_frame _ frame) as [b|] eqn:E; [|done]. intros [= <-].
  exists b. split; [|done]. unfold send_frame in *. destruct (encode frame); [|done].
  case_match; [done|]. by destruct (default None (head (ms_link m))).
Qed.

Definition data_frame (fenced : FencedHeader) (c : CommunityId) (chunk : string) : MeshStreamFrame :=
  FrameData fenced (wire_encode (WireData c chunk)).

Lemma send_chunks_ok c cs st st' :
  send_chunks c cs st = (st', Ok tt) ->
  exists out, send_all (data_frame (rs_fenced st) c <$> cs) = Ok out /\
    ms_out (rs_stream st') = ms_out (rs_stream st) +:+ out /\
    rs_fenced st' = rs_fenced st /\ rs_community_id st' = rs_community_id st.
Proof.
  revert st. induction cs as [|x cs IH]; intros st Hs; cbn [send_chunks] in Hs.
  - simplify_eq. exists "". by rewrite string_app_nil_r.
  - destruct (stream_send _ _) as [m [[]|]] eqn:E; [|done].
    apply stream_send_ok in E as (b & Hb & Hm).
    apply IH in Hs as (out & Ho & Hout & Hf & Hc). cbn [set_stream rs_stream rs_fenced rs_community_id] in *.
    exists (b +:+ out). split_and!; [|by rewrite Hout, Hm, string_app_assoc|done|done].
    cbn [fmap list_fmap send_all]. unfold data_frame at 1. by rewrite Hb, Ho.
Qed.

Lemma recv_validated_frame dir st c fr b rest :
  wire_community_id fr = c -> valid_uuid (as_uuid c) ->
  (rs_community_id st = None \/ rs_community_id st = Some c) ->
  validate_fenced_header (dv_env dir) (dv_now dir) c (rs_fenced st) (dv_redis dir) = Ok tt ->
  send_frame None (FrameData (rs_fenced st) (wire_encode fr)) = Ok b ->
  ms_in (rs_stream st) = b +:+ rest ->
  exists st', recv_validated dir st =
      (st', Ok (Some (match fr with WireData _ p => RData p | WireGoodbye _ r => RGoodbye r end))) /\
    rs_fenced st' = rs_fenced st /\ rs_community_id st' = Some c /\ ms_in (rs_stream st') = rest.
Proof.
  intros <- Hv Hc Hval Hsend Hin. unfold recv_validated. rewrite Hin, (recv_send_frame _ _ _ Hsend).
  rewrite wire_decode_encode by done. unfold validate_frame_fence. cbn [set_stream rs_fenced rs_community_id].
  rewrite bool_decide_eq_false_2 by naive_solver.
  destruct Hc as [Hc|Hc]; rewrite Hc; [|rewrite bool_decide_eq_false_2 by naive_solver]; rewrite Hval;
    (eexists; split_and!; [reflexivity|done|cbn; by rewrite ?Hc|done]).
Qed.

(** Reading until the views of the directory run out. *)
Fixpoint recv_many (dirs : list DirView) (st : ReliableMeshStream)
    : ReliableMeshStream * list (result (option ReliableFrame) ReliableStreamError) :=
  match dirs with
  | [] => (st, [])
  | d :: dirs' =>
      let '(st1, r) := recv_validated d st in
      let '(st2, rs) := recv_many dirs' st1 in (st2, r :: rs)
  end.

Lemma recv_many_app d1 d2 st :
  recv_many (d1 ++ d2) st =
    let '(st1, r1) := recv_many d1 st in let '(st2, r2) := recv_many d2 st1 in (st2, r1 ++ r2).
Proof.
  revert st. induction d1 as [|d d1 IH]; intros st; cbn.
  - by destruct (recv_many d2 st).
  - destruct (recv_validated d st) as [st1 r]. rewrite IH.
    destruct (recv_many d1 st1) as [st2 r1]. by destruct (recv_many d2 st2).
Qed.

Definition accepts (c : CommunityId) (fenced : FencedHeader) (d : DirView) : Prop :=
  validate_fenced_header (dv_env d) (dv_now d) c fenced (dv_redis d) = Ok tt.

Lemma recv_chunks dirs c cs st out rest :
  valid_uuid (as_uuid c) -> Forall (accepts c (rs_fenced st)) dirs -> length dirs = length cs ->
  (rs_community_id st = None \/ rs_community_id st = Some c) ->
  send_all (data_frame (rs_fenced st) c <$> cs) = Ok out -> ms_in (rs_stream st) = out +:+ rest ->
  exists st', recv_many dirs st = (st', (fun x => Ok (Some (RData x))) <$> cs) /\
    rs_fenced st' = rs_fenced st /\ ms_in (rs_stream st') = rest /\
    (rs_community_id st' = None \/ rs_community_id st' = Some c).
Proof.
  intros Hv. revert cs st out. induction dirs as [|d dirs IH]; intros [|x cs] st out HF Hl Hc Hs Hin; try done.
  { exists st. cbn in *. simplify_eq. by rewrite string_app_nil_l in Hin. }
  apply Forall_cons in HF as [Hd HF]. cbn [fmap list_fmap send_all] in Hs.
  destruct (send_frame None _) as [b|] eqn:Hb; [|done].
  destruct (send_all _) as [bs|] eqn:Hbs; simplify_eq. rewrite string_app_assoc in Hin.
  destruct (recv_validated_frame d st c (WireData c x) b (bs +:+ rest)) as (st1 & Hr & Hf1 & Hc1 & Hi1); try done.
  destruct (IH cs st1 bs) as (st2 & Hm & Hf2 & Hi2 & Hc2); [by rewrite Hf1|cbn in Hl; lia|by right|by rewrite Hf1|done|].
  exists st2. split_and!; [|congruence|done|done]. cbn [recv_many fmap list_fmap]. by rewrite Hr, Hm.
Qed.

(** C37: End to end.  What one side sends with [send_bytes] and closes with
    [send_goodbye], a receiver of the same fence whose directory still accepts
    that fence receives exactly: the bytes in order, cut into non-empty pieces
    of at most one mebibyte, then the close reason, then the end of the stream;
    and the receiver's community is the sender's. *)
Theorem reliable_transfer fenced m0 c bytes reason st1 st2 m dirs :
  valid_uuid (as_uuid c) -> ms_out m0 = "" ->
  send_bytes c bytes (ReliableMeshStream_new fenced m0) = (st1, Ok tt) ->
  send_goodbye c reason st1 = (st2, Ok tt) ->
  ms_in m = ms_out (rs_stream st2) -> Forall (accepts c fenced) dirs ->
  length dirs = (length (chunks_of MAX_RELIABLE_PAYLOAD_BYTES bytes) + 2)%nat ->
  exists pieces st', 
    recv_many dirs (ReliableMeshStream_new fenced m)
      = (st', ((fun x => Ok (Some (RData x))) <$> pieces) ++ [Ok (Some (RGoodbye reason)); Ok None]) /\
    foldr (fun a b => a +:+ b) "" pieces = bytes /\
    Forall (fun p => (0 < str_len p <= MAX_RELIABLE_PAYLOAD_BYTES)%N) pieces /\
    rs_community_id st' = Some c.
Proof.
  intros Hv Hm0 Hsb Hsg Hin HF Hlen.
  set (cs := chunks_of MAX_RELIABLE_PAYLOAD_BYTES bytes) in *.
  destruct (chunks_spec (String.length bytes) MAX_RELIABLE_PAYLOAD_BYTES bytes) as [Hcat Hsize]; [done|lia|].
  fold (chunks_of MAX_RELIABLE_PAYLOAD_BYTES bytes) in Hcat, Hsize. fold cs in Hcat, Hsize.
  unfold send_bytes in Hsb. cbn [ensure_outbound_community rs_community_id ReliableMeshStream_new] in Hsb.
  fold cs in Hsb. apply send_chunks_ok in Hsb as (out & Hout & Hms & Hf1 & Hc1). cbn in Hms, Hf1, Hc1.
  rewrite Hm0, string_app_nil_l in Hms.
  unfold send_goodbye, ensure_outbound_community in Hsg. rewrite Hc1, bool_decide_eq_false_2 in Hsg by naive_solver.
  destruct (stream_send _ _) as [m2 [[]|]] eqn:Hs2; [|done]. apply stream_send_ok in Hs2 as (b & Hb & Hm2).
  unfold finish in Hsg. destruct (stream_finish _) as [m3 [[]|]] eqn:Hfin; [|done].
  injection Hsg as Hst2. subst st2. cbn [set_stream rs_stream] in Hin, Hfin.
  assert (ms_out m3 = ms_out m2) as Hm3.
  { unfold stream_finish in Hfin. by destruct (ms_finished m2); simplify_eq. }
  rewrite Hm3, Hm2, Hms in Hin. rewrite Hf1 in Hb.
  rewrite <- (take_drop (length cs) dirs) in HF |- *.
  assert (length (take (length cs) dirs) = length cs) as Hl1 by (rewrite length_take; lia).
  assert (length (drop (length cs) dirs) = 2%nat) as Hl2 by (rewrite length_drop; lia).
  revert HF Hl1 Hl2. generalize (take (length cs) dirs) as d1, (drop (length cs) dirs) as d2.
  intros d1 d2 HF Hl1 Hl2.
  destruct d2 as [|da [|db [|]]]; try done.
  apply Forall_app in HF as [HF1 HF2].
  apply Forall_cons in HF2 as [Hda HF2].
  destruct (recv_chunks d1 c cs (ReliableMeshStream_new fenced m) out b) as (sa & Hra & Hfa & Hia & Hca);
    [done|done|done|by left|done|done|].
  rewrite <- (string_app_nil_r b) in Hia.
  destruct (recv_validated_frame da sa c (WireGoodbye c reason) b "") as (sb & Hrb & Hfb & Hcb & Hib);
    [done|done|done|by rewrite Hfa|by rewrite Hfa|done|].
  exists cs. eexists. split_and!; [|done|done|].
  - rewrite recv_many_app, Hra. cbn [recv_many]. rewrite Hrb. unfold recv_validated. rewrite Hib.
    cbn. reflexivity.
  - done.
Qed.

(** Tenant and fence isolation.  A reliable stream yields a frame exactly
    when the next mesh frame carries the stream's own fence, decodes, belongs
    to the community the stream is pinned to (or pins it), and the directory
    accepts that fence for that community now; the stream is then pinned to it. *)
Theorem recv_validated_exact dir st st' fr :
  recv_validated dir st = (st', Ok (Some fr)) <->
  exists payload rest wf,
    recv_frame (ms_in (rs_stream st)) = (Ok (Some (FrameData (rs_fenced st) payload)), rest) /\
    wire_decode payload = Ok wf /\
    match wf with WireData _ p => fr = RData p | WireGoodbye _ r => fr = RGoodbye r end /\
    (forall c, rs_community_id st = Some c -> wire_community_id wf = c) /\
    accepts (wire_community_id wf) (rs_fenced st) dir /\
    st' = mkReliable (rs_fenced st)
            (mkMeshStream (ms_out (rs_stream st)) (ms_link (rs_stream st)) (ms_finished (rs_stream st)) rest)
            (Some (wire_community_id wf)).
Proof.
  unfold recv_validated, accepts. split.
  - destruct (recv_frame _) as [[[[]|]|] rest] eqn:Hr; try done.
    destruct (wire_decode payload) as [wf|] eqn:Hd; [|done].
    unfold validate_frame_fence. cbn [set_stream rs_fenced rs_community_id].
    case_bool_decide as Hf; [done|]. subst fenced.
    destruct (rs_community_id st) as [c|] eqn:Hc.
    + case_bool_decide as Hcc; [done|]. subst c.
      destruct (validate_fenced_header _ _ _ _ _) as [[]|] eqn:Hval; [|done]. intros [= <- <-].
      exists payload, rest, wf. split_and!; try done; [by destruct wf|by intros ? [= <-]|].
      unfold set_stream. by rewrite Hc.
    + destruct (validate_fenced_header _ _ _ _ _) as [[]|] eqn:Hval; [|done]. intros [= <- <-].
      exists payload, rest, wf. split_and!; try done. by destruct wf.
  - intros (payload & rest & wf & Hr & Hd & Hfr & Hc & Hval & ->). rewrite Hr, Hd.
    unfold validate_frame_fence. cbn [set_stream rs_fenced rs_community_id].
    rewrite bool_decide_eq_false_2 by naive_solver. rewrite Hval.
    destruct (rs_community_id st) as [c|] eqn:E.
    + rewrite bool_decide_eq_false_2 by (rewrite (Hc c); naive_solver).
      rewrite (Hc c eq_refl). unfold set_stream. rewrite E. by destruct wf; subst fr.
    + by destruct wf; subst fr.
Qed.
End transfer.

(** ** Routing and renewal *)

Section routing.
Context `{Postcard MeshStreamFrame, UuidBytes, RedisLaws, LuaLaws, HexLaws, !HexTextLaws, UuidTextLaws}.

Lemma ttl_ms_positive millis ttl : ttl_ms millis = Ok ttl -> (0 < ttl)%Z.
Proof.
  unfold ttl_ms. case_match eqn:E; [|done]. intros [= <-].
  apply andb_true_iff in E as [_ E%N.ltb_lt]. lia.
Qed.

(** Joins route to the lease holder.  With Redis reachable, a runtime that
    joins a session is told it owns it exactly when the directory's lease then
    names it; otherwise it gets a stream, pinned to the current fence, to the
    runtime the lease names.  It fails only on a session of another profile or
    when the transport cannot reach the owner. *)
Theorem join_routes lease_ttl ttl now open local c sid s cell s' r :
  ttl_ms lease_ttl = Ok ttl -> valid_session c sid -> cell_rep ttl now c sid s cell ->
  (cell_counter cell + 1 < lua_exact)%N -> String.length (rid_bytes local) = 32%nat ->
  join lease_ttl healthy now open local c sid s = (s', r) ->
  exists lease, lookup_lease healthy now c sid s' = Ok (Some lease) /\
    r = if bool_decide (sl_profile lease <> ReliableStream) then
          Err (ProfileMismatch sid ReliableStream (sl_profile lease))
        else if bool_decide (sl_owner_runtime_id lease = local) then Ok (Owned lease)
        else match open (sl_owner_runtime_id lease)
                     (mkStreamHello local (SessionRole (fenced_header lease) ReliableStream)) with
             | Ok stream => Ok (Forwarded lease (ReliableMeshStream_new (fenced_header lease) stream))
             | Err e => Err (MeshErr e)
             end.
Proof.
  intros Httl Hv Hrep Hb Hlen. unfold join.
  destruct (acquire_refines lease_ttl ttl healthy now c sid local ReliableStream s cell Httl Hv Hrep Hb Hlen)
    as ((cell' & Hrep' & Hatt) & _ & Hr).
  destruct (acquire _ _ _ _ _ _ _ s) as [s1 r1]. cbn [fst snd] in *. specialize (Hr eq_refl). subst r1.
  destruct Hatt as [[-> _]|[_ ?]]; [|done].
  apply ttl_ms_positive in Httl.
  unfold spec_acquire in *. destruct (live now cell) as [l|] eqn:Hl; cbn [fst snd] in *; intros [= <- <-].
  - exists l. rewrite (lookup_refines _ _ _ _ _ _ Hrep'), Hl. done.
  - eexists. rewrite (lookup_refines _ _ _ _ _ _ Hrep').
    unfold live. cbn [cell_lease]. rewrite (proj2 (Z.ltb_lt _ _)) by lia. split; [done|].
    cbn [sl_profile sl_owner_runtime_id].
    rewrite bool_decide_eq_false_2 by naive_solver. by rewrite bool_decide_eq_true_2.
Qed.

(** The renewal task reports every loss: its [lost] signal stays quiet
    exactly when the caller stopped it after nothing but successful renewals
    and the final release did not find another owner. *)
Theorem renewer_reports_loss lease_ttl lease wakes env now s s' lost :
  renewer lease_ttl lease wakes env now s = Some (s', lost) ->
  (lost = false <->
   (exists ticks rest, wakes = ticks ++ Cancelled :: rest /\
      Forall (fun w => exists env0 now0 s0 l, w = Tick env0 now0 s0 /\
                (renew lease_ttl env0 now0 lease s0).2 = Ok (Renewed l)) ticks) /\
   (forall current known, (release env now lease s).2 <> Ok (NotOwner current known))).
Proof.
  assert (renew_loop lease_ttl lease wakes = Some true <->
    exists ticks rest, wakes = ticks ++ Cancelled :: rest /\
      Forall (fun w => exists env0 now0 s0 l, w = Tick env0 now0 s0 /\
                (renew lease_ttl env0 now0 lease s0).2 = Ok (Renewed l)) ticks) as Hloop.
  { clear. induction wakes as [|[|env0 now0 s0] wakes IH]; cbn [renew_loop].
    - split; [done|]. intros (ticks & rest & E & _). by destruct ticks.
    - split; [|done]. intros _. by exists [], wakes.
    - destruct (renew lease_ttl env0 now0 lease s0).2 as [[l|]|] eqn:E.
      + rewrite IH. split.
        * intros (ticks & rest & -> & HF). exists (Tick env0 now0 s0 :: ticks), rest.
          split; [done|]. constructor; [by exists env0, now0, s0, l|done].
        * intros (ticks & rest & Hw & HF). destruct ticks as [|t ticks]; simplify_eq/=.
          apply Forall_cons in HF as [_ HF]. by exists ticks, rest.
      + split; [done|]. intros (ticks & rest & Hw & HF). destruct ticks as [|t ticks]; simplify_eq/=.
        apply Forall_cons in HF as [(e1 & n1 & s1 & l & [= <- <- <-] & Hr) _]. congruence.
      + split; [done|]. intros (ticks & rest & Hw & HF). destruct ticks as [|t ticks]; simplify_eq/=.
        apply Forall_cons in HF as [(e1 & n1 & s1 & l & [= <- <- <-] & Hr) _]. congruence. }
  rewrite <- Hloop. unfold renewer. destruct (renew_loop lease_ttl lease wakes) as [b|]; [|done].
  destruct (release env now lease s) as [s1 r]. cbn [snd]. intros [= <- <-].
  destruct b, r as [[|]|]; cbn; naive_solver.
Qed.
End routing.

(** ** Witnesses *)

(** A codec that carries the data frames of one fence. *)
Module SampleReliable.
Import SampleRedis SampleUuid.

Definition fence : FencedHeader := fenced_header lease_a.
#[export] Instance codec : Postcard MeshStreamFrame := {|
  to_extend f :=
    match f with
    | FrameData h p => if bool_decide (h = fence) then Ok p else Err "unsupported"
    | _ => Err "unsupported"
    end;
  from_bytes b := Ok (FrameData fence b);
|}.
#[export] Instance codec_laws : PostcardLaws MeshStreamFrame.
Proof. split. intros [] b; cbn; try done. case_bool_decide; [|done]. intros [= <-]. by subst. Qed.

Definition fresh : MeshStream := mkMeshStream "" [] false "".
#[local] Existing Instances Sample.lib SampleHex.lib.
Definition sent := (send_bytes community "hello" (ReliableMeshStream_new fence fresh)).1.
Definition closed := (send_goodbye community SessionEnded sent).1.
Definition inbound : MeshStream := mkMeshStream "" [] false (ms_out (rs_stream closed)).
Definition view : DirView := mkDirView healthy 10 s1.
End SampleReliable.

#[local] Existing Instances Sample.lib Sample.uuid_laws SampleHex.lib SampleHex.laws SampleHex.text_laws.
Import SampleRedis SampleUuid SampleReliable.

Lemma reliable_frame_codec_witness :
  wire_decode (wire_encode (WireGoodbye community Draining)) = Ok (WireGoodbye community Draining) /\
  (wire_decode "x" = Ok (WireGoodbye community Draining) <->
   "x" = wire_encode (WireGoodbye community Draining)).
Proof. apply (reliable_frame_codec (WireGoodbye community Draining) "x"). done. Defined.

Lemma reliable_transfer_witness :
  exists pieces st',
    recv_many [view; view; view] (ReliableMeshStream_new fence inbound)
      = (st', ((fun x => Ok (Some (RData x))) <$> pieces) ++ [Ok (Some (RGoodbye SessionEnded)); Ok None]) /\
    foldr (fun a b => a +:+ b) "" pieces = "hello" /\
    Forall (fun p => (0 < str_len p <= MAX_RELIABLE_PAYLOAD_BYTES)%N) pieces /\
    rs_community_id st' = Some community.
Proof.
  apply (reliable_transfer fence fresh community "hello" SessionEnded sent closed inbound [view; view; view]).
  - done.
  - done.
  - apply pair_eq. split; [reflexivity|vm_compute; reflexivity].
  - apply pair_eq. split; [reflexivity|vm_compute; reflexivity].
  - done.
  - repeat constructor; vm_compute; reflexivity.
  - vm_compute; reflexivity.
Defined.

Lemma join_routes_witness :
  exists lease, lookup_lease healthy 0 community session s1 = Ok (Some lease) /\
    Ok (Owned lease_a) = if bool_decide (sl_profile lease <> ReliableStream) then
          Err (ProfileMismatch session ReliableStream (sl_profile lease))
        else if bool_decide (sl_owner_runtime_id lease = alice) then Ok (Owned lease)
        else match Err Disabled with
             | Ok stream => Ok (Forwarded lease (ReliableMeshStream_new (fenced_header lease) stream))
             | Err e => Err (MeshErr e)
             end.
Proof.
  apply (join_routes 30000 30000 0 (fun _ _ => Err Disabled) alice community session s0 empty_cell s1);
    [done|apply session_valid|apply (clean_rep 30000 (s0, 0%Z)), session_valid; apply s0_clean|done|done|].
  apply pair_eq. split; [reflexivity|vm_compute; reflexivity].
Defined.

Lemma renewer_reports_loss_witness :
  false = false <->
   (exists ticks rest, [Tick healthy 10 s1; Cancelled] = ticks ++ Cancelled :: rest /\
      Forall (fun w => exists env0 now0 s0 l, w = Tick env0 now0 s0 /\
                (renew 30000 env0 now0 lease_a s0).2 = Ok (Renewed l)) ticks) /\
   (forall current known, (release healthy 20 lease_a s1).2 <> Ok (NotOwner current known)).
Proof.
  apply (renewer_reports_loss 30000 lease_a [Tick healthy 10 s1; Cancelled] healthy 20 s1
           (release healthy 20 lease_a s1).1 false).
  unfold renewer. replace (renew_loop _ _ _) with (Some true) by (vm_compute; reflexivity).
  rewrite (surjective_pairing (release healthy 20 lease_a s1)).
  replace (release healthy 20 lease_a s1).2 with (Ok (E := DirectoryError) (Released lease_a))
    by (vm_compute; reflexivity).
  reflexivity.
Defined.
