(* ===== verification/JsonValue.v ===== *)
(** The values of [serde_json]: the type and the accessors that the sources use. *)

From S2P Require Import Prelude.

#[local] Set Warnings "-register-all".

(** [serde_json::Value]; a number is kept as the text it prints as, an object
    as its fields in any order. *)
Inductive Json :=
| JNull
| JBool (b : bool)
| JNumber (text : string)
| JString (s : string)
| JArray (items : list Json)
| JObject (fields : list (string * Json)).

Definition as_str (v : Json) : option string := match v with JString s => Some s | _ => None end.
Definition as_array (v : Json) : option (list Json) := match v with JArray l => Some l | _ => None end.
Definition as_object (v : Json) : option (list (string * Json)) := match v with JObject o => Some o | _ => None end.
Definition is_string (v : Json) : bool := match v with JString _ => true | _ => false end.
Definition is_object (v : Json) : bool := match v with JObject _ => true | _ => false end.

(** [Map::get] and [Value::get] with a string key. *)
Definition obj_get (key : string) (fields : list (string * Json)) : option Json :=
  snd <$> List.find (fun kv => String.eqb kv.1 key) fields.
Definition get (key : string) (v : Json) : option Json :=
  match as_object v with Some o => obj_get key o | None => None end.

(** Integers print as their digits, negative ones after a minus sign; floats
    print with a point or an exponent. *)
Definition as_u64 (v : Json) : option N :=
  match v with
  | JNumber t => if all_chars is_ascii_digit t then parse_u64 t else None
  | _ => None
  end.

Definition as_i64 (v : Json) : option Z :=
  match v with
  | JNumber (String "-"%char t) =>
      if all_chars is_ascii_digit t then
        match parse_u64 t with
        | Some n => if (n <=? 2 ^ 63)%N then Some (- Z.of_N n)%Z else None
        | None => None
        end
      else None
  | JNumber t =>
      if all_chars is_ascii_digit t then
        match parse_u64 t with
        | Some n => if (n <? 2 ^ 63)%N then Some (Z.of_N n) else None
        | None => None
        end
      else None
  | _ => None
  end.

(** [Value::Number(n.into())] *)
Definition number_of_N (n : N) : Json := JNumber (to_decimal n).
Definition number_of_Z (z : Z) : Json :=
  match z with
  | Zneg p => JNumber (String "-" (to_decimal (Npos p)))
  | _ => JNumber (to_decimal (Z.to_N z))
  end.

Lemma number_of_Z_inj z z' : number_of_Z z = number_of_Z z' -> z = z'.
Proof.
  assert (forall n p, to_decimal n <> String "-" (to_decimal (Npos p))) as Hne.
  { intros n p E. pose proof (to_decimal_digits n) as Hd. rewrite E in Hd. done. }
  assert (forall n m, JNumber (to_decimal n) = JNumber (to_decimal m) -> n = m) as Hnn.
  { intros n m E. apply to_decimal_inj. congruence. }
  assert (forall n p, JNumber (to_decimal n) <> JNumber (String "-" (to_decimal (Npos p)))) as Hnp.
  { intros n p E. apply (Hne n p). congruence. }
  destruct z, z'; cbn [number_of_Z Z.to_N]; intros E; try done; try (by apply Hnp in E);
    try (by symmetry in E; apply Hnp in E); try (by apply Hnn in E; congruence).
  assert (Npos p = Npos p0) by (apply to_decimal_inj; congruence). congruence.
Qed.
