(* ===== verification/AuditLog.v ===== *)
(** The audit log, crates/buzz-audit: actions, entries, the hash preimage and
    the service.

    The table [audit_log] is a map from its primary key to rows.  [sha2] is the
    class [Sha256Lib], [chrono] and [serde_json] scalars are [AuditLib], and
    what a value becomes by being stored in and read from Postgres is [PgLib].
    Appends run under a per-community advisory lock: [AuditStep] interleaves the
    phases of any number of them. *)

From S2P Require Import Prelude Nostr MeshWire JsonValue.

(** ** Actions *)

Inductive AuditAction :=
| EventCreated | EventDeleted | ChannelCreated | ChannelUpdated | ChannelDeleted
| MemberAdded | MemberRemoved | AuthSuccess | AuthFailure | RateLimitExceeded | MediaUploaded.
#[export] Instance AuditAction_eq_dec : EqDecision AuditAction.
Proof. solve_decision. Defined.

Definition AuditAction_as_str (a : AuditAction) : string :=
  match a with
  | EventCreated => "event_created"
  | EventDeleted => "event_deleted"
  | ChannelCreated => "channel_created"
  | ChannelUpdated => "channel_updated"
  | ChannelDeleted => "channel_deleted"
  | MemberAdded => "member_added"
  | MemberRemoved => "member_removed"
  | AuthSuccess => "auth_success"
  | AuthFailure => "auth_failure"
  | RateLimitExceeded => "rate_limit_exceeded"
  | MediaUploaded => "media_uploaded"
  end.

Definition AuditAction_ALL : list AuditAction :=
  [EventCreated; EventDeleted; ChannelCreated; ChannelUpdated; ChannelDeleted; MemberAdded;
   MemberRemoved; AuthSuccess; AuthFailure; RateLimitExceeded; MediaUploaded].

Definition AuditAction_from_str (s : string) : option AuditAction :=
  List.find (fun a => String.eqb (AuditAction_as_str a) s) AuditAction_ALL.

(** ** Entries *)

Record AuditEntry := mkAuditEntry {
  ae_community_id : Uuid;
  ae_seq : Z;
  ae_hash : string;
  ae_prev_hash : option string;
  ae_action : AuditAction;
  ae_actor_pubkey : option string;
  ae_object_id : option string;
  ae_detail : Json;
  ae_created_at : Z;   (* nanoseconds *)
}.

Record NewAuditEntry := mkNewAuditEntry {
  ne_community_id : CommunityId;
  ne_action : AuditAction;
  ne_actor_pubkey : option string;
  ne_object_id : option string;
  ne_detail : Json;
}.

Inductive AuditError :=
| Database (e : string)
| ChainViolation (seq : Z)
| HashMismatch (seq : Z)
| UnknownAction
| Serialization (e : string).

(** [serde_json::to_string] of a scalar value and of an object key, and of
    [chrono] the RFC 3339 text and [trunc_subsecs(6)]. *)
Class AuditLib := {
  scalar_to_string : Json -> result string string;
  key_to_string : string -> result string string;
  to_rfc3339 : Z -> string;
  trunc_micros : Z -> Z;
}.
Class AuditLaws `{AuditLib} : Prop := {
  trunc_micros_idem : forall t, trunc_micros (trunc_micros t) = trunc_micros t;
}.

(** What Postgres gives back for a stored [JSONB] and [TIMESTAMPTZ]. *)
Class PgLib := { pg_json : Json -> Json; pg_time : Z -> Z }.
Class PgLaws `{AuditLib, PgLib} : Prop := {
  pg_time_micros : forall t, pg_time (trunc_micros t) = trunc_micros t;
}.

(** ** Hashing *)

(** [i64::to_be_bytes]. *)
Fixpoint be_bytes (n : nat) (w : N) : string :=
  match n with
  | O => EmptyString
  | S n' => String (ascii_of_N (w / 256 ^ N.of_nat n' mod 256)) (be_bytes n' w)
  end.
Definition i64_be_bytes (z : Z) : string := be_bytes 8 (Z.to_N (z mod 2 ^ 64)).

Definition GENESIS_HASH : string := be_bytes 32 0.

Section hashing.
Context `{Sha256Lib, AuditLib, UuidBytes}.

Definition to_storage_precision (created_at : Z) : Z := trunc_micros created_at.

(** The loop over the sorted fields, with its [first] flag. *)
Fixpoint object_body (first : bool) (fields : list (string * result string string))
    : result string string :=
  match fields with
  | [] => Ok ""
  | (k, v) :: rest =>
      let? key := key_to_string k in
      let? value := v in
      let? tail := object_body false rest in
      Ok ((if first then "" else ",") +:+ key +:+ ":" +:+ value +:+ tail)
  end.

Fixpoint array_body (first : bool) (items : list (result string string)) : result string string :=
  match items with
  | [] => Ok ""
  | v :: rest =>
      let? value := v in
      let? tail := array_body false rest in
      Ok ((if first then "" else ",") +:+ value +:+ tail)
  end.

(** Object keys in the order of a [BTreeMap<&str, _>]. *)
Definition key_le {A} (a b : string * A) : bool := String.leb a.1 b.1.

Fixpoint canonical_json (value : Json) : result string string :=
  match value with
  | JObject fields =>
      let rendered := List.map (fun kv => (kv.1, canonical_json kv.2)) fields in
      let? body := object_body true (sort_by key_le rendered) in
      Ok ("{" +:+ body +:+ "}")
  | JArray items =>
      let? body := array_body true (List.map canonical_json items) in
      Ok ("[" +:+ body +:+ "]")
  | JNull | JBool _ | JNumber _ | JString _ => scalar_to_string value
  end.

(** [Some] bytes behind a one, a zero for [None]. *)
Definition tagged (o : option string) : string :=
  match o with
  | Some b => String (ascii_of_N 1) b
  | None => String (ascii_of_N 0) ""
  end.

(** The bytes fed to the hasher around the canonical detail. *)
Definition hash_preimage (e : AuditEntry) (detail : string) : string :=
  uuid_bytes (ae_community_id e) +:+ i64_be_bytes (ae_seq e) +:+
  to_rfc3339 (to_storage_precision (ae_created_at e)) +:+ AuditAction_as_str (ae_action e) +:+
  tagged (ae_actor_pubkey e) +:+ tagged (ae_object_id e) +:+ detail +:+
  default GENESIS_HASH (ae_prev_hash e).

Definition compute_hash (e : AuditEntry) : result string AuditError :=
  match canonical_json (ae_detail e) with
  | Ok detail => Ok (sha256_digest (hash_preimage e detail))
  | Err err => Err (Serialization err)
  end.
End hashing.

(** ** The table *)

(** A row of [audit_log]; its community and sequence number are its key. *)
Record AuditRow := mkAuditRow {
  row_hash : string;
  row_prev_hash : option string;
  row_action : string;
  row_actor_pubkey : option string;
  row_object_id : option string;
  row_detail : Json;
  row_created_at : Z;
}.
Abbreviation AuditTable := (gmap (Uuid * Z) AuditRow) (only parsing).

(** The sequence numbers of one community, ascending. *)
Definition seqs (t : AuditTable) (c : Uuid) : list Z :=
  merge_sort Z.le (omap (fun kr => if decide (kr.1.1 = c) then Some kr.1.2 else None) (map_to_list t)).

Definition row_to_audit_entry (c : Uuid) (seq : Z) (row : AuditRow) : result AuditEntry AuditError :=
  match AuditAction_from_str (row_action row) with
  | None => Err UnknownAction
  | Some action =>
      Ok (mkAuditEntry c seq (row_hash row) (row_prev_hash row) action (row_actor_pubkey row)
            (row_object_id row) (row_detail row) (row_created_at row))
  end.

(** [WHERE community_id = $1 AND <keep seq> ORDER BY seq ASC]. *)
Definition select_rows (t : AuditTable) (c : Uuid) (keep : Z -> bool) : list (Z * AuditRow) :=
  omap (fun s => if keep s then (fun r => (s, r)) <$> t !! (c, s) else None) (seqs t c).

Section service.
Context `{Sha256Lib, AuditLib, UuidBytes, PgLib}.

(** [SELECT seq, hash ... ORDER BY seq DESC LIMIT 1]. *)
Definition read_head (t : AuditTable) (c : Uuid) : Z * option string :=
  match last (seqs t c) with
  | Some s => (s, row_hash <$> t !! (c, s))
  | None => (0, None)%Z
  end.

(** The row [INSERT] stores for an entry; refused on a used key and, by the
    unique index on [(community_id, hash)], on a used hash. *)
Definition entry_row (e : AuditEntry) : AuditRow :=
  mkAuditRow (ae_hash e) (ae_prev_hash e) (AuditAction_as_str (ae_action e)) (ae_actor_pubkey e)
    (ae_object_id e) (pg_json (ae_detail e)) (pg_time (ae_created_at e)).
Definition insert_row (t : AuditTable) (e : AuditEntry) : result AuditTable AuditError :=
  let c := ae_community_id e in
  if bool_decide (is_Some (t !! (c, ae_seq e))) then Err (Database "duplicate key")
  else if existsb (fun s => match t !! (c, s) with
                            | Some r => String.eqb (row_hash r) (ae_hash e)
                            | None => false
                            end) (seqs t c) then Err (Database "duplicate hash")
  else Ok (<[(c, ae_seq e) := entry_row e]> t).

(** The part of [log_inner] after the head was read. *)
Definition log_write (now : Z) (head : Z * option string) (entry : NewAuditEntry) (t : AuditTable)
    : AuditTable * result AuditEntry AuditError :=
  let '(prev_seq, prev_hash) := head in
  let audit_entry := mkAuditEntry (as_uuid (ne_community_id entry)) (prev_seq + 1)%Z "" prev_hash
    (ne_action entry) (ne_actor_pubkey entry) (ne_object_id entry) (ne_detail entry)
    (to_storage_precision now) in
  match compute_hash audit_entry with
  | Err e => (t, Err e)
  | Ok hash =>
      let audit_entry := mkAuditEntry (ae_community_id audit_entry) (ae_seq audit_entry) hash
        (ae_prev_hash audit_entry) (ae_action audit_entry) (ae_actor_pubkey audit_entry)
        (ae_object_id audit_entry) (ae_detail audit_entry) (ae_created_at audit_entry) in
      match insert_row t audit_entry with
      | Err e => (t, Err e)
      | Ok t' => (t', Ok audit_entry)
      end
  end.

Definition log_inner (now : Z) (entry : NewAuditEntry) (t : AuditTable)
    : AuditTable * result AuditEntry AuditError :=
  log_write now (read_head t (as_uuid (ne_community_id entry))) entry t.

Fixpoint verify_rows (c : Uuid) (expected_prev : option string) (rows : list (Z * AuditRow))
    : result bool AuditError :=
  match rows with
  | [] => Ok true
  | (seq, row) :: rest =>
      let? entry := row_to_audit_entry c seq row in
      if match expected_prev with
         | Some expected => bool_decide (ae_prev_hash entry <> Some expected)
         | None => false
         end
      then Err (ChainViolation (ae_seq entry))
      else
        let? computed := compute_hash entry in
        if negb (String.eqb computed (ae_hash entry)) then Err (HashMismatch (ae_seq entry))
        else verify_rows c (Some (ae_hash entry)) rest
  end.

Definition verify_chain (t : AuditTable) (community : CommunityId) (from_seq to_seq : Z)
    : result bool AuditError :=
  let c := as_uuid community in
  let rows := select_rows t c (fun s => (from_seq <=? s)%Z && (s <=? to_seq)%Z) in
  match rows with
  | [] => Ok false
  | _ => verify_rows c None rows
  end.

Fixpoint rows_to_entries (c : Uuid) (rows : list (Z * AuditRow)) : result (list AuditEntry) AuditError :=
  match rows with
  | [] => Ok []
  | (s, r) :: rest =>
      let? e := row_to_audit_entry c s r in
      let? es := rows_to_entries c rest in Ok (e :: es)
  end.

Definition get_entries (t : AuditTable) (community : CommunityId) (from_seq limit : Z)
    : result (list AuditEntry) AuditError :=
  if (limit <? 0)%Z then Err (Database "LIMIT must not be negative")
  else
    let c := as_uuid community in
    rows_to_entries c (take (Z.to_nat limit) (select_rows t c (fun s => (from_seq <=? s)%Z))).

(** ** Concurrent appends *)

(** Where one call of [log] is: it holds the lock, has read the head, or has
    finished its transaction. *)
Inductive LogPhase := Locked | HeadRead (head : Z * option string) | Finished.
Record LogCall := mkLogCall { lc_entry : NewAuditEntry; lc_phase : LogPhase }.
Record AuditWorld := mkAuditWorld { aw_table : AuditTable; aw_calls : gmap nat LogCall }.

Definition lc_community (p : LogCall) : CommunityId := ne_community_id (lc_entry p).

(** A value whose canonical text survives storage.  [log] takes any value: that
    the details are of this form is a hypothesis of the theorems that need it. *)
Definition storable (j : Json) : Prop := canonical_json (pg_json j) = canonical_json j.

(** [lock_key] is [hashtextextended] of the namespaced community id; the label
    is the entry a call begins with. *)
Inductive AuditStep (lock_key : CommunityId -> Z) : option NewAuditEntry -> AuditWorld -> AuditWorld -> Prop :=
| step_lock t calls i entry :
    calls !! i = None ->
    (forall j p, calls !! j = Some p -> lock_key (lc_community p) <> lock_key (ne_community_id entry)) ->
    AuditStep lock_key (Some entry) (mkAuditWorld t calls)
      (mkAuditWorld t (<[i := mkLogCall entry Locked]> calls))
| step_read t calls i entry :
    calls !! i = Some (mkLogCall entry Locked) ->
    AuditStep lock_key None (mkAuditWorld t calls)
      (mkAuditWorld t (<[i := mkLogCall entry (HeadRead (read_head t (as_uuid (ne_community_id entry))))]> calls))
| step_write t calls i entry head now t' r :
    calls !! i = Some (mkLogCall entry (HeadRead head)) ->
    log_write now head entry t = (t', r) ->
    AuditStep lock_key None (mkAuditWorld t calls)
      (mkAuditWorld t' (<[i := mkLogCall entry Finished]> calls))
| step_unlock t calls i p :   (* also after a failure or a panic, in any phase *)
    calls !! i = Some p ->
    AuditStep lock_key None (mkAuditWorld t calls) (mkAuditWorld t (delete i calls)).

(** The worlds reached by the calls whose entries are listed. *)
Inductive AuditReachable (lock_key : CommunityId -> Z) : list NewAuditEntry -> AuditWorld -> Prop :=
| audit_init : AuditReachable lock_key [] (mkAuditWorld ∅ ∅)
| audit_step begun w label w' : AuditReachable lock_key begun w -> AuditStep lock_key label w w' ->
    AuditReachable lock_key (option_list label ++ begun) w'.

(** The details of the calls for a community all survive storage. *)
Definition storable_details (begun : list NewAuditEntry) (c : Uuid) : Prop :=
  forall entry, entry ∈ begun -> as_uuid (ne_community_id entry) = c -> storable (ne_detail entry).
End service.
