(* ===== verification/AuditTheorems.v ===== *)
(** Correctness of the audit log: whatever the interleaving of appends, every
    community's chain is contiguous and verifies; a log that verifies up to a
    known head hash is a suffix of the original; and how far that goes. *)

From S2P Require Import Prelude Nostr MeshWire JsonValue AuditLog.

(** ** Sequence numbers *)

Lemma elem_of_seqs t c s : s ∈ seqs t c <-> is_Some (t !! (c, s)).
Proof.
  unfold seqs. rewrite merge_sort_Permutation, list_elem_of_omap. split.
  - intros ([[c' s'] r] & Hin & Hc). cbn in Hc. case_decide; simplify_eq.
    apply elem_of_map_to_list in Hin. by exists r.
  - intros [r Hr]. exists ((c, s), r). split; [by apply elem_of_map_to_list|]. cbn. by case_decide.
Qed.

Lemma NoDup_seqs t c : NoDup (seqs t c).
Proof.
  unfold seqs. rewrite merge_sort_Permutation.
  assert (forall l : list ((Uuid * Z) * AuditRow), NoDup l.*1 ->
    NoDup (omap (fun kr => if decide (kr.1.1 = c) then Some kr.1.2 else None) l)) as Hl;
    [|apply Hl, NoDup_fst_map_to_list].
  induction l as [|[[c' s] r] l IH]; cbn; intros Hnd; [constructor|].
  apply NoDup_cons in Hnd as [Hni Hnd]. specialize (IH Hnd). case_decide as Hc; [|done].
  apply NoDup_cons. split; [|done]. rewrite list_elem_of_omap. intros ([[c2 s2] r2] & Hin & Hs).
  cbn in Hs. case_decide; simplify_eq. apply Hni. apply list_elem_of_fmap. by eexists (_, _, r2).
Qed.

Lemma seqs_sorted t c : StronglySorted Z.lt (seqs t c).
Proof.
  pose proof (NoDup_seqs t c) as Hnd.
  assert (StronglySorted Z.le (seqs t c)) as Hs by (apply StronglySorted_merge_sort; apply _).
  revert Hnd. induction Hs as [|x l Hs IH Hall]; intros Hnd; constructor.
  - apply IH. by apply NoDup_cons in Hnd as [_ ?].
  - apply NoDup_cons in Hnd as [Hni _]. rewrite Forall_forall in Hall |- *. intros y Hy.
    specialize (Hall y Hy). assert (x <> y) by (intros ->; by apply Hni). lia.
Qed.

Lemma seqZ_sorted m n : StronglySorted Z.lt (seqZ m n).
Proof.
  unfold seqZ. apply (StronglySorted_fmap _ lt); [intros; lia|]. generalize 0%nat.
  induction (Z.to_nat n) as [|k IH]; intros i; cbn; constructor; [apply IH|].
  apply Forall_forall. intros y Hy%elem_of_seq. lia.
Qed.

(** A community that has exactly the numbers up to [n]. *)
Lemma seqs_chain t c n :
  (forall s, is_Some (t !! (c, s)) <-> (1 <= s <= n)%Z) -> seqs t c = seqZ 1 n.
Proof.
  intros Hn. apply (StronglySorted_unique_strong Z.lt).
  - intros; lia.
  - apply seqs_sorted.
  - apply seqZ_sorted.
  - apply NoDup_Permutation; [apply NoDup_seqs|apply NoDup_seqZ|]. intros s.
    rewrite elem_of_seqs, Hn, elem_of_seqZ. lia.
Qed.

Lemma StronglySorted_omap {A B} (R : A -> A -> Prop) (S : B -> B -> Prop) (f : A -> option B) l :
  (forall x y a b, R x y -> f x = Some a -> f y = Some b -> S a b) ->
  StronglySorted R l -> StronglySorted S (omap f l).
Proof.
  intros HRS. induction 1 as [|x l Hs IH Hall]; cbn; [constructor|].
  destruct (f x) as [a|] eqn:Ea; [|done]. constructor; [done|].
  apply Forall_forall. intros b Hb.
  apply list_elem_of_omap in Hb as (y & Hy & Eb). eapply Forall_forall in Hall; eauto.
Qed.

Lemma select_sorted t c keep :
  StronglySorted (fun a b => (a.1 < b.1)%Z) (select_rows t c keep).
Proof.
  apply (StronglySorted_omap Z.lt); [|apply seqs_sorted].
  intros x y a b Hxy Ha Hb. destruct (keep x), (keep y); try done.
  destruct (t !! (c, x)), (t !! (c, y)); cbn in *; by simplify_eq.
Qed.

Lemma elem_of_select t c keep s r :
  (s, r) ∈ select_rows t c keep <-> keep s = true /\ t !! (c, s) = Some r.
Proof.
  unfold select_rows. rewrite list_elem_of_omap. split.
  - intros (s' & Hs & E). destruct (keep s') eqn:Hk; [|done].
    destruct (t !! (c, s')) eqn:Ht; cbn in E; by simplify_eq.
  - intros [Hk Ht]. exists s. rewrite elem_of_seqs, Hk, Ht. cbn. eauto.
Qed.

(** ** The chain invariant *)

Section chain.
Context `{Sha256Laws, AuditLaws, UuidBytesLaws, !PgLib, !PgLaws}.

Definition prev_of (t : AuditTable) (c : Uuid) (s : Z) : option string :=
  if (s =? 1)%Z then None else row_hash <$> t !! (c, (s - 1)%Z).

(** The row at [s] reads as an entry that points to the row before it and, as
    far as the details [stored] survive, hashes to what it stores. *)
Definition row_sound (stored : Prop) (t : AuditTable) (c : Uuid) (s : Z) : Prop :=
  exists row e, t !! (c, s) = Some row /\ row_to_audit_entry c s row = Ok e /\
    (stored -> compute_hash e = Ok (ae_hash e)) /\ ae_prev_hash e = prev_of t c s.

Definition chain_of (stored : Prop) (t : AuditTable) (c : Uuid) (n : Z) : Prop :=
  (0 <= n)%Z /\ (forall s, is_Some (t !! (c, s)) <-> (1 <= s <= n)%Z) /\
  forall s, (1 <= s <= n)%Z -> row_sound stored t c s.

Lemma chain_of_impl (P Q : Prop) t c n : (Q -> P) -> chain_of P t c n -> chain_of Q t c n.
Proof.
  intros HQP (Hn & Hs & Hr). split_and!; [done..|]. intros s Hsr.
  destruct (Hr s Hsr) as (row & e & ? & ? & ? & ?). exists row, e. split_and!; auto.
Qed.

Lemma action_round_trip a : AuditAction_from_str (AuditAction_as_str a) = Some a.
Proof. by destruct a. Qed.

Lemma read_head_chain P t c n :
  chain_of P t c n -> read_head t c = (n, if (n =? 0)%Z then None else row_hash <$> t !! (c, n)).
Proof.
  intros (Hn & Hs & _). unfold read_head. rewrite (seqs_chain t c n Hs).
  destruct (Z.eqb_spec n 0) as [->|Hne]; [done|].
  replace n with (Z.of_nat (S (Z.to_nat (n - 1)))) at 1 by lia.
  rewrite seqZ_S, last_snoc. by replace (1 + Z.of_nat (Z.to_nat (n - 1)))%Z with n by lia.
Qed.

(** Adding a row of another community, or above [s], changes nothing below. *)
Lemma row_sound_insert P t c s c' s' r :
  row_sound P t c s -> (c', s') <> (c, s) -> (c' <> c \/ (s < s')%Z) ->
  row_sound P (<[(c', s') := r]> t) c s.
Proof.
  intros (row & e & Ht & Hrow & Hh & Hp) Hne Hor. exists row, e.
  rewrite lookup_insert_ne by congruence. split_and!; try done. rewrite Hp. unfold prev_of.
  case_match; [done|]. rewrite lookup_insert_ne; [done|]. intros [= -> ->]. destruct Hor; [done|lia].
Qed.

Lemma insert_row_ok t e t' :
  insert_row t e = Ok t' ->
  t !! (ae_community_id e, ae_seq e) = None /\
  t' = <[(ae_community_id e, ae_seq e) := entry_row e]> t.
Proof.
  unfold insert_row. case_bool_decide as Hs; [done|]. case_match; [done|]. intros [= <-].
  split; [|done]. by apply eq_None_not_Some.
Qed.

(** One append on a chain whose head was read correctly: it extends the chain,
    or fails and leaves the table. *)
Lemma log_write_chain (P : Prop) now entry t t' r n :
  let c := as_uuid (ne_community_id entry) in
  (P -> storable (ne_detail entry)) -> chain_of P t c n ->
  log_write now (read_head t c) entry t = (t', r) ->
  match r with
  | Ok e => chain_of P t' c (n + 1) /\ t' = <[(c, (n + 1)%Z) := entry_row e]> t /\
            ae_seq e = (n + 1)%Z /\ ae_community_id e = c
  | Err _ => t' = t
  end.
Proof.
  intros c Hst Hch. rewrite (read_head_chain P t c n Hch). unfold log_write.
  destruct (compute_hash _) as [h|] eqn:Hh; [|by intros [= <- <-]]. cbn zeta.
  destruct (insert_row t _) as [t1|] eqn:Hi; [|by intros [= <- <-]]. intros [= <- <-].
  apply insert_row_ok in Hi as [Hnone ->]. cbn [ae_community_id ae_seq] in *.
  split_and!; try done. destruct Hch as (Hn & Hs & Hr). split; [lia|]. split.
  - intros s. destruct (decide (s = n + 1)%Z) as [->|Hne].
    + rewrite lookup_insert_eq. split; [lia|by eauto].
    + rewrite lookup_insert_ne by congruence. rewrite Hs. lia.
  - intros s Hsr. destruct (decide (s = n + 1)%Z) as [->|Hne].
    + eexists _, _. rewrite lookup_insert_eq. split; [done|].
      unfold row_to_audit_entry, entry_row. cbn [row_action ae_action]. rewrite action_round_trip.
      split; [done|]. cbn [ae_hash ae_prev_hash row_hash row_prev_hash]. split.
      * intros HP. unfold compute_hash in *. cbn [ae_detail row_detail] in *. rewrite (Hst HP).
        destruct (canonical_json (ne_detail entry)) as [d|]; [|done]. rewrite <- Hh.
        do 2 f_equal. unfold hash_preimage, to_storage_precision. cbn.
        by rewrite pg_time_micros, !trunc_micros_idem.
      * unfold prev_of. destruct (Z.eqb_spec (n + 1) 1) as [E|E].
        -- replace n with 0%Z by lia. done.
        -- rewrite (proj2 (Z.eqb_neq n 0)) by lia. replace (n + 1 - 1)%Z with n by lia.
           by rewrite lookup_insert_ne by (intros [=]; lia).
    + apply row_sound_insert; [apply Hr; lia|congruence|]. right. lia.
Qed.

(** A row of a chain points to the row before it. *)
Lemma chain_row_prev P t c n s row : chain_of P t c n -> t !! (c, s) = Some row -> row_prev_hash row = prev_of t c s.
Proof.
  intros (_ & Hs & Hr) Ht. destruct (Hr s) as (row' & e & Ht' & Hrow & _ & <-); [apply Hs; eauto|].
  unfold row_to_audit_entry in Hrow. destruct (AuditAction_from_str _); by simplify_eq.
Qed.

Lemma chain_of_other P t c n c' s' r : c' <> c -> chain_of P t c n -> chain_of P (<[(c', s') := r]> t) c n.
Proof.
  intros Hne (Hn & Hs & Hr). split; [done|]. split.
  - intros s. rewrite lookup_insert_ne by congruence. apply Hs.
  - intros s Hsr. apply row_sound_insert; [by apply Hr|congruence|by left].
Qed.

(** What every interleaving keeps: all chains are sound, lock holders have
    distinct communities, and a head that was read is still the head. *)
Definition audit_inv (begun : list NewAuditEntry) (w : AuditWorld) : Prop :=
  (forall c, exists n, chain_of (storable_details begun c) (aw_table w) c n) /\
  (forall i j p q, aw_calls w !! i = Some p -> aw_calls w !! j = Some q ->
     lc_community p = lc_community q -> i = j) /\
  (forall i p, aw_calls w !! i = Some p ->
     lc_entry p ∈ begun /\
     forall head, lc_phase p = HeadRead head -> head = read_head (aw_table w) (as_uuid (lc_community p))).

Lemma audit_step_inv lock_key begun label w w' :
  AuditStep lock_key label w w' -> audit_inv begun w -> audit_inv (option_list label ++ begun) w'.
Proof.
  intros Hstep (Hch & Hlk & Hcall).
  destruct Hstep as [t calls i entry Hfree Hno|t calls i entry Hi|t calls i entry head now t' r Hi Hw|t calls i p Hi];
    unfold audit_inv; cbn [aw_table aw_calls option_list app] in *.
  - split.
    { intros c. destruct (Hch c) as [n Hn]. exists n. revert Hn. apply chain_of_impl.
      intros Hst entry' He'. apply Hst. by right. }
    split.
    + intros i1 j1 p q Hp Hq Hc. apply lookup_insert_Some in Hp as [[<- <-]|[? Hp]];
        apply lookup_insert_Some in Hq as [[<- <-]|[? Hq]]; try done.
      * exfalso. apply (Hno _ _ Hq). by f_equal.
      * exfalso. apply (Hno _ _ Hp). by f_equal.
      * by eapply Hlk.
    + intros i1 p [[<- <-]|[_ Hp]]%lookup_insert_Some; [split; [by left|done]|].
      destruct (Hcall _ _ Hp) as [? ?]. split; [by right|done].
  - split; [done|]. pose proof (Hcall _ _ Hi) as [Hst _]. split.
    + intros i1 j1 p q Hp Hq Hc. apply lookup_insert_Some in Hp as [[<- <-]|[? Hp]];
        apply lookup_insert_Some in Hq as [[<- <-]|[? Hq]]; try done; by eapply Hlk.
    + intros i1 p [[<- <-]|[_ Hp]]%lookup_insert_Some; [|by apply Hcall in Hp].
      split; [done|]. by intros head [= <-].
  - destruct (Hcall _ _ Hi) as [Hst Hhead]. unfold lc_community in Hhead.
    cbn in Hst, Hhead. specialize (Hhead _ eq_refl). subst head.
    set (c := as_uuid (ne_community_id entry)) in *.
    destruct (Hch c) as [n Hn].
    pose proof (log_write_chain _ now entry t t' r n (fun P => P entry Hst eq_refl) Hn Hw) as Hr.
    assert ((forall c', exists n', chain_of (storable_details begun c') t' c' n') /\
            forall c', c' <> c -> read_head t' c' = read_head t c') as [Hch' Hrd].
    { destruct r as [e|]; [|by subst t']. destruct Hr as (Hc & Ht' & _). split.
      - intros c'. destruct (decide (c' = c)) as [->|Hne]; [by eauto|].
        destruct (Hch c') as [n' Hn']. exists n'. rewrite Ht'. by apply chain_of_other.
      - intros c' Hne. destruct (Hch c') as [n' Hn'].
        rewrite (read_head_chain _ t c' n' Hn'). rewrite Ht'.
        rewrite (read_head_chain _ _ c' n' (chain_of_other _ t c' n' c _ _ ltac:(done) Hn')).
        by rewrite lookup_insert_ne by congruence. }
    split; [done|]. split.
    + intros i1 j1 p q Hp Hq Hc. apply lookup_insert_Some in Hp as [[<- <-]|[? Hp]];
        apply lookup_insert_Some in Hq as [[<- <-]|[? Hq]]; try done; by eapply Hlk.
    + intros i1 p [[<- <-]|[Hne Hp]]%lookup_insert_Some; [by split|].
      destruct (Hcall _ _ Hp) as [? Hp2]. split; [done|]. intros head Hh. rewrite (Hp2 head Hh).
      symmetry. apply Hrd. intros E. apply Hne. eapply Hlk; [done|done|].
      unfold c in E. change (ne_community_id entry = lc_community p).
      destruct (lc_community p), (ne_community_id entry). cbn in *. by subst.
  - split; [done|]. split.
    + intros i1 j1 p1 q [_ Hp]%lookup_delete_Some [_ Hq]%lookup_delete_Some Hc. by eapply Hlk.
    + intros i1 p1 [_ Hp]%lookup_delete_Some. by eapply Hcall.
Qed.

Lemma audit_reachable_inv lock_key begun w : AuditReachable lock_key begun w -> audit_inv begun w.
Proof.
  induction 1 as [|begun w label w' _ IH Hs]; [|by eapply audit_step_inv].
  split; [|split; intros * Hp; cbn in Hp; by rewrite lookup_empty in Hp].
  intros c. exists 0%Z. split; [done|]. cbn [aw_table]. split; [|intros; lia].
  intros s. rewrite lookup_empty. split; [by intros []|lia].
Qed.
End chain.

(** ** Verification *)

(** Two strictly sorted lists with the same elements are equal. *)
Lemma strictly_sorted_eq {A} (key : A -> Z) (l1 l2 : list A) :
  StronglySorted (fun a b => (key a < key b)%Z) l1 -> StronglySorted (fun a b => (key a < key b)%Z) l2 ->
  (forall x, x ∈ l1 <-> x ∈ l2) -> l1 = l2.
Proof.
  intros H1 H2 Hel. apply (StronglySorted_unique_strong (fun a b => (key a < key b)%Z)); [lia|done|done|].
  assert (forall l, StronglySorted (fun a b => (key a < key b)%Z) l -> NoDup l) as Hnd.
  { intros l. induction 1 as [|x l Hs IH Hall]; constructor; [|done].
    intros Hin. eapply Forall_forall in Hall; [|exact Hin]. cbn in Hall. lia. }
  apply NoDup_Permutation; auto.
Qed.

Section verification.
Context `{Sha256Laws, AuditLaws, UuidBytesLaws, !PgLib, !PgLaws}.

(** Consecutive entries, the first after [expected]. *)
Fixpoint linked (expected : option string) (es : list AuditEntry) : Prop :=
  match es with
  | [] => True
  | e :: rest =>
      match expected with Some x => ae_prev_hash e = Some x | None => True end /\
      linked (Some (ae_hash e)) rest
  end.

Definition reads_as (c : Uuid) (sr : Z * AuditRow) (e : AuditEntry) : Prop :=
  row_to_audit_entry c sr.1 sr.2 = Ok e.
Definition self_hashed (e : AuditEntry) : Prop := compute_hash e = Ok (ae_hash e).

Lemma verify_rows_spec c expected rows b :
  verify_rows c expected rows = Ok b <->
  b = true /\ exists es, Forall2 (reads_as c) rows es /\ Forall self_hashed es /\ linked expected es.
Proof.
  revert expected. induction rows as [|[s row] rows IH]; intros expected; cbn [verify_rows].
  - split; [|by intros [-> _]]. intros [= <-]. split; [done|]. by exists [].
  - destruct (row_to_audit_entry c s row) as [e|] eqn:Hrow; cycle 1.
    { split; [done|]. intros [_ (es & HF & _)]. apply Forall2_cons_inv_l in HF as (e1 & ? & Hr & _).
      unfold reads_as in Hr. cbn in Hr. congruence. }
    assert (forall es, Forall2 (reads_as c) ((s, row) :: rows) es <->
              exists es', es = e :: es' /\ Forall2 (reads_as c) rows es') as Hcons.
    { intros es. split.
      - intros HF. apply Forall2_cons_inv_l in HF as (e' & es' & Hr & HF & ->).
        unfold reads_as in Hr. cbn in Hr. rewrite Hrow in Hr. simplify_eq. eauto.
      - intros (es' & -> & HF). by constructor. }
    case_match eqn:Hlink.
    { split; [done|]. intros [_ (es & HF & _ & Hl)]. apply Hcons in HF as (es' & -> & _).
      cbn in Hl. destruct Hl as [Hl _]. destruct expected; [|done]. by bool_prop. }
    destruct (compute_hash e) as [h|] eqn:Hh; cycle 1.
    { split; [done|]. intros [_ (es & HF & Hs & _)]. apply Hcons in HF as (es' & -> & _).
      apply Forall_cons in Hs as [Hs _]. unfold self_hashed in Hs. congruence. }
    destruct (String.eqb_spec h (ae_hash e)) as [->|Hne]; cbn [negb]; cycle 1.
    { split; [done|]. intros [_ (es & HF & Hs & _)]. apply Hcons in HF as (es' & -> & _).
      apply Forall_cons in Hs as [Hs _]. unfold self_hashed in Hs. congruence. }
    rewrite IH. setoid_rewrite Hcons. split; intros [-> (es & HF & Hs & Hl)]; (split; [done|]).
    + exists (e :: es). split; [by eauto|]. split; [by constructor|]. split; [|done].
      destruct expected; [|done]. by apply bool_decide_eq_false_1, dec_stable in Hlink.
    + destruct HF as (es' & -> & HF). exists es'. apply Forall_cons in Hs as [_ Hs]. by destruct Hl.
Qed.

(** The rows of a contiguous range. *)
Definition range_rows (t : AuditTable) (c : Uuid) (m k : Z) : list (Z * AuditRow) :=
  omap (fun s => (fun r => (s, r)) <$> t !! (c, s)) (seqZ m k).

Lemma elem_of_range t c m k s r :
  (s, r) ∈ range_rows t c m k <-> (m <= s < m + k)%Z /\ t !! (c, s) = Some r.
Proof.
  unfold range_rows. rewrite list_elem_of_omap. split.
  - intros (s' & Hs%elem_of_seqZ & E). destruct (t !! (c, s')) eqn:Ht; cbn in E; by simplify_eq.
  - intros [Hm Ht]. exists s. rewrite elem_of_seqZ, Ht. done.
Qed.

Lemma select_range t c n from to :
  (forall s, is_Some (t !! (c, s)) <-> (1 <= s <= n)%Z) ->
  select_rows t c (fun s => (from <=? s)%Z && (s <=? to)%Z)
  = range_rows t c (Z.max 1 from) (Z.min n to - Z.max 1 from + 1).
Proof.
  intros Hn. apply (strictly_sorted_eq fst).
  - apply select_sorted.
  - apply (StronglySorted_omap Z.lt); [|apply seqZ_sorted].
    intros x y a b Hxy Ha Hb. destruct (t !! (c, x)), (t !! (c, y)); cbn in *; by simplify_eq.
  - intros [s r]. rewrite elem_of_select, elem_of_range, andb_true_iff, !Z.leb_le.
    split; intros [Hs Ht]; (split; [|done]); assert (1 <= s <= n)%Z by (apply Hn; eauto); lia.
Qed.

Lemma range_rows_cons t c m k row :
  (0 < k)%Z -> t !! (c, m) = Some row -> range_rows t c m k = (m, row) :: range_rows t c (m + 1) (k - 1).
Proof.
  intros Hk Ht. unfold range_rows. rewrite seqZ_cons by lia. cbn. rewrite Ht. cbn.
  by replace (Z.succ m) with (m + 1)%Z by lia; replace (Z.pred k) with (k - 1)%Z by lia.
Qed.

(** A range of a sound chain reads as linked entries. *)
Lemma range_linked t c n m k expected :
  chain_of True t c n -> (1 <= m)%Z -> (m + Z.of_nat k - 1 <= n)%Z ->
  (expected = None \/ (1 < m)%Z /\ expected = row_hash <$> t !! (c, (m - 1)%Z)) ->
  exists es, Forall2 (reads_as c) (range_rows t c m (Z.of_nat k)) es /\
    Forall self_hashed es /\ linked expected es.
Proof.
  intros (Hn & Hs & Hr). revert m expected. induction k as [|k IH]; intros m expected Hm Hk Hex.
  { exists []. by split. }
  destruct (Hr m) as (row & e & Ht & Hrow & Hh & Hp); [lia|].
  rewrite (range_rows_cons t c m _ row) by (done || lia).
  replace (Z.of_nat (S k) - 1)%Z with (Z.of_nat k) by lia.
  assert (ae_hash e = row_hash row) as Hhash.
  { unfold row_to_audit_entry in Hrow. destruct (AuditAction_from_str _); by simplify_eq. }
  destruct (IH (m + 1)%Z (Some (ae_hash e))) as (es & HF & Hself & Hl); [lia|lia| |].
  { right. split; [lia|]. replace (m + 1 - 1)%Z with m by lia. rewrite Ht. cbn. by rewrite Hhash. }
  exists (e :: es). split_and!; [by constructor|by constructor; [apply Hh|]|]. split; [|done].
  destruct Hex as [->|[Hm1 ->]]; [done|]. unfold prev_of in Hp.
  rewrite (proj2 (Z.eqb_neq m 1)) in Hp by lia. rewrite Hp.
  destruct (t !! (c, (m - 1)%Z)) eqn:E; [done|]. exfalso. eapply is_Some_None. rewrite <- E. apply Hs. lia.
Qed.

Lemma chain_verifies t community n from to :
  chain_of True t (as_uuid community) n ->
  verify_chain t community from to = Ok (Z.max 1 from <=? Z.min n to)%Z.
Proof.
  intros Hch. unfold verify_chain. set (c := as_uuid community) in *.
  rewrite (select_range t c n) by apply Hch.
  destruct (Z.leb_spec (Z.max 1 from) (Z.min n to)) as [Hle|Hgt].
  - set (m := Z.max 1 from) in *. set (k := (Z.min n to - m + 1)%Z) in *.
    destruct (range_linked t c n m (Z.to_nat k) None Hch) as (es & HF & Hself & Hl); [lia|lia|by left|].
    rewrite Z2Nat.id in HF by lia.
    destruct (proj1 (proj2 Hch) m) as [_ Hm]. destruct (Hm ltac:(lia)) as [row Hrow].
    rewrite (range_rows_cons t c m k row) in HF |- * by (done || lia).
    apply verify_rows_spec. eauto.
  - unfold range_rows. by rewrite seqZ_nil by lia.
Qed.

(** C15: No gaps, no false alarms.  However appends to any communities are
    interleaved, fail or panic, each community's log is numbered from one
    without gaps, and each entry carries the hash of the one before it.  If the
    details logged for the community survive JSONB storage (their canonical text
    is the same when read back), verifying any range of its log succeeds,
    answering [false] only when the range holds no entry.  A detail that does not
    survive, such as a float that JSONB prints otherwise, raises a false alarm
    ([reprinted_detail_fails]). *)
Theorem audit_log_always_verifies lock_key begun w community :
  AuditReachable lock_key begun w ->
  let c := as_uuid community in
  exists n, (0 <= n)%Z /\
    (forall s, is_Some (aw_table w !! (c, s)) <-> (1 <= s <= n)%Z) /\
    (forall s row, aw_table w !! (c, s) = Some row ->
       row_prev_hash row = if (s =? 1)%Z then None else row_hash <$> aw_table w !! (c, (s - 1)%Z)) /\
    (storable_details begun c ->
     forall from to, verify_chain (aw_table w) community from to = Ok (Z.max 1 from <=? Z.min n to)%Z).
Proof.
  intros Hr c. destruct (audit_reachable_inv lock_key begun w Hr) as [Hch _].
  destruct (Hch c) as [n Hn]. exists n. split; [exact (proj1 Hn)|]. split; [exact (proj1 (proj2 Hn))|]. split.
  - intros s row Hrow. by apply (chain_row_prev _ _ _ _ s row Hn).
  - intros Hst from to. apply chain_verifies. revert Hn. by apply chain_of_impl.
Qed.
End verification.

(** ** Tamper evidence *)

Lemma be_bytes_length n w : String.length (be_bytes n w) = n.
Proof. induction n; cbn; auto. Qed.

Lemma be_bytes_inj n u v :
  (u < 256 ^ N.of_nat n)%N -> (v < 256 ^ N.of_nat n)%N -> be_bytes n u = be_bytes n v -> u = v.
Proof.
  intros Hu Hv Heq.
  assert (forall k, (k <= n)%nat -> (u mod 256 ^ N.of_nat k = v mod 256 ^ N.of_nat k)%N) as Hmod.
  { clear Hu Hv. induction n as [|n IH]; intros k Hk.
    { assert (k = 0%nat) as -> by lia. change (256 ^ N.of_nat 0)%N with 1%N. by rewrite !N.mod_1_r. }
    cbn [be_bytes] in Heq. injection Heq as Hh Ht. destruct (decide (k = S n)) as [->|Hne]; [|apply IH; [done|lia]].
    apply (f_equal N_of_ascii) in Hh. rewrite !N_ascii_embedding in Hh by (apply N.mod_lt; lia).
    rewrite Nat2N.inj_succ, N.pow_succ_r', (N.mul_comm 256).
    rewrite !N.Div0.mod_mul_r by (apply N.pow_nonzero; lia). rewrite Hh. f_equal. by apply IH. }
  specialize (Hmod n (le_n n)). by rewrite !N.mod_small in Hmod by done.
Qed.

Section tamper.
Context `{Sha256Laws, AuditLaws, UuidBytesLaws, !PgLib, !PgLaws}.

(** The bytes an entry, or the row it is read from, is hashed as. *)
Definition entry_bytes (e : AuditEntry) : option string :=
  match canonical_json (ae_detail e) with Ok d => Some (hash_preimage e d) | Err _ => None end.
Definition row_bytes (c : Uuid) (sr : Z * AuditRow) : option string :=
  match row_to_audit_entry c sr.1 sr.2 with Ok e => entry_bytes e | Err _ => None end.

Lemma self_hashed_bytes e :
  self_hashed e -> exists p, entry_bytes e = Some p /\ ae_hash e = sha256_digest p.
Proof.
  unfold self_hashed, compute_hash, entry_bytes. destruct (canonical_json (ae_detail e)); [|done].
  intros [= E]. eauto.
Qed.

(** Equal bytes determine the fixed-width fields at both ends. *)
Lemma entry_bytes_ends e e' p :
  entry_bytes e = Some p -> entry_bytes e' = Some p ->
  (0 <= ae_seq e < 2 ^ 63)%Z -> (0 <= ae_seq e' < 2 ^ 63)%Z ->
  ae_seq e = ae_seq e' /\
  (String.length (default GENESIS_HASH (ae_prev_hash e)) = 32%nat ->
   String.length (default GENESIS_HASH (ae_prev_hash e')) = 32%nat ->
   default GENESIS_HASH (ae_prev_hash e) = default GENESIS_HASH (ae_prev_hash e')).
Proof.
  unfold entry_bytes. destruct (canonical_json (ae_detail e)) as [d|]; [|done].
  destruct (canonical_json (ae_detail e')) as [d'|]; [|done]. intros [= <-] [= Heq] Hs Hs'.
  unfold hash_preimage in Heq. split.
  - apply app_inj_length in Heq as [_ Heq].
    + apply app_inj_length in Heq as [Hseq _]; [|unfold i64_be_bytes; by rewrite !be_bytes_length].
      unfold i64_be_bytes in Hseq. apply be_bytes_inj in Hseq.
      * rewrite !Z.mod_small in Hseq by lia. lia.
      * change (256 ^ N.of_nat 8)%N with (2 ^ 64)%N. rewrite Z.mod_small by lia. lia.
      * change (256 ^ N.of_nat 8)%N with (2 ^ 64)%N. rewrite Z.mod_small by lia. lia.
    + pose proof (uuid_bytes_len (ae_community_id e)) as E1.
      pose proof (uuid_bytes_len (ae_community_id e')) as E2. unfold str_len in E1, E2. lia.
  - intros Hl Hl'. rewrite <- !string_app_assoc in Heq.
    apply app_inj_suffix in Heq as [_ Heq]; [done|congruence].
Qed.

Lemma linked_snoc expected l x :
  linked expected (l ++ [x]) <->
  linked expected l /\
  match last l with
  | Some y => ae_prev_hash x = Some (ae_hash y)
  | None => match expected with Some h => ae_prev_hash x = Some h | None => True end
  end.
Proof.
  revert expected. induction l as [|y l IH]; intros expected; cbn [app linked last]; [tauto|].
  rewrite IH. rewrite last_cons. destruct (last l) as [z|]; tauto.
Qed.

Definition same_entry (e e' : AuditEntry) : Prop :=
  ae_seq e = ae_seq e' /\ ae_hash e = ae_hash e' /\ entry_bytes e = entry_bytes e'.

(** Backwards from a common last hash, a linked list of entries matches a
    suffix of another whose first entry has the least possible number. *)
Lemma linked_suffix from es es' :
  linked None es -> linked None es' -> Forall self_hashed es -> Forall self_hashed es' ->
  es' <> [] -> ae_hash <$> last es = ae_hash <$> last es' ->
  (forall e, head es = Some e -> ae_seq e = from) -> (0 <= from)%Z ->
  Forall (fun e => (from <= ae_seq e < 2 ^ 63)%Z) es -> Forall (fun e => (from <= ae_seq e < 2 ^ 63)%Z) es' ->
  StronglySorted (fun a b => (ae_seq a < ae_seq b)%Z) es' ->
  (forall e e' p p', e ∈ es -> e' ∈ es' -> entry_bytes e = Some p -> entry_bytes e' = Some p' ->
     no_collision sha256_digest p p') ->
  exists pre suf, es = pre ++ suf /\ Forall2 same_entry suf es'.
Proof.
  intros Hl Hl' Hs Hs' Hne Hlast Hhead Hfrom Hr Hr' Hsort Hnc. revert es Hl Hs Hlast Hhead Hr Hnc.
  induction es' as [|x' l' IH] using rev_ind; [done|]. clear Hne. intros es Hl Hs Hlast Hhead Hr Hnc.
  rewrite last_snoc in Hlast. destruct es as [|x l _] using rev_ind; [done|].
  rewrite last_snoc in Hlast. injection Hlast as Hx.
  apply linked_snoc in Hl as [Hl Hp]. apply linked_snoc in Hl' as [Hl' Hp'].
  apply Forall_app in Hs as [Hs [Hsx _]%Forall_cons]. apply Forall_app in Hs' as [Hs' [Hsx' _]%Forall_cons].
  apply Forall_app in Hr as [Hr [Hrx _]%Forall_cons]. apply Forall_app in Hr' as [Hr' [Hrx' _]%Forall_cons].
  destruct (self_hashed_bytes x Hsx) as (p & Hbx & Hhx). destruct (self_hashed_bytes x' Hsx') as (p' & Hbx' & Hhx').
  assert (p = p') as <-.
  { apply (Hnc x x' p p'); [set_solver|set_solver|done|done|congruence]. }
  destruct (entry_bytes_ends x x' p Hbx Hbx') as [Hseq Hprev]; [lia|lia|].
  assert (same_entry x x') as Hsame by (split_and!; [done|done|congruence]).
  destruct l' as [|y' l'' _] using rev_ind.
  { exists l, [x]. split; [done|]. by constructor. }
  rewrite last_snoc in Hp'.
  assert (ae_seq y' < ae_seq x')%Z as Hlt.
  { apply (StronglySorted_app_1_elem_of (fun a b => (ae_seq a < ae_seq b)%Z) (l'' ++ [y']) [x'] y' x');
      [exact Hsort|set_solver|set_solver]. }
  assert (from <= ae_seq y')%Z as Hy'.
  { apply Forall_app in Hr' as [_ [Hy _]%Forall_cons]. lia. }
  destruct (last l) as [y|] eqn:El; cycle 1.
  { apply last_None in El. subst l. specialize (Hhead x eq_refl). lia. }
  assert (ae_hash y = ae_hash y') as Hyy.
  { rewrite Hp, Hp' in Hprev. cbn in Hprev. apply Hprev.
    - apply last_Some in El as [l1 ->]. apply Forall_app in Hs as [_ [Hy _]%Forall_cons].
      destruct (self_hashed_bytes y Hy) as (q & _ & ->). apply sha256_length.
    - apply Forall_app in Hs' as [_ [Hy _]%Forall_cons].
      destruct (self_hashed_bytes y' Hy) as (q & _ & ->). apply sha256_length. }
  destruct (IH Hl' Hs') with (es := l) as (pre & suf & -> & HF); try done.
  - by destruct l''.
  - eapply StronglySorted_app_1_l. exact Hsort.
  - rewrite El, last_snoc. cbn. by rewrite Hyy.
  - intros e He. apply Hhead. by destruct l.
  - intros e e' q q' Hin Hin'. apply Hnc; set_solver.
  - exists pre, (suf ++ [x]). split; [by rewrite app_assoc|]. apply Forall2_app; [done|]. by constructor.
Qed.

(** Two rows of one community that are hashed from the same bytes. *)
Definition same_row (c : Uuid) (x x' : Z * AuditRow) : Prop :=
  x.1 = x'.1 /\ row_hash x.2 = row_hash x'.2 /\ row_bytes c x = row_bytes c x'.

Lemma reads_as_fields c sr e :
  reads_as c sr e -> ae_seq e = sr.1 /\ ae_hash e = row_hash sr.2 /\ row_bytes c sr = entry_bytes e.
Proof.
  unfold reads_as, row_bytes. intros Hr. rewrite Hr. unfold row_to_audit_entry in Hr.
  destruct (AuditAction_from_str _); by simplify_eq.
Qed.

Lemma reads_as_seqs c rows es : Forall2 (reads_as c) rows es -> ae_seq <$> es = rows.*1.
Proof.
  induction 1 as [|sr e rows es Hr _ IH]; [done|]. cbn. apply reads_as_fields in Hr as [-> _]. by rewrite IH.
Qed.

Lemma reads_as_last c rows es :
  Forall2 (reads_as c) rows es -> ae_hash <$> last es = (fun x => row_hash x.2) <$> last rows.
Proof.
  intros HF. destruct rows as [|sr rows _] using rev_ind; [by apply Forall2_nil_inv_l in HF as ->|].
  apply Forall2_app_inv_l in HF as (es1 & es2 & _ & HF2 & ->).
  apply Forall2_cons_inv_l in HF2 as (e & es3 & Hr & HF3 & ->). apply Forall2_nil_inv_l in HF3 as ->.
  rewrite !last_snoc. cbn. by apply reads_as_fields in Hr as (_ & -> & _).
Qed.

Lemma same_rows c pre rows suf rows' es' :
  Forall2 (reads_as c) rows (pre ++ suf) -> Forall2 (reads_as c) rows' es' -> Forall2 same_entry suf es' ->
  exists pre_rows suf_rows, rows = pre_rows ++ suf_rows /\ Forall2 (same_row c) suf_rows rows'.
Proof.
  intros HF HF' Hsame. apply Forall2_app_inv_r in HF as (r1 & r2 & _ & HF & ->).
  exists r1, r2. split; [done|]. clear pre r1. revert rows' HF' r2 HF.
  induction Hsame as [|e e' suf es' (Hs & Hh & Hb) _ IH]; intros rows' HF' r2 HF.
  - apply Forall2_nil_inv_r in HF' as ->. apply Forall2_nil_inv_r in HF as ->. constructor.
  - apply Forall2_cons_inv_r in HF' as (x' & rows1 & Hx' & HF' & ->).
    apply Forall2_cons_inv_r in HF as (x & r3 & Hx & HF & ->). constructor; [|by apply IH].
    apply reads_as_fields in Hx as (E1 & E2 & E3). apply reads_as_fields in Hx' as (E1' & E2' & E3').
    split_and!; congruence.
Qed.

Lemma Forall2_elem_of_r {A B} (P : A -> B -> Prop) l1 l2 y :
  Forall2 P l1 l2 -> y ∈ l2 -> exists x, x ∈ l1 /\ P x y.
Proof.
  intros HF [i Hi]%list_elem_of_lookup. destruct (Forall2_lookup_r _ _ _ _ _ HF Hi) as (x & Hx & HP).
  exists x. split; [by eapply list_elem_of_lookup_2|done].
Qed.

Lemma reads_as_sorted c rows es :
  Forall2 (reads_as c) rows es -> StronglySorted (fun a b => (a.1 < b.1)%Z) rows ->
  StronglySorted (fun a b => (ae_seq a < ae_seq b)%Z) es.
Proof.
  induction 1 as [|sr e rows es Hr HF IH]; intros Hs; [constructor|].
  inversion Hs as [|? ? Hs' Hall]; subst. constructor; [by apply IH|].
  apply Forall_forall. intros e' He'.
  destruct (Forall2_elem_of_r _ _ _ _ HF He') as (sr' & Hin & Hr').
  eapply Forall_forall in Hall; [|exact Hin]. apply reads_as_fields in Hr as [-> _].
  by apply reads_as_fields in Hr' as [-> _].
Qed.

Definition between (from to s : Z) : bool := (from <=? s)%Z && (s <=? to)%Z.

Lemma reads_as_range c t from to es :
  Forall2 (reads_as c) (select_rows t c (between from to)) es -> (to < 2 ^ 63)%Z ->
  Forall (fun e => (from <= ae_seq e < 2 ^ 63)%Z) es.
Proof.
  intros HF Hto. apply Forall_forall. intros e He.
  destruct (Forall2_elem_of_r _ _ _ _ HF He) as ([s r] & Hin & Hr).
  apply elem_of_select in Hin as [Hk _]. apply reads_as_fields in Hr as [-> _]. unfold between in Hk. cbn.
  apply andb_true_iff in Hk as [?%Z.leb_le ?%Z.leb_le]. lia.
Qed.

(** C34: Tamper evidence.  Take any log the service produced, of details that
    survive storage, and any table put in its place.  If the substitute verifies over a range and ends in the hash
    the true log has there, and the digest does not collide on the bytes at
    hand, then the substitute's rows are, from some point on, the rows of the
    true log: the same numbers, the same hashes and the same hashed bytes, with
    nothing inserted, dropped in between, reordered or altered. *)
Theorem tampering_detected lock_key begun w t' community from to :
  let c := as_uuid community in
  let rows := select_rows (aw_table w) c (between from to) in
  let rows' := select_rows t' c (between from to) in
  AuditReachable lock_key begun w -> storable_details begun c -> (1 <= from)%Z -> (to < 2 ^ 63)%Z ->
  verify_chain t' community from to = Ok true ->
  (fun x => row_hash x.2) <$> last rows = (fun x => row_hash x.2) <$> last rows' ->
  (forall x x' p p', x ∈ rows -> x' ∈ rows' -> row_bytes c x = Some p -> row_bytes c x' = Some p' ->
     no_collision sha256_digest p p') ->
  exists dropped kept, rows = dropped ++ kept /\ Forall2 (same_row c) kept rows'.
Proof.
  intros c rows rows' Hreach Hst Hfrom Hto Hver Hlast Hnc.
  destruct (audit_reachable_inv lock_key begun w Hreach) as [Hch _]. destruct (Hch c) as [n Hn].
  apply (chain_of_impl _ True) in Hn; [|done].
  assert (rows' <> []) as Hne.
  { unfold verify_chain in Hver. fold c in Hver. change (select_rows t' c _) with rows' in Hver.
    by destruct rows'. }
  assert (verify_rows c None rows' = Ok true) as Hv'.
  { unfold verify_chain in Hver. fold c in Hver. change (select_rows t' c _) with rows' in Hver.
    by destruct rows'. }
  apply verify_rows_spec in Hv' as [_ (es' & HF' & Hs' & Hl')].
  assert (rows = range_rows (aw_table w) c from (Z.min n to - from + 1)) as Erows.
  { unfold rows, between. rewrite (select_range _ c n) by apply Hn. by replace (Z.max 1 from) with from by lia. }
  assert (0 < Z.min n to - from + 1)%Z as Hk.
  { destruct (Z.ltb_spec 0 (Z.min n to - from + 1)) as [|Hneg]; [done|]. exfalso.
    rewrite Erows in Hlast. unfold range_rows in Hlast. rewrite seqZ_nil in Hlast by lia. cbn in Hlast.
    destruct (last rows') eqn:E; [done|]. by apply last_None in E. }
  destruct (range_linked _ c n from (Z.to_nat (Z.min n to - from + 1)) None Hn) as (es & HF & Hs & Hl);
    [lia|lia|by left|].
  rewrite Z2Nat.id in HF by lia. rewrite <- Erows in HF.
  destruct (linked_suffix from es es') as (pre & suf & -> & Hsame); try done.
  - intros ->. apply Forall2_nil_inv_r in HF'. done.
  - by rewrite (reads_as_last _ _ _ HF), (reads_as_last _ _ _ HF').
  - intros e He. destruct (proj1 (proj2 Hn) from) as [_ Hex]. destruct (Hex ltac:(lia)) as [row Hrow].
    rewrite Erows, (range_rows_cons _ c from _ row) in HF by (done || lia).
    apply Forall2_cons_inv_l in HF as (e0 & es0 & Hr & _ & ->). cbn in He. simplify_eq.
    by apply reads_as_fields in Hr as [-> _].
  - lia.
  - by eapply reads_as_range.
  - by eapply reads_as_range.
  - eapply reads_as_sorted; [done|]. apply select_sorted.
  - intros e e' p p' He He' Hp Hp'.
    destruct (Forall2_elem_of_r _ _ _ _ HF He) as (x & Hx & Hr).
    destruct (Forall2_elem_of_r _ _ _ _ HF' He') as (x' & Hx' & Hr').
    apply reads_as_fields in Hr as (_ & _ & E). apply reads_as_fields in Hr' as (_ & _ & E').
    apply (Hnc x x'); [done|done|congruence|congruence].
  - by eapply same_rows.
Qed.
End tamper.

(** ** Canonical text *)

#[local] Set Warnings "-register-all".

Section canonical.
Context `{AuditLib}.

(** The same value with the fields of its objects in another order. *)
Inductive same_json : Json -> Json -> Prop :=
| same_scalar j : same_json j j
| same_array l l' : Forall2 same_json l l' -> same_json (JArray l) (JArray l')
| same_object f f1 f' :
    Forall2 (fun a b => a.1 = b.1 /\ same_json a.2 b.2) f f1 -> f1 ≡ₚ f' -> NoDup f.*1 ->
    same_json (JObject f) (JObject f').

Lemma sort_by_key_perm {A} (l l' : list (string * A)) :
  l ≡ₚ l' -> NoDup l.*1 -> sort_by key_le l = sort_by key_le l'.
Proof.
  intros Hp Hnd.
  assert (forall m : list (string * A), StronglySorted (fun a b => key_le a b = true) (sort_by key_le m)) as Hs.
  { intros m. apply sort_by_sorted.
    - intros x y. unfold key_le. pose proof (String.leb_total x.1 y.1) as [E|E]; [by left|by right].
    - intros x y z. apply string_leb_trans. }
  apply (StronglySorted_unique_strong (fun a b => key_le a b = true)); [|done|done|].
  - intros [k1 v1] [k2 v2] H1 H2 L1 L2. unfold key_le in *. cbn in *.
    pose proof (String.leb_antisym _ _ L1 L2) as E. subst k2.
    rewrite elem_of_sort_by in H1, H2. rewrite <- Hp in H2.
    assert (v1 = v2); [|congruence]. clear - Hnd H1 H2.
    induction l as [|[k v] l IH]; [by apply not_elem_of_nil in H1|].
    apply NoDup_cons in Hnd as [Hni Hnd].
    apply elem_of_cons in H1 as [E1|H1]; apply elem_of_cons in H2 as [E2|H2]; simplify_eq; auto;
      exfalso; apply Hni; apply list_elem_of_fmap; (eexists; split; [|eassumption]; done).
  - by rewrite !sort_by_perm.
Qed.

(** The hashed text of a detail does not depend on the order in which its
    objects list their fields, at any depth. *)
Theorem canonical_json_stable j j' : same_json j j' -> canonical_json j = canonical_json j'.
Proof.
  revert j j'. fix IH 3. intros j j' Hs. destruct Hs as [j|l l' Hl|f f1 f' Hf Hp Hnd]; [done| |].
  - cbn [canonical_json].
    assert (List.map canonical_json l = List.map canonical_json l') as ->; [|done].
    induction Hl as [|x x' l l' Hx _ IHl]; [done|]. cbn. f_equal; [by apply IH|done].
  - cbn [canonical_json].
    assert (List.map (fun kv => (kv.1, canonical_json kv.2)) f =
            List.map (fun kv => (kv.1, canonical_json kv.2)) f1 /\ f.*1 = f1.*1) as [-> Hk].
    { clear Hp Hnd. induction Hf as [|[k v] [k' v'] f f1 [E Hv] _ [IH1 IH2]]; [done|]. cbn in *. subst k'.
      rewrite (IH v v' Hv), IH1, IH2. done. }
    rewrite (sort_by_key_perm _ (List.map (fun kv => (kv.1, canonical_json kv.2)) f')); [done| |].
    + by apply (fmap_Permutation (fun kv : string * Json => (kv.1, canonical_json kv.2))).
    + assert (forall m : list (string * Json),
        (List.map (fun kv => (kv.1, canonical_json kv.2)) m).*1 = m.*1) as ->.
      { clear. induction m as [|[k v] m IHm]; [done|]. cbn. by f_equal. }
      by rewrite <- Hk.
Qed.
End canonical.

(** ** What the hash does not separate *)

Section ambiguity.
Context `{Sha256Lib, AuditLib, UuidBytes}.

Definition with_object_detail (e : AuditEntry) (object_id : option string) (detail : Json) : AuditEntry :=
  mkAuditEntry (ae_community_id e) (ae_seq e) (ae_hash e) (ae_prev_hash e) (ae_action e)
    (ae_actor_pubkey e) object_id detail (ae_created_at e).

(** The object identifier and the detail are hashed one after the other without
    a length between them: text can be moved from the end of the one to the
    front of the other without changing the entry's hash, although the entry's
    documentation says that tampering with the detail is detectable. *)
Theorem detail_boundary_not_hashed e object_id moved detail detail' text :
  canonical_json detail = Ok text -> canonical_json detail' = Ok (moved +:+ text) ->
  compute_hash (with_object_detail e (Some (object_id +:+ moved)) detail)
  = compute_hash (with_object_detail e (Some object_id) detail').
Proof.
  intros Hd Hd'. unfold compute_hash. cbn [with_object_detail ae_detail]. rewrite Hd, Hd'. do 2 f_equal.
  unfold hash_preimage, tagged. cbn. by rewrite !string_app_cons, !string_app_assoc.
Qed.
End ambiguity.

(** ** Witnesses *)

(** A polynomial digest, texts that print as they are, and a store that gives
    back what it was given. *)
Module SampleAudit.
Import SampleUuid.

Fixpoint poly (acc : N) (s : string) : N :=
  match s with
  | EmptyString => acc
  | String c s' => poly ((acc * 257 + N_of_ascii c + 1) mod 2 ^ 256) s'
  end.
#[export] Instance sha : Sha256Lib := {| sha256_digest m := be_bytes 32 (poly 7 m) |}.
#[export] Instance sha_laws : Sha256Laws.
Proof. split. intros m. apply be_bytes_length. Qed.

Definition scalar (j : Json) : result string string :=
  match j with
  | JNumber t => Ok t
  | JString s => Ok s
  | JBool b => Ok (if b then "true" else "false")
  | _ => Ok "null"
  end.
#[export] Instance lib : AuditLib := {|
  scalar_to_string := scalar;
  key_to_string k := Ok k;
  to_rfc3339 t := to_decimal (Z.to_N t);
  trunc_micros t := (1000 * (t / 1000))%Z;
|}.
#[export] Instance audit_laws : AuditLaws.
Proof.
  split. intros t. cbn [trunc_micros lib].
  rewrite (Z.mul_comm 1000 (t / 1000)), Z.div_mul by lia. apply Z.mul_comm.
Qed.
#[export] Instance pg : PgLib := {| pg_json j := j; pg_time t := t |}.
#[export] Instance pg_laws : PgLaws.
Proof. by split. Qed.

Definition community : CommunityId := from_uuid 5.
Definition entry : NewAuditEntry :=
  mkNewAuditEntry community EventCreated (Some "alice") (Some "12") (JNumber "3").
Definition t1 : AuditTable := (log_inner 1500 entry ∅).1.
Definition t2 : AuditTable := (log_inner 2500 entry t1).1.
Definition lock (c : CommunityId) : Z := Z.of_N (as_uuid c).

Definition one_call (p : LogPhase) : gmap nat LogCall := {[ 0%nat := mkLogCall entry p ]}.

Lemma append_reachable begun now t :
  AuditReachable lock begun (mkAuditWorld t ∅) ->
  AuditReachable lock (entry :: begun) (mkAuditWorld (log_inner now entry t).1 ∅).
Proof.
  intros Hr. change (entry :: begun) with (option_list (@None NewAuditEntry) ++ option_list (@None NewAuditEntry) ++
    option_list (@None NewAuditEntry) ++ option_list (Some entry) ++ begun).
  eapply audit_step; [eapply audit_step; [eapply audit_step; [eapply audit_step; [exact Hr|]|]|]|].
  - apply (step_lock lock t ∅ 0 entry); [done|by intros j p E; rewrite lookup_empty in E].
  - apply (step_read lock t _ 0 entry). by rewrite lookup_insert_eq.
  - apply (step_write lock t _ 0 entry (read_head t (as_uuid community)) now (log_inner now entry t).1 (log_inner now entry t).2).
    + by rewrite lookup_insert_eq.
    + unfold log_inner. by destruct (log_write _ _ _ _).
  - rewrite !insert_insert_eq.
    replace (∅ : gmap nat LogCall) with (delete 0%nat (<[0%nat := mkLogCall entry Finished]> (∅ : gmap nat LogCall))).
    + eapply step_unlock. by rewrite lookup_insert_eq.
    + by rewrite delete_insert_eq, delete_empty.
Qed.

Lemma t2_reachable : AuditReachable lock [entry; entry] (mkAuditWorld t2 ∅).
Proof. apply append_reachable, append_reachable, audit_init. Qed.
Lemma t2_storable : storable_details [entry; entry] (as_uuid community).
Proof. by intros e _ _. Qed.

(** A store that gives the number [1e16] back as JSONB prints it. *)
Definition jsonb_number (j : Json) : Json :=
  match j with JNumber t => JNumber (if String.eqb t "1e16" then "10000000000000000" else t) | _ => j end.
Definition jsonb : PgLib := {| pg_json := jsonb_number; pg_time t := t |}.
Definition float_entry : NewAuditEntry := mkNewAuditEntry community EventCreated None None (JNumber "1e16").

(** An entry with that detail, logged and left alone, does not verify. *)
Example reprinted_detail_fails :
  verify_chain (@log_inner sha lib uuid jsonb 1500 float_entry ∅).1 community 1 1 = Err (HashMismatch 1).
Proof. vm_compute. reflexivity. Qed.

(** The second row with one character moved from its object to its detail. *)
Definition t2_tampered : AuditTable :=
  match t2 !! (5%N, 2%Z) with
  | Some r => <[(5%N, 2%Z) := mkAuditRow (row_hash r) (row_prev_hash r) (row_action r)
      (row_actor_pubkey r) (Some "1") (JNumber "23") (row_created_at r)]> t2
  | None => t2
  end.

Example tampered_detail_verifies : verify_chain t2_tampered community 1 2 = Ok true.
Proof. vm_compute. reflexivity. Qed.

Definition t2_forged : AuditTable :=
  match t2 !! (5%N, 1%Z) with
  | Some r => <[(5%N, 1%Z) := mkAuditRow (row_hash r) (row_prev_hash r) "event_deleted"
      (row_actor_pubkey r) (row_object_id r) (row_detail r) (row_created_at r)]> t2
  | None => t2
  end.
Example forged_action_detected : verify_chain t2_forged community 1 2 = Err (HashMismatch 1).
Proof. vm_compute. reflexivity. Qed.
End SampleAudit.

Import SampleUuid SampleAudit.

Lemma audit_log_always_verifies_witness :
  exists n, (forall s, is_Some (t2 !! (as_uuid community, s)) <-> (1 <= s <= n)%Z) /\
    forall from to, verify_chain t2 community from to = Ok (Z.max 1 from <=? Z.min n to)%Z.
Proof.
  destruct (audit_log_always_verifies lock [entry; entry] (mkAuditWorld t2 ∅) community t2_reachable)
    as (n & _ & Hs & _ & Hv).
  exists n. split; [exact Hs|exact (Hv t2_storable)].
Defined.

Lemma tampering_detected_witness :
  exists dropped kept,
    select_rows t2 (as_uuid community) (between 1 2) = dropped ++ kept /\
    Forall2 (same_row (as_uuid community)) kept (select_rows t2_tampered (as_uuid community) (between 1 2)).
Proof.
  apply (tampering_detected lock [entry; entry] (mkAuditWorld t2 ∅) t2_tampered community 1 2).
  - apply t2_reachable.
  - apply t2_storable.
  - done.
  - done.
  - vm_compute. reflexivity.
  - vm_compute. reflexivity.
  - assert (forallb (fun x => forallb (fun x' =>
      match row_bytes 5 x, row_bytes 5 x' with
      | Some p, Some p' => String.eqb p p' || negb (String.eqb (sha256_digest p) (sha256_digest p'))
      | _, _ => true
      end) (select_rows t2_tampered 5 (between 1 2))) (select_rows t2 5 (between 1 2)) = true) as HF
      by (vm_compute; reflexivity).
    intros x x' p p' Hx Hx' Hp Hp' E. rewrite forallb_forall in HF.
    specialize (HF x). rewrite <- list_elem_of_In in HF. specialize (HF Hx).
    rewrite forallb_forall in HF. specialize (HF x'). rewrite <- list_elem_of_In in HF. specialize (HF Hx').
    cbn in Hp, Hp'. rewrite Hp, Hp', E, String.eqb_refl, orb_false_r in HF. by apply String.eqb_eq.
Defined.

Lemma canonical_json_stable_witness :
  canonical_json (JObject [("b", JNumber "1"); ("a", JNull)])
  = canonical_json (JObject [("a", JNull); ("b", JNumber "1")]).
Proof.
  apply (canonical_json_stable (JObject [("b", JNumber "1"); ("a", JNull)])).
  eapply same_object; [|apply perm_swap|].
  - repeat constructor.
  - repeat constructor; set_solver.
Defined.

Lemma detail_boundary_not_hashed_witness :
  let e := mkAuditEntry 5 1 "" None EventCreated None None JNull 0 in
  compute_hash (with_object_detail e (Some ("1" +:+ "2")) (JNumber "3"))
  = compute_hash (with_object_detail e (Some "1") (JNumber "23")).
Proof.
  apply (detail_boundary_not_hashed (mkAuditEntry 5 1 "" None EventCreated None None JNull 0)
           "1" "2" (JNumber "3") (JNumber "23") "3"); reflexivity.
Defined.
