(* ===== verification/Gossip.v ===== *)
(** Mesh gossip and the ready registry's attestations:
    buzz-relay-mesh/src/gossip.rs and registry.rs.

    A [HashMap] keyed by runtime is a [gmap]; digests and deltas are sorted by
    the hexadecimal text of the runtime id, as in the code.  Wall-clock readings
    are arguments; [f32] loads are opaque bit patterns; [f64] values are those of
    [Binary64]. *)

From S2P Require Import Prelude Binary64 Nostr MeshWire.

Definition u64_max : N := 2 ^ 64 - 1.
Definition saturating_succ (n : N) : N := N.min (n + 1) u64_max.

(** ** Records and messages *)

Definition GOSSIP_PAYLOAD_VERSION : N := 1.

Record GossipRecord := mkGossipRecord {
  gr_runtime_id : RuntimeId;
  gr_endpoint_addrs : list string;
  gr_proto_version : N;
  gr_load : N;
  gr_draining : bool;
  gr_capabilities : list string;
  gr_version : N;
  gr_heartbeat_millis : N;
}.
#[export] Instance GossipRecord_eq_dec : EqDecision GossipRecord.
Proof. solve_decision. Defined.

Definition GossipRecord_new (now_millis : N) (runtime_id : RuntimeId) (addrs : list string) (proto : N)
    : GossipRecord :=
  mkGossipRecord runtime_id addrs proto 0 false [] 1 now_millis.

Record GossipDigestEntry := mkDigestEntry { de_runtime_id : RuntimeId; de_version : N }.

Inductive GossipMessage :=
| Digest (version : N) (entries : list GossipDigestEntry)
| Delta (version : N) (records : list GossipRecord).

Definition message_version (m : GossipMessage) : N :=
  match m with Digest v _ | Delta v _ => v end.

Section messages.
Context `{Postcard GossipMessage}.

Definition encode_message (m : GossipMessage) : result string MeshError :=
  match to_extend m with Ok b => Ok b | Err e => Err (EncodeError e) end.

Definition decode_message (bytes : string) : result GossipMessage MeshError :=
  match from_bytes bytes with
  | Err e => Err (DecodeError e)
  | Ok m =>
      if negb (message_version m =? GOSSIP_PAYLOAD_VERSION)%N then
        Err (Transport ("unknown gossip payload version " +:+ to_decimal (message_version m)))
      else Ok m
  end.
End messages.

(** ** Scuttlebutt *)

(** A record is missing on, or newer than, the remote side. *)
Definition newer_than (remote : option N) (version : N) : bool :=
  match remote with None => true | Some v => (v <? version)%N end.

(** [digest.iter().map(..).collect::<HashMap<_, _>>()]: later entries win. *)
Definition digest_versions (entries : list GossipDigestEntry) : gmap RuntimeId N :=
  foldl (fun m e => <[de_runtime_id e := de_version e]> m) ∅ entries.

Definition hex_le `{HexLib} {A} (key : A -> RuntimeId) (a b : A) : bool :=
  String.leb (RuntimeId_to_hex (key a)) (RuntimeId_to_hex (key b)).

Definition digest_of `{HexLib} (records : list GossipRecord) : list GossipDigestEntry :=
  sort_by (hex_le de_runtime_id)
    ((fun r => mkDigestEntry (gr_runtime_id r) (gr_version r)) <$> records).

Definition delta_of `{HexLib} (digest : list GossipDigestEntry) (records : list GossipRecord)
    : list GossipRecord :=
  let remote := digest_versions digest in
  sort_by (hex_le gr_runtime_id)
    (List.filter (fun r => newer_than (remote !! gr_runtime_id r) (gr_version r)) records).

Record GossipState := mkGossipState { gs_records : gmap RuntimeId GossipRecord }.

Definition GossipState_new (local : GossipRecord) : GossipState :=
  mkGossipState {[ gr_runtime_id local := local ]}.

(** [records()]: the order of a hash map is not observed by any caller below. *)
Definition records (st : GossipState) : list GossipRecord := (map_to_list (gs_records st)).*2.

(** The closure of [update_local], then the version bump. *)
Definition touch (now_millis : N) (update : GossipRecord -> GossipRecord) (r : GossipRecord) : GossipRecord :=
  let r := update r in
  mkGossipRecord (gr_runtime_id r) (gr_endpoint_addrs r) (gr_proto_version r) (gr_load r) (gr_draining r)
    (gr_capabilities r) (saturating_succ (gr_version r)) now_millis.

Definition update_local (now_millis : N) (runtime_id : RuntimeId) (update : GossipRecord -> GossipRecord)
    (st : GossipState) : GossipState * option GossipRecord :=
  match gs_records st !! runtime_id with
  | None => (st, None)
  | Some r =>
      let r' := touch now_millis update r in
      (mkGossipState (<[runtime_id := r']> (gs_records st)), Some r')
  end.

Section state.
Context `{HexLib}.

Definition digest (st : GossipState) : GossipMessage :=
  Digest GOSSIP_PAYLOAD_VERSION (digest_of (records st)).

Definition delta_for (entries : list GossipDigestEntry) (st : GossipState) : GossipMessage :=
  Delta GOSSIP_PAYLOAD_VERSION (delta_of entries (records st)).
End state.

Definition apply_record (acc : GossipState * list RuntimeId) (r : GossipRecord) : GossipState * list RuntimeId :=
  let '(st, changed) := acc in
  if newer_than (gr_version <$> gs_records st !! gr_runtime_id r) (gr_version r)
  then (mkGossipState (<[gr_runtime_id r := r]> (gs_records st)), changed ++ [gr_runtime_id r])
  else (st, changed).

Definition apply_delta (rs : list GossipRecord) (st : GossipState) : GossipState * list RuntimeId :=
  foldl apply_record (st, []) rs.

(** ** Failure detection *)

(** Times are nanoseconds since the epoch. *)
Record PhiAccrual := mkPhiAccrual {
  pa_samples : list N;
  pa_last_heartbeat : option N;
  pa_max_samples : nat;
}.

Definition PhiAccrual_new (max_samples : nat) : PhiAccrual := mkPhiAccrual [] None (Nat.max max_samples 1).
Definition PhiAccrual_default : PhiAccrual := PhiAccrual_new 100.

Definition observe (at_ : N) (p : PhiAccrual) : PhiAccrual :=
  let samples :=
    match pa_last_heartbeat p with
    | Some prev =>
        if (prev <=? at_)%N && negb (at_ - prev =? 0)%N then
          let pushed := pa_samples p ++ [(at_ - prev)%N] in
          if (pa_max_samples p <? length pushed)%nat then tail pushed else pushed
        else pa_samples p
    | None => pa_samples p
    end in
  mkPhiAccrual samples (Some at_) (pa_max_samples p).

(** [Duration::as_secs_f64]: whole seconds plus the fraction. *)
Definition as_secs_f64 (nanos : N) : N :=
  f64_add (f64_of_N (nanos / 1000000000)) (f64_div (f64_of_N (nanos mod 1000000000)) (f64_of_N 1000000000)).

Definition mean_secs (p : PhiAccrual) : N :=
  f64_div (foldl (fun acc d => f64_add acc (as_secs_f64 d)) 0%N (pa_samples p))
    (f64_of_N (N.of_nat (length (pa_samples p)))).

(** [f64::EPSILON] and [std::f64::consts::LN_10]. *)
Definition F64_EPSILON : N := UNIT / 2 ^ 52.
Definition F64_LN_10 : N := f64_literal 230258509299404568401799 100000000000000000000000.

Definition phi_at (now : N) (p : PhiAccrual) : option N :=
  match pa_last_heartbeat p with
  | None => None
  | Some last =>
      if bool_decide (pa_samples p = []) then None
      else if (last <=? now)%N then
        let elapsed := as_secs_f64 (now - last) in
        let mean := mean_secs p in
        if (mean <=? F64_EPSILON)%N then None
        else Some (f64_div (f64_div elapsed mean) F64_LN_10)
      else None
  end.

Definition system_time_from_millis (millis : N) : N := millis * 1000000.

(** ** Attestations *)

Definition READY_KEY_PREFIX : string := "mesh:ready:".
Definition ATTESTATION_CONTEXT : string := "buzz-relay-mesh-ready-v1".
Definition newline : string := String (ascii_of_N 10) "".

(** Keys and Schnorr signatures of the [nostr] and [secp256k1] crates. *)
Class SchnorrLib := {
  sch_pubkey_from_hex : string -> option PublicKey;
  sch_pubkey_to_hex : PublicKey -> string;
  sch_xonly : PublicKey -> option string;
  sch_sig_from_str : string -> option string;
  (** [verify_schnorr(sig, digest, key)] *)
  sch_verify : string -> string -> string -> bool;
}.

Record ReadyRecord := mkReadyRecord {
  rr_runtime_id : RuntimeId;
  rr_runtime_pubkey : string;
  rr_relay_pubkey : string;
  rr_relay_sig : string;
  rr_endpoint_addrs : list string;
  rr_proto_version : N;
  rr_capabilities : list string;
}.

Section attestation.
Context `{HexLib, Sha256Lib, SchnorrLib}.

Definition attestation_preimage (runtime_id : RuntimeId) (relay_pubkey : string) : string :=
  ATTESTATION_CONTEXT +:+ newline +:+ "runtime_pubkey=" +:+ RuntimeId_to_hex runtime_id +:+ newline +:+
  "relay_pubkey=" +:+ relay_pubkey.

Definition attestation_message (runtime_id : RuntimeId) (relay_pubkey : string) : string :=
  sha256_digest (attestation_preimage runtime_id relay_pubkey).

Definition verify_attestation (runtime_id : RuntimeId) (relay_pubkey relay_sig : string) : result unit MeshError :=
  match sch_pubkey_from_hex relay_pubkey with
  | None => Err (Transport "ready registry attestation invalid relay_pubkey")
  | Some pk =>
      match sch_xonly pk with
      | None => Err (Transport "ready registry attestation relay_pubkey xonly conversion failed")
      | Some xonly =>
          match sch_sig_from_str relay_sig with
          | None => Err (Transport "ready registry attestation invalid relay_sig")
          | Some sig =>
              if sch_verify sig (attestation_message runtime_id (sch_pubkey_to_hex pk)) xonly then Ok tt
              else Err (Transport "ready registry attestation signature verification failed")
          end
      end
  end.

Definition ReadyRecord_verify_attestation (r : ReadyRecord) : result unit MeshError :=
  if negb (String.eqb (rr_runtime_pubkey r) (RuntimeId_to_hex (rr_runtime_id r))) then
    Err (Transport "ready registry runtime_id/runtime_pubkey mismatch")
  else verify_attestation (rr_runtime_id r) (rr_relay_pubkey r) (rr_relay_sig r).

Definition ready_key (runtime_id : RuntimeId) : string := READY_KEY_PREFIX +:+ RuntimeId_to_hex runtime_id.

(** One value met by [scan_ready] under a key: kept when it decodes, names that
    key and carries a valid attestation.  [decoded] is what [serde_json] reads. *)
Definition scan_keep (key : string) (decoded : option ReadyRecord) : option ReadyRecord :=
  match decoded with
  | None => None
  | Some r =>
      if String.eqb (ready_key (rr_runtime_id r)) key then
        match ReadyRecord_verify_attestation r with Ok _ => Some r | Err _ => None end
      else None
  end.

(** [scan_ready] over the keys and values the SCAN loop meets; a key that is
    gone by the time of its GET has no value. *)
Definition scan_ready (decode : string -> option ReadyRecord) (found : list (string * option string))
    : list ReadyRecord :=
  omap (fun kv => match kv.2 with Some raw => scan_keep kv.1 (decode raw) | None => None end) found.
End attestation.

(** ** Lemmas *)

Lemma digest_versions_lookup entries r :
  NoDup (de_runtime_id <$> entries) ->
  forall v, digest_versions entries !! r = Some v <-> mkDigestEntry r v ∈ entries.
Proof.
  unfold digest_versions. intros Hnd v.
  assert (forall m : gmap RuntimeId N,
    foldl (fun m e => <[de_runtime_id e := de_version e]> m) m entries !! r = Some v <->
    mkDigestEntry r v ∈ entries \/ ((r ∉ (de_runtime_id <$> entries)) /\ m !! r = Some v)) as Hgen.
  { revert Hnd. induction entries as [|[r0 v0] es IH]; intros Hnd m; cbn [foldl fmap list_fmap de_runtime_id de_version].
    - set_solver.
    - apply NoDup_cons in Hnd as [Hni Hnd]. rewrite (IH Hnd). cbn [de_runtime_id] in *. split.
      + intros [Hin|[Hn Hm]]; [left; set_solver|]. apply lookup_insert_Some in Hm as [[-> ->]|[Hne Hm]];
          [left; set_solver|right; set_solver].
      + intros [Hin|[Hn Hm]].
        * apply elem_of_cons in Hin as [[= -> ->]|Hin]; [|by left]. right. split; [done|]. by rewrite lookup_insert_eq.
        * right. split; [set_solver|]. rewrite lookup_insert_ne by set_solver. done. }
  rewrite Hgen, lookup_empty. split; [intros [?|[_ ?]]; done|by left].
Qed.

(** A digest of records with distinct ids says exactly their versions. *)
Lemma digest_of_versions `{HexLib} (rs : list GossipRecord) r :
  NoDup (gr_runtime_id <$> rs) ->
  forall v, digest_versions (digest_of rs) !! r = Some v <->
    exists rec, rec ∈ rs /\ gr_runtime_id rec = r /\ gr_version rec = v.
Proof.
  intros Hnd v. unfold digest_of. rewrite digest_versions_lookup.
  - rewrite elem_of_sort_by, list_elem_of_fmap. split.
    + intros (rec & [= -> ->] & Hin). eauto.
    + intros (rec & Hin & <- & <-). eauto.
  - rewrite sort_by_perm, <- list_fmap_compose. exact Hnd.
Qed.

Lemma elem_of_delta `{HexLib} entries (rs : list GossipRecord) rec :
  rec ∈ delta_of entries rs <->
  rec ∈ rs /\ newer_than (digest_versions entries !! gr_runtime_id rec) (gr_version rec) = true.
Proof. unfold delta_of. rewrite elem_of_sort_by, !list_elem_of_In, filter_In. done. Qed.
