(* ===== verification/Membership.v ===== *)
(** The mesh membership table, buzz-relay-mesh/src/membership.rs with the
    counters of status.rs, and the decisions of runtime.rs that read it:
    admission, dialling, the tie-break of simultaneous dials and the gossip
    exchange.  Each lock-protected method is one atomic function on the record
    [MeshMembership]. *)

From S2P Require Import Prelude Binary64 Nostr MeshWire Gossip.

Inductive ConnectionState := Disconnected | Connecting | Connected | Suspect.
#[export] Instance ConnectionState_eq_dec : EqDecision ConnectionState.
Proof. solve_decision. Defined.

Record MeshPeerCounters := mkMeshPeerCounters {
  pc_runtime_id : string;
  pc_streams_opened : N;
  pc_streams_received : N;
  pc_datagrams_sent : N;
  pc_datagrams_received : N;
  pc_gossip_frames_sent : N;
  pc_gossip_frames_received : N;
  pc_stale_generation_rejections : N;
}.

Record PeerState := mkPeerState {
  ps_record : GossipRecord;
  ps_phi : PhiAccrual;
  ps_connection_state : ConnectionState;
  ps_counters : MeshPeerCounters;
}.

Record MeshMembership := mkMembership {
  mm_local_runtime_id : RuntimeId;
  mm_local_record : GossipRecord;
  mm_peers : gmap RuntimeId PeerState;
  mm_draining : bool;
  mm_stale_generation_rejections : N;
  mm_foreign_relay_rejections : N;
  mm_expected_relay_pubkey : option string;
  mm_phi_suspect_threshold : N;
}.

Definition DEFAULT_PHI_SUSPECT_THRESHOLD : N := f64_of_N 8.

Definition MeshMembership_new (local_record : GossipRecord) : MeshMembership :=
  mkMembership (gr_runtime_id local_record) local_record ∅ false 0 0 None DEFAULT_PHI_SUSPECT_THRESHOLD.

(** ** Field updates *)

Definition set_peers (peers : gmap RuntimeId PeerState) (m : MeshMembership) : MeshMembership :=
  mkMembership (mm_local_runtime_id m) (mm_local_record m) peers (mm_draining m)
    (mm_stale_generation_rejections m) (mm_foreign_relay_rejections m) (mm_expected_relay_pubkey m)
    (mm_phi_suspect_threshold m).
Definition set_local_record (r : GossipRecord) (m : MeshMembership) : MeshMembership :=
  mkMembership (mm_local_runtime_id m) r (mm_peers m) (mm_draining m)
    (mm_stale_generation_rejections m) (mm_foreign_relay_rejections m) (mm_expected_relay_pubkey m)
    (mm_phi_suspect_threshold m).
Definition with_expected_relay_pubkey (pubkey_hex : string) (m : MeshMembership) : MeshMembership :=
  mkMembership (mm_local_runtime_id m) (mm_local_record m) (mm_peers m) (mm_draining m)
    (mm_stale_generation_rejections m) (mm_foreign_relay_rejections m) (Some pubkey_hex)
    (mm_phi_suspect_threshold m).
Definition with_phi_suspect_threshold (threshold : N) (m : MeshMembership) : MeshMembership :=
  mkMembership (mm_local_runtime_id m) (mm_local_record m) (mm_peers m) (mm_draining m)
    (mm_stale_generation_rejections m) (mm_foreign_relay_rejections m) (mm_expected_relay_pubkey m)
    threshold.

(** [AtomicU64::fetch_add(1)] wraps. *)
Definition wrapping_succ (n : N) : N := (n + 1) mod 2 ^ 64.
Definition count_foreign (m : MeshMembership) : MeshMembership :=
  mkMembership (mm_local_runtime_id m) (mm_local_record m) (mm_peers m) (mm_draining m)
    (mm_stale_generation_rejections m) (wrapping_succ (mm_foreign_relay_rejections m))
    (mm_expected_relay_pubkey m) (mm_phi_suspect_threshold m).

(** ** Methods *)

Section methods.
Context `{HexLib}.

(** [MeshPeerCounters::default] with the runtime's text. *)
Definition fresh_counters (r : RuntimeId) : MeshPeerCounters :=
  mkMeshPeerCounters (RuntimeId_to_hex r) 0 0 0 0 0 0 0.

Definition apply_gossip_record (record : GossipRecord) (m : MeshMembership) : MeshMembership * bool :=
  let id := gr_runtime_id record in
  if bool_decide (id = mm_local_runtime_id m) then (m, false)
  else
    let heartbeat := system_time_from_millis (gr_heartbeat_millis record) in
    match mm_peers m !! id with
    | Some peer =>
        if (gr_version record <=? gr_version (ps_record peer))%N then (m, false)
        else
          (set_peers (<[id := mkPeerState record (observe heartbeat (ps_phi peer)) Connected
                                (ps_counters peer)]> (mm_peers m)) m, true)
    | None =>
        (set_peers (<[id := mkPeerState record (observe heartbeat PhiAccrual_default) Connected
                              (fresh_counters id)]> (mm_peers m)) m, true)
    end.

(** One iteration of the loop of [apply_ready_records]. *)
Definition apply_ready_record `{Sha256Lib, SchnorrLib} (now_millis : N) (m : MeshMembership) (ready : ReadyRecord)
    : MeshMembership :=
  if bool_decide (rr_runtime_id ready = mm_local_runtime_id m) then m
  else if negb (match mm_expected_relay_pubkey m with
                | Some expected => String.eqb (rr_relay_pubkey ready) expected
                | None => false
                end) then count_foreign m
  else match ReadyRecord_verify_attestation ready with
       | Err _ => m
       | Ok _ =>
           let r := GossipRecord_new now_millis (rr_runtime_id ready) (rr_endpoint_addrs ready)
                      (rr_proto_version ready) in
           let r := mkGossipRecord (gr_runtime_id r) (gr_endpoint_addrs r) (gr_proto_version r) (gr_load r)
                      (gr_draining r) (rr_capabilities ready) (gr_version r) (gr_heartbeat_millis r) in
           (apply_gossip_record r m).1
       end.

Definition apply_ready_records `{Sha256Lib, SchnorrLib} (now_millis : N) (rs : list ReadyRecord)
    (m : MeshMembership) : MeshMembership :=
  foldl (apply_ready_record now_millis) m rs.

Definition mark_connection_state (id : RuntimeId) (state : ConnectionState) (m : MeshMembership) : MeshMembership :=
  match mm_peers m !! id with
  | Some peer =>
      set_peers (<[id := mkPeerState (ps_record peer) (ps_phi peer) state (ps_counters peer)]> (mm_peers m)) m
  | None => m
  end.

Definition membership_update_local (now_millis : N) (update : GossipRecord -> GossipRecord) (m : MeshMembership)
    : MeshMembership * GossipRecord :=
  let r := touch now_millis update (mm_local_record m) in (set_local_record r m, r).

Definition set_draining (r : GossipRecord) : GossipRecord :=
  mkGossipRecord (gr_runtime_id r) (gr_endpoint_addrs r) (gr_proto_version r) (gr_load r) true
    (gr_capabilities r) (gr_version r) (gr_heartbeat_millis r).

Definition begin_drain (now_millis : N) (m : MeshMembership) : MeshMembership :=
  let m := mkMembership (mm_local_runtime_id m) (mm_local_record m) (mm_peers m) true
    (mm_stale_generation_rejections m) (mm_foreign_relay_rejections m) (mm_expected_relay_pubkey m)
    (mm_phi_suspect_threshold m) in
  (membership_update_local now_millis set_draining m).1.

Definition has_peer (id : RuntimeId) (m : MeshMembership) : bool := bool_decide (is_Some (mm_peers m !! id)).

(** [records()]: the peers' records, then the local one. *)
Definition membership_records (m : MeshMembership) : list GossipRecord :=
  (ps_record <$> (map_to_list (mm_peers m)).*2) ++ [mm_local_record m].

Definition membership_digest (m : MeshMembership) : GossipMessage :=
  Digest GOSSIP_PAYLOAD_VERSION (digest_of (membership_records m)).

Definition membership_delta_for (entries : list GossipDigestEntry) (m : MeshMembership) : GossipMessage :=
  Delta GOSSIP_PAYLOAD_VERSION (delta_of entries (membership_records m)).

Definition update_peer_counters (id : RuntimeId) (update : MeshPeerCounters -> MeshPeerCounters)
    (m : MeshMembership) : MeshMembership :=
  match mm_peers m !! id with
  | Some peer =>
      set_peers (<[id := mkPeerState (ps_record peer) (ps_phi peer) (ps_connection_state peer)
                           (update (ps_counters peer))]> (mm_peers m)) m
  | None => m
  end.

Definition record_stale_generation_rejection (id : option RuntimeId) (m : MeshMembership) : MeshMembership :=
  let m := mkMembership (mm_local_runtime_id m) (mm_local_record m) (mm_peers m) (mm_draining m)
    (wrapping_succ (mm_stale_generation_rejections m)) (mm_foreign_relay_rejections m)
    (mm_expected_relay_pubkey m) (mm_phi_suspect_threshold m) in
  match id with
  | Some id =>
      update_peer_counters id (fun c => mkMeshPeerCounters (pc_runtime_id c) (pc_streams_opened c)
        (pc_streams_received c) (pc_datagrams_sent c) (pc_datagrams_received c) (pc_gossip_frames_sent c)
        (pc_gossip_frames_received c) (saturating_succ (pc_stale_generation_rejections c))) m
  | None => m
  end.

(** The phi a peer shows at [now] and whether it is suspect. *)
Definition suspect (m : MeshMembership) (now : N) (peer : PeerState) : bool :=
  match phi_at now (ps_phi peer) with
  | Some p => (mm_phi_suspect_threshold m <=? p)%N
  | None => false
  end.

Record PeerInfo := mkPeerInfo {
  pi_runtime_id : RuntimeId;
  pi_draining : bool;
  pi_phi : option N;
  pi_load : N;
}.

Definition peers (now : N) (m : MeshMembership) : list PeerInfo :=
  omap (fun kp =>
    let peer := kp.2 in
    if suspect m now peer then None
    else Some (mkPeerInfo (gr_runtime_id (ps_record peer)) (gr_draining (ps_record peer))
                 (phi_at now (ps_phi peer)) (gr_load (ps_record peer)))) (map_to_list (mm_peers m)).

(** The connection state [peer_statuses] reports. *)
Definition reported_state (m : MeshMembership) (now : N) (peer : PeerState) : ConnectionState :=
  if suspect m now peer then Suspect else ps_connection_state peer.

Record MeshPeerStatus := mkMeshPeerStatus {
  mp_runtime_id : string;
  mp_endpoint_addrs : list string;
  mp_proto_version : N;
  mp_draining : bool;
  mp_connection_state : ConnectionState;
  mp_phi : option N;
  mp_load : N;
  mp_record_version : N;
  mp_last_heartbeat_millis : N;
  mp_counters : MeshPeerCounters;
}.
Record MeshCounters := mkMeshCounters {
  mc_stale_generation_rejections : N;
  mc_foreign_relay_rejections : N;
  mc_peers : list MeshPeerCounters;
}.
Record MeshStatus := mkMeshStatus {
  ms_enabled : bool;
  ms_local_runtime_id : string;
  ms_draining : bool;
  ms_peer_count : nat;
  ms_peers : list MeshPeerStatus;
  ms_counters : MeshCounters;
}.

Definition peer_statuses (now : N) (m : MeshMembership) : list MeshPeerStatus :=
  (fun peer => let r := ps_record peer in
     mkMeshPeerStatus (RuntimeId_to_hex (gr_runtime_id r)) (gr_endpoint_addrs r) (gr_proto_version r)
       (gr_draining r) (reported_state m now peer) (phi_at now (ps_phi peer)) (gr_load r) (gr_version r)
       (gr_heartbeat_millis r) (ps_counters peer)) <$> (map_to_list (mm_peers m)).*2.

Definition status (now : N) (m : MeshMembership) : MeshStatus :=
  let peers := sort_by (fun a b => String.leb (mp_runtime_id a) (mp_runtime_id b)) (peer_statuses now m) in
  mkMeshStatus true (RuntimeId_to_hex (gr_runtime_id (mm_local_record m))) (mm_draining m) (length peers) peers
    (mkMeshCounters (mm_stale_generation_rejections m) (mm_foreign_relay_rejections m) (mp_counters <$> peers)).

(** ** Decisions of the mesh runtime *)

Definition new_connection_wins (local remote : RuntimeId) (new_dialed_by_us : bool) : bool :=
  if String.ltb (rid_bytes local) (rid_bytes remote) then new_dialed_by_us else negb new_dialed_by_us.

(** [is_known_peer]; [rescan] is what the registry, if there is one, returns. *)
Definition is_known_peer `{Sha256Lib, SchnorrLib} (now_millis : N) (rescan : option (list ReadyRecord))
    (id : RuntimeId) (m : MeshMembership) : MeshMembership * bool :=
  if has_peer id m then (m, true)
  else
    let m := match rescan with Some rs => apply_ready_records now_millis rs m | None => m end in
    (m, has_peer id m).

(** A gossip message received on a control stream: the answer to send, if any. *)
Definition receive_gossip (msg : GossipMessage) (m : MeshMembership) : MeshMembership * option GossipMessage :=
  match msg with
  | Digest _ entries => (m, Some (membership_delta_for entries m))
  | Delta _ rs => (foldl (fun m r => (apply_gossip_record r m).1) m rs, None)
  end.
End methods.
