(* ===== verification/MembershipTheorems.v ===== *)
(** Correctness of mesh membership: gossip converges to the newest record of
    every runtime and never rolls one back, ready seeds are admitted only under
    the anchored identity, and attestations bind one runtime. *)

From S2P Require Import Prelude Binary64 Nostr MeshWire Gossip Membership.

(** ** The table *)

(** Peers are stored under their own id and the local runtime is not a peer. *)
Record mesh_inv (m : MeshMembership) : Prop := {
  mi_keys : forall id p, mm_peers m !! id = Some p -> gr_runtime_id (ps_record p) = id;
  mi_local_absent : mm_peers m !! mm_local_runtime_id m = None;
  mi_local_id : gr_runtime_id (mm_local_record m) = mm_local_runtime_id m;
  mi_local_u64 : (gr_version (mm_local_record m) <= u64_max)%N;
}.

(** What the runtime knows about another, or itself. *)
Definition known (m : MeshMembership) (id : RuntimeId) : option GossipRecord :=
  if decide (id = mm_local_runtime_id m) then Some (mm_local_record m)
  else ps_record <$> mm_peers m !! id.

(** The newer of two records, the first on a tie. *)
Definition newest (mine theirs : option GossipRecord) : option GossipRecord :=
  match mine, theirs with
  | Some a, Some b => if (gr_version a <? gr_version b)%N then Some b else Some a
  | None, o => o
  | o, None => o
  end.

Lemma find_None_2 {A} (f : A -> bool) l : (forall x, x ∈ l -> f x = false) -> List.find f l = None.
Proof.
  intros Hf. destruct (List.find f l) as [x|] eqn:E; [|done].
  apply find_some in E as [Hin Hx]. rewrite Hf in Hx by by apply list_elem_of_In. done.
Qed.

Lemma NoDup_fmap_filter {A B} (f : A -> B) (keep : A -> bool) l :
  NoDup (f <$> l) -> NoDup (f <$> List.filter keep l).
Proof.
  induction l as [|x l IH]; [done|]. cbn. intros [Hni Hnd]%NoDup_cons.
  case_match; [|by apply IH]. cbn. apply NoDup_cons. split; [|by apply IH].
  intros (y & E & Hin)%list_elem_of_fmap. apply Hni. apply list_elem_of_fmap. exists y. split; [done|].
  apply list_elem_of_In in Hin. apply filter_In in Hin as [Hin _]. by apply list_elem_of_In.
Qed.

Section table.
Context `{HexLib}.

Lemma mesh_inv_new r : (gr_version r <= u64_max)%N -> mesh_inv (MeshMembership_new r).
Proof. intros Hv. split; cbn; [|by rewrite lookup_empty|done|done]. intros id p. by rewrite lookup_empty. Qed.

Lemma apply_gossip_record_spec r m :
  mesh_inv m ->
  let m' := (apply_gossip_record r m).1 in
  mesh_inv m' /\ mm_local_runtime_id m' = mm_local_runtime_id m /\ mm_local_record m' = mm_local_record m /\
  mm_expected_relay_pubkey m' = mm_expected_relay_pubkey m /\
  forall id, known m' id =
    if decide (id = gr_runtime_id r /\ id <> mm_local_runtime_id m) then newest (known m id) (Some r) else known m id.
Proof.
  intros Hm. pose proof Hm as [Hk Ha Hl Hu]. unfold apply_gossip_record. case_bool_decide as Hloc.
  { split_and!; try done. intros id. case_decide as Hd; [|done]. destruct Hd. congruence. }
  assert (forall phi st c, 
    let m' := set_peers (<[gr_runtime_id r := mkPeerState r phi st c]> (mm_peers m)) m in mesh_inv m') as Hinv.
  { intros phi st c. split; cbn; [|by rewrite lookup_insert_ne|done|done].
    intros id p [[<- <-]|[_ Hp]]%lookup_insert_Some; [done|by apply Hk]. }
  destruct (mm_peers m !! gr_runtime_id r) as [peer|] eqn:Hp.
  - destruct (N.leb_spec (gr_version r) (gr_version (ps_record peer))) as [Hle|Hlt].
    + split_and!; try done. intros id. case_decide as Hd; [|done]. destruct Hd as [-> Hne].
      unfold known. cbn [fst]. rewrite !decide_False by done. rewrite Hp. cbn [fmap option_fmap option_map newest].
      by rewrite (proj2 (N.ltb_ge _ _)) by lia.
    + split_and!; [apply Hinv|done|done|done|]. intros id. unfold known. cbn [mm_peers set_peers mm_local_runtime_id mm_local_record fst].
      destruct (decide (id = mm_local_runtime_id m)) as [->|Hne]; [by rewrite decide_False by naive_solver|].
      destruct (decide (id = gr_runtime_id r)) as [->|Hid].
      * rewrite decide_True by done. rewrite lookup_insert_eq, Hp.
        cbn [fmap option_fmap option_map newest]. by rewrite (proj2 (N.ltb_lt _ _)).
      * rewrite decide_False by naive_solver. by rewrite lookup_insert_ne.
  - split_and!; [apply Hinv|done|done|done|]. intros id. unfold known. cbn [mm_peers set_peers mm_local_runtime_id mm_local_record fst].
    destruct (decide (id = mm_local_runtime_id m)) as [->|Hne]; [by rewrite decide_False by naive_solver|].
    destruct (decide (id = gr_runtime_id r)) as [->|Hid].
    + rewrite decide_True by done. by rewrite lookup_insert_eq, Hp.
    + rewrite decide_False by naive_solver. by rewrite lookup_insert_ne.
Qed.

Lemma elem_of_membership_records m r :
  mesh_inv m -> r ∈ membership_records m <-> known m (gr_runtime_id r) = Some r.
Proof.
  intros [Hk Ha Hl _]. unfold membership_records, known. rewrite elem_of_app, list_elem_of_singleton, list_elem_of_fmap.
  setoid_rewrite list_elem_of_fmap. split.
  - intros [(p & -> & [id p'] & Ep & Hin)| ->].
    + cbn in Ep. subst p'. apply elem_of_map_to_list in Hin. rewrite (Hk _ _ Hin).
      rewrite decide_False by (intros ->; congruence). by rewrite Hin.
    + rewrite decide_True by done. done.
  - case_decide as Hd; [intros [= <-]; by right|]. intros Hp. left.
    destruct (mm_peers m !! gr_runtime_id r) as [p|] eqn:E; [|done]. cbn in Hp. simplify_eq.
    exists p. split; [done|]. exists (gr_runtime_id (ps_record p), p). split; [done|]. by apply elem_of_map_to_list.
Qed.

Lemma membership_records_ids m : mesh_inv m -> NoDup (gr_runtime_id <$> membership_records m).
Proof.
  intros [Hk Ha Hl _]. unfold membership_records. rewrite fmap_app. cbn. rewrite Hl.
  assert (gr_runtime_id <$> (ps_record <$> (map_to_list (mm_peers m)).*2) = (map_to_list (mm_peers m)).*1) as ->.
  { assert (Forall (fun kp => gr_runtime_id (ps_record kp.2) = kp.1) (map_to_list (mm_peers m))) as HF.
    { apply Forall_forall. intros [id p] Hin%elem_of_map_to_list. cbn. by apply Hk. }
    induction HF as [|[id p] l E _ IH]; [done|]. cbn in *. by rewrite E, IH. }
  apply NoDup_app. split_and!; [apply NoDup_fst_map_to_list| |apply NoDup_singleton].
  intros id Hid Hloc%list_elem_of_singleton. subst id. apply list_elem_of_fmap in Hid as ([id p] & E & Hin).
  apply elem_of_map_to_list in Hin. cbn in *. congruence.
Qed.

(** Applying records with distinct ids merges each of them. *)
Lemma apply_records_spec rs m :
  mesh_inv m -> NoDup (gr_runtime_id <$> rs) ->
  let m' := foldl (fun m r => (apply_gossip_record r m).1) m rs in
  mesh_inv m' /\ mm_local_runtime_id m' = mm_local_runtime_id m /\ mm_local_record m' = mm_local_record m /\
  forall id, known m' id =
    if decide (id = mm_local_runtime_id m) then known m id
    else newest (known m id) (List.find (fun r => bool_decide (gr_runtime_id r = id)) rs).
Proof.
  revert m. induction rs as [|r rs IH]; intros m Hinv Hnd; cbn [foldl].
  { split_and!; try done. intros id. case_decide; [done|]. cbn. by destruct (known m id). }
  cbn in Hnd. apply NoDup_cons in Hnd as [Hni Hnd].
  destruct (apply_gossip_record_spec r m Hinv) as (Hinv1 & Hl1 & Hr1 & _ & Hk1).
  destruct (IH (apply_gossip_record r m).1 Hinv1 Hnd) as (Hinv2 & Hl2 & Hr2 & Hk2).
  split_and!; [done|congruence|congruence|]. intros id. rewrite Hk2, Hl1, Hk1. cbn [List.find].
  destruct (decide (id = mm_local_runtime_id m)) as [->|Hne]; [by rewrite decide_False by naive_solver|].
  case_bool_decide as Hid.
  - subst id. rewrite decide_True by done.
    assert (List.find (fun r0 => bool_decide (gr_runtime_id r0 = gr_runtime_id r)) rs = None) as ->.
    { apply find_None_2. intros x Hx. apply bool_decide_eq_false_2. intros E. apply Hni.
      rewrite <- E. apply list_elem_of_fmap. by exists x. }
    by destruct (newest (known m (gr_runtime_id r)) (Some r)).
  - by rewrite decide_False by naive_solver.
Qed.
End table.

(** ** Convergence *)

Section gossip.
Context `{HexLib}.

(** One anti-entropy round: [me] sends its digest, [peer] answers with a delta,
    [me] applies it. *)
Definition pull (me peer : MeshMembership) : MeshMembership :=
  match (receive_gossip (membership_digest me) peer).2 with
  | Some delta => (receive_gossip delta me).1
  | None => me
  end.

(** The delta holds exactly the peer's records that are newer. *)
Lemma find_delta me peer id :
  mesh_inv me -> mesh_inv peer ->
  List.find (fun r => bool_decide (gr_runtime_id r = id))
    (delta_of (digest_of (membership_records me)) (membership_records peer))
  = match known peer id with
    | Some r => if newer_than (gr_version <$> known me id) (gr_version r) then Some r else None
    | None => None
    end.
Proof.
  intros Hme Hpeer.
  assert (forall i, digest_versions (digest_of (membership_records me)) !! i = gr_version <$> known me i) as Hdig.
  { intros i. apply option_eq. intros v. rewrite digest_of_versions by by apply membership_records_ids.
    rewrite fmap_Some. split.
    - intros (rec & Hin & <- & <-). apply elem_of_membership_records in Hin; [|done]. eauto.
    - intros (rec & Hk & ->). exists rec.
      assert (gr_runtime_id rec = i) as Hi.
      { unfold known in Hk. case_decide as Hd.
        - simplify_eq. apply Hme.
        - destruct (mm_peers me !! i) as [p|] eqn:E; [|done]. cbn in Hk. simplify_eq. by apply Hme. }
      split_and!; [|done|done]. apply elem_of_membership_records; [done|]. by rewrite Hi. }
  assert (forall r, known peer id = Some r -> gr_runtime_id r = id) as Hid.
  { intros r Hk. unfold known in Hk. case_decide as Hd.
    - simplify_eq. apply Hpeer.
    - destruct (mm_peers peer !! id) as [p|] eqn:E; [|done]. cbn in Hk. simplify_eq. by apply Hpeer. }
  assert (forall r, r ∈ delta_of (digest_of (membership_records me)) (membership_records peer) /\ gr_runtime_id r = id
    <-> known peer id = Some r /\ newer_than (gr_version <$> known me id) (gr_version r) = true) as Hmem.
  { intros r. rewrite elem_of_delta, elem_of_membership_records by done. rewrite Hdig. split.
    - intros [[Hk Hn] <-]. done.
    - intros [Hk Hn]. pose proof (Hid r Hk) as E. rewrite E. done. }
  destruct (List.find _ _) as [r|] eqn:E.
  - apply find_some in E as [Hin Hb]. apply bool_decide_eq_true_1 in Hb. apply list_elem_of_In in Hin.
    destruct (proj1 (Hmem r) (conj Hin Hb)) as [-> ->]. done.
  - destruct (known peer id) as [r|] eqn:Hk; [|done].
    destruct (newer_than _ _) eqn:Hn; [|done]. exfalso.
    destruct (proj2 (Hmem r)) as [Hin Hr]; [done|].
    apply list_elem_of_In, (find_none _ _ E), bool_decide_eq_false_1 in Hin. done.
Qed.

Lemma NoDup_delta entries m :
  mesh_inv m -> NoDup (gr_runtime_id <$> delta_of entries (membership_records m)).
Proof.
  intros Hinv. unfold delta_of. rewrite sort_by_perm. by apply NoDup_fmap_filter, membership_records_ids.
Qed.

Lemma pull_spec me peer :
  mesh_inv me -> mesh_inv peer ->
  mesh_inv (pull me peer) /\ mm_local_runtime_id (pull me peer) = mm_local_runtime_id me /\
  forall id, known (pull me peer) id =
    if decide (id = mm_local_runtime_id me) then known me id else newest (known me id) (known peer id).
Proof.
  intros Hme Hpeer. unfold pull, membership_digest, receive_gossip, membership_delta_for. cbn [fst snd].
  destruct (apply_records_spec _ me Hme (NoDup_delta (digest_of (membership_records me)) peer Hpeer))
    as (Hinv & Hl & _ & Hk).
  split_and!; [done|done|]. intros id. rewrite Hk. case_decide; [done|].
  rewrite find_delta by done. destruct (known peer id) as [r|]; [|done].
  destruct (known me id) as [r0|]; cbn [fmap option_fmap option_map newer_than newest]; [|done].
  destruct (gr_version r0 <? gr_version r)%N eqn:E; cbn [newest]; by rewrite ?E.
Qed.

(** Two tables that a correct mesh can produce: equal versions are equal
    records, and nobody has a newer record of a runtime than that runtime. *)
Definition coherent (a b : MeshMembership) : Prop :=
  (forall id ra rb, known a id = Some ra -> known b id = Some rb -> gr_version ra = gr_version rb -> ra = rb) /\
  (forall r, known b (mm_local_runtime_id a) = Some r -> (gr_version r <= gr_version (mm_local_record a))%N) /\
  (forall r, known a (mm_local_runtime_id b) = Some r -> (gr_version r <= gr_version (mm_local_record b))%N).

(** Gossip converges.  After one anti-entropy round in each direction, two
    runtimes hold the same record of every runtime of the mesh, themselves
    included, namely the newest either of them had. *)
Theorem gossip_converges a b :
  mesh_inv a -> mesh_inv b -> coherent a b ->
  let a' := pull a b in let b' := pull b a' in
  forall id, known a' id = known b' id /\ known b' id = newest (known a id) (known b id).
Proof.
  intros Ha Hb (Hco & Hla & Hlb) a' b' id.
  destruct (pull_spec a b Ha Hb) as (Ha' & Hida & Hka). fold a' in Ha', Hida, Hka.
  destruct (pull_spec b a' Hb Ha') as (_ & _ & Hkb). fold b' in Hkb.
  assert (known a (mm_local_runtime_id a) = Some (mm_local_record a)) as Eka by (unfold known; by rewrite decide_True).
  assert (known b (mm_local_runtime_id b) = Some (mm_local_record b)) as Ekb by (unfold known; by rewrite decide_True).
  specialize (Hco id). rewrite Hkb, Hka. clear Hkb Hka.
  repeat case_decide; subst; rewrite ?Eka, ?Ekb in *.
  - match goal with E : mm_local_runtime_id a = mm_local_runtime_id b |- _ => rewrite E in * end.
    rewrite Ekb in *. specialize (Hla _ eq_refl). specialize (Hlb _ Eka).
    rewrite (Hco _ _ eq_refl eq_refl) by lia. cbn [newest]. by rewrite N.ltb_irrefl.
  - destruct (known b (mm_local_runtime_id a)) as [rb|]; [|done]. cbn [newest].
    specialize (Hla _ eq_refl). specialize (Hco _ _ eq_refl eq_refl).
    destruct (N.ltb_spec (gr_version rb) (gr_version (mm_local_record a))),
      (N.ltb_spec (gr_version (mm_local_record a)) (gr_version rb)); try lia; try done.
    by rewrite Hco by lia.
  - destruct (known a (mm_local_runtime_id b)) as [ra|]; [|done]. cbn [newest].
    specialize (Hlb _ eq_refl). specialize (Hco _ _ eq_refl eq_refl).
    destruct (N.ltb_spec (gr_version ra) (gr_version (mm_local_record b))); [done|].
    by rewrite Hco by lia.
  - destruct (known a id) as [ra|], (known b id) as [rb|]; cbn [newest]; try done;
      [|by rewrite N.ltb_irrefl].
    specialize (Hco _ _ eq_refl eq_refl).
    destruct (N.ltb_spec (gr_version ra) (gr_version rb)); cbn [newest]; [by rewrite N.ltb_irrefl|].
    destruct (N.ltb_spec (gr_version rb) (gr_version ra)); [done|]. by rewrite Hco by lia.
Qed.
End gossip.

(** ** Any sequence of operations *)

Section operations.
Context `{HexLib, Sha256Lib, SchnorrLib}.

(** What can happen to a table.  Closures given to [update_local] edit neither
    the identity nor the version, as those of the mesh do not. *)
Inductive MeshOp :=
| OpGossip (msg : GossipMessage)
| OpRecord (r : GossipRecord)
| OpReady (now_millis : N) (rs : list ReadyRecord)
| OpAdmit (now_millis : N) (rescan : option (list ReadyRecord)) (id : RuntimeId)
| OpMark (id : RuntimeId) (state : ConnectionState)
| OpUpdate (now_millis : N) (update : GossipRecord -> GossipRecord)
| OpDrain (now_millis : N)
| OpCount (id : RuntimeId) (update : MeshPeerCounters -> MeshPeerCounters)
| OpStale (id : option RuntimeId).

Definition op_ok (op : MeshOp) : Prop :=
  match op with
  | OpUpdate _ update =>
      forall r, gr_runtime_id (update r) = gr_runtime_id r /\ gr_version (update r) = gr_version r
  | _ => True
  end.

Definition run_op (m : MeshMembership) (op : MeshOp) : MeshMembership :=
  match op with
  | OpGossip msg => (receive_gossip msg m).1
  | OpRecord r => (apply_gossip_record r m).1
  | OpReady now rs => apply_ready_records now rs m
  | OpAdmit now rescan id => (is_known_peer now rescan id m).1
  | OpMark id state => mark_connection_state id state m
  | OpUpdate now update => (membership_update_local now update m).1
  | OpDrain now => begin_drain now m
  | OpCount id update => update_peer_counters id update m
  | OpStale id => record_stale_generation_rejection id m
  end.

(** [m'] knows at least what [m] knows, as recent, about every runtime. *)
Definition at_least (m m' : MeshMembership) : Prop :=
  forall id r, known m id = Some r -> exists r', known m' id = Some r' /\ (gr_version r <= gr_version r')%N.

#[local] Instance at_least_preorder : PreOrder at_least.
Proof.
  split.
  - intros m id r Hr. by exists r.
  - intros a b c Hab Hbc id r Hr. destruct (Hab id r Hr) as (r1 & H1' & ?).
    destruct (Hbc id r1 H1') as (r2 & ? & ?). exists r2. split; [done|lia].
Qed.

(** A step keeps the invariant, the identities and the anchor, and loses nothing. *)
Definition step_ok (m m' : MeshMembership) : Prop :=
  mesh_inv m' /\ mm_local_runtime_id m' = mm_local_runtime_id m /\
  mm_expected_relay_pubkey m' = mm_expected_relay_pubkey m /\ at_least m m'.

Lemma step_ok_refl m : mesh_inv m -> step_ok m m.
Proof. intros. split_and!; try done. Qed.

(** Steps that touch neither records nor identities. *)
Lemma step_ok_same m m' :
  mesh_inv m -> mm_peers m' = mm_peers m -> mm_local_record m' = mm_local_record m ->
  mm_local_runtime_id m' = mm_local_runtime_id m ->
  mm_expected_relay_pubkey m' = mm_expected_relay_pubkey m -> step_ok m m'.
Proof.
  intros [] E1 E2 E3 E4. split_and!; [split; by rewrite ?E1, ?E2, ?E3|done|done|].
  intros id r Hr. exists r. split; [|done]. unfold known. by rewrite E1, E2, E3.
Qed.

Lemma step_ok_trans a b c : step_ok a b -> step_ok b c -> step_ok a c.
Proof.
  intros (_ & ? & ? & Hab) (? & ? & ? & Hbc). split_and!; [done|congruence|congruence|].
  by etrans.
Qed.

Lemma apply_gossip_record_ok r m : mesh_inv m -> step_ok m (apply_gossip_record r m).1.
Proof.
  intros Hinv. destruct (apply_gossip_record_spec r m Hinv) as (? & ? & _ & ? & Hk).
  split_and!; try done. intros id x Hx. rewrite Hk. case_decide; [|by exists x].
  rewrite Hx. cbn [newest]. destruct (N.ltb_spec (gr_version x) (gr_version r)); eauto with lia.
Qed.

Lemma fold_ok {A} (f : MeshMembership -> A -> MeshMembership) l m :
  (forall m a, mesh_inv m -> step_ok m (f m a)) -> mesh_inv m -> step_ok m (foldl f m l).
Proof.
  intros Hf. revert m. induction l as [|a l IH]; intros m Hinv; cbn; [by apply step_ok_refl|].
  eapply step_ok_trans; [by apply Hf|]. apply IH. apply (Hf m a Hinv).
Qed.

Lemma apply_ready_ok now m r : mesh_inv m -> step_ok m (apply_ready_record now m r).
Proof.
  intros Hinv. unfold apply_ready_record. case_bool_decide; [by apply step_ok_refl|].
  case_match; [by apply step_ok_same|].
  destruct (ReadyRecord_verify_attestation r); [by apply apply_gossip_record_ok|by apply step_ok_refl].
Qed.

(** Rewriting a peer's bookkeeping but not its record. *)
Lemma set_peer_ok m id p p' :
  mesh_inv m -> mm_peers m !! id = Some p -> ps_record p' = ps_record p ->
  step_ok m (set_peers (<[id := p']> (mm_peers m)) m).
Proof.
  intros [Hk Ha Hl Hu] Hp Hr. split_and!; [|done|done|].
  - split; cbn; [| |done|done].
    + intros i q [[<- <-]|[_ Hq]]%lookup_insert_Some; [rewrite Hr|]; by apply Hk.
    + rewrite lookup_insert_ne; [done|]. intros ->. congruence.
  - intros i r Hr'. exists r. split; [|done]. rewrite <- Hr'. unfold known. cbn. case_decide; [done|].
    destruct (decide (i = id)) as [->|Hne]; [|by rewrite lookup_insert_ne].
    rewrite lookup_insert_eq, Hp. cbn. by rewrite Hr.
Qed.

Lemma set_local_ok m r :
  mesh_inv m -> gr_runtime_id r = mm_local_runtime_id m ->
  (gr_version (mm_local_record m) <= gr_version r <= u64_max)%N -> step_ok m (set_local_record r m).
Proof.
  intros [Hk Ha Hl Hu] Hid [Hv ?]. split_and!; [by split|done|done|].
  intros id x. unfold known. cbn. case_decide; intros Hx; [|by exists x]. simplify_eq. eauto.
Qed.

Lemma saturating_succ_le v : (v <= u64_max)%N -> (v <= saturating_succ v <= u64_max)%N.
Proof. unfold saturating_succ. lia. Qed.

Lemma run_op_ok op m :
  op_ok op -> mesh_inv m -> step_ok m (run_op m op).
Proof.
  intros Hop Hinv. pose proof (mi_local_u64 m Hinv) as Hv. destruct op as [msg|r|now rs|now rescan id|id st|now f|now|id f|id]; cbn [run_op].
  - destruct msg; cbn; [by apply step_ok_refl|]. apply fold_ok; [|done]. intros. by apply apply_gossip_record_ok.
  - by apply apply_gossip_record_ok.
  - apply fold_ok; [|done]. intros. by apply apply_ready_ok.
  - unfold is_known_peer. case_match; [by apply step_ok_refl|]. cbn.
    destruct rescan; [|by apply step_ok_refl]. apply fold_ok; [|done]. intros. by apply apply_ready_ok.
  - unfold mark_connection_state. destruct (mm_peers m !! id) eqn:E; [|by apply step_ok_refl].
    by eapply set_peer_ok.
  - cbn in Hop. destruct (Hop (mm_local_record m)) as [E1 E2]. apply set_local_ok; [done| |].
    + cbn. rewrite E1. apply Hinv.
    + cbn. rewrite E2. by apply saturating_succ_le.
  - unfold begin_drain. set (m1 := mkMembership _ _ _ _ _ _ _ _).
    assert (step_ok m m1) as Hm1 by by apply step_ok_same.
    eapply step_ok_trans; [exact Hm1|]. apply set_local_ok; [apply Hm1|apply Hinv|by apply saturating_succ_le].
  - unfold update_peer_counters. destruct (mm_peers m !! id) eqn:E; [|by apply step_ok_refl].
    by eapply set_peer_ok.
  - unfold record_stale_generation_rejection.
    set (m1 := mkMembership _ _ _ _ _ _ _ _).
    assert (step_ok m m1) as H1' by by apply step_ok_same.
    destruct id as [id|]; [|done]. eapply step_ok_trans; [exact H1'|].
    unfold update_peer_counters. destruct (mm_peers m1 !! id) eqn:E; [|apply step_ok_refl; by apply H1'].
    eapply set_peer_ok; [by apply H1'|done|done].
Qed.

(** Membership never rolls back.  Whatever a runtime is told, in whatever
    order, by gossip, registry or its own updates: nothing it knows is ever
    forgotten or replaced by an older version, no message makes it overwrite its
    own identity, its trust anchor stays, and the table stays well keyed. *)
Theorem membership_never_rolls_back ops m :
  Forall op_ok ops -> mesh_inv m -> step_ok m (foldl run_op m ops).
Proof.
  intros HF. revert m. induction HF as [|op ops Hop _ IH]; intros m Hinv; cbn; [by apply step_ok_refl|].
  pose proof (run_op_ok op m Hop Hinv) as Hs. eapply step_ok_trans; [exact Hs|]. apply IH, Hs.
Qed.
End operations.

(** ** Admission *)

Section admission.
Context `{HexLib, Sha256Lib, SchnorrLib}.

(** A seed of this deployment: attested by the anchored relay identity. *)
Definition admissible (m : MeshMembership) (r : ReadyRecord) : Prop :=
  rr_runtime_id r <> mm_local_runtime_id m /\ mm_expected_relay_pubkey m = Some (rr_relay_pubkey r) /\
  ReadyRecord_verify_attestation r = Ok tt.

Lemma has_peer_known m id :
  mesh_inv m -> id <> mm_local_runtime_id m -> has_peer id m = true <-> is_Some (known m id).
Proof.
  intros Hinv Hne. unfold has_peer, known. rewrite decide_False by done. rewrite bool_decide_eq_true, fmap_is_Some. done.
Qed.

Lemma has_peer_local m : mesh_inv m -> has_peer (mm_local_runtime_id m) m = false.
Proof. intros []. unfold has_peer. apply bool_decide_eq_false_2. rewrite mi_local_absent0. by intros []. Qed.

Lemma has_peer_apply r m id :
  mesh_inv m ->
  has_peer id (apply_gossip_record r m).1 = true <->
  has_peer id m = true \/ (id = gr_runtime_id r /\ id <> mm_local_runtime_id m).
Proof.
  intros Hinv. destruct (apply_gossip_record_spec r m Hinv) as (Hinv' & Hl & _ & _ & Hk).
  destruct (decide (id = mm_local_runtime_id m)) as [->|Hne].
  - rewrite <- Hl at 1. rewrite !has_peer_local by done. naive_solver.
  - rewrite !has_peer_known by congruence. rewrite Hk. case_decide as Hd.
    + split; [by right|]. intros _. destruct (known m id) as [x|]; cbn; [case_match|]; eauto.
    + naive_solver.
Qed.

Lemma apply_ready_peer now m r id :
  mesh_inv m ->
  has_peer id (apply_ready_record now m r) = true <->
  has_peer id m = true \/ (rr_runtime_id r = id /\ admissible m r).
Proof.
  intros Hinv. unfold apply_ready_record, admissible. case_bool_decide as Hloc; [naive_solver|].
  destruct (mm_expected_relay_pubkey m) as [k|] eqn:Ek; cbn [negb].
  - destruct (String.eqb_spec (rr_relay_pubkey r) k) as [<-|Hk]; cbn [negb].
    + destruct (ReadyRecord_verify_attestation r) as [[]|] eqn:Ev; [|naive_solver].
      rewrite has_peer_apply by done. cbn [gr_runtime_id GossipRecord_new]. naive_solver.
    + change (has_peer id (count_foreign m)) with (has_peer id m). naive_solver.
  - change (has_peer id (count_foreign m)) with (has_peer id m). naive_solver.
Qed.

(** Seeds are admitted exactly under the anchor.  After applying registry
    records, a runtime is a peer exactly when it was one before or some record
    names it, carries the anchored relay identity and a valid attestation; so
    without an anchor nothing is admitted. *)
Theorem ready_admission_exact now rs m id :
  mesh_inv m ->
  has_peer id (apply_ready_records now rs m) = true <->
  has_peer id m = true \/ exists r, r ∈ rs /\ rr_runtime_id r = id /\ admissible m r.
Proof.
  revert m. induction rs as [|r rs IH]; intros m Hinv; cbn [apply_ready_records foldl]; [set_solver|].
  destruct (apply_ready_ok now m r Hinv) as (Hinv' & Hl & Hx & _).
  change (foldl (apply_ready_record now) (apply_ready_record now m r) rs)
    with (apply_ready_records now rs (apply_ready_record now m r)).
  rewrite IH by done. rewrite apply_ready_peer by done.
  assert (forall r', admissible (apply_ready_record now m r) r' <-> admissible m r') as Hadm.
  { intros r'. unfold admissible. by rewrite Hl, Hx. }
  setoid_rewrite Hadm. setoid_rewrite elem_of_cons. split.
  - intros [[Hp|[Hid Ha]]|(r' & Hin & Hid & Ha)]; [by left| |]; right; eauto.
  - intros [Hp|(r' & [->|Hin] & Hid & Ha)]; [by left; left|by left; right|]. right. eauto.
Qed.

(** Gossip is different: any record received from a connected peer makes its
    runtime a known peer, without an attestation, although the admission check
    is documented to require one. *)
Theorem gossip_admits_unattested r m :
  mesh_inv m -> gr_runtime_id r <> mm_local_runtime_id m ->
  has_peer (gr_runtime_id r) (apply_gossip_record r m).1 = true.
Proof. intros Hinv Hne. apply has_peer_apply; [done|]. by right. Qed.
End admission.

(** An attestation is for one runtime and one relay key: two attestations
    with the same signed digest, when the digest does not collide on their
    texts, name the same runtime and the same key. *)
Theorem attestation_binds `{HexLaws, !HexTextLaws, Sha256Lib} r r' k k' :
  String.length (rid_bytes r) = 32%nat -> String.length (rid_bytes r') = 32%nat ->
  no_collision sha256_digest (attestation_preimage r k) (attestation_preimage r' k') ->
  attestation_message r k = attestation_message r' k' -> r = r' /\ k = k'.
Proof.
  intros Hr Hr' Hnc Heq. apply Hnc in Heq. unfold attestation_preimage in Heq.
  do 3 (apply app_inj_length in Heq as [_ Heq]; [|done]).
  apply app_inj_length in Heq as [Hhex Heq].
  - do 2 (apply app_inj_length in Heq as [_ Heq]; [|done]). split; [|done].
    unfold RuntimeId_to_hex in Hhex. apply (f_equal hex_decode) in Hhex. rewrite !hex_decode_encode in Hhex.
    destruct r, r'. cbn in *. congruence.
  - unfold RuntimeId_to_hex. rewrite !hex_encode_length. lia.
Qed.

(** ** Concrete instances *)

Module SampleMesh.
Import SampleHex.

(** A polynomial digest and a signature that is the signed digest under the
    key's text. *)
Fixpoint poly (acc : N) (s : string) : N :=
  match s with
  | EmptyString => acc
  | String c s' => poly ((acc * 257 + N_of_ascii c + 1) mod 2 ^ 256) s'
  end.
#[export] Instance sha : Sha256Lib := {| sha256_digest m := to_decimal (poly 7 m) |}.
#[export] Instance schnorr : SchnorrLib := {|
  sch_pubkey_from_hex s := if bool_decide (s = "aa") then Some 1%N else None;
  sch_pubkey_to_hex _ := "aa";
  sch_xonly _ := Some "x";
  sch_sig_from_str s := Some s;
  sch_verify sig msg _ := String.eqb sig msg;
|}.

Definition alice : RuntimeId := mkRuntimeId "alice".
Definition bob : RuntimeId := mkRuntimeId "bob".
Definition carol : RuntimeId := mkRuntimeId "carol".
Definition record_at (v : N) (id : RuntimeId) : GossipRecord :=
  mkGossipRecord id [] 1 0 false [] v 1000.

Definition table_a : MeshMembership :=
  with_expected_relay_pubkey "aa" (MeshMembership_new (record_at 2 alice)).
(** Bob has heard an old version of Alice's record, and of Carol. *)
Definition table_b : MeshMembership :=
  (apply_gossip_record (record_at 3 carol)
    (apply_gossip_record (record_at 1 alice) (MeshMembership_new (record_at 4 bob))).1).1.

Lemma table_a_inv : mesh_inv table_a.
Proof. destruct (mesh_inv_new (record_at 2 alice)) as [??? Hv]; [done|]. by split. Qed.
Lemma table_b_inv : mesh_inv table_b.
Proof. do 2 apply apply_gossip_record_ok. by apply mesh_inv_new. Qed.

Lemma known_a id r : known table_a id = Some r -> id = alice /\ r = record_at 2 alice.
Proof. unfold known. case_decide as E; [intros [= <-]; by rewrite E|]. cbn. by rewrite lookup_empty. Qed.

Lemma table_coherent : coherent table_a table_b.
Proof.
  split_and!.
  - intros id ra rb [-> ->]%known_a Hb. vm_compute in Hb. injection Hb as <-. discriminate.
  - intros r Hr. vm_compute in Hr. injection Hr as <-. done.
  - intros r [E _]%known_a. discriminate E.
Qed.

Definition seed : ReadyRecord :=
  mkReadyRecord bob (RuntimeId_to_hex bob) "aa" (attestation_message bob "aa") [] 1 [].
Definition long_id (c : ascii) : RuntimeId := mkRuntimeId (String.concat "" (repeat (String c "") 32)).
End SampleMesh.

Import SampleHex SampleMesh.

Lemma gossip_converges_witness :
  known (pull table_b (pull table_a table_b)) alice = Some (record_at 2 alice) /\
  forall id, known (pull table_a table_b) id = known (pull table_b (pull table_a table_b)) id /\
    known (pull table_b (pull table_a table_b)) id = newest (known table_a id) (known table_b id).
Proof.
  split; [vm_compute; reflexivity|].
  exact (gossip_converges table_a table_b table_a_inv table_b_inv table_coherent).
Defined.

Lemma membership_never_rolls_back_witness :
  step_ok table_b (foldl run_op table_b
    [OpRecord (record_at 2 carol); OpGossip (Delta 1 [record_at 9 bob; record_at 5 alice]); OpDrain 7; OpMark alice Suspect]).
Proof.
  apply (membership_never_rolls_back _ table_b); [|exact table_b_inv].
  repeat constructor.
Defined.

Lemma ready_admission_exact_witness : has_peer bob (apply_ready_records 5 [seed] table_a) = true.
Proof.
  apply (ready_admission_exact 5 [seed] table_a bob table_a_inv). right. exists seed.
  split_and!; [by left|done|]. split_and!; [done|done|vm_compute; reflexivity].
Defined.

Lemma attestation_binds_witness :
  mkRuntimeId (String.concat "" (repeat "a" 32)) = long_id "a"%char /\ rr_relay_pubkey seed = "aa".
Proof.
  apply (attestation_binds (mkRuntimeId (String.concat "" (repeat "a" 32))) (long_id "a"%char)
    (rr_relay_pubkey seed) "aa"); [reflexivity|reflexivity|intros _; reflexivity|vm_compute; reflexivity].
Defined.
