(* ===== verification/MeshRuntime.v ===== *)
(** The live mesh runtime, buzz-relay-mesh/src/runtime.rs: the table of peer
    connections, admission, dialling, control streams and the gossip exchange,
    over the membership table; and the ready registry's writers of registry.rs.

    A connection is named by a number; the queue of a control stream is the list
    of frames waiting in its channel.  Network outcomes are arguments: which
    addresses parse and which dials succeed, and what arrives. *)

From S2P Require Import Prelude Binary64 Nostr MeshWire Directory Gossip Membership.

Definition CONTROL_QUEUE_DEPTH : nat := 64.

(** A control stream's channel: whether its receiving task is alive, and the
    frames waiting.  Frames left in a channel that a newer control stream has
    replaced leave through the old stream and are not followed further. *)
Record ControlTx := mkControlTx { ct_open : bool; ct_queue : list MeshStreamFrame }.

Record PeerEntry := mkPeerEntry {
  pe_peer : N;
  pe_control_tx : option ControlTx;
}.

(** [Inner], less the endpoint's sockets, the handler and the intervals. *)
Record Inner := mkInner {
  in_runtime_id : RuntimeId;
  in_membership : MeshMembership;
  in_peers : gmap RuntimeId PeerEntry;
}.

Definition set_membership (m : MeshMembership) (s : Inner) : Inner :=
  mkInner (in_runtime_id s) m (in_peers s).
Definition set_entries (ps : gmap RuntimeId PeerEntry) (s : Inner) : Inner :=
  mkInner (in_runtime_id s) (in_membership s) ps.

(** [MeshRuntime::start]: the endpoint's key is the local record's runtime. *)
Definition start (m : MeshMembership) : Inner := mkInner (mm_local_runtime_id m) m ∅.

(** ** Counters *)

Definition record_stream_opened (id : RuntimeId) : MeshMembership -> MeshMembership :=
  update_peer_counters id (fun c => mkMeshPeerCounters (pc_runtime_id c) (saturating_succ (pc_streams_opened c))
    (pc_streams_received c) (pc_datagrams_sent c) (pc_datagrams_received c) (pc_gossip_frames_sent c)
    (pc_gossip_frames_received c) (pc_stale_generation_rejections c)).
Definition record_stream_received (id : RuntimeId) : MeshMembership -> MeshMembership :=
  update_peer_counters id (fun c => mkMeshPeerCounters (pc_runtime_id c) (pc_streams_opened c)
    (saturating_succ (pc_streams_received c)) (pc_datagrams_sent c) (pc_datagrams_received c)
    (pc_gossip_frames_sent c) (pc_gossip_frames_received c) (pc_stale_generation_rejections c)).
Definition record_datagram_sent (id : RuntimeId) : MeshMembership -> MeshMembership :=
  update_peer_counters id (fun c => mkMeshPeerCounters (pc_runtime_id c) (pc_streams_opened c)
    (pc_streams_received c) (saturating_succ (pc_datagrams_sent c)) (pc_datagrams_received c)
    (pc_gossip_frames_sent c) (pc_gossip_frames_received c) (pc_stale_generation_rejections c)).
Definition record_datagram_received (id : RuntimeId) : MeshMembership -> MeshMembership :=
  update_peer_counters id (fun c => mkMeshPeerCounters (pc_runtime_id c) (pc_streams_opened c)
    (pc_streams_received c) (pc_datagrams_sent c) (saturating_succ (pc_datagrams_received c))
    (pc_gossip_frames_sent c) (pc_gossip_frames_received c) (pc_stale_generation_rejections c)).
Definition record_gossip_frame_sent (id : RuntimeId) : MeshMembership -> MeshMembership :=
  update_peer_counters id (fun c => mkMeshPeerCounters (pc_runtime_id c) (pc_streams_opened c)
    (pc_streams_received c) (pc_datagrams_sent c) (pc_datagrams_received c)
    (saturating_succ (pc_gossip_frames_sent c)) (pc_gossip_frames_received c) (pc_stale_generation_rejections c)).
Definition record_gossip_frame_received (id : RuntimeId) : MeshMembership -> MeshMembership :=
  update_peer_counters id (fun c => mkMeshPeerCounters (pc_runtime_id c) (pc_streams_opened c)
    (pc_streams_received c) (pc_datagrams_sent c) (pc_datagrams_received c) (pc_gossip_frames_sent c)
    (saturating_succ (pc_gossip_frames_received c)) (pc_stale_generation_rejections c)).

(** ** Connections *)

Definition connected_peers (s : Inner) : list RuntimeId := (map_to_list (in_peers s)).*1.

Definition install_peer (remote : RuntimeId) (peer : N) (dialed_by_us : bool) (s : Inner) : Inner * bool :=
  let local := in_runtime_id s in
  if match in_peers s !! remote with
     | Some _ => negb (new_connection_wins local remote dialed_by_us)
     | None => false
     end then (s, false)
  else
    let entry := mkPeerEntry peer (if dialed_by_us then Some (mkControlTx true []) else None) in
    let s := set_entries (<[remote := entry]> (in_peers s)) s in
    (set_membership (mark_connection_state remote Connected (in_membership s)) s, true).

Definition remove_peer (id : RuntimeId) (s : Inner) : Inner :=
  match in_peers s !! id with
  | Some _ =>
      let s := set_entries (delete id (in_peers s)) s in
      set_membership (mark_connection_state id Disconnected (in_membership s)) s
  | None => s
  end.

Definition shutdown (s : Inner) : Inner := set_entries ∅ s.

(** Each lost connection ends its loops with [remove_peer]. *)
Definition connection_lost : RuntimeId -> Inner -> Inner := remove_peer.

Section runtime.
Context `{HexLib, Sha256Lib, SchnorrLib, Postcard GossipMessage}.

(** One turn of [accept_loop] for a connection of [remote]. *)
Definition accept (now_millis : N) (rescan : option (list ReadyRecord)) (remote : RuntimeId) (peer : N) (s : Inner)
    : Inner :=
  let '(m, ok) := is_known_peer now_millis rescan remote (in_membership s) in
  let s := set_membership m s in
  if ok then (install_peer remote peer false s).1 else s.

(** What the network answers to a dial: which addresses parse, whether the
    runtime id is a valid endpoint key, and the connection an address yields. *)
Record DialEnv := mkDialEnv {
  dial_parses : string -> bool;
  dial_valid_id : RuntimeId -> bool;
  dial_connect : RuntimeId -> string -> option N;
}.

Fixpoint dial_addrs (env : DialEnv) (id : RuntimeId) (addrs : list string) (s : Inner) : Inner :=
  match addrs with
  | [] => set_membership (mark_connection_state id Disconnected (in_membership s)) s
  | addr :: addrs =>
      if negb (dial_parses env addr) then dial_addrs env id addrs s
      else if negb (dial_valid_id env id) then s
      else
        let s := set_membership (mark_connection_state id Connecting (in_membership s)) s in
        match dial_connect env id addr with
        | Some peer => (install_peer id peer true s).1
        | None => dial_addrs env id addrs s
        end
  end.

Definition dial_peer (env : DialEnv) (r : GossipRecord) (s : Inner) : Inner :=
  dial_addrs env (gr_runtime_id r) (gr_endpoint_addrs r) s.

(** The candidates are read once; each is dialled unless connected by then. *)
Definition reconcile_once (now_millis : N) (rescan : option (list ReadyRecord)) (env : DialEnv) (s : Inner) : Inner :=
  let s := match rescan with
           | Some rs => set_membership (apply_ready_records now_millis rs (in_membership s)) s
           | None => s
           end in
  let local := in_runtime_id s in
  let candidates := List.filter (fun r => negb (bool_decide (gr_runtime_id r = local)) && negb (gr_draining r))
                      (membership_records (in_membership s)) in
  foldl (fun s r => if bool_decide (is_Some (in_peers s !! gr_runtime_id r)) then s else dial_peer env r s)
    s candidates.

(** ** Control streams *)

(** [try_send]: a frame is dropped when there is no channel, or it is closed or
    full. *)
Definition send_control_frame (remote : RuntimeId) (frame : MeshStreamFrame) (s : Inner) : Inner :=
  match in_peers s !! remote with
  | Some (mkPeerEntry p (Some tx)) =>
      if ct_open tx && (length (ct_queue tx) <? CONTROL_QUEUE_DEPTH)%nat
      then set_entries (<[remote := mkPeerEntry p (Some (mkControlTx true (ct_queue tx ++ [frame])))]> (in_peers s)) s
      else s
  | _ => s
  end.

(** The receiving task of a control stream is gone, and its channel closed:
    after a failed write, or when the stream ends. *)
Definition control_closed (remote : RuntimeId) (s : Inner) : Inner :=
  match in_peers s !! remote with
  | Some (mkPeerEntry p (Some _)) =>
      set_entries (<[remote := mkPeerEntry p (Some (mkControlTx false []))]> (in_peers s)) s
  | _ => s
  end.

(** The send task takes the next frame and writes it, or ends. *)
Definition pump (remote : RuntimeId) (written : bool) (s : Inner) : Inner * option MeshStreamFrame :=
  match in_peers s !! remote with
  | Some (mkPeerEntry p (Some (mkControlTx open (frame :: q)))) =>
      if written then
        let s := set_entries (<[remote := mkPeerEntry p (Some (mkControlTx open q))]> (in_peers s)) s in
        (set_membership (record_gossip_frame_sent remote (in_membership s)) s, Some frame)
      else (control_closed remote s, None)
  | _ => (s, None)
  end.

(** A frame received on the control stream of [remote]. *)
Definition control_frame (remote : RuntimeId) (frame : MeshStreamFrame) (s : Inner) : Inner :=
  match frame with
  | FrameGossip payload =>
      let s := set_membership (record_gossip_frame_received remote (in_membership s)) s in
      match decode_message payload with
      | Ok msg =>
          let '(m, answer) := receive_gossip msg (in_membership s) in
          let s := set_membership m s in
          match answer with
          | Some delta =>
              match encode_message delta with
              | Ok payload => send_control_frame remote (FrameGossip payload) s
              | Err _ => s
              end
          | None => s
          end
      | Err _ => s
      end
  | _ => s
  end.

(** The first frame of a stream accepted from [remote]; the second component
    says whether the session handler, when [handler] is set, is called. *)
Definition accept_stream (remote : RuntimeId) (handler : bool) (first : result (option MeshStreamFrame) MeshError)
    (s : Inner) : Inner * option StreamHello :=
  match first with
  | Ok (Some (FrameHello hello)) =>
      match hello_role hello with
      | Control =>
          (match in_peers s !! remote with
           | Some e => set_entries (<[remote := mkPeerEntry (pe_peer e) (Some (mkControlTx true []))]> (in_peers s)) s
           | None => s
           end, None)
      | _ => (set_membership (record_stream_received remote (in_membership s)) s,
              if handler then Some hello else None)
      end
  | _ => (s, None)
  end.

(** One turn of [gossip_tick_loop]. *)
Definition gossip_tick (now_millis : N) (s : Inner) : Inner :=
  let s := set_membership (membership_update_local now_millis (fun r => r) (in_membership s)).1 s in
  match encode_message (membership_digest (in_membership s)) with
  | Err _ => s
  | Ok payload =>
      let targets := (List.filter (fun kv => bool_decide (is_Some (pe_control_tx kv.2))) (map_to_list (in_peers s))).*1 in
      foldl (fun s remote => send_control_frame remote (FrameGossip payload) s) s targets
  end.

(** ** Transport *)

(** [send_datagram]; [sent] is what the connection answers. *)
Definition send_datagram (to : RuntimeId) (sent : result unit MeshError) (s : Inner) : Inner * result unit MeshError :=
  match in_peers s !! to with
  | None => (s, Err (PeerNotConnected to))
  | Some _ =>
      match sent with
      | Err e => (s, Err e)
      | Ok _ => (set_membership (record_datagram_sent to (in_membership s)) s, Ok tt)
      end
  end.

Definition datagram_received (remote : RuntimeId) (s : Inner) : Inner :=
  set_membership (record_datagram_received remote (in_membership s)) s.

(** [open_session_stream]; [opened] is the outcome of [open_bi] and of sending
    the hello. *)
Definition open_session_stream (to : RuntimeId) (opened : result unit MeshError) (s : Inner)
    : Inner * result unit MeshError :=
  match in_peers s !! to with
  | None => (s, Err (PeerNotConnected to))
  | Some _ =>
      match opened with
      | Err e => (s, Err e)
      | Ok _ => (set_membership (record_stream_opened to (in_membership s)) s, Ok tt)
      end
  end.
End runtime.

(** ** Publishing readiness *)

(** [serde_json] on ready records. *)
Class ReadyJson := {
  ready_to_json : ReadyRecord -> result string string;
  ready_of_json : string -> option ReadyRecord;
}.
Class ReadyJsonLaws `{ReadyJson} : Prop := {
  ready_json_round_trip : forall r j, ready_to_json r = Ok j -> ready_of_json j = Some r;
}.

Definition REGISTRY_EXPIRY_MULTIPLIER : N := 3.
(** [Duration::MAX], in nanoseconds. *)
Definition DURATION_MAX : N := (2 ^ 64 - 1) * 1000000000 + 999999999.
Definition expiry_for (refresh : N) : N := N.min (refresh * REGISTRY_EXPIRY_MULTIPLIER) DURATION_MAX.

(** Signing keys of the relay: the public key's text and the signature's. *)
Record RelayKeys := mkRelayKeys { rk_public_hex : string; rk_sign : string -> string }.

Section registry.
Context `{HexLib, Sha256Lib, SchnorrLib, Redis, ReadyJson}.

Definition ReadyRecord_new (runtime_id : RuntimeId) (keys : RelayKeys) (addrs : list string) (proto : N)
    (capabilities : list string) : ReadyRecord :=
  let relay_pubkey := rk_public_hex keys in
  mkReadyRecord runtime_id (RuntimeId_to_hex runtime_id) relay_pubkey
    (rk_sign keys (attestation_message runtime_id relay_pubkey)) addrs proto capabilities.

(** How the Redis calls of one operation fare: no connection, or a connection
    lost before or after Redis acted on the command. *)
Record RegEnv := mkRegEnv {
  re_pool : option string;
  re_lost_before : option string;
  re_lost_after : option string;
}.
Definition reg_healthy : RegEnv := mkRegEnv None None None.

Definition reg_command (env : RegEnv) (act : redis -> redis) (s : redis) : redis * result unit MeshError :=
  match re_lost_before env with
  | Some e => (s, Err (MeshRedis e))
  | None => (act s, match re_lost_after env with Some e => Err (MeshRedis e) | None => Ok tt end)
  end.

(** [now] is in milliseconds, as the clock of [Redis]. *)
Definition publish_ready (refresh : N) (env : RegEnv) (now : Z) (r : ReadyRecord) (s : redis)
    : redis * result unit MeshError :=
  match ReadyRecord_verify_attestation r with
  | Err e => (s, Err e)
  | Ok _ =>
      match re_pool env with
      | Some e => (s, Err (Transport ("redis pool: " +:+ e)))
      | None =>
          match ready_to_json r with
          | Err e => (s, Err (Transport ("ready registry encode: " +:+ e)))
          | Ok payload =>
              let ttl_secs := N.max (expiry_for refresh / 1000000000) 1 in
              reg_command env (fun s => r_set_px s now (ready_key (rr_runtime_id r)) payload (Z.of_N (1000 * ttl_secs))) s
          end
      end
  end.

Definition clear_ready (env : RegEnv) (now : Z) (id : RuntimeId) (s : redis) : redis * result unit MeshError :=
  match re_pool env with
  | Some e => (s, Err (Transport ("redis pool: " +:+ e)))
  | None => reg_command env (fun s => r_del s now (ready_key id)) s
  end.

Record ReadyHeartbeat := mkHeartbeat { hb_record : ReadyRecord; hb_published : bool }.
Definition heartbeat (r : ReadyRecord) : ReadyHeartbeat := mkHeartbeat r false.

Definition tick (refresh : N) (env : RegEnv) (now : Z) (ready : bool) (h : ReadyHeartbeat) (s : redis)
    : ReadyHeartbeat * redis * result unit MeshError :=
  if ready then
    match publish_ready refresh env now (hb_record h) s with
    | (s, Ok _) => (mkHeartbeat (hb_record h) true, s, Ok tt)
    | (s, Err e) => (h, s, Err e)
    end
  else if hb_published h then
    match clear_ready env now (rr_runtime_id (hb_record h)) s with
    | (s, Ok _) => (mkHeartbeat (hb_record h) false, s, Ok tt)
    | (s, Err e) => (h, s, Err e)
    end
  else (h, s, Ok tt).

Definition heartbeat_shutdown (env : RegEnv) (now : Z) (h : ReadyHeartbeat) (s : redis)
    : ReadyHeartbeat * redis * result unit MeshError :=
  if hb_published h then
    match clear_ready env now (rr_runtime_id (hb_record h)) s with
    | (s, Ok _) => (mkHeartbeat (hb_record h) false, s, Ok tt)
    | (s, Err e) => (h, s, Err e)
    end
  else (h, s, Ok tt).
End registry.
