(* ===== verification/MeshRuntimeTheorems.v ===== *)
(** Correctness of the mesh runtime: connections only to members, both ends of a
    simultaneous dial keep the same connection, one gossip exchange over the
    control streams merges the tables, and readiness is advertised exactly while
    it holds. *)

From S2P Require Import Prelude Binary64 Nostr MeshWire Directory Gossip Membership MembershipTheorems.
From S2P Require Import DirectoryRun MeshRuntime.

(** ** Simultaneous dials *)

Lemma string_ltb_total a b : a <> b -> String.ltb a b = negb (String.ltb b a).
Proof.
  intros Hne. unfold String.ltb. rewrite (String.compare_antisym b a).
  destruct (String.compare a b) eqn:E; cbn; try done. apply String.compare_eq_iff in E. congruence.
Qed.

(** Both ends keep the same connection.  When two unconnected runtimes dial
    each other at once, each end installs both connections, in either order: both
    ends are left with the one dialled by the smaller runtime id. *)
Theorem simultaneous_dial_agrees a b (sa sb sa' sb' : Inner) by_a by_b :
  in_runtime_id sa = a -> in_runtime_id sb = b -> a <> b ->
  in_peers sa !! b = None -> in_peers sb !! a = None ->
  sa' ∈ [(install_peer b by_b false (install_peer b by_a true sa).1).1;
         (install_peer b by_a true (install_peer b by_b false sa).1).1] ->
  sb' ∈ [(install_peer a by_a false (install_peer a by_b true sb).1).1;
         (install_peer a by_b true (install_peer a by_a false sb).1).1] ->
  let kept := if String.ltb (rid_bytes a) (rid_bytes b) then by_a else by_b in
  pe_peer <$> in_peers sa' !! b = Some kept /\ pe_peer <$> in_peers sb' !! a = Some kept.
Proof.
  destruct sa as [ia ma pa], sb as [ib mb pb]. cbn [in_runtime_id in_peers].
  intros -> -> Hne Ha Hb Hsa Hsb.
  assert (rid_bytes a <> rid_bytes b) as Hb'. { intros E. apply Hne. destruct a, b. cbn in E. congruence. }
  pose proof (string_ltb_total (rid_bytes b) (rid_bytes a) (not_eq_sym Hb')) as Hlt.
  set_unfold in Hsa. set_unfold in Hsb.
  unfold install_peer, new_connection_wins in Hsa, Hsb.
  cbn [fst set_membership set_entries in_peers in_runtime_id] in Hsa, Hsb.
  rewrite ?Ha in Hsa. rewrite ?Hb in Hsb. cbn [fst set_membership set_entries in_peers in_runtime_id] in Hsa, Hsb.
  rewrite ?lookup_insert_eq in Hsa. rewrite ?lookup_insert_eq, ?Hlt in Hsb.
  destruct (String.ltb (rid_bytes a) (rid_bytes b)); cbn [negb fst] in Hsa, Hsb;
    destruct Hsa as [->|[->|[]]], Hsb as [->|[->|[]]]; cbn; by rewrite !lookup_insert_eq.
Qed.

(** ** The node invariant *)

Section node.
Context `{HexLib, Sha256Lib, SchnorrLib, Postcard GossipMessage}.

Record node_inv (s : Inner) : Prop := {
  ni_mesh : mesh_inv (in_membership s);
  ni_local : in_runtime_id s = mm_local_runtime_id (in_membership s);
  ni_members : forall id, is_Some (in_peers s !! id) -> has_peer id (in_membership s) = true;
  ni_queues : forall id e tx, in_peers s !! id = Some e -> pe_control_tx e = Some tx ->
    (length (ct_queue tx) <= CONTROL_QUEUE_DEPTH)%nat;
}.

Lemma has_peer_step m m' id : mesh_inv m -> step_ok m m' -> has_peer id m = true -> has_peer id m' = true.
Proof.
  intros Hm (Hm' & Hl & _ & Hat) Hp. destruct (decide (id = mm_local_runtime_id m)) as [->|Hne].
  { by rewrite has_peer_local in Hp. }
  apply has_peer_known in Hp as [r Hr]; [|done..]. destruct (Hat id r Hr) as (r' & Hr' & _).
  apply has_peer_known; [done|congruence|]. by exists r'.
Qed.

(** A step of the membership table alone. *)
Lemma node_membership s m : node_inv s -> step_ok (in_membership s) m -> node_inv (set_membership m s).
Proof.
  intros [Hm Hl Hp Hq] Hs. pose proof Hs as (Hm' & Hl' & _ & _). split; cbn; [done|congruence| |done].
  intros id Hid. eapply has_peer_step; [exact Hm|exact Hs|by apply Hp].
Qed.

(** A new entry for a member. *)
Lemma node_entry s id e :
  node_inv s -> has_peer id (in_membership s) = true ->
  (forall tx, pe_control_tx e = Some tx -> (length (ct_queue tx) <= CONTROL_QUEUE_DEPTH)%nat) ->
  node_inv (set_entries (<[id := e]> (in_peers s)) s).
Proof.
  intros [Hm Hl Hp Hq] Hid He. split; cbn; [done|done| |].
  - intros i [e' Hi]. apply lookup_insert_Some in Hi as [[-> _]|[_ Hi]]; [done|by apply Hp].
  - intros i e' tx [[-> <-]|[_ Hi]]%lookup_insert_Some; [apply He|by eapply Hq].
Qed.

Lemma mark_ok m id st : mesh_inv m -> step_ok m (mark_connection_state id st m).
Proof. apply (run_op_ok (OpMark id st)). done. Qed.
Lemma count_ok m id f : mesh_inv m -> step_ok m (update_peer_counters id f m).
Proof. apply (run_op_ok (OpCount id f)). done. Qed.

(** A step of the node: the invariant is kept and the table loses nothing. *)
Definition node_ok (s s' : Inner) : Prop :=
  node_inv s' /\ step_ok (in_membership s) (in_membership s').

Lemma node_ok_refl s : node_inv s -> node_ok s s.
Proof. intros Hs. split; [done|apply step_ok_refl, Hs]. Qed.
Lemma node_ok_trans s1 s2 s3 : node_ok s1 s2 -> node_ok s2 s3 -> node_ok s1 s3.
Proof. intros [_ H12] [H3 H23]. split; [done|by eapply step_ok_trans]. Qed.

Lemma node_ok_membership s m : node_inv s -> step_ok (in_membership s) m -> node_ok s (set_membership m s).
Proof. intros Hs Hm. split; [by apply node_membership|done]. Qed.
Lemma node_ok_entry s id e :
  node_inv s -> has_peer id (in_membership s) = true ->
  (forall tx, pe_control_tx e = Some tx -> (length (ct_queue tx) <= CONTROL_QUEUE_DEPTH)%nat) ->
  node_ok s (set_entries (<[id := e]> (in_peers s)) s).
Proof. intros Hs Hp He. split; [by apply node_entry|apply step_ok_refl, Hs]. Qed.
Lemma node_ok_mark s id st :
  node_inv s -> node_ok s (set_membership (mark_connection_state id st (in_membership s)) s).
Proof. intros Hs. apply node_ok_membership; [done|apply mark_ok, Hs]. Qed.
Lemma node_ok_count s id f :
  node_inv s -> node_ok s (set_membership (update_peer_counters id f (in_membership s)) s).
Proof. intros Hs. apply node_ok_membership; [done|apply count_ok, Hs]. Qed.
Lemma node_ok_subset s ps :
  node_inv s -> ps ⊆ in_peers s -> node_ok s (set_entries ps s).
Proof.
  intros [Hm Hl Hp Hq] Hsub. split; [|apply step_ok_refl, Hm]. split; cbn; [done|done| |].
  - intros id [e He]. apply Hp. exists e. by eapply lookup_weaken.
  - intros id e tx He. eapply Hq. by eapply lookup_weaken.
Qed.

Lemma node_ok_fold {A} (f : Inner -> A -> Inner) l s :
  (forall s a, a ∈ l -> node_inv s -> node_ok s (f s a)) -> node_inv s -> node_ok s (foldl f s l).
Proof.
  intros Hf. revert s. induction l as [|a l IH]; intros s Hs; cbn; [by apply node_ok_refl|].
  destruct (Hf s a ltac:(left) Hs) as [Hs' ?]. eapply node_ok_trans; [by split|].
  apply IH; [|done]. intros. apply Hf; [by right|done].
Qed.

Lemma install_peer_ok remote peer dialed s :
  node_inv s -> has_peer remote (in_membership s) = true -> node_ok s (install_peer remote peer dialed s).1.
Proof.
  intros Hs Hp. unfold install_peer. case_match; [by apply node_ok_refl|]. cbn [fst].
  set (e := mkPeerEntry _ _).
  assert (node_ok s (set_entries (<[remote := e]> (in_peers s)) s)) as Hent.
  { apply node_ok_entry; [done|done|]. intros tx. cbn. destruct dialed; [|done]. intros [= <-]. cbn. lia. }
  eapply node_ok_trans; [exact Hent|]. by apply (node_ok_mark (set_entries _ s)), Hent.
Qed.

Lemma remove_peer_ok id s : node_inv s -> node_ok s (remove_peer id s).
Proof.
  intros Hs. unfold remove_peer. case_match; [|by apply node_ok_refl].
  assert (node_ok s (set_entries (delete id (in_peers s)) s)) as Hdel
    by (apply node_ok_subset; [done|apply delete_subseteq]).
  eapply node_ok_trans; [exact Hdel|]. apply (node_ok_mark (set_entries _ s)), Hdel.
Qed.

Lemma accept_ok now rescan remote peer s : node_inv s -> node_ok s (accept now rescan remote peer s).
Proof.
  intros Hs. unfold accept.
  pose proof (run_op_ok (OpAdmit now rescan remote) (in_membership s) I (ni_mesh s Hs)) as Hm. cbn [run_op] in Hm.
  assert ((is_known_peer now rescan remote (in_membership s)).2 =
          has_peer remote (is_known_peer now rescan remote (in_membership s)).1) as Hk.
  { unfold is_known_peer. by destruct (has_peer remote (in_membership s)) eqn:E. }
  destruct (is_known_peer now rescan remote (in_membership s)) as [m ok]. cbn [fst snd] in *. subst ok.
  pose proof (node_ok_membership s m Hs Hm) as Hset. destruct (has_peer remote m) eqn:Hp; [|done].
  eapply node_ok_trans; [exact Hset|]. apply install_peer_ok; [apply Hset|done].
Qed.

Lemma dial_addrs_ok env id addrs s :
  node_inv s -> has_peer id (in_membership s) = true -> node_ok s (dial_addrs env id addrs s).
Proof.
  revert s. induction addrs as [|addr addrs IH]; intros s Hs Hp; cbn [dial_addrs]; [by apply node_ok_mark|].
  case_match; [by apply IH|]. case_match; [by apply node_ok_refl|].
  pose proof (node_ok_mark s id Connecting Hs) as Hmark. eapply node_ok_trans; [exact Hmark|].
  assert (has_peer id (in_membership (set_membership (mark_connection_state id Connecting (in_membership s)) s)) = true)
    as Hp' by (eapply has_peer_step; [apply Hs|apply Hmark|done]).
  destruct (dial_connect env id addr); [apply install_peer_ok|apply IH]; try done; apply Hmark.
Qed.

Lemma reconcile_once_ok now rescan env s : node_inv s -> node_ok s (reconcile_once now rescan env s).
Proof.
  intros Hs. unfold reconcile_once. set (s1 := match rescan with Some _ => _ | None => _ end).
  assert (node_ok s s1) as H1'.
  { subst s1. destruct rescan as [rs|]; [|by apply node_ok_refl]. apply node_ok_membership; [done|].
    apply (run_op_ok (OpReady now rs) (in_membership s) I), Hs. }
  eapply node_ok_trans; [exact H1'|]. clearbody s1.
  set (cs := List.filter _ _).
  assert (forall r, r ∈ cs -> has_peer (gr_runtime_id r) (in_membership s1) = true) as Hcs.
  { intros r Hr. apply list_elem_of_In, filter_In in Hr as [Hin Hc]. apply andb_prop in Hc as [Hne _].
    apply negb_true_iff, bool_decide_eq_false_1 in Hne. destruct H1' as [[Hm Hl _ _] _].
    apply list_elem_of_In, elem_of_membership_records in Hin; [|done]. apply has_peer_known; [done|congruence|eauto]. }
  clearbody cs. destruct H1' as [H1' _]. revert s1 H1' Hcs.
  induction cs as [|r cs IH]; intros s1 H1' Hcs; cbn [foldl]; [by apply node_ok_refl|].
  set (s2 := if bool_decide _ then _ else _).
  assert (node_ok s1 s2) as Hs2.
  { subst s2. case_bool_decide; [by apply node_ok_refl|]. apply dial_addrs_ok; [done|]. apply Hcs. by left. }
  eapply node_ok_trans; [exact Hs2|]. apply IH; [apply Hs2|]. intros r' Hr'.
  eapply has_peer_step; [apply H1'|apply Hs2|]. apply Hcs. by right.
Qed.

Lemma entry_member s id e : node_inv s -> in_peers s !! id = Some e -> has_peer id (in_membership s) = true.
Proof. intros Hs He. apply Hs. by exists e. Qed.

Lemma send_control_frame_ok remote frame s : node_inv s -> node_ok s (send_control_frame remote frame s).
Proof.
  intros Hs. unfold send_control_frame. destruct (in_peers s !! remote) as [[p [tx|]]|] eqn:E;
    try by apply node_ok_refl.
  destruct (ct_open tx && _) eqn:Hb; [|by apply node_ok_refl]. apply andb_prop in Hb as [_ Hb%Nat.ltb_lt].
  apply node_ok_entry; [done|by eapply entry_member|]. intros tx' [= <-]. cbn. rewrite length_app. cbn. lia.
Qed.

Lemma control_closed_ok remote s : node_inv s -> node_ok s (control_closed remote s).
Proof.
  intros Hs. unfold control_closed. destruct (in_peers s !! remote) as [[p [tx|]]|] eqn:E; try by apply node_ok_refl.
  apply node_ok_entry; [done|by eapply entry_member|]. intros tx' [= <-]. cbn. lia.
Qed.

Lemma pump_ok remote written s : node_inv s -> node_ok s (pump remote written s).1.
Proof.
  intros Hs. unfold pump.
  destruct (in_peers s !! remote) as [[p [[o [|f q]]|]]|] eqn:E; try by apply node_ok_refl.
  destruct written; [|by apply control_closed_ok]. cbn [fst].
  set (e := mkPeerEntry _ _).
  assert (node_ok s (set_entries (<[remote := e]> (in_peers s)) s)) as Hent.
  { apply node_ok_entry; [done|by eapply entry_member|]. intros tx [= <-]. cbn.
    pose proof (ni_queues s Hs _ _ _ E eq_refl) as Hq. cbn in Hq. lia. }
  eapply node_ok_trans; [exact Hent|]. apply (node_ok_count (set_entries _ s)), Hent.
Qed.

Lemma control_frame_ok remote frame s : node_inv s -> node_ok s (control_frame remote frame s).
Proof.
  intros Hs. destruct frame as [| | |payload]; cbn [control_frame]; try by apply node_ok_refl.
  set (s1 := set_membership _ s).
  assert (node_ok s s1) as H1' by by apply node_ok_count.
  eapply node_ok_trans; [exact H1'|]. destruct H1' as [H1' _]. clearbody s1.
  destruct (decode_message payload) as [msg|]; [|by apply node_ok_refl].
  pose proof (run_op_ok (OpGossip msg) (in_membership s1) I (ni_mesh s1 H1')) as Hm. cbn [run_op] in Hm.
  destruct (receive_gossip msg (in_membership s1)) as [m answer]. cbn [fst] in Hm.
  pose proof (node_ok_membership s1 m H1' Hm) as H2'. eapply node_ok_trans; [exact H2'|].
  destruct answer as [delta|]; [|apply node_ok_refl, H2'].
  destruct (encode_message delta); [apply send_control_frame_ok, H2'|apply node_ok_refl, H2'].
Qed.

Lemma accept_stream_ok remote handler first s : node_inv s -> node_ok s (accept_stream remote handler first s).1.
Proof.
  intros Hs. destruct first as [[[hello| | |]|]|]; cbn [accept_stream]; try by apply node_ok_refl.
  destruct (hello_role hello); cbn [fst]; [|by apply node_ok_count].
  destruct (in_peers s !! remote) as [e|] eqn:E; [|by apply node_ok_refl].
  apply node_ok_entry; [done|by eapply entry_member|]. intros tx [= <-]. cbn. lia.
Qed.

Lemma gossip_tick_ok now s : node_inv s -> node_ok s (gossip_tick now s).
Proof.
  intros Hs. unfold gossip_tick. set (s1 := set_membership _ s).
  assert (node_ok s s1) as H1'.
  { apply node_ok_membership; [done|]. apply (run_op_ok (OpUpdate now (fun r => r)) (in_membership s)); [done|apply Hs]. }
  eapply node_ok_trans; [exact H1'|]. destruct H1' as [H1' _]. clearbody s1.
  destruct (encode_message _); [|by apply node_ok_refl].
  apply node_ok_fold; [|done]. intros. by apply send_control_frame_ok.
Qed.

(** What happens to a node. *)
Inductive NodeOp :=
| NAccept (now : N) (rescan : option (list ReadyRecord)) (remote : RuntimeId) (peer : N)
| NReconcile (now : N) (rescan : option (list ReadyRecord)) (env : DialEnv)
| NLost (remote : RuntimeId)
| NStream (remote : RuntimeId) (handler : bool) (first : result (option MeshStreamFrame) MeshError)
| NFrame (remote : RuntimeId) (frame : MeshStreamFrame)
| NPump (remote : RuntimeId) (written : bool)
| NClosed (remote : RuntimeId)
| NTick (now : N)
| NSendDatagram (to : RuntimeId) (sent : result unit MeshError)
| NDatagram (remote : RuntimeId)
| NOpen (to : RuntimeId) (opened : result unit MeshError)
| NDrain (now : N)
| NShutdown.

Definition run_node (s : Inner) (op : NodeOp) : Inner :=
  match op with
  | NAccept now rescan remote peer => accept now rescan remote peer s
  | NReconcile now rescan env => reconcile_once now rescan env s
  | NLost remote => connection_lost remote s
  | NStream remote handler first => (accept_stream remote handler first s).1
  | NFrame remote frame => control_frame remote frame s
  | NPump remote written => (pump remote written s).1
  | NClosed remote => control_closed remote s
  | NTick now => gossip_tick now s
  | NSendDatagram to sent => (send_datagram to sent s).1
  | NDatagram remote => datagram_received remote s
  | NOpen to opened => (open_session_stream to opened s).1
  | NDrain now => set_membership (begin_drain now (in_membership s)) s
  | NShutdown => shutdown s
  end.

Lemma run_node_ok op s : node_inv s -> node_ok s (run_node s op).
Proof.
  intros Hs. destruct op; cbn [run_node].
  - by apply accept_ok.
  - by apply reconcile_once_ok.
  - by apply remove_peer_ok.
  - by apply accept_stream_ok.
  - by apply control_frame_ok.
  - by apply pump_ok.
  - by apply control_closed_ok.
  - by apply gossip_tick_ok.
  - unfold send_datagram. repeat case_match; try by apply node_ok_refl. by apply node_ok_count.
  - by apply node_ok_count.
  - unfold open_session_stream. repeat case_match; try by apply node_ok_refl. by apply node_ok_count.
  - apply node_ok_membership; [done|]. apply (run_op_ok (OpDrain now) (in_membership s) I), Hs.
  - apply node_ok_subset; [done|apply map_empty_subseteq].
Qed.

(** C20: A mesh node stays sound.  Whatever connections, streams, frames, scans
    and failures it meets, in whatever order: it is only ever connected to other
    runtimes that its membership table knows, never to itself; no control queue
    exceeds its bound; and its table, identity and trust anchor lose nothing. *)
Theorem mesh_node_invariant ops m :
  mesh_inv m ->
  let s := foldl run_node (start m) ops in
  node_inv s /\ step_ok m (in_membership s) /\
  in_peers s !! mm_local_runtime_id m = None.
Proof.
  intros Hm s. assert (node_ok (start m) s) as [Hs Hst].
  { apply node_ok_fold; [intros; by apply run_node_ok|]. split; cbn; try done; intros id; rewrite lookup_empty; by intros []. }
  cbn [start in_membership] in Hst. split_and!; [done|done|].
  destruct (in_peers s !! mm_local_runtime_id m) as [e|] eqn:E; [|done].
  pose proof (entry_member s _ e Hs E) as Hp. destruct Hst as (Hm' & Hl & _ & _).
  rewrite <- Hl, has_peer_local in Hp by done. done.
Qed.
End node.

(** ** One gossip exchange *)

Section exchange.
Context `{HexLib, PostcardLaws GossipMessage}.

Lemma known_counters id f m i : known (update_peer_counters id f m) i = known m i.
Proof.
  unfold update_peer_counters. destruct (mm_peers m !! id) as [p|] eqn:E; [|done]. unfold known. cbn.
  case_decide; [done|]. destruct (decide (i = id)) as [->|Hne]; [|by rewrite lookup_insert_ne].
  by rewrite lookup_insert_eq, E.
Qed.
Lemma local_counters id f m :
  mm_local_runtime_id (update_peer_counters id f m) = mm_local_runtime_id m /\
  mm_local_record (update_peer_counters id f m) = mm_local_record m.
Proof. unfold update_peer_counters. by case_match. Qed.
Lemma inv_counters id f m : mesh_inv m -> mesh_inv (update_peer_counters id f m).
Proof.
  intros [Hk Ha Hl Hu]. unfold update_peer_counters. destruct (mm_peers m !! id) as [p|] eqn:E; [|done].
  split; cbn; [| |done|done].
  - intros i q [[<- <-]|[_ Hq]]%lookup_insert_Some; [by apply (Hk id p)|by apply Hk].
  - rewrite lookup_insert_ne; [done|]. intros ->. congruence.
Qed.

Lemma decode_encoded msg b :
  message_version msg = GOSSIP_PAYLOAD_VERSION -> encode_message msg = Ok b -> decode_message b = Ok msg.
Proof.
  unfold encode_message, decode_message. intros Hv Hb. destruct (to_extend msg) as [x|] eqn:E; [|done].
  simplify_eq. erewrite from_to by done. by rewrite Hv.
Qed.

Lemma send_membership remote f s : in_membership (send_control_frame remote f s) = in_membership s /\
  in_runtime_id (send_control_frame remote f s) = in_runtime_id s.
Proof. unfold send_control_frame. by repeat case_match. Qed.

Lemma send_other remote f s id : id <> remote -> in_peers (send_control_frame remote f s) !! id = in_peers s !! id.
Proof. intros Hne. unfold send_control_frame. repeat case_match; cbn; try done. by rewrite lookup_insert_ne. Qed.

Lemma send_all_frames f targets s id p :
  NoDup targets -> id ∈ targets ->
  in_peers s !! id = Some (mkPeerEntry p (Some (mkControlTx true []))) ->
  let s' := foldl (fun s remote => send_control_frame remote f s) s targets in
  in_membership s' = in_membership s /\
  in_peers s' !! id = Some (mkPeerEntry p (Some (mkControlTx true [f]))).
Proof.
  assert (forall l (s : Inner), id ∉ l ->
    in_membership (foldl (fun s remote => send_control_frame remote f s) s l) = in_membership s /\
    in_peers (foldl (fun s remote => send_control_frame remote f s) s l) !! id = in_peers s !! id) as Hother.
  { induction l as [|x l IH]; intros s0 Hni; [done|]. cbn [foldl]. apply not_elem_of_cons in Hni as [Hx Hni].
    destruct (IH (send_control_frame x f s0) Hni) as [-> ->].
    split; [apply send_membership|by apply send_other]. }
  intros Hnd Hin. revert s. induction targets as [|x l IH]; intros s Hs; [by apply elem_of_nil in Hin|].
  apply NoDup_cons in Hnd as [Hx Hnd]. cbn [foldl]. destruct (decide (id = x)) as [->|Hne].
  - destruct (Hother l (send_control_frame x f s) Hx) as [-> ->].
    split; [apply send_membership|]. unfold send_control_frame. rewrite Hs. cbn. by rewrite lookup_insert_eq.
  - apply elem_of_cons in Hin as [->|Hin]; [done|].
    destruct (IH Hnd Hin (send_control_frame x f s)) as [-> ->].
    { rewrite send_other by done. exact Hs. }
    split; [apply send_membership|done].
Qed.

(** An idle, open control stream to a peer. *)
Definition idle (s : Inner) (id : RuntimeId) : Prop :=
  exists p, in_peers s !! id = Some (mkPeerEntry p (Some (mkControlTx true []))).

(** A tick of [a], its digest carried to [b], the answer carried back. *)
Definition exchange (now : N) (a b : Inner) : option (Inner * Inner) :=
  let '(a, digest) := pump (in_runtime_id b) true (gossip_tick now a) in
  match digest with
  | None => None
  | Some digest =>
      let '(b, delta) := pump (in_runtime_id a) true (control_frame (in_runtime_id a) digest b) in
      match delta with
      | None => None
      | Some delta => Some (control_frame (in_runtime_id b) delta a, b)
      end
  end.

(** The next frame of an open queue leaves and only a counter changes. *)
Lemma pump_one s id p f :
  in_peers s !! id = Some (mkPeerEntry p (Some (mkControlTx true [f]))) ->
  exists s', pump id true s = (s', Some f) /\ in_runtime_id s' = in_runtime_id s /\
    in_membership s' = record_gossip_frame_sent id (in_membership s) /\ idle s' id.
Proof.
  intros Hs. unfold pump. rewrite Hs. eexists. split_and!; [done|done|done|]. exists p. cbn. by rewrite lookup_insert_eq.
Qed.

Lemma gossip_tick_sends now a id :
  (forall msg, exists x, to_extend msg = Ok x) -> idle a id ->
  exists p payload, in_peers (gossip_tick now a) !! id = Some (mkPeerEntry p (Some (mkControlTx true [FrameGossip payload]))) /\
    in_runtime_id (gossip_tick now a) = in_runtime_id a /\
    in_membership (gossip_tick now a) = (membership_update_local now (fun r => r) (in_membership a)).1 /\
    decode_message payload = Ok (membership_digest (in_membership (gossip_tick now a))).
Proof.
  intros Henc [p Hp]. unfold gossip_tick. set (s1 := set_membership _ a).
  destruct (Henc (membership_digest (in_membership s1))) as [payload Hpay].
  assert (encode_message (membership_digest (in_membership s1)) = Ok payload) as Hok
    by (unfold encode_message; by rewrite Hpay).
  rewrite Hok. set (targets := (List.filter _ _).*1).
  assert (NoDup targets) as Hnd.
  { apply NoDup_fmap_filter, NoDup_fst_map_to_list. }
  assert (id ∈ targets) as Hin.
  { subst targets. apply list_elem_of_fmap. exists (id, mkPeerEntry p (Some (mkControlTx true []))).
    split; [done|]. apply list_elem_of_In, filter_In. split; [by apply list_elem_of_In, elem_of_map_to_list|].
    apply bool_decide_eq_true_2. by eexists. }
  destruct (send_all_frames (FrameGossip payload) targets s1 id p Hnd Hin Hp) as [-> ->].
  exists p, payload. split_and!; [done| |done|by apply decode_encoded].
  transitivity (in_runtime_id s1); [|done]. clear. clearbody targets s1. revert s1.
  induction targets as [|x l IH]; intros s1; [done|]. cbn. rewrite IH. apply send_membership.
Qed.

(** A digest received over an idle stream is answered with the delta. *)
Lemma control_digest_answers b id payload version es :
  (forall msg, exists x, to_extend msg = Ok x) -> idle b id ->
  decode_message payload = Ok (Digest version es) ->
  let m := record_gossip_frame_received id (in_membership b) in
  exists p answer, in_peers (control_frame id (FrameGossip payload) b) !! id =
      Some (mkPeerEntry p (Some (mkControlTx true [FrameGossip answer]))) /\
    in_runtime_id (control_frame id (FrameGossip payload) b) = in_runtime_id b /\
    in_membership (control_frame id (FrameGossip payload) b) = m /\
    decode_message answer = Ok (membership_delta_for es m).
Proof.
  intros Henc [p Hp] Hdec m. cbn [control_frame]. rewrite Hdec. cbn [receive_gossip in_membership set_membership].
  fold m. destruct (Henc (membership_delta_for es m)) as [answer Hans].
  assert (encode_message (membership_delta_for es m) = Ok answer) as Hok by (unfold encode_message; by rewrite Hans).
  rewrite Hok. unfold send_control_frame. cbn [in_peers set_membership]. rewrite Hp. cbn [ct_open ct_queue].
  exists p, answer. split_and!; [cbn; by rewrite lookup_insert_eq|done|done|by apply decode_encoded].
Qed.

Lemma known_touched now (m : MeshMembership) id :
  known (membership_update_local now (fun r => r) m).1 id =
    if decide (id = mm_local_runtime_id m) then Some (touch now (fun r => r) (mm_local_record m)) else known m id.
Proof. unfold known. cbn. by case_decide. Qed.

(** Gossip over the wire.  When two connected nodes have idle control
    streams, one tick of the first carries its digest to the second and the
    second's answer back, through the real frames: afterwards the first knows,
    about every other runtime, the newer of what the two knew, it advertises its
    own record one version later, and the second's knowledge is unchanged. *)
Theorem gossip_exchange_merges now a b :
  (forall msg : GossipMessage, exists x, to_extend msg = Ok x) ->
  node_inv a -> node_inv b -> idle a (in_runtime_id b) -> idle b (in_runtime_id a) ->
  exists a' b', exchange now a b = Some (a', b') /\
    (forall id, known (in_membership b') id = known (in_membership b) id) /\
    (forall id, known (in_membership a') id =
       if decide (id = in_runtime_id a) then Some (touch now (fun r => r) (mm_local_record (in_membership a)))
       else newest (known (in_membership a) id) (known (in_membership b) id)).
Proof.
  intros Henc [Ha La _ _] [Hb Lb _ _] Hia Hib. unfold exchange.
  destruct (gossip_tick_sends now a (in_runtime_id b) Henc Hia) as (pa & payload & Hqa & Hra & Hma & Hdec).
  destruct (pump_one _ _ _ _ Hqa) as (a1 & -> & Hra1 & Hma1 & _). rewrite Hra1, Hra.
  destruct (control_digest_answers b (in_runtime_id a) payload _ _ Henc Hib Hdec) as (pb & answer & Hqb & Hrb & Hmb & Hans).
  destruct (pump_one _ _ _ _ Hqb) as (b1 & -> & Hrb1 & Hmb1 & _).
  eexists _, _. split; [done|]. rewrite Hmb1, Hmb. split.
  { intros id. unfold record_gossip_frame_sent, record_gossip_frame_received. by rewrite !known_counters. }
  intros id. cbn [control_frame]. rewrite Hans. cbn [receive_gossip membership_delta_for in_membership set_membership].
  rewrite Hma1, Hma in *. set (mt := (membership_update_local now (fun r => r) (in_membership a)).1) in *.
  assert (mesh_inv mt) as Hmt.
  { subst mt. destruct Ha as [Hk1 Hk2 Hk3 Hk4]. split; cbn; [done|done|done|]. by apply saturating_succ_le. }
  unfold record_gossip_frame_received, record_gossip_frame_sent in *.
  match goal with |- context [foldl _ ?m3 (delta_of _ (membership_records ?mb))] =>
    destruct (apply_records_spec (delta_of (digest_of (membership_records mt)) (membership_records mb)) m3)
      as (_ & _ & _ & ->) end.
  - by do 2 apply inv_counters.
  - by apply NoDup_delta, inv_counters.
  - rewrite !known_counters, find_delta by (done || by apply inv_counters). rewrite known_counters.
    assert (known mt id = if decide (id = in_runtime_id a) then Some (touch now (fun r => r) (mm_local_record (in_membership a)))
                          else known (in_membership a) id) as Hkt by (rewrite La; apply known_touched).
    rewrite Hkt. repeat match goal with |- context [mm_local_runtime_id (update_peer_counters ?i ?f ?m)] =>
      rewrite (proj1 (local_counters i f m)) end.
    change (mm_local_runtime_id mt) with (mm_local_runtime_id (in_membership a)). rewrite <- La.
    case_decide; [done|]. destruct (known (in_membership b) id) as [r|]; [|done].
    destruct (known (in_membership a) id) as [r0|]; cbn [fmap option_fmap option_map newer_than newest]; [|done].
    destruct (gr_version r0 <? gr_version r)%N eqn:E; cbn [newest]; by rewrite ?E.
Qed.
End exchange.

(** ** Advertised readiness *)

Section advertised.
Context `{HexLib, Sha256Lib, SchnorrLib, RedisLaws, ReadyJsonLaws}.
Variables (refresh : N) (r : ReadyRecord) (json : string).
Hypothesis attested : ReadyRecord_verify_attestation r = Ok tt.
Hypothesis encoded : ready_to_json r = Ok json.

Let key := ready_key (rr_runtime_id r).
Definition ttl_millis : Z := Z.of_N (1000 * N.max (expiry_for refresh / 1000000000) 1).

(** One turn of the heartbeat loop: how Redis fares, when, and readiness. *)
Record Beat := mkBeat { bt_env : RegEnv; bt_now : Z; bt_ready : bool }.
Definition beat (st : ReadyHeartbeat * redis) (b : Beat) : ReadyHeartbeat * redis :=
  let '(h, s, _) := tick refresh (bt_env b) (bt_now b) (bt_ready b) st.1 st.2 in (h, s).

(** The clock of [beats] never goes back, from [t0] on. *)
Fixpoint ordered (t0 : Z) (beats : list Beat) : Prop :=
  match beats with [] => True | b :: bs => (t0 <= bt_now b)%Z /\ ordered (bt_now b) bs end.
Definition last_time (t0 : Z) (beats : list Beat) : Z := default t0 (bt_now <$> last beats).

(** What holds after [beats], at [now]. *)
Record advert_inv (beats : list Beat) (now : Z) (st : ReadyHeartbeat * redis) : Prop := {
  av_record : hb_record st.1 = r;
  av_bounded : forall t v, (now <= t)%Z -> r_get st.2 t key = Some v ->
    v = json /\ exists b, b ∈ beats /\ bt_ready b = true /\ (t < bt_now b + ttl_millis)%Z;
  av_cleared : (forall b, b ∈ beats -> re_lost_after (bt_env b) = None) -> hb_published st.1 = false ->
    forall t, (now <= t)%Z -> r_get st.2 t key = None;
}.

Lemma advert_later beats b now now' st :
  (now <= now')%Z -> advert_inv beats now st -> advert_inv (beats ++ [b]) now' st.
Proof.
  intros Hle [Hr Hb Hc]. split; [done| |].
  - intros t v Ht Hv. destruct (Hb t v ltac:(lia) Hv) as (-> & b' & Hin & ?). split; [done|].
    exists b'. split; [set_solver|done].
  - intros Hl Hp t Ht. apply Hc; [set_solver|done|lia].
Qed.

(** A command that acted, or did not. *)
Lemma reg_command_cases env act (s s' : redis) (res : result unit MeshError) :
  reg_command env act s = (s', res) ->
  (s' = s /\ res <> Ok tt) \/ (s' = act s /\ (res = Ok tt <-> re_lost_after env = None)).
Proof.
  unfold reg_command. destruct (re_lost_before env); [intros [= <- <-]; by left|].
  destruct (re_lost_after env); intros [= <- <-]; right; split; try done; split; done.
Qed.

Lemma advert_published beats b now h s p :
  (now <= bt_now b)%Z -> bt_ready b = true -> hb_record h = r ->
  (p = false -> re_lost_after (bt_env b) <> None) ->
  advert_inv (beats ++ [b]) (bt_now b) (mkHeartbeat (hb_record h) p, r_set_px s (bt_now b) key json ttl_millis).
Proof.
  intros Hle Hrdy Hr Hp. split; [done| |]; cbn [fst snd hb_published].
  - intros t v Ht. rewrite set_px_key by done. case_match eqn:E; [|done]. intros [= <-]. split; [done|].
    exists b. split; [set_solver|]. split; [done|]. by apply Z.ltb_lt.
  - intros Hl ->. exfalso. apply Hp; [done|]. apply Hl. set_solver.
Qed.

Lemma advert_deleted beats b h s :
  hb_record h = r -> advert_inv (beats ++ [b]) (bt_now b) (h, r_del s (bt_now b) key).
Proof.
  intros Hr. split; [done| |]; cbn [fst snd].
  - intros t v Ht. by rewrite del_key.
  - intros _ _ t Ht. by rewrite del_key.
Qed.

Lemma beat_advert beats b now st :
  (now <= bt_now b)%Z -> advert_inv beats now st -> advert_inv (beats ++ [b]) (bt_now b) (beat st b).
Proof.
  intros Hle Hinv. pose proof (advert_later beats b now (bt_now b) st Hle Hinv) as Hsame.
  destruct st as [h s]. pose proof (av_record _ _ _ Hinv) as Hr. cbn in Hr. unfold beat, tick. cbn [fst snd].
  destruct (bt_ready b) eqn:Hrdy.
  - unfold publish_ready. rewrite Hr, attested. destruct (re_pool (bt_env b)); [done|]. rewrite encoded.
    fold key ttl_millis. destruct (reg_command _ _ s) as [s' res] eqn:E.
    apply reg_command_cases in E as [[-> Hres]|[-> Hres]].
    + by destruct res as [[]|].
    + destruct res as [[]|]; [rewrite <- Hr; by eapply advert_published|].
      pose proof (advert_published beats b now h s (hb_published h)) as Hpub. destruct h as [hr hp]. cbn in *.
      apply Hpub; [done|done|done|]. intros _ Hn. by apply Hres in Hn.
  - destruct (hb_published h) eqn:Hp; [|done]. unfold clear_ready. rewrite Hr. destruct (re_pool (bt_env b)); [done|].
    fold key. destruct (reg_command _ _ s) as [s' res] eqn:E.
    apply reg_command_cases in E as [[-> Hres]|[-> _]].
    + by destruct res as [[]|].
    + destruct res as [[]|]; by apply advert_deleted.
Qed.

Lemma beats_advert beats t0 s :
  steady s t0 key None -> ordered t0 beats ->
  advert_inv beats (last_time t0 beats) (foldl beat (heartbeat r, s) beats).
Proof.
  intros Hs. induction beats as [|b beats IH] using rev_ind; intros Ho.
  { split; [done| |]; cbn.
    - intros t v Ht. by rewrite Hs.
    - intros _ _ t Ht. by rewrite Hs. }
  rewrite foldl_app. unfold last_time. rewrite last_snoc. cbn.
  assert (ordered t0 beats /\ (last_time t0 beats <= bt_now b)%Z) as [Ho1 Hle].
  { clear -Ho. revert t0 Ho. induction beats as [|x xs IH]; intros t0 Ho; cbn in *; [by destruct Ho|].
    destruct Ho as [Hx Ho]. destruct (IH _ Ho) as [Hxs Hl]. split; [done|].
    unfold last_time in *. rewrite last_cons. by destruct (last xs). }
  apply (beat_advert _ _ (last_time t0 beats)); [done|]. by apply IH.
Qed.

(** Readiness is advertised exactly.  Along any sequence of heartbeats, with
    Redis failing in any way: a runtime found in the registry was ready less than
    one expiry ago; right after a ready beat that went through, every scan before
    the expiry returns the runtime's record; and, unless a reply was lost after
    Redis acted, a runtime that reports itself unpublished is not in the
    registry. *)
Theorem readiness_advertised beats t0 s :
  steady s t0 key None -> ordered t0 beats ->
  let '(h, s') := foldl beat (heartbeat r, s) beats in
  (forall t r', (last_time t0 beats <= t)%Z -> scan_ready ready_of_json [(key, r_get s' t key)] = [r'] ->
     r' = r /\ exists b, b ∈ beats /\ bt_ready b = true /\ (t < bt_now b + ttl_millis)%Z) /\
  (forall b, last beats = Some b -> bt_env b = reg_healthy -> bt_ready b = true ->
     hb_published h = true /\
     forall t, (bt_now b <= t < bt_now b + ttl_millis)%Z -> scan_ready ready_of_json [(key, r_get s' t key)] = [r]) /\
  ((forall b, b ∈ beats -> re_lost_after (bt_env b) = None) -> hb_published h = false ->
     forall t, (last_time t0 beats <= t)%Z -> r_get s' t key = None).
Proof.
  intros Hs Ho. pose proof (beats_advert beats t0 s Hs Ho) as Hinv.
  assert (scan_ready ready_of_json [(key, Some json)] = [r]) as Hscan.
  { unfold scan_ready. cbn. rewrite (ready_json_round_trip r json encoded). unfold scan_keep. fold key.
    by rewrite String.eqb_refl, attested. }
  assert (forall b, last beats = Some b -> bt_env b = reg_healthy -> bt_ready b = true ->
    exists s0 h0, hb_record h0 = r /\ foldl beat (heartbeat r, s) beats = (mkHeartbeat r true, r_set_px s0 (bt_now b) key json ttl_millis)) as Hlast.
  { intros b Hb Henv Hrdy. apply last_Some in Hb as [bs ->]. rewrite foldl_app.
    assert (ordered t0 bs) as Hbs.
    { clear -Ho. revert t0 Ho. induction bs as [|x xs IH]; intros t0 Ho; cbn in *; [done|]. split; [apply Ho|apply IH, Ho]. }
    pose proof (beats_advert bs t0 s Hs Hbs) as [Hr _ _].
    destruct (foldl beat (heartbeat r, s) bs) as [h0 s0]. exists s0, h0. cbn in Hr. split; [done|].
    cbn. unfold beat, tick, publish_ready. cbn [fst snd]. rewrite Hrdy, Hr, attested, Henv. cbn. by rewrite encoded. }
  destruct (foldl beat (heartbeat r, s) beats) as [h s']. destruct Hinv as [Hr Hbnd Hclr]. cbn [fst snd] in *.
  split_and!; [| |exact Hclr].
  - intros t r' Ht. destruct (r_get s' t key) as [v|] eqn:Ev; [|done].
    destruct (Hbnd t v Ht Ev) as [-> Hex]. rewrite Hscan. intros [= <-]. done.
  - intros b Hb Henv Hrdy. destruct (Hlast b Hb Henv Hrdy) as (s0 & h0 & _ & [= -> ->]). split; [done|].
    intros t Ht. rewrite set_px_key by lia. by rewrite (proj2 (Z.ltb_lt _ _)) by lia.
Qed.
End advertised.

(** ** Concrete instances *)

Module SampleRuntime.
Import SampleHex SampleRedis SampleMesh.

(** Any countable type has a text codec: the bits of its code. *)
Fixpoint pos_text (p : positive) : string :=
  match p with
  | xH => ""
  | xO p => String "0" (pos_text p)
  | xI p => String "1" (pos_text p)
  end.
Fixpoint text_pos (s : string) : positive :=
  match s with
  | EmptyString => xH
  | String c s => if Ascii.eqb c "1" then xI (text_pos s) else xO (text_pos s)
  end.
Lemma text_pos_text p : text_pos (pos_text p) = p.
Proof. induction p; cbn; congruence. Qed.

#[local] Instance record_countable : Countable GossipRecord.
Proof.
  refine (inj_countable' (fun r => (gr_runtime_id r, gr_endpoint_addrs r, gr_proto_version r, gr_load r,
      gr_draining r, gr_capabilities r, gr_version r, gr_heartbeat_millis r))
    (fun '(a, b, c, d, e, f, g, h) => mkGossipRecord a b c d e f g h) _). by intros [].
Defined.
#[local] Instance entry_eq_dec : EqDecision GossipDigestEntry.
Proof. solve_decision. Defined.
#[local] Instance entry_countable : Countable GossipDigestEntry.
Proof.
  refine (inj_countable' (fun e => (de_runtime_id e, de_version e)) (fun '(a, b) => mkDigestEntry a b) _). by intros [].
Defined.
Definition message_code (m : GossipMessage) : (N * list GossipDigestEntry) + (N * list GossipRecord) :=
  match m with Digest v es => inl (v, es) | Delta v rs => inr (v, rs) end.
Definition code_message (c : (N * list GossipDigestEntry) + (N * list GossipRecord)) : GossipMessage :=
  match c with inl (v, es) => Digest v es | inr (v, rs) => Delta v rs end.

#[export] Instance codec : Postcard GossipMessage := {|
  to_extend m := Ok (pos_text (countable.encode (message_code m)));
  from_bytes b := match countable.decode (text_pos b) with Some c => Ok (code_message c) | None => Err "bad" end;
|}.
#[export] Instance codec_laws : PostcardLaws GossipMessage.
Proof.
  split. intros m b [= <-]. cbn. rewrite text_pos_text, countable.decode_encode. by destruct m.
Qed.

(** Two connected nodes. *)
Definition link : PeerEntry := mkPeerEntry 1 (Some (mkControlTx true [])).
Definition node_a : Inner :=
  let m := (apply_gossip_record (record_at 1 bob) table_a).1 in mkInner alice m {[ bob := link ]}.
Definition node_b : Inner := mkInner bob table_b {[ alice := link ]}.

Lemma linked_inv id m other :
  mesh_inv m -> id = mm_local_runtime_id m -> has_peer other m = true -> node_inv (mkInner id m {[ other := link ]}).
Proof.
  intros Hm -> Hp. split; cbn; [done|done| |].
  - intros i [e He]. apply lookup_singleton_Some in He as [Hi _]. by rewrite <- Hi.
  - intros i e tx [<- <-]%lookup_singleton_Some [= <-]. cbn. lia.
Qed.
Lemma node_a_inv : node_inv node_a.
Proof. apply linked_inv; [apply apply_gossip_record_ok, table_a_inv|done|vm_compute; reflexivity]. Qed.
Lemma node_b_inv : node_inv node_b.
Proof. apply linked_inv; [apply table_b_inv|done|vm_compute; reflexivity]. Qed.

#[export] Instance ready_json : ReadyJson := {|
  ready_to_json r := if bool_decide (rr_relay_sig r = rr_relay_sig seed /\ rr_runtime_id r = bob
    /\ rr_runtime_pubkey r = rr_runtime_pubkey seed /\ rr_relay_pubkey r = "aa" /\ rr_endpoint_addrs r = []
    /\ rr_proto_version r = 1%N /\ rr_capabilities r = []) then Ok "bob" else Err "other";
  ready_of_json j := Some seed;
|}.
#[export] Instance ready_json_laws : ReadyJsonLaws.
Proof.
  split. intros [] j. cbn. case_bool_decide as Hr; [|done]. cbn in Hr. intros _.
  destruct Hr as (-> & -> & -> & -> & -> & -> & ->). done.
Qed.

Lemma seed_attested : ReadyRecord_verify_attestation seed = Ok tt.
Proof. vm_compute. reflexivity. Qed.
Lemma seed_encoded : ready_to_json seed = Ok "bob".
Proof. vm_compute. reflexivity. Qed.

Definition up (t : Z) : Beat := mkBeat reg_healthy t true.
Definition down (t : Z) : Beat := mkBeat reg_healthy t false.
(** The registry after Bob was ready once, and after a reply lost by a pod that
    then reports itself not ready. *)
Definition after_up : ReadyHeartbeat * redis := foldl (beat 15000000000) (heartbeat seed, s0) [up 0].
Definition after_lost : ReadyHeartbeat * redis :=
  foldl (beat 15000000000) (heartbeat seed, s0) [mkBeat (mkRegEnv None None (Some "reset")) 0 true; down 15000].

Example up_is_found : r_get after_up.2 100 (ready_key bob) = Some "bob".
Proof. vm_compute. reflexivity. Qed.
(** Not ready any more, but still advertised: the flag was not set because the
    reply was lost. *)
Example lost_reply_still_advertised : r_get after_lost.2 20000 (ready_key bob) = Some "bob".
Proof. vm_compute. reflexivity. Qed.
End SampleRuntime.

Import SampleHex SampleRedis SampleMesh SampleRuntime.

Lemma simultaneous_dial_agrees_witness :
  pe_peer <$> in_peers (install_peer bob 1 true (install_peer bob 2 false (start table_a)).1).1
    !! bob = Some 1%N /\
  pe_peer <$> in_peers (install_peer alice 1 false (install_peer alice 2 true (start table_b)).1).1
    !! alice = Some 1%N.
Proof.
  apply (simultaneous_dial_agrees alice bob (start table_a) (start table_b) _ _ 1 2);
    [done|done|discriminate|reflexivity|reflexivity|right; left|left].
Defined.

Lemma mesh_node_invariant_witness :
  let s := foldl run_node (start table_a)
    [NAccept 5 (Some [seed]) bob 3; NStream bob true (Ok (Some (FrameHello (mkStreamHello bob Control)))); NTick 9] in
  node_inv s /\ step_ok table_a (in_membership s) /\ in_peers s !! mm_local_runtime_id table_a = None.
Proof. apply (mesh_node_invariant _ table_a table_a_inv). Defined.

Lemma gossip_exchange_merges_witness :
  exists a' b', exchange 7 node_a node_b = Some (a', b') /\
    (forall id, known (in_membership b') id = known (in_membership node_b) id) /\
    (forall id, known (in_membership a') id =
       if decide (id = in_runtime_id node_a)
       then Some (touch 7 (fun r => r) (mm_local_record (in_membership node_a)))
       else newest (known (in_membership node_a) id) (known (in_membership node_b) id)).
Proof.
  apply (gossip_exchange_merges 7 node_a node_b).
  - intros msg. by eexists.
  - apply node_a_inv.
  - apply node_b_inv.
  - exists 1%N. apply lookup_singleton_eq.
  - exists 1%N. apply lookup_singleton_eq.
Defined.

Lemma readiness_advertised_witness :
  hb_published after_up.1 = true /\
  forall t, (0 <= t < 45000)%Z ->
    scan_ready ready_of_json [(ready_key bob, r_get after_up.2 t (ready_key bob))] = [seed].
Proof.
  pose proof (readiness_advertised 15000000000 seed "bob" seed_attested seed_encoded
    [up 0] 0 s0 (fun t _ => eq_refl) (conj (Z.le_refl 0) I)) as Hadv.
  fold after_up in Hadv. destruct after_up as [h s'].
  destruct Hadv as (_ & Hup & _). exact (Hup (up 0) eq_refl eq_refl eq_refl).
Defined.
