(* ===== verification/PairRelay.v ===== *)
(** The ephemeral pairing relay, buzz-pair-relay/src/lib.rs: validation of
    filters and events, deduplication, delivery budgets, and the handling of one
    WebSocket connection.

    Every lock-protected operation is an atomic function on [Relay]; a connection
    in the middle of an EVENT is in a phase of [Phase], so that connections
    interleave between those operations.  One clock, in milliseconds, drives
    instants and, from its origin [epoch], the wall clock.  JSON text, hashing
    and Schnorr signatures are parameters. *)

From S2P Require Import Prelude Nostr JsonValue.

Definition MAX_CONNS : N := 128.
Definition CHANNEL_CAP : nat := 4.
Definition KIND_PAIR : N := 24134.
Definition RATE_WINDOW : Z := 10000.
Definition RATE_MSG_MAX : N := 20.
Definition RATE_EVENT_MAX : N := 10.
Definition SUB_ID_MAX : nat := 64.
Definition MAX_EVENTS_PER_CONN : N := 6.
Definition MAX_DELIVERED_PER_P : N := 12.
Definition DEDUP_CAP : nat := 1024.
Definition DELIVERED_MAP_CAP : nat := 4096.
Definition ENTRY_TTL : Z := 300000.
Definition FRESHNESS_SECS : Z := 120.

(** [serde_json] on text, and the [secp256k1] crate. *)
Class PairRelayLib := {
  prl_sha :: Sha256Lib;
  json_from_str : string -> option Json;
  json_to_string : Json -> result string string;
  (** [Value::to_string] *)
  json_display : Json -> string;
  (** [XOnlyPublicKey::from_byte_array] and [verify_schnorr] of a signature, a
      hash and a key *)
  xonly_ok : string -> bool;
  verify_schnorr : string -> string -> string -> bool;
}.
(** Compact JSON text determines the value it was made from. *)
Class PairRelayLaws `{PairRelayLib} : Prop := {
  json_text_inj : forall v v' t, json_to_string v = Ok t -> json_to_string v' = Ok t -> v = v';
}.

(** ** Text *)

Definition is_lower_hex_char (c : ascii) : bool :=
  let n := N_of_ascii c in ((48 <=? n) && (n <=? 57) || (97 <=? n) && (n <=? 102))%N.
Definition is_lower_hex (s : string) (len : nat) : bool :=
  (String.length s =? len)%nat && all_chars is_lower_hex_char s.

(** [char::to_digit(16)] *)
Definition to_digit16 (c : ascii) : option N :=
  let n := N_of_ascii c in
  if is_ascii_digit c then Some (n - 48)%N
  else if ((97 <=? n) && (n <=? 102))%N then Some (n - 87)%N
  else if ((65 <=? n) && (n <=? 70))%N then Some (n - 55)%N
  else None.

(** The chunk loop of [decode_hex32] and [decode_hex64]. *)
Fixpoint hex_pairs (s : string) : option string :=
  match s with
  | EmptyString => Some EmptyString
  | String a (String b s') =>
      match to_digit16 a, to_digit16 b, hex_pairs s' with
      | Some hi, Some lo, Some r => Some (String (ascii_of_N (hi * 16 + lo)) r)
      | _, _, _ => None
      end
  | String _ EmptyString => None
  end.
Definition decode_hex32 (s : string) : option string := if is_lower_hex s 64 then hex_pairs s else None.
Definition decode_hex64 (s : string) : option string := if is_lower_hex s 128 then hex_pairs s else None.

(** ** Filters *)

Definition validate_filter (filter : Json) : result string string :=
  match as_object filter with
  | None => Err "filter must be an object"
  | Some obj =>
      if negb (forallb (fun kv => String.eqb kv.1 "kinds" || String.eqb kv.1 "#p") obj) then
        Err "unsupported filter field"
      else
        let? _ := match obj_get "kinds" obj with
                  | None => Ok tt
                  | Some kinds =>
                      match as_array kinds with
                      | None => Err "kinds must be an array"
                      | Some [k] => if bool_decide (as_u64 k = Some KIND_PAIR) then Ok tt else Err "kinds must be [24134]"
                      | Some _ => Err "kinds must be [24134]"
                      end
                  end in
        match obj_get "#p" obj ≫= as_array with
        | None => Err "#p filter required"
        | Some [p] =>
            match as_str p with
            | None => Err "#p value must be a string"
            | Some p_str => ok_or (decode_hex32 p_str) "#p value must be 64 lowercase hex chars"
            end
        | Some _ => Err "#p must have exactly one value"
        end
  end.

(** ** Content *)

(** [b64_val]: the six bits of a character. *)
Definition b64_val (c : ascii) : option N :=
  let n := N_of_ascii c in
  if ((65 <=? n) && (n <=? 90))%N then Some (n - 65)%N
  else if ((97 <=? n) && (n <=? 122))%N then Some (n - 97 + 26)%N
  else if ((48 <=? n) && (n <=? 57))%N then Some (n - 48 + 52)%N
  else if (n =? 43)%N then Some 62%N
  else if (n =? 47)%N then Some 63%N
  else None.

(** The alphabet loop: [i] is the position, the answer the count of padding. *)
Fixpoint b64_scan (len i pad_count : nat) (s : string) : result nat string :=
  match s with
  | EmptyString => Ok pad_count
  | String c s' =>
      if bool_decide (is_Some (b64_val c)) then
        if (0 <? pad_count)%nat then Err "content is not valid base64" else b64_scan len (S i) pad_count s'
      else if (N_of_ascii c =? 61)%N then
        if (i <? len - 2)%nat then Err "content is not valid base64"
        else if (2 <? S pad_count)%nat then Err "content is not valid base64"
        else b64_scan len (S i) (S pad_count) s'
      else Err "content is not valid base64"
  end.

Definition validate_nip44_content (content : string) : result unit string :=
  if bool_decide (content = "") then Err "content must not be empty"
  else
    let len := String.length content in
    if negb (len mod 4 =? 0)%nat then Err "content is not valid base64"
    else
      let? pad_count := b64_scan len 0 0 content in
      let decoded_len := (len / 4 * 3 - pad_count)%nat in
      if (decoded_len <? 99)%nat then Err "content too short for NIP-44 v2"
      else
        match content with
        | String c0 (String c1 _) =>
            match b64_val c0, b64_val c1 with
            | Some v0, Some v1 =>
                let first_byte := N.lor (N.shiftl v0 2 mod 256) (N.shiftr v1 4) in
                if negb (first_byte =? 2)%N then Err "content is not NIP-44 v2 (expected 0x02 prefix)" else Ok tt
            | _, _ => Err "content is not valid base64"
            end
        | _ => Err "content is not valid base64"
        end.

(** ** Events *)

Definition ALLOWED_KEYS : list string := ["id"; "pubkey"; "created_at"; "kind"; "tags"; "content"; "sig"].

Definition str_field (key missing : string) (obj : list (string * Json)) : result string string :=
  ok_or (obj_get key obj ≫= as_str) missing.

Definition validate_event (now_secs : Z) (ev : Json) : result (string * string * string) string :=
  match as_object ev with
  | None => Err "event must be an object"
  | Some obj =>
      if negb (forallb (fun kv => bool_decide (kv.1 ∈ ALLOWED_KEYS)) obj) then Err "unknown top-level field"
      else
        let? id := str_field "id" "missing id" obj in
        if negb (is_lower_hex id 64) then Err "id must be 64 lowercase hex chars"
        else
        let? id_bytes := ok_or (decode_hex32 id) "id must be 64 lowercase hex chars" in
        let? pubkey := str_field "pubkey" "missing pubkey" obj in
        if negb (is_lower_hex pubkey 64) then Err "pubkey must be 64 lowercase hex chars"
        else if negb (bool_decide (obj_get "kind" obj ≫= as_u64 = Some KIND_PAIR)) then Err "kind must be 24134"
        else
        let? created_at := ok_or (obj_get "created_at" obj ≫= as_i64) "missing created_at" in
        if (FRESHNESS_SECS <? Z.abs (created_at - now_secs))%Z then Err "created_at outside freshness window"
        else
        let? content := str_field "content" "missing content" obj in
        let? _ := validate_nip44_content content in
        let? sig := str_field "sig" "missing sig" obj in
        if negb (is_lower_hex sig 128) then Err "sig must be 128 lowercase hex chars"
        else
        match obj_get "tags" obj ≫= as_array with
        | None => Err "missing tags"
        | Some [t] =>
            match as_array t with
            | None => Err "tag must be an array"
            | Some [name; value] =>
                if negb (bool_decide (as_str name = Some "p")) then Err "event must have exactly one p tag"
                else
                match as_str value with
                | None => Err "p tag value must be a string"
                | Some p_str =>
                    let? p_bytes := ok_or (decode_hex32 p_str) "p tag value must be 64 lowercase hex chars" in
                    Ok (id, id_bytes, p_bytes)
                end
            | Some _ => Err "p tag must have exactly 2 elements"
            end
        | Some _ => Err "event must have exactly one p tag"
        end
  end.

Definition safe_event_id (ev : Json) : string :=
  match get "id" ev ≫= as_str with
  | Some s => if is_lower_hex s 64 then s else ""
  | None => ""
  end.

Section verify.
Context `{PairRelayLib}.

(** [[0, pubkey, created_at, kind, tags, content]] *)
Definition commitment (pubkey : string) (created_at : Z) (kind : N) (tags : Json) (content : string) : Json :=
  JArray [number_of_N 0; JString pubkey; number_of_Z created_at; number_of_N kind; tags; JString content].

Definition verify_event_sig (ev : Json) : result unit string :=
  match as_object ev with
  | None => Err "event must be an object"
  | Some obj =>
      let? pubkey_str := str_field "pubkey" "missing pubkey" obj in
      let? created_at := ok_or (obj_get "created_at" obj ≫= as_i64) "missing created_at" in
      let? kind := ok_or (obj_get "kind" obj ≫= as_u64) "missing kind" in
      let? tags := ok_or (obj_get "tags" obj) "missing tags" in
      let? content := str_field "content" "missing content" obj in
      let? id_str := str_field "id" "missing id" obj in
      let? sig_str := str_field "sig" "missing sig" obj in
      match json_to_string (commitment pubkey_str created_at kind tags content) with
      | Err _ => Err "failed to serialize commitment"
      | Ok commitment_json =>
          let hash := sha256_digest commitment_json in
          let? id_bytes := ok_or (decode_hex32 id_str) "id must be 64 lowercase hex chars" in
          if negb (String.eqb hash id_bytes) then Err "invalid: event id mismatch"
          else
          let? pubkey_bytes := ok_or (decode_hex32 pubkey_str) "pubkey must be 64 lowercase hex chars" in
          if negb (xonly_ok pubkey_bytes) then Err "invalid: bad pubkey"
          else
          let? sig_bytes := ok_or (decode_hex64 sig_str) "sig must be 128 lowercase hex chars" in
          if verify_schnorr sig_bytes hash pubkey_bytes then Ok tt
          else Err "invalid: signature verification failed"
      end
  end.
End verify.

(** ** Channels *)

Inductive OutMsg := OutText (s : string) | OutPong (data : string) | OutClose.

(** An [mpsc] channel of capacity [CHANNEL_CAP]: closed once the writer task,
    which holds the receiver, is gone. *)
Record Channel := mkChannel { ch_open : bool; ch_queue : list OutMsg }.

Definition try_send (msg : OutMsg) (ch : Channel) : option Channel :=
  if ch_open ch && (length (ch_queue ch) <? CHANNEL_CAP)%nat
  then Some (mkChannel true (ch_queue ch ++ [msg])) else None.

(** ** The relay's shared state *)

(** The writer of a subscription is the channel of its connection. *)
Record Sub := mkSub { sub_conn_id : N; sub_sub_id : string; sub_p_value : string }.

Record Relay := mkRelay {
  subs : list Sub;
  conn_count : N;
  next_conn_id : N;
  seen_ids : list (string * Z);
  delivered : gmap string (N * Z);
}.
Definition Relay_new : Relay := mkRelay [] 0 0 [] ∅.

Definition set_subs (l : list Sub) (r : Relay) : Relay :=
  mkRelay l (conn_count r) (next_conn_id r) (seen_ids r) (delivered r).
Definition set_count (n : N) (r : Relay) : Relay :=
  mkRelay (subs r) n (next_conn_id r) (seen_ids r) (delivered r).
Definition set_seen (l : list (string * Z)) (r : Relay) : Relay :=
  mkRelay (subs r) (conn_count r) (next_conn_id r) l (delivered r).
Definition set_delivered (m : gmap string (N * Z)) (r : Relay) : Relay :=
  mkRelay (subs r) (conn_count r) (next_conn_id r) (seen_ids r) m.

Definition fresh_entry (now ts : Z) : bool := (now - ts <? ENTRY_TTL)%Z.

Definition reserve_id (now : Z) (id : string) (r : Relay) : Relay * result bool unit :=
  let vec := List.filter (fun e => fresh_entry now e.2) (seen_ids r) in
  if existsb (fun e => String.eqb e.1 id) vec then (set_seen vec r, Ok true)
  else if (DEDUP_CAP <=? length vec)%nat then (set_seen vec r, Err tt)
  else (set_seen (vec ++ [(id, now)]) r, Ok false).

(** [Vec::position] and [Vec::swap_remove]: the last element fills the hole. *)
Fixpoint position {A} (f : A -> bool) (l : list A) : option nat :=
  match l with
  | [] => None
  | x :: l => if f x then Some O else S <$> position f l
  end.
Definition swap_remove {A} (pos : nat) (l : list A) : list A :=
  match last l with
  | None => l
  | Some x => if (S pos =? length l)%nat then removelast l else <[pos := x]> (removelast l)
  end.
Definition unreserve_id (id : string) (r : Relay) : Relay :=
  match position (fun e => String.eqb e.1 id) (seen_ids r) with
  | Some pos => set_seen (swap_remove pos (seen_ids r)) r
  | None => r
  end.

Definition remove_sub (conn_id : N) (r : Relay) : Relay :=
  set_subs (List.filter (fun s => negb (sub_conn_id s =? conn_id)%N) (subs r)) r.

(** ** Connections *)

Record RateWindow := mkRateWindow { rw_count : N; rw_window_start : Z }.
Definition RateWindow_new (now : Z) : RateWindow := mkRateWindow 0 now.
Definition RateWindow_tick (now : Z) (w : RateWindow) : RateWindow * N :=
  let w := if (RATE_WINDOW <=? now - rw_window_start w)%Z then mkRateWindow 0 now else w in
  let w := mkRateWindow (rw_count w + 1) (rw_window_start w) in (w, rw_count w).

(** An EVENT that passed validation and signature check: its id as text and as
    bytes, its recipient, the event, and when it was validated. *)
Record Attempt := mkAttempt {
  at_event_id : string;
  at_id_bytes : string;
  at_p_value : string;
  at_event : Json;
  at_time : Z;
}.

(** Where a connection is: being upgraded, between frames, between two locked
    operations of an EVENT, or past the loop. *)
Inductive Phase :=
| Upgrading
| Reading
| Verified (a : Attempt)
| Reserved (a : Attempt) (at_ : Z)
| Rejecting (a : Attempt) (at_ : Z) (reason : string)
| Closing
| Closed.

Record Conn := mkConn {
  cn_channel : Channel;
  cn_msg_rate : RateWindow;
  cn_event_rate : RateWindow;
  cn_sub_id : option string;
  cn_events_attempted : N;
  cn_phase : Phase;
}.

Definition Conn_new (now : Z) : Conn :=
  mkConn (mkChannel true []) (RateWindow_new now) (RateWindow_new now) None 0 Upgrading.

Definition set_phase (p : Phase) (c : Conn) : Conn :=
  mkConn (cn_channel c) (cn_msg_rate c) (cn_event_rate c) (cn_sub_id c) (cn_events_attempted c) p.
Definition set_channel (ch : Channel) (c : Conn) : Conn :=
  mkConn ch (cn_msg_rate c) (cn_event_rate c) (cn_sub_id c) (cn_events_attempted c) (cn_phase c).
Definition set_sub_id (s : option string) (c : Conn) : Conn :=
  mkConn (cn_channel c) (cn_msg_rate c) (cn_event_rate c) s (cn_events_attempted c) (cn_phase c).

(** [let _ = tx.try_send(..)]: a full or closed channel drops the message. *)
Definition send_or_drop (msg : OutMsg) (c : Conn) : Conn :=
  match try_send msg (cn_channel c) with Some ch => set_channel ch c | None => c end.

Section conn.
Context `{PairRelayLib}.

Definition jarr (v : list Json) : string := json_display (JArray v).
Definition make_ok (id : string) (ok : bool) (msg : string) : string :=
  jarr [JString "OK"; JString id; JBool ok; JString msg].
Definition make_closed (sub_id msg : string) : string := jarr [JString "CLOSED"; JString sub_id; JString msg].
Definition make_eose (sub_id : string) : string := jarr [JString "EOSE"; JString sub_id].
Definition make_notice (msg : string) : string := jarr [JString "NOTICE"; JString msg].

Definition notice (msg : string) : Conn -> Conn := send_or_drop (OutText (make_notice msg)).
Definition closed_msg (sub_id msg : string) : Conn -> Conn := send_or_drop (OutText (make_closed sub_id msg)).
Definition ok_msg (id : string) (ok : bool) (msg : string) : Conn -> Conn :=
  send_or_drop (OutText (make_ok id ok msg)).

Definition handle_req (conn_id : N) (arr : list Json) (c : Conn) (r : Relay) : Conn * Relay :=
  match arr with
  | _ :: JString client_sub_id :: filter :: rest =>
      if (SUB_ID_MAX <? String.length client_sub_id)%nat then (closed_msg "" "error: sub_id too long" c, r)
      else if negb (bool_decide (rest = [])) then
        (closed_msg client_sub_id "error: multiple filters not supported" c, r)
      else if negb (is_object filter) then (closed_msg client_sub_id "error: invalid filter" c, r)
      else if bool_decide (is_Some (cn_sub_id c)) then
        (closed_msg client_sub_id "error: already subscribed, send CLOSE first" c, r)
      else
        match validate_filter filter with
        | Err reason => (closed_msg client_sub_id ("error: " +:+ reason) c, r)
        | Ok p_value =>
            if existsb (fun s => String.eqb (sub_p_value s) p_value) (subs r) then
              (closed_msg client_sub_id "error: #p already has a live subscriber" c, r)
            else
              match try_send (OutText (make_eose client_sub_id)) (cn_channel c) with
              | None => (set_phase Closing c, r)
              | Some ch =>
                  (set_sub_id (Some client_sub_id) (set_channel ch c),
                   set_subs (subs r ++ [mkSub conn_id client_sub_id p_value]) r)
              end
        end
  | _ => (notice "error: invalid REQ" c, r)
  end.

(** Up to the signature check; a valid EVENT leaves the connection [Verified]. *)
Definition handle_event (now : Z) (now_secs : Z) (arr : list Json) (c : Conn) : Conn :=
  match arr with
  | [_; ev] =>
      let '(rate, count) := RateWindow_tick now (cn_event_rate c) in
      let c := mkConn (cn_channel c) (cn_msg_rate c) rate (cn_sub_id c) (cn_events_attempted c) (cn_phase c) in
      if (RATE_EVENT_MAX <? count)%N then ok_msg (safe_event_id ev) false "rate-limited" c
      else if (MAX_EVENTS_PER_CONN <=? cn_events_attempted c)%N then
        ok_msg (safe_event_id ev) false "error: session event limit reached" c
      else if negb (is_object ev) then ok_msg "" false "invalid: malformed event" c
      else
        match validate_event now_secs ev with
        | Err reason => ok_msg (safe_event_id ev) false ("invalid: " +:+ reason) c
        | Ok (event_id, id_bytes, p_value) =>
            match verify_event_sig ev with
            | Err reason => ok_msg event_id false reason c
            | Ok _ =>
                mkConn (cn_channel c) (cn_msg_rate c) (cn_event_rate c) (cn_sub_id c)
                  (cn_events_attempted c + 1) (Verified (mkAttempt event_id id_bytes p_value ev now))
            end
        end
  | _ => notice "error: invalid EVENT" c
  end.

Definition handle_close (conn_id : N) (arr : list Json) (c : Conn) (r : Relay) : Conn * Relay :=
  match arr with
  | [_; v] =>
      match as_str v with
      | Some sid =>
          if bool_decide (cn_sub_id c = Some sid) then (set_sub_id None c, remove_sub conn_id r) else (c, r)
      | None => (notice "error: invalid CLOSE" c, r)
      end
  | _ => (notice "error: invalid CLOSE" c, r)
  end.

Definition handle_text (now now_secs : Z) (conn_id : N) (text : string) (c : Conn) (r : Relay) : Conn * Relay :=
  match json_from_str text with
  | Some (JArray ((JString verb :: _) as arr)) =>
      if String.eqb verb "REQ" then handle_req conn_id arr c r
      else if String.eqb verb "EVENT" then (handle_event now now_secs arr c, r)
      else if String.eqb verb "CLOSE" then handle_close conn_id arr c r
      else (notice "error: unsupported message" c, r)
  | _ => (notice "error: invalid message" c, r)
  end.

Inductive Frame := FBinary | FRaw | FPing (data : string) | FPong | FClose | FText (text : string) | FError.

Definition handle_frame (now now_secs : Z) (conn_id : N) (f : Frame) (c : Conn) (r : Relay) : Conn * Relay :=
  let '(rate, count) := RateWindow_tick now (cn_msg_rate c) in
  let c := mkConn (cn_channel c) rate (cn_event_rate c) (cn_sub_id c) (cn_events_attempted c) (cn_phase c) in
  if (RATE_MSG_MAX <? count)%N then (set_phase Closing c, r)
  else
    match f with
    | FError | FBinary | FRaw => (set_phase Closing c, r)
    | FPing data =>
        (match try_send (OutPong data) (cn_channel c) with
         | Some ch => set_channel ch c
         | None => set_phase Closing c
         end, r)
    | FPong => (c, r)
    | FClose => (set_phase Closing (send_or_drop OutClose c), r)
    | FText text => handle_text now now_secs conn_id text c r
    end.

(** [deliver_single]; the channels are those of the connections. *)
Definition deliver_single (now : Z) (p_value : string) (event : Json) (conns : gmap N Conn) (r : Relay)
    : gmap N Conn * Relay * result bool string :=
  match List.filter (fun s => String.eqb (sub_p_value s) p_value) (subs r) with
  | [] => (conns, r, Err "no live subscriber")
  | [s] =>
      let map := filter (fun kv : string * (N * Z) => fresh_entry now kv.2.2 = true) (delivered r) in
      let r := set_delivered map r in
      let count := default 0%N (fst <$> map !! p_value) in
      if (MAX_DELIVERED_PER_P <=? count)%N then (conns, r, Err "recipient session budget exhausted")
      else if (DELIVERED_MAP_CAP <=? size map)%nat && negb (bool_decide (is_Some (map !! p_value))) then
        (conns, r, Err "relay at capacity")
      else
        match json_to_string (JArray [JString "EVENT"; JString (sub_sub_id s); event]) with
        | Err _ => (conns, r, Ok false)
        | Ok text =>
            match conns !! sub_conn_id s with
            | Some d =>
                match try_send (OutText text) (cn_channel d) with
                | Some ch =>
                    (<[sub_conn_id s := set_channel ch d]> conns,
                     set_delivered (<[p_value := (count + 1, now)%N]> map) r, Ok true)
                | None => (conns, r, Ok false)
                end
            | None => (conns, r, Ok false)
            end
        end
  | _ => (conns, r, Err "ambiguous recipient")
  end.
End conn.

(** ** The whole relay *)

(** A delivery: who sent it, what, to which connection and subscription. *)
Record Delivery := mkDelivery { dl_from : N; dl_attempt : Attempt; dl_to : N; dl_sub_id : string }.

(** [w_refusing] counts the upgrade requests between their [fetch_add] and
    [fetch_sub]; [w_log] records the deliveries. *)
Record World := mkWorld {
  w_relay : Relay;
  w_conns : gmap N Conn;
  w_now : Z;
  w_refusing : N;
  w_log : list Delivery;
}.

Definition World_new (now : Z) : World := mkWorld Relay_new ∅ now 0 [].

Definition set_relay (r : Relay) (w : World) : World := mkWorld r (w_conns w) (w_now w) (w_refusing w) (w_log w).
Definition set_conns (cs : gmap N Conn) (w : World) : World :=
  mkWorld (w_relay w) cs (w_now w) (w_refusing w) (w_log w).
Definition set_conn (id : N) (c : Conn) (w : World) : World := set_conns (<[id := c]> (w_conns w)) w.

Inductive Act :=
| AUpgrade                        (* a valid upgrade request *)
| ARefusedDone                    (* the [fetch_sub] of a refused request *)
| AUpgraded (id : N) (ok : bool)  (* the upgrade finished, or failed *)
| AFrame (id : N) (f : Frame)
| AReserve (id : N)
| ADeliver (id : N)
| AUnreserve (id : N)
| AWrite (id : N)                 (* the writer sends the next message *)
| AWriterDied (id : N)
| ABreak (id : N)                 (* deadline, end of stream, or dead writer *)
| ARemoveSub (id : N)             (* first statement after the loop *)
| ADropGuard (id : N)
| AWait (until : Z).              (* the clock advances *)

(** When an EVENT in progress was validated. *)
Definition busy_since (c : Conn) : option Z :=
  match cn_phase c with
  | Verified a | Reserved a _ | Rejecting a _ _ => Some (at_time a)
  | _ => None
  end.

Section world.
Context `{PairRelayLib}.
(** [epoch] is the wall-clock time, in milliseconds, at the clock's origin. *)
Variables (epoch : Z) (busy_max : Z).

(** [SystemTime::now()] in seconds, 0 before the epoch. *)
Definition wall_secs (now : Z) : Z := if (epoch + now <? 0)%Z then 0 else (epoch + now) / 1000.

(** EVENTs are handled without waiting: none stays in progress for more than
    [busy_max]. *)
Definition may_wait (until : Z) (w : World) : bool :=
  (w_now w <=? until)%Z &&
  forallb (fun kc => match busy_since kc.2 with Some t => (until <=? t + busy_max)%Z | None => true end)
    (map_to_list (w_conns w)).

Definition act (w : World) (a : Act) : option World :=
  let r := w_relay w in let now := w_now w in
  match a with
  | AUpgrade =>
      if (MAX_CONNS <=? conn_count r)%N then
        Some (mkWorld (set_count (conn_count r + 1) r) (w_conns w) now (w_refusing w + 1) (w_log w))
      else
        let id := next_conn_id r in
        Some (mkWorld (mkRelay (subs r) (conn_count r + 1) (id + 1) (seen_ids r) (delivered r))
                (<[id := Conn_new now]> (w_conns w)) now (w_refusing w) (w_log w))
  | ARefusedDone =>
      if (0 <? w_refusing w)%N then
        Some (mkWorld (set_count (conn_count r - 1) r) (w_conns w) now (w_refusing w - 1) (w_log w))
      else None
  | AUpgraded id ok =>
      match w_conns w !! id with
      | Some c =>
          match cn_phase c with
          | Upgrading =>
              if ok then
                Some (set_conn id (mkConn (mkChannel true []) (RateWindow_new now) (RateWindow_new now) None 0 Reading) w)
              else Some (set_conns (delete id (w_conns w)) (set_relay (set_count (conn_count r - 1) r) w))
          | _ => None
          end
      | None => None
      end
  | AFrame id f =>
      match w_conns w !! id with
      | Some c =>
          match cn_phase c with
          | Reading => let '(c', r') := handle_frame now (wall_secs now) id f c r in
                       Some (set_conn id c' (set_relay r' w))
          | _ => None
          end
      | None => None
      end
  | AReserve id =>
      match w_conns w !! id with
      | Some c =>
          match cn_phase c with
          | Verified a =>
              let '(r', res) := reserve_id now (at_id_bytes a) r in
              let c' := match res with
                        | Ok true => set_phase Reading (ok_msg (at_event_id a) false "duplicate: already seen" c)
                        | Err _ => set_phase Reading (ok_msg (at_event_id a) false "relay at capacity" c)
                        | Ok false => set_phase (Reserved a now) c
                        end in
              Some (set_conn id c' (set_relay r' w))
          | _ => None
          end
      | None => None
      end
  | ADeliver id =>
      match w_conns w !! id with
      | Some c =>
          match cn_phase c with
          | Reserved a at_ =>
              let '(cs, r', res) := deliver_single now (at_p_value a) (at_event a) (w_conns w) r in
              let c := default c (cs !! id) in
              match res with
              | Ok true =>
                  let log := w_log w ++
                    match List.filter (fun s => String.eqb (sub_p_value s) (at_p_value a)) (subs r) with
                    | s :: _ => [mkDelivery id a (sub_conn_id s) (sub_sub_id s)]
                    | [] => []
                    end in
                  Some (mkWorld r' (<[id := set_phase Reading (ok_msg (at_event_id a) true "" c)]> cs) now
                          (w_refusing w) log)
              | Ok false => Some (set_relay r' (set_conns (<[id := set_phase (Rejecting a at_ "delivery failed") c]> cs) w))
              | Err reason => Some (set_relay r' (set_conns (<[id := set_phase (Rejecting a at_ reason) c]> cs) w))
              end
          | _ => None
          end
      | None => None
      end
  | AUnreserve id =>
      match w_conns w !! id with
      | Some c =>
          match cn_phase c with
          | Rejecting a _ reason =>
              Some (set_conn id (set_phase Reading (ok_msg (at_event_id a) false reason c))
                      (set_relay (unreserve_id (at_id_bytes a) r) w))
          | _ => None
          end
      | None => None
      end
  | AWrite id =>
      match w_conns w !! id with
      | Some c =>
          match ch_queue (cn_channel c) with
          | _ :: q => if ch_open (cn_channel c) then Some (set_conn id (set_channel (mkChannel true q) c) w) else None
          | [] => None
          end
      | None => None
      end
  | AWriterDied id =>
      match w_conns w !! id with
      | Some c => Some (set_conn id (set_channel (mkChannel false []) c) w)
      | None => None
      end
  | ABreak id =>
      match w_conns w !! id with
      | Some c => match cn_phase c with Reading => Some (set_conn id (set_phase Closing c) w) | _ => None end
      | None => None
      end
  | ARemoveSub id =>
      match w_conns w !! id with
      | Some c =>
          match cn_phase c with
          | Closing => Some (set_conn id (set_phase Closed (send_or_drop OutClose c)) (set_relay (remove_sub id r) w))
          | _ => None
          end
      | None => None
      end
  | ADropGuard id =>
      match w_conns w !! id with
      | Some c =>
          match cn_phase c with
          | Closed =>
              let r := remove_sub id r in
              Some (set_conns (delete id (w_conns w)) (set_relay (set_count (conn_count r - 1) r) w))
          | _ => None
          end
      | None => None
      end
  | AWait until =>
      if may_wait until w
      then Some (mkWorld r (w_conns w) until (w_refusing w) (w_log w)) else None
  end.

Fixpoint run (w : World) (acts : list Act) : option World :=
  match acts with
  | [] => Some w
  | a :: acts => match act w a with Some w' => run w' acts | None => None end
  end.
End world.
