(* ===== verification/PairRelayTheorems.v ===== *)
(** Correctness of the pairing relay: its resource bounds and routing table as
    invariants of every interleaving, at most one delivery per event, and what a
    delivery is. *)

From S2P Require Import Prelude Nostr JsonValue PairRelay.

(** ** One connection *)

Definition busy (c : Conn) : bool := bool_decide (is_Some (busy_since c)).

Record conn_ok (c : Conn) : Prop := {
  co_queue : (length (ch_queue (cn_channel c)) <= CHANNEL_CAP)%nat;
  co_attempted : (cn_events_attempted c <= MAX_EVENTS_PER_CONN)%N;
  co_upgrading : cn_phase c = Upgrading -> cn_sub_id c = None /\ cn_events_attempted c = 0%N;
}.

Lemma try_send_ok msg ch ch' :
  try_send msg ch = Some ch' -> (length (ch_queue ch') <= CHANNEL_CAP)%nat.
Proof.
  unfold try_send. case_match eqn:E; [|done]. intros [= <-]. apply andb_prop in E as [_ E%Nat.ltb_lt].
  cbn. rewrite length_app. cbn. lia.
Qed.

(** Two connections that differ in their channel only. *)
Definition same_but_channel (c c' : Conn) : Prop :=
  cn_msg_rate c' = cn_msg_rate c /\ cn_event_rate c' = cn_event_rate c /\ cn_sub_id c' = cn_sub_id c /\
  cn_events_attempted c' = cn_events_attempted c /\ cn_phase c' = cn_phase c.

Lemma set_channel_same ch c : same_but_channel c (set_channel ch c).
Proof. done. Qed.
Lemma send_or_drop_same msg c : same_but_channel c (send_or_drop msg c).
Proof. unfold send_or_drop. by destruct (try_send _ _). Qed.
Lemma send_or_drop_ok msg c : conn_ok c -> conn_ok (send_or_drop msg c).
Proof.
  intros [Hq Ha Hu]. unfold send_or_drop. destruct (try_send msg (cn_channel c)) as [ch|] eqn:E; [|done].
  split; cbn; [by eapply try_send_ok|done|done].
Qed.

Lemma conn_ok_phase c p : conn_ok c -> p <> Upgrading -> conn_ok (set_phase p c).
Proof. intros [Hq Ha Hu] Hp. by split. Qed.

(** ** Frames *)

Section frames.
Context `{PairRelayLib}.

(** A verified attempt, at a wall-clock second. *)
Definition valid_attempt (secs : Z) (a : Attempt) : Prop :=
  validate_event secs (at_event a) = Ok (at_event_id a, at_id_bytes a, at_p_value a) /\
  verify_event_sig (at_event a) = Ok tt.

(** What a frame can do to the routing table, and to the connection's own
    subscription. *)
Inductive subs_effect (id : N) (c c' : Conn) (r r' : Relay) : Prop :=
| se_same : subs r' = subs r -> cn_sub_id c' = cn_sub_id c -> subs_effect id c c' r r'
| se_add sid p : subs r' = subs r ++ [mkSub id sid p] -> (forall s, s ∈ subs r -> sub_p_value s <> p) ->
    cn_sub_id c = None -> cn_sub_id c' = Some sid -> subs_effect id c c' r r'
| se_remove : r' = remove_sub id r -> cn_sub_id c' = None -> subs_effect id c c' r r'.

(** What it can do to the phase. *)
Inductive phase_effect (now secs : Z) (f : Frame) (c c' : Conn) : Prop :=
| pe_reading : cn_phase c' = Reading -> cn_events_attempted c' = cn_events_attempted c -> phase_effect now secs f c c'
| pe_closing : cn_phase c' = Closing -> cn_events_attempted c' = cn_events_attempted c -> phase_effect now secs f c c'
| pe_verified a text verb : cn_phase c' = Verified a -> at_time a = now -> valid_attempt secs a ->
    cn_events_attempted c' = (cn_events_attempted c + 1)%N ->
    f = FText text -> json_from_str text = Some (JArray [verb; at_event a]) -> phase_effect now secs f c c'.

Definition frame_effect (now secs : Z) (id : N) (f : Frame) (c c' : Conn) (r r' : Relay) : Prop :=
  conn_ok c' /\ conn_count r' = conn_count r /\ next_conn_id r' = next_conn_id r /\
  seen_ids r' = seen_ids r /\ delivered r' = delivered r /\
  subs_effect id c c' r r' /\ phase_effect now secs f c c'.

(** Replies leave everything but the channel as it was. *)
Lemma reply_effect now secs id f c0 c c' r :
  cn_phase c = Reading -> cn_sub_id c = cn_sub_id c0 -> cn_events_attempted c = cn_events_attempted c0 ->
  same_but_channel c c' -> conn_ok c' -> frame_effect now secs id f c0 c' r r.
Proof.
  intros Hp Hs Ha (_ & _ & E1 & E2 & E3) Hok. split_and!; try done.
  - apply se_same; [done|congruence].
  - apply pe_reading; congruence.
Qed.

Lemma send_effect now secs id f c0 c r msg :
  cn_phase c = Reading -> cn_sub_id c = cn_sub_id c0 -> cn_events_attempted c = cn_events_attempted c0 ->
  conn_ok c -> frame_effect now secs id f c0 (send_or_drop msg c) r r.
Proof.
  intros ??? Hok. eapply reply_effect; [done|done|done|apply send_or_drop_same|by apply send_or_drop_ok].
Qed.

Lemma closing_effect now secs id f c0 c r :
  cn_sub_id c = cn_sub_id c0 -> cn_events_attempted c = cn_events_attempted c0 ->
  conn_ok c -> frame_effect now secs id f c0 (set_phase Closing c) r r.
Proof. intros ?? Hok. split_and!; try done; [by apply conn_ok_phase|by apply se_same|by apply pe_closing]. Qed.

Lemma existsb_false_1 {A} (f : A -> bool) l : existsb f l = false -> forall x, x ∈ l -> f x = false.
Proof.
  intros He x Hx. destruct (f x) eqn:E; [|done]. exfalso.
  assert (existsb f l = true) by (apply existsb_exists; exists x; split; [by apply list_elem_of_In|done]). congruence.
Qed.

(** [c] is [c0] after its counters were ticked. *)
Definition ticked (c0 c : Conn) : Prop :=
  cn_phase c = Reading /\ cn_sub_id c = cn_sub_id c0 /\ cn_events_attempted c = cn_events_attempted c0 /\ conn_ok c.

Lemma ticked_send now secs id f c0 c r msg :
  ticked c0 c -> frame_effect now secs id f c0 (send_or_drop msg c) r r.
Proof. intros (? & ? & ? & ?). by apply send_effect. Qed.
Lemma ticked_same now secs id f c0 c r : ticked c0 c -> frame_effect now secs id f c0 c r r.
Proof. intros (? & ? & ? & ?). by eapply reply_effect. Qed.

Lemma handle_req_effect now secs id f arr c0 c r c' r' :
  ticked c0 c -> handle_req id arr c r = (c', r') -> frame_effect now secs id f c0 c' r r'.
Proof.
  intros Ht. pose proof Ht as (Hp & Hs & Ha & Hok). unfold handle_req.
  destruct arr as [|a0 [|a1 [|flt rest]]]; try (intros [= <- <-]; by apply ticked_send).
  all: try (destruct a1; intros [= <- <-]; by apply ticked_send).
  destruct a1 as [| | |sid| |]; try (intros [= <- <-]; by apply ticked_send).
  do 3 (match goal with |- (if ?b then _ else _) = _ -> _ => destruct b end;
        [intros [= <- <-]; by apply ticked_send|]).
  destruct (bool_decide (is_Some (cn_sub_id c))) eqn:Hsub; [intros [= <- <-]; by apply ticked_send|].
  apply bool_decide_eq_false_1 in Hsub.
  destruct (validate_filter flt) as [p|]; [|intros [= <- <-]; by apply ticked_send].
  destruct (existsb _ (subs r)) eqn:He; [intros [= <- <-]; by apply ticked_send|].
  destruct (try_send _ _) as [ch|] eqn:Hch; intros [= <- <-]; [|by apply closing_effect].
  assert (cn_sub_id c0 = None) as Hnone by (rewrite <- Hs; by apply eq_None_not_Some).
  destruct Hok as [Hq Hat Hu]. split_and!; try done.
  - split; cbn; [by eapply try_send_ok|done|congruence].
  - eapply se_add; [done| |done|done]. intros s Hin Heq.
    pose proof (existsb_false_1 _ _ He s Hin) as Hne. cbn in Hne. by rewrite Heq, String.eqb_refl in Hne.
  - by apply pe_reading.
Qed.

Lemma handle_close_effect now secs id f arr c0 c r c' r' :
  ticked c0 c -> handle_close id arr c r = (c', r') -> frame_effect now secs id f c0 c' r r'.
Proof.
  intros Ht. pose proof Ht as (Hp & Hs & Ha & Hok). unfold handle_close.
  destruct arr as [|a0 [|a1 [|a2 rest]]]; try (intros [= <- <-]; by apply ticked_send).
  destruct (as_str a1) as [sid|]; [|intros [= <- <-]; by apply ticked_send].
  case_bool_decide; intros [= <- <-]; [|by apply ticked_same].
  destruct Hok as [Hq Hat Hu]. split_and!; try done.
  - split; cbn; [done|done|congruence].
  - by apply se_remove.
  - by apply pe_reading.
Qed.

Lemma handle_event_effect now secs id text verb rest c0 c r :
  ticked c0 c -> json_from_str text = Some (JArray (verb :: rest)) ->
  frame_effect now secs id (FText text) c0 (handle_event now secs (verb :: rest) c) r r.
Proof.
  intros Ht Htext. unfold handle_event.
  destruct rest as [|ev [|a2 rest]]; try by apply ticked_send.
  destruct (RateWindow_tick now (cn_event_rate c)) as [rate count].
  set (c1 := mkConn _ _ rate _ _ _).
  assert (ticked c0 c1) as Ht1. { destruct Ht as (? & ? & ? & [? ? ?]). by split_and!. }
  destruct (RATE_EVENT_MAX <? count)%N; [by apply ticked_send|].
  destruct (N.leb_spec MAX_EVENTS_PER_CONN (cn_events_attempted c1)) as [Hge|Hlt]; [by apply ticked_send|].
  destruct (is_object ev); [|by apply ticked_send]. cbn [negb].
  destruct (validate_event secs ev) as [[[eid idb] p]|] eqn:Hv; [|by apply ticked_send].
  destruct (verify_event_sig ev) as [[]|] eqn:Hsig; [|by apply ticked_send].
  destruct Ht1 as (Hp & Hs & Ha & [Hq Hat Hu]). split_and!; try done.
  - split; cbn; [done|unfold c1 in *; cbn in *; lia|done].
  - by apply se_same.
  - eapply pe_verified; [done|done|by split| |done|exact Htext]. by rewrite <- Ha.
Qed.

Lemma handle_frame_effect now secs id f c r c' r' :
  cn_phase c = Reading -> conn_ok c -> handle_frame now secs id f c r = (c', r') ->
  frame_effect now secs id f c c' r r'.
Proof.
  intros Hp Hok. unfold handle_frame. destruct (RateWindow_tick now (cn_msg_rate c)) as [rate count].
  set (c1 := mkConn _ rate _ _ _ _).
  assert (ticked c c1) as Ht. { destruct Hok. by split_and!. }
  pose proof Ht as (_ & ? & ? & ?).
  destruct (RATE_MSG_MAX <? count)%N; [intros [= <- <-]; by apply closing_effect|].
  destruct f as [| |data| | |text|]; try (intros [= <- <-]; by apply closing_effect).
  - destruct (try_send _ _) as [ch|] eqn:E; intros [= <- <-]; [|by apply closing_effect].
    apply (reply_effect _ _ _ _ c c1); [done|done|done|apply set_channel_same|].
    destruct Hok. split; cbn; [by eapply try_send_ok|done|congruence].
  - intros [= <- <-]. by apply ticked_same.
  - intros [= <- <-]. pose proof (send_or_drop_same OutClose c1) as (_ & _ & E1 & E2 & _).
    apply closing_effect; [congruence|congruence|by apply send_or_drop_ok].
  - unfold handle_text. destruct (json_from_str text) as [v|] eqn:Ht';
      [|intros [= <- <-]; by apply ticked_send].
    destruct v as [| | | |[|v0 rest]|]; try (intros [= <- <-]; by apply ticked_send).
    destruct v0 as [| | |verb| |]; try (intros [= <- <-]; by apply ticked_send).
    destruct (String.eqb verb "REQ"); [by apply handle_req_effect|].
    destruct (String.eqb verb "EVENT"); [intros [= <- <-]; by eapply handle_event_effect|].
    destruct (String.eqb verb "CLOSE"); [by apply handle_close_effect|].
    intros [= <- <-]. by apply ticked_send.
Qed.
End frames.

(** ** The shape invariant *)

Definition live (c : Conn) : Prop := cn_phase c <> Closed.
Definition sent_by (id : N) (log : list Delivery) : nat :=
  length (List.filter (fun d => (dl_from d =? id)%N) log).

(** Slots: connections and refusals in progress are counted, ids are fresh. *)
Definition slots_ok (r : Relay) (cs : gmap N Conn) (refusing : N) : Prop :=
  conn_count r = (N.of_nat (size cs) + refusing)%N /\ (N.of_nat (size cs) <= MAX_CONNS)%N /\
  forall id, is_Some (cs !! id) -> (id < next_conn_id r)%N.

(** Routing: one subscription per recipient key and per connection, and exactly
    the subscriptions the connections believe they have. *)
Definition routing_ok (ss : list Sub) (cs : gmap N Conn) : Prop :=
  NoDup (sub_p_value <$> ss) /\ NoDup (sub_conn_id <$> ss) /\
  (forall s, s ∈ ss -> exists c, cs !! sub_conn_id s = Some c /\ live c /\ cn_sub_id c = Some (sub_sub_id s)) /\
  (forall id c sid, cs !! id = Some c -> live c -> cn_sub_id c = Some sid -> exists p, mkSub id sid p ∈ ss).

Definition caches_ok (r : Relay) : Prop :=
  (length (seen_ids r) <= DEDUP_CAP)%nat /\ (size (delivered r) <= DELIVERED_MAP_CAP)%nat /\
  forall p n t, delivered r !! p = Some (n, t) -> (n <= MAX_DELIVERED_PER_P)%N.

(** Senders: what a connection has had delivered, and is having, is within what
    it attempted. *)
Definition senders_ok (r : Relay) (cs : gmap N Conn) (log : list Delivery) : Prop :=
  forall id,
    match cs !! id with
    | Some c => (N.of_nat (sent_by id log) + (if busy c then 1 else 0) <= cn_events_attempted c)%N
    | None => (N.of_nat (sent_by id log) <= MAX_EVENTS_PER_CONN)%N /\
        ((next_conn_id r <= id)%N -> sent_by id log = 0%nat)
    end.

Record shape (w : World) : Prop := {
  sh_slots : slots_ok (w_relay w) (w_conns w) (w_refusing w);
  sh_conns : forall id c, w_conns w !! id = Some c -> conn_ok c;
  sh_routing : routing_ok (subs (w_relay w)) (w_conns w);
  sh_caches : caches_ok (w_relay w);
  sh_senders : senders_ok (w_relay w) (w_conns w) (w_log w);
}.

(** Replacing a connection by one that looks the same to the routing table. *)
Definition alike (c c' : Conn) : Prop := cn_sub_id c' = cn_sub_id c /\ (live c <-> live c').

Lemma size_update {A} (cs : gmap N A) id c c' : cs !! id = Some c -> size (<[id := c']> cs) = size cs.
Proof. intros Hc. apply map_size_insert_Some. by rewrite Hc. Qed.

Lemma slots_update r r' cs refusing id c c' :
  conn_count r' = conn_count r -> next_conn_id r' = next_conn_id r ->
  cs !! id = Some c -> slots_ok r cs refusing -> slots_ok r' (<[id := c']> cs) refusing.
Proof.
  intros E1 E2 Hc (Hn & Hm & Hid). unfold slots_ok. rewrite E1, E2, (size_update cs id c c' Hc).
  split_and!; [done|done|]. intros i [x Hx]. apply Hid.
  apply lookup_insert_Some in Hx as [[<- _]|[_ Hx]]; eauto.
Qed.

Lemma routing_update ss cs id c c' :
  cs !! id = Some c -> alike c c' -> routing_ok ss cs -> routing_ok ss (<[id := c']> cs).
Proof.
  intros Hc (Es & El) (Hp & Hi & Hsc & Hcs). split_and!; [done|done| |].
  - intros s Hs. destruct (Hsc s Hs) as (d & Hd & Hl & Hsid).
    destruct (decide (sub_conn_id s = id)) as [E|Hne].
    + rewrite E in *. simplify_eq. exists c'. rewrite lookup_insert_eq. split_and!; [done|by apply El|congruence].
    + exists d. by rewrite lookup_insert_ne.
  - intros i d sid [[<- <-]|[_ Hd]]%lookup_insert_Some Hl Hsid; [|by eapply Hcs].
    eapply Hcs; [exact Hc|by apply El|congruence].
Qed.

Lemma senders_update r r' cs log id c c' :
  next_conn_id r' = next_conn_id r -> cs !! id = Some c ->
  (N.of_nat (sent_by id log) + (if busy c then 1 else 0) <= cn_events_attempted c ->
   N.of_nat (sent_by id log) + (if busy c' then 1 else 0) <= cn_events_attempted c')%N ->
  senders_ok r cs log -> senders_ok r' (<[id := c']> cs) log.
Proof.
  intros E Hc Hb Hs i. destruct (decide (i = id)) as [->|Hne].
  - rewrite lookup_insert_eq. apply Hb. specialize (Hs id). by rewrite Hc in Hs.
  - rewrite lookup_insert_ne by done. rewrite E. apply Hs.
Qed.

(** A change of one connection and of caches only. *)
Lemma shape_update w id c c' r' :
  shape w -> w_conns w !! id = Some c -> conn_ok c' -> alike c c' ->
  (busy c' = true -> busy c = true) -> cn_events_attempted c' = cn_events_attempted c ->
  conn_count r' = conn_count (w_relay w) -> next_conn_id r' = next_conn_id (w_relay w) ->
  subs r' = subs (w_relay w) -> caches_ok r' ->
  shape (set_conn id c' (set_relay r' w)).
Proof.
  intros [Hsl Hc Hr Hca Hse] Hid Hok Hal Hb Ha E1 E2 E3 Hca'.
  split; cbn [set_conn set_conns set_relay w_relay w_conns w_refusing w_log].
  - by eapply slots_update.
  - intros i d [[_ <-]|[_ Hd]]%lookup_insert_Some; [done|by eapply Hc].
  - rewrite E3. by eapply routing_update.
  - done.
  - eapply senders_update; [done|exact Hid| |done]. rewrite Ha. destruct (busy c'), (busy c); lia.
Qed.

Lemma shape_conn w id c c' :
  shape w -> w_conns w !! id = Some c -> conn_ok c' -> alike c c' ->
  (busy c' = true -> busy c = true) -> cn_events_attempted c' = cn_events_attempted c ->
  shape (set_conn id c' w).
Proof.
  intros Hw Hid Hok Hal Hb Ha. destruct w as [r cs now ref log].
  apply (shape_update (mkWorld r cs now ref log) id c c' r); try done. apply Hw.
Qed.

(** *** The caches *)

Lemma reserve_caches now id r r' res :
  caches_ok r -> reserve_id now id r = (r', res) ->
  caches_ok r' /\ conn_count r' = conn_count r /\ next_conn_id r' = next_conn_id r /\ subs r' = subs r.
Proof.
  intros (Hs & Hd & Hn). unfold reserve_id, caches_ok.
  set (vec := List.filter _ _).
  assert (length vec <= length (seen_ids r))%nat as Hlen by apply filter_length_le.
  destruct (existsb _ _); [intros [= <- _]; split_and!; cbn [set_seen seen_ids]; try done; lia|].
  destruct (Nat.leb_spec DEDUP_CAP (length vec)); intros [= <- _]; split_and!; cbn [set_seen seen_ids]; try done; [lia|].
  rewrite length_app. cbn [length]. lia.
Qed.

Lemma position_Some {A} (f : A -> bool) l n : position f l = Some n -> exists x, l !! n = Some x /\ f x = true.
Proof.
  revert n. induction l as [|y l IH]; intros n; [done|]. cbn. destruct (f y) eqn:E.
  - intros [= <-]. eauto.
  - destruct (position f l) as [m|] eqn:Em; [|done]. intros [= <-]. by apply IH.
Qed.
Lemma position_None {A} (f : A -> bool) l : position f l = None -> forall x, x ∈ l -> f x = false.
Proof.
  induction l as [|y l IH]; intros Hp x Hx; [by apply elem_of_nil in Hx|]. cbn in Hp.
  destruct (f y) eqn:E; [done|]. apply fmap_None in Hp. apply elem_of_cons in Hx as [->|Hx]; eauto.
Qed.

Lemma swap_remove_perm {A} n (l : list A) x : l !! n = Some x -> l ≡ₚ x :: swap_remove n l.
Proof.
  intros Hn. unfold swap_remove. destruct (last l) as [y|] eqn:El.
  2:{ apply last_None in El. by subst l. }
  apply last_Some in El as [l' ->]. rewrite removelast_last, length_app. cbn [length].
  destruct (Nat.eqb_spec (S n) (length l' + 1)) as [E|E].
  - rewrite lookup_app_r in Hn by lia. replace (n - length l')%nat with 0%nat in Hn by lia. cbn in Hn.
    simplify_eq. by rewrite Permutation_app_comm.
  - assert (n < length l')%nat as Hlt.
    { apply lookup_lt_Some in Hn. rewrite length_app in Hn. cbn in Hn. lia. }
    rewrite lookup_app_l in Hn by done.
    rewrite <- (take_drop_middle l' n x Hn) at 1. rewrite insert_take_drop by done.
    rewrite <- app_assoc. cbn. rewrite <- Permutation_middle. apply perm_skip, Permutation_app_head.
    by rewrite (Permutation_app_comm _ [y]).
Qed.

Lemma unreserve_caches id r :
  caches_ok r -> caches_ok (unreserve_id id r) /\ conn_count (unreserve_id id r) = conn_count r /\
  next_conn_id (unreserve_id id r) = next_conn_id r /\ subs (unreserve_id id r) = subs r.
Proof.
  intros (Hs & Hd & Hn). unfold unreserve_id, caches_ok. destruct (position _ _) as [n|] eqn:E; [|done].
  apply position_Some in E as (x & Hx & _). split_and!; cbn [set_seen seen_ids]; try done.
  apply swap_remove_perm, Permutation_length in Hx. cbn [length] in Hx. lia.
Qed.

(** *** Routing *)

Definition others (id : N) (ss : list Sub) : list Sub :=
  List.filter (fun s => negb (sub_conn_id s =? id)%N) ss.

Lemma elem_of_others id ss s : s ∈ others id ss <-> s ∈ ss /\ sub_conn_id s <> id.
Proof. unfold others. rewrite !list_elem_of_In, filter_In, negb_true_iff, N.eqb_neq. done. Qed.

Lemma NoDup_others {B} (f : Sub -> B) id ss : NoDup (f <$> ss) -> NoDup (f <$> others id ss).
Proof.
  induction ss as [|s ss IH]; [done|]. cbn. intros [Hni Hnd]%NoDup_cons. case_match; [|by apply IH]. cbn.
  apply NoDup_cons. split; [|by apply IH]. intros (y & E & Hin)%list_elem_of_fmap.
  apply Hni, list_elem_of_fmap. exists y. split; [done|]. by apply elem_of_others in Hin as [? _].
Qed.

(** Removing the subscription of a connection that is left without one. *)
Lemma routing_remove ss cs cs' id :
  routing_ok ss cs -> (forall i, i <> id -> cs' !! i = cs !! i) ->
  (forall c sid, cs' !! id = Some c -> live c -> cn_sub_id c <> Some sid) ->
  routing_ok (others id ss) cs'.
Proof.
  intros (Hp & Hi & Hsc & Hcs) Hoth Hid. split_and!; [by apply NoDup_others|by apply NoDup_others| |].
  - intros s [Hs Hne]%elem_of_others. rewrite Hoth by done. by apply Hsc.
  - intros i c sid Hc Hl Hsid. destruct (decide (i = id)) as [->|Hne]; [by eapply Hid in Hsid|].
    rewrite Hoth in Hc by done. destruct (Hcs i c sid Hc Hl Hsid) as [p Hpin]. exists p.
    by apply elem_of_others.
Qed.

Lemma routing_add ss cs id c c' sid p :
  routing_ok ss cs -> cs !! id = Some c -> cn_sub_id c = None -> cn_sub_id c' = Some sid -> live c' ->
  (forall s, s ∈ ss -> sub_p_value s <> p) -> routing_ok (ss ++ [mkSub id sid p]) (<[id := c']> cs).
Proof.
  intros (Hp & Hi & Hsc & Hcs) Hc Hnone Hsid Hl Hfresh.
  assert (forall s, s ∈ ss -> sub_conn_id s <> id) as Hid.
  { intros s Hs E. destruct (Hsc s Hs) as (d & Hd & _ & Hds). rewrite E in Hd. congruence. }
  split_and!.
  - rewrite fmap_app. apply NoDup_app. split_and!; [done| |apply NoDup_singleton].
    intros x Hx Hx'%list_elem_of_singleton. apply list_elem_of_fmap in Hx as (s & -> & Hs). by eapply Hfresh.
  - rewrite fmap_app. apply NoDup_app. split_and!; [done| |apply NoDup_singleton].
    intros x Hx Hx'%list_elem_of_singleton. apply list_elem_of_fmap in Hx as (s & -> & Hs). by eapply Hid.
  - intros s [Hs| ->%list_elem_of_singleton]%elem_of_app.
    + destruct (Hsc s Hs) as (d & Hd & ? & ?). exists d. rewrite lookup_insert_ne by (intros E; by eapply Hid). done.
    + exists c'. cbn. by rewrite lookup_insert_eq.
  - intros i d sd [[<- <-]|[Hne Hd]]%lookup_insert_Some Hld Hsd.
    + exists p. apply elem_of_app. right. apply list_elem_of_singleton. congruence.
    + destruct (Hcs i d sd Hd Hld Hsd) as [q Hq]. exists q. apply elem_of_app. by left.
Qed.

(** *** Leaving *)

Lemma shape_delete w id c r' :
  shape w -> w_conns w !! id = Some c ->
  conn_count r' = (conn_count (w_relay w) - 1)%N -> next_conn_id r' = next_conn_id (w_relay w) ->
  routing_ok (subs r') (delete id (w_conns w)) -> caches_ok r' ->
  shape (set_conns (delete id (w_conns w)) (set_relay r' w)).
Proof.
  intros [(Hn & Hm & Hid) Hc Hr Hca Hse] Hcid E1 E2 Hr' Hca'.
  assert (S (size (delete id (w_conns w))) = size (w_conns w)) as Hsz.
  { rewrite <- (insert_delete_id (w_conns w) id c Hcid) at 2.
    by rewrite map_size_insert_None by apply lookup_delete_eq. }
  split; cbn [set_conns set_relay w_relay w_conns w_refusing w_log]; [| |done|done|].
  - split_and!; [lia|lia|]. intros i [x Hx]. rewrite E2. apply Hid. apply lookup_delete_Some in Hx as [_ Hx]. eauto.
  - intros i d [_ Hd]%lookup_delete_Some. by eapply Hc.
  - intros i. destruct (decide (i = id)) as [->|Hne].
    + rewrite lookup_delete_eq. specialize (Hse id). rewrite Hcid in Hse.
      pose proof (co_attempted c (Hc id c Hcid)). specialize (Hid id ltac:(eauto)).
      split; [destruct (busy c); lia|rewrite E2; lia].
    + rewrite lookup_delete_ne by done. rewrite E2. apply Hse.
Qed.

(** *** Delivery *)

Section delivery.
Context `{PairRelayLib}.

(** What a successful delivery did: the only subscriber of the key got the event
    under its own subscription id. *)
Definition delivered_to (p : string) (ev : Json) (r : Relay) (cs cs' : gmap N Conn) (s : Sub) : Prop :=
  List.filter (fun s => String.eqb (sub_p_value s) p) (subs r) = [s] /\
  exists d text ch, cs !! sub_conn_id s = Some d /\
    json_to_string (JArray [JString "EVENT"; JString (sub_sub_id s); ev]) = Ok text /\
    try_send (OutText text) (cn_channel d) = Some ch /\
    cs' = <[sub_conn_id s := set_channel ch d]> cs.

Lemma deliver_single_spec now p ev cs r cs' r' res :
  deliver_single now p ev cs r = (cs', r', res) ->
  (conn_count r' = conn_count r /\ next_conn_id r' = next_conn_id r /\ subs r' = subs r /\ seen_ids r' = seen_ids r) /\
  (caches_ok r -> caches_ok r') /\
  ((res <> Ok true /\ cs' = cs) \/ (res = Ok true /\ exists s, delivered_to p ev r cs cs' s)).
Proof.
  unfold deliver_single. destruct (List.filter _ (subs r)) as [|s [|s' ss]] eqn:Hf;
    [intros [= <- <- <-]; split_and!; try done; by left| |intros [= <- <- <-]; split_and!; try done; by left].
  set (map := filter _ (delivered r)).
  assert (caches_ok r -> caches_ok (set_delivered map r)) as Hmap.
  { intros (Hs & Hd & Hn). unfold caches_ok. split_and!; cbn [set_delivered seen_ids delivered]; [done| |].
    - etrans; [|exact Hd]. apply map_size_filter.
    - intros q n t [Hq _]%map_lookup_filter_Some. by eapply Hn. }
  set (count := default 0%N _).
  destruct (N.leb_spec MAX_DELIVERED_PER_P count) as [|Hcount];
    [intros [= <- <- <-]; split_and!; try done; by left|].
  destruct ((DELIVERED_MAP_CAP <=? size map)%nat && _) eqn:Hcap; [intros [= <- <- <-]; split_and!; try done; by left|].
  destruct (json_to_string _) as [text|] eqn:Htext; [|intros [= <- <- <-]; split_and!; try done; by left].
  destruct (cs !! sub_conn_id s) as [d|] eqn:Hd; [|intros [= <- <- <-]; split_and!; try done; by left].
  destruct (try_send _ _) as [ch|] eqn:Hch; intros [= <- <- <-]; [|split_and!; try done; by left].
  split_and!; try done.
  - intros Hr. destruct (Hmap Hr) as (Hs & Hsz & Hn). unfold caches_ok.
    split_and!; cbn [set_delivered seen_ids delivered] in *; [done| |].
    + destruct (map !! p) as [x|] eqn:Ex.
      * by rewrite map_size_insert_Some by (by rewrite Ex).
      * rewrite map_size_insert_None by done. rewrite (bool_decide_eq_false_2 (is_Some None)) in Hcap by (by intros []).
        rewrite andb_true_r in Hcap. apply Nat.leb_gt in Hcap. lia.
    + intros q n t [[<- [= <- <-]]|[_ Hq]]%lookup_insert_Some; [lia|by eapply Hn].
  - right. split; [done|]. exists s. split; [done|]. by exists d, text, ch.
Qed.
End delivery.

(** *** Every action *)

Lemma busy_phase c p : busy (set_phase p c) = match p with Verified _ | Reserved _ _ | Rejecting _ _ _ => true | _ => false end.
Proof. by destruct p. Qed.

Lemma alike_phase c p : live c -> p <> Closed -> alike c (set_phase p c).
Proof. intros Hl Hp. by split. Qed.
Lemma alike_channel c c' : same_but_channel c c' -> alike c c'.
Proof. intros (_ & _ & E1 & _ & E2). split; [done|]. unfold live. by rewrite E2. Qed.
Lemma busy_channel c c' : same_but_channel c c' -> busy c' = busy c.
Proof. intros (_ & _ & _ & _ & E2). unfold busy, busy_since. by rewrite E2. Qed.

Section actions.
Context `{PairRelayLib}.
Variables (epoch busy_max : Z).

Lemma reading_update w id c p msg r' :
  shape w -> w_conns w !! id = Some c -> cn_phase c <> Closed ->
  match p with Reading | Closing | Reserved _ _ | Rejecting _ _ _ => True | _ => False end ->
  (busy (set_phase p c) = true -> busy c = true) ->
  conn_count r' = conn_count (w_relay w) -> next_conn_id r' = next_conn_id (w_relay w) ->
  subs r' = subs (w_relay w) -> caches_ok r' ->
  shape (set_conn id (set_phase p (send_or_drop msg c)) (set_relay r' w)).
Proof.
  intros Hw Hc Hcl Hp Hb E1 E2 E3 Hca. pose proof (send_or_drop_same msg c) as Hsame.
  assert (same_but_channel (set_phase p c) (set_phase p (send_or_drop msg c))) as Hsame'
    by (destruct Hsame as (? & ? & ? & ? & ?); by split_and!).
  apply (shape_update w id c); [done|done| | | | |done|done|done|done].
  - apply conn_ok_phase; [by eapply send_or_drop_ok, sh_conns|by destruct p].
  - destruct (alike_channel _ _ Hsame') as [E El]. split; [done|]. rewrite <- El. unfold live. cbn. by destruct p.
  - by rewrite (busy_channel _ _ Hsame').
  - by destruct Hsame as (_ & _ & _ & E & _).
Qed.

Lemma shape_reserve w w' id : shape w -> act epoch busy_max w (AReserve id) = Some w' -> shape w'.
Proof.
  intros Hw. cbn [act]. destruct (w_conns w !! id) as [c|] eqn:Hc; [|done].
  destruct (cn_phase c) as [| |a| | | |] eqn:Hp; try done.
  destruct (reserve_id _ _ _) as [r' res] eqn:Hr. intros [= <-].
  destruct (reserve_caches _ _ _ _ _ (sh_caches w Hw) Hr) as (Hca & E1 & E2 & E3).
  destruct res as [[|]|]; try (eapply reading_update; try done; by rewrite Hp).
  eapply shape_update; try done.
  - apply conn_ok_phase; [by eapply sh_conns|done].
  - apply alike_phase; [unfold live; by rewrite Hp|done].
  - unfold busy, busy_since. by rewrite Hp.
Qed.

Lemma shape_unreserve w w' id : shape w -> act epoch busy_max w (AUnreserve id) = Some w' -> shape w'.
Proof.
  intros Hw. cbn [act]. destruct (w_conns w !! id) as [c|] eqn:Hc; [|done].
  destruct (cn_phase c) as [| | | |a ts reason| |] eqn:Hp; try done. intros [= <-].
  destruct (unreserve_caches (at_id_bytes a) (w_relay w) (sh_caches w Hw)) as (Hca & E1 & E2 & E3).
  eapply reading_update; try done. by rewrite Hp.
Qed.

Lemma shape_frame w w' id f : shape w -> act epoch busy_max w (AFrame id f) = Some w' -> shape w'.
Proof.
  intros Hw. cbn [act]. destruct (w_conns w !! id) as [c|] eqn:Hc; [|done].
  destruct (cn_phase c) eqn:Hp; try done.
  destruct (handle_frame _ _ _ _ _ _) as [c' r'] eqn:Hf. intros [= <-].
  destruct (handle_frame_effect _ _ _ _ _ _ _ _ Hp (sh_conns w Hw id c Hc) Hf)
    as (Hok & E1 & E2 & E3 & E4 & Hsub & Hph).
  assert (live c /\ live c') as [Hl Hl'].
  { unfold live. rewrite Hp. destruct Hph as [Hp' _|Hp' _|a t v Hp' _ _ _ _ _]; by rewrite Hp'. }
  destruct Hw as [Hsl Hcs Hr Hca Hse].
  split; cbn [set_conn set_conns set_relay w_relay w_conns w_refusing w_log].
  - by eapply slots_update.
  - intros i d [[_ <-]|[_ Hd]]%lookup_insert_Some; [done|by eapply Hcs].
  - destruct Hsub as [Es Ei|sid p Es Hfresh Hn Hs|Er Hn].
    + rewrite Es. by eapply routing_update.
    + rewrite Es. by eapply routing_add.
    + rewrite Er. cbn [remove_sub set_subs subs]. eapply routing_remove; [exact Hr| |].
      * intros i Hi. by rewrite lookup_insert_ne.
      * intros d sid. rewrite lookup_insert_eq. intros [= <-]. by rewrite Hn.
  - unfold caches_ok. rewrite E3, E4. apply Hca.
  - eapply senders_update; [done|exact Hc| |done]. unfold busy, busy_since. rewrite Hp.
    destruct Hph as [Hp' Ha|Hp' Ha|a t v Hp' _ _ Ha _ _]; rewrite Hp', Ha; cbn; lia.
Qed.

Lemma sent_by_app id log d :
  sent_by id (log ++ [d]) = (sent_by id log + if (dl_from d =? id)%N then 1 else 0)%nat.
Proof. unfold sent_by. rewrite List.filter_app, length_app. cbn. by destruct (dl_from d =? id)%N. Qed.

Lemma shape_deliver w w' id : shape w -> act epoch busy_max w (ADeliver id) = Some w' -> shape w'.
Proof.
  intros Hw. cbn [act]. destruct (w_conns w !! id) as [c|] eqn:Hc; [|done].
  destruct (cn_phase c) as [| | |a ts| | |] eqn:Hp; try done.
  destruct (deliver_single _ _ _ _ _) as [[cs r'] res] eqn:Hd.
  destruct (deliver_single_spec _ _ _ _ _ _ _ _ Hd) as ((E1 & E2 & E3 & _) & Hca & Hres).
  specialize (Hca (sh_caches w Hw)).
  destruct Hres as [[Hres ->]|[-> (s & Hf & d & text & ch & Hto & Htext & Hch & ->)]].
  - rewrite Hc. cbn [default].
    assert (forall reason, shape (set_relay r' (set_conns (<[id := set_phase (Rejecting a ts reason) c]> (w_conns w)) w))) as Hrej.
    { intros reason. apply (shape_update w id c _ r'); try done.
      - apply conn_ok_phase; [by eapply sh_conns|done].
      - apply alike_phase; [unfold live; by rewrite Hp|done].
      - intros _. unfold busy, busy_since. by rewrite Hp. }
    destruct res as [[|]|]; [done| |]; intros [= <-]; apply Hrej.
  - set (d' := set_channel ch d). set (w1 := set_conn (sub_conn_id s) d' (set_relay r' w)).
    assert (shape w1) as Hw1.
    { apply (shape_update w (sub_conn_id s) d d' r'); try done.
      - destruct (sh_conns w Hw _ _ Hto). split; cbn; [by eapply try_send_ok|done|done]. }
    set (c1 := default c (<[sub_conn_id s := d']> (w_conns w) !! id)).
    assert (w_conns w1 !! id = Some c1 /\ same_but_channel c c1) as [Hc1 Hs1].
    { subst c1 w1 d'. cbn. destruct (decide (id = sub_conn_id s)) as [E|Hne].
      - rewrite <- E in *. simplify_eq. by rewrite lookup_insert_eq.
      - rewrite lookup_insert_ne by done. by rewrite Hc. }
    intros [= <-]. rewrite Hf. cbn [app].
    destruct Hs1 as (_ & _ & Es & Ea & Eph). rewrite Hp in Eph.
    pose proof (send_or_drop_same (OutText (make_ok (at_event_id a) true "")) c1) as (_ & _ & Es2 & Ea2 & Ep2).
    fold (ok_msg (at_event_id a) true "" c1) in Es2, Ea2, Ep2.
    set (c2 := ok_msg (at_event_id a) true "" c1) in *.
    assert (shape (set_conn id (set_phase Reading c2) w1)) as [Hsl Hcs Hr _ Hse].
    { apply (shape_conn w1 id c1); try done.
      - apply conn_ok_phase; [|done]. by eapply send_or_drop_ok, sh_conns.
      - split; [done|]. unfold live. rewrite Eph. done. }
    split; cbn [w_relay w_conns w_refusing w_log] in *; [exact Hsl|exact Hcs|exact Hr|exact Hca|].
    intros i. specialize (Hse i). cbn [set_conn set_conns set_relay w_relay w_conns w_log w1] in Hse.
    rewrite sent_by_app. cbn [dl_from]. destruct (N.eqb_spec id i) as [<-|Hne].
    + rewrite lookup_insert_eq in *. pose proof (sh_senders w1 Hw1 id) as Hs. rewrite Hc1 in Hs.
      unfold busy at 1, busy_since in Hs. rewrite Eph in Hs. cbn [w_log w1 set_conn set_conns set_relay] in Hs.
      rewrite busy_phase. cbn [set_phase cn_events_attempted]. rewrite Ea2. cbn in Hs. lia.
    + rewrite Nat.add_0_r. exact Hse.
Qed.

Lemma shape_upgrade w w' : shape w -> act epoch busy_max w AUpgrade = Some w' -> shape w'.
Proof.
  intros [(Hn & Hm & Hid) Hcs Hr Hca Hse]. cbn [act].
  destruct (N.leb_spec MAX_CONNS (conn_count (w_relay w))) as [Hge|Hlt]; intros [= <-].
  { split; [|done|done|done|done]. split_and!; cbn; [lia|done|done]. }
  set (id := next_conn_id (w_relay w)).
  assert (w_conns w !! id = None) as Hnone.
  { apply eq_None_not_Some. intros Hs. specialize (Hid id Hs). lia. }
  split; cbn [w_relay w_conns w_refusing w_log subs conn_count next_conn_id seen_ids delivered].
  - unfold slots_ok. rewrite map_size_insert_None by done. split_and!; cbn [conn_count next_conn_id]; [lia|lia|].
    intros i [x Hx]. apply lookup_insert_Some in Hx as [[<- _]|[_ Hx]]; [lia|]. specialize (Hid i ltac:(eauto)). lia.
  - intros i d [[_ <-]|[_ Hd]]%lookup_insert_Some; [split; cbn; [lia|lia|done]|by eapply Hcs].
  - destruct Hr as (Hp & Hi & Hsc & Hcs'). split_and!; [done|done| |].
    + intros s Hs. destruct (Hsc s Hs) as (d & Hd & ?). exists d. rewrite lookup_insert_ne by congruence. done.
    + intros i d sid [[<- <-]|[_ Hd]]%lookup_insert_Some; [done|by eapply Hcs'].
  - done.
  - intros i. cbn [next_conn_id]. specialize (Hse i). destruct (decide (i = id)) as [->|Hne].
    + rewrite lookup_insert_eq. rewrite Hnone in Hse. destruct Hse as [_ Hz]. rewrite Hz by lia. cbn. lia.
    + rewrite lookup_insert_ne by done. destruct (w_conns w !! i); [done|]. destruct Hse as [? Hz].
      split; [done|]. intros. apply Hz. lia.
Qed.

Lemma shape_upgraded w w' id ok : shape w -> act epoch busy_max w (AUpgraded id ok) = Some w' -> shape w'.
Proof.
  intros Hw. cbn [act]. destruct (w_conns w !! id) as [c|] eqn:Hc; [|done].
  destruct (cn_phase c) eqn:Hp; try done.
  destruct (co_upgrading c (sh_conns w Hw id c Hc) Hp) as [Hnone Hzero].
  destruct ok; intros [= <-].
  - eapply shape_conn; [done|exact Hc| | | |].
    + split; cbn; [lia|lia|done].
    + split; [cbn; congruence|]. unfold live. rewrite Hp. done.
    + done.
    + cbn. congruence.
  - eapply shape_delete; [done|exact Hc|done|done| |apply Hw].
    destruct (sh_routing w Hw) as (Hp1 & Hi & Hsc & Hcs). split_and!; [done|done| |].
    + intros s Hs. destruct (Hsc s Hs) as (d & Hd & Hl & Hsid). exists d. split_and!; [|done|done].
      apply lookup_delete_Some. split; [|done]. intros E. rewrite <- E in Hd. congruence.
    + intros i d sid [_ Hd]%lookup_delete_Some. by eapply Hcs.
Qed.

Lemma shape_leave w w' id a :
  a ∈ [ARemoveSub id; ADropGuard id] -> shape w -> act epoch busy_max w a = Some w' -> shape w'.
Proof.
  intros Ha Hw. set_unfold in Ha. destruct Ha as [->|[->|[]]]; cbn [act].
  - destruct (w_conns w !! id) as [c|] eqn:Hc; [|done]. destruct (cn_phase c) eqn:Hp; try done. intros [= <-].
    pose proof (send_or_drop_same OutClose c) as (_ & _ & Es & Ea & Ep).
    pose proof (send_or_drop_ok OutClose c (sh_conns w Hw id c Hc)) as Hok.
    destruct Hw as [Hsl Hcs Hr Hca Hse].
    split; cbn [set_conn set_conns set_relay w_relay w_conns w_refusing w_log remove_sub set_subs subs].
    + by eapply slots_update.
    + intros i d [[_ <-]|[_ Hd]]%lookup_insert_Some; [by apply conn_ok_phase|by eapply Hcs].
    + eapply routing_remove; [exact Hr| |].
      * intros i Hi. by rewrite lookup_insert_ne.
      * intros d sid. rewrite lookup_insert_eq. intros [= <-] Hl. by destruct Hl.
    + exact Hca.
    + eapply senders_update; [done|exact Hc| |done]. rewrite busy_phase. cbn [set_phase cn_events_attempted].
      rewrite Ea. destruct (busy c); lia.
  - destruct (w_conns w !! id) as [c|] eqn:Hc; [|done]. destruct (cn_phase c) eqn:Hp; try done. intros [= <-].
    eapply shape_delete; [done|exact Hc|done|done| |apply Hw].
    cbn [set_count remove_sub set_subs subs]. eapply routing_remove; [apply Hw| |].
    + intros i Hi. by rewrite lookup_delete_ne.
    + intros d sid. by rewrite lookup_delete_eq.
Qed.

Lemma shape_writer w w' id a :
  a ∈ [AWrite id; AWriterDied id; ABreak id] -> shape w -> act epoch busy_max w a = Some w' -> shape w'.
Proof.
  intros Ha Hw. set_unfold in Ha.
  destruct Ha as [->|[->|[->|[]]]]; cbn [act]; (destruct (w_conns w !! id) as [c|] eqn:Hc; [|done]);
    pose proof (sh_conns w Hw id c Hc) as [Hq Hat Hu].
  - destruct (ch_queue (cn_channel c)) as [|m q] eqn:Eq; [done|]. destruct (ch_open (cn_channel c)); [|done].
    intros [= <-]. eapply shape_conn; [done|exact Hc| |by apply alike_channel|done|done].
    split; cbn in *; [lia|done|done].
  - intros [= <-]. eapply shape_conn; [done|exact Hc| |by apply alike_channel|done|done].
    split; cbn in *; [lia|done|done].
  - destruct (cn_phase c) eqn:Hp; try done. intros [= <-].
    eapply shape_conn; [done|exact Hc|by apply conn_ok_phase; [by eapply sh_conns|]| |done|done].
    apply alike_phase; [unfold live; by rewrite Hp|done].
Qed.

Lemma shape_act w w' a : shape w -> act epoch busy_max w a = Some w' -> shape w'.
Proof.
  intros Hw. destruct a as [| |id ok|id f|id|id|id|id|id|id|id|id|t].
  - by apply shape_upgrade.
  - cbn [act]. destruct (N.ltb_spec 0 (w_refusing w)); [|done]. intros [= <-].
    destruct Hw as [(Hn & Hm & Hid) ? ? ? ?]. split; [|done|done|done|done]. split_and!; cbn; [lia|done|done].
  - by apply shape_upgraded.
  - by apply shape_frame.
  - by apply shape_reserve.
  - by apply shape_deliver.
  - by apply shape_unreserve.
  - apply (shape_writer w w' id); [set_solver|done].
  - apply (shape_writer w w' id); [set_solver|done].
  - apply (shape_writer w w' id); [set_solver|done].
  - apply (shape_leave w w' id); [set_solver|done].
  - apply (shape_leave w w' id); [set_solver|done].
  - cbn [act]. destruct (may_wait _ _ _); [|done]. intros [= <-]. by destruct Hw.
Qed.

Lemma shape_run w w' acts : shape w -> run epoch busy_max w acts = Some w' -> shape w'.
Proof.
  revert w. induction acts as [|a acts IH]; intros w Hw; cbn; [by intros [= <-]|].
  destruct (act epoch busy_max w a) as [w1|] eqn:E; [|done]. apply IH. by eapply shape_act.
Qed.

Lemma shape_new now : shape (World_new now).
Proof.
  split; cbn.
  - split_and!; cbn; [done|done|]. intros id [x Hx]. by rewrite lookup_empty in Hx.
  - intros id c. by rewrite lookup_empty.
  - split_and!; cbn; [apply NoDup_nil_2|apply NoDup_nil_2|by intros s Hs%elem_of_nil|by intros id c sid; rewrite lookup_empty].
  - unfold caches_ok. cbn [Relay_new seen_ids delivered]. rewrite map_size_empty. split_and!; [cbn; lia|lia|].
    intros p n t. by rewrite lookup_empty.
  - intros id. rewrite lookup_empty. cbn. split; [lia|done].
Qed.

(** The relay stays within its bounds.  Whatever its clients send and however
    their connections interleave: at most 128 connections are open, no channel
    holds more than 4 messages, the dedup list at most 1024 and the budget table
    at most 4096 entries, no recipient's budget exceeds 12, no connection ever
    has more than 6 events delivered; and the routing table holds at most one
    subscription per recipient key and per connection, exactly those the open
    connections believe they have. *)
Theorem pair_relay_bounds now acts w :
  run epoch busy_max (World_new now) acts = Some w -> shape w /\
  forall id, (N.of_nat (sent_by id (w_log w)) <= MAX_EVENTS_PER_CONN)%N.
Proof.
  intros Hrun. pose proof (shape_run _ _ _ (shape_new now) Hrun) as Hw. split; [done|].
  intros id. pose proof (sh_senders w Hw id) as Hs. destruct (w_conns w !! id) as [c|] eqn:Hc; [|by destruct Hs].
  pose proof (co_attempted c (sh_conns w Hw id c Hc)). destruct (busy c); lia.
Qed.
End actions.

(** * The content check of the pairing relay against a base64 decoder. *)

(** Reference decoder of padded base64: four characters make three bytes, the
    last group may end in one or two padding characters.  The unused low bits of
    a padded group are not constrained. *)
Definition byte0 (v0 v1 : N) : N := v0 * 4 + v1 / 16.
Definition byte1 (v1 v2 : N) : N := (v1 mod 16) * 16 + v2 / 4.
Definition byte2 (v2 v3 : N) : N := (v2 mod 4) * 64 + v3.

Definition last_group (c0 c1 c2 c3 : ascii) : option (list N) :=
  match b64_val c0, b64_val c1, b64_val c2, b64_val c3 with
  | Some v0, Some v1, Some v2, Some v3 => Some [byte0 v0 v1; byte1 v1 v2; byte2 v2 v3]
  | Some v0, Some v1, Some v2, None => if Ascii.eqb c3 "=" then Some [byte0 v0 v1; byte1 v1 v2] else None
  | Some v0, Some v1, None, None => if Ascii.eqb c2 "=" && Ascii.eqb c3 "=" then Some [byte0 v0 v1] else None
  | _, _, _, _ => None
  end.

Fixpoint base64_decode (s : string) : option (list N) :=
  match s with
  | EmptyString => Some []
  | String c0 (String c1 (String c2 (String c3 EmptyString))) => last_group c0 c1 c2 c3
  | String c0 (String c1 (String c2 (String c3 rest))) =>
      match b64_val c0, b64_val c1, b64_val c2, b64_val c3, base64_decode rest with
      | Some v0, Some v1, Some v2, Some v3, Some bytes =>
          Some (byte0 v0 v1 :: byte1 v1 v2 :: byte2 v2 v3 :: bytes)
      | _, _, _, _, _ => None
      end
  | _ => None
  end.

(** A character that is neither in the alphabet nor padding. *)
Lemma scan_step len i pad c s :
  b64_scan len i pad (String c s) =
  match b64_val c with
  | Some _ => if (0 <? pad)%nat then Err "content is not valid base64" else b64_scan len (S i) pad s
  | None =>
      if Ascii.eqb c "=" then
        if (i <? len - 2)%nat || (2 <? S pad)%nat then Err "content is not valid base64"
        else b64_scan len (S i) (S pad) s
      else Err "content is not valid base64"
  end.
Proof.
  cbn [b64_scan]. destruct (b64_val c) as [v|] eqn:E; [by rewrite bool_decide_eq_true_2 by eauto|].
  rewrite bool_decide_eq_false_2 by (by intros []).
  assert ((N_of_ascii c =? 61)%N = Ascii.eqb c "=") as ->.
  { destruct (Ascii.eqb_spec c "=") as [->|Hne]; [done|]. apply N.eqb_neq. intros E'. apply Hne.
    rewrite <- (ascii_N_embedding c), E'. done. }
  destruct (Ascii.eqb c "="); [|done]. by destruct (i <? len - 2)%nat, (2 <? S pad)%nat.
Qed.

(** The scan and the decoder accept the same strings and agree on the length. *)
Lemma scan_decode n : forall s len i,
  String.length s = (4 * n)%nat -> len = (i + 4 * n)%nat -> (0 < n)%nat ->
  match base64_decode s with
  | Some bytes => exists pad, b64_scan len i 0 s = Ok pad /\ (length bytes + pad = 3 * n)%nat /\ (pad <= 2)%nat
  | None => b64_scan len i 0 s = Err "content is not valid base64"
  end.
Proof.
  induction n as [|n IH]; intros s len i Hs Hlen Hn; [lia|].
  destruct s as [|c0 [|c1 [|c2 [|c3 rest]]]]; cbn [String.length] in Hs; try lia.
  destruct rest as [|c4 rest'].
  - cbn [base64_decode String.length] in *. assert (n = 0)%nat as -> by lia. clear IH.
    assert ((i <? len - 2)%nat = true) as H0 by (apply Nat.ltb_lt; lia).
    assert ((S i <? len - 2)%nat = true) as H1 by (apply Nat.ltb_lt; lia).
    assert ((S (S i) <? len - 2)%nat = false) as H2 by (apply Nat.ltb_ge; lia).
    assert ((S (S (S i)) <? len - 2)%nat = false) as H3 by (apply Nat.ltb_ge; lia).
    unfold last_group. rewrite scan_step, H0.
    destruct (b64_val c0); [|by destruct (Ascii.eqb c0 "=")]. cbn [Nat.ltb Nat.leb].
    rewrite scan_step, H1. destruct (b64_val c1); [|by destruct (Ascii.eqb c1 "=")]. cbn [Nat.ltb Nat.leb].
    rewrite scan_step, H2. cbn [Nat.ltb Nat.leb orb]. destruct (b64_val c2).
    + rewrite scan_step, H3. cbn [Nat.ltb Nat.leb orb]. destruct (b64_val c3).
      * cbn. eexists; split; [done|]. lia.
      * destruct (Ascii.eqb c3 "="); [|done]. cbn. eexists; split; [done|]. lia.
    + destruct (Ascii.eqb c2 "="); [|by destruct (b64_val c3)]. cbn [andb].
      rewrite scan_step, H3. cbn [Nat.ltb Nat.leb orb]. destruct (b64_val c3); [done|].
      destruct (Ascii.eqb c3 "="); [|done]. cbn. eexists; split; [done|]. lia.
  - change (base64_decode (String c0 (String c1 (String c2 (String c3 (String c4 rest'))))))
      with (match b64_val c0, b64_val c1, b64_val c2, b64_val c3, base64_decode (String c4 rest') with
      | Some v0, Some v1, Some v2, Some v3, Some bytes =>
          Some (byte0 v0 v1 :: byte1 v1 v2 :: byte2 v2 v3 :: bytes)
      | _, _, _, _, _ => None
      end).
    remember (String c4 rest') as rest eqn:Er.
    assert (String.length rest = 4 * n /\ 0 < n)%nat as [Hr Hn0] by (subst rest; cbn [String.length] in *; lia).
    assert (forall k, (k <= 3)%nat -> (i + k <? len - 2)%nat = true) as Hk by (intros k ?; apply Nat.ltb_lt; lia).
    specialize (IH rest len (S (S (S (S i)))) Hr ltac:(lia) Hn0).
    rewrite scan_step. pose proof (Hk 0%nat ltac:(lia)) as Hk0. rewrite Nat.add_0_r in Hk0. rewrite Hk0.
    destruct (b64_val c0); [|by destruct (Ascii.eqb c0 "=")]. cbn [Nat.ltb Nat.leb].
    rewrite scan_step. replace (S i) with (i + 1)%nat by lia. rewrite Hk by lia.
    destruct (b64_val c1); [|by destruct (Ascii.eqb c1 "=")]. cbn [Nat.ltb Nat.leb].
    rewrite scan_step. replace (S (i + 1)) with (i + 2)%nat by lia. rewrite Hk by lia.
    destruct (b64_val c2); [|by destruct (Ascii.eqb c2 "=")]. cbn [Nat.ltb Nat.leb].
    rewrite scan_step. replace (S (i + 2)) with (i + 3)%nat by lia. rewrite Hk by lia.
    destruct (b64_val c3); [|by destruct (Ascii.eqb c3 "=")]. cbn [Nat.ltb Nat.leb].
    replace (S (i + 3)) with (S (S (S (S i)))) by lia.
    destruct (base64_decode rest) as [bytes|]; [|done].
    destruct IH as (pad & -> & Hl & Hp). exists pad. split; [done|]. cbn [length]. lia.
Qed.

Lemma b64_val_range c v : b64_val c = Some v -> (v < 64)%N.
Proof.
  unfold b64_val. repeat case_match; intros [= <-];
    repeat match goal with H : (_ && _)%N = true |- _ => apply andb_prop in H as [?%N.leb_le ?%N.leb_le] end; lia.
Qed.

(** The shifts of the code are the arithmetic of the decoder. *)
Lemma first_byte_arith v0 v1 : (v0 < 64)%N -> (v1 < 64)%N ->
  N.lor (N.shiftl v0 2 mod 256) (N.shiftr v1 4) = byte0 v0 v1.
Proof.
  intros H0 H1.
  assert (forallb (fun a => forallb (fun b =>
    (N.lor (N.shiftl (N.of_nat a) 2 mod 256) (N.shiftr (N.of_nat b) 4) =? byte0 (N.of_nat a) (N.of_nat b))%N)
    (seq 0 64)) (seq 0 64) = true) as Hall by (vm_compute; reflexivity).
  rewrite forallb_forall in Hall. specialize (Hall (N.to_nat v0) ltac:(apply in_seq; lia)).
  rewrite forallb_forall in Hall. specialize (Hall (N.to_nat v1) ltac:(apply in_seq; lia)).
  rewrite !N2Nat.id in Hall. by apply N.eqb_eq.
Qed.

Lemma decode_head c0 c1 s bytes :
  base64_decode (String c0 (String c1 s)) = Some bytes ->
  exists v0 v1, b64_val c0 = Some v0 /\ b64_val c1 = Some v1 /\ head bytes = Some (byte0 v0 v1).
Proof.
  destruct s as [|c2 [|c3 [|c4 s]]]; [done|done| |].
  - cbn. unfold last_group. repeat case_match; intros [= <-]; eauto.
  - intros E. change (match b64_val c0, b64_val c1, b64_val c2, b64_val c3, base64_decode (String c4 s) with
      | Some v0, Some v1, Some v2, Some v3, Some bytes =>
          Some (byte0 v0 v1 :: byte1 v1 v2 :: byte2 v2 v3 :: bytes)
      | _, _, _, _, _ => None
      end = Some bytes) in E. repeat case_match; simplify_eq. eauto.
Qed.

Lemma decode_length_mod s bytes : base64_decode s = Some bytes -> (String.length s mod 4 = 0)%nat.
Proof.
  assert (forall n s bytes, (String.length s <= n)%nat -> base64_decode s = Some bytes -> (String.length s mod 4 = 0)%nat) as Hn.
  { clear. induction n as [|n IH]; intros s bytes Hl E; [by destruct s; [|cbn in Hl; lia]|].
    destruct s as [|c0 [|c1 [|c2 [|c3 [|c4 s]]]]]; try done.
    remember (String c4 s) as rest. cbn [String.length] in *.
    assert (base64_decode (String c0 (String c1 (String c2 (String c3 rest)))) =
      match b64_val c0, b64_val c1, b64_val c2, b64_val c3, base64_decode rest with
      | Some v0, Some v1, Some v2, Some v3, Some bytes =>
          Some (byte0 v0 v1 :: byte1 v1 v2 :: byte2 v2 v3 :: bytes)
      | _, _, _, _, _ => None
      end) as E' by by subst rest.
    rewrite E' in E. clear E' Heqrest. repeat case_match; simplify_eq.
    replace (S (S (S (S (String.length rest))))) with (String.length rest + 1 * 4)%nat by lia.
    rewrite Nat.Div0.mod_add. eapply IH; [|done]. lia. }
  intros. by eapply Hn.
Qed.

(** The content check is exact.  Without decoding, the relay accepts exactly
    the strings that decode, as padded base64, to at least 99 bytes beginning
    with the NIP-44 version byte 2. *)
Theorem nip44_content_exact content :
  validate_nip44_content content = Ok tt <->
  exists bytes, base64_decode content = Some bytes /\ (99 <= length bytes)%nat /\ head bytes = Some 2%N.
Proof.
  unfold validate_nip44_content. case_bool_decide as Hne.
  { subst content. cbn. split; [done|]. intros (b & [= <-] & H & _). cbn in H. lia. }
  destruct (Nat.eqb_spec (String.length content mod 4) 0) as [Hmod|Hmod]; cbn [negb].
  2:{ split; [done|]. intros (b & Hb & _). by apply decode_length_mod in Hb. }
  apply Nat.Div0.mod_divides in Hmod as [n Hn].
  assert (0 < n)%nat as Hpos. { destruct content; [done|]. cbn in Hn. lia. }
  pose proof (scan_decode n content (String.length content) 0 Hn Hn Hpos) as Hsd.
  rewrite Hn in *. replace (4 * n / 4)%nat with n by (rewrite Nat.mul_comm, Nat.div_mul; lia).
  destruct (base64_decode content) as [bytes|] eqn:Ed.
  2:{ rewrite Hsd. split; [done|]. intros (b & ? & _). done. }
  destruct Hsd as (pad & -> & Hlen & Hpad).
  destruct content as [|c0 [|c1 s]]; [done|cbn in Hn; lia|].
  destruct (decode_head _ _ _ _ Ed) as (v0 & v1 & E0 & E1 & Hhead). rewrite E0, E1.
  rewrite first_byte_arith by (by eapply b64_val_range).
  destruct (Nat.ltb_spec (n * 3 - pad) 99) as [Hlt|Hge].
  { split; [done|]. intros (b & [= <-] & Hb & _). lia. }
  destruct (N.eqb_spec (byte0 v0 v1) 2) as [E|E]; cbn [negb].
  - split; [|done]. intros _. exists bytes. split_and!; [done|lia|congruence].
  - split; [done|]. intros (b & [= <-] & _ & Hh). congruence.
Qed.
