(* ===== verification/PairRelayDedup.v ===== *)
(** The pairing relay delivers no event twice: the dedup list, the freshness
    window and the reservations of concurrent connections together. *)

From S2P Require Import Prelude Nostr JsonValue PairRelay PairRelayTheorems.

(** An EVENT in progress: the attempt, and the time of its reservation once it
    has one. *)
Definition progress (c : Conn) : option (Attempt * option Z) :=
  match cn_phase c with
  | Verified a => Some (a, None)
  | Reserved a t | Rejecting a t _ => Some (a, Some t)
  | _ => None
  end.
Definition view (cs : gmap N Conn) (i : N) : option (Attempt * option Z) := cs !! i ≫= progress.

(** The texts of the EVENT frames of a history. *)
Definition event_of `{PairRelayLib} (a : Act) : option Json :=
  match a with
  | AFrame _ (FText t) => match json_from_str t with Some (JArray [_; ev]) => Some ev | _ => None end
  | _ => None
  end.

(** The commitment an event's id hashes, where it has all its fields. *)
Definition commitment_of `{PairRelayLib} (ev : Json) : option string :=
  match as_object ev with
  | Some obj =>
      match str_field "pubkey" "" obj, ok_or (obj_get "created_at" obj ≫= as_i64) "",
            ok_or (obj_get "kind" obj ≫= as_u64) "", obj_get "tags" obj, str_field "content" "" obj with
      | Ok pubkey, Ok created_at, Ok kind, Some tags, Ok content =>
          match json_to_string (commitment pubkey created_at kind tags content) with Ok t => Some t | Err _ => None end
      | _, _, _, _, _ => None
      end
  | None => None
  end.
Definition created_at_of (ev : Json) : option Z :=
  match as_object ev with Some obj => obj_get "created_at" obj ≫= as_i64 | None => None end.

Section ids.
Context `{PairRelayLaws}.

(** What validation says of the time and the id. *)
Lemma valid_event_time secs ev eid idb p :
  validate_event secs ev = Ok (eid, idb, p) ->
  exists c, created_at_of ev = Some c /\ (Z.abs (c - secs) <= FRESHNESS_SECS)%Z.
Proof.
  unfold validate_event, created_at_of. destruct (as_object ev) as [obj|]; [|done].
  case_match; [done|]. destruct (str_field "id" _ _); [|done]. case_match; [done|].
  destruct (ok_or (decode_hex32 _) _); [|done]. destruct (str_field "pubkey" _ _); [|done].
  do 2 (case_match; [done|]). destruct (obj_get "created_at" obj ≫= as_i64) as [c|]; [|done]. cbn [ok_or].
  destruct (Z.ltb_spec FRESHNESS_SECS (Z.abs (c - secs))); [done|]. intros _. eauto.
Qed.

Lemma valid_event_id secs ev eid idb p :
  validate_event secs ev = Ok (eid, idb, p) ->
  exists obj, as_object ev = Some obj /\ str_field "id" "missing id" obj = Ok eid /\ decode_hex32 eid = Some idb.
Proof.
  unfold validate_event. destruct (as_object ev) as [obj|]; [|done].
  case_match; [done|]. destruct (str_field "id" _ _) as [i|] eqn:Hi; [|done]. case_match; [done|].
  destruct (decode_hex32 i) as [b|] eqn:Hb; cbn [ok_or]; [|done].
  intros Hrest. exists obj.
  assert (eid = i /\ idb = b) as [-> ->]; [|done].
  revert Hrest. destruct (str_field "pubkey" _ _); [|done]. do 2 (case_match; [done|]).
  destruct (ok_or _ _); [|done]. case_match; [done|]. destruct (str_field "content" _ _); [|done].
  destruct (validate_nip44_content _); [|done]. destruct (str_field "sig" _ _); [|done]. case_match; [done|].
  destruct (obj_get "tags" obj ≫= as_array) as [[|t [|]]|]; try done.
  destruct (as_array t) as [[|n [|v [|]]]|]; try done. case_match; [done|].
  destruct (as_str v); [|done]. destruct (ok_or _ _); [|done]. by intros [= -> ->].
Qed.

Lemma str_field_text key m m' obj v : str_field key m obj = Ok v -> str_field key m' obj = Ok v.
Proof. unfold str_field, ok_or. by destruct (obj_get key obj ≫= as_str). Qed.

Lemma verified_commitment ev :
  verify_event_sig ev = Ok tt ->
  exists obj pk c k tags content t,
    as_object ev = Some obj /\ created_at_of ev = Some c /\
    json_to_string (commitment pk c k tags content) = Ok t /\ commitment_of ev = Some t /\
    forall eid, str_field "id" "missing id" obj = Ok eid -> decode_hex32 eid = Some (sha256_digest t).
Proof.
  unfold verify_event_sig, commitment_of, created_at_of. destruct (as_object ev) as [obj|]; [|done].
  destruct (str_field "pubkey" "missing pubkey" obj) as [pk|] eqn:Hpk; [|done].
  rewrite (str_field_text _ _ "" _ _ Hpk).
  destruct (obj_get "created_at" obj ≫= as_i64) as [c|]; [|done]. cbn [ok_or].
  destruct (obj_get "kind" obj ≫= as_u64) as [k|]; [|done]. cbn [ok_or].
  destruct (obj_get "tags" obj) as [tags|]; [|done]. cbn [ok_or].
  destruct (str_field "content" "missing content" obj) as [content|] eqn:Hct; [|done].
  rewrite (str_field_text _ _ "" _ _ Hct).
  destruct (str_field "id" "missing id" obj) as [eid|] eqn:Hid; [|done].
  destruct (str_field "sig" _ obj); [|done].
  destruct (json_to_string _) as [t|] eqn:Ht; [|done].
  destruct (decode_hex32 eid) as [idb|] eqn:Hdec; [|done]. cbn [ok_or].
  destruct (String.eqb_spec (sha256_digest t) idb) as [<-|]; cbn [negb]; [|done].
  intros _. exists obj, pk, c, k, tags, content, t. split_and!; try done. intros eid' E.
  assert (eid' = eid) as -> by congruence. done.
Qed.

(** Equal ids, without a collision of the two commitments, are of events
    created at the same second. *)
Lemma same_id_same_time secs secs' a b :
  valid_attempt secs a -> valid_attempt secs' b -> at_id_bytes a = at_id_bytes b ->
  (forall m m', commitment_of (at_event a) = Some m -> commitment_of (at_event b) = Some m' ->
     no_collision sha256_digest m m') ->
  created_at_of (at_event a) = created_at_of (at_event b).
Proof.
  intros [Hva Hsa] [Hvb Hsb] Hid Hnc.
  apply verified_commitment in Hsa as (oa & pk & c & k & tags & content & t & Hoa & Hca & Hja & Hta & Hida).
  apply verified_commitment in Hsb as (ob & pk' & c' & k' & tags' & content' & t' & Hob & Hcb & Hjb & Htb & Hidb).
  apply valid_event_id in Hva as (o & Ho & Hea & Hda). apply valid_event_id in Hvb as (o' & Ho' & Heb & Hdb).
  simplify_eq. apply Hida in Hea. apply Hidb in Heb.
  assert (t = t') as <-. { apply (Hnc t t' Hta Htb). congruence. }
  pose proof (json_text_inj _ _ _ Hja Hjb) as Heq. unfold commitment in Heq.
  assert (number_of_Z c = number_of_Z c') as Hz by congruence.
  apply number_of_Z_inj in Hz. congruence.
Qed.
End ids.

(** ** The protocol of reservations *)

Section protocol.
Context `{PairRelayLaws}.
Variables (epoch busy_max : Z) (events : list Json).
Hypothesis busy_bound : (busy_max <= 59000)%Z.
Hypothesis ids_sound : forall e e' m m', e ∈ events -> e' ∈ events ->
  commitment_of e = Some m -> commitment_of e' = Some m' -> no_collision sha256_digest m m'.

(** A verified attempt made at its time with an event of the history. *)
Record genuine (a : Attempt) : Prop := {
  gn_event : at_event a ∈ events;
  gn_time : (0 <= epoch + at_time a)%Z;
  gn_valid : valid_attempt (wall_secs epoch (at_time a)) a;
}.

(** Two attempts of one id are less than 241 seconds apart. *)
Lemma genuine_apart a b :
  genuine a -> genuine b -> at_id_bytes a = at_id_bytes b -> (Z.abs (at_time a - at_time b) < 241000)%Z.
Proof.
  intros [Ea Ta Va] [Eb Tb Vb] Hid.
  pose proof (same_id_same_time _ _ a b Va Vb Hid (fun m m' => ids_sound _ _ m m' Ea Eb)) as Hc.
  destruct Va as [Va _], Vb as [Vb _].
  destruct (valid_event_time _ _ _ _ _ Va) as (c & Hca & Ha).
  destruct (valid_event_time _ _ _ _ _ Vb) as (c' & Hcb & Hb).
  assert (c' = c) as -> by congruence. unfold wall_secs, FRESHNESS_SECS in *.
  destruct (Z.ltb_spec (epoch + at_time a) 0), (Z.ltb_spec (epoch + at_time b) 0); try lia.
  pose proof (Z.div_mod (epoch + at_time a) 1000). pose proof (Z.div_mod (epoch + at_time b) 1000).
  pose proof (Z.mod_pos_bound (epoch + at_time a) 1000). pose proof (Z.mod_pos_bound (epoch + at_time b) 1000). lia.
Qed.

Abbreviation id_of a := (at_id_bytes a).

(** The state of the protocol: attempts in progress, the dedup list, the log and
    the clock. *)
Record dedup_inv (v : N -> option (Attempt * option Z)) (seen : list (string * Z)) (log : list Delivery) (now : Z)
    : Prop := {
  dd_seen : NoDup seen.*1;
  dd_past : forall e, e ∈ seen -> (e.2 <= now)%Z;
  dd_progress : forall i a o, v i = Some (a, o) -> genuine a /\ (at_time a <= now <= at_time a + busy_max)%Z;
  dd_reserved : forall i a t, v i = Some (a, Some t) -> (at_time a <= t <= now)%Z /\ (id_of a, t) ∈ seen;
  dd_exclusive : forall i j a b t u, v i = Some (a, Some t) -> v j = Some (b, Some u) -> id_of a = id_of b -> i = j;
  dd_log : forall d, d ∈ log -> genuine (dl_attempt d) /\ exists t,
    (at_time (dl_attempt d) <= t <= at_time (dl_attempt d) + busy_max)%Z /\ (t <= now)%Z /\
    ((id_of (dl_attempt d), t) ∈ seen \/ (t + ENTRY_TTL <= now)%Z);
  dd_unlogged : forall i a t d, v i = Some (a, Some t) -> d ∈ log -> id_of a <> id_of (dl_attempt d);
  dd_once : NoDup ((fun d => id_of (dl_attempt d)) <$> log);
}.

(** Attempts end, are abandoned, or keep going. *)
Lemma dedup_fewer v v' seen log now :
  (forall i, v' i = v i \/ v' i = None) -> dedup_inv v seen log now -> dedup_inv v' seen log now.
Proof.
  intros Hv [H1 H2 H3 H4 H5 H6 H7 H8].
  assert (forall i x, v' i = Some x -> v i = Some x) as Hsub.
  { intros i x Hx. destruct (Hv i) as [E|E]; congruence. }
  split; try done; eauto.
Qed.

Definition upd (v : N -> option (Attempt * option Z)) (i : N) (x : option (Attempt * option Z)) (j : N) :=
  if (j =? i)%N then x else v j.
Lemma upd_Some v i x j y : upd v i x j = Some y <-> (j = i /\ x = Some y) \/ (j <> i /\ v j = Some y).
Proof. unfold upd. destruct (N.eqb_spec j i); naive_solver. Qed.

Lemma dedup_verify v seen log now i a :
  dedup_inv v seen log now -> genuine a -> at_time a = now -> (0 <= busy_max)%Z ->
  dedup_inv (upd v i (Some (a, None))) seen log now.
Proof.
  intros [H1 H2 H3 H4 H5 H6 H7 H8] Hg Ht Hb. split; try done.
  - intros j b o [[_ [= <- <-]]|[_ Hj]]%upd_Some; [split; [done|lia]|by eapply H3].
  - intros j b t [[_ [=]]|[_ Hj]]%upd_Some. by eapply H4.
  - intros j k b c t u [[_ [=]]|[_ Hj]]%upd_Some [[_ [=]]|[_ Hk]]%upd_Some. by eapply H5.
  - intros j b t d [[_ [=]]|[_ Hj]]%upd_Some. by eapply H7.
Qed.

Definition evicted (now : Z) (seen : list (string * Z)) : list (string * Z) :=
  List.filter (fun e => fresh_entry now e.2) seen.
Lemma elem_of_evicted now seen e : e ∈ evicted now seen <-> e ∈ seen /\ (now - e.2 < ENTRY_TTL)%Z.
Proof. unfold evicted, fresh_entry. rewrite !list_elem_of_In, filter_In, Z.ltb_lt. done. Qed.
Lemma NoDup_evicted now seen : NoDup seen.*1 -> NoDup (evicted now seen).*1.
Proof.
  induction seen as [|e l IH]; [done|]. cbn. intros [Hni Hnd]%NoDup_cons. case_match; [|by apply IH]. cbn.
  apply NoDup_cons. split; [|by apply IH]. intros (y & E & Hin)%list_elem_of_fmap.
  apply Hni, list_elem_of_fmap. exists y. split; [done|]. by apply elem_of_evicted in Hin as [? _].
Qed.

(** Eviction never takes the entry of an attempt in progress. *)
Lemma dedup_evict v seen log now :
  dedup_inv v seen log now -> dedup_inv v (evicted now seen) log now.
Proof.
  intros [H1 H2 H3 H4 H5 H6 H7 H8]. split; try done.
  - by apply NoDup_evicted.
  - intros e [He _]%elem_of_evicted. by apply H2.
  - intros i a t Hi. destruct (H4 i a t Hi) as [Ht Hin]. split; [done|]. apply elem_of_evicted. split; [done|].
    cbn. destruct (H3 i a (Some t) Hi) as [_ Hb]. unfold ENTRY_TTL. lia.
  - intros d Hd. destruct (H6 d Hd) as (Hg & t & Ht & Hn & Hin). split; [done|]. exists t. split_and!; [lia|lia|done|].
    destruct Hin as [Hin|Hold]; [|by right].
    destruct (Z.lt_ge_cases (now - t) ENTRY_TTL); [left; by apply elem_of_evicted|right; lia].
Qed.

(** A reservation of an id that is not in the list. *)
Lemma dedup_reserve v seen log now i a :
  dedup_inv v seen log now -> v i = Some (a, None) -> id_of a ∉ (evicted now seen).*1 ->
  dedup_inv (upd v i (Some (a, Some now))) (evicted now seen ++ [(id_of a, now)]) log now.
Proof.
  intros Hinv Hi Hni. pose proof (dedup_evict _ _ _ _ Hinv) as [H1 H2 H3 H4 H5 H6 H7 H8].
  destruct (H3 i a None Hi) as [Hga Hba].
  assert (forall j b t, v j = Some (b, Some t) -> id_of b <> id_of a) as Hother.
  { intros j b t Hj E. destruct (H4 j b t Hj) as [_ Hin]. apply Hni. rewrite <- E.
    apply list_elem_of_fmap. by exists (id_of b, t). }
  assert (forall d, d ∈ log -> id_of (dl_attempt d) <> id_of a) as Hlog.
  { intros d Hd E. destruct (H6 d Hd) as (Hg & t & Ht & Hn & Hin).
    pose proof (genuine_apart _ _ Hg Hga E) as Hap. destruct Hin as [Hin|Hold].
    - apply Hni. rewrite <- E. apply list_elem_of_fmap. by exists (id_of (dl_attempt d), t).
    - unfold ENTRY_TTL in Hold. lia. }
  split.
  - rewrite fmap_app. apply NoDup_app. split_and!; [done| |apply NoDup_singleton].
    intros x Hx ->%list_elem_of_singleton. done.
  - intros e [He| ->%list_elem_of_singleton]%elem_of_app; [by apply H2|]. cbn. lia.
  - intros j b o [[-> [= <- <-]]|[_ Hj]]%upd_Some; [by split|by eapply H3].
  - intros j b t [[-> [= <- <-]]|[_ Hj]]%upd_Some.
    + split; [lia|]. apply elem_of_app. right. by apply list_elem_of_singleton.
    + destruct (H4 j b t Hj) as [? ?]. split; [done|]. apply elem_of_app. by left.
  - intros j k b c t u [[-> [= <- <-]]|[_ Hj]]%upd_Some [[-> [= <- <-]]|[_ Hk]]%upd_Some E; try done.
    + by apply Hother in Hk.
    + by apply Hother in Hj.
    + by eapply H5.
  - intros d Hd. destruct (H6 d Hd) as (Hg & t & Ht & Hn & Hin). split; [done|]. exists t. split_and!; [lia|lia|done|].
    destruct Hin; [left; apply elem_of_app; by left|by right].
  - intros j b t d [[-> [= <- <-]]|[_ Hj]]%upd_Some Hd; [by apply not_eq_sym, Hlog|by eapply H7].
  - done.
Qed.

Lemma dedup_deliver v seen log now i a t to sid :
  dedup_inv v seen log now -> v i = Some (a, Some t) ->
  dedup_inv (upd v i None) seen (log ++ [mkDelivery i a to sid]) now.
Proof.
  intros [H1 H2 H3 H4 H5 H6 H7 H8] Hi. destruct (H3 _ _ _ Hi) as [Hg Hb]. destruct (H4 _ _ _ Hi) as [Ht Hin].
  split; try done.
  - intros j b o [[_ [=]]|[_ Hj]]%upd_Some. by eapply H3.
  - intros j b u [[_ [=]]|[_ Hj]]%upd_Some. by eapply H4.
  - intros j k b c u w [[_ [=]]|[_ Hj]]%upd_Some [[_ [=]]|[_ Hk]]%upd_Some. by eapply H5.
  - intros d [Hd| ->%list_elem_of_singleton]%elem_of_app; [by apply H6|]. cbn [dl_attempt]. split; [done|].
    exists t. split_and!; [lia|lia|lia|by left].
  - intros j b u d [[_ [=]]|[Hne Hj]]%upd_Some [Hd| ->%list_elem_of_singleton]%elem_of_app; [by eapply H7|].
    cbn [dl_attempt]. intros E. by apply Hne, (H5 j i b a u t).
  - rewrite fmap_app. apply NoDup_app. split_and!; [done| |apply NoDup_singleton].
    intros x Hx ->%list_elem_of_singleton. apply list_elem_of_fmap in Hx as (d & E & Hd). by eapply H7.
Qed.

Lemma dedup_unreserve v seen seen' log now i a t x :
  dedup_inv v seen log now -> v i = Some (a, Some t) -> x.1 = id_of a -> seen ≡ₚ x :: seen' ->
  dedup_inv (upd v i None) seen' log now.
Proof.
  intros [H1 H2 H3 H4 H5 H6 H7 H8] Hi Hx Hperm.
  assert (forall e, e ∈ seen -> e.1 <> id_of a -> e ∈ seen') as Hkeep.
  { intros e He Hne. rewrite Hperm in He. apply elem_of_cons in He as [->|He]; done. }
  split; try done.
  - rewrite Hperm in H1. cbn in H1. by apply NoDup_cons in H1 as [_ ?].
  - intros e He. apply H2. rewrite Hperm. by right.
  - intros j b o [[_ [=]]|[_ Hj]]%upd_Some. by eapply H3.
  - intros j b u [[_ [=]]|[Hne Hj]]%upd_Some. destruct (H4 j b u Hj) as [? Hin]. split; [done|].
    apply Hkeep; [done|]. cbn. intros E. by apply Hne, (H5 j i b a u t).
  - intros j k b c u w [[_ [=]]|[_ Hj]]%upd_Some [[_ [=]]|[_ Hk]]%upd_Some. by eapply H5.
  - intros d Hd. destruct (H6 d Hd) as (Hg & u & Hu & Hn & Hin). split; [done|]. exists u. split_and!; [lia|lia|done|].
    destruct Hin as [Hin|]; [|by right]. left. apply Hkeep; [done|]. cbn. by apply not_eq_sym, (H7 i a t d).
  - intros j b u d [[_ [=]]|[_ Hj]]%upd_Some. by eapply H7.
Qed.

Lemma dedup_wait v seen log now until :
  dedup_inv v seen log now -> (now <= until)%Z ->
  (forall i a o, v i = Some (a, o) -> (until <= at_time a + busy_max)%Z) -> dedup_inv v seen log until.
Proof.
  intros [H1 H2 H3 H4 H5 H6 H7 H8] Hle Hb. split; try done.
  - intros e He. specialize (H2 e He). lia.
  - intros i a o Hi. destruct (H3 i a o Hi). specialize (Hb i a o Hi). split; [done|lia].
  - intros i a t Hi. destruct (H4 i a t Hi). split; [lia|done].
  - intros d Hd. destruct (H6 d Hd) as (Hg & u & Hu & Hn & Hin). split; [done|]. exists u. split_and!; [lia|lia|lia|].
    destruct Hin; [by left|right; lia].
Qed.

(** ** The relay follows the protocol *)

Lemma view_insert cs id c i : view (<[id := c]> cs) i = upd (view cs) id (progress c) i.
Proof.
  unfold view, upd. destruct (N.eqb_spec i id) as [->|Hne]; [by rewrite lookup_insert_eq|by rewrite lookup_insert_ne].
Qed.
Lemma view_delete cs id i : view (delete id cs) i = upd (view cs) id None i.
Proof.
  unfold view, upd. destruct (N.eqb_spec i id) as [->|Hne]; [by rewrite lookup_delete_eq|by rewrite lookup_delete_ne].
Qed.
Lemma progress_channel c c' : same_but_channel c c' -> progress c' = progress c.
Proof. intros (_ & _ & _ & _ & E). unfold progress. by rewrite E. Qed.

Record relay_inv (w : World) : Prop := {
  ri_shape : shape w;
  ri_epoch : (0 <= epoch + w_now w)%Z;
  ri_dedup : dedup_inv (view (w_conns w)) (seen_ids (w_relay w)) (w_log w) (w_now w);
}.

(** The connection's attempt goes on or ends, the dedup list is the same. *)
Lemma dedup_conn cs seen log now id c c' :
  dedup_inv (view cs) seen log now -> cs !! id = Some c -> progress c' = progress c \/ progress c' = None ->
  dedup_inv (view (<[id := c']> cs)) seen log now.
Proof.
  intros Hd Hc Hp. eapply dedup_fewer; [|exact Hd]. intros i. rewrite view_insert. unfold upd.
  destruct (N.eqb_spec i id) as [->|]; [|by left]. unfold view. rewrite Hc. exact Hp.
Qed.

Lemma dedup_as cs cs' id c' seen log now :
  dedup_inv (upd (view cs) id (progress c')) seen log now -> cs' = <[id := c']> cs ->
  dedup_inv (view cs') seen log now.
Proof. intros Hd ->. eapply dedup_fewer; [|exact Hd]. intros i. left. apply view_insert. Qed.

Lemma dedup_frame w id f w' :
  (0 <= busy_max)%Z -> (forall e, event_of (AFrame id f) = Some e -> e ∈ events) ->
  relay_inv w -> act epoch busy_max w (AFrame id f) = Some w' ->
  dedup_inv (view (w_conns w')) (seen_ids (w_relay w')) (w_log w') (w_now w').
Proof.
  intros Hbm Hev [Hw Hep Hd]. cbn [act]. destruct (w_conns w !! id) as [c|] eqn:Hc; [|done].
  destruct (cn_phase c) eqn:Hp; try done.
  destruct (handle_frame _ _ _ _ _ _) as [c' r'] eqn:Hf. intros [= <-].
  destruct (handle_frame_effect _ _ _ _ _ _ _ _ Hp (sh_conns w Hw id c Hc) Hf)
    as (_ & _ & _ & E3 & _ & _ & Hph).
  cbn [set_conn set_conns set_relay w_relay w_conns w_now w_log]. rewrite E3.
  destruct Hph as [Hp' _|Hp' _|a text verb Hp' Ht Hva _ -> Htext].
  - eapply dedup_conn; [done|exact Hc|]. right. unfold progress. by rewrite Hp'.
  - eapply dedup_conn; [done|exact Hc|]. right. unfold progress. by rewrite Hp'.
  - eapply (dedup_as (w_conns w) _ id c'); [|done].
    assert (progress c' = Some (a, None)) as -> by (unfold progress; by rewrite Hp').
    apply dedup_verify; [done| |done|done]. rewrite <- Ht in Hep, Hva. split; [|done|done].
    apply Hev. cbn. by rewrite Htext.
Qed.

Lemma dedup_reserve_act w id w' :
  relay_inv w -> act epoch busy_max w (AReserve id) = Some w' ->
  dedup_inv (view (w_conns w')) (seen_ids (w_relay w')) (w_log w') (w_now w').
Proof.
  intros [Hw _ Hd]. cbn [act]. destruct (w_conns w !! id) as [c|] eqn:Hc; [|done].
  destruct (cn_phase c) as [| |a| | | |] eqn:Hp; try done.
  destruct (reserve_id _ _ _) as [r' res] eqn:Hr. intros [= <-]. unfold reserve_id in Hr.
  fold (evicted (w_now w) (seen_ids (w_relay w))) in Hr.
  pose proof (dedup_evict _ _ _ _ Hd) as Hev.
  cbn [set_conn set_conns set_relay w_relay w_conns w_now w_log].
  destruct (existsb _ _) eqn:He.
  { simplify_eq. cbn [set_seen seen_ids]. eapply dedup_conn; [done|exact Hc|by right]. }
  destruct (DEDUP_CAP <=? _)%nat; simplify_eq; cbn [set_seen seen_ids].
  { eapply dedup_conn; [done|exact Hc|by right]. }
  eapply (dedup_as (w_conns w) _ id); [|done]. cbn [progress set_phase cn_phase].
  apply dedup_reserve; [done|unfold view; rewrite Hc; cbn; unfold progress; by rewrite Hp|].
  intros (e & E & Hin)%list_elem_of_fmap. pose proof (existsb_false_1 _ _ He e Hin) as Hne. cbn in Hne.
  by rewrite E, String.eqb_refl in Hne.
Qed.

Lemma dedup_deliver_act w id w' :
  relay_inv w -> act epoch busy_max w (ADeliver id) = Some w' ->
  dedup_inv (view (w_conns w')) (seen_ids (w_relay w')) (w_log w') (w_now w').
Proof.
  intros [Hw _ Hd]. cbn [act]. destruct (w_conns w !! id) as [c|] eqn:Hc; [|done].
  destruct (cn_phase c) as [| | |a ts| | |] eqn:Hp; try done.
  assert (progress c = Some (a, Some ts)) as Hpr by (unfold progress; by rewrite Hp).
  destruct (deliver_single _ _ _ _ _) as [[cs r'] res] eqn:Hds.
  destruct (deliver_single_spec _ _ _ _ _ _ _ _ Hds) as ((_ & _ & _ & Eseen) & _ & Hres).
  destruct Hres as [[Hres ->]|[-> (s & Hf & d & text & ch & Hto & _ & _ & ->)]].
  - rewrite Hc. cbn [default].
    destruct res as [[|]|]; [done| |]; intros [= <-];
      cbn [set_conn set_conns set_relay w_relay w_conns w_now w_log]; rewrite Eseen;
      (eapply dedup_conn; [done|exact Hc|left; by rewrite Hpr]).
  - intros [= <-]. rewrite Hf. cbn [w_relay w_conns w_now w_log]. rewrite Eseen.
    set (cs1 := <[sub_conn_id s := set_channel ch d]> (w_conns w)).
    assert (dedup_inv (view cs1) (seen_ids (w_relay w)) (w_log w) (w_now w)) as Hd1
      by (eapply dedup_conn; [done|exact Hto|by left]).
    assert (view cs1 id = Some (a, Some ts)) as Hv1.
    { subst cs1. rewrite view_insert. unfold upd. destruct (N.eqb_spec id (sub_conn_id s)) as [E|].
      - rewrite <- E in Hto. simplify_eq. exact Hpr.
      - unfold view. rewrite Hc. exact Hpr. }
    eapply (dedup_as cs1 _ id); [|done].
    cbn [progress set_phase cn_phase]. by eapply dedup_deliver.
Qed.

Lemma dedup_unreserve_act w id w' :
  relay_inv w -> act epoch busy_max w (AUnreserve id) = Some w' ->
  dedup_inv (view (w_conns w')) (seen_ids (w_relay w')) (w_log w') (w_now w').
Proof.
  intros [Hw _ Hd]. cbn [act]. destruct (w_conns w !! id) as [c|] eqn:Hc; [|done].
  destruct (cn_phase c) as [| | | |a ts reason| |] eqn:Hp; try done. intros [= <-].
  cbn [set_conn set_conns set_relay w_relay w_conns w_now w_log].
  assert (view (w_conns w) id = Some (a, Some ts)) as Hv by (unfold view; rewrite Hc; cbn; unfold progress; by rewrite Hp).
  eapply (dedup_as (w_conns w) _ id); [|done]. cbn [progress set_phase cn_phase].
  unfold unreserve_id. destruct (position _ _) as [n|] eqn:Hn.
  - apply position_Some in Hn as (x & Hx & Hb). apply String.eqb_eq in Hb. cbn [set_seen seen_ids].
    eapply dedup_unreserve; [exact Hd|exact Hv|exact Hb|by apply swap_remove_perm].
  - destruct (dd_reserved _ _ _ _ Hd _ _ _ Hv) as [_ Hin].
    pose proof (position_None _ _ Hn _ Hin) as Hne. cbn in Hne. by rewrite String.eqb_refl in Hne.
Qed.

(** Any other change of one connection ends its attempt or keeps it. *)
Lemma dedup_quiet (w : World) cs' seen :
  dedup_inv (view (w_conns w)) seen (w_log w) (w_now w) ->
  (forall i, view cs' i = view (w_conns w) i \/ view cs' i = None) ->
  dedup_inv (view cs') seen (w_log w) (w_now w).
Proof. intros Hd Hv. by eapply dedup_fewer. Qed.

Lemma view_none cs id c i : progress c = None ->
  view (<[id := c]> cs) i = view cs i \/ view (<[id := c]> cs) i = None.
Proof. intros Hp. rewrite view_insert. unfold upd. case_match; [by right|by left]. Qed.
Lemma view_same cs id c c' i : cs !! id = Some c -> progress c' = progress c ->
  view (<[id := c']> cs) i = view cs i \/ view (<[id := c']> cs) i = None.
Proof.
  intros Hc Hp. left. rewrite view_insert. unfold upd. destruct (N.eqb_spec i id) as [->|]; [|done].
  unfold view. by rewrite Hc.
Qed.
Lemma view_deleted cs id i : view (delete id cs) i = view cs i \/ view (delete id cs) i = None.
Proof. rewrite view_delete. unfold upd. case_match; [by right|by left]. Qed.

Lemma dedup_wait_act w t w' :
  relay_inv w -> act epoch busy_max w (AWait t) = Some w' ->
  (w_now w <= w_now w')%Z /\ dedup_inv (view (w_conns w')) (seen_ids (w_relay w')) (w_log w') (w_now w').
Proof.
  intros [Hw _ Hd]. cbn [act]. destruct (may_wait busy_max t w) eqn:Hm; [|done]. intros [= <-].
  cbn [w_relay w_conns w_now w_log]. apply andb_prop in Hm as [Hle%Z.leb_le Hall]. split; [done|].
  eapply dedup_wait; [exact Hd|done|]. intros i a o Hi. rewrite forallb_forall in Hall.
  unfold view in Hi. destruct (w_conns w !! i) as [c|] eqn:Hc; [|done]. cbn in Hi.
  specialize (Hall (i, c) ltac:(by apply list_elem_of_In, elem_of_map_to_list)). cbn in Hall.
  unfold busy_since in Hall. unfold progress in Hi. destruct (cn_phase c); simplify_eq; by apply Z.leb_le.
Qed.

Lemma relay_inv_act w a w' :
  (0 <= busy_max)%Z -> (forall e, event_of a = Some e -> e ∈ events) ->
  relay_inv w -> act epoch busy_max w a = Some w' -> relay_inv w'.
Proof.
  intros Hbm Hev Hinv Hact. pose proof (shape_act epoch busy_max w w' a (ri_shape w Hinv) Hact) as Hs'.
  pose proof Hinv as [Hs Hep Hd].
  destruct a as [| |id ok|id f|id|id|id|id|id|id|id|id|t].
  4: { split; [done| |by eapply dedup_frame]. cbn [act] in Hact. repeat case_match; simplify_eq. done. }
  4: { split; [done| |by eapply dedup_reserve_act]. cbn [act] in Hact. repeat case_match; simplify_eq; done. }
  4: { split; [done| |by eapply dedup_deliver_act]. cbn [act] in Hact.
       destruct (w_conns w !! id); [|done]. case_match; try done. destruct (deliver_single _ _ _ _ _) as [[cs r'] res].
       destruct res as [[|]|]; simplify_eq; done. }
  4: { split; [done| |by eapply dedup_unreserve_act]. cbn [act] in Hact. repeat case_match; simplify_eq; done. }
  9: { destruct (dedup_wait_act w t w' Hinv Hact) as [Hle Hdd]. split; [done|lia|done]. }
  all: cbn [act] in Hact.
  - destruct (MAX_CONNS <=? _)%N; simplify_eq; (split; [done|done|]); cbn [w_relay w_conns w_now w_log set_count seen_ids];
      [done|]. apply (dedup_quiet w); [done|]. intros i. by apply view_none.
  - destruct (0 <? _)%N; simplify_eq. by split.
  - destruct (w_conns w !! id) as [c|] eqn:Hc; [|done]. destruct (cn_phase c) eqn:Hp; try done.
    destruct ok; simplify_eq; (split; [done|done|]);
      cbn [set_conn set_conns set_relay w_relay w_conns w_now w_log set_count seen_ids];
      (apply (dedup_quiet w); [done|]); intros i; [by apply view_none|apply view_deleted].
  - destruct (w_conns w !! id) as [c|] eqn:Hc; [|done]. destruct (ch_queue _); [done|]. destruct (ch_open _); [|done].
    simplify_eq. split; [done|done|]. apply (dedup_quiet w); [done|]. intros i. by eapply view_same.
  - destruct (w_conns w !! id) as [c|] eqn:Hc; [|done].
    simplify_eq. split; [done|done|]. apply (dedup_quiet w); [done|]. intros i. by eapply view_same.
  - destruct (w_conns w !! id) as [c|] eqn:Hc; [|done]. destruct (cn_phase c) eqn:Hp; try done.
    simplify_eq. split; [done|done|]. apply (dedup_quiet w); [done|]. intros i. by apply view_none.
  - destruct (w_conns w !! id) as [c|] eqn:Hc; [|done]. destruct (cn_phase c) eqn:Hp; try done.
    simplify_eq. split; [done|done|]. apply (dedup_quiet w); [done|]. intros i. by apply view_none.
  - destruct (w_conns w !! id) as [c|] eqn:Hc; [|done]. destruct (cn_phase c) eqn:Hp; try done.
    simplify_eq. split; [done|done|]. apply (dedup_quiet w); [done|]. intros i. apply view_deleted.
Qed.

Lemma relay_inv_run acts w w' :
  (0 <= busy_max)%Z -> (forall a e, a ∈ acts -> event_of a = Some e -> e ∈ events) ->
  relay_inv w -> run epoch busy_max w acts = Some w' -> relay_inv w'.
Proof.
  intros Hbm. revert w. induction acts as [|a acts IH]; intros w Hev Hinv; cbn [run]; [by intros [= <-]|].
  destruct (act epoch busy_max w a) as [w1|] eqn:E; [|done]. apply IH.
  - intros b e Hb. apply Hev. by right.
  - eapply relay_inv_act; [done| |done|done]. intros e. apply Hev. by left.
Qed.

Lemma relay_inv_new now : (0 <= epoch + now)%Z -> relay_inv (World_new now).
Proof.
  intros Hn. split; [apply shape_new|done|].
  split; cbn; try (intros *; unfold view; rewrite lookup_empty; done); try by intros e He%elem_of_nil.
  - apply NoDup_nil_2.
  - apply NoDup_nil_2.
Qed.
End protocol.

(** C6: No event is delivered twice.  As long as the clock does not run 59
    seconds past an EVENT being handled, and no two of the submitted events'
    commitments collide under the hash: over any history, with connections
    interleaving between their locked steps and entries expiring after 300
    seconds, every delivered event was valid, fresh and correctly signed when it
    was accepted, and no event id is ever delivered a second time. *)
Theorem delivered_once `{PairRelayLaws} epoch busy_max now acts w :
  (0 <= epoch + now)%Z -> (0 <= busy_max <= 59000)%Z ->
  (forall e e' m m', e ∈ omap event_of acts -> e' ∈ omap event_of acts ->
     commitment_of e = Some m -> commitment_of e' = Some m' -> no_collision sha256_digest m m') ->
  run epoch busy_max (World_new now) acts = Some w ->
  NoDup ((fun d => at_id_bytes (dl_attempt d)) <$> w_log w) /\
  forall d, d ∈ w_log w -> valid_attempt (wall_secs epoch (at_time (dl_attempt d))) (dl_attempt d).
Proof.
  intros Hn [Hb0 Hb] Hnc Hrun.
  assert (relay_inv epoch busy_max (omap event_of acts) w) as [_ _ Hd].
  { eapply relay_inv_run; [exact Hb|exact Hnc|exact Hb0| |by apply relay_inv_new|exact Hrun].
    intros a e Ha He. apply list_elem_of_omap. by exists a. }
  split; [apply Hd|]. intros d Hin. by destruct (dd_log _ _ _ _ _ _ _ Hd d Hin) as [[_ _ Hv] _].
Qed.

(** What a delivery is.  In every reachable state, a delivery step that
    succeeds puts the event, under the recipient's own subscription id, at the
    end of the channel of the one connection subscribed to the event's key, which
    is open and believes it has that subscription; it is recorded once; and a
    step that does not succeed queues nothing for anyone else and records
    nothing.  No key ever has two subscribers. *)
Theorem delivery_routed `{PairRelayLib} epoch busy_max now acts w id w' :
  run epoch busy_max (World_new now) acts = Some w ->
  act epoch busy_max w (ADeliver id) = Some w' ->
  exists c a t, w_conns w !! id = Some c /\ cn_phase c = Reserved a t /\
    ((exists s d text, w_log w' = w_log w ++ [mkDelivery id a (sub_conn_id s) (sub_sub_id s)] /\
        (forall s', s' ∈ subs (w_relay w) -> sub_p_value s' = at_p_value a <-> s' = s) /\
        s ∈ subs (w_relay w) /\
        w_conns w !! sub_conn_id s = Some d /\ cn_phase d <> Closed /\ cn_sub_id d = Some (sub_sub_id s) /\
        json_to_string (JArray [JString "EVENT"; JString (sub_sub_id s); at_event a]) = Ok text /\
        (sub_conn_id s <> id -> exists d', w_conns w' !! sub_conn_id s = Some d' /\
           ch_queue (cn_channel d') = ch_queue (cn_channel d) ++ [OutText text])) \/
     (w_log w' = w_log w /\ forall i, i <> id -> w_conns w' !! i = w_conns w !! i)).
Proof.
  intros Hrun. pose proof (shape_run _ _ _ _ _ (shape_new now) Hrun) as Hw.
  cbn [act]. destruct (w_conns w !! id) as [c|] eqn:Hc; [|done].
  destruct (cn_phase c) as [| | |a ts| | |] eqn:Hp; try done.
  destruct (deliver_single _ _ _ _ _) as [[cs r'] res] eqn:Hds.
  destruct (deliver_single_spec _ _ _ _ _ _ _ _ Hds) as (_ & _ & Hres).
  intros Hact. exists c, a, ts. split_and!; [done|done|].
  destruct Hres as [[Hres ->]|[-> (s & Hf & d & text & ch & Hto & Htext & Hch & ->)]].
  - right. rewrite Hc in Hact. cbn [default] in Hact.
    destruct res as [[|]|]; simplify_eq; cbn; (split; [done|]); intros i Hi; by rewrite lookup_insert_ne.
  - left. rewrite Hf in Hact. simplify_eq. exists s, d, text. cbn [w_log w_conns].
    assert (s ∈ subs (w_relay w) /\ sub_p_value s = at_p_value a) as [Hin Hsp].
    { assert (In s (List.filter (fun s => String.eqb (sub_p_value s) (at_p_value a)) (subs (w_relay w)))) as Hi
        by (rewrite Hf; by left).
      apply filter_In in Hi as [Hi E%String.eqb_eq]. split; [by apply list_elem_of_In|done]. }
    destruct (sh_routing w Hw) as (Hndp & _ & Hsc & _). destruct (Hsc s Hin) as (d0 & Hd0 & Hl & Hsid).
    assert (d0 = d) as -> by congruence.
    split_and!; try done.
    + intros s' Hs'. split; [|by intros ->]. intros E.
      assert (In s' (List.filter (fun s => String.eqb (sub_p_value s) (at_p_value a)) (subs (w_relay w)))) as Hi
        by (apply filter_In; split; [by apply list_elem_of_In|by apply String.eqb_eq]).
      rewrite Hf in Hi. by destruct Hi as [->|[]].
    + intros Hne. rewrite lookup_insert_ne by done. exists (set_channel ch d). rewrite lookup_insert_eq. split; [done|].
      cbn. unfold try_send in Hch. case_match; [|done]. by simplify_eq.
Qed.

(** * Concrete instances of the pairing relay: an injective text for JSON, and a
    history in which one event is delivered and its replay refused. *)

From stdpp Require Import countable.
From S2P Require Import AuditLog.

Module SamplePairRelay.

(** JSON as trees, trees as numbers, numbers as text. *)
Fixpoint to_tree (v : Json) : gen_tree string :=
  match v with
  | JNull => GenNode 0 []
  | JBool b => GenNode (if b then 1 else 2)%nat []
  | JNumber t => GenNode 3 [GenLeaf t]
  | JString s => GenNode 4 [GenLeaf s]
  | JArray l => GenNode 5 (to_tree <$> l)
  | JObject l => GenNode 6 ((fun kv => GenNode 7 [GenLeaf kv.1; to_tree kv.2]) <$> l)
  end.
Fixpoint of_tree (t : gen_tree string) : Json :=
  match t with
  | GenNode 1 [] => JBool true
  | GenNode 2 [] => JBool false
  | GenNode 3 [GenLeaf t] => JNumber t
  | GenNode 4 [GenLeaf s] => JString s
  | GenNode 5 l => JArray (of_tree <$> l)
  | GenNode 6 l =>
      JObject ((fun t => match t with GenNode 7 [GenLeaf k; v] => (k, of_tree v) | _ => (""%string, JNull) end) <$> l)
  | _ => JNull
  end.
Lemma of_to_tree v : of_tree (to_tree v) = v.
Proof.
  revert v. fix IH 1. intros [|[]|t|t|l|l]; try reflexivity; cbn [to_tree of_tree]; f_equal.
  - induction l as [|v l IHl]; [reflexivity|]. cbn. by rewrite IH, IHl.
  - induction l as [|[k v] l IHl]; [reflexivity|]. cbn. by rewrite IH, IHl.
Qed.

Fixpoint pos_text (p : positive) : string :=
  match p with
  | xH => ""
  | xO p => String "0" (pos_text p)
  | xI p => String "1" (pos_text p)
  end.
Fixpoint text_pos (s : string) : positive :=
  match s with
  | EmptyString => xH
  | String c s => if Ascii.eqb c "1" then xI (text_pos s) else xO (text_pos s)
  end.
Lemma letters_round_trip p : text_pos (pos_text p) = p.
Proof. induction p; cbn; congruence. Qed.

Definition print (v : Json) : string := pos_text (encode (to_tree v)).
Definition parse (t : string) : option Json := of_tree <$> decode (text_pos t).
Lemma parse_print v : parse (print v) = Some v.
Proof. unfold parse, print. rewrite letters_round_trip, decode_encode. cbn. by rewrite of_to_tree. Qed.

Fixpoint poly (acc : N) (s : string) : N :=
  match s with
  | EmptyString => acc
  | String c s' => poly (N.land (acc * 257 + N_of_ascii c + 1) (N.ones 256)) s'
  end.

#[export] Instance lib : PairRelayLib := {|
  prl_sha := {| sha256_digest m := be_bytes 32 (poly 7 m) |};
  json_from_str := parse;
  json_to_string v := Ok (print v);
  json_display := print;
  xonly_ok _ := true;
  verify_schnorr sig hash key := String.eqb sig (hash +:+ key);
|}.
#[export] Instance laws : PairRelayLaws.
Proof. split. intros v v' t [= <-] [= E]. apply (f_equal parse) in E. rewrite !parse_print in E. congruence. Qed.

Definition hex (s : string) : string := SampleHex.encode s.
Definition text_of (c : ascii) (n : nat) : string := String.concat "" (repeat (String c "") n).
Definition alice_key : string := text_of "A" 32.
Definition bob_key : string := text_of "B" 32.
Definition content : string := "Ag" +:+ text_of "x" 130.

(** An event of Alice for Bob, created at second 100. *)
Definition tags : Json := JArray [JArray [JString "p"; JString (hex bob_key)]].
Definition id_bytes : string := sha256_digest (print (commitment (hex alice_key) 100 KIND_PAIR tags content)).
Definition event : Json :=
  JObject [("id", JString (hex id_bytes)); ("pubkey", JString (hex alice_key)); ("created_at", JNumber "100");
           ("kind", JNumber "24134"); ("tags", tags); ("content", JString content);
           ("sig", JString (hex (id_bytes +:+ alice_key)))].
Definition req : Json :=
  JArray [JString "REQ"; JString "s"; JObject [("kinds", JArray [JNumber "24134"]); ("#p", JArray [JString (hex bob_key)])]].
Definition send_event : Json := JArray [JString "EVENT"; event].

Definition connect (id : N) : list Act := [AUpgrade; AUpgraded id true].
Definition text (id : N) (v : Json) : Act := AFrame id (FText (print v)).
(** Bob subscribes, Alice sends; a third connection replays the event later. *)
Definition before_delivery : list Act :=
  connect 0 ++ [text 0 req] ++ connect 1 ++ [text 1 send_event; AReserve 1].
Definition history : list Act :=
  before_delivery ++ [ADeliver 1; AWait 200000; AUpgrade; AUpgraded 2 true; text 2 send_event; AReserve 2].

Definition log_size (w : option World) : option nat := length ∘ w_log <$> w.
Example replay_refused : log_size (run 0 59000 (World_new 100000) history) = Some 1%nat.
Proof. vm_compute. reflexivity. Qed.
Example first_delivered :
  log_size (run 0 59000 (World_new 100000) before_delivery ≫= fun w => act 0 59000 w (ADeliver 1)) = Some 1%nat.
Proof. vm_compute. reflexivity. Qed.
Example history_events : omap event_of history = [event; event].
Proof. vm_compute. reflexivity. Qed.

Lemma history_runs :
  exists w, run 0 59000 (World_new 100000) history = Some w /\ length (w_log w) = 1%nat.
Proof.
  pose proof replay_refused as Hs. destruct (run 0 59000 (World_new 100000) history) as [w|]; [|discriminate Hs].
  exists w. split; [done|]. unfold log_size in Hs. cbn in Hs. congruence.
Qed.
Lemma delivery_runs :
  exists w w', run 0 59000 (World_new 100000) before_delivery = Some w /\
    act 0 59000 w (ADeliver 1) = Some w' /\ length (w_log w') = 1%nat.
Proof.
  pose proof first_delivered as Hs.
  destruct (run 0 59000 (World_new 100000) before_delivery) as [w|]; [|discriminate Hs].
  cbn [mbind option_bind] in Hs. destruct (act 0 59000 w (ADeliver 1)) as [w'|] eqn:E; [|discriminate Hs].
  exists w, w'. split_and!; [done|done|]. unfold log_size in Hs. cbn in Hs. congruence.
Qed.

(** Both EVENT frames carry the same event. *)
Lemma history_no_collision e e' m m' :
  e ∈ omap event_of history -> e' ∈ omap event_of history ->
  commitment_of e = Some m -> commitment_of e' = Some m' -> no_collision sha256_digest m m'.
Proof.
  rewrite history_events. intros He He' Hm Hm' _.
  assert (forall x, x ∈ [event; event] -> x = event) as Hx by set_solver.
  rewrite (Hx e He) in Hm. rewrite (Hx e' He') in Hm'. congruence.
Qed.
End SamplePairRelay.

Import SamplePairRelay.

Lemma pair_relay_bounds_witness :
  exists w, run 0 59000 (World_new 100000) history = Some w /\ shape w /\
    forall id, (N.of_nat (sent_by id (w_log w)) <= MAX_EVENTS_PER_CONN)%N.
Proof.
  destruct history_runs as (w & E & _). exists w. split; [exact E|].
  exact (pair_relay_bounds 0 59000 100000 history w E).
Defined.

Lemma delivered_once_witness :
  exists w, run 0 59000 (World_new 100000) history = Some w /\ length (w_log w) = 1%nat /\
    NoDup ((fun d => at_id_bytes (dl_attempt d)) <$> w_log w) /\
    forall d, d ∈ w_log w -> valid_attempt (wall_secs 0 (at_time (dl_attempt d))) (dl_attempt d).
Proof.
  destruct history_runs as (w & E & Hlen). exists w. split; [exact E|]. split; [exact Hlen|].
  exact (delivered_once 0 59000 100000 history w ltac:(lia) ltac:(lia) history_no_collision E).
Defined.

Lemma delivery_routed_witness :
  exists w w', run 0 59000 (World_new 100000) before_delivery = Some w /\
    act 0 59000 w (ADeliver 1) = Some w' /\ length (w_log w') = 1%nat /\
    exists c a t, w_conns w !! 1%N = Some c /\ cn_phase c = Reserved a t /\
    ((exists s d text, w_log w' = w_log w ++ [mkDelivery 1 a (sub_conn_id s) (sub_sub_id s)] /\
        (forall s', s' ∈ subs (w_relay w) -> sub_p_value s' = at_p_value a <-> s' = s) /\
        s ∈ subs (w_relay w) /\
        w_conns w !! sub_conn_id s = Some d /\ cn_phase d <> Closed /\ cn_sub_id d = Some (sub_sub_id s) /\
        json_to_string (JArray [JString "EVENT"; JString (sub_sub_id s); at_event a]) = Ok text /\
        (sub_conn_id s <> 1%N -> exists d', w_conns w' !! sub_conn_id s = Some d' /\
           ch_queue (cn_channel d') = ch_queue (cn_channel d) ++ [OutText text])) \/
     (w_log w' = w_log w /\ forall i, i <> 1%N -> w_conns w' !! i = w_conns w !! i)).
Proof.
  destruct delivery_runs as (w & w' & E & E' & Hlen). exists w, w'. split; [exact E|]. split; [exact E'|].
  split; [exact Hlen|]. exact (delivery_routed 0 59000 100000 before_delivery w 1 w' E E').
Defined.
