(* ===== verification/Auth.v ===== *)
(** Authentication and authorization, buzz-auth/src (nip98.rs, nip42.rs, scope.rs,
    access.rs, nip98_replay.rs, rate_limit.rs, lib.rs), with the Redis-backed
    replay guard and rate limiter of buzz-pubsub/src.

    The clock is an argument, in milliseconds; [Timestamp::now] is its second.
    URL parsing, signature checks and JSON are parameters. *)

From S2P Require Import Prelude Nostr Directory.

(** [VerificationError] of buzz-core is discarded by every caller here. *)
Inductive AuthError :=
| InvalidSignature
| ChallengeMismatch
| RelayUrlMismatch
| EventExpired
| Nip98Invalid (m : string)
| Nip98Replay
| PubkeyMismatch
| InsufficientScope (required : string) (have : list string)
| ChannelAccessDenied
| Internal (m : string).

(** ** Third-party functions *)

Class AuthLib := {
  (** [Event::verify_id] and [Event::verify_signature] *)
  verify_id : Event -> bool;
  verify_signature : Event -> bool;
  (** [serde_json::from_str::<Event>] *)
  event_from_str : string -> result Event string;
  (** [Url::parse], [path], [set_path], [host_str], [set_host] and [to_string] *)
  url : Type;
  url_parse : string -> option url;
  url_path : url -> string;
  url_set_path : string -> url -> url;
  url_host_str : url -> option string;
  url_set_host : string -> url -> url;
  url_to_string : url -> string;
  (** [str::to_lowercase] *)
  to_lowercase : string -> string;
  (** [PublicKey::to_hex], [Display] of [IpAddr] *)
  auth_pubkey_hex : PublicKey -> string;
}.

(** [str::eq_ignore_ascii_case] *)
Definition ascii_lower (c : ascii) : ascii :=
  if is_ascii_uppercase c then ascii_of_N (N_of_ascii c + 32) else c.
Fixpoint eq_ignore_ascii_case (a b : string) : bool :=
  match a, b with
  | EmptyString, EmptyString => true
  | String x a, String y b => Ascii.eqb (ascii_lower x) (ascii_lower y) && eq_ignore_ascii_case a b
  | _, _ => false
  end.

(** [trim_end_matches('/')] *)
Fixpoint trim_end_slashes (s : string) : string :=
  match s with
  | EmptyString => EmptyString
  | String c s =>
      match trim_end_slashes s with
      | EmptyString => if Ascii.eqb c "/" then EmptyString else String c EmptyString
      | t => String c t
      end
  end.

Definition abs_diff (a b : N) : N := if (a <=? b)%N then b - a else a - b.

Section verifiers.
Context `{NostrLib, HexLib, Sha256Lib, AuthLib}.

(** buzz-core's [verify_event]; the id of the error is not modelled. *)
Definition verify_event (e : Event) : result unit unit :=
  if negb (verify_id e) then Err tt
  else if negb (verify_signature e) then Err tt
  else Ok tt.

Definition now_secs (now_millis : Z) : N := Z.to_N (now_millis / 1000).
Definition TIMESTAMP_TOLERANCE_SECS : N := 60.

(** [TagKind::Method] and the like are known by their names. *)
Definition tag_is (name : string) (t : Tag) : bool := String.eqb (tag_kind_string t) name.
Definition u_tag : SingleLetterTag := mkSingleLetterTag "U"%char false.
Definition count_tags (p : Tag -> bool) (e : Event) : nat := length (List.filter p (ev_tags e)).
(** [tags.find(kind).and_then(|t| t.content())] *)
Definition find_content (p : Tag -> bool) (e : Event) : option string :=
  List.find p (ev_tags e) ≫= tag_content.

(** ** NIP-98 *)

Definition KIND_HTTP_AUTH : N := 27235.

Definition normalize_url (raw : string) : string :=
  match url_parse raw with
  | None => to_lowercase raw
  | Some u => url_to_string (url_set_path (trim_end_slashes (url_path u)) u)
  end.

Definition verify_nip98_event (now_millis : Z) (event_json expected_url expected_method : string)
    (body : option string) : result PublicKey AuthError :=
  match event_from_str event_json with
  | Err e => Err (Nip98Invalid ("event JSON parse error: " +:+ e))
  | Ok event =>
      if negb (ev_kind event =? KIND_HTTP_AUTH)%N then
        Err (Nip98Invalid ("expected kind 27235, got " +:+ to_decimal (ev_kind event)))
      else match verify_event event with
      | Err _ => Err (Nip98Invalid "invalid Schnorr signature")
      | Ok _ =>
          let delta := abs_diff (now_secs now_millis) (ev_created_at event) in
          if (TIMESTAMP_TOLERANCE_SECS <? delta)%N then
            Err (Nip98Invalid ("event timestamp outside window (delta: " +:+ to_decimal delta +:+ "s)"))
          else
          let u_count := count_tags (tag_is_single_letter u_tag) event in
          if negb (u_count =? 1)%nat then
            Err (Nip98Invalid ("expected exactly one `u` tag, got " +:+ to_decimal (N.of_nat u_count)))
          else match find_content (tag_is_single_letter u_tag) event with
          | None => Err (Nip98Invalid "missing `u` tag")
          | Some u =>
              if negb (String.eqb (normalize_url u) (normalize_url expected_url)) then
                Err (Nip98Invalid ("URL mismatch: event has `" +:+ u +:+ "`, expected `" +:+ expected_url +:+ "`"))
              else
              let m_count := count_tags (tag_is "method") event in
              if negb (m_count =? 1)%nat then
                Err (Nip98Invalid ("expected exactly one `method` tag, got " +:+ to_decimal (N.of_nat m_count)))
              else match find_content (tag_is "method") event with
              | None => Err (Nip98Invalid "missing `method` tag")
              | Some m =>
                  if negb (eq_ignore_ascii_case m expected_method) then
                    Err (Nip98Invalid ("method mismatch: event has `" +:+ m +:+ "`, expected `" +:+ expected_method +:+ "`"))
                  else
                  let p_count := count_tags (tag_is "payload") event in
                  if (1 <? p_count)%nat then
                    Err (Nip98Invalid ("at most one `payload` tag allowed, got " +:+ to_decimal (N.of_nat p_count)))
                  else match find_content (tag_is "payload") event, body with
                  | Some payload_hex, Some body_bytes =>
                      if negb (String.eqb (hex_encode (sha256_digest body_bytes)) payload_hex) then
                        Err (Nip98Invalid "payload tag SHA-256 mismatch: request body does not match signed hash")
                      else Ok (ev_pubkey event)
                  | _, _ => Ok (ev_pubkey event)
                  end
              end
          end
      end
  end.

(** ** NIP-42 *)

Definition KIND_AUTHENTICATION : N := 22242.

Definition normalize_relay_url (raw : string) : string :=
  match url_parse raw with
  | None => raw
  | Some u =>
      let u := match url_host_str u with
               | Some host => if String.eqb host "localhost" || String.eqb host "::1"
                              then url_set_host "127.0.0.1" u else u
               | None => u
               end in
      url_to_string (url_set_path (trim_end_slashes (url_path u)) u)
  end.

Definition verify_nip42_event (now_millis : Z) (event : Event) (expected_challenge relay_url : string)
    : result unit AuthError :=
  if negb (ev_kind event =? KIND_AUTHENTICATION)%N then Err InvalidSignature
  else match verify_event event with
  | Err _ => Err InvalidSignature
  | Ok _ =>
      match find_content (tag_is "challenge") event with
      | None => Err ChallengeMismatch
      | Some challenge =>
          if negb (String.eqb challenge expected_challenge) then Err ChallengeMismatch
          else match find_content (tag_is "relay") event with
          | None => Err RelayUrlMismatch
          | Some relay =>
              if negb (String.eqb (normalize_relay_url relay) (normalize_relay_url relay_url))
              then Err RelayUrlMismatch
              else if (TIMESTAMP_TOLERANCE_SECS <? abs_diff (now_secs now_millis) (ev_created_at event))%N
              then Err EventExpired
              else Ok tt
          end
      end
  end.
End verifiers.

(** ** Scopes *)

Inductive Scope :=
| MessagesRead | MessagesWrite | ChannelsRead | ChannelsWrite | AdminChannels
| UsersRead | UsersWrite | AdminUsers | JobsRead | JobsWrite
| SubscriptionsRead | SubscriptionsWrite | FilesRead | FilesWrite | ReposRead | ReposWrite
| UnknownScope (s : string).
#[export] Instance Scope_eq_dec : EqDecision Scope.
Proof. solve_decision. Defined.

Definition all_known : list Scope :=
  [MessagesRead; MessagesWrite; ChannelsRead; ChannelsWrite; AdminChannels; UsersRead; UsersWrite; AdminUsers;
   JobsRead; JobsWrite; SubscriptionsRead; SubscriptionsWrite; FilesRead; FilesWrite; ReposRead; ReposWrite].
Definition all_non_admin : list Scope :=
  [MessagesRead; MessagesWrite; ChannelsRead; ChannelsWrite; UsersRead; UsersWrite;
   JobsRead; JobsWrite; SubscriptionsRead; SubscriptionsWrite; FilesRead; FilesWrite; ReposRead; ReposWrite].

Definition Scope_as_str (s : Scope) : string :=
  match s with
  | MessagesRead => "messages:read" | MessagesWrite => "messages:write"
  | ChannelsRead => "channels:read" | ChannelsWrite => "channels:write"
  | AdminChannels => "admin:channels"
  | UsersRead => "users:read" | UsersWrite => "users:write"
  | AdminUsers => "admin:users"
  | JobsRead => "jobs:read" | JobsWrite => "jobs:write"
  | SubscriptionsRead => "subscriptions:read" | SubscriptionsWrite => "subscriptions:write"
  | FilesRead => "files:read" | FilesWrite => "files:write"
  | ReposRead => "repos:read" | ReposWrite => "repos:write"
  | UnknownScope s => s
  end.

Definition Scope_from_str (s : string) : Scope :=
  if String.eqb s "messages:read" then MessagesRead
  else if String.eqb s "messages:write" then MessagesWrite
  else if String.eqb s "channels:read" then ChannelsRead
  else if String.eqb s "channels:write" then ChannelsWrite
  else if String.eqb s "admin:channels" then AdminChannels
  else if String.eqb s "users:read" then UsersRead
  else if String.eqb s "users:write" then UsersWrite
  else if String.eqb s "admin:users" then AdminUsers
  else if String.eqb s "jobs:read" then JobsRead
  else if String.eqb s "jobs:write" then JobsWrite
  else if String.eqb s "subscriptions:read" then SubscriptionsRead
  else if String.eqb s "subscriptions:write" then SubscriptionsWrite
  else if String.eqb s "files:read" then FilesRead
  else if String.eqb s "files:write" then FilesWrite
  else if String.eqb s "repos:read" then ReposRead
  else if String.eqb s "repos:write" then ReposWrite
  else UnknownScope s.
Definition parse_scopes (raw : list string) : list Scope := Scope_from_str <$> raw.

(** ** Channel access *)

(** [ChannelAccessChecker]: what the database answers for a community. *)
Class ChannelAccessChecker := {
  accessible_channel_ids : CommunityId -> PublicKey -> result (gset Uuid) AuthError;
}.

Definition require_scope (scopes : list Scope) (required : Scope) : result unit AuthError :=
  if bool_decide (required ∈ scopes) then Ok tt
  else Err (InsufficientScope (Scope_as_str required) (Scope_as_str <$> scopes)).

Section access.
Context `{ChannelAccessChecker}.

Definition can_access (c : CommunityId) (pubkey : PublicKey) (channel_id : Uuid) : result bool AuthError :=
  let? ids := accessible_channel_ids c pubkey in Ok (bool_decide (channel_id ∈ ids)).

Definition check_access (scope : Scope) (c : CommunityId) (pubkey : PublicKey) (channel_id : Uuid)
    (scopes : list Scope) : result unit AuthError :=
  let? _ := require_scope scopes scope in
  let? ok := can_access c pubkey channel_id in
  if (ok : bool) then Ok tt else Err ChannelAccessDenied.

Definition check_read_access := check_access MessagesRead.
Definition check_write_access := check_access MessagesWrite.
End access.

(** ** The authentication service *)

Inductive AuthMethod := ANip42 | ANip98.
Record AuthContext := mkAuthContext {
  ac_pubkey : PublicKey;
  ac_scopes : list Scope;
  ac_channel_ids : option (list Uuid);
  ac_auth_method : AuthMethod;
  ac_agent_owner_pubkey : option PublicKey;
}.
Definition has_scope (ctx : AuthContext) (s : Scope) : bool := bool_decide (s ∈ ac_scopes ctx).

(** [panicked] is whether the blocking task panicked. *)
Definition verify_auth_event `{NostrLib, AuthLib} (now_millis : Z) (panicked : bool) (e : Event)
    (challenge relay_url : string) : result AuthContext AuthError :=
  if panicked then Err (Internal "spawn_blocking panicked")
  else
    let? _ := verify_nip42_event now_millis e challenge relay_url in
    Ok (mkAuthContext (ev_pubkey e) all_known None ANip42 None).

(** ** Replay protection *)

(** [SET key value NX EX ttl] and [TTL] of Redis. *)
Class RedisMore `{Redis} := {
  r_set_nx : redis -> Z -> string -> string -> Z -> redis * bool;
  r_ttl : redis -> Z -> string -> Z;
}.
Class RedisMoreLaws `{RedisMore} : Prop := {
  set_nx_held : forall s now k v v' ttl, r_get s now k = Some v -> r_set_nx s now k v' ttl = (s, false);
  set_nx_free : forall s now k v ttl, r_get s now k = None ->
    exists s', r_set_nx s now k v ttl = (s', true) /\ expiring s' now k v (now + ttl) /\
      forall k', k' <> k -> same_key s s' now k';
  (** [INCR] keeps the expiry of a counter; its reply has a non-negative [TTL]. *)
  incr_expiring : forall s now k n e, expiring s now k (to_decimal n) e -> (now < e)%Z -> (n + 1 < 2 ^ 63)%N ->
    exists s', r_incr s now k = Ok (s', n + 1)%N /\ expiring s' now k (to_decimal (n + 1)) e /\
      forall k', k' <> k -> same_key s s' now k';
  ttl_expiring : forall s now k v e, expiring s now k v e -> (now < e)%Z -> (0 <= r_ttl s now k)%Z;
}.

Definition DEFAULT_REPLAY_TTL_SECS : N := 120.
Definition MAX_REPLAY_TTL_SECS : N := 3600.
Definition clamp_ttl (ttl_secs : N) : N := N.min (N.max ttl_secs DEFAULT_REPLAY_TTL_SECS) MAX_REPLAY_TTL_SECS.

(** How the Redis call of one operation fares. *)
Record AuthEnv := mkAuthEnv {
  av_pool : option string;
  av_lost_before : option string;
  av_lost_after : option string;
}.
Definition auth_healthy : AuthEnv := mkAuthEnv None None None.

Section redis.
Context `{NostrLib, AuthLib, RedisMore}.

Definition nip98_replay_key_for_scope (scope : string) (id : EventId) : string :=
  "buzz:" +:+ scope +:+ ":nip98:" +:+ event_id_to_hex id.
Definition nip98_replay_key (c : CommunityId) (id : EventId) : string :=
  nip98_replay_key_for_scope (uuid_to_string (as_uuid c)) id.

Definition try_mark_in_scope (env : AuthEnv) (now : Z) (scope : string) (id : EventId) (ttl_secs : N) (s : redis)
    : redis * result bool AuthError :=
  let ttl := clamp_ttl ttl_secs in
  match av_pool env with
  | Some e => (s, Err (Internal ("Redis pool: " +:+ e)))
  | None =>
      match av_lost_before env with
      | Some e => (s, Err (Internal ("Redis SET NX EX: " +:+ e)))
      | None =>
          let '(s, claimed) := r_set_nx s now (nip98_replay_key_for_scope scope id) "1" (Z.of_N (1000 * ttl)) in
          match av_lost_after env with
          | Some e => (s, Err (Internal ("Redis SET NX EX: " +:+ e)))
          | None => (s, Ok claimed)
          end
      end
  end.

Definition try_mark (env : AuthEnv) (now : Z) (c : CommunityId) : EventId -> N -> redis -> redis * result bool AuthError :=
  try_mark_in_scope env now (uuid_to_string (as_uuid c)).

(** ** Rate limits *)

Inductive LimitType := LMessages | LApiCalls | LGifSearches | LWsEvents | LIpConnections.
Definition key_suffix (l : LimitType) : string :=
  match l with
  | LMessages => "msg" | LApiCalls => "api" | LGifSearches => "gif" | LWsEvents => "ws" | LIpConnections => "conn"
  end.

Record RateLimitResult := mkRateLimitResult {
  rl_allowed : bool;
  rl_current : N;
  rl_limit : N;
  rl_reset_in_secs : N;
}.

Definition rate_limit_key (c : CommunityId) (pubkey : PublicKey) (l : LimitType) : string :=
  "buzz:" +:+ uuid_to_string (as_uuid c) +:+ ":ratelimit:" +:+ auth_pubkey_hex pubkey +:+ ":" +:+ key_suffix l.
(** [ip] is the address's [Display] text. *)
Definition ip_rate_limit_key (ip : string) : string := "buzz:ratelimit:ip:" +:+ ip +:+ ":conn".

(** [RATE_LIMIT_SCRIPT] *)
Definition rate_limit_script (now : Z) (key : string) (window_secs : Z) (s : redis) : result (redis * (N * Z)) string :=
  match r_incr s now key with
  | Err e => Err e
  | Ok (s, count) =>
      let s := if (count =? 1)%N then r_pexpire s now key (1000 * window_secs) else s in
      Ok (s, (count, r_ttl s now key))
  end.

(** [repair] is the error of the repairing [EXPIRE], if it fails. *)
Definition run_rate_limit (env : AuthEnv) (repair : option string) (now : Z) (key : string) (window_secs limit : N)
    (s : redis) : redis * result RateLimitResult AuthError :=
  match av_pool env with
  | Some e => (s, Err (Internal ("Redis pool: " +:+ e)))
  | None =>
      match av_lost_before env with
      | Some e => (s, Err (Internal ("Redis rate limit script: " +:+ e)))
      | None =>
          match rate_limit_script now key (Z.of_N window_secs) s with
          | Err e => (s, Err (Internal ("Redis rate limit script: " +:+ e)))
          | Ok (s, (count, ttl)) =>
              match av_lost_after env with
              | Some e => (s, Err (Internal ("Redis rate limit script: " +:+ e)))
              | None =>
                  let answer (reset : N) := mkRateLimitResult (count <=? limit)%N count limit reset in
                  if (ttl <? 0)%Z then
                    match repair with
                    | Some e => (s, Err (Internal ("Redis EXPIRE repair: " +:+ e)))
                    | None => (r_pexpire s now key (1000 * Z.of_N window_secs), Ok (answer window_secs))
                    end
                  else (s, Ok (answer (Z.to_N (Z.max ttl 0))))
              end
          end
      end
  end.

Definition check_and_increment (env : AuthEnv) (repair : option string) (now : Z) (c : CommunityId) (pubkey : PublicKey)
    (l : LimitType) : N -> N -> redis -> redis * result RateLimitResult AuthError :=
  run_rate_limit env repair now (rate_limit_key c pubkey l).
Definition check_ip_connection (env : AuthEnv) (repair : option string) (now : Z) (ip : string)
    : N -> N -> redis -> redis * result RateLimitResult AuthError :=
  run_rate_limit env repair now (ip_rate_limit_key ip).
End redis.
