(* ===== verification/AdminAuth.v ===== *)
(** Authentication of the deployment-admin API: buzz-relay/src/api/admin/auth.rs.
    Header values that are not visible ASCII fail [to_str] and are [None]; the
    [relay_operators] lookup of the database is a function of the key. *)

From S2P Require Import Prelude Nostr Directory Auth.

Definition ADMIN_REPLAY_SCOPE : string := "admin-moderation".
Definition ADMIN_API_PREFIX : string := "/api/admin/v1".

(** The statuses of [ApiError] this module answers with. *)
Inductive ApiError := NotFound | Unauthorized | Forbidden | ForbiddenWith (m : string) | InternalError.

Inductive AdminRole := Operator | Moderator.
#[export] Instance AdminRole_eq_dec : EqDecision AdminRole.
Proof. solve_decision. Defined.
Inductive AdminSource := SourceConfig | OwnerFallback | SourceDb.

Record AdminPrincipal := mkAdminPrincipal {
  ap_pubkey : string;
  ap_role : AdminRole;
  ap_source : AdminSource;
}.

Definition admin_role_str (r : AdminRole) : string :=
  match r with Operator => "operator" | Moderator => "moderator" end.
Definition admin_source_str (s : AdminSource) : string :=
  match s with SourceConfig => "config" | OwnerFallback => "owner_fallback" | SourceDb => "db" end.

(** What of the configuration is read: the admin host and mode, the operator
    keys and the owner key. *)
Inductive AdminAuthMode := AuthDisabled | AuthNip98.
Record AdminConfig := mkAdminConfig { adm_host : string; adm_auth : AdminAuthMode }.
Record Config := mkConfig {
  cfg_admin : option AdminConfig;
  cfg_relay_operator_pubkeys : list string;
  cfg_relay_owner_pubkey : option string;
}.

(** The headers read: [Host], every [Authorization], [Origin]. *)
Record HeaderMap := mkHeaderMap {
  hd_host : option string;
  hd_authorization : list (option string);
  hd_origin : option (option string);
}.

Definition is_admin_host (cfg : Config) (headers : HeaderMap) : bool :=
  match cfg_admin cfg with
  | None => false
  | Some admin => match hd_host headers with Some h => String.eqb h (adm_host admin) | None => false end
  end.

Fixpoint ends_with (suffix s : string) : bool :=
  String.eqb suffix s || match s with EmptyString => false | String _ s => ends_with suffix s end.

(** [scheme_for_host] *)
Definition host_part (host : string) : string :=
  match strip_prefix "[" host with
  | Some rest => hd rest (split_on "]" rest)
  | None => hd host (split_on ":" host)
  end.
Definition is_loopback (part : string) : bool :=
  String.eqb part "localhost" || ends_with ".localhost" part || String.eqb part "::1" || starts_with "127." part.
Definition scheme_for_host (host : string) : string := if is_loopback (host_part host) then "http" else "https".

Definition canonical_url (host path : string) : string := scheme_for_host host +:+ "://" +:+ host +:+ path.
Definition admin_api_origin (host : string) : string := scheme_for_host host +:+ "://" +:+ host.
Definition origin_matches_host (origin host : string) : bool :=
  String.eqb origin (scheme_for_host host +:+ "://" +:+ host).

(** [split_once(' ')] *)
Fixpoint split_once_space (s : string) : option (string * string) :=
  match s with
  | EmptyString => None
  | String c s =>
      if Ascii.eqb c " " then Some (EmptyString, s)
      else match split_once_space s with Some (a, b) => Some (String c a, b) | None => None end
  end.
(** [trim_start_matches(' ')] *)
Fixpoint trim_start_spaces (s : string) : string :=
  match s with
  | String c s' => if Ascii.eqb c " " then trim_start_spaces s' else s
  | EmptyString => EmptyString
  end.
Definition nostr_credential (value : string) : option string :=
  match split_once_space value with
  | None => None
  | Some (scheme, credential) =>
      if eq_ignore_ascii_case scheme "Nostr" then
        let c := trim_start_spaces credential in if bool_decide (c = "") then None else Some c
      else None
  end.

(** [base64] decoding followed by [String::from_utf8], and the bytes of a key. *)
Class AdminLib := {
  base64_utf8 : string -> option string;
  pubkey_to_bytes : PublicKey -> string;
}.
(** A row of [relay_operators], by its role. *)
Definition OperatorLookup : Type := string -> result (option string) string.

Section authorize.
Context `{NostrLib, HexLib, Sha256Lib, AuthLib, AdminLib, RedisMore}.

Definition resolve_admin_principal (cfg : Config) (get_relay_operator : OperatorLookup) (pubkey : string)
    : result AdminPrincipal ApiError :=
  let pubkey_hex := hex_encode pubkey in
  if existsb (fun pk => String.eqb pk pubkey_hex) (cfg_relay_operator_pubkeys cfg) then
    Ok (mkAdminPrincipal pubkey Operator SourceConfig)
  else if bool_decide (cfg_relay_operator_pubkeys cfg = []) && bool_decide (cfg_relay_owner_pubkey cfg = Some pubkey_hex)
  then Ok (mkAdminPrincipal pubkey Operator OwnerFallback)
  else
    match get_relay_operator pubkey with
    | Err _ => Err InternalError
    | Ok (Some role) =>
        if String.eqb role "operator" then Ok (mkAdminPrincipal pubkey Operator SourceDb)
        else if String.eqb role "moderator" then Ok (mkAdminPrincipal pubkey Moderator SourceDb)
        else Err Forbidden
    | Ok None => Err Forbidden
    end.

Definition require_mutation_principal (p : option AdminPrincipal) : result AdminPrincipal ApiError :=
  ok_or p (ForbiddenWith "mutations require BUZZ_ADMIN_AUTH=nip98").
Definition require_operator (p : AdminPrincipal) : result unit ApiError :=
  if bool_decide (ap_role p = Operator) then Ok tt
  else Err (ForbiddenWith "staffing endpoints require operator role").

Definition authorize_nip98 (now : Z) (config : AdminConfig) (headers : HeaderMap) (path method : string)
    (raw_body : option string) : result (string * EventId) ApiError :=
  match hd_authorization headers with
  | [Some value] =>
      match nostr_credential value with
      | None => Err Unauthorized
      | Some auth_str =>
          match base64_utf8 auth_str with
          | None => Err Unauthorized
          | Some event_json =>
              match event_from_str event_json with
              | Err _ => Err Unauthorized
              | Ok event =>
                  if bool_decide (is_Some raw_body) && negb (existsb (tag_is "payload") (ev_tags event)) then
                    Err Unauthorized
                  else
                    match verify_nip98_event now event_json (canonical_url (adm_host config) path) method raw_body with
                    | Err _ => Err Unauthorized
                    | Ok pubkey => Ok (pubkey_to_bytes pubkey, ev_id event)
                    end
              end
          end
      end
  | _ => Err Unauthorized
  end.

Definition claim_nip98_replay (env : AuthEnv) (now : Z) (id : EventId) (s : redis) : redis * result unit ApiError :=
  match try_mark_in_scope env now ADMIN_REPLAY_SCOPE id DEFAULT_REPLAY_TTL_SECS s with
  | (s, Ok true) => (s, Ok tt)
  | (s, Ok false) => (s, Err Unauthorized)
  | (s, Err _) => (s, Err Unauthorized)
  end.

Definition origin_ok (config : AdminConfig) (headers : HeaderMap) : bool :=
  match hd_origin headers with
  | None => true
  | Some None => false
  | Some (Some origin) => origin_matches_host origin (adm_host config)
  end.

Definition authorize (env : AuthEnv) (now : Z) (cfg : Config) (get_relay_operator : OperatorLookup)
    (headers : HeaderMap) (path_and_query method : string) (raw_body : option string) (s : redis)
    : redis * result (option AdminPrincipal) ApiError :=
  match cfg_admin cfg with
  | None => (s, Err NotFound)
  | Some config =>
      let credential :=
        match adm_auth config with
        | AuthDisabled => Ok (None, None)
        | AuthNip98 =>
            let? auth := authorize_nip98 now config headers (ADMIN_API_PREFIX +:+ path_and_query) method raw_body in
            let? principal := resolve_admin_principal cfg get_relay_operator (fst auth) in
            Ok (Some principal, Some (snd auth))
        end in
      match credential with
      | Err e => (s, Err e)
      | Ok (principal, nip98_event_id) =>
          if negb (is_admin_host cfg headers) then (s, Err Forbidden)
          else if negb (origin_ok config headers) then (s, Err Forbidden)
          else
            match nip98_event_id with
            | None => (s, Ok principal)
            | Some id =>
                match claim_nip98_replay env now id s with
                | (s, Ok _) => (s, Ok principal)
                | (s, Err e) => (s, Err e)
                end
            end
      end
  end.
End authorize.
