(* ===== verification/AuthTheorems.v ===== *)
(** Correctness of authentication: what NIP-98 and the admin gate accept, what a
    replayed event can do, and what the rate limiter lets through. *)

From S2P Require Import Prelude Nostr Directory Auth AdminAuth.

(** ** NIP-98 *)

Section nip98.
Context `{NostrLib, HexLib, Sha256Lib, AuthLib}.

(** The request an event authorises, at a time. *)
Record nip98_accepts (now : Z) (e : Event) (url method : string) (body : option string) : Prop := {
  na_kind : ev_kind e = KIND_HTTP_AUTH;
  na_id : verify_id e = true;
  na_signature : verify_signature e = true;
  na_fresh : (Z.abs (Z.of_N (now_secs now) - Z.of_N (ev_created_at e)) <= 60)%Z;
  na_url : exists t u, List.filter (tag_is_single_letter u_tag) (ev_tags e) = [t] /\
    tag_content t = Some u /\ normalize_url u = normalize_url url;
  na_method : exists t m, List.filter (tag_is "method") (ev_tags e) = [t] /\
    tag_content t = Some m /\ eq_ignore_ascii_case m method = true;
  na_payload : List.filter (tag_is "payload") (ev_tags e) = [] \/
    exists t, List.filter (tag_is "payload") (ev_tags e) = [t] /\
      forall p b, tag_content t = Some p -> body = Some b -> p = hex_encode (sha256_digest b);
}.

Lemma find_filter {A} (f : A -> bool) l : List.find f l = hd_error (List.filter f l).
Proof. induction l as [|x l IH]; [done|]. cbn. by destruct (f x). Qed.

Lemma count_find_one (f : Tag -> bool) e o :
  (count_tags f e = 1%nat /\ find_content f e = Some o) <->
  exists t, List.filter f (ev_tags e) = [t] /\ tag_content t = Some o.
Proof.
  unfold count_tags, find_content. rewrite find_filter. destruct (List.filter f (ev_tags e)) as [|t [|t' ts]]; cbn.
  - naive_solver.
  - split; [intros [_ Ht]; eauto|intros (x & [= ->] & Hx); done].
  - split; [intros [[=] _]|intros (x & [=] & _)].
Qed.

Lemma abs_diff_spec a b : Z.of_N (abs_diff a b) = Z.abs (Z.of_N a - Z.of_N b).
Proof. unfold abs_diff. destruct (N.leb_spec a b); lia. Qed.

(** The verdict on a parsed event. *)
Lemma verify_parsed now json url method body event :
  event_from_str json = Ok event ->
  match verify_nip98_event now json url method body with
  | Ok pk => pk = ev_pubkey event /\ nip98_accepts now event url method body
  | Err _ => ~ nip98_accepts now event url method body
  end.
Proof.
  intros Hj. unfold verify_nip98_event. rewrite Hj.
  destruct (N.eqb_spec (ev_kind event) KIND_HTTP_AUTH) as [Hk|Hk]; cbn [negb]; [|by intros []].
  unfold verify_event. destruct (verify_id event) eqn:Hid; cbn [negb]; [|intros []; congruence].
  destruct (verify_signature event) eqn:Hsig; cbn [negb]; [|intros []; congruence].
  destruct (N.ltb_spec TIMESTAMP_TOLERANCE_SECS (abs_diff (now_secs now) (ev_created_at event))) as [Hd|Hd].
  { intros []. pose proof (abs_diff_spec (now_secs now) (ev_created_at event)). unfold TIMESTAMP_TOLERANCE_SECS in *. lia. }
  assert (Z.abs (Z.of_N (now_secs now) - Z.of_N (ev_created_at event)) <= 60)%Z as Hfresh.
  { pose proof (abs_diff_spec (now_secs now) (ev_created_at event)). unfold TIMESTAMP_TOLERANCE_SECS in *. lia. }
  pose proof (count_find_one (tag_is_single_letter u_tag) event) as Hu.
  destruct (Nat.eqb_spec (count_tags (tag_is_single_letter u_tag) event) 1) as [Hc|Hc]; cbn [negb].
  2:{ intros [_ _ _ _ (t & u & Ht & Hcu & _) _ _]. by destruct (proj2 (Hu u) (ex_intro _ t (conj Ht Hcu))). }
  destruct (find_content (tag_is_single_letter u_tag) event) as [u|].
  2:{ intros [_ _ _ _ (t & u & Ht & Hcu & _) _ _]. by destruct (proj2 (Hu u) (ex_intro _ t (conj Ht Hcu))). }
  destruct (proj1 (Hu u) (conj Hc eq_refl)) as (t & Ht & Htu).
  destruct (String.eqb_spec (normalize_url u) (normalize_url url)) as [Hurl|Hurl]; cbn [negb].
  2:{ intros [_ _ _ _ (t' & u' & Ht' & Hcu & ?) _ _]. congruence. }
  assert (exists t u, List.filter (tag_is_single_letter u_tag) (ev_tags event) = [t] /\
    tag_content t = Some u /\ normalize_url u = normalize_url url) as Hurl' by eauto.
  pose proof (count_find_one (tag_is "method") event) as Hm.
  destruct (Nat.eqb_spec (count_tags (tag_is "method") event) 1) as [Hc2|Hc2]; cbn [negb].
  2:{ intros [_ _ _ _ _ (t' & m & Ht' & Hcu & _) _]. by destruct (proj2 (Hm m) (ex_intro _ t' (conj Ht' Hcu))). }
  destruct (find_content (tag_is "method") event) as [m|].
  2:{ intros [_ _ _ _ _ (t' & m & Ht' & Hcu & _) _]. by destruct (proj2 (Hm m) (ex_intro _ t' (conj Ht' Hcu))). }
  destruct (proj1 (Hm m) (conj Hc2 eq_refl)) as (t2 & Ht2 & Htm).
  destruct (eq_ignore_ascii_case m method) eqn:Hmeth; cbn [negb].
  2:{ intros [_ _ _ _ _ (t' & m' & Ht' & Hcu & ?) _]. congruence. }
  assert (exists t m, List.filter (tag_is "method") (ev_tags event) = [t] /\
    tag_content t = Some m /\ eq_ignore_ascii_case m method = true) as Hmeth' by eauto.
  unfold count_tags, find_content. rewrite find_filter.
  destruct (List.filter (tag_is "payload") (ev_tags event)) as [|t3 [|t4 ts]] eqn:Hp; cbn [hd_error length mbind option_bind].
  - split; [done|]. split; try done. by left.
  - destruct (tag_content t3) as [ph|] eqn:Hph.
    + destruct body as [b|].
      * destruct (String.eqb_spec (hex_encode (sha256_digest b)) ph) as [Hh|Hh]; cbn [negb].
        -- split; [done|]. split; try done. right. exists t3. split; [done|]. intros. simplify_eq. done.
        -- intros [_ _ _ _ _ _ [Hz|(t5 & Ht5 & Hall)]]; [congruence|]. rewrite Hp in Ht5. injection Ht5 as <-.
           specialize (Hall ph b Hph eq_refl). congruence.
      * split; [done|]. split; try done. right. exists t3. split; [done|]. done.
    + split; [done|]. split; try done. right. exists t3. split; [done|]. intros. congruence.
  - intros [_ _ _ _ _ _ [Hz|(t5 & Ht5 & _)]]; congruence.
Qed.

(** NIP-98 accepts exactly.  A request is authenticated as a key exactly when
    the credential parses to an event of kind 27235 by that key, with a correct
    id and signature, created within 60 seconds of now, with exactly one [u] tag
    naming the URL up to normalisation, exactly one [method] tag naming the
    method up to case, and no payload tag or exactly one, which then hashes the
    body if there is one. *)
Theorem nip98_exact now json url method body pk :
  verify_nip98_event now json url method body = Ok pk <->
  exists event, event_from_str json = Ok event /\ pk = ev_pubkey event /\ nip98_accepts now event url method body.
Proof.
  destruct (event_from_str json) as [event|e] eqn:Hj.
  - pose proof (verify_parsed now json url method body event Hj) as Hv.
    destruct (verify_nip98_event now json url method body) as [pk'|].
    + destruct Hv as [-> Ha]. split.
      * intros [= <-]. eauto.
      * intros (ev & [= <-] & -> & _). done.
    + split; [done|]. intros (ev & [= <-] & _ & Ha). done.
  - unfold verify_nip98_event. rewrite Hj. split; [done|]. by intros (? & ? & _).
Qed.
End nip98.

(** ** The admin gate *)

Section admin.
Context `{NostrLib, HexLib, Sha256Lib, AuthLib, AdminLib, RedisMore}.

(** Who is granted what: configured operators, else the owner when no operator
    is configured, else the role of the database row. *)
Inductive granted (cfg : Config) (db : OperatorLookup) (pk : string) : AdminPrincipal -> Prop :=
| granted_config : hex_encode pk ∈ cfg_relay_operator_pubkeys cfg ->
    granted cfg db pk (mkAdminPrincipal pk Operator SourceConfig)
| granted_owner : cfg_relay_operator_pubkeys cfg = [] -> cfg_relay_owner_pubkey cfg = Some (hex_encode pk) ->
    granted cfg db pk (mkAdminPrincipal pk Operator OwnerFallback)
| granted_db role : hex_encode pk ∉ cfg_relay_operator_pubkeys cfg ->
    (cfg_relay_operator_pubkeys cfg = [] -> cfg_relay_owner_pubkey cfg <> Some (hex_encode pk)) ->
    db pk = Ok (Some (admin_role_str role)) -> granted cfg db pk (mkAdminPrincipal pk role SourceDb).

Lemma resolve_exact cfg db pk p : resolve_admin_principal cfg db pk = Ok p <-> granted cfg db pk p.
Proof.
  unfold resolve_admin_principal.
  destruct (existsb _ _) eqn:He.
  { apply existsb_exists in He as (k & Hk & ->%String.eqb_eq). apply list_elem_of_In in Hk. split.
    - intros [= <-]. by constructor.
    - intros []; [done| |done]. match goal with E : _ = [] |- _ => rewrite E in Hk end. by apply elem_of_nil in Hk. }
  assert (hex_encode pk ∉ cfg_relay_operator_pubkeys cfg) as Hni.
  { intros Hin. assert (existsb (fun k => String.eqb k (hex_encode pk)) (cfg_relay_operator_pubkeys cfg) = true).
    { apply existsb_exists. exists (hex_encode pk). split; [by apply list_elem_of_In|apply String.eqb_refl]. }
    congruence. }
  destruct (bool_decide (cfg_relay_operator_pubkeys cfg = []) && _) eqn:Ho.
  { apply andb_prop in Ho as [Ho1%bool_decide_eq_true_1 Ho2%bool_decide_eq_true_1]. split.
    - intros [= <-]. by constructor.
    - intros [Hin|E1 E2|r _ Hnot _]; [done|done|by destruct (Hnot Ho1)]. }
  assert (cfg_relay_operator_pubkeys cfg = [] -> cfg_relay_owner_pubkey cfg <> Some (hex_encode pk)) as Hno.
  { intros E E2. rewrite bool_decide_eq_true_2 in Ho by done. rewrite bool_decide_eq_true_2 in Ho by done. done. }
  destruct (db pk) as [[role|]|] eqn:Hdb.
  - destruct (String.eqb_spec role "operator") as [->|Hr1]; [|destruct (String.eqb_spec role "moderator") as [->|Hr2]].
    + split; [intros [= <-]; by apply granted_db|]. intros [Hin|E1 E2|r _ _ Hr]; [done|by destruct (Hno E1)|].
      rewrite Hdb in Hr. by destruct r.
    + split; [intros [= <-]; by apply granted_db|]. intros [Hin|E1 E2|r _ _ Hr]; [done|by destruct (Hno E1)|].
      rewrite Hdb in Hr. by destruct r.
    + split; [done|]. intros [Hin|E1 E2|r _ _ Hr]; [done|by destruct (Hno E1)|]. rewrite Hdb in Hr. destruct r; naive_solver.
  - split; [done|]. intros [Hin|E1 E2|r _ _ Hr]; [done|by destruct (Hno E1)|congruence].
  - split; [done|]. intros [Hin|E1 E2|r _ _ Hr]; [done|by destruct (Hno E1)|congruence].
Qed.

(** A request that passes every check but the claim of its event. *)
Record admissible_request (now : Z) (cfg : Config) (db : OperatorLookup) (headers : HeaderMap) (path method : string)
    (body : option string) (event : Event) (p : AdminPrincipal) : Prop := {
  ar_config : exists config, cfg_admin cfg = Some config /\ adm_auth config = AuthNip98 /\
    hd_host headers = Some (adm_host config) /\
    (hd_origin headers = None \/ hd_origin headers = Some (Some (admin_api_origin (adm_host config)))) /\
    nip98_accepts now event (canonical_url (adm_host config) (ADMIN_API_PREFIX +:+ path)) method body;
  ar_credential : exists value cred json, hd_authorization headers = [Some value] /\
    nostr_credential value = Some cred /\ base64_utf8 cred = Some json /\ event_from_str json = Ok event;
  ar_payload : is_Some body -> existsb (tag_is "payload") (ev_tags event) = true;
  ar_granted : granted cfg db (pubkey_to_bytes (ev_pubkey event)) p;
}.

Lemma authorize_nip98_exact now config headers path method body pk id :
  authorize_nip98 now config headers path method body = Ok (pk, id) <->
  exists value cred json event, hd_authorization headers = [Some value] /\
    nostr_credential value = Some cred /\ base64_utf8 cred = Some json /\ event_from_str json = Ok event /\
    (is_Some body -> existsb (tag_is "payload") (ev_tags event) = true) /\
    nip98_accepts now event (canonical_url (adm_host config) path) method body /\
    pk = pubkey_to_bytes (ev_pubkey event) /\ id = ev_id event.
Proof.
  unfold authorize_nip98. destruct (hd_authorization headers) as [|[value|] [|]]; try (split; [done|naive_solver]).
  destruct (nostr_credential value) as [cred|] eqn:Hc;
    [|split; [done|intros (v & c & j & ev & [= <-] & ? & ? & ? & _); congruence]].
  destruct (base64_utf8 cred) as [json|] eqn:Hb;
    [|split; [done|intros (v & c & j & ev & [= <-] & ? & ? & ? & _); congruence]].
  destruct (event_from_str json) as [event|] eqn:Hj;
    [|split; [done|intros (v & c & j & ev & [= <-] & ? & ? & ? & _); congruence]].
  pose proof (verify_parsed now json (canonical_url (adm_host config) path) method body event Hj) as Hv.
  destruct (bool_decide (is_Some body) && _) eqn:Hp.
  { apply andb_prop in Hp as [Hp1%bool_decide_eq_true_1 Hp2%negb_true_iff].
    split; [done|]. intros (v & c & j & e & [= <-] & ? & ? & ? & Hpay & _).
    assert (c = cred) as -> by congruence. assert (j = json) as -> by congruence. assert (e = event) as -> by congruence.
    specialize (Hpay Hp1). congruence. }
  assert (is_Some body -> existsb (tag_is "payload") (ev_tags event) = true) as Hpay.
  { intros Hs. rewrite bool_decide_eq_true_2 in Hp by done. by apply negb_false_iff in Hp. }
  destruct (verify_nip98_event _ _ _ _ _) as [k|er].
  - destruct Hv as [-> Ha]. split.
    + intros [= <- <-]. exists value, cred, json, event. by split_and!.
    + intros (v & c & j & e & [= <-] & ? & ? & ? & _ & _ & -> & ->).
      assert (c = cred) as -> by congruence. assert (j = json) as -> by congruence. assert (e = event) as -> by congruence. done.
  - split; [done|]. intros (v & c & j & e & [= <-] & ? & ? & ? & _ & Ha & _).
    assert (c = cred) as -> by congruence. assert (j = json) as -> by congruence. assert (e = event) as -> by congruence. done.
Qed.

Lemma origin_ok_exact config headers :
  origin_ok config headers = true <->
  hd_origin headers = None \/ hd_origin headers = Some (Some (admin_api_origin (adm_host config))).
Proof.
  unfold origin_ok, origin_matches_host, admin_api_origin. destruct (hd_origin headers) as [[o|]|].
  - rewrite String.eqb_eq. split; [intros ->; by right|]. intros [|[= ->]]; done.
  - split; [done|]. by intros [].
  - split; [by left|done].
Qed.

(** In NIP-98 mode, a request either passes every check, and then its event is
    claimed, or it is refused and nothing is claimed. *)
Lemma authorize_cases env now cfg config db headers path method body (s : redis) :
  cfg_admin cfg = Some config -> adm_auth config = AuthNip98 ->
  (exists event p, admissible_request now cfg db headers path method body event p /\
     authorize env now cfg db headers path method body s =
       match claim_nip98_replay env now (ev_id event) s with
       | (s', Ok _) => (s', Ok (Some p))
       | (s', Err e) => (s', Err e)
       end) \/
  ((forall event p, ~ admissible_request now cfg db headers path method body event p) /\
   exists e, authorize env now cfg db headers path method body s = (s, Err e)).
Proof.
  intros Hcfg Hmode. unfold authorize. rewrite Hcfg, Hmode.
  pose proof (authorize_nip98_exact now config headers (ADMIN_API_PREFIX +:+ path) method body) as Hauth.
  destruct (authorize_nip98 _ _ _ _ _ _) as [[pk id]|e].
  2:{ right. split; [|eauto]. intros event p [(c & Ec & _ & _ & _ & Ha) (v & cr & j & ?) Hpay _].
      assert (c = config) as -> by congruence.
      enough (Err e = Ok (E := ApiError) (pubkey_to_bytes (ev_pubkey event), ev_id event)) by done.
      apply Hauth. exists v, cr, j, event. by destruct_and!. }
  destruct (proj1 (Hauth pk id) eq_refl) as (v & cr & j & event & Hv & Hcr & Hj & Hev & Hpay & Ha & -> & ->).
  clear Hauth. cbn [fst snd].
  assert (forall event' p, admissible_request now cfg db headers path method body event' p -> event' = event) as Huniq.
  { intros event' p [_ (v' & cr' & j' & Hv' & Hcr' & Hj' & Hev') _ _].
    assert (v' = v) as -> by congruence. assert (cr' = cr) as -> by congruence. assert (j' = j) as -> by congruence. congruence. }
  pose proof (resolve_exact cfg db (pubkey_to_bytes (ev_pubkey event))) as Hres.
  destruct (resolve_admin_principal _ _ _) as [p|e].
  2:{ right. split; [|eauto]. intros event' p Hadm. pose proof (Huniq _ _ Hadm) as ->.
      destruct Hadm as [_ _ _ Hg]. by apply Hres in Hg. }
  pose proof (proj1 (Hres p) eq_refl) as Hg.
  destruct (is_admin_host cfg headers) eqn:Hh; cbn [negb].
  2:{ right. split; [|eauto]. intros event' p' [(c & ? & _ & Hhost & _) _ _ _]. simplify_eq.
      unfold is_admin_host in Hh. rewrite Hcfg, Hhost, String.eqb_refl in Hh. done. }
  destruct (origin_ok config headers) eqn:Ho; cbn [negb].
  2:{ right. split; [|eauto]. intros event' p' [(c & ? & _ & _ & Hor & _) _ _ _]. simplify_eq.
      apply origin_ok_exact in Hor. congruence. }
  left. exists event, p. split; [|done]. split.
  - exists config. split_and!; [done|done| |by apply origin_ok_exact|done].
    unfold is_admin_host in Hh. rewrite Hcfg in Hh. destruct (hd_host headers); [|done]. apply String.eqb_eq in Hh. congruence.
  - eauto 10.
  - done.
  - done.
Qed.

Lemma admissible_unique now cfg db headers path method body event p event' p' :
  admissible_request now cfg db headers path method body event p ->
  admissible_request now cfg db headers path method body event' p' -> event' = event /\ p' = p.
Proof.
  intros [_ (v & c & j & Hv & Hc & Hj & He) _ Hg] [_ (v' & c' & j' & Hv' & Hc' & Hj' & He') _ Hg'].
  assert (v' = v) as -> by congruence. assert (c' = c) as -> by congruence. assert (j' = j) as -> by congruence.
  assert (event' = event) as -> by congruence. split; [done|].
  apply resolve_exact in Hg, Hg'. congruence.
Qed.

(** Without authentication the gate checks the host and the origin only, and
    names no principal. *)
Lemma authorize_disabled_exact env now cfg config db headers path method body (s s' : redis) res :
  cfg_admin cfg = Some config -> adm_auth config = AuthDisabled ->
  authorize env now cfg db headers path method body s = (s', res) ->
  s' = s /\ forall q, res = Ok q <-> q = None /\ hd_host headers = Some (adm_host config) /\
    (hd_origin headers = None \/ hd_origin headers = Some (Some (admin_api_origin (adm_host config)))).
Proof.
  intros Hcfg Hmode. unfold authorize, is_admin_host. rewrite Hcfg, Hmode. setoid_rewrite <- origin_ok_exact.
  destruct (hd_host headers) as [h|]; cbn [negb]; [|intros [= <- <-]; naive_solver].
  destruct (String.eqb_spec h (adm_host config)) as [->|Hne]; cbn [negb]; [|intros [= <- <-]; naive_solver].
  destruct (origin_ok config headers); intros [= <- <-]; naive_solver.
Qed.

(** C23: The admin gate is exact.  In NIP-98 mode a request is let in as a
    principal exactly when it comes to the admin host, from no origin or its
    own, with exactly one credential, whose event authorises exactly this URL,
    method and body (a body must be committed to), whose key is granted that
    role by configuration, by owner fallback, or else by the roster, and whose
    event id was claimed by this call.  A request that fails any check but the
    claim leaves the replay store as it was; one that passes them changes it by
    the claim of its id and nothing else, also when the claim's reply is lost
    and the request is refused.  In disabled mode a request is let in, without a
    principal, exactly when its host and origin fit, and the store is kept. *)
Theorem admin_gate_exact env now cfg config db headers path method body (s s' : redis) res :
  cfg_admin cfg = Some config ->
  authorize env now cfg db headers path method body s = (s', res) ->
  match adm_auth config with
  | AuthNip98 =>
      let claim event := try_mark_in_scope env now ADMIN_REPLAY_SCOPE (ev_id event) DEFAULT_REPLAY_TTL_SECS s in
      (forall q, res = Ok q <-> exists event p, q = Some p /\
         admissible_request now cfg db headers path method body event p /\ claim event = (s', Ok true)) /\
      ((forall event p, ~ admissible_request now cfg db headers path method body event p) -> s' = s) /\
      (forall event p, admissible_request now cfg db headers path method body event p -> s' = (claim event).1)
  | AuthDisabled =>
      s' = s /\ forall q, res = Ok q <-> q = None /\ hd_host headers = Some (adm_host config) /\
        (hd_origin headers = None \/ hd_origin headers = Some (Some (admin_api_origin (adm_host config))))
  end.
Proof.
  intros Hcfg Hrun. destruct (adm_auth config) eqn:Hmode; [by eapply authorize_disabled_exact|]. cbn zeta.
  destruct (authorize_cases env now cfg config db headers path method body s Hcfg Hmode)
    as [(event & p & Hadm & E)|[Hno (e & E)]]; rewrite E in Hrun.
  2:{ simplify_eq. split_and!; [|done|intros ? ? Hadm; by apply Hno in Hadm].
      intros q. split; [done|]. intros (ev & p & _ & Hadm & _). by apply Hno in Hadm. }
  unfold claim_nip98_replay in Hrun.
  assert (forall event' p', admissible_request now cfg db headers path method body event' p' -> event' = event /\ p' = p) as Huniq
    by (intros; by eapply admissible_unique).
  split_and!; [|intros Hno; by apply Hno in Hadm|].
  2:{ intros event' p' [-> _]%Huniq. by destruct (try_mark_in_scope _ _ _ _ _ _) as [s1 [[|]|]]; simplify_eq. }
  intros q. destruct (try_mark_in_scope env now ADMIN_REPLAY_SCOPE (ev_id event) DEFAULT_REPLAY_TTL_SECS s) as [s1 [[|]|]] eqn:Em;
    simplify_eq; (split; [try done|]).
  - intros [= <-]. eauto.
  - intros (ev & p' & -> & Hadm' & _). by apply Huniq in Hadm' as [_ ->].
  - intros (ev & p' & -> & Hadm' & Em'). apply Huniq in Hadm' as [-> _]. congruence.
  - intros (ev & p' & -> & Hadm' & Em'). apply Huniq in Hadm' as [-> _]. congruence.
Qed.
End admin.
