(* ===== verification/AuthRun.v ===== *)
(** Histories of requests: how far apart two uses of one event must be, and how
    many requests a rate limit lets through. *)

From S2P Require Import Prelude Nostr Directory Auth AdminAuth AuthTheorems.

(** ** Replayed events *)

Record AdminRequest := mkAdminRequest {
  rq_env : AuthEnv;
  rq_now : Z;
  rq_headers : HeaderMap;
  rq_path : string;
  rq_method : string;
  rq_body : option string;
}.

Section replay.
Context `{NostrLib, HexLib, Sha256Lib, AuthLib, AdminLib, RedisMoreLaws}.
Variables (cfg : Config) (config : AdminConfig) (db : OperatorLookup).
Hypothesis nip98_mode : cfg_admin cfg = Some config /\ adm_auth config = AuthNip98.

(** The event of a request's credential. *)
Definition request_event (r : AdminRequest) : option Event :=
  match hd_authorization (rq_headers r) with
  | [Some value] =>
      match nostr_credential value ≫= base64_utf8 with
      | Some json => match event_from_str json with Ok e => Some e | Err _ => None end
      | None => None
      end
  | _ => None
  end.

(** One request at a time on the shared store; the accepted ones are listed. *)
Definition admin_step (st : redis * list AdminRequest) (r : AdminRequest) : redis * list AdminRequest :=
  match authorize (rq_env r) (rq_now r) cfg db (rq_headers r) (rq_path r) (rq_method r) (rq_body r) st.1 with
  | (s, Ok _) => (s, st.2 ++ [r])
  | (s, Err _) => (s, st.2)
  end.

Definition replay_key (r : AdminRequest) : string :=
  match request_event r with
  | Some e => nip98_replay_key_for_scope ADMIN_REPLAY_SCOPE (ev_id e)
  | None => ""
  end.

Lemma admissible_event now headers path method body event p r :
  admissible_request now cfg db headers path method body event p -> rq_headers r = headers ->
  request_event r = Some event.
Proof.
  intros [_ (v & c & j & Hv & Hc & Hj & He) _ _] <-. unfold request_event. rewrite Hv, Hc. cbn. by rewrite Hj, He.
Qed.

Lemma clamp_default : clamp_ttl DEFAULT_REPLAY_TTL_SECS = 120%N.
Proof. reflexivity. Qed.

(** What one request does to the store: it takes a free key for 120 seconds, or
    changes no answer of any key. *)
Lemma authorize_store r (s s' : redis) res :
  authorize (rq_env r) (rq_now r) cfg db (rq_headers r) (rq_path r) (rq_method r) (rq_body r) s = (s', res) ->
  (s' = s /\ forall q, res <> Ok q) \/
  (exists event p, admissible_request (rq_now r) cfg db (rq_headers r) (rq_path r) (rq_method r) (rq_body r) event p /\
     request_event r = Some event /\ r_get s (rq_now r) (replay_key r) = None /\
     expiring s' (rq_now r) (replay_key r) "1" (rq_now r + 120000) /\
     forall k, k <> replay_key r -> same_key s s' (rq_now r) k).
Proof.
  destruct nip98_mode as [Hcfg Hmode].
  destruct (authorize_cases (rq_env r) (rq_now r) cfg config db (rq_headers r) (rq_path r) (rq_method r) (rq_body r) s Hcfg Hmode)
    as [(event & p & Hadm & ->)|[Hno (e & ->)]]; [|intros [= <- <-]; by left].
  pose proof (admissible_event _ _ _ _ _ _ _ r Hadm eq_refl) as Hev.
  assert (replay_key r = nip98_replay_key_for_scope ADMIN_REPLAY_SCOPE (ev_id event)) as Hkey
    by (unfold replay_key; by rewrite Hev).
  unfold claim_nip98_replay, try_mark_in_scope. rewrite clamp_default, <- Hkey.
  destruct (av_pool (rq_env r)); [intros [= <- <-]; by left|].
  destruct (av_lost_before (rq_env r)); [intros [= <- <-]; by left|].
  destruct (r_get s (rq_now r) (replay_key r)) as [v|] eqn:Hg.
  - rewrite (set_nx_held _ _ _ v) by done. destruct (av_lost_after (rq_env r)); intros [= <- <-]; by left.
  - destruct (set_nx_free s (rq_now r) (replay_key r) "1" (Z.of_N (1000 * 120)) Hg) as (s1 & -> & Hexp & Hoth).
    intros Hrun. right. exists event, p. split_and!; [done|done|done| |];
      destruct (av_lost_after (rq_env r)); simplify_eq; done.
Qed.

(** Every accepted request still holds its key, or 120 seconds have passed. *)
Definition held (st : redis * list AdminRequest) (now : Z) : Prop :=
  forall r, r ∈ st.2 -> forall t, (now <= t < rq_now r + 120000)%Z -> is_Some (r_get st.1 t (replay_key r)).

Fixpoint in_order (t0 : Z) (rs : list AdminRequest) : Prop :=
  match rs with [] => True | r :: rs => (t0 <= rq_now r)%Z /\ in_order (rq_now r) rs end.

Lemma admin_step_held st r now :
  (now <= rq_now r)%Z -> held st now -> held (admin_step st r) (rq_now r).
Proof.
  intros Hle Hh. unfold admin_step.
  destruct (authorize _ _ _ _ _ _ _ _ _) as [s' res] eqn:E. apply authorize_store in E.
  assert (forall x, x ∈ st.2 -> forall t, (rq_now r <= t < rq_now x + 120000)%Z -> is_Some (r_get s' t (replay_key x))) as Hold.
  { intros x Hx t Ht. destruct E as [[-> _]|(ev & p & _ & _ & Hfree & Hexp & Hoth)]; [apply Hh; [done|lia]|].
    destruct (decide (replay_key x = replay_key r)) as [Hk|Hk].
    - exfalso. pose proof (Hh x Hx (rq_now r) ltac:(lia)) as [v Hv]. congruence.
    - rewrite Hoth by (done || lia). apply Hh; [done|lia]. }
  destruct res as [q|e]; intros x Hx t Ht; cbn [fst snd] in *; [|by apply Hold].
  apply elem_of_app in Hx as [Hx| ->%list_elem_of_singleton]; [by apply Hold|].
  destruct E as [[_ Hn]|(ev & p & _ & _ & _ & Hexp & _)]; [by destruct (Hn q)|].
  rewrite Hexp by lia. rewrite (proj2 (Z.ltb_lt _ _)) by lia. eauto.
Qed.

(** What an accepted request is. *)
Lemma admin_step_accepted st r x :
  x ∈ (admin_step st r).2 -> x ∈ st.2 \/
  (x = r /\ (exists event p, admissible_request (rq_now r) cfg db (rq_headers r) (rq_path r) (rq_method r) (rq_body r) event p /\
      request_event r = Some event) /\ r_get st.1 (rq_now r) (replay_key r) = None).
Proof.
  unfold admin_step. destruct (authorize _ _ _ _ _ _ _ _ _) as [s' [q|e]] eqn:E; [|by left].
  apply authorize_store in E as [[_ Hn]|(ev & p & Hadm & Hev & Hfree & _)]; [by destruct (Hn q)|].
  intros [Hx| ->%list_elem_of_singleton]%elem_of_app; [by left|]. right. split_and!; [done|eauto|done].
Qed.

(** The order of acceptance. *)
Definition spaced (l : list AdminRequest) : Prop :=
  forall i j a b, (i < j)%nat -> l !! i = Some a -> l !! j = Some b -> replay_key a = replay_key b ->
    (rq_now a + 120000 <= rq_now b)%Z.

Definition accepted_ok (st : redis * list AdminRequest) : Prop :=
  forall x, x ∈ st.2 -> exists event p,
    admissible_request (rq_now x) cfg db (rq_headers x) (rq_path x) (rq_method x) (rq_body x) event p /\
    request_event x = Some event.

Lemma admin_run_inv rs st now :
  in_order now rs -> held st now -> spaced st.2 -> accepted_ok st -> (forall x, x ∈ st.2 -> (rq_now x <= now)%Z) ->
  spaced (foldl admin_step st rs).2 /\ accepted_ok (foldl admin_step st rs).
Proof.
  revert st now. induction rs as [|r rs IH]; intros st now Ho Hh Hsp Hok Hpast; cbn [foldl]; [done|].
  destruct Ho as [Hle Ho].
  assert ((admin_step st r).2 = st.2 \/ (admin_step st r).2 = st.2 ++ [r]) as Hgrow.
  { unfold admin_step. destruct (authorize _ _ _ _ _ _ _ _ _) as [s' [q|e]]; [by right|by left]. }
  apply (IH (admin_step st r) (rq_now r)).
  - done.
  - by eapply admin_step_held.
  - destruct Hgrow as [-> |Hg]; [done|]. rewrite Hg. intros i j a b Hij Hi Hj Hkey.
    assert (r_get st.1 (rq_now r) (replay_key r) = None) as Hfree.
    { unfold admin_step in Hg. destruct (authorize _ _ _ _ _ _ _ _ _) as [s' [q|e]] eqn:E.
      - apply authorize_store in E as [[_ Hn]|(ev & p & _ & _ & ? & _)]; [by destruct (Hn q)|done].
      - cbn in Hg. apply (f_equal length) in Hg. rewrite length_app in Hg. cbn in Hg. lia. }
    apply lookup_app_Some in Hj as [Hj|[Hlen Hj]].
    { eapply Hsp; [exact Hij| |exact Hj|done]. apply lookup_app_Some in Hi as [Hi|[Hi _]]; [done|].
      apply lookup_lt_Some in Hj. lia. }
    apply list_lookup_singleton_Some in Hj as [Hz <-].
    apply lookup_app_Some in Hi as [Hi|[Hi _]]; [|lia]. apply list_elem_of_lookup_2 in Hi as Hin.
    destruct (Z.le_gt_cases (rq_now a + 120000) (rq_now r)); [done|]. exfalso.
    destruct (Hh a Hin (rq_now r)) as [v Hv]; [lia|]. congruence.
  - intros x Hx. apply admin_step_accepted in Hx as [Hx|(-> & Hadm & _)]; [by apply Hok|done].
  - intros x Hx. apply admin_step_accepted in Hx as [Hx|(-> & _)]; [|lia]. specialize (Hpast x Hx). lia.
Qed.

(** A used event is dead, but for its last second.  On any history of admin
    requests over the shared store, two accepted requests that carry the same
    event are at least 120 seconds apart and less than 121: the replay entry
    lives as long as twice the tolerance, while the seconds at which an event is
    fresh span one more. *)
Theorem replay_window (s : redis) t0 rs i j a b event :
  in_order t0 rs -> (i < j)%nat ->
  (foldl admin_step (s, []) rs).2 !! i = Some a -> (foldl admin_step (s, []) rs).2 !! j = Some b ->
  request_event a = Some event -> request_event b = Some event -> (0 <= rq_now a)%Z ->
  (120000 <= rq_now b - rq_now a < 121000)%Z.
Proof.
  intros Ho Hij Ha Hb Hea Heb Hpos.
  assert (spaced (foldl admin_step (s, []) rs).2 /\ accepted_ok (foldl admin_step (s, []) rs)) as [Hsp Hok].
  { apply (admin_run_inv rs (s, []) t0 Ho); try by intros x Hx%elem_of_nil. intros ? ? ? ? _ Hi. cbn [snd] in Hi. by rewrite lookup_nil in Hi. }
  assert (replay_key a = replay_key b) as Hk by (unfold replay_key; by rewrite Hea, Heb).
  pose proof (Hsp i j a b Hij Ha Hb Hk) as Hlow. split; [lia|].
  apply list_elem_of_lookup_2 in Ha, Hb.
  destruct (Hok a Ha) as (e1 & p1 & [(c1 & _ & _ & _ & _ & Hn1) _ _ _] & He1).
  destruct (Hok b Hb) as (e2 & p2 & [(c2 & _ & _ & _ & _ & Hn2) _ _ _] & He2).
  assert (e1 = event) as -> by congruence. assert (e2 = event) as -> by congruence.
  destruct Hn1 as [_ _ _ Hf1 _ _ _], Hn2 as [_ _ _ Hf2 _ _ _]. unfold now_secs in *.
  rewrite !Z2N.id in * by (apply Z.div_pos; lia).
  pose proof (Z.div_mod (rq_now a) 1000). pose proof (Z.div_mod (rq_now b) 1000).
  pose proof (Z.mod_pos_bound (rq_now a) 1000). pose proof (Z.mod_pos_bound (rq_now b) 1000). lia.
Qed.
End replay.

(** ** Rate limits *)

(** A fixed-window counter: the count and the end of the open window. *)
Definition Window : Type := option (N * Z).

Record RateRequest := mkRateRequest { rt_env : AuthEnv; rt_repair : option string; rt_now : Z }.
(** The request reaches Redis; its answer comes back. *)
Definition reaches (r : RateRequest) : bool :=
  bool_decide (av_pool (rt_env r) = None) && bool_decide (av_lost_before (rt_env r) = None).
Definition answered (r : RateRequest) : bool := bool_decide (av_lost_after (rt_env r) = None).

Section rate.
Variables (window_secs limit : N).
Let span : Z := (1000 * Z.of_N window_secs)%Z.

Definition count_request (now : Z) (w : Window) : N * Z :=
  match w with
  | Some (n, e) => if (now <? e)%Z then (n + 1, e)%N else (1%N, (now + span)%Z)
  | None => (1%N, (now + span)%Z)
  end.

(** The log holds the time of each admitted request and the start of its window. *)
Definition spec_step (st : Window * list (Z * Z)) (r : RateRequest) : Window * list (Z * Z) :=
  if reaches r then
    let '(n, e) := count_request (rt_now r) st.1 in
    (Some (n, e), if answered r && (n <=? limit)%N then st.2 ++ [(rt_now r, e - span)%Z] else st.2)
  else st.

Fixpoint rate_order (t0 : Z) (rs : list RateRequest) : Prop :=
  match rs with [] => True | r :: rs => (t0 <= rt_now r)%Z /\ rate_order (rt_now r) rs end.

Definition in_window (w : Z) (log : list (Z * Z)) : list (Z * Z) := List.filter (fun x => (x.2 =? w)%Z) log.

Record window_inv (now : Z) (st : Window * list (Z * Z)) : Prop := {
  wn_inside : forall t w, (t, w) ∈ st.2 -> (w <= t < w + span)%Z;
  wn_limit : forall w, (N.of_nat (length (in_window w st.2)) <= limit)%N;
  wn_apart : forall t w t' w', (t, w) ∈ st.2 -> (t', w') ∈ st.2 -> w = w' \/ (w + span <= w')%Z \/ (w' + span <= w)%Z;
  wn_open : match st.1 with
            | None => st.2 = []
            | Some (n, e) => (e - span <= now)%Z /\ (N.of_nat (length (in_window (e - span) st.2)) <= n)%N /\
                forall t w, (t, w) ∈ st.2 -> w = (e - span)%Z \/ (w + span <= e - span)%Z
            end;
}.

Lemma in_window_app w log x :
  length (in_window w (log ++ [x])) = (length (in_window w log) + if (x.2 =? w)%Z then 1 else 0)%nat.
Proof. unfold in_window. rewrite List.filter_app, length_app. cbn. by destruct (x.2 =? w)%Z. Qed.

Lemma in_window_none w log : (forall t v, (t, v) ∈ log -> v <> w) -> in_window w log = [].
Proof.
  unfold in_window. induction log as [|[t v] l IH]; intros Hne; [done|]. cbn.
  destruct (Z.eqb_spec v w) as [E|]; [|apply IH; intros; eapply Hne; by right].
  exfalso. eapply Hne; [by left|done].
Qed.

(** A request that joins window [w], with [n] counted in it so far. *)
Lemma window_join now st r n e :
  (0 < span)%Z -> window_inv now st -> (now <= rt_now r)%Z ->
  (e - span <= rt_now r < e)%Z -> (N.of_nat (length (in_window (e - span) st.2)) + 1 <= n)%N ->
  (forall t w, (t, w) ∈ st.2 -> w = (e - span)%Z \/ (w + span <= e - span)%Z) ->
  window_inv (rt_now r) (Some (n, e), if answered r && (n <=? limit)%N then st.2 ++ [(rt_now r, e - span)%Z] else st.2).
Proof.
  intros Hspan [Hin Hlim Hap Hop] Hle He Hn Htags.
  assert (window_inv (rt_now r) (Some (n, e), st.2)) as Hsame.
  { split; cbn [fst snd]; [done|done|done|]. split_and!; [lia|lia|done]. }
  destruct (answered r && _) eqn:Hb; [|done]. apply andb_prop in Hb as [_ Hlimit%N.leb_le].
  split; cbn [fst snd].
  - intros t w [Ht|[= -> ->]%list_elem_of_singleton]%elem_of_app; [by apply Hin|lia].
  - intros w. rewrite in_window_app. cbn [snd]. destruct (Z.eqb_spec (e - span) w) as [<-|]; [lia|].
    specialize (Hlim w). lia.
  - intros t w t' w' [Ht|[= -> ->]%list_elem_of_singleton]%elem_of_app [Ht'|[= -> ->]%list_elem_of_singleton]%elem_of_app.
    + by eapply Hap.
    + destruct (Htags t w Ht); [by left|right; left; lia].
    + destruct (Htags t' w' Ht'); [left; lia|right; right; lia].
    + by left.
  - split_and!; [lia| |].
    + rewrite in_window_app. cbn [snd]. rewrite Z.eqb_refl. lia.
    + intros t w [Ht|[= -> ->]%list_elem_of_singleton]%elem_of_app; [by apply (Htags t)|by left].
Qed.

Lemma window_inv_step now st r :
  (0 < span)%Z -> window_inv now st -> (now <= rt_now r)%Z -> window_inv (rt_now r) (spec_step st r).
Proof.
  intros Hspan Hinv Hle. pose proof Hinv as [Hin Hlim Hap Hop]. unfold spec_step.
  destruct (reaches r).
  2:{ split; [done|done|done|]. destruct (st.1) as [[n e]|]; [|done]. destruct Hop as (? & ? & ?). split_and!; [lia|done|done]. }
  assert (forall e, (forall t w, (t, w) ∈ st.2 -> (w + span <= e)%Z) -> in_window e st.2 = []) as Hnone.
  { intros e He. apply in_window_none. intros t w Hw ->. specialize (He t e Hw). lia. }
  destruct (st.1) as [[n e]|] eqn:Eo; unfold count_request.
  - destruct Hop as (Hst & Hcnt & Htags). destruct (Z.ltb_spec (rt_now r) e) as [Hlt|Hge].
    + eapply window_join; [done|done|done|lia|lia|done].
    + assert (forall t w, (t, w) ∈ st.2 -> (w + span <= rt_now r)%Z) as Hall.
      { intros t w Hw. destruct (Htags t w Hw); lia. }
      eapply window_join; [done|done|done|lia| |].
      * replace (rt_now r + span - span)%Z with (rt_now r) by lia. rewrite Hnone by done. cbn. lia.
      * intros t w Hw. right. specialize (Hall t w Hw). lia.
  - eapply window_join; [done|done|done|lia| |].
    + rewrite Hop. cbn. lia.
    + rewrite Hop. by intros t w Hw%elem_of_nil.
Qed.

Lemma window_inv_run rs st now :
  (0 < span)%Z -> window_inv now st -> rate_order now rs -> exists now', window_inv now' (foldl spec_step st rs).
Proof.
  intros Hspan. revert st now. induction rs as [|r rs IH]; intros st now Hinv Ho; cbn [foldl]; [eauto|].
  destruct Ho as [Hle Ho]. eapply IH; [|exact Ho]. by eapply window_inv_step.
Qed.

(** Any stretch as long as the window meets at most two windows. *)
Lemma filter_split {A} (f g h : A -> bool) l :
  (forall x, x ∈ l -> f x = true -> g x = true \/ h x = true) ->
  (length (List.filter f l) <= length (List.filter g l) + length (List.filter h l))%nat.
Proof.
  induction l as [|x l IH]; intros Hx; [done|]. cbn.
  specialize (IH (fun y Hy => Hx y ltac:(by right))). pose proof (Hx x ltac:(by left)) as Hh.
  destruct (f x), (g x), (h x); cbn; try lia.
Qed.

Definition between (a : Z) (log : list (Z * Z)) : list (Z * Z) :=
  List.filter (fun x => (a <=? x.1)%Z && (x.1 <? a + span)%Z) log.

Lemma elem_of_between a log t w : (t, w) ∈ between a log <-> (t, w) ∈ log /\ (a <= t < a + span)%Z.
Proof.
  unfold between. rewrite !list_elem_of_In, filter_In, andb_true_iff, Z.leb_le, Z.ltb_lt. done.
Qed.

Lemma two_windows now st a :
  (0 < span)%Z -> window_inv now st -> (N.of_nat (length (between a st.2)) <= 2 * limit)%N.
Proof.
  intros Hspan [Hin Hlim Hap _].
  destruct (between a st.2) as [|[t1 w1] rest] eqn:Eb; [cbn; lia|].
  assert ((t1, w1) ∈ st.2 /\ (a <= t1 < a + span)%Z) as [Hi1 Ht1] by (apply elem_of_between; rewrite Eb; by left).
  pose proof (Hin _ _ Hi1) as Hw1.
  (* the other windows that occur, if any, are all the same *)
  destruct (List.find (fun x => negb (x.2 =? w1)%Z) (between a st.2)) as [[t2 w2]|] eqn:Ef.
  - apply find_some in Ef as [Hb2 Hne%negb_true_iff]. cbn in Hne. apply Z.eqb_neq in Hne.
    apply list_elem_of_In, elem_of_between in Hb2 as [Hi2 Ht2]. pose proof (Hin _ _ Hi2) as Hw2.
    rewrite <- Eb. pose proof (Hlim w1). pose proof (Hlim w2).
    enough (length (between a st.2) <= length (in_window w1 st.2) + length (in_window w2 st.2))%nat by lia.
    unfold between, in_window. apply filter_split.
    intros [t w] Hx Hb. cbn in *. apply andb_prop in Hb as [Hb1%Z.leb_le Hb2%Z.ltb_lt].
    pose proof (Hin _ _ Hx) as Hw. rewrite !Z.eqb_eq.
    destruct (Hap _ _ _ _ Hx Hi1) as [|[|]]; [by left|..]; destruct (Hap _ _ _ _ Hx Hi2) as [|[|]]; try (by right);
      destruct (Hap _ _ _ _ Hi1 Hi2) as [|[|]]; lia.
  - assert (length (between a st.2) <= length (in_window w1 st.2))%nat as Hle.
    { etrans; [apply (filter_split _ (fun x => (x.2 =? w1)%Z) (fun _ => false))|].
      - intros x Hx Hb. left. destruct (x.2 =? w1)%Z eqn:E; [done|]. exfalso.
        assert (In x (between a st.2)) as Hib by (apply filter_In; split; [by apply list_elem_of_In|done]).
        apply (find_none _ _ Ef) in Hib. cbn in Hib. by rewrite E in Hib.
      - assert (forall l : list (Z * Z), List.filter (fun _ => false) l = []) as -> by (by induction l).
        unfold in_window. cbn. lia. }
    rewrite <- Eb. specialize (Hlim w1). lia.
Qed.

(** ** The limiter follows the counter *)

Context `{NostrLib, AuthLib, RedisMoreLaws, !RedisLaws}.
Variable key : string.

(** One request on the shared store; the times of the admitted ones are listed. *)
Definition rate_step (st : redis * list Z) (r : RateRequest) : redis * list Z :=
  match run_rate_limit (rt_env r) (rt_repair r) (rt_now r) key window_secs limit st.1 with
  | (s, Ok res) => (s, if rl_allowed res then st.2 ++ [rt_now r] else st.2)
  | (s, Err _) => (s, st.2)
  end.

Definition shows_window (s : redis) (now : Z) (w : Window) : Prop :=
  match w with
  | None => steady s now key None
  | Some (n, e) => expiring s now key (to_decimal n) e
  end.
Definition window_count (w : Window) : N := match w with Some (n, _) => n | None => 0 end.

Lemma shows_later s now now' w : (now <= now')%Z -> shows_window s now w -> shows_window s now' w.
Proof. intros Hle. destruct w as [[n e]|]; intros Hs t Ht; apply Hs; lia. Qed.

Lemma script_opens s now :
  (0 < span)%Z -> steady s now key None ->
  exists s' ttl, rate_limit_script now key (Z.of_N window_secs) s = Ok (s', (1%N, ttl)) /\ (0 <= ttl)%Z /\
    expiring s' now key (to_decimal 1) (now + span).
Proof.
  intros Hspan Hs. destruct (incr_absent _ _ _ Hs) as (s1 & Hi & Hs1 & _).
  pose proof (pexpire_key s1 now key _ span (Hs1 now ltac:(lia))) as He.
  eexists _, _. unfold rate_limit_script. rewrite Hi. cbn [N.eqb Pos.eqb]. split_and!; [done| |done].
  eapply ttl_expiring; [exact He|lia].
Qed.

(** The script counts the request in the open window, or opens one. *)
Lemma script_counts s now w :
  (0 < span)%Z -> shows_window s now w -> (window_count w + 1 < 2 ^ 63)%N ->
  (forall n e, w = Some (n, e) -> (1 <= n)%N) ->
  exists s' ttl, rate_limit_script now key (Z.of_N window_secs) s = Ok (s', ((count_request now w).1, ttl)) /\
    (0 <= ttl)%Z /\ shows_window s' now (Some (count_request now w)).
Proof.
  intros Hspan Hs Hmax Hpos. destruct w as [[n e]|]; cbn [shows_window window_count count_request] in *.
  2: by apply script_opens.
  destruct (Z.ltb_spec now e) as [Hlt|Hge].
  - destruct (incr_expiring _ _ _ _ _ Hs Hlt Hmax) as (s1 & Hi & Hs1 & _). specialize (Hpos _ _ eq_refl).
    eexists _, _. unfold rate_limit_script. rewrite Hi, (proj2 (N.eqb_neq (n + 1) 1)) by lia.
    split_and!; [done|by eapply ttl_expiring|done].
  - apply script_opens; [done|]. intros t Ht. rewrite (Hs t Ht). by rewrite (proj2 (Z.ltb_ge t e)) by lia.
Qed.

Record follows (now : Z) (st : redis * list Z) (sp : Window * list (Z * Z)) : Prop := {
  fo_window : shows_window st.1 now sp.1;
  fo_log : st.2 = sp.2.*1;
  fo_counted : forall n e, sp.1 = Some (n, e) -> (1 <= n)%N;
}.

Lemma count_request_bound now w : ((count_request now w).1 <= window_count w + 1)%N.
Proof. destruct w as [[n e]|]; cbn; [destruct (now <? e)%Z; cbn; lia|lia]. Qed.
Lemma count_request_pos now w : (1 <= (count_request now w).1)%N.
Proof. destruct w as [[n e]|]; cbn; [destruct (now <? e)%Z; cbn; lia|lia]. Qed.

Lemma follows_step now st sp r :
  (0 < span)%Z -> follows now st sp -> (now <= rt_now r)%Z -> (window_count sp.1 + 1 < 2 ^ 63)%N ->
  follows (rt_now r) (rate_step st r) (spec_step sp r).
Proof.
  intros Hspan [Hw Hlog Hpos] Hle Hmax. apply (shows_later _ _ _ _ Hle) in Hw.
  unfold rate_step, spec_step, run_rate_limit, reaches, answered.
  destruct (av_pool (rt_env r)); [by split|]. destruct (av_lost_before (rt_env r)); [by split|]. cbn [bool_decide].
  destruct (script_counts _ _ _ Hspan Hw Hmax Hpos) as (s' & ttl & -> & Ht & Hs').
  pose proof (count_request_pos (rt_now r) sp.1) as Hp.
  rewrite !bool_decide_eq_true_2 by done. cbn [andb].
  destruct (count_request (rt_now r) sp.1) as [n e]. cbn [fst snd] in *.
  destruct (av_lost_after (rt_env r)) as [m|].
  - rewrite bool_decide_eq_false_2 by done. split; cbn [fst snd andb]; [done|done|]. by intros ? ? [= <- <-].
  - rewrite bool_decide_eq_true_2, (proj2 (Z.ltb_ge ttl 0)) by (done || lia). cbn [andb rl_allowed].
    split; cbn [fst snd]; [done| |by intros ? ? [= <- <-]].
    destruct (n <=? limit)%N; [|done]. by rewrite fmap_app, Hlog.
Qed.

Lemma spec_count_step sp r : (window_count (spec_step sp r).1 <= window_count sp.1 + 1)%N.
Proof.
  unfold spec_step. destruct (reaches r); [|lia]. pose proof (count_request_bound (rt_now r) sp.1).
  by destruct (count_request _ _).
Qed.

Lemma follows_run rs now st sp :
  (0 < span)%Z -> follows now st sp -> rate_order now rs ->
  (window_count sp.1 + N.of_nat (length rs) < 2 ^ 63)%N ->
  exists now', follows now' (foldl rate_step st rs) (foldl spec_step sp rs).
Proof.
  intros Hspan. revert now st sp. induction rs as [|r rs IH]; intros now st sp Hf Ho Hmax; cbn [foldl]; [eauto|].
  destruct Ho as [Hle Ho]. cbn [length] in Hmax. pose proof (spec_count_step sp r).
  eapply IH; [eapply follows_step; [done..|lia]|done|lia].
Qed.

Lemma between_times a log :
  length (List.filter (fun t => (a <=? t)%Z && (t <? a + span)%Z) log.*1) = length (between a log).
Proof.
  unfold between. induction log as [|[t w] l IH]; [done|]. cbn. destruct (_ && _); cbn; by rewrite IH.
Qed.

(** What a rate limit promises.  Whatever requests arrive, and however Redis
    loses some of their calls or answers, the limiter admits exactly the requests
    the fixed-window counter admits, at most [limit] in each window, and so at
    most twice [limit] in any stretch as long as the window. *)
Theorem rate_limit_bound (s : redis) t0 rs :
  (0 < window_secs)%N -> steady s t0 key None -> rate_order t0 rs -> (N.of_nat (length rs) < 2 ^ 63)%N ->
  let admitted := (foldl rate_step (s, []) rs).2 in
  let log := (foldl spec_step (None, []) rs).2 in
  admitted = log.*1 /\
  (forall w, (N.of_nat (length (in_window w log)) <= limit)%N) /\
  (forall a, (N.of_nat (length (List.filter (fun t => (a <=? t)%Z && (t <? a + span)%Z) admitted)) <= 2 * limit)%N).
Proof.
  intros Hw Hs Ho Hmax admitted log. assert (0 < span)%Z as Hspan by (unfold span; lia).
  assert (follows t0 (s, []) (None, [])) as Hf0 by by split.
  destruct (follows_run rs _ _ _ Hspan Hf0 Ho) as (n1 & Hf); [cbn; lia|].
  assert (window_inv t0 (None, [])) as Hi0.
  { split; cbn; [by intros ? ? ?%elem_of_nil|lia|by intros ? ? ? ? ?%elem_of_nil|done]. }
  destruct (window_inv_run rs _ _ Hspan Hi0 Ho) as (n2 & Hi).
  assert (admitted = log.*1) as Hlog by apply (fo_log _ _ _ Hf).
  split_and!; [done|apply (wn_limit _ _ Hi)|]. intros a. rewrite Hlog, between_times. by eapply two_windows.
Qed.
End rate.

(** * Concrete stores, events and requests at which the authentication theorems
    apply, and the history in which one event is let in twice. *)

From S2P Require Import MeshWire DirectoryRun.

#[local] Existing Instances Sample.lib SampleHex.lib SampleRedis.lib SampleRedis.laws.

Module SampleAuth.
(** An event id is the digest of the other fields; every signature is good. *)
#[export] Instance lib : AuthLib := {|
  verify_id e := (ev_id e =? ev_created_at e + ev_pubkey e)%N;
  verify_signature _ := true;
  event_from_str j :=
    if String.eqb j "signed"
    then Ok (mkEvent 1042 42 1000 27235
               [["u"; "https://admin.example/api/admin/v1/reports"]; ["method"; "GET"]] "")
    else Err "bad json";
  url := string;
  url_parse s := Some s;
  url_path _ := "/";
  url_set_path _ u := u;
  url_host_str _ := None;
  url_set_host _ u := u;
  url_to_string u := u;
  to_lowercase s := s;
  auth_pubkey_hex := to_decimal;
|}.
#[export] Instance sha : Sha256Lib := {| sha256_digest m := m |}.
#[export] Instance admin : AdminLib := {| base64_utf8 s := Some s; pubkey_to_bytes := to_decimal |}.

#[export] Instance redis_more : RedisMore := {|
  r_set_nx s now k v ttl :=
    match SampleRedis.answer (s !! k) now with
    | Some _ => (s, false)
    | None => (<[k := (v, Some (now + ttl)%Z)]> s, true)
    end;
  r_ttl s now k :=
    match s !! k with
    | Some (_, None) => (-1)%Z
    | Some (_, Some e) => if (now <? e)%Z then ((e - now + 500) / 1000)%Z else (-2)%Z
    | None => (-2)%Z
    end;
|}.

Lemma expiring_entry (s : gmap string (string * option Z)) now k v e :
  expiring (H := SampleRedis.lib) s now k v e -> (now < e)%Z -> s !! k = Some (v, Some e).
Proof.
  intros Hs Hlt. pose proof (Hs now (Z.le_refl now)) as Hn. cbn in Hn. rewrite (proj2 (Z.ltb_lt now e) Hlt) in Hn.
  destruct (s !! k) as [[v' [e'|]]|] eqn:E; cbn in Hn; [| |done].
  - destruct (Z.ltb_spec now e'); [|done]. simplify_eq. do 3 f_equal.
    pose proof (Hs e (Z.lt_le_incl _ _ Hlt)) as He. cbn in He. rewrite E, Z.ltb_irrefl in He. cbn in He.
    pose proof (Hs e' ltac:(lia)) as He'. cbn in He'. rewrite E in He'. cbn in He'. rewrite Z.ltb_irrefl in He'.
    destruct (Z.ltb_spec e e'); [done|]. destruct (Z.ltb_spec e' e); [done|lia].
  - exfalso. pose proof (Hs e (Z.lt_le_incl _ _ Hlt)) as He. cbn in He. rewrite E, Z.ltb_irrefl in He. done.
Qed.

#[export] Instance redis_more_laws : RedisMoreLaws.
Proof.
  split.
  - intros s now k v v' ttl Hg. cbn in *. by rewrite Hg.
  - intros s now k v ttl Hg. cbn in *. rewrite Hg. eexists. split_and!; [done| |].
    + intros t _. cbn. by rewrite lookup_insert_eq.
    + intros k' Hk t _. cbn. by rewrite lookup_insert_ne.
  - intros s now k n e Hs Hlt Hn. apply expiring_entry in Hs; [|done]. eexists. split_and!.
    + cbn. unfold SampleRedis.incr. rewrite Hs. cbn. rewrite (proj2 (Z.ltb_lt now e) Hlt).
      unfold parse_u64. rewrite parse_uint_to_decimal by lia. by rewrite (proj2 (N.ltb_lt _ _) Hn).
    + intros t _. cbn. by rewrite lookup_insert_eq.
    + intros k' Hk t _. cbn. by rewrite lookup_insert_ne.
  - intros s now k v e Hs Hlt. apply expiring_entry in Hs; [|done]. cbn. rewrite Hs, (proj2 (Z.ltb_lt now e) Hlt).
    apply Z.div_pos; lia.
Qed.

Definition config : AdminConfig := mkAdminConfig "admin.example" AuthNip98.
Definition cfg : Config := mkConfig (Some config) [hex_encode (to_decimal 42)] None.
Definition db : OperatorLookup := fun _ => Ok None.
Definition headers : HeaderMap := mkHeaderMap (Some "admin.example") [Some "Nostr signed"] None.
Definition empty : redis := (∅ : gmap string (string * option Z)).
Definition operator : AdminPrincipal := mkAdminPrincipal (to_decimal 42) Operator SourceConfig.
Definition first : redis := (authorize auth_healthy 940000 cfg db headers "/reports" "GET" None empty).1.

Lemma first_accepted :
  authorize auth_healthy 940000 cfg db headers "/reports" "GET" None empty = (first, Ok (Some operator)).
Proof. apply pair_eq. split; [reflexivity|vm_compute; reflexivity]. Qed.

(** The same event, in its first millisecond of validity and, 120.5 seconds
    later, in its last second. *)
Definition use (t : Z) : AdminRequest := mkAdminRequest auth_healthy t headers "/reports" "GET" None.
Definition uses : list AdminRequest := [use 940000; use 1059999; use 1060500].

Example event_used_twice :
  rq_now <$> (foldl (admin_step cfg db) (empty, []) uses).2 = [940000; 1060500]%Z.
Proof. vm_compute. reflexivity. Qed.

Lemma uses_accepted :
  (foldl (admin_step cfg db) (empty, []) uses).2 !! 0%nat = Some (use 940000) /\
  (foldl (admin_step cfg db) (empty, []) uses).2 !! 1%nat = Some (use 1060500).
Proof. split; vm_compute; reflexivity. Qed.

(** Two a minute; one reply is lost, so the third request of the window is
    refused, and a new window opens. *)
Definition ask (t : Z) : RateRequest := mkRateRequest auth_healthy None t.
Definition asks : list RateRequest :=
  [ask 0; mkRateRequest (mkAuthEnv None None (Some "lost")) None 10; ask 20; ask 60000; ask 60001; ask 60002].

Example asks_admitted :
  (foldl (rate_step 60 2 "k") (empty, []) asks).2 = [0; 60000; 60001]%Z.
Proof. vm_compute. reflexivity. Qed.
End SampleAuth.

Import SampleAuth.

Lemma admin_gate_exact_witness :
  (forall q, (Ok (Some operator) : result _ ApiError) = Ok q <-> exists event p, q = Some p /\
     admissible_request 940000 cfg db headers "/reports" "GET" None event p /\
     try_mark_in_scope auth_healthy 940000 ADMIN_REPLAY_SCOPE (ev_id event) DEFAULT_REPLAY_TTL_SECS empty = (first, Ok true)) /\
  exists event p, admissible_request 940000 cfg db headers "/reports" "GET" None event p.
Proof.
  destruct (admin_gate_exact auth_healthy 940000 cfg config db headers "/reports" "GET" None empty first (Ok (Some operator))
              eq_refl first_accepted) as [Hok _].
  split; [exact Hok|]. destruct (proj1 (Hok (Some operator)) eq_refl) as (event & p & _ & Hadm & _). exists event, p. exact Hadm.
Defined.

Lemma replay_window_witness :
  (120000 <= 1060500 - 940000 < 121000)%Z.
Proof.
  apply (replay_window cfg config db (conj eq_refl eq_refl) empty 0 uses 0 1 (use 940000) (use 1060500)
           (mkEvent 1042 42 1000 27235 [["u"; "https://admin.example/api/admin/v1/reports"]; ["method"; "GET"]] ""));
    [cbn; lia|lia|apply uses_accepted|apply uses_accepted|reflexivity|reflexivity|cbn; lia].
Defined.

Lemma rate_limit_bound_witness :
  (foldl (rate_step 60 2 "k") (empty, []) asks).2 = (foldl (spec_step 60 2) (None, []) asks).2.*1 /\
  (forall w, (N.of_nat (length (in_window w (foldl (spec_step 60 2) (None, []) asks).2)) <= 2)%N) /\
  (forall a, (N.of_nat (length (List.filter (fun t => (a <=? t)%Z && (t <? a + 60000)%Z)
     (foldl (rate_step 60 2 "k") (empty, []) asks).2)) <= 4)%N).
Proof.
  apply (rate_limit_bound 60 2 "k" empty 0 asks); [lia|by intros t _|cbn; lia|cbn; lia].
Defined.
