(* ===== verification/RustStr.v ===== *)
(** The parts of Rust's [str] that the later components use: UTF-8 validity,
    Unicode white space, lines and splitting.  A [str] is the string of its
    UTF-8 bytes. *)

From S2P Require Import Prelude.

(** ** UTF-8 *)

Definition byte_in (lo hi : N) (c : ascii) : bool := (lo <=? N_of_ascii c)%N && (N_of_ascii c <=? hi)%N.
Definition continuation : ascii -> bool := byte_in 128 191.

(** [std::str::from_utf8(b).is_ok()]: well-formed sequences of one to four bytes,
    without overlong forms and surrogates. *)
Fixpoint utf8_valid (s : string) : bool :=
  match s with
  | EmptyString => true
  | String a s =>
      if byte_in 0 127 a then utf8_valid s
      else
        match s with
        | EmptyString => false
        | String b s =>
            if byte_in 194 223 a then continuation b && utf8_valid s
            else
              match s with
              | EmptyString => false
              | String c s =>
                  if byte_in 224 239 a then
                    (if byte_in 224 224 a then byte_in 160 191 b
                     else if byte_in 237 237 a then byte_in 128 159 b else continuation b)
                    && continuation c && utf8_valid s
                  else
                    match s with
                    | EmptyString => false
                    | String d s =>
                        byte_in 240 244 a &&
                        (if byte_in 240 240 a then byte_in 144 191 b
                         else if byte_in 244 244 a then byte_in 128 143 b else continuation b)
                        && continuation c && continuation d && utf8_valid s
                    end
              end
        end
  end.

(** [str::from_utf8] *)
Definition from_utf8 (s : string) : option string := if utf8_valid s then Some s else None.

(** ** White space *)

(** The characters with the property White_Space, by the length of their encoding. *)
Definition space1 (a : ascii) : bool := byte_in 9 13 a || byte_in 32 32 a.
Definition space2 (a b : ascii) : bool := byte_in 194 194 a && (byte_in 133 133 b || byte_in 160 160 b).
Definition space3 (a b c : ascii) : bool :=
  (byte_in 225 225 a && byte_in 154 154 b && byte_in 128 128 c)
  || (byte_in 226 226 a && byte_in 128 128 b
      && (byte_in 128 138 c || byte_in 168 169 c || byte_in 175 175 c))
  || (byte_in 226 226 a && byte_in 129 129 b && byte_in 159 159 c)
  || (byte_in 227 227 a && byte_in 128 128 b && byte_in 128 128 c).

Fixpoint trim_start (s : string) : string :=
  match s with
  | EmptyString => EmptyString
  | String a s1 =>
      if space1 a then trim_start s1
      else
        match s1 with
        | EmptyString => s
        | String b s2 =>
            if space2 a b then trim_start s2
            else
              match s2 with
              | EmptyString => s
              | String c s3 => if space3 a b c then trim_start s3 else s
              end
        end
  end.

(** The same from the end, on the reversed bytes. *)
Fixpoint trim_start_rev (s : string) : string :=
  match s with
  | EmptyString => EmptyString
  | String a s1 =>
      if space1 a then trim_start_rev s1
      else
        match s1 with
        | EmptyString => s
        | String b s2 =>
            if space2 b a then trim_start_rev s2
            else
              match s2 with
              | EmptyString => s
              | String c s3 => if space3 c b a then trim_start_rev s3 else s
              end
        end
  end.

Fixpoint rev_append (s acc : string) : string :=
  match s with EmptyString => acc | String a s => rev_append s (String a acc) end.
Definition string_rev (s : string) : string := rev_append s "".
Definition trim_end (s : string) : string := string_rev (trim_start_rev (string_rev s)).
(** [str::trim] *)
Definition trim (s : string) : string := trim_end (trim_start s).

(** ** Suffixes, lines, splitting *)

(** [str::strip_suffix] *)
Definition strip_suffix (p s : string) : option string :=
  match strip_prefix (string_rev p) (string_rev s) with
  | Some r => Some (string_rev r)
  | None => None
  end.
(** [str::ends_with] *)
Definition has_suffix (p s : string) : bool := starts_with (string_rev p) (string_rev s).

Definition carriage_return : ascii := ascii_of_N 13.
Definition line_feed : ascii := ascii_of_N 10.
Definition strip_cr (s : string) : string := default s (strip_suffix (String carriage_return "") s).

(** [str::lines]: split at line feeds, without a last empty piece, each piece
    without a carriage return at its end. *)
Definition lines (s : string) : list string :=
  let pieces := split_on line_feed s in
  strip_cr <$> (if bool_decide (last pieces = Some "") then removelast pieces else pieces).

(** [str::split_once] with a character; [splitn(2, c)] yields two pieces exactly
    when it succeeds. *)
Fixpoint split_once (c : ascii) (s : string) : option (string * string) :=
  match s with
  | EmptyString => None
  | String a s =>
      if Ascii.eqb a c then Some (EmptyString, s)
      else match split_once c s with Some (x, y) => Some (String a x, y) | None => None end
  end.

(** [chars().take(n)]: a character starts at every byte that does not continue one. *)
Fixpoint take_chars (n : nat) (s : string) : string :=
  match s with
  | EmptyString => EmptyString
  | String c s' =>
      if continuation c then String c (take_chars n s')
      else match n with O => EmptyString | S n => String c (take_chars n s') end
  end.

(** [Vec::dedup]: equal neighbours are merged. *)
Fixpoint dedup (l : list string) : list string :=
  match l with
  | [] => []
  | x :: l =>
      match l with
      | y :: _ => if String.eqb x y then dedup l else x :: dedup l
      | [] => [x]
      end
  end.
(** [Vec::sort] on strings *)
Definition sort_strings : list string -> list string := sort_by String.leb.

(** ** Lemmas *)

Lemma rev_append_app s acc : rev_append s acc = string_rev s +:+ acc.
Proof.
  unfold string_rev. revert acc. induction s as [|a s IH]; intros acc; [done|]. cbn [rev_append].
  rewrite IH, (IH (String a "")), string_app_assoc. done.
Qed.
Lemma string_rev_cons a s : string_rev (String a s) = string_rev s +:+ String a "".
Proof. unfold string_rev at 1. cbn. apply rev_append_app. Qed.
Lemma string_rev_app s t : string_rev (s +:+ t) = string_rev t +:+ string_rev s.
Proof.
  induction s as [|a s IH]; [by rewrite string_app_nil_l, string_app_nil_r|].
  rewrite string_app_cons, !string_rev_cons, IH. apply string_app_assoc.
Qed.
Lemma string_rev_involutive s : string_rev (string_rev s) = s.
Proof.
  induction s as [|a s IH]; [done|]. rewrite string_rev_cons, string_rev_app, IH. done.
Qed.
Lemma string_rev_length s : String.length (string_rev s) = String.length s.
Proof. induction s as [|a s IH]; [done|]. rewrite string_rev_cons, string_length_app, IH. cbn. lia. Qed.

Lemma all_chars_app f s t : all_chars f (s +:+ t) = all_chars f s && all_chars f t.
Proof.
  induction s as [|a s IH]; [by rewrite string_app_nil_l|]. rewrite string_app_cons. cbn. rewrite IH. apply andb_assoc.
Qed.
Lemma all_chars_rev f s : all_chars f (string_rev s) = all_chars f s.
Proof.
  induction s as [|a s IH]; [done|]. rewrite string_rev_cons, all_chars_app, IH. cbn.
  by rewrite andb_true_r, andb_comm.
Qed.
Lemma all_chars_weaken f g s : (forall c, f c = true -> g c = true) -> all_chars f s = true -> all_chars g s = true.
Proof.
  intros Hfg. induction s as [|a s IH]; [done|]. cbn. rewrite !andb_true_iff. intros [??]; auto.
Qed.

Lemma strip_suffix_Some p s r : strip_suffix p s = Some r <-> s = r +:+ p.
Proof.
  unfold strip_suffix. split.
  - destruct (strip_prefix _ _) as [r'|] eqn:E; [|done]. intros [= <-]. apply strip_prefix_Some in E.
    rewrite <- (string_rev_involutive s), E, string_rev_app, string_rev_involutive. done.
  - intros ->. rewrite string_rev_app.
    rewrite (proj2 (strip_prefix_Some (string_rev p) _ (string_rev r)) eq_refl), string_rev_involutive. done.
Qed.
Lemma has_suffix_spec p s : has_suffix p s = true <-> exists r, s = r +:+ p.
Proof.
  unfold has_suffix. rewrite starts_with_spec. split.
  - intros (r & E). exists (string_rev r). by rewrite <- (string_rev_involutive s), E, string_rev_app, string_rev_involutive.
  - intros (r & ->). exists (string_rev r). apply string_rev_app.
Qed.

(** Printable ASCII has no white space, and is UTF-8. *)
Definition graphic : ascii -> bool := byte_in 33 126.

Lemma graphic_bytes a lo hi : graphic a = true -> (126 < lo)%N -> byte_in lo hi a = false.
Proof.
  unfold graphic, byte_in. rewrite andb_true_iff, !N.leb_le. intros [??] ?.
  rewrite (proj2 (N.leb_gt lo (N_of_ascii a))) by lia. done.
Qed.
Lemma graphic_space1 a : graphic a = true -> space1 a = false.
Proof.
  unfold graphic, space1, byte_in. rewrite andb_true_iff, !N.leb_le. intros [??].
  rewrite (proj2 (N.leb_gt (N_of_ascii a) 13)), (proj2 (N.leb_gt (N_of_ascii a) 32)) by lia.
  by rewrite !andb_false_r.
Qed.
Lemma graphic_space2 a b : graphic a = true -> space2 a b = false.
Proof. intros Ha. unfold space2. by rewrite (graphic_bytes a 194) by (done || lia). Qed.
Lemma graphic_space2' a b : graphic b = true -> space2 a b = false.
Proof.
  intros Hb. unfold space2. rewrite (graphic_bytes b 133), (graphic_bytes b 160) by (done || lia). apply andb_false_r.
Qed.
Lemma graphic_space3 a b c : graphic a = true -> space3 a b c = false.
Proof.
  intros Ha. unfold space3. by rewrite (graphic_bytes a 225), (graphic_bytes a 226), (graphic_bytes a 227) by (done || lia).
Qed.
Lemma graphic_space3' a b c : graphic c = true -> space3 a b c = false.
Proof.
  intros Hc. unfold space3.
  rewrite (graphic_bytes c 128 128), (graphic_bytes c 128 138), (graphic_bytes c 168), (graphic_bytes c 175),
    (graphic_bytes c 159) by (done || lia).
  by rewrite !andb_false_r.
Qed.

Lemma trim_graphic s : all_chars graphic s = true -> trim s = s.
Proof.
  intros Hs. unfold trim.
  assert (trim_start s = s) as ->.
  { destruct s as [|a s]; [done|]. cbn in Hs. apply andb_prop in Hs as [Ha _]. cbn. rewrite graphic_space1 by done.
    destruct s as [|b s]; [done|]. rewrite graphic_space2 by done. destruct s; [done|]. by rewrite graphic_space3. }
  unfold trim_end. rewrite <- all_chars_rev in Hs.
  destruct (string_rev s) as [|a r] eqn:E; [by rewrite <- (string_rev_involutive s), E|].
  cbn in Hs. apply andb_prop in Hs as [Ha _]. cbn. rewrite graphic_space1 by done.
  rewrite <- (string_rev_involutive s), E.
  destruct r as [|b r]; [done|]. rewrite graphic_space2' by done. destruct r; [done|]. by rewrite graphic_space3'.
Qed.

Lemma ascii_utf8 s : all_chars (byte_in 0 127) s = true -> utf8_valid s = true.
Proof. induction s as [|a s IH]; [done|]. cbn. rewrite andb_true_iff. intros [-> ?]. by apply IH. Qed.

Lemma graphic_ascii c : graphic c = true -> byte_in 0 127 c = true.
Proof. unfold graphic, byte_in. rewrite !andb_true_iff, !N.leb_le. lia. Qed.
Lemma hexdigit_graphic c : is_ascii_hexdigit c = true -> graphic c = true.
Proof. by destruct c as [[][][][][][][][]]. Qed.

Lemma hex_plain s : all_chars is_ascii_hexdigit s = true -> trim s = s /\ from_utf8 s = Some s.
Proof.
  intros Hs%(all_chars_weaken _ graphic); [|apply hexdigit_graphic]. split; [by apply trim_graphic|].
  unfold from_utf8. rewrite ascii_utf8; [done|]. eapply all_chars_weaken, Hs. apply graphic_ascii.
Qed.

(** Sorting and merging neighbours keeps the elements, once each. *)
Lemma elem_of_dedup l x : x ∈ dedup l <-> x ∈ l.
Proof.
  induction l as [|y l IH]; [done|]. destruct l as [|z l]; [done|].
  change (dedup (y :: z :: l)) with (if String.eqb y z then dedup (z :: l) else y :: dedup (z :: l)).
  destruct (String.eqb_spec y z) as [->|Hne].
  - rewrite IH. set_solver.
  - rewrite !(elem_of_cons _ x y), IH. done.
Qed.
Lemma dedup_NoDup l : NoDup l -> dedup l = l.
Proof.
  induction l as [|x l IH]; [done|]. intros [Hx Hl]%NoDup_cons. destruct l as [|y l]; [done|].
  change (dedup (x :: y :: l)) with (if String.eqb x y then dedup (y :: l) else x :: dedup (y :: l)).
  destruct (String.eqb_spec x y) as [->|]; [set_solver|]. by rewrite IH.
Qed.
Lemma sorted_dedup l :
  StronglySorted (fun a b => String.leb a b = true) l ->
  StronglySorted (fun a b => String.leb a b = true) (dedup l) /\ NoDup (dedup l).
Proof.
  induction l as [|x l IH]; intros Hs; [split; constructor|]. apply StronglySorted_inv in Hs as [Hs Hx].
  destruct l as [|y l]; [split; [by repeat constructor|apply NoDup_singleton]|].
  change (dedup (x :: y :: l)) with (if String.eqb x y then dedup (y :: l) else x :: dedup (y :: l)).
  destruct (IH Hs) as [IHs IHn]. destruct (String.eqb_spec x y) as [->|Hne]; [done|]. split.
  - constructor; [done|]. apply Forall_forall. intros z Hz%(proj1 (elem_of_dedup _ _)). rewrite Forall_forall in Hx. by apply Hx.
  - apply NoDup_cons. split; [|done]. intros Hin%(proj1 (elem_of_dedup _ _)).
    apply StronglySorted_inv in Hs as [_ Hy]. apply elem_of_cons in Hin as [->|Hin]; [done|].
    rewrite Forall_forall in Hy. specialize (Hy _ Hin). apply Forall_cons in Hx as [Hxy _].
    apply Hne. apply String.leb_antisym; done.
Qed.

Definition pack_list (l : list string) : list string := dedup (sort_strings l).
Lemma elem_of_pack_list l x : x ∈ pack_list l <-> x ∈ l.
Proof. unfold pack_list, sort_strings. by rewrite elem_of_dedup, elem_of_sort_by. Qed.
Lemma pack_list_idemp l : pack_list (pack_list l) = pack_list l.
Proof.
  unfold pack_list at 1. unfold sort_strings.
  assert (StronglySorted (fun a b => String.leb a b = true) (sort_strings l)) as Hs.
  { apply sort_by_sorted; [intros a b; destruct (String.leb_total a b); auto|apply string_leb_trans]. }
  destruct (sorted_dedup _ Hs) as [Hd Hn]. rewrite sort_by_id by done. by apply dedup_NoDup.
Qed.
Lemma length_dedup l : (length (dedup l) <= length l)%nat.
Proof.
  induction l as [|x l IH]; [done|]. destruct l as [|y l]; [done|].
  change (dedup (x :: y :: l)) with (if String.eqb x y then dedup (y :: l) else x :: dedup (y :: l)).
  destruct (String.eqb x y); cbn [length] in *; lia.
Qed.
Lemma length_pack_list l : (length (pack_list l) <= length l)%nat.
Proof. unfold pack_list. etrans; [apply length_dedup|]. unfold sort_strings. by rewrite length_sort_by. Qed.
