(* ===== verification/GitManifest.v ===== *)
(** Manifests of repositories kept in object storage,
    buzz-relay/src/api/git/manifest.rs, and the ref-state announcement derived
    from one, manifest_event.rs. *)

From S2P Require Import Prelude Nostr RustStr.

Definition MANIFEST_VERSION : N := 1.
Definition MAX_MANIFEST_PACKS : nat := 128.
Definition PACK_COMPACTION_THRESHOLD : nat := MAX_MANIFEST_PACKS * 3 / 4.
Definition MAX_MANIFEST_REFS : N := 10000.

Record Manifest := mkManifest {
  mf_version : N;
  mf_head : string;
  mf_refs : gmap string string;
  mf_packs : list string;
  mf_parent : option string;
}.

Inductive ManifestError :=
| Serde
| UnsupportedVersion (got expected : N)
| UnsafeRefName (name : string)
| MalformedOid (refname oid : string)
| EmptyHead
| MalformedParent (p : string)
| TooManyPacks (got max : N)
| TooManyRefs (got max : N)
| MalformedPackKey (key : string).

(** ** Predicates *)

Definition is_ascii_alphanumeric (c : ascii) : bool := byte_in 48 57 c || byte_in 65 90 c || byte_in 97 122 c.
Definition refname_char (c : ascii) : bool :=
  is_ascii_alphanumeric c || Ascii.eqb c "/" || Ascii.eqb c "_" || Ascii.eqb c "." || Ascii.eqb c "-".

Definition is_safe_refname (s : string) : bool :=
  if negb (starts_with "refs/" s) then false
  else if contains_str ".." s || contains_str "//" s || starts_with "/" s || has_suffix "/" s then false
  else all_chars refname_char s.

Definition is_hex_oid (s : string) : bool :=
  (bool_decide (String.length s = 40%nat) || bool_decide (String.length s = 64%nat)) && all_chars is_ascii_hexdigit s.

Definition lower_hex_char (c : ascii) : bool := byte_in 48 57 c || byte_in 97 102 c.
Definition is_manifest_digest (s : string) : bool :=
  bool_decide (String.length s = 64%nat) && all_chars lower_hex_char s.

Definition is_pack_key (s : string) : bool :=
  match strip_prefix "packs/" s with Some d => is_manifest_digest d | None => false end.

Section keys.
Context `{NostrLib}.
Definition pointer_key (community : CommunityId) (owner repo : string) : string :=
  let repo := default repo (strip_suffix ".git" repo) in
  "repos/" +:+ uuid_to_string (as_uuid community) +:+ "/" +:+ owner +:+ "/" +:+ repo +:+ "/pointer".
End keys.

(** ** Validation *)

(** The refs in the order of the [BTreeMap]. *)
Definition refname_le (a b : string * string) : bool := String.leb a.1 b.1.
Definition sorted_refs (refs : gmap string string) : list (string * string) := sort_by refname_le (map_to_list refs).

Fixpoint validate_refs (refs : list (string * string)) : result unit ManifestError :=
  match refs with
  | [] => Ok tt
  | (refname, oid) :: rest =>
      if negb (is_safe_refname refname) then Err (UnsafeRefName refname)
      else if negb (is_hex_oid oid) then Err (MalformedOid refname oid)
      else validate_refs rest
  end.
Fixpoint validate_packs (packs : list string) : result unit ManifestError :=
  match packs with
  | [] => Ok tt
  | p :: rest => if negb (is_pack_key p) then Err (MalformedPackKey p) else validate_packs rest
  end.

Definition validate (m : Manifest) : result unit ManifestError :=
  if (MAX_MANIFEST_PACKS <? length (mf_packs m))%nat then
    Err (TooManyPacks (N.of_nat (length (mf_packs m))) (N.of_nat MAX_MANIFEST_PACKS))
  else if (MAX_MANIFEST_REFS <? N.of_nat (size (mf_refs m)))%N then
    Err (TooManyRefs (N.of_nat (size (mf_refs m))) MAX_MANIFEST_REFS)
  else if String.eqb (mf_head m) "" then Err EmptyHead
  else if negb (is_safe_refname (mf_head m)) then Err (UnsafeRefName (mf_head m))
  else
    let? _ := validate_refs (sorted_refs (mf_refs m)) in
    let? _ := validate_packs (mf_packs m) in
    match mf_parent m with
    | Some p => if negb (is_manifest_digest p) then Err (MalformedParent p) else Ok tt
    | None => Ok tt
    end.

(** ** Serialization *)

(** [serde_json::to_vec] and [serde_json::from_slice] at [Manifest]. *)
Class ManifestJson := {
  manifest_to_vec : Manifest -> result string unit;
  manifest_from_slice : string -> result Manifest unit;
}.
Class ManifestJsonLaws `{ManifestJson} : Prop := {
  manifest_round_trip : forall m b, manifest_to_vec m = Ok b -> manifest_from_slice b = Ok m;
}.

Section json.
Context `{ManifestJson}.

Definition canonical (m : Manifest) : Manifest :=
  mkManifest (mf_version m) (mf_head m) (mf_refs m) (pack_list (mf_packs m)) (mf_parent m).
Definition canonical_bytes (m : Manifest) : result string ManifestError :=
  match manifest_to_vec (canonical m) with Ok b => Ok b | Err _ => Err Serde end.

Definition from_bytes (bytes : string) : result Manifest ManifestError :=
  match manifest_from_slice bytes with
  | Err _ => Err Serde
  | Ok m =>
      if negb (mf_version m =? MANIFEST_VERSION)%N then Err (UnsupportedVersion (mf_version m) MANIFEST_VERSION)
      else Ok m
  end.

Lemma from_canonical `{!ManifestJsonLaws} m b :
  mf_version m = MANIFEST_VERSION -> canonical_bytes m = Ok b -> from_bytes b = Ok (canonical m).
Proof.
  unfold canonical_bytes, from_bytes. intros Hv. destruct (manifest_to_vec (canonical m)) as [b'|] eqn:E; [|done].
  intros [= <-]. rewrite (manifest_round_trip _ _ E). cbn [canonical mf_version]. by rewrite Hv.
Qed.
End json.

(** ** What validation accepts *)

Record valid_manifest (m : Manifest) : Prop := {
  vm_packs : (length (mf_packs m) <= MAX_MANIFEST_PACKS)%nat;
  vm_refs : (N.of_nat (size (mf_refs m)) <= MAX_MANIFEST_REFS)%N;
  vm_head : is_safe_refname (mf_head m) = true;
  vm_ref : forall name oid, mf_refs m !! name = Some oid -> is_safe_refname name = true /\ is_hex_oid oid = true;
  vm_pack : forall p, p ∈ mf_packs m -> is_pack_key p = true;
  vm_parent : forall p, mf_parent m = Some p -> is_manifest_digest p = true;
}.

Lemma validate_refs_ok l :
  validate_refs l = Ok tt <-> forall name oid, (name, oid) ∈ l -> is_safe_refname name = true /\ is_hex_oid oid = true.
Proof.
  induction l as [|[n o] l IH]; cbn; [by split; [intros _ ? ? ?%elem_of_nil|]|].
  destruct (is_safe_refname n) eqn:En, (is_hex_oid o) eqn:Eo; cbn.
  1: rewrite IH; split; [intros Hl ? ? [[= -> ->]|Hin]%elem_of_cons; [done|by apply Hl]|intros Hl ? ? Hin; apply Hl; by right].
  all: split; [done|]; intros Hl; destruct (Hl n o) as [? ?]; [by left|congruence].
Qed.
Lemma validate_packs_ok l : validate_packs l = Ok tt <-> forall p, p ∈ l -> is_pack_key p = true.
Proof.
  induction l as [|p l IH]; cbn; [by split; [intros _ ? ?%elem_of_nil|]|].
  destruct (is_pack_key p) eqn:E; cbn.
  - rewrite IH. split; [intros Hl ? [->|Hin]%elem_of_cons; [done|by apply Hl]|intros Hl ? Hin; apply Hl; by right].
  - split; [done|]. intros Hl. specialize (Hl p ltac:(by left)). congruence.
Qed.

Lemma is_safe_refname_nonempty s : is_safe_refname s = true -> s <> "".
Proof. by intros Hs ->. Qed.

Lemma elem_of_sorted_refs refs x : x ∈ sorted_refs refs <-> refs !! x.1 = Some x.2.
Proof. unfold sorted_refs. rewrite elem_of_sort_by. destruct x. by rewrite elem_of_map_to_list. Qed.

Lemma validate_exact m : validate m = Ok tt <-> valid_manifest m.
Proof.
  unfold validate.
  destruct (Nat.ltb_spec MAX_MANIFEST_PACKS (length (mf_packs m))); [split; [done|]; intros []; lia|].
  destruct (N.ltb_spec MAX_MANIFEST_REFS (N.of_nat (size (mf_refs m)))); [split; [done|]; intros []; lia|].
  destruct (String.eqb_spec (mf_head m) "") as [E|E].
  { split; [done|]. intros [_ _ Hh%is_safe_refname_nonempty _ _ _]. done. }
  destruct (is_safe_refname (mf_head m)) eqn:Eh; cbn [negb]; [|split; [done|]; intros []; congruence].
  destruct (validate_refs _) as [[]|] eqn:Er.
  2:{ split; [done|]. intros [_ _ _ Hr _ _].
      enough (validate_refs (sorted_refs (mf_refs m)) = Ok tt) by congruence.
      apply validate_refs_ok. intros name oid Hin%elem_of_sorted_refs. by apply Hr. }
  destruct (validate_packs _) as [[]|] eqn:Ep.
  2:{ split; [done|]. intros [_ _ _ _ Hp _].
      enough (validate_packs (mf_packs m) = Ok tt) by congruence. by apply validate_packs_ok. }
  assert (forall name oid, mf_refs m !! name = Some oid -> is_safe_refname name = true /\ is_hex_oid oid = true) as Hr.
  { intros name oid Hl. eapply validate_refs_ok; [exact Er|]. by apply elem_of_sorted_refs. }
  pose proof (proj1 (validate_packs_ok _) Ep) as Hp.
  destruct (mf_parent m) as [p|] eqn:Epar.
  - destruct (is_manifest_digest p) eqn:Ed; cbn.
    + split; [|done]. intros _. split; try done. intros q Hq. congruence.
    + split; [done|]. intros [_ _ _ _ _ Hq]. specialize (Hq p Epar). congruence.
  - split; [|done]. intros _. split; try done. intros q Hq. congruence.
Qed.

Lemma valid_canonical m : valid_manifest m -> valid_manifest (canonical m).
Proof.
  intros [Hp Hr Hh Href Hpk Hpar]. split; cbn [canonical mf_packs mf_refs mf_head mf_parent]; try done.
  - pose proof (length_pack_list (mf_packs m)). lia.
  - intros p Hin. apply Hpk. by apply elem_of_pack_list.
Qed.

(** ** Ref-state announcements *)

Record RefStateInputs := mkRefStateInputs {
  rs_repo_id : string;
  rs_head : string;
  rs_refs : gmap string string;
  rs_actor_pubkey_hex : string;
  rs_owner_pubkey_hex : string;
}.
Inductive BuildError := InvalidActor | InvalidOwner | SignFailed.

(** [PublicKey::from_hex], [to_hex], and signing of kind 30618 with empty content. *)
Class EventBuilder := {
  pubkey_from_hex : string -> option PublicKey;
  pubkey_to_hex : PublicKey -> string;
  sign_with_keys : N -> string -> list Tag -> option Event;
}.

Definition is_emittable_ref (name : string) : bool :=
  if negb (starts_with "refs/heads/" name || starts_with "refs/tags/" name) then false
  else if starts_with "/" name || contains_str "//" name then false
  else all_chars refname_char name.

Definition ref_tags (refs : list (string * string)) : list Tag :=
  omap (fun r => if negb (is_emittable_ref r.1) then None
                 else if negb (is_hex_oid r.2) then None else Some [r.1; r.2]) refs.

Section announce.
Context `{EventBuilder}.

Definition ref_state_tags (i : RefStateInputs) (actor owner : PublicKey) : list Tag :=
  [["d"; rs_repo_id i]] ++ ref_tags (sorted_refs (rs_refs i))
  ++ (if negb (String.eqb (rs_head i) "") && is_emittable_ref (rs_head i) then [["HEAD"; "ref: " +:+ rs_head i]] else [])
  ++ [["a"; "30617:" +:+ pubkey_to_hex owner +:+ ":" +:+ rs_repo_id i]]
  ++ [["p"; pubkey_to_hex actor]].

Definition build_ref_state_event (i : RefStateInputs) : result Event BuildError :=
  match pubkey_from_hex (rs_actor_pubkey_hex i) with
  | None => Err InvalidActor
  | Some actor =>
      match pubkey_from_hex (rs_owner_pubkey_hex i) with
      | None => Err InvalidOwner
      | Some owner =>
          match sign_with_keys 30618 "" (ref_state_tags i actor owner) with
          | None => Err SignFailed
          | Some e => Ok e
          end
      end
  end.
End announce.

Definition under_heads_or_tags (name : string) : bool := starts_with "refs/heads/" name || starts_with "refs/tags/" name.

Lemma safe_emittable name : is_safe_refname name = true -> is_emittable_ref name = under_heads_or_tags name.
Proof.
  unfold is_safe_refname, is_emittable_ref, under_heads_or_tags. intros Hs.
  destruct (negb (starts_with "refs/" name)); [done|].
  destruct (contains_str ".." name); [done|]. destruct (contains_str "//" name); [done|].
  destruct (starts_with "/" name); [done|]. destruct (has_suffix "/" name); [done|]. cbn [orb] in *. rewrite Hs.
  by destruct (_ || _).
Qed.

(** An announcement of a published manifest lists exactly its branches and tags,
    each with the object it names, in order. *)
Theorem announcement_exact (m : Manifest) :
  valid_manifest m ->
  ref_tags (sorted_refs (mf_refs m))
  = (fun r => [r.1; r.2]) <$> List.filter (fun r => under_heads_or_tags r.1) (sorted_refs (mf_refs m)).
Proof.
  intros Hm. assert (forall x, x ∈ sorted_refs (mf_refs m) -> is_safe_refname x.1 = true /\ is_hex_oid x.2 = true) as Hall.
  { intros x Hx%elem_of_sorted_refs. by apply (vm_ref m Hm). }
  induction (sorted_refs (mf_refs m)) as [|[n o] l IH]; [done|].
  destruct (Hall (n, o)) as [Hn Ho]; [by left|]. cbn in *. rewrite safe_emittable by done. rewrite Ho.
  specialize (IH (fun x Hx => Hall x ltac:(by right))). unfold ref_tags in *. cbn in *.
  destruct (under_heads_or_tags n); cbn; by rewrite IH.
Qed.
