(* ===== verification/GitStore.v ===== *)
(** The object-store client for repositories, buzz-relay/src/api/git/store.rs.

    A store operation is a program: it issues requests to the bucket and goes on
    with each answer.  The bucket is the S3 service, a parameter with the
    behaviour the code relies on; texts of errors are not kept, nothing reads
    them. *)

From S2P Require Import Prelude Nostr RustStr GitManifest.

(** ** The service *)

Inductive S3Error := HttpFail (code : N) | Transport.

Inductive Request :=
| PutNew (key body : string)
| PutMatch (key etag body : string)
| GetObject (key : string)
| HeadObject (key : string).

(** What an answer carries: status and [ETag] header of a write, body and [ETag]
    header of a read, status and content length of a [HEAD]. *)
Definition reply (r : Request) : Type :=
  match r with
  | PutNew _ _ | PutMatch _ _ _ => N * option string
  | GetObject _ => string * option string
  | HeadObject _ => N * option Z
  end.
Definition Answer (r : Request) : Type := result (reply r) S3Error.

(** A bucket holds a body and an entity tag under each key. *)
Class S3 := {
  bucket : Type;
  s3_get : bucket -> string -> option (string * string);
  (** a [PUT] with [If-None-Match: *], if it succeeds *)
  s3_put_new : bucket -> string -> string -> option bucket;
  (** a [PUT] with [If-Match], or the status it fails with *)
  s3_put_match : bucket -> string -> string -> string -> result bucket N;
  (** the second state comes at or after the first *)
  s3_later : bucket -> bucket -> Prop;
  (** the tag can be sent as a header value *)
  header_value : string -> bool;
}.

(** Conditional writes take effect exactly when their condition holds, change
    only their own key, and a tag identifies the content it was given out for. *)
Class S3Laws `{S3} : Prop := {
  later_preorder :: PreOrder s3_later;
  put_new_held : forall s k b x, s3_get s k = Some x -> s3_put_new s k b = None;
  put_new_free : forall s k b, s3_get s k = None ->
    exists s' t, s3_put_new s k b = Some s' /\ s3_later s s' /\ s3_get s' k = Some (b, t) /\
      forall k', k' <> k -> s3_get s' k' = s3_get s k';
  put_match_same : forall s k t b b0, s3_get s k = Some (b0, t) ->
    exists s' t', s3_put_match s k t b = Ok s' /\ s3_later s s' /\ s3_get s' k = Some (b, t') /\
      forall k', k' <> k -> s3_get s' k' = s3_get s k';
  put_match_other : forall s k t b b0 t0, s3_get s k = Some (b0, t0) -> t0 <> t -> s3_put_match s k t b = Err 412%N;
  put_match_absent : forall s k t b, s3_get s k = None -> exists c, s3_put_match s k t b = Err c;
  etag_content : forall s s' k b b' t, s3_later s s' ->
    s3_get s k = Some (b, t) -> s3_get s' k = Some (b', t) -> b = b';
}.

Section service.
Context `{S3}.

Definition ok_status (st : N) : Prop := (200 <= st < 300)%N.

(** One request, served and answered. *)
Definition serves (s : bucket) (r : Request) (s' : bucket) : Answer r -> Prop :=
  match r return Answer r -> Prop with
  | PutNew k b => fun x =>
      match s3_put_new s k b with
      | Some s1 => s' = s1 /\ exists st e, x = Ok (st, e) /\ ok_status st /\
          (e = None \/ exists t, e = Some t /\ s3_get s1 k = Some (b, t))
      | None => s' = s /\ x = Err (HttpFail 412)
      end
  | PutMatch k t b => fun x =>
      match s3_put_match s k t b with
      | Ok s1 => s' = s1 /\ exists st e, x = Ok (st, e) /\ ok_status st /\
          (e = None \/ exists t', e = Some t' /\ s3_get s1 k = Some (b, t'))
      | Err c => s' = s /\ x = Err (HttpFail c)
      end
  | GetObject k => fun x =>
      s' = s /\
      match s3_get s k with
      | Some (b, t) => exists e, x = Ok (b, e) /\ (e = None \/ e = Some t)
      | None => x = Err (HttpFail 404)
      end
  | HeadObject k => fun x =>
      s' = s /\
      match s3_get s k with
      | Some (b, _) => exists st n, x = Ok (st, n) /\ ok_status st /\ (n = None \/ n = Some (Z.of_nat (String.length b)))
      | None => x = Err (HttpFail 404)
      end
  end.

(** A failure that says nothing about the object. *)
Definition outage (e : S3Error) : Prop := forall c, e = HttpFail c -> c <> 404%N /\ c <> 412%N.

End service.

(** ** Programs *)

Inductive Prog (A : Type) : Type :=
| Ret (a : A)
| Call (r : Request) (k : Answer r -> Prog A).
#[global] Arguments Ret {_} _.
#[global] Arguments Call {_} _ _.

Fixpoint bind {A B} (p : Prog A) (f : A -> Prog B) : Prog B :=
  match p with
  | Ret a => f a
  | Call r k => Call r (fun x => bind (k x) f)
  end.

(** [let! x := p in k] waits for [p]; [try! x := p in k] also leaves with its
    error, as the question mark does. *)
Notation "'let!' x ':=' p 'in' k" := (bind p (fun x => k)) (at level 10, x name, p at level 200, k at level 200).
Notation "'try!' x ':=' p 'in' k" :=
  (bind p (fun r => match r with Ok x => k | Err e => Ret (Err e) end))
  (at level 10, x name, p at level 200, k at level 200).

Definition map_err {A E F} (f : E -> F) (r : result A E) : result A F :=
  match r with Ok a => Ok a | Err e => Err (f e) end.

(** [tokio::time::timeout]: the program is dropped after so many requests. *)
Fixpoint timeout {A} (n : nat) (p : Prog A) : Prog (option A) :=
  match p with
  | Ret a => Ret (Some a)
  | Call r k => match n with O => Ret None | S n => Call r (fun x => timeout n (k x)) end
  end.

(** ** Store operations *)

Abbreviation ETag := string (only parsing).
Inductive Precond := IfNoneMatchStar | IfMatch (e : ETag).
Inductive CasOutcome := Won (e : ETag) | LostRace.
Inductive StoreError :=
| NotFound (key : string)
| ObjectTooLarge (key : string) (size max : N)
| DigestMismatch (key expected actual : string)
| Backend (e : S3Error).

Definition status_ok (st : N) : bool := (200 <=? st)%N && (st <? 300)%N.
Definition u64_MAX : N := 2 ^ 64 - 1.
Definition str_bytes (s : string) : N := N.of_nat (String.length s).

Section store.
Context `{HexLib, Sha256Lib, S3}.

Definition digest_hex (bytes : string) : string := hex_encode (sha256_digest bytes).
Definition content_key (prefix bytes : string) : string := prefix +:+ "/" +:+ digest_hex bytes.

Definition is_digest (d : string) : bool :=
  bool_decide (String.length d = 64%nat) && all_chars is_ascii_hexdigit d.
Definition idx_key_for_pack_digest (pack_digest : string) : result string StoreError :=
  if negb (is_digest pack_digest) then Err (Backend (HttpFail 400)) else Ok ("idx/" +:+ pack_digest).

(** The answer to a create-only write: an object that is there already is a success. *)
Definition created (key : string) (x : result (N * option string) S3Error) : result string StoreError :=
  match x with
  | Ok (st, _) => if status_ok st then Ok key else Err (Backend (HttpFail st))
  | Err (HttpFail c) => if (c =? 412)%N then Ok key else Err (Backend (HttpFail c))
  | Err e => Err (Backend e)
  end.

Definition put_immutable (prefix bytes : string) : Prog (result string StoreError) :=
  let key := content_key prefix bytes in
  Call (PutNew key bytes) (fun x => Ret (created key x)).
Definition put_pack : string -> Prog (result string StoreError) := put_immutable "packs".
Definition put_manifest : string -> Prog (result string StoreError) := put_immutable "manifests".

Definition put_idx (pack_digest idx_bytes : string) : Prog (result string StoreError) :=
  match idx_key_for_pack_digest pack_digest with
  | Err e => Ret (Err e)
  | Ok key => Call (PutNew key idx_bytes) (fun x => Ret (created key x))
  end.

Definition missing_or_backend (key : string) (e : S3Error) : StoreError :=
  match e with
  | HttpFail c => if (c =? 404)%N then NotFound key else Backend (HttpFail c)
  | e => Backend e
  end.

Definition get (key : string) : Prog (result string StoreError) :=
  Call (GetObject key) (fun x => Ret
    match x with
    | Ok (body, _) => Ok body
    | Err e => Err (missing_or_backend key e)
    end).

Definition check_digest (key expected_digest bytes : string) : result string StoreError :=
  let actual := digest_hex bytes in
  if negb (String.eqb actual expected_digest) then Err (DigestMismatch key expected_digest actual) else Ok bytes.

Definition get_verified (key expected_digest : string) : Prog (result string StoreError) :=
  try! bytes := get key in Ret (check_digest key expected_digest bytes).

Definition get_limited (key : string) (max_bytes : N) : Prog (result string StoreError) :=
  Call (HeadObject key) (fun x =>
    match x with
    | Err e => Ret (Err (missing_or_backend key e))
    | Ok (st, content_length) =>
        if (st =? 404)%N then Ret (Err (NotFound key))
        else if negb (status_ok st) then Ret (Err (Backend (HttpFail st)))
        else
          let too_large := match content_length with
                           | Some n => let size := if (n <? 0)%Z then u64_MAX else Z.to_N n in
                                       if (max_bytes <? size)%N then Some size else None
                           | None => None
                           end in
          match too_large with
          | Some size => Ret (Err (ObjectTooLarge key size max_bytes))
          | None =>
              try! bytes := get key in
              let size := str_bytes bytes in
              Ret (if (max_bytes <? size)%N then Err (ObjectTooLarge key size max_bytes) else Ok bytes)
          end
    end).

Definition get_verified_limited (key expected_digest : string) (max_bytes : N) : Prog (result string StoreError) :=
  try! bytes := get_limited key max_bytes in Ret (check_digest key expected_digest bytes).

Definition get_idx (pack_digest : string) (max_bytes : N) : Prog (result (option string) StoreError) :=
  match idx_key_for_pack_digest pack_digest with
  | Err e => Ret (Err e)
  | Ok key =>
      let! r := get_limited key max_bytes in
      Ret match r with
          | Ok bytes => Ok (Some bytes)
          | Err (NotFound _) => Ok None
          | Err e => Err e
          end
  end.

Definition get_pointer (key : string) : Prog (result (option (ETag * string)) StoreError) :=
  Call (GetObject key) (fun x => Ret
    match x with
    | Ok (body, Some etag) => Ok (Some (etag, body))
    | Ok (_, None) => Err (Backend (HttpFail 500))
    | Err (HttpFail c) => if (c =? 404)%N then Ok None else Err (Backend (HttpFail c))
    | Err e => Err (Backend e)
    end).

Definition classify_cas (x : result (N * option string) S3Error) : result CasOutcome StoreError :=
  match x with
  | Ok (st, etag) =>
      if status_ok st then match etag with Some e => Ok (Won e) | None => Err (Backend (HttpFail st)) end
      else Err (Backend (HttpFail st))
  | Err (HttpFail c) => if (c =? 412)%N then Ok LostRace else Err (Backend (HttpFail c))
  | Err e => Err (Backend e)
  end.

Definition put_pointer (key body : string) (precond : Precond) : Prog (result CasOutcome StoreError) :=
  match precond with
  | IfNoneMatchStar => Call (PutNew key body) (fun x => Ret (classify_cas x))
  | IfMatch tag =>
      if negb (header_value tag) then Ret (Err (Backend (HttpFail 400)))
      else Call (PutMatch key tag body) (fun x => Ret (classify_cas x))
  end.
End store.
