(* ===== verification/GitPublish.v ===== *)
(** Publishing a push, buzz-relay/src/api/git/cas_publish.rs, and loading the
    published state, buzz-relay/src/api/git/hydrate.rs.

    What the git processes and local files of one push yield is the record
    [GitRun], an argument; the requests to the object store are a [Prog]. *)

From S2P Require Import Prelude Nostr RustStr GitManifest GitStore.

Definition MAX_COMPACTION_OBJECTS : N := 1000000.
Definition MAX_REF_SNAPSHOT_BYTES : N := 4 * 1024 * 1024.
Definition MAX_COUNT_OBJECTS_OUTPUT_BYTES : N := 64 * 1024.
Definition MAX_MANIFEST_BYTES : N := 4 * 1024 * 1024.

Inductive CasError :=
| Conflict (winner_manifest : Manifest) (winner_manifest_key : string)
| ManifestReadFailed
| ManifestInvalid (e : ManifestError)
| CasBackend (e : StoreError)
| PackCapture
| ResourceLimit.

Record PublishLimits := mkPublishLimits {
  parent_hydrated_bytes : N;
  max_pack_bytes : N;
  max_repo_bytes : N;
}.
Record PublishOptions := mkPublishOptions { po_limits : PublishLimits; compaction_threshold : nat }.

Record CasSuccess := mkCasSuccess { cs_manifest : Manifest; cs_manifest_key : string }.

Record ParentState := mkParentState {
  if_match : option ETag;
  parent_digest : option string;
  ps_parent : Manifest;
}.
Definition fresh : ParentState := mkParentState None None (mkManifest MANIFEST_VERSION "" ∅ [] None).
Definition from_loaded (etag : ETag) (digest : string) (parent : Manifest) : ParentState :=
  mkParentState (Some etag) (Some digest) parent.

(** A pack and its index on disk: the sizes first seen, and what reading yields. *)
Record PackFile := mkPackFile {
  pf_pack_len : option N;
  pf_idx_len : option N;
  pf_pack_read : option string;
  pf_idx_read : option string;
}.

(** The git side of one push; [None] stands for a process or file failure. *)
Record GitRun := mkGitRun {
  (** [git for-each-ref] *)
  gr_for_each_ref : option string;
  (** [git symbolic-ref HEAD]: the decoded, trimmed text, if it succeeds *)
  gr_symbolic_ref : option (option string);
  (** [git pack-objects --revs] over tips to include and to exclude: the length
      of the output and what reading it yields *)
  gr_pack_objects : list string -> list string -> option (N * option string);
  (** [git index-pack] of a pack *)
  gr_index_pack : string -> option string;
  (** the compaction permit, [git count-objects -v], the packs written by
      [git pack-objects] over the tips, in the order of their paths, and the
      number of requests compaction completes in time *)
  gr_permit : bool;
  gr_count_objects : option string;
  gr_compacted : list string -> option (list PackFile);
  gr_compaction_time : nat;
}.

(** ** The workspace after the push *)

Definition is_sha1 (oid : string) : bool := bool_decide (String.length oid = 40%nat) && all_chars is_ascii_hexdigit oid.

Fixpoint parse_refs (ls : list string) (refs : gmap string string) : result (gmap string string) CasError :=
  match ls with
  | [] => Ok refs
  | line :: rest =>
      match split_once " " line with
      | None => parse_refs rest refs
      | Some (name, oid) =>
          if negb (is_sha1 oid) then parse_refs rest refs
          else if (MAX_MANIFEST_REFS <=? N.of_nat (size refs))%N && negb (bool_decide (is_Some (refs !! name))) then
            Err ResourceLimit
          else parse_refs rest (<[name := oid]> refs)
      end
  end.

Definition snapshot_workspace_state (g : GitRun) : result (gmap string string * string) CasError :=
  match gr_for_each_ref g with
  | None => Err PackCapture
  | Some out =>
      if (MAX_REF_SNAPSHOT_BYTES <? str_bytes out)%N then Err ResourceLimit
      else
        let? refs := parse_refs (lines (default "" (from_utf8 out))) ∅ in
        match gr_symbolic_ref g with
        | None => Err PackCapture
        | Some head => Ok (refs, default "" head)
        end
  end.

Definition is_branch (name : string) : bool := starts_with "refs/heads/" name.
Definition is_published_branch (refs : gmap string string) (name : string) : bool :=
  is_branch name && bool_decide (is_Some (refs !! name)).

Definition resolve_published_head (refs : gmap string string) (observed_head parent_head : string) : string :=
  if is_published_branch refs observed_head then observed_head
  else if is_published_branch refs parent_head then parent_head
  else if bool_decide (is_Some (refs !! "refs/heads/main")) then "refs/heads/main"
  else if bool_decide (is_Some (refs !! "refs/heads/master")) then "refs/heads/master"
  else
    match List.find is_branch (fst <$> sorted_refs refs) with
    | Some branch => branch
    | None => if negb (String.eqb observed_head "") then observed_head else parent_head
    end.

(** ** Packs *)

Definition ref_oids (refs : gmap string string) : list string := snd <$> sorted_refs refs.

Definition capture_pack (g : GitRun) (refs_before refs_after : gmap string string) (max_bytes : N)
    : result (option string) CasError :=
  match ref_oids refs_after with
  | [] => Ok None
  | positive =>
      match gr_pack_objects g positive (ref_oids refs_before) with
      | None => Err PackCapture
      | Some (len, read) =>
          if (max_bytes <? len)%N then Err ResourceLimit
          else if (len =? 0)%N then Ok None
          else match read with Some bytes => Ok (Some bytes) | None => Err PackCapture end
      end
  end.

Definition should_compact (parent_pack_count threshold : nat) : bool := (threshold <=? parent_pack_count)%nat.

Definition compacted_pack_set_is_usable (parent_pack_count compacted_pack_count : nat) : bool :=
  (compacted_pack_count <? parent_pack_count)%nat
  || ((MAX_MANIFEST_PACKS <=? parent_pack_count)%nat && (compacted_pack_count <=? MAX_MANIFEST_PACKS)%nat).

Fixpoint find_map {A B} (f : A -> option B) (l : list A) : option B :=
  match l with
  | [] => None
  | x :: l => match f x with Some y => Some y | None => find_map f l end
  end.
Definition parse_count (name output : string) : result N CasError :=
  match find_map (strip_prefix name) (lines output) with
  | Some value => match parse_u64 (trim value) with Some n => Ok n | None => Err PackCapture end
  | None => Err PackCapture
  end.

Definition enforce_compaction_object_limit (g : GitRun) : result unit CasError :=
  match gr_count_objects g with
  | None => Err PackCapture
  | Some output =>
      if (MAX_COUNT_OBJECTS_OUTPUT_BYTES <? str_bytes output)%N then Err ResourceLimit
      else if negb (utf8_valid output) then Err PackCapture
      else
        let? loose := parse_count "count:" output in
        let? packed := parse_count "in-pack:" output in
        if (u64_MAX <? loose + packed)%N then Err ResourceLimit
        else if (MAX_COMPACTION_OBJECTS <? loose + packed)%N then Err ResourceLimit
        else Ok tt
  end.

Fixpoint check_pack_sizes (limits : PublishLimits) (total : N) (files : list PackFile) : result N CasError :=
  match files with
  | [] => Ok total
  | f :: rest =>
      match pf_pack_len f with
      | None => Err PackCapture
      | Some pack_bytes =>
          if (max_pack_bytes limits <? pack_bytes)%N then Err ResourceLimit
          else if (u64_MAX <? total + pack_bytes)%N then Err ResourceLimit
          else if (max_repo_bytes limits <? total + pack_bytes)%N then Err ResourceLimit
          else
            match pf_idx_len f with
            | None => Err PackCapture
            | Some idx_bytes =>
                if (max_pack_bytes limits <? idx_bytes)%N then Err ResourceLimit
                else check_pack_sizes limits (total + pack_bytes) rest
            end
      end
  end.

Definition capture_compacted_packs (g : GitRun) (refs_after : gmap string string) (limits : PublishLimits)
    : result (list PackFile) CasError :=
  match ref_oids refs_after with
  | [] => Ok []
  | oids =>
      let? _ := enforce_compaction_object_limit g in
      match gr_compacted g (dedup_first oids) with
      | None => Err PackCapture
      | Some files =>
          if (MAX_MANIFEST_PACKS <? length files)%nat then Err ResourceLimit
          else let? _ := check_pack_sizes limits 0 files in Ok files
      end
  end.

(** ** Uploads *)

Section publish.
Context `{NostrLib, HexLib, Sha256Lib, S3, ManifestJson}.

Definition digest_from_pack_key (key : string) : result string CasError :=
  match strip_prefix "packs/" key with
  | Some d => if is_digest d then Ok d else Err (CasBackend (Backend (HttpFail 500)))
  | None => Err (CasBackend (Backend (HttpFail 500)))
  end.
Definition digest_from_manifest_key (key : string) : result string CasError :=
  match strip_prefix "manifests/" key with Some d => Ok d | None => Err (CasBackend (Backend (HttpFail 500))) end.

Definition write_idx_sidecar (g : GitRun) (pack_key pack_bytes : string) : Prog (result unit CasError) :=
  match digest_from_pack_key pack_key with
  | Err e => Ret (Err e)
  | Ok pack_digest =>
      match gr_index_pack g pack_bytes with
      | None => Ret (Err PackCapture)
      | Some idx_bytes =>
          let! r := put_idx pack_digest idx_bytes in
          Ret (map_err CasBackend (let? _ := r in Ok tt))
      end
  end.

Fixpoint upload_packs (files : list PackFile) (pack_keys : list string) : Prog (result (list string) CasError) :=
  match files with
  | [] => Ret (Ok (pack_list pack_keys))
  | f :: rest =>
      match pf_pack_read f with
      | None => Ret (Err PackCapture)
      | Some bytes =>
          if negb (bool_decide (pf_pack_len f = Some (str_bytes bytes))) then Ret (Err PackCapture)
          else
            let! r := put_pack bytes in
            match r with
            | Err e => Ret (Err (CasBackend e))
            | Ok pack_key =>
                match digest_from_pack_key pack_key with
                | Err e => Ret (Err e)
                | Ok pack_digest =>
                    match pf_idx_read f with
                    | Some idx_bytes =>
                        let! _r := put_idx pack_digest idx_bytes in upload_packs rest (pack_keys ++ [pack_key])
                    | None => upload_packs rest (pack_keys ++ [pack_key])
                    end
                end
            end
      end
  end.
Definition upload_compacted_packs (files : list PackFile) : Prog (result (list string) CasError) :=
  upload_packs files [].

Definition prepare_compaction (g : GitRun) (refs_after : gmap string string) (limits : PublishLimits) (packs_before : nat)
    : Prog (result (list string) CasError) :=
  match capture_compacted_packs g refs_after limits with
  | Err e => Ret (Err e)
  | Ok compacted =>
      if negb (compacted_pack_set_is_usable packs_before (length compacted)) then Ret (Err ResourceLimit)
      else upload_compacted_packs compacted
  end.

(** ** The new manifest *)

Definition compose_after (parent : Manifest) (parent_digest : option string) (head : string) (refs : gmap string string)
    (new_pack_key : option string) : Manifest :=
  let packs := match new_pack_key with
               | Some k => if existsb (fun p => String.eqb p k) (mf_packs parent) then mf_packs parent
                           else mf_packs parent ++ [k]
               | None => mf_packs parent
               end in
  mkManifest MANIFEST_VERSION head refs (pack_list packs) parent_digest.

Definition compose_compacted_after (parent_digest : option string) (head : string) (refs : gmap string string)
    (compacted_pack_keys : list string) : Manifest :=
  mkManifest MANIFEST_VERSION head refs (pack_list compacted_pack_keys) parent_digest.

(** Compaction when it is due: [inl] the composed manifest, or [inr] the failure
    it is given up for. *)
Definition compact_if_due (g : GitRun) (parent_state : ParentState) (options : PublishOptions) (head : string)
    (refs_after : gmap string string) : Prog (option (Manifest + CasError)) :=
  let packs_before := length (mf_packs (ps_parent parent_state)) in
  if negb (should_compact packs_before (compaction_threshold options)) then Ret None
  else if negb (gr_permit g) then Ret (Some (inr PackCapture))
  else
    let! r := timeout (gr_compaction_time g) (prepare_compaction g refs_after (po_limits options) packs_before) in
    Ret (Some match r with
              | Some (Ok pack_keys) =>
                  inl (compose_compacted_after (parent_digest parent_state) head refs_after pack_keys)
              | Some (Err e) => inr e
              | None => inr PackCapture
              end).

(** The ordinary way: a pack of the new objects beside those of the parent. *)
Definition publish_delta (g : GitRun) (parent_state : ParentState) (limits : PublishLimits) (head : string)
    (refs_after : gmap string string) (compaction_failure : option CasError) : Prog (result Manifest CasError) :=
  let parent := ps_parent parent_state in
  match capture_pack g (mf_refs parent) refs_after (max_pack_bytes limits) with
  | Err e => Ret (Err e)
  | Ok None => Ret (Ok (compose_after parent (parent_digest parent_state) head refs_after None))
  | Ok (Some bytes) =>
      if (MAX_MANIFEST_PACKS <=? length (mf_packs parent))%nat then Ret (Err (default ResourceLimit compaction_failure))
      else
        let total_bytes := (parent_hydrated_bytes limits + str_bytes bytes)%N in
        if (u64_MAX <? total_bytes)%N then Ret (Err ResourceLimit)
        else if (max_repo_bytes limits <? total_bytes)%N then Ret (Err ResourceLimit)
        else
          let! r := put_pack bytes in
          match r with
          | Err e => Ret (Err (CasBackend e))
          | Ok pack_key =>
              let! _r := write_idx_sidecar g pack_key bytes in
              Ret (Ok (compose_after parent (parent_digest parent_state) head refs_after (Some pack_key)))
          end
  end.

(** ** Reading what is published *)

Definition pointer_digest (body : string) : option string :=
  match from_utf8 body with
  | None => None
  | Some text => let digest := trim text in if is_digest digest then Some digest else None
  end.

Definition read_winner_after_conflict (pkey : string) : Prog (result (Manifest * string) CasError) :=
  let! r := get_pointer pkey in
  match r with
  | Err e => Ret (Err (CasBackend e))
  | Ok None => Ret (Err ManifestReadFailed)
  | Ok (Some (_, body)) =>
      match pointer_digest body with
      | None => Ret (Err ManifestReadFailed)
      | Some digest =>
          let manifest_key := "manifests/" +:+ digest in
          let! r := get_verified manifest_key digest in
          Ret match r with
              | Err (DigestMismatch _ _ _) | Err (NotFound _) => Err ManifestReadFailed
              | Err e => Err (CasBackend e)
              | Ok bytes =>
                  match from_bytes bytes with
                  | Ok winner => Ok (winner, manifest_key)
                  | Err _ => Err ManifestReadFailed
                  end
              end
      end
  end.

(** ** The commit *)

(** From the composed manifest on: validate, store it, swing the pointer. *)
Definition commit_manifest (pkey : string) (parent_state : ParentState) (m_after : Manifest)
    : Prog (result CasSuccess CasError) :=
  match validate m_after with
  | Err e => Ret (Err (ManifestInvalid e))
  | Ok _ =>
      match canonical_bytes m_after with
      | Err e => Ret (Err (ManifestInvalid e))
      | Ok manifest_bytes =>
          let! r := put_manifest manifest_bytes in
          match r with
          | Err e => Ret (Err (CasBackend e))
          | Ok manifest_key =>
              match digest_from_manifest_key manifest_key with
              | Err e => Ret (Err e)
              | Ok manifest_digest =>
                  let precond := match if_match parent_state with Some e => IfMatch e | None => IfNoneMatchStar end in
                  let! r := put_pointer pkey manifest_digest precond in
                  match r with
                  | Err e => Ret (Err (CasBackend e))
                  | Ok (Won _) => Ret (Ok (mkCasSuccess m_after manifest_key))
                  | Ok LostRace =>
                      try! winner := read_winner_after_conflict pkey in
                      Ret (Err (Conflict (fst winner) (snd winner)))
                  end
              end
          end
      end
  end.

Definition cas_publish_inner (community : CommunityId) (owner repo : string) (g : GitRun) (parent_state : ParentState)
    (options : PublishOptions) : Prog (result CasSuccess CasError) :=
  let pkey := pointer_key community owner repo in
  match snapshot_workspace_state g with
  | Err e => Ret (Err e)
  | Ok (refs_after, head_observed) =>
      let head := resolve_published_head refs_after head_observed (mf_head (ps_parent parent_state)) in
      let! compaction := compact_if_due g parent_state options head refs_after in
      match compaction with
      | Some (inl m_after) => commit_manifest pkey parent_state m_after
      | Some (inr e) =>
          try! m_after := publish_delta g parent_state (po_limits options) head refs_after (Some e) in
          commit_manifest pkey parent_state m_after
      | None =>
          try! m_after := publish_delta g parent_state (po_limits options) head refs_after None in
          commit_manifest pkey parent_state m_after
      end
  end.

Definition cas_publish (community : CommunityId) (owner repo : string) (g : GitRun) (parent_state : ParentState)
    (limits : PublishLimits) : Prog (result CasSuccess CasError) :=
  cas_publish_inner community owner repo g parent_state (mkPublishOptions limits PACK_COMPACTION_THRESHOLD).

(** ** Loading, hydrate.rs *)

Inductive HydrateError :=
| InvalidPointer
| HydrateManifest (e : ManifestError)
| HydrateStore (e : StoreError)
| Hydrate
| HydrateLimit.

Definition hydrate_get_verified_limited (key digest : string) (max_bytes : N) : Prog (result string HydrateError) :=
  let! r := get_verified_limited key digest max_bytes in
  Ret match r with
      | Ok bytes => Ok bytes
      | Err (ObjectTooLarge _ _ _) => Err HydrateLimit
      | Err e => Err (HydrateStore e)
      end.

Definition load_pointer (community : CommunityId) (owner repo : string)
    : Prog (result (option (ETag * string * Manifest)) HydrateError) :=
  let! r := get_pointer (pointer_key community owner repo) in
  match r with
  | Err e => Ret (Err (HydrateStore e))
  | Ok None => Ret (Ok None)
  | Ok (Some (etag, pointer_bytes)) =>
      match pointer_digest pointer_bytes with
      | None => Ret (Err InvalidPointer)
      | Some digest =>
          try! manifest_bytes := hydrate_get_verified_limited ("manifests/" +:+ digest) digest MAX_MANIFEST_BYTES in
          Ret match from_bytes manifest_bytes with
              | Err e => Err (HydrateManifest e)
              | Ok manifest =>
                  match validate manifest with
                  | Err e => Err (HydrateManifest e)
                  | Ok _ => Ok (Some (etag, digest, manifest))
                  end
              end
      end
  end.

Definition load_manifest_for_read (community : CommunityId) (owner repo : string)
    : Prog (result (option Manifest) HydrateError) :=
  try! loaded := load_pointer community owner repo in
  Ret (Ok (snd <$> loaded)).

(** [materialize_manifest] fills a directory: its outcome, the bytes of the packs
    or an error, is an argument, and so is that of [init_bare_repo]. *)
Definition hydrate_for_write (materialize : Manifest -> result N HydrateError) (init_bare_repo : result unit HydrateError)
    (community : CommunityId) (owner repo : string) : Prog (result (N * ParentState) HydrateError) :=
  try! loaded := load_pointer community owner repo in
  Ret match loaded with
      | Some (etag, digest, manifest) =>
          let? hydrated_bytes := materialize manifest in
          Ok (hydrated_bytes, from_loaded etag digest manifest)
      | None => let? _ := init_bare_repo in Ok (0%N, fresh)
      end.
End publish.
