(* ===== verification/GitHistory.v ===== *)
(** Pushes racing over one object store: the state they share, what every
    request preserves, and a program logic for store programs that run beside
    others. *)

From S2P Require Import Prelude Nostr RustStr GitManifest GitStore GitPublish.

(** What git computes with: the objects reachable from an object, and the objects
    a pack holds. *)
Class GitObjects := {
  closure : string -> gset string;
  pack_objects : string -> gset string;
}.

Definition is_pointer (k : string) : bool := starts_with "repos/" k.
Definition is_addressed (k : string) : bool := starts_with "packs/" k || starts_with "manifests/" k.

Section history.
Context `{NostrLib, HexLib, Sha256Lib, S3Laws, ManifestJson, GitObjects}.
Context `{!HexLaws, !HexTextLaws, !Sha256Laws, !ManifestJsonLaws}.

(** The packs and manifests ever submitted; the digest does not collide on them. *)
Variable submitted : list string.
(** Which process may install which manifest under a pointer. *)
Variable origin : nat -> string -> Manifest -> Prop.

(** ** Shared state *)

(** The bucket, and for each pointer who installed which digest, in order. *)
Record Shared := mkShared {
  sh_bucket : bucket;
  sh_history : gmap string (list (nat * string));
}.
Definition at_key (G : Shared) (k : string) : option (string * string) := s3_get (sh_bucket G) k.
Definition history (G : Shared) (pk : string) : list (nat * string) := default [] (sh_history G !! pk).
Definition stored (G : Shared) (k b : string) : Prop := exists t, at_key G k = Some (b, t).

Definition record_write (pid : nat) (k b : string) (h : gmap string (list (nat * string))) : gmap string (list (nat * string)) :=
  if is_pointer k then <[k := default [] (h !! k) ++ [(pid, b)]]> h else h.

(** What serving a request does. *)
Definition act (pid : nat) (r : Request) (G : Shared) : Shared :=
  match r with
  | PutNew k b =>
      match s3_put_new (sh_bucket G) k b with
      | Some s => mkShared s (record_write pid k b (sh_history G))
      | None => G
      end
  | PutMatch k t b =>
      match s3_put_match (sh_bucket G) k t b with
      | Ok s => mkShared s (record_write pid k b (sh_history G))
      | Err _ => G
      end
  | GetObject _ | HeadObject _ => G
  end.

(** A request is served and answered, or fails without being served. *)
Inductive exec (pid : nat) (G : Shared) (r : Request) : Shared -> Answer r -> Prop :=
| exec_served x : serves (sh_bucket G) r (sh_bucket (act pid r G)) x -> exec pid G r (act pid r G) x
| exec_failed e : outage e -> exec pid G r G (Err e).

(** ** The invariant *)

Definition well_keyed (k b : string) : Prop :=
  forall x, k = "packs/" +:+ x \/ k = "manifests/" +:+ x -> x = digest_hex b /\ b ∈ submitted.

(** Everything the refs of a manifest reach is in its packs, and they are stored. *)
Definition packs_stored (G : Shared) (m : Manifest) : Prop :=
  forall p, p ∈ mf_packs m -> is_pointer p = false /\ exists b, stored G p b.
Definition closed (G : Shared) (m : Manifest) : Prop :=
  forall name oid o, mf_refs m !! name = Some oid -> o ∈ closure oid ->
    exists p b, p ∈ mf_packs m /\ stored G p b /\ o ∈ pack_objects b.

(** The published manifest of a digest. *)
Record published (G : Shared) (d : string) (m : Manifest) : Prop := {
  pb_stored : exists b, stored G ("manifests/" +:+ d) b /\ from_bytes b = Ok m;
  pb_valid : valid_manifest m;
  pb_packs : packs_stored G m;
  pb_closed : closed G m;
}.

Definition previous (l : list (nat * string)) (i : nat) : option string :=
  match i with O => None | S j => snd <$> l !! j end.

Record inv (G : Shared) : Prop := {
  iv_keys : forall k b, stored G k b -> well_keyed k b;
  iv_pointer : forall pk, is_pointer pk = true -> fst <$> at_key G pk = snd <$> last (history G pk);
  iv_chain : forall pk i pid d, history G pk !! i = Some (pid, d) ->
    exists m, published G d m /\ mf_parent m = previous (history G pk) i /\ origin pid pk m;
}.

(** What other processes leave alone. *)
Record grows (G G' : Shared) : Prop := {
  gw_later : s3_later (sh_bucket G) (sh_bucket G');
  gw_keeps : forall k x, is_pointer k = false -> at_key G k = Some x -> at_key G' k = Some x;
  gw_history : forall pk, history G pk `prefix_of` history G' pk;
}.

#[export] Instance grows_preorder : PreOrder grows.
Proof.
  split.
  - intros G. split; [reflexivity|done|done].
  - intros G1 G2 G3 [Ha Hb Hc] [Hd He Hf]. split; [by etrans|auto|]. intros pk. etrans; [apply Hc|apply Hf].
Qed.

Lemma stored_grows G G' k b : grows G G' -> is_pointer k = false -> stored G k b -> stored G' k b.
Proof. intros Hg Hk [t Ht]. exists t. by eapply gw_keeps. Qed.

Lemma packs_no_pointer x : is_pointer ("packs/" +:+ x) = false.
Proof. reflexivity. Qed.
Lemma manifests_no_pointer x : is_pointer ("manifests/" +:+ x) = false.
Proof. reflexivity. Qed.

Lemma closed_grows G G' m : grows G G' -> packs_stored G m -> closed G m -> closed G' m.
Proof.
  intros Hg Hv Hc name oid o Hr Ho. destruct (Hc _ _ _ Hr Ho) as (p & b & Hp & Hs & Hb).
  exists p, b. split_and!; [done| |done]. eapply stored_grows; [done|by apply Hv|done].
Qed.
Lemma packs_stored_grows G G' m : grows G G' -> packs_stored G m -> packs_stored G' m.
Proof.
  intros Hg Hp p Hin. destruct (Hp p Hin) as (Hk & b & Hb). split; [done|]. exists b. by eapply stored_grows.
Qed.
Lemma published_grows G G' d m : grows G G' -> published G d m -> published G' d m.
Proof.
  intros Hg [(b & Hs & Hb) Hv Hp Hc]. split; [|done|by eapply packs_stored_grows|by eapply closed_grows].
  exists b. split; [|done]. eapply stored_grows; [done|apply manifests_no_pointer|done].
Qed.

Lemma history_lookup_grows G G' pk i x : grows G G' -> history G pk !! i = Some x -> history G' pk !! i = Some x.
Proof. intros Hg Hx. eapply prefix_lookup_Some; [done|]. by apply gw_history. Qed.

(** ** Requests preserve the invariant *)

Lemma no_pointer_record pid k b h : is_pointer k = false -> record_write pid k b h = h.
Proof. unfold record_write. by intros ->. Qed.

Lemma record_history pid k b s h pk :
  is_pointer k = true ->
  history (mkShared s (record_write pid k b h)) pk
  = if decide (pk = k) then default [] (h !! k) ++ [(pid, b)] else default [] (h !! pk).
Proof.
  intros Hk. unfold history, record_write. rewrite Hk. cbn. destruct (decide (pk = k)) as [->|Hne].
  - by rewrite lookup_insert_eq.
  - by rewrite lookup_insert_ne.
Qed.

(** A create-only write outside the pointers. *)
Lemma act_create G pid k b :
  inv G -> is_pointer k = false -> well_keyed k b ->
  inv (act pid (PutNew k b) G) /\ grows G (act pid (PutNew k b) G).
Proof.
  intros Hi Hk Hwk. cbn [act]. destruct (s3_get (sh_bucket G) k) as [x|] eqn:E.
  { by rewrite (put_new_held _ _ _ _ E). }
  destruct (put_new_free _ _ b E) as (s & t & Hput & Hlate & Hnew & Hothers). rewrite Hput, no_pointer_record by done.
  assert (grows G (mkShared s (sh_history G))) as Hg.
  { split; cbn; [done| |done]. intros k' y Hk' Hy. unfold at_key. cbn. rewrite Hothers; [done|].
    intros ->. unfold at_key in Hy. congruence. }
  split; [|done]. split.
  - intros k' b' [t' Ht']. unfold at_key in Ht'. cbn in Ht'. destruct (decide (k' = k)) as [->|Hne]; [by simplify_eq|].
    rewrite Hothers in Ht' by done. eapply iv_keys; [done|]. by exists t'.
  - intros pk Hpk. unfold at_key. cbn. rewrite Hothers by (intros ->; congruence). by apply (iv_pointer G Hi).
  - intros pk i p d Hd. destruct (iv_chain G Hi pk i p d Hd) as (m & Hm & Hrest). exists m.
    split; [by eapply published_grows|done].
Qed.

Lemma act_read G pid r : (forall k b, r <> PutNew k b) -> (forall k t b, r <> PutMatch k t b) -> act pid r G = G.
Proof. destruct r; [intros Hn _; by destruct (Hn key body)|intros _ Hn; by destruct (Hn key etag body)|done|done]. Qed.

(** Writing a pointer that holds [prev], with a published manifest on top of it. *)
Lemma append_history G pid pk d m s t :
  inv G -> is_pointer pk = true ->
  s3_later (sh_bucket G) s -> s3_get s pk = Some (d, t) -> (forall k, k <> pk -> s3_get s k = s3_get (sh_bucket G) k) ->
  published G d m -> mf_parent m = snd <$> last (history G pk) -> origin pid pk m ->
  let G' := mkShared s (record_write pid pk d (sh_history G)) in
  inv G' /\ grows G G' /\ history G' pk = history G pk ++ [(pid, d)].
Proof.
  intros Hi Hpk Hlate Hnew Hothers Hpub Hpar Horig G'.
  assert (history G' pk = history G pk ++ [(pid, d)]) as Hh.
  { unfold G'. rewrite record_history by done. by rewrite decide_True. }
  assert (forall pk', pk' <> pk -> history G' pk' = history G pk') as Hho.
  { intros pk' Hne. unfold G'. rewrite record_history by done. by rewrite decide_False. }
  assert (grows G G') as Hg.
  { split; [done| |].
    - intros k x Hk Hx. unfold at_key. cbn. rewrite Hothers; [done|]. intros ->. congruence.
    - intros pk'. destruct (decide (pk' = pk)) as [->|Hne]; [rewrite Hh; by apply prefix_app_r|by rewrite Hho]. }
  split_and!; [|done|done]. split.
  - intros k b [tt Ht]. unfold at_key in Ht. cbn in Ht. destruct (decide (k = pk)) as [->|Hne].
    + intros x [->| ->]; done.
    + rewrite Hothers in Ht by done. eapply iv_keys; [done|]. by exists tt.
  - intros pk' Hpk'. destruct (decide (pk' = pk)) as [->|Hne].
    + rewrite Hh, last_snoc. unfold at_key. cbn. by rewrite Hnew.
    + rewrite Hho by done. unfold at_key. cbn. rewrite Hothers by done. by apply (iv_pointer G Hi).
  - intros pk' i p d' Hd'. destruct (decide (pk' = pk)) as [->|Hne].
    2:{ rewrite Hho in Hd' |- * by done. destruct (iv_chain G Hi _ _ _ _ Hd') as (m' & Hm' & Hp').
        exists m'. split; [by eapply published_grows|done]. }
    rewrite Hh in Hd' |- *. apply lookup_app_Some in Hd' as [Hd'|[Hge Hd']].
    + destruct (iv_chain G Hi _ _ _ _ Hd') as (m' & Hm' & Hp' & Ho'). exists m'. split_and!; [by eapply published_grows| |done].
      rewrite Hp'. destruct i as [|j]; [done|]. cbn. rewrite lookup_app_l; [done|]. apply lookup_lt_Some in Hd'. lia.
    + apply list_lookup_singleton_Some in Hd' as [Hz [= <- <-]]. exists m. split_and!; [by eapply published_grows| |done].
      rewrite Hpar, last_lookup. destruct i as [|j]; cbn.
      * destruct (history G pk); [done|cbn in *; lia].
      * assert (j = pred (length (history G pk))) as -> by lia. rewrite lookup_app_l; [done|]. lia.
Qed.

(** ** The history does not repeat itself *)

Lemma published_inj G d m m' : published G d m -> published G d m' -> m = m'.
Proof. intros [(b & [t Ht] & Hb) _ _ _] [(b' & [t' Ht'] & Hb') _ _ _]. congruence. Qed.

(** Equal digests have equal ancestries, so the first one would need a parent. *)
Lemma chain_no_repeat G pk : inv G -> forall i j p q d,
  history G pk !! i = Some (p, d) -> history G pk !! (i + S j)%nat = Some (q, d) -> False.
Proof.
  intros Hi. induction i as [|i IH]; intros j p q d Hd Hd'.
  all: destruct (iv_chain G Hi _ _ _ _ Hd) as (m & Hm & Hp & _), (iv_chain G Hi _ _ _ _ Hd') as (m' & Hm' & Hp' & _).
  all: rewrite (published_inj _ _ _ _ Hm' Hm), Hp in Hp'; cbn in Hp'.
  - destruct (history G pk !! j) as [x|] eqn:E; [done|]. apply lookup_lt_Some in Hd'. apply lookup_ge_None in E. cbn in *. lia.
  - replace (i + S j)%nat with (S (i + j))%nat in * by lia. cbn in Hp'.
    destruct (history G pk !! i) as [[p1 d1]|] eqn:E1; [|apply lookup_lt_Some in Hd; apply lookup_ge_None in E1; lia].
    destruct (history G pk !! S (i + j)%nat) as [[p2 d2]|] eqn:E2; [|done]. cbn in Hp'. simplify_eq.
    apply (IH j p1 p2 d2); [done|]. by replace (i + S j)%nat with (S (i + j))%nat by lia.
Qed.

Lemma history_unique G pk i j p q d :
  inv G -> history G pk !! i = Some (p, d) -> history G pk !! j = Some (q, d) -> i = j.
Proof.
  intros Hi Hd Hd'. destruct (lt_eq_lt_dec i j) as [[Hlt| ->]|Hlt]; [|done|]; exfalso.
  - apply (chain_no_repeat G pk Hi i (j - S i) p q d); [done|]. by replace (i + S (j - S i))%nat with j by lia.
  - apply (chain_no_repeat G pk Hi j (i - S j) q p d); [done|]. by replace (j + S (i - S j))%nat with i by lia.
Qed.

(** ** Programs that run beside others *)

(** What is uploaded under a content key is one of the bodies submitted. *)
Definition allowed (r : Request) : Prop :=
  match r with PutNew k b => is_addressed k = true -> b ∈ submitted | _ => True end.

(** Whatever the others do meanwhile: each request keeps the invariant whether or
    not its answer arrives, and the result satisfies [Q]. *)
Fixpoint wp {A} (pid : nat) (p : Prog A) (G : Shared) (Q : Shared -> A -> Prop) : Prop :=
  match p with
  | Ret a => Q G a
  | Call r k => forall G1, inv G1 -> grows G G1 -> allowed r ->
      (inv (act pid r G1) /\ grows G1 (act pid r G1)) /\
      forall G2 x, exec pid G1 r G2 x -> wp pid (k x) G2 Q
  end.

Definition stable {A} (Q : Shared -> A -> Prop) : Prop := forall G G' a, grows G G' -> Q G a -> Q G' a.

Lemma exec_grows pid G r G' x :
  inv G -> inv (act pid r G) /\ grows G (act pid r G) -> exec pid G r G' x -> inv G' /\ grows G G'.
Proof. intros Hi Ha [y Hy|e He]; [done|]. split; [done|reflexivity]. Qed.

Lemma wp_mono {A} pid (p : Prog A) G (Q Q' : Shared -> A -> Prop) :
  inv G -> (forall G' a, inv G' -> grows G G' -> Q G' a -> Q' G' a) -> wp pid p G Q -> wp pid p G Q'.
Proof.
  revert G. induction p as [a|r k IH]; intros G Hi HQ; cbn; [apply HQ; [done|reflexivity]|].
  intros Hwp G1 Hi1 Hg1 Hr. destruct (Hwp G1 Hi1 Hg1 Hr) as [Ha Hk]. split; [done|]. intros G2 x Hx.
  destruct (exec_grows _ _ _ _ _ Hi1 Ha Hx) as [Hi2 Hg2]. eapply IH; [done| |by apply Hk].
  intros G3 a Hi3 Hg3. apply HQ; [done|]. etrans; [exact Hg1|]. by etrans.
Qed.
Lemma wp_bind {A B} pid (p : Prog A) (f : A -> Prog B) G Q :
  wp pid p G (fun G' a => wp pid (f a) G' Q) -> wp pid (bind p f) G Q.
Proof.
  revert G. induction p as [a|r k IH]; intros G; cbn; [done|].
  intros Hwp G1 Hi1 Hg1 Hr. destruct (Hwp G1 Hi1 Hg1 Hr) as [Ha Hk]. split; [done|]. intros G2 x Hx. by apply IH, Hk.
Qed.
Lemma wp_grows {A} pid (p : Prog A) G G' Q : stable Q -> grows G G' -> wp pid p G Q -> wp pid p G' Q.
Proof.
  intros HQ Hg. destruct p as [a|r k]; cbn; [by apply HQ|]. intros Hwp G1 Hi1 Hg1. apply Hwp; [done|]. by etrans.
Qed.
(** The rule of sequencing as it is used: the first part's result, then the rest. *)
Lemma wp_then {A B} pid (p : Prog A) (f : A -> Prog B) G Q R :
  inv G -> wp pid p G R -> (forall G' a, inv G' -> grows G G' -> R G' a -> wp pid (f a) G' Q) -> wp pid (bind p f) G Q.
Proof. intros Hi Hp Hf. by apply wp_bind, (wp_mono _ _ _ R). Qed.

Lemma wp_timeout {A} pid n (p : Prog A) G Q :
  wp pid p G Q -> wp pid (timeout n p) G (fun G' r => forall a, r = Some a -> Q G' a).
Proof.
  revert n G. induction p as [a|r k IH]; intros n G; [destruct n; intros HQ a0 Ha0; by simplify_eq|]. cbn.
  destruct n as [|n]; cbn; [done|]. intros Hwp G1 Hi1 Hg1 Hr. destruct (Hwp G1 Hi1 Hg1 Hr) as [Ha Hk]. split; [done|].
  intros G2 x Hx. by apply IH, Hk.
Qed.
End history.
