(* ===== verification/GitCommit.v ===== *)
(** What publishing and loading do beside other processes: the rules of
    [GitHistory] applied to store.rs, cas_publish.rs and hydrate.rs. *)

From S2P Require Import Prelude Nostr RustStr GitManifest GitStore GitPublish GitHistory.

(** Documented behaviour of [git pack-objects --revs]: the output holds what the
    included tips reach and the excluded ones do not; it is empty only when that is
    nothing, and the replacement packs together hold all the tips reach. *)
Record git_faithful `{GitObjects} (g : GitRun) : Prop := {
  gf_pack : forall pos neg len bytes, gr_pack_objects g pos neg = Some (len, Some bytes) ->
    forall oid o, oid ∈ pos -> o ∈ closure oid -> o ∈ pack_objects bytes \/ exists n, n ∈ neg /\ o ∈ closure n;
  gf_empty : forall pos neg read, gr_pack_objects g pos neg = Some (0%N, read) ->
    forall oid o, oid ∈ pos -> o ∈ closure oid -> exists n, n ∈ neg /\ o ∈ closure n;
  gf_compacted : forall tips files, gr_compacted g tips = Some files ->
    forall oid o, oid ∈ tips -> o ∈ closure oid ->
      exists f, f ∈ files /\ forall b, pf_pack_read f = Some b -> o ∈ pack_objects b;
}.

Section commit.
Context `{NostrLib, HexLib, Sha256Lib, S3Laws, ManifestJson, GitObjects}.
Context `{!HexLaws, !HexTextLaws, !Sha256Laws, !ManifestJsonLaws}.
Variable submitted : list string.
Hypothesis no_collisions : forall a b, a ∈ submitted -> b ∈ submitted -> no_collision sha256_digest a b.
Variable origin : nat -> string -> Manifest -> Prop.

Local Abbreviation inv := (inv submitted origin).
Local Abbreviation wp := (wp submitted origin).
Implicit Types (G : Shared) (pid : nat) (pk k d : string) (m : Manifest).

Lemma digest_hex_inj a b : a ∈ submitted -> b ∈ submitted -> digest_hex a = digest_hex b -> a = b.
Proof.
  intros Ha Hb He. apply no_collisions; [done..|]. unfold digest_hex in He.
  apply (f_equal hex_decode) in He. rewrite !hex_decode_encode in He. congruence.
Qed.
Lemma digest_hex_digest b : is_digest (digest_hex b) = true.
Proof.
  unfold is_digest, digest_hex. rewrite hex_encode_chars, hex_encode_length, sha256_length. done.
Qed.

(** ** Writes of immutable objects *)

Definition prefixes : list string := ["packs"; "manifests"].
Lemma content_key_prefix prefix b : prefix ∈ prefixes ->
  is_addressed (content_key prefix b) = true /\ is_pointer (content_key prefix b) = false.
Proof. intros [->|[->|[]%elem_of_nil]%elem_of_cons]%elem_of_cons; done. Qed.
Lemma content_key_keyed prefix b : prefix ∈ prefixes -> b ∈ submitted -> well_keyed submitted (content_key prefix b) b.
Proof.
  intros [->|[->|[]%elem_of_nil]%elem_of_cons]%elem_of_cons Hb x [He|He]; unfold content_key in He.
  all: rewrite ?string_app_cons, ?string_app_nil_l in He; try discriminate. all: injection He; intros <-; done.
Qed.
Lemma content_key_same prefix b b' : prefix ∈ prefixes -> b ∈ submitted -> well_keyed submitted (content_key prefix b) b' -> b' = b.
Proof.
  intros Hp Hb Hk. destruct (Hk (digest_hex b)) as [He Hb'].
  { apply elem_of_cons in Hp as [->|[->|[]%elem_of_nil]%elem_of_cons]; [left|right]; done. }
  by apply digest_hex_inj.
Qed.

Lemma outage_created key e : outage e -> exists err, created key (Err e) = Err err.
Proof.
  intros He. destruct e as [c|]; cbn; [|by eexists]. destruct (He c eq_refl) as [_ Hc].
  rewrite (proj2 (N.eqb_neq c 412)) by done. by eexists.
Qed.
Lemma status_ok_true st : ok_status st -> status_ok st = true.
Proof. unfold ok_status, status_ok. intros [??]. rewrite (proj2 (N.leb_le _ _)), (proj2 (N.ltb_lt _ _)) by lia. done. Qed.

Lemma wp_put_immutable pid prefix bytes G :
  prefix ∈ prefixes ->
  wp pid (put_immutable prefix bytes) G (fun G' r =>
    forall key, r = Ok key -> key = content_key prefix bytes /\ stored G' key bytes).
Proof.
  intros Hp G1 Hi1 Hg1 Hr. destruct (content_key_prefix prefix bytes Hp) as [Hka Hkp]. specialize (Hr Hka).
  pose proof (act_create submitted origin G1 pid _ _ Hi1 Hkp (content_key_keyed _ _ Hp Hr)) as [Hi2 Hg2].
  split; [done|]. intros G2 x Hx key Hkey. destruct Hx as [x Hx|e He].
  2:{ destruct (outage_created (content_key prefix bytes) e He) as [err Herr].
      assert (Err err = Ok key) by (rewrite <- Herr; exact Hkey). done. }
  cbn [serves act] in *. destruct (s3_get (sh_bucket G1) (content_key prefix bytes)) as [[b t]|] eqn:E.
  - rewrite (put_new_held _ _ _ _ E) in Hx |- *. destruct Hx as [_ ->]. injection Hkey as <-. split; [done|].
    assert (b = bytes) as <-; [|by exists t]. apply (content_key_same prefix); [done..|]. apply (iv_keys _ _ G1 Hi1). by exists t.
  - destruct (put_new_free _ _ bytes E) as (s & t & Hput & _ & Hnew & _). rewrite Hput in Hx |- *.
    destruct Hx as (_ & st & e & -> & Hst & _). cbn in Hkey. rewrite status_ok_true in Hkey by done. injection Hkey as <-.
    split; [done|]. by exists t.
Qed.

Lemma idx_key pd key : idx_key_for_pack_digest pd = Ok key -> key = "idx/" +:+ pd.
Proof. unfold idx_key_for_pack_digest. destruct (is_digest pd); [|done]. by intros [= <-]. Qed.
Lemma wp_put_idx pid pd b G : wp pid (put_idx pd b) G (fun _ _ => True).
Proof.
  unfold put_idx. destruct (idx_key_for_pack_digest pd) as [key|] eqn:E; [|done]. apply idx_key in E as ->.
  intros G1 Hi1 Hg1 _. split; [|done]. apply act_create; [done|done|]. intros x [He|He]; done.
Qed.

(** ** Reads *)

Lemma read_keeps pid G r : inv G -> act pid r G = G -> inv (act pid r G) /\ grows G (act pid r G).
Proof. intros Hi ->. split; [done|reflexivity]. Qed.

Lemma wp_get_pointer pid pk G :
  wp pid (get_pointer pk) G (fun G' r =>
    match r with
    | Ok (Some (e, b)) => at_key G' pk = Some (b, e)
    | Ok None => at_key G' pk = None
    | Err _ => True
    end).
Proof.
  intros G1 Hi1 Hg1 _. split; [by apply read_keeps|]. intros G2 x [y Hy|e He]; cbn [wp].
  - destruct Hy as [_ Hy]. unfold at_key. cbn [act]. destruct (s3_get (sh_bucket G1) pk) as [[b t]|] eqn:E.
    + destruct Hy as (e & -> & [->| ->]); cbn; done.
    + by rewrite Hy.
  - destruct e as [c|]; cbn; [|done]. destruct (He c eq_refl) as [Hc _]. by rewrite (proj2 (N.eqb_neq c 404)).
Qed.

Lemma wp_get pid key G : wp pid (get key) G (fun G' r => forall b, r = Ok b -> stored G' key b).
Proof.
  intros G1 Hi1 Hg1 _. split; [by apply read_keeps|]. intros G2 x [y Hy|e He] b Hb; [|done].
  destruct Hy as [_ Hy]. cbn [act]. unfold stored, at_key. destruct (s3_get (sh_bucket G1) key) as [[b' t]|] eqn:E.
  - destruct Hy as (e & -> & _). injection Hb as ->. by exists t.
  - by subst y.
Qed.
Lemma wp_get_limited pid key max G : wp pid (get_limited key max) G (fun G' r => forall b, r = Ok b -> stored G' key b).
Proof.
  intros G1 Hi1 Hg1 _. split; [by apply read_keeps|]. intros G2 x Hx.
  destruct (exec_grows _ _ _ _ _ _ _ Hi1 (read_keeps pid G1 (HeadObject key) Hi1 eq_refl) Hx) as [Hi2 _]. clear Hx.
  destruct x as [[st n]|e]; [|done]. destruct (st =? 404)%N; [done|]. destruct (negb _); [done|].
  destruct (match n with Some _ => _ | None => _ end); [done|].
  apply (wp_then _ _ _ _ _ _ _ _ Hi2 (wp_get pid key G2)). intros G3 [b|e] _ _ Hb; [|done]. cbn.
  intros b' Hb'. destruct (max <? str_bytes b)%N; [done|]. by apply Hb.
Qed.
Lemma check_digest_ok key d b b' : check_digest key d b = Ok b' -> b' = b /\ digest_hex b = d.
Proof. unfold check_digest. destruct (String.eqb_spec (digest_hex b) d); [|done]. by intros [= <-]. Qed.
Lemma wp_get_verified pid key d G :
  inv G -> wp pid (get_verified key d) G (fun G' r => forall b, r = Ok b -> stored G' key b).
Proof.
  intros Hi. apply (wp_then _ _ _ _ _ _ _ _ Hi (wp_get pid key G)). intros G1 [b|e] _ _ Hb; [|done].
  intros b' [-> _]%check_digest_ok. by apply Hb.
Qed.
Lemma wp_get_verified_limited pid key d max G :
  inv G -> wp pid (get_verified_limited key d max) G (fun G' r => forall b, r = Ok b -> stored G' key b).
Proof.
  intros Hi. apply (wp_then _ _ _ _ _ _ _ _ Hi (wp_get_limited pid key max G)). intros G1 [b|e] _ _ Hb; [|done].
  intros b' [-> _]%check_digest_ok. by apply Hb.
Qed.

(** ** The pointer *)

Lemma history_digest G pk i q d : inv G -> history G pk !! i = Some (q, d) -> is_digest d = true.
Proof.
  intros Hi Hd. destruct (iv_chain _ _ G Hi _ _ _ _ Hd) as (m & [(b & Hb & _) _ _ _] & _).
  destruct (iv_keys _ _ G Hi _ _ Hb d) as [-> _]; [by right|]. apply digest_hex_digest.
Qed.
Lemma pointer_digest_plain d : is_digest d = true -> pointer_digest d = Some d.
Proof.
  intros Hd. unfold pointer_digest. pose proof Hd as Hd'. unfold is_digest in Hd'. apply andb_prop in Hd' as [_ Hc].
  destruct (hex_plain d Hc) as [Htrim Hutf]. by rewrite Hutf, Htrim, Hd.
Qed.

(** The value of a pointer is the end of its history. *)
Lemma pointer_value G pk b t :
  inv G -> is_pointer pk = true -> at_key G pk = Some (b, t) ->
  exists q m, last (history G pk) = Some (q, b) /\ pointer_digest b = Some b /\ published G b m /\
    mf_parent m = previous (history G pk) (pred (length (history G pk))).
Proof.
  intros Hi Hpk Hat. pose proof (iv_pointer _ _ G Hi pk Hpk) as Hp. rewrite Hat in Hp. cbn in Hp.
  destruct (last (history G pk)) as [[q d]|] eqn:E; [|done]. cbn in Hp. injection Hp as <-. rewrite last_lookup in E.
  destruct (iv_chain _ _ G Hi _ _ _ _ E) as (m & Hm & Hpar & _). exists q, m. split_and!; [done| |done|done].
  by eapply pointer_digest_plain, history_digest.
Qed.

(** What a push knows of the state it started from. *)
Definition knows_parent G pk (ps : ParentState) : Prop :=
  match if_match ps, parent_digest ps with
  | None, None => ps = fresh
  | Some e, Some d =>
      (exists s0, s3_later s0 (sh_bucket G) /\ s3_get s0 pk = Some (d, e)) /\ published G d (ps_parent ps)
  | _, _ => False
  end.
Lemma knows_parent_grows G G' pk ps : grows G G' -> knows_parent G pk ps -> knows_parent G' pk ps.
Proof.
  intros Hg. unfold knows_parent. destruct (if_match ps) as [e|], (parent_digest ps) as [d|]; [|done..].
  intros [(s0 & Hs & Hd) Hp]. split; [|by eapply published_grows]. exists s0. split; [|done]. etrans; [done|apply Hg].
Qed.

Definition precondition (ps : ParentState) : Precond :=
  match if_match ps with Some e => IfMatch e | None => IfNoneMatchStar end.

(** The entry of a push stands on the state it started from. *)
Definition installed G pid pk (ps : ParentState) d : Prop :=
  exists i, history G pk !! i = Some (pid, d) /\ previous (history G pk) i = parent_digest ps.

Lemma installed_grows G G' pid pk ps d : grows G G' -> installed G pid pk ps d -> installed G' pid pk ps d.
Proof.
  intros Hg (i & Hi & Hp). exists i. split; [by eapply history_lookup_grows|]. rewrite <- Hp.
  destruct i as [|i]; [done|]. cbn. destruct (history G pk !! i) as [x|] eqn:E.
  - by rewrite (history_lookup_grows G G' pk i x Hg E).
  - apply lookup_lt_Some in Hi. apply lookup_ge_None in E. lia.
Qed.

Lemma installed_end G G' pid pk ps d :
  snd <$> last (history G pk) = parent_digest ps -> history G' pk = history G pk ++ [(pid, d)] -> installed G' pid pk ps d.
Proof.
  intros Hl Hh. exists (length (history G pk)). rewrite Hh, list_lookup_middle by done. split; [done|]. rewrite <- Hl, last_lookup.
  destruct (length (history G pk)) as [|n] eqn:E; cbn; [by destruct (history G pk)|].
  by rewrite lookup_app_l by lia.
Qed.

Lemma act_first G pid pk d m :
  inv G -> is_pointer pk = true -> published G d m -> mf_parent m = None -> origin pid pk m ->
  let G' := act pid (PutNew pk d) G in
  inv G' /\ grows G G' /\ (s3_put_new (sh_bucket G) pk d <> None -> installed G' pid pk fresh d).
Proof.
  intros Hi Hpk Hpub Hpar Horig. cbn [act]. destruct (s3_get (sh_bucket G) pk) as [x|] eqn:E.
  { rewrite (put_new_held _ _ _ _ E). split_and!; [done|reflexivity|done]. }
  destruct (put_new_free _ _ d E) as (s & t & -> & Hlate & Hnew & Hothers).
  assert (snd <$> last (history G pk) = None) as Hlast.
  { rewrite <- (iv_pointer _ _ G Hi pk Hpk). unfold at_key. by rewrite E. }
  destruct (append_history submitted origin G pid pk d m s t) as (Hi' & Hg' & Hh'); [done..|by rewrite Hlast|done|].
  split_and!; [done..|]. intros _. by apply (installed_end G).
Qed.
Lemma act_next G pid pk e d m ps :
  inv G -> is_pointer pk = true -> published G d m -> mf_parent m = parent_digest ps -> origin pid pk m ->
  if_match ps = Some e -> knows_parent G pk ps ->
  let G' := act pid (PutMatch pk e d) G in
  inv G' /\ grows G G' /\ (is_ok (s3_put_match (sh_bucket G) pk e d) = true -> installed G' pid pk ps d).
Proof.
  intros Hi Hpk Hpub Hpar Horig He Hps. cbn [act]. unfold knows_parent in Hps. rewrite He in Hps.
  destruct (parent_digest ps) as [pd|] eqn:Epd; [|done]. destruct Hps as [(s0 & Hs0 & Hget0) _].
  destruct (s3_get (sh_bucket G) pk) as [[b t]|] eqn:E.
  2:{ destruct (put_match_absent _ _ e d E) as [c ->]. split_and!; [done|reflexivity|done]. }
  destruct (decide (t = e)) as [->|Hne].
  2:{ rewrite (put_match_other _ _ _ _ _ _ E Hne). split_and!; [done|reflexivity|done]. }
  destruct (put_match_same _ _ _ d _ E) as (s & t' & -> & Hlate & Hnew & Hothers).
  assert (pd = b) as -> by (eapply etag_content; [exact Hs0|done|done]).
  assert (snd <$> last (history G pk) = Some b) as Hlast.
  { rewrite <- (iv_pointer _ _ G Hi pk Hpk). unfold at_key. by rewrite E. }
  destruct (append_history submitted origin G pid pk d m s t') as (Hi' & Hg' & Hh'); [done..|by rewrite Hlast|done|].
  split_and!; [done..|]. intros _. apply (installed_end G); [congruence|done].
Qed.

Lemma classify_won x e : classify_cas x = Ok (Won e) -> exists st, x = Ok (st, Some e).
Proof.
  unfold classify_cas. destruct x as [[st [e'|]]|[c|]]; [|by destruct (status_ok st)| |done].
  - destruct (status_ok st); [|done]. intros [= <-]. by eexists.
  - by destruct (c =? 412)%N.
Qed.

Lemma wp_put_pointer pid pk ps d m G :
  is_pointer pk = true -> published G d m -> mf_parent m = parent_digest ps -> origin pid pk m -> knows_parent G pk ps ->
  wp pid (put_pointer pk d (precondition ps)) G (fun G' r => forall e, r = Ok (Won e) -> installed G' pid pk ps d).
Proof.
  intros Hpk Hpub Hpar Horig Hps. unfold put_pointer, precondition. destruct (if_match ps) as [t|] eqn:Et.
  - destruct (negb _); [done|]. intros G1 Hi1 Hg1 _.
    destruct (act_next G1 pid pk t d m ps) as (Hi2 & Hg2 & Hin);
      [done..|by eapply published_grows|done|done|done|by eapply knows_parent_grows|].
    split; [done|]. intros G2 x Hx e Hwon. destruct (classify_won x e Hwon) as [st ->]. inversion Hx as [y Hy|]; subst.
    apply Hin. cbn [serves] in *. destruct (s3_put_match (sh_bucket G1) pk t d); [done|]. by destruct Hy.
  - unfold knows_parent in Hps. rewrite Et in Hps. destruct (parent_digest ps); [done|]. subst ps.
    intros G1 Hi1 Hg1 _. destruct (act_first G1 pid pk d m) as (Hi2 & Hg2 & Hin); [done..|by eapply published_grows|done|done|].
    split; [done|]. intros G2 x Hx e Hwon. destruct (classify_won x e Hwon) as [st ->]. inversion Hx as [y Hy|]; subst.
    apply Hin. cbn [serves] in *. destruct (s3_put_new (sh_bucket G1) pk d); [done|]. by destruct Hy.
Qed.

(** ** The packs of a push *)

(** A manifest whose packs are stored and hold what its refs reach. *)
Record composed G (ps : ParentState) (head : string) (refs : gmap string string) m : Prop := {
  cp_version : mf_version m = MANIFEST_VERSION;
  cp_head : mf_head m = head;
  cp_refs : mf_refs m = refs;
  cp_parent : mf_parent m = parent_digest ps;
  cp_canonical : pack_list (mf_packs m) = mf_packs m;
  cp_packs : packs_stored G m;
  cp_closed : closed G m;
}.

Definition pack_in G k b : Prop := is_pointer k = false /\ stored G k b.
Lemma pack_in_grows G G' k b : grows G G' -> pack_in G k b -> pack_in G' k b.
Proof. intros Hg [Hk Hs]. split; [done|]. by eapply stored_grows. Qed.

Lemma elem_of_ref_oids refs oid : oid ∈ ref_oids refs <-> exists name, refs !! name = Some oid.
Proof.
  unfold ref_oids. rewrite list_elem_of_fmap. split.
  - intros ([name o] & -> & Hin%elem_of_sorted_refs). by exists name.
  - intros [name Hn]. exists (name, oid). split; [done|]. by apply elem_of_sorted_refs.
Qed.

Lemma wp_put_pack pid bytes G :
  wp pid (put_pack bytes) G (fun G' r => forall key, r = Ok key -> pack_in G' key bytes).
Proof.
  assert ("packs" ∈ prefixes) as Hp by by left.
  pose proof (wp_put_immutable pid "packs" bytes G Hp) as Hput. cbn in Hput |- *. intros G1 Hi1 Hg1 Hr.
  destruct (Hput G1 Hi1 Hg1 Hr) as [Ha Hk]. split; [done|]. intros G2 x Hx key Hkey.
  destruct (Hk G2 x Hx key Hkey) as [-> Hs]. split; [|done]. by apply content_key_prefix.
Qed.

Lemma wp_write_idx_sidecar pid g key bytes G : inv G -> wp pid (write_idx_sidecar g key bytes) G (fun _ _ => True).
Proof.
  intros Hi. unfold write_idx_sidecar. destruct (digest_from_pack_key key); [|done]. destruct (gr_index_pack g bytes); [|done].
  by apply (wp_then _ _ _ _ _ _ _ _ Hi (wp_put_idx _ _ _ _)).
Qed.

Definition uploaded G (files : list PackFile) (acc keys : list string) : Prop :=
  (forall k, k ∈ keys -> k ∈ acc \/ exists b, pack_in G k b) /\ (forall k, k ∈ acc -> k ∈ keys) /\
  forall f, f ∈ files -> exists k b, pf_pack_read f = Some b /\ k ∈ keys /\ pack_in G k b.

Lemma uploaded_cons G f files acc k b keys :
  pf_pack_read f = Some b -> pack_in G k b -> uploaded G files (acc ++ [k]) keys -> uploaded G (f :: files) acc keys.
Proof.
  intros Hf Hk (Hin & Hacc & Hfiles). split_and!.
  - intros k' [[Hk'|Hk']%elem_of_app|Hk']%Hin; [by left| |by right].
    apply list_elem_of_singleton in Hk' as ->. right. by exists b.
  - intros k' Hk'. apply Hacc. set_solver.
  - intros f' [->|Hf']%elem_of_cons; [|by apply Hfiles]. exists k, b. split_and!; [done|apply Hacc; set_solver|done].
Qed.

Lemma wp_upload_packs pid files acc G :
  inv G -> wp pid (upload_packs files acc) G (fun G' r => forall keys, r = Ok keys -> uploaded G' files acc keys).
Proof.
  revert acc G. induction files as [|f files IH]; intros acc G Hi; cbn [upload_packs].
  { intros keys [= <-]. split_and!; [|by intros k; rewrite elem_of_pack_list|by intros ? ?%elem_of_nil].
    intros k Hk%(proj1 (elem_of_pack_list _ _)). by left. }
  destruct (pf_pack_read f) as [bytes|] eqn:Ef; [|done]. destruct (negb _); [done|].
  eapply (wp_then _ _ _ _ _ _ _ _ Hi (wp_put_pack pid bytes G)). intros G1 [key|e] Hi1 Hg1 Hkey; [|done].
  specialize (Hkey key eq_refl). destruct (digest_from_pack_key key); [|done].
  assert (forall G2, inv G2 -> grows G1 G2 ->
    wp pid (upload_packs files (acc ++ [key])) G2 (fun G' r => forall keys, r = Ok keys -> uploaded G' (f :: files) acc keys)) as Hrest.
  { intros G2 Hi2 Hg2. apply (wp_mono _ _ _ _ _ _ _ Hi2) with (2 := IH _ _ Hi2). intros G3 r Hi3 Hg3 Hr keys Hkeys.
    eapply uploaded_cons; [done| |by apply Hr]. eapply pack_in_grows; [|done]. by etrans. }
  destruct (pf_idx_read f); [|by apply Hrest].
  eapply (wp_then _ _ _ _ _ _ _ _ Hi1 (wp_put_idx pid _ _ G1)). intros G2 _ Hi2 Hg2 _. by apply Hrest.
Qed.

Lemma compacted_covers g refs limits files :
  git_faithful g -> capture_compacted_packs g refs limits = Ok files ->
  forall name oid o, refs !! name = Some oid -> o ∈ closure oid ->
    exists f, f ∈ files /\ forall b, pf_pack_read f = Some b -> o ∈ pack_objects b.
Proof.
  intros Hg Hc name oid o Hn Ho. assert (oid ∈ ref_oids refs) as Hin by (apply elem_of_ref_oids; eauto).
  unfold capture_compacted_packs in Hc. destruct (ref_oids refs) as [|o1 os] eqn:Eo; [set_solver|].
  destruct (enforce_compaction_object_limit g); [|done]. cbn [mbind] in Hc.
  destruct (gr_compacted g _) as [files'|] eqn:Eg; [|done]. destruct (_ <? _)%nat; [done|].
  destruct (check_pack_sizes _ _ _); [|done]. injection Hc as <-.
  eapply (gf_compacted g Hg); [done| |done]. by rewrite elem_of_dedup_first.
Qed.

Lemma compose_compacted_composed G ps head refs files keys g limits :
  git_faithful g -> capture_compacted_packs g refs limits = Ok files -> uploaded G files [] keys ->
  composed G ps head refs (compose_compacted_after (parent_digest ps) head refs keys).
Proof.
  intros Hg Hc (Hin & _ & Hfiles). split; [done..|apply pack_list_idemp| |].
  - intros p Hp%(proj1 (elem_of_pack_list _ _)). destruct (Hin p Hp) as [[]%elem_of_nil|(b & Hk & Hb)]. eauto.
  - intros name oid o Hn Ho. destruct (compacted_covers _ _ _ _ Hg Hc _ _ _ Hn Ho) as (f & Hf & Hb).
    destruct (Hfiles f Hf) as (k & b & Hr & Hk & _ & Hs). exists k, b.
    split_and!; [by apply elem_of_pack_list|done|by apply Hb].
Qed.

Lemma wp_compact_if_due pid g ps options head refs G :
  inv G -> git_faithful g ->
  wp pid (compact_if_due g ps options head refs) G (fun G' r => forall m, r = Some (inl m) -> composed G' ps head refs m).
Proof.
  intros Hi Hg. unfold compact_if_due. destruct (negb _); [done|]. destruct (negb _); [done|].
  set (p := prepare_compaction _ _ _ _).
  assert (wp pid p G (fun G' r => forall keys, r = Ok keys ->
    composed G' ps head refs (compose_compacted_after (parent_digest ps) head refs keys))) as Hp.
  { unfold p, prepare_compaction. destruct (capture_compacted_packs _ _ _) as [files|] eqn:E; [|done].
    destruct (negb _); [done|]. apply (wp_mono _ _ _ _ _ _ _ Hi) with (2 := wp_upload_packs pid files [] G Hi).
    intros G1 r _ _ Hr keys ->. by eapply compose_compacted_composed, Hr. }
  eapply (wp_then _ _ _ _ _ _ _ _ Hi (wp_timeout _ _ pid (gr_compaction_time g) _ _ _ Hp)).
  intros G1 [[keys|e]|] Hi1 Hg1 Hr m Hm; [|done|done]. simplify_eq. by eapply Hr.
Qed.

(** What a parent's refs reach is in its packs, also those of no parent. *)
Lemma parent_closed G pk ps : knows_parent G pk ps -> packs_stored G (ps_parent ps) /\ closed G (ps_parent ps).
Proof.
  unfold knows_parent. destruct (if_match ps), (parent_digest ps); [|done..|].
  - intros [_ []]. done.
  - intros ->. split; [intros ? []%elem_of_nil|]. intros ? ? ? Hn. cbn in Hn. by rewrite lookup_empty in Hn.
Qed.

Definition with_pack (packs : list string) (k : option string) : list string :=
  match k with
  | Some k => if existsb (fun p => String.eqb p k) packs then packs else packs ++ [k]
  | None => packs
  end.
Lemma elem_of_with_pack packs (k : option string) p : p ∈ with_pack packs k <-> p ∈ packs \/ k = Some p.
Proof.
  destruct k as [k|]; cbn; [|naive_solver]. destruct (existsb _ _) eqn:E; [|set_solver].
  apply existsb_exists in E as (x & Hx%list_elem_of_In & ->%String.eqb_eq). naive_solver.
Qed.

(** The objects of the new refs are in the new pack, or reached from the old refs. *)
Lemma compose_after_composed G pk ps head refs new :
  knows_parent G pk ps -> (forall k, new = Some k -> exists b, pack_in G k b) ->
  (forall name oid o, refs !! name = Some oid -> o ∈ closure oid ->
     (exists k b, new = Some k /\ stored G k b /\ o ∈ pack_objects b) \/
     exists n, n ∈ ref_oids (mf_refs (ps_parent ps)) /\ o ∈ closure n) ->
  composed G ps head refs (compose_after (ps_parent ps) (parent_digest ps) head refs new).
Proof.
  intros Hps Hnew Hcov. destruct (parent_closed _ _ _ Hps) as [Hpk Hcl].
  assert (forall p, p ∈ mf_packs (compose_after (ps_parent ps) (parent_digest ps) head refs new) <->
    p ∈ mf_packs (ps_parent ps) \/ new = Some p) as Hin.
  { intros p. etrans; [apply elem_of_pack_list|apply elem_of_with_pack]. }
  split; [done..|apply pack_list_idemp| |].
  - intros p [Hp|Hp]%Hin; [by apply Hpk|]. destruct (Hnew p Hp) as (b & Hk & Hb). eauto.
  - intros name oid o Hn Ho. destruct (Hcov name oid o Hn Ho) as [(k & b & Hk & Hb & Hob)|(n & Hn' & Hon)].
    + exists k, b. rewrite Hin. auto.
    + apply elem_of_ref_oids in Hn' as [name' Hn']. destruct (Hcl _ _ _ Hn' Hon) as (p & b & Hp & Hb & Hob).
      exists p, b. rewrite Hin. auto.
Qed.

(** What [capture_pack] found covers the new refs. *)
Lemma capture_covers g before after max r :
  git_faithful g -> capture_pack g before after max = Ok r ->
  forall name oid o, after !! name = Some oid -> o ∈ closure oid ->
    (exists b, r = Some b /\ o ∈ pack_objects b) \/ exists n, n ∈ ref_oids before /\ o ∈ closure n.
Proof.
  intros Hg Hc name oid o Hn Ho. assert (oid ∈ ref_oids after) as Hin by (apply elem_of_ref_oids; eauto).
  unfold capture_pack in Hc. destruct (ref_oids after) as [|o1 os] eqn:Eo; [set_solver|].
  destruct (gr_pack_objects g _ _) as [[len read]|] eqn:Ep; [|done]. destruct (_ <? _)%N; [done|].
  destruct (N.eqb_spec len 0) as [->|_].
  - right. by eapply (gf_empty g Hg).
  - destruct read as [bytes|]; [|done]. injection Hc as <-.
    destruct (gf_pack g Hg _ _ _ _ Ep oid o Hin Ho) as [Hb|Hb]; [left; eauto|by right].
Qed.

Lemma wp_publish_delta pid g pk ps limits head refs failure G :
  inv G -> git_faithful g -> knows_parent G pk ps ->
  wp pid (publish_delta g ps limits head refs failure) G (fun G' r => forall m, r = Ok m -> composed G' ps head refs m).
Proof.
  intros Hi Hg Hps. unfold publish_delta. destruct (capture_pack _ _ _ _) as [[bytes|]|e] eqn:Ec; [| |done].
  - destruct (_ <=? _)%nat; [done|]. destruct (_ <? _)%N; [done|]. destruct (_ <? _)%N; [done|].
    eapply (wp_then _ _ _ _ _ _ _ _ Hi (wp_put_pack pid bytes G)). intros G1 [key|e] Hi1 Hg1 Hkey; [|done].
    specialize (Hkey key eq_refl).
    eapply (wp_then _ _ _ _ _ _ _ _ Hi1 (wp_write_idx_sidecar pid g key bytes G1 Hi1)). intros G2 _ Hi2 Hg2 _ m [= <-].
    apply (pack_in_grows _ _ _ _ Hg2) in Hkey.
    apply (compose_after_composed G2 pk); [eapply knows_parent_grows; [|done]; by etrans|by intros k [= <-]; eauto|].
    intros name oid o Hn Ho. destruct (capture_covers _ _ _ _ _ Hg Ec name oid o Hn Ho) as [(b & [= <-] & Hb)|Hb]; [left|by right].
    exists key, bytes. split_and!; [done|apply Hkey|done].
  - intros m [= <-]. apply (compose_after_composed G pk); [done|done|].
    intros name oid o Hn Ho. by destruct (capture_covers _ _ _ _ _ Hg Ec name oid o Hn Ho) as [(b & ? & _)|Hb]; [|right].
Qed.

(** ** Loading *)

(** An entry of the history no older than the end of it at [since]. *)
Definition entry G (since : nat) pk d m : Prop :=
  exists i q, history G pk !! i = Some (q, d) /\ (since <= S i)%nat /\ published G d m.
Lemma entry_grows G G' since pk d m : grows G G' -> entry G since pk d m -> entry G' since pk d m.
Proof.
  intros Hg (i & q & Hi & Hs & Hp). exists i, q. split_and!; [by eapply history_lookup_grows|done|by eapply published_grows].
Qed.

Lemma pointer_entry G G0 pk b t :
  inv G -> grows G0 G -> is_pointer pk = true -> at_key G pk = Some (b, t) ->
  pointer_digest b = Some b /\ exists m, entry G (length (history G0 pk)) pk b m /\ knows_parent G pk (from_loaded t b m).
Proof.
  intros Hi Hg Hpk Hat. destruct (pointer_value G pk b t Hi Hpk Hat) as (q & m & Hl & Hd & Hm & _). split; [done|].
  exists m. split.
  - rewrite last_lookup in Hl. exists (pred (length (history G pk))), q. split_and!; [done| |done].
    pose proof (prefix_length _ _ (gw_history _ _ Hg pk)). apply lookup_lt_Some in Hl. lia.
  - split; [|done]. exists (sh_bucket G). split; [reflexivity|done].
Qed.
Lemma no_pointer_no_history G pk : inv G -> is_pointer pk = true -> at_key G pk = None -> history G pk = [].
Proof.
  intros Hi Hpk Hat. pose proof (iv_pointer _ _ G Hi pk Hpk) as Hp. rewrite Hat in Hp.
  by destruct (history G pk) as [|[q d] l _] using rev_ind; [|rewrite last_snoc in Hp].
Qed.

Lemma stored_published G d b m m' :
  published G d m -> stored G ("manifests/" +:+ d) b -> from_bytes b = Ok m' -> m' = m.
Proof. intros [(b' & [t' Ht'] & Hb') _ _ _] [t Ht] Hb. congruence. Qed.

Definition loaded_ok G (since : nat) pk (r : option (ETag * string * Manifest)) : Prop :=
  match r with
  | Some (e, d, m) => entry G since pk d m /\ knows_parent G pk (from_loaded e d m)
  | None => since = 0%nat
  end.
Lemma loaded_ok_grows G G' since pk r : grows G G' -> loaded_ok G since pk r -> loaded_ok G' since pk r.
Proof.
  intros Hg. destruct r as [[[e d] m]|]; [|done]. intros [He Hk]. split; [by eapply entry_grows|by eapply knows_parent_grows].
Qed.

Lemma pointer_key_pointer community owner repo : is_pointer (pointer_key community owner repo) = true.
Proof. done. Qed.

Lemma wp_load_pointer pid community owner repo G :
  let pk := pointer_key community owner repo in
  inv G -> wp pid (load_pointer community owner repo) G (fun G' r =>
    forall x, r = Ok x -> loaded_ok G' (length (history G pk)) pk x).
Proof.
  intros pk Hi. assert (is_pointer pk = true) as Hpk by apply pointer_key_pointer.
  apply (wp_then _ _ _ _ _ _ _ _ Hi (wp_get_pointer pid pk G)). intros G1 [[[e b]|]|err] Hi1 Hg1 Hr; [| |done].
  2:{ intros x [= <-]. cbn. pose proof (gw_history _ _ Hg1 pk) as Hp.
      rewrite (no_pointer_no_history G1 pk Hi1 Hpk Hr) in Hp. by apply prefix_nil_inv in Hp as ->. }
  destruct (pointer_entry G1 G pk b e Hi1 Hg1 Hpk Hr) as (-> & m & He & Hk).
  unfold hydrate_get_verified_limited. apply wp_bind.
  apply (wp_then _ _ _ _ _ _ _ _ Hi1 (wp_get_verified_limited pid _ b MAX_MANIFEST_BYTES G1 Hi1)).
  intros G2 [bytes|err] Hi2 Hg2 Hb; [|by destruct err]. specialize (Hb bytes eq_refl). cbn.
  intros x Hx. destruct (from_bytes bytes) as [m'|] eqn:Em; [|done]. destruct (validate m'); [|done]. injection Hx as <-.
  assert (m' = m) as ->.
  { eapply stored_published; [|done|done]. eapply published_grows; [done|]. by destruct He as (i & q & _ & _ & ?). }
  by apply (loaded_ok_grows G1 G2 _ pk (Some (e, b, m)) Hg2).
Qed.

(** ** The commit *)

(** What a successful push has done. *)
Record committed G pid pk (ps : ParentState) (head : string) (refs : gmap string string) (s : CasSuccess) d : Prop := {
  cm_key : cs_manifest_key s = "manifests/" +:+ d;
  cm_installed : installed G pid pk ps d;
  cm_published : published G d (cs_manifest s);
  cm_composed : composed G ps head refs (cs_manifest s);
}.
Lemma composed_grows G G' ps head refs m : grows G G' -> composed G ps head refs m -> composed G' ps head refs m.
Proof.
  intros Hg [? ? ? ? ? Hp Hc]. split; [done..|by eapply packs_stored_grows|by eapply closed_grows].
Qed.
Lemma committed_grows G G' pid pk ps head refs s d :
  grows G G' -> committed G pid pk ps head refs s d -> committed G' pid pk ps head refs s d.
Proof.
  intros Hg [Hk Hi Hp Hc]. split; [done|by eapply installed_grows|by eapply published_grows|by eapply composed_grows].
Qed.

Definition publish_ok G pid pk (ps : ParentState) (head : string) (refs : gmap string string)
    (r : result CasSuccess CasError) : Prop :=
  forall s, r = Ok s -> exists d, committed G pid pk ps head refs s d.

Lemma wp_read_winner pid pk G : inv G -> wp pid (read_winner_after_conflict pk) G (fun _ _ => True).
Proof.
  intros Hi. apply (wp_then _ _ _ _ _ _ _ _ Hi (wp_get_pointer pid pk G)). intros G1 [[[e b]|]|err] Hi1 _ _; [|done|done].
  destruct (pointer_digest b) as [d|]; [|done]. by apply (wp_then _ _ _ _ _ _ _ _ Hi1 (wp_get_verified pid _ d G1 Hi1)).
Qed.

Lemma manifest_key_digest b : digest_from_manifest_key (content_key "manifests" b) = Ok (digest_hex b).
Proof.
  unfold digest_from_manifest_key, content_key. rewrite <- string_app_assoc.
  by rewrite (proj2 (strip_prefix_Some "manifests/" _ (digest_hex b)) eq_refl).
Qed.

Lemma wp_commit_manifest pid pk ps head refs m G :
  inv G -> is_pointer pk = true -> knows_parent G pk ps -> composed G ps head refs m -> origin pid pk m ->
  wp pid (commit_manifest pk ps m) G (fun G' r => publish_ok G' pid pk ps head refs r).
Proof.
  intros Hi Hpk Hps Hm Horig. unfold commit_manifest. destruct (validate m) as [[]|] eqn:Ev; [|done].
  apply validate_exact in Ev. destruct (canonical_bytes m) as [bytes|] eqn:Eb; [|done].
  pose proof (from_canonical m bytes (cp_version _ _ _ _ _ Hm) Eb) as Hfrom.
  assert (canonical m = m) as Hcan by (destruct Hm, m; unfold canonical; cbn in *; congruence). rewrite Hcan in Hfrom.
  assert ("manifests" ∈ prefixes) as Hin by by right; left.
  apply (wp_then _ _ _ _ _ _ _ _ Hi (wp_put_immutable pid "manifests" bytes G Hin)).
  intros G1 [key|e] Hi1 Hg1 Hkey; [|done]. destruct (Hkey key eq_refl) as [-> Hs]. rewrite manifest_key_digest.
  apply (composed_grows _ _ _ _ _ _ Hg1) in Hm. apply (knows_parent_grows _ _ _ _ Hg1) in Hps.
  assert (published G1 (digest_hex bytes) m) as Hpub by (destruct Hm; split; [by exists bytes|done..]).
  apply (wp_then _ _ _ _ _ _ _ _ Hi1 (wp_put_pointer pid pk ps _ m G1 Hpk Hpub (cp_parent _ _ _ _ _ Hm) Horig Hps)).
  intros G2 [[e|]|e] Hi2 Hg2 Hr; [| |done].
  - intros s [= <-]. exists (digest_hex bytes).
    split; [done|by eapply Hr|by eapply published_grows|by eapply composed_grows].
  - apply (wp_then _ _ _ _ _ _ _ _ Hi2 (wp_read_winner pid pk G2 Hi2)). by intros G3 [[w key]|e] _ _ _.
Qed.

(** ** Publishing *)

Lemma wp_cas_publish_inner pid community owner repo g ps options G :
  let pk := pointer_key community owner repo in
  inv G -> git_faithful g -> knows_parent G pk ps ->
  (forall refs observed m, snapshot_workspace_state g = Ok (refs, observed) -> mf_refs m = refs ->
     mf_head m = resolve_published_head refs observed (mf_head (ps_parent ps)) -> mf_parent m = parent_digest ps ->
     origin pid pk m) ->
  wp pid (cas_publish_inner community owner repo g ps options) G (fun G' r =>
    forall s, r = Ok s -> exists refs observed d, snapshot_workspace_state g = Ok (refs, observed) /\
      committed G' pid pk ps (resolve_published_head refs observed (mf_head (ps_parent ps))) refs s d).
Proof.
  intros pk Hi Hg Hps Horig. unfold cas_publish_inner. fold pk.
  destruct (snapshot_workspace_state g) as [[refs observed]|]; [|done].
  set (head := resolve_published_head _ _ _). assert (is_pointer pk = true) as Hpk by apply pointer_key_pointer.
  set (Q := fun G' r => _).
  assert (forall G1 m, inv G1 -> grows G G1 -> composed G1 ps head refs m -> wp pid (commit_manifest pk ps m) G1 Q) as Hcommit.
  { intros G1 m Hi1 Hg1 Hm. apply (knows_parent_grows _ _ _ _ Hg1) in Hps.
    eapply (wp_mono _ _ _ _ _ _ _ Hi1) with (2 := wp_commit_manifest pid pk ps head refs m G1 Hi1 Hpk Hps Hm (Horig _ _ m eq_refl (cp_refs _ _ _ _ _ Hm) (cp_head _ _ _ _ _ Hm) (cp_parent _ _ _ _ _ Hm))).
    intros G2 r _ _ Hr s Hs. destruct (Hr s Hs) as [d Hd]. by exists refs, observed, d. }
  assert (forall failure G1, inv G1 -> grows G G1 ->
    wp pid (try! m_after := publish_delta g ps (po_limits options) head refs failure in commit_manifest pk ps m_after) G1 Q) as Hdelta.
  { intros failure G1 Hi1 Hg1. apply (knows_parent_grows _ _ _ _ Hg1) in Hps.
    apply (wp_then _ _ _ _ _ _ _ _ Hi1 (wp_publish_delta pid g pk ps (po_limits options) head refs failure G1 Hi1 Hg Hps)).
    intros G2 [m|e] Hi2 Hg2 Hm; [|done]. apply Hcommit; [done|by etrans|by apply Hm]. }
  apply (wp_then _ _ _ _ _ _ _ _ Hi (wp_compact_if_due pid g ps options head refs G Hi Hg)).
  intros G1 [[m|e]|] Hi1 Hg1 Hr; [by apply Hcommit; [..|apply Hr]|by apply Hdelta..].
Qed.

(** ** The state a push starts from *)

Lemma wp_hydrate_for_write pid materialize init community owner repo G :
  let pk := pointer_key community owner repo in
  inv G -> wp pid (hydrate_for_write materialize init community owner repo) G (fun G' r =>
    forall n ps, r = Ok (n, ps) -> knows_parent G' pk ps /\
      (length (history G pk) = 0%nat \/
       exists d, parent_digest ps = Some d /\ entry G' (length (history G pk)) pk d (ps_parent ps))).
Proof.
  intros pk Hi. apply (wp_then _ _ _ _ _ _ _ _ Hi (wp_load_pointer pid community owner repo G Hi)). fold pk.
  intros G1 [[[[e d] m]|]|err] Hi1 Hg1 Hr; [| |done]; specialize (Hr _ eq_refl); intros n ps Hps.
  - destruct Hr as [He Hk]. destruct (materialize m); [|done]. injection Hps as _ <-. split; [done|]. right. by exists d.
  - destruct init; [|done]. injection Hps as _ <-. split; [done|by left].
Qed.
End commit.
