(* ===== verification/GitPkt.v ===== *)
(** Packet lines of the git protocol, buzz-relay/src/api/git/transport.rs: the
    reference advertisement of the fast path and the scan of a push's report. *)

From S2P Require Import Prelude Nostr RustStr GitManifest GitStore.

(** ** Slices *)

Fixpoint str_take (n : nat) (s : string) : string :=
  match n, s with S n, String a s => String a (str_take n s) | _, _ => "" end.
Fixpoint str_drop (n : nat) (s : string) : string :=
  match n, s with S n, String _ s => str_drop n s | _, _ => s end.

Lemma str_take_app s t : str_take (String.length s) (s +:+ t) = s.
Proof. induction s as [|a s IH]; [done|]. rewrite string_app_cons. cbn. by rewrite IH. Qed.
Lemma str_drop_app s t : str_drop (String.length s) (s +:+ t) = t.
Proof. induction s as [|a s IH]; [done|]. rewrite string_app_cons. cbn. by rewrite IH. Qed.
Lemma length_str_drop n s : String.length (str_drop n s) = (String.length s - n)%nat.
Proof. revert s. induction n as [|n IH]; intros [|a s]; cbn; [done|done|done|]. by rewrite IH. Qed.

(** ** Writing *)

Definition PKT_LINE_MAX_PAYLOAD : N := 65535 - 4.

(** [format!("{:04x}")] of a number below 2^16. *)
Definition hex_char (n : N) : ascii := ascii_of_N (if (n <? 10)%N then 48 + n else 87 + n).
Definition hex04 (n : N) : string :=
  String (hex_char (n / 4096)) (String (hex_char (n / 256 mod 16)) (String (hex_char (n / 16 mod 16))
    (String (hex_char (n mod 16)) ""))).

Definition pkt_line (out payload : string) : string :=
  if (PKT_LINE_MAX_PAYLOAD <? str_bytes payload)%N then out +:+ "0004"
  else out +:+ hex04 (str_bytes payload + 4) +:+ payload.

(** ** Reading *)

Definition hex_value (c : ascii) : option N :=
  let n := N_of_ascii c in
  if byte_in 48 57 c then Some (n - 48)%N
  else if byte_in 97 102 c then Some (n - 87)%N
  else if byte_in 65 70 c then Some (n - 55)%N else None.
Fixpoint radix16 (acc : N) (s : string) : option N :=
  match s with
  | EmptyString => Some acc
  | String c s => match hex_value c with Some d => radix16 (16 * acc + d) s | None => None end
  end.
(** [usize::from_str_radix(s, 16)] of at most four bytes. *)
Definition from_str_radix16 (s : string) : option N :=
  match s with
  | EmptyString => None
  | String "+" (String _ _ as s') => radix16 0 s'
  | _ => radix16 0 s
  end.

(** [PktLineIter]: the payloads of a stream; each round consumes four bytes. *)
Fixpoint pkt_lines_from (fuel : nat) (buf : string) : list string :=
  match fuel with
  | O => []
  | S fuel =>
      if (String.length buf <? 4)%nat then []
      else
        match from_utf8 (str_take 4 buf) with
        | None => []
        | Some len_hex =>
            match from_str_radix16 len_hex with
            | None => []
            | Some len =>
                if (len <? 4)%N then pkt_lines_from fuel (str_drop 4 buf)
                else if (str_bytes buf <? len)%N then []
                else str_take (N.to_nat len - 4) (str_drop 4 buf) :: pkt_lines_from fuel (str_drop (N.to_nat len) buf)
            end
        end
  end.
Definition PktLineIter (buf : string) : list string := pkt_lines_from (String.length buf) buf.

Definition receive_pack_report_rejected (stdout : string) : bool :=
  existsb (fun payload =>
    match payload with
    | String c rest =>
        let band := N_of_ascii c in
        if (band =? 1)%N then existsb (starts_with "ng ") (PktLineIter rest)
        else if (band =? 2)%N || (band =? 3)%N then false
        else starts_with "ng " payload
    | EmptyString => starts_with "ng " payload
    end) (PktLineIter stdout).

(** ** The advertisement *)

Definition MAX_FAST_PATH_REFNAME_LEN : N := 4096.

Definition fast_path_eligible (manifest : Manifest) : bool :=
  if existsb (fun r => starts_with "refs/tags/" r.1) (sorted_refs (mf_refs manifest)) then false
  else if negb (bool_decide (is_Some (mf_refs manifest !! mf_head manifest))) then false
  else forallb (fun r => is_safe_refname r.1 && (str_bytes r.1 <=? MAX_FAST_PATH_REFNAME_LEN)%N && is_hex_oid r.2)
         (sorted_refs (mf_refs manifest)).

Definition newline : string := String "010" "".
Definition nul : string := String "000" "".

Definition advertised_caps (head object_format : string) : string :=
  "multi_ack thin-pack side-band side-band-64k ofs-delta shallow deepen-since deepen-not deepen-relative no-progress include-tag multi_ack_detailed no-done symref=HEAD:"
  +:+ head +:+ " object-format=" +:+ object_format +:+ " agent=buzz-git".
Definition service_line (service : string) : string := "# service=" +:+ service +:+ newline.
Definition head_line (head_oid caps : string) : string := head_oid +:+ " HEAD" +:+ nul +:+ caps +:+ newline.
Definition ref_line (r : string * string) : string := r.2 +:+ " " +:+ r.1 +:+ newline.

Definition build_upload_pack_advertisement (manifest : Manifest) : string :=
  let head_oid := default "" (mf_refs manifest !! mf_head manifest) in
  let object_format := if bool_decide (String.length head_oid = 64%nat) then "sha256" else "sha1" in
  let caps := advertised_caps (mf_head manifest) object_format in
  let out := pkt_line "" (service_line "git-upload-pack") in
  let out := out +:+ "0000" in
  let out := pkt_line out (head_line head_oid caps) in
  foldl (fun out r => pkt_line out (ref_line r)) out (sorted_refs (mf_refs manifest)) +:+ "0000".

(** ** Reading back what was written *)

(** A stream as its writer composes it. *)
Inductive Pkt := Flush | Line (payload : string).
Definition pkt_text (p : Pkt) : string := match p with Flush => "0000" | Line x => pkt_line "" x end.
Fixpoint stream (ps : list Pkt) : string := match ps with [] => "" | p :: ps => pkt_text p +:+ stream ps end.
Definition payloads (ps : list Pkt) : list string := omap (fun p => match p with Line x => Some x | Flush => None end) ps.
Definition fits (p : Pkt) : Prop := match p with Line x => (str_bytes x <= PKT_LINE_MAX_PAYLOAD)%N | Flush => True end.

Definition hex_char_ok (n : N) : bool :=
  bool_decide (hex_value (hex_char n) = Some n) && byte_in 0 127 (hex_char n).
Lemma hex_char_value n : (n < 16)%N -> hex_value (hex_char n) = Some n /\ byte_in 0 127 (hex_char n) = true.
Proof.
  intros Hn. assert (forallb hex_char_ok (N.of_nat <$> seq 0 16) = true) as Hall by (vm_compute; reflexivity).
  rewrite forallb_forall in Hall. specialize (Hall n). unfold hex_char_ok in Hall. rewrite !andb_true_iff, bool_decide_eq_true in Hall.
  destruct Hall as [Hv Hb]; [|done]. apply list_elem_of_In, list_elem_of_fmap. exists (N.to_nat n).
  split; [lia|]. apply elem_of_seq. lia.
Qed.
Lemma hex04_read n : (n < 65536)%N -> from_utf8 (hex04 n) = Some (hex04 n) /\ from_str_radix16 (hex04 n) = Some n.
Proof.
  intros Hn. unfold hex04.
  assert (n / 4096 < 16 /\ n / 256 mod 16 < 16 /\ n / 16 mod 16 < 16 /\ n mod 16 < 16)%N as (Ha & Hb & Hc & Hd).
  { split_and!; [apply N.Div0.div_lt_upper_bound; lia|apply N.mod_lt; lia..]. }
  destruct (hex_char_value _ Ha) as (Va & Ba), (hex_char_value _ Hb) as (Vb & Bb),
    (hex_char_value _ Hc) as (Vc & Bc), (hex_char_value _ Hd) as (Vd & Bd).
  split.
  - unfold from_utf8. rewrite ascii_utf8; [done|]. cbn [all_chars]. by rewrite Ba, Bb, Bc, Bd.
  - transitivity (radix16 0 (hex04 n)).
    + unfold from_str_radix16, hex04. destruct (hex_char (n / 4096)) as [[] [] [] [] [] [] [] []]; done.
    + unfold hex04. cbn [radix16]. rewrite Va, Vb, Vc, Vd. f_equal. clear. 
      rewrite N.mul_0_r, N.add_0_l.
      pose proof (N.div_mod' n 16). pose proof (N.div_mod' (n / 16) 16). pose proof (N.div_mod' (n / 16 / 16) 16).
      rewrite !N.Div0.div_div in *. change (16 * 16)%N with 256%N in *. change (256 * 16)%N with 4096%N in *. lia.
Qed.

Lemma pkt_line_app out x : pkt_line out x = out +:+ pkt_line "" x.
Proof. unfold pkt_line. destruct (_ <? _)%N; by rewrite string_app_nil_l. Qed.

Lemma pkt_lines_flush fuel buf : pkt_lines_from (S fuel) ("0000" +:+ buf) = pkt_lines_from fuel buf.
Proof. rewrite !string_app_cons, string_app_nil_l. reflexivity. Qed.
Lemma pkt_lines_line fuel x buf :
  (str_bytes x <= PKT_LINE_MAX_PAYLOAD)%N ->
  pkt_lines_from (S fuel) (pkt_line "" x +:+ buf) = x :: pkt_lines_from fuel buf.
Proof.
  intros Hx. assert (str_bytes x <= 65531)%N as Hb by (unfold PKT_LINE_MAX_PAYLOAD in *; lia).
  unfold pkt_line. replace (_ <? _)%N with false by (symmetry; apply N.ltb_ge; unfold PKT_LINE_MAX_PAYLOAD; lia).
  rewrite string_app_nil_l, string_app_assoc. set (len := (str_bytes x + 4)%N).
  assert (String.length (hex04 len) = 4%nat) as Hl by done.
  destruct (hex04_read len) as [Hu Hr]; [unfold len; lia|].
  cbn [pkt_lines_from]. rewrite string_length_app, Hl. cbn [Nat.add Nat.ltb Nat.leb].
  rewrite <- Hl at 1. rewrite str_take_app, Hu, Hr.
  replace (len <? 4)%N with false by (symmetry; apply N.ltb_ge; lia).
  assert (str_bytes (hex04 len +:+ x +:+ buf) = len + str_bytes buf)%N as Hlen.
  { unfold str_bytes at 1. rewrite !string_length_app, Hl. unfold len, str_bytes. lia. }
  rewrite Hlen. replace (_ <? _)%N with false by (symmetry; apply N.ltb_ge; lia).
  assert (N.to_nat len = String.length (hex04 len +:+ x)) as Hn.
  { rewrite string_length_app, Hl. unfold len, str_bytes. lia. }
  f_equal.
  - rewrite <- Hl at 2. rewrite str_drop_app. replace (N.to_nat len - 4)%nat with (String.length x); [apply str_take_app|].
    rewrite Hn, string_length_app. lia.
  - rewrite Hn, <- string_app_assoc. by rewrite str_drop_app.
Qed.

Lemma stream_read fuel ps :
  Forall fits ps -> (String.length (stream ps) <= fuel)%nat -> pkt_lines_from fuel (stream ps) = payloads ps.
Proof.
  intros Hf. revert fuel. induction Hf as [|p ps Hp _ IH]; intros fuel Hl; [by destruct fuel|].
  cbn [stream] in *. rewrite string_length_app in Hl.
  assert (4 <= String.length (pkt_text p))%nat as H4.
  { destruct p as [|x]; cbn; [lia|]. unfold pkt_line. destruct (_ <? _)%N; [done|]. rewrite string_app_nil_l, string_length_app. cbn. lia. }
  destruct fuel as [|fuel]; [lia|]. destruct p as [|x]; cbn [pkt_text].
  - rewrite pkt_lines_flush. apply IH. lia.
  - rewrite pkt_lines_line by done. cbn. f_equal. apply IH. lia.
Qed.
Lemma PktLineIter_stream ps : Forall fits ps -> PktLineIter (stream ps) = payloads ps.
Proof. intros Hf. by apply stream_read. Qed.

(** ** The report of a push *)

(** What [git receive-pack] writes: packets of status lines on the data band,
    progress and error text, or bare status lines. *)
Inductive Frame := Status (lines : list Pkt) | Text (error : bool) (text : string) | Bare (line : string) | Break.
Definition frame_pkt (f : Frame) : Pkt :=
  match f with
  | Status ls => Line (String "001" (stream ls))
  | Text error t => Line (String (if error then "003"%char else "002"%char) t)
  | Bare x => Line x
  | Break => Flush
  end.
(** Within the limits of the framing; a bare line is text. *)
Definition frame_ok (f : Frame) : Prop :=
  fits (frame_pkt f) /\
  match f with
  | Status ls => Forall fits ls
  | Bare (String c _) => (3 < N_of_ascii c)%N
  | _ => True
  end.
Definition frame_rejects (f : Frame) : bool :=
  match f with
  | Status ls => existsb (starts_with "ng ") (payloads ls)
  | Bare x => starts_with "ng " x
  | Text _ _ | Break => false
  end.

(** The scan of a push's report finds a refused ref exactly when the stream
    git wrote has a status line saying so: on the data band, in whole packets, or
    bare; progress and error text never count. *)
Theorem report_exact fs :
  Forall frame_ok fs -> receive_pack_report_rejected (stream (frame_pkt <$> fs)) = existsb frame_rejects fs.
Proof.
  intros Hfs. unfold receive_pack_report_rejected. rewrite PktLineIter_stream.
  2:{ apply Forall_fmap. eapply Forall_impl; [exact Hfs|]. by intros f []. }
  induction Hfs as [|f fs [Hf Hok] _ IH]; [done|]. destruct f as [ls|err t|x|]; cbn [fmap list_fmap frame_pkt existsb frame_rejects].
  4: exact IH.
  all: cbn [payloads omap list_omap existsb]; fold (payloads (frame_pkt <$> fs)); f_equal; [|exact IH].
  - cbn [N_of_ascii]. change (N_of_ascii "001" =? 1)%N with true. cbn iota. by rewrite PktLineIter_stream.
  - by destruct err.
  - destruct x as [|c x]; [done|]. cbn in Hok. cbn zeta.
    rewrite (proj2 (N.eqb_neq _ 1)), (proj2 (N.eqb_neq _ 2)), (proj2 (N.eqb_neq _ 3)) by lia. done.
Qed.

(** A status line that the side band splits over two packets is not found: the
    report says [ng], its two halves do not. *)
Example report_split_missed :
  let lines := stream [Line ("unpack ok" +:+ newline); Line ("ng refs/heads/main failed" +:+ newline); Flush] in
  let first := str_take 16 lines in
  existsb (starts_with "ng ") (PktLineIter lines) = true /\
  receive_pack_report_rejected
    (stream [Line (String "001" first); Line (String "001" (str_drop 16 lines)); Flush]) = false.
Proof. vm_compute. split; reflexivity. Qed.

(** A report that accepts one ref and refuses another counts as a refusal of the
    push, although it tells the client that the first ref was updated. *)
Example report_mixed_rejected :
  receive_pack_report_rejected
    (stream [Line (String "001" (stream [Line ("unpack ok" +:+ newline); Line ("ok refs/heads/a" +:+ newline);
       Line ("ng refs/heads/a/b failed to update ref" +:+ newline); Flush])); Flush]) = true.
Proof. vm_compute. reflexivity. Qed.

(** ** The advertisement lists the refs *)

Lemma hex_oid_length s : is_hex_oid s = true -> (String.length s <= 64)%nat.
Proof. unfold is_hex_oid. rewrite andb_true_iff, orb_true_iff, !bool_decide_eq_true. intros [[-> | ->] _]; lia. Qed.

Lemma foldl_pkt out rs :
  foldl (fun out r => pkt_line out (ref_line r)) out rs = out +:+ stream (Line ∘ ref_line <$> rs).
Proof.
  revert out. induction rs as [|r rs IH]; intros out; cbn; [by rewrite string_app_nil_r|].
  by rewrite IH, pkt_line_app, string_app_assoc.
Qed.
Lemma stream_app ps qs : stream (ps ++ qs) = stream ps +:+ stream qs.
Proof. induction ps as [|p ps IH]; [done|]. cbn. by rewrite IH, string_app_assoc. Qed.

Definition advertisement_lines (m : Manifest) (head_oid : string) : list string :=
  let format := if bool_decide (String.length head_oid = 64%nat) then "sha256" else "sha1" in
  service_line "git-upload-pack" :: head_line head_oid (advertised_caps (mf_head m) format)
  :: (ref_line <$> sorted_refs (mf_refs m)).

Lemma advertisement_exact m :
  fast_path_eligible m = true ->
  exists head_oid, mf_refs m !! mf_head m = Some head_oid /\
    PktLineIter (build_upload_pack_advertisement m) = advertisement_lines m head_oid.
Proof.
  unfold fast_path_eligible. destruct (existsb _ _); [done|]. case_bool_decide as Hs; [|done]. cbn [negb].
  destruct Hs as [oid Ho]. rewrite forallb_forall. intros Hall. exists oid. split; [done|].
  assert (forall r, r ∈ sorted_refs (mf_refs m) -> (String.length r.1 <= 4096 /\ String.length r.2 <= 64)%nat) as Hlen.
  { intros r Hr%list_elem_of_In%Hall. rewrite !andb_true_iff in Hr. destruct Hr as [[_ Hn%N.leb_le] Hx%hex_oid_length].
    split; [|done]. unfold MAX_FAST_PATH_REFNAME_LEN, str_bytes in Hn. lia. }
  assert ((mf_head m, oid) ∈ sorted_refs (mf_refs m)) as Hh by by apply elem_of_sorted_refs.
  unfold build_upload_pack_advertisement. rewrite Ho. cbn [default]. unfold advertisement_lines.
  set (format := if bool_decide _ then _ else _).
  assert (String.length format <= 6)%nat as Hfmt by (unfold format; destruct (bool_decide _); cbn; lia).
  rewrite foldl_pkt, pkt_line_app.
  transitivity (PktLineIter (stream ([Line (service_line "git-upload-pack"); Flush;
    Line (head_line oid (advertised_caps (mf_head m) format))] ++ (Line ∘ ref_line <$> sorted_refs (mf_refs m)) ++ [Flush]))).
  { f_equal. rewrite !stream_app. cbn [stream pkt_text]. by rewrite !string_app_nil_r, !string_app_assoc. }
  rewrite PktLineIter_stream.
  - unfold payloads. rewrite !omap_app. cbn. f_equal. f_equal. clear. induction (sorted_refs (mf_refs m)); cbn; congruence.
  - rewrite !Forall_app. split; [|split; [|by repeat constructor]].
    + apply Forall_cons; split; [done|]. apply Forall_cons; split; [done|]. apply Forall_singleton.
      cbn [fits]. destruct (Hlen _ Hh) as [Hn Hx]. cbn in Hn, Hx.
      unfold str_bytes, PKT_LINE_MAX_PAYLOAD, head_line, advertised_caps, nul, newline. rewrite !string_length_app.
      cbn [String.length]. lia.
    + apply Forall_fmap, Forall_forall. intros r Hr. destruct (Hlen r Hr) as [Hn Hx].
      unfold fits, str_bytes, PKT_LINE_MAX_PAYLOAD, ref_line, newline, compose. rewrite !string_length_app.
      cbn [String.length]. lia.
Qed.
