(* ===== verification/GitTransport.v ===== *)
(** The git endpoints, buzz-relay/src/api/git/transport.rs: repository names, the
    advertisement endpoint, and a push from the request to the response; and the
    announcement of a repository, buzz-relay/src/handlers/side_effects.rs.

    What subprocesses, the database lease and the event store answer during one
    request are arguments ([GitProcess], [ServingWrite], [PushRun],
    [AnnounceRun]). *)

From S2P Require Import Prelude Nostr RustStr GitManifest GitStore GitPublish GitPkt.

Record HttpResponse := mkResponse { status : N; body : string }.

Definition GIT_ERROR : HttpResponse := mkResponse 500 "git error".
Definition RECEIVE_PACK_MAX_OUTPUT_BYTES : N := 1024 * 1024.
Definition INFO_REFS_MAX_OUTPUT_BYTES : N := 4 * 1024 * 1024.

(** ** Names and addresses *)

Definition repo_name_char (c : ascii) : bool :=
  is_ascii_alphanumeric c || Ascii.eqb c "." || Ascii.eqb c "_" || Ascii.eqb c "-".

Definition validate_repo_id (owner repo : string) : result string HttpResponse :=
  if negb (bool_decide (String.length owner = 64%nat))
     || negb (all_chars (fun c => is_ascii_hexdigit c && negb (is_ascii_uppercase c)) owner) then
    Err (mkResponse 400 "invalid owner")
  else
    let repo_name := default repo (strip_suffix ".git" repo) in
    if String.eqb repo_name "" || (64 <? String.length repo_name)%nat || starts_with "." repo_name
       || contains_str ".." repo_name || negb (all_chars repo_name_char repo_name) then
      Err (mkResponse 400 "invalid repo name")
    else Ok repo_name.

(** [str::split_once] at a text: the part before its first occurrence. *)
Fixpoint before_str (p s : string) : option string :=
  if starts_with p s then Some ""
  else match s with
       | EmptyString => None
       | String a s => String a <$> before_str p s
       end.

Definition git_expected_url (config_relay_url host path_and_query : string) : option string :=
  let scheme := if starts_with "wss://" (trim_start config_relay_url) then "https" else "http" in
  let repo_path :=
    match before_str "/info/refs" path_and_query with
    | Some prefix => Some prefix
    | None =>
        match strip_suffix "/git-upload-pack" path_and_query with
        | Some prefix => Some prefix
        | None => strip_suffix "/git-receive-pack" path_and_query
        end
    end in
  (fun p => scheme +:+ "://" +:+ host +:+ p) <$> repo_path.

Definition hydrate_error_to_response (err : HydrateError) : HttpResponse :=
  match err with
  | HydrateLimit => mkResponse 413 "repository exceeds relay resource limits"
  | _ => mkResponse 500 "git backend hydration failed"
  end.

(** ** Subprocesses *)

(** A git subprocess that could not be started or waited for, ran out of time, or
    exited: its success, the length of its output file and what reading it yields. *)
Inductive GitProcess :=
| ProcFailed
| ProcTimedOut
| ProcExited (success : bool) (stdout_len : option N) (stdout : option string).

Record PackOutput := mkPackOutput { po_stdout : string; po_ok : bool }.

Definition run_git_at (service : string) (max_output_bytes : N) (p : GitProcess) : result PackOutput HttpResponse :=
  match p with
  | ProcFailed => Err GIT_ERROR
  | ProcTimedOut => Err (mkResponse 504 "git operation timed out")
  | ProcExited success stdout_len stdout =>
      match stdout_len with
      | None => Err GIT_ERROR
      | Some len =>
          if (max_output_bytes <? len)%N then Err (mkResponse 413 "git output exceeds relay limits")
          else
            match stdout with
            | None => Err GIT_ERROR
            | Some out =>
                let report_rejected := String.eqb service "receive-pack" && receive_pack_report_rejected out in
                Ok (mkPackOutput out (success && negb report_rejected))
            end
      end
  end.

Definition build_git_response (output : PackOutput) : HttpResponse := mkResponse 200 (po_stdout output).

(** ** Pushing *)

(** The serving lease of the community: acquired, verified before publishing, on
    entry and on exit of the guarded operation, lost after so many requests of it
    if ever, and released. *)
Record ServingWrite := mkServingWrite {
  sw_acquire : bool;
  sw_verify : bool;
  sw_enter : bool;
  sw_lost : option nat;
  sw_leave : bool;
  sw_finish : bool;
}.

Definition protect {A} (w : ServingWrite) (p : Prog A) : Prog (option A) :=
  if negb (sw_enter w) then Ret None
  else
    let! output := match sw_lost w with
                   | Some n => timeout n p
                   | None => let! a := p in Ret (Some a)
                   end in
    Ret (if sw_leave w then output else None).

(** What the rest of the relay does during one push. *)
Record PushRun := mkPushRun {
  pr_permit : bool;
  pr_materialize : Manifest -> result N HydrateError;
  pr_init_bare_repo : result unit HydrateError;
  pr_install_hook : bool;
  (** [git receive-pack] and the workspace it leaves, for a starting state *)
  pr_receive_pack : ParentState -> GitProcess;
  pr_workspace : ParentState -> GitRun;
  pr_serving : ServingWrite;
  (** storing an event: an error, or whether it was new *)
  pr_insert_event : Event -> result bool unit;
}.

Definition cas_error_to_response (e : CasError) : HttpResponse :=
  match e with
  | Conflict _ _ => mkResponse 409 "push superseded by a concurrent writer; pull and retry"
  | ManifestInvalid _ => mkResponse 400 "push produced invalid manifest state"
  | ResourceLimit => mkResponse 413 "repository exceeds relay resource limits"
  | _ => mkResponse 500 "git backend error"
  end.

(** The committed manifest is not the one the push started from. *)
Definition manifest_changed (parent_state : ParentState) (success : CasSuccess) : bool :=
  match parent_digest parent_state, strip_prefix "manifests/" (cs_manifest_key success) with
  | Some before, Some after => negb (String.eqb before after)
  | _, _ => true
  end.

Section transport.
Context `{NostrLib, HexLib, Sha256Lib, S3, ManifestJson, EventBuilder}.

Record PushConfig := mkPushConfig { git_max_pack_bytes : N; git_max_repo_bytes : N }.

Definition ref_state_inputs (repo_id owner pusher_hex : string) (success : CasSuccess) : RefStateInputs :=
  mkRefStateInputs repo_id (mf_head (cs_manifest success)) (mf_refs (cs_manifest success)) pusher_hex owner.

(** The announcement of a committed push: the outcome, and the event handed to
    the database. *)
Definition publish_ref_state (insert : Event -> result bool unit) (inputs : RefStateInputs) (changed : bool)
    : bool * list Event :=
  if negb changed then (true, [])
  else
    match build_ref_state_event inputs with
    | Ok event => (is_ok (insert event), [event])
    | Err _ => (false, [])
    end.

(** The response, and the events handed to the database. *)
Definition finalize_push (config : PushConfig) (run : PushRun) (community : CommunityId)
    (owner repo repo_id pusher_hex : string) (pack : PackOutput) (parent_state : ParentState) (hydrated_bytes : N)
    : Prog (HttpResponse * list Event) :=
  let w := pr_serving run in
  if negb (po_ok pack) then Ret (build_git_response pack, [])
  else if negb (sw_acquire w) then Ret (mkResponse 503 "community writes are fenced", [])
  else if negb (sw_verify w) then Ret (mkResponse 503 "community write lease lost", [])
  else
    let limits := mkPublishLimits hydrated_bytes (git_max_pack_bytes config) (git_max_repo_bytes config) in
    let! published := protect w (cas_publish community owner repo (pr_workspace run parent_state) parent_state limits) in
    Ret match published with
        | None => (mkResponse 503 "community write lease lost", [])
        | Some (Err e) => (cas_error_to_response e, [])
        | Some (Ok success) =>
            let (announced, events) :=
              publish_ref_state (pr_insert_event run) (ref_state_inputs repo_id owner pusher_hex success)
                (manifest_changed parent_state success) in
            if negb (sw_finish w) then (mkResponse 503 "community write lease lost during publication", events)
            else if negb announced then
              (mkResponse 500 "push committed but ref-state publication failed; retry", events)
            else (build_git_response pack, events)
        end.

Definition receive_pack (config : PushConfig) (run : PushRun) (community : CommunityId) (owner repo pusher_hex : string)
    : Prog (HttpResponse * list Event) :=
  match validate_repo_id owner repo with
  | Err r => Ret (r, [])
  | Ok repo_name =>
      if negb (pr_permit run) then Ret (mkResponse 503 "git service busy", [])
      else
        let! hydrated := hydrate_for_write (pr_materialize run) (pr_init_bare_repo run) community owner repo in
        match hydrated with
        | Err e => Ret (hydrate_error_to_response e, [])
        | Ok (hydrated_bytes, parent_state) =>
            if negb (pr_install_hook run) then Ret (mkResponse 500 "git hook install failed", [])
            else
              match run_git_at "receive-pack" RECEIVE_PACK_MAX_OUTPUT_BYTES (pr_receive_pack run parent_state) with
              | Err r => Ret (r, [])
              | Ok pack =>
                  finalize_push config run community owner repo repo_name pusher_hex pack parent_state hydrated_bytes
              end
        end
  end.

(** ** Announcing a repository, handlers/side_effects.rs *)

Definition DEFAULT_HEAD : string := "refs/heads/main".

(** The manifest of a repository nothing was pushed to. *)
Definition empty_manifest : Manifest := mkManifest MANIFEST_VERSION DEFAULT_HEAD ∅ [] None.

Inductive AnnounceError :=
| EmptyInvalid (e : ManifestError)
| PutManifestFailed (e : StoreError)
| NonStandardKey (key : string)
| PutPointerFailed (e : StoreError)
| GetPointerFailed (e : StoreError)
| PointerVanished
| PointerNotUtf8
| PointerTaken (existing : string)
| MissingDTag
| InvalidRepoId
| NameTaken
| RepoLimitExceeded (owned limit : Z)
| AnnounceDb
| AnnounceFenced
| AnnounceLeaseLost.

Definition seed_manifest_pointer (community : CommunityId) (owner_hex repo_id : string) : Prog (result unit AnnounceError) :=
  match validate empty_manifest with
  | Err e => Ret (Err (EmptyInvalid e))
  | Ok _ =>
      match canonical_bytes empty_manifest with
      | Err e => Ret (Err (EmptyInvalid e))
      | Ok bytes =>
          let! r := put_manifest bytes in
          match r with
          | Err e => Ret (Err (PutManifestFailed e))
          | Ok manifest_key =>
              match strip_prefix "manifests/" manifest_key with
              | None => Ret (Err (NonStandardKey manifest_key))
              | Some digest =>
                  let pkey := pointer_key community owner_hex repo_id in
                  let! r := put_pointer pkey digest IfNoneMatchStar in
                  match r with
                  | Err e => Ret (Err (PutPointerFailed e))
                  | Ok (Won _) => Ret (Ok tt)
                  | Ok LostRace =>
                      let! r := get_pointer pkey in
                      Ret match r with
                          | Err e => Err (GetPointerFailed e)
                          | Ok None => Err PointerVanished
                          | Ok (Some (_, body)) =>
                              match from_utf8 body with
                              | None => Err PointerNotUtf8
                              | Some text =>
                                  let existing := trim text in
                                  if negb (String.eqb existing digest) then Err (PointerTaken existing) else Ok tt
                              end
                          end
                  end
              end
          end
      end
  end.

Definition ensure_manifest_pointer (community : CommunityId) (owner_hex repo_id : string) : Prog (result unit AnnounceError) :=
  let! r := get_pointer (pointer_key community owner_hex repo_id) in
  match r with
  | Err e => Ret (Err (GetPointerFailed e))
  | Ok (Some _) => Ret (Ok tt)
  | Ok None => seed_manifest_pointer community owner_hex repo_id
  end.

Inductive ReserveOutcome := Reserved | AlreadyOwned | TakenByOther.

(** What the registry of names, the serving lease and the event table answer
    during one announcement; a query that fails has no answer. *)
Record AnnounceRun := mkAnnounceRun {
  ar_name_owner : option (option string);
  ar_owned : option Z;
  ar_limit : Z;
  ar_reserve : option ReserveOutcome;
  ar_serving : ServingWrite;
  ar_insert_event : Event -> result bool unit;
}.

(** [validate_repo_id] of side_effects.rs. *)
Definition announced_repo_id (repo_id : string) : bool :=
  negb (String.eqb repo_id "") && (String.length repo_id <=? 64)%nat && negb (starts_with "." repo_id) &&
  negb (contains_str ".." repo_id) &&
  all_chars repo_name_char repo_id.

(** [extract_tag_value]: the first tag of that name decides. *)
Definition extract_tag_value (event : Event) (tag_name : string) : option string :=
  match List.find (fun t => String.eqb (tag_kind_string t) tag_name) (ev_tags event) with
  | Some t => tag_content t
  | None => None
  end.

(** Whether this attempt reserved the name. *)
Definition reserve_name (run : AnnounceRun) (owner_hex : string) : result bool AnnounceError :=
  match ar_name_owner run with
  | None => Err AnnounceDb
  | Some (Some existing_owner) => if negb (String.eqb existing_owner owner_hex) then Err NameTaken else Ok false
  | Some None =>
      match ar_owned run with
      | None => Err AnnounceDb
      | Some owned =>
          if (ar_limit run <=? owned)%Z then Err (RepoLimitExceeded owned (ar_limit run))
          else
            match ar_reserve run with
            | None => Err AnnounceDb
            | Some Reserved => Ok true
            | Some AlreadyOwned => Ok false
            | Some TakenByOther => Err NameTaken
            end
      end
  end.

(** The initial ref-state event over the empty manifest, handed to the
    database. *)
Definition emit_initial_ref_state (owner_hex repo_id : string) : list Event :=
  match build_ref_state_event (mkRefStateInputs repo_id DEFAULT_HEAD ∅ owner_hex owner_hex) with
  | Ok event => [event]
  | Err _ => []
  end.

(** The outcome, and the events handed to the database. *)
Definition handle_git_repo_announcement (run : AnnounceRun) (community : CommunityId) (event : Event)
    : Prog (result unit AnnounceError * list Event) :=
  let w := ar_serving run in
  match extract_tag_value event "d" with
  | None => Ret (Err MissingDTag, [])
  | Some repo_id =>
      if negb (announced_repo_id repo_id) then Ret (Err InvalidRepoId, [])
      else
        let owner_hex := pubkey_to_hex (ev_pubkey event) in
        match reserve_name run owner_hex with
        | Err e => Ret (Err e, [])
        | Ok reserved_by_this_attempt =>
            if negb (sw_acquire w) then Ret (Err AnnounceFenced, [])
            else if negb (sw_verify w) then Ret (Err AnnounceLeaseLost, [])
            else
              let! pointer_result :=
                protect w (if reserved_by_this_attempt : bool then seed_manifest_pointer community owner_hex repo_id
                           else ensure_manifest_pointer community owner_hex repo_id) in
              Ret match pointer_result with
                  | None => (Err AnnounceLeaseLost, [])
                  | Some (Err e) => (Err e, [])
                  | Some (Ok _) =>
                      let events := if reserved_by_this_attempt then emit_initial_ref_state owner_hex repo_id else [] in
                      (if negb (sw_finish w) then Err AnnounceLeaseLost else Ok tt, events)
                  end
        end
  end.

(** ** The advertisement *)

Definition not_found : HttpResponse := mkResponse 404 "repository not found".

(** [hydrate_for_read] with the outcome of [materialize_manifest]. *)
Definition hydrate_for_read (materialize : Manifest -> result N HydrateError) (community : CommunityId) (owner repo : string)
    : Prog (result (option (Manifest * N)) HydrateError) :=
  try! loaded := load_pointer community owner repo in
  Ret match loaded with
      | None => Ok None
      | Some (_, _, manifest) => let? hydrated_bytes := materialize manifest in Ok (Some (manifest, hydrated_bytes))
      end.

Definition advertise (service : string) (p : GitProcess) : HttpResponse :=
  match p with
  | ProcFailed => GIT_ERROR
  | ProcTimedOut => mkResponse 504 "git operation timed out"
  | ProcExited success stdout_len stdout =>
      if negb success then GIT_ERROR
      else
        match stdout_len with
        | None => GIT_ERROR
        | Some len =>
            if (INFO_REFS_MAX_OUTPUT_BYTES <? len)%N then mkResponse 413 "git ref advertisement exceeds relay limits"
            else match stdout with
                 | None => GIT_ERROR
                 | Some out => mkResponse 200 (hex04 (str_bytes (service_line service) + 4) +:+ service_line service +:+ "0000" +:+ out)
                 end
        end
  end.

Definition info_refs_subprocess (permit : bool) (materialize : Manifest -> result N HydrateError)
    (process : Manifest -> GitProcess) (community : CommunityId) (service owner repo : string) : Prog HttpResponse :=
  if negb permit then Ret (mkResponse 503 "git service busy")
  else
    let! r := hydrate_for_read materialize community owner repo in
    Ret match r with
        | Err e => hydrate_error_to_response e
        | Ok None => not_found
        | Ok (Some (manifest, _)) => advertise service (process manifest)
        end.

(** [authorized] is the answer of the read gate. *)
Definition info_refs (authorized : result unit HttpResponse) (permit : bool) (materialize : Manifest -> result N HydrateError)
    (process : Manifest -> GitProcess) (community : CommunityId) (service owner repo : string) : Prog HttpResponse :=
  if negb (String.eqb service "git-upload-pack" || String.eqb service "git-receive-pack") then
    Ret (mkResponse 400 "invalid service")
  else
    match validate_repo_id owner repo with
    | Err r => Ret r
    | Ok _ =>
        match authorized with
        | Err r => Ret r
        | Ok _ =>
            let subprocess := info_refs_subprocess permit materialize process community service owner repo in
            if negb (String.eqb service "git-upload-pack") then subprocess
            else
              let! r := load_manifest_for_read community owner repo in
              match r with
              | Ok (Some manifest) =>
                  if fast_path_eligible manifest then Ret (mkResponse 200 (build_upload_pack_advertisement manifest))
                  else subprocess
              | Ok None => Ret not_found
              | Err e => Ret (hydrate_error_to_response e)
              end
        end
    end.
End transport.
