(* ===== verification/GitWorld.v ===== *)
(** Any number of pushes, reads and announcements over one object store: the
    step relation, its invariant, and what it means for the published
    repositories. *)

From S2P Require Import Prelude Nostr RustStr GitManifest GitStore GitPublish GitHistory GitCommit GitPkt GitTransport.

(** ** Requests to the endpoints *)

Inductive Job :=
| Push (config : PushConfig) (run : PushRun) (community : CommunityId) (owner repo pusher_hex : string)
| Advertise (authorized : result unit HttpResponse) (permit : bool) (materialize : Manifest -> result N HydrateError)
    (process : Manifest -> GitProcess) (community : CommunityId) (service owner repo : string)
| Announce (run : AnnounceRun) (community : CommunityId) (event : Event).
Inductive Outcome :=
| Pushed (response : HttpResponse) (events : list Event)
| Advertised (response : HttpResponse)
| Announced (r : result unit AnnounceError) (events : list Event).

Section world.
Context `{NostrLib, HexLib, Sha256Lib, S3Laws, ManifestJson, GitObjects, EventBuilder}.
Context `{!HexLaws, !HexTextLaws, !Sha256Laws, !ManifestJsonLaws}.
Variable submitted : list string.
Variable jobs : nat -> Job.

Definition run_job (j : Job) : Prog Outcome :=
  match j with
  | Push config run community owner repo pusher_hex =>
      let! r := receive_pack config run community owner repo pusher_hex in Ret (Pushed (fst r) (snd r))
  | Advertise authorized permit materialize process community service owner repo =>
      let! r := info_refs authorized permit materialize process community service owner repo in Ret (Advertised r)
  | Announce run community event =>
      let! r := handle_git_repo_announcement run community event in Ret (Announced (fst r) (snd r))
  end.

(** The outcome of [git receive-pack] for a push that started from [ps]. *)
Definition receive_pack_output (run : PushRun) (ps : ParentState) : result PackOutput HttpResponse :=
  run_git_at "receive-pack" RECEIVE_PACK_MAX_OUTPUT_BYTES (pr_receive_pack run ps).

(** The state a push started from is a manifest with the digest it names, or none. *)
Definition genuine_parent (ps : ParentState) : Prop :=
  ps = fresh \/ exists e d b m, ps = from_loaded e d m /\ d = digest_hex b /\ b ∈ submitted /\ from_bytes b = Ok m.

(** The manifest of an accepted push: the refs of the workspace [git receive-pack]
    left, on top of the state it started from. *)
Definition pushed_manifest (run : PushRun) (ps : ParentState) (m : Manifest) : Prop :=
  exists pack refs observed,
    receive_pack_output run ps = Ok pack /\ po_ok pack = true /\
    snapshot_workspace_state (pr_workspace run ps) = Ok (refs, observed) /\ mf_refs m = refs /\
    mf_head m = resolve_published_head refs observed (mf_head (ps_parent ps)) /\ mf_parent m = parent_digest ps.

(** The pointer of the repository an announcement names. *)
Definition announced_at (community : CommunityId) (event : Event) (pk : string) : Prop :=
  exists repo_id, extract_tag_value event "d" = Some repo_id /\ announced_repo_id repo_id = true /\
    pk = pointer_key community (pubkey_to_hex (ev_pubkey event)) repo_id.

Definition origin (pid : nat) (pk : string) (m : Manifest) : Prop :=
  match jobs pid with
  | Push _ run community owner repo _ =>
      pk = pointer_key community owner repo /\ exists ps, genuine_parent ps /\ pushed_manifest run ps m
  | Advertise _ _ _ _ _ _ _ _ => False
  | Announce _ community event => announced_at community event pk /\ m = empty_manifest
  end.

(** ** Steps *)

(** A process: what it has left to do, and the shared state it started in. *)
Record Proc := mkProc { p_start : Shared; p_running : Prog Outcome }.
Record World := mkWorld { w_shared : Shared; w_procs : gmap nat Proc }.

Inductive step (W : World) : World -> Prop :=
| step_start pid :
    w_procs W !! pid = None ->
    step W (mkWorld (w_shared W) (<[pid := mkProc (w_shared W) (run_job (jobs pid))]> (w_procs W)))
| step_request pid st r k G' x :
    w_procs W !! pid = Some (mkProc st (Call r k)) -> allowed submitted r -> exec pid (w_shared W) r G' x ->
    step W (mkWorld G' (<[pid := mkProc st (k x)]> (w_procs W)))
(** the answer is lost; the client may send the request again, or stop for good *)
| step_unanswered pid st r k :
    w_procs W !! pid = Some (mkProc st (Call r k)) -> allowed submitted r ->
    step W (mkWorld (act pid r (w_shared W)) (w_procs W))
(** an upload that its process has given up arrives late *)
| step_late pid k b :
    is_pointer k = false -> well_keyed submitted k b ->
    step W (mkWorld (act pid (PutNew k b) (w_shared W)) (w_procs W)).

Definition initial (W : World) : Prop :=
  (forall k, s3_get (sh_bucket (w_shared W)) k = None) /\ sh_history (w_shared W) = ∅ /\ w_procs W = ∅.

Inductive reachable : World -> Prop :=
| reach_initial W : initial W -> reachable W
| reach_step W W' : reachable W -> step W W' -> reachable W'.

(** ** What each request guarantees *)

(** A push starts from the published state, no older than its own beginning. *)
Definition started (G st : Shared) (pk : string) (ps : ParentState) : Prop :=
  knows_parent G pk ps /\
  (length (history st pk) = 0%nat \/
   exists d, parent_digest ps = Some d /\ entry G (length (history st pk)) pk d (ps_parent ps)).

Definition landed (G : Shared) (pid : nat) (pk : string) (run : PushRun) (ps : ParentState) (s : CasSuccess) : Prop :=
  exists refs observed d, snapshot_workspace_state (pr_workspace run ps) = Ok (refs, observed) /\
    committed G pid pk ps (resolve_published_head refs observed (mf_head (ps_parent ps))) refs s d.

Definition repo_name (repo : string) : string := default repo (strip_suffix ".git" repo).

Definition push_post (G st : Shared) (pid : nat) (run : PushRun) (community : CommunityId) (owner repo pusher_hex : string)
    (response : HttpResponse) (events : list Event) : Prop :=
  let pk := pointer_key community owner repo in
  (status response = 200%N ->
     exists ps pack, started G st pk ps /\ receive_pack_output run ps = Ok pack /\ body response = po_stdout pack /\
       (po_ok pack = true -> exists s, landed G pid pk run ps s)) /\
  (forall e, e ∈ events ->
     exists ps s, started G st pk ps /\ landed G pid pk run ps s /\
       build_ref_state_event (ref_state_inputs (repo_name repo) owner pusher_hex s) = Ok e).

Definition advertise_post (G st : Shared) (process : Manifest -> GitProcess) (community : CommunityId)
    (service owner repo : string) (response : HttpResponse) : Prop :=
  let pk := pointer_key community owner repo in
  status response = 200%N ->
  exists d m, entry G (length (history st pk)) pk d m /\
    ((service = "git-upload-pack" /\ fast_path_eligible m = true /\ body response = build_upload_pack_advertisement m) \/
     response = advertise service (process m)).

(** An announcement that succeeds leaves the repository with a published state. *)
Definition announce_post (G : Shared) (community : CommunityId) (event : Event) (r : result unit AnnounceError) : Prop :=
  r = Ok tt -> exists pk d m q, announced_at community event pk /\ (q, d) ∈ history G pk /\ published G d m.

Definition post (pid : nat) (st G : Shared) (a : Outcome) : Prop :=
  match jobs pid, a with
  | Push _ run community owner repo pusher_hex, Pushed response events =>
      push_post G st pid run community owner repo pusher_hex response events
  | Advertise _ _ _ process community service owner repo, Advertised response =>
      advertise_post G st process community service owner repo response
  | Announce _ community event, Announced r _ => announce_post G community event r
  | _, _ => False
  end.

Lemma started_grows G G' st pk ps : grows G G' -> started G st pk ps -> started G' st pk ps.
Proof.
  intros Hg [Hk Hs]. split; [by eapply knows_parent_grows|]. destruct Hs as [Hs|(d & Hd & He)]; [by left|right].
  exists d. split; [done|]. by eapply entry_grows.
Qed.
Lemma landed_grows G G' pid pk run ps s : grows G G' -> landed G pid pk run ps s -> landed G' pid pk run ps s.
Proof. intros Hg (refs & o & d & Hs & Hc). exists refs, o, d. split; [done|]. by eapply committed_grows. Qed.

Lemma post_stable pid st : stable (post pid st).
Proof.
  intros G G' a Hg. unfold post. destruct (jobs pid), a; try done.
  - intros [Hok Hev]. split.
    + intros Hst. destruct (Hok Hst) as (ps & pack & Hs & Hp & Hb & Hl). exists ps, pack.
      split_and!; [by eapply started_grows|done|done|]. intros Hpo. destruct (Hl Hpo) as [s Hs']. exists s. by eapply landed_grows.
    + intros e He. destruct (Hev e He) as (ps & s & Hs & Hl & Hb). exists ps, s.
      split_and!; [by eapply started_grows|by eapply landed_grows|done].
  - intros Hok Hst. destruct (Hok Hst) as (d & m & He & Hb). exists d, m. split; [by eapply entry_grows|done].
  - intros Hok Hr. destruct (Hok Hr) as (pk & d & m & q & Ha & Hin & Hp). exists pk, d, m, q.
    split_and!; [done| |by eapply published_grows]. apply list_elem_of_lookup in Hin as [i Hi].
    eapply list_elem_of_lookup_2, history_lookup_grows; done.
Qed.

(** ** The programs keep these guarantees *)

Hypothesis no_collisions : forall a b, a ∈ submitted -> b ∈ submitted -> no_collision sha256_digest a b.
Hypothesis git_documented :
  forall pid config run community owner repo pusher_hex, jobs pid = Push config run community owner repo pusher_hex ->
    forall ps, git_faithful (pr_workspace run ps).

Local Abbreviation inv := (inv submitted origin).
Local Abbreviation wp := (wp submitted origin).

Lemma wp_protect {A} pid w (p : Prog A) G Q :
  inv G -> wp pid p G Q -> wp pid (protect w p) G (fun G' r => forall a, r = Some a -> Q G' a).
Proof.
  intros Hi Hp. unfold protect. destruct (negb _); [done|].
  assert (wp pid (match sw_lost w with Some n => timeout n p | None => let! a := p in Ret (Some a) end) G
    (fun G' r => forall a, r = Some a -> Q G' a)) as Hq.
  { destruct (sw_lost w) as [n|]; [by apply wp_timeout|].
    apply (wp_then _ _ _ _ _ _ _ _ Hi Hp). intros G1 a _ _ Ha a' [= <-]. done. }
  apply (wp_then _ _ _ _ _ _ _ _ Hi Hq). intros G1 r _ _ Hr a Ha. destruct (sw_leave w); [|done]. by apply Hr.
Qed.

Lemma knows_genuine G pk ps : inv G -> knows_parent G pk ps -> genuine_parent ps.
Proof.
  intros Hi. unfold knows_parent. destruct ps as [[e|] [d|] m]; cbn; [|done..|intros ->; by left].
  intros [_ [(b & Hb & Hm) _ _ _]]. right. exists e, d, b, m. destruct (iv_keys _ _ G Hi _ _ Hb d) as [Hd Hs]; [by right|]. done.
Qed.

Lemma run_git_at_error service max p r : run_git_at service max p = Err r -> status r <> 200%N.
Proof.
  unfold run_git_at. destruct p as [| |ok [len|] [out|]]; try (by intros [= <-]).
  - by destruct (_ <? _)%N; [intros [= <-]|].
  - by destruct (_ <? _)%N; intros [= <-].
Qed.
Lemma validate_repo_id_ok owner repo n : validate_repo_id owner repo = Ok n -> n = repo_name repo.
Proof. unfold validate_repo_id. destruct (_ || _); [done|]. destruct (_ || _); [done|]. by intros [= <-]. Qed.
Lemma validate_repo_id_error owner repo r : validate_repo_id owner repo = Err r -> status r <> 200%N.
Proof. unfold validate_repo_id. destruct (_ || _); [by intros [= <-]|]. destruct (_ || _); [by intros [= <-]|done]. Qed.
Lemma hydrate_error_status e : status (hydrate_error_to_response e) <> 200%N.
Proof. by destruct e. Qed.

(** A response with nothing announced that is not a success promises nothing. *)
Lemma push_post_failure G st pid run community owner repo pusher r :
  status r <> 200%N -> push_post G st pid run community owner repo pusher r [].
Proof. intros Hr. split; [done|]. by intros e []%elem_of_nil. Qed.

Lemma publish_ref_state_events insert inputs changed ok events e :
  publish_ref_state insert inputs changed = (ok, events) -> e ∈ events -> build_ref_state_event inputs = Ok e.
Proof.
  unfold publish_ref_state. destruct changed; cbn; [|by intros [= <- <-] []%elem_of_nil].
  destruct (build_ref_state_event inputs) as [e'|]; intros [= <- <-]; [by intros ->%list_elem_of_singleton|by intros []%elem_of_nil].
Qed.

Lemma wp_finalize_push pid config run community owner repo pusher pack ps n G st :
  let pk := pointer_key community owner repo in
  jobs pid = Push config run community owner repo pusher ->
  inv G -> started G st pk ps -> receive_pack_output run ps = Ok pack ->
  wp pid (finalize_push config run community owner repo (repo_name repo) pusher pack ps n) G (fun G' r =>
    push_post G' st pid run community owner repo pusher (fst r) (snd r)).
Proof.
  intros pk Hj Hi Hst Hpack. unfold finalize_push. destruct (po_ok pack) eqn:Eok; cbn [negb].
  2:{ split; [|by intros e []%elem_of_nil]. intros _. exists ps, pack. split_and!; [done..|congruence]. }
  destruct (negb _); [by apply push_post_failure|]. destruct (negb _); [by apply push_post_failure|].
  destruct Hst as [Hk Hs].
  assert (wp pid (cas_publish community owner repo (pr_workspace run ps) ps
      (mkPublishLimits n (git_max_pack_bytes config) (git_max_repo_bytes config))) G
    (fun G' r => forall s, r = Ok s -> landed G' pid pk run ps s)) as Hcas.
  { pose proof (wp_cas_publish_inner _ no_collisions _ pid community owner repo (pr_workspace run ps) ps
      (mkPublishOptions (mkPublishLimits n (git_max_pack_bytes config) (git_max_repo_bytes config)) PACK_COMPACTION_THRESHOLD)
      G Hi (git_documented _ _ _ _ _ _ _ Hj ps) Hk) as Hwp.
    eapply (wp_mono _ _ _ _ _ _ _ Hi); [|apply Hwp].
    2:{ intros refs observed m Hsnap Hrefs Hhead Hpar. unfold origin. rewrite Hj. split; [done|]. exists ps.
        split; [by eapply knows_genuine|]. by exists pack, refs, observed. }
    intros G1 r _ _ Hr s Hs'. by apply Hr. }
  apply (wp_then _ _ _ _ _ _ _ _ Hi (wp_protect pid _ _ _ _ Hi Hcas)). intros G1 r Hi1 Hg1 Hr.
  assert (started G1 st pk ps) as Hst1 by by eapply started_grows.
  destruct r as [[s|e]|]; [|by apply push_post_failure; destruct e|by apply push_post_failure].
  specialize (Hr _ eq_refl s eq_refl). destruct (publish_ref_state _ _ _) as [announced events] eqn:Ep.
  assert (forall e, e ∈ events -> exists ps s, started G1 st pk ps /\ landed G1 pid pk run ps s /\
    build_ref_state_event (ref_state_inputs (repo_name repo) owner pusher s) = Ok e) as Hev.
  { intros e He. exists ps, s. split_and!; [done..|]. by eapply publish_ref_state_events. }
  destruct (negb _); [by split|]. destruct (negb _); [by split|]. split; [|done]. intros _. exists ps, pack.
  split_and!; [done..|]. intros _. by exists s.
Qed.

Lemma wp_receive_pack pid config run community owner repo pusher G :
  jobs pid = Push config run community owner repo pusher -> inv G ->
  wp pid (receive_pack config run community owner repo pusher) G (fun G' r =>
    push_post G' G pid run community owner repo pusher (fst r) (snd r)).
Proof.
  intros Hj Hi. unfold receive_pack. destruct (validate_repo_id owner repo) as [name|r] eqn:Ev.
  2:{ by apply push_post_failure, (validate_repo_id_error _ _ _ Ev). }
  apply validate_repo_id_ok in Ev as ->. destruct (negb _); [by apply push_post_failure|].
  apply (wp_then _ _ _ _ _ _ _ _ Hi (wp_hydrate_for_write _ _ pid _ _ community owner repo G Hi)).
  intros G1 [[n ps]|e] Hi1 Hg1 Hr; [|by apply push_post_failure, hydrate_error_status]. specialize (Hr n ps eq_refl).
  destruct (negb _); [by apply push_post_failure|]. destruct (run_git_at _ _ _) as [pack|r] eqn:Er.
  - by apply wp_finalize_push.
  - by apply push_post_failure, (run_git_at_error _ _ _ _ Er).
Qed.

Lemma entry_weaken G n n' pk d m : (n' <= n)%nat -> entry G n pk d m -> entry G n' pk d m.
Proof. intros Hn (i & q & Hi & Hs & Hp). exists i, q. split_and!; [done|lia|done]. Qed.
Lemma history_length_grows G G' pk : grows G G' -> (length (history G pk) <= length (history G' pk))%nat.
Proof. intros Hg. by apply prefix_length, gw_history. Qed.

Lemma advertise_post_failure G st process community service owner repo r :
  status r <> 200%N -> advertise_post G st process community service owner repo r.
Proof. intros Hr Hs. done. Qed.

Lemma wp_info_refs_subprocess pid permit materialize process community service owner repo G st :
  inv G -> grows st G ->
  wp pid (info_refs_subprocess permit materialize process community service owner repo) G (fun G' r =>
    advertise_post G' st process community service owner repo r).
Proof.
  intros Hi Hst. unfold info_refs_subprocess. destruct (negb _); [by apply advertise_post_failure|]. unfold hydrate_for_read. apply wp_bind.
  apply (wp_then _ _ _ _ _ _ _ _ Hi (wp_load_pointer _ _ pid community owner repo G Hi)).
  intros G1 [[[[e d] m]|]|err] Hi1 Hg1 Hr; [|by apply advertise_post_failure|by apply advertise_post_failure, hydrate_error_status].
  destruct (Hr _ eq_refl) as [He _]. cbn. destruct (materialize m) as [n|e']; [|by apply advertise_post_failure, hydrate_error_status].
  intros _. exists d, m. split; [|by right]. eapply entry_weaken; [|done]. by apply history_length_grows.
Qed.

Lemma wp_info_refs pid authorized permit materialize process community service owner repo G :
  (forall r, authorized = Err r -> status r <> 200%N) -> inv G ->
  wp pid (info_refs authorized permit materialize process community service owner repo) G (fun G' r =>
    advertise_post G' G process community service owner repo r).
Proof.
  intros Hauth Hi. unfold info_refs. destruct (negb _); [by apply advertise_post_failure|].
  destruct (validate_repo_id owner repo) as [name|r] eqn:Ev; [|by apply advertise_post_failure, (validate_repo_id_error _ _ _ Ev)].
  destruct authorized as [[]|r]; [|by apply advertise_post_failure, Hauth].
  destruct (String.eqb_spec service "git-upload-pack") as [->|_]; cbn [negb]; [|by apply wp_info_refs_subprocess].
  unfold load_manifest_for_read. apply wp_bind.
  apply (wp_then _ _ _ _ _ _ _ _ Hi (wp_load_pointer _ _ pid community owner repo G Hi)).
  intros G1 [[[[e d] m]|]|err] Hi1 Hg1 Hr; [|by apply advertise_post_failure|by apply advertise_post_failure, hydrate_error_status].
  destruct (Hr _ eq_refl) as [He _]. cbn -[fast_path_eligible info_refs_subprocess build_upload_pack_advertisement].
  destruct (fast_path_eligible m) eqn:Ef; [|by apply wp_info_refs_subprocess].
  intros _. exists d, m. split; [done|]. by left.
Qed.

(** *** Announcements *)

Lemma pointer_held G pk b t : inv G -> is_pointer pk = true -> at_key G pk = Some (b, t) ->
  exists q m, (q, b) ∈ history G pk /\ published G b m.
Proof.
  intros Hi Hpk Hat. destruct (pointer_value _ _ _ _ _ _ Hi Hpk Hat) as (q & m & Hl & _ & Hp & _). exists q, m.
  split; [|done]. rewrite last_lookup in Hl. by eapply list_elem_of_lookup_2.
Qed.

Lemma empty_composed G : composed G fresh DEFAULT_HEAD ∅ empty_manifest.
Proof. split; try done. by intros p ?%elem_of_nil. Qed.

Definition has_pointer (pk : string) (G : Shared) (r : result unit AnnounceError) : Prop :=
  r = Ok tt -> exists q d m, (q, d) ∈ history G pk /\ published G d m.

Lemma wp_seed_manifest_pointer pid community owner_hex repo_id G (pk := pointer_key community owner_hex repo_id) :
  origin pid pk empty_manifest -> inv G ->
  wp pid (seed_manifest_pointer community owner_hex repo_id) G (has_pointer pk).
Proof.
  intros Horig Hi. assert (is_pointer pk = true) as Hpk by apply pointer_key_pointer.
  unfold seed_manifest_pointer. destruct (validate empty_manifest) as [[]|] eqn:Ev; [|done]. apply validate_exact in Ev.
  destruct (canonical_bytes empty_manifest) as [bytes|] eqn:Eb; [|done].
  pose proof (from_canonical empty_manifest bytes eq_refl Eb) as Hfrom. change (canonical empty_manifest) with empty_manifest in Hfrom.
  assert ("manifests" ∈ prefixes) as Hin by by right; left.
  apply (wp_then _ _ _ _ _ _ _ _ Hi (wp_put_immutable _ no_collisions _ pid "manifests" bytes G Hin)).
  intros G1 [key|e] Hi1 Hg1 Hkey; [|done]. destruct (Hkey key eq_refl) as [-> Hs].
  pose proof (manifest_key_digest bytes) as Hd. unfold digest_from_manifest_key in Hd.
  destruct (strip_prefix "manifests/" _) as [digest|]; [|done]. injection Hd as ->.
  assert (published G1 (digest_hex bytes) empty_manifest) as Hpub
    by (destruct (empty_composed G1); split; [by exists bytes|done..]). fold pk.
  apply (wp_then _ _ _ _ _ _ _ _ Hi1 (wp_put_pointer _ _ pid pk fresh _ empty_manifest G1 Hpk Hpub eq_refl Horig eq_refl)).
  intros G2 [[e|]|e] Hi2 Hg2 Hr; [| |done].
  - destruct (Hr e eq_refl) as (i & Hh & _). intros _. exists pid, (digest_hex bytes), empty_manifest.
    split; [by eapply list_elem_of_lookup_2|by eapply published_grows].
  - apply (wp_then _ _ _ _ _ _ _ _ Hi2 (wp_get_pointer _ _ pid pk G2)). intros G3 [[[e b]|]|err] Hi3 _ Hb; [|done..].
    destruct (pointer_held G3 pk b e Hi3 Hpk Hb) as (q & m & Hin' & Hp). intros _. by exists q, b, m.
Qed.

Lemma wp_ensure_manifest_pointer pid community owner_hex repo_id G (pk := pointer_key community owner_hex repo_id) :
  origin pid pk empty_manifest -> inv G ->
  wp pid (ensure_manifest_pointer community owner_hex repo_id) G (has_pointer pk).
Proof.
  intros Horig Hi. apply (wp_then _ _ _ _ _ _ _ _ Hi (wp_get_pointer _ _ pid pk G)).
  intros G1 [[[e b]|]|err] Hi1 _ Hb; [|by apply wp_seed_manifest_pointer|done].
  destruct (pointer_held G1 pk b e Hi1 (pointer_key_pointer _ _ _) Hb) as (q & m & Hin & Hp). intros _. by exists q, b, m.
Qed.

Lemma wp_announce pid run community event G :
  jobs pid = Announce run community event -> inv G ->
  wp pid (handle_git_repo_announcement run community event) G (fun G' r => announce_post G' community event (fst r)).
Proof.
  intros Hj Hi. unfold handle_git_repo_announcement. destruct (extract_tag_value event "d") as [repo_id|] eqn:Et; [|done].
  destruct (announced_repo_id repo_id) eqn:Er; [|done]. cbn [negb].
  set (pk := pointer_key community (pubkey_to_hex (ev_pubkey event)) repo_id).
  assert (announced_at community event pk) as Ha by by exists repo_id.
  assert (origin pid pk empty_manifest) as Horig by (unfold origin; by rewrite Hj).
  destruct (reserve_name _ _) as [fresh_name|e]; [|done]. destruct (negb _); [done|]. destruct (negb _); [done|].
  assert (wp pid (if fresh_name : bool then seed_manifest_pointer community (pubkey_to_hex (ev_pubkey event)) repo_id
    else ensure_manifest_pointer community (pubkey_to_hex (ev_pubkey event)) repo_id) G (has_pointer pk)) as Hp
    by (destruct fresh_name; [by apply wp_seed_manifest_pointer|by apply wp_ensure_manifest_pointer]).
  apply (wp_then _ _ _ _ _ _ _ _ Hi (wp_protect pid _ _ _ _ Hi Hp)). intros G1 [[[]|e]|] _ _ Hr; [|done..].
  intros _. destruct (Hr _ eq_refl eq_refl) as (q & d & m & Hin & Hpub). by exists pk, d, m, q.
Qed.

(** ** The invariant of the world *)

Hypothesis read_gate_refuses :
  forall pid authorized permit materialize process community service owner repo r,
    jobs pid = Advertise authorized permit materialize process community service owner repo ->
    authorized = Err r -> status r <> 200%N.

Lemma wp_run_job pid G : inv G -> wp pid (run_job (jobs pid)) G (post pid G).
Proof.
  intros Hi.
  destruct (jobs pid) as [config run community owner repo pusher|auth permit mat process community service owner repo|run community event]
    eqn:Hj; cbn [run_job].
  - apply (wp_then _ _ _ _ _ _ _ _ Hi (wp_receive_pack _ _ _ _ _ _ _ _ Hj Hi)). intros G1 r _ _ Hr.
    unfold post. by rewrite Hj.
  - apply (wp_then _ _ _ _ _ _ _ _ Hi (wp_info_refs pid auth permit mat process community service owner repo G
      (fun r => read_gate_refuses _ _ _ _ _ _ _ _ _ r Hj) Hi)). intros G1 r _ _ Hr. unfold post. by rewrite Hj.
  - apply (wp_then _ _ _ _ _ _ _ _ Hi (wp_announce pid run community event G Hj Hi)). intros G1 r _ _ Hr.
    unfold post. by rewrite Hj.
Qed.

Record world_inv (W : World) : Prop := {
  wi_shared : inv (w_shared W);
  wi_procs : forall pid p, w_procs W !! pid = Some p ->
    grows (p_start p) (w_shared W) /\ wp pid (p_running p) (w_shared W) (post pid (p_start p));
}.

Lemma procs_grow (procs : gmap nat Proc) G G' :
  grows G G' ->
  (forall pid p, procs !! pid = Some p -> grows (p_start p) G /\ wp pid (p_running p) G (post pid (p_start p))) ->
  forall pid p, procs !! pid = Some p -> grows (p_start p) G' /\ wp pid (p_running p) G' (post pid (p_start p)).
Proof.
  intros Hg Hp pid p Hl. destruct (Hp pid p Hl) as [Hs Hw]. split; [by etrans|].
  eapply wp_grows; [apply post_stable|done|done].
Qed.

Lemma initial_inv W : initial W -> world_inv W.
Proof.
  intros (Hb & Hh & Hp). assert (forall pk, history (w_shared W) pk = []) as Hhist.
  { intros pk. unfold history. by rewrite Hh. }
  split; [split|].
  - intros k b [t Ht]. unfold at_key in Ht. by rewrite Hb in Ht.
  - intros pk _. unfold at_key. by rewrite Hb, Hhist.
  - intros pk i pid d. by rewrite Hhist.
  - intros pid p. by rewrite Hp.
Qed.

Lemma step_inv W W' : world_inv W -> step W W' -> world_inv W'.
Proof.
  intros [Hi Hp] Hs. destruct Hs as [pid Hnone|pid st r k G' x Hl Hr Hx|pid st r k Hl Hr|pid k b Hk Hb].
  - split; [done|]. cbn. intros pid' p [[<- <-]|[Hne Hl]]%lookup_insert_Some; [|by apply Hp].
    split; [cbn; reflexivity|]. by apply wp_run_job.
  - destruct (Hp pid _ Hl) as [Hst Hw]. destruct (Hw (w_shared W) Hi ltac:(reflexivity) Hr) as [Ha Hcont].
    destruct (exec_grows _ _ _ _ _ _ _ Hi Ha Hx) as [Hi' Hg]. split; [done|]. cbn.
    intros pid' p [[<- <-]|[Hne Hl']]%lookup_insert_Some; [|by eapply procs_grow]. cbn in *. split; [by etrans|]. by apply Hcont.
  - destruct (Hp pid _ Hl) as [_ Hw]. destruct (Hw (w_shared W) Hi ltac:(reflexivity) Hr) as [[Hi' Hg] _].
    split; [done|]. by eapply procs_grow.
  - destruct (act_create _ _ (w_shared W) pid k b Hi Hk Hb) as [Hi' Hg]. split; [done|]. by eapply procs_grow.
Qed.

Lemma reachable_inv W : reachable W -> world_inv W.
Proof. induction 1 as [W HW|W W' _ IH Hs]; [by apply initial_inv|by eapply step_inv]. Qed.
End world.
