(* ===== verification/GitTheorems.v ===== *)
(** What the git-on-object-storage protocol guarantees: one linear history per
    repository, pushes that stand on what they were made from, reads of published
    states, and separation of repositories. *)

From S2P Require Import Prelude Nostr RustStr GitManifest GitStore GitPublish GitHistory GitCommit GitPkt GitTransport GitWorld.

(** Documented behaviour of the event builder: the signed event carries the kind
    and tags it was given. *)
Class EventBuilderLaws `{EventBuilder} : Prop := {
  sign_tags : forall k c tags e, sign_with_keys k c tags = Some e -> ev_kind e = k /\ ev_tags e = tags;
}.

Section theorems.
Context `{NostrLib, HexLib, Sha256Lib, S3Laws, ManifestJson, GitObjects, EventBuilder}.
Context `{!HexLaws, !HexTextLaws, !Sha256Laws, !ManifestJsonLaws, !EventBuilderLaws}.

(** What the theorems assume of a set of requests: the uploaded bodies do not
    collide, git behaves as documented, and the read gate refuses with an error. *)
Record setting (submitted : list string) (jobs : nat -> Job) : Prop := {
  st_no_collisions : forall a b, a ∈ submitted -> b ∈ submitted -> no_collision sha256_digest a b;
  st_git : forall pid config run community owner repo pusher_hex,
    jobs pid = Push config run community owner repo pusher_hex -> forall ps, git_faithful (pr_workspace run ps);
  st_gate : forall pid authorized permit materialize process community service owner repo r,
    jobs pid = Advertise authorized permit materialize process community service owner repo ->
    authorized = Err r -> status r <> 200%N;
}.

Lemma setting_inv submitted jobs W :
  setting submitted jobs -> reachable submitted jobs W -> world_inv submitted jobs W.
Proof. intros [Hc Hg Hr] HW. by apply reachable_inv. Qed.

(** ** One history *)

Lemma history_NoDup submitted jobs G pk : inv submitted (origin submitted jobs) G -> NoDup (snd <$> history G pk).
Proof.
  intros Hi. apply NoDup_alt. intros i j d Hd Hd'. rewrite list_lookup_fmap in Hd, Hd'.
  destruct (history G pk !! i) as [[p d1]|] eqn:E1; [|done]. destruct (history G pk !! j) as [[q d2]|] eqn:E2; [|done].
  cbn in *. simplify_eq. by eapply history_unique.
Qed.

(** The state a push names as its parent is the entry before its own. *)
Lemma parent_entry submitted jobs G pk i ps :
  setting submitted jobs -> inv submitted (origin submitted jobs) G ->
  genuine_parent submitted ps -> parent_digest ps = previous (history G pk) i -> (i <= length (history G pk))%nat ->
  match previous (history G pk) i with None => ps = fresh | Some d => published G d (ps_parent ps) end.
Proof.
  intros Hset Hi Hps Hprev Hlen. rewrite <- Hprev. destruct Hps as [->|(e & d & b & m & -> & Hd & Hb & Hm)]; [done|].
  cbn in Hprev |- *. destruct i as [|j]; [done|]. cbn in Hprev.
  destruct (history G pk !! j) as [[q d']|] eqn:E; [|done]. cbn in Hprev. injection Hprev as <-.
  destruct (iv_chain _ _ G Hi _ _ _ _ E) as (m' & Hm' & _). pose proof Hm' as [(b' & Hb' & Hfrom) _ _ _].
  destruct (iv_keys _ _ G Hi _ _ Hb' d) as [Hd' Hs']; [by right|].
  assert (b = b') as <- by (eapply digest_hex_inj; [apply Hset|done|done|congruence]). congruence.
Qed.

(** C2: Whatever pushes, reads and announcements race over the store, with
    requests that fail, are sent again or land late: the pointer of a repository
    holds the end of one linear history without repetitions. Every entry is a
    manifest that is stored, valid, names its predecessor as parent and has stored
    packs with all objects its refs reach.  It was made by a push to this
    repository that git accepted, from the state before it, and its refs are those
    of that push's workspace; or it is the first entry, the empty manifest, which
    an announcement of this repository by its owner installed. *)
Theorem published_history_linear submitted jobs W pk :
  setting submitted jobs -> reachable submitted jobs W -> is_pointer pk = true ->
  let G := w_shared W in
  let h := history G pk in
  fst <$> at_key G pk = snd <$> last h /\ NoDup (snd <$> h) /\
  forall i pid d, h !! i = Some (pid, d) ->
    exists m, published G d m /\ mf_parent m = previous h i /\
      ((exists config run community owner repo pusher_hex ps,
          jobs pid = Push config run community owner repo pusher_hex /\ pk = pointer_key community owner repo /\
          pushed_manifest run ps m /\
          match previous h i with None => ps = fresh | Some d' => published G d' (ps_parent ps) end) \/
       (exists run community event, jobs pid = Announce run community event /\ announced_at community event pk /\
          i = 0%nat /\ m = empty_manifest)).
Proof.
  intros Hset HW Hpk G h. destruct (setting_inv _ _ _ Hset HW) as [Hi _]. fold G in Hi.
  split_and!; [by apply (iv_pointer _ _ G Hi)|by eapply history_NoDup|]. intros i pid d Hd.
  assert (i < length h)%nat as Hlt by by eapply lookup_lt_Some.
  destruct (iv_chain _ _ G Hi _ _ _ _ Hd) as (m & Hm & Hpar & Ho). exists m. split_and!; [done..|]. unfold origin in Ho.
  destruct (jobs pid) as [config run community owner repo pusher| |run community event] eqn:Hj; [left|done|right].
  - destruct Ho as (-> & ps & Hgen & Hpush). exists config, run, community, owner, repo, pusher, ps. split_and!; [done..|].
    unfold h in *. eapply parent_entry; [done..| |by apply Nat.lt_le_incl].
    destruct Hpush as (pack & refs & o & _ & _ & _ & _ & _ & Hp). congruence.
  - destruct Ho as [Ha ->]. exists run, community, event. split_and!; try done. destruct i as [|i]; [done|]. exfalso. cbn in Hpar.
    destruct (history G pk !! i) as [x|] eqn:E; [done|]. apply lookup_ge_None in E. unfold h in Hlt. lia.
Qed.

(** Published entries stay, at their place, whatever happens. *)
Theorem history_append_only submitted jobs W W' pk i x :
  setting submitted jobs -> reachable submitted jobs W -> rtc (step submitted jobs) W W' ->
  history (w_shared W) pk !! i = Some x -> history (w_shared W') pk !! i = Some x.
Proof.
  intros Hset HW Hsteps. induction Hsteps as [|W W1 W' Hs _ IH]; [done|]. intros Hx.
  apply IH; [by eapply reach_step|]. eapply history_lookup_grows; [|done].
  destruct (setting_inv _ _ _ Hset HW) as [Hi Hp].
  destruct Hs as [pid Hn|pid st r k G' y Hl Hr Hy|pid st r k Hl Hr|pid k b Hk Hb]; cbn; [reflexivity| | |].
  - destruct (Hp pid _ Hl) as [_ Hw]. destruct (Hw _ Hi ltac:(reflexivity) Hr) as [Ha _].
    by destruct (exec_grows _ _ _ _ _ _ _ Hi Ha Hy).
  - destruct (Hp pid _ Hl) as [_ Hw]. by destruct (Hw _ Hi ltac:(reflexivity) Hr) as [[_ Hg] _].
  - by destruct (act_create _ _ (w_shared W) pid k b Hi Hk Hb).
Qed.

(** ** Pushes *)

Lemma proc_post submitted jobs W pid st a :
  setting submitted jobs -> reachable submitted jobs W -> w_procs W !! pid = Some (mkProc st (Ret a)) ->
  inv submitted (origin submitted jobs) (w_shared W) /\ post jobs pid st (w_shared W) a.
Proof.
  intros Hset HW Hl. destruct (setting_inv _ _ _ Hset HW) as [Hi Hp]. split; [done|]. by destruct (Hp pid _ Hl) as [_ Hw].
Qed.

(** C8: A push answered with status 200 was made from a state no older than its
    own start and its body is the output of git; and if git exited successfully
    and its report refuses no ref, the push is in the history, directly after the
    state it was made from, with the refs and HEAD of its workspace.  (When git
    failed, or refused a ref, the answer is also 200 and nothing is published.) *)
Theorem push_success_committed submitted jobs W pid st config run community owner repo pusher_hex response events :
  setting submitted jobs -> reachable submitted jobs W ->
  jobs pid = Push config run community owner repo pusher_hex ->
  w_procs W !! pid = Some (mkProc st (Ret (Pushed response events))) -> status response = 200%N ->
  let G := w_shared W in
  let pk := pointer_key community owner repo in
  exists ps pack, receive_pack_output run ps = Ok pack /\ body response = po_stdout pack /\
    (history st pk = [] \/ exists i q d, parent_digest ps = Some d /\ history G pk !! i = Some (q, d) /\
       (length (history st pk) <= S i)%nat /\ published G d (ps_parent ps)) /\
    (forall len, pr_receive_pack run ps = ProcExited true (Some len) (Some (body response)) ->
     receive_pack_report_rejected (body response) = false ->
     exists i d m refs observed, history G pk !! i = Some (pid, d) /\ previous (history G pk) i = parent_digest ps /\
       published G d m /\ snapshot_workspace_state (pr_workspace run ps) = Ok (refs, observed) /\ mf_refs m = refs /\
       mf_head m = resolve_published_head refs observed (mf_head (ps_parent ps))).
Proof.
  intros Hset HW Hj Hl Hst G pk. destruct (proc_post _ _ _ _ _ _ Hset HW Hl) as [Hi Hpost].
  unfold post in Hpost. rewrite Hj in Hpost. destruct Hpost as [Hok _].
  destruct (Hok Hst) as (ps & pack & [_ Hfrom] & Hpack & Hbody & Hland). exists ps, pack. split_and!; [done..| |].
  - destruct Hfrom as [Hlen|(d & Hd & i & q & Hh & Hlen & Hp)]; [left; by apply nil_length_inv|right]. by exists i, q, d.
  - intros len Hexit Hrep. assert (po_ok pack = true) as Hpo.
    { unfold receive_pack_output, run_git_at in Hpack. rewrite Hexit in Hpack. destruct (_ <? _)%N; [done|].
      rewrite Hrep in Hpack. by injection Hpack as <-. }
    destruct (Hland Hpo) as (s & refs & o & d & Hsnap & [_ (i & Hh & Hprev) Hpub [_ Hhead Hrefs _ _ _ _]]).
    by exists i, d, (cs_manifest s), refs, o.
Qed.

Lemma landed_changed submitted jobs G pid pk run ps s :
  inv submitted (origin submitted jobs) G -> landed G pid pk run ps s -> manifest_changed ps s = true.
Proof.
  intros Hi (refs & o & d & _ & [Hkey (i & Hh & Hprev) _ _]). unfold manifest_changed. rewrite Hkey.
  rewrite (proj2 (strip_prefix_Some "manifests/" _ d) eq_refl).
  destruct (parent_digest ps) as [before|] eqn:Ep; [|done]. destruct (String.eqb_spec before d) as [->|]; [|done].
  destruct i as [|j]; [done|]. cbn in Hprev. destruct (history G pk !! j) as [[q d']|] eqn:E; [|done]. cbn in Hprev.
  simplify_eq. pose proof (history_unique _ _ _ _ _ _ _ _ _ Hi Hh E). lia.
Qed.

(** What an announcement may say of a manifest. *)
Definition announces (e : Event) (m : Manifest) : Prop :=
  forall name oid, under_heads_or_tags name = true ->
    [name; oid] ∈ ev_tags e <-> mf_refs m !! name = Some oid.

Lemma elem_of_ref_tags m name oid :
  valid_manifest m -> under_heads_or_tags name = true -> [name; oid] ∈ ref_tags (sorted_refs (mf_refs m)) <-> mf_refs m !! name = Some oid.
Proof.
  intros Hm Hn. rewrite announcement_exact by done. rewrite list_elem_of_fmap. split.
  - intros ([n o] & [= -> ->] & Hin). apply list_elem_of_In, filter_In in Hin as [Hin%list_elem_of_In _].
    by apply elem_of_sorted_refs in Hin.
  - intros Hl. exists (name, oid). split; [done|]. apply list_elem_of_In, filter_In. split; [|done].
    apply list_elem_of_In. by apply elem_of_sorted_refs.
Qed.

Lemma built_announces repo_id owner pusher s e :
  valid_manifest (cs_manifest s) -> build_ref_state_event (ref_state_inputs repo_id owner pusher s) = Ok e ->
  ev_kind e = 30618%N /\ announces e (cs_manifest s).
Proof.
  intros Hm. unfold build_ref_state_event. destruct (pubkey_from_hex _) as [actor|]; [|done].
  destruct (pubkey_from_hex _) as [own|]; [|done]. destruct (sign_with_keys _ _ _) as [e'|] eqn:Es; [|done]. intros [= ->].
  destruct (sign_tags _ _ _ _ Es) as [Hk Ht]. split; [done|]. intros name oid Hn. rewrite Ht. unfold ref_state_tags.
  cbn [ref_state_inputs rs_refs rs_repo_id rs_head]. rewrite !elem_of_app, elem_of_ref_tags by done.
  split; [|by right; left].
  assert (forall n v, [name; oid] ∈ [[n; v]] -> under_heads_or_tags n = true) as Hno.
  { intros n v Hx%list_elem_of_singleton. by injection Hx as -> _. }
  intros [Hx|[Hx|[Hx|[Hx|Hx]]]]; [by apply (Hno _ _) in Hx|done| |by apply (Hno _ _) in Hx..].
  destruct (_ && _) in Hx; [by apply (Hno _ _) in Hx|by apply elem_of_nil in Hx].
Qed.

(** Every ref-state event a push hands to the database follows its commit:
    the push is in the history, and the event has exactly the branches and tags of
    the published manifest. *)
Theorem announced_after_commit submitted jobs W pid st config run community owner repo pusher_hex response events e :
  setting submitted jobs -> reachable submitted jobs W ->
  jobs pid = Push config run community owner repo pusher_hex ->
  w_procs W !! pid = Some (mkProc st (Ret (Pushed response events))) -> e ∈ events ->
  exists i d m, history (w_shared W) (pointer_key community owner repo) !! i = Some (pid, d) /\
    published (w_shared W) d m /\ ev_kind e = 30618%N /\ announces e m.
Proof.
  intros Hset HW Hj Hl He. destruct (proc_post _ _ _ _ _ _ Hset HW Hl) as [Hi Hpost].
  unfold post in Hpost. rewrite Hj in Hpost. destruct Hpost as [_ Hev].
  destruct (Hev e He) as (ps & s & _ & (refs & o & d & _ & [_ (i & Hh & _) Hpub _]) & Hbuild).
  exists i, d, (cs_manifest s). split_and!; [done..|eapply built_announces, Hbuild; by destruct Hpub|
    eapply built_announces, Hbuild; by destruct Hpub].
Qed.

(** ** Reads *)

(** C25: An advertisement for cloning lists, line by line, HEAD and the refs of
    one published state that is no older than the start of the request, or is what
    git itself answers for that state. *)
Theorem advertisement_linearizable submitted jobs W pid st authorized permit materialize process community owner repo response :
  setting submitted jobs -> reachable submitted jobs W ->
  jobs pid = Advertise authorized permit materialize process community "git-upload-pack" owner repo ->
  w_procs W !! pid = Some (mkProc st (Ret (Advertised response))) -> status response = 200%N ->
  let G := w_shared W in
  let pk := pointer_key community owner repo in
  exists i q d m, history G pk !! i = Some (q, d) /\ (length (history st pk) <= S i)%nat /\ published G d m /\
    (response = advertise "git-upload-pack" (process m) \/
     exists head_oid, mf_refs m !! mf_head m = Some head_oid /\
       PktLineIter (body response) = advertisement_lines m head_oid).
Proof.
  intros Hset HW Hj Hl Hst G pk. destruct (proc_post _ _ _ _ _ _ Hset HW Hl) as [Hi Hpost].
  unfold post in Hpost. rewrite Hj in Hpost. destruct (Hpost Hst) as (d & m & (i & q & Hh & Hlen & Hp) & Hb).
  exists i, q, d, m. split_and!; [done..|]. destruct Hb as [(_ & Hf & ->)| ->]; [right|by left]. by apply advertisement_exact.
Qed.
End theorems.

(** ** Repositories *)

Lemma validate_repo_id_spec owner repo n :
  validate_repo_id owner repo = Ok n -> String.length owner = 64%nat /\ n = repo_name repo.
Proof.
  unfold validate_repo_id. case_bool_decide as Ho; cbn [negb orb]; [|done]. destruct (negb _); [done|].
  destruct (_ || _); [done|]. by intros [= <-].
Qed.

(** The pointers of two repositories that differ in community, owner or name
    are different objects, for all names the endpoints accept. *)
Theorem pointer_key_separates `{UuidTextLaws} c c' owner owner' repo repo' n n' :
  (as_uuid c < 2 ^ 128)%N -> (as_uuid c' < 2 ^ 128)%N ->
  validate_repo_id owner repo = Ok n -> validate_repo_id owner' repo' = Ok n' ->
  pointer_key c owner repo = pointer_key c' owner' repo' -> c = c' /\ owner = owner' /\ n = n'.
Proof.
  intros Hc Hc' [Ho ->]%validate_repo_id_spec [Ho' ->]%validate_repo_id_spec Hk. unfold pointer_key in Hk.
  apply app_inj_length in Hk as [_ Hk]; [|done]. apply app_inj_length in Hk as [Hu Hk]; [|by apply uuid_text_length].
  apply app_inj_length in Hk as [_ Hk]; [|done]. apply app_inj_length in Hk as [<- Hk]; [|congruence].
  apply app_inj_length in Hk as [_ Hk]; [|done]. apply app_inj_suffix in Hk as [Hr _]; [|done].
  apply uuid_text_inj in Hu; [|done..]. destruct c, c'. cbn in *. by subst.
Qed.

(** The published HEAD names a published branch whenever there is one, and the
    branch git reports when that one is published. *)
Theorem published_head_branch refs observed parent branch :
  is_published_branch refs branch = true ->
  is_published_branch refs (resolve_published_head refs observed parent) = true /\
  (is_published_branch refs observed = true -> resolve_published_head refs observed parent = observed).
Proof.
  intros Hb. unfold resolve_published_head. destruct (is_published_branch refs observed) eqn:Eo; [done|]. split; [|done].
  destruct (is_published_branch refs parent) eqn:Ep; [done|].
  case_bool_decide as Hmain; [unfold is_published_branch; by rewrite bool_decide_eq_true_2|].
  case_bool_decide as Hmaster; [unfold is_published_branch; by rewrite bool_decide_eq_true_2|].
  unfold is_published_branch in Hb. apply andb_prop in Hb as [Hbr Hin%bool_decide_eq_true_1].
  destruct (List.find is_branch _) as [b|] eqn:Ef.
  - apply find_some in Ef as [Hl Hisb]. apply list_elem_of_In, list_elem_of_fmap in Hl as ([b' oid] & -> & Hl%elem_of_sorted_refs).
    unfold is_published_branch. cbn in *. by rewrite Hisb, Hl.
  - exfalso. destruct Hin as [oid Ho]. pose proof (find_none _ _ Ef branch) as Hn. rewrite Hn in Hbr; [done|].
    apply list_elem_of_In, list_elem_of_fmap. exists (branch, oid). split; [done|]. by apply elem_of_sorted_refs.
Qed.

(** * A store that answers every request at once: a push that is not raced lands,
    and a load finds the last published state unless its manifest is too large. *)

Section alone.
Context `{NostrLib, HexLib, Sha256Lib, S3Laws, ManifestJson, GitObjects}.
Context `{!HexLaws, !HexTextLaws, !Sha256Laws, !ManifestJsonLaws}.

(** The complete answer of a service without faults. *)
Definition answer (s : bucket) (r : Request) : Answer r :=
  match r return Answer r with
  | PutNew k b =>
      match s3_put_new s k b with
      | Some s1 => Ok (200%N, snd <$> s3_get s1 k)
      | None => Err (HttpFail 412)
      end
  | PutMatch k t b =>
      match s3_put_match s k t b with
      | Ok s1 => Ok (200%N, snd <$> s3_get s1 k)
      | Err c => Err (HttpFail c)
      end
  | GetObject k =>
      match s3_get s k with
      | Some (b, t) => Ok (b, Some t)
      | None => Err (HttpFail 404)
      end
  | HeadObject k =>
      match s3_get s k with
      | Some (b, _) => Ok (200%N, Some (Z.of_nat (String.length b)))
      | None => Err (HttpFail 404)
      end
  end.

Fixpoint run_alone {A} (pid : nat) (p : Prog A) (G : Shared) : Shared * A :=
  match p with
  | Ret a => (G, a)
  | Call r k => run_alone pid (k (answer (sh_bucket G) r)) (act pid r G)
  end.

(** It is one of the services the protocol is proved for. *)
Lemma answer_exec pid G r : exec pid G r (act pid r G) (answer (sh_bucket G) r).
Proof.
  apply exec_served. destruct r as [k b|k t b|k|k]; cbn [serves answer act].
  - destruct (s3_get (sh_bucket G) k) as [x|] eqn:E; [by rewrite (put_new_held _ _ _ _ E)|].
    destruct (put_new_free _ _ b E) as (s & t & -> & _ & Hnew & _). split; [done|]. rewrite Hnew. exists 200%N, (Some t).
    split_and!; [done|done|]. right. by exists t.
  - destruct (s3_get (sh_bucket G) k) as [[b0 t0]|] eqn:E; [|by destruct (put_match_absent _ _ t b E) as [c ->]].
    destruct (decide (t0 = t)) as [->|Hne]; [|by rewrite (put_match_other _ _ _ _ _ _ E Hne)].
    destruct (put_match_same _ _ _ b _ E) as (s & t' & -> & _ & Hnew & _). split; [done|]. rewrite Hnew.
    exists 200%N, (Some t'). split_and!; [done|done|]. right. by exists t'.
  - split; [done|]. destruct (s3_get _ k) as [[b t]|]; [|done]. exists (Some t). auto.
  - split; [done|]. destruct (s3_get _ k) as [[b t]|]; [|done]. eexists _, _. split_and!; [done|done|by right].
Qed.

Lemma run_alone_bind {A B} pid (p : Prog A) (f : A -> Prog B) G :
  run_alone pid (bind p f) G = run_alone pid (f (run_alone pid p G).2) (run_alone pid p G).1.
Proof. revert G. induction p as [a|r k IH]; intros G; [done|]. cbn. apply IH. Qed.

(** ** Loading *)

Lemma status_ok_200 : status_ok 200 = true.
Proof. done. Qed.

Lemma get_verified_limited_alone pid key d max G b t :
  at_key G key = Some (b, t) -> digest_hex b = d ->
  run_alone pid (get_verified_limited key d max) G
  = (G, if (max <? str_bytes b)%N then Err (ObjectTooLarge key (str_bytes b) max) else Ok b).
Proof.
  intros Hat Hd. unfold get_verified_limited. rewrite run_alone_bind. unfold get_limited. cbn [run_alone act answer].
  unfold at_key in Hat. rewrite Hat. cbn [N.eqb Pos.eqb negb]. rewrite status_ok_200. cbn [negb].
  replace (Z.of_nat (String.length b) <? 0)%Z with false by (symmetry; apply Z.ltb_ge; lia).
  replace (Z.to_N (Z.of_nat (String.length b))) with (str_bytes b) by (unfold str_bytes; lia).
  destruct (max <? str_bytes b)%N eqn:El; [done|]. rewrite run_alone_bind. unfold get. cbn [run_alone act answer].
  rewrite Hat. cbn [run_alone fst snd]. rewrite El. cbn [run_alone fst snd]. unfold check_digest. by rewrite Hd, String.eqb_refl.
Qed.

(** C39: On a store that answers, loading a repository returns the last entry of its
    history with its manifest and tag, or the resource-limit error when the manifest
    has more than four mebibytes. *)
Theorem load_settled submitted origin pid community owner repo G q d b m :
  let pk := pointer_key community owner repo in
  inv submitted origin G -> last (history G pk) = Some (q, d) ->
  stored G ("manifests/" +:+ d) b -> from_bytes b = Ok m ->
  exists e, at_key G pk = Some (d, e) /\
    run_alone pid (load_pointer community owner repo) G
    = (G, if (MAX_MANIFEST_BYTES <? str_bytes b)%N then Err HydrateLimit else Ok (Some (e, d, m))).
Proof.
  intros pk Hi Hlast Hb Hm. pose proof (iv_pointer _ _ G Hi pk ltac:(apply pointer_key_pointer)) as Hp. rewrite Hlast in Hp.
  destruct (at_key G pk) as [[d' e]|] eqn:Eat; [|done]. cbn in Hp. injection Hp as ->. exists e. split; [done|].
  destruct (pointer_value submitted origin G pk d e Hi ltac:(apply pointer_key_pointer) Eat) as (q' & m' & _ & Hd & Hm' & _).
  pose proof (stored_published _ _ _ _ _ Hm' Hb Hm) as <-.
  destruct Hb as [t Ht]. destruct (iv_keys _ _ G Hi _ _ (ex_intro _ t Ht) d) as [Hdig _]; [by right|].
  unfold load_pointer. rewrite run_alone_bind. unfold get_pointer. cbn [run_alone act answer]. fold pk.
  unfold at_key in Eat. rewrite Eat. cbn [run_alone fst snd]. rewrite Hd. unfold hydrate_get_verified_limited.
  rewrite !run_alone_bind, (get_verified_limited_alone pid _ d MAX_MANIFEST_BYTES G b t Ht) by done. cbn [fst snd].
  destruct (MAX_MANIFEST_BYTES <? str_bytes b)%N; cbn [run_alone fst snd]; [done|]. rewrite Hm.
  destruct Hm' as [_ Hv _ _]. by rewrite (proj2 (validate_exact m) Hv).
Qed.

(** ** Pushing *)

(** Uploads leave the pointers and their histories alone. *)
Definition same_pointers (G G' : Shared) : Prop :=
  (forall pk, is_pointer pk = true -> at_key G' pk = at_key G pk) /\ sh_history G' = sh_history G.

#[local] Instance same_pointers_preorder : PreOrder same_pointers.
Proof.
  split; [by split|]. intros G1 G2 G3 [Ha Hb] [Hc Hd]. split; [|congruence]. intros pk Hpk. by rewrite Hc, Ha.
Qed.

Lemma upload_same pid k b G : is_pointer k = false -> same_pointers G (act pid (PutNew k b) G).
Proof.
  intros Hk. cbn [act]. destruct (s3_get (sh_bucket G) k) as [x|] eqn:E; [by rewrite (put_new_held _ _ _ _ E)|].
  destruct (put_new_free _ _ b E) as (s & t & -> & _ & _ & Hothers). rewrite no_pointer_record by done.
  split; [|done]. intros pk Hpk. unfold at_key. cbn. apply Hothers. congruence.
Qed.
Lemma upload_created k b G : created k (answer (sh_bucket G) (PutNew k b)) = Ok k.
Proof. cbn. by destruct (s3_put_new _ _ _). Qed.

Lemma put_immutable_alone pid prefix b G :
  prefix ∈ prefixes ->
  (run_alone pid (put_immutable prefix b) G).2 = Ok (content_key prefix b) /\
  same_pointers G (run_alone pid (put_immutable prefix b) G).1.
Proof.
  intros Hp. unfold put_immutable. cbn [run_alone fst snd]. rewrite upload_created. split; [done|].
  apply upload_same. by apply content_key_prefix.
Qed.
Lemma put_idx_alone pid pd b G : same_pointers G (run_alone pid (put_idx pd b) G).1.
Proof.
  unfold put_idx. destruct (idx_key_for_pack_digest pd) as [key|] eqn:E; [|reflexivity]. apply idx_key in E as ->.
  cbn [run_alone fst]. by apply upload_same.
Qed.
Lemma write_idx_sidecar_alone pid g key b G : same_pointers G (run_alone pid (write_idx_sidecar g key b) G).1.
Proof.
  unfold write_idx_sidecar. destruct (digest_from_pack_key key); [|reflexivity]. destruct (gr_index_pack g b); [|reflexivity].
  rewrite run_alone_bind. apply put_idx_alone.
Qed.

(** The pointer is where the push found it. *)
Definition unraced (G : Shared) (pk : string) (ps : ParentState) : Prop :=
  match if_match ps with
  | Some e => header_value e = true /\ exists d, at_key G pk = Some (d, e)
  | None => at_key G pk = None
  end.

Lemma put_pointer_alone pid pk ps d G :
  is_pointer pk = true -> unraced G pk ps ->
  let G' := (run_alone pid (put_pointer pk d (precondition ps)) G).1 in
  exists e, (run_alone pid (put_pointer pk d (precondition ps)) G).2 = Ok (Won e) /\
    at_key G' pk = Some (d, e) /\ history G' pk = history G pk ++ [(pid, d)].
Proof.
  intros Hpk. unfold unraced, precondition. destruct (if_match ps) as [t|].
  - intros [Hh (d0 & Hat)]. unfold put_pointer. rewrite Hh. cbn [negb run_alone fst snd act answer].
    destruct (put_match_same _ _ _ d _ Hat) as (s & e & -> & _ & Hnew & _). rewrite Hnew. exists e. split_and!; [done|done|].
    rewrite record_history by done. by rewrite decide_True.
  - intros Hat. unfold put_pointer. cbn [run_alone fst snd act answer].
    destruct (put_new_free _ _ d Hat) as (s & e & -> & _ & Hnew & _). rewrite Hnew. exists e. split_and!; [done|done|].
    rewrite record_history by done. by rewrite decide_True.
Qed.

Lemma same_unraced G G' pk ps : is_pointer pk = true -> same_pointers G G' -> unraced G pk ps -> unraced G' pk ps.
Proof. intros Hpk [Ha _]. unfold unraced. by rewrite Ha. Qed.
Lemma same_history G G' pk : same_pointers G G' -> history G' pk = history G pk.
Proof. intros [_ Hb]. unfold history. by rewrite Hb. Qed.

Lemma commit_alone pid pk ps m b G :
  is_pointer pk = true -> unraced G pk ps -> validate m = Ok tt -> canonical_bytes m = Ok b ->
  let r := run_alone pid (commit_manifest pk ps m) G in
  r.2 = Ok (mkCasSuccess m ("manifests/" +:+ digest_hex b)) /\ history r.1 pk = history G pk ++ [(pid, digest_hex b)] /\
  exists e, at_key r.1 pk = Some (digest_hex b, e).
Proof.
  intros Hpk Hun Hv Hb r. unfold r, commit_manifest. rewrite Hv, Hb, run_alone_bind.
  destruct (put_immutable_alone pid "manifests" b G) as [Hkey Hsame]; [by right; left|]. unfold put_manifest.
  rewrite Hkey. set (G1 := (run_alone pid (put_immutable "manifests" b) G).1) in *. rewrite manifest_key_digest, run_alone_bind.
  destruct (put_pointer_alone pid pk ps (digest_hex b) G1 Hpk (same_unraced _ _ _ _ Hpk Hsame Hun)) as (e & Hwon & Hat & Hh).
  unfold precondition in *. rewrite Hwon. cbn [run_alone fst snd].
  split_and!; [|by rewrite Hh, (same_history _ _ _ Hsame)|by exists e]. unfold content_key. by rewrite <- string_app_assoc.
Qed.

(** What the ordinary way composes for the pack [new], if any. *)
Definition delta_manifest (ps : ParentState) (head : string) (refs : gmap string string) (new : option string) : Manifest :=
  compose_after (ps_parent ps) (parent_digest ps) head refs (content_key "packs" <$> new).
Definition within_limits (limits : PublishLimits) (new : option string) : Prop :=
  forall b, new = Some b -> (parent_hydrated_bytes limits + str_bytes b <= N.min u64_MAX (max_repo_bytes limits))%N.

Lemma publish_delta_alone pid g ps limits head refs new failure G :
  capture_pack g (mf_refs (ps_parent ps)) refs (max_pack_bytes limits) = Ok new ->
  (length (mf_packs (ps_parent ps)) < MAX_MANIFEST_PACKS)%nat -> within_limits limits new ->
  let r := run_alone pid (publish_delta g ps limits head refs failure) G in
  r.2 = Ok (delta_manifest ps head refs new) /\ same_pointers G r.1.
Proof.
  intros Hcap Hpacks Hlim r. unfold r, publish_delta. rewrite Hcap. destruct new as [b|]; [|done].
  specialize (Hlim b eq_refl). rewrite (proj2 (Nat.leb_gt _ _)) by done. rewrite !(proj2 (N.ltb_ge _ _)) by lia.
  rewrite run_alone_bind. destruct (put_immutable_alone pid "packs" b G) as [Hkey Hsame]; [by left|]. unfold put_pack.
  rewrite Hkey, run_alone_bind. cbn [run_alone fst snd]. split; [done|]. etrans; [done|]. apply write_idx_sidecar_alone.
Qed.

(** C26: On a store that answers, a push that is not raced and stays within its
    limits succeeds: the manifest with its refs and the parent's packs plus the new
    one becomes the next entry of the history and the value of the pointer. *)
Theorem lone_push_lands pid community owner repo g ps limits refs observed new b G :
  let pk := pointer_key community owner repo in
  let m := delta_manifest ps (resolve_published_head refs observed (mf_head (ps_parent ps))) refs new in
  snapshot_workspace_state g = Ok (refs, observed) ->
  (length (mf_packs (ps_parent ps)) < PACK_COMPACTION_THRESHOLD)%nat ->
  capture_pack g (mf_refs (ps_parent ps)) refs (max_pack_bytes limits) = Ok new -> within_limits limits new ->
  valid_manifest m -> canonical_bytes m = Ok b -> unraced G pk ps ->
  let r := run_alone pid (cas_publish community owner repo g ps limits) G in
  r.2 = Ok (mkCasSuccess m ("manifests/" +:+ digest_hex b)) /\ history r.1 pk = history G pk ++ [(pid, digest_hex b)] /\
  exists e, at_key r.1 pk = Some (digest_hex b, e).
Proof.
  intros pk m Hsnap Hpacks Hcap Hlim Hv Hb Hun r. unfold r, cas_publish, cas_publish_inner. fold pk. rewrite Hsnap.
  rewrite run_alone_bind. unfold compact_if_due, should_compact. cbn [compaction_threshold po_limits].
  rewrite (proj2 (Nat.leb_gt _ _)) by done. cbn [negb run_alone fst snd]. rewrite run_alone_bind.
  assert (length (mf_packs (ps_parent ps)) < MAX_MANIFEST_PACKS)%nat as Hmax.
  { etrans; [done|]. apply Nat.ltb_lt. vm_compute. done. }
  destruct (publish_delta_alone pid g ps limits (resolve_published_head refs observed (mf_head (ps_parent ps))) refs new None G
    Hcap Hmax Hlim) as [Hm Hsame]. rewrite Hm. fold m.
  rewrite <- (same_history _ _ pk Hsame). apply commit_alone; [apply pointer_key_pointer| |by apply validate_exact|done].
  by eapply same_unraced; [apply pointer_key_pointer|..].
Qed.
End alone.
