(* ===== verification/GitWitness.v ===== *)
(** The git theorems at concrete inputs: a store in memory, a first push and a
    read of what it published. *)

From S2P Require Import Prelude Nostr MeshWire AuditTheorems RustStr GitManifest GitStore GitPublish GitHistory GitCommit.
From S2P Require Import GitPkt GitTransport GitWorld GitTheorems.

(** ** Running one process of a world to its end *)

Section run.
Context `{NostrLib, HexLib, Sha256Lib, S3Laws, ManifestJson, GitObjects, EventBuilder}.
Variable submitted : list string.
Variable jobs : nat -> Job.

Definition allowed_b (r : Request) : bool :=
  match r with PutNew k b => negb (is_addressed k) || bool_decide (b ∈ submitted) | _ => true end.
Fixpoint allowed_along {A} (pid : nat) (p : Prog A) (G : Shared) : bool :=
  match p with
  | Ret _ => true
  | Call r k => allowed_b r && allowed_along pid (k (answer (sh_bucket G) r)) (act pid r G)
  end.

Lemma allowed_b_ok r : allowed_b r = true -> allowed submitted r.
Proof. destruct r; [|done..]. cbn. intros Hr Ha. rewrite Ha in Hr. by apply bool_decide_eq_true_1 in Hr. Qed.

Definition run_to_end (pid : nat) (st : Shared) (p : Prog Outcome) (W : World) : World :=
  mkWorld (run_alone pid p (w_shared W)).1 (<[pid := mkProc st (Ret (run_alone pid p (w_shared W)).2)]> (w_procs W)).

Lemma run_alone_steps pid st p W :
  w_procs W !! pid = Some (mkProc st p) -> allowed_along pid p (w_shared W) = true ->
  rtc (step submitted jobs) W (run_to_end pid st p W).
Proof.
  revert W. induction p as [a|r k IH]; intros [G procs] Hl Ha; cbn in *.
  - unfold run_to_end. cbn. rewrite insert_id by done. reflexivity.
  - apply andb_prop in Ha as [Hr Hk]. eapply rtc_l.
    + eapply step_request; [exact Hl|by apply allowed_b_ok|apply answer_exec].
    + set (W1 := mkWorld _ _). assert (run_to_end pid st (Call r k) (mkWorld G procs)
        = run_to_end pid st (k (answer (sh_bucket G) r)) W1) as -> by (unfold run_to_end, W1; cbn; by rewrite insert_insert_eq).
      apply IH; [|exact Hk]. cbn. by rewrite lookup_insert_eq.
Qed.

Definition started_world (pid : nat) (W : World) : World :=
  mkWorld (w_shared W) (<[pid := mkProc (w_shared W) (run_job (jobs pid))]> (w_procs W)).
Definition after (pid : nat) (W : World) : World := run_to_end pid (w_shared W) (run_job (jobs pid)) (started_world pid W).

Lemma after_steps pid W :
  w_procs W !! pid = None -> allowed_along pid (run_job (jobs pid)) (w_shared W) = true ->
  rtc (step submitted jobs) W (after pid W).
Proof.
  intros Hn Ha. eapply rtc_l; [by apply (step_start submitted jobs W pid)|].
  apply run_alone_steps; [|done]. cbn. by rewrite lookup_insert_eq.
Qed.

Lemma steps_reachable W W' : reachable submitted jobs W -> rtc (step submitted jobs) W W' -> reachable submitted jobs W'.
Proof. intros HW Hs. induction Hs as [|W W1 W' Hs _ IH]; [done|]. apply IH. by eapply reach_step. Qed.
End run.

(** ** A store in memory, and one repository *)

Module SampleRepo.
Import Sample SampleHex SampleAudit.

(** The tag of an object is its content. *)
#[export] Instance store : S3 := {|
  bucket := gmap string string;
  s3_get s k := (fun b => (b, b)) <$> s !! k;
  s3_put_new s k b := match s !! k with Some _ => None | None => Some (<[k := b]> s) end;
  s3_put_match s k t b :=
    match s !! k with
    | Some b0 => if decide (b0 = t) then Ok (<[k := b]> s) else Err 412%N
    | None => Err 404%N
    end;
  s3_later _ _ := True;
  header_value _ := true;
|}.
#[export] Instance store_laws : S3Laws.
Proof.
  split; cbn [s3_get s3_put_new s3_put_match s3_later store bucket].
  - by split.
  - intros s k b x. by destruct (s !! k).
  - intros s k b Hn. destruct (s !! k) eqn:E; [done|]. exists (<[k := b]> s), b.
    rewrite lookup_insert_eq. split_and!; [done..|]. intros k' Hne. by rewrite lookup_insert_ne.
  - intros s k t b b0 Hg. destruct (s !! k) as [b1|] eqn:E; [|done]. injection Hg as -> ->. rewrite decide_True by done.
    exists (<[k := b]> s), b. rewrite lookup_insert_eq. split_and!; [done..|]. intros k' Hne. by rewrite lookup_insert_ne.
  - intros s k t b b0 t0 Hg Hne. destruct (s !! k) as [b1|] eqn:E; [|done]. injection Hg as -> ->. by rewrite decide_False.
  - intros s k t b Hn. destruct (s !! k); [done|]. by eexists.
  - intros s s' k b b' t _. destruct (s !! k), (s' !! k); cbn; congruence.
Qed.

Definition oid : string := "0123456789abcdef0123456789abcdef01234567".
Definition pack : string := "PACK".
#[export] Instance objects : GitObjects := {|
  closure o := {[ o ]};
  pack_objects b := if decide (b = pack) then {[ oid ]} else ∅;
|}.

Definition community : CommunityId := from_uuid 9.
Definition owner : string := "abababababababababababababababababababababababababababababababab".
Definition refs : gmap string string := {[ "refs/heads/main" := oid ]}.
Definition manifest : Manifest :=
  mkManifest MANIFEST_VERSION "refs/heads/main" refs [content_key "packs" pack] None.
Definition manifest_text : string := "manifest one".
Definition empty_text : string := "manifest zero".

#[export] Instance manifest_eq_dec : EqDecision Manifest.
Proof. solve_decision. Defined.
#[export] Instance json : ManifestJson := {|
  manifest_to_vec m := if decide (m = manifest) then Ok manifest_text
                       else if decide (m = empty_manifest) then Ok empty_text else Err tt;
  manifest_from_slice b := if decide (b = manifest_text) then Ok manifest
                           else if decide (b = empty_text) then Ok empty_manifest else Err tt;
|}.
#[export] Instance json_laws : ManifestJsonLaws.
Proof.
  split. intros m b. cbn [manifest_to_vec manifest_from_slice json]. destruct (decide (m = manifest)) as [->|]; [by intros [= <-]|].
  destruct (decide (m = empty_manifest)) as [->|]; [|done]. by intros [= <-].
Qed.

#[export] Instance builder : EventBuilder := {|
  pubkey_from_hex _ := Some 7%N;
  pubkey_to_hex _ := "07";
  sign_with_keys k c tags := Some (mkEvent 1 7 0 k tags c);
|}.
#[export] Instance builder_laws : EventBuilderLaws.
Proof. split. by intros k c tags e [= <-]. Qed.

Definition workspace : GitRun :=
  mkGitRun (Some ("refs/heads/main " +:+ oid +:+ newline)) (Some (Some "refs/heads/main"))
    (fun pos _ => if decide (pos = [oid]) then Some (4%N, Some pack) else None)
    (fun _ => Some "IDX") true None (fun _ => None) 0.
Lemma workspace_faithful : git_faithful workspace.
Proof.
  split; [| |done].
  - intros pos neg len bytes Hp o o' Ho Ho'. cbn in Hp. destruct (decide (pos = [oid])) as [->|]; [|done]. injection Hp as _ <-.
    apply list_elem_of_singleton in Ho as ->. left. apply elem_of_singleton in Ho' as ->. cbn. by apply elem_of_singleton.
  - intros pos neg read Hp. cbn in Hp. by destruct (decide _).
Qed.

Definition report : string := stream [Line (String "001" (stream [Line ("unpack ok" +:+ newline); Line ("ok refs/heads/main" +:+ newline)])); Flush].
Definition run : PushRun :=
  mkPushRun true (fun _ => Ok 0%N) (Ok tt) true (fun _ => ProcExited true (Some 52%N) (Some report)) (fun _ => workspace)
    (mkServingWrite true true true None true true) (fun _ => Ok true).
Definition config : PushConfig := mkPushConfig 1000 1000.

(** A first announcement, and one by the owner of the name. *)
Definition announcement : Event := mkEvent 2 7 0 30617 [["d"; "repo"]] "".
Definition lease : ServingWrite := mkServingWrite true true true None true true.
Definition claim : AnnounceRun := mkAnnounceRun (Some None) (Some 0%Z) 10 (Some Reserved) lease (fun _ => Ok true).
Definition again : AnnounceRun := mkAnnounceRun (Some (Some "07")) None 10 None lease (fun _ => Ok true).

Definition jobs (pid : nat) : Job :=
  match pid with
  | O => Push config run community owner "repo.git" "07"
  | 2%nat => Announce claim community announcement
  | 3%nat => Announce again community announcement
  | _ => Advertise (Ok tt) true (fun _ => Ok 0%N) (fun _ => ProcFailed) community "git-upload-pack" owner "repo"
  end.
Definition submitted : list string := [pack; manifest_text; empty_text].

Lemma submitted_apart a b : a ∈ submitted -> b ∈ submitted -> no_collision sha256_digest a b.
Proof.
  intros Ha Hb He. assert (NoDup (sha256_digest <$> submitted)) as Hnd by (apply (bool_decide_unpack _); vm_compute; exact I).
  apply list_elem_of_lookup in Ha as [i Hi], Hb as [j Hj].
  assert (i = j) as <-; [|congruence].
  eapply NoDup_lookup; [exact Hnd| |]; rewrite list_lookup_fmap, ?Hi, ?Hj; cbn; [done|f_equal; exact (eq_sym He)].
Qed.
Lemma sample_setting : setting submitted jobs.
Proof.
  split; [apply submitted_apart| |].
  - intros [|[|[|[|pid]]]] config' run' community' owner' repo' pusher [=]; subst. intros ps. apply workspace_faithful.
  - by intros [|[|[|[|pid]]]] auth permit mat process c service o r resp [=]; subst.
Qed.

Definition W0 : World := mkWorld (mkShared ∅ ∅) ∅.
Definition W1 : World := after jobs 0 W0.
Definition W2 : World := after jobs 1 W1.

Lemma W0_reachable : reachable submitted jobs W0.
Proof. apply reach_initial. split_and!; done. Qed.
End SampleRepo.

Import Sample SampleHex SampleAudit SampleRepo.

Lemma push_runs : rtc (step submitted jobs) W0 W1.
Proof. apply after_steps; [done|]. vm_compute. reflexivity. Qed.
Lemma read_runs : rtc (step submitted jobs) W1 W2.
Proof. apply after_steps; [done|]. vm_compute. reflexivity. Qed.
Lemma W1_reachable : reachable submitted jobs W1.
Proof. eapply steps_reachable, push_runs. apply W0_reachable. Qed.
Lemma W2_reachable : reachable submitted jobs W2.
Proof. eapply steps_reachable, read_runs. apply W1_reachable. Qed.

Definition pk : string := pointer_key community owner "repo.git".
Definition pushed : Outcome := (run_alone 0 (run_job (jobs 0)) (w_shared W0)).2.
Definition read : Outcome := (run_alone 1 (run_job (jobs 1)) (w_shared W1)).2.
Lemma W1_proc : w_procs W1 !! 0%nat = Some (mkProc (w_shared W0) (Ret pushed)).
Proof. reflexivity. Qed.
Lemma W2_proc : w_procs W2 !! 1%nat = Some (mkProc (w_shared W1) (Ret read)).
Proof. reflexivity. Qed.
Definition event : Event := mkEvent 1 7 0 30618
  [["d"; "repo"]; ["refs/heads/main"; oid]; ["HEAD"; "ref: refs/heads/main"]; ["a"; "30617:07:repo"]; ["p"; "07"]] "".
Lemma pushed_value : pushed = Pushed (mkResponse 200 report) [event].
Proof. vm_compute. reflexivity. Qed.
Lemma read_value : read = Advertised (mkResponse 200 (build_upload_pack_advertisement manifest)).
Proof. vm_compute. reflexivity. Qed.
Lemma W1_history : history (w_shared W1) pk = [(0%nat, digest_hex manifest_text)].
Proof. vm_compute. reflexivity. Qed.

Lemma published_history_linear_witness :
  length (history (w_shared W2) pk) = 1%nat /\
  fst <$> at_key (w_shared W2) pk = snd <$> last (history (w_shared W2) pk).
Proof.
  split; [vm_compute; reflexivity|].
  exact (proj1 (published_history_linear submitted jobs W2 pk sample_setting W2_reachable eq_refl)).
Defined.

Lemma history_append_only_witness : history (w_shared W2) pk !! 0%nat = Some (0%nat, digest_hex manifest_text).
Proof.
  apply (history_append_only submitted jobs W1 W2 pk 0 _ sample_setting W1_reachable read_runs). by rewrite W1_history.
Defined.

(** An announcement installs the empty manifest; one that finds it succeeds and
    changes nothing. *)
Example announced_empty :
  let pk := pointer_key community "07" "repo" in
  let W := after jobs 2 W0 in
  history (w_shared W) pk = [(2%nat, digest_hex empty_text)] /\
  (run_alone 2 (run_job (jobs 2)) (w_shared W0)).2 = Announced (Ok tt)
    [mkEvent 1 7 0 30618 [["d"; "repo"]; ["HEAD"; "ref: refs/heads/main"]; ["a"; "30617:07:repo"]; ["p"; "07"]] ""] /\
  history (w_shared (after jobs 3 W)) pk = history (w_shared W) pk /\
  (run_alone 3 (run_job (jobs 3)) (w_shared W)).2 = Announced (Ok tt) [].
Proof. vm_compute. split_and!; reflexivity. Qed.

Lemma push_success_committed_witness :
  exists ps pack, receive_pack_output run ps = Ok pack /\ report = po_stdout pack.
Proof.
  destruct (push_success_committed submitted jobs W1 0 (w_shared W0) config run community owner "repo.git" "07"
    (mkResponse 200 report) [event] sample_setting W1_reachable eq_refl
    (eq_trans W1_proc (f_equal (fun o => Some (mkProc (w_shared W0) (Ret o))) pushed_value)) eq_refl)
    as (ps & pack & Hp & Hb & _).
  exists ps, pack. split; [exact Hp|exact Hb].
Defined.

Lemma announced_after_commit_witness : exists i d m,
  history (w_shared W1) pk !! i = Some (0%nat, d) /\ published (w_shared W1) d m /\ ev_kind event = 30618%N /\ announces event m.
Proof.
  exact (announced_after_commit submitted jobs W1 0 (w_shared W0) config run community owner "repo.git" "07"
    (mkResponse 200 report) [event] event sample_setting W1_reachable eq_refl
    (eq_trans W1_proc (f_equal (fun o => Some (mkProc (w_shared W0) (Ret o))) pushed_value))
    (list_elem_of_here event [])).
Defined.

Lemma advertisement_linearizable_witness : exists i q d,
  history (w_shared W2) pk !! i = Some (q, d) /\ (length (history (w_shared W1) pk) <= S i)%nat.
Proof.
  destruct (advertisement_linearizable submitted jobs W2 1 (w_shared W1) (Ok tt) true (fun _ => Ok 0%N) (fun _ => ProcFailed)
    community owner "repo" (mkResponse 200 (build_upload_pack_advertisement manifest)) sample_setting W2_reachable eq_refl
    (eq_trans W2_proc (f_equal (fun o => Some (mkProc (w_shared W1) (Ret o))) read_value)) eq_refl)
    as (i & q & d & m & Hh & Hl & _).
  exists i, q, d. split; [exact Hh|exact Hl].
Defined.

Lemma pointer_key_separates_witness :
  validate_repo_id owner "repo.git" = Ok "repo" /\ validate_repo_id owner "repo" = Ok "repo" /\
  community = community /\ owner = owner /\ "repo" = "repo".
Proof.
  split; [vm_compute; reflexivity|]. split; [vm_compute; reflexivity|].
  apply (pointer_key_separates community community owner owner "repo.git" "repo"); vm_compute; reflexivity.
Defined.

Lemma published_head_branch_witness :
  is_published_branch refs (resolve_published_head refs "refs/heads/gone" "refs/heads/old") = true.
Proof.
  apply (published_head_branch refs "refs/heads/gone" "refs/heads/old" "refs/heads/main"). vm_compute. reflexivity.
Defined.

Definition G0 : Shared := mkShared ∅ ∅.
Definition limits : PublishLimits := mkPublishLimits 0 1000 1000.
Lemma manifest_valid : valid_manifest manifest.
Proof. apply validate_exact. vm_compute. reflexivity. Qed.
Lemma lone_push_lands_witness :
  (run_alone 0 (cas_publish community owner "repo.git" workspace fresh limits) G0).2
  = Ok (mkCasSuccess manifest ("manifests/" +:+ digest_hex manifest_text)).
Proof.
  refine (proj1 (lone_push_lands 0 community owner "repo.git" workspace fresh limits refs "refs/heads/main" (Some pack)
    manifest_text G0 _ _ _ _ _ _ _)).
  - vm_compute. reflexivity.
  - apply Nat.ltb_lt. vm_compute. reflexivity.
  - vm_compute. reflexivity.
  - intros b [= <-]. vm_compute. discriminate.
  - exact manifest_valid.
  - vm_compute. reflexivity.
  - vm_compute. reflexivity.
Defined.

Lemma W1_inv : inv submitted (origin submitted jobs) (w_shared W1).
Proof. exact (wi_shared _ _ _ (setting_inv _ _ _ sample_setting W1_reachable)). Qed.
Lemma load_settled_witness : exists e,
  run_alone 1 (load_pointer community owner "repo.git") (w_shared W1) = (w_shared W1, Ok (Some (e, digest_hex manifest_text, manifest))).
Proof.
  destruct (load_settled submitted (origin submitted jobs) 1 community owner "repo.git" (w_shared W1) 0
    (digest_hex manifest_text) manifest_text manifest W1_inv) as (e & _ & Hr).
  - fold pk. rewrite W1_history. reflexivity.
  - exists manifest_text. vm_compute. reflexivity.
  - vm_compute. reflexivity.
  - exists e. rewrite Hr. reflexivity.
Defined.

Lemma report_exact_witness : receive_pack_report_rejected report = false.
Proof.
  apply (report_exact [Status [Line ("unpack ok" +:+ newline); Line ("ok refs/heads/main" +:+ newline)]; Break]).
  repeat (apply Forall_cons; split); try apply Forall_nil; split; try done.
  repeat (apply Forall_cons; split); done.
Defined.
