(* ===== verification/ReadGate.v ===== *)
(** Who may read which event: the filter-level gates and the per-event
    visibility check of buzz-relay/src/handlers/req.rs, with the kind sets of
    buzz-core/src/kind.rs.

    A request's filter is the [Filter] of the matcher with the two further
    fields the read path looks at, [search] and [limit].  A public key is
    compared through its bytes and its hexadecimal text, as the code does; both
    renderings belong to the [nostr] crate and are fields of [ReadLib]. *)

From S2P Require Import Prelude Nostr Filter Auth.

(** [PublicKey::to_bytes], [PublicKey::to_hex], [EventId::to_bytes]. *)
Class ReadLib := {
  rd_pk_bytes : PublicKey -> string;
  rd_pk_hex : PublicKey -> string;
  rd_id_bytes : EventId -> string;
}.

(** Documented behaviour: keys and ids are 32-byte values, [to_hex] is
    [hex::encode] of the bytes, and both [hex] routines write lower case. *)
Class ReadLaws `{ReadLib, HexLib} : Prop := {
  rd_pk_hex_bytes : forall pk, rd_pk_hex pk = hex_encode (rd_pk_bytes pk);
  rd_pk_bytes_inj : forall pk pk', rd_pk_bytes pk = rd_pk_bytes pk' -> pk = pk';
  rd_id_bytes_inj : forall i j, rd_id_bytes i = rd_id_bytes j -> i = j;
  rd_hex_lower : forall b, all_chars (fun c => negb (is_ascii_uppercase c)) (hex_encode b) = true;
}.

(** Documented behaviour of [nostr::Tag]: the kind of a tag whose name is one
    letter prints as that name, [content] is the second element; a
    [SingleLetterTag] prints as its letter. *)
Class TagLaws `{NostrLib} : Prop := {
  tag_kind_letter : forall t c, tag_kind_string t = String c "" <-> t !! 0 = Some (String c "");
  tag_content_second : forall t, tag_content t = t !! 1;
  tag_letter_kind : forall s t, tag_is_single_letter s t = true <-> tag_kind_string t = single_letter_to_string s;
  single_letter_text : forall k, is_ascii_uppercase (slt_character k) = true ->
    single_letter_to_string k =
      String (if slt_uppercase k then slt_character k else ascii_of_N (N_of_ascii (slt_character k) + 32)) "";
}.

(** Documented behaviour of [uuid]: the printed form reads back. *)
Class UuidRound `{NostrLib, UuidLib} : Prop := {
  uuid_round : forall u, uuid_parse_str (uuid_to_string u) = Some u;
}.

(** The fields of [nostr::Filter] beyond those the matcher reads. *)
Record ReqFilter := mkReqFilter {
  rf_filter :> Filter;
  rf_search : option string;
  rf_limit : option N;
}.

(** [SingleLetterTag::lowercase] of [H], [D] and [E]. *)
Definition h_tag : SingleLetterTag := mkSingleLetterTag "H"%char false.
Definition d_tag_key : SingleLetterTag := mkSingleLetterTag "D"%char false.
Definition e_tag_key : SingleLetterTag := mkSingleLetterTag "E"%char false.

(** [Option::is_some_and], [Option::is_none_or] and [BTreeSet::is_empty]. *)
Definition is_some_and {A} (o : option A) (p : A -> bool) : bool := match o with Some a => p a | None => false end.
Definition is_none_or {A} (o : option A) (p : A -> bool) : bool := match o with Some a => p a | None => true end.
Definition set_is_empty {A} `{Countable A} (s : gset A) : bool := bool_decide (s = ∅).

(** ** Kinds *)

Definition KIND_GIFT_WRAP : N := 1059.
Definition KIND_AGENT_ENGRAM : N := 30174.
Definition KIND_PERSONA : N := 30175.
Definition KIND_TEAM_CATALOG : N := 30178.
Definition KIND_PRIVATE_MANAGED_AGENT : N := 30179.
Definition KIND_EVENT_REMINDER : N := 30300.
Definition KIND_PUSH_LEASE : N := 30350.
Definition KIND_NIP43_MEMBERSHIP_LIST : N := 13534.
Definition KIND_AGENT_OBSERVER_FRAME : N := 24200.
Definition KIND_AGENT_INSTRUMENT_OVERLAY : N := 24201.
Definition KIND_MEMBER_ADDED_NOTIFICATION : N := 44100.
Definition KIND_MEMBER_REMOVED_NOTIFICATION : N := 44101.
Definition KIND_HUDDLE_LIVENESS : N := 48104.

Definition AUTHOR_ONLY_KINDS : list N := [KIND_EVENT_REMINDER; KIND_PUSH_LEASE; KIND_PRIVATE_MANAGED_AGENT].
Definition RESULT_GATED_KINDS : list N := [KIND_DM_VISIBILITY; KIND_AGENT_TURN_METRIC].
Definition P_GATED_KINDS : list N :=
  [KIND_AGENT_OBSERVER_FRAME; KIND_AGENT_INSTRUMENT_OVERLAY; KIND_MEMBER_ADDED_NOTIFICATION;
   KIND_MEMBER_REMOVED_NOTIFICATION; KIND_GIFT_WRAP; KIND_DM_VISIBILITY; KIND_AGENT_TURN_METRIC].
Definition SHARED_GATED_KINDS : list N := [KIND_PERSONA; KIND_TEAM_CATALOG].

Definition PARAM_REPLACEABLE_KIND_MIN : N := 30000.
Definition PARAM_REPLACEABLE_KIND_MAX : N := 39999.
Definition is_parameterized_replaceable (kind : N) : bool :=
  (PARAM_REPLACEABLE_KIND_MIN <=? kind)%N && (kind <=? PARAM_REPLACEABLE_KIND_MAX)%N.

Definition is_shared_gated_kind (kind : N) : bool := bool_decide (kind ∈ SHARED_GATED_KINDS).

(** The loop of [event_is_shared]: [None] is its early [return false]. *)
Fixpoint shared_count (tags : list Tag) (count : nat) : option nat :=
  match tags with
  | [] => Some count
  | parts :: tags =>
      if (length parts =? 2) && bool_decide (parts !! 0 = Some "shared") then
        if negb (bool_decide (parts !! 1 = Some "true")) then None else shared_count tags (count + 1)
      else if negb (bool_decide (parts = [])) && bool_decide (parts !! 0 = Some "shared") then None
      else shared_count tags count
  end%nat.
Definition event_is_shared (event : Event) : bool :=
  match shared_count (ev_tags event) 0 with Some count => (count =? 1)%nat | None => false end.

Section gates.
Context `{NostrLib, HexLib, ReadLib}.

(** ** Per-event visibility *)

Definition is_unshared_gated_event (event : Event) (requester_pubkey_bytes : string) : bool :=
  if negb (is_shared_gated_kind (ev_kind event)) then false
  else if bool_decide (rd_pk_bytes (ev_pubkey event) = requester_pubkey_bytes) then false
  else negb (event_is_shared event).

Definition is_author_only_event (event : Event) (requester_pubkey_bytes : string) : bool :=
  bool_decide (ev_kind event ∈ AUTHOR_ONLY_KINDS) &&
  negb (bool_decide (rd_pk_bytes (ev_pubkey event) = requester_pubkey_bytes)).

Definition event_visible_to_reader (event : Event) (requester_pubkey_bytes : string) : bool :=
  if is_author_only_event event requester_pubkey_bytes then false
  else if is_unshared_gated_event event requester_pubkey_bytes then false
  else if negb (reader_authorized_for_event event (hex_encode requester_pubkey_bytes)) then false
  else true.

(** ** Filter-level gates *)

(** [filter.generic_tags.get(p)] is present, not empty, and every value is the
    authenticated key. *)
Definition p_tag_is_self (f : ReqFilter) (authed_pubkey_hex : string) : bool :=
  is_some_and (f_generic_tags f !! p_tag) (fun values =>
    negb (set_is_empty values) && forallb (fun v => bool_decide (v = authed_pubkey_hex)) (elements values)).

(** [filter.authors] is present, not empty, and every author is the
    authenticated key. *)
Definition authors_are_self (f : ReqFilter) (authed_pubkey_hex : string) : bool :=
  is_some_and (f_authors f) (fun authors =>
    negb (set_is_empty authors) &&
    forallb (fun a => eq_ignore_ascii_case (rd_pk_hex a) authed_pubkey_hex) (elements authors)).

Definition has_ids (f : ReqFilter) : bool := is_some_and (f_ids f) (fun ids => negb (set_is_empty ids)).

(** [filter.kinds.as_ref().is_none_or(|ks| ks.iter().any(p))]. *)
Definition can_match_kind (f : ReqFilter) (p : N -> bool) : bool :=
  is_none_or (f_kinds f) (fun ks => existsb p (elements ks)).

Definition p_gated_filter_ok (authed_pubkey_hex : string) (f : ReqFilter) : bool :=
  let can_match_p_gated := can_match_kind f (fun kind => bool_decide (kind ∈ P_GATED_KINDS)) in
  if negb can_match_p_gated then true
  else
    let explicitly_no_ids_exemption :=
      is_some_and (f_kinds f) (fun ks =>
        existsb (fun k => N.eqb k KIND_DM_VISIBILITY || N.eqb k KIND_AGENT_TURN_METRIC) (elements ks)) in
    if negb explicitly_no_ids_exemption && has_ids f then true
    else p_tag_is_self f authed_pubkey_hex.

Definition p_gated_filters_authorized (filters : list ReqFilter) (authed_pubkey_hex : string) : bool :=
  forallb (p_gated_filter_ok authed_pubkey_hex) filters.

Definition engram_filter_ok (authed_pubkey_hex : string) (f : ReqFilter) : bool :=
  if has_ids f then true
  else if negb (can_match_kind f (fun k => N.eqb k KIND_AGENT_ENGRAM)) then true
  else if authors_are_self f authed_pubkey_hex then true
  else p_tag_is_self f authed_pubkey_hex.

Definition engram_filters_authorized (filters : list ReqFilter) (authed_pubkey_hex : string) : bool :=
  forallb (engram_filter_ok authed_pubkey_hex) filters.

Definition author_only_filter_ok (authed_pubkey_hex : string) (f : ReqFilter) : bool :=
  let targets_only_author_only :=
    is_some_and (f_kinds f) (fun ks =>
      negb (set_is_empty ks) && forallb (fun k => bool_decide (k ∈ AUTHOR_ONLY_KINDS)) (elements ks)) in
  if negb targets_only_author_only then true else authors_are_self f authed_pubkey_hex.

Definition author_only_filters_authorized (filters : list ReqFilter) (authed_pubkey_hex : string) : bool :=
  forallb (author_only_filter_ok authed_pubkey_hex) filters.

Definition filter_can_match_author_only_kinds (f : ReqFilter) : bool :=
  can_match_kind f (fun k => bool_decide (k ∈ AUTHOR_ONLY_KINDS)).
Definition filter_can_match_shared_gated_kinds (f : ReqFilter) : bool :=
  can_match_kind f (fun k => bool_decide (k ∈ SHARED_GATED_KINDS)).
Definition filter_can_match_result_gated_kinds (f : ReqFilter) : bool :=
  can_match_kind f (fun k => bool_decide (k ∈ RESULT_GATED_KINDS)).

Definition result_gated_count_safe_for_pushdown (f : ReqFilter) (authed_pubkey_hex : string) : bool :=
  p_tag_is_self f authed_pubkey_hex.

(** ** What the gates promise *)

(** The event carries a [p] tag that names the reader. *)
Definition addressed_to (reader : PublicKey) (event : Event) : Prop :=
  exists t, t ∈ ev_tags event /\ tag_kind_string t = "p" /\ tag_content t = Some (rd_pk_hex reader).

(** The event carries the tag [["shared","true"]], and no other [shared] tag. *)
Definition shared_exactly (event : Event) : Prop :=
  exists pre post, ev_tags event = pre ++ [["shared"; "true"]] ++ post /\
    forall t, t ∈ pre ++ post -> t !! 0 <> Some "shared".

(** The reading rules of the gated kinds, for one reader and one event. *)
Record may_read (reader : PublicKey) (event : Event) : Prop := {
  mr_author_only : ev_kind event ∈ AUTHOR_ONLY_KINDS -> ev_pubkey event = reader;
  mr_shared : ev_kind event ∈ SHARED_GATED_KINDS -> ev_pubkey event = reader \/ shared_exactly event;
  mr_result : ev_kind event ∈ RESULT_GATED_KINDS -> addressed_to reader event;
}.
End gates.

(** ** Lemmas *)

Lemma existsb_elements `{Countable A} (p : A -> bool) (s : gset A) :
  existsb p (elements s) = true <-> exists x, x ∈ s /\ p x = true.
Proof. rewrite existsb_elem_of. by setoid_rewrite elem_of_elements. Qed.

Lemma forallb_elements `{Countable A} (p : A -> bool) (s : gset A) :
  forallb p (elements s) = true <-> forall x, x ∈ s -> p x = true.
Proof. rewrite forallb_forall. setoid_rewrite <- list_elem_of_In. by setoid_rewrite elem_of_elements. Qed.

Lemma eq_ignore_ascii_case_lower a b :
  all_chars (fun c => negb (is_ascii_uppercase c)) a = true ->
  all_chars (fun c => negb (is_ascii_uppercase c)) b = true ->
  eq_ignore_ascii_case a b = true <-> a = b.
Proof.
  revert b; induction a as [|x a IH]; intros [|y b]; cbn [all_chars eq_ignore_ascii_case]; try done.
  rewrite !andb_true_iff, !negb_true_iff. intros [Hx Ha] [Hy Hb].
  unfold ascii_lower. rewrite Hx, Hy, Ascii.eqb_eq, IH by done. split; [intros [-> ->]; done|by intros [= -> ->]].
Qed.

Lemma shared_count_spec tags n m :
  shared_count tags n = Some m <->
  (n + length (List.filter (fun t => bool_decide (t = ["shared"; "true"])) tags) = m)%nat /\
  forall t, t ∈ tags -> t !! 0 = Some "shared" -> t = ["shared"; "true"].
Proof.
  revert n; induction tags as [|t tags IH]; intros n; cbn [shared_count List.filter length].
  - rewrite Nat.add_0_r. split; [intros [= ->]; split; [done|set_solver]|by intros [-> _]].
  - setoid_rewrite elem_of_cons. destruct t as [|a [|b [|c t]]]; cbn.
    + rewrite bool_decide_false, IH by done. cbn. naive_solver.
    + case_bool_decide as Ha; cbn; [|rewrite bool_decide_false, IH by done; naive_solver].
      injection Ha as ->. split; [done|]. intros [_ Hall]. by specialize (Hall _ (or_introl eq_refl) eq_refl).
    + case_bool_decide as Ha; [|rewrite bool_decide_false, IH by congruence; cbn; naive_solver].
      injection Ha as ->. cbn. case_bool_decide as Hb; cbn.
      * injection Hb as ->. rewrite bool_decide_true by done. rewrite IH. cbn. split.
        -- intros [<- Hall]. split; [lia|]. intros t [->|Ht] Hs; auto.
        -- intros [<- Hall]. split; [lia|]. intros t Ht Hs. eauto.
      * split; [done|]. intros [_ Hall]. specialize (Hall _ (or_introl eq_refl) eq_refl). naive_solver.
    + case_bool_decide as Ha; cbn; [|rewrite bool_decide_false, IH by congruence; naive_solver].
      injection Ha as ->. split; [done|]. intros [_ Hall]. by specialize (Hall _ (or_introl eq_refl) eq_refl).
Qed.

Lemma one_shared (tags : list Tag) :
  length (List.filter (fun t => bool_decide (t = ["shared"; "true"])) tags) = 1%nat ->
  exists pre post, tags = pre ++ [["shared"; "true"]] ++ post /\ ["shared"; "true"] ∉ pre ++ post.
Proof.
  induction tags as [|t tags IH]; [done|]. cbn. case_bool_decide as Ht; cbn.
  - subst. intros [= Hl]. exists [], tags. split; [done|]. cbn. intros Hin.
    apply length_zero_iff_nil in Hl. apply list_elem_of_In in Hin.
    assert (["shared"; "true"] ∈ List.filter (fun t => bool_decide (t = ["shared"; "true"])) tags) as Hf.
    { apply list_elem_of_In, filter_In. split; [done|]. by apply bool_decide_eq_true. }
    rewrite Hl in Hf. by apply not_elem_of_nil in Hf.
  - intros (pre & post & -> & Hn)%IH. exists (t :: pre), post. split; [done|].
    cbn. rewrite not_elem_of_cons. naive_solver.
Qed.

Lemma event_is_shared_spec e : event_is_shared e = true <-> shared_exactly e.
Proof.
  unfold event_is_shared, shared_exactly. split.
  - destruct (shared_count (ev_tags e) 0) as [m|] eqn:E; [|done]. intros ->%Nat.eqb_eq.
    apply shared_count_spec in E as [Hl Hall]. apply one_shared in Hl as (pre & post & Heq & Hn).
    exists pre, post. split; [done|]. intros t Ht Hs. apply Hn.
    rewrite <- (Hall t); [done| |done]. rewrite Heq. set_solver.
  - intros (pre & post & Heq & Hn). assert (shared_count (ev_tags e) 0 = Some 1%nat) as ->; [|done].
    assert (forall l, (forall t, t ∈ l -> t !! 0 <> Some "shared") ->
      List.filter (fun t => bool_decide (t = ["shared"; "true"])) l = []) as Hnil.
    { intros l Hl. induction l as [|t l IHl]; [done|]. cbn. rewrite bool_decide_false.
      - apply IHl. set_solver.
      - intros ->. by apply (Hl ["shared"; "true"]); [left|]. }
    apply shared_count_spec. rewrite Heq, !List.filter_app, (Hnil pre), (Hnil post) by set_solver.
    split; [cbn; by rewrite bool_decide_true|].
    intros t [Ht|[Ht%list_elem_of_singleton|Ht]%elem_of_app]%elem_of_app Hs; [|exact Ht|];
      (destruct (Hn t); [set_solver|exact Hs]).
Qed.

Section gate_lemmas.
Context `{NostrLib, HexLib, ReadLib} `{!HexLaws, !ReadLaws, !TagLaws, !NostrLaws}.

Lemma hex_encode_pk pk : hex_encode (rd_pk_bytes pk) = rd_pk_hex pk.
Proof. by rewrite rd_pk_hex_bytes. Qed.

Lemma pk_hex_ignore_case a b : eq_ignore_ascii_case (rd_pk_hex a) (rd_pk_hex b) = true <-> rd_pk_hex a = rd_pk_hex b.
Proof. rewrite !rd_pk_hex_bytes. apply eq_ignore_ascii_case_lower; apply rd_hex_lower. Qed.

Lemma pk_hex_inj a b : rd_pk_hex a = rd_pk_hex b -> a = b.
Proof.
  rewrite !rd_pk_hex_bytes. intros Hh. apply rd_pk_bytes_inj.
  apply (f_equal hex_decode) in Hh. rewrite !hex_decode_encode in Hh. by injection Hh.
Qed.

Lemma reader_authorized_spec e reader :
  reader_authorized_for_event e (rd_pk_hex reader) = true <->
  (ev_kind e ∈ RESULT_GATED_KINDS -> addressed_to reader e).
Proof.
  unfold reader_authorized_for_event, RESULT_GATED_KINDS, addressed_to.
  assert (ev_kind e ∈ [KIND_DM_VISIBILITY; KIND_AGENT_TURN_METRIC] <->
          negb (ev_kind e =? KIND_DM_VISIBILITY)%N && negb (ev_kind e =? KIND_AGENT_TURN_METRIC)%N = false) as ->.
  { rewrite andb_false_iff, !negb_false_iff, !N.eqb_eq. set_solver. }
  destruct (_ && _); [split; done|]. rewrite existsb_elem_of.
  setoid_rewrite list_elem_of_In. setoid_rewrite filter_In. setoid_rewrite <- list_elem_of_In.
  setoid_rewrite tag_letter_kind. rewrite p_tag_display. setoid_rewrite bool_decide_eq_true. naive_solver.
Qed.

Lemma pk_bytes_eq pk reader : bool_decide (rd_pk_bytes pk = rd_pk_bytes reader) = bool_decide (pk = reader).
Proof. apply bool_decide_ext. split; [apply rd_pk_bytes_inj|by intros ->]. Qed.

Lemma author_only_event_spec e reader :
  is_author_only_event e (rd_pk_bytes reader) = false <-> (ev_kind e ∈ AUTHOR_ONLY_KINDS -> ev_pubkey e = reader).
Proof. unfold is_author_only_event. rewrite pk_bytes_eq. repeat case_bool_decide; naive_solver. Qed.

Lemma unshared_gated_event_spec e reader :
  is_unshared_gated_event e (rd_pk_bytes reader) = false <->
  (ev_kind e ∈ SHARED_GATED_KINDS -> ev_pubkey e = reader \/ shared_exactly e).
Proof.
  unfold is_unshared_gated_event, is_shared_gated_kind. rewrite pk_bytes_eq, <- event_is_shared_spec.
  repeat case_bool_decide; cbn; rewrite ?negb_false_iff; naive_solver.
Qed.

Lemma event_visible_spec e reader :
  event_visible_to_reader e (rd_pk_bytes reader) = true <-> may_read reader e.
Proof.
  unfold event_visible_to_reader.
  rewrite hex_encode_pk, !if_false_then, negb_false_iff, author_only_event_spec, unshared_gated_event_spec,
    reader_authorized_spec.
  split; [intros (?&?&?&_); by split|by intros []].
Qed.

(** ** What a filter that passes the gates can match *)

Lemma p_tag_is_self_spec f reader :
  p_tag_is_self f (rd_pk_hex reader) = true <-> f_generic_tags f !! p_tag = Some {[rd_pk_hex reader]}.
Proof.
  unfold p_tag_is_self, is_some_and, set_is_empty. destruct (f_generic_tags f !! p_tag) as [vs|]; [|done].
  rewrite andb_true_iff, negb_true_iff, forallb_elements, bool_decide_eq_false.
  setoid_rewrite bool_decide_eq_true. split.
  - intros [Hne Hall]. f_equal. apply set_eq. intros v. rewrite elem_of_singleton. split; [apply Hall|].
    intros ->. apply set_choose_L in Hne as [w Hw]. by rewrite <- (Hall w Hw).
  - intros [= ->]. split; [set_solver|]. by intros v ->%elem_of_singleton.
Qed.

Lemma authors_are_self_accepts f reader ev :
  authors_are_self f (rd_pk_hex reader) = true -> filter_accepts f ev -> ev_pubkey (se_event ev) = reader.
Proof.
  unfold authors_are_self, is_some_and. destruct (f_authors f) as [ps|] eqn:E; [|done].
  rewrite andb_true_iff, forallb_elements. intros [_ Hall] Hacc.
  specialize (Hall _ (fa_authors _ _ Hacc _ E)). apply pk_hex_ignore_case in Hall.
  by apply pk_hex_inj.
Qed.

Lemma p_tag_self_accepts f reader ev :
  p_tag_is_self f (rd_pk_hex reader) = true -> filter_accepts f ev -> addressed_to reader (se_event ev).
Proof.
  intros Hp%p_tag_is_self_spec Hacc.
  destruct (fa_tags _ _ Hacc _ _ Hp) as [(t & v & Ht & Hk & Hc & ->%elem_of_singleton)|(Hh & _)];
    rewrite p_tag_display in *; [|done]. by exists t.
Qed.

Lemma can_match_kind_accepts (f : ReqFilter) p ev :
  filter_accepts f ev -> p (ev_kind (se_event ev)) = true -> can_match_kind f p = true.
Proof.
  intros Hacc Hp. unfold can_match_kind, is_none_or. destruct (f_kinds f) as [ks|] eqn:E; [|done].
  apply existsb_elements. exists (ev_kind (se_event ev)). split; [by apply (fa_kinds _ _ Hacc)|done].
Qed.

Lemma p_gated_confined (f : ReqFilter) reader ev :
  p_gated_filter_ok (rd_pk_hex reader) f = true -> filter_accepts f ev ->
  ev_kind (se_event ev) ∈ P_GATED_KINDS -> has_ids f = true \/ addressed_to reader (se_event ev).
Proof.
  unfold p_gated_filter_ok. intros Hok Hacc Hk.
  rewrite (can_match_kind_accepts f _ ev) in Hok; [|done|by apply bool_decide_eq_true]. cbn [negb] in Hok.
  destruct (negb _ && has_ids f) eqn:E; [left; by apply andb_true_iff in E as [_ E]|].
  right. by apply (p_tag_self_accepts f).
Qed.

Lemma engram_confined (f : ReqFilter) reader ev :
  engram_filter_ok (rd_pk_hex reader) f = true -> filter_accepts f ev ->
  ev_kind (se_event ev) = KIND_AGENT_ENGRAM ->
  has_ids f = true \/ ev_pubkey (se_event ev) = reader \/ addressed_to reader (se_event ev).
Proof.
  unfold engram_filter_ok. intros Hok Hacc Hk. destruct (has_ids f); [by left|right].
  rewrite (can_match_kind_accepts f _ ev) in Hok; [|done|by apply N.eqb_eq]. cbn [negb] in Hok.
  destruct (authors_are_self f _) eqn:E; [left; by apply (authors_are_self_accepts f)|].
  right; by apply (p_tag_self_accepts f).
Qed.

Lemma author_only_confined (f : ReqFilter) reader ev :
  author_only_filter_ok (rd_pk_hex reader) f = true -> filter_accepts f ev ->
  (forall ks k, f_kinds f = Some ks -> k ∈ ks -> k ∈ AUTHOR_ONLY_KINDS) -> f_kinds f <> None ->
  ev_pubkey (se_event ev) = reader.
Proof.
  unfold author_only_filter_ok, is_some_and. intros Hok Hacc Hall Hsome.
  destruct (f_kinds f) as [ks|] eqn:E; [|done].
  assert (negb (set_is_empty ks) && forallb (fun k => bool_decide (k ∈ AUTHOR_ONLY_KINDS)) (elements ks) = true) as Ht.
  { apply andb_true_iff. split.
    - unfold set_is_empty. rewrite bool_decide_false; [done|]. pose proof (fa_kinds _ _ Hacc _ E). set_solver.
    - apply forallb_elements. intros k Hk. by apply bool_decide_eq_true, (Hall ks). }
  rewrite Ht in Hok. by apply (authors_are_self_accepts f).
Qed.
End gate_lemmas.
