(* ===== verification/EventStore.v ===== *)
(** The event tables and the queries over them, buzz-db/src/store/event.rs and
    buzz-db/src/runtime/mod.rs.

    The [events] table is a list of rows, [event_mentions] the set of its
    primary keys (its other columns copy the event's and no query here reads
    them).  [query_events_on] and [count_events_on] assemble a [WHERE] clause
    from an [EventQuery]; the clause is modelled as the predicate it selects
    rows by, with SQL's reading of NULL (a comparison with a NULL column does
    not hold) and of JSONB containment ([tags @> [[a,b]]] holds when some tag
    has both strings among its elements, in any position).  BYTEA columns are
    byte strings, compared bytewise; a timestamp is its seconds; the [sig]
    column is left out. *)

From S2P Require Import Prelude Nostr Filter Auth ReadGate.

(** [DateTime::from_timestamp(secs, 0)] of chrono, and the [nostr::Event] that
    serde reads from the JSON object of a row (id, pubkey, created_at, kind,
    tags, content). *)
Class StoreLib := {
  from_timestamp : Z -> option Z;
  event_from_json : string -> string -> Z -> N -> list Tag -> string -> option Event;
}.

(** Documented behaviour: a [DateTime] keeps the seconds it was built from, and
    an event read back from its own columns is that event. *)
Class StoreLaws `{StoreLib, ReadLib, HexLib} : Prop := {
  from_timestamp_secs : forall s t, from_timestamp s = Some t -> t = s;
  event_json_round : forall e,
    event_from_json (hex_encode (rd_id_bytes (ev_id e))) (hex_encode (rd_pk_bytes (ev_pubkey e)))
      (Z.of_N (ev_created_at e)) (ev_kind e) (ev_tags e) (ev_content e) = Some e;
}.

Inductive DbError :=
| AuthEventRejected
| EphemeralEventRejected (kind : N)
| InvalidTimestamp (secs : Z)
| InvalidData (what : string)
| WikiStorageQuotaExceeded
| Sqlx.

Record EventRow := mkEventRow {
  er_community_id : CommunityId;
  er_id : string;
  er_pubkey : string;
  er_created_at : Z;
  er_kind : Z;
  er_tags : list Tag;
  er_content : string;
  er_received_at : Z;
  er_channel_id : option Uuid;
  er_d_tag : option string;
  er_not_before : option Z;
  er_deleted_at : option Z;
}.

Record EventDb := mkEventDb {
  db_events : list EventRow;
  db_mentions : gset (CommunityId * string * string);
}.

(** [u64 as i64]. *)
Definition as_i64_wrapped (n : N) : Z :=
  let m := (n mod 2 ^ 64)%N in if (m <? 2 ^ 63)%N then Z.of_N m else (Z.of_N m - 2 ^ 64)%Z.

Lemma as_i64_small n : (n < 2 ^ 63)%N -> as_i64_wrapped n = Z.of_N n.
Proof.
  intros Hn. unfold as_i64_wrapped. rewrite N.mod_small by (etrans; [exact Hn|]; reflexivity).
  by apply N.ltb_lt in Hn as ->.
Qed.

(** [str::to_ascii_lowercase]. *)
Fixpoint to_ascii_lowercase (s : string) : string :=
  match s with EmptyString => EmptyString | String c s => String (ascii_lower c) (to_ascii_lowercase s) end.

(** [str::parse::<i64>]. *)
Definition parse_i64 (s : string) : option Z :=
  match s with
  | String "-" EmptyString => None
  | String "-" r => (fun n => (- Z.of_N n)%Z) <$> parse_digits (2 ^ 63 + 1) 0 r
  | _ => Z.of_N <$> parse_uint (2 ^ 63) s
  end.

(** ** Storing *)

Definition KIND_AUTH : N := 22242.
Definition EPHEMERAL_KIND_MIN : N := 20000.
Definition EPHEMERAL_KIND_MAX : N := 29999.
Definition is_ephemeral (kind : N) : bool := (EPHEMERAL_KIND_MIN <=? kind)%N && (kind <=? EPHEMERAL_KIND_MAX)%N.

(** [parts.len() >= 2 && parts[0] == name], giving [parts[1]]. *)
Definition named_value (name : string) (parts : Tag) : option string :=
  if (2 <=? length parts)%nat && bool_decide (parts !! 0 = Some name) then parts !! 1 else None.

Fixpoint find_map {A B} (f : A -> option B) (l : list A) : option B :=
  match l with [] => None | x :: l => match f x with Some y => Some y | None => find_map f l end end.

Definition extract_d_tag (event : Event) : option string :=
  if negb (is_parameterized_replaceable (ev_kind event)) then None
  else Some (default "" (find_map (named_value "d") (ev_tags event))).

Definition extract_not_before (event : Event) : option Z :=
  if negb (N.eqb (ev_kind event) KIND_EVENT_REMINDER) then None
  else find_map (fun parts => named_value "not_before" parts ≫= parse_i64) (ev_tags event).

Section store.
Context `{NostrLib, HexLib, ReadLib, StoreLib}.

(** The row an INSERT writes; [now] is the receipt time. *)
Definition row_of (community_id : CommunityId) (event : Event) (channel_id : option Uuid)
    (created_at now : Z) : EventRow :=
  mkEventRow community_id (rd_id_bytes (ev_id event)) (rd_pk_bytes (ev_pubkey event)) created_at
    (Z.of_N (ev_kind event)) (ev_tags event) (ev_content event) now channel_id (extract_d_tag event)
    (extract_not_before event) None.

(** [ON CONFLICT DO NOTHING] on the primary key (community_id, created_at, id). *)
Definition same_key (a b : EventRow) : bool :=
  bool_decide (er_community_id a = er_community_id b) && Z.eqb (er_created_at a) (er_created_at b) &&
  bool_decide (er_id a = er_id b).

(** [executed] is whether Postgres ran the statement. *)
Definition insert_event_on (executed : bool) (now : Z) (db : EventDb) (community_id : CommunityId)
    (event : Event) (channel_id : option Uuid) : result (EventDb * (StoredEvent * bool)) DbError :=
  if N.eqb (ev_kind event) KIND_AUTH then Err AuthEventRejected
  else if is_ephemeral (ev_kind event) then Err (EphemeralEventRejected (ev_kind event))
  else
    let created_at_secs := as_i64_wrapped (ev_created_at event) in
    let? created_at := ok_or (from_timestamp created_at_secs) (InvalidTimestamp created_at_secs) in
    let row := row_of community_id event channel_id created_at now in
    if negb executed then Err Sqlx
    else
      let stored := StoredEvent_with_received_at event now channel_id true in
      if existsb (same_key row) (db_events db) then Ok (db, (stored, false))
      else Ok (mkEventDb (db_events db ++ [row]) (db_mentions db), (stored, true)).

Definition valid_mention (pk : string) : bool := (String.length pk =? 64)%nat && all_chars is_ascii_hexdigit pk.

Definition insert_mentions_in_transaction (executed : bool) (db : EventDb) (community_id : CommunityId)
    (event : Event) : result EventDb DbError :=
  let p_tags := omap (named_value "p") (ev_tags event) in
  if bool_decide (p_tags = []) then Ok db
  else
    let created_at_secs := as_i64_wrapped (ev_created_at event) in
    let? _ := ok_or (from_timestamp created_at_secs) (InvalidTimestamp created_at_secs) in
    let valid_pubkeys := to_ascii_lowercase <$> List.filter valid_mention p_tags in
    if bool_decide (valid_pubkeys = []) then Ok db
    else if negb executed then Err Sqlx
    else Ok (mkEventDb (db_events db)
               (foldl (fun ms pk => {[(community_id, pk, rd_id_bytes (ev_id event))]} ∪ ms)
                  (db_mentions db) valid_pubkeys)).

(** [Db::insert_event]: the event, then its mentions in a statement of their
    own, whose failure is logged and forgotten. *)
Definition insert_event (executed mentions_executed : bool) (now : Z) (db : EventDb) (community_id : CommunityId)
    (event : Event) (channel_id : option Uuid) : result (EventDb * (StoredEvent * bool)) DbError :=
  let? inserted := insert_event_on executed now db community_id event channel_id in
  let '(db, (stored, was_inserted)) := inserted in
  if was_inserted : bool then
    match insert_mentions_in_transaction mentions_executed db community_id event with
    | Ok db => Ok (db, (stored, true))
    | Err _ => Ok (db, (stored, true))
    end
  else Ok (db, (stored, false)).

(** [UPDATE events SET deleted_at = NOW() ... AND deleted_at IS NULL]. *)
Definition soft_delete_event (now : Z) (db : EventDb) (community_id : CommunityId) (event_id : string)
  : EventDb * bool :=
  let hit r := bool_decide (er_community_id r = community_id) && bool_decide (er_id r = event_id) &&
               bool_decide (er_deleted_at r = None) in
  (mkEventDb ((fun r => if hit r then
       mkEventRow (er_community_id r) (er_id r) (er_pubkey r) (er_created_at r) (er_kind r) (er_tags r)
         (er_content r) (er_received_at r) (er_channel_id r) (er_d_tag r) (er_not_before r) (Some now)
     else r) <$> db_events db) (db_mentions db), existsb hit (db_events db)).

(** ** Queries *)

Definition DEFAULT_MAX_PAGE_LIMIT : Z := 1000.

Record EventQuery := mkEventQuery {
  q_community_id : CommunityId;
  q_channel_id : option Uuid;
  q_kinds : option (list Z);
  q_pubkey : option string;
  q_since : option Z;
  q_until : option Z;
  q_limit : option Z;
  q_offset : option Z;
  q_p_tag_hex : option string;
  q_d_tag : option string;
  q_d_tags : option (list string);
  q_before_id : option string;
  q_global_only : bool;
  q_authors : option (list string);
  q_ids : option (list string);
  q_e_tags : option (list string);
  q_custom_tag : option (string * string);
  q_channel_ids : option (list Uuid);
  q_channel_ids_include_global : bool;
  q_max_limit : option Z;
  q_shared_gated_reader : option string;
}.

Definition for_community (community_id : CommunityId) : EventQuery :=
  mkEventQuery community_id None None None None None None None None None None None false None None None None
    None true None None.

(** [tags @> [[a,b]]]. *)
Definition tags_contain (tags : list Tag) (a b : string) : bool :=
  existsb (fun t => bool_decide (a ∈ t) && bool_decide (b ∈ t)) tags.

(** [column IN (...)] for a nullable column. *)
Definition sql_in {A} `{EqDecision A} (column : option A) (l : list A) : bool :=
  match column with Some v => bool_decide (v ∈ l) | None => false end.

(** [INNER JOIN event_mentions] on the row's key, for the lower-cased key. *)
Definition where_mention (mentions : gset (CommunityId * string * string)) (q : EventQuery) (r : EventRow) : bool :=
  is_none_or (q_p_tag_hex q) (fun p_hex =>
    bool_decide ((q_community_id q, to_ascii_lowercase p_hex, er_id r) ∈ mentions)).

Definition where_channel (q : EventQuery) (r : EventRow) : bool :=
  match q_channel_id q with
  | Some ch => sql_in (er_channel_id r) [ch]
  | None => if q_global_only q then bool_decide (er_channel_id r = None) else true
  end.

Definition where_channel_ids (q : EventQuery) (r : EventRow) : bool :=
  match q_channel_ids q with
  | None => true
  | Some ch_ids =>
      if bool_decide (ch_ids = []) then
        if q_channel_ids_include_global q then bool_decide (er_channel_id r = None) else false
      else (q_channel_ids_include_global q && bool_decide (er_channel_id r = None)) ||
           sql_in (er_channel_id r) ch_ids
  end.

Definition where_list {A} `{EqDecision A} (column : A) (o : option (list A)) : bool :=
  match o with Some l => if bool_decide (l = []) then true else bool_decide (column ∈ l) | None => true end.

Definition where_e_tags (q : EventQuery) (r : EventRow) : bool :=
  match q_e_tags q with
  | Some es => if bool_decide (es = []) then true else existsb (tags_contain (er_tags r) "e") es
  | None => true
  end.

Definition where_d_tag (q : EventQuery) (r : EventRow) : bool :=
  match q_d_tag q with
  | Some d => sql_in (er_d_tag r) [d]
  | None =>
      match q_d_tags q with
      | Some ds => if bool_decide (ds = []) then true else sql_in (er_d_tag r) ds
      | None => true
      end
  end.

(** The conditions both statements share. *)
Definition where_common (mentions : gset (CommunityId * string * string)) (q : EventQuery) (r : EventRow) : bool :=
  bool_decide (er_community_id r = q_community_id q) && bool_decide (er_deleted_at r = None) &&
  where_mention mentions q r && where_channel q r && where_channel_ids q r &&
  where_list (er_kind r) (q_kinds q) &&
  is_none_or (q_pubkey q) (fun pk => bool_decide (er_pubkey r = pk)) &&
  where_list (er_pubkey r) (q_authors q) && where_list (er_id r) (q_ids q) && where_e_tags q r &&
  is_none_or (q_since q) (fun s => (s <=? er_created_at r)%Z) && where_d_tag q r.

(** The conditions of [query_events_on] alone. *)
Definition where_until (q : EventQuery) (r : EventRow) : bool :=
  is_none_or (q_until q) (fun u =>
    match q_before_id q with
    | Some bid => (er_created_at r <? u)%Z || ((er_created_at r =? u)%Z && String.ltb bid (er_id r))
    | None => (er_created_at r <=? u)%Z
    end).

Definition where_custom_tag (q : EventQuery) (r : EventRow) : bool :=
  is_none_or (q_custom_tag q) (fun '(name, value) => tags_contain (er_tags r) name value).

Definition where_shared (q : EventQuery) (r : EventRow) : bool :=
  is_none_or (q_shared_gated_reader q) (fun reader =>
    negb (bool_decide (er_kind r ∈ Z.of_N <$> SHARED_GATED_KINDS)) || bool_decide (er_pubkey r = reader) ||
    tags_contain (er_tags r) "shared" "true").

Definition query_where mentions (q : EventQuery) (r : EventRow) : bool :=
  where_common mentions q r && where_custom_tag q r && where_until q r && where_shared q r.

Definition count_where mentions (q : EventQuery) (r : EventRow) : bool :=
  where_common mentions q r && is_none_or (q_until q) (fun u => (er_created_at r <=? u)%Z).

(** [ORDER BY created_at DESC, id ASC]. *)
Definition row_before (a b : EventRow) : bool :=
  (er_created_at b <? er_created_at a)%Z ||
  ((er_created_at a =? er_created_at b)%Z && String.leb (er_id a) (er_id b)).

(** [LIMIT l OFFSET o]: Postgres refuses negative values. *)
Definition sql_page {A} (limit offset : Z) (l : list A) : result (list A) DbError :=
  if (limit <? 0)%Z || (offset <? 0)%Z then Err Sqlx
  else Ok (firstn (Z.to_nat limit) (skipn (Z.to_nat offset) l)).

Definition row_to_stored_event (r : EventRow) : result (option StoredEvent) DbError :=
  if negb ((0 <=? er_kind r)%Z && (er_kind r <? 2 ^ 16)%Z) then Err (InvalidData "kind out of u16 range")
  else Ok ((fun e => StoredEvent_with_received_at e (er_received_at r) (er_channel_id r) true) <$>
           event_from_json (hex_encode (er_id r)) (hex_encode (er_pubkey r)) (er_created_at r)
             (Z.to_N (er_kind r)) (er_tags r) (er_content r)).

(** The loop that turns rows into events: rows that do not read back are
    skipped, a kind out of range ends the query. *)
Fixpoint read_rows (rows : list EventRow) : result (list StoredEvent) DbError :=
  match rows with
  | [] => Ok []
  | r :: rows =>
      let? ev := row_to_stored_event r in
      let? out := read_rows rows in
      Ok (match ev with Some ev => ev :: out | None => out end)
  end.

Definition list_is_empty {A} (o : option (list A)) : bool := is_some_and o (fun l => (length l =? 0)%nat).

(** Empty lists mean "match nothing". *)
Definition matches_nothing (q : EventQuery) : bool :=
  list_is_empty (q_kinds q) || list_is_empty (q_authors q) || list_is_empty (q_ids q) || list_is_empty (q_e_tags q).

Definition query_events_on (db : EventDb) (q : EventQuery) : result (list StoredEvent) DbError :=
  if bool_decide (is_Some (q_before_id q)) && bool_decide (q_until q = None) then
    Err (InvalidData "before_id requires until to be set")
  else if q_global_only q && bool_decide (is_Some (q_channel_id q)) then
    Err (InvalidData "global_only and channel_id are mutually exclusive")
  else if matches_nothing q then Ok []
  else
    let clamp := default DEFAULT_MAX_PAGE_LIMIT (q_max_limit q) in
    let limit_val := Z.min (default 100%Z (q_limit q)) clamp in
    let offset_val := default 0%Z (q_offset q) in
    let? rows := sql_page limit_val offset_val
      (sort_by row_before (List.filter (query_where (db_mentions db) q) (db_events db))) in
    read_rows rows.

Definition count_events_on (db : EventDb) (q : EventQuery) : result Z DbError :=
  if matches_nothing q then Ok 0%Z
  else Ok (Z.of_nat (length (List.filter (count_where (db_mentions db) q) (db_events db)))).

Definition get_events_by_ids_on (db : EventDb) (community_id : CommunityId) (ids : list string)
  : result (list StoredEvent) DbError :=
  if (length ids =? 0)%nat then Ok []
  else read_rows (List.filter (fun r => bool_decide (er_community_id r = community_id) &&
         bool_decide (er_deleted_at r = None) && bool_decide (er_id r ∈ ids)) (db_events db)).

(** ** Routing between the writer and a read replica *)

(** What one routed read finds: the replica session it was given, if any, and
    the writer.  A session that cannot be used answers nothing. *)
Record Route := mkRoute {
  rt_replica : option (option EventDb);
  rt_writer : option EventDb;
}.

Definition on_session {A} (run : EventDb -> result A DbError) (session : option EventDb) : result A DbError :=
  match session with Some db => run db | None => Err Sqlx end.

(** A failure on the replica is answered by the writer. *)
Definition routed {A} (run : EventDb -> result A DbError) (rt : Route) : result A DbError :=
  match rt_replica rt with
  | Some session =>
      match on_session run session with
      | Ok a => Ok a
      | Err _ => on_session run (rt_writer rt)
      end
  | None => on_session run (rt_writer rt)
  end.

Definition query_events_routed (rt : Route) (q : EventQuery) : result (list StoredEvent) DbError :=
  routed (fun db => query_events_on db q) rt.
Definition query_events_routed_bounded (rt : Route) (q : EventQuery) : result (list StoredEvent) DbError :=
  routed (fun db => query_events_on db q) rt.
Definition count_events_routed (rt : Route) (q : EventQuery) : result Z DbError :=
  routed (fun db => count_events_on db q) rt.
Definition get_events_by_ids_with_operation (writer : option EventDb) (community_id : CommunityId)
    (ids : list string) : result (list StoredEvent) DbError :=
  if (length ids =? 0)%nat then Ok [] else on_session (fun db => get_events_by_ids_on db community_id ids) writer.
Definition get_events_by_ids_routed (rt : Route) (community_id : CommunityId) (ids : list string)
  : result (list StoredEvent) DbError :=
  match rt_replica rt with
  | Some session =>
      match on_session (fun db => get_events_by_ids_on db community_id ids) session with
      | Ok events => Ok events
      | Err _ => get_events_by_ids_with_operation (rt_writer rt) community_id ids
      end
  | None => get_events_by_ids_with_operation (rt_writer rt) community_id ids
  end.
End store.

(** ** Lemmas *)

Lemma elem_of_filter_bool {A} (p : A -> bool) (l : list A) x : x ∈ List.filter p l <-> x ∈ l /\ p x = true.
Proof. rewrite !list_elem_of_In. apply filter_In. Qed.

Lemma bind_ok {A B E} (r : result A E) (k : A -> result B E) b :
  (let? x := r in k x) = Ok b <-> exists a, r = Ok a /\ k a = Ok b.
Proof. destruct r; naive_solver. Qed.

Lemma is_none_or_spec {A} (o : option A) p : is_none_or o p = true <-> forall a, o = Some a -> p a = true.
Proof. destruct o; naive_solver. Qed.

Section store_lemmas.
Context `{NostrLib, HexLib, ReadLib, StoreLib}.

Lemma read_rows_elem rows evs ev :
  read_rows rows = Ok evs -> ev ∈ evs <-> exists r, r ∈ rows /\ row_to_stored_event r = Ok (Some ev).
Proof.
  revert evs; induction rows as [|r rows IH]; intros evs.
  - intros [= <-]. setoid_rewrite elem_of_nil. naive_solver.
  - cbn [read_rows]. rewrite bind_ok. intros (o & Ho & Hk). apply bind_ok in Hk as (out & Hout & Heq).
    specialize (IH out Hout). setoid_rewrite elem_of_cons.
    assert (ev ∈ evs <-> o = Some ev \/ ev ∈ out) as ->.
    { destruct o; injection Heq as <-; [rewrite elem_of_cons|]; intuition congruence. }
    rewrite IH. split.
    + intros [->|(r' & ? & ?)]; [exists r|exists r']; auto.
    + intros (r' & [->|?] & Hr'); [left; congruence|right; eauto].
Qed.

Lemma read_rows_total rows :
  (forall r, r ∈ rows -> (0 <= er_kind r < 2 ^ 16)%Z) -> exists evs, read_rows rows = Ok evs.
Proof.
  induction rows as [|r rows IH]; intros Hk; [by exists []|]. cbn [read_rows].
  destruct IH as [out ->]; [set_solver|]. unfold row_to_stored_event.
  assert (negb ((0 <=? er_kind r)%Z && (er_kind r <? 2 ^ 16)%Z) = false) as ->.
  { specialize (Hk r ltac:(left)). apply negb_false_iff, andb_true_iff. rewrite Z.leb_le, Z.ltb_lt. lia. }
  eauto.
Qed.

Lemma sql_page_subset {A} limit offset (l l' : list A) x :
  sql_page limit offset l = Ok l' -> x ∈ l' -> x ∈ l.
Proof.
  unfold sql_page. destruct (_ || _); [done|]. intros [= <-] Hx.
  apply (subseteq_take (Z.to_nat limit)) in Hx. revert Hx. apply subseteq_drop.
Qed.

Lemma query_events_elem db q evs ev :
  query_events_on db q = Ok evs -> ev ∈ evs ->
  exists r, r ∈ db_events db /\ query_where (db_mentions db) q r = true /\ row_to_stored_event r = Ok (Some ev).
Proof.
  unfold query_events_on. destruct (_ && _); [done|]. destruct (_ && _); [done|].
  destruct (matches_nothing q); [intros [= <-]; by intros ?%elem_of_nil|].
  intros (rows & Hp & Hr)%bind_ok Hev. apply (read_rows_elem _ _ _ Hr) in Hev as (r & Hin & Hrow).
  apply (sql_page_subset _ _ _ _ _ Hp), elem_of_sort_by, elem_of_filter_bool in Hin as [Hin Hw]. eauto.
Qed.

(** Everything the clause selects is on the page, when it fits. *)
Lemma query_events_complete db q :
  (q_before_id q = None \/ is_Some (q_until q)) -> q_global_only q = false -> matches_nothing q = false ->
  q_offset q = None ->
  (forall r, r ∈ db_events db -> (0 <= er_kind r < 2 ^ 16)%Z) ->
  (Z.of_nat (length (List.filter (query_where (db_mentions db) q) (db_events db))) <=
     Z.min (default 100 (q_limit q)) (default DEFAULT_MAX_PAGE_LIMIT (q_max_limit q)))%Z ->
  exists evs, query_events_on db q = Ok evs /\
    forall ev, ev ∈ evs <-> exists r, r ∈ db_events db /\ query_where (db_mentions db) q r = true /\
                                    row_to_stored_event r = Ok (Some ev).
Proof.
  intros Hb Hg Hn Ho Hk Hl. unfold query_events_on. rewrite Hn, Hg, Ho. cbn [andb default].
  assert (bool_decide (is_Some (q_before_id q)) && bool_decide (q_until q = None) = false) as ->.
  { apply andb_false_iff. rewrite !bool_decide_eq_false. destruct Hb as [->|[? ->]]; [left|by right].
    apply is_Some_None. }
  unfold sql_page. set (limit := Z.min _ _) in *.
  assert ((limit <? 0)%Z || (0 <? 0)%Z = false) as -> by (apply orb_false_iff; rewrite !Z.ltb_ge; lia).
  rewrite skipn_0, take_ge by (rewrite length_sort_by; lia).
  destruct (read_rows_total (sort_by row_before (List.filter (query_where (db_mentions db) q) (db_events db))))
    as [evs Hevs].
  { intros r Hr. apply Hk. apply elem_of_sort_by, elem_of_filter_bool in Hr. tauto. }
  exists evs. split; [exact Hevs|]. intros ev. rewrite (read_rows_elem _ _ _ Hevs).
  setoid_rewrite elem_of_sort_by. setoid_rewrite elem_of_filter_bool. naive_solver.
Qed.

Lemma get_events_by_ids_elem db c ids evs ev :
  get_events_by_ids_on db c ids = Ok evs -> ev ∈ evs ->
  exists r, r ∈ db_events db /\ er_community_id r = c /\ er_deleted_at r = None /\ er_id r ∈ ids /\
            row_to_stored_event r = Ok (Some ev).
Proof.
  unfold get_events_by_ids_on. destruct (_ =? _)%nat; [intros [= <-]; by intros ?%elem_of_nil|].
  intros Hr (r & Hin & Hrow)%(read_rows_elem _ _ _ Hr). exists r.
  apply elem_of_filter_bool in Hin as [Hin Hw]. rewrite !andb_true_iff, !bool_decide_eq_true in Hw. tauto.
Qed.

(** A routed read is a read of the replica or of the writer. *)
Definition route_sees (rt : Route) (db : EventDb) : Prop := rt_replica rt = Some (Some db) \/ rt_writer rt = Some db.

Lemma on_session_ok {A} (run : EventDb -> result A DbError) session a :
  on_session run session = Ok a <-> exists db, session = Some db /\ run db = Ok a.
Proof. destruct session; naive_solver. Qed.

Lemma routed_ok {A} (run : EventDb -> result A DbError) rt a :
  routed run rt = Ok a -> exists db, route_sees rt db /\ run db = Ok a.
Proof.
  unfold routed, route_sees. destruct (rt_replica rt) as [session|]; [|rewrite on_session_ok; naive_solver].
  destruct (on_session run session) eqn:E; [intros [= ->]|rewrite on_session_ok; naive_solver].
  apply on_session_ok in E as (db & -> & ?). eauto.
Qed.
End store_lemmas.
