(* ===== verification/ReadQuery.v ===== *)
(** From a NIP-01 filter to a database query: the query construction, the
    channel scoping and the channel extraction of
    buzz-relay/src/handlers/req.rs, and the full-text search query of
    buzz-search/src/query.rs.

    The sets of a filter become lists in an order of their own; where the order
    of a list could matter (a page, a tie), the list is sorted by the query. *)

From S2P Require Import Prelude Nostr Filter Auth RustStr ReadGate EventStore.

Definition MAX_SUBSCRIPTIONS : nat := 1024.
Definition MAX_EXPLICIT_CHANNEL_VALUES : nat := 128.
Definition COUNT_FALLBACK_CANDIDATE_LIMIT : Z := 5000.
Definition SEARCH_PAGE_SIZE : N := 100.
(** [(DEFAULT_MAX_PAGE_LIMIT as u32).div_ceil(SEARCH_PAGE_SIZE)]. *)
Definition MAX_SEARCH_PAGES : N := (Z.to_N DEFAULT_MAX_PAGE_LIMIT + SEARCH_PAGE_SIZE - 1) / SEARCH_PAGE_SIZE.

(** [Some(v)] when the set has exactly one value. *)
Definition only_value {A} `{Countable A} (s : gset A) : option A :=
  match elements s with [v] => Some v | _ => None end.

(** Field updates of a query. *)
Definition with_channel_ids (ids : option (list Uuid)) (include_global : bool) (q : EventQuery) : EventQuery :=
  mkEventQuery (q_community_id q) (q_channel_id q) (q_kinds q) (q_pubkey q) (q_since q) (q_until q) (q_limit q)
    (q_offset q) (q_p_tag_hex q) (q_d_tag q) (q_d_tags q) (q_before_id q) (q_global_only q) (q_authors q) (q_ids q)
    (q_e_tags q) (q_custom_tag q) ids include_global (q_max_limit q) (q_shared_gated_reader q).
Definition with_limits (limit max_limit : option Z) (q : EventQuery) : EventQuery :=
  mkEventQuery (q_community_id q) (q_channel_id q) (q_kinds q) (q_pubkey q) (q_since q) (q_until q) limit
    (q_offset q) (q_p_tag_hex q) (q_d_tag q) (q_d_tags q) (q_before_id q) (q_global_only q) (q_authors q) (q_ids q)
    (q_e_tags q) (q_custom_tag q) (q_channel_ids q) (q_channel_ids_include_global q) max_limit
    (q_shared_gated_reader q).
Definition with_before_id (before_id : option string) (q : EventQuery) : EventQuery :=
  mkEventQuery (q_community_id q) (q_channel_id q) (q_kinds q) (q_pubkey q) (q_since q) (q_until q) (q_limit q)
    (q_offset q) (q_p_tag_hex q) (q_d_tag q) (q_d_tags q) before_id (q_global_only q) (q_authors q) (q_ids q)
    (q_e_tags q) (q_custom_tag q) (q_channel_ids q) (q_channel_ids_include_global q) (q_max_limit q)
    (q_shared_gated_reader q).
Definition with_shared_gated_reader (reader : option string) (q : EventQuery) : EventQuery :=
  mkEventQuery (q_community_id q) (q_channel_id q) (q_kinds q) (q_pubkey q) (q_since q) (q_until q) (q_limit q)
    (q_offset q) (q_p_tag_hex q) (q_d_tag q) (q_d_tags q) (q_before_id q) (q_global_only q) (q_authors q) (q_ids q)
    (q_e_tags q) (q_custom_tag q) (q_channel_ids q) (q_channel_ids_include_global q) (q_max_limit q) reader.

Definition apply_count_fallback_limit (q : EventQuery) : EventQuery :=
  let fetch_limit := (COUNT_FALLBACK_CANDIDATE_LIMIT + 1)%Z in
  with_limits (Some fetch_limit) (Some fetch_limit) q.

Definition count_fallback_exceeded (candidate_count : nat) : bool :=
  (COUNT_FALLBACK_CANDIDATE_LIMIT <? Z.of_nat candidate_count)%Z.

(** The repaired access vector, and whether the channel may be read. *)
Definition resolve_request_local_access (accessible_channels : list Uuid) (ch_id : Uuid) (token_allows : bool)
    (db_is_member : option bool) : list Uuid * bool :=
  if negb token_allows then (accessible_channels, false)
  else if bool_decide (ch_id ∈ accessible_channels) then (accessible_channels, true)
  else
    match db_is_member with
    | Some true => (accessible_channels ++ [ch_id], true)
    | _ => (accessible_channels, false)
    end.

Section query.
Context `{NostrLib, UuidLib, HexLib, ReadLib, StoreLib}.

(** [kinds] is present, not empty, and all in the NIP-33 range. *)
Definition kinds_are_nip33 (kinds : option (list N)) : bool :=
  is_some_and kinds (fun ks => negb (length ks =? 0)%nat && forallb is_parameterized_replaceable ks).

(** The clause of one tag of [filter_fully_pushable]. *)
Definition tag_pushable (is_nip33_only : bool) (clause : SingleLetterTag * gset string) : bool :=
  let '(tag_key, tag_values) := clause in
  let key := single_letter_to_string tag_key in
  if bool_decide (key = "h") then true
  else if bool_decide (key = "p") then negb (1 <? size tag_values)%nat
  else if bool_decide (key = "d") then negb (negb (set_is_empty tag_values) && negb is_nip33_only)
  else if bool_decide (key = "e") then true
  else set_is_empty tag_values.

Definition filter_fully_pushable (f : ReqFilter) : bool :=
  let is_nip33_only := kinds_are_nip33 (elements <$> f_kinds f) in
  if negb (forallb (tag_pushable is_nip33_only) (map_to_list (f_generic_tags f))) then false
  else match rf_search f with Some _ => false | None => true end.

Definition filters_are_nip43_membership_only (filters : list ReqFilter) : bool :=
  negb (length filters =? 0)%nat &&
  forallb (fun f : ReqFilter => is_some_and (f_kinds f) (fun kinds =>
    negb (set_is_empty kinds) && forallb (fun kind => N.eqb kind KIND_NIP43_MEMBERSHIP_LIST) (elements kinds))) filters.

Definition extract_channel_id_from_filter (f : ReqFilter) : option Uuid :=
  values ← f_generic_tags f !! h_tag; value ← only_value values; uuid_parse_str value.

Definition filter_to_query_params (f : ReqFilter) (channel_id : option Uuid) (community : CommunityId) : EventQuery :=
  let kinds := elements <$> f_kinds f in
  let since := f_since f ≫= fun s => from_timestamp (as_i64_wrapped s) in
  let until := f_until f ≫= fun u => from_timestamp (as_i64_wrapped u) in
  let limit := match rf_limit f with
               | Some l => Z.min (as_i64_wrapped l) DEFAULT_MAX_PAGE_LIMIT
               | None => DEFAULT_MAX_PAGE_LIMIT
               end in
  let '(pubkey, authors) :=
    match elements <$> f_authors f with
    | Some [a] => (Some (rd_pk_bytes a), None)
    | Some ((_ :: _) as a) => (None, Some (rd_pk_bytes <$> a))
    | _ => (None, None)
    end in
  let ids := f_ids f ≫= fun id_set => if set_is_empty id_set then None else Some (rd_id_bytes <$> elements id_set) in
  let e_tags := f_generic_tags f !! e_tag_key ≫= fun values =>
    if set_is_empty values then None else Some (elements values) in
  let p_tag_hex := f_generic_tags f !! p_tag ≫= only_value in
  let filter_is_nip33_only := kinds_are_nip33 kinds in
  let '(d_tag, d_tags) :=
    if filter_is_nip33_only then
      match elements <$> f_generic_tags f !! d_tag_key with
      | Some [v] => (Some v, None)
      | Some ((_ :: _ :: _) as vs) => (None, Some vs)
      | _ => (None, None)
      end
    else (None, None) in
  mkEventQuery community channel_id ((fun ks => Z.of_N <$> ks) <$> kinds) pubkey since until (Some limit) None
    p_tag_hex d_tag d_tags None false authors ids e_tags None None true None None.

(** [build_event_query_from_filter]. *)
Definition build_event_query_from_filter (f : ReqFilter) (community : CommunityId) : EventQuery :=
  filter_to_query_params f (extract_channel_id_from_filter f) community.

(** The requested channels of a [#h] clause the reader may access. *)
Definition authorized_h (values : gset string) (accessible_channels : list Uuid) : list Uuid :=
  List.filter (fun requested => bool_decide (requested ∈ accessible_channels)) (omap uuid_parse_str (elements values)).

Definition apply_channel_scope_to_query (q : EventQuery) (f : ReqFilter) (channel_id : option Uuid)
    (accessible_channels : list Uuid) : EventQuery :=
  match channel_id with
  | Some _ => q
  | None =>
      match f_generic_tags f !! h_tag with
      | Some values => with_channel_ids (Some (authorized_h values accessible_channels)) false q
      | None => with_channel_ids (Some accessible_channels) (q_channel_ids_include_global q) q
      end
  end.

(** ** Channel extraction *)

(** The complete channel set when every filter is [#h]-scoped. *)
Fixpoint extract_channel_ids_from_filters (filters : list ReqFilter) : option (list Uuid) :=
  match filters with
  | [] => Some []
  | f :: fs =>
      values ← f_generic_tags f !! h_tag;
      rest ← extract_channel_ids_from_filters fs;
      Some (dedup_first (omap uuid_parse_str (elements values) ++ rest))
  end.

(** The aggregate count is checked first; a [usize] overflow of the sum is
    refused like any sum above the limit. *)
Definition extract_channel_ids_from_filters_limited (filters : list ReqFilter) : result (option (list Uuid)) unit :=
  let value_count := list_sum ((fun f : ReqFilter => match f_generic_tags f !! h_tag with
                                                     | Some values => size values | None => 0 end) <$> filters) in
  if (MAX_EXPLICIT_CHANNEL_VALUES <? value_count)%nat then Err tt
  else Ok (extract_channel_ids_from_filters filters).

(** One value of the scan of [extract_channel_id_from_filters]; [None] is its
    early return on a second distinct channel. *)
Definition scan_value (acc : option (option Uuid * bool)) (v : string) : option (option Uuid * bool) :=
  match acc with
  | None => None
  | Some (found, has_channel) =>
      match uuid_parse_str v with
      | None => Some (found, has_channel)
      | Some id =>
          match found with
          | Some existing => if bool_decide (existing = id) then Some (Some id, true) else None
          | None => Some (Some id, true)
          end
      end
  end.

(** The scan of one filter: every value of every tag that prints as [h]. *)
Definition scan_filter (found : option Uuid) (f : ReqFilter) : option (option Uuid * bool) :=
  foldl scan_value (Some (found, false))
    (concat ((fun '(k, vs) => if bool_decide (single_letter_to_string k = "h") then elements vs else [])
               <$> map_to_list (f_generic_tags f))).

Fixpoint extract_channel_id_go (found : option Uuid) (filters : list ReqFilter) : option Uuid :=
  match filters with
  | [] => found
  | f :: fs =>
      match scan_filter found f with
      | Some (found, true) => extract_channel_id_go found fs
      | _ => None
      end
  end.
Definition extract_channel_id_from_filters (filters : list ReqFilter) : option Uuid :=
  extract_channel_id_go None filters.

(** ** Huddle liveness *)

Definition filters_are_huddle_liveness_only (filters : list ReqFilter) : bool :=
  negb (length filters =? 0)%nat &&
  forallb (fun f : ReqFilter => is_some_and (f_kinds f) (fun kinds =>
    (size kinds =? 1)%nat && forallb (fun kind => N.eqb kind KIND_HUDDLE_LIVENESS) (elements kinds))) filters.

Definition huddle_liveness_session_ids (filters : list ReqFilter) : list Uuid :=
  firstn MAX_EXPLICIT_CHANNEL_VALUES
    (dedup_first (concat ((fun f : ReqFilter => match f_generic_tags f !! d_tag_key with
                                                | Some values => omap uuid_parse_str (elements values)
                                                | None => []
                                                end) <$> filters))).

(** ** Search scope *)

Inductive ChannelScope :=
| Any
| ChannelLessOnly
| ScopeChannels (ids : list Uuid)
| ChannelsOrChannelLess (ids : list Uuid).

Definition build_search_channel_scope_filter (accessible_channels : list Uuid) (include_global : bool)
  : option ChannelScope :=
  match accessible_channels with
  | [] => if include_global then Some ChannelLessOnly else None
  | ids => Some (if include_global then ChannelsOrChannelLess ids else ScopeChannels ids)
  end.
End query.

(** ** Full-text search *)

Inductive SearchMode := FullText | Prefix.

#[export] Instance SearchMode_eq_dec : EqDecision SearchMode.
Proof. solve_decision. Defined.

(** Postgres's text search: [to_tsvector('simple', content) @@ query] with the
    query the mode builds from the text, and the order-preserving value of
    [ts_rank_cd]. *)
Class FtsLib := {
  fts_match : SearchMode -> string -> string -> bool;
  fts_rank : SearchMode -> string -> string -> Z;
}.

Record SearchQuery := mkSearchQuery {
  sq_community : CommunityId;
  sq_q : string;
  sq_channel_scope : ChannelScope;
  sq_kinds : option (list Z);
  sq_authors : option (list string);
  sq_since : option Z;
  sq_until : option Z;
  sq_page : N;
  sq_per_page : N;
  sq_mode : SearchMode;
}.

Record SearchHit := mkSearchHit {
  hit_event_id : string;
  hit_kind : Z;
  hit_pubkey : string;
  hit_channel_id : option Uuid;
  hit_created_at : Z;
  hit_rank : Z;
}.

Record SearchResult := mkSearchResult { sr_hits : list SearchHit; sr_page : N }.

Definition PER_PAGE_MAX : N := 500.
Definition PER_PAGE_DEFAULT : N := 100.
Definition SEARCH_TEXT_MAX_CHARS : nat := 4096.
Definition PAGE_MAX : N := 1000.

Fixpoint nul_to_space (s : string) : string :=
  match s with
  | EmptyString => EmptyString
  | String c s => String (if Ascii.eqb c "000" then " " else c)%char (nul_to_space s)
  end.

(** [chars().count()]. *)
Fixpoint count_chars (s : string) : nat :=
  match s with
  | EmptyString => 0
  | String c s => (if continuation c then 0 else 1) + count_chars s
  end%nat.

Definition normalized_search_text (q : string) : option string :=
  let trimmed := trim q in
  if bool_decide (trimmed = "") then None
  else
    let cleaned := trim (nul_to_space (take_chars SEARCH_TEXT_MAX_CHARS trimmed)) in
    if bool_decide (cleaned = "") then None else Some cleaned.

(** The generated column [search_tsv] as schema/schema.sql has it: NULL for
    private kinds, which then never match.  (A database set up by the migrations
    alone indexes a smaller set of kinds.) *)
Definition UNSEARCHABLE_KINDS : list Z := [1059; 30179; 30300; 30350; 30622; 44100; 44101; 44200]%Z.
Definition search_tsv (r : EventRow) : option string :=
  if bool_decide (er_kind r ∈ UNSEARCHABLE_KINDS) then None else Some (er_content r).

Definition where_scope (scope : ChannelScope) (r : EventRow) : bool :=
  match scope with
  | Any => true
  | ChannelLessOnly => bool_decide (er_channel_id r = None)
  | ScopeChannels ids => sql_in (er_channel_id r) ids
  | ChannelsOrChannelLess ids => sql_in (er_channel_id r) ids || bool_decide (er_channel_id r = None)
  end.

Section search.
Context `{FtsLib}.

Definition search_where (query : SearchQuery) (ids : option (list string)) (text : string) (r : EventRow) : bool :=
  bool_decide (er_community_id r = sq_community query) && bool_decide (er_deleted_at r = None) &&
  match search_tsv r with Some content => fts_match (sq_mode query) text content | None => false end &&
  where_list (er_id r) ids && where_scope (sq_channel_scope query) r &&
  where_list (er_kind r) (sq_kinds query) && where_list (er_pubkey r) (sq_authors query) &&
  is_none_or (sq_since query) (fun s => (s <=? er_created_at r)%Z) &&
  is_none_or (sq_until query) (fun u => (er_created_at r <=? u)%Z).

(** [ORDER BY [exact lexeme DESC,] rank DESC, created_at DESC, id]. *)
Definition hit_before (query : SearchQuery) (text : string) (prioritize : bool) (a b : EventRow) : bool :=
  let exact r := prioritize && fts_match FullText text (er_content r) in
  let rank r := fts_rank (sq_mode query) text (er_content r) in
  if negb (Bool.eqb (exact a) (exact b)) then exact a
  else if negb (rank a =? rank b)%Z then (rank b <? rank a)%Z
  else row_before a b.

(** One row as a hit; a key column of the wrong width is an error. *)
Definition row_to_hit (query : SearchQuery) (text : string) (r : EventRow) : result SearchHit unit :=
  if negb (String.length (er_id r) =? 32)%nat then Err tt
  else if negb (String.length (er_pubkey r) =? 32)%nat then Err tt
  else Ok (mkSearchHit (er_id r) (er_kind r) (er_pubkey r) (er_channel_id r) (er_created_at r)
             (fts_rank (sq_mode query) text (er_content r))).

Fixpoint rows_to_hits (query : SearchQuery) (text : string) (rows : list EventRow) : result (list SearchHit) unit :=
  match rows with
  | [] => Ok []
  | r :: rows =>
      let? hit := row_to_hit query text r in
      let? hits := rows_to_hits query text rows in
      Ok (hit :: hits)
  end.

Definition clamp (lo hi n : N) : N := N.max lo (N.min hi n).

(** [search_with_ids]; [None] for the database is a failed statement. *)
Definition search_with_ids (db : option EventDb) (query : SearchQuery) (ids : option (list string))
  : result SearchResult unit :=
  match normalized_search_text (sq_q query) with
  | None => Ok (mkSearchResult [] (clamp 1 PAGE_MAX (sq_page query)))
  | Some text =>
      let per_page := clamp 1 PER_PAGE_MAX (sq_per_page query) in
      let per_page_actual := if N.eqb (sq_per_page query) 0 then PER_PAGE_DEFAULT else per_page in
      let page := clamp 1 PAGE_MAX (sq_page query) in
      let offset := ((page - 1) * per_page_actual)%N in
      let prioritize_exact_profile_lexeme :=
        bool_decide (sq_mode query = Prefix) && bool_decide (sq_kinds query = Some [0%Z]) &&
        (count_chars text <=? 2)%nat in
      match db with
      | None => Err tt
      | Some db =>
          let rows := firstn (N.to_nat per_page_actual) (skipn (N.to_nat offset)
            (sort_by (hit_before query text prioritize_exact_profile_lexeme)
               (List.filter (search_where query ids text) (db_events db)))) in
          let? hits := rows_to_hits query text rows in
          Ok (mkSearchResult hits page)
      end
  end.
End search.
