(* ===== verification/ReadReq.v ===== *)
(** The read handlers of the relay: REQ (buzz-relay/src/handlers/req.rs) and
    COUNT (buzz-relay/src/handlers/count.rs), with the membership reads of
    buzz-relay/src/api/mod.rs and buzz-db/src/store/channel_members.rs.

    A handler awaits the database, the membership cache and the connection's
    send queue; what each await returns is a field of the environment, one
    answer per call, so that no two reads of a request need agree.  What the
    handler sends is an [Outbox].  [req_plan] is [handle_req] up to the point
    where it registers the subscription, [req_history] what follows the
    registration; the registration itself, which touches state shared with
    other tasks, is in ReadTopics. *)

From S2P Require Import Prelude Nostr Filter Auth ReadGate EventStore ReadQuery.

(** ** The connection and what it is sent *)

Inductive AuthState :=
| Pending (challenge : string)
| Authenticated (ctx : AuthContext)
| Failed.

Record ConnectionState := mkConnectionState {
  cs_conn_id : N;
  cs_tenant : CommunityId;
  cs_auth_state : AuthState;
  cs_subscriptions : gmap string (list ReqFilter);
}.

Inductive RelayMessage :=
| notice (message : string)
| closed (sub_id message : string)
| event_message (sub_id : string) (event : Event)
| eose (sub_id : string)
| count_message (sub_id : string) (n : N).

(** The send queue: how many sends were tried, and what it accepted. *)
Record Outbox := mkOutbox { ob_calls : nat; ob_sent : list RelayMessage }.
Definition outbox_new : Outbox := mkOutbox 0 [].

(** [ConnectionState::send]: [queue n] is whether the queue takes the [n]-th
    message. *)
Definition send (queue : nat -> bool) (m : RelayMessage) (ob : Outbox) : Outbox * bool :=
  if queue (ob_calls ob) then (mkOutbox (S (ob_calls ob)) (ob_sent ob ++ [m]), true)
  else (mkOutbox (S (ob_calls ob)) (ob_sent ob), false).

(** ** Channel membership *)

Record ChannelRow := mkChannelRow {
  chr_community_id : CommunityId; chr_id : Uuid; chr_visibility : string; chr_deleted_at : option Z }.
Record MemberRow := mkMemberRow {
  mbr_community_id : CommunityId; mbr_channel_id : Uuid; mbr_pubkey : string; mbr_removed_at : option Z }.
Record ChannelDb := mkChannelDb { cd_channels : list ChannelRow; cd_members : list MemberRow }.

Definition live_channel (db : ChannelDb) (c : CommunityId) (ch : Uuid) : bool :=
  existsb (fun r => bool_decide (chr_community_id r = c) && bool_decide (chr_id r = ch) &&
                    bool_decide (chr_deleted_at r = None)) (cd_channels db).

Definition member_row (c : CommunityId) (pubkey : string) (m : MemberRow) : bool :=
  bool_decide (mbr_community_id m = c) && bool_decide (mbr_pubkey m = pubkey) && bool_decide (mbr_removed_at m = None).

Definition is_member (db : ChannelDb) (c : CommunityId) (ch : Uuid) (pubkey : string) : bool :=
  existsb (fun m => member_row c pubkey m && bool_decide (mbr_channel_id m = ch) && live_channel db c ch) (cd_members db).

Definition get_accessible_channel_ids (db : ChannelDb) (c : CommunityId) (pubkey : string) : list Uuid :=
  dedup_first
    ((mbr_channel_id <$> List.filter (fun m => member_row c pubkey m && live_channel db c (mbr_channel_id m)) (cd_members db)) ++
     (chr_id <$> List.filter (fun r => bool_decide (chr_community_id r = c) && bool_decide (chr_visibility r = "open") &&
                                       bool_decide (chr_deleted_at r = None)) (cd_channels db))).

(** The cache answers when it holds an entry; otherwise the database does. *)
Definition get_accessible_channel_ids_cached (cached : option (list Uuid)) (db : option ChannelDb)
    (c : CommunityId) (pubkey : string) : result (list Uuid) unit :=
  match cached with
  | Some ids => Ok ids
  | None => match db with Some db => Ok (get_accessible_channel_ids db c pubkey) | None => Err tt end
  end.

(** ** Relay membership *)

Record RelayConfig := mkRelayConfig { require_relay_membership : bool; allow_nip_oa_auth : bool }.

(** [get_relay_member] by hexadecimal key, as the writer answers it. *)
Abbreviation Roster := (string -> result bool unit) (only parsing).

Section relay.
Context `{NostrLib, UuidLib, HexLib, ReadLib, StoreLib, FtsLib}.

Definition current_relay_membership (cfg : RelayConfig) (roster : Roster) (pubkey_bytes : string) : result bool unit :=
  if negb (require_relay_membership cfg) then Ok true else roster (hex_encode pubkey_bytes).

Definition current_relay_membership_for_auth (cfg : RelayConfig) (roster : Roster) (pubkey_bytes : string)
    (agent_owner_pubkey : option string) : result bool unit :=
  let? direct := current_relay_membership cfg roster pubkey_bytes in
  if direct : bool then Ok true
  else if negb (allow_nip_oa_auth cfg) then Ok false
  else
    match agent_owner_pubkey with
    | None => Ok false
    | Some owner_bytes =>
        if bool_decide (owner_bytes = pubkey_bytes) then Ok false else roster (hex_encode owner_bytes)
    end.

(** ** The environment of one request *)

Record ReadEnv := mkReadEnv {
  (** the two readings of the relay roster *)
  env_cfg : RelayConfig;
  env_roster : Roster;
  env_roster_again : Roster;
  (** the membership cache and the channel tables behind it *)
  env_cached_channels : option (list Uuid);
  env_channel_db : option ChannelDb;
  (** the tables at each confirmation of a channel *)
  env_member_db : Uuid -> option ChannelDb;
  (** the connection's cancellation flag before registration *)
  env_cancelled : bool;
  (** the database seen by the query of each filter *)
  env_route : nat -> Route;
  (** the search index and the row store seen for a page of a filter *)
  env_search : nat -> N -> option EventDb;
  env_hydrate : nat -> N -> Route;
  (** the send queue *)
  env_queue : nat -> bool;
}.

(** ** REQ: authorization *)

(** What [handle_req] decides before it registers anything. *)
Inductive ReqPlan :=
| Reply (messages : list RelayMessage)
| Revoked (reason : string)
| Nothing
| HuddleLiveness (channels : list Uuid)
| SearchFor (accessible : list Uuid) (include_global : bool)
| Subscribe (channel_id : option Uuid) (scope : option (list Uuid)) (accessible : list Uuid) (reader : string).

Definition RELAY_MEMBERSHIP_REVOKED_REASON : string := "restricted: not a relay member".

Definition token_allows (token_channel_ids : option (list Uuid)) (ch : Uuid) : bool :=
  is_none_or token_channel_ids (fun allowed => bool_decide (ch ∈ allowed)).

(** The loop that confirms each requested channel; [None] is a database error. *)
Fixpoint confirm_channels (env : ReadEnv) (c : CommunityId) (pubkey_bytes : string)
    (token_channel_ids : option (list Uuid)) (requested accessible : list Uuid) : option (list Uuid) :=
  match requested with
  | [] => Some accessible
  | ch_id :: requested =>
      let allows := token_allows token_channel_ids ch_id in
      if negb allows || bool_decide (ch_id ∈ accessible) then
        confirm_channels env c pubkey_bytes token_channel_ids requested
          (resolve_request_local_access accessible ch_id allows None).1
      else
        match env_member_db env ch_id with
        | None => None
        | Some db =>
            confirm_channels env c pubkey_bytes token_channel_ids requested
              (resolve_request_local_access accessible ch_id allows (Some (is_member db c ch_id pubkey_bytes))).1
        end
  end.

(** [accessible_channels] of a request, before the confirmations: the cached
    memberships, within the token's scope. *)
Definition base_channels (env : ReadEnv) (c : CommunityId) (pubkey_bytes : string)
    (token_channel_ids : option (list Uuid)) (skip : bool) : result (list Uuid) unit :=
  let? ids := if skip then Ok [] else
    get_accessible_channel_ids_cached (env_cached_channels env) (env_channel_db env) c pubkey_bytes in
  Ok (match token_channel_ids with
      | Some allowed => List.filter (fun ch => bool_decide (ch ∈ allowed)) ids
      | None => ids
      end).

(** The sensitive-kind gates of a global request: the reason of a refusal. *)
Definition gate_refusal (filters : list ReqFilter) (authed_pubkey_hex : string) : option string :=
  if negb (p_gated_filters_authorized filters authed_pubkey_hex) then
    Some "restricted: p-gated events require #p matching your pubkey"
  else if negb (engram_filters_authorized filters authed_pubkey_hex) then
    Some "restricted: agent-engram reads require authors=[self] or #p=[self]"
  else if negb (author_only_filters_authorized filters authed_pubkey_hex) then
    Some "restricted: author-only kinds require authors=[self]"
  else None.

(** From the gates on: what kind of request this is. *)
Definition req_dispatch (sub_id : string) (filters : list ReqFilter) (channel_id : option Uuid)
    (authorized : option (list Uuid)) (accessible : list Uuid) (token_channel_ids : option (list Uuid))
    (pubkey_bytes : string) : ReqPlan :=
  if filters_are_huddle_liveness_only filters then HuddleLiveness (default [] authorized)
  else
    match (if bool_decide (channel_id = None) then gate_refusal filters (hex_encode pubkey_bytes) else None) with
    | Some reason => Reply [closed sub_id reason]
    | None =>
        if existsb (fun f => bool_decide (is_Some (rf_search f))) filters then
          if existsb (fun f => bool_decide (rf_search f = None)) filters then
            Reply [closed sub_id "error: mixed search and non-search filters not supported"]
          else SearchFor accessible (bool_decide (token_channel_ids = None))
        else Subscribe channel_id authorized accessible pubkey_bytes
    end.

Definition req_plan (env : ReadEnv) (conn : ConnectionState) (sub_id : string) (filters : list ReqFilter) : ReqPlan :=
  match cs_auth_state conn with
  | Authenticated ctx =>
      if negb (length (ac_scopes ctx) =? 0)%nat && negb (bool_decide (MessagesRead ∈ ac_scopes ctx)) then
        Reply [notice "restricted: insufficient scope"; closed sub_id "restricted: insufficient scope"]
      else if bool_decide (cs_subscriptions conn !! sub_id = None) &&
              (MAX_SUBSCRIPTIONS <=? size (cs_subscriptions conn))%nat then
        Reply [closed sub_id "error: too many subscriptions"]
      else
        let pubkey_bytes := rd_pk_bytes (ac_pubkey ctx) in
        let owner := rd_pk_bytes <$> ac_agent_owner_pubkey ctx in
        match current_relay_membership_for_auth (env_cfg env) (env_roster env) pubkey_bytes owner with
        | Err _ => Revoked "error: internal server error"
        | Ok false => Revoked RELAY_MEMBERSHIP_REVOKED_REASON
        | Ok true =>
            let channel_id := extract_channel_id_from_filters filters in
            match extract_channel_ids_from_filters_limited filters with
            | Err _ => Reply [closed sub_id "restricted: too many explicit channels"]
            | Ok requested =>
                match base_channels env (cs_tenant conn) pubkey_bytes (ac_channel_ids ctx)
                        (filters_are_nip43_membership_only filters) with
                | Err _ => Reply [closed sub_id "error: database error"]
                | Ok base =>
                    match confirm_channels env (cs_tenant conn) pubkey_bytes (ac_channel_ids ctx) (default [] requested) base with
                    | None => Reply [closed sub_id "error: database error"]
                    | Some accessible =>
                        let authorized := List.filter (fun ch => bool_decide (ch ∈ accessible)) <$> requested in
                        if bool_decide (authorized = Some []) then
                          Reply [closed sub_id "restricted: not a channel member"]
                        else
                          match current_relay_membership_for_auth (env_cfg env) (env_roster_again env) pubkey_bytes owner with
                          | Err _ => Revoked "error: internal server error"
                          | Ok false => Revoked RELAY_MEMBERSHIP_REVOKED_REASON
                          | Ok true =>
                              if env_cancelled env then Nothing
                              else req_dispatch sub_id filters channel_id authorized accessible (ac_channel_ids ctx) pubkey_bytes
                          end
                    end
                end
            end
        end
  | _ => Reply [notice "auth-required: authenticate before subscribing"; closed sub_id "auth-required: not authenticated"]
  end.

(** ** REQ: historical delivery *)

(** The channel a filter's query is pinned to. *)
Definition per_filter_channel (f : ReqFilter) (channel_id : option Uuid) : option Uuid :=
  match extract_channel_id_from_filter f with Some ch => Some ch | None => channel_id end.

(** Phase 1: the query of the [idx]-th filter. *)
Definition history_query (c : CommunityId) (channel_id : option Uuid) (accessible : list Uuid) (reader : string)
    (before_id : option string) (f : ReqFilter) : EventQuery :=
  let pin := per_filter_channel f channel_id in
  let params := with_before_id before_id (filter_to_query_params f pin c) in
  let params := apply_channel_scope_to_query params f pin accessible in
  if filter_can_match_shared_gated_kinds f then with_shared_gated_reader (Some reader) params else params.

(** The checks a row passes before it is sent. *)
Definition deliverable (f : ReqFilter) (accessible : list Uuid) (reader : string) (stored : StoredEvent) : bool :=
  if negb (filters_match [rf_filter f] stored) then false
  else if is_some_and (se_channel_id stored) (fun ch => negb (bool_decide (ch ∈ accessible))) then false
  else event_visible_to_reader (se_event stored) reader.

(** Phase 3 for one filter: the events in order; the flag is the [return] of a
    full send queue. *)
Fixpoint deliver (queue : nat -> bool) (sub_id : string) (f : ReqFilter) (accessible : list Uuid) (reader : string)
    (events : list StoredEvent) (seen : gset EventId) (ob : Outbox) : Outbox * gset EventId * bool :=
  match events with
  | [] => (ob, seen, false)
  | stored :: events =>
      if negb (deliverable f accessible reader stored) then deliver queue sub_id f accessible reader events seen ob
      else if bool_decide (ev_id (se_event stored) ∈ seen) then deliver queue sub_id f accessible reader events seen ob
      else
        let seen := {[ev_id (se_event stored)]} ∪ seen in
        match send queue (event_message sub_id (se_event stored)) ob with
        | (ob, false) => (ob, seen, true)
        | (ob, true) => deliver queue sub_id f accessible reader events seen ob
        end
  end.

(** The filters in order, then EOSE; a failed query ends the delivery with an
    early EOSE. *)
Fixpoint history_loop (env : ReadEnv) (c : CommunityId) (sub_id : string) (channel_id : option Uuid)
    (accessible : list Uuid) (reader : string) (before_ids : list (option string)) (idx : nat)
    (filters : list ReqFilter) (seen : gset EventId) (ob : Outbox) : Outbox :=
  match filters with
  | [] => (send (env_queue env) (eose sub_id) ob).1
  | f :: filters =>
      let before_id := default None (before_ids !! idx) in
      match query_events_routed (env_route env idx) (history_query c channel_id accessible reader before_id f) with
      | Err _ => (send (env_queue env) (eose sub_id) ob).1
      | Ok events =>
          match deliver (env_queue env) sub_id f accessible reader events seen ob with
          | (ob, _, true) => ob
          | (ob, seen, false) =>
              history_loop env c sub_id channel_id accessible reader before_ids (S idx) filters seen ob
          end
      end
  end.

Definition req_history (env : ReadEnv) (c : CommunityId) (sub_id : string) (channel_id : option Uuid)
    (accessible : list Uuid) (reader : string) (before_ids : list (option string)) (filters : list ReqFilter) : Outbox :=
  history_loop env c sub_id channel_id accessible reader before_ids 0 filters ∅ outbox_new.

(** ** REQ: search *)

(** The channel scope of one filter; [None] skips the filter. *)
Definition search_scope (f : ReqFilter) (accessible : list Uuid) (all_channels : ChannelScope) : option ChannelScope :=
  match f_generic_tags f !! h_tag with
  | Some vs =>
      if set_is_empty vs then Some all_channels
      else match authorized_h vs accessible with [] => None | valid => Some (ScopeChannels valid) end
  | None => Some all_channels
  end.

Definition search_limit (f : ReqFilter) : N :=
  match rf_limit f with
  | Some l => N.min (l mod 2 ^ 32) (Z.to_N DEFAULT_MAX_PAGE_LIMIT)
  | None => Z.to_N DEFAULT_MAX_PAGE_LIMIT
  end%N.

Definition search_query (c : CommunityId) (f : ReqFilter) (text : string) (scope : ChannelScope) (page : N) : SearchQuery :=
  mkSearchQuery c text scope
    (ks ← f_kinds f; if set_is_empty ks then None else Some (Z.of_N <$> elements ks))
    (au ← f_authors f; if set_is_empty au then None else Some (rd_pk_bytes <$> elements au))
    (as_i64_wrapped <$> f_since f) (as_i64_wrapped <$> f_until f) page SEARCH_PAGE_SIZE FullText.

Definition search_ids (f : ReqFilter) : option (list string) :=
  ids ← f_ids f; if set_is_empty ids then None else Some (rd_id_bytes <$> elements ids).

(** [event_map.get(id)]: of two events with one id the later one is kept. *)
Definition event_map_get (events : list StoredEvent) (id : string) : option StoredEvent :=
  List.find (fun ev => bool_decide (rd_id_bytes (ev_id (se_event ev)) = id)) (rev events).

(** The hits of one page, in relevance order. *)
Fixpoint deliver_hits (queue : nat -> bool) (sub_id : string) (f : ReqFilter) (accessible : list Uuid) (reader : string)
    (limit : N) (events : list StoredEvent) (hits : list string) (emitted : N) (seen : gset EventId) (ob : Outbox)
  : Outbox * gset EventId * N * bool :=
  match hits with
  | [] => (ob, seen, emitted, false)
  | id :: hits =>
      if (limit <=? emitted)%N then (ob, seen, emitted, false)
      else
        match event_map_get events id with
        | None => deliver_hits queue sub_id f accessible reader limit events hits emitted seen ob
        | Some stored =>
            if negb (deliverable f accessible reader stored) then
              deliver_hits queue sub_id f accessible reader limit events hits emitted seen ob
            else if bool_decide (ev_id (se_event stored) ∈ seen) then
              deliver_hits queue sub_id f accessible reader limit events hits emitted seen ob
            else
              let seen := {[ev_id (se_event stored)]} ∪ seen in
              match send queue (event_message sub_id (se_event stored)) ob with
              | (ob, false) => (ob, seen, emitted, true)
              | (ob, true) => deliver_hits queue sub_id f accessible reader limit events hits (emitted + 1)%N seen ob
              end
        end
  end.

(** The pages of one filter, at most [MAX_SEARCH_PAGES]. *)
Fixpoint search_pages (env : ReadEnv) (c : CommunityId) (sub_id : string) (idx : nat) (f : ReqFilter) (text : string)
    (scope : ChannelScope) (accessible : list Uuid) (reader : string) (limit : N) (pages : list N) (emitted : N)
    (seen : gset EventId) (ob : Outbox) : Outbox * gset EventId * bool :=
  match pages with
  | [] => (ob, seen, false)
  | page :: pages =>
      if (limit <=? emitted)%N then (ob, seen, false)
      else
        match search_with_ids (env_search env idx page) (search_query c f text scope page) (search_ids f) with
        | Err _ => (ob, seen, false)
        | Ok found =>
            let hit_ids := hit_event_id <$> sr_hits found in
            let exhausted := (N.of_nat (length hit_ids) <? SEARCH_PAGE_SIZE)%N in
            if (length hit_ids =? 0)%nat then (ob, seen, false)
            else
              match get_events_by_ids_routed (env_hydrate env idx page) c hit_ids with
              | Err _ => (ob, seen, false)
              | Ok events =>
                  match deliver_hits (env_queue env) sub_id f accessible reader limit events hit_ids emitted seen ob with
                  | (ob, seen, _, true) => (ob, seen, true)
                  | (ob, seen, emitted, false) =>
                      if exhausted then (ob, seen, false)
                      else search_pages env c sub_id idx f text scope accessible reader limit pages emitted seen ob
                  end
              end
        end
  end.

Definition search_page_numbers : list N := N.of_nat <$> seq 1 (N.to_nat MAX_SEARCH_PAGES).

Fixpoint search_filters (env : ReadEnv) (c : CommunityId) (sub_id : string) (all_channels : ChannelScope)
    (accessible : list Uuid) (reader : string) (idx : nat) (filters : list ReqFilter) (seen : gset EventId)
    (ob : Outbox) : Outbox :=
  match filters with
  | [] => (send (env_queue env) (eose sub_id) ob).1
  | f :: filters =>
      let next := search_filters env c sub_id all_channels accessible reader (S idx) filters in
      match rf_search f with
      | None | Some EmptyString => next seen ob
      | Some text =>
          let limit := search_limit f in
          if (limit =? 0)%N then next seen ob
          else
            match search_scope f accessible all_channels with
            | None => next seen ob
            | Some scope =>
                match search_pages env c sub_id idx f text scope accessible reader limit search_page_numbers 0 seen ob with
                | (ob, _, true) => ob
                | (ob, seen, false) => next seen ob
                end
            end
      end
  end.

Definition handle_search_req (env : ReadEnv) (c : CommunityId) (sub_id : string) (filters : list ReqFilter)
    (accessible : list Uuid) (include_global : bool) (reader : string) : Outbox :=
  match build_search_channel_scope_filter accessible include_global with
  | None => (send (env_queue env) (eose sub_id) outbox_new).1
  | Some all_channels => search_filters env c sub_id all_channels accessible reader 0 filters ∅ outbox_new
  end.

(** ** COUNT *)

(** A refusal of a revoked connection, or the message sent. *)
Inductive CountReply :=
| CountRevoked (reason : string)
| CountSend (message : RelayMessage).

(** The confirmations of the channels one COUNT filter names. *)
Fixpoint count_confirm (env : ReadEnv) (c : CommunityId) (pubkey_bytes : string)
    (token_channel_ids : option (list Uuid)) (requested accessible : list Uuid) : option (list Uuid) :=
  match requested with
  | [] => Some accessible
  | ch_id :: requested =>
      if bool_decide (ch_id ∈ accessible) then count_confirm env c pubkey_bytes token_channel_ids requested accessible
      else if token_allows token_channel_ids ch_id then
        match env_member_db env ch_id with
        | None => None
        | Some db =>
            count_confirm env c pubkey_bytes token_channel_ids requested
              (resolve_request_local_access accessible ch_id true (Some (is_member db c ch_id pubkey_bytes))).1
        end
      else
        count_confirm env c pubkey_bytes token_channel_ids requested
          (resolve_request_local_access accessible ch_id false None).1
  end.

(** Whether the aggregate may be computed in SQL. *)
Definition count_fast (f : ReqFilter) (authed_pubkey_hex : string) : bool :=
  let needs_author_only := filter_can_match_author_only_kinds f in
  let needs_shared := filter_can_match_shared_gated_kinds f in
  let needs_result := filter_can_match_result_gated_kinds f && negb (result_gated_count_safe_for_pushdown f authed_pubkey_hex) in
  filter_fully_pushable f && (negb needs_author_only || authors_are_self f authed_pubkey_hex) &&
  negb needs_result && negb needs_shared.

(** The rows of the fallback that count. *)
Definition counts (f : ReqFilter) (pubkey_bytes : string) (se : StoredEvent) : bool :=
  if negb (filters_match [rf_filter f] se) then false else event_visible_to_reader (se_event se) pubkey_bytes.

(** One filter's contribution, from its query; of a failed statement only the
    "error: " prefix of the reply is kept. *)
Definition count_query (rt : Route) (f : ReqFilter) (pubkey_bytes : string) (q : EventQuery) : result N string :=
  if count_fast f (hex_encode pubkey_bytes) then
    match count_events_routed rt q with Ok n => Ok (Z.to_N n) | Err _ => Err "error: " end
  else
    match query_events_routed_bounded rt (apply_count_fallback_limit q) with
    | Err _ => Err "error: "
    | Ok stored_events =>
        if count_fallback_exceeded (length stored_events) then
          Err "restricted: count filter requires narrower constraints"
        else Ok (N.of_nat (length (List.filter (counts f pubkey_bytes) stored_events)))
    end.

Definition with_count_reader (f : ReqFilter) (pubkey_bytes : string) (q : EventQuery) : EventQuery :=
  if filter_can_match_shared_gated_kinds f then with_shared_gated_reader (Some pubkey_bytes) q else q.

(** The query of a filter that names channels, once some are authorized. *)
Definition count_scoped_query (c : CommunityId) (f : ReqFilter) (requested authorized accessible : list Uuid)
    (pubkey_bytes : string) : EventQuery :=
  let ch_id := if (length requested =? 1)%nat then head authorized else None in
  with_count_reader f pubkey_bytes
    (apply_channel_scope_to_query (build_event_query_from_filter f c) f ch_id accessible).

(** The query of a filter that names none. *)
Definition count_open_query (c : CommunityId) (f : ReqFilter) (accessible : list Uuid) (pubkey_bytes : string)
  : EventQuery :=
  let q := build_event_query_from_filter f c in
  let q := with_count_reader f pubkey_bytes (with_channel_ids (Some accessible) (q_channel_ids_include_global q) q) in
  if count_fast f (hex_encode pubkey_bytes) then with_limits None (q_max_limit q) q else q.

Fixpoint count_loop (env : ReadEnv) (c : CommunityId) (pubkey_bytes : string) (token_channel_ids : option (list Uuid))
    (idx : nat) (filters : list ReqFilter) (accessible : list Uuid) (total : N) : result N string :=
  match filters with
  | [] => Ok total
  | f :: filters =>
      let next := count_loop env c pubkey_bytes token_channel_ids (S idx) filters in
      match extract_channel_ids_from_filters [f] with
      | Some requested =>
          match count_confirm env c pubkey_bytes token_channel_ids requested accessible with
          | None => Err "error: database error"
          | Some accessible =>
              let authorized := List.filter (fun ch => bool_decide (ch ∈ accessible)) requested in
              if (length authorized =? 0)%nat then next accessible total
              else
                let? n := count_query (env_route env idx) f pubkey_bytes
                            (count_scoped_query c f requested authorized accessible pubkey_bytes) in
                next accessible (total + n)%N
          end
      | None =>
          let? n := count_query (env_route env idx) f pubkey_bytes (count_open_query c f accessible pubkey_bytes) in
          next accessible (total + n)%N
      end
  end.

Definition count_gate_refusal (filters : list ReqFilter) (authed_pubkey_hex : string) : option string :=
  if negb (p_gated_filters_authorized filters authed_pubkey_hex) then
    Some "restricted: p-gated kinds require #p tag matching your pubkey"
  else if negb (engram_filters_authorized filters authed_pubkey_hex) then
    Some "restricted: agent-engram reads require authors=[self] or #p=[self]"
  else if negb (author_only_filters_authorized filters authed_pubkey_hex) then
    Some "restricted: author-only kinds require authors=[self]"
  else None.

Definition handle_count (env : ReadEnv) (conn : ConnectionState) (sub_id : string) (filters : list ReqFilter) : CountReply :=
  match cs_auth_state conn with
  | Authenticated ctx =>
      let pubkey_bytes := rd_pk_bytes (ac_pubkey ctx) in
      let owner := rd_pk_bytes <$> ac_agent_owner_pubkey ctx in
      match current_relay_membership_for_auth (env_cfg env) (env_roster env) pubkey_bytes owner with
      | Err _ => CountRevoked "error: internal server error"
      | Ok false => CountRevoked RELAY_MEMBERSHIP_REVOKED_REASON
      | Ok true =>
          match count_gate_refusal filters (hex_encode pubkey_bytes) with
          | Some reason => CountSend (closed sub_id reason)
          | None =>
              match extract_channel_ids_from_filters_limited filters with
              | Err _ => CountSend (closed sub_id "restricted: too many explicit channels")
              | Ok _ =>
                  match base_channels env (cs_tenant conn) pubkey_bytes (ac_channel_ids ctx) false with
                  | Err _ => CountSend (closed sub_id "error: database error")
                  | Ok base =>
                      match count_loop env (cs_tenant conn) pubkey_bytes (ac_channel_ids ctx) 0 filters base 0 with
                      | Err message => CountSend (closed sub_id message)
                      | Ok total =>
                          match current_relay_membership_for_auth (env_cfg env) (env_roster_again env) pubkey_bytes owner with
                          | Err _ => CountRevoked "error: internal server error"
                          | Ok false => CountRevoked RELAY_MEMBERSHIP_REVOKED_REASON
                          | Ok true => CountSend (count_message sub_id total)
                          end
                      end
                  end
              end
          end
      end
  | _ => CountSend (closed sub_id "auth-required: not authenticated")
  end.
End relay.
