(* ===== verification/ReadTheorems.v ===== *)
(** What the read handlers deliver: only rows the reader may see, every such
    row, and counts of exactly them. *)

From S2P Require Import Prelude Nostr Filter Auth ReadGate EventStore ReadQuery ReadReq.

(** ** The send queue *)

Definition sent_event (m : RelayMessage) : option Event :=
  match m with event_message _ e => Some e | _ => None end.

(** The events a handler put on the queue, in order. *)
Definition sent_events (ob : Outbox) : list Event := omap sent_event (ob_sent ob).

Lemma sent_events_send queue m ob :
  sent_events (send queue m ob).1 =
  sent_events ob ++ (if (send queue m ob).2 then omap sent_event [m] else []).
Proof.
  unfold send. destruct (queue (ob_calls ob)); cbn [fst snd]; unfold sent_events; cbn [ob_sent].
  - by rewrite omap_app.
  - by rewrite app_nil_r.
Qed.

Lemma sent_events_eose queue sub ob : sent_events (send queue (eose sub) ob).1 = sent_events ob.
Proof. rewrite sent_events_send. destruct (send _ _ _).2; cbn; by rewrite app_nil_r. Qed.

Section delivery.
Context `{NostrLib, UuidLib, HexLib, ReadLib, StoreLib, FtsLib}.

(** Ids on the queue are among the ids seen, and are all different. *)
Definition distinct_ids (seen : gset EventId) (ob : Outbox) : Prop :=
  NoDup (ev_id <$> sent_events ob) /\ forall e, e ∈ sent_events ob -> ev_id e ∈ seen.

Lemma distinct_ids_push queue sub stored seen ob :
  distinct_ids seen ob -> ev_id (se_event stored) ∉ seen ->
  distinct_ids ({[ev_id (se_event stored)]} ∪ seen) (send queue (event_message sub (se_event stored)) ob).1.
Proof.
  intros [Hnd Hin] Hnew. unfold distinct_ids. rewrite sent_events_send.
  destruct (send _ _ _).2; cbn; [|rewrite app_nil_r; split; [done|set_solver]].
  rewrite fmap_app, NoDup_app. split.
  - split_and!; [done| |apply NoDup_singleton]. intros i (e & -> & He)%list_elem_of_fmap Hi%list_elem_of_singleton.
    apply Hnew. rewrite <- Hi. auto.
  - intros e [He| ->%list_elem_of_singleton]%elem_of_app; apply elem_of_union; [right; auto|left].
    by apply elem_of_singleton.
Qed.

(** One filter's loop only adds events of its list that pass the checks. *)
Lemma deliver_sound queue sub f accessible reader events seen ob ob' seen' stop :
  deliver queue sub f accessible reader events seen ob = (ob', seen', stop) ->
  distinct_ids seen ob ->
  distinct_ids seen' ob' /\
  forall e, e ∈ sent_events ob' -> e ∈ sent_events ob \/
    exists stored, stored ∈ events /\ se_event stored = e /\ deliverable f accessible reader stored = true.
Proof.
  revert seen ob; induction events as [|stored events IH]; intros seen ob; cbn [deliver].
  { intros [= <- <- <-]. naive_solver. }
  setoid_rewrite elem_of_cons.
  destruct (deliverable f accessible reader stored) eqn:Ed; cbn [negb].
  2:{ intros Hd Hok. destruct (IH _ _ Hd Hok) as [? Hs]. split; [done|]. intros e He. destruct (Hs e He); naive_solver. }
  case_bool_decide as Hseen.
  { intros Hd Hok. destruct (IH _ _ Hd Hok) as [? Hs]. split; [done|]. intros e He. destruct (Hs e He); naive_solver. }
  pose proof (sent_events_send queue (event_message sub (se_event stored)) ob) as Hsent.
  pose proof (fun Hok => distinct_ids_push queue sub stored seen ob Hok Hseen) as Hpush.
  destruct (send queue _ ob) as [ob1 [|]] eqn:Es; cbn [fst snd] in *; cbn [omap list_omap sent_event] in Hsent.
  - intros Hd Hok. destruct (IH _ _ Hd (Hpush Hok)) as [? Hs]. split; [done|]. intros e He.
    destruct (Hs e He) as [Hold|?]; [|naive_solver]. rewrite Hsent in Hold.
    apply elem_of_app in Hold as [?| ->%list_elem_of_singleton]; [by left|right; exists stored; auto].
  - intros [= <- <- <-] Hok. split; [auto|]. intros e. rewrite Hsent, app_nil_r. auto.
Qed.

Lemma history_loop_sound env c sub channel_id accessible reader before idx filters seen ob :
  distinct_ids seen ob ->
  let out := history_loop env c sub channel_id accessible reader before idx filters seen ob in
  NoDup (ev_id <$> sent_events out) /\
  forall e, e ∈ sent_events out -> e ∈ sent_events ob \/
    exists n f stored events, filters !! n = Some f /\ stored ∈ events /\ se_event stored = e /\
      deliverable f accessible reader stored = true /\
      query_events_routed (env_route env (idx + n))
        (history_query c channel_id accessible reader (default None (before !! (idx + n)%nat)) f) = Ok events.
Proof.
  revert idx seen ob; induction filters as [|f filters IH]; intros idx seen ob Hok; cbn [history_loop].
  { cbn zeta. rewrite sent_events_eose. split; [apply Hok|auto]. }
  destruct (query_events_routed _ _) as [events|] eqn:Eq; cbn zeta; [|rewrite sent_events_eose; split; [apply Hok|auto]].
  destruct (deliver _ _ _ _ _ _ _ _) as [[ob1 seen1] stop] eqn:Ed.
  destruct (deliver_sound _ _ _ _ _ _ _ _ _ _ _ Ed Hok) as [Hok1 Hs].
  assert (forall e, e ∈ sent_events ob1 -> e ∈ sent_events ob \/
    exists n g stored events, (f :: filters) !! n = Some g /\ stored ∈ events /\ se_event stored = e /\
      deliverable g accessible reader stored = true /\
      query_events_routed (env_route env (idx + n))
        (history_query c channel_id accessible reader (default None (before !! (idx + n)%nat)) g) = Ok events) as Hhere.
  { intros e He. destruct (Hs e He) as [?|(stored & ? & ? & ?)]; [by left|right].
    exists 0%nat, f, stored, events. rewrite Nat.add_0_r. auto. }
  destruct stop; [split; [apply Hok1|exact Hhere]|].
  specialize (IH (S idx) _ _ Hok1) as [Hnd IH]. split; [done|]. intros e He.
  destruct (IH e He) as [?|(n & g & stored & evs & ? & ? & ? & ? & ?)]; [auto|right].
  exists (S n), g, stored, evs. by rewrite Nat.add_succ_r.
Qed.

(** ** Which channels a request may read *)

(** The tables show the reader as a member of the live channel, or the channel
    as open. *)
Definition channel_access (db : ChannelDb) (c : CommunityId) (ch : Uuid) (pubkey : string) : Prop :=
  live_channel db c ch = true /\
  ((exists m, m ∈ cd_members db /\ member_row c pubkey m = true /\ mbr_channel_id m = ch) \/
   (exists r, r ∈ cd_channels db /\ chr_community_id r = c /\ chr_id r = ch /\ chr_visibility r = "open")).

(** The token covers the channel, and a membership read of this request (the
    cache's entry, the tables behind it, or the confirmation) shows access. *)
Definition channel_readable (env : ReadEnv) (c : CommunityId) (pubkey : string) (token : option (list Uuid))
    (ch : Uuid) : Prop :=
  token_allows token ch = true /\
  ((exists ids, env_cached_channels env = Some ids /\ ch ∈ ids) \/
   exists db, (env_channel_db env = Some db \/ env_member_db env ch = Some db) /\ channel_access db c ch pubkey).

Lemma get_accessible_sound db c pubkey ch :
  ch ∈ get_accessible_channel_ids db c pubkey -> channel_access db c ch pubkey.
Proof.
  unfold get_accessible_channel_ids. rewrite elem_of_dedup_first, elem_of_app, !list_elem_of_fmap.
  setoid_rewrite elem_of_filter_bool. intros [(m & -> & Hm & Hl)|(r & -> & Hr & Hl)].
  - apply andb_true_iff in Hl as [Hl1 Hl2]. split; [done|]. left. eauto.
  - rewrite !andb_true_iff, !bool_decide_eq_true in Hl. destruct Hl as [[Hc Hv] Hd]. split.
    + apply existsb_elem_of. exists r. split; [done|]. by rewrite !andb_true_iff, !bool_decide_eq_true.
    + right. eauto.
Qed.

Lemma is_member_sound db c ch pubkey : is_member db c ch pubkey = true -> channel_access db c ch pubkey.
Proof.
  unfold is_member. rewrite existsb_elem_of. intros (m & Hm & Hall).
  rewrite !andb_true_iff, bool_decide_eq_true in Hall. destruct Hall as [[Hr Hc] Hl]. split; [done|]. left. eauto.
Qed.

Lemma base_channels_sound env c pubkey token skip ids ch :
  base_channels env c pubkey token skip = Ok ids -> ch ∈ ids -> channel_readable env c pubkey token ch.
Proof.
  unfold base_channels. intros (ids0 & Hids & [= <-])%bind_ok Hin.
  assert (ch ∈ ids0 /\ token_allows token ch = true) as [Hin0 Ht].
  { unfold token_allows. destruct token; cbn; [|done].
    apply elem_of_filter_bool in Hin. by rewrite bool_decide_eq_true in *. }
  split; [done|]. destruct skip; [injection Hids as <-; by apply elem_of_nil in Hin0|].
  unfold get_accessible_channel_ids_cached in Hids. destruct (env_cached_channels env) as [cached|].
  { injection Hids as <-. eauto. }
  destruct (env_channel_db env) as [db|]; [|done]. injection Hids as <-. right. exists db.
  split; [by left|by apply get_accessible_sound].
Qed.

Lemma resolve_sound accessible ch allows confirmed x :
  x ∈ (resolve_request_local_access accessible ch allows confirmed).1 ->
  x ∈ accessible \/ (x = ch /\ allows = true /\ confirmed = Some true).
Proof.
  unfold resolve_request_local_access. destruct allows; cbn; [|by left].
  case_bool_decide; cbn; [by left|]. destruct confirmed as [[|]|]; cbn; [|by left..].
  rewrite elem_of_app, list_elem_of_singleton. tauto.
Qed.

Lemma confirm_channels_sound env c pubkey token requested accessible out :
  confirm_channels env c pubkey token requested accessible = Some out ->
  (forall ch, ch ∈ accessible -> channel_readable env c pubkey token ch) ->
  forall ch, ch ∈ out -> channel_readable env c pubkey token ch.
Proof.
  revert accessible; induction requested as [|r requested IH]; intros accessible; cbn [confirm_channels].
  { by intros [= <-]. }
  destruct (negb _ || _).
  { intros Hc Hacc. apply (IH _ Hc). intros ch [?|(_ & _ & ?)]%resolve_sound; [auto|done]. }
  destruct (env_member_db env r) as [db|] eqn:Edb; [|done]. intros Hc Hacc. apply (IH _ Hc).
  intros ch [?|(-> & Ha & [= Hm])]%resolve_sound; [auto|]. split; [done|]. right. exists db.
  split; [by right|by apply is_member_sound].
Qed.

Lemma count_confirm_sound env c pubkey token requested accessible out :
  count_confirm env c pubkey token requested accessible = Some out ->
  (forall ch, ch ∈ accessible -> channel_readable env c pubkey token ch) ->
  forall ch, ch ∈ out -> channel_readable env c pubkey token ch.
Proof.
  revert accessible; induction requested as [|r requested IH]; intros accessible; cbn [count_confirm].
  { by intros [= <-]. }
  case_bool_decide; [apply IH|]. destruct (token_allows token r) eqn:Et.
  - destruct (env_member_db env r) as [db|] eqn:Edb; [|done]. intros Hc Hacc. apply (IH _ Hc).
    intros ch [?|(-> & _ & [= Hm])]%resolve_sound; [auto|]. split; [done|]. right. exists db.
    split; [by right|by apply is_member_sound].
  - intros Hc Hacc. apply (IH _ Hc). intros ch [?|(_ & ? & _)]%resolve_sound; [auto|done].
Qed.

(** ** What an accepted request has been checked for *)

Record admitted (env : ReadEnv) (conn : ConnectionState) (filters : list ReqFilter) (ctx : AuthContext)
    (accessible : list Uuid) : Prop := {
  ad_auth : cs_auth_state conn = Authenticated ctx;
  ad_scope : ac_scopes ctx = [] \/ MessagesRead ∈ ac_scopes ctx;
  ad_member : forall roster, roster = env_roster env \/ roster = env_roster_again env ->
    current_relay_membership_for_auth (env_cfg env) roster (rd_pk_bytes (ac_pubkey ctx))
      (rd_pk_bytes <$> ac_agent_owner_pubkey ctx) = Ok true;
  ad_channels : forall ch, ch ∈ accessible ->
    channel_readable env (cs_tenant conn) (rd_pk_bytes (ac_pubkey ctx)) (ac_channel_ids ctx) ch;
  ad_gates : extract_channel_id_from_filters filters = None ->
    gate_refusal filters (hex_encode (rd_pk_bytes (ac_pubkey ctx))) = None;
}.

(** The plan reached the end of the authorization. *)
Definition plan_reads (plan : ReqPlan) : option (list Uuid) :=
  match plan with
  | SearchFor accessible _ => Some accessible
  | Subscribe _ _ accessible _ => Some accessible
  | _ => None
  end.

Lemma req_dispatch_reads sub filters channel_id authorized accessible token pubkey acc :
  plan_reads (req_dispatch sub filters channel_id authorized accessible token pubkey) = Some acc ->
  acc = accessible /\ (channel_id = None -> gate_refusal filters (hex_encode pubkey) = None).
Proof.
  unfold req_dispatch. destruct (filters_are_huddle_liveness_only filters); [done|].
  case_bool_decide as Hch; subst; [destruct (gate_refusal _ _) eqn:Eg; [done|]|];
    repeat case_match; try done; by intros [= <-].
Qed.

Lemma req_plan_admitted env conn sub filters acc :
  plan_reads (req_plan env conn sub filters) = Some acc ->
  exists ctx authorized, admitted env conn filters ctx acc /\
    req_plan env conn sub filters =
      req_dispatch sub filters (extract_channel_id_from_filters filters) authorized acc (ac_channel_ids ctx)
        (rd_pk_bytes (ac_pubkey ctx)) /\
    forall chs, authorized = Some chs -> chs <> [] /\ forall ch, ch ∈ chs -> ch ∈ acc.
Proof.
  unfold req_plan. destruct (cs_auth_state conn) as [|ctx|] eqn:Ea; [done| |done].
  destruct (negb _ && _) eqn:Es; [done|]. destruct (bool_decide (cs_subscriptions conn !! sub = None) && _); [done|].
  destruct (current_relay_membership_for_auth _ (env_roster env) _ _) as [[|]|] eqn:E1; [|done..].
  destruct (extract_channel_ids_from_filters_limited filters) as [requested|]; [|done].
  destruct (base_channels _ _ _ _ _) as [base|] eqn:Eb; [|done].
  destruct (confirm_channels _ _ _ _ _ _) as [out|] eqn:Ec; [|done].
  destruct (bool_decide (_ <$> requested = Some [])) eqn:Ene; [done|]. apply bool_decide_eq_false in Ene.
  destruct (current_relay_membership_for_auth _ (env_roster_again env) _ _) as [[|]|] eqn:E2; [|done..].
  destruct (env_cancelled env); [done|]. intros [-> Hg]%req_dispatch_reads.
  eexists ctx, _. split; [|split; [reflexivity|]].
  2:{ intros chs Hchs. split; [by intros ->|]. intros ch. destruct requested; [|done]. injection Hchs as <-.
      rewrite elem_of_filter_bool, bool_decide_eq_true. tauto. }
  split; [done| | | |done].
  - apply andb_false_iff in Es. rewrite !negb_false_iff, Nat.eqb_eq, bool_decide_eq_true in Es.
    destruct Es as [?%nil_length_inv|?]; auto.
  - by intros roster [-> | ->].
  - apply (confirm_channels_sound _ _ _ _ _ _ _ Ec). intros ch. by apply base_channels_sound with (1 := Eb).
Qed.

Lemma req_dispatch_subscribe sub filters channel_id authorized accessible token pubkey ch scope acc reader :
  req_dispatch sub filters channel_id authorized accessible token pubkey = Subscribe ch scope acc reader ->
  ch = channel_id /\ scope = authorized /\ acc = accessible /\ reader = pubkey.
Proof.
  unfold req_dispatch. destruct (filters_are_huddle_liveness_only filters); [done|].
  repeat case_match; try done; by intros [= <- <- <- <-].
Qed.

Lemma req_plan_subscribe env conn sub filters ch scope acc reader :
  req_plan env conn sub filters = Subscribe ch scope acc reader ->
  exists ctx, admitted env conn filters ctx acc /\ ch = extract_channel_id_from_filters filters /\
    reader = rd_pk_bytes (ac_pubkey ctx) /\
    forall chs, scope = Some chs -> chs <> [] /\ forall x, x ∈ chs -> x ∈ acc.
Proof.
  intros Hp. destruct (req_plan_admitted env conn sub filters acc) as (ctx & authorized & Had & Heq & Hsc); [by rewrite Hp|].
  rewrite Hp in Heq. symmetry in Heq. apply req_dispatch_subscribe in Heq as (-> & -> & _ & ->). eauto.
Qed.

(** ** The pinned channel *)

Lemma scan_values_found vs found has found' has' :
  foldl scan_value (Some (found, has)) vs = Some (found', has') ->
  (forall ch, found = Some ch -> found' = Some ch) /\
  (forall v u, v ∈ vs -> uuid_parse_str v = Some u -> found' = Some u).
Proof.
  revert found has; induction vs as [|v vs IH]; intros found has; cbn [foldl].
  { intros [= -> ->]. split; [done|]. by intros ? ? ?%elem_of_nil. }
  setoid_rewrite elem_of_cons. cbn [scan_value]. destruct (uuid_parse_str v) as [u|] eqn:Eu.
  2:{ intros Hf. destruct (IH _ _ Hf) as [? Hv]. split; [done|]. intros v' u [->|?]; [congruence|eauto]. }
  assert (forall found0, (found0 = None \/ found0 = Some u) ->
    foldl scan_value (Some (Some u, true)) vs = Some (found', has') ->
    (forall ch, found0 = Some ch -> found' = Some ch) /\
    (forall v' u', v' = v \/ v' ∈ vs -> uuid_parse_str v' = Some u' -> found' = Some u')) as Hgo.
  { intros found0 Hf0 Hf. destruct (IH _ _ Hf) as [Hk Hv]. specialize (Hk u eq_refl). subst. split.
    - intros ch ->. destruct Hf0; congruence.
    - intros v' u' [->|?] Hp; [congruence|by apply Hv with (v := v')]. }
  destruct found as [existing|]; [case_bool_decide as He; subst|]; [apply Hgo; auto| |apply Hgo; auto].
  intros Hf. exfalso. clear -Hf. induction vs; [done|auto].
Qed.

Lemma extract_go_found filters found ch :
  extract_channel_id_go found filters = Some ch ->
  (forall u, found = Some u -> u = ch) /\
  forall f vs v u, f ∈ filters -> f_generic_tags (rf_filter f) !! h_tag = Some vs -> single_letter_to_string h_tag = "h" ->
    v ∈ vs -> uuid_parse_str v = Some u -> u = ch.
Proof.
  revert found; induction filters as [|f filters IH]; intros found; cbn [extract_channel_id_go].
  { intros ->. split; [by intros u [= ->]|]. by intros ? ? ? ? ?%elem_of_nil. }
  destruct (scan_filter found f) as [[found1 [|]]|] eqn:Es; [|done..].
  intros Hgo. destruct (IH _ Hgo) as [Hk Hrest]. unfold scan_filter in Es.
  apply scan_values_found in Es as [Hk1 Hv1]. split; [intros u ->; eauto|].
  intros g vs v u [->|Hg]%elem_of_cons Hvs Hh Hin Hu; [|eauto]. apply Hk, (Hv1 v); [|done].
  apply list_elem_of_In, in_concat. exists (elements vs). split; [|by apply list_elem_of_In, elem_of_elements].
  apply list_elem_of_In, list_elem_of_fmap. exists (h_tag, vs). split; [by rewrite bool_decide_true|].
  by apply elem_of_map_to_list.
Qed.

Lemma extract_channel_agrees filters f ch u :
  single_letter_to_string h_tag = "h" ->
  extract_channel_id_from_filters filters = Some ch -> f ∈ filters -> extract_channel_id_from_filter f = Some u -> u = ch.
Proof.
  intros Hh He Hf. unfold extract_channel_id_from_filter.
  destruct (f_generic_tags f !! h_tag) as [vs|] eqn:Evs; cbn; [|done].
  destruct (only_value vs) as [v|] eqn:Ev; cbn; [|done]. intros Hu.
  apply extract_go_found in He as [_ He]. apply (He f vs v u); try done.
  unfold only_value in Ev. destruct (elements vs) as [|w [|]] eqn:El; try done. injection Ev as ->.
  apply elem_of_elements. rewrite El. by left.
Qed.

Lemma per_filter_channel_pinned filters f ch :
  single_letter_to_string h_tag = "h" ->
  extract_channel_id_from_filters filters = Some ch -> f ∈ filters -> per_filter_channel f (Some ch) = Some ch.
Proof.
  intros Hh He Hf. unfold per_filter_channel. destruct (extract_channel_id_from_filter f) as [u|] eqn:Eu; [|done].
  by rewrite (extract_channel_agrees filters f ch u).
Qed.

(** ** The rows behind a delivery *)

Lemma query_where_row mentions q r :
  query_where mentions q r = true ->
  er_community_id r = q_community_id q /\ er_deleted_at r = None /\
  forall ch, q_channel_id q = Some ch -> er_channel_id r = Some ch.
Proof.
  unfold query_where, where_common. rewrite !andb_true_iff, !bool_decide_eq_true. intros Hw.
  destruct Hw as [[[Hw _] _] _]. destruct_and! Hw. split_and!; [done..|]. intros ch Hch.
  match goal with Hc : where_channel q r = true |- _ => unfold where_channel in Hc; rewrite Hch in Hc;
    unfold sql_in in Hc; destruct (er_channel_id r); [|done]; rewrite bool_decide_eq_true, list_elem_of_singleton in Hc end.
  by subst.
Qed.

Lemma history_query_fields c channel_id accessible reader before f :
  q_community_id (history_query c channel_id accessible reader before f) = c /\
  q_channel_id (history_query c channel_id accessible reader before f) = per_filter_channel f channel_id.
Proof.
  unfold history_query, apply_channel_scope_to_query, filter_to_query_params.
  repeat case_match; simplify_eq/=; done.
Qed.

Lemma row_to_stored_channel r stored : row_to_stored_event r = Ok (Some stored) -> se_channel_id stored = er_channel_id r.
Proof.
  unfold row_to_stored_event. destruct (negb _); [done|].
  destruct (event_from_json _ _ _ _ _ _); cbn; [|done]. by intros [= <-].
Qed.

(** A live row of the community that reads back as [stored]. *)
Definition served_row (db : EventDb) (c : CommunityId) (r : EventRow) (stored : StoredEvent) : Prop :=
  r ∈ db_events db /\ er_community_id r = c /\ er_deleted_at r = None /\ row_to_stored_event r = Ok (Some stored).

Lemma deliverable_spec f accessible reader stored :
  deliverable f accessible reader stored = true <->
  filter_accepts (rf_filter f) stored /\ (forall ch, se_channel_id stored = Some ch -> ch ∈ accessible) /\
  event_visible_to_reader (se_event stored) reader = true.
Proof.
  unfold deliverable. rewrite !if_false_then, negb_false_iff, filters_match_spec.
  setoid_rewrite list_elem_of_singleton. unfold is_some_and. split.
  - intros ((g & -> & Hacc) & Hch & Hv). split_and!; try done. intros ch Hc. rewrite Hc in Hch.
    by apply negb_false_iff, bool_decide_eq_true in Hch.
  - intros (Hacc & Hch & Hv). split_and!; eauto. destruct (se_channel_id stored); [|done].
    by apply negb_false_iff, bool_decide_eq_true, Hch.
Qed.
End delivery.

Section read_laws.
Context `{NostrLib, UuidLib, HexLib, ReadLib, StoreLib, FtsLib}
        `{!HexLaws, !ReadLaws, !TagLaws, !NostrLaws}.

Lemma h_tag_display : single_letter_to_string h_tag = "h".
Proof. unfold h_tag. by rewrite single_letter_text. Qed.

(** What the gates leave of a request that is not pinned to a channel. *)
Definition gated_read (reader : PublicKey) (f : ReqFilter) (e : Event) : Prop :=
  (ev_kind e ∈ P_GATED_KINDS -> has_ids f = true \/ addressed_to reader e) /\
  (ev_kind e = KIND_AGENT_ENGRAM -> has_ids f = true \/ ev_pubkey e = reader \/ addressed_to reader e).

Lemma gates_confine filters reader f stored :
  gate_refusal filters (hex_encode (rd_pk_bytes reader)) = None -> f ∈ filters ->
  filter_accepts (rf_filter f) stored -> gated_read reader f (se_event stored).
Proof.
  unfold gate_refusal, p_gated_filters_authorized, engram_filters_authorized. rewrite hex_encode_pk.
  destruct (forallb (p_gated_filter_ok _) _) eqn:Ep; [|done].
  destruct (forallb (engram_filter_ok _) _) eqn:Ee; [|done]. intros _ Hf Hacc.
  rewrite forallb_forall in Ep, Ee. apply list_elem_of_In in Hf. split.
  - by apply p_gated_confined; [apply Ep|].
  - by apply engram_confined; [apply Ee|].
Qed.

(** What is true of an event served to the principal of [ctx] for filter [f]. *)
Record served_to (env : ReadEnv) (conn : ConnectionState) (ctx : AuthContext) (filters : list ReqFilter)
    (f : ReqFilter) (r : EventRow) (stored : StoredEvent) : Prop := {
  sv_filter : f ∈ filters /\ filter_accepts (rf_filter f) stored;
  sv_visible : may_read (ac_pubkey ctx) (se_event stored);
  sv_channel : forall ch, er_channel_id r = Some ch ->
    channel_readable env (cs_tenant conn) (rd_pk_bytes (ac_pubkey ctx)) (ac_channel_ids ctx) ch;
  sv_gates : extract_channel_id_from_filters filters = None -> gated_read (ac_pubkey ctx) f (se_event stored);
}.

Lemma deliverable_served env conn ctx filters accessible f db r stored :
  admitted env conn filters ctx accessible -> f ∈ filters -> served_row db (cs_tenant conn) r stored ->
  deliverable f accessible (rd_pk_bytes (ac_pubkey ctx)) stored = true ->
  served_to env conn ctx filters f r stored.
Proof.
  intros Had Hf (_ & _ & _ & Hrow) (Hacc & Hch & Hv)%deliverable_spec. split; [done| | |].
  - by apply event_visible_spec.
  - intros ch Hc. apply (ad_channels _ _ _ _ _ Had), Hch. by rewrite (row_to_stored_channel r).
  - intros Hnone. by apply (gates_confine filters); [apply (ad_gates _ _ _ _ _ Had)|..].
Qed.

(** C3: every event a REQ delivers from history is a live row of the
    connection's own community, read by the query of a filter that matches it;
    its channel, if it has one, is within the token's scope and one a
    membership read of this very request showed the reader (a cache entry, the
    tables, or the confirmation); the reader may see it under the rules of the
    author-only, shared and result-gated kinds; when the request is not pinned
    to one channel, a p-gated event or an engram is addressed to (or written
    by) the reader or was asked for by id; when it is pinned, the row lies in
    that channel.  The authenticated principal had the read scope and was a
    relay member at both checks, and no event is delivered twice. *)
Theorem req_delivers_authorized env conn sub filters before channel_id scope accessible reader :
  req_plan env conn sub filters = Subscribe channel_id scope accessible reader ->
  let out := req_history env (cs_tenant conn) sub channel_id accessible reader before filters in
  NoDup (ev_id <$> sent_events out) /\
  exists ctx, admitted env conn filters ctx accessible /\
  forall e, e ∈ sent_events out -> exists n f db r stored,
    filters !! n = Some f /\ route_sees (env_route env n) db /\
    served_row db (cs_tenant conn) r stored /\ se_event stored = e /\
    served_to env conn ctx filters f r stored /\
    forall ch, channel_id = Some ch -> er_channel_id r = Some ch.
Proof.
  intros (ctx & Had & Hchan & Hreader & _)%req_plan_subscribe out. subst reader.
  destruct (history_loop_sound env (cs_tenant conn) sub channel_id accessible (rd_pk_bytes (ac_pubkey ctx))
              before 0 filters ∅ outbox_new) as [Hnd Hs].
  { split; [apply NoDup_nil_2|by intros e ?%elem_of_nil]. }
  split; [exact Hnd|]. exists ctx. split; [done|]. intros e He.
  destruct (Hs e He) as [?%elem_of_nil|(n & f & stored & events & Hf & Hst & <- & Hd & Hq)]; [done|].
  apply routed_ok in Hq as (db & Hsees & Hq).
  apply (query_events_elem _ _ _ stored) in Hq as (r & Hr & Hw & Hrow); [|done].
  apply query_where_row in Hw as (Hc & Hdel & Hpin).
  destruct (history_query_fields (cs_tenant conn) channel_id accessible (rd_pk_bytes (ac_pubkey ctx))
              (default None (before !! (0 + n)%nat)) f) as [Eqc Eqch].
  rewrite Eqc in Hc. rewrite Eqch in Hpin.
  assert (f ∈ filters) as Hin by by eapply list_elem_of_lookup_2.
  assert (served_row db (cs_tenant conn) r stored) as Hsv by done.
  exists n, f, db, r, stored. split_and!; try done.
  - by apply (deliverable_served env conn ctx filters accessible f db).
  - intros ch ->. apply Hpin. symmetry in Hchan.
    by apply (per_filter_channel_pinned filters); [apply h_tag_display|..].
Qed.
End read_laws.

(** * What a search request delivers: hits of the reader's own community, each
    re-read and checked before it is sent, at most [limit] per filter. *)

Lemma sum_cons (n : nat) l : list_sum (n :: l) = (n + list_sum l)%nat.
Proof. done. Qed.

Section search_delivery.
Context `{NostrLib, UuidLib, HexLib, ReadLib, StoreLib, FtsLib}.

Lemma rows_to_hits_elem query text rows hits id :
  rows_to_hits query text rows = Ok hits -> id ∈ (hit_event_id <$> hits) -> exists r, r ∈ rows /\ er_id r = id.
Proof.
  revert hits; induction rows as [|r rows IH]; intros hits; cbn [rows_to_hits].
  { intros [= <-] ?%elem_of_nil. done. }
  rewrite bind_ok. intros (hit & Hhit & Hk). apply bind_ok in Hk as (rest & Hrest & [= <-]).
  rewrite fmap_cons, elem_of_cons. setoid_rewrite elem_of_cons. intros [->|Hin].
  - exists r. split; [by left|]. unfold row_to_hit in Hhit. repeat case_match; try done. by injection Hhit as <-.
  - destruct (IH _ Hrest Hin) as (r' & ? & ?). eauto.
Qed.

(** A hit names a live, searchable row of the queried community. *)
Lemma search_hit_row db query ids found id :
  search_with_ids db query ids = Ok found -> id ∈ (hit_event_id <$> sr_hits found) ->
  exists t r, db = Some t /\ r ∈ db_events t /\ er_id r = id /\ er_community_id r = sq_community query /\
    er_deleted_at r = None /\ (er_kind r ∉ UNSEARCHABLE_KINDS) /\ where_scope (sq_channel_scope query) r = true.
Proof.
  unfold search_with_ids. destruct (normalized_search_text (sq_q query)) as [text|];
    [|intros [= <-] ?%elem_of_nil; done].
  destruct db as [t|]; [|done]. rewrite bind_ok. intros (hits & Hh & [= <-]) Hin. cbn [sr_hits] in Hin.
  destruct (rows_to_hits_elem _ _ _ _ _ Hh Hin) as (r & Hr & Hid).
  assert (r ∈ List.filter (search_where query ids text) (db_events t)) as Hf.
  { apply (elem_of_sort_by (hit_before query text (bool_decide (sq_mode query = Prefix) &&
      bool_decide (sq_kinds query = Some [0%Z]) && (count_chars text <=? 2)%nat))).
    apply subseteq_take in Hr. revert Hr. apply subseteq_drop. }
  apply elem_of_filter_bool in Hf as [Hdb Hw]. unfold search_where in Hw.
  rewrite !andb_true_iff, !bool_decide_eq_true in Hw. destruct_and! Hw.
  exists t, r. split_and!; try done. intros Hk. unfold search_tsv in *. rewrite bool_decide_true in * by done. done.
Qed.

Lemma event_map_get_elem events id stored :
  event_map_get events id = Some stored -> stored ∈ events /\ rd_id_bytes (ev_id (se_event stored)) = id.
Proof.
  unfold event_map_get. intros [Hin Hb]%find_some. apply in_rev in Hin.
  split; [by apply list_elem_of_In|by apply bool_decide_eq_true in Hb].
Qed.

Lemma get_by_ids_routed_elem rt c ids events stored :
  get_events_by_ids_routed rt c ids = Ok events -> stored ∈ events ->
  exists db r, route_sees rt db /\ served_row db c r stored /\ er_id r ∈ ids.
Proof.
  assert (forall db evs, get_events_by_ids_on db c ids = Ok evs -> route_sees rt db -> stored ∈ evs ->
    exists db r, route_sees rt db /\ served_row db c r stored /\ er_id r ∈ ids) as Hdb.
  { intros db evs Hget Hs Hin. destruct (get_events_by_ids_elem _ _ _ _ _ Hget Hin) as (r & ? & ? & ? & ? & ?).
    exists db, r. by split_and!. }
  assert (forall evs, get_events_by_ids_with_operation (rt_writer rt) c ids = Ok evs -> stored ∈ evs ->
    exists db r, route_sees rt db /\ served_row db c r stored /\ er_id r ∈ ids) as Hwriter.
  { intros evs. unfold get_events_by_ids_with_operation.
    destruct (_ =? _)%nat; [intros [= <-] ?%elem_of_nil; done|].
    rewrite on_session_ok. intros (db & Hw & Hget) Hin. apply (Hdb db evs); [done|by right|done]. }
  unfold get_events_by_ids_routed. destruct (rt_replica rt) as [session|] eqn:Er; [|apply Hwriter].
  destruct (on_session _ session) as [evs|] eqn:Eo; [|apply Hwriter].
  apply on_session_ok in Eo as (db & -> & Hget). intros [= ->]. apply (Hdb db); [done|by left].
Qed.

(** Delivered events of a page come from its hits; the count goes up by one for
    each and stays within the limit. *)
Lemma deliver_hits_sound queue sub f accessible reader limit events hits emitted seen ob ob' seen' emitted' stop :
  deliver_hits queue sub f accessible reader limit events hits emitted seen ob = (ob', seen', emitted', stop) ->
  distinct_ids seen ob -> (emitted <= limit)%N ->
  distinct_ids seen' ob' /\ (emitted <= emitted' <= limit)%N /\
  exists new, sent_events ob' = sent_events ob ++ new /\ (N.of_nat (length new) = emitted' - emitted)%N /\
  forall e, e ∈ new -> exists stored, stored ∈ events /\ se_event stored = e /\ deliverable f accessible reader stored = true /\
      rd_id_bytes (ev_id e) ∈ hits.
Proof.
  revert emitted seen ob; induction hits as [|id hits IH]; intros emitted seen ob; cbn [deliver_hits].
  { intros [= <- <- <- <-] ? ?. split_and!; try done; try lia. exists []. rewrite app_nil_r.
    split_and!; [done|cbn; lia|by intros e ?%elem_of_nil]. }
  setoid_rewrite elem_of_cons.
  destruct (limit <=? emitted)%N eqn:El.
  { intros [= <- <- <- <-] ? ?. split_and!; try done; try lia. exists []. rewrite app_nil_r.
    split_and!; [done|cbn; lia|by intros e ?%elem_of_nil]. }
  apply N.leb_gt in El.
  assert (deliver_hits queue sub f accessible reader limit events hits emitted seen ob = (ob', seen', emitted', stop) ->
    distinct_ids seen ob -> (emitted <= limit)%N ->
    distinct_ids seen' ob' /\ (emitted <= emitted' <= limit)%N /\
    exists new, sent_events ob' = sent_events ob ++ new /\ (N.of_nat (length new) = emitted' - emitted)%N /\
    forall e, e ∈ new -> exists stored, stored ∈ events /\ se_event stored = e /\ deliverable f accessible reader stored = true /\
        (rd_id_bytes (ev_id e) = id \/ rd_id_bytes (ev_id e) ∈ hits)) as Hskip.
  { intros Hd Hok Hle. destruct (IH _ _ _ Hd Hok Hle) as (? & ? & new & ? & ? & Hs). split_and!; try done; try lia.
    exists new. split_and!; try done. intros e He. destruct (Hs e He) as (st & ? & ? & ? & ?). exists st. auto. }
  destruct (event_map_get events id) as [stored|] eqn:Em; [|exact Hskip].
  apply event_map_get_elem in Em as [Hin Hid].
  destruct (deliverable f accessible reader stored) eqn:Ed; cbn [negb]; [|exact Hskip].
  case_bool_decide as Hseen; [exact Hskip|].
  pose proof (sent_events_send queue (event_message sub (se_event stored)) ob) as Hsent.
  pose proof (fun Hok => distinct_ids_push queue sub stored seen ob Hok Hseen) as Hpush.
  destruct (send queue _ ob) as [ob1 [|]] eqn:Es; cbn [fst snd] in *; cbn [omap list_omap sent_event] in Hsent.
  - intros Hd Hok Hle. destruct (IH _ _ _ Hd (Hpush Hok) ltac:(lia)) as (? & ? & new & Hnew & Hlen & Hs).
    split_and!; try done; try lia. exists (se_event stored :: new). rewrite Hnew, Hsent, <- app_assoc.
    split_and!; [done|cbn [length]; lia|]. intros e [->|He]%elem_of_cons.
    + exists stored. auto.
    + destruct (Hs e He) as (st & ? & ? & ? & ?). exists st. auto.
  - intros [= <- <- <- <-] Hok Hle. rewrite Hsent. split_and!; try lia; auto. exists []. cbn.
    split_and!; [done|lia|by intros e ?%elem_of_nil].
Qed.

(** Where a delivered search hit comes from: a live searchable row the index
    returned, re-read by id from the community's rows. *)
Definition hit_served (env : ReadEnv) (c : CommunityId) (f : ReqFilter) (accessible : list Uuid) (reader : string)
    (idx : nat) (e : Event) : Prop :=
  exists page t h db r stored,
    env_search env idx page = Some t /\ h ∈ db_events t /\ er_community_id h = c /\ er_deleted_at h = None /\
    (er_kind h ∉ UNSEARCHABLE_KINDS) /\ er_id h = rd_id_bytes (ev_id e) /\
    route_sees (env_hydrate env idx page) db /\ served_row db c r stored /\ se_event stored = e /\
    deliverable f accessible reader stored = true.

Lemma search_pages_sound env c sub idx f text scope accessible reader limit pages emitted seen ob ob' seen' stop :
  search_pages env c sub idx f text scope accessible reader limit pages emitted seen ob = (ob', seen', stop) ->
  distinct_ids seen ob -> (emitted <= limit)%N ->
  distinct_ids seen' ob' /\
  exists new, sent_events ob' = sent_events ob ++ new /\ (N.of_nat (length new) + emitted <= limit)%N /\
  Forall (hit_served env c f accessible reader idx) new.
Proof.
  revert emitted seen ob; induction pages as [|page pages IH]; intros emitted seen ob; cbn [search_pages].
  { intros [= <- <- <-] ? ?. split; [done|]. exists []. rewrite app_nil_r. split_and!; [done|cbn; lia|constructor]. }
  assert ((ob, seen, false) = (ob', seen', stop) -> distinct_ids seen ob -> (emitted <= limit)%N ->
    distinct_ids seen' ob' /\
    exists new, sent_events ob' = sent_events ob ++ new /\ (N.of_nat (length new) + emitted <= limit)%N /\
    Forall (hit_served env c f accessible reader idx) new) as Hend.
  { intros [= <- <- <-] ? ?. split; [done|]. exists []. rewrite app_nil_r. split_and!; [done|cbn; lia|constructor]. }
  destruct (limit <=? emitted)%N; [exact Hend|].
  destruct (search_with_ids _ _ _) as [found|] eqn:Es; [|exact Hend].
  destruct (_ =? 0)%nat; [exact Hend|].
  destruct (get_events_by_ids_routed _ _ _) as [events|] eqn:Eg; [|exact Hend].
  destruct (deliver_hits _ _ _ _ _ _ _ _ _ _ _) as [[[ob1 seen1] emitted1] stop1] eqn:Ed.
  clear Hend. intros Hnext Hok Hle.
  destruct (deliver_hits_sound _ _ _ _ _ _ _ _ _ _ _ _ _ _ _ Ed Hok Hle) as (Hok1 & Hle1 & new & Hnew & Hlen & Hs).
  assert (Forall (hit_served env c f accessible reader idx) new) as Hhere.
  { apply Forall_forall. intros e He. destruct (Hs e He) as (stored & Hst & Hse & Hd & Hid).
    destruct (get_by_ids_routed_elem _ _ _ _ _ Eg Hst) as (db & r & Hsees & Hrow & _).
    destruct (search_hit_row _ _ _ _ _ Es Hid) as (t & h & Ht & Hh & Hhid & Hhc & Hhd & Hhk & _).
    exists page, t, h, db, r, stored. by split_and!. }
  destruct stop1; [injection Hnext as <- <- <-; split; [done|exists new; split_and!; [done|lia|done]]|].
  destruct (_ <? _)%N; [injection Hnext as <- <- <-; split; [done|exists new; split_and!; [done|lia|done]]|].
  destruct (IH _ _ _ Hnext Hok1 ltac:(lia)) as (? & more & Hmore & ? & ?). split; [done|]. exists (new ++ more).
  rewrite Hmore, Hnew, <- app_assoc, length_app. split_and!; [done|lia|]. by apply Forall_app.
Qed.

(** What each filter of a search sends, in order: at most its limit, of hits
    served for it. *)
Definition batches_served (env : ReadEnv) (c : CommunityId) (accessible : list Uuid) (reader : string) (idx : nat)
    (filters : list ReqFilter) (batches : list (list Event)) : Prop :=
  length batches = length filters /\
  forall n f batch, filters !! n = Some f -> batches !! n = Some batch ->
    (N.of_nat (length batch) <= search_limit f)%N /\ Forall (hit_served env c f accessible reader (idx + n)) batch.

Lemma batches_cons env c accessible reader idx f filters batch batches :
  (N.of_nat (length batch) <= search_limit f)%N -> Forall (hit_served env c f accessible reader idx) batch ->
  batches_served env c accessible reader (S idx) filters batches ->
  batches_served env c accessible reader idx (f :: filters) (batch :: batches).
Proof.
  intros Hlen Hs [Hl Hb]. split; [cbn; by rewrite Hl|]. intros [|n] g b Hg Hbn; cbn in Hg, Hbn.
  - simplify_eq. by rewrite Nat.add_0_r.
  - rewrite Nat.add_succ_r. by apply (Hb n g b).
Qed.

Lemma batches_none env c accessible reader idx filters :
  batches_served env c accessible reader idx filters (replicate (length filters) []).
Proof.
  split; [apply length_replicate|]. intros n f batch _ [-> _]%lookup_replicate. split; [cbn; lia|constructor].
Qed.
Lemma concat_none {A} n : concat (replicate n (@nil A)) = [].
Proof. by induction n. Qed.

Lemma search_filters_sound env c sub all accessible reader idx filters seen ob :
  distinct_ids seen ob ->
  let out := search_filters env c sub all accessible reader idx filters seen ob in
  NoDup (ev_id <$> sent_events out) /\
  exists batches, sent_events out = sent_events ob ++ concat batches /\
    batches_served env c accessible reader idx filters batches.
Proof.
  revert idx seen ob; induction filters as [|f filters IH]; intros idx seen ob Hok; cbn [search_filters]; cbn zeta.
  { rewrite sent_events_eose. split; [apply Hok|]. exists []. rewrite app_nil_r. split; [done|]. by split. }
  assert (forall seen1 ob1 new, distinct_ids seen1 ob1 -> sent_events ob1 = sent_events ob ++ new ->
    (N.of_nat (length new) <= search_limit f)%N -> Forall (hit_served env c f accessible reader idx) new ->
    let out := search_filters env c sub all accessible reader (S idx) filters seen1 ob1 in
    NoDup (ev_id <$> sent_events out) /\
    exists batches, sent_events out = sent_events ob ++ concat batches /\
      batches_served env c accessible reader idx (f :: filters) batches) as Hgo.
  { intros seen1 ob1 new Hok1 Hnew Hlen Hs1. destruct (IH (S idx) seen1 ob1 Hok1) as (? & batches & Hout & Hb). cbn zeta.
    split; [done|]. exists (new :: batches). split; [|by apply batches_cons]. rewrite Hout, Hnew. cbn. by rewrite app_assoc. }
  assert (let out := search_filters env c sub all accessible reader (S idx) filters seen ob in
    NoDup (ev_id <$> sent_events out) /\
    exists batches, sent_events out = sent_events ob ++ concat batches /\
      batches_served env c accessible reader idx (f :: filters) batches) as Hskip.
  { apply (Hgo seen ob []); [done|by rewrite app_nil_r|cbn; lia|constructor]. }
  destruct (rf_search f) as [[|a text]|]; [exact Hskip| |exact Hskip].
  destruct (search_limit f =? 0)%N; [exact Hskip|].
  destruct (search_scope f accessible all) as [scope|]; [|exact Hskip].
  destruct (search_pages _ _ _ _ _ _ _ _ _ _ _ _ _ _) as [[ob1 seen1] stop] eqn:Ep.
  destruct (search_pages_sound _ _ _ _ _ _ _ _ _ _ _ _ _ _ _ _ _ Ep Hok ltac:(lia)) as (Hok1 & new & Hnew & Hlen1 & Hs1).
  destruct stop; [|apply (Hgo seen1 ob1 new); [done|done|lia|done]].
  split; [apply Hok1|]. exists (new :: replicate (length filters) []). cbn [concat]. rewrite concat_none, app_nil_r.
  split; [done|]. apply batches_cons; [lia|done|apply batches_none].
Qed.
End search_delivery.

Section search_laws.
Context `{NostrLib, UuidLib, HexLib, ReadLib, StoreLib, FtsLib}
        `{!HexLaws, !ReadLaws, !TagLaws, !NostrLaws}.

(** C24: every event a search request delivers is a live row of the connection's
    community that the index returned under a kind it is allowed to index, was
    re-read by id, matches the filter it was found for, lies in no channel or
    in one the reader may read, is visible to the reader and passed the gates;
    no event is delivered twice, and what is delivered is, filter by filter, the
    events found for that filter, at most as many as its own limit. *)
Theorem search_delivers_authorized env conn sub filters accessible include_global :
  req_plan env conn sub filters = SearchFor accessible include_global ->
  exists ctx, admitted env conn filters ctx accessible /\
  let out := handle_search_req env (cs_tenant conn) sub filters accessible include_global (rd_pk_bytes (ac_pubkey ctx)) in
  NoDup (ev_id <$> sent_events out) /\
  exists batches, sent_events out = concat batches /\ length batches = length filters /\
  forall n f batch, filters !! n = Some f -> batches !! n = Some batch ->
    (N.of_nat (length batch) <= search_limit f)%N /\
    forall e, e ∈ batch -> exists page t h db r stored,
      env_search env n page = Some t /\ h ∈ db_events t /\
      er_community_id h = cs_tenant conn /\ (er_kind h ∉ UNSEARCHABLE_KINDS) /\ er_id h = rd_id_bytes (ev_id e) /\
      route_sees (env_hydrate env n page) db /\ served_row db (cs_tenant conn) r stored /\ se_event stored = e /\
      served_to env conn ctx filters f r stored.
Proof.
  intros Hp. destruct (req_plan_admitted env conn sub filters accessible) as (ctx & _ & Had & _); [by rewrite Hp|].
  exists ctx. split; [done|]. unfold handle_search_req.
  destruct (build_search_channel_scope_filter accessible include_global) as [all|]; cbn zeta.
  2:{ rewrite sent_events_eose. split; [apply NoDup_nil_2|]. exists (replicate (length filters) []).
      rewrite concat_none, length_replicate. split_and!; [done..|]. intros n f batch _ [-> _]%lookup_replicate.
      split; [cbn; lia|by intros e ?%elem_of_nil]. }
  destruct (search_filters_sound env (cs_tenant conn) sub all accessible (rd_pk_bytes (ac_pubkey ctx)) 0 filters ∅ outbox_new)
    as (Hnd & batches & Hout & Hlen & Hb).
  { split; [apply NoDup_nil_2|by intros e ?%elem_of_nil]. }
  split; [exact Hnd|]. exists batches. split_and!; [exact Hout|exact Hlen|]. intros n f batch Hf Hbn.
  destruct (Hb n f batch Hf Hbn) as [Hle Hs]. split; [exact Hle|]. intros e He.
  rewrite Forall_forall in Hs. destruct (Hs e He) as (page & t & h & db & r & stored & Ht & Hh & Hhc & _ & Hhk & Hhid & Hsees & Hrow & Hse & Hd).
  exists page, t, h, db, r, stored. split_and!; try done.
  apply (deliverable_served env conn ctx filters accessible f db); [done|by eapply list_elem_of_lookup_2|done|done].
Qed.
End search_laws.
