(* ===== verification/ReadPush.v ===== *)
(** The [WHERE] clause of a filter's query, read back as a condition on the
    filter and the row, and the agreement of that condition with the matcher:
    pushing a filter into SQL loses no matching row whose [h] and [d] tags agree
    with the columns ([addressed]), and for a fully pushable filter selects no
    other. *)

From S2P Require Import Prelude Nostr Filter Auth ReadGate EventStore ReadQuery ReadReq ReadTheorems.

Section push.
Context `{NostrLib, UuidLib, HexLib, ReadLib, StoreLib, FtsLib}.

(** ** What the clause of a filter says *)

Record pushed (mentions : gset (CommunityId * string * string)) (c : CommunityId) (f : ReqFilter) (r : EventRow) : Prop := {
  pu_kinds : forall ks, f_kinds f = Some ks -> ks <> ∅ -> exists k, k ∈ ks /\ er_kind r = Z.of_N k;
  pu_authors : forall ps, f_authors f = Some ps -> ps <> ∅ -> exists p, p ∈ ps /\ er_pubkey r = rd_pk_bytes p;
  pu_ids : forall ids, f_ids f = Some ids -> ids <> ∅ -> exists i, i ∈ ids /\ er_id r = rd_id_bytes i;
  pu_since : forall s t, f_since f = Some s -> from_timestamp (as_i64_wrapped s) = Some t -> (t <= er_created_at r)%Z;
  pu_until : forall s t, f_until f = Some s -> from_timestamp (as_i64_wrapped s) = Some t -> (er_created_at r <= t)%Z;
  pu_e : forall vs, f_generic_tags f !! e_tag_key = Some vs -> vs <> ∅ ->
    exists v, v ∈ vs /\ tags_contain (er_tags r) "e" v = true;
  pu_p : forall v, f_generic_tags f !! p_tag = Some {[v]} -> (c, to_ascii_lowercase v, er_id r) ∈ mentions;
  pu_d : forall vs, f_generic_tags f !! d_tag_key = Some vs -> vs <> ∅ -> kinds_are_nip33 (elements <$> f_kinds f) = true ->
    exists v, v ∈ vs /\ er_d_tag r = Some v;
}.

Lemma elements_cases `{Countable A} (s : gset A) :
  (elements s = [] /\ s = ∅) \/ (exists a, elements s = [a] /\ s = {[a]}) \/
  (exists a b l, elements s = a :: b :: l /\ s <> ∅ /\ forall x, s <> {[x]}).
Proof.
  destruct (elements s) as [|a [|b l]] eqn:E.
  - left. split; [done|]. by apply elements_empty_inv, leibniz_equiv in E.
  - right; left. exists a. split; [done|]. apply set_eq. intros x. rewrite <- elem_of_elements, E.
    by rewrite list_elem_of_singleton, elem_of_singleton.
  - right; right. exists a, b, l. split; [done|]. split; [by intros ->; rewrite elements_empty in E|].
    intros x ->. by rewrite elements_singleton in E.
Qed.

Lemma only_value_spec `{Countable A} (s : gset A) v : only_value s = Some v <-> s = {[v]}.
Proof.
  unfold only_value. destruct (elements_cases s) as [[-> ->]|[(a & -> & ->)|(a & b & l & -> & Hne & Hn)]].
  - split; [done|]. intros Hs. exfalso. assert (v ∈ (∅ : gset A)) by (rewrite Hs; by apply elem_of_singleton). set_solver.
  - split; [by intros [= ->]|]. intros Hs%singleton_inj. by rewrite Hs.
  - split; [done|]. intros Hs. by destruct (Hn v).
Qed.

Lemma where_list_elements `{Countable A} `{EqDecision B} (g : A -> B) (s : gset A) (x : B) :
  where_list x (Some (g <$> elements s)) = true <-> (s <> ∅ -> exists a, a ∈ s /\ x = g a).
Proof.
  unfold where_list. case_bool_decide as Hnil.
  - apply fmap_nil_inv, elements_empty_inv, leibniz_equiv in Hnil. naive_solver.
  - rewrite bool_decide_eq_true, list_elem_of_fmap. setoid_rewrite elem_of_elements. split; [naive_solver|].
    intros Hx. destruct Hx as (a & ? & ?); [|eauto]. intros ->. by rewrite elements_empty in Hnil.
Qed.

Lemma where_authors f pin c (r : EventRow) :
  is_none_or (q_pubkey (filter_to_query_params f pin c)) (fun pk => bool_decide (er_pubkey r = pk)) &&
  where_list (er_pubkey r) (q_authors (filter_to_query_params f pin c)) = true <->
  forall ps, f_authors f = Some ps -> ps <> ∅ -> exists p, p ∈ ps /\ er_pubkey r = rd_pk_bytes p.
Proof.
  unfold filter_to_query_params. destruct (f_authors f) as [ps|]; cbn [fmap option_fmap option_map];
    [|destruct (if kinds_are_nip33 _ then _ else _); cbn; naive_solver].
  pose proof (where_list_elements rd_pk_bytes ps (er_pubkey r)) as Hl.
  destruct (elements_cases ps) as [[E ->]|[(a & E & ->)|(a & b & l & E & Hne & _)]];
    rewrite E in *; destruct (if kinds_are_nip33 _ then _ else _); cbn [q_pubkey q_authors is_none_or].
  - cbn. naive_solver.
  - change (where_list (er_pubkey r) None) with true. rewrite andb_true_r, bool_decide_eq_true. split.
    + intros -> ps [= <-] _. exists a. set_solver.
    + intros Hp. destruct (Hp _ eq_refl) as (p & ->%elem_of_singleton & ?); [set_solver|done].
  - cbn [andb]. rewrite Hl. naive_solver.
Qed.

Lemma where_d f pin c (r : EventRow) :
  where_d_tag (filter_to_query_params f pin c) r = true <->
  forall vs, f_generic_tags f !! d_tag_key = Some vs -> vs <> ∅ -> kinds_are_nip33 (elements <$> f_kinds f) = true ->
    exists v, v ∈ vs /\ er_d_tag r = Some v.
Proof.
  unfold filter_to_query_params.
  destruct (match elements <$> f_authors f with Some [a] => _ | Some (_ :: _) => _ | _ => _ end) as [pubkey authors].
  destruct (kinds_are_nip33 _); [|cbn; naive_solver].
  destruct (f_generic_tags f !! d_tag_key) as [vs|]; cbn [fmap option_fmap option_map]; [|cbn; naive_solver].
  assert (forall d, sql_in (er_d_tag r) (elements (vs : gset string)) = true ->
    forall vs', Some vs = Some vs' -> vs' <> ∅ -> d = true -> exists v, v ∈ vs' /\ er_d_tag r = Some v) as Hin.
  { intros d. unfold sql_in. destruct (er_d_tag r) as [v|]; [|done]. rewrite bool_decide_eq_true, elem_of_elements.
    intros Hv vs' [= <-] _ _. eauto. }
  destruct (elements_cases vs) as [[E ->]|[(a & E & ->)|(a & b & l & E & Hne & _)]]; rewrite E in *;
    cbn [q_d_tag q_d_tags where_d_tag]; unfold where_d_tag; cbn [q_d_tag q_d_tags].
  - naive_solver.
  - split; [intros Hs vs' Hvs Hne' Ht; by apply (Hin true)|]. intros Hp.
    destruct (Hp _ eq_refl) as (v & ->%elem_of_singleton & ->); [set_solver|done|].
    cbn. by apply bool_decide_eq_true, list_elem_of_singleton.
  - rewrite bool_decide_false by done. split; [intros Hs vs' Hvs Hne' Ht; by apply (Hin true)|]. intros Hp.
    destruct (Hp _ eq_refl Hne eq_refl) as (v & Hv & ->). cbn. rewrite bool_decide_eq_true, <- E. by apply elem_of_elements.
Qed.

(** The other fields of a filter's query. *)
Lemma params_fields f pin c :
  let q := filter_to_query_params f pin c in
  q_community_id q = c /\ q_channel_id q = pin /\ q_global_only q = false /\ q_channel_ids q = None /\
  q_kinds q = (fun ks => Z.of_N <$> elements ks) <$> f_kinds f /\
  q_since q = (f_since f ≫= fun s => from_timestamp (as_i64_wrapped s)) /\
  q_until q = (f_until f ≫= fun u => from_timestamp (as_i64_wrapped u)) /\
  q_p_tag_hex q = f_generic_tags f !! p_tag ≫= only_value /\
  q_ids q = (f_ids f ≫= fun ids => if set_is_empty ids then None else Some (rd_id_bytes <$> elements ids)) /\
  q_e_tags q = (f_generic_tags f !! e_tag_key ≫= fun vs => if set_is_empty vs then None else Some (elements vs)) /\
  q_custom_tag q = None /\ q_before_id q = None /\ q_shared_gated_reader q = None /\ q_offset q = None /\
  q_channel_ids_include_global q = true /\ q_max_limit q = None.
Proof.
  unfold filter_to_query_params.
  destruct (match elements <$> f_authors f with Some [a] => _ | Some (_ :: _) => _ | _ => _ end) as [pubkey authors].
  destruct (if kinds_are_nip33 _ then _ else _) as [d ds]. cbn. split_and!; try done. by destruct (f_kinds f).
Qed.

Lemma where_ids f (r : EventRow) :
  where_list (er_id r) (f_ids f ≫= fun ids => if set_is_empty ids then None else Some (rd_id_bytes <$> elements ids)) = true <->
  forall ids, f_ids f = Some ids -> ids <> ∅ -> exists i, i ∈ ids /\ er_id r = rd_id_bytes i.
Proof.
  destruct (f_ids f) as [ids|]; cbn [mbind option_bind]; [|cbn; naive_solver].
  unfold set_is_empty. case_bool_decide; [cbn; naive_solver|].
  rewrite where_list_elements. naive_solver.
Qed.

Lemma where_e f q (r : EventRow) :
  q_e_tags q = (f_generic_tags f !! e_tag_key ≫= fun vs => if set_is_empty vs then None else Some (elements vs)) ->
  where_e_tags q r = true <->
  forall vs, f_generic_tags f !! e_tag_key = Some vs -> vs <> ∅ ->
    exists v, v ∈ vs /\ tags_contain (er_tags r) "e" v = true.
Proof.
  intros Hq. unfold where_e_tags. rewrite Hq. destruct (f_generic_tags f !! e_tag_key) as [vs|]; cbn [mbind option_bind]; [|naive_solver].
  unfold set_is_empty. case_bool_decide as Hvs; [naive_solver|].
  rewrite bool_decide_false by (intros ?%elements_empty_inv%leibniz_equiv; done).
  rewrite existsb_elements. naive_solver.
Qed.

Lemma where_kinds f (r : EventRow) :
  where_list (er_kind r) ((fun ks => Z.of_N <$> elements ks) <$> f_kinds f) = true <->
  forall ks, f_kinds f = Some ks -> ks <> ∅ -> exists k, k ∈ ks /\ er_kind r = Z.of_N k.
Proof.
  destruct (f_kinds f) as [ks|]; cbn [fmap option_fmap option_map]; [|cbn; naive_solver].
  rewrite where_list_elements. naive_solver.
Qed.

(** The clause the filter contributes, whatever pin and scope accompany it. *)
Lemma push_where mentions f pin c r :
  let q := filter_to_query_params f pin c in
  where_common mentions q r && is_none_or (q_until q) (fun u => (er_created_at r <=? u)%Z) = true <->
  er_community_id r = c /\ er_deleted_at r = None /\ (forall ch, pin = Some ch -> er_channel_id r = Some ch) /\
  pushed mentions c f r.
Proof.
  intros q. destruct (params_fields f pin c) as (Ec & Epin & Eg & Eids & Ek & Es & Eu & Ep & Ei & Ee & _).
  pose proof (where_e f q r Ee) as He. fold q in Ec, Epin, Eg, Eids, Ek, Es, Eu, Ep, Ei.
  unfold where_common. rewrite !andb_true_iff, !bool_decide_eq_true.
  assert (where_channel_ids q r = true) as Hids by (unfold where_channel_ids; by rewrite Eids).
  pose proof (where_authors f pin c r) as Ha. rewrite andb_true_iff in Ha. fold q in Ha.
  pose proof (where_d f pin c r) as Hd. fold q in Hd.
  assert (where_channel q r = true <-> forall ch, pin = Some ch -> er_channel_id r = Some ch) as Hch.
  { unfold where_channel. rewrite Epin, Eg. destruct pin as [ch|]; [|naive_solver]. unfold sql_in.
    destruct (er_channel_id r) as [x|]; [|naive_solver]. rewrite bool_decide_eq_true, list_elem_of_singleton. naive_solver. }
  assert (where_mention mentions q r = true <->
    forall v, f_generic_tags f !! p_tag = Some {[v]} -> (c, to_ascii_lowercase v, er_id r) ∈ mentions) as Hm.
  { unfold where_mention. rewrite is_none_or_spec, Ep, Ec. setoid_rewrite bool_decide_eq_true.
    destruct (f_generic_tags f !! p_tag) as [vs|]; cbn [mbind option_bind]; [|naive_solver].
    setoid_rewrite only_value_spec. naive_solver. }
  rewrite Hch, Hm, He, Hd, Ek, Ei, Es, Eu, Ec, where_kinds, where_ids, !is_none_or_spec.
  setoid_rewrite Z.leb_le. setoid_rewrite bind_Some. rewrite is_none_or_spec in Ha. split.
  - intros ((((((((((((Hc & Hdel) & Hmen) & Hpin) & _) & Hk) & Hpk) & Hau) & Hid) & Het) & Hsi) & Hdt) & Hun).
    split_and!; try done. split; try done; [by apply Ha|eauto..].
  - intros (? & ? & ? & [Hk Hau Hid Hsi Hun Het Hmen Hdt]). apply Ha in Hau as [Hpk Hau].
    split_and!; try done; intros t (x & Hx & Ht); eauto.
Qed.

(** Adding a channel scope to a query adds that condition only. *)
Lemma where_common_scope mentions q ids g r :
  q_channel_ids q = None ->
  where_common mentions (with_channel_ids ids g q) r = where_common mentions q r && where_channel_ids (with_channel_ids ids g q) r.
Proof.
  intros Hq. unfold where_common. change (where_mention mentions (with_channel_ids ids g q) r) with (where_mention mentions q r).
  change (where_channel (with_channel_ids ids g q) r) with (where_channel q r).
  change (where_e_tags (with_channel_ids ids g q) r) with (where_e_tags q r).
  change (where_d_tag (with_channel_ids ids g q) r) with (where_d_tag q r).
  cbn [with_channel_ids q_community_id q_kinds q_pubkey q_authors q_ids q_since].
  assert (where_channel_ids q r = true) as -> by (unfold where_channel_ids; by rewrite Hq).
  destruct (where_channel_ids (with_channel_ids ids g q) r); rewrite ?andb_true_r, ?andb_false_r; [done|].
  by rewrite !andb_false_l.
Qed.
End push.

(** ** Rows and the events they were written from *)

Section rows.
Context `{NostrLib, UuidLib, HexLib, ReadLib, StoreLib, FtsLib}.

(** The row holds the columns of the event it reads back as, and the mention
    index holds the lower-cased well-formed keys of the event's [p] tags. *)
Record indexed (mentions : gset (CommunityId * string * string)) (r : EventRow) (stored : StoredEvent) : Prop := {
  ix_read : row_to_stored_event r = Ok (Some stored);
  ix_id : er_id r = rd_id_bytes (ev_id (se_event stored));
  ix_pubkey : er_pubkey r = rd_pk_bytes (ev_pubkey (se_event stored));
  ix_kind : er_kind r = Z.of_N (ev_kind (se_event stored));
  ix_created : er_created_at r = Z.of_N (ev_created_at (se_event stored));
  ix_time : (ev_created_at (se_event stored) < 2 ^ 63)%N;
  ix_id_range : (ev_id (se_event stored) < 2 ^ 256)%N;
  ix_tags : er_tags r = ev_tags (se_event stored);
  ix_d_tag : er_d_tag r = extract_d_tag (se_event stored);
  ix_mentions : forall w, (er_community_id r, w, er_id r) ∈ mentions <->
    exists t v, t ∈ ev_tags (se_event stored) /\ named_value "p" t = Some v /\ valid_mention v = true /\ w = to_ascii_lowercase v;
}.

(** The tags of the event that a filter's [#h] and [#d] clauses read agree with
    the columns SQL reads in their place: under an [#h] clause its [h] tags, if
    it has any, print its stored channel, and under a [#d] clause an addressable
    event has one [d] value.  The relay also stores events for which this fails
    (an [h] tag on a kind that is stored without a channel, a second [d] tag),
    so it is a condition on the row and never part of [well_stored]. *)
Record addressed (f : ReqFilter) (stored : StoredEvent) : Prop := {
  ad_h : f_generic_tags f !! h_tag <> None -> forall t, t ∈ ev_tags (se_event stored) -> tag_kind_string t = "h" ->
    tag_content t = uuid_to_string <$> se_channel_id stored;
  ad_d : f_generic_tags f !! d_tag_key <> None -> is_parameterized_replaceable (ev_kind (se_event stored)) = true ->
    forall t v, t ∈ ev_tags (se_event stored) -> named_value "d" t = Some v -> extract_d_tag (se_event stored) = Some v;
}.

(** A filter whose upper time bound fits the database's integers and whose [p]
    value, when there is just one, is a public key; its ids are 32 bytes and
    its tag keys letters, as the types of the source have them. *)
Record pushable_bounds (f : ReqFilter) : Prop := {
  pb_until : forall u, f_until f = Some u -> (u < 2 ^ 63)%N;
  pb_p : forall v, f_generic_tags f !! p_tag = Some {[v]} -> valid_mention v = true;
  pb_ids : forall ids i, f_ids f = Some ids -> i ∈ ids -> (i < 2 ^ 256)%N;
  pb_letters : forall k vs, f_generic_tags f !! k = Some vs -> is_ascii_uppercase (slt_character k) = true;
}.

Context `{!TagLaws, !NostrLaws, !StoreLaws}.

Lemma named_value_tag c t v : named_value (String c "") t = Some v <-> tag_kind_string t = String c "" /\ tag_content t = Some v.
Proof.
  rewrite tag_kind_letter, tag_content_second. unfold named_value.
  destruct t as [|a [|b t]]; cbn; [naive_solver..|]. case_bool_decide; naive_solver.
Qed.

Lemma tag_hit_named ev c vs :
  tag_hit ev (String c "") vs <-> exists t v, t ∈ ev_tags (se_event ev) /\ named_value (String c "") t = Some v /\ v ∈ vs.
Proof. unfold tag_hit. setoid_rewrite named_value_tag. naive_solver. Qed.

Lemma d_tag_display : single_letter_to_string d_tag_key = "d".
Proof. unfold d_tag_key. by rewrite single_letter_text. Qed.
Lemma e_tag_display : single_letter_to_string e_tag_key = "e".
Proof. unfold e_tag_key. by rewrite single_letter_text. Qed.

(** A clause other than [h] is met by a tag. *)
Lemma accepts_tag (f : Filter) stored k c vs :
  filter_accepts f stored -> f_generic_tags f !! k = Some vs -> single_letter_to_string k = String c "" ->
  String c "" <> "h" ->
  exists t v, t ∈ ev_tags (se_event stored) /\ named_value (String c "") t = Some v /\ v ∈ vs.
Proof.
  intros Hacc Hk Hd Hne. destruct (fa_tags _ _ Hacc _ _ Hk) as [Ht|(Hh & _)]; rewrite Hd in *; [|done].
  by apply tag_hit_named.
Qed.

(** The id clause is exact membership. *)
Lemma accepts_id (f : Filter) stored ids :
  filter_accepts f stored -> f_ids f = Some ids -> (ev_id (se_event stored) < 2 ^ 256)%N ->
  (forall i, i ∈ ids -> (i < 2 ^ 256)%N) -> ev_id (se_event stored) ∈ ids.
Proof.
  intros Hacc Hi Hid Hids. destruct (fa_ids _ _ Hacc _ Hi) as (i & Hin & Hpre).
  apply starts_with_same_length in Hpre; [|apply event_id_hex_length].
  apply event_id_hex_inj in Hpre; [by subst|auto|done].
Qed.

(** No matching row is lost to the clause. *)
Lemma accepts_pushed mentions (f : ReqFilter) r stored :
  indexed mentions r stored -> addressed f stored -> pushable_bounds f ->
  filter_accepts f stored -> pushed mentions (er_community_id r) f r.
Proof.
  intros [Hread Hid Hpk Hk Hcr Htm Hrange Htags Hd Hm] [_ Had] [Hu Hp Hi256 _] Hacc. split.
  - intros ks Hks _. eexists. split; [by apply (fa_kinds _ _ Hacc)|done].
  - intros ps Hps _. eexists. split; [by apply (fa_authors _ _ Hacc)|done].
  - intros ids Hi _. eexists. split; [by apply (accepts_id f stored); eauto|done].
  - intros s t Hs Ht. pose proof (fa_since _ _ Hacc _ Hs) as Hle.
    rewrite as_i64_small in Ht by lia. apply from_timestamp_secs in Ht as ->. rewrite Hcr. lia.
  - intros s t Hs Ht. pose proof (fa_until _ _ Hacc _ Hs) as Hle. specialize (Hu _ Hs).
    rewrite as_i64_small in Ht by lia. apply from_timestamp_secs in Ht as ->. rewrite Hcr. lia.
  - intros vs Hvs _.
    destruct (accepts_tag f stored _ _ _ Hacc Hvs e_tag_display) as (t & v & Ht & Hn & Hv); [done|].
    exists v. split; [done|]. rewrite Htags. apply existsb_elem_of. exists t. split; [done|].
    unfold named_value in Hn. destruct (_ && _) eqn:E; [|done]. apply andb_true_iff in E as [_ E%bool_decide_eq_true].
    apply andb_true_iff; split; apply bool_decide_eq_true; by eapply list_elem_of_lookup_2.
  - intros v Hv. destruct (accepts_tag f stored _ _ _ Hacc Hv p_tag_display) as (t & w & Ht & Hn & ->%elem_of_singleton); [done|].
    apply Hm. exists t, v. auto.
  - intros vs Hvs _ Hn33.
    destruct (accepts_tag f stored _ _ _ Hacc Hvs d_tag_display) as (t & v & Ht & Hn & Hv); [done|].
    exists v. split; [done|]. rewrite Hd. apply (Had ltac:(by rewrite Hvs)) with t; [|done..].
    unfold kinds_are_nip33, is_some_and in Hn33. destruct (f_kinds f) as [ks|] eqn:Ek; [|done]. cbn in Hn33.
    apply andb_true_iff in Hn33 as [_ Hall]. rewrite forallb_elements in Hall. by apply Hall, (fa_kinds _ _ Hacc).
Qed.

Context `{!UuidRound, !HexLaws, !ReadLaws}.

(** An [h] clause is met by the event's channel. *)
Lemma accepts_h (f : ReqFilter) stored vs :
  filter_accepts f stored -> addressed f stored -> f_generic_tags f !! h_tag = Some vs ->
  exists ch, se_channel_id stored = Some ch /\ uuid_to_string ch ∈ vs.
Proof.
  intros Hacc [Hh _] Hvs. pose proof (fa_tags _ _ Hacc _ _ Hvs) as Hc. rewrite h_tag_display in Hc.
  destruct Hc as [(t & v & Ht & Hk & Hv & Hin)|(_ & _ & ch & ? & ?)]; [|eauto].
  rewrite (Hh ltac:(by rewrite Hvs) t Ht Hk) in Hv. destruct (se_channel_id stored) as [ch|]; [|done]. injection Hv as <-. eauto.
Qed.

Lemma authorized_h_elem vs accessible ch :
  ch ∈ authorized_h vs accessible <-> ch ∈ accessible /\ exists v, v ∈ vs /\ uuid_parse_str v = Some ch.
Proof.
  unfold authorized_h. rewrite elem_of_filter_bool, bool_decide_eq_true, list_elem_of_omap.
  setoid_rewrite elem_of_elements. naive_solver.
Qed.

Lemma single_letter_inj j k :
  is_ascii_uppercase (slt_character j) = true -> is_ascii_uppercase (slt_character k) = true ->
  single_letter_to_string j = single_letter_to_string k -> j = k.
Proof.
  assert (forall a, is_ascii_uppercase a = true -> (65 <= N_of_ascii a <= 90)%N) as Hr.
  { intros a Ha. unfold is_ascii_uppercase in Ha. rewrite andb_true_iff, !N.leb_le in Ha. lia. }
  assert (forall n, (n < 256)%N -> N_of_ascii (ascii_of_N n) = n) as Ha by (intros; by apply N_ascii_embedding).
  intros Hj Hk. rewrite !single_letter_text by done. intros [= Heq].
  apply (f_equal N_of_ascii) in Heq. destruct j as [cj uj], k as [ck uk]; cbn in *.
  pose proof (Hr _ Hj). pose proof (Hr _ Hk).
  assert (N_of_ascii cj = N_of_ascii ck /\ uj = uk) as [Hc ->].
  { destruct uj, uk; rewrite ?Ha in Heq by lia; split; try done; lia. }
  f_equal. by rewrite <- (ascii_N_embedding cj), <- (ascii_N_embedding ck), Hc.
Qed.

Lemma scan_values_none vs found : (forall v, v ∉ vs) -> foldl scan_value (Some (found, false)) vs = Some (found, false).
Proof. destruct vs as [|v vs]; [done|]. intros Hn. destruct (Hn v). by left. Qed.

(** A request pinned to a channel has an [h] clause in every filter. *)
Lemma no_h_no_pin filters (f : ReqFilter) ch :
  extract_channel_id_from_filters filters = Some ch -> f ∈ filters ->
  (forall k vs, f_generic_tags f !! k = Some vs -> is_ascii_uppercase (slt_character k) = true) ->
  f_generic_tags f !! h_tag <> None.
Proof.
  unfold extract_channel_id_from_filters. generalize (@None N) as found.
  induction filters as [|g filters IH]; intros found; [by intros _ ?%elem_of_nil|]. cbn [extract_channel_id_go].
  destruct (scan_filter found g) as [[found1 [|]]|] eqn:Es; [|done..].
  intros Hgo [->|Hf]%elem_of_cons Hl Hnone; [|by eapply IH]. unfold scan_filter in Es.
  rewrite scan_values_none in Es; [done|]. intros v Hv.
  apply list_elem_of_In, in_concat in Hv as (l & Hl1 & Hl2). apply list_elem_of_In, list_elem_of_fmap in Hl1 as ([k vs] & -> & Hin).
  apply elem_of_map_to_list in Hin. case_bool_decide as Hk; [|done].
  rewrite <- h_tag_display in Hk. apply single_letter_inj in Hk as ->; [congruence|by eapply Hl|done].
Qed.

(** The channel condition of a history query holds of every deliverable row. *)
Lemma deliverable_scope filters channel_id accessible reader (f : ReqFilter) r stored q :
  channel_id = extract_channel_id_from_filters filters -> f ∈ filters -> pushable_bounds f -> addressed f stored ->
  se_channel_id stored = er_channel_id r -> deliverable f accessible reader stored = true ->
  q_channel_ids q = None -> q_channel_ids_include_global q = true ->
  (forall ch, per_filter_channel f channel_id = Some ch -> er_channel_id r = Some ch) /\
  where_channel_ids (apply_channel_scope_to_query q f (per_filter_channel f channel_id) accessible) r = true.
Proof.
  intros Hch Hf [_ _ _ Hletters] Had Hrow (Hacc & Hvis & _)%deliverable_spec Hq Hg.
  assert (forall vs v u, f_generic_tags f !! h_tag = Some vs -> vs = {[v]} -> uuid_parse_str v = Some u -> er_channel_id r = Some u) as Hone.
  { intros vs v u Hvs -> Hu. destruct (accepts_h f stored _ Hacc Had Hvs) as (ch & Hs & Hin%elem_of_singleton).
    rewrite <- Hin, uuid_round in Hu. congruence. }
  split.
  - intros ch. unfold per_filter_channel, extract_channel_id_from_filter.
    destruct (f_generic_tags f !! h_tag) as [vs|] eqn:Evs; cbn [mbind option_bind].
    + destruct (only_value vs) as [v|] eqn:Ev; cbn [mbind option_bind].
      * apply only_value_spec in Ev. destruct (uuid_parse_str v) as [u|] eqn:Eu; [intros [= <-]; eauto|].
        intros _. destruct (accepts_h f stored _ Hacc Had Evs) as (ch' & Hs & Hin). subst vs.
        apply elem_of_singleton in Hin. by rewrite <- Hin, uuid_round in Eu.
      * intros ->. destruct (accepts_h f stored _ Hacc Had Evs) as (ch' & Hs & Hin). symmetry in Hch.
        apply extract_go_found in Hch as [_ Hall]. rewrite <- Hrow, Hs. f_equal.
        apply (Hall f vs (uuid_to_string ch') ch'); [done|done|apply h_tag_display|done|apply uuid_round].
    + intros ->. symmetry in Hch. by destruct (no_h_no_pin filters f ch).
  - unfold apply_channel_scope_to_query. destruct (per_filter_channel f channel_id).
    { unfold where_channel_ids. by rewrite Hq. }
    destruct (f_generic_tags f !! h_tag) as [vs|] eqn:Evs; unfold where_channel_ids; cbn [with_channel_ids q_channel_ids q_channel_ids_include_global].
    + destruct (accepts_h f stored _ Hacc Had Evs) as (ch & Hs & Hin).
      assert (ch ∈ authorized_h vs accessible) as Ha.
      { apply authorized_h_elem. split; [by apply Hvis|]. exists (uuid_to_string ch). split; [done|apply uuid_round]. }
      rewrite bool_decide_false by (intros Hnil; rewrite Hnil in Ha; by apply elem_of_nil in Ha).
      cbn [andb orb]. rewrite <- Hrow, Hs. cbn. by apply bool_decide_eq_true.
    + rewrite Hg, <- Hrow. destruct (se_channel_id stored) as [ch|] eqn:Es.
      * specialize (Hvis ch eq_refl). rewrite bool_decide_false by (intros ->; by apply elem_of_nil in Hvis).
        apply orb_true_iff. right. cbn. by apply bool_decide_eq_true.
      * rewrite (bool_decide_true (None = None)) by done. by case_bool_decide.
Qed.

Lemma visible_shared mentions r stored reader q :
  indexed mentions r stored -> event_visible_to_reader (se_event stored) reader = true ->
  (q_shared_gated_reader q = None \/ q_shared_gated_reader q = Some reader) -> where_shared q r = true.
Proof.
  intros Hix Hv Hq. unfold where_shared. apply is_none_or_spec. intros rd Hrd.
  destruct Hq as [Hq|Hq]; rewrite Hq in Hrd; [done|]. injection Hrd as <-.
  rewrite !orb_true_iff, negb_true_iff, bool_decide_eq_false, bool_decide_eq_true.
  unfold event_visible_to_reader in Hv. destruct (is_author_only_event _ _); [done|].
  destruct (is_unshared_gated_event _ _) eqn:Eu; [done|]. clear Hv. unfold is_unshared_gated_event in Eu.
  rewrite (ix_pubkey _ _ _ Hix), (ix_tags _ _ _ Hix).
  destruct (is_shared_gated_kind _) eqn:Eg; cbn [negb] in Eu.
  - case_bool_decide as Hpk; [by left; right|]. apply negb_false_iff, event_is_shared_spec in Eu as (pre & post & -> & _).
    right. apply existsb_elem_of. exists ["shared"; "true"]. split; [set_solver|done].
  - left; left. unfold is_shared_gated_kind in Eg. apply bool_decide_eq_false in Eg.
    rewrite (ix_kind _ _ _ Hix), list_elem_of_fmap. intros (k & Heq%N2Z.inj & Hk). by rewrite Heq in Eg.
Qed.

(** ** The page of a filter holds every row it can deliver *)

Lemma deliverable_selected filters channel_id accessible reader (f : ReqFilter) mentions r stored c :
  channel_id = extract_channel_id_from_filters filters -> f ∈ filters -> pushable_bounds f ->
  indexed mentions r stored -> addressed f stored -> er_community_id r = c -> er_deleted_at r = None ->
  deliverable f accessible reader stored = true ->
  query_where mentions (history_query c channel_id accessible reader None f) r = true.
Proof.
  intros Hch Hf Hpb Hix Had Hc Hdel Hd.
  remember (per_filter_channel f channel_id) as pin eqn:Epin. set (q0 := with_before_id None (filter_to_query_params f pin c)).
  destruct (params_fields f pin c) as (_ & _ & _ & Eids & _ & _ & _ & _ & _ & _ & Ecust & Ebef & Esh & _ & Eg & _).
  destruct (deliverable_scope filters channel_id accessible reader f r stored q0) as [Hpin Hscope]; try done.
  { by apply row_to_stored_channel, (ix_read _ _ _ Hix). }
  rewrite <- Epin in Hpin, Hscope. pose proof Hd as (Hacc & _ & Hvis)%deliverable_spec.
  assert (pushed mentions c f r) as Hpush.
  { subst c. by apply accepts_pushed with (stored := stored). }
  destruct (push_where mentions f pin c r) as [_ Hw]. specialize (Hw ltac:(by split_and!)).
  apply andb_true_iff in Hw as [Hcommon Huntil].
  assert (where_common mentions q0 r = true) as Hcommon0 by exact Hcommon.
  set (q1 := apply_channel_scope_to_query q0 f pin accessible).
  assert (where_common mentions q1 r = true) as Hcommon1.
  { unfold q1, apply_channel_scope_to_query in *. destruct pin; [done|].
    destruct (f_generic_tags f !! h_tag); rewrite where_common_scope by exact Eids; by rewrite Hcommon0, Hscope. }
  assert (q_custom_tag q1 = None /\ q_until q1 = q_until (filter_to_query_params f pin c) /\ q_before_id q1 = None /\
          q_shared_gated_reader q1 = None) as (Ecu1 & Eun1 & Ebe1 & Esh1).
  { unfold q1, apply_channel_scope_to_query. repeat case_match; done. }
  assert (forall q, q = q1 \/ q = with_shared_gated_reader (Some reader) q1 -> query_where mentions q r = true) as Hall.
  { intros q Hq. unfold query_where. assert (where_common mentions q r = true /\ where_custom_tag q r = true /\ where_until q r = true) as (-> & -> & ->).
    { unfold where_custom_tag, where_until. destruct Hq as [-> | ->]; cbn [with_shared_gated_reader q_custom_tag q_until q_before_id];
        rewrite Ecu1, Eun1, Ebe1; by split_and!. }
    apply (visible_shared mentions r stored reader); [done..|]. destruct Hq as [-> | ->]; [by left|by right]. }
  unfold history_query. rewrite <- Epin. fold q0 q1. destruct (filter_can_match_shared_gated_kinds f); auto.
Qed.
End rows.

(** * A request delivers everything it may: when every page holds its rows, no
    row that matches a filter and that the reader may see is missing. *)

Section complete.
Context `{NostrLib, UuidLib, HexLib, ReadLib, StoreLib, FtsLib}.

(** The ids seen are the ids sent. *)
Definition seen_exact (seen : gset EventId) (ob : Outbox) : Prop :=
  forall i, i ∈ seen <-> exists e, e ∈ sent_events ob /\ ev_id e = i.

Lemma seen_exact_push queue sub stored seen ob :
  (forall n, queue n = true) -> seen_exact seen ob ->
  seen_exact ({[ev_id (se_event stored)]} ∪ seen) (send queue (event_message sub (se_event stored)) ob).1.
Proof.
  intros Hq Hs i. rewrite sent_events_send. unfold send. rewrite Hq. cbn [fst snd omap list_omap sent_event].
  setoid_rewrite elem_of_app. setoid_rewrite list_elem_of_singleton. rewrite elem_of_union, elem_of_singleton, (Hs i).
  split; [intros [->|(e & ? & ?)]; eauto|intros (e & [?| ->] & <-); eauto].
Qed.

Lemma deliver_complete queue sub f accessible reader events seen ob ob' seen' stop :
  (forall n, queue n = true) ->
  deliver queue sub f accessible reader events seen ob = (ob', seen', stop) -> seen_exact seen ob ->
  stop = false /\ seen_exact seen' ob' /\ seen ⊆ seen' /\
  forall stored, stored ∈ events -> deliverable f accessible reader stored = true -> ev_id (se_event stored) ∈ seen'.
Proof.
  intros Hq. revert seen ob; induction events as [|stored events IH]; intros seen ob; cbn [deliver].
  { intros [= <- <- <-] Hs. split_and!; try done. by intros ? ?%elem_of_nil. }
  setoid_rewrite elem_of_cons. destruct (deliverable f accessible reader stored) eqn:Ed; cbn [negb].
  2:{ intros Hd Hs. destruct (IH _ _ Hd Hs) as (? & ? & ? & Hall). split_and!; try done.
      intros st [->|?] ?; [congruence|auto]. }
  case_bool_decide as Hseen.
  { intros Hd Hs. destruct (IH _ _ Hd Hs) as (? & ? & Hsub & Hall). split_and!; try done.
    intros st [->|?] ?; [by apply Hsub|auto]. }
  pose proof (fun Hs => seen_exact_push queue sub stored seen ob Hq Hs) as Hpush.
  destruct (send queue _ ob) as [ob1 [|]] eqn:Es; cbn [fst] in Hpush.
  - intros Hd Hs. destruct (IH _ _ Hd (Hpush Hs)) as (? & ? & Hsub & Hall). split_and!; try done; [set_solver|].
    intros st [->|?] ?; [|auto]. apply Hsub, elem_of_union. left. by apply elem_of_singleton.
  - unfold send in Es. rewrite Hq in Es. done.
Qed.

(** With a queue that accepts and queries that answer, the loop ends in EOSE
    having delivered every deliverable event of every answer. *)
Lemma history_loop_complete env c sub channel_id accessible reader before idx filters seen ob answers :
  (forall n, env_queue env n = true) -> seen_exact seen ob ->
  (forall n f, filters !! n = Some f ->
    query_events_routed (env_route env (idx + n))
      (history_query c channel_id accessible reader (default None (before !! (idx + n)%nat)) f) = Ok (answers f)) ->
  let out := history_loop env c sub channel_id accessible reader before idx filters seen ob in
  last (ob_sent out) = Some (eose sub) /\
  (forall e, e ∈ sent_events ob -> exists e', e' ∈ sent_events out /\ ev_id e' = ev_id e) /\
  forall f stored, f ∈ filters -> stored ∈ answers f -> deliverable f accessible reader stored = true ->
    exists e, e ∈ sent_events out /\ ev_id e = ev_id (se_event stored).
Proof.
  intros Hq. revert idx seen ob; induction filters as [|f filters IH]; intros idx seen ob Hs Hans; cbn [history_loop]; cbn zeta.
  { rewrite sent_events_eose. split_and!; [|eauto|by intros ? ? ?%elem_of_nil].
    unfold send. rewrite Hq. cbn. by rewrite last_snoc. }
  pose proof (Hans 0%nat f eq_refl) as H0'. rewrite Nat.add_0_r in H0'. rewrite H0'.
  destruct (deliver _ _ _ _ _ _ _ _) as [[ob1 seen1] stop] eqn:Ed.
  destruct (deliver_complete _ _ _ _ _ _ _ _ _ _ _ Hq Ed Hs) as (-> & Hs1 & Hsub & Hall).
  destruct (IH (S idx) seen1 ob1 Hs1) as (Heose & Hkeep & Hrest).
  { intros n g Hn. specialize (Hans (S n) g Hn). by rewrite Nat.add_succ_r in Hans. }
  split_and!; [done| |].
  - intros e He. assert (ev_id e ∈ seen1) as Hin by (apply Hsub, Hs; eauto).
    apply Hs1 in Hin as (e1 & He1 & Heq). destruct (Hkeep e1 He1) as (e2 & ? & ?). exists e2. split; [done|congruence].
  - intros g stored [->|Hg]%elem_of_cons Hst Hd; [|eauto].
    specialize (Hall stored Hst Hd). apply Hs1 in Hall as (e1 & He1 & Heq).
    destruct (Hkeep e1 He1) as (e2 & ? & ?). exists e2. split; [done|congruence].
Qed.

Context `{!TagLaws, !NostrLaws, !StoreLaws, !UuidRound, !HexLaws, !ReadLaws}.

(** Every row holds the columns and the mentions of the event it reads back as;
    every sequence of writes keeps this (ReadStored.v). *)
Definition well_stored (db : EventDb) : Prop :=
  forall r, r ∈ db_events db -> exists stored, indexed (db_mentions db) r stored /\ (ev_kind (se_event stored) < 2 ^ 16)%N.

(** The rows the clause of a filter selects fit the page it asks for. *)
Definition page_fits (db : EventDb) (q : EventQuery) : Prop :=
  (Z.of_nat (length (List.filter (query_where (db_mentions db) q) (db_events db))) <=
     Z.min (default 100 (q_limit q)) (default DEFAULT_MAX_PAGE_LIMIT (q_max_limit q)))%Z.

(** Of the lists a filter pushes only its kinds can be empty. *)
Definition pushed_lists (f : ReqFilter) (q : EventQuery) : Prop :=
  q_authors q <> Some [] /\
  q_kinds q = ((fun ks => Z.of_N <$> elements ks) <$> f_kinds f) /\
  q_ids q = (f_ids f ≫= fun ids => if set_is_empty ids then None else Some (rd_id_bytes <$> elements ids)) /\
  q_e_tags q = (f_generic_tags f !! e_tag_key ≫= fun vs => if set_is_empty vs then None else Some (elements vs)).

Lemma params_lists f pin c : pushed_lists f (filter_to_query_params f pin c).
Proof.
  destruct (params_fields f pin c) as (_ & _ & _ & _ & Ek & _ & _ & _ & Ei & Ee & _). split_and!; try done.
  unfold filter_to_query_params. destruct (elements <$> f_authors f) as [[|a [|b l]]|];
    destruct (if kinds_are_nip33 _ then _ else _); done.
Qed.

Lemma matches_nothing_kinds f q : pushed_lists f q -> matches_nothing q = true -> f_kinds f = Some ∅.
Proof.
  intros (Ha & Hk & Hi & He). unfold matches_nothing, list_is_empty. rewrite Hk, Hi, He, !orb_true_iff.
  intros [[[Hk'|Ha']|Hi']|He'].
  - destruct (f_kinds f) as [ks|]; cbn in Hk'; [|done]. rewrite length_fmap in Hk'.
    apply Nat.eqb_eq, nil_length_inv, elements_empty_inv, leibniz_equiv in Hk'. by subst.
  - destruct (q_authors q) as [[|]|]; cbn in Ha'; done.
  - destruct (f_ids f) as [ids|]; cbn in Hi'; [|done]. unfold set_is_empty in Hi'. case_bool_decide as Hne; cbn in Hi'; [done|].
    rewrite length_fmap in Hi'. by apply Nat.eqb_eq, nil_length_inv, elements_empty_inv, leibniz_equiv in Hi'.
  - destruct (f_generic_tags f !! e_tag_key) as [vs|]; cbn in He'; [|done]. unfold set_is_empty in He'.
    case_bool_decide as Hne; cbn in He'; [done|].
    by apply Nat.eqb_eq, nil_length_inv, elements_empty_inv, leibniz_equiv in He'.
Qed.

Lemma history_query_shape c channel_id accessible reader f :
  let q := history_query c channel_id accessible reader None f in
  q_before_id q = None /\ q_global_only q = false /\ q_offset q = None /\
  (matches_nothing q = true -> f_kinds f = Some ∅).
Proof.
  cbn zeta. destruct (params_fields f (per_filter_channel f channel_id) c)
    as (_ & _ & Eg & _ & _ & _ & _ & _ & _ & _ & _ & _ & _ & Eo & _ & _).
  pose proof (params_lists f (per_filter_channel f channel_id) c) as Hl.
  unfold history_query, apply_channel_scope_to_query.
  repeat case_match; split_and!; try done; by apply matches_nothing_kinds.
Qed.

Lemma history_answer filters channel_id accessible reader db c (f : ReqFilter) :
  channel_id = extract_channel_id_from_filters filters -> f ∈ filters -> pushable_bounds f -> well_stored db ->
  page_fits db (history_query c channel_id accessible reader None f) ->
  exists events, query_events_on db (history_query c channel_id accessible reader None f) = Ok events /\
    forall r stored, r ∈ db_events db -> er_community_id r = c -> er_deleted_at r = None ->
      row_to_stored_event r = Ok (Some stored) -> addressed f stored -> deliverable f accessible reader stored = true ->
      stored ∈ events.
Proof.
  intros Hch Hf Hpb Hws Hfit.
  destruct (history_query_shape c channel_id accessible reader f) as (Hb & Hg & Ho & Hmn).
  destruct (matches_nothing (history_query c channel_id accessible reader None f)) eqn:Emn.
  { exists []. split.
    - unfold query_events_on. rewrite Hb, Hg, Emn. done.
    - intros r stored _ _ _ _ _ (Hacc & _)%deliverable_spec.
      pose proof (fa_kinds _ _ Hacc _ (Hmn eq_refl)). set_solver. }
  destruct (query_events_complete db (history_query c channel_id accessible reader None f)) as (events & Hq & Hev); try done.
  { by left. }
  { intros r Hr. destruct (Hws r Hr) as (st & Hix & Hk). rewrite (ix_kind _ _ _ Hix). lia. }
  exists events. split; [done|]. intros r stored Hr Hc Hdel Hrow Had Hd. apply Hev. exists r. split_and!; try done.
  destruct (Hws r Hr) as (st & Hix & _).
  assert (st = stored) as -> by (pose proof (ix_read _ _ _ Hix); congruence).
  by apply (deliverable_selected filters channel_id accessible reader f (db_mentions db) r stored).
Qed.

(** C9: a REQ delivers everything it may: with a queue that accepts, one
    database that answers every query, rows whose columns are those of their
    events, filters whose upper time bound is below 2^63 and whose [#p] value,
    when there is just one, is a key ([pushable_bounds]), and pages that hold
    what their filters select, every live row of the community that a filter accepts, whose channel
    is accessible (or that has none) and that the reader may see is delivered,
    and the delivery ends with EOSE.  No row is lost to the kind, author, id,
    time, [e], [p] and shared-kind conditions pushed into SQL.  For a filter
    with an [#h] clause this holds of rows whose [h] tags print their stored
    channel, and for one with a [#d] clause of rows with one [d] value
    ([addressed]); a global-only event stored with a stray [h] tag is really
    lost to an [#h] filter that accepts it ([stray_h_lost], Ingest.v). *)
Theorem req_delivers_all env conn sub filters db channel_id scope accessible reader :
  req_plan env conn sub filters = Subscribe channel_id scope accessible (rd_pk_bytes reader) ->
  (forall n, env_queue env n = true) ->
  (forall n, env_route env n = mkRoute None (Some db)) -> well_stored db ->
  (forall f, f ∈ filters -> pushable_bounds f /\
     page_fits db (history_query (cs_tenant conn) channel_id accessible (rd_pk_bytes reader) None f)) ->
  let out := req_history env (cs_tenant conn) sub channel_id accessible (rd_pk_bytes reader) [] filters in
  last (ob_sent out) = Some (eose sub) /\
  forall f r stored, f ∈ filters -> served_row db (cs_tenant conn) r stored -> filter_accepts (rf_filter f) stored ->
    addressed f stored ->    (forall ch, er_channel_id r = Some ch -> ch ∈ accessible) -> may_read reader (se_event stored) ->
    exists e, e ∈ sent_events out /\ ev_id e = ev_id (se_event stored).
Proof.
  intros (ctx & _ & Hch & _ & _)%req_plan_subscribe Hq Hroute Hws Hfs out.
  set (query f := history_query (cs_tenant conn) channel_id accessible (rd_pk_bytes reader) None f).
  set (answers f := match query_events_on db (query f) with Ok evs => evs | Err _ => [] end).
  destruct (history_loop_complete env (cs_tenant conn) sub channel_id accessible (rd_pk_bytes reader) [] 0 filters ∅
              outbox_new answers) as (Heose & _ & Hall).
  { done. }
  { intros i. split; [set_solver|]. by intros (e & ?%elem_of_nil & _). }
  { intros n f Hn. assert (f ∈ filters) as Hf by by eapply list_elem_of_lookup_2. destruct (Hfs f Hf) as [Hpb Hfit].
    rewrite lookup_nil. cbn [default]. unfold query_events_routed. rewrite Hroute. cbn.
    destruct (history_answer filters channel_id accessible (rd_pk_bytes reader) db (cs_tenant conn) f) as (evs & Hevs & _); try done.
    unfold answers, query. by rewrite Hevs. }
  split; [exact Heose|]. intros f r stored Hf (Hr & Hc & Hdel & Hrow) Hacc Had Hacs Hmr.
  destruct (Hfs f Hf) as [Hpb Hfit].
  destruct (history_answer filters channel_id accessible (rd_pk_bytes reader) db (cs_tenant conn) f) as (evs & Hevs & Hin); try done.
  assert (deliverable f accessible (rd_pk_bytes reader) stored = true) as Hd.
  { apply deliverable_spec. split_and!; [done|by rewrite (row_to_stored_channel r)|by apply event_visible_spec]. }
  apply (Hall f stored); [done| |done]. unfold answers, query. rewrite Hevs. by apply (Hin r).
Qed.
End complete.
