(* ===== verification/ReadStored.v ===== *)
(** The event tables under writes: every sequence of [insert_event] and
    [soft_delete_event] whose mention statements run leaves the rows as the
    read path relies on them ([well_stored]), and every event accepted is found
    again. *)

From S2P Require Import Prelude Nostr Filter Auth ReadGate EventStore ReadQuery ReadReq.
From S2P Require Import ReadTheorems ReadPush.

(** One write; [executed] is whether Postgres ran the event's statement. *)
Inductive StoreOp :=
| OpInsert (executed : bool) (now : Z) (community_id : CommunityId) (event : Event) (channel_id : option Uuid)
| OpDelete (now : Z) (community_id : CommunityId) (event_id : string).

Section stored.
Context `{NostrLib, UuidLib, HexLib, ReadLib, StoreLib}.

Definition run_op (db : EventDb) (op : StoreOp) : EventDb :=
  match op with
  | OpInsert executed now c e ch =>
      match insert_event executed true now db c e ch with Ok (db, _) => db | Err _ => db end
  | OpDelete now c id => (soft_delete_event now db c id).1
  end.
Definition run_ops (ops : list StoreOp) : EventDb := foldl run_op (mkEventDb [] ∅) ops.

(** An event as the types of the source bound it, with a time the database's
    integers hold. *)
Record submittable (e : Event) : Prop := {
  sb_kind : (ev_kind e < 2 ^ 16)%N;
  sb_time : (ev_created_at e < 2 ^ 63)%N;
  sb_id : (ev_id e < 2 ^ 256)%N;
}.

(** The submissions are of such events, whose ids are collision-free; their tags
    and the channel they are stored under are arbitrary. *)
Definition well_submitted (ops : list StoreOp) : Prop :=
  (forall x now c e ch, OpInsert x now c e ch ∈ ops -> submittable e) /\
  (forall x now c e ch x' now' c' e' ch', OpInsert x now c e ch ∈ ops -> OpInsert x' now' c' e' ch' ∈ ops ->
     ev_id e = ev_id e' -> e = e').

(** The write was accepted: the statement ran, and the event is of a kind and a
    time the store takes. *)
Definition accepted (op : StoreOp) : option (CommunityId * Event) :=
  match op with
  | OpInsert true _ c e _ =>
      if N.eqb (ev_kind e) KIND_AUTH || is_ephemeral (ev_kind e) ||
         bool_decide (from_timestamp (as_i64_wrapped (ev_created_at e)) = None) then None
      else Some (c, e)
  | _ => None
  end.

Context `{!TagLaws, !NostrLaws, !StoreLaws, !UuidRound, !HexLaws, !ReadLaws}.

(** The keys [insert_mentions_in_transaction] records for an event. *)
Definition mention_keys (e : Event) : list string :=
  to_ascii_lowercase <$> List.filter valid_mention (omap (named_value "p") (ev_tags e)).

Lemma elem_of_mention_keys e w :
  w ∈ mention_keys e <->
  exists t v, t ∈ ev_tags e /\ named_value "p" t = Some v /\ valid_mention v = true /\ w = to_ascii_lowercase v.
Proof.
  unfold mention_keys. rewrite list_elem_of_fmap. setoid_rewrite elem_of_filter_bool.
  setoid_rewrite list_elem_of_omap. naive_solver.
Qed.

Lemma elem_of_mention_fold (c : CommunityId) (i : string) (pks : list string) (ms : gset (CommunityId * string * string)) x :
  x ∈ foldl (fun ms pk => {[(c, pk, i)]} ∪ ms) ms pks <-> x ∈ ms \/ exists pk, pk ∈ pks /\ x = (c, pk, i).
Proof.
  revert ms; induction pks as [|pk pks IH]; intros ms; cbn [foldl].
  - setoid_rewrite elem_of_nil. naive_solver.
  - rewrite IH, elem_of_union, elem_of_singleton. setoid_rewrite elem_of_cons. naive_solver.
Qed.

Lemma insert_mentions_ok db c e :
  from_timestamp (as_i64_wrapped (ev_created_at e)) <> None ->
  exists db', insert_mentions_in_transaction true db c e = Ok db' /\ db_events db' = db_events db /\
    forall x, x ∈ db_mentions db' <-> x ∈ db_mentions db \/ exists pk, pk ∈ mention_keys e /\ x = (c, pk, rd_id_bytes (ev_id e)).
Proof.
  intros Ht. unfold insert_mentions_in_transaction. fold (mention_keys e). cbn zeta.
  case_bool_decide as Hp.
  { exists db. split_and!; [done..|]. intros x. unfold mention_keys. rewrite Hp. setoid_rewrite elem_of_nil. naive_solver. }
  destruct (from_timestamp _); [|done]. cbn. case_bool_decide as Hk.
  { exists db. split_and!; [done..|]. intros x. rewrite Hk. setoid_rewrite elem_of_nil. naive_solver. }
  eexists. split_and!; [done..|]. intros x. apply elem_of_mention_fold.
Qed.

(** What an insertion does to the tables. *)
Lemma insert_event_effect x now db c e ch db' stored inserted :
  (ev_created_at e < 2 ^ 63)%N ->
  insert_event x true now db c e ch = Ok (db', (stored, inserted)) ->
  let row := row_of c e ch (Z.of_N (ev_created_at e)) now in
  (db' = db /\ exists r, r ∈ db_events db /\ same_key row r = true) \/
  (db_events db' = db_events db ++ [row] /\ (forall r, r ∈ db_events db -> same_key row r = false) /\
   forall m, m ∈ db_mentions db' <-> m ∈ db_mentions db \/ exists pk, pk ∈ mention_keys e /\ m = (c, pk, rd_id_bytes (ev_id e))).
Proof.
  intros Ht. unfold insert_event, insert_event_on. destruct (N.eqb _ _); [done|]. destruct (is_ephemeral _); [done|].
  destruct (from_timestamp _) as [t|] eqn:Et; [|done]. cbn [ok_or].
  pose proof (from_timestamp_secs _ _ Et) as ->. rewrite as_i64_small in * by done.
  destruct x; cbn [negb]; [|done]. cbn zeta. destruct (existsb _ _) eqn:Ex.
  - intros [= <- <- <-]. left. split; [done|]. by apply existsb_elem_of in Ex.
  - set (db1 := mkEventDb _ _). destruct (insert_mentions_ok db1 c e) as (db2 & E2 & Ee & Em).
    { rewrite as_i64_small, Et by done. done. }
    rewrite E2. intros [= <- <- <-]. right. split_and!; [by rewrite Ee| |exact Em].
    intros r Hr. destruct (same_key _ r) eqn:Ek; [|done]. rewrite <- Ex. symmetry. apply existsb_elem_of. eauto.
Qed.

(** ** The invariant *)

Definition with_deleted (d : option Z) (r : EventRow) : EventRow :=
  mkEventRow (er_community_id r) (er_id r) (er_pubkey r) (er_created_at r) (er_kind r) (er_tags r) (er_content r)
    (er_received_at r) (er_channel_id r) (er_d_tag r) (er_not_before r) d.

(** The row of an event that was submitted, deleted since or not, whose
    mentions are its own. *)
Definition sound_row (P : Event -> option Uuid -> Prop) (ms : gset (CommunityId * string * string)) (r : EventRow) : Prop :=
  exists c e ch now d, P e ch /\ r = with_deleted d (row_of c e ch (Z.of_N (ev_created_at e)) now) /\
    forall w, (c, w, rd_id_bytes (ev_id e)) ∈ ms <-> w ∈ mention_keys e.

Definition store_inv (P : Event -> option Uuid -> Prop) (db : EventDb) : Prop :=
  (forall r, r ∈ db_events db -> sound_row P (db_mentions db) r) /\
  (forall c w i, (c, w, i) ∈ db_mentions db -> exists r, r ∈ db_events db /\ er_community_id r = c /\ er_id r = i).

Lemma same_key_row c e ch now d c' e' ch' now' :
  (e = e' <-> ev_id e = ev_id e') ->
  same_key (row_of c e ch (Z.of_N (ev_created_at e)) now)
           (with_deleted d (row_of c' e' ch' (Z.of_N (ev_created_at e')) now')) = true <-> c = c' /\ ev_id e = ev_id e'.
Proof.
  intros He. unfold same_key. cbn. rewrite !andb_true_iff, !bool_decide_eq_true, Z.eqb_eq. split.
  - intros [[-> _] Hi%rd_id_bytes_inj]. done.
  - intros [-> Hi]. apply He in Hi as ->. done.
Qed.

Lemma run_op_insert_inv (P : Event -> option Uuid -> Prop) x now db c e ch :
  (forall e ch e' ch', P e ch -> P e' ch' -> ev_id e = ev_id e' -> e = e') -> P e ch -> submittable e ->
  store_inv P db -> store_inv P (run_op db (OpInsert x now c e ch)).
Proof.
  intros Hinj He Hs [Hrows Horph]. cbn [run_op].
  destruct (insert_event x true now db c e ch) as [[db' [st b]]|] eqn:Ei; [|done].
  destruct (insert_event_effect _ _ _ _ _ _ _ _ _ (sb_time _ Hs) Ei) as [[-> _]|(Hev & Hnew & Hms)]; [done|].
  assert (forall c' e' ch' now' d, with_deleted d (row_of c' e' ch' (Z.of_N (ev_created_at e')) now') ∈ db_events db ->
    P e' ch' -> ~ (c = c' /\ ev_id e = ev_id e')) as Hfresh.
  { intros c' e' ch' now' d Hr He' Hk. apply Hnew in Hr. apply not_true_iff_false in Hr. apply Hr, same_key_row; [|done].
    split; [by intros ->|by apply (Hinj e ch e' ch')]. }
  split.
  - intros r. rewrite Hev, elem_of_app, list_elem_of_singleton. intros [Hr| ->].
    + destruct (Hrows r Hr) as (c' & e' & ch' & now' & d & He' & -> & Hm). exists c', e', ch', now', d.
      split_and!; [done..|]. intros w. rewrite Hms, Hm. split; [|by left]. intros [?|(pk & _ & [= <- _ Hi])]; [done|].
      destruct (Hfresh c' e' ch' now' d Hr He'). split; [done|]. by apply rd_id_bytes_inj in Hi.
    + exists c, e, ch, now, None. split_and!; [done..|]. intros w. rewrite Hms. split; [|by right; eauto].
      intros [(r & Hr & Hc & Hi)%Horph|(pk & Hpk & [= ->])]; [|done].
      destruct (Hrows r Hr) as (c' & e' & ch' & now' & d & He' & -> & _).
      destruct (Hfresh c' e' ch' now' d Hr He'). split; [by symmetry|]. symmetry. by apply rd_id_bytes_inj.
  - intros c' w i. rewrite Hms, Hev. setoid_rewrite elem_of_app. setoid_rewrite list_elem_of_singleton.
    intros [(r & ? & ?)%Horph|(pk & _ & [= -> -> ->])]; [by eauto|]. eexists. split; [by right|done].
Qed.

Lemma run_op_delete_inv P now db c id : store_inv P db -> store_inv P (run_op db (OpDelete now c id)).
Proof.
  intros [Hrows Horph]. split; cbn.
  - intros r. rewrite list_elem_of_fmap. intros (r0 & -> & Hr0).
    destruct (Hrows r0 Hr0) as (c' & e' & ch' & now' & d & He' & -> & Hm). case_match.
    + exists c', e', ch', now', (Some now). done.
    + exists c', e', ch', now', d. done.
  - intros c' w i (r & Hr & <- & <-)%Horph. eexists. split; [apply list_elem_of_fmap; eexists; split; [reflexivity|exact Hr]|].
    by case_match.
Qed.

(** A deleted row was deleted by a write of the sequence. *)
Definition deleted_by (ops : list StoreOp) (db : EventDb) : Prop :=
  forall r, r ∈ db_events db -> er_deleted_at r <> None -> exists now, OpDelete now (er_community_id r) (er_id r) ∈ ops.

Lemma run_op_deleted_by ops db op :
  (forall x now c e ch, op = OpInsert x now c e ch -> (ev_created_at e < 2 ^ 63)%N) ->
  op ∈ ops -> deleted_by ops db -> deleted_by ops (run_op db op).
Proof.
  intros Ht Hop Hd r. destruct op as [x now c e ch|now c id]; cbn.
  - destruct (insert_event x true now db c e ch) as [[db' [st b]]|] eqn:Ei; [|apply Hd].
    destruct (insert_event_effect _ _ _ _ _ _ _ _ _ (Ht _ _ _ _ _ eq_refl) Ei) as [[-> _]|(Hev & _)]; [apply Hd|].
    rewrite Hev, elem_of_app, list_elem_of_singleton. intros [Hr| ->] Hdel; [by apply Hd|done].
  - rewrite list_elem_of_fmap. intros (r0 & -> & Hr0). case_match eqn:Eh; [|by apply Hd].
    intros _. cbn. rewrite !andb_true_iff, !bool_decide_eq_true in Eh. destruct Eh as [[-> ->] _]. by exists now.
Qed.

(** Rows are kept, up to their deletion mark. *)
Definition holds_event (c : CommunityId) (id : string) (db : EventDb) : Prop :=
  exists r, r ∈ db_events db /\ er_community_id r = c /\ er_id r = id.

Lemma run_op_holds c id db op :
  (forall x now c e ch, op = OpInsert x now c e ch -> (ev_created_at e < 2 ^ 63)%N) ->
  holds_event c id db -> holds_event c id (run_op db op).
Proof.
  intros Ht (r & Hr & Hc & Hi). destruct op as [x now c' e ch|now c' id']; cbn.
  - destruct (insert_event x true now db c' e ch) as [[db' [st b]]|] eqn:Ei; [|by exists r].
    destruct (insert_event_effect _ _ _ _ _ _ _ _ _ (Ht _ _ _ _ _ eq_refl) Ei) as [[-> _]|(Hev & _)]; [by exists r|].
    exists r. by rewrite Hev, elem_of_app; auto.
  - eexists. split; [apply list_elem_of_fmap; eexists; split; [reflexivity|exact Hr]|]. by case_match.
Qed.

Lemma accepted_holds db op c e :
  accepted op = Some (c, e) -> (ev_created_at e < 2 ^ 63)%N -> holds_event c (rd_id_bytes (ev_id e)) (run_op db op).
Proof.
  destruct op as [[|] now c' e' ch|]; cbn [accepted]; try done.
  destruct (_ || _) eqn:Eo; [done|]. intros [= -> ->] Ht. cbn [run_op].
  rewrite !orb_false_iff, bool_decide_eq_false in Eo. destruct Eo as [[Ek Ee] Ets].
  destruct (insert_event true true now db c e ch) as [[db' [st b]]|] eqn:Ei.
  - destruct (insert_event_effect _ _ _ _ _ _ _ _ _ Ht Ei) as [[-> (r & Hr & Hk)]|(Hev & _)].
    + exists r. unfold same_key in Hk. rewrite !andb_true_iff, !bool_decide_eq_true in Hk. cbn in Hk. intuition congruence.
    + eexists. rewrite Hev, elem_of_app, list_elem_of_singleton. split; [by right|done].
  - unfold insert_event, insert_event_on in Ei. rewrite Ek, Ee in Ei. destruct (from_timestamp _); [|done].
    cbn in Ei. destruct (existsb _ _); [done|]. by destruct (insert_mentions_in_transaction _ _ _ _).
Qed.

Lemma sound_row_read P ms r :
  (forall e ch, P e ch -> submittable e) -> sound_row P ms r ->
  exists e ch now, P e ch /\ er_id r = rd_id_bytes (ev_id e) /\
    row_to_stored_event r = Ok (Some (StoredEvent_with_received_at e now ch true)) /\
    indexed ms r (StoredEvent_with_received_at e now ch true).
Proof.
  intros HP (c & e & ch & now & d & He & -> & Hm). pose proof (HP e ch He) as Hs. exists e, ch, now.
  assert (row_to_stored_event (with_deleted d (row_of c e ch (Z.of_N (ev_created_at e)) now)) =
          Ok (Some (StoredEvent_with_received_at e now ch true))) as Hread.
  { pose proof (sb_kind _ Hs) as Hk. unfold row_to_stored_event.
    cbn [er_id er_pubkey er_created_at er_kind er_tags er_content er_received_at er_channel_id with_deleted row_of].
    assert ((0 <=? Z.of_N (ev_kind e))%Z && (Z.of_N (ev_kind e) <? 2 ^ 16)%Z = true) as ->
      by (apply andb_true_iff; rewrite Z.leb_le, Z.ltb_lt; lia).
    by rewrite N2Z.id, event_json_round. }
  split_and!; [done..|]. split; cbn; try done; [apply Hs..|]. intros w. by rewrite Hm, elem_of_mention_keys.
Qed.

Lemma run_ops_inv (I : EventDb -> Prop) ops :
  I (mkEventDb [] ∅) -> (forall db op, op ∈ ops -> I db -> I (run_op db op)) -> I (run_ops ops).
Proof.
  unfold run_ops. generalize (mkEventDb [] ∅). induction ops as [|op ops IH]; intros db H0' Hstep; [done|]. cbn.
  apply IH; [apply Hstep; [by left|done]|]. intros db' op' Hop. apply Hstep. by right.
Qed.

Lemma run_ops_holds ops op c e :
  (forall x now c e ch, OpInsert x now c e ch ∈ ops -> (ev_created_at e < 2 ^ 63)%N) ->
  op ∈ ops -> accepted op = Some (c, e) -> holds_event c (rd_id_bytes (ev_id e)) (run_ops ops).
Proof.
  unfold run_ops. generalize (mkEventDb [] ∅). intros db Ht Hop Ha. revert db.
  assert (ev_created_at e < 2 ^ 63)%N as Hte.
  { destruct op as [[|] now c' e' ch|]; cbn in Ha; try done. case_match; [done|]. injection Ha as -> ->. by eapply Ht. }
  apply list_elem_of_split in Hop as (pre & post & ->). intros db. rewrite foldl_app. cbn.
  assert (holds_event c (rd_id_bytes (ev_id e)) (run_op (foldl run_op db pre) op)) as Hh by by apply accepted_holds.
  revert Hh. generalize (run_op (foldl run_op db pre) op). clear db.
  assert (forall x now c e ch, OpInsert x now c e ch ∈ post -> (ev_created_at e < 2 ^ 63)%N) as Htp.
  { intros x now c0 e0 ch Hin. apply (Ht x now c0 e0 ch). rewrite elem_of_app, elem_of_cons. auto. }
  clear Ht. induction post as [|o post IH]; intros db Hh; [done|]. cbn. apply IH.
  - intros x now c0 e0 ch Hin. apply (Htp x now c0 e0 ch). by right.
  - apply run_op_holds; [|done]. intros x now c0 e0 ch ->. apply (Htp x now c0 e0 ch). by left.
Qed.

(** What the sequence leaves behind. *)
Lemma run_ops_invariants ops (P := fun e ch => exists x now c, OpInsert x now c e ch ∈ ops) :
  well_submitted ops ->
  (forall r, r ∈ db_events (run_ops ops) -> sound_row P (db_mentions (run_ops ops)) r) /\ deleted_by ops (run_ops ops) /\
  (forall e ch, P e ch -> submittable e).
Proof.
  intros [Hsb Hcf]. split_and!.
  - apply (run_ops_inv (store_inv P)); [split; set_solver|].
    intros db [x now c e ch|now c id] Hop Hi; [|by apply run_op_delete_inv].
    apply run_op_insert_inv; try done; [|by exists x, now, c|by eapply Hsb].
    intros e1 ch1 e2 ch2 (?&?&?&?) (?&?&?&?). by eapply Hcf.
  - apply run_ops_inv; [intros r ?%elem_of_nil; done|]. intros db op Hop. apply run_op_deleted_by; [|done].
    intros x now c e ch ->. by apply sb_time, (Hsb x now c e ch).
  - intros e ch (x & now & c & ?). by eapply Hsb.
Qed.

Lemma run_ops_well_stored ops : well_submitted ops -> well_stored (run_ops ops).
Proof.
  intros (Hrows & _ & HP)%run_ops_invariants r (e & ch & now & He & _ & _ & Hix)%Hrows%(sound_row_read _); [|exact HP].
  exists (StoredEvent_with_received_at e now ch true). pose proof (HP e ch He) as Hs.
  split; [done|apply (sb_kind _ Hs)].
Qed.

(** C31: the tables keep the form the read path relies on: after any sequence of
    event writes and soft deletions in which the mention statements run, every
    row reads back as the event it was written from, with its columns, its [d]
    tag and its mentions in agreement, and every accepted event is still there,
    live unless a deletion named it.  The events have collision-free ids and
    times below 2^63; nothing is asked of their tags or of the channel they are
    stored under. *)
Theorem store_well_stored ops :
  well_submitted ops ->
  well_stored (run_ops ops) /\
  forall op c e, op ∈ ops -> accepted op = Some (c, e) ->
    exists r stored, r ∈ db_events (run_ops ops) /\ er_community_id r = c /\
      row_to_stored_event r = Ok (Some stored) /\ se_event stored = e /\
      ((forall now, OpDelete now c (rd_id_bytes (ev_id e)) ∉ ops) -> er_deleted_at r = None).
Proof.
  intros Hws. split; [by apply run_ops_well_stored|]. intros op c e Hop Ha.
  destruct (run_ops_invariants ops Hws) as (Hrows & Hdel & HP). destruct Hws as [Hsb Hcf].
  destruct (run_ops_holds ops op c e) as (r & Hr & Hc & Hi); [|done..|].
  { intros x now c0 e0 ch Hin. apply sb_time. by eapply Hsb. }
  destruct (sound_row_read _ _ _ HP (Hrows r Hr)) as (e' & ch & now & (x & now' & c' & He') & Hid & Hread & _).
  assert (e' = e) as ->.
  { destruct op as [[|] n c0 e0 ch0|]; cbn in Ha; try done. case_match; [done|]. injection Ha as -> ->.
    eapply Hcf; [exact He'|exact Hop|]. apply rd_id_bytes_inj. congruence. }
  exists r, (StoredEvent_with_received_at e now ch true). split_and!; try done.
  intros Hnd. destruct (er_deleted_at r) eqn:Ed; [|done].
  destruct (Hdel r Hr) as [n Hn]; [by rewrite Ed|]. rewrite Hc, Hi in Hn. by destruct (Hnd n).
Qed.
End stored.
