(* ===== verification/ReadCount.v ===== *)
(** COUNT against its reference: the number of rows a REQ for the same filter
    may deliver. *)

From S2P Require Import Prelude Nostr Filter Auth ReadGate EventStore ReadQuery ReadReq ReadTheorems ReadPush.

Section exact.
Context `{NostrLib, UuidLib, HexLib, ReadLib, StoreLib, FtsLib}.

(** A filter whose clauses SQL can state exactly: no empty set, time bounds the
    database can hold, lower-case keys and canonical channel ids. *)
Record exact_filter (f : ReqFilter) : Prop := {
  xf_authors : f_authors f <> Some ∅;
  xf_ids : f_ids f <> Some ∅;
  xf_tags : forall k vs, f_generic_tags f !! k = Some vs -> vs <> ∅;
  xf_since : forall s, f_since f = Some s -> from_timestamp (as_i64_wrapped s) = Some (Z.of_N s);
  xf_until : forall s, f_until f = Some s -> from_timestamp (as_i64_wrapped s) = Some (Z.of_N s);
  xf_p : forall vs v, f_generic_tags f !! p_tag = Some vs -> v ∈ vs -> to_ascii_lowercase v = v;
  xf_h : forall vs v, f_generic_tags f !! h_tag = Some vs -> v ∈ vs -> exists u, v = uuid_to_string u;
}.

(** An event whose tags the indexes render exactly for the clauses the filter
    has: lower-case [p] keys under a [#p] clause, a [d] tag under a [#d] clause
    when it is addressable, and under an [#e] clause no tag that has the letter
    [e] and a queried value anywhere but in front. *)
Record plain_event (f : ReqFilter) (e : Event) : Prop := {
  pl_p : f_generic_tags f !! p_tag <> None -> forall t v, t ∈ ev_tags e -> named_value "p" t = Some v -> to_ascii_lowercase v = v;
  pl_d : f_generic_tags f !! d_tag_key <> None -> is_parameterized_replaceable (ev_kind e) = true -> exists t v, t ∈ ev_tags e /\ named_value "d" t = Some v;
  pl_e : forall vs v t, f_generic_tags f !! e_tag_key = Some vs -> v ∈ vs -> t ∈ ev_tags e -> "e" ∈ t -> v ∈ t ->
    named_value "e" t = Some v;
}.

Lemma find_map_some {A B} (g : A -> option B) (l : list A) b :
  find_map g l = Some b -> exists a, a ∈ l /\ g a = Some b.
Proof.
  induction l as [|a l IH]; cbn; [done|]. destruct (g a) eqn:E; [intros [= ->]; exists a; split; [left|done]|].
  intros (a' & ? & ?)%IH. exists a'. split; [by right|done].
Qed.

Lemma find_map_none {A B} (g : A -> option B) (l : list A) : find_map g l = None -> forall a, a ∈ l -> g a = None.
Proof.
  induction l as [|x l IH]; cbn; [by intros _ a ?%elem_of_nil|]. destruct (g x) eqn:E; [done|].
  intros Hl a [->|?]%elem_of_cons; auto.
Qed.

Context `{!TagLaws, !NostrLaws, !StoreLaws, !UuidRound, !HexLaws, !ReadLaws}.

(** The channel of a row is one the clause of the filter admits. *)
Definition in_scope (f : ReqFilter) (accessible : list Uuid) (ch : option Uuid) : Prop :=
  match f_generic_tags f !! h_tag with
  | None => forall x, ch = Some x -> x ∈ accessible
  | Some vs => exists x, ch = Some x /\ x ∈ accessible /\ uuid_to_string x ∈ vs
  end.

(** An [h] clause holds of an event of the channel it names. *)
Lemma h_clause_holds (f : ReqFilter) stored vs ch :
  f_generic_tags f !! h_tag = Some vs -> addressed f stored -> se_channel_id stored = Some ch -> uuid_to_string ch ∈ vs ->
  tag_hit stored "h" vs \/ channel_hit stored "h" vs.
Proof.
  intros Hvs [Hh _] Hch Hin. specialize (Hh ltac:(by rewrite Hvs)). destruct (existsb (fun t => bool_decide (tag_kind_string t = "h")) (ev_tags (se_event stored))) eqn:E.
  - apply existsb_elem_of in E as (t & Ht & Hk%bool_decide_eq_true). left. exists t, (uuid_to_string ch).
    split_and!; try done. rewrite (Hh t Ht Hk), Hch. done.
  - right. split; [done|]. split; [by apply has_h_spec|]. eauto.
Qed.

Lemma pushed_accepts mentions (f : ReqFilter) r stored accessible :
  filter_fully_pushable f = true -> exact_filter f -> pushable_bounds f -> indexed mentions r stored ->
  addressed f stored -> plain_event f (se_event stored) ->
  pushed mentions (er_community_id r) f r -> in_scope f accessible (er_channel_id r) ->
  (forall ks, f_kinds f = Some ks -> ks <> ∅) -> filter_accepts f stored.
Proof.
  intros Hfull [Xau Xid Xtags Xsi Xun Xp Xh] Hpb Hix Had [Pp Pd Pe] [Uk Ua Ui Us Uu Ue Up Ud] Hscope Hkne.
  pose proof (row_to_stored_channel _ _ (ix_read _ _ _ Hix)) as Hrow.
  unfold filter_fully_pushable in Hfull. destruct (forallb _ _) eqn:Ef; [|done]. rewrite forallb_forall in Ef.
  split.
  - intros ks Hks. destruct (Uk _ Hks (Hkne _ Hks)) as (k & Hk & Heq). rewrite (ix_kind _ _ _ Hix) in Heq.
    apply N2Z.inj in Heq. by rewrite Heq.
  - intros ps Hps. destruct (Ua _ Hps) as (p & Hp & Heq); [by intros ->|]. rewrite (ix_pubkey _ _ _ Hix) in Heq.
    apply rd_pk_bytes_inj in Heq. by rewrite Heq.
  - intros s Hs. specialize (Us _ _ Hs (Xsi _ Hs)). rewrite (ix_created _ _ _ Hix) in Us. lia.
  - intros s Hs. specialize (Uu _ _ Hs (Xun _ Hs)). rewrite (ix_created _ _ _ Hix) in Uu. lia.
  - intros ids Hids. destruct (Ui _ Hids) as (i & Hi & Heq); [by intros ->|]. rewrite (ix_id _ _ _ Hix) in Heq.
    apply rd_id_bytes_inj in Heq. exists i. split; [done|]. rewrite Heq. apply starts_with_spec.
    exists "". by rewrite string_app_nil_r.
  - intros k vs Hk. pose proof (Xtags _ _ Hk) as Hne. pose proof (pb_letters _ Hpb _ _ Hk) as Hup.
    specialize (Ef (k, vs)). rewrite <- list_elem_of_In, elem_of_map_to_list in Ef. specialize (Ef Hk).
    unfold tag_pushable in Ef.
    case_bool_decide as Eh; [|case_bool_decide as Ep; [|case_bool_decide as Ed; [|case_bool_decide as Ee]]].
    + rewrite Eh. rewrite <- h_tag_display in Eh. apply single_letter_inj in Eh as ->; [|done..].
      unfold in_scope in Hscope. rewrite Hk in Hscope. destruct Hscope as (ch & Hch & _ & Hin).
      apply (h_clause_holds f stored vs ch); [done|done|by rewrite Hrow|done].
    + rewrite Ep. left. rewrite <- p_tag_display in Ep. apply single_letter_inj in Ep as ->; [|done..].
      apply negb_true_iff, Nat.ltb_ge in Ef.
      assert (exists v, vs = {[v]}) as [v ->].
      { destruct (elements_cases vs) as [[_ ->]|[(a & _ & ->)|(a & b & l & El & _)]]; [done|eauto|].
        assert (size vs = length (elements vs)) as Hsz by done. rewrite El in Hsz. cbn in Hsz. lia. }
      pose proof (proj1 (ix_mentions _ _ _ Hix _) (Up v Hk)) as (t & w & Ht & Hn & _ & Hlow).
      assert (w = v) as -> by (rewrite <- (Pp ltac:(by rewrite Hk) t w), <- Hlow, (Xp {[v]} v); set_solver).
      apply tag_hit_named. exists t, v. split_and!; [done..|set_solver].
    + rewrite Ed. left. rewrite <- d_tag_display in Ed. apply single_letter_inj in Ed as ->; [|done..].
      rewrite negb_andb, negb_involutive in Ef. unfold set_is_empty in Ef. rewrite bool_decide_false in Ef by done.
      cbn [orb negb] in Ef. rewrite negb_involutive in Ef.
      destruct (Ud _ Hk Hne Ef) as (v & Hv & Hdt). rewrite (ix_d_tag _ _ _ Hix) in Hdt.
      apply tag_hit_named. unfold extract_d_tag in Hdt.
      destruct (is_parameterized_replaceable (ev_kind (se_event stored))) eqn:Epr; [|done]. cbn [negb] in Hdt.
      destruct (find_map (named_value "d") (ev_tags (se_event stored))) as [v'|] eqn:Efm.
      * injection Hdt as ->. apply find_map_some in Efm as (t & ? & ?). eauto.
      * destruct (Pd ltac:(by rewrite Hk) eq_refl) as (t & w & Ht & Hw). by rewrite (find_map_none _ _ Efm t Ht) in Hw.
    + rewrite Ee. left. rewrite <- e_tag_display in Ee. apply single_letter_inj in Ee as ->; [|done..].
      destruct (Ue _ Hk Hne) as (v & Hv & Hc). rewrite (ix_tags _ _ _ Hix) in Hc. apply tag_hit_named.
      unfold tags_contain in Hc. apply existsb_elem_of in Hc as (t & Ht & Hb).
      rewrite andb_true_iff, !bool_decide_eq_true in Hb. destruct Hb. exists t, v. split_and!; eauto.
    + unfold set_is_empty in Ef. by apply bool_decide_eq_true in Ef.
Qed.

(** ** The fast path counts nothing the reader may not see *)

Lemma count_fast_visible (f : ReqFilter) reader stored :
  count_fast f (rd_pk_hex reader) = true -> filter_accepts f stored -> may_read reader (se_event stored).
Proof.
  unfold count_fast. rewrite !andb_true_iff, orb_true_iff, !negb_true_iff.
  intros [[[_ Hao] Hres] Hsh] Hacc. split.
  - intros Hk. destruct Hao as [Hno|Hself]; [|by apply (authors_are_self_accepts f)].
    unfold filter_can_match_author_only_kinds in Hno.
    rewrite (can_match_kind_accepts f _ stored) in Hno; [done|done|by apply bool_decide_eq_true].
  - intros Hk. unfold filter_can_match_shared_gated_kinds in Hsh.
    rewrite (can_match_kind_accepts f _ stored) in Hsh; [done|done|by apply bool_decide_eq_true].
  - intros Hk. unfold filter_can_match_result_gated_kinds in Hres.
    rewrite (can_match_kind_accepts f _ stored) in Hres; [|done|by apply bool_decide_eq_true].
    cbn [andb] in Hres. apply negb_false_iff in Hres. by apply (p_tag_self_accepts f).
Qed.
End exact.

(** ** The reference *)

Section reference.
Context `{NostrLib, UuidLib, HexLib, ReadLib, StoreLib, FtsLib}.

(** A live row of the community that a REQ for this filter may deliver. *)
Definition countable_row (c : CommunityId) (f : ReqFilter) (accessible : list Uuid) (reader : string) (r : EventRow) : bool :=
  bool_decide (er_community_id r = c) && bool_decide (er_deleted_at r = None) &&
  match row_to_stored_event r with Ok (Some stored) => deliverable f accessible reader stored | _ => false end.

Definition reference_count (db : EventDb) (c : CommunityId) (f : ReqFilter) (accessible : list Uuid) (reader : string) : N :=
  N.of_nat (length (List.filter (countable_row c f accessible reader) (db_events db))).

(** The count of a request: each filter against the channels confirmed so far;
    a filter none of whose channels is accessible adds nothing. *)
Fixpoint count_reference (env : ReadEnv) (db : EventDb) (c : CommunityId) (reader : string)
    (token : option (list Uuid)) (filters : list ReqFilter) (accessible : list Uuid) : option N :=
  match filters with
  | [] => Some 0%N
  | f :: filters =>
      accessible ← count_confirm env c reader token (default [] (extract_channel_ids_from_filters [f])) accessible;
      rest ← count_reference env db c reader token filters accessible;
      Some (reference_count db c f accessible reader + rest)%N
  end.

Lemma filter_length_ext {A} (p q : A -> bool) (l : list A) :
  (forall x, x ∈ l -> p x = q x) -> length (List.filter p l) = length (List.filter q l).
Proof.
  intros Heq. induction l as [|x l IH]; [done|]. cbn. rewrite (Heq x) by left.
  destruct (q x); cbn; rewrite IH; auto; intros y Hy; apply Heq; by right.
Qed.

Lemma filter_length_filter {A} (p q : A -> bool) (l : list A) :
  length (List.filter q (List.filter p l)) = length (List.filter (fun x => p x && q x) l).
Proof. induction l as [|x l IH]; [done|]. cbn. destruct (p x); cbn; [destruct (q x); cbn|]; by rewrite IH. Qed.

Lemma filter_length_perm {A} (p : A -> bool) (l l' : list A) :
  l ≡ₚ l' -> length (List.filter p l) = length (List.filter p l').
Proof. induction 1; cbn; repeat case_match; cbn; congruence. Qed.

(** Filtering the events read from rows is filtering the rows. *)
Lemma read_rows_count (p : StoredEvent -> bool) rows evs :
  (forall r, r ∈ rows -> exists stored, row_to_stored_event r = Ok (Some stored)) -> read_rows rows = Ok evs ->
  length evs = length rows /\
  length (List.filter p evs) =
  length (List.filter (fun r => match row_to_stored_event r with Ok (Some stored) => p stored | _ => false end) rows).
Proof.
  revert evs; induction rows as [|r rows IH]; intros evs Hall; cbn [read_rows]; [by intros [= <-]|].
  destruct (Hall r) as [stored Hr]; [by left|]. rewrite Hr. cbn. intros (out & Hout & [= <-])%bind_ok.
  destruct (IH out) as [Hl Hf]; [intros r' Hr'; apply Hall; by right|done|]. cbn. rewrite Hl. split; [done|].
  rewrite Hr. destruct (p stored); cbn; by rewrite Hf.
Qed.

Context `{!TagLaws, !NostrLaws, !StoreLaws, !UuidRound, !HexLaws, !ReadLaws}.

(** What the query of a COUNT filter selects, before any per-event check. *)
Definition scoped_clause (mentions : gset (CommunityId * string * string)) (c : CommunityId) (f : ReqFilter)
    (accessible : list Uuid) (q : EventQuery) : Prop :=
  forall r, where_common mentions q r && is_none_or (q_until q) (fun u => (er_created_at r <=? u)%Z) = true <->
    er_community_id r = c /\ er_deleted_at r = None /\ pushed mentions c f r /\ in_scope f accessible (er_channel_id r).

Lemma where_ids_open accessible q r :
  where_channel_ids (with_channel_ids (Some accessible) true q) r = true <->
  forall x, er_channel_id r = Some x -> x ∈ accessible.
Proof.
  unfold where_channel_ids. cbn [with_channel_ids q_channel_ids q_channel_ids_include_global].
  case_bool_decide as Hnil.
  - subst. rewrite bool_decide_eq_true. destruct (er_channel_id r); split; try done.
    intros Hx. by specialize (Hx _ eq_refl); apply elem_of_nil in Hx.
  - cbn [andb]. rewrite orb_true_iff, bool_decide_eq_true. unfold sql_in. destruct (er_channel_id r) as [x|].
    + rewrite bool_decide_eq_true. split; [intros [?|?] y [= <-]; done|intros Hx; right; auto].
    + split; [done|by left].
Qed.

Lemma where_ids_h vs accessible q r :
  (forall v, v ∈ vs -> exists u, v = uuid_to_string u) ->
  where_channel_ids (with_channel_ids (Some (authorized_h vs accessible)) false q) r = true <->
  exists x, er_channel_id r = Some x /\ x ∈ accessible /\ uuid_to_string x ∈ vs.
Proof.
  intros Hvs. assert (forall x, x ∈ authorized_h vs accessible <-> x ∈ accessible /\ uuid_to_string x ∈ vs) as Ha.
  { intros x. rewrite authorized_h_elem. split.
    - intros (Hx & v & Hv & Hp). destruct (Hvs v Hv) as [u ->]. rewrite uuid_round in Hp. by injection Hp as ->.
    - intros [Hx Hv]. split; [done|]. eexists. split; [done|apply uuid_round]. }
  unfold where_channel_ids. cbn [with_channel_ids q_channel_ids q_channel_ids_include_global].
  case_bool_decide as Hnil.
  - split; [done|]. intros (x & _ & Hx). apply Ha in Hx. rewrite Hnil in Hx. by apply elem_of_nil in Hx.
  - cbn [andb orb]. unfold sql_in. destruct (er_channel_id r) as [x|]; [|naive_solver].
    rewrite bool_decide_eq_true, Ha. naive_solver.
Qed.

(** Query updates that leave the common clause and the time bound alone. *)
Lemma count_reader_clause mentions f pk q r :
  where_common mentions (with_count_reader f pk q) r = where_common mentions q r /\
  q_until (with_count_reader f pk q) = q_until q.
Proof. unfold with_count_reader. by destruct (filter_can_match_shared_gated_kinds f). Qed.

Lemma count_open_clause mentions c (f : ReqFilter) accessible pk :
  f_generic_tags f !! h_tag = None -> scoped_clause mentions c f accessible (count_open_query c f accessible pk).
Proof.
  intros Hh r. unfold count_open_query. set (q0 := build_event_query_from_filter f c).
  assert (q0 = filter_to_query_params f None c) as Eq0.
  { unfold q0, build_event_query_from_filter, extract_channel_id_from_filter. by rewrite Hh. }
  destruct (params_fields f None c) as (_ & _ & _ & Eids & _ & _ & _ & _ & _ & _ & _ & _ & _ & _ & Eg & _).
  rewrite <- Eq0 in Eids, Eg. rewrite Eg.
  set (q1 := with_channel_ids (Some accessible) true q0).
  destruct (count_reader_clause mentions f pk q1 r) as [E1 E2].
  assert (forall q, q = with_count_reader f pk q1 \/ q = with_limits None (q_max_limit (with_count_reader f pk q1)) (with_count_reader f pk q1) ->
    where_common mentions q r && is_none_or (q_until q) (fun u => (er_created_at r <=? u)%Z) =
    where_common mentions q1 r && is_none_or (q_until q0) (fun u => (er_created_at r <=? u)%Z)) as Hall.
  { intros q [-> | ->].
    - by rewrite E1, E2.
    - change (where_common mentions (with_count_reader f pk q1) r &&
        is_none_or (q_until (with_count_reader f pk q1)) (fun u => (er_created_at r <=? u)%Z) =
        where_common mentions q1 r && is_none_or (q_until q0) (fun u => (er_created_at r <=? u)%Z)).
      by rewrite E1, E2. }
  assert (where_common mentions q1 r && is_none_or (q_until q0) (fun u => (er_created_at r <=? u)%Z) = true <->
    er_community_id r = c /\ er_deleted_at r = None /\ pushed mentions c f r /\ in_scope f accessible (er_channel_id r)) as Hone.
  { unfold q1. rewrite where_common_scope by done. unfold in_scope. rewrite Hh, <- where_ids_open with (q := q0).
    pose proof (push_where mentions f None c r) as Hp. cbn zeta in Hp. rewrite <- Eq0 in Hp.
    rewrite !andb_true_iff in *. split.
    - intros [[Hw Hs] Hu]. destruct (proj1 Hp (conj Hw Hu)) as (? & ? & _ & ?). done.
    - intros (Hc & Hd & Hpu & Hs). destruct (proj2 Hp) as [Hw Hu]; [by split_and!|]. done. }
  destruct (count_fast f (hex_encode pk)); rewrite Hall by auto; exact Hone.
Qed.

Lemma requested_elem (f : ReqFilter) requested :
  extract_channel_ids_from_filters [f] = Some requested ->
  exists vs, f_generic_tags f !! h_tag = Some vs /\
    forall x, x ∈ requested <-> exists v, v ∈ vs /\ uuid_parse_str v = Some x.
Proof.
  cbn. destruct (f_generic_tags f !! h_tag) as [vs|]; cbn; [|done]. intros [= <-]. exists vs. split; [done|]. intros x.
  rewrite app_nil_r, elem_of_dedup_first, list_elem_of_omap. by setoid_rewrite elem_of_elements.
Qed.

Lemma count_scoped_clause mentions c (f : ReqFilter) requested accessible pk :
  exact_filter f -> extract_channel_ids_from_filters [f] = Some requested ->
  let authorized := List.filter (fun ch => bool_decide (ch ∈ accessible)) requested in
  authorized <> [] -> scoped_clause mentions c f accessible (count_scoped_query c f requested authorized accessible pk).
Proof.
  intros Hxf Hreq authorized Hne r. destruct (requested_elem f requested Hreq) as (vs & Hvs & Hel).
  pose proof (fun v => xf_h _ Hxf vs v Hvs) as Hcan. unfold count_scoped_query.
  set (q0 := build_event_query_from_filter f c).
  destruct (elements_cases vs) as [[_ Hempty]|[(v & _ & Hone)|(a & b & l & _ & _ & Hmany)]].
  { by apply (xf_tags _ Hxf) in Hvs. }
  - destruct (Hcan v) as [u Hu]; [rewrite Hone; apply elem_of_singleton; reflexivity|].
    assert (requested = [u]) as ->.
    { revert Hreq. cbn. rewrite Hvs. cbn. rewrite Hone, elements_singleton, Hu. cbn. rewrite uuid_round. by intros [= <-]. }
    assert (authorized = [u] /\ u ∈ accessible) as [Hau Hacc].
    { unfold authorized in *. cbn in *. destruct (bool_decide (u ∈ accessible)) eqn:Eb; [|done].
      by apply bool_decide_eq_true in Eb. }
    rewrite Hau. cbn [length Nat.eqb head apply_channel_scope_to_query].
    destruct (count_reader_clause mentions f pk q0 r) as [-> ->].
    assert (q0 = filter_to_query_params f (Some u) c) as ->.
    { unfold q0, build_event_query_from_filter, extract_channel_id_from_filter. rewrite Hvs. cbn.
      rewrite (proj2 (only_value_spec vs v) Hone). cbn. by rewrite Hu, uuid_round. }
    rewrite push_where. unfold in_scope. rewrite Hvs. split.
    + intros (? & ? & Hpin & ?). split_and!; try done. exists u. split_and!; [by apply Hpin|done|].
      subst. by apply elem_of_singleton.
    + intros (? & ? & ? & x & Hx & _ & Hin). split_and!; try done. intros ch [= <-]. rewrite Hx.
      rewrite Hone, Hu, elem_of_singleton in Hin. apply (f_equal uuid_parse_str) in Hin. rewrite !uuid_round in Hin. done.
  - assert (length requested <> 1)%nat as Hlen.
    { destruct requested as [|x [|]]; try done. intros _. apply (Hmany (uuid_to_string x)). apply set_eq. intros w.
      assert (forall w', w' ∈ vs -> w' = uuid_to_string x) as Hall.
      { intros w' Hw'. destruct (Hcan w' Hw') as [u ->]. f_equal. apply list_elem_of_singleton, Hel.
        eexists. split; [done|apply uuid_round]. }
      rewrite elem_of_singleton. split; [apply Hall|]. intros ->.
      destruct (proj1 (Hel x)) as (w & Hw & _); [by left|]. by rewrite <- (Hall w Hw). }
    apply Nat.eqb_neq in Hlen as ->. cbn [apply_channel_scope_to_query]. rewrite Hvs.
    set (q1 := with_channel_ids (Some (authorized_h vs accessible)) false q0).
    destruct (count_reader_clause mentions f pk q1 r) as [-> ->].
    assert (q0 = filter_to_query_params f None c) as Eq0.
    { unfold q0, build_event_query_from_filter, extract_channel_id_from_filter. rewrite Hvs. cbn.
      destruct (only_value vs) as [w|] eqn:Eo; [|done]. apply only_value_spec in Eo. by destruct (Hmany w). }
    unfold q1. rewrite where_common_scope; [|rewrite Eq0; apply params_fields]. unfold in_scope. rewrite Hvs.
    rewrite <- where_ids_h with (q := q0) by done.
    pose proof (push_where mentions f None c r) as Hp. cbn zeta in Hp. rewrite <- Eq0 in Hp.
    change (q_until (with_channel_ids _ _ _)) with (q_until q0). rewrite !andb_true_iff in *. split.
    + intros [[Hw Hs] Hu]. destruct (proj1 Hp (conj Hw Hu)) as (? & ? & _ & ?). done.
    + intros (Hc & Hd & Hpu & Hs). destruct (proj2 Hp) as [Hw Hu]; [by split_and!|]. done.
Qed.

(** ** One filter *)


(** The fields of a COUNT query that no clause above reads. *)
Lemma count_query_shape c f accessible pk q :
  q = count_open_query c f accessible pk \/ (exists requested authorized, q = count_scoped_query c f requested authorized accessible pk) ->
  q_before_id q = None /\ q_global_only q = false /\ q_offset q = None /\ q_custom_tag q = None /\
  (q_shared_gated_reader q = None \/ q_shared_gated_reader q = Some pk) /\ pushed_lists f q.
Proof.
  destruct (params_fields f (extract_channel_id_from_filter f) c)
    as (_ & _ & Eg & _ & _ & _ & _ & _ & _ & _ & Ec & Eb & Es & Eo & _ & _).
  pose proof (params_lists f (extract_channel_id_from_filter f) c) as Hl.
  intros [-> | (requested & authorized & ->)];
    unfold count_open_query, count_scoped_query, with_count_reader, apply_channel_scope_to_query, build_event_query_from_filter;
    repeat case_match; split_and!; try done; try (by left); by right.
Qed.

Lemma countable_row_spec c (f : ReqFilter) accessible reader mentions r stored :
  indexed mentions r stored ->
  countable_row c f accessible (rd_pk_bytes reader) r = true <->
  er_community_id r = c /\ er_deleted_at r = None /\ filter_accepts f stored /\
  (forall ch, er_channel_id r = Some ch -> ch ∈ accessible) /\ may_read reader (se_event stored).
Proof.
  intros Hix. unfold countable_row. rewrite (ix_read _ _ _ Hix), !andb_true_iff, !bool_decide_eq_true, deliverable_spec,
    event_visible_spec, (row_to_stored_channel _ _ (ix_read _ _ _ Hix)). tauto.
Qed.

(** A row the filter accepts lies in the scope of the clause when its channel
    is accessible. *)
Lemma accepts_in_scope (f : ReqFilter) stored accessible :
  filter_accepts f stored -> addressed f stored -> (forall ch, se_channel_id stored = Some ch -> ch ∈ accessible) ->
  in_scope f accessible (se_channel_id stored).
Proof.
  intros Hacc Had Hch. unfold in_scope. destruct (f_generic_tags f !! h_tag) as [vs|] eqn:Evs; [|done].
  destruct (accepts_h f stored vs Hacc Had Evs) as (ch & Hs & Hin). eauto.
Qed.

Lemma in_scope_accessible (f : ReqFilter) accessible o : in_scope f accessible o -> forall ch, o = Some ch -> ch ∈ accessible.
Proof. unfold in_scope. destruct (_ !! _); [|done]. intros (x & -> & ? & _) ch [= <-]. done. Qed.

(** What makes the rows of a database countable exactly for a filter: the tags
    its clauses read agree with the columns and the indexes. *)
Definition countable_db (db : EventDb) (f : ReqFilter) : Prop :=
  well_stored db /\
  forall r stored, r ∈ db_events db -> row_to_stored_event r = Ok (Some stored) ->
    addressed f stored /\ plain_event f (se_event stored).

(** The selected rows that count are the countable rows, on either path. *)
Lemma clause_countable db c (f : ReqFilter) accessible reader q r stored :
  countable_db db f -> exact_filter f -> pushable_bounds f ->
  scoped_clause (db_mentions db) c f accessible q -> r ∈ db_events db -> row_to_stored_event r = Ok (Some stored) ->
  (countable_row c f accessible (rd_pk_bytes reader) r = true ->
     where_common (db_mentions db) q r && is_none_or (q_until q) (fun u => (er_created_at r <=? u)%Z) = true) /\
  (where_common (db_mentions db) q r && is_none_or (q_until q) (fun u => (er_created_at r <=? u)%Z) = true ->
     (forall ks, f_kinds f = Some ks -> ks <> ∅) -> filter_fully_pushable f = true -> filter_accepts f stored) /\
  (where_common (db_mentions db) q r && is_none_or (q_until q) (fun u => (er_created_at r <=? u)%Z) = true ->
     filter_accepts f stored -> may_read reader (se_event stored) -> countable_row c f accessible (rd_pk_bytes reader) r = true).
Proof.
  intros [Hws Hpl] Hxf Hpb Hcl Hr Hrow. destruct (Hws r Hr) as (st & Hix & _). destruct (Hpl r stored Hr Hrow) as [Had Hpe].
  assert (st = stored) as -> by (pose proof (ix_read _ _ _ Hix); congruence).
  pose proof (row_to_stored_channel _ _ Hrow) as Hch. rewrite (Hcl r). split_and!.
  - intros (Hc & Hd & Hacc & Hacs & Hmr)%(countable_row_spec c f accessible reader _ _ _ Hix). split_and!; try done.
    + subst c. by apply accepts_pushed with (stored := stored).
    + rewrite <- Hch. apply accepts_in_scope; [done..|]. by rewrite Hch.
  - intros (Hc & Hd & Hpu & Hs) Hkne Hfull. subst c.
    apply (pushed_accepts (db_mentions db) f r stored accessible); done.
  - intros (Hc & Hd & Hpu & Hs) Hacc Hmr. apply (countable_row_spec c f accessible reader _ _ _ Hix).
    split_and!; try done. by apply (in_scope_accessible f).
Qed.

Lemma no_kinds_no_rows db c (f : ReqFilter) accessible reader :
  f_kinds f = Some ∅ -> reference_count db c f accessible reader = 0%N.
Proof.
  intros Hk. unfold reference_count. rewrite (filter_length_ext _ (fun _ => false)).
  - by induction (db_events db).
  - intros r _. unfold countable_row. destruct (row_to_stored_event r) as [[stored|]|]; rewrite ?andb_false_r; [|done..].
    destruct (deliverable f accessible reader stored) eqn:Ed; [|by rewrite andb_false_r].
    apply deliverable_spec in Ed as (Hacc & _). pose proof (fa_kinds _ _ Hacc _ Hk). set_solver.
Qed.

Lemma counts_spec (f : ReqFilter) reader stored :
  counts f (rd_pk_bytes reader) stored = true <-> filter_accepts f stored /\ may_read reader (se_event stored).
Proof.
  unfold counts. rewrite if_false_then, negb_false_iff, filters_match_spec, event_visible_spec.
  setoid_rewrite list_elem_of_singleton. naive_solver.
Qed.

Lemma fallback_where mentions q r stored reader :
  indexed mentions r stored -> may_read reader (se_event stored) ->
  q_before_id q = None -> q_custom_tag q = None ->
  (q_shared_gated_reader q = None \/ q_shared_gated_reader q = Some (rd_pk_bytes reader)) ->
  query_where mentions (apply_count_fallback_limit q) r =
  where_common mentions q r && is_none_or (q_until q) (fun u => (er_created_at r <=? u)%Z).
Proof.
  intros Hix Hmr Hb Hc Hs. unfold query_where.
  change (where_common mentions (apply_count_fallback_limit q) r) with (where_common mentions q r).
  assert (where_custom_tag (apply_count_fallback_limit q) r = true) as -> by (unfold where_custom_tag; cbn; by rewrite Hc).
  assert (where_shared (apply_count_fallback_limit q) r = true) as ->.
  { apply (visible_shared mentions r stored (rd_pk_bytes reader)); [done|by apply event_visible_spec|done]. }
  rewrite !andb_true_r. f_equal. unfold where_until. cbn. by rewrite Hb.
Qed.

Lemma fallback_where_sound mentions q r :
  q_before_id q = None -> query_where mentions (apply_count_fallback_limit q) r = true ->
  where_common mentions q r && is_none_or (q_until q) (fun u => (er_created_at r <=? u)%Z) = true.
Proof.
  intros Hb. unfold query_where. rewrite !andb_true_iff. intros [[[Hw _] Hu] _]. split; [exact Hw|].
  unfold where_until in Hu. cbn in Hu. by rewrite Hb in Hu.
Qed.

(** The fallback: a page below the candidate limit is the whole selection. *)
Lemma fallback_rows db q evs :
  (forall r, r ∈ db_events db -> exists stored, row_to_stored_event r = Ok (Some stored)) ->
  q_before_id q = None -> q_global_only q = false -> q_offset q = None -> matches_nothing q = false ->
  query_events_on db (apply_count_fallback_limit q) = Ok evs -> count_fallback_exceeded (length evs) = false ->
  forall p, length (List.filter p evs) =
    length (List.filter (fun r => query_where (db_mentions db) (apply_count_fallback_limit q) r &&
      match row_to_stored_event r with Ok (Some stored) => p stored | _ => false end) (db_events db)).
Proof.
  intros Hread Hb Hg Ho Hmn. unfold query_events_on.
  change (q_before_id (apply_count_fallback_limit q)) with (q_before_id q).
  change (q_global_only (apply_count_fallback_limit q)) with (q_global_only q).
  change (matches_nothing (apply_count_fallback_limit q)) with (matches_nothing q).
  change (q_offset (apply_count_fallback_limit q)) with (q_offset q).
  rewrite Hb, Hg, Ho, Hmn. rewrite (bool_decide_false (is_Some None)) by apply is_Some_None. cbn [andb default].
  set (sel := sort_by row_before _).
  assert (forall r, r ∈ sel -> r ∈ db_events db) as Hsel.
  { intros r Hr. apply elem_of_sort_by, elem_of_filter_bool in Hr. tauto. }
  change (sql_page _ 0 sel) with (Ok (E := DbError) (firstn (Z.to_nat 5001) sel)). rewrite bind_ok.
  intros (rows & [= <-] & Hr) Hex p. unfold count_fallback_exceeded in Hex. apply Z.ltb_ge in Hex.
  destruct (read_rows_count p (firstn (Z.to_nat 5001) sel) evs) as [Hlen Hf]; [|done|].
  { intros r Hin. apply Hread, Hsel. by apply (subseteq_take (Z.to_nat 5001)). }
  assert (firstn (Z.to_nat 5001) sel = sel) as Hall.
  { apply take_ge. rewrite Hlen, length_take in Hex. unfold COUNT_FALLBACK_CANDIDATE_LIMIT in Hex. lia. }
  rewrite Hall in Hf. rewrite Hf. unfold sel. rewrite (filter_length_perm _ _ _ (sort_by_perm _ _)). apply filter_length_filter.
Qed.

Lemma count_query_exact db c (f : ReqFilter) accessible reader q n :
  countable_db db f -> exact_filter f -> pushable_bounds f -> scoped_clause (db_mentions db) c f accessible q ->
  q_before_id q = None -> q_global_only q = false -> q_offset q = None -> q_custom_tag q = None ->
  (q_shared_gated_reader q = None \/ q_shared_gated_reader q = Some (rd_pk_bytes reader)) -> pushed_lists f q ->
  count_query (mkRoute None (Some db)) f (rd_pk_bytes reader) q = Ok n ->
  n = reference_count db c f accessible (rd_pk_bytes reader).
Proof.
  intros Hdb Hxf Hpb Hcl Hb Hg Ho Hcu Hsh Hl. unfold count_query. rewrite hex_encode_pk.
  assert (forall r, r ∈ db_events db -> exists stored, row_to_stored_event r = Ok (Some stored) /\
            indexed (db_mentions db) r stored) as Hread.
  { intros r Hr. destruct Hdb as [Hws _]. destruct (Hws r Hr) as (st & Hix & _). exists st. split; [apply (ix_read _ _ _ Hix)|done]. }
  destruct (matches_nothing q) eqn:Emn.
  { rewrite no_kinds_no_rows by by apply (matches_nothing_kinds f q).
    unfold count_events_routed, query_events_routed_bounded, routed, on_session, count_events_on, query_events_on; cbn [rt_replica rt_writer].
    change (q_before_id (apply_count_fallback_limit q)) with (q_before_id q).
    change (q_global_only (apply_count_fallback_limit q)) with (q_global_only q).
    change (matches_nothing (apply_count_fallback_limit q)) with (matches_nothing q).
    rewrite Emn, Hb, Hg, (bool_decide_false (is_Some None)) by apply is_Some_None. cbn.
    destruct (count_fast _ _); by intros [= <-]. }
  assert (forall ks, f_kinds f = Some ks -> ks <> ∅) as Hkne.
  { intros ks Hks ->. destruct Hl as (_ & Hlk & _). unfold matches_nothing, list_is_empty in Emn. by rewrite Hlk, Hks in Emn. }
  destruct (count_fast f (rd_pk_hex reader)) eqn:Efast.
  - unfold count_events_routed, routed, on_session, count_events_on; cbn [rt_replica rt_writer]. rewrite Emn.
    intros [= <-]. unfold reference_count. rewrite <- nat_N_Z, N2Z.id. f_equal.
    apply filter_length_ext. intros r Hr. destruct (Hread r Hr) as (stored & Hrow & Hix). unfold count_where.
    destruct (clause_countable db c f accessible reader q r stored) as (Hin & Hacc & Hout); try done.
    apply Bool.eq_iff_eq_true. split; [|done]. intros Hw.
    assert (filter_accepts f stored) as Ha.
    { apply Hacc; [done..|]. unfold count_fast in Efast. rewrite !andb_true_iff in Efast. tauto. }
    apply Hout; [done..|]. by apply (count_fast_visible f).
  - unfold query_events_routed_bounded, routed, on_session; cbn [rt_replica rt_writer].
    destruct (query_events_on db (apply_count_fallback_limit q)) as [evs|] eqn:Eq; [|done].
    destruct (count_fallback_exceeded (length evs)) eqn:Eex; [done|]. intros [= <-]. unfold reference_count. f_equal.
    rewrite (fallback_rows db q evs); try done; [|intros r Hr; destruct (Hread r Hr) as (st & ? & _); eauto].
    apply filter_length_ext. intros r Hr. destruct (Hread r Hr) as (stored & Hrow & Hix). rewrite Hrow.
    destruct (clause_countable db c f accessible reader q r stored) as (Hin & _ & Hout); try done.
    apply Bool.eq_iff_eq_true. rewrite andb_true_iff, counts_spec. split.
    + intros (Hw & Hacc & Hmr). apply Hout; [by apply fallback_where_sound|done..].
    + intros Hcr. pose proof Hcr as (_ & _ & Hacc & _ & Hmr)%(countable_row_spec c f accessible reader _ _ _ Hix).
      split; [|done]. rewrite (fallback_where _ q r stored reader) by done. auto.
Qed.

(** ** The request *)

(** A filter and a database for which COUNT is exact. *)
Definition countable_filter (db : EventDb) (f : ReqFilter) : Prop :=
  countable_db db f /\ exact_filter f /\ pushable_bounds f.

Lemma count_loop_reference env db c reader token idx filters accessible total n :
  (forall n, env_route env n = mkRoute None (Some db)) -> (forall f, f ∈ filters -> countable_filter db f) ->
  count_loop env c (rd_pk_bytes reader) token idx filters accessible total = Ok n ->
  exists m, count_reference env db c (rd_pk_bytes reader) token filters accessible = Some m /\ n = (total + m)%N.
Proof.
  intros Hroute. revert idx accessible total; induction filters as [|f filters IH]; intros idx accessible total Hfs; cbn [count_loop count_reference].
  { intros [= <-]. exists 0%N. split; [done|lia]. }
  destruct (Hfs f) as (Hdb & Hxf & Hpb); [by left|].
  specialize (fun i a t => IH i a t (fun g Hg => Hfs g (list_elem_of_further _ _ _ Hg))).
  destruct (extract_channel_ids_from_filters [f]) as [requested|] eqn:Ereq;
    [change (default [] (Some requested)) with requested|change (default [] (@None (list N))) with (@nil N)].
  - destruct (count_confirm _ _ _ _ requested accessible) as [acc|] eqn:Econf; [|done]. cbn [mbind option_bind].
    set (authorized := List.filter _ requested).
    destruct (length authorized =? 0)%nat eqn:Eau.
    + intros (m & Hm & ->)%IH. rewrite Hm. cbn. eexists. split; [done|].
      apply Nat.eqb_eq, nil_length_inv in Eau.
      assert (reference_count db c f acc (rd_pk_bytes reader) = 0%N) as ->; [|lia].
      destruct (requested_elem f requested Ereq) as (vs & Hvs & Hel). destruct Hdb as [Hws Hpl].
      unfold reference_count. rewrite (filter_length_ext _ (fun _ => false)); [clear; by induction (db_events db)|].
      intros r Hr. destruct (Hws r Hr) as (st & Hix & _). destruct (Hpl r st Hr (ix_read _ _ _ Hix)) as [Had _].
      destruct (countable_row c f acc (rd_pk_bytes reader) r) eqn:Ec; [|done].
      apply (countable_row_spec c f acc reader _ _ _ Hix) in Ec as (_ & _ & Hacc & Hch & _).
      destruct (accepts_h f st vs Hacc Had Hvs) as (ch & Hs & Hin).
      rewrite (row_to_stored_channel _ _ (ix_read _ _ _ Hix)) in Hs.
      assert (ch ∈ authorized) as Hc; [|rewrite Eau in Hc; by apply elem_of_nil in Hc].
      apply elem_of_filter_bool. rewrite bool_decide_eq_true. split; [|by apply Hch].
      apply Hel. eexists. split; [done|apply uuid_round].
    + intros (k & Hk & Hrest)%bind_ok. apply IH in Hrest as (m & Hm & ->). rewrite Hm. cbn. eexists. split; [done|].
      rewrite Hroute in Hk. apply Nat.eqb_neq in Eau.
      destruct (count_query_shape c f acc (rd_pk_bytes reader) (count_scoped_query c f requested authorized acc (rd_pk_bytes reader)))
        as (? & ? & ? & ? & ? & ?); [eauto|].
      apply count_query_exact with (c := c) (accessible := acc) in Hk as ->; try done; [lia|].
      apply count_scoped_clause; [done..|]. intros Hn. apply Eau. unfold authorized. by rewrite Hn.
  - cbn [count_confirm mbind option_bind].
    intros (k & Hk & Hrest)%bind_ok. apply IH in Hrest as (m & Hm & ->). rewrite Hm. cbn. eexists. split; [done|].
    rewrite Hroute in Hk.
    destruct (count_query_shape c f accessible (rd_pk_bytes reader) (count_open_query c f accessible (rd_pk_bytes reader)))
      as (? & ? & ? & ? & ? & ?); [eauto|].
    apply count_query_exact with (c := c) (accessible := accessible) in Hk as ->; try done; [lia|].
    apply count_open_clause. revert Ereq. cbn. by destruct (f_generic_tags f !! h_tag).
Qed.

(** C18: a COUNT answers the reference: the number sent is the sum over the
    filters of the live rows of the community that a REQ for that filter may
    deliver to this reader, channel access, gates and visibility included, on
    the SQL path and on the fallback alike; a filter whose channels are all
    inaccessible adds nothing.  It holds when one database answers every query,
    for filters SQL can state exactly ([exact_filter], [pushable_bounds]: no
    empty set, times the database holds, lower-case [#p] keys, canonical channel
    ids) over rows whose columns are those of their
    events and whose tags agree with the indexes for the clauses the filter has:
    under [#h] the [h] tags print the stored channel, under [#d] an addressable
    row has one [d] value, under [#p] the keys are lower-case, under [#e] no
    queried value stands in a tag out of its place.  The relay stores rows for
    which these fail, and for them COUNT may differ. *)
Theorem count_answers_reference env conn sub filters db total :
  handle_count env conn sub filters = CountSend (count_message sub total) ->
  (forall n, env_route env n = mkRoute None (Some db)) -> (forall f, f ∈ filters -> countable_filter db f) ->
  exists ctx base, cs_auth_state conn = Authenticated ctx /\
    base_channels env (cs_tenant conn) (rd_pk_bytes (ac_pubkey ctx)) (ac_channel_ids ctx) false = Ok base /\
    count_reference env db (cs_tenant conn) (rd_pk_bytes (ac_pubkey ctx)) (ac_channel_ids ctx) filters base = Some total.
Proof.
  intros Hh Hroute Hfs. unfold handle_count in Hh. destruct (cs_auth_state conn) as [|ctx|]; [done| |done].
  destruct (current_relay_membership_for_auth _ (env_roster env) _ _) as [[|]|]; [|done..].
  destruct (count_gate_refusal _ _); [done|]. destruct (extract_channel_ids_from_filters_limited filters); [|done].
  destruct (base_channels _ _ _ _ _) as [base|] eqn:Eb; [|done].
  destruct (count_loop _ _ _ _ _ _ _ _) as [n|] eqn:El; [|done].
  destruct (current_relay_membership_for_auth _ (env_roster_again env) _ _) as [[|]|]; [|done..].
  injection Hh as ->. exists ctx, base. split_and!; [done..|].
  apply (count_loop_reference env db) in El as (m & -> & ->); [by rewrite N.add_0_l|done..].
Qed.

(** The channel clause of a COUNT is dropped when its [#h] values are not
    all channel ids: if they name one accessible channel but there are several
    of them (a malformed value beside it, or a second spelling of it), the SQL
    count has no channel condition at all, and answers with the rows of every
    channel of the community, whether or not the reader may read them, that
    match the rest of the filter. *)
Theorem count_garbled_h_unscoped db c (f : ReqFilter) vs ch accessible reader n :
  f_generic_tags f !! h_tag = Some vs -> only_value vs = None ->
  extract_channel_ids_from_filters [f] = Some [ch] -> ch ∈ accessible ->
  count_fast f (rd_pk_hex reader) = true -> f_kinds f <> Some ∅ ->
  count_query (mkRoute None (Some db)) f (rd_pk_bytes reader)
    (count_scoped_query c f [ch] (List.filter (fun x => bool_decide (x ∈ accessible)) [ch]) accessible (rd_pk_bytes reader)) = Ok n ->
  exists p, n = N.of_nat (length (List.filter p (db_events db))) /\
    forall r, p r = true <-> er_community_id r = c /\ er_deleted_at r = None /\ pushed (db_mentions db) c f r.
Proof.
  intros Hvs Hone Hreq Hacc Hfast Hk. cbn [List.filter]. rewrite bool_decide_true by done.
  unfold count_scoped_query. cbn [length Nat.eqb head apply_channel_scope_to_query].
  unfold with_count_reader. assert (filter_can_match_shared_gated_kinds f = false) as ->.
  { unfold count_fast in Hfast. rewrite !andb_true_iff, !negb_true_iff in Hfast. tauto. }
  assert (build_event_query_from_filter f c = filter_to_query_params f None c) as ->.
  { unfold build_event_query_from_filter, extract_channel_id_from_filter. rewrite Hvs. cbn. by rewrite Hone. }
  unfold count_query. rewrite hex_encode_pk, Hfast. unfold count_events_routed, routed, on_session, count_events_on.
  cbn [rt_replica rt_writer]. destruct (matches_nothing _) eqn:Emn.
  { destruct Hk. apply (matches_nothing_kinds f (filter_to_query_params f None c)); [apply params_lists|done]. }
  intros [= <-]. exists (count_where (db_mentions db) (filter_to_query_params f None c)).
  split; [by rewrite <- nat_N_Z, N2Z.id|]. intros r. unfold count_where. rewrite push_where.
  split; [intros (? & ? & _ & ?); done|]. intros (? & ? & ?). by split_and!.
Qed.
End reference.
