(* ===== verification/ReadTopics.v ===== *)
(** The registration of a subscription and the Redis topics it holds.

    [handle_req] registers a subscription, releases the topics of the one it
    replaced and retains its own; CLOSE, an eviction and the end of a connection
    remove subscriptions and release theirs.  These tasks share the registry
    (buzz-relay/src/subscription.rs) and the desired-topic counts of
    buzz-pubsub/src/lib.rs and interleave at every await: a task is a program
    counter, an atomic step is one call under its lock, and a world is the
    shared state with the tasks in flight. *)

From S2P Require Import Prelude Nostr Filter Subscription SubscriptionIndex SubscriptionSpec.

(** ** Topics *)

Inductive EventTopic :=
| TopicChannel (channel : Uuid)
| TopicGlobal.

Record EventTopicKey := mkTopicKey { tk_community_id : CommunityId; tk_topic : EventTopic }.

#[export] Instance EventTopic_eq_dec : EqDecision EventTopic.
Proof. solve_decision. Defined.
#[export] Instance EventTopicKey_eq_dec : EqDecision EventTopicKey.
Proof. solve_decision. Defined.
#[export] Instance EventTopic_countable : Countable EventTopic.
Proof.
  apply (inj_countable' (fun t => match t with TopicChannel ch => Some ch | TopicGlobal => None end)
                        (fun o => match o with Some ch => TopicChannel ch | None => TopicGlobal end)). by intros [].
Defined.
#[export] Instance EventTopicKey_countable : Countable EventTopicKey.
Proof.
  apply (inj_countable' (fun k => (tk_community_id k, tk_topic k)) (fun p => mkTopicKey p.1 p.2)). by intros [].
Defined.

(** [PubSubManager]'s [desired_topics]. *)
Abbreviation Topics := (gmap EventTopicKey N) (only parsing).

Definition retain_topic (topics : Topics) (key : EventTopicKey) : Topics :=
  <[key := (default 0 (topics !! key) + 1)%N]> topics.

Definition release_topic (topics : Topics) (key : EventTopicKey) : Topics :=
  match topics !! key with
  | None => topics
  | Some count => if (count - 1 =? 0)%N then delete key topics else <[key := (count - 1)%N]> topics
  end.

Definition topic_refcount (topics : Topics) (key : EventTopicKey) : N := default 0%N (topics !! key).

(** The topics of a scope, in the order they are released. *)
Definition scope_topics (tenant : CommunityId) (scope : SubscriptionScope) : list EventTopicKey :=
  if is_global scope then [mkTopicKey tenant TopicGlobal]
  else (fun ch => mkTopicKey tenant (TopicChannel ch)) <$> channel_ids scope.

(** ** Tasks *)

Record Shared := mkShared {
  sh_registry : SubscriptionRegistry;
  sh_topics : Topics;
  sh_subscriptions : gmap ConnId (gmap SubId (list Filter));
}.

(** [conn.subscriptions]: insert and remove under its lock. *)
Definition local_insert (conn : ConnId) (sub : SubId) (fs : list Filter) (sh : Shared) : Shared :=
  mkShared (sh_registry sh) (sh_topics sh)
    (<[conn := <[sub := fs]> (default ∅ (sh_subscriptions sh !! conn))]> (sh_subscriptions sh)).
Definition local_remove (conn : ConnId) (sub : SubId) (sh : Shared) : Shared :=
  mkShared (sh_registry sh) (sh_topics sh)
    (<[conn := delete sub (default ∅ (sh_subscriptions sh !! conn))]> (sh_subscriptions sh)).

(** Where [handle_req] is, from the point where its plan was [Subscribe]. *)
Inductive RegPc :=
| RegInsert
| RegRegister
| RegCheck (replaced : option RemovedSubscription)
| RegRelease (rest : list EventTopicKey)
| RegRetain (rest : list EventTopicKey)
| RegFence
| RegUndo (rest : list EventTopicKey)
| RegForget
| RegDone (live : bool).

Record RegJob := mkRegJob {
  rj_conn : ConnId;
  rj_tenant : CommunityId;
  rj_sub : SubId;
  rj_filters : list Filter;
  rj_scope : option (list Uuid);
}.

(** The scope the registry gets. *)
Definition job_scope (j : RegJob) : SubscriptionScope :=
  match rj_scope j with Some chs => Channels chs | None => Global end.

(** Take the entry out of the registry again. *)
Definition undo_registration (j : RegJob) (sh : Shared) : RegPc * Shared :=
  let '(registry, removed) := remove_subscription (rj_conn j) (rj_sub j) (sh_registry sh) in
  let sh := mkShared registry (sh_topics sh) (sh_subscriptions sh) in
  match removed with
  | Some removed => (RegUndo (scope_topics (rj_tenant j) (rs_scope removed)), sh)
  | None => (RegForget, sh)
  end.

(** One atomic step of the registration; [cancelled] is what the connection's
    token shows if the step reads it. *)
Definition reg_step (cancelled : bool) (j : RegJob) (pc : RegPc) (sh : Shared) : RegPc * Shared :=
  match pc with
  | RegInsert => (RegRegister, local_insert (rj_conn j) (rj_sub j) (rj_filters j) sh)
  | RegRegister =>
      let '(registry, replaced) :=
        match rj_scope j with
        | Some chs => register_channels_scoped (rj_tenant j) (rj_conn j) (rj_sub j) (rj_filters j) chs (sh_registry sh)
        | None => register_scoped (rj_tenant j) (rj_conn j) (rj_sub j) (rj_filters j) None (sh_registry sh)
        end in
      (RegCheck replaced, mkShared registry (sh_topics sh) (sh_subscriptions sh))
  | RegCheck replaced =>
      if cancelled then undo_registration j sh
      else (RegRelease (match replaced with Some r => scope_topics (rj_tenant j) (rs_scope r) | None => [] end), sh)
  | RegRelease [] => (RegRetain (scope_topics (rj_tenant j) (job_scope j)), sh)
  | RegRelease (key :: rest) =>
      (RegRelease rest, mkShared (sh_registry sh) (release_topic (sh_topics sh) key) (sh_subscriptions sh))
  | RegRetain [] => (RegFence, sh)
  | RegRetain (key :: rest) =>
      (RegRetain rest, mkShared (sh_registry sh) (retain_topic (sh_topics sh) key) (sh_subscriptions sh))
  | RegFence =>
      if cancelled || negb (contains (rj_conn j) (rj_sub j) (sh_registry sh)) then undo_registration j sh
      else (RegDone true, sh)
  | RegUndo [] => (RegForget, sh)
  | RegUndo (key :: rest) =>
      (RegUndo rest, mkShared (sh_registry sh) (release_topic (sh_topics sh) key) (sh_subscriptions sh))
  | RegForget => (RegDone false, local_remove (rj_conn j) (rj_sub j) sh)
  | RegDone live => (RegDone live, sh)
  end.

(** [handle_close]: the registry part; the topics it then releases. *)
Definition close_subscription (tenant : CommunityId) (conn : ConnId) (sub : SubId) (sh : Shared)
  : list EventTopicKey * Shared :=
  let sh := local_remove conn sub sh in
  let '(registry, removed) := remove_subscription conn sub (sh_registry sh) in
  (match removed with Some removed => scope_topics tenant (rs_scope removed) | None => [] end,
   mkShared registry (sh_topics sh) (sh_subscriptions sh)).

(** [detach_connection_subscriptions] and the cleanup of a closed connection. *)
Definition detach_connection (tenant : CommunityId) (conn : ConnId) (sh : Shared) : list EventTopicKey * Shared :=
  let '(registry, removed) := remove_connection conn (sh_registry sh) in
  (removed ≫= (fun r => scope_topics tenant (rs_scope r)),
   mkShared registry (sh_topics sh) (<[conn := ∅]> (sh_subscriptions sh))).

(** ** Worlds *)

Record World := mkWorld {
  w_shared : Shared;
  w_regs : list (RegJob * RegPc);
  w_releases : list (list EventTopicKey);
  w_cancelled : gset ConnId;
}.

Inductive Action :=
| Start (j : RegJob)
| Advance (n : nat)
| Close (conn : ConnId) (sub : SubId)
| Detach (conn : ConnId)
| Cancel (conn : ConnId)
| ReleaseOne (n : nat).

Section world.
(** The community a connection is bound to. *)
Context (tenant_of : ConnId -> CommunityId).

Definition run_action (w : World) (a : Action) : option World :=
  match a with
  | Start j =>
      if bool_decide (rj_tenant j = tenant_of (rj_conn j)) then
        Some (mkWorld (w_shared w) (w_regs w ++ [(j, RegInsert)]) (w_releases w) (w_cancelled w))
      else None
  | Advance n =>
      '(j, pc) ← w_regs w !! n;
      let '(pc, sh) := reg_step (bool_decide (rj_conn j ∈ w_cancelled w)) j pc (w_shared w) in
      Some (mkWorld sh (<[n := (j, pc)]> (w_regs w)) (w_releases w) (w_cancelled w))
  | Close conn sub =>
      let '(keys, sh) := close_subscription (tenant_of conn) conn sub (w_shared w) in
      Some (mkWorld sh (w_regs w) (w_releases w ++ [keys]) (w_cancelled w))
  | Detach conn =>
      let '(keys, sh) := detach_connection (tenant_of conn) conn (w_shared w) in
      Some (mkWorld sh (w_regs w) (w_releases w ++ [keys]) (w_cancelled w))
  | Cancel conn => Some (mkWorld (w_shared w) (w_regs w) (w_releases w) ({[conn]} ∪ w_cancelled w))
  | ReleaseOne n =>
      keys ← w_releases w !! n;
      match keys with
      | [] => None
      | key :: keys =>
          Some (mkWorld (mkShared (sh_registry (w_shared w)) (release_topic (sh_topics (w_shared w)) key)
                  (sh_subscriptions (w_shared w))) (w_regs w) (<[n := keys]> (w_releases w)) (w_cancelled w))
      end
  end.

Definition world_new : World := mkWorld (mkShared registry_new ∅ ∅) [] [] ∅.

(** Worlds reached by actions a policy allows. *)
Inductive reachable (policy : World -> Action -> Prop) : World -> Prop :=
| reach_new : reachable policy world_new
| reach_step w a w' : reachable policy w -> policy w a -> run_action w a = Some w' -> reachable policy w'.

End world.

(** ** What the counts should be *)

Definition occ (key : EventTopicKey) (keys : list EventTopicKey) : nat :=
  length (List.filter (fun k => bool_decide (k = key)) keys).

(** The topics of every registered subscription. *)
Definition entry_topics (p : SubId * SubEntry) : list EventTopicKey := scope_topics p.2.1.2 p.2.2.
Definition conn_topics (p : ConnId * gmap SubId SubEntry) : list EventTopicKey := map_to_list p.2 ≫= entry_topics.
Definition registry_topics (r : SubscriptionRegistry) : list EventTopicKey := map_to_list (subs r) ≫= conn_topics.

(** The retains a task still owes, and the releases. *)
Definition owed_retains (p : RegJob * RegPc) : list EventTopicKey :=
  match p.2 with
  | RegCheck _ | RegRelease _ => scope_topics (rj_tenant p.1) (job_scope p.1)
  | RegRetain rest => rest
  | _ => []
  end.
Definition owed_releases (p : RegJob * RegPc) : list EventTopicKey :=
  match p.2 with
  | RegCheck (Some replaced) => scope_topics (rj_tenant p.1) (rs_scope replaced)
  | RegRelease rest | RegUndo rest => rest
  | _ => []
  end.

Definition pending_retains (w : World) : list EventTopicKey := w_regs w ≫= owed_retains.
Definition pending_releases (w : World) : list EventTopicKey := (w_regs w ≫= owed_releases) ++ (w_releases w ≫= id).

Definition refcount (w : World) (key : EventTopicKey) : nat := N.to_nat (topic_refcount (sh_topics (w_shared w)) key).
Definition registered (w : World) (key : EventTopicKey) : nat := occ key (registry_topics (sh_registry (w_shared w))).

(** No task is in flight. *)
Definition quiescent (w : World) : Prop := pending_retains w = [] /\ pending_releases w = [].

(** The step is not the early undo of a registration whose connection was
    cancelled before its topics were retained. *)
Definition calm (w : World) (a : Action) : Prop :=
  forall n j replaced, a = Advance n -> w_regs w !! n = Some (j, RegCheck replaced) -> rj_conn j ∉ w_cancelled w.

(** The topic a step releases, if any. *)
Definition releases (w : World) (a : Action) : option EventTopicKey :=
  match a with
  | Advance n =>
      match w_regs w !! n with
      | Some (_, RegRelease (key :: _)) | Some (_, RegUndo (key :: _)) => Some key
      | _ => None
      end
  | ReleaseOne n => keys ← w_releases w !! n; head keys
  | _ => None
  end.

(** In addition, no topic is released while a task still has to retain it. *)
Definition orderly (w : World) (a : Action) : Prop :=
  calm w a /\ forall key, releases w a = Some key -> occ key (pending_retains w) = 0%nat.

(** ** Lemmas *)

Lemma occ_app key l l' : occ key (l ++ l') = (occ key l + occ key l')%nat.
Proof. unfold occ. by rewrite List.filter_app, length_app. Qed.
Lemma occ_cons key k l : occ key (k :: l) = ((if bool_decide (k = key) then 1 else 0) + occ key l)%nat.
Proof. unfold occ. cbn. by case_bool_decide. Qed.
Lemma occ_nil key : occ key [] = 0%nat.
Proof. done. Qed.

#[export] Instance occ_proper key : Proper ((≡ₚ) ==> eq) (occ key).
Proof. intros l l' Hl. unfold occ. induction Hl; cbn; repeat case_bool_decide; cbn; congruence. Qed.

Lemma release_refcount topics key k :
  topic_refcount (release_topic topics key) k =
  if bool_decide (k = key) then (topic_refcount topics k - 1)%N else topic_refcount topics k.
Proof.
  unfold release_topic, topic_refcount. destruct (topics !! key) as [n|] eqn:E.
  - destruct (n - 1 =? 0)%N eqn:En; case_bool_decide; subst; rewrite ?lookup_delete_eq, ?lookup_delete_ne, ?lookup_insert_eq, ?lookup_insert_ne by done;
      rewrite ?E; cbn; try done. apply N.eqb_eq in En. lia.
  - case_bool_decide; subst; [rewrite E; done|done].
Qed.

Lemma retain_refcount topics key k :
  topic_refcount (retain_topic topics key) k =
  if bool_decide (k = key) then (topic_refcount topics k + 1)%N else topic_refcount topics k.
Proof.
  unfold retain_topic, topic_refcount. case_bool_decide; subst; [by rewrite lookup_insert_eq|by rewrite lookup_insert_ne].
Qed.

(** Sums over maps. *)
Lemma map_bind_delete {B} `{Countable K} {A} (g : K * A -> list B) (m : gmap K A) k a :
  m !! k = Some a -> (map_to_list m ≫= g) ≡ₚ g (k, a) ++ (map_to_list (delete k m) ≫= g).
Proof. intros Hk. rewrite <- (map_to_list_delete m k a Hk). done. Qed.

Lemma map_bind_insert {B} `{Countable K} {A} (g : K * A -> list B) (m : gmap K A) k a :
  (map_to_list (<[k := a]> m) ≫= g) ≡ₚ g (k, a) ++ (map_to_list (delete k m) ≫= g).
Proof.
  rewrite (map_bind_delete g (<[k := a]> m) k a) by apply lookup_insert_eq. by rewrite delete_insert_eq.
Qed.

Lemma map_bind_missing {B} `{Countable K} {A} (g : K * A -> list B) (m : gmap K A) k :
  m !! k = None -> (map_to_list (delete k m) ≫= g) = (map_to_list m ≫= g).
Proof. intros Hk. by rewrite delete_id. Qed.

(** The registry's topics after one connection's table changes. *)
Lemma registry_topics_insert r r' conn m :
  subs r' = <[conn := m]> (subs r) ->
  registry_topics r' ≡ₚ conn_topics (conn, m) ++ (map_to_list (delete conn (subs r)) ≫= conn_topics).
Proof. intros Hs. unfold registry_topics. rewrite Hs. apply map_bind_insert. Qed.

Lemma registry_topics_at r conn :
  registry_topics r ≡ₚ conn_topics (conn, default ∅ (subs r !! conn)) ++ (map_to_list (delete conn (subs r)) ≫= conn_topics).
Proof.
  unfold registry_topics. destruct (subs r !! conn) as [m|] eqn:E.
  - by apply map_bind_delete.
  - rewrite map_bind_missing by done. unfold conn_topics. cbn. by rewrite map_to_list_empty.
Qed.

Lemma remove_from_index_subs conn sub fs c sc r : subs (remove_from_index conn sub fs c sc r) = subs r.
Proof. rewrite remove_from_index_retain_all. apply retain_all_frame. Qed.
Lemma add_to_index_subs conn sub fs c sc r : subs (add_to_index conn sub fs c sc r) = subs r.
Proof. rewrite add_to_index_push_all. apply push_all_frame. Qed.

Lemma remove_subscription_topics conn sub r r' removed :
  remove_subscription conn sub r = (r', removed) ->
  registry_topics r ≡ₚ match removed with Some x => scope_topics (rs_community_id x) (rs_scope x) | None => [] end ++ registry_topics r'.
Proof.
  unfold remove_subscription. destruct (subs r !! conn) as [m|] eqn:Em; [|by intros [= <- <-]].
  destruct (m !! sub) as [[[fs c] sc]|] eqn:Es; [|by intros [= <- <-]]. intros [= <- <-].
  rewrite (registry_topics_at r conn), Em. cbn [default].
  rewrite (registry_topics_insert r _ conn (delete sub m)) by (cbn; by rewrite remove_from_index_subs).
  unfold conn_topics at 1. cbn [snd]. rewrite (map_bind_delete entry_topics m sub) by exact Es.
  unfold entry_topics at 1. cbn. by rewrite <- app_assoc.
Qed.

Lemma remove_subscription_gone conn sub r r' removed :
  remove_subscription conn sub r = (r', removed) -> default ∅ (subs r' !! conn) !! sub = None.
Proof.
  unfold remove_subscription. destruct (subs r !! conn) as [m|] eqn:Em; [|intros [= <- <-]; by rewrite Em].
  destruct (m !! sub) as [[[fs c] sc]|] eqn:Es; [|intros [= <- <-]; by rewrite Em]. intros [= <- <-]. cbn.
  rewrite remove_from_index_subs. cbn. rewrite lookup_insert_eq. cbn. by rewrite lookup_delete_eq.
Qed.

Lemma register_topics c conn sub fs sc r r' removed :
  register_with_scope c conn sub fs sc r = (r', removed) ->
  match removed with Some x => scope_topics (rs_community_id x) (rs_scope x) | None => [] end ++ registry_topics r' ≡ₚ
  scope_topics c sc ++ registry_topics r.
Proof.
  unfold register_with_scope. destruct (remove_subscription conn sub r) as [r1 removed1] eqn:Er. intros [= <- <-].
  rewrite (remove_subscription_topics _ _ _ _ _ Er).
  set (gone := match removed1 with Some _ => _ | None => _ end).
  rewrite (registry_topics_insert r1 _ conn (<[sub := (fs, c, sc)]> (default ∅ (subs r1 !! conn)))) by (by rewrite add_to_index_subs).
  rewrite (registry_topics_at r1 conn). unfold conn_topics at 1. cbn [snd]. rewrite map_bind_insert.
  rewrite map_bind_missing by (by apply (remove_subscription_gone conn sub r r1 removed1)).
  unfold entry_topics at 1. cbn [fst snd]. unfold conn_topics at 2. cbn [snd]. rewrite <- !app_assoc.
  rewrite !(app_assoc gone). by rewrite (Permutation_app_comm gone (scope_topics c sc)), <- !app_assoc.
Qed.

Lemma remove_connection_topics conn r r' removed :
  remove_connection conn r = (r', removed) ->
  registry_topics r ≡ₚ (removed ≫= fun x => scope_topics (rs_community_id x) (rs_scope x)) ++ registry_topics r'.
Proof.
  unfold remove_connection. destruct (subs r !! conn) as [m|] eqn:Em; [|by intros [= <- <-]]. intros [= <- <-].
  rewrite (registry_topics_at r conn), Em. cbn [default].
  set (fold := foldl _ _ _). assert (subs fold = delete conn (subs r)) as Hs.
  { unfold fold. generalize (map_to_list m) as rows. intros rows.
    assert (forall r0, subs (foldl (fun r '(sub_id, (filters, community_id, scope)) =>
      remove_from_index conn sub_id filters community_id scope r) r0 rows) = subs r0) as ->; [|done].
    induction rows as [|[sub [[fs c] sc]] rows IH]; intros r0; cbn; [done|]. by rewrite IH, remove_from_index_subs. }
  unfold registry_topics at 1. change (subs (gauge_add _ fold)) with (subs fold). rewrite Hs.
  apply Permutation_app; [|done]. unfold conn_topics. cbn [snd].
  change (id m) with m. generalize (map_to_list m) as rows.
  induction rows as [|[sub [[fs c] sc]] rows IH]; [done|]. apply Permutation_app; [done|exact IH].
Qed.

(** Replacing one element of a list of tasks. *)
Lemma bind_replace {A B} (g : A -> list B) (l : list A) n x :
  l !! n = Some x -> exists rest, (l ≫= g) ≡ₚ g x ++ rest /\ forall y, (<[n := y]> l ≫= g) ≡ₚ g y ++ rest.
Proof.
  revert n; induction l as [|z l IH]; intros n; [done|]. destruct n as [|n]; cbn.
  - intros [= ->]. by exists (l ≫= g).
  - intros (rest & H1 & H2)%IH. exists (g z ++ rest).
    assert (forall a, g z ++ g a ++ rest ≡ₚ g a ++ g z ++ rest) as Hswap.
    { intros a. rewrite !app_assoc. by rewrite (Permutation_app_comm (g z)). }
    split; [by rewrite H1, Hswap|]. intros y. by rewrite H2, Hswap.
Qed.

(** ** Tenancy *)

Section balance.
Context (tenant_of : ConnId -> CommunityId).

(** Every entry and every task belongs to the community of its connection. *)
Definition tenanted (r : SubscriptionRegistry) : Prop :=
  forall conn sub fs c sc, lookup_sub r conn sub = Some (fs, c, sc) -> c = tenant_of conn.
Definition job_tenanted (p : RegJob * RegPc) : Prop :=
  rj_tenant p.1 = tenant_of (rj_conn p.1) /\
  forall x, p.2 = RegCheck (Some x) -> rs_community_id x = rj_tenant p.1.
Definition world_tenanted (w : World) : Prop :=
  tenanted (sh_registry (w_shared w)) /\ forall p, p ∈ w_regs w -> job_tenanted p.

Lemma tenanted_remove r conn sub r' removed :
  tenanted r -> remove_subscription conn sub r = (r', removed) ->
  tenanted r' /\ forall x, removed = Some x -> rs_community_id x = tenant_of conn.
Proof.
  intros Ht Hr. pose proof (remove_subscription_table r conn sub) as Htab.
  pose proof (remove_subscription_result r conn sub) as Hres. rewrite Hr in Htab, Hres. cbn in Htab, Hres. split.
  - intros conn' sub' fs c sc. rewrite Htab. case_decide; [done|]. apply Ht.
  - intros x ->. destruct (lookup_sub r conn sub) as [[[fs c] sc]|] eqn:El; [|done].
    cbn in Hres. injection Hres as ->. cbn. by apply (Ht conn sub fs c sc).
Qed.

Lemma tenanted_register r c conn sub fs sc r' removed :
  tenanted r -> c = tenant_of conn -> register_with_scope c conn sub fs sc r = (r', removed) ->
  tenanted r' /\ forall x, removed = Some x -> rs_community_id x = tenant_of conn.
Proof.
  intros Ht -> Hr. pose proof (register_table (tenant_of conn) conn sub fs sc r) as Htab. rewrite Hr in Htab. cbn in Htab. split.
  - intros conn' sub' fs' c' sc'. rewrite Htab. case_decide as Heq; [|apply Ht].
    injection Heq as -> ->. by intros [= <- <- <-].
  - unfold register_with_scope in Hr. destruct (remove_subscription conn sub r) as [r1 rem1] eqn:E1.
    injection Hr as _ <-. by eapply tenanted_remove.
Qed.

Lemma tenanted_detach r conn r' removed :
  tenanted r -> remove_connection conn r = (r', removed) ->
  tenanted r' /\ forall x, x ∈ removed -> rs_community_id x = tenant_of conn.
Proof.
  intros Ht Hr. pose proof (remove_connection_table r conn) as Htab. pose proof (remove_connection_result r conn) as Hres.
  rewrite Hr in Htab, Hres. cbn in Htab, Hres. split.
  - intros conn' sub' fs c sc. rewrite Htab. case_decide; [done|]. apply Ht.
  - intros x Hx. apply Hres in Hx. destruct (lookup_sub r conn (rs_sub_id x)) as [[[fs c] sc]|] eqn:El; [|done].
    cbn in Hx. case_decide as Hd; [|done]. destruct Hd as [<- _]. by apply (Ht conn (rs_sub_id x) fs c sc).
Qed.

(** ** One step of a registration *)

(** What a step adds to the balance of a topic: nothing, except that a release
    of a topic nobody holds leaves one retain unmatched. *)
Definition slack (released : option EventTopicKey) (topics : Topics) (key : EventTopicKey) : Z :=
  match released with
  | Some k => if bool_decide (k = key) && (topic_refcount topics key =? 0)%N then 1 else 0
  | None => 0
  end.

Definition count_of (topics : Topics) (key : EventTopicKey) : Z := Z.of_N (topic_refcount topics key).
Definition occ_z (key : EventTopicKey) (keys : list EventTopicKey) : Z := Z.of_nat (occ key keys).

Lemma release_balance topics k rest key :
  (count_of (release_topic topics k) key - occ_z key rest =
   count_of topics key - occ_z key (k :: rest) + slack (Some k) topics key)%Z.
Proof.
  unfold count_of, occ_z, slack. rewrite release_refcount, occ_cons.
  destruct (decide (k = key)) as [->|Hne].
  - rewrite !bool_decide_true by done. cbn [andb]. destruct (N.eqb_spec (topic_refcount topics key) 0) as [->|]; lia.
  - rewrite !bool_decide_false by congruence. cbn. lia.
Qed.

Lemma retain_balance topics k rest key :
  (count_of (retain_topic topics k) key + occ_z key rest = count_of topics key + occ_z key (k :: rest))%Z.
Proof.
  unfold count_of, occ_z. rewrite retain_refcount, occ_cons. destruct (decide (k = key)) as [->|Hne].
  - rewrite !bool_decide_true by done. lia.
  - rewrite !bool_decide_false by congruence. lia.
Qed.

(** The topic a task's next step releases. *)
Definition step_releases (pc : RegPc) : option EventTopicKey :=
  match pc with RegRelease (key :: _) | RegUndo (key :: _) => Some key | _ => None end.

(** The balance of one task and the shared state. *)
Definition task_balance (key : EventTopicKey) (j : RegJob) (pc : RegPc) (sh : Shared) : Z :=
  (count_of (sh_topics sh) key + occ_z key (owed_retains (j, pc)) -
   occ_z key (registry_topics (sh_registry sh)) - occ_z key (owed_releases (j, pc)))%Z.

(** Both sides of a step's balance, written out. *)
Ltac task_lia :=
  unfold task_balance, occ_z, slack;
  cbn [owed_retains owed_releases fst snd sh_topics sh_registry local_insert local_remove]; rewrite ?occ_nil; lia.

Lemma undo_balance j sh pc' sh' key :
  tenanted (sh_registry sh) -> rj_tenant j = tenant_of (rj_conn j) ->
  undo_registration j sh = (pc', sh') ->
  tenanted (sh_registry sh') /\ job_tenanted (j, pc') /\ sh_topics sh' = sh_topics sh /\
  (task_balance key j pc' sh' = count_of (sh_topics sh) key - occ_z key (registry_topics (sh_registry sh)))%Z.
Proof.
  intros Ht Hj. unfold undo_registration. destruct (remove_subscription _ _ _) as [r removed] eqn:Er.
  destruct (tenanted_remove _ _ _ _ _ Ht Er) as [Ht' Hc].
  pose proof (remove_subscription_topics _ _ _ _ _ Er) as Htop.
  destruct removed as [x|]; intros [= <- <-]; (split_and!; [done|by split|done|]); unfold task_balance, occ_z;
    cbn [owed_retains owed_releases fst snd sh_topics sh_registry]; apply (occ_proper key) in Htop; rewrite Htop, occ_app;
    [rewrite (Hc x eq_refl), Hj|]; rewrite ?occ_nil; lia.
Qed.

Lemma reg_step_balance cancelled j pc sh pc' sh' key :
  tenanted (sh_registry sh) -> job_tenanted (j, pc) -> reg_step cancelled j pc sh = (pc', sh') ->
  (forall replaced, pc = RegCheck replaced -> cancelled = false) ->
  tenanted (sh_registry sh') /\ job_tenanted (j, pc') /\
  (task_balance key j pc' sh' = task_balance key j pc sh + slack (step_releases pc) (sh_topics sh) key)%Z.
Proof.
  intros Ht [Hj Hx] Hs Hcalm. cbn [fst snd] in Hj, Hx.
  destruct pc as [| |replaced|[|k rest]|[|k rest]| |[|k rest]| |live]; cbn [reg_step step_releases] in Hs; cbn [step_releases].
  - injection Hs as <- <-. split_and!; [done|by split|]. task_lia.
  - destruct (match rj_scope j with Some _ => _ | None => _ end) as [r replaced] eqn:Er. injection Hs as <- <-.
    assert (register_with_scope (rj_tenant j) (rj_conn j) (rj_sub j) (rj_filters j) (job_scope j) (sh_registry sh) = (r, replaced)) as Hr.
    { rewrite <- Er. unfold job_scope, register_channels_scoped, register_scoped. by destruct (rj_scope j). }
    destruct (tenanted_register _ _ _ _ _ _ _ _ Ht Hj Hr) as [Ht' Hc]. pose proof (register_topics _ _ _ _ _ _ _ _ Hr) as Htop.
    split_and!; [done|split; [done|]; cbn; intros x [= ->]; rewrite Hj; by apply Hc|].
    apply (occ_proper key) in Htop. rewrite !occ_app in Htop.
    destruct replaced as [x|]; rewrite ?occ_nil in *; [rewrite (Hc x eq_refl), <- Hj in Htop|]; unfold occ_z; task_lia.
  - rewrite (Hcalm replaced eq_refl) in Hs. injection Hs as <- <-. split_and!; [done|by split|].
    destruct replaced; task_lia.
  - injection Hs as <- <-. split_and!; [done|by split|]. task_lia.
  - injection Hs as <- <-. split_and!; [done|by split|]. unfold task_balance. cbn [owed_retains owed_releases snd fst sh_topics sh_registry].
    pose proof (release_balance (sh_topics sh) k rest key). lia.
  - injection Hs as <- <-. split_and!; [done|by split|]. task_lia.
  - injection Hs as <- <-. split_and!; [done|by split|]. unfold task_balance. cbn [owed_retains owed_releases snd fst sh_topics sh_registry slack].
    pose proof (retain_balance (sh_topics sh) k rest key). lia.
  - destruct (cancelled || _).
    + destruct (undo_balance j sh pc' sh' key Ht Hj Hs) as (? & ? & ? & Hb). split_and!; [done..|].
      rewrite Hb. task_lia.
    + injection Hs as <- <-. split_and!; [done|by split|]. task_lia.
  - injection Hs as <- <-. split_and!; [done|by split|]. task_lia.
  - injection Hs as <- <-. split_and!; [done|by split|]. unfold task_balance. cbn [owed_retains owed_releases snd fst sh_topics sh_registry].
    pose proof (release_balance (sh_topics sh) k rest key). lia.
  - injection Hs as <- <-. split_and!; [done|by split|]. task_lia.
  - injection Hs as <- <-. split_and!; [done|by split|]. task_lia.
Qed.

(** ** One action of the world *)

Definition balance (key : EventTopicKey) (w : World) : Z :=
  (count_of (sh_topics (w_shared w)) key + occ_z key (pending_retains w) -
   occ_z key (registry_topics (sh_registry (w_shared w))) - occ_z key (pending_releases w))%Z.

Lemma bind_same_tenant (removed : list RemovedSubscription) c :
  (forall x, x ∈ removed -> rs_community_id x = c) ->
  (removed ≫= fun x => scope_topics (rs_community_id x) (rs_scope x)) = (removed ≫= fun x => scope_topics c (rs_scope x)).
Proof.
  induction removed as [|x l IH]; intros Hc; [done|]. cbn. rewrite (Hc x) by left. f_equal. apply IH. set_solver.
Qed.

Lemma bind_id_snoc {B} (l : list (list B)) x : (l ++ [x]) ≫= id = (l ≫= id) ++ x.
Proof. rewrite bind_app. cbn. by rewrite app_nil_r. Qed.

Lemma action_balance w a w' key :
  world_tenanted w -> calm w a -> run_action tenant_of w a = Some w' ->
  world_tenanted w' /\ (balance key w' = balance key w + slack (releases w a) (sh_topics (w_shared w)) key)%Z.
Proof.
  intros [Ht Hjobs] Hcalm. destruct a as [j|n|conn sub|conn|conn|n]; cbn [run_action].
  - case_bool_decide as Hj; [|done]. intros [= <-]. split.
    + split; [done|]. intros p [Hp| ->%list_elem_of_singleton]%elem_of_app; [by apply Hjobs|by split].
    + unfold balance, pending_retains, pending_releases. cbn. rewrite !bind_app. cbn. rewrite !app_nil_r. lia.
  - destruct (w_regs w !! n) as [[j pc]|] eqn:En; cbn [mbind option_bind]; [|done].
    destruct (reg_step _ j pc (w_shared w)) as [pc' sh'] eqn:Es. intros [= <-].
    assert (job_tenanted (j, pc)) as Hjp by (apply Hjobs; by eapply list_elem_of_lookup_2).
    destruct (reg_step_balance _ _ _ _ _ _ key Ht Hjp Es) as (Ht' & Hjp' & Hb).
    { intros replaced ->. apply bool_decide_eq_false. by apply (Hcalm n j replaced). }
    split.
    + split; [done|]. cbn. intros p Hp. apply list_elem_of_lookup in Hp as [m Hm].
      apply list_lookup_insert_Some in Hm as [(_ & <- & _)|[_ Hm]]; [done|]. apply Hjobs. by eapply list_elem_of_lookup_2.
    + destruct (bind_replace owed_retains _ _ _ En) as (rest1 & E1 & E1'). destruct (bind_replace owed_releases _ _ _ En) as (rest2 & E2 & E2').
      unfold balance, pending_retains, pending_releases, occ_z in *. cbn [w_shared w_regs w_releases].
      rewrite !occ_app, E1, E1', E2, E2', !occ_app. unfold task_balance, occ_z in Hb.
      assert (releases w (Advance n) = step_releases pc) as -> by (cbn; rewrite En; by destruct pc as [| | |[]|[]| |[]| |]). lia.
  - unfold close_subscription. destruct (remove_subscription _ _ _) as [r removed] eqn:Er. cbn in Er. intros [= <-].
    destruct (tenanted_remove _ _ _ _ _ Ht Er) as [Ht' Hc]. split; [by split|].
    pose proof (remove_subscription_topics _ _ _ _ _ Er) as Htop. apply (occ_proper key) in Htop.
    unfold balance, pending_retains, pending_releases, occ_z. cbn [w_shared w_regs w_releases sh_topics sh_registry local_remove slack releases].
    change (sh_registry (local_remove conn sub (w_shared w))) with (sh_registry (w_shared w)) in Htop.
    rewrite bind_id_snoc, Htop, !occ_app. destruct removed as [x|]; [rewrite (Hc x eq_refl)|]; rewrite ?occ_nil; lia.
  - unfold detach_connection. destruct (remove_connection _ _) as [r removed] eqn:Er. intros [= <-].
    destruct (tenanted_detach _ _ _ _ Ht Er) as [Ht' Hc]. split; [by split|].
    pose proof (remove_connection_topics _ _ _ _ Er) as Htop. apply (occ_proper key) in Htop. rewrite (bind_same_tenant _ _ Hc) in Htop.
    unfold balance, pending_retains, pending_releases, occ_z. cbn [w_shared w_regs w_releases sh_topics sh_registry slack releases].
    rewrite bind_id_snoc, Htop, !occ_app. lia.
  - intros [= <-]. split; [by split|]. unfold balance, pending_retains, pending_releases. cbn. lia.
  - destruct (w_releases w !! n) as [[|k rest]|] eqn:En; cbn [mbind option_bind]; [done| |done]. intros [= <-]. split; [by split|].
    assert (releases w (ReleaseOne n) = Some k) as -> by (cbn; by rewrite En).
    destruct (bind_replace id _ _ _ En) as (others & E & E').
    unfold balance, pending_retains, pending_releases, occ_z. cbn [w_shared w_regs w_releases sh_topics sh_registry].
    rewrite !occ_app, E, E', !occ_app. unfold id.
    pose proof (release_balance (sh_topics (w_shared w)) k rest key) as Hr. unfold occ_z in Hr. lia.
Qed.

Lemma world_new_tenanted : world_tenanted world_new.
Proof. split; [by intros ? ? ? ? ?|by intros ? ?%elem_of_nil]. Qed.

Lemma world_new_balance key : balance key world_new = 0%Z.
Proof. done. Qed.

Lemma slack_nonneg released topics key : (0 <= slack released topics key)%Z.
Proof. unfold slack. destruct released; [|done]. by destruct (_ && _). Qed.

Lemma calm_balance w key : reachable tenant_of calm w -> world_tenanted w /\ (0 <= balance key w)%Z.
Proof.
  induction 1 as [|w a w' _ [Ht Hb] Hc Hrun]; [split; [apply world_new_tenanted|by rewrite world_new_balance]|].
  destruct (action_balance w a w' key Ht Hc Hrun) as [Ht' ->]. split; [done|].
  pose proof (slack_nonneg (releases w a) (sh_topics (w_shared w)) key). lia.
Qed.

Lemma orderly_calm w : reachable tenant_of orderly w -> reachable tenant_of calm w.
Proof. induction 1 as [|w a w' _ IH [Hc _] Hrun]; [constructor|by eapply reach_step]. Qed.

(** A topic with a release under way that no task still has to retain is held. *)
Lemma released_held w a w' key :
  reachable tenant_of calm w -> run_action tenant_of w a = Some w' -> releases w a = Some key ->
  occ key (pending_retains w) = 0%nat -> topic_refcount (sh_topics (w_shared w)) key <> 0%N.
Proof.
  intros Hr Hrun Hrel Hret. destruct (calm_balance w key Hr) as [_ Hb]. unfold balance, occ_z, count_of in Hb. rewrite Hret in Hb.
  enough (1 <= occ key (pending_releases w))%nat by lia. unfold pending_releases. rewrite occ_app. destruct a; try done; cbn in Hrel.
  - destruct (w_regs w !! n) as [[j pc]|] eqn:En; [|done]. destruct (bind_replace owed_releases _ _ _ En) as (rest & E & _).
    rewrite E, occ_app. destruct pc as [| | |[|k l]|l| |[|k l]| |]; try done; injection Hrel as ->; cbn [owed_releases snd];
      rewrite occ_cons, bool_decide_true by done; lia.
  - destruct (w_releases w !! n) as [[|k l]|] eqn:En; cbn in Hrel; try done. injection Hrel as ->.
    destruct (bind_replace id _ _ _ En) as (rest & E & _). rewrite E, occ_app. unfold id.
    rewrite occ_cons, bool_decide_true by done. lia.
Qed.

Lemma orderly_balance w key : reachable tenant_of orderly w -> balance key w = 0%Z.
Proof.
  induction 1 as [|w a w' Hr IH [Hc Ho] Hrun]; [done|]. apply orderly_calm in Hr.
  destruct (action_balance w a w' key (proj1 (calm_balance w key Hr)) Hc Hrun) as [_ ->]. rewrite IH.
  unfold slack. destruct (releases w a) as [k|] eqn:Erel; [|done]. case_bool_decide as Hk; cbn; [subst|done].
  pose proof (released_held w a w' key Hr Hrun Erel (Ho key eq_refl)) as Hheld. by apply N.eqb_neq in Hheld as ->.
Qed.
End balance.

(** As long as no connection is cancelled between the registration of a
    subscription and its retains, every topic is held at least as often as
    registered subscriptions need it, whatever the interleaving of REQ, CLOSE,
    evictions and closing connections: the count of a topic and the retains
    still owed cover the subscriptions and the releases under way, so that
    with no task in flight no subscriber is left without its topic. *)
Theorem topics_never_short tenant_of w key :
  reachable tenant_of calm w ->
  (registered w key + occ key (pending_releases w) <= refcount w key + occ key (pending_retains w))%nat /\
  (quiescent w -> (registered w key <= refcount w key)%nat).
Proof.
  intros Hr. destruct (calm_balance tenant_of w key Hr) as [_ Hb]. unfold balance, occ_z, count_of in Hb.
  unfold registered, refcount. split; [lia|]. intros [Hret Hrel]. rewrite Hret, Hrel, !occ_nil in Hb. lia.
Qed.

(** C38: and if in addition no topic is released while some registration still
    has to retain it, the counts are exact up to the tasks in flight: at every
    point the registered subscriptions of a topic and its pending releases add
    up to its count and its pending retains, so that when no task is in flight
    each topic is held once for every registered subscription in its scope, and
    the last CLOSE gives up the Redis subscription and no earlier one does.
    Between a registration and its retain the count is behind by one. *)
Theorem topics_exact tenant_of w key :
  reachable tenant_of orderly w ->
  (registered w key + occ key (pending_releases w) = refcount w key + occ key (pending_retains w))%nat /\
  (quiescent w -> registered w key = refcount w key).
Proof.
  intros Hr. pose proof (orderly_balance tenant_of w key Hr) as Hb. unfold balance, occ_z, count_of in Hb.
  unfold registered, refcount. split; [lia|]. intros [Hret Hrel]. rewrite Hret, Hrel, !occ_nil in Hb. lia.
Qed.

(** ** Executed traces *)

Fixpoint run_actions (tenant_of : ConnId -> CommunityId) (w : World) (acts : list Action) : option World :=
  match acts with
  | [] => Some w
  | a :: acts => w ← run_action tenant_of w a; run_actions tenant_of w acts
  end.

Definition calm_bool (w : World) (a : Action) : bool :=
  match a with
  | Advance n =>
      match w_regs w !! n with
      | Some (j, RegCheck _) => negb (bool_decide (rj_conn j ∈ w_cancelled w))
      | _ => true
      end
  | _ => true
  end.

Lemma calm_bool_calm w a : calm_bool w a = true -> calm w a.
Proof.
  intros Hb n j replaced -> Hn. cbn in Hb. rewrite Hn in Hb. by apply negb_true_iff, bool_decide_eq_false in Hb.
Qed.

Definition orderly_bool (w : World) (a : Action) : bool :=
  calm_bool w a &&
  match releases w a with Some key => (occ key (pending_retains w) =? 0)%nat | None => true end.

Lemma orderly_bool_orderly w a : orderly_bool w a = true -> orderly w a.
Proof.
  unfold orderly_bool. rewrite andb_true_iff. intros [Hc Hr]. split; [by apply calm_bool_calm|].
  intros key Hk. rewrite Hk in Hr. by apply Nat.eqb_eq.
Qed.

(** Every step of a trace passes a check. *)
Fixpoint all_along (check : World -> Action -> bool) (tenant_of : ConnId -> CommunityId) (w : World) (acts : list Action) : bool :=
  match acts with
  | [] => true
  | a :: acts =>
      check w a && match run_action tenant_of w a with Some w => all_along check tenant_of w acts | None => true end
  end.

Lemma run_checked_reachable check (policy : World -> Action -> Prop) tenant_of acts w w' :
  (forall w a, check w a = true -> policy w a) ->
  reachable tenant_of policy w -> all_along check tenant_of w acts = true -> run_actions tenant_of w acts = Some w' ->
  reachable tenant_of policy w'.
Proof.
  intros Hp. revert w; induction acts as [|a acts IH]; intros w Hr; cbn; [by intros _ [= <-]|].
  rewrite andb_true_iff. intros [Hc Hall]. destruct (run_action tenant_of w a) as [w1|] eqn:E; cbn; [|done].
  apply IH; [|done]. eapply reach_step; eauto.
Qed.

(** Two connections of one community, each with a global subscription. *)
Module Race.
Definition community : CommunityId := from_uuid 7.
Definition tenant (_ : ConnId) : CommunityId := community.
Definition topic : EventTopicKey := mkTopicKey community TopicGlobal.
Definition job (conn : ConnId) : RegJob := mkRegJob conn community "s" [] None.

(** A whole registration of the task at index [n]. *)
Definition register (n : nat) : list Action := replicate 7 (Advance n).

(** The second REQ is cancelled right after it registered. *)
Definition cancelled_after_register : list Action :=
  [Start (job 1)] ++ register 0 ++ [Start (job 2); Advance 1; Advance 1; Cancel 2] ++ replicate 4 (Advance 1).

(** The connection is detached between its registration and its retain. *)
Definition detached_before_retain : list Action :=
  [Start (job 1)] ++ replicate 4 (Advance 0) ++ [Detach 1; ReleaseOne 0] ++ replicate 4 (Advance 0).

Definition final (acts : list Action) : World := default world_new (run_actions tenant world_new acts).

Lemma final_reachable check (policy : World -> Action -> Prop) acts :
  (forall w a, check w a = true -> policy w a) -> all_along check tenant world_new acts = true ->
  reachable tenant policy (final acts).
Proof.
  intros Hp Hall. unfold final. destruct (run_actions tenant world_new acts) as [w|] eqn:E; [|constructor].
  by apply (run_checked_reachable check policy tenant acts world_new); [|constructor|..].
Qed.
End Race.

(** The counts do not survive two races.  When a connection is cancelled
    after its subscription was registered and before its topics were retained,
    the undo releases topics it never retained: here the one other subscriber
    of the community keeps its registration but its topic is no longer held.
    When a connection is detached in between, its releases find nothing to
    release, the retain follows, and the fence, which finds no registration,
    rolls nothing back: here no subscription is left and the topic stays held. *)
Theorem registration_races :
  (reachable Race.tenant (fun _ _ => True) (Race.final Race.cancelled_after_register) /\
   quiescent (Race.final Race.cancelled_after_register) /\
   registered (Race.final Race.cancelled_after_register) Race.topic = 1%nat /\
   refcount (Race.final Race.cancelled_after_register) Race.topic = 0%nat) /\
  (reachable Race.tenant calm (Race.final Race.detached_before_retain) /\
   quiescent (Race.final Race.detached_before_retain) /\
   registered (Race.final Race.detached_before_retain) Race.topic = 0%nat /\
   refcount (Race.final Race.detached_before_retain) Race.topic = 1%nat).
Proof.
  split; split.
  - apply (Race.final_reachable (fun _ _ => true)); done.
  - split; [vm_compute; split; reflexivity|split; vm_compute; reflexivity].
  - apply (Race.final_reachable calm_bool); [exact calm_bool_calm|vm_compute; reflexivity].
  - split; [vm_compute; split; reflexivity|split; vm_compute; reflexivity].
Qed.
