(* ===== verification/ReadWitness.v ===== *)
(** The read path at concrete inputs: keys and ids as decimal numbers padded to
    32 bytes, channel ids in decimal, a search that looks for a substring, and
    a community with one channel the reader belongs to and one it does not. *)

From S2P Require Import Prelude Nostr Filter Auth RustStr ReadGate EventStore ReadQuery ReadReq.
From S2P Require Import ReadTheorems ReadPush ReadStored ReadCount ReadTopics.

Module SampleRead.
Import SampleHex.

(** ** The crates *)

Fixpoint zeros (n : nat) : string := match n with O => "" | S n => String "0" (zeros n) end.
Definition padded (n : N) : string := String.append (zeros (32 - String.length (to_decimal n))) (to_decimal n).

Definition parse_decimal (s : string) : option N :=
  if bool_decide (s = "") || negb (all_chars is_ascii_digit s) then None else Some (uint_value 0 s).

#[export] Instance nostr : NostrLib := {|
  tag_kind_string := Sample.kind_string;
  tag_content := Sample.content;
  tag_is_single_letter := fun s t => bool_decide (Sample.kind_string t = Sample.letter s);
  single_letter_to_string := Sample.letter;
  event_id_to_hex := Sample.bits 256;
  uuid_to_string := to_decimal;
|}.
#[export] Instance uuid : UuidLib := {| uuid_parse_str := parse_decimal |}.
#[export] Instance keys : ReadLib := {| rd_pk_bytes := padded; rd_pk_hex := fun pk => hex_encode (padded pk); rd_id_bytes := padded |}.

Definition number_of_hex (s : string) : N := uint_value 0 (default "" (hex_decode s)).
#[export] Instance columns : StoreLib := {|
  from_timestamp := Some;
  event_from_json id pk t k tags content := Some (mkEvent (number_of_hex id) (number_of_hex pk) (Z.to_N t) k tags content);
|}.
#[export] Instance text_search : FtsLib := {|
  fts_match _ text content := bool_decide (is_Some (String.index 0 text content));
  fts_rank _ text content := Z.of_nat (String.length content);
|}.

Lemma padded_value n : uint_value 0 (padded n) = n.
Proof. unfold padded. induction (32 - _)%nat as [|k IH]; [apply uint_value_to_decimal|exact IH]. Qed.
Lemma padded_inj n m : padded n = padded m -> n = m.
Proof. intros E. by rewrite <- (padded_value n), E, padded_value. Qed.

Lemma digit_lower n : (n < 16)%N -> is_ascii_uppercase (digit n) = false.
Proof.
  intros Hn. assert (forallb (fun k => negb (is_ascii_uppercase (digit (N.of_nat k)))) (seq 0 16) = true) as Hall
    by (vm_compute; reflexivity).
  rewrite forallb_forall in Hall. specialize (Hall (N.to_nat n)). rewrite N2Nat.id in Hall.
  apply negb_true_iff, Hall, in_seq. lia.
Qed.
Lemma encode_lower b : all_chars (fun c => negb (is_ascii_uppercase c)) (encode b) = true.
Proof.
  induction b as [|c b IH]; [done|]. cbn [encode all_chars]. pose proof (N_ascii_bounded c).
  rewrite !digit_lower, IH; [done|apply N.mod_lt; lia|apply N.Div0.div_lt_upper_bound; lia].
Qed.

#[export] Instance nostr_laws : NostrLaws.
Proof.
  split; [reflexivity|intros i j; by apply (Sample.bits_inj 256)|].
  intros i j. cbn [event_id_to_hex nostr]. by rewrite !Sample.bits_length.
Qed.
#[export] Instance keys_laws : ReadLaws.
Proof. split; [done|exact padded_inj|exact padded_inj|exact encode_lower]. Qed.
#[export] Instance tag_laws : TagLaws.
Proof.
  split; cbn [tag_kind_string tag_content tag_is_single_letter single_letter_to_string nostr].
  - intros [|a t] c; unfold Sample.kind_string; cbn; naive_solver.
  - done.
  - intros s t. by rewrite bool_decide_eq_true.
  - intros [c u] _. unfold Sample.letter. cbn [slt_uppercase slt_character]. destruct u; [done|].
    f_equal. by destruct c as [[] [] [] [] [] [] [] []].
Qed.
#[export] Instance uuid_laws : UuidRound.
Proof.
  split. intros u. cbn [uuid_parse_str uuid uuid_to_string nostr]. unfold parse_decimal.
  rewrite to_decimal_digits, uint_value_to_decimal, bool_decide_false by apply to_decimal_nonempty. done.
Qed.
#[export] Instance columns_laws : StoreLaws.
Proof.
  split; cbn [from_timestamp event_from_json columns].
  - by intros s t [= <-].
  - intros [i pk t k tags content]. cbn. unfold number_of_hex. cbn [hex_decode hex_encode lib].
    rewrite !decode_encode. cbn. by rewrite !padded_value, N2Z.id.
Qed.

(** ** A community *)

Definition community : CommunityId := from_uuid 1.
Definition reader : PublicKey := 10.
Definition other : PublicKey := 11.

Definition note : Event := mkEvent 101 other 50 9 [["h"; "5"]; ["p"; rd_pk_hex reader]] "hello world".
Definition secret : Event := mkEvent 102 other 60 9 [["h"; "6"]] "hello from another room".
Definition reminder : Event := mkEvent 103 reader 70 KIND_EVENT_REMINDER [["d"; "x"]] "later".
Definition gone : Event := mkEvent 104 other 80 9 [["h"; "5"]] "hello again".

Definition ops : list StoreOp :=
  [OpInsert true 51 community note (Some 5); OpInsert true 61 community secret (Some 6);
   OpInsert true 71 community reminder None; OpInsert true 81 community gone (Some 5);
   OpDelete 90 community (rd_id_bytes 104)]%N.
Definition db : EventDb := run_ops ops.

Ltac each_in Hin := repeat (apply elem_of_cons in Hin as [Hin|Hin]); [..|by apply elem_of_nil in Hin].

Lemma ops_submitted : well_submitted ops.
Proof.
  split.
  - intros x now c e ch Hin. each_in Hin; try done; injection Hin as -> -> -> -> ->;
      by split.
  - intros x now c e ch x' now' c' e' ch' H1 H2 Hid.
    each_in H1; try done; injection H1 as -> -> -> -> ->; each_in H2; try done; by injection H2 as -> -> -> -> ->.
Qed.

(** The reader is a member of channel 5; the tables answer every await. *)
Definition channels : ChannelDb :=
  mkChannelDb [mkChannelRow community 5 "private" None; mkChannelRow community 6 "private" None]
    [mkMemberRow community 5 (rd_pk_bytes reader) None; mkMemberRow community 6 (rd_pk_bytes other) None].
Definition env : ReadEnv :=
  mkReadEnv (mkRelayConfig true false) (fun _ => Ok true) (fun _ => Ok true) None (Some channels) (fun _ => Some channels)
    false (fun _ => mkRoute None (Some db)) (fun _ _ => Some db) (fun _ _ => mkRoute None (Some db)) (fun _ => true).
Definition conn : ConnectionState :=
  mkConnectionState 1 community (Authenticated (mkAuthContext reader [MessagesRead] None ANip42 None)) ∅.

Definition kind_filter (authors : option (gset PublicKey)) (kind : N) (tags : gmap SingleLetterTag (gset string))
    (search : option string) : ReqFilter :=
  mkReqFilter (mkFilter None authors (Some {[kind]}) None None tags) search None.
Definition notes : ReqFilter := kind_filter None 9 ∅ None.
Definition mine : ReqFilter := kind_filter None 9 {[p_tag := {[rd_pk_hex reader]}]} None.
Definition reminders : ReqFilter := kind_filter (Some {[reader]}) KIND_EVENT_REMINDER ∅ None.
Definition room : ReqFilter := kind_filter None 9 {[h_tag := {["5"]}]} None.
Definition garbled : ReqFilter := kind_filter None 9 {[h_tag := {["5"; "x"]}]} None.
Definition hello : ReqFilter := kind_filter None 9 ∅ (Some "hello").

Definition filters : list ReqFilter := [notes; mine; reminders].
Lemma filters_plan : req_plan env conn "s" filters = Subscribe None None [5%N] (rd_pk_bytes reader).
Proof. vm_compute. reflexivity. Qed.

Lemma reader_mention : valid_mention (rd_pk_hex reader) = true.
Proof. vm_compute. reflexivity. Qed.

Lemma kind_filter_bounds authors kind tags search :
  (forall v, tags !! p_tag = Some {[v]} -> valid_mention v = true) ->
  (forall k vs, tags !! k = Some vs -> is_ascii_uppercase (slt_character k) = true) ->
  pushable_bounds (kind_filter authors kind tags search).
Proof. intros Hp Hk. by split. Qed.

Lemma filters_bounds f : f ∈ filters -> pushable_bounds f.
Proof.
  intros Hin. each_in Hin; subst f; apply kind_filter_bounds; try done.
  - intros v. rewrite lookup_singleton_eq. intros Hv. apply (inj Some), (inj singleton) in Hv as <-. exact reader_mention.
  - intros k vs [<- <-]%lookup_singleton_Some. done.
Qed.
Lemma filters_pages f : f ∈ filters -> page_fits db (history_query community None [5%N] (rd_pk_bytes reader) None f).
Proof. intros Hin. each_in Hin; subst f; apply Z.leb_le; vm_compute; reflexivity. Qed.
End SampleRead.
Import SampleHex SampleRead.

(** The events the requests of the sample deliver. *)
Lemma sample_history :
  sent_events (req_history env (cs_tenant conn) "s" None [5%N] (rd_pk_bytes reader) [] filters)
    = [note; reminder].
Proof. vm_compute. reflexivity. Qed.

(** A search for a word finds the note, and not the one of the other channel. *)
Lemma sample_search :
  sent_events (handle_search_req env (cs_tenant conn) "s" [hello] [5%N] true
    (rd_pk_bytes reader)) = [note].
Proof. vm_compute. reflexivity. Qed.

Lemma sample_search_plan :
  req_plan env conn "s" [hello] = SearchFor [5%N] true.
Proof. vm_compute. reflexivity. Qed.

Lemma req_delivers_authorized_witness :
  note ∈ sent_events (req_history env (cs_tenant conn) "s" None [5%N]
    (rd_pk_bytes reader) [] filters) /\
  exists ctx, admitted env conn filters ctx [5%N].
Proof.
  split; [rewrite sample_history; left|].
  destruct (req_delivers_authorized env conn "s" filters [] None None [5%N]
    (rd_pk_bytes reader) filters_plan) as (_ & ctx & Had & _).
  exists ctx. exact Had.
Defined.

Lemma search_delivers_authorized_witness :
  note ∈ sent_events (handle_search_req env (cs_tenant conn) "s" [hello] [5%N] true
    (rd_pk_bytes reader)) /\
  exists ctx, admitted env conn [hello] ctx [5%N].
Proof.
  split; [rewrite sample_search; left|].
  destruct (search_delivers_authorized env conn "s" [hello] [5%N] true sample_search_plan)
    as (ctx & Had & _).
  exists ctx. exact Had.
Defined.

Lemma store_well_stored_witness : well_submitted ops /\ well_stored db.
Proof.
  split; [exact ops_submitted|].
  destruct (store_well_stored ops ops_submitted) as [Hws _]. exact Hws.
Defined.

Lemma req_delivers_all_witness :
  last (ob_sent (req_history env (cs_tenant conn) "s" None [5%N] (rd_pk_bytes reader) []
    filters)) = Some (eose "s").
Proof.
  destruct (req_delivers_all env conn "s" filters db None None [5%N] reader)
    as [Heose _].
  - exact filters_plan.
  - intros n. reflexivity.
  - intros n. reflexivity.
  - exact (run_ops_well_stored ops ops_submitted).
  - intros f Hf. split; [exact (filters_bounds f Hf)|exact (filters_pages f Hf)].
  - exact Heose.
Defined.

(** ** Counting *)

Definition row_event (r : EventRow) : option Event :=
  match row_to_stored_event r with Ok (Some stored) => Some (se_event stored) | _ => None end.

Lemma sample_events : omap row_event (db_events db) = [note; secret; reminder; gone].
Proof. vm_compute. reflexivity. Qed.

Lemma sample_row_event r stored :
  r ∈ db_events db -> row_to_stored_event r = Ok (Some stored) -> se_event stored ∈ [note; secret; reminder; gone].
Proof.
  intros Hr Hs. rewrite <- sample_events. apply list_elem_of_omap. exists r. split; [exact Hr|].
  unfold row_event. by rewrite Hs.
Qed.

Lemma sample_plain (f : ReqFilter) e :
  f_generic_tags f !! e_tag_key = None -> e ∈ [note; secret; reminder; gone] -> plain_event f e.
Proof.
  intros He Hin. split.
  - intros _ t v Ht. each_in Hin; subst e; each_in Ht; subst t; try done. intros Hv.
    assert (v = rd_pk_hex reader) as -> by (apply (inj Some); by rewrite <- Hv). vm_compute. reflexivity.
  - intros _. each_in Hin; subst e; try (vm_compute; congruence). intros _. by exists ["d"; "x"], "x"; split; [left|].
  - intros vs v t Hvs. congruence.
Qed.

(** The channels of the rows are those their [h] tags print. *)
Lemma sample_addressed (f : ReqFilter) r stored :
  r ∈ db_events db -> row_to_stored_event r = Ok (Some stored) -> addressed f stored.
Proof.
  intros Hr Hs.
  assert (forallb (fun r => match row_to_stored_event r with
            | Ok (Some st) => forallb (fun t => implb (bool_decide (tag_kind_string t = "h"))
                (bool_decide (tag_content t = uuid_to_string <$> se_channel_id st)) &&
                is_none_or (named_value "d" t) (fun v => negb (is_parameterized_replaceable (ev_kind (se_event st))) ||
                  bool_decide (extract_d_tag (se_event st) = Some v))) (ev_tags (se_event st))
            | _ => false end) (db_events db) = true) as Hall by (vm_compute; reflexivity).
  rewrite forallb_forall in Hall. apply list_elem_of_In, Hall in Hr. rewrite Hs, forallb_forall in Hr.
  split; intros _.
  - intros t Ht%list_elem_of_In%Hr Hk. rewrite bool_decide_true in Ht by done. by apply andb_true_iff in Ht as [Ht%bool_decide_eq_true _].
  - intros Hp t v Ht%list_elem_of_In%Hr Hv. rewrite Hv, Hp in Ht. by apply andb_true_iff in Ht as [_ Ht%bool_decide_eq_true].
Qed.

Lemma sample_countable (f : ReqFilter) :
  f_generic_tags f !! e_tag_key = None -> exact_filter f -> pushable_bounds f -> countable_filter db f.
Proof.
  intros He Hx Hp. split; [|done]. split; [exact (run_ops_well_stored ops ops_submitted)|].
  intros r stored Hr Hs. split; [by apply (sample_addressed f r)|]. apply sample_plain; [done|by apply (sample_row_event r)].
Qed.

Lemma notes_countable : countable_filter db notes.
Proof.
  apply sample_countable; [done|by split|]. by apply kind_filter_bounds.
Qed.

Lemma room_tags k vs : f_generic_tags room !! k = Some vs -> k = h_tag /\ vs = {["5"]}.
Proof. change (f_generic_tags room) with ({[h_tag := {["5"]}]} : gmap SingleLetterTag (gset string)). by intros [<- <-]%lookup_singleton_Some. Qed.

Lemma room_countable : countable_filter db room.
Proof.
  apply sample_countable; [done| |].
  - split; try done.
    + intros k vs [_ ->]%room_tags. set_solver.
    + intros vs v [_ ->]%room_tags. intros ->%elem_of_singleton. exists 5%N. reflexivity.
  - apply kind_filter_bounds; [done|]. intros k vs [<- <-]%lookup_singleton_Some. done.
Qed.

Lemma sample_count : handle_count env conn "s" [notes; room] = CountSend (count_message "s" 2).
Proof. vm_compute. reflexivity. Qed.

Lemma count_answers_reference_witness :
  exists ctx base, cs_auth_state conn = Authenticated ctx /\
    count_reference env db (cs_tenant conn) (rd_pk_bytes (ac_pubkey ctx)) (ac_channel_ids ctx) [notes; room] base = Some 2%N.
Proof.
  destruct (count_answers_reference env conn "s" [notes; room] db 2 sample_count) as (ctx & base & Hc & _ & Href).
  - intros n. reflexivity.
  - intros f Hin. each_in Hin; subst f; [exact notes_countable|exact room_countable].
  - exists ctx, base. split; [exact Hc|exact Href].
Defined.

(** The note of the other channel is counted. *)
Lemma sample_leak :
  count_query (mkRoute None (Some db)) garbled (rd_pk_bytes reader)
    (count_scoped_query community garbled [5%N] (List.filter (fun x => bool_decide (x ∈ [5%N])) [5%N]) [5%N] (rd_pk_bytes reader))
  = Ok 2%N.
Proof. vm_compute. reflexivity. Qed.

Lemma count_garbled_h_unscoped_witness :
  exists p, 2%N = N.of_nat (length (List.filter p (db_events db))) /\
    forall r, p r = true <-> er_community_id r = community /\ er_deleted_at r = None /\ pushed (db_mentions db) community garbled r.
Proof.
  apply (count_garbled_h_unscoped db community garbled {["5"; "x"]} 5 [5%N] reader 2).
  - reflexivity.
  - vm_compute. reflexivity.
  - vm_compute. reflexivity.
  - left.
  - vm_compute. reflexivity.
  - discriminate.
  - exact sample_leak.
Defined.

(** ** Topic counts *)

(** Two connections register, the first closes its subscription. *)
Definition calm_run : list Action :=
  [Start (Race.job 1)] ++ Race.register 0 ++ [Start (Race.job 2)] ++ Race.register 1 ++ [Close 1 "s"; ReleaseOne 0].

Lemma calm_run_quiescent : quiescent (Race.final calm_run) /\ registered (Race.final calm_run) Race.topic = 1%nat.
Proof. split; [vm_compute; split; reflexivity|vm_compute; reflexivity]. Qed.

Lemma calm_run_orderly : all_along orderly_bool Race.tenant world_new calm_run = true.
Proof. vm_compute. reflexivity. Qed.

(** The counts are held down by a registration that is still to retain. *)
Definition overlapping_run : list Action :=
  [Start (Race.job 1)] ++ Race.register 0 ++ [Start (Race.job 2); Advance 1; Advance 1; Close 1 "s"; ReleaseOne 0].

Lemma overlapping_run_calm : all_along calm_bool Race.tenant world_new overlapping_run = true.
Proof. vm_compute. reflexivity. Qed.

Lemma topics_never_short_witness :
  (registered (Race.final overlapping_run) Race.topic + occ Race.topic (pending_releases (Race.final overlapping_run)) <=
   refcount (Race.final overlapping_run) Race.topic + occ Race.topic (pending_retains (Race.final overlapping_run)))%nat.
Proof.
  destruct (topics_never_short Race.tenant (Race.final overlapping_run) Race.topic) as [Hle _].
  - exact (Race.final_reachable calm_bool calm overlapping_run calm_bool_calm overlapping_run_calm).
  - exact Hle.
Defined.

Lemma topics_exact_witness : refcount (Race.final calm_run) Race.topic = 1%nat.
Proof.
  destruct (topics_exact Race.tenant (Race.final calm_run) Race.topic) as [_ Heq].
  - exact (Race.final_reachable orderly_bool orderly calm_run orderly_bool_orderly calm_run_orderly).
  - rewrite <- (Heq (proj1 calm_run_quiescent)). exact (proj2 calm_run_quiescent).
Defined.
