(* ===== verification/Tenant.v ===== *)
(** Host binding: how a request gets its community.

    [normalize_host] and [relay_url_authority] are buzz-core/src/tenant.rs,
    [bind_community] buzz-relay/src/tenant.rs, the lookup is
    buzz-db/src/store/community.rs over the [communities] table.  URL parsing and
    SQL's [lower] are parameters. *)

From S2P Require Import Prelude Nostr Auth RustStr EventStore.

(** [url::Url]: the host, already printed by its kind, and the port when it is
    not the default of the scheme. *)
Inductive UrlHost :=
| UrlDomain (domain : string)
| UrlIpv4 (addr : string)
| UrlIpv6 (addr : string).

Class TenantUrl := { tenant_url_parse : string -> option (option UrlHost * option N) }.

(** SQL's [lower]. *)
Class SqlLower := { sql_lower : string -> string }.

Definition normalize_host (host : string) : string :=
  let host := to_ascii_lowercase (trim host) in
  let host :=
    match strip_suffix ":443" host with
    | Some stripped => stripped
    | None => match strip_suffix ":80" host with Some stripped => stripped | None => host end
    end in
  match strip_suffix "." host with Some stripped => stripped | None => host end.

Record TenantContext := resolved { tc_community : CommunityId; tc_host : string }.

Inductive BindError :=
| UnmappedHost
| Lookup.

(** A row of [communities]; the lifecycle columns are those the lookup reads. *)
Record CommunityRow := mkCommunityRow {
  cr_id : CommunityId;
  cr_host : string;
  cr_archived_at : option Z;
  cr_deleted_at : option Z;
  cr_deletion_state : string;
}.

Section tenant.
Context `{TenantUrl, SqlLower}.

Definition relay_url_authority (relay_url : string) : string :=
  match tenant_url_parse relay_url with
  | None => ""
  | Some (None, _) => ""
  | Some (Some host, port) =>
      let host := match host with
                  | UrlDomain domain => domain
                  | UrlIpv4 addr => addr
                  | UrlIpv6 addr => "[" +:+ addr +:+ "]"
                  end in
      let authority := match port with Some port => host +:+ ":" +:+ to_decimal port | None => host end in
      normalize_host authority
  end.

Definition active (r : CommunityRow) : bool :=
  bool_decide (cr_archived_at r = None) && bool_decide (cr_deleted_at r = None) &&
  bool_decide (cr_deletion_state r = "active").

(** [fetch_optional] takes the first row. *)
Definition lookup_community_by_host (rows : list CommunityRow) (normalized_host : string) : option CommunityRow :=
  List.find (fun r => bool_decide (sql_lower (cr_host r) = sql_lower normalized_host) && active r) rows.

(** [None] for the table is a failed statement. *)
Definition resolve_host (table : option (list CommunityRow)) (normalized_host : string) : result (option CommunityId) unit :=
  match table with
  | None => Err tt
  | Some rows => Ok (cr_id <$> lookup_community_by_host rows normalized_host)
  end.

Definition bind_community (table : option (list CommunityRow)) (raw_host : string) : result TenantContext BindError :=
  let host := normalize_host raw_host in
  if bool_decide (host = "") then Err UnmappedHost
  else
    match resolve_host table host with
    | Ok (Some community) => Ok (resolved community host)
    | Ok None => Err UnmappedHost
    | Err _ => Err Lookup
    end.

Definition bind_deployment_community (table : option (list CommunityRow)) (relay_url : string)
  : result TenantContext BindError := bind_community table (relay_url_authority relay_url).

(** The unique index on [lower(host)]. *)
Definition hosts_unique (rows : list CommunityRow) : Prop :=
  forall r r', r ∈ rows -> r' ∈ rows -> sql_lower (cr_host r) = sql_lower (cr_host r') -> r = r'.
End tenant.

(** ** Spellings of a host *)

Fixpoint spaces (n : nat) : string := match n with O => "" | S n => String " " (spaces n) end.

(** The ways a client may write a host in canonical form: in any letter case, with
    a dot at the end, with the default port of either scheme, between spaces. *)
Inductive spelling (host : string) : string -> Prop :=
| spelled before cased dot port after :
    to_ascii_lowercase cased = host -> (dot = "" \/ dot = ".") -> (port = "" \/ port = ":443" \/ port = ":80") ->
    spelling host (spaces before +:+ cased +:+ dot +:+ port +:+ spaces after).

(** A canonical host: printable, lower case, without a default port or a dot at
    its end. *)
Record canonical_host (host : string) : Prop := {
  ch_graphic : all_chars graphic host = true;
  ch_lower : to_ascii_lowercase host = host;
  ch_port : has_suffix ":443" host = false /\ has_suffix ":80" host = false;
  ch_dot : has_suffix "." host = false;
}.

Lemma lower_app s t : to_ascii_lowercase (s +:+ t) = to_ascii_lowercase s +:+ to_ascii_lowercase t.
Proof. induction s as [|c s IH]; [by rewrite !string_app_nil_l|]. rewrite string_app_cons. cbn. by rewrite IH. Qed.

Lemma graphic_uncased c : graphic (ascii_lower c) = graphic c.
Proof. by destruct c as [[][][][][][][][]]. Qed.
Lemma graphic_lower s : all_chars graphic (to_ascii_lowercase s) = all_chars graphic s.
Proof. induction s as [|c s IH]; [done|]. cbn. by rewrite graphic_uncased, IH. Qed.

Lemma trim_start_spaces n s : trim_start (spaces n +:+ s) = trim_start s.
Proof. induction n as [|n IH]; [by rewrite string_app_nil_l|]. cbn. exact IH. Qed.
Lemma string_rev_spaces n : string_rev (spaces n) = spaces n.
Proof.
  assert (forall m, spaces m +:+ " " = String " " (spaces m)) as Hs.
  { induction m as [|m IHm]; [done|]. cbn [spaces]. rewrite string_app_cons, IHm. done. }
  induction n as [|n IH]; [done|]. cbn [spaces]. by rewrite string_rev_cons, IH, Hs.
Qed.
Lemma trim_start_rev_spaces n s : trim_start_rev (spaces n +:+ s) = trim_start_rev s.
Proof. induction n as [|n IH]; [by rewrite string_app_nil_l|]. cbn. exact IH. Qed.
Lemma trim_start_graphic c s : graphic c = true -> trim_start (String c s) = String c s.
Proof.
  intros Hc. cbn. rewrite graphic_space1 by done. destruct s as [|b s]; [done|]. rewrite graphic_space2 by done.
  destruct s; [done|]. by rewrite graphic_space3.
Qed.

Lemma trim_between n m s : all_chars graphic s = true -> trim (spaces n +:+ s +:+ spaces m) = s.
Proof.
  intros Hs. pose proof (trim_graphic s Hs) as Ht. unfold trim in *. rewrite trim_start_spaces.
  destruct s as [|c s]; [rewrite string_app_nil_l, <- (string_app_nil_r (spaces m)), trim_start_spaces; done|].
  cbn in Hs. apply andb_prop in Hs as [Hc _]. rewrite string_app_cons, trim_start_graphic, <- string_app_cons by done.
  rewrite trim_start_graphic in Ht by done. unfold trim_end in *. rewrite string_rev_app, string_rev_spaces, trim_start_rev_spaces.
  exact Ht.
Qed.

Lemma strip_none p s : has_suffix p s = false -> strip_suffix p s = None.
Proof.
  intros Hs. destruct (strip_suffix p s) as [r|] eqn:E; [|done]. apply strip_suffix_Some in E.
  assert (has_suffix p s = true) by (apply has_suffix_spec; eauto). congruence.
Qed.
Lemma strip_app p r : strip_suffix p (r +:+ p) = Some r.
Proof. by apply strip_suffix_Some. Qed.
Lemma dot_no_port s : has_suffix ":443" (s +:+ ".") = false /\ has_suffix ":80" (s +:+ ".") = false.
Proof. unfold has_suffix. rewrite string_rev_app. done. Qed.
Lemma port_80_not_443 s : has_suffix ":443" (s +:+ ":80") = false.
Proof. unfold has_suffix. rewrite string_rev_app. done. Qed.

Lemma normalize_spelling host raw : canonical_host host -> spelling host raw -> normalize_host raw = host.
Proof.
  intros [Hg Hl [H443 H80] Hd] [before cased dot port after Hc Hdot Hport]. unfold normalize_host.
  assert (all_chars graphic (cased +:+ dot +:+ port) = true) as Hall.
  { rewrite !all_chars_app, <- (graphic_lower cased), Hc, Hg. destruct Hdot as [->| ->], Hport as [->|[->| ->]]; done. }
  replace (spaces before +:+ cased +:+ dot +:+ port +:+ spaces after)
    with (spaces before +:+ (cased +:+ dot +:+ port) +:+ spaces after) by (by rewrite !string_app_assoc).
  rewrite trim_between, !lower_app, Hc by done. destruct (dot_no_port host) as [D443 D80].
  assert (to_ascii_lowercase dot = dot) as -> by (destruct Hdot as [->| ->]; done).
  assert (to_ascii_lowercase port = port) as -> by (destruct Hport as [->|[->| ->]]; done).
  rewrite <- string_app_assoc. set (name := host +:+ dot).
  assert (has_suffix ":443" name = false /\ has_suffix ":80" name = false) as [N443 N80].
  { subst name. destruct Hdot as [->| ->]; [by rewrite string_app_nil_r|done]. }
  assert (match strip_suffix "." name with Some stripped => stripped | None => name end = host) as Hname.
  { subst name. destruct Hdot as [->| ->]; [|by rewrite strip_app]. by rewrite string_app_nil_r, (strip_none "." host). }
  destruct Hport as [->|[->| ->]].
  - rewrite string_app_nil_r, (strip_none ":443"), (strip_none ":80") by done. exact Hname.
  - rewrite strip_app. exact Hname.
  - rewrite (strip_none ":443"), strip_app by apply port_80_not_443. exact Hname.
Qed.

Section binding.
Context `{TenantUrl, SqlLower}.

Lemma lookup_spec rows host r :
  hosts_unique rows ->
  lookup_community_by_host rows host = Some r <->
  r ∈ rows /\ sql_lower (cr_host r) = sql_lower host /\ active r = true.
Proof.
  intros Hu. unfold lookup_community_by_host. split.
  - intros Hf. apply find_some in Hf as [Hin Hp]. rewrite andb_true_iff, bool_decide_eq_true in Hp.
    rewrite list_elem_of_In. tauto.
  - intros (Hin & Hl & Ha). destruct (List.find _ rows) as [r'|] eqn:E.
    + apply find_some in E as [Hin' Hp]. rewrite andb_true_iff, bool_decide_eq_true in Hp. f_equal.
      apply Hu; [by apply list_elem_of_In|done|]. destruct Hp. congruence.
    + apply list_elem_of_In in Hin. apply (find_none _ _ E) in Hin. rewrite Ha, bool_decide_true in Hin by done. done.
Qed.

(** C30: a request is bound to a community by its host alone, and only to an
    active one: binding succeeds exactly when the normalized host is not empty
    and names the active community of that host, and the context then carries
    the normalized host; every other outcome is a refusal, there is no default.
    All spellings of a canonical host (letter case, default port, final dot,
    spaces around it) are bound alike. *)
Theorem host_binding_exact rows raw :
  hosts_unique rows ->
  (forall ctx, bind_community (Some rows) raw = Ok ctx <->
     tc_host ctx = normalize_host raw /\ tc_host ctx <> "" /\
     exists r, r ∈ rows /\ active r = true /\ sql_lower (cr_host r) = sql_lower (tc_host ctx) /\ cr_id r = tc_community ctx) /\
  (forall e, bind_community (Some rows) raw = Err e -> e = UnmappedHost) /\
  (forall host spelled, canonical_host host -> spelling host raw -> spelling host spelled ->
     bind_community (Some rows) raw = bind_community (Some rows) spelled).
Proof.
  intros Hu. split_and!.
  - intros [c h]. unfold bind_community. cbn [tc_host tc_community resolve_host]. case_bool_decide as He.
    { split; [done|]. intros (-> & Hne & _). done. }
    destruct (lookup_community_by_host rows (normalize_host raw)) as [r|] eqn:E; cbn.
    + apply lookup_spec in E as (Hin & Hl & Ha); [|done]. split.
      * intros [= <- <-]. split_and!; [done..|]. exists r. done.
      * intros (-> & _ & r' & Hin' & Ha' & Hl' & <-). do 2 f_equal. f_equal. apply Hu; [done..|]. congruence.
    + split; [done|]. intros (-> & _ & r & Hin & Ha & Hl & _).
      rewrite (proj2 (lookup_spec rows _ r Hu)) in E by done. done.
  - intros e. unfold bind_community, resolve_host. case_bool_decide; [by intros [= <-]|].
    destruct (lookup_community_by_host _ _); cbn; [done|by intros [= <-]].
  - intros host spelled Hc H1' H2'. unfold bind_community. by rewrite !(normalize_spelling host).
Qed.
End binding.
