(* ===== verification/Conformance.v ===== *)
(** The tenancy trace and its checker: the schema and the replay checker of
    buzz-conformance/src, and the relay's emitters, buzz-relay/src/conformance
    and the emit sites of handlers/req.rs and handlers/ingest.rs.

    A tracer that observes is the list of the steps it recorded; one that does
    not ([NoopTracer]) records nothing.  Of a [TransitionError] the variant and
    the step are kept, not the text for people. *)

From S2P Require Import Prelude Nostr Filter Auth ReadGate EventStore ReadQuery ReadReq Tenant.

(** ** Schema *)

Abbreviation CommunityLabel := Uuid (only parsing).
Abbreviation ChannelLabel := Uuid (only parsing).

Definition SCHEMA_VERSION : N := 1.

Inductive Verdict := Allow | Deny.
Inductive SanitizedReason := Restricted | Invalid | ServerError.

Record AbstractState := mkAbstractState {
  as_resolved_community : CommunityLabel;
  as_bound_host : string;
  as_actor : string;
}.

Inductive TraceAction :=
| WriteInsert (msg_id : string) (channel : ChannelLabel) (claimed_community : option CommunityLabel)
| WriteInsertGlobal (msg_id : string) (claimed_community : option CommunityLabel)
| WriteDuplicate (msg_id : string) (channel : ChannelLabel) (claimed_community : option CommunityLabel)
| SanitizedError (reason : SanitizedReason)
| AuthCheck (channel : ChannelLabel) (claimed_community : option CommunityLabel) (verdict : Verdict)
| ReadMessageRows (channel : option ChannelLabel) (row_communities : list CommunityLabel)
| ReadByIdRows (channel : option ChannelLabel) (row_communities : list CommunityLabel)
| ReadHostFeedRows (row_communities : list CommunityLabel)
| ImplBug (kind : string).

Definition action_kind (a : TraceAction) : string :=
  match a with
  | WriteInsert _ _ _ => "write_insert"
  | WriteInsertGlobal _ _ => "write_insert_global"
  | WriteDuplicate _ _ _ => "write_duplicate"
  | SanitizedError _ => "sanitized_error"
  | AuthCheck _ _ _ => "auth_check"
  | ReadMessageRows _ _ => "read_message_rows"
  | ReadByIdRows _ _ => "read_by_id_rows"
  | ReadHostFeedRows _ => "read_host_feed_rows"
  | ImplBug _ => "impl_bug"
  end.

Record TraceStep := mkTraceStep {
  ts_schema_version : N;
  ts_action : TraceAction;
  ts_state_after : AbstractState;
}.
Definition TraceStep_new (action : TraceAction) (state_after : AbstractState) : TraceStep :=
  mkTraceStep SCHEMA_VERSION action state_after.

Definition action_channel (a : TraceAction) : option ChannelLabel :=
  match a with
  | WriteInsert _ channel _ | WriteDuplicate _ channel _ | AuthCheck channel _ _ => Some channel
  | ReadMessageRows channel _ | ReadByIdRows channel _ => channel
  | WriteInsertGlobal _ _ | ReadHostFeedRows _ | SanitizedError _ | ImplBug _ => None
  end.

(** ** The checker *)

Inductive TransitionError :=
| IllegalTransition (step_index : nat)
| StateMismatch (step_index : nat)
| NonInterference (step_index : nat)
| CoverageBreach.

Record ModelState := mkModelState {
  ms_resolved_community : CommunityLabel;
  ms_bound_host : string;
  ms_actor : string;
}.
Definition bootstrap (first : AbstractState) : ModelState :=
  mkModelState (as_resolved_community first) (as_bound_host first) (as_actor first).

Definition check_row_labels (step_index : nat) (model : ModelState) (row_communities : list CommunityLabel)
  : result unit TransitionError :=
  match List.find (fun c => negb (bool_decide (c = ms_resolved_community model))) row_communities with
  | Some _ => Err (NonInterference step_index)
  | None => Ok tt
  end.

Definition check_step (step_index : nat) (model : ModelState) (step : TraceStep) : result unit TransitionError :=
  let state := ts_state_after step in
  if negb (bool_decide (as_resolved_community state = ms_resolved_community model)) then Err (StateMismatch step_index)
  else if negb (bool_decide (as_bound_host state = ms_bound_host model)) then Err (StateMismatch step_index)
  else if negb (bool_decide (as_actor state = ms_actor model)) then Err (StateMismatch step_index)
  else
    match ts_action step with
    | WriteInsert _ _ _ => Ok tt
    | WriteInsertGlobal _ _ => Ok tt
    | WriteDuplicate _ _ _ => Ok tt
    | SanitizedError (Restricted | Invalid | ServerError) => Ok tt
    | AuthCheck _ claimed_community verdict =>
        match verdict, claimed_community with
        | Allow, Some c =>
            if negb (bool_decide (c = ms_resolved_community model)) then Err (IllegalTransition step_index) else Ok tt
        | _, _ => Ok tt
        end
    | ReadMessageRows _ row_communities => check_row_labels step_index model row_communities
    | ReadByIdRows _ row_communities => check_row_labels step_index model row_communities
    | ReadHostFeedRows row_communities => check_row_labels step_index model row_communities
    | ImplBug _ => Err CoverageBreach
    end.

Record Scenario := mkScenario {
  sc_trace : list TraceStep;
  sc_required_critical_actions : gset string;
}.
Definition unstructured (trace : list TraceStep) : Scenario := mkScenario trace ∅.
Definition require (kind : string) (s : Scenario) : Scenario :=
  mkScenario (sc_trace s) ({[kind]} ∪ sc_required_critical_actions s).

(** The loop over the steps, from index [i]. *)
Fixpoint check_steps (i : nat) (model : ModelState) (trace : list TraceStep) : result unit TransitionError :=
  match trace with
  | [] => Ok tt
  | step :: trace =>
      if negb (N.eqb (ts_schema_version step) SCHEMA_VERSION) then Err (IllegalTransition i)
      else
        let? _ := check_step i model step in
        check_steps (S i) model trace
  end.

Definition check_trace (scenario : Scenario) : result unit TransitionError :=
  match sc_trace scenario with
  | [] => Err CoverageBreach
  | first :: _ =>
      if negb (N.eqb (ts_schema_version first) SCHEMA_VERSION) then Err (IllegalTransition 0)
      else
        let? _ := check_steps 0 (bootstrap (ts_state_after first)) (sc_trace scenario) in
        let seen := list_to_set (action_kind ∘ ts_action <$> sc_trace scenario) : gset string in
        if bool_decide (sc_required_critical_actions scenario ∖ seen = ∅) then Ok tt else Err CoverageBreach
  end.

(** ** The relay's side *)

Section emit.
Context `{NostrLib, UuidLib, HexLib, ReadLib, StoreLib, FtsLib}.

(** [&hex[..n]] with [n] the smaller of the length and 16. *)
Definition actor_label (actor : PublicKey) : string :=
  let hex := rd_pk_hex actor in String.substring 0 (Nat.min (String.length hex) 16) hex.

Definition state_for_request (tenant : TenantContext) (actor : PublicKey) : AbstractState :=
  mkAbstractState (as_uuid (tc_community tenant)) (tc_host tenant) (actor_label actor).

(** The first eight bytes in hexadecimal. *)
Definition msg_id_label (event_id : string) : string := hex_encode (String.substring 0 8 event_id).

Fixpoint claimed_community (tags : list Tag) : option CommunityLabel :=
  match tags with
  | [] => None
  | raw :: tags =>
      if bool_decide (raw !! 0 = Some "h") then raw !! 1 ≫= uuid_parse_str else claimed_community tags
  end.
Definition claimed_community_from_event (event : Event) : option CommunityLabel := claimed_community (ev_tags event).

Definition record_req_authcheck (state : AbstractState) (channel_id : Uuid) (member : bool) : TraceStep :=
  TraceStep_new (AuthCheck channel_id None (if member then Allow else Deny)) state.

(** [Db::communities_of_channels]: the live rows with one of the ids, in the
    order the statement returns them, into a map by channel id. *)
Definition communities_of_channels (channels : list ChannelRow) (channel_ids : list Uuid) : gmap Uuid CommunityId :=
  if (length channel_ids =? 0)%nat then ∅
  else foldl (fun out r => <[chr_id r := chr_community_id r]> out) ∅
         (List.filter (fun r => bool_decide (chr_id r ∈ channel_ids) && bool_decide (chr_deleted_at r = None)) channels).

Definition project_row_community (row_channel_id : option Uuid) (resolved : CommunityLabel)
    (channel_communities : gmap Uuid CommunityId) : option CommunityLabel :=
  match row_channel_id with
  | None => Some resolved
  | Some ch => as_uuid <$> channel_communities !! ch
  end.

(** [None] is [MissingLookup]. *)
Fixpoint project_row_communities (rows : list (option Uuid)) (resolved : CommunityLabel)
    (channel_communities : gmap Uuid CommunityId) : option (list CommunityLabel) :=
  match rows with
  | [] => Some []
  | row :: rows =>
      label ← project_row_community row resolved channel_communities;
      labels ← project_row_communities rows resolved channel_communities;
      Some (label :: labels)
  end.

Definition record_read_message_rows (state : AbstractState) (filter_channel : option Uuid) (rows : list (option Uuid))
    (channel_communities : gmap Uuid CommunityId) : TraceStep :=
  match project_row_communities rows (as_resolved_community state) channel_communities with
  | Some row_communities => TraceStep_new (ReadMessageRows filter_channel row_communities) state
  | None => TraceStep_new (ImplBug "row_community_lookup_missing") state
  end.

Definition record_read_by_id_rows (state : AbstractState) (filter_channel : option Uuid) (rows : list (option Uuid))
    (channel_communities : gmap Uuid CommunityId) : TraceStep :=
  match project_row_communities rows (as_resolved_community state) channel_communities with
  | Some row_communities => TraceStep_new (ReadByIdRows filter_channel row_communities) state
  | None => TraceStep_new (ImplBug "row_community_lookup_missing") state
  end.

(** The lookup of one emit: a failed statement leaves the map empty. *)
Definition emit_lookup (channels : option (list ChannelRow)) (row_channels : list (option Uuid)) : gmap Uuid CommunityId :=
  match channels with
  | Some channels => communities_of_channels channels (dedup_first (omap id row_channels))
  | None => ∅
  end.

(** ** The steps a REQ records *)

(** The answers of the lookups made for the trace, by filter and page. *)
Record TraceEnv := mkTraceEnv {
  te_channels : nat -> option (list ChannelRow);
  te_page_channels : nat -> N -> option (list ChannelRow);
}.

(** Along the confirmation loop: one step for each answer of the database. *)
Fixpoint confirm_steps (env : ReadEnv) (state : AbstractState) (c : CommunityId) (pubkey_bytes : string)
    (token_channel_ids : option (list Uuid)) (requested accessible : list Uuid) : list TraceStep :=
  match requested with
  | [] => []
  | ch_id :: requested =>
      let allows := token_allows token_channel_ids ch_id in
      if negb allows || bool_decide (ch_id ∈ accessible) then
        confirm_steps env state c pubkey_bytes token_channel_ids requested
          (resolve_request_local_access accessible ch_id allows None).1
      else
        match env_member_db env ch_id with
        | None => []
        | Some db =>
            let member := is_member db c ch_id pubkey_bytes in
            record_req_authcheck state ch_id member ::
            confirm_steps env state c pubkey_bytes token_channel_ids requested
              (resolve_request_local_access accessible ch_id allows (Some member)).1
        end
  end.

(** Along the delivery: one step for each filter whose query answered. *)
Fixpoint history_steps (env : ReadEnv) (tenv : TraceEnv) (state : AbstractState) (c : CommunityId) (sub_id : string)
    (channel_id : option Uuid) (accessible : list Uuid) (reader : string) (before_ids : list (option string)) (idx : nat)
    (filters : list ReqFilter) (seen : gset EventId) (ob : Outbox) : list TraceStep :=
  match filters with
  | [] => []
  | f :: filters =>
      let before_id := default None (before_ids !! idx) in
      match query_events_routed (env_route env idx) (history_query c channel_id accessible reader before_id f) with
      | Err _ => []
      | Ok events =>
          let row_channels := se_channel_id <$> events in
          record_read_message_rows state (per_filter_channel f channel_id) row_channels
            (emit_lookup (te_channels tenv idx) row_channels) ::
          match deliver (env_queue env) sub_id f accessible reader events seen ob with
          | (_, _, true) => []
          | (ob, seen, false) =>
              history_steps env tenv state c sub_id channel_id accessible reader before_ids (S idx) filters seen ob
          end
      end
  end.

(** Along the search lane: one step for each page of hits that was re-read. *)
Fixpoint search_page_steps (env : ReadEnv) (tenv : TraceEnv) (state : AbstractState) (c : CommunityId) (sub_id : string)
    (idx : nat) (f : ReqFilter) (text : string) (scope : ChannelScope) (accessible : list Uuid) (reader : string)
    (limit : N) (pages : list N) (emitted : N) (seen : gset EventId) (ob : Outbox) : list TraceStep :=
  match pages with
  | [] => []
  | page :: pages =>
      if (limit <=? emitted)%N then []
      else
        match search_with_ids (env_search env idx page) (search_query c f text scope page) (search_ids f) with
        | Err _ => []
        | Ok found =>
            let hit_ids := hit_event_id <$> sr_hits found in
            let exhausted := (N.of_nat (length hit_ids) <? SEARCH_PAGE_SIZE)%N in
            if (length hit_ids =? 0)%nat then []
            else
              match get_events_by_ids_routed (env_hydrate env idx page) c hit_ids with
              | Err _ => []
              | Ok events =>
                  let row_channels := se_channel_id <$> events in
                  record_read_by_id_rows state None row_channels
                    (emit_lookup (te_page_channels tenv idx page) row_channels) ::
                  match deliver_hits (env_queue env) sub_id f accessible reader limit events hit_ids emitted seen ob with
                  | (_, _, _, true) => []
                  | (ob, seen, emitted, false) =>
                      if exhausted then []
                      else search_page_steps env tenv state c sub_id idx f text scope accessible reader limit pages emitted seen ob
                  end
              end
        end
  end.

Fixpoint search_steps (env : ReadEnv) (tenv : TraceEnv) (state : AbstractState) (c : CommunityId) (sub_id : string)
    (all_channels : ChannelScope) (accessible : list Uuid) (reader : string) (idx : nat) (filters : list ReqFilter)
    (seen : gset EventId) (ob : Outbox) : list TraceStep :=
  match filters with
  | [] => []
  | f :: filters =>
      let next := search_steps env tenv state c sub_id all_channels accessible reader (S idx) filters in
      match rf_search f with
      | None | Some EmptyString => next seen ob
      | Some text =>
          let limit := search_limit f in
          if (limit =? 0)%N then next seen ob
          else
            match search_scope f accessible all_channels with
            | None => next seen ob
            | Some scope =>
                search_page_steps env tenv state c sub_id idx f text scope accessible reader limit search_page_numbers 0 seen ob ++
                match search_pages env c sub_id idx f text scope accessible reader limit search_page_numbers 0 seen ob with
                | (_, _, true) => []
                | (ob, seen, false) => next seen ob
                end
            end
      end
  end.

(** What a REQ records with an observing tracer: the confirmations, when the
    request gets that far, then the reads of the lane it is sent to. *)
Definition req_trace (env : ReadEnv) (tenv : TraceEnv) (conn : ConnectionState) (host : string) (sub_id : string)
    (before_ids : list (option string)) (filters : list ReqFilter) : list TraceStep :=
  let c := cs_tenant conn in
  match cs_auth_state conn with
  | Authenticated ctx =>
      if negb (length (ac_scopes ctx) =? 0)%nat && negb (bool_decide (MessagesRead ∈ ac_scopes ctx)) then []
      else if bool_decide (cs_subscriptions conn !! sub_id = None) &&
              (MAX_SUBSCRIPTIONS <=? size (cs_subscriptions conn))%nat then []
      else
        let pubkey_bytes := rd_pk_bytes (ac_pubkey ctx) in
        match current_relay_membership_for_auth (env_cfg env) (env_roster env) pubkey_bytes
                (rd_pk_bytes <$> ac_agent_owner_pubkey ctx) with
        | Err _ | Ok false => []
        | Ok true =>
            match extract_channel_ids_from_filters_limited filters with
            | Err _ => []
            | Ok requested =>
                match base_channels env c pubkey_bytes (ac_channel_ids ctx) (filters_are_nip43_membership_only filters) with
                | Err _ => []
                | Ok base =>
                    let state := state_for_request (resolved c host) (ac_pubkey ctx) in
                    confirm_steps env state c pubkey_bytes (ac_channel_ids ctx) (default [] requested) base ++
                    match req_plan env conn sub_id filters with
                    | Subscribe channel_id _ accessible reader =>
                        history_steps env tenv state c sub_id channel_id accessible reader before_ids 0 filters ∅ outbox_new
                    | SearchFor accessible include_global =>
                        match build_search_channel_scope_filter accessible include_global with
                        | None => []
                        | Some all_channels =>
                            search_steps env tenv state c sub_id all_channels accessible pubkey_bytes 0 filters ∅ outbox_new
                        end
                    | _ => []
                    end
                end
            end
        end
  | _ => []
  end.

(** ** The steps an ingest records *)

Inductive IngestError := Rejected | AuthFailed | Internal.

Definition sanitized_reason_for (err : IngestError) : SanitizedReason :=
  match err with Rejected => Invalid | AuthFailed => Restricted | Internal => ServerError end.

(** [EmitGuard]'s drop: a seam that recorded nothing records a breach. *)
Definition guarded (kind : string) (state : AbstractState) (steps : list TraceStep) : list TraceStep :=
  if (length steps =? 0)%nat then [TraceStep_new (ImplBug kind) state] else steps.

(** [ingest_event] around its inner function, whose steps and verdict are given. *)
Definition ingest_event_trace (state : AbstractState) (inner : list TraceStep * result unit IngestError) : list TraceStep :=
  let '(steps, verdict) := inner in
  guarded "ingest_event_exited_without_trace" state
    (steps ++ match verdict with
              | Err err => [TraceStep_new (SanitizedError (sanitized_reason_for err)) state]
              | Ok _ => []
              end).

(** The emit of the membership gate. *)
Definition membership_step (state : AbstractState) (event : Event) (ch_id : Uuid) (auth_ok : bool) : TraceStep :=
  TraceStep_new (AuthCheck ch_id (claimed_community_from_event event) (if auth_ok then Allow else Deny)) state.

(** The emit of a persisted event. *)
Definition write_step (state : AbstractState) (event : Event) (channel_id : option Uuid) (was_inserted : bool) : TraceStep :=
  let claimed := claimed_community_from_event event in
  let msg_id := msg_id_label (rd_id_bytes (ev_id event)) in
  TraceStep_new
    (match channel_id, was_inserted with
     | Some ch, true => WriteInsert msg_id ch claimed
     | Some ch, false => WriteDuplicate msg_id ch claimed
     | None, _ => WriteInsertGlobal msg_id claimed
     end) state.
End emit.
