(* ===== verification/ConformanceTheorems.v ===== *)
(** What the tenancy checker accepts, what its two seams record, and that the
    relay's own read path is accepted by it. *)

From S2P Require Import Prelude Nostr Filter Auth RustStr ReadGate EventStore ReadQuery ReadReq.
From S2P Require Import ReadTheorems Tenant Conformance.

(** ** The specification a trace is replayed against *)

(** The community labels of the rows a step read. *)
Definition row_labels (a : TraceAction) : list CommunityLabel :=
  match a with
  | ReadMessageRows _ rows | ReadByIdRows _ rows | ReadHostFeedRows rows => rows
  | _ => []
  end.

(** A step of a request bound to [st]: it speaks the schema, stays in the
    request's context, grants nothing under the claim of another community,
    read only rows of the community, and is not a breach. *)
Record conforms (st : AbstractState) (step : TraceStep) : Prop := {
  cf_schema : ts_schema_version step = SCHEMA_VERSION;
  cf_state : ts_state_after step = st;
  cf_claim ch c : ts_action step = AuthCheck ch (Some c) Allow -> c = as_resolved_community st;
  cf_rows c : c ∈ row_labels (ts_action step) -> c = as_resolved_community st;
  cf_no_bug kind : ts_action step <> ImplBug kind;
}.

(** The step an error names; a coverage breach names none. *)
Definition located (e : TransitionError) (k : nat) : Prop :=
  match e with
  | IllegalTransition i | StateMismatch i | NonInterference i => i = k
  | CoverageBreach => True
  end.

Lemma check_row_labels_ok i st rows :
  check_row_labels i (bootstrap st) rows = Ok tt <-> forall c, c ∈ rows -> c = as_resolved_community st.
Proof.
  unfold check_row_labels. cbn [ms_resolved_community bootstrap]. destruct (List.find _ rows) as [c|] eqn:E; split; try done.
  - intros Hall. apply find_some in E as [Hin%list_elem_of_In Hb]. rewrite (Hall c Hin), bool_decide_true in Hb; done.
  - intros _ c Hc%list_elem_of_In. apply (find_none _ _ E) in Hc. by apply negb_false_iff, bool_decide_eq_true in Hc.
Qed.

Lemma check_row_labels_err i m rows e : check_row_labels i m rows = Err e -> e = NonInterference i.
Proof. unfold check_row_labels. destruct (List.find _ _); [by intros [= <-]|done]. Qed.

Lemma check_step_ok i st step :
  ts_schema_version step = SCHEMA_VERSION -> check_step i (bootstrap st) step = Ok tt <-> conforms st step.
Proof.
  intros Hv. unfold check_step. destruct step as [v a [rc h act]]. destruct st as [rc' h' act']. cbn in *.
  repeat (case_bool_decide; subst; cbn; [|split; [done|intros [_ [=] _ _ _]; congruence]]).
  pose proof (check_row_labels_ok i (mkAbstractState rc' h' act')) as Hl. unfold bootstrap in Hl. cbn in Hl.
  destruct a as [| | |[]|ch [c|] []|ch rows|ch rows|rows|kind]; try (split; [intros _|done]; split; try done; by intros ? ?%elem_of_nil).
  - case_bool_decide; cbn; (split; [intros Hd|intros [_ _ Hc _ _]; cbn in Hc]); try done.
    + split; cbn; try done; [congruence|by intros ? ?%elem_of_nil].
    + by rewrite (Hc ch c) in *.
  - rewrite Hl. split; [intros Hr; split; try done|intros [_ _ _ Hr _]; exact Hr].
  - rewrite Hl. split; [intros Hr; split; try done|intros [_ _ _ Hr _]; exact Hr].
  - rewrite Hl. split; [intros Hr; split; try done|intros [_ _ _ Hr _]; exact Hr].
  - split; [done|]. intros [_ _ _ _ Hb]. by destruct (Hb kind).
Qed.

Lemma check_step_located i m step e : check_step i m step = Err e -> located e i.
Proof.
  unfold check_step. repeat (case_bool_decide; cbn; [|by intros [= <-]]).
  destruct (ts_action step) as [| | |[]|ch [c|] []|ch rows|ch rows|rows|kind]; try done;
    [|by intros ->%check_row_labels_err..|by intros [= <-]].
  case_bool_decide; cbn; [done|by intros [= <-]].
Qed.

Lemma check_steps_ok i st trace : check_steps i (bootstrap st) trace = Ok tt <-> Forall (conforms st) trace.
Proof.
  revert i; induction trace as [|step trace IH]; intros i; cbn [check_steps]; [by split; [constructor|]|].
  rewrite Forall_cons. destruct (N.eqb_spec (ts_schema_version step) SCHEMA_VERSION) as [Hv|Hv]; cbn.
  - rewrite <- (check_step_ok i), <- (IH (S i)) by done. destruct (check_step i _ step) as [[]|]; naive_solver.
  - split; [done|]. by intros [[] _].
Qed.

Lemma check_steps_err i st trace e :
  check_steps i (bootstrap st) trace = Err e ->
  exists k step, trace !! k = Some step /\ ~ conforms st step /\ Forall (conforms st) (take k trace) /\ located e (i + k).
Proof.
  revert i; induction trace as [|step trace IH]; intros i; cbn [check_steps]; [done|].
  destruct (N.eqb_spec (ts_schema_version step) SCHEMA_VERSION) as [Hv|Hv]; cbn.
  - destruct (check_step i _ step) as [[]|e'] eqn:Ec.
    + intros (k & bad & Hk & Hbad & Hall & Hloc)%IH. exists (S k), bad. rewrite Nat.add_succ_r. split_and!; try done.
      cbn. constructor; [by apply (check_step_ok i)|done].
    + intros [= ->]. exists 0%nat, step. rewrite Nat.add_0_r. split_and!; [done| |by constructor|by apply check_step_located in Ec].
      rewrite <- (check_step_ok i) by done. congruence.
  - intros [= <-]. exists 0%nat, step. rewrite Nat.add_0_r. split_and!; [done| |by constructor|done]. by intros [].
Qed.

Definition covered (sc : Scenario) : Prop :=
  forall kind, kind ∈ sc_required_critical_actions sc -> exists step, step ∈ sc_trace sc /\ action_kind (ts_action step) = kind.

Lemma covered_spec sc :
  sc_required_critical_actions sc ∖ (list_to_set (action_kind ∘ ts_action <$> sc_trace sc) : gset string) = ∅ <-> covered sc.
Proof.
  set (seen := list_to_set _).
  assert (forall kind, kind ∈ seen <-> exists step, step ∈ sc_trace sc /\ action_kind (ts_action step) = kind) as Hseen.
  { intros kind. subst seen. rewrite elem_of_list_to_set, list_elem_of_fmap. cbn. naive_solver. }
  unfold covered. setoid_rewrite <- Hseen. split; [|set_solver].
  intros Hd kind Hk. destruct (decide (kind ∈ seen)); [done|]. set_solver.
Qed.

Lemma check_trace_ok sc :
  check_trace sc = Ok tt <->
  (exists st, sc_trace sc <> [] /\ Forall (conforms st) (sc_trace sc)) /\ covered sc.
Proof.
  unfold check_trace. pose proof (covered_spec sc) as Hcov. destruct (sc_trace sc) as [|first rest]; [naive_solver|].
  destruct (N.eqb_spec (ts_schema_version first) SCHEMA_VERSION) as [Hv|Hv]; cbn [negb].
  - destruct (check_steps 0 _ _) as [[]|] eqn:Ec.
    + apply check_steps_ok in Ec. case_bool_decide as Hd; rewrite Hcov in Hd; [|naive_solver].
      split; [|done]. intros _. split; [|done]. by eexists.
    + split; [done|]. intros [(st & _ & Hall) _]. assert (ts_state_after first = st) as Hst.
      { apply Forall_cons in Hall as [[] _]. done. }
      rewrite Hst, (proj2 (check_steps_ok _ _ _)) in Ec by done. done.
  - split; [done|]. intros [(st & _ & [[] _]%Forall_cons) _]. done.
Qed.

(** The checker accepts a trace exactly when it is not empty, all of its
    steps speak the schema and carry the context of the first, no step grants
    access under another community's claim, reads a row of another community
    or is a breach, and every required kind of action occurs; and it stops at
    the first step that does not conform: an error names that step, all
    before it conform. *)
Theorem check_trace_exact sc :
  (check_trace sc = Ok tt <->
   (exists st, sc_trace sc <> [] /\ Forall (conforms st) (sc_trace sc)) /\ covered sc) /\
  (forall e, check_trace sc = Err e ->
     (e = CoverageBreach /\ (sc_trace sc = [] \/ ~ covered sc)) \/
     exists first k step, head (sc_trace sc) = Some first /\ sc_trace sc !! k = Some step /\
       ~ conforms (ts_state_after first) step /\ Forall (conforms (ts_state_after first)) (take k (sc_trace sc)) /\
       located e k).
Proof.
  split; [exact (check_trace_ok sc)|]. intros e. unfold check_trace. pose proof (covered_spec sc) as Hcov.
  destruct (sc_trace sc) as [|first rest] eqn:Et; [intros [= <-]; naive_solver|].
  destruct (N.eqb_spec (ts_schema_version first) SCHEMA_VERSION) as [Hv|Hv]; cbn [negb].
  - destruct (check_steps 0 _ _) as [[]|e'] eqn:Ec.
    + case_bool_decide as Hd; [done|]. intros [= <-]. left. rewrite <- Hcov. auto.
    + intros [= ->]. apply check_steps_err in Ec as (k & step & ? & ? & ? & ?). right. by exists first, k, step.
  - intros [= <-]. right. exists first, 0%nat, first. split_and!; [done..| |by constructor|done]. by intros [].
Qed.

(** ** The read seam *)

(** The live row of a channel id in the table. *)
Definition live_row (channels : list ChannelRow) (ch : Uuid) (r : ChannelRow) : Prop :=
  r ∈ channels /\ chr_id r = ch /\ chr_deleted_at r = None.

(** The live rows of one channel id belong to one community.  The table's key is
    the pair of community and id, so this is not a constraint of the schema. *)
Definition one_community (channels : list ChannelRow) : Prop :=
  forall ch r r', live_row channels ch r -> live_row channels ch r' -> chr_community_id r = chr_community_id r'.

Lemma check_single step :
  ts_schema_version step = SCHEMA_VERSION ->
  check_trace (unstructured [step]) = check_step 0 (bootstrap (ts_state_after step)) step.
Proof.
  intros Hv. unfold check_trace, unstructured. cbn [sc_trace sc_required_critical_actions check_steps].
  rewrite Hv. cbn [N.eqb SCHEMA_VERSION Pos.eqb negb]. destruct (check_step _ _ step) as [[]|]; [|done].
  by rewrite bool_decide_true by set_solver.
Qed.

Section seam.
Context `{NostrLib, UuidLib, HexLib, ReadLib, StoreLib, FtsLib}.

Lemma foldl_lookup (rows : list ChannelRow) (out : gmap Uuid CommunityId) ch :
  foldl (fun out r => <[chr_id r := chr_community_id r]> out) out rows !! ch =
  match List.find (fun r => bool_decide (chr_id r = ch)) (rev rows) with
  | Some r => Some (chr_community_id r)
  | None => out !! ch
  end.
Proof.
  induction rows as [|r rows IH] using rev_ind; [done|]. rewrite foldl_app, rev_app_distr. cbn.
  case_bool_decide; [subst; by rewrite lookup_insert_eq|by rewrite lookup_insert_ne].
Qed.

Lemma communities_of_channels_some channels ids ch c :
  communities_of_channels channels ids !! ch = Some c -> exists r, live_row channels ch r /\ chr_community_id r = c.
Proof.
  unfold communities_of_channels. destruct (_ =? 0)%nat; [done|]. rewrite foldl_lookup.
  destruct (List.find _ _) as [r|] eqn:E; [|done]. intros [= <-]. exists r. split; [|done].
  apply find_some in E as [Hin%in_rev Hid]. apply filter_In in Hin as [Hin Hf].
  rewrite andb_true_iff, !bool_decide_eq_true in Hf. rewrite bool_decide_eq_true in Hid.
  split_and!; [by apply list_elem_of_In|done|apply Hf].
Qed.

Lemma communities_of_channels_none channels ids ch :
  ch ∈ ids -> communities_of_channels channels ids !! ch = None <-> forall r, ~ live_row channels ch r.
Proof.
  intros Hin. split.
  - unfold communities_of_channels. destruct (Nat.eqb_spec (length ids) 0) as [Hz|Hz].
    { by destruct ids; [apply elem_of_nil in Hin|]. }
    rewrite foldl_lookup. destruct (List.find _ _) as [r|] eqn:E; [done|]. intros _ r (Hr & Hid & Hdel).
    assert (In r (rev (List.filter (fun r => bool_decide (chr_id r ∈ ids) && bool_decide (chr_deleted_at r = None)) channels)))
      as Hl.
    { apply in_rev. rewrite rev_involutive. apply filter_In. rewrite andb_true_iff, !bool_decide_eq_true.
      split_and!; [by apply list_elem_of_In|congruence|done]. }
    apply (find_none _ _ E) in Hl. by rewrite bool_decide_eq_false in Hl.
  - intros Hno. destruct (_ !! ch) as [c|] eqn:E; [|done].
    apply communities_of_channels_some in E as (r & Hr & _). by destruct (Hno r).
Qed.

(** What the lookup of an emit says of a channel of the rows. *)
Lemma emit_lookup_row channels rows ch :
  Some ch ∈ rows ->
  match emit_lookup (Some channels) rows !! ch with
  | Some c => exists r, live_row channels ch r /\ chr_community_id r = c
  | None => forall r, ~ live_row channels ch r
  end.
Proof.
  intros Hin. cbn [emit_lookup]. destruct (_ !! ch) as [c|] eqn:E; [by apply communities_of_channels_some in E|].
  rewrite communities_of_channels_none in E; [done|]. rewrite elem_of_dedup_first, list_elem_of_omap. by exists (Some ch).
Qed.

Lemma project_rows_none rows c lookup :
  project_row_communities rows c lookup = None <-> exists ch, Some ch ∈ rows /\ lookup !! ch = None.
Proof.
  induction rows as [|[ch|] rows IH]; cbn [project_row_communities project_row_community].
  - split; [done|]. by intros (ch & ?%elem_of_nil & _).
  - setoid_rewrite elem_of_cons. destruct (lookup !! ch) as [d|] eqn:E; cbn.
    + destruct (project_row_communities rows c lookup); cbn; naive_solver.
    + split; [|done]. intros _. exists ch. auto.
  - setoid_rewrite elem_of_cons. cbn. destruct (project_row_communities rows c lookup); cbn; naive_solver.
Qed.

Lemma project_rows_some rows c lookup labels :
  project_row_communities rows c lookup = Some labels ->
  (forall l, l ∈ labels -> l = c) <-> forall ch d, Some ch ∈ rows -> lookup !! ch = Some d -> as_uuid d = c.
Proof.
  revert labels; induction rows as [|[ch|] rows IH]; intros labels; cbn [project_row_communities project_row_community].
  - intros [= <-]. split; [by intros _ ch d ?%elem_of_nil|by intros _ l ?%elem_of_nil].
  - destruct (lookup !! ch) as [d|] eqn:E; cbn; [|done].
    destruct (project_row_communities rows c lookup) as [ls|]; cbn; [|done]. intros [= <-].
    specialize (IH ls eq_refl). setoid_rewrite elem_of_cons. split; [|naive_solver].
    intros Hall ch' d' [[= ->]|Hin] Hd; [|naive_solver]. assert (d' = d) as -> by congruence. apply Hall. by left.
  - cbn. destruct (project_row_communities rows c lookup) as [ls|]; cbn; [|done]. intros [= <-].
    specialize (IH ls eq_refl). setoid_rewrite elem_of_cons. naive_solver.
Qed.

(** A row whose channel the lookup misses, and one it labels with [c]. *)
Definition unlabelled (lookup : gmap Uuid CommunityId) (row : option Uuid) : bool :=
  match row with Some ch => bool_decide (lookup !! ch = None) | None => false end.
Definition labelled (c : CommunityLabel) (lookup : gmap Uuid CommunityId) (row : option Uuid) : bool :=
  match row with Some ch => bool_decide ((as_uuid <$> lookup !! ch) = Some c) | None => true end.

Lemma check_step_same i st a :
  check_step i (bootstrap st) (TraceStep_new a st) =
  match a with
  | AuthCheck _ (Some c) Allow => if negb (bool_decide (c = as_resolved_community st)) then Err (IllegalTransition i) else Ok tt
  | ReadMessageRows _ rows | ReadByIdRows _ rows | ReadHostFeedRows rows => check_row_labels i (bootstrap st) rows
  | ImplBug _ => Err CoverageBreach
  | _ => Ok tt
  end.
Proof.
  unfold check_step. cbn. rewrite !bool_decide_true by done. cbn. by destruct a as [| | |[]|? [] []| | | |].
Qed.

(** The verdict on one read, whichever of the two actions it records. *)
Lemma read_step_verdict state rows lookup (mk : list CommunityLabel -> TraceAction) :
  (forall labels, check_step 0 (bootstrap state) (TraceStep_new (mk labels) state)
                  = check_row_labels 0 (bootstrap state) labels) ->
  check_trace (unstructured [
    match project_row_communities rows (as_resolved_community state) lookup with
    | Some labels => TraceStep_new (mk labels) state
    | None => TraceStep_new (ImplBug "row_community_lookup_missing") state
    end]) =
  if existsb (unlabelled lookup) rows then Err CoverageBreach
  else if forallb (labelled (as_resolved_community state) lookup) rows then Ok tt
  else Err (NonInterference 0).
Proof.
  intros Hmk. pose proof (project_rows_none rows (as_resolved_community state) lookup) as Hn.
  pose proof (project_rows_some rows (as_resolved_community state) lookup) as Hs.
  rewrite check_single by by destruct (project_row_communities _ _ _).
  destruct (existsb _ rows) eqn:Ex.
  - apply existsb_exists in Ex as ([ch|] & Hin%list_elem_of_In & Hl); [|done]. apply bool_decide_eq_true in Hl.
    rewrite (proj2 Hn) by eauto. apply check_step_same.
  - destruct (project_row_communities _ _ _) as [labels|].
    2:{ destruct (proj1 Hn eq_refl) as (ch & Hin%list_elem_of_In & Hl). exfalso.
        assert (existsb (unlabelled lookup) rows = true); [|congruence]. apply existsb_exists. exists (Some ch).
        split; [done|]. by apply bool_decide_eq_true. }
    specialize (Hs labels eq_refl). cbn [ts_state_after TraceStep_new]. rewrite Hmk.
    assert (forallb (labelled (as_resolved_community state) lookup) rows = true <->
            check_row_labels 0 (bootstrap state) labels = Ok tt) as Hall.
    { rewrite check_row_labels_ok, Hs, forallb_forall. split.
      - intros Hr ch d Hin%list_elem_of_In Hd. specialize (Hr _ Hin). cbn in Hr.
        apply bool_decide_eq_true in Hr. rewrite Hd in Hr. by injection Hr.
      - intros Hr [ch|] Hin; [|done]. apply bool_decide_eq_true. apply list_elem_of_In in Hin.
        destruct (lookup !! ch) as [d|] eqn:El; cbn; [f_equal; eauto|].
        assert (Some labels = None) as [=]. apply Hn. eauto. }
    destruct (check_row_labels 0 _ labels) as [[]|e] eqn:E.
    + by rewrite (proj2 Hall).
    + apply check_row_labels_err in E as ->. destruct (forallb _ rows); [|done]. by specialize (proj1 Hall eq_refl).
Qed.

(** The three cases of a read, by the channels table. *)
Lemma seam_missing channels rows :
  existsb (unlabelled (emit_lookup (Some channels) rows)) rows = true <->
  exists ch, Some ch ∈ rows /\ forall r, ~ live_row channels ch r.
Proof.
  rewrite existsb_exists. split.
  - intros ([ch|] & Hin%list_elem_of_In & Hl); [|done]. exists ch. split; [done|]. apply bool_decide_eq_true in Hl.
    pose proof (emit_lookup_row channels rows ch Hin) as Hr. by rewrite Hl in Hr.
  - intros (ch & Hin & Hno). exists (Some ch). split; [by apply list_elem_of_In|]. apply bool_decide_eq_true.
    pose proof (emit_lookup_row channels rows ch Hin) as Hr. destruct (_ !! ch); [|done].
    destruct Hr as (r & Hr & _). by destruct (Hno r).
Qed.

Lemma seam_present channels rows :
  existsb (unlabelled (emit_lookup (Some channels) rows)) rows = false <->
  forall ch, Some ch ∈ rows -> exists r, live_row channels ch r.
Proof.
  split.
  - intros Ex ch Hin. pose proof (emit_lookup_row channels rows ch Hin) as Hr.
    destruct (_ !! ch) eqn:El; [naive_solver|]. rewrite (proj2 (seam_missing channels rows)) in Ex by eauto. done.
  - intros Hall. apply not_true_iff_false. rewrite seam_missing. intros (ch & Hin & Hno).
    destruct (Hall ch Hin) as [r Hr]. by destruct (Hno r).
Qed.

Lemma seam_home c channels rows :
  one_community channels ->
  forallb (labelled c (emit_lookup (Some channels) rows)) rows = true <->
  forall ch, Some ch ∈ rows -> exists r, live_row channels ch r /\ as_uuid (chr_community_id r) = c.
Proof.
  intros Hone. rewrite forallb_forall. split.
  - intros Hall ch Hin. pose proof (emit_lookup_row channels rows ch Hin) as Hr.
    apply list_elem_of_In, Hall, bool_decide_eq_true in Hin. destruct (_ !! ch); [|done].
    destruct Hr as (r & Hr & <-). exists r. cbn in Hin. split; [done|congruence].
  - intros Hall [ch|] Hin%list_elem_of_In; [|done]. apply bool_decide_eq_true.
    pose proof (emit_lookup_row channels rows ch Hin) as Hr. destruct (Hall ch Hin) as (r & Hlive & Hc).
    destruct (_ !! ch) as [d|]; [|by destruct (Hr r)]. destruct Hr as (r' & Hr' & <-). cbn. f_equal.
    by rewrite (Hone ch r' r).
Qed.

Lemma seam_foreign c channels rows :
  existsb (unlabelled (emit_lookup (Some channels) rows)) rows = false ->
  forallb (labelled c (emit_lookup (Some channels) rows)) rows = false ->
  exists ch r, Some ch ∈ rows /\ live_row channels ch r /\ as_uuid (chr_community_id r) <> c.
Proof.
  intros Ex Ef.
  assert (existsb (fun row => negb (labelled c (emit_lookup (Some channels) rows) row)) rows = true) as Hx.
  { revert Ef. generalize (labelled c (emit_lookup (Some channels) rows)). intros p. clear.
    induction rows as [|row rows IH]; [done|]. cbn. by destruct (p row). }
  apply existsb_exists in Hx as ([ch|] & Hin%list_elem_of_In & Hl); [|done]. exists ch.
  apply negb_true_iff, bool_decide_eq_false in Hl. pose proof (emit_lookup_row channels rows ch Hin) as Hr.
  destruct (_ !! ch); cbn in Hl.
  - destruct Hr as (r & Hr & <-). exists r. split_and!; [done..|congruence].
  - destruct (proj1 (seam_present channels rows) Ex ch Hin) as [r Hlive]. by destruct (Hr r).
Qed.

(** The read seam judges rows by the channels table alone, whatever query
    fetched them.  When a channel id is live in one community only, the step
    recorded for a read is accepted exactly when every row in a channel is in
    a live channel of the request's community; a row in a channel that is not
    live is a coverage breach; otherwise a row in a channel of another
    community is a non-interference breach.  The search lane judges alike. *)
Theorem read_seam_exact state filter_channel channels rows :
  one_community channels ->
  let lookup := emit_lookup (Some channels) rows in
  let verdict := check_trace (unstructured [record_read_message_rows state filter_channel rows lookup]) in
  (verdict = Ok tt <-> forall ch, Some ch ∈ rows ->
     exists r, live_row channels ch r /\ as_uuid (chr_community_id r) = as_resolved_community state) /\
  (verdict = Err CoverageBreach <-> exists ch, Some ch ∈ rows /\ forall r, ~ live_row channels ch r) /\
  (verdict = Err (NonInterference 0) <-> (forall ch, Some ch ∈ rows -> exists r, live_row channels ch r) /\
     exists ch r, Some ch ∈ rows /\ live_row channels ch r /\ as_uuid (chr_community_id r) <> as_resolved_community state) /\
  check_trace (unstructured [record_read_by_id_rows state filter_channel rows lookup]) = verdict.
Proof.
  intros Hone lookup verdict.
  assert (verdict = if existsb (unlabelled lookup) rows then Err CoverageBreach
                    else if forallb (labelled (as_resolved_community state) lookup) rows then Ok tt
                    else Err (NonInterference 0)) as Hv.
  { apply (read_step_verdict state rows lookup (ReadMessageRows filter_channel)). intros. apply check_step_same. }
  assert (check_trace (unstructured [record_read_by_id_rows state filter_channel rows lookup]) = verdict) as Hid.
  { rewrite Hv. apply (read_step_verdict state rows lookup (ReadByIdRows filter_channel)). intros. apply check_step_same. }
  rewrite Hid, Hv, <- seam_missing, <- seam_present, <- seam_home by done. clear Hid Hv verdict.
  pose proof (seam_foreign (as_resolved_community state) channels rows) as Hforeign. fold lookup in Hforeign |- *.
  assert (forallb (labelled (as_resolved_community state) lookup) rows = true ->
          existsb (unlabelled lookup) rows = false) as Hlab.
  { intros Hall. apply seam_present. intros ch Hin.
    destruct (proj1 (seam_home _ channels rows Hone) Hall ch Hin) as (r & Hr & _). eauto. }
  destruct (existsb _ rows) eqn:Ex; [split_and!; split; try done; [by intros ?%Hlab|by intros [[=] _]]|].
  destruct (forallb _ rows) eqn:Ef; [|split_and!; split; try done; auto].
  split_and!; try done. split; [done|]. intros (_ & ch & r & Hin & Hr & Hne).
  apply (seam_home _ channels rows Hone) with (ch := ch) in Ef as (r' & Hr' & Hc); [|done].
  by rewrite (Hone ch r' r) in Hc.
Qed.
End seam.

(** ** The traces of the read path *)

Section requests.
Context `{NostrLib, UuidLib, HexLib, ReadLib, StoreLib, FtsLib}.

(** The channels of the community's live events are live channels of the
    community, in the table the trace reads. *)
Definition channels_known (c : CommunityId) (db : EventDb) (channels : list ChannelRow) : Prop :=
  forall r ch, r ∈ db_events db -> er_community_id r = c -> er_deleted_at r = None -> er_channel_id r = Some ch ->
    exists row, live_row channels ch row /\ chr_community_id row = c.

(** The lookups made for the trace answer, from a table that knows the channels
    of the rows just read. *)
Record lookups_answer (env : ReadEnv) (tenv : TraceEnv) (c : CommunityId) : Prop := {
  la_filter idx : exists channels, te_channels tenv idx = Some channels /\ one_community channels /\
    forall db, route_sees (env_route env idx) db -> channels_known c db channels;
  la_page idx page : exists channels, te_page_channels tenv idx page = Some channels /\ one_community channels /\
    forall db, route_sees (env_hydrate env idx page) db -> channels_known c db channels;
}.

Lemma confirm_steps_conform env state c pubkey token requested accessible :
  Forall (conforms state) (confirm_steps env state c pubkey token requested accessible).
Proof.
  revert accessible; induction requested as [|ch requested IH]; intros accessible; cbn [confirm_steps]; [constructor|].
  destruct (_ || _); [apply IH|]. destruct (env_member_db env ch); [|constructor]. constructor; [|apply IH].
  split; try done. by intros d ?%elem_of_nil.
Qed.

Lemma projected_conforms state channels rows (mk : list CommunityLabel -> TraceAction) :
  (forall labels, check_step 0 (bootstrap state) (TraceStep_new (mk labels) state)
                  = check_row_labels 0 (bootstrap state) labels) ->
  one_community channels ->
  (forall ch, Some ch ∈ rows -> exists r, live_row channels ch r /\ as_uuid (chr_community_id r) = as_resolved_community state) ->
  conforms state
    match project_row_communities rows (as_resolved_community state) (emit_lookup (Some channels) rows) with
    | Some labels => TraceStep_new (mk labels) state
    | None => TraceStep_new (ImplBug "row_community_lookup_missing") state
    end.
Proof.
  intros Hmk Hone Hrows. pose proof (read_step_verdict state rows (emit_lookup (Some channels) rows) mk Hmk) as Hv.
  rewrite (proj2 (seam_present channels rows)), (proj2 (seam_home _ channels rows Hone)) in Hv by (try done; naive_solver).
  set (step := match _ with Some _ => _ | None => _ end) in *.
  assert (ts_schema_version step = SCHEMA_VERSION /\ ts_state_after step = state) as [Hver Hst]
    by (subst step; by destruct (project_row_communities _ _ _)).
  rewrite check_single, Hst in Hv by done. by apply check_step_ok in Hv.
Qed.

(** The rows of a page are rows of the community in a database the read sees. *)
Lemma read_rows_known c rt channels state (events : list StoredEvent) :
  as_resolved_community state = as_uuid c -> (forall db, route_sees rt db -> channels_known c db channels) ->
  (forall stored, stored ∈ events -> exists db r, route_sees rt db /\ served_row db c r stored) ->
  forall ch, Some ch ∈ (se_channel_id <$> events : list (option Uuid)) ->
    exists r, live_row channels ch r /\ as_uuid (chr_community_id r) = as_resolved_community state.
Proof.
  intros -> Hk Hev ch (stored & Hch & Hin)%list_elem_of_fmap.
  destruct (Hev stored Hin) as (db & r & Hsees & Hr & Hc & Hd & Hrow).
  apply row_to_stored_channel in Hrow. destruct (Hk db Hsees r ch) as (row & ? & <-); [done..|congruence|eauto].
Qed.

Lemma history_page rt c channel_id accessible reader before f events stored :
  query_events_routed rt (history_query c channel_id accessible reader before f) = Ok events -> stored ∈ events ->
  exists db r, route_sees rt db /\ served_row db c r stored.
Proof.
  intros (db & Hsees & Hq)%routed_ok Hin.
  destruct (query_events_elem _ _ _ stored Hq Hin) as (r & Hr & Hw & Hrow). exists db, r. split; [done|].
  apply query_where_row in Hw as (Hc & Hd & _). destruct (history_query_fields c channel_id accessible reader before f) as [Eq _].
  rewrite Eq in Hc. by split_and!.
Qed.

Section lane.
Context (env : ReadEnv) (tenv : TraceEnv) (c : CommunityId) (state : AbstractState).
Context (Hla : lookups_answer env tenv c) (Hst : as_resolved_community state = as_uuid c).

Lemma history_steps_conform sub channel_id accessible reader before idx filters seen ob :
  Forall (conforms state) (history_steps env tenv state c sub channel_id accessible reader before idx filters seen ob).
Proof.
  revert idx seen ob; induction filters as [|f filters IH]; intros idx seen ob; cbn [history_steps]; [constructor|].
  destruct (query_events_routed _ _) as [events|] eqn:Eq; [|constructor]. constructor.
  - destruct (la_filter _ _ _ Hla idx) as (channels & -> & Hone & Hknown).
    apply projected_conforms; [intros; apply check_step_same|done|].
    apply (read_rows_known c (env_route env idx)); [done..|]. intros stored. by apply (history_page _ _ _ _ _ _ _ _ _ Eq).
  - destruct (deliver _ _ _ _ _ _ _ _) as [[ob1 seen1] []]; [constructor|apply IH].
Qed.

Lemma search_page_steps_conform sub idx f text scope accessible reader limit pages emitted seen ob :
  Forall (conforms state)
    (search_page_steps env tenv state c sub idx f text scope accessible reader limit pages emitted seen ob).
Proof.
  revert emitted seen ob; induction pages as [|page pages IH]; intros emitted seen ob; cbn [search_page_steps]; [constructor|].
  destruct (limit <=? emitted)%N; [constructor|]. destruct (search_with_ids _ _ _) as [found|]; [|constructor].
  destruct (_ =? 0)%nat; [constructor|].
  destruct (get_events_by_ids_routed _ _ _) as [events|] eqn:Eg; [|constructor]. constructor.
  - destruct (la_page _ _ _ Hla idx page) as (channels & -> & Hone & Hknown).
    apply projected_conforms; [intros; apply check_step_same|done|].
    apply (read_rows_known c (env_hydrate env idx page)); [done..|]. intros stored Hin.
    destruct (get_by_ids_routed_elem _ _ _ _ _ Eg Hin) as (db & r & Hsees & Hr & _). eauto.
  - destruct (deliver_hits _ _ _ _ _ _ _ _ _ _ _) as [[[ob1 seen1] emitted1] []]; [constructor|].
    destruct (_ <? _)%N; [constructor|apply IH].
Qed.

Lemma search_steps_conform sub all accessible reader idx filters seen ob :
  Forall (conforms state) (search_steps env tenv state c sub all accessible reader idx filters seen ob).
Proof.
  revert idx seen ob; induction filters as [|f filters IH]; intros idx seen ob; cbn [search_steps]; [constructor|].
  destruct (rf_search f) as [[|a text]|]; [apply IH| |apply IH]. destruct (_ =? 0)%N; [apply IH|].
  destruct (search_scope _ _ _); [|apply IH]. apply Forall_app. split; [apply search_page_steps_conform|].
  destruct (search_pages _ _ _ _ _ _ _ _ _ _ _ _ _ _) as [[ob1 seen1] []]; [constructor|apply IH].
Qed.
End lane.

Lemma req_trace_conform env tenv conn host sub before filters :
  lookups_answer env tenv (cs_tenant conn) ->
  exists st, as_resolved_community st = as_uuid (cs_tenant conn) /\ as_bound_host st = host /\
    Forall (conforms st) (req_trace env tenv conn host sub before filters).
Proof.
  intros Hla. unfold req_trace.
  destruct (cs_auth_state conn) as [|ctx|] eqn:Ea; try by exists (state_for_request (resolved (cs_tenant conn) host) 0%N).
  set (st := state_for_request _ _). exists st. split_and!; [done..|]. do 2 (case_match; [constructor|]).
  destruct (current_relay_membership_for_auth _ _ _ _) as [[]|]; [|constructor..].
  destruct (extract_channel_ids_from_filters_limited filters) as [requested|]; [|constructor].
  destruct (base_channels _ _ _ _ _) as [base|]; [|constructor]. cbn zeta.
  apply Forall_app. split; [apply confirm_steps_conform|]. destruct (req_plan _ _ _ _); try constructor.
  - destruct (build_search_channel_scope_filter _ _); [|constructor]. by apply search_steps_conform.
  - by apply history_steps_conform.
Qed.

(** C33: the relay's own reads never trip the checker: whatever a REQ asks for,
    the steps it records, the confirmations of its channels and the rows of
    each filter or search page, are accepted, when the lookups made for the
    trace answer from a table that knows the channels of the community's
    events under one community each. *)
Theorem req_trace_accepted env tenv conn host sub before filters :
  lookups_answer env tenv (cs_tenant conn) ->
  let trace := req_trace env tenv conn host sub before filters in
  (trace <> [] -> check_trace (unstructured trace) = Ok tt) /\
  forall step, step ∈ trace ->
    as_resolved_community (ts_state_after step) = as_uuid (cs_tenant conn) /\ as_bound_host (ts_state_after step) = host.
Proof.
  intros Hla trace. destruct (req_trace_conform env tenv conn host sub before filters Hla) as (st & Hc & Hh & Hall).
  fold trace in Hall. split.
  - intros Hne. apply check_trace_ok. split; [by exists st|]. intros kind. set_solver.
  - intros step Hin. rewrite Forall_forall in Hall. by destruct (Hall step Hin) as [_ -> _ _ _].
Qed.
End requests.

(** ** The ingest seam *)

Section ingest.
Context `{NostrLib, UuidLib, HexLib, ReadLib, StoreLib, FtsLib}.

Lemma guarded_nonempty kind state steps : steps <> [] -> guarded kind state steps = steps.
Proof. by destruct steps. Qed.

Lemma unstructured_ok trace :
  check_trace (unstructured trace) = Ok tt <-> exists st, trace <> [] /\ Forall (conforms st) trace.
Proof. rewrite check_trace_ok. split; [by intros [? _]|]. intros ?. split; [done|]. intros kind. set_solver. Qed.

(** The trace by the exit of the seam. *)
Lemma ingest_trace_cases state steps verdict :
  ingest_event_trace state (steps, verdict) =
  match verdict, steps with
  | Err err, _ => steps ++ [TraceStep_new (SanitizedError (sanitized_reason_for err)) state]
  | Ok _, [] => [TraceStep_new (ImplBug "ingest_event_exited_without_trace") state]
  | Ok _, _ => steps
  end.
Proof.
  unfold ingest_event_trace. destruct verdict as [|err]; [rewrite app_nil_r; by destruct steps|].
  apply guarded_nonempty. by destruct steps.
Qed.

(** Every exit of the ingest seam is in the trace: the trace is never empty,
    and it is accepted exactly when what the inner function recorded conforms
    and either something was recorded or the event was refused; an event that
    is accepted without a record is a coverage breach.  The guard does not ask
    which action was recorded. *)
Theorem ingest_seam_covered state steps verdict :
  let trace := ingest_event_trace state (steps, verdict) in
  trace <> [] /\
  (check_trace (unstructured trace) = Ok tt <->
   (exists st, Forall (conforms st) steps /\ (is_ok verdict = false -> st = state)) /\
   (steps <> [] \/ is_ok verdict = false)) /\
  (steps = [] -> is_ok verdict = true -> check_trace (unstructured trace) = Err CoverageBreach).
Proof.
  intros trace. subst trace. rewrite ingest_trace_cases, unstructured_ok.
  destruct verdict as [[]|err]; cbn [is_ok]; [destruct steps as [|step steps]|].
  - split; [done|]. split; [|intros _ _; rewrite check_single by done; apply check_step_same].
    split; [|naive_solver]. intros (st & _ & [[_ _ _ _ Hb] _]%Forall_cons). by destruct (Hb "ingest_event_exited_without_trace").
  - split; [done|]. split; [|done]. split; [intros (st & _ & Hall); split; [by exists st|by left]|].
    intros [(st & Hall & _) _]. by exists st.
  - split; [by destruct steps|]. split; [|done]. split.
    + intros (st & _ & [Hall [[_ Hst _ _ _] _]%Forall_cons]%Forall_app). split; [by exists st|by right].
    + intros [(st & Hall & Hst) _]. rewrite (Hst eq_refl) in Hall. exists state. split; [by destruct steps|].
      apply Forall_app. split; [done|]. constructor; [|done]. split; try done. by intros c ?%elem_of_nil.
Qed.

(** The steps of an event stored in a channel by a member. *)
Definition channel_write_trace (state : AbstractState) (event : Event) (ch : Uuid) (was_inserted : bool) : list TraceStep :=
  ingest_event_trace state ([membership_step state event ch true; write_step state event (Some ch) was_inserted], Ok tt).

(** What the checker says of a member's stored channel event depends on its
    first [h] tag alone: it is accepted exactly when that tag is absent, is
    not an id, or is the id of the community.  A channel event names its
    channel there, so the checker refuses the ordinary write at its membership
    step, as a claim of another community. *)
Theorem channel_write_verdict state event ch was_inserted :
  let verdict := check_trace (unstructured (channel_write_trace state event ch was_inserted)) in
  (verdict = Ok tt <-> claimed_community_from_event event ∈ [None; Some (as_resolved_community state)]) /\
  (forall tags, ev_tags event = ["h"; uuid_to_string ch] :: tags -> uuid_parse_str (uuid_to_string ch) = Some ch ->
     ch <> as_resolved_community state -> verdict = Err (IllegalTransition 0)).
Proof.
  intros verdict.
  assert (verdict = match claimed_community_from_event event with
                    | Some c => if negb (bool_decide (c = as_resolved_community state)) then Err (IllegalTransition 0) else Ok tt
                    | None => Ok tt
                    end) as Hv.
  { subst verdict. unfold channel_write_trace, ingest_event_trace, check_trace, unstructured. rewrite app_nil_r.
    cbn [guarded length Nat.eqb sc_trace sc_required_critical_actions]. cbn [check_steps].
    unfold membership_step, write_step. cbn [ts_schema_version TraceStep_new N.eqb SCHEMA_VERSION Pos.eqb negb ts_state_after].
    rewrite !check_step_same. destruct (claimed_community_from_event event) as [c|]; [case_bool_decide; cbn [negb]; [|done]|];
      destruct was_inserted; by rewrite bool_decide_true by set_solver. }
  rewrite Hv. split.
  - destruct (claimed_community_from_event event) as [c|]; [|split; [left|done]].
    rewrite elem_of_cons, list_elem_of_singleton. case_bool_decide; cbn; naive_solver.
  - intros tags Htags Hparse Hne. unfold claimed_community_from_event. rewrite Htags. cbn [claimed_community].
    rewrite bool_decide_true by done. cbn. rewrite Hparse. by rewrite bool_decide_false.
Qed.

(** Two communities with a live channel of one id.  The seam's verdict on
    rows of that channel is the order of the table: with the other community's
    row last every such read of the request's own rows is reported as a leak,
    with it first a leaked row of the other community is accepted. *)
Theorem collision_order_decides state ch mine theirs rows :
  chr_id mine = ch -> chr_id theirs = ch -> chr_deleted_at mine = None -> chr_deleted_at theirs = None ->
  as_uuid (chr_community_id mine) = as_resolved_community state ->
  as_uuid (chr_community_id theirs) <> as_resolved_community state ->
  rows <> [] -> (forall row, row ∈ rows -> row = Some ch) ->
  let verdict channels := check_trace (unstructured [record_read_message_rows state None rows (emit_lookup (Some channels) rows)]) in
  verdict [mine; theirs] = Err (NonInterference 0) /\ verdict [theirs; mine] = Ok tt.
Proof.
  intros Hm Ht Dm Dt Cm Ct Hne Hrows verdict.
  assert (ch ∈ dedup_first (omap id rows)) as Hin.
  { destruct rows as [|row rows]; [done|]. rewrite elem_of_dedup_first, list_elem_of_omap. exists (Some ch).
    split; [|done]. rewrite (Hrows row) by left. left. }
  assert (forall r r', chr_id r = ch -> chr_id r' = ch -> chr_deleted_at r = None -> chr_deleted_at r' = None ->
    emit_lookup (Some [r; r']) rows !! ch = Some (chr_community_id r')) as Hlast.
  { intros r r' Hr Hr' Dr Dr'. cbn [emit_lookup]. unfold communities_of_channels. destruct (dedup_first _) as [|x l] eqn:E.
    { by apply elem_of_nil in Hin. }
    cbn [length Nat.eqb List.filter]. rewrite Hr, Hr', Dr, Dr'. rewrite !bool_decide_true by done. cbn. rewrite Hr'.
    by rewrite lookup_insert_eq. }
  assert (forall r r', chr_id r = ch -> chr_id r' = ch -> chr_deleted_at r = None -> chr_deleted_at r' = None ->
    verdict [r; r'] = if bool_decide (as_uuid (chr_community_id r') = as_resolved_community state) then Ok tt
                      else Err (NonInterference 0)) as Hv.
  { intros r r' Hr Hr' Dr Dr'. specialize (Hlast r r' Hr Hr' Dr Dr'). subst verdict. cbn beta.
    set (lookup := emit_lookup _ rows) in *.
    transitivity (if existsb (unlabelled lookup) rows then Err CoverageBreach
      else if forallb (labelled (as_resolved_community state) lookup) rows then Ok tt else Err (NonInterference 0)).
    { apply (read_step_verdict state rows lookup (ReadMessageRows None)). intros. apply check_step_same. }
    assert (existsb (unlabelled lookup) rows = false) as ->.
    { apply not_true_iff_false. rewrite existsb_exists. intros (row & Hrow%list_elem_of_In & Hu).
      rewrite (Hrows row Hrow) in Hu. cbn [unlabelled] in Hu. by rewrite Hlast in Hu. }
    destruct rows as [|row rows]; [done|]. case_bool_decide as Hc; case_match eqn:Ef; try done.
    - apply not_true_iff_false in Ef. destruct Ef. apply forallb_forall. intros o Ho%list_elem_of_In.
      rewrite (Hrows o Ho). cbn [labelled]. rewrite Hlast. apply bool_decide_eq_true. cbn. by f_equal.
    - apply andb_true_iff in Ef as [Hrow _]. rewrite (Hrows row) in Hrow by left. cbn [labelled] in Hrow.
      rewrite Hlast in Hrow. apply bool_decide_eq_true in Hrow. by injection Hrow. }
  rewrite !Hv by done. by rewrite (bool_decide_false (as_uuid (chr_community_id theirs) = _)), bool_decide_true by done.
Qed.
End ingest.

(** * Host binding and the tenancy trace at concrete inputs: the community of the
    read-path sample under a host, next to an archived one, and the traces of
    its requests. *)

From S2P Require Import ReadWitness.

Module SampleTenancy.
Import SampleHex SampleRead.

#[export] Instance lower_ascii : SqlLower := {| sql_lower := to_ascii_lowercase |}.

Definition hosts : list CommunityRow :=
  [mkCommunityRow community "chat.example" None None "active"; mkCommunityRow (from_uuid 2) "old.example" (Some 5%Z) None "active"].

(** Channel 7 is live in another community. *)
Definition table : list ChannelRow := mkChannelRow (from_uuid 2) 7 "open" None :: cd_channels channels.
Definition tables : TraceEnv := mkTraceEnv (fun _ => Some table) (fun _ _ => Some table).

Definition bound : AbstractState := state_for_request (resolved community "chat.example") reader.

Lemma table_one_community : one_community table.
Proof.
  intros ch r r' (Hr & Hid & _) (Hr' & Hid' & _). each_in Hr; each_in Hr'; subst; try done; cbn in Hid'; congruence.
Qed.

Lemma sample_channels_known : channels_known community db table.
Proof.
  intros r ch Hr _ _ Hch.
  assert (Forall (fun r => er_channel_id r ∈ [None; Some 5; Some 6])%N (db_events db)) as Hall
    by (vm_compute; repeat constructor).
  rewrite Forall_forall in Hall. specialize (Hall r Hr). rewrite Hch in Hall. each_in Hall; try done; injection Hall as ->.
  - exists (mkChannelRow community 5 "private" None). repeat split. by right; left.
  - exists (mkChannelRow community 6 "private" None). repeat split. by right; right; left.
Qed.

Lemma sample_lookups : lookups_answer env tables (cs_tenant conn).
Proof.
  split; intros; exists table; (split; [done|split; [exact table_one_community|]]); intros d [Hs|Hs];
    try done; injection Hs as <-; exact sample_channels_known.
Qed.
End SampleTenancy.
Import SampleHex SampleRead SampleTenancy.

Lemma host_binding_exact_witness :
  bind_community (Some hosts) " Chat.Example.:443 " = Ok (resolved community "chat.example") /\
  bind_community (Some hosts) "chat.example:80" = bind_community (Some hosts) " Chat.Example.:443 " /\
  bind_community (Some hosts) "old.example" = Err UnmappedHost.
Proof.
  assert (hosts_unique hosts) as Hu.
  { intros r r' Hr Hr' Hl. each_in Hr; each_in Hr'; subst; try done; by vm_compute in Hl. }
  destruct (host_binding_exact hosts " Chat.Example.:443 " Hu) as (Hok & _ & Hsame). split_and!.
  - apply Hok. split; [reflexivity|]. split; [discriminate|]. exists (mkCommunityRow community "chat.example" None None "active").
    split; [left|]. repeat split.
  - symmetry. apply (Hsame "chat.example"); [split; vm_compute; auto| |].
    + exact (spelled "chat.example" 1 "Chat.Example" "." ":443" 1 eq_refl (or_intror eq_refl) (or_intror (or_introl eq_refl))).
    + exact (spelled "chat.example" 0 "chat.example" "" ":80" 0 eq_refl (or_introl eq_refl) (or_intror (or_intror eq_refl))).
  - vm_compute. reflexivity.
Defined.

Lemma read_seam_exact_witness :
  check_trace (unstructured [record_read_message_rows bound None [Some 5; None; Some 7]%N
    (emit_lookup (Some table) [Some 5; None; Some 7]%N)]) = Err (NonInterference 0).
Proof.
  destruct (read_seam_exact bound None table [Some 5; None; Some 7]%N table_one_community) as (_ & _ & Hleak & _).
  apply Hleak. split.
  - intros ch Hin. each_in Hin; try done; injection Hin as ->.
    + exists (mkChannelRow community 5 "private" None). split; [right; left|split; reflexivity].
    + exists (mkChannelRow (from_uuid 2) 7 "open" None). split; [left|split; reflexivity].
  - exists 7%N, (mkChannelRow (from_uuid 2) 7 "open" None). split; [right; right; left|].
    split; [split; [left|split; reflexivity]|]. cbn. discriminate.
Defined.

Lemma req_trace_accepted_witness :
  length (req_trace env tables conn "chat.example" "s" [] filters) = 3%nat /\
  check_trace (unstructured (req_trace env tables conn "chat.example" "s" [] filters)) = Ok tt.
Proof.
  split; [vm_compute; reflexivity|].
  destruct (req_trace_accepted env tables conn "chat.example" "s" [] filters sample_lookups) as [Hok _].
  apply Hok. intros Hnil. apply (f_equal length) in Hnil. vm_compute in Hnil. discriminate.
Defined.

(** An ordinary message in channel 5 is refused by the checker. *)
Lemma sample_write_refused :
  check_trace (unstructured (channel_write_trace bound note 5 true)) = Err (IllegalTransition 0).
Proof. vm_compute. reflexivity. Qed.
