(* ===== verification/Replace.v ===== *)
(** Replaceable events, buzz-db/src/store/replaceable.rs: of the events at one
    coordinate the store keeps the newest alive.  A NIP-16 coordinate is
    (community, kind, author, channel), a NIP-33 one (community, kind, author,
    [d] tag).

    A write is one transaction under the advisory lock of its coordinate, so it
    is one step on the tables; [ok] says which of its statements Postgres ran.
    A statement that fails ends the transaction and leaves the tables as they
    were, as every status but [Inserted] does. *)

From S2P Require Import Prelude Nostr Filter Auth RustStr ReadGate EventStore.

Definition KIND_READ_STATE : N := 30078.
Definition KIND_BOOKMARK_SET : N := 30003.
Definition KIND_REPO_WIKI_PAGE : N := 30623.

Definition MAX_WIKI_LIVE_BYTES : Z := 512 * 1024 * 1024.
Definition MAX_WIKI_LIVE_EVENTS : Z := 4096.
Definition MAX_WIKI_SIGNED_EVENT_BYTES : Z := 192 * 1024.

(** The length of an event as [serde_json] prints it, and of the JSONB text of
    a row and of an event. *)
Class WikiLib := {
  signed_json_len : Event -> Z;
  row_envelope_len : EventRow -> Z;
  event_envelope_len : Event -> Z;
}.

Inductive ParameterizedReplaceStatus :=
| Inserted
| Duplicate
| DuplicateNotLive
| Superseded
| RevisionMissing
| RevisionMismatch
| ReplayOnlyMiss
| WikiHeadRetired
| WikiExpectedHeadRetired.
#[export] Instance status_eq_dec : EqDecision ParameterizedReplaceStatus.
Proof. solve_decision. Defined.

Inductive ParameterizedReplacePrecondition :=
| Unconditional
| ExpectedMissing
| RejectIfLiveHeadHasTag (name value : string)
| ExpectedRevision (expected_revision : string)
| ExactReplayOnly.
#[export] Instance precondition_eq_dec : EqDecision ParameterizedReplacePrecondition.
Proof. solve_decision. Defined.

(** The tables: the events, and [parameterized_event_watermarks] by its primary
    key. *)
Record ReplaceDb := mkReplaceDb {
  rp_events : EventDb;
  rp_watermarks : gmap (CommunityId * Z * string * string) (Z * string);
}.

(** ** Addresses *)

(** [str::rsplit_once]. *)
Fixpoint rsplit_once (c : ascii) (s : string) : option (string * string) :=
  match s with
  | EmptyString => None
  | String a s =>
      match rsplit_once c s with
      | Some (l, r) => Some (String a l, r)
      | None => if Ascii.eqb a c then Some (EmptyString, s) else None
      end
  end.

Definition lower_hex (byte : ascii) : bool := is_ascii_hexdigit byte && negb (is_ascii_uppercase byte).

Definition is_wiki_toc_d_tag (d_tag : string) : bool :=
  is_some_and (rsplit_once "/" d_tag) (fun '(repo, slug) => negb (bool_decide (repo = "")) && bool_decide (slug = "_toc")).

Definition is_reserved_wiki_d_tag (d_tag : string) : bool :=
  match rsplit_once "/" d_tag with
  | None => false
  | Some (_, slug) =>
      existsb (fun prefix =>
        is_some_and (strip_prefix prefix slug) (fun digest => (String.length digest =? 64)%nat && all_chars lower_hex digest))
        ["p1-"; "m1-"]
  end.

(** [d_tag ~ '/(p1|m1)-[0-9a-f]{64}$']. *)
Fixpoint d_tag_reserved_sql (d_tag : string) : bool :=
  existsb (fun prefix =>
    is_some_and (strip_prefix prefix d_tag) (fun digest => (String.length digest =? 64)%nat && all_chars lower_hex digest))
    ["/p1-"; "/m1-"] ||
  match d_tag with EmptyString => false | String _ rest => d_tag_reserved_sql rest end.

(** [tag->>0 = name AND tag->>1 = value]. *)
Definition tag_holds (name value : string) (tag : Tag) : bool :=
  bool_decide (tag !! 0 = Some name) && bool_decide (tag !! 1 = Some value).

(** [parts.len() == 2 && parts[0] == name && parts[1] == value]. *)
Definition pair_is (name value : string) (parts : Tag) : bool := bool_decide (parts = [name; value]).

Definition is_nip_rs (event : Event) (d_tag : string) : bool :=
  let d_tag_count := length (List.filter (fun tag => bool_decide (tag !! 0 = Some "d")) (ev_tags event)) in
  let has_exact_d_tag := existsb (fun parts => (2 <=? length parts)%nat && tag_holds "d" d_tag parts) (ev_tags event) in
  let read_state_t_tag_count := length (List.filter (pair_is "t" "read-state") (ev_tags event)) in
  N.eqb (ev_kind event) KIND_READ_STATE && (d_tag_count =? 1)%nat && has_exact_d_tag &&
  is_some_and (strip_prefix "read-state:" d_tag) (fun slot => (String.length slot =? 32)%nat && all_chars lower_hex slot) &&
  (read_state_t_tag_count =? 1)%nat.

Definition is_buzz_mesh_status (event : Event) (d_tag : string) : bool :=
  N.eqb (ev_kind event) KIND_BOOKMARK_SET && starts_with "buzz-mesh-member-status:" d_tag &&
  existsb (pair_is "k" "buzz-mesh-status") (ev_tags event).

(** ** Heads *)

(** The [WHERE] clauses of the two coordinates. *)
Definition live_at_d (c : CommunityId) (kind : Z) (pubkey d_tag : string) (r : EventRow) : bool :=
  bool_decide (er_community_id r = c) && Z.eqb (er_kind r) kind && bool_decide (er_pubkey r = pubkey) &&
  bool_decide (er_d_tag r = Some d_tag) && bool_decide (er_deleted_at r = None).
Definition live_at_channel (c : CommunityId) (kind : Z) (pubkey : string) (channel_id : option Uuid) (r : EventRow) : bool :=
  bool_decide (er_community_id r = c) && Z.eqb (er_kind r) kind && bool_decide (er_pubkey r = pubkey) &&
  bool_decide (er_channel_id r = channel_id) && bool_decide (er_deleted_at r = None).

(** [ORDER BY created_at DESC, id ASC LIMIT 1]. *)
Definition head_row (at_ : EventRow -> bool) (rows : list EventRow) : option EventRow :=
  head (sort_by row_before (List.filter at_ rows)).

(** [UPDATE events SET deleted_at = NOW()]. *)
Definition mark_deleted (now : Z) (r : EventRow) : EventRow :=
  mkEventRow (er_community_id r) (er_id r) (er_pubkey r) (er_created_at r) (er_kind r) (er_tags r) (er_content r)
    (er_received_at r) (er_channel_id r) (er_d_tag r) (er_not_before r) (Some now).
Definition soft_delete_where (now : Z) (at_ : EventRow -> bool) (rows : list EventRow) : list EventRow :=
  (fun r => if at_ r then mark_deleted now r else r) <$> rows.

(** The incoming event does not come before the accepted one. *)
Definition dominated_by (created_at : Z) (incoming_id : string) (accepted : Z * string) : bool :=
  (created_at <? accepted.1)%Z || ((created_at =? accepted.1)%Z && String.leb accepted.2 incoming_id).

(** [i64::saturating_add] and [saturating_sub]. *)
Definition saturate_i64 (z : Z) : Z := Z.max (- 2 ^ 63) (Z.min z (2 ^ 63 - 1)).

(** The statements of a write. *)
Inductive ReplaceStmt :=
| StLocks | StHead | StWatermark | StRetiredHead | StRetiredExpected | StHistory | StUsage | StRetire | StInsert | StMark
| StMentions | StCommit.

Section replace.
Context `{NostrLib, HexLib, ReadLib, StoreLib, WikiLib}.

Definition retired_at_coordinate (rows : list EventRow) (c : CommunityId) (kind : Z) (pubkey d_tag event_id : string) : bool :=
  existsb (fun r => bool_decide (er_community_id r = c) && Z.eqb (er_kind r) kind && bool_decide (er_pubkey r = pubkey) &&
                    bool_decide (er_d_tag r = Some d_tag) && bool_decide (er_id r = event_id) &&
                    negb (bool_decide (er_deleted_at r = None))) rows.

(** The live rows of the reserved addresses of one owner. *)
Definition wiki_live (rows : list EventRow) (c : CommunityId) (kind : Z) (pubkey : string) : list EventRow :=
  List.filter (fun r => bool_decide (er_community_id r = c) && Z.eqb (er_kind r) kind && bool_decide (er_pubkey r = pubkey) &&
                        bool_decide (er_deleted_at r = None) && is_some_and (er_d_tag r) d_tag_reserved_sql) rows.
Definition wiki_bytes (rows : list EventRow) : Z := foldr Z.add 0%Z (row_envelope_len <$> rows).

(** The part that writes: the head is retired, the event inserted, unless its
    key exists, the watermark moved and the mentions indexed. *)
Definition replace_rows (ok : ReplaceStmt -> bool) (now : Z) (db : ReplaceDb) (c : CommunityId) (event : Event)
    (d_tag : string) (channel_id : option Uuid) (created_at : Z) (existing : option EventRow)
  : result (ReplaceDb * ParameterizedReplaceStatus) DbError :=
  let kind := Z.of_N (ev_kind event) in
  let pubkey := rd_pk_bytes (ev_pubkey event) in
  let incoming_id := rd_id_bytes (ev_id event) in
  let nip_rs := is_nip_rs event d_tag in
  let hard_delete_superseded := nip_rs || is_buzz_mesh_status event d_tag in
  let rows := db_events (rp_events db) in
  let mentions := db_mentions (rp_events db) in
  let retired :=
    match existing with
    | None => mkEventDb rows mentions
    | Some head =>
        if hard_delete_superseded then
          mkEventDb (List.filter (fun r => negb (live_at_d c kind pubkey d_tag r)) rows)
            (filter (fun k => ~ (k.1.1 = c /\ k.2 = er_id head)) mentions)
        else mkEventDb (soft_delete_where now (live_at_d c kind pubkey d_tag) rows) mentions
    end in
  if negb (ok StRetire) then Err Sqlx
  else
    let row := mkEventRow c incoming_id pubkey created_at kind (ev_tags event) (ev_content event) now channel_id
                 (Some d_tag) (extract_not_before event) None in
    if negb (ok StInsert) then Err Sqlx
    else if existsb (same_key row) (db_events retired) then Ok (db, DuplicateNotLive)
    else
      let inserted := mkEventDb (db_events retired ++ [row]) (db_mentions retired) in
      let marks := if nip_rs then <[(c, kind, pubkey, d_tag) := (created_at, incoming_id)]> (rp_watermarks db)
                   else rp_watermarks db in
      if nip_rs && negb (ok StMark) then Err Sqlx
      else
        let? indexed := insert_mentions_in_transaction (ok StMentions) inserted c event in
        Ok (mkReplaceDb indexed marks, Inserted).

(** What follows the preconditions: the order of versions and the bounds of
    Wiki pages. *)
Definition replace_newer (ok : ReplaceStmt -> bool) (now : Z) (db : ReplaceDb) (c : CommunityId) (event : Event)
    (d_tag : string) (channel_id : option Uuid) (created_at : Z) (existing : option EventRow) (watermark : option (Z * string))
  : result (ReplaceDb * ParameterizedReplaceStatus) DbError :=
  let kind := Z.of_N (ev_kind event) in
  let pubkey := rd_pk_bytes (ev_pubkey event) in
  let incoming_id := rd_id_bytes (ev_id event) in
  let rows := db_events (rp_events db) in
  let is_wiki := N.eqb (ev_kind event) KIND_REPO_WIKI_PAGE in
  let incoming_reserved_wiki := is_reserved_wiki_d_tag d_tag in
  let existing_reserved_wiki :=
    is_some_and existing (fun r => Z.eqb (er_kind r) (Z.of_N KIND_REPO_WIKI_PAGE) && is_some_and (er_d_tag r) d_tag_reserved_sql) in
  let existing_envelope_bytes :=
    match existing with Some r => if existing_reserved_wiki then row_envelope_len r else 0%Z | None => 0%Z end in
  if is_some_and existing (fun r => dominated_by created_at incoming_id (er_created_at r, er_id r)) ||
     is_some_and watermark (dominated_by created_at incoming_id) then Ok (db, Superseded)
  else if is_wiki && (MAX_WIKI_SIGNED_EVENT_BYTES <? signed_json_len event)%Z then
    Err (InvalidData "Wiki signed event exceeds the 192 KiB bound")
  else if is_wiki && incoming_reserved_wiki && negb (ok StHistory) then Err Sqlx
  else if is_wiki && incoming_reserved_wiki &&
          existsb (fun r => bool_decide (er_community_id r = c) && bool_decide (er_id r = incoming_id)) rows then
    Ok (db, DuplicateNotLive)
  else if is_wiki && incoming_reserved_wiki && negb (ok StUsage) then Err Sqlx
  else
    let live := wiki_live rows c kind pubkey in
    let projected_events := (Z.of_nat (length live) + (if existing_reserved_wiki then 0 else 1))%Z in
    let projected_bytes := saturate_i64 (saturate_i64 (wiki_bytes live - existing_envelope_bytes) + event_envelope_len event) in
    if is_wiki && incoming_reserved_wiki &&
       ((MAX_WIKI_LIVE_EVENTS <? projected_events)%Z || (MAX_WIKI_LIVE_BYTES <? projected_bytes)%Z) then
      Err WikiStorageQuotaExceeded
    else replace_rows ok now db c event d_tag channel_id created_at existing.

Definition replace_parameterized_event_in_transaction (ok : ReplaceStmt -> bool) (now : Z) (db : ReplaceDb)
    (c : CommunityId) (event : Event) (d_tag : string) (channel_id : option Uuid)
    (precondition : ParameterizedReplacePrecondition) : result (ReplaceDb * ParameterizedReplaceStatus) DbError :=
  let kind := Z.of_N (ev_kind event) in
  let pubkey := rd_pk_bytes (ev_pubkey event) in
  let incoming_id := rd_id_bytes (ev_id event) in
  let rows := db_events (rp_events db) in
  let created_at_secs := as_i64_wrapped (ev_created_at event) in
  let? created_at := ok_or (from_timestamp created_at_secs) (InvalidTimestamp created_at_secs) in
  let is_wiki := N.eqb (ev_kind event) KIND_REPO_WIKI_PAGE in
  if negb (ok StLocks && ok StHead) then Err Sqlx
  else
    let existing := head_row (live_at_d c kind pubkey d_tag) rows in
    let blocked_live_tag :=
      match precondition with
      | RejectIfLiveHeadHasTag name value => is_some_and existing (fun r => existsb (tag_holds name value) (er_tags r))
      | _ => false
      end in
    let existing_v1_wiki :=
      is_some_and existing (fun r => Z.eqb (er_kind r) (Z.of_N KIND_REPO_WIKI_PAGE) && existsb (tag_holds "wiki-version" "1") (er_tags r)) in
    let existing_reserved_wiki :=
      is_some_and existing (fun r => Z.eqb (er_kind r) (Z.of_N KIND_REPO_WIKI_PAGE) && is_some_and (er_d_tag r) d_tag_reserved_sql) in
    let nip_rs := is_nip_rs event d_tag in
    if nip_rs && negb (ok StWatermark) then Err Sqlx
    else
      let watermark := if nip_rs then rp_watermarks db !! (c, kind, pubkey, d_tag) else None in
      if is_some_and existing (fun r => bool_decide (er_id r = incoming_id)) ||
         is_some_and watermark (fun w => bool_decide (w.2 = incoming_id)) then Ok (db, Duplicate)
      else if (bool_decide (precondition = ExpectedMissing) && bool_decide (is_Some existing)) || blocked_live_tag then
        Ok (db, RevisionMismatch)
      else
        let incoming_v1_wiki := negb is_wiki || existsb (pair_is "wiki-version" "1") (ev_tags event) in
        if is_wiki && existing_v1_wiki && (bool_decide (precondition = Unconditional) || negb incoming_v1_wiki) then
          Ok (db, RevisionMismatch)
        else
          let incoming_reserved_wiki := is_reserved_wiki_d_tag d_tag in
          if is_wiki && (existing_reserved_wiki || incoming_reserved_wiki) && bool_decide (is_Some existing) then
            Ok (db, RevisionMismatch)
          else if bool_decide (precondition = ExactReplayOnly) then Ok (db, ReplayOnlyMiss)
          else
            let expected := match precondition with ExpectedRevision e => Some e | _ => None end in
            let conditional_toc :=
              is_wiki && incoming_v1_wiki && negb incoming_reserved_wiki && is_wiki_toc_d_tag d_tag &&
              (bool_decide (precondition = ExpectedMissing) || bool_decide (is_Some expected)) in
            let missing_head := conditional_toc && is_some_and expected (fun _ => bool_decide (existing = None)) in
            if conditional_toc && negb (ok StRetiredHead) then Err Sqlx
            else if conditional_toc && retired_at_coordinate rows c kind pubkey d_tag incoming_id then Ok (db, WikiHeadRetired)
            else if missing_head && negb (ok StRetiredExpected) then Err Sqlx
            else if missing_head && is_some_and expected (retired_at_coordinate rows c kind pubkey d_tag) then
              Ok (db, WikiExpectedHeadRetired)
            else
              let write := replace_newer ok now db c event d_tag channel_id created_at existing watermark in
              match expected, existing with
              | Some _, None => Ok (db, RevisionMissing)
              | Some e, Some r => if negb (bool_decide (er_id r = e)) then Ok (db, RevisionMismatch) else write
              | None, _ => write
              end.

(** [Db::replace_parameterized_event]: unconditional, committed when inserted. *)
Definition replace_parameterized_event (ok : ReplaceStmt -> bool) (now : Z) (db : ReplaceDb) (c : CommunityId)
    (event : Event) (d_tag : string) (channel_id : option Uuid) : result (ReplaceDb * bool) DbError :=
  let? result := replace_parameterized_event_in_transaction ok now db c event d_tag channel_id Unconditional in
  let was_inserted := bool_decide (result.2 = Inserted) in
  if negb (ok StCommit) then Err Sqlx
  else Ok (if was_inserted then result.1 else db, was_inserted).

Definition replace_addressable_event_in_transaction (ok : ReplaceStmt -> bool) (now : Z) (db : EventDb) (c : CommunityId)
    (event : Event) (channel_id : option Uuid) : result (EventDb * bool) DbError :=
  let kind := Z.of_N (ev_kind event) in
  let pubkey := rd_pk_bytes (ev_pubkey event) in
  let incoming_id := rd_id_bytes (ev_id event) in
  let created_at_secs := as_i64_wrapped (ev_created_at event) in
  let? created_at := ok_or (from_timestamp created_at_secs) (InvalidTimestamp created_at_secs) in
  if negb (ok StLocks && ok StHead) then Err Sqlx
  else
    let at_ := live_at_channel c kind pubkey channel_id in
    let existing := head_row at_ (db_events db) in
    if is_some_and existing (fun r => dominated_by created_at incoming_id (er_created_at r, er_id r)) then Ok (db, false)
    else if negb (ok StRetire && ok StInsert) then Err Sqlx
    else
      let row := mkEventRow c incoming_id pubkey created_at kind (ev_tags event) (ev_content event) now channel_id
                   (extract_d_tag event) None None in
      let retired := soft_delete_where now at_ (db_events db) in
      if existsb (same_key row) retired then Ok (db, false)
      else
        let? indexed := insert_mentions_in_transaction (ok StMentions) (mkEventDb (retired ++ [row]) (db_mentions db)) c event in
        Ok (indexed, true).

Definition replace_addressable_event (ok : ReplaceStmt -> bool) (now : Z) (db : EventDb) (c : CommunityId)
    (event : Event) (channel_id : option Uuid) : result (EventDb * bool) DbError :=
  let? result := replace_addressable_event_in_transaction ok now db c event channel_id in
  if negb (ok StCommit) then Err Sqlx else Ok result.
End replace.
