(* ===== verification/ReplaceTheorems.v ===== *)
(** What replaceable writes keep: one live row per coordinate, the newest event
    of those acknowledged, whatever the order of arrival; read states that
    never move back; Wiki pages that stay as published, within their quota. *)

From S2P Require Import Prelude Nostr Filter Auth RustStr ReadGate EventStore Replace.

(** ** The order of versions *)

(** [a] is at least as recent as [b]: later, or of the same second with the
    smaller id. *)
Definition outranks (a b : Z * string) : bool := dominated_by b.1 b.2 a.

Lemma outranks_spec a b : outranks a b = true <-> (b.1 < a.1)%Z \/ (b.1 = a.1 /\ String.leb a.2 b.2 = true).
Proof. unfold outranks, dominated_by. rewrite orb_true_iff, andb_true_iff, Z.ltb_lt, Z.eqb_eq. done. Qed.
Lemma outranks_refl a : outranks a a = true.
Proof. rewrite outranks_spec. right. split; [done|]. by destruct (String.leb_total a.2 a.2). Qed.
Lemma outranks_total a b : outranks a b = true \/ outranks b a = true.
Proof.
  rewrite !outranks_spec. destruct (Z.lt_trichotomy a.1 b.1) as [?|[?|?]]; auto.
  destruct (String.leb_total a.2 b.2); auto.
Qed.
Lemma outranks_trans a b c : outranks a b = true -> outranks b c = true -> outranks a c = true.
Proof.
  rewrite !outranks_spec. intros [?|[E1 L1]] [?|[E2 L2]]; [left; lia..|right]. split; [congruence|].
  by apply (string_leb_trans _ b.2).
Qed.
Lemma outranks_antisym a b : outranks a b = true -> outranks b a = true -> a = b.
Proof.
  rewrite !outranks_spec. destruct a as [t i], b as [u j]; cbn. intros [?|[-> L1]] [?|[E L2]]; try lia.
  f_equal. by apply String.leb_antisym.
Qed.

Definition stamp (r : EventRow) : Z * string := (er_created_at r, er_id r).

(** ** Coordinates *)

Inductive Coordinate :=
| AtD (c : CommunityId) (kind : Z) (pubkey d_tag : string)
| AtChannel (c : CommunityId) (kind : Z) (pubkey : string) (channel_id : option Uuid).
#[export] Instance coordinate_eq_dec : EqDecision Coordinate.
Proof. solve_decision. Defined.

Definition live_at (k : Coordinate) : EventRow -> bool :=
  match k with
  | AtD c kind pubkey d_tag => live_at_d c kind pubkey d_tag
  | AtChannel c kind pubkey channel_id => live_at_channel c kind pubkey channel_id
  end.

Definition live_only (p : EventRow -> bool) : Prop := forall r, p r = true -> er_deleted_at r = None.

Lemma live_at_d_spec c kind pubkey d r :
  live_at_d c kind pubkey d r = true <->
  er_community_id r = c /\ er_kind r = kind /\ er_pubkey r = pubkey /\ er_d_tag r = Some d /\ er_deleted_at r = None.
Proof. unfold live_at_d. rewrite !andb_true_iff, !bool_decide_eq_true, Z.eqb_eq. tauto. Qed.
Lemma live_at_channel_spec c kind pubkey ch r :
  live_at_channel c kind pubkey ch r = true <->
  er_community_id r = c /\ er_kind r = kind /\ er_pubkey r = pubkey /\ er_channel_id r = ch /\ er_deleted_at r = None.
Proof. unfold live_at_channel. rewrite !andb_true_iff, !bool_decide_eq_true, Z.eqb_eq. tauto. Qed.

Lemma live_at_live k : live_only (live_at k).
Proof. intros r. destruct k; cbn; rewrite ?live_at_d_spec, ?live_at_channel_spec; tauto. Qed.

(** ** Heads *)

Lemma head_row_none at_ rows : head_row at_ rows = None <-> List.filter at_ rows = [].
Proof.
  unfold head_row. pose proof (sort_by_perm row_before (List.filter at_ rows)) as Hp.
  destruct (sort_by _ _) as [|x l]; split; try done.
  - intros _. symmetry. by apply Permutation_nil_l.
  - intros E. rewrite E in Hp. by apply Permutation_nil_r in Hp.
Qed.
Lemma head_row_some at_ rows r : head_row at_ rows = Some r -> r ∈ rows /\ at_ r = true.
Proof.
  unfold head_row. intros Hh. apply elem_of_filter_bool. apply (elem_of_sort_by row_before).
  destruct (sort_by _ _); [done|]. injection Hh as ->. left.
Qed.
Lemma head_row_single at_ rows r : List.filter at_ rows = [r] -> head_row at_ rows = Some r.
Proof. unfold head_row. by intros ->. Qed.

(** ** The effect of a replacement *)

(** The rows at a coordinate made way for [row]. *)
Record swapped (now : Z) (at_ : EventRow -> bool) (row : EventRow) (rows rows' : list EventRow) : Prop := {
  sw_live p : live_only p ->
    List.filter p rows' = List.filter (fun r => p r && negb (at_ r)) rows ++ (if p row then [row] else []);
  sw_rows r' : r' ∈ rows' -> r' = row \/ exists r, r ∈ rows /\ (r' = r \/ r' = mark_deleted now r);
  sw_fresh r' : r' ∈ rows' -> r' = row \/ same_key row r' = false;
  sw_kept r : r ∈ rows -> at_ r = false -> r ∈ rows';
  sw_row : row ∈ rows';
}.

Lemma filter_soft_delete now at_ rows p :
  live_only p -> List.filter p (soft_delete_where now at_ rows) = List.filter (fun r => p r && negb (at_ r)) rows.
Proof.
  intros Hp. unfold soft_delete_where. induction rows as [|r rows IH]; [done|]. cbn. rewrite IH.
  destruct (at_ r) eqn:Ea; cbn; rewrite ?andb_true_r, ?andb_false_r; [|done].
  destruct (p (mark_deleted now r)) eqn:Ep; [|done]. by apply Hp in Ep.
Qed.
Lemma filter_hard_delete (at_ : EventRow -> bool) rows p :
  List.filter p (List.filter (fun r => negb (at_ r)) rows) = List.filter (fun r => p r && negb (at_ r)) rows.
Proof.
  induction rows as [|r rows IH]; [done|]. cbn. destruct (at_ r); cbn; rewrite IH, ?andb_true_r, ?andb_false_r; done.
Qed.
Lemma filter_none (at_ : EventRow -> bool) rows p : List.filter at_ rows = [] -> List.filter p rows = List.filter (fun r => p r && negb (at_ r)) rows.
Proof.
  induction rows as [|r rows IH]; [done|]. cbn. destruct (at_ r); [done|]. intros ?. cbn. rewrite andb_true_r, IH; done.
Qed.

Lemma swapped_intro now at_ row rows retired :
  (forall p, live_only p -> List.filter p retired = List.filter (fun r => p r && negb (at_ r)) rows) ->
  (forall r', r' ∈ retired -> exists r, r ∈ rows /\ (r' = r \/ r' = mark_deleted now r)) ->
  (forall r, r ∈ rows -> at_ r = false -> r ∈ retired) ->
  existsb (same_key row) retired = false -> swapped now at_ row rows (retired ++ [row]).
Proof.
  intros Hf Hr Hkept Hx. split.
  - intros p Hp. rewrite List.filter_app, Hf by done. cbn. by destruct (p row).
  - intros r'. rewrite elem_of_app, list_elem_of_singleton. intros [?| ->]; auto.
  - intros r'. rewrite elem_of_app, list_elem_of_singleton. intros [Hin| ->]; [right|by left].
    apply not_true_iff_false. intros Hk. apply not_true_iff_false in Hx. apply Hx, existsb_elem_of. eauto.
  - intros r Hin Ha. rewrite elem_of_app. auto.
  - rewrite elem_of_app, list_elem_of_singleton. by right.
Qed.

Lemma soft_deleted_rows now at_ rows r' :
  r' ∈ soft_delete_where now at_ rows -> exists r, r ∈ rows /\ (r' = r \/ r' = mark_deleted now r).
Proof. unfold soft_delete_where. intros (r & -> & Hr)%list_elem_of_fmap. exists r. split; [done|]. case_match; auto. Qed.
Lemma soft_delete_keeps now at_ rows r : r ∈ rows -> at_ r = false -> r ∈ soft_delete_where now at_ rows.
Proof. intros Hr Ha. unfold soft_delete_where. apply list_elem_of_fmap. exists r. by rewrite Ha. Qed.

Section effects.
Context `{NostrLib, HexLib, ReadLib, StoreLib, WikiLib}.

Lemma mentions_keep_rows x db c e db' : insert_mentions_in_transaction x db c e = Ok db' -> db_events db' = db_events db.
Proof.
  unfold insert_mentions_in_transaction. case_bool_decide; [by intros [= <-]|].
  destruct (from_timestamp _); [|done]. cbn. case_bool_decide; [by intros [= <-]|]. destruct x; [|done]. by intros [= <-].
Qed.

(** The row a parameterized write inserts. *)
Definition d_row (now : Z) (c : CommunityId) (e : Event) (d : string) (ch : option Uuid) (t : Z) : EventRow :=
  mkEventRow c (rd_id_bytes (ev_id e)) (rd_pk_bytes (ev_pubkey e)) t (Z.of_N (ev_kind e)) (ev_tags e) (ev_content e) now ch
    (Some d) (extract_not_before e) None.
Definition channel_row (now : Z) (c : CommunityId) (e : Event) (ch : option Uuid) (t : Z) : EventRow :=
  mkEventRow c (rd_id_bytes (ev_id e)) (rd_pk_bytes (ev_pubkey e)) t (Z.of_N (ev_kind e)) (ev_tags e) (ev_content e) now ch
    (extract_d_tag e) None None.

Definition d_coordinate (c : CommunityId) (e : Event) (d : string) : Coordinate :=
  AtD c (Z.of_N (ev_kind e)) (rd_pk_bytes (ev_pubkey e)) d.
Definition channel_coordinate (c : CommunityId) (e : Event) (ch : option Uuid) : Coordinate :=
  AtChannel c (Z.of_N (ev_kind e)) (rd_pk_bytes (ev_pubkey e)) ch.

Lemma replace_rows_effect ok now db c e d ch t existing db' st :
  replace_rows ok now db c e d ch t existing = Ok (db', st) ->
  (existing = None -> List.filter (live_at (d_coordinate c e d)) (db_events (rp_events db)) = []) ->
  (db' = db /\ st = DuplicateNotLive /\
     exists r, r ∈ db_events (rp_events db) /\ same_key (d_row now c e d ch t) r = true) \/
  (st = Inserted /\
   swapped now (live_at (d_coordinate c e d)) (d_row now c e d ch t) (db_events (rp_events db)) (db_events (rp_events db')) /\
   rp_watermarks db' =
     if is_nip_rs e d then <[(c, Z.of_N (ev_kind e), rd_pk_bytes (ev_pubkey e), d) := (t, rd_id_bytes (ev_id e))]> (rp_watermarks db)
     else rp_watermarks db).
Proof.
  intros Hr Hnone. unfold replace_rows in Hr. fold (d_row now c e d ch t) in Hr.
  change (live_at_d c (Z.of_N (ev_kind e)) (rd_pk_bytes (ev_pubkey e)) d) with (live_at (d_coordinate c e d)) in Hr.
  set (at_ := live_at (d_coordinate c e d)) in *. set (rows := db_events (rp_events db)) in *.
  set (retired := match existing with None => _ | Some _ => _ end) in Hr.
  assert ((forall p, live_only p -> List.filter p (db_events retired) = List.filter (fun r => p r && negb (at_ r)) rows) /\
          (forall r', r' ∈ db_events retired -> exists r, r ∈ rows /\ (r' = r \/ r' = mark_deleted now r)) /\
          forall r, r ∈ rows -> at_ r = false -> r ∈ db_events retired) as (Hf & Hrows & Hkept).
  { subst retired. destruct existing as [hd|].
    - destruct (_ || _); cbn [db_events].
      + split; [intros p _; apply filter_hard_delete|]. split; [intros r' [Hin _]%elem_of_filter_bool; eauto|].
        intros r Hin Ha. apply elem_of_filter_bool. by rewrite Ha.
      + split; [intros p Hp; by apply filter_soft_delete|]. split; [apply soft_deleted_rows|apply soft_delete_keeps].
    - split; [intros p _; by apply filter_none, Hnone|eauto]. }
  destruct (ok StRetire); [|done]. destruct (ok StInsert); [|done]. cbn [negb] in Hr.
  destruct (existsb _ (db_events retired)) eqn:Ex.
  - injection Hr as <- <-. left. split_and!; [done..|]. apply existsb_elem_of in Ex as (r' & Hin & Hk).
    destruct (Hrows r' Hin) as (r & Hin' & Hor). exists r. split; [done|]. by destruct Hor as [->| ->].
  - destruct (_ && negb (ok StMark)); [done|].
    destruct (insert_mentions_in_transaction _ _ _ _) as [indexed|] eqn:Em; [|done]. injection Hr as <- <-. right.
    apply mentions_keep_rows in Em. cbn [rp_events rp_watermarks]. split_and!; [done| |done]. rewrite Em.
    by apply swapped_intro.
Qed.

(** The live head and the watermark a write meets. *)
Definition d_head (db : ReplaceDb) (c : CommunityId) (e : Event) (d : string) : option EventRow :=
  head_row (live_at (d_coordinate c e d)) (db_events (rp_events db)).
Definition d_mark (db : ReplaceDb) (c : CommunityId) (e : Event) (d : string) : option (Z * string) :=
  if is_nip_rs e d then rp_watermarks db !! (c, Z.of_N (ev_kind e), rd_pk_bytes (ev_pubkey e), d) else None.

Definition row_reserved (r : EventRow) : bool :=
  Z.eqb (er_kind r) (Z.of_N KIND_REPO_WIKI_PAGE) && is_some_and (er_d_tag r) d_tag_reserved_sql.

(** What an inserted event has passed. *)
Record admissible (db : ReplaceDb) (c : CommunityId) (e : Event) (d : string) (pre : ParameterizedReplacePrecondition)
    (t : Z) : Prop := {
  ad_head r : d_head db c e d = Some r -> outranks (stamp r) (t, rd_id_bytes (ev_id e)) = false;
  ad_mark w : d_mark db c e d = Some w -> outranks w (t, rd_id_bytes (ev_id e)) = false;
  ad_expected i : pre = ExpectedRevision i -> exists r, d_head db c e d = Some r /\ er_id r = i;
  ad_missing : pre = ExpectedMissing -> d_head db c e d = None;
  ad_tag name value r : pre = RejectIfLiveHeadHasTag name value -> d_head db c e d = Some r ->
    existsb (tag_holds name value) (er_tags r) = false;
  ad_replay : pre <> ExactReplayOnly;
  ad_immutable r : ev_kind e = KIND_REPO_WIKI_PAGE -> d_head db c e d = Some r -> row_reserved r = false;
  ad_quota : ev_kind e = KIND_REPO_WIKI_PAGE -> is_reserved_wiki_d_tag d = true ->
    let live := wiki_live (db_events (rp_events db)) c (Z.of_N (ev_kind e)) (rd_pk_bytes (ev_pubkey e)) in
    d_head db c e d = None /\ (Z.of_nat (length live) + 1 <= MAX_WIKI_LIVE_EVENTS)%Z /\
    (saturate_i64 (saturate_i64 (wiki_bytes live) + event_envelope_len e) <= MAX_WIKI_LIVE_BYTES)%Z;
}.

(** Why an unconditional write of an ordinary kind is not inserted. *)
Inductive stale (db : ReplaceDb) (now : Z) (c : CommunityId) (e : Event) (d : string) (ch : option Uuid) (t : Z) : Prop :=
| stale_head r : d_head db c e d = Some r ->
    er_id r = rd_id_bytes (ev_id e) \/ outranks (stamp r) (t, rd_id_bytes (ev_id e)) = true -> stale db now c e d ch t
| stale_mark w : d_mark db c e d = Some w ->
    w.2 = rd_id_bytes (ev_id e) \/ outranks w (t, rd_id_bytes (ev_id e)) = true -> stale db now c e d ch t
| stale_key r : r ∈ db_events (rp_events db) -> same_key (d_row now c e d ch t) r = true -> stale db now c e d ch t.

(** The tables after an insertion. *)
Definition inserted_into (now : Z) (db db' : ReplaceDb) (c : CommunityId) (e : Event) (d : string) (ch : option Uuid) (t : Z) : Prop :=
  swapped now (live_at (d_coordinate c e d)) (d_row now c e d ch t) (db_events (rp_events db)) (db_events (rp_events db')) /\
  rp_watermarks db' =
    if is_nip_rs e d then <[(c, Z.of_N (ev_kind e), rd_pk_bytes (ev_pubkey e), d) := (t, rd_id_bytes (ev_id e))]> (rp_watermarks db)
    else rp_watermarks db.

Lemma replace_newer_effect ok now db c e d ch t db' st :
  replace_newer ok now db c e d ch t (d_head db c e d) (d_mark db c e d) = Ok (db', st) ->
  (db' = db /\ st <> Inserted /\ (ev_kind e <> KIND_REPO_WIKI_PAGE -> stale db now c e d ch t)) \/
  (st = Inserted /\ inserted_into now db db' c e d ch t /\
   (forall r, d_head db c e d = Some r -> outranks (stamp r) (t, rd_id_bytes (ev_id e)) = false) /\
   (forall w, d_mark db c e d = Some w -> outranks w (t, rd_id_bytes (ev_id e)) = false) /\
   (ev_kind e = KIND_REPO_WIKI_PAGE -> is_reserved_wiki_d_tag d = true -> d_head db c e d = None ->
    let live := wiki_live (db_events (rp_events db)) c (Z.of_N (ev_kind e)) (rd_pk_bytes (ev_pubkey e)) in
    (Z.of_nat (length live) + 1 <= MAX_WIKI_LIVE_EVENTS)%Z /\
    (saturate_i64 (saturate_i64 (wiki_bytes live) + event_envelope_len e) <= MAX_WIKI_LIVE_BYTES)%Z)).
Proof.
  unfold replace_newer. cbn zeta. set (wiki := N.eqb (ev_kind e) KIND_REPO_WIKI_PAGE).
  assert (ev_kind e <> KIND_REPO_WIKI_PAGE -> wiki = false) as Hwiki by (intros ?; by apply N.eqb_neq).
  match goal with |- (if ?b then _ else _) = _ -> _ => destruct b eqn:Edom end.
  { intros [= <- <-]. left. split_and!; [done..|]. intros _. apply orb_true_iff in Edom as [E|E].
    - destruct (d_head db c e d) as [r|] eqn:Eh; [|done]. by apply (stale_head _ _ _ _ _ _ _ r); auto.
    - destruct (d_mark db c e d) as [w|] eqn:Ew; [|done]. by apply (stale_mark _ _ _ _ _ _ _ w); auto. }
  destruct (wiki && _); [done|]. destruct (wiki && _ && negb _); [done|].
  match goal with |- (if ?b then _ else _) = _ -> _ => destruct b eqn:Ehist end.
  { intros [= <- <-]. left. split_and!; [done..|]. intros Hk. by rewrite (Hwiki Hk) in Ehist. }
  destruct (wiki && _ && negb _); [done|].
  match goal with |- (if ?b then _ else _) = _ -> _ => destruct b eqn:Equota end; [done|]. intros Hr.
  apply replace_rows_effect in Hr as [(-> & -> & r & Hin & Hk)|(-> & Hsw & Hm)]; [| |by intros ?%head_row_none].
  - left. split_and!; [done..|]. intros _. by apply (stale_key _ _ _ _ _ _ _ r).
  - right. apply orb_false_iff in Edom as [Eh Ew]. split; [done|]. split; [by split|]. split; [|split].
    + intros r Hr. by rewrite Hr in Eh.
    + intros w Hw. by rewrite Hw in Ew.
    + intros Hk Hd Hnone. rewrite Hnone, Hd in Equota.
      assert (wiki = true) as Hw by (subst wiki; by rewrite Hk). rewrite Hw in Equota. cbn [andb is_some_and] in Equota.
      rewrite Z.sub_0_r, orb_false_iff, !Z.ltb_ge in Equota. exact Equota.
Qed.

Lemma replace_d_effect ok now db c e d ch pre db' st :
  replace_parameterized_event_in_transaction ok now db c e d ch pre = Ok (db', st) ->
  exists t, from_timestamp (as_i64_wrapped (ev_created_at e)) = Some t /\
  ((db' = db /\ st <> Inserted /\ (pre = Unconditional -> ev_kind e <> KIND_REPO_WIKI_PAGE -> stale db now c e d ch t)) \/
   (st = Inserted /\ admissible db c e d pre t /\ inserted_into now db db' c e d ch t)).
Proof.
  unfold replace_parameterized_event_in_transaction. cbn zeta. destruct (from_timestamp _) as [t|] eqn:Et; [|done]. cbn [ok_or].
  intros Hr. exists t. split; [done|].
  change (head_row (live_at_d c (Z.of_N (ev_kind e)) (rd_pk_bytes (ev_pubkey e)) d) (db_events (rp_events db)))
    with (d_head db c e d) in Hr.
  change (if is_nip_rs e d then rp_watermarks db !! (c, Z.of_N (ev_kind e), rd_pk_bytes (ev_pubkey e), d) else None)
    with (d_mark db c e d) in Hr.
  destruct (ok StLocks && ok StHead); [cbn [negb] in Hr|done].
  destruct (is_nip_rs e d && negb (ok StWatermark)); [done|].
  set (id := rd_id_bytes (ev_id e)) in *. set (wiki := N.eqb (ev_kind e) KIND_REPO_WIKI_PAGE) in *.
  assert (forall st', Ok (E := DbError) (db, st') = Ok (db', st) -> st' <> Inserted ->
    (pre = Unconditional -> ev_kind e <> KIND_REPO_WIKI_PAGE -> stale db now c e d ch t) ->
    db' = db /\ st <> Inserted /\ (pre = Unconditional -> ev_kind e <> KIND_REPO_WIKI_PAGE -> stale db now c e d ch t)) as Hleft.
  { intros st' [= <- <-] ? ?. auto. }
  assert (ev_kind e <> KIND_REPO_WIKI_PAGE -> wiki = false) as Hwiki by (intros ?; by apply N.eqb_neq).
  destruct (is_some_and (d_head db c e d) _ || is_some_and (d_mark db c e d) _) eqn:Edup.
  { left. apply (Hleft _ Hr); [done|]. intros _ _. apply orb_true_iff in Edup as [E|E].
    - destruct (d_head db c e d) as [r|] eqn:Eh; [|done]. apply bool_decide_eq_true in E. apply (stale_head _ _ _ _ _ _ _ r); auto.
    - destruct (d_mark db c e d) as [w|] eqn:Ew; [|done]. apply bool_decide_eq_true in E. apply (stale_mark _ _ _ _ _ _ _ w); auto. }
  match type of Hr with (if ?b then _ else _) = _ => destruct b eqn:Emiss end.
  { left. apply (Hleft _ Hr); [done|]. intros -> _. by rewrite bool_decide_false in Emiss. }
  match type of Hr with (if ?b then _ else _) = _ => destruct b eqn:Ev1 end.
  { left. apply (Hleft _ Hr); [done|]. intros _ Hk. by rewrite (Hwiki Hk) in Ev1. }
  match type of Hr with (if ?b then _ else _) = _ => destruct b eqn:Eres end.
  { left. apply (Hleft _ Hr); [done|]. intros _ Hk. by rewrite (Hwiki Hk) in Eres. }
  case_bool_decide as Ereplay; [left; apply (Hleft _ Hr); [done|by intros ->]|].
  match type of Hr with (if ?b then _ else _) = _ => destruct b eqn:Et1 end; [done|].
  match type of Hr with (if ?b then _ else _) = _ => destruct b eqn:Et2 end.
  { left. apply (Hleft _ Hr); [done|]. intros _ Hk. by rewrite (Hwiki Hk) in Et2. }
  match type of Hr with (if ?b then _ else _) = _ => destruct b eqn:Et3 end; [done|].
  match type of Hr with (if ?b then _ else _) = _ => destruct b eqn:Et4 end.
  { left. apply (Hleft _ Hr); [done|]. intros _ Hk. by rewrite (Hwiki Hk) in Et4. }
  clear Et1 Et2 Et3 Et4.
  assert ((db' = db /\ st <> Inserted /\ (pre = Unconditional -> ev_kind e <> KIND_REPO_WIKI_PAGE -> stale db now c e d ch t)) \/
    ((forall i, pre = ExpectedRevision i -> exists r, d_head db c e d = Some r /\ er_id r = i) /\
     replace_newer ok now db c e d ch t (d_head db c e d) (d_mark db c e d) = Ok (db', st))) as [?|[Hexp Hw]]; [|by left|].
  { destruct pre as [| |name value|i|]; try (right; split; [done|exact Hr]). destruct (d_head db c e d) as [r|].
    - case_bool_decide; cbn [negb] in Hr; [|by left; apply (Hleft _ Hr)]. right. split; [|exact Hr]. intros ? [= <-]. eauto.
    - by left; apply (Hleft _ Hr). }
  apply replace_newer_effect in Hw as [(-> & ? & ?)|(-> & Hins & Hh & Hm & Hq)]; [left; auto|right].
  split; [done|]. split; [|exact Hins]. apply orb_false_iff in Emiss as [Emiss Etag].
  assert (ev_kind e = KIND_REPO_WIKI_PAGE -> wiki = true) as Hwiki' by (intros Hk; subst wiki; by rewrite Hk).
  split; try done.
  - intros ->. rewrite bool_decide_true in Emiss by done. cbn in Emiss. apply bool_decide_eq_false in Emiss.
    destruct (d_head db c e d); [|done]. by destruct Emiss.
  - intros name value r -> Hr'. by rewrite Hr' in Etag.
  - intros r Hk Hr'. rewrite (Hwiki' Hk), Hr' in Eres. rewrite (bool_decide_true (is_Some _)) in Eres by done.
    rewrite andb_true_r in Eres. cbn in Eres. by apply orb_false_iff in Eres as [Eres _].
  - intros Hk Hd live. rewrite (Hwiki' Hk), Hd, orb_true_r in Eres. cbn in Eres. apply bool_decide_eq_false in Eres.
    assert (d_head db c e d = None) as Hnone by by destruct (d_head db c e d); [destruct Eres|]. split; [done|]. by apply Hq.
Qed.

Lemma replace_channel_effect ok now db c e ch db' b :
  replace_addressable_event ok now db c e ch = Ok (db', b) ->
  exists t, from_timestamp (as_i64_wrapped (ev_created_at e)) = Some t /\
  let at_ := live_at (channel_coordinate c e ch) in
  ((db' = db /\ b = false /\
    ((exists r, head_row at_ (db_events db) = Some r /\ outranks (stamp r) (t, rd_id_bytes (ev_id e)) = true) \/
     exists r, r ∈ db_events db /\ same_key (channel_row now c e ch t) r = true)) \/
   (b = true /\ (forall r, head_row at_ (db_events db) = Some r -> outranks (stamp r) (t, rd_id_bytes (ev_id e)) = false) /\
    swapped now at_ (channel_row now c e ch t) (db_events db) (db_events db'))).
Proof.
  unfold replace_addressable_event, replace_addressable_event_in_transaction. cbn zeta.
  destruct (from_timestamp _) as [t|] eqn:Et; [|done]. cbn [ok_or]. intros Hr. exists t. split; [done|].
  fold (channel_row now c e ch t) in Hr.
  change (live_at_channel c (Z.of_N (ev_kind e)) (rd_pk_bytes (ev_pubkey e)) ch) with (live_at (channel_coordinate c e ch)) in Hr.
  set (at_ := live_at (channel_coordinate c e ch)) in *.
  destruct (ok StLocks && ok StHead); [cbn [negb] in Hr|done].
  match type of Hr with context [if ?b then _ else _] => destruct b eqn:Edom end.
  { destruct (ok StCommit); [|done]. injection Hr as <- <-. left. split_and!; [done..|]. left.
    destruct (head_row _ _) as [r|]; [|done]. by exists r. }
  destruct (ok StRetire && ok StInsert); [cbn [negb] in Hr|done].
  destruct (existsb _ _) eqn:Ex.
  { destruct (ok StCommit); [|done]. injection Hr as <- <-. left. split_and!; [done..|]. right.
    apply existsb_elem_of in Ex as (r' & (r & Hin & Hor)%soft_deleted_rows & Hk). exists r. split; [done|].
    by destruct Hor as [->| ->]. }
  destruct (insert_mentions_in_transaction _ _ _ _) as [indexed|] eqn:Em; [|done]. destruct (ok StCommit); [|done].
  injection Hr as <- <-. right. apply mentions_keep_rows in Em. split_and!; [done| |].
  - intros r Hh. by rewrite Hh in Edom.
  - rewrite Em. apply swapped_intro; [intros p Hp; by apply filter_soft_delete|apply soft_deleted_rows|apply soft_delete_keeps|done].
Qed.
End effects.

(** * Histories of replaceable writes: any sequence of replacements, conditional
    or not, with failing statements, and of soft deletions. *)

(** Where a write replaces: by [d] tag, under a precondition, or by channel. *)
Inductive Target :=
| ByD (d_tag : string) (channel_id : option Uuid) (precondition : ParameterizedReplacePrecondition)
| ByChannel (channel_id : option Uuid).

Inductive ReplaceOp :=
| OpReplace (ok : ReplaceStmt -> bool) (now : Z) (c : CommunityId) (e : Event) (target : Target)
| OpSoftDelete (now : Z) (c : CommunityId) (event_id : string).

(** An acknowledged write, and whether it was inserted. *)
Record Ack := mkAck { ak_community : CommunityId; ak_event : Event; ak_target : Target; ak_inserted : bool }.

Section run.
Context `{NostrLib, HexLib, ReadLib, StoreLib, WikiLib}.

Definition coordinate (c : CommunityId) (e : Event) (target : Target) : Coordinate :=
  match target with ByD d _ _ => d_coordinate c e d | ByChannel ch => channel_coordinate c e ch end.
Definition ack_at (a : Ack) : Coordinate := coordinate (ak_community a) (ak_event a) (ak_target a).
Definition event_stamp (e : Event) : Z * string := (as_i64_wrapped (ev_created_at e), rd_id_bytes (ev_id e)).
Definition target_row (now : Z) (c : CommunityId) (e : Event) (target : Target) (t : Z) : EventRow :=
  match target with ByD d ch _ => d_row now c e d ch t | ByChannel ch => channel_row now c e ch t end.

(** A committed write; what is not inserted is rolled back. *)
Definition apply_replace (ok : ReplaceStmt -> bool) (now : Z) (db : ReplaceDb) (c : CommunityId) (e : Event) (target : Target)
  : result (ReplaceDb * bool) DbError :=
  match target with
  | ByD d ch pre =>
      let? r := replace_parameterized_event_in_transaction ok now db c e d ch pre in
      let was_inserted := bool_decide (r.2 = Inserted) in
      if negb (ok StCommit) then Err Sqlx else Ok (if was_inserted then r.1 else db, was_inserted)
  | ByChannel ch =>
      let? r := replace_addressable_event ok now (rp_events db) c e ch in
      Ok (mkReplaceDb r.1 (rp_watermarks db), r.2)
  end.

Definition replace_step (w : ReplaceDb * list Ack) (op : ReplaceOp) : ReplaceDb * list Ack :=
  match op with
  | OpReplace ok now c e target =>
      match apply_replace ok now w.1 c e target with
      | Ok (db, b) => (db, w.2 ++ [mkAck c e target b])
      | Err _ => w
      end
  | OpSoftDelete now c id => (mkReplaceDb (soft_delete_event now (rp_events w.1) c id).1 (rp_watermarks w.1), w.2)
  end.
Definition run_replace (ops : list ReplaceOp) : ReplaceDb * list Ack :=
  foldl replace_step (mkReplaceDb (mkEventDb [] ∅) ∅, []) ops.

Lemma run_replace_inv (I : ReplaceDb -> list Ack -> Prop) ops :
  I (mkReplaceDb (mkEventDb [] ∅) ∅) [] ->
  (forall db acks op, op ∈ ops -> I db acks -> I (replace_step (db, acks) op).1 (replace_step (db, acks) op).2) ->
  I (run_replace ops).1 (run_replace ops).2.
Proof.
  intros Hinit Hstep. unfold run_replace. set (w0 := (_, [])).
  assert (I w0.1 w0.2) as Hw by exact Hinit. revert Hw Hstep. generalize w0. clear.
  induction ops as [|op ops IH]; intros w Hw Hstep; [done|]. cbn. apply IH.
  - destruct w. apply Hstep; [left|done].
  - intros db acks op' Hop. apply Hstep. by right.
Qed.

(** ** One step *)

(** The kinds written by [d] tag; the others are written by channel. *)
Context (by_d : Z -> bool).

Definition kinded (k : Coordinate) : Prop :=
  match k with AtD _ kind _ _ => by_d kind = true | AtChannel _ kind _ _ => by_d kind = false end.
Definition routed_op (op : ReplaceOp) : Prop :=
  match op with OpReplace _ _ c e target => kinded (coordinate c e target) | OpSoftDelete _ _ _ => True end.

Lemma live_at_inj k k' r : kinded k -> kinded k' -> live_at k r = true -> live_at k' r = true -> k = k'.
Proof.
  destruct k, k'; cbn; rewrite ?live_at_d_spec, ?live_at_channel_spec; intros H1' H2' (?&?&?&?&_) (?&?&?&?&_); subst; congruence.
Qed.
Lemma target_row_live now c e target t : live_at (coordinate c e target) (target_row now c e target t) = true.
Proof. destruct target; cbn; rewrite ?live_at_d_spec, ?live_at_channel_spec; done. Qed.
Lemma target_row_stamp now c e target t : stamp (target_row now c e target t) = (t, rd_id_bytes (ev_id e)).
Proof. by destruct target. Qed.

Definition rows_of (db : ReplaceDb) : list EventRow := db_events (rp_events db).

(** What keeps an unconditional write of an ordinary kind out. *)
Inductive kept_out (db : ReplaceDb) (c : CommunityId) (e : Event) (target : Target) (t : Z) : Prop :=
| kept_head r : head_row (live_at (coordinate c e target)) (rows_of db) = Some r ->
    er_id r = rd_id_bytes (ev_id e) \/ outranks (stamp r) (t, rd_id_bytes (ev_id e)) = true -> kept_out db c e target t
| kept_mark d w : coordinate c e target = d_coordinate c e d ->
    rp_watermarks db !! (c, Z.of_N (ev_kind e), rd_pk_bytes (ev_pubkey e), d) = Some w ->
    w.2 = rd_id_bytes (ev_id e) \/ outranks w (t, rd_id_bytes (ev_id e)) = true -> kept_out db c e target t
| kept_key r : r ∈ rows_of db -> er_community_id r = c -> er_id r = rd_id_bytes (ev_id e) -> kept_out db c e target t.

Definition ordinary (e : Event) (target : Target) : Prop :=
  match target with ByD _ _ pre => pre = Unconditional /\ ev_kind e <> KIND_REPO_WIKI_PAGE | ByChannel _ => True end.

(** The watermarks after an insertion. *)
Definition moved_marks (db : ReplaceDb) (c : CommunityId) (e : Event) (target : Target) (t : Z) :=
  match target with
  | ByD d _ _ =>
      if is_nip_rs e d then <[(c, Z.of_N (ev_kind e), rd_pk_bytes (ev_pubkey e), d) := (t, rd_id_bytes (ev_id e))]> (rp_watermarks db)
      else rp_watermarks db
  | ByChannel _ => rp_watermarks db
  end.

(** What an insertion does, and what it has passed. *)
Record insertion (now : Z) (db : ReplaceDb) (c : CommunityId) (e : Event) (target : Target) (t : Z) (db' : ReplaceDb) : Prop := {
  in_swapped : swapped now (live_at (coordinate c e target)) (target_row now c e target t) (rows_of db) (rows_of db');
  in_marks : rp_watermarks db' = moved_marks db c e target t;
  in_newer r : head_row (live_at (coordinate c e target)) (rows_of db) = Some r -> outranks (stamp r) (t, rd_id_bytes (ev_id e)) = false;
  in_admissible d ch pre : target = ByD d ch pre -> admissible db c e d pre t;
}.

Lemma same_key_ids row r : same_key row r = true -> er_community_id r = er_community_id row /\ er_id r = er_id row.
Proof. unfold same_key. rewrite !andb_true_iff, !bool_decide_eq_true. naive_solver. Qed.
Lemma stale_kept_out db now c e d ch pre t : stale db now c e d ch t -> kept_out db c e (ByD d ch pre) t.
Proof.
  intros [r Hh Hor|w Hw Hor|r Hr Hk].
  - by apply (kept_head _ _ _ _ _ r).
  - unfold d_mark in Hw. destruct (is_nip_rs e d); [|done]. by apply (kept_mark _ _ _ _ _ d w).
  - apply same_key_ids in Hk as [Hc Hi]. by apply (kept_key _ _ _ _ _ r).
Qed.

(** A write changes nothing, or puts its row in the place of its coordinate's. *)
Lemma apply_replace_effect ok now db c e target db' b :
  apply_replace ok now db c e target = Ok (db', b) ->
  exists t, from_timestamp (as_i64_wrapped (ev_created_at e)) = Some t /\
  ((db' = db /\ b = false /\ (ordinary e target -> kept_out db c e target t)) \/ (b = true /\ insertion now db c e target t db')).
Proof.
  destruct target as [d ch pre|ch]; cbn [apply_replace].
  - destruct (replace_parameterized_event_in_transaction ok now db c e d ch pre) as [[db1 st]|] eqn:Er; [|done].
    destruct (ok StCommit); [cbn|done]. apply replace_d_effect in Er as (t & Et & Hor). intros [= <- <-]. exists t.
    split; [done|]. destruct Hor as [(-> & Hne & Hstale)|(-> & Had & Hsw & Hm)].
    + left. rewrite bool_decide_false by done. split_and!; [done..|]. intros [??]. by eapply stale_kept_out, Hstale.
    + right. rewrite bool_decide_true by done. split; [done|]. split; [done..| |].
      * intros r Hr. by apply (ad_head _ _ _ _ _ _ Had).
      * by intros ??? [= <- <- <-].
  - destruct (replace_addressable_event ok now (rp_events db) c e ch) as [[db1 b1]|] eqn:Er; [|done]. intros [= <- <-].
    apply replace_channel_effect in Er as (t & Et & Hor). exists t. split; [done|]. cbn zeta in Hor.
    destruct Hor as [(-> & -> & Hor)|(-> & Hh & Hsw)]; [left|right].
    + split_and!; [by destruct db|done|]. intros _. destruct Hor as [(r & Hr & Ho)|(r & Hr & Hk)].
      * apply (kept_head _ _ _ _ _ r); auto.
      * apply same_key_ids in Hk as [Hc Hi]. by apply (kept_key _ _ _ _ _ r).
    + split; [done|]. by split.
Qed.

Lemma swapped_here now k row rows rows' : swapped now (live_at k) row rows rows' -> live_at k row = true -> List.filter (live_at k) rows' = [row].
Proof.
  intros Hsw Hrow. rewrite (sw_live _ _ _ _ _ Hsw) by apply live_at_live. rewrite Hrow.
  assert (forall l, List.filter (fun r => live_at k r && negb (live_at k r)) l = []) as ->; [|done].
  induction l as [|r l IH]; [done|]. cbn. rewrite andb_negb_r. exact IH.
Qed.
Lemma swapped_there now k k' row rows rows' :
  swapped now (live_at k) row rows rows' -> live_at k row = true -> kinded k -> kinded k' -> k <> k' ->
  List.filter (live_at k') rows' = List.filter (live_at k') rows.
Proof.
  intros Hsw Hrow Hk Hk' Hne. rewrite (sw_live _ _ _ _ _ Hsw) by apply live_at_live.
  assert (live_at k' row = false) as ->.
  { apply not_true_iff_false. intros Hrow'. by apply Hne, (live_at_inj _ _ row). }
  rewrite app_nil_r. apply filter_ext. intros r. destruct (live_at k' r) eqn:E; [|done].
  destruct (live_at k r) eqn:E'; [|done]. destruct Hne. by apply (live_at_inj _ _ r).
Qed.

Lemma soft_delete_filter now db c id p :
  live_only p -> exists q, List.filter p (db_events (soft_delete_event now db c id).1) = List.filter (fun r => p r && q r) (db_events db).
Proof.
  intros Hp. set (hit := fun r => bool_decide (er_community_id r = c) && bool_decide (er_id r = id) && bool_decide (er_deleted_at r = None)).
  exists (fun r => negb (hit r)). apply (filter_soft_delete now hit (db_events db) p Hp).
Qed.
Lemma filter_and_length {A} (p q : A -> bool) l : (length (List.filter (fun r => p r && q r) l) <= length (List.filter p l))%nat.
Proof. induction l as [|x l IH]; [done|]. cbn. destruct (p x); cbn; [destruct (q x); cbn|]; lia. Qed.

(** ** One live version *)

Lemma single_live_step db acks op :
  routed_op op -> (forall k, kinded k -> (length (List.filter (live_at k) (rows_of db)) <= 1)%nat) ->
  forall k, kinded k -> (length (List.filter (live_at k) (rows_of (replace_step (db, acks) op).1)) <= 1)%nat.
Proof.
  intros Hop Hone k Hk. destruct op as [ok now c e target|now c id]; cbn [replace_step fst].
  - destruct (apply_replace ok now db c e target) as [[db' b]|] eqn:Ea; [|by apply Hone]. cbn.
    apply apply_replace_effect in Ea as (t & _ & [[-> _]|(_ & [Hsw _ _ _])]); [by apply Hone|].
    pose proof (target_row_live now c e target t) as Hrow. destruct (decide (coordinate c e target = k)) as [<-|Hne].
    + by rewrite (swapped_here _ _ _ _ _ Hsw).
    + rewrite (swapped_there _ _ k _ _ _ Hsw); [by apply Hone|done..].
  - destruct (soft_delete_filter now (rp_events db) c id (live_at k)) as [q Hq]; [apply live_at_live|].
    unfold rows_of. cbn [rp_events]. rewrite Hq. etransitivity; [apply filter_and_length|by apply Hone].
Qed.

Lemma run_single_live ops :
  (forall op, op ∈ ops -> routed_op op) ->
  forall k, kinded k -> (length (List.filter (live_at k) (rows_of (run_replace ops).1)) <= 1)%nat.
Proof.
  intros Hops. apply (run_replace_inv (fun db _ => forall k, kinded k -> (length (List.filter (live_at k) (rows_of db)) <= 1)%nat)).
  - intros k _. cbn. lia.
  - intros db acks op Hop. apply single_live_step. by apply Hops.
Qed.
End run.
