(* ===== verification/ReplaceConverge.v ===== *)
(** Theorems on histories of replaceable writes: one live version per
    coordinate, the last writer of those acknowledged, and read states that
    never move back. *)

From S2P Require Import Prelude Nostr Filter Auth RustStr ReadGate EventStore Replace ReplaceTheorems.
From Stdlib Require Import Sorting.Sorted.

(** ** The last-writer-wins register *)

(** The later of a version and what is kept. *)
Definition newer (a : Z * string) (best : option (Z * string)) : option (Z * string) :=
  match best with Some b => Some (if outranks b a then b else a) | None => Some a end.
Definition last_writer (versions : list (Z * string)) : option (Z * string) := foldr newer None versions.

Lemma last_writer_spec versions w :
  last_writer versions = Some w <-> w ∈ versions /\ forall v, v ∈ versions -> outranks w v = true.
Proof.
  revert w. induction versions as [|a vs IH]; intros w; cbn.
  { split; [done|]. intros [?%elem_of_nil _]. done. }
  fold (last_writer vs). destruct (last_writer vs) as [b|] eqn:Eb; cbn.
  - destruct (proj1 (IH b) eq_refl) as [Hin Hmax]. set (m := if outranks b a then b else a).
    assert (m ∈ a :: vs) as Hm by (subst m; destruct (outranks b a); [by right|by left]).
    assert (outranks m a = true /\ outranks m b = true) as [Ha Hb].
    { subst m. destruct (outranks b a) eqn:E; (split; [|try apply outranks_refl]); try done; [apply outranks_refl|].
      destruct (outranks_total b a); congruence. }
    assert (forall v, v ∈ a :: vs -> outranks m v = true) as Hmx.
    { intros v [->|Hv]%elem_of_cons; [done|]. by apply (outranks_trans _ b), Hmax. }
    split; [intros [= <-]; done|]. intros [Hw Hwm]. f_equal. apply outranks_antisym; auto.
  - assert (vs = []) as ->. { destruct vs as [|v vs]; [done|]. cbn in Eb. by destruct (foldr newer None vs). }
    split; [intros [= <-]|intros [[->|?%elem_of_nil]%elem_of_cons _]; done].
    split; [by left|]. intros v [->|?%elem_of_nil]%elem_of_cons; [apply outranks_refl|done].
Qed.
Lemma last_writer_none versions : last_writer versions = None <-> versions = [].
Proof. destruct versions as [|a vs]; [done|]. cbn. by destruct (foldr newer None vs). Qed.

Lemma last_writer_ext versions versions' :
  (forall v, v ∈ versions <-> v ∈ versions') -> last_writer versions = last_writer versions'.
Proof.
  intros Heq. destruct (last_writer versions') as [w|] eqn:E.
  - apply last_writer_spec in E as [? Hmax]. apply last_writer_spec. split; [by apply Heq|]. intros v Hv. by apply Hmax, Heq.
  - apply last_writer_none in E as ->. apply last_writer_none. destruct versions as [|v vs]; [done|].
    assert (v ∈ []) as ?%elem_of_nil by (apply Heq; left). done.
Qed.

Section converge.
Context `{NostrLib, HexLib, ReadLib, StoreLib, WikiLib, !ReadLaws, !StoreLaws}.
Context (by_d : Z -> bool).

Lemma timestamp_stamp e t :
  from_timestamp (as_i64_wrapped (ev_created_at e)) = Some t -> (t, rd_id_bytes (ev_id e)) = event_stamp e.
Proof. intros ->%from_timestamp_secs. done. Qed.

(** The versions acknowledged at a coordinate. *)
Definition written (k : Coordinate) (acks : list Ack) : list (Z * string) :=
  (fun a => event_stamp (ak_event a)) <$> filter (fun a => ack_at a = k) acks.
Lemma written_snoc k acks a :
  written k (acks ++ [a]) = written k acks ++ (if decide (ack_at a = k) then [event_stamp (ak_event a)] else []).
Proof. unfold written. rewrite filter_app, fmap_app. f_equal. rewrite filter_cons. by destruct (decide _). Qed.
Lemma elem_written k acks v : v ∈ written k acks <-> exists a, v = event_stamp (ak_event a) /\ ack_at a = k /\ a ∈ acks.
Proof. unfold written. rewrite list_elem_of_fmap. by setoid_rewrite list_elem_of_filter. Qed.

(** An id names one event, written at one place. *)
Definition same_op (op op' : ReplaceOp) : Prop :=
  match op, op' with
  | OpReplace _ _ c e target, OpReplace _ _ c' e' target' =>
      c = c' -> ev_id e = ev_id e' -> e = e' /\ coordinate c e target = coordinate c' e' target'
  | _, _ => True
  end.
Definition plain_op (op : ReplaceOp) : Prop :=
  routed_op by_d op /\ match op with OpReplace _ _ _ e target => ordinary e target | OpSoftDelete _ _ _ => False end.

Record history (acks : list Ack) : Prop := {
  hi_same a b : a ∈ acks -> b ∈ acks -> ak_community a = ak_community b -> ev_id (ak_event a) = ev_id (ak_event b) ->
    ak_event a = ak_event b /\ ack_at a = ack_at b;
}.

(** What the tables say of the acknowledged writes. *)
Record register (db : ReplaceDb) (acks : list Ack) : Prop := {
  rg_live k : kinded by_d k ->
    (List.filter (live_at k) (rows_of db) = [] /\ written k acks = []) \/
    exists a now, let r := target_row now (ak_community a) (ak_event a) (ak_target a) (as_i64_wrapped (ev_created_at (ak_event a))) in
      a ∈ acks /\ ack_at a = k /\ List.filter (live_at k) (rows_of db) = [r] /\
      forall v, v ∈ written k acks -> outranks (stamp r) v = true;
  rg_rows r : r ∈ rows_of db -> exists a, a ∈ acks /\ er_community_id r = ak_community a /\ stamp r = event_stamp (ak_event a);
  rg_marks c kind pk d w : rp_watermarks db !! (c, kind, pk, d) = Some w ->
    exists a, a ∈ acks /\ ack_at a = AtD c kind pk d /\ w = event_stamp (ak_event a);
}.

Lemma ack_community a : match ack_at a with AtD c _ _ _ | AtChannel c _ _ _ => ak_community a = c end.
Proof. unfold ack_at. by destruct (ak_target a). Qed.
Lemma ack_same_community a b : ack_at a = ack_at b -> ak_community a = ak_community b.
Proof. intros E. pose proof (ack_community a) as Ha. pose proof (ack_community b) as Hb. rewrite E in Ha. destruct (ack_at b); congruence. Qed.

Lemma register_live db acks k v :
  register db acks -> kinded by_d k -> v ∈ written k acks ->
  exists r, List.filter (live_at k) (rows_of db) = [r] /\ outranks (stamp r) v = true.
Proof. intros HR Hk Hv. destruct (rg_live _ _ HR k Hk) as [[_ E]|(a & now & Hin & Hat & Hf & Hmax)]; [by rewrite E in Hv; apply elem_of_nil in Hv|eauto]. Qed.

(** What keeps a write out is a version at its coordinate that outranks it. *)
Lemma kept_out_outranked db acks c e target t b :
  register db acks -> history (acks ++ [mkAck c e target b]) -> kinded by_d (coordinate c e target) ->
  from_timestamp (as_i64_wrapped (ev_created_at e)) = Some t -> kept_out db c e target t ->
  exists v, v ∈ written (coordinate c e target) acks /\ outranks v (event_stamp e) = true.
Proof.
  intros HR HH Hk Ht%timestamp_stamp Hkept. set (k := coordinate c e target) in *.
  assert (forall a, a ∈ acks -> ak_community a = c -> (event_stamp (ak_event a)).2 = rd_id_bytes (ev_id e) ->
    exists v, v ∈ written k acks /\ outranks v (event_stamp e) = true) as Hsame.
  { intros a Ha Hc Hi%rd_id_bytes_inj. destruct (hi_same _ HH a (mkAck c e target b)) as [He Hat]; [set_solver..|done|done|].
    cbn in He. exists (event_stamp e). split; [|apply outranks_refl]. apply elem_written. exists a. by rewrite He. }
  destruct Hkept as [r Hh Hor|d w Hd Hw Hor|r Hr Hc Hi].
  - destruct (rg_live _ _ HR k Hk) as [[E _]|(a & now & Hin & Hat & Hf & Hmax)]; [by apply head_row_none in E; fold k in Hh; rewrite E in Hh|].
    apply head_row_single in Hf. fold k in Hh. rewrite Hf in Hh. injection Hh as <-. rewrite target_row_stamp in Hor. cbn [er_id] in Hor.
    destruct Hor as [Hi|Ho].
    + apply (Hsame a Hin); [by apply (ack_same_community a (mkAck c e target b))|]. rewrite <- Hi. by destruct (ak_target a).
    + exists (event_stamp (ak_event a)). split; [apply elem_written; eauto|]. by rewrite <- Ht.
  - destruct (rg_marks _ _ HR _ _ _ _ _ Hw) as (a & Hin & Hat & ->). fold (d_coordinate c e d) in Hat. rewrite <- Hd in Hat. fold k in Hat.
    destruct Hor as [Hi|Ho].
    + apply (Hsame a Hin); [by apply (ack_same_community a (mkAck c e target b))|done].
    + exists (event_stamp (ak_event a)). split; [apply elem_written; eauto|]. by rewrite <- Ht.
  - destruct (rg_rows _ _ HR r Hr) as (a & Hin & Hca & Hst). apply (Hsame a Hin); [congruence|]. rewrite <- Hst. done.
Qed.

(** Acknowledging a version that an acknowledged one outranks changes no head. *)
Lemma register_kept db acks c e target b v :
  register db acks -> v ∈ written (coordinate c e target) acks -> outranks v (event_stamp e) = true ->
  register db (acks ++ [mkAck c e target b]).
Proof.
  intros HR Hv Hov. split.
  - intros k Hk. rewrite written_snoc. cbn [ack_at ak_community ak_event ak_target].
    destruct (rg_live _ _ HR k Hk) as [[Hf Hw]|(a & now & Hin & Hat & Hf & Hmax)]; [left|right].
    + split; [done|]. rewrite Hw. destruct (decide _) as [<-|]; [|done]. unfold ack_at in Hw. cbn in Hw. rewrite Hw in Hv. by apply elem_of_nil in Hv.
    + exists a, now. split_and!; [apply elem_of_app; by left|done..|]. intros w [Hw|Hw]%elem_of_app; [by apply Hmax|].
      destruct (decide _) as [<-|]; [|by apply elem_of_nil in Hw]. apply list_elem_of_singleton in Hw as ->.
      by apply (outranks_trans _ v); [apply Hmax|].
  - intros r Hr. destruct (rg_rows _ _ HR r Hr) as (a & ? & ?). exists a. split; [apply elem_of_app; by left|done].
  - intros c' kind pk d w Hw. destruct (rg_marks _ _ HR _ _ _ _ _ Hw) as (a & ? & ?). exists a. split; [apply elem_of_app; by left|done].
Qed.

Lemma register_inserted now db acks c e target db' b :
  register db acks -> kinded by_d (coordinate c e target) ->
  insertion now db c e target (as_i64_wrapped (ev_created_at e)) db' -> register db' (acks ++ [mkAck c e target b]).
Proof.
  intros HR Hk0 Hins. set (t := as_i64_wrapped (ev_created_at e)) in *. set (new := mkAck c e target b).
  pose proof (in_swapped _ _ _ _ _ _ _ Hins) as Hsw. pose proof (target_row_live now c e target t) as Hrow.
  assert (new ∈ acks ++ [new]) as Hnew by (apply elem_of_app; right; by apply list_elem_of_singleton).
  split.
  - intros k Hk. rewrite written_snoc. destruct (decide (ack_at new = k)) as [Hkk|Hne].
    + right. exists new, now. cbn [new ak_community ak_event ak_target]. fold t. unfold ack_at in Hkk. cbn in Hkk. subst k.
      split_and!; [done..|by apply (swapped_here now _ _ (rows_of db))|]. rewrite target_row_stamp. intros v [Hv|Hv]%elem_of_app.
      * destruct (register_live _ _ _ _ HR Hk0 Hv) as (r & Hf & Hor). apply head_row_single in Hf.
        pose proof (in_newer _ _ _ _ _ _ _ Hins r Hf) as Hnew'. apply (outranks_trans _ (stamp r)); [|done].
        destruct (outranks_total (stamp r) (t, rd_id_bytes (ev_id e))); congruence.
      * apply list_elem_of_singleton in Hv as ->. apply outranks_refl.
    + rewrite app_nil_r. rewrite (swapped_there by_d _ _ k _ _ _ Hsw); [|done..].
      destruct (rg_live _ _ HR k Hk) as [?|(a & now' & Hin & ?)]; [by left|right]. exists a, now'. split; [apply elem_of_app; by left|done].
  - intros r' Hr'. destruct (sw_rows _ _ _ _ _ Hsw r' Hr') as [->|(r & Hr & Hor)].
    + exists new. split; [done|]. by destruct target.
    + destruct (rg_rows _ _ HR r Hr) as (a & Ha & Hc & Hst). exists a. split; [apply elem_of_app; by left|]. by destruct Hor as [->| ->].
  - intros c' kind pk d w. rewrite (in_marks _ _ _ _ _ _ _ Hins). intros Hw.
    assert (rp_watermarks db !! (c', kind, pk, d) = Some w \/ (coordinate c e target = AtD c' kind pk d /\ w = event_stamp e)) as [Hold|[Hat ->]].
    { unfold moved_marks in Hw. destruct target as [d0 ch pre|ch]; [|by left]. destruct (is_nip_rs e d0); [|by left].
      apply lookup_insert_Some in Hw as [[[= <- <- <- <-] <-]|[_ Hw]]; [right|by left]. done. }
    + destruct (rg_marks _ _ HR _ _ _ _ _ Hold) as (a & Ha & ?). exists a. split; [apply elem_of_app; by left|done].
    + by exists new.
Qed.

(** Every acknowledged write was asked for. *)
Definition asked (ops : list ReplaceOp) (acks : list Ack) : Prop :=
  forall a, a ∈ acks -> exists ok now, OpReplace ok now (ak_community a) (ak_event a) (ak_target a) ∈ ops.
Lemma asked_history ops acks :
  (forall op op', op ∈ ops -> op' ∈ ops -> same_op op op') -> asked ops acks -> history acks.
Proof.
  intros Hsame Hask. split. intros a b (ok & now & Ha)%Hask (ok' & now' & Hb)%Hask Hc Hi. exact (Hsame _ _ Ha Hb Hc Hi).
Qed.
Lemma asked_snoc ops acks a ok now :
  asked ops acks -> OpReplace ok now (ak_community a) (ak_event a) (ak_target a) ∈ ops -> asked ops (acks ++ [a]).
Proof. intros Hask Hop b [Hb|Hb]%elem_of_app; [by apply Hask|]. apply list_elem_of_singleton in Hb as ->. eauto. Qed.

Lemma register_run ops :
  (forall op, op ∈ ops -> plain_op op) -> (forall op op', op ∈ ops -> op' ∈ ops -> same_op op op') ->
  register (run_replace ops).1 (run_replace ops).2.
Proof.
  intros Hplain Hsame.
  enough (asked ops (run_replace ops).2 /\ register (run_replace ops).1 (run_replace ops).2) as [_ ?] by done.
  apply (run_replace_inv (fun db acks => asked ops acks /\ register db acks)).
  { split; [by intros a ?%elem_of_nil|]. split; [by left|by intros r ?%elem_of_nil|done]. }
  intros db acks op Hop [Hask HR]. destruct (Hplain op Hop) as [Hroute Hord].
  destruct op as [ok now c e target|]; [|done]. cbn [replace_step fst].
  destruct (apply_replace ok now db c e target) as [[db' b]|] eqn:Ea; [|done]. cbn [fst snd].
  assert (asked ops (acks ++ [mkAck c e target b])) as Hask' by by eapply asked_snoc.
  split; [done|]. apply apply_replace_effect in Ea as (t & Et & Hor). pose proof (from_timestamp_secs _ _ Et) as ->.
  destruct Hor as [(-> & -> & Hkept)|(-> & Hins)]; [|by eapply register_inserted].
  destruct (kept_out_outranked db acks c e target _ false HR (asked_history _ _ Hsame Hask') Hroute Et (Hkept Hord)) as (v & Hv & Ho).
  by eapply register_kept.
Qed.

(** ** Claims *)

(** C21: of the writes to replaceable coordinates, conditional or not, with any
    statement failing and any deletion between them, at most one version per
    coordinate is ever alive, and a write the store reports as inserted is the
    version a reader finds right after it, with the event's own columns.
    Coordinates by [d] tag and by channel are for different kinds. *)
Theorem one_live_version (ops : list ReplaceOp) :
  (forall op, op ∈ ops -> routed_op by_d op) ->
  (forall k, kinded by_d k -> (length (List.filter (live_at k) (rows_of (run_replace ops).1)) <= 1)%nat) /\
  (forall ok now c e target db',
    apply_replace ok now (run_replace ops).1 c e target = Ok (db', true) ->
    List.filter (live_at (coordinate c e target)) (rows_of db') =
      [target_row now c e target (as_i64_wrapped (ev_created_at e))]).
Proof.
  intros Hops. split; [by apply run_single_live|]. intros ok now c e target db' Ha.
  apply apply_replace_effect in Ha as (t & Et & [(_ & ? & _)|(_ & Hins)]); [done|].
  apply from_timestamp_secs in Et as ->. apply (swapped_here now _ _ (rows_of (run_replace ops).1)); [apply Hins|apply target_row_live].
Qed.

(** C11: the store is a last-writer-wins register.  After any sequence of
    unconditional writes of ordinary kinds, in any order, repeated, some
    failing, the live version of each coordinate is the latest of those
    acknowledged there, by second and then by smaller id, and carries that
    event's columns; so what a reader finds depends only on the set of versions
    acknowledged and not on the order they arrived in. *)
Theorem replaceable_converges (ops : list ReplaceOp) (k : Coordinate) :
  (forall op, op ∈ ops -> plain_op op) -> (forall op op', op ∈ ops -> op' ∈ ops -> same_op op op') -> kinded by_d k ->
  let '(db, acks) := run_replace ops in
  let head := head_row (live_at k) (rows_of db) in
  stamp <$> head = last_writer (written k acks) /\
  (forall r, head = Some r -> exists a now, a ∈ acks /\ ack_at a = k /\
     r = target_row now (ak_community a) (ak_event a) (ak_target a) (as_i64_wrapped (ev_created_at (ak_event a)))) /\
  (forall versions, (forall v, v ∈ versions <-> v ∈ written k acks) -> stamp <$> head = last_writer versions).
Proof.
  intros Hplain Hsame Hk. pose proof (register_run ops Hplain Hsame) as HR. destruct (run_replace ops) as [db acks]. cbn [fst snd] in HR.
  cbn zeta. destruct (rg_live _ _ HR k Hk) as [[Hf Hw]|(a & now & Hin & Hat & Hf & Hmax)].
  - apply head_row_none in Hf. rewrite Hf, Hw. split_and!; [done..|]. intros vs Hvs. symmetry. by apply (last_writer_ext vs []).
  - apply head_row_single in Hf. rewrite Hf. assert (stamp <$> Some (target_row now (ak_community a) (ak_event a) (ak_target a)
      (as_i64_wrapped (ev_created_at (ak_event a)))) = last_writer (written k acks)) as Hst.
    { symmetry. apply last_writer_spec. rewrite target_row_stamp in *. split; [|done]. apply elem_written. by exists a. }
    split; [done|]. split; [intros r [= <-]; by exists a, now|]. intros vs Hvs. rewrite Hst. symmetry. by apply last_writer_ext.
Qed.

(** ** Read states *)

(** The read states inserted under a key of the watermarks, oldest first. *)
Definition is_read_state (key : CommunityId * Z * string * string) (a : Ack) : bool :=
  match ak_target a with
  | ByD d _ _ =>
      ak_inserted a && is_nip_rs (ak_event a) d &&
      bool_decide (key = (ak_community a, Z.of_N (ev_kind (ak_event a)), rd_pk_bytes (ev_pubkey (ak_event a)), d))
  | ByChannel _ => false
  end.
Definition read_states (key : CommunityId * Z * string * string) (acks : list Ack) : list (Z * string) :=
  (fun a => event_stamp (ak_event a)) <$> List.filter (is_read_state key) acks.
Lemma read_states_snoc key acks a :
  read_states key (acks ++ [a]) = read_states key acks ++ (if is_read_state key a then [event_stamp (ak_event a)] else []).
Proof. unfold read_states. rewrite List.filter_app, fmap_app. f_equal. cbn. by destruct (is_read_state key a). Qed.

(** [b] is strictly later than [a]. *)
Definition advances (a b : Z * string) : Prop := outranks a b = false.
Lemma advances_trans a b c : advances a b -> advances b c -> advances a c.
Proof.
  unfold advances. intros Hab Hbc. apply not_true_iff_false. intros Hac.
  assert (outranks c b = true) as Hcb by (destruct (outranks_total b c); congruence).
  by rewrite (outranks_trans a c b) in Hab.
Qed.

Lemma sorted_snoc l x : StronglySorted advances l -> (forall w, last l = Some w -> advances w x) -> StronglySorted advances (l ++ [x]).
Proof.
  intros Hs Hx. induction Hs as [|a l Hs IH Ha]; cbn; [repeat constructor|]. constructor.
  - apply IH. intros w Hw. apply Hx. rewrite last_cons. by rewrite Hw.
  - apply List.Forall_app. split; [done|]. constructor; [|constructor]. destruct (last l) as [w|] eqn:El.
    + apply (advances_trans _ w); [|apply Hx; by rewrite last_cons, El].
      rewrite List.Forall_forall in Ha. apply Ha, list_elem_of_In. by apply last_Some_elem_of.
    + apply last_None in El as ->. by apply Hx.
Qed.

Lemma read_state_run ops key :
  rp_watermarks (run_replace ops).1 !! key = last (read_states key (run_replace ops).2) /\
  StronglySorted advances (read_states key (run_replace ops).2).
Proof.
  apply (run_replace_inv (fun db acks => rp_watermarks db !! key = last (read_states key acks) /\ StronglySorted advances (read_states key acks))).
  { split; [done|constructor]. }
  intros db acks op _ [Hm Hs]. destruct op as [ok now c e target|]; [|done]. cbn [replace_step fst].
  destruct (apply_replace ok now db c e target) as [[db' b]|] eqn:Ea; [|done]. cbn [fst snd].
  apply apply_replace_effect in Ea as (t & Et%timestamp_stamp & Hor). rewrite read_states_snoc.
  destruct Hor as [(-> & -> & _)|(-> & Hins)].
  { cbn [is_read_state ak_target ak_inserted]. destruct target; rewrite app_nil_r; done. }
  rewrite (in_marks _ _ _ _ _ _ _ Hins). unfold is_read_state. cbn [ak_target ak_inserted ak_event ak_community moved_marks].
  destruct target as [d ch pre|ch]; [|by rewrite app_nil_r]. cbn [andb moved_marks].
  destruct (is_nip_rs e d) eqn:En; [|by rewrite app_nil_r]. cbn [andb]. case_bool_decide as Hkey.
  - subst key. rewrite lookup_insert_eq, last_snoc, Et. split; [done|]. apply sorted_snoc; [done|]. intros w Hw. rewrite <- Et.
    pose proof (in_admissible _ _ _ _ _ _ _ Hins _ _ _ eq_refl) as Had. apply (ad_mark _ _ _ _ _ _ Had).
    unfold d_mark. by rewrite En, Hm.
  - rewrite lookup_insert_ne by congruence. by rewrite app_nil_r.
Qed.

(** A read state never moves back.  Whatever else is written, refused or
    deleted, by unconditional writes or not, the read states the store reports
    as inserted at one address are strictly later one after another, and the
    watermark of the address is the last of them, also when its row was
    deleted. *)
Theorem read_state_never_rolls_back (ops : list ReplaceOp) (key : CommunityId * Z * string * string) :
  let '(db, acks) := run_replace ops in
  StronglySorted advances (read_states key acks) /\ rp_watermarks db !! key = last (read_states key acks).
Proof. pose proof (read_state_run ops key) as [Hm Hs]. destruct (run_replace ops). by split. Qed.
End converge.

(** * Wiki pages under their reserved addresses: immutable while they live, and
    within the quota of their owner. *)

(** ** The two tests of a reserved address *)

Lemma rsplit_once_none c s : all_chars (fun a => negb (Ascii.eqb a c)) s = true -> rsplit_once c s = None.
Proof.
  induction s as [|a s IH]; [done|]. cbn. intros [Ha Hs]%andb_true_iff. rewrite IH by done.
  by apply negb_true_iff in Ha as ->.
Qed.
Lemma rsplit_once_some c s l r : rsplit_once c s = Some (l, r) -> s = l +:+ String c r.
Proof.
  revert l. induction s as [|a s IH]; intros l; [done|]. cbn. destruct (rsplit_once c s) as [[l' r']|].
  - intros [= <- <-]. cbn. by rewrite (IH l').
  - destruct (Ascii.eqb_spec a c) as [->|]; [|done]. by intros [= <- <-].
Qed.

Definition wiki_digest (digest : string) : bool := (String.length digest =? 64)%nat && all_chars lower_hex digest.
Definition wiki_slug (slug : string) : bool := existsb (fun prefix => is_some_and (strip_prefix prefix slug) wiki_digest) ["p1-"; "m1-"].

Lemma lower_hex_no_slash digest : all_chars lower_hex digest = true -> all_chars (fun a => negb (Ascii.eqb a "/")) digest = true.
Proof.
  induction digest as [|a s IH]; [done|]. cbn. intros [Ha Hs]%andb_true_iff. rewrite IH by done. rewrite andb_true_r.
  apply negb_true_iff, not_true_iff_false. intros ->%Ascii.eqb_eq. done.
Qed.

(** An address that matches the pattern of the query is split at that slash. *)
Lemma reserved_sql_split d : d_tag_reserved_sql d = true -> exists repo slug, rsplit_once "/" d = Some (repo, slug) /\ wiki_slug slug = true.
Proof.
  induction d as [|a d IH]; [done|]. cbn [d_tag_reserved_sql rsplit_once]. rewrite orb_true_iff. intros [Hhere|Hlater].
  - assert (exists slug, String a d = String "/" slug /\ wiki_slug slug = true /\ all_chars (fun b => negb (Ascii.eqb b "/")) slug = true)
      as (slug & [= -> ->] & Hslug & Hno).
    { apply existsb_exists in Hhere as (prefix & Hp & Hd). destruct Hp as [<-|[<-|[]]];
      (destruct (strip_prefix _ (String a d)) as [digest|] eqn:Es; [|done]);
      apply strip_prefix_Some in Es; cbn in Hd; pose proof Hd as Hd'; apply andb_true_iff in Hd' as [_ Hx]; eexists; (split; [exact Es|]);
      (split; [unfold wiki_slug; cbn; fold (wiki_digest digest) in Hd; rewrite Hd; by rewrite ?orb_true_r|by cbn; apply lower_hex_no_slash]). }
    rewrite rsplit_once_none by done. rewrite Ascii.eqb_refl. eauto.
  - destruct (IH Hlater) as (repo & slug & -> & Hs). eauto.
Qed.
Lemma reserved_sql_rust d : d_tag_reserved_sql d = true -> is_reserved_wiki_d_tag d = true.
Proof. intros (repo & slug & Hsplit & Hslug)%reserved_sql_split. unfold is_reserved_wiki_d_tag. by rewrite Hsplit. Qed.

Lemma reserved_sql_suffix repo d : d_tag_reserved_sql d = true -> d_tag_reserved_sql (repo +:+ d) = true.
Proof. intros Hd. induction repo as [|a repo IH]; [done|]. apply orb_true_iff. right. exact IH. Qed.

(** The pattern of the queries and the test of the code agree. *)
Lemma reserved_agree d : d_tag_reserved_sql d = is_reserved_wiki_d_tag d.
Proof.
  apply eq_true_iff_eq. split; [apply reserved_sql_rust|]. unfold is_reserved_wiki_d_tag.
  destruct (rsplit_once "/" d) as [[repo slug]|] eqn:Es; [|done]. apply rsplit_once_some in Es as ->. intros Hslug.
  apply reserved_sql_suffix. cbn [d_tag_reserved_sql]. apply orb_true_iff. left. exact Hslug.
Qed.

(** Documented behaviour: both lengths are of the same JSONB text. *)
Class WikiLaws `{NostrLib, HexLib, ReadLib, StoreLib, WikiLib} : Prop := {
  envelope_len_pos : forall r, (0 <= row_envelope_len r)%Z;
  envelope_len_row : forall now c e d ch,
    (ev_created_at e < 2 ^ 63)%N ->
    row_envelope_len (d_row now c e d ch (Z.of_N (ev_created_at e))) = event_envelope_len e;
}.

Section wiki.
Context `{NostrLib, HexLib, ReadLib, StoreLib, WikiLib, !ReadLaws, !StoreLaws, laws : !WikiLaws}.
Context (by_d : Z -> bool) (wiki_by_d : by_d (Z.of_N KIND_REPO_WIKI_PAGE) = true).

Definition owned (c : CommunityId) (pk : string) (r : EventRow) : bool :=
  bool_decide (er_community_id r = c) && Z.eqb (er_kind r) (Z.of_N KIND_REPO_WIKI_PAGE) && bool_decide (er_pubkey r = pk) &&
  bool_decide (er_deleted_at r = None) && is_some_and (er_d_tag r) d_tag_reserved_sql.
Lemma owned_live c pk : live_only (owned c pk).
Proof. intros r. unfold owned. rewrite !andb_true_iff, !bool_decide_eq_true. tauto. Qed.

(** A live page of a reserved address survives every write. *)
Lemma page_kept ok now db c e target db' b r :
  (forall k, kinded by_d k -> (length (List.filter (live_at k) (rows_of db)) <= 1)%nat) -> kinded by_d (coordinate c e target) ->
  apply_replace ok now db c e target = Ok (db', b) -> r ∈ rows_of db -> row_reserved r = true -> r ∈ rows_of db'.
Proof.
  intros Hone Hk Ha Hr Hres. apply apply_replace_effect in Ha as (t & _ & [(-> & _)|(_ & Hins)]); [done|].
  destruct (live_at (coordinate c e target) r) eqn:El; [|by apply (sw_kept _ _ _ _ _ (in_swapped _ _ _ _ _ _ _ Hins))].
  assert (head_row (live_at (coordinate c e target)) (rows_of db) = Some r) as Hh.
  { apply head_row_single. specialize (Hone _ Hk). assert (r ∈ List.filter (live_at (coordinate c e target)) (rows_of db)) as Hin
      by by apply elem_of_filter_bool.
    destruct (List.filter _ _) as [|x [|y l]]; cbn in Hone; [by apply elem_of_nil in Hin| |lia]. by apply list_elem_of_singleton in Hin as ->. }
  pose proof Hres as Hres'. unfold row_reserved in Hres'. apply andb_true_iff in Hres' as [Hkind%Z.eqb_eq _].
  destruct target as [d ch pre|ch]; cbn in El, Hk.
  - apply live_at_d_spec in El as (_ & Hke & _). rewrite Hkind in Hke. apply N2Z.inj in Hke. symmetry in Hke.
    pose proof (ad_immutable _ _ _ _ _ _ (in_admissible _ _ _ _ _ _ _ Hins _ _ _ eq_refl) r Hke Hh). congruence.
  - apply live_at_channel_spec in El as (_ & Hke & _). rewrite Hkind in Hke. rewrite <- Hke in Hk. congruence.
Qed.

(** ** The quota *)

Definition within_quota (rows : list EventRow) : Prop :=
  (Z.of_nat (length rows) <= MAX_WIKI_LIVE_EVENTS)%Z /\ (wiki_bytes rows <= MAX_WIKI_LIVE_BYTES)%Z.

Lemma wiki_bytes_app l l' : wiki_bytes (l ++ l') = (wiki_bytes l + wiki_bytes l')%Z.
Proof. unfold wiki_bytes. induction l as [|r l IH]; [done|]. cbn. rewrite IH. lia. Qed.
Lemma wiki_bytes_pos l : (0 <= wiki_bytes l)%Z.
Proof. unfold wiki_bytes. induction l as [|r l IH]; [done|]. cbn. pose proof (envelope_len_pos r). lia. Qed.
Lemma quota_fewer p q rows : within_quota (List.filter p rows) -> within_quota (List.filter (fun r => p r && q r) rows).
Proof.
  intros [Hn Hb]. pose proof (filter_and_length p q rows) as Hlen. split; [lia|]. etransitivity; [|exact Hb]. clear -laws.
  unfold wiki_bytes. induction rows as [|r rows IH]; [done|]. cbn. pose proof (envelope_len_pos r).
  destruct (p r); cbn; [destruct (q r); cbn|]; lia.
Qed.
Lemma saturated_sum b n :
  (0 <= b <= MAX_WIKI_LIVE_BYTES)%Z -> (saturate_i64 (saturate_i64 b + n) <= MAX_WIKI_LIVE_BYTES)%Z -> (b + n <= MAX_WIKI_LIVE_BYTES)%Z.
Proof. unfold saturate_i64, MAX_WIKI_LIVE_BYTES. lia. Qed.

Definition dated_op (op : ReplaceOp) : Prop :=
  match op with OpReplace _ _ _ e _ => (ev_created_at e < 2 ^ 63)%N | OpSoftDelete _ _ _ => True end.

Lemma quota_inserted now db c e target t db' c0 pk :
  (ev_created_at e < 2 ^ 63)%N -> from_timestamp (as_i64_wrapped (ev_created_at e)) = Some t -> kinded by_d (coordinate c e target) ->
  insertion now db c e target t db' -> within_quota (List.filter (owned c0 pk) (rows_of db)) ->
  within_quota (List.filter (owned c0 pk) (rows_of db')).
Proof.
  intros Hdate Ht%from_timestamp_secs Hk Hins Hq. rewrite (sw_live _ _ _ _ _ (in_swapped _ _ _ _ _ _ _ Hins)) by apply owned_live.
  set (row := target_row now c e target t). destruct (owned c0 pk row) eqn:Eo; [|rewrite app_nil_r; by apply quota_fewer].
  unfold owned in Eo. rewrite !andb_true_iff, !bool_decide_eq_true, Z.eqb_eq in Eo. destruct Eo as [[[[Hc Hkind] Hpk] _] Hd].
  destruct target as [d ch pre|ch]; cbn in Hc, Hpk, Hd, Hk; cbn [row target_row d_row channel_row er_kind] in Hkind;
    [|rewrite Hkind, wiki_by_d in Hk; done].
  apply N2Z.inj in Hkind. apply reserved_sql_rust in Hd. subst c0 pk.
  destruct (ad_quota _ _ _ _ _ _ (in_admissible _ _ _ _ _ _ _ Hins _ _ _ eq_refl) Hkind Hd) as (Hnone & Hn & Hb).
  apply head_row_none in Hnone. rewrite <- (filter_none _ _ (owned c (rd_pk_bytes (ev_pubkey e))) Hnone).
  rewrite Hkind in Hn, Hb. destruct Hq as [_ Hq]. unfold within_quota. rewrite length_app, wiki_bytes_app. split; [cbn; unfold wiki_live in Hn; unfold rows_of; fold (owned c (rd_pk_bytes (ev_pubkey e))) in Hn; lia|].
  cbn [coordinate]. replace (wiki_bytes [row]) with (event_envelope_len e); [apply saturated_sum; [split; [apply wiki_bytes_pos|exact Hq]|exact Hb]|].
  unfold wiki_bytes. cbn. rewrite Z.add_0_r. subst row t. cbn [target_row]. rewrite as_i64_small by done. symmetry. by apply envelope_len_row.
Qed.

Lemma quota_run ops c pk :
  (forall op, op ∈ ops -> routed_op by_d op /\ dated_op op) -> within_quota (List.filter (owned c pk) (rows_of (run_replace ops).1)).
Proof.
  intros Hops. apply (run_replace_inv (fun db _ => within_quota (List.filter (owned c pk) (rows_of db)))); [by split|].
  intros db acks op Hop Hq. destruct (Hops op Hop) as [Hroute Hdate]. destruct op as [ok now c' e target|now c' id]; cbn [replace_step fst].
  - destruct (apply_replace ok now db c' e target) as [[db' b]|] eqn:Ea; [|done]. cbn [fst].
    apply apply_replace_effect in Ea as (t & Et & [(-> & _)|(_ & Hins)]); [done|]. by eapply quota_inserted.
  - destruct (soft_delete_filter now (rp_events db) c' id (owned c pk)) as [q Eq]; [apply owned_live|].
    unfold rows_of. cbn [rp_events]. rewrite Eq. by apply quota_fewer.
Qed.

(** C28: Wiki pages under their reserved addresses are published once and stay.
    In any history of replaceable writes and deletions no write replaces or
    changes a live page, only a deletion retires it, and the live pages of each
    owner are never more than 4096 and never larger than 512 MiB together; the
    saturating sums of the admission test hide no overflow, and its pattern and
    the one of the queries accept the same addresses. *)
Theorem wiki_pages_bounded (ops : list ReplaceOp) :
  (forall op, op ∈ ops -> routed_op by_d op /\ dated_op op) ->
  let db := (run_replace ops).1 in
  (forall r ok now c e target db' b, r ∈ rows_of db -> row_reserved r = true -> kinded by_d (coordinate c e target) ->
     apply_replace ok now db c e target = Ok (db', b) -> r ∈ rows_of db') /\
  (forall c pk, let live := wiki_live (rows_of db) c (Z.of_N KIND_REPO_WIKI_PAGE) pk in
     (Z.of_nat (length live) <= MAX_WIKI_LIVE_EVENTS)%Z /\ (wiki_bytes live <= MAX_WIKI_LIVE_BYTES)%Z) /\
  forall d, d_tag_reserved_sql d = is_reserved_wiki_d_tag d.
Proof.
  intros Hops db. split; [|split; [|apply reserved_agree]].
  - intros r ok now c e target db' b Hr Hres Hk Ha. eapply page_kept; [|done..]. apply run_single_live. intros op Hop. by apply Hops.
  - intros c pk. by apply quota_run.
Qed.
End wiki.

(** * Replaceable writes at concrete inputs: two versions of a profile setting in
    either order and with a tie, a read state whose row is deleted, and a Wiki
    page that a second write cannot replace. *)

From S2P Require Import ReadWitness.

Module SampleReplace.
Import SampleHex SampleRead.

#[export] Instance envelopes : WikiLib := {|
  signed_json_len e := Z.of_nat (String.length (ev_content e));
  row_envelope_len r := Z.of_nat (String.length (er_content r));
  event_envelope_len e := Z.of_nat (String.length (ev_content e));
|}.
#[export] Instance envelopes_laws : WikiLaws.
Proof. split; [intros r; apply Nat2Z.is_nonneg|done]. Qed.

Definition by_d (kind : Z) : bool := (30000 <=? kind)%Z && (kind <? 40000)%Z.

Definition all_ok (_ : ReplaceStmt) : bool := true.
Definition no_commit (s : ReplaceStmt) : bool := match s with StCommit => false | _ => true end.

Definition setting (id t : N) (text : string) : Event := mkEvent id reader t 30500 [["d"; "theme"]] text.
Definition profile (id t : N) (text : string) : Event := mkEvent id reader t 10002 [] text.
Definition put (ok : ReplaceStmt -> bool) (e : Event) : ReplaceOp := OpReplace ok 500 community e (ByD "theme" None Unconditional).
Definition put_profile (e : Event) : ReplaceOp := OpReplace all_ok 500 community e (ByChannel None).

(** The newest first, then an older one, a tie with a smaller id, a repeat and a
    failed commit. *)
Definition settings : list ReplaceOp :=
  [put all_ok (setting 7 60 "dark"); put all_ok (setting 8 50 "light"); put all_ok (setting 5 60 "blue");
   put all_ok (setting 7 60 "dark"); put no_commit (setting 9 90 "lost"); put_profile (profile 20 10 "a"); put_profile (profile 21 11 "b")].
Definition theme : Coordinate := d_coordinate community (setting 7 60 "dark") "theme".

Lemma settings_plain op : op ∈ settings -> plain_op by_d op.
Proof. intros Hin. each_in Hin; subst op; by split. Qed.
Lemma settings_same op op' : op ∈ settings -> op' ∈ settings -> same_op op op'.
Proof. intros H1 H2. each_in H1; subst op; each_in H2; subst op'; cbn; intros _ E; try (by split); exfalso; discriminate E. Qed.
Lemma settings_dated op : op ∈ settings -> routed_op by_d op /\ dated_op op.
Proof. intros Hin. each_in Hin; subst op; by split. Qed.

Lemma one_live_version_witness :
  (length (List.filter (live_at theme) (rows_of (run_replace settings).1)) <= 1)%nat /\
  length (List.filter (live_at theme) (rows_of (run_replace settings).1)) = 1.
Proof.
  split; [|vm_compute; reflexivity].
  apply (one_live_version by_d settings (fun op Hop => proj1 (settings_plain op Hop))). vm_compute. reflexivity.
Defined.

Lemma replaceable_converges_witness :
  stamp <$> head_row (live_at theme) (rows_of (run_replace settings).1) = last_writer (written theme (run_replace settings).2) /\
  last_writer (written theme (run_replace settings).2) = Some (60%Z, padded 5) /\
  length (written theme (run_replace settings).2) = 4.
Proof.
  split; [|vm_compute; done].
  pose proof (replaceable_converges by_d settings theme settings_plain settings_same eq_refl) as Hc.
  destruct (run_replace settings) as [db acks]. exact (proj1 Hc).
Defined.

(** Read states: an older one after the deletion of the newer one is refused. *)
Definition slot : string := "read-state:0123456789abcdef0123456789abcdef".
Definition read_state (id t : N) : Event := mkEvent id reader t KIND_READ_STATE [["d"; slot]; ["t"; "read-state"]] "{}".
Definition mark (e : Event) : ReplaceOp := OpReplace all_ok 500 community e (ByD slot None Unconditional).
Definition marks : list ReplaceOp :=
  [mark (read_state 31 100); mark (read_state 32 120); OpSoftDelete 510 community (rd_id_bytes 32); mark (read_state 33 110);
   mark (read_state 34 130)]%N.
Definition mark_key : CommunityId * Z * string * string := (community, 30078%Z, padded reader, slot).

Lemma read_state_never_rolls_back_witness :
  rp_watermarks (run_replace marks).1 !! mark_key = last (read_states mark_key (run_replace marks).2) /\
  read_states mark_key (run_replace marks).2 = [(100%Z, padded 31); (120%Z, padded 32); (130%Z, padded 34)].
Proof.
  split; [|vm_compute; reflexivity].
  pose proof (read_state_never_rolls_back marks mark_key) as Hr. destruct (run_replace marks) as [db acks]. exact (proj2 Hr).
Defined.

(** A page, and a second one at its address. *)
Definition page_d : string := "repo/p1-0123456789abcdef0123456789abcdef0123456789abcdef0123456789abcdef".
Definition page (id t : N) (text : string) : Event := mkEvent id reader t KIND_REPO_WIKI_PAGE [["d"; page_d]; ["wiki-version"; "1"]] text.
Definition publish (e : Event) (pre : ParameterizedReplacePrecondition) : ReplaceOp := OpReplace all_ok 500 community e (ByD page_d None pre).
Definition pages : list ReplaceOp :=
  [publish (page 41 10 "first") ExpectedMissing; publish (page 42 20 "second") (ExpectedRevision (rd_id_bytes 41))]%N.

Lemma pages_dated op : op ∈ pages -> routed_op by_d op /\ dated_op op.
Proof. intros Hin. each_in Hin; subst op; by split. Qed.

Lemma wiki_pages_bounded_witness :
  (wiki_bytes (wiki_live (rows_of (run_replace pages).1) community (Z.of_N KIND_REPO_WIKI_PAGE) (rd_pk_bytes reader)) <= MAX_WIKI_LIVE_BYTES)%Z /\
  (er_content <$> wiki_live (rows_of (run_replace pages).1) community (Z.of_N KIND_REPO_WIKI_PAGE) (rd_pk_bytes reader)) = ["first"].
Proof.
  split; [|vm_compute; reflexivity].
  apply (wiki_pages_bounded by_d eq_refl pages pages_dated).
Defined.
End SampleReplace.
