(* ===== verification/Workflow.v ===== *)
(** Workflow definitions and templates, buzz-workflow/src/schema.rs and the
    first half of executor.rs: validation, durations, cron fields, the trigger
    context, template substitution and conditions.  YAML, cron and expression
    evaluation are the crates' and parameters. *)

From S2P Require Import Prelude Nostr Filter JsonValue RustStr.

#[local] Set Warnings "-register-all".

(** ** Definitions *)

Inductive WorkflowError :=
| InvalidYaml (e : string)
| InvalidDefinition (e : string)
| ConditionError (e : string)
| TemplateError (e : string)
| StepTimeout (step_id : string) (timeout_secs : N)
| WebhookError (e : string)
| CapacityExceeded
| Database (e : string)
| Unauthorized (e : string)
| NotImplemented (e : string).
#[export] Instance workflow_error_eq_dec : EqDecision WorkflowError.
Proof. solve_decision. Defined.

Definition WorkflowError_code (e : WorkflowError) : string :=
  match e with
  | InvalidYaml _ => "invalid_yaml"
  | InvalidDefinition _ => "invalid_definition"
  | ConditionError _ => "condition_evaluation_failed"
  | TemplateError _ => "template_resolution_failed"
  | StepTimeout _ _ => "step_timeout"
  | WebhookError _ => "webhook_failed"
  | CapacityExceeded => "capacity_exceeded"
  | Database _ => "database_error"
  | Unauthorized _ => "owner_unauthorized"
  | NotImplemented _ => "action_not_implemented"
  end.

(** The [Display] of an error. *)
Definition WorkflowError_text (e : WorkflowError) : string :=
  match e with
  | InvalidYaml e => "invalid YAML: " +:+ e
  | InvalidDefinition e => "invalid definition: " +:+ e
  | ConditionError e => "condition evaluation error: " +:+ e
  | TemplateError e => "template error: " +:+ e
  | StepTimeout id t => "step '" +:+ id +:+ "' timed out after " +:+ to_decimal t +:+ "s"
  | WebhookError e => "webhook error: " +:+ e
  | CapacityExceeded => "capacity exceeded"
  | Database e => "database error: " +:+ e
  | Unauthorized e => "unauthorized: " +:+ e
  | NotImplemented e => "action not implemented: " +:+ e
  end.

Inductive TriggerDef :=
| MessagePosted (filter : option string)
| ReactionAdded (emoji filter : option string)
| DiffPosted (filter : option string)
| Schedule (cron interval : option string)
| Webhook.

Inductive ActionDef :=
| SendMessage (text : string) (channel : option string) (reply_in_thread : bool)
| SendDm (to_ text : string)
| SetChannelTopic (topic : string)
| AddReaction (emoji : string)
| CallWebhook (url : string) (method : option string) (headers : option (list (string * string))) (body : option string)
| RequestApproval (from message : string) (timeout : option string)
| Delay (duration : string).
#[export] Instance action_eq_dec : EqDecision ActionDef.
Proof. solve_decision. Defined.

Record Step := mkStep {
  st_id : string;
  st_name : option string;
  st_if_expr : option string;
  st_timeout_secs : option N;
  st_action : ActionDef;
}.

Record WorkflowDef := mkWorkflowDef {
  wd_name : string;
  wd_description : option string;
  wd_trigger : TriggerDef;
  wd_steps : list Step;
  wd_enabled : bool;
}.

(** [serde_yaml] and [serde_json] on definitions, and the [cron] crate:
    [cron_after] is [Schedule::after(t).next()], from nanoseconds to the seconds
    of the instant. *)
Class DefLib := {
  yaml_parse : string -> result WorkflowDef string;
  def_json : WorkflowDef -> result string string;
  def_of_json : Json -> result WorkflowDef string;
  CronSchedule : Type;
  cron_parse : string -> result CronSchedule string;
  cron_after : CronSchedule -> Z -> option Z;
}.

(** ** Validation *)

Definition is_ascii_alphanumeric (c : ascii) : bool := is_ascii_digit c || byte_in 65 90 c || byte_in 97 122 c.
Definition valid_step_id (id : string) : bool :=
  negb (bool_decide (id = "")) && (String.length id <=? 64)%nat &&
  all_chars (fun c => is_ascii_alphanumeric c || Ascii.eqb c "_") id.

Definition requires_elevated_authority (def : WorkflowDef) : bool :=
  existsb (fun s => match st_action s with CallWebhook _ _ _ _ => true | _ => false end) (wd_steps def).

(** [expr.split_whitespace().count()]. *)
Fixpoint field_count (in_word : bool) (s : string) : nat :=
  let word rest := if in_word then field_count true rest else S (field_count true rest) in
  match s with
  | EmptyString => O
  | String a s1 =>
      if space1 a then field_count false s1
      else
        match s1 with
        | EmptyString => word s1
        | String b s2 =>
            if space2 a b then field_count false s2
            else
              match s2 with
              | EmptyString => word s1
              | String c s3 => if space3 a b c then field_count false s3 else word s1
              end
        end
  end.

Definition normalize_cron (expr : string) : string :=
  match field_count false expr with
  | 5 => "0 " +:+ expr +:+ " *"
  | 6 => expr +:+ " *"
  | _ => expr
  end.

(** [n.trim().parse::<u64>()] and [checked_mul]. *)
Definition parse_units (duration n : string) (unit_secs : N) : result N WorkflowError :=
  let? v := ok_or (parse_u64 (trim n)) (InvalidDefinition ("invalid duration: " +:+ duration)) in
  if (v * unit_secs <? 2 ^ 64)%N then Ok (v * unit_secs)%N else Err (InvalidDefinition ("duration overflow: " +:+ duration)).

Definition parse_duration_secs (duration : string) : result N WorkflowError :=
  let duration := trim duration in
  match strip_suffix "h" duration with
  | Some n => parse_units duration n 3600
  | None =>
      match strip_suffix "m" duration with
      | Some n => parse_units duration n 60
      | None =>
          match strip_suffix "s" duration with
          | Some n => parse_units duration n 1
          | None => ok_or (parse_u64 duration) (InvalidDefinition ("invalid duration: " +:+ duration))
          end
      end
  end.

Section validate.
Context `{DefLib}.

Definition validate_cron (expr : string) : result unit WorkflowError :=
  match cron_parse (normalize_cron expr) with
  | Ok _ => Ok tt
  | Err e => Err (InvalidDefinition ("invalid cron expression '" +:+ expr +:+ "': " +:+ e))
  end.

(** The loop over the step ids. *)
Fixpoint check_ids (seen : list string) (steps : list Step) : result unit WorkflowError :=
  match steps with
  | [] => Ok tt
  | step :: rest =>
      if bool_decide (trim (st_id step) = "") then Err (InvalidDefinition "step id must not be empty")
      else if negb (valid_step_id (st_id step)) then
        Err (InvalidDefinition ("step id '" +:+ st_id step +:+ "' is invalid: must contain only alphanumeric characters and underscores"))
      else if bool_decide (st_id step ∈ seen) then Err (InvalidDefinition ("duplicate step id: " +:+ st_id step))
      else check_ids (seen ++ [st_id step]) rest
  end.

Definition replies_in_thread (s : Step) : bool := match st_action s with SendMessage _ _ b => b | _ => false end.
Definition trigger_has_message (t : TriggerDef) : bool :=
  match t with MessagePosted _ | ReactionAdded _ _ | DiffPosted _ => true | Schedule _ _ | Webhook => false end.

Definition validate_interval (dur : string) : result unit WorkflowError :=
  match parse_duration_secs dur with
  | Err _ => Err (InvalidDefinition ("invalid interval '" +:+ dur +:+ "': expected a duration like '30m', '1h', or '60s'"))
  | Ok secs =>
      if (secs <? 60)%N then Err (InvalidDefinition "interval must be at least 60s (cron loop ticks every 60 seconds)") else Ok tt
  end.

Definition validate_schedule (cron interval : option string) : result unit WorkflowError :=
  match cron, interval with
  | None, None => Err (InvalidDefinition "schedule trigger requires either 'cron' or 'interval'")
  | Some _, Some _ => Err (InvalidDefinition "schedule trigger cannot specify both 'cron' and 'interval'; use one or the other")
  | Some expr, None => validate_cron expr
  | None, Some dur => validate_interval dur
  end.

Definition validate_def (def : WorkflowDef) : result unit WorkflowError :=
  if bool_decide (trim (wd_name def) = "") then Err (InvalidDefinition "name is required and must not be empty")
  else if bool_decide (wd_steps def = []) then Err (InvalidDefinition "at least one step is required")
  else
    let? _ := check_ids [] (wd_steps def) in
    match (if trigger_has_message (wd_trigger def) then None else List.find replies_in_thread (wd_steps def)) with
    | Some step =>
        Err (InvalidDefinition ("step '" +:+ st_id step +:+ "': reply_in_thread requires a message-based trigger (message_posted, reaction_added, or diff_posted); schedule and webhook triggers have no message to reply to"))
    | None =>
        match wd_trigger def with
        | Schedule cron interval => validate_schedule cron interval
        | _ => Ok tt
        end
    end.

Definition parse_yaml (yaml : string) : result (WorkflowDef * string) WorkflowError :=
  match yaml_parse yaml with
  | Err e => Err (InvalidYaml e)
  | Ok def =>
      let? _ := validate_def def in
      match def_json def with
      | Err e => Err (InvalidDefinition e)
      | Ok json => Ok (def, json)
      end
  end.
End validate.

(** ** Templates *)

Record TriggerContext := mkTriggerContext {
  tc_text : string;
  tc_author : string;
  tc_channel_id : string;
  tc_timestamp : string;
  tc_emoji : string;
  tc_message_id : string;
  tc_is_reply : bool;
  tc_webhook_fields : gmap string string;
}.

Definition get_field (ctx : TriggerContext) (name : string) : option string :=
  if bool_decide (name = "text") then Some (tc_text ctx)
  else if bool_decide (name = "author") then Some (tc_author ctx)
  else if bool_decide (name = "channel_id") then Some (tc_channel_id ctx)
  else if bool_decide (name = "timestamp") then Some (tc_timestamp ctx)
  else if bool_decide (name = "emoji") then Some (tc_emoji ctx)
  else if bool_decide (name = "message_id") then Some (tc_message_id ctx)
  else tc_webhook_fields ctx !! name.

(** The printer of [serde_json] for arrays and objects, and the [npub] of a
    hexadecimal key, [None] when the text is no key. *)
Class TemplateLib := {
  json_text : Json -> string;
  hex_npub : string -> option string;
}.

(** [s.find(p)]: what comes before the first occurrence, and after it. *)
Fixpoint find_sub (p s : string) : option (string * string) :=
  match strip_prefix p s with
  | Some rest => Some (EmptyString, rest)
  | None =>
      match s with
      | EmptyString => None
      | String a s => match find_sub p s with Some (l, r) => Some (String a l, r) | None => None end
      end
  end.

Section template.
Context `{TemplateLib}.

Definition json_to_string (v : Json) : string :=
  match v with
  | JString s => s
  | JBool b => if b then "true" else "false"
  | JNumber n => n
  | JNull => ""
  | other => json_text other
  end.
Definition json_get_str (value : Json) (key : string) : option string :=
  match value with JObject map => json_to_string <$> obj_get key map | _ => None end.

Definition resolve_variable (path : string) (ctx : TriggerContext) (step_outputs : gmap string Json) : option string :=
  match strip_prefix "trigger." path with
  | Some field => get_field ctx field
  | None =>
      match strip_prefix "steps." path with
      | Some rest =>
          match split_once "." rest with
          | Some (step_id, rest) =>
              match split_once "." rest with
              | Some (middle, field) =>
                  if negb (bool_decide (middle = "output")) then None
                  else output ← step_outputs !! step_id; json_get_str output field
              | None => None
              end
          | None => None
          end
      | None => None
      end
  end.

Definition apply_filter (value filter : string) : result string WorkflowError :=
  let filter := trim filter in
  let truncate := inner ← strip_prefix "truncate(" filter; strip_suffix ")" inner in
  match truncate with
  | Some inner =>
      let? n := ok_or (parse_u64 (trim inner)) (TemplateError ("truncate() requires a number, got: " +:+ inner)) in
      Ok (take_chars (N.to_nat n) value)
  | None =>
      if bool_decide (filter = "npub") || bool_decide (filter = "truncate_pubkey") then Ok (default value (hex_npub value))
      else Err (TemplateError ("unknown filter: " +:+ filter))
  end.

(** What [{{expr}}] is replaced by. *)
Definition resolve_expr (ctx : TriggerContext) (outputs : gmap string Json) (expr : string) : result string WorkflowError :=
  let '(var_path, filter) :=
    match split_once "|" expr with Some (v, f) => (trim v, Some (trim f)) | None => (trim expr, None) end in
  match resolve_variable var_path ctx outputs, filter with
  | Some v, Some f => apply_filter v f
  | Some v, None => Ok v
  | None, _ => Ok ("{{" +:+ expr +:+ "}}")
  end.

(** The loop of the substitution; every round shortens what remains. *)
Fixpoint resolve_loop (fuel : nat) (ctx : TriggerContext) (outputs : gmap string Json) (result_ remaining : string)
  : result string WorkflowError :=
  match fuel with
  | O => Ok result_
  | S fuel =>
      match find_sub "{{" remaining with
      | None => Ok (result_ +:+ remaining)
      | Some (before, remaining) =>
          let result_ := result_ +:+ before in
          match find_sub "}}" remaining with
          | None => Ok (result_ +:+ "{{" +:+ remaining)
          | Some (inner, remaining) =>
              let? value := resolve_expr ctx outputs (trim inner) in
              resolve_loop fuel ctx outputs (result_ +:+ value) remaining
          end
      end
  end.

Definition resolve_template (template : string) (ctx : TriggerContext) (outputs : gmap string Json)
  : result string WorkflowError :=
  if negb (contains_str "{{" template) then Ok template
  else resolve_loop (S (String.length template)) ctx outputs "" template.

Fixpoint resolve_headers (t : string -> result string WorkflowError) (headers : list (string * string))
  : result (list (string * string)) WorkflowError :=
  match headers with
  | [] => Ok []
  | (k, v) :: rest => let? v := t v in let? rest := resolve_headers t rest in Ok ((k, v) :: rest)
  end.

Definition resolve_step_templates (step : Step) (ctx : TriggerContext) (outputs : gmap string Json)
  : result ActionDef WorkflowError :=
  let t s := resolve_template s ctx outputs in
  let t_opt o := match o with Some v => let? v := t v in Ok (Some v) | None => Ok None end in
  match st_action step with
  | SendMessage text channel reply =>
      let? text := t text in let? channel := t_opt channel in Ok (SendMessage text channel reply)
  | SendDm to_ text => let? to_ := t to_ in let? text := t text in Ok (SendDm to_ text)
  | SetChannelTopic topic => let? topic := t topic in Ok (SetChannelTopic topic)
  | AddReaction emoji => let? emoji := t emoji in Ok (AddReaction emoji)
  | CallWebhook url method headers body =>
      let? headers := match headers with Some h => let? h := resolve_headers t h in Ok (Some h) | None => Ok None end in
      let? url := t url in let? body := t_opt body in Ok (CallWebhook url method headers body)
  | RequestApproval from message timeout =>
      let? from := t from in let? message := t message in Ok (RequestApproval from message timeout)
  | Delay duration => Ok (Delay duration)
  end.
End template.

(** ** Conditions *)

(** [evalexpr::Value]; a float is kept as the text of its number. *)
Inductive EvalValue :=
| EvString (s : string)
| EvBoolean (b : bool)
| EvInt (i : Z)
| EvFloat (text : string)
| EvTuple (items : list EvalValue)
| EvEmpty.

(** [as_fixed_len_tuple(2)] and [as_string]. *)
Definition as_pair (v : EvalValue) : result (EvalValue * EvalValue) string :=
  match v with EvTuple [a; b] => Ok (a, b) | _ => Err "expected a tuple of length 2" end.
Definition as_string (v : EvalValue) : result string string :=
  match v with EvString s => Ok s | _ => Err "expected a string" end.

Definition string_pair (f : string -> string -> bool) (args : EvalValue) : result EvalValue string :=
  let? ab := as_pair args in
  let? a := as_string ab.1 in
  let? b := as_string ab.2 in
  Ok (EvBoolean (f a b)).

(** The crate's contexts and evaluator, and the order a hash map is walked in. *)
Class EvalLib := {
  EvalContext : Type;
  eval_new : EvalContext;
  eval_set_function : EvalContext -> string -> (EvalValue -> result EvalValue string) -> result EvalContext string;
  eval_set_value : EvalContext -> string -> EvalValue -> result EvalContext string;
  eval_boolean : string -> EvalContext -> result bool string;
  hash_iter : forall {V : Type}, gmap string V -> list (string * V);
}.

Definition json_value_to_eval `{TemplateLib} (v : Json) : EvalValue :=
  match v with
  | JString s => EvString s
  | JBool b => EvBoolean b
  | JNumber n => match as_i64 v with Some i => EvInt i | None => EvFloat n end
  | JNull => EvEmpty
  | other => EvString (json_text other)
  end.

(** How the blocking task of an evaluation ended. *)
Inductive EvalEnd := EvalFinished | EvalTimedOut | EvalPanicked (e : string).

Definition MAX_EXPR_LEN : nat := 4096.
Definition EVAL_TIMEOUT_MS : N := 100.

Section conditions.
Context `{TemplateLib, EvalLib}.

Definition condition_error {A} (r : result A string) : result A WorkflowError :=
  match r with Ok a => Ok a | Err e => Err (ConditionError e) end.

Fixpoint set_functions (ctx : EvalContext) (fs : list (string * (EvalValue -> result EvalValue string)))
  : result EvalContext WorkflowError :=
  match fs with
  | [] => Ok ctx
  | (name, f) :: fs => let? ctx := condition_error (eval_set_function ctx name f) in set_functions ctx fs
  end.
Fixpoint set_values (ctx : EvalContext) (vs : list (string * EvalValue)) : result EvalContext WorkflowError :=
  match vs with
  | [] => Ok ctx
  | (name, v) :: vs => let? ctx := condition_error (eval_set_value ctx name v) in set_values ctx vs
  end.

Definition helper_functions : list (string * (EvalValue -> result EvalValue string)) :=
  [("str_contains", string_pair (fun haystack needle => contains_str needle haystack));
   ("str_starts_with", string_pair (fun s prefix => starts_with prefix s));
   ("str_ends_with", string_pair (fun s suffix => has_suffix suffix s));
   ("str_len", fun arg => let? s := as_string arg in Ok (EvInt (Z.of_nat (String.length s))))].

(** The webhook's fields, but for names that would hide other variables. *)
Definition webhook_variables (ctx : TriggerContext) : list (string * EvalValue) :=
  (fun '(key, v) => ("trigger_" +:+ key, EvString v)) <$>
  List.filter (fun kv => negb (starts_with "trigger_" kv.1 || starts_with "steps_" kv.1)) (hash_iter (tc_webhook_fields ctx)).
Definition trigger_variables (ctx : TriggerContext) : list (string * EvalValue) :=
  [("trigger_text", EvString (tc_text ctx)); ("trigger_author", EvString (tc_author ctx));
   ("trigger_channel_id", EvString (tc_channel_id ctx)); ("trigger_timestamp", EvString (tc_timestamp ctx));
   ("trigger_emoji", EvString (tc_emoji ctx)); ("trigger_message_id", EvString (tc_message_id ctx));
   ("trigger_is_reply", EvBoolean (tc_is_reply ctx))].
Definition step_variables (outputs : gmap string Json) : list (string * EvalValue) :=
  '(step_id, output) ← hash_iter outputs;
  match output with
  | JObject map => (fun '(field, v) => ("steps_" +:+ step_id +:+ "_output_" +:+ field, json_value_to_eval v)) <$> map
  | _ => []
  end.

Definition build_eval_context (ctx : TriggerContext) (outputs : gmap string Json) : result EvalContext WorkflowError :=
  let? c := set_functions eval_new helper_functions in
  let? c := set_values c (webhook_variables ctx) in
  let? c := set_values c (trigger_variables ctx) in
  set_values c (step_variables outputs).

Definition evaluate_condition (ended : EvalEnd) (expr : string) (ctx : TriggerContext) (outputs : gmap string Json)
  : result bool WorkflowError :=
  let? c := build_eval_context ctx outputs in
  if (MAX_EXPR_LEN <? String.length expr)%nat then
    Err (ConditionError ("condition expression exceeds " +:+ to_decimal (N.of_nat MAX_EXPR_LEN) +:+ " byte limit"))
  else
    match ended with
    | EvalTimedOut =>
        Err (ConditionError ("'" +:+ expr +:+ "': evaluation timed out after " +:+ to_decimal EVAL_TIMEOUT_MS +:+ "ms"))
    | EvalPanicked e => Err (ConditionError ("'" +:+ expr +:+ "': eval task panicked: " +:+ e))
    | EvalFinished =>
        match eval_boolean expr c with
        | Ok b => Ok b
        | Err e => Err (ConditionError ("'" +:+ expr +:+ "': " +:+ e))
        end
    end.
End conditions.
