(* ===== verification/WorkflowRun.v ===== *)
(** Running a workflow, the second half of buzz-workflow/src/executor.rs: the
    dispatch of one action, the steps in order, and what is recorded of a run.
    What a step awaits (the community's write fence, the tables, HTTP, DNS, the
    relay's action sink, timers) is an argument of it; what it does to the
    outside is its list of effects. *)

From S2P Require Import Prelude Nostr Filter JsonValue RustStr Workflow Auth ReadGate EventStore ReadReq Tenant.
From S2P Require Import Prelude Nostr Filter JsonValue RustStr Network Workflow Auth ReadGate EventStore ReadReq Tenant.

(** * The tables of the workflow engine, buzz-db/src/store/workflow.rs: the
    definitions, the runs and the claims of scheduled fires, with the
    membership the authority check reads.  Times are in seconds. *)

Inductive WorkflowStatus := WsActive | WsDisabled | WsArchived.
#[export] Instance workflow_status_eq_dec : EqDecision WorkflowStatus.
Proof. solve_decision. Defined.

Inductive RunStatus := RsPending | RsRunning | RsWaitingApproval | RsCompleted | RsFailed | RsCancelled.
#[export] Instance run_status_eq_dec : EqDecision RunStatus.
Proof. solve_decision. Defined.

Definition LIST_MAX_LIMIT : nat := 1000.

Record WorkflowRecord := mkWorkflowRecord {
  wr_id : Uuid;
  wr_community_id : CommunityId;
  wr_owner_pubkey : string;
  wr_channel_id : option Uuid;
  wr_definition : Json;
  wr_status : WorkflowStatus;
  wr_enabled : bool;
  wr_created_at : Z;
}.

Record WorkflowRunRecord := mkWorkflowRunRecord {
  rn_id : Uuid;
  rn_community_id : CommunityId;
  rn_workflow_id : Uuid;
  rn_status : RunStatus;
  rn_trigger_event_id : option string;
  rn_current_step : Z;
  rn_execution_trace : Json;
  rn_trigger_context : option TriggerContext;
  rn_started_at : option Z;
  rn_completed_at : option Z;
  rn_error_message : option string;
  rn_error_code : option string;
}.

(** A row of [scheduled_workflow_fires]. *)
Record FireRow := mkFireRow {
  fi_community_id : CommunityId;
  fi_workflow_id : Uuid;
  fi_scheduled_for : Z;
  fi_claimed_at : Z;
  fi_workflow_run_id : option Uuid;
}.

(** A row of [channel_members] with its role. *)
Record RoleRow := mkRoleRow {
  rl_community_id : CommunityId;
  rl_channel_id : Uuid;
  rl_pubkey : string;
  rl_role : string;
  rl_removed_at : option Z;
}.

Record WorkflowTables := mkWorkflowTables {
  wt_communities : list CommunityRow;
  wt_channels : list ChannelRow;
  wt_members : list RoleRow;
  wt_workflows : list WorkflowRecord;
  wt_runs : list WorkflowRunRecord;
  wt_fires : list FireRow;
}.

Definition set_runs (runs : list WorkflowRunRecord) (db : WorkflowTables) : WorkflowTables :=
  mkWorkflowTables (wt_communities db) (wt_channels db) (wt_members db) (wt_workflows db) runs (wt_fires db).
Definition set_fires (fires : list FireRow) (db : WorkflowTables) : WorkflowTables :=
  mkWorkflowTables (wt_communities db) (wt_channels db) (wt_members db) (wt_workflows db) (wt_runs db) fires.

(** ** Reads *)

Definition get_member_role (db : WorkflowTables) (c : CommunityId) (channel_id : Uuid) (pubkey : string) : option string :=
  rl_role <$> List.find (fun m =>
    bool_decide (rl_community_id m = c) && bool_decide (rl_channel_id m = channel_id) && bool_decide (rl_pubkey m = pubkey) &&
    bool_decide (rl_removed_at m = None) &&
    existsb (fun ch => bool_decide (chr_community_id ch = c) && bool_decide (chr_id ch = channel_id) &&
                       bool_decide (chr_deleted_at ch = None)) (wt_channels db)) (wt_members db).

Definition workflow_is (c : CommunityId) (id : Uuid) (w : WorkflowRecord) : bool :=
  bool_decide (wr_community_id w = c) && bool_decide (wr_id w = id).
Definition run_is (c : CommunityId) (id : Uuid) (r : WorkflowRunRecord) : bool :=
  bool_decide (rn_community_id r = c) && bool_decide (rn_id r = id).

Definition get_workflow (db : WorkflowTables) (c : CommunityId) (id : Uuid) : option WorkflowRecord :=
  List.find (workflow_is c id) (wt_workflows db).
Definition get_workflow_run (db : WorkflowTables) (c : CommunityId) (id : Uuid) : option WorkflowRunRecord :=
  List.find (run_is c id) (wt_runs db).

Definition wr_live (w : WorkflowRecord) : bool := bool_decide (wr_status w = WsActive) && wr_enabled w.

Definition list_enabled_channel_workflows (db : WorkflowTables) (c : CommunityId) (channel_id : Uuid) : list WorkflowRecord :=
  take LIST_MAX_LIMIT (sort_by (fun a b => (wr_created_at b <=? wr_created_at a)%Z)
    (List.filter (fun w => bool_decide (wr_community_id w = c) && bool_decide (wr_channel_id w = Some channel_id) && wr_live w)
       (wt_workflows db))).

(** [definition->'trigger'->>'on' = 'schedule']. *)
Definition schedule_trigger (definition : Json) : bool :=
  bool_decide ((trigger ← get "trigger" definition; on_ ← get "on" trigger; as_str on_) = Some "schedule").

Definition list_all_enabled_workflows (db : WorkflowTables) : list WorkflowRecord :=
  take LIST_MAX_LIMIT (sort_by (fun a b => (wr_created_at a <=? wr_created_at b)%Z)
    (List.filter (fun w => wr_live w && schedule_trigger (wr_definition w) &&
       existsb (fun c => bool_decide (cr_id c = wr_community_id w) && bool_decide (cr_archived_at c = None)) (wt_communities db))
       (wt_workflows db))).

(** ** Claims *)

Definition fire_is (c : CommunityId) (id : Uuid) (t : Z) (f : FireRow) : bool :=
  bool_decide (fi_community_id f = c) && bool_decide (fi_workflow_id f = id) && Z.eqb (fi_scheduled_for f) t.

(** [INSERT .. SELECT .. ON CONFLICT DO NOTHING RETURNING]: the new row of the
    winner. *)
Definition claim_scheduled_workflow_fire (now : Z) (db : WorkflowTables) (c : CommunityId) (id : Uuid) (t : Z)
  : WorkflowTables * option FireRow :=
  if existsb (workflow_is c id) (wt_workflows db) && negb (existsb (fire_is c id t) (wt_fires db)) then
    let row := mkFireRow c id t now None in
    (set_fires (wt_fires db ++ [row]) db, Some row)
  else (db, None).

Definition latest_scheduled_workflow_fire (db : WorkflowTables) (c : CommunityId) (id : Uuid) : option Z :=
  foldr (fun f best => Some (match best with Some b => Z.max (fi_scheduled_for f) b | None => fi_scheduled_for f end)) None
    (List.filter (fun f => bool_decide (fi_community_id f = c) && bool_decide (fi_workflow_id f = id)) (wt_fires db)).

Definition attach_scheduled_workflow_run (db : WorkflowTables) (c : CommunityId) (id : Uuid) (t : Z) (run : Uuid)
  : WorkflowTables * bool :=
  let hit f := fire_is c id t f && bool_decide (fi_workflow_run_id f = None) in
  (set_fires ((fun f => if hit f then mkFireRow (fi_community_id f) (fi_workflow_id f) (fi_scheduled_for f) (fi_claimed_at f) (Some run)
                        else f) <$> wt_fires db) db, existsb hit (wt_fires db)).

(** ** Runs *)

(** [id] is the random id drawn for the run; the keys are enforced. *)
Definition create_workflow_run (db : WorkflowTables) (id : Uuid) (c : CommunityId) (workflow_id : Uuid)
    (trigger_event_id : option string) (trigger_context : option TriggerContext) : result (WorkflowTables * Uuid) string :=
  if existsb (run_is c id) (wt_runs db) || negb (existsb (workflow_is c workflow_id) (wt_workflows db)) then
    Err "constraint violated"
  else
    Ok (set_runs (wt_runs db ++
          [mkWorkflowRunRecord id c workflow_id RsPending trigger_event_id 0 (JArray []) trigger_context None None None None]) db, id).

Definition ends (status : RunStatus) : bool := match status with RsCompleted | RsFailed | RsCancelled => true | _ => false end.

Definition updated_run (now : Z) (status : RunStatus) (step : Z) (trace : Json) (failure : option (string * string))
    (r : WorkflowRunRecord) : WorkflowRunRecord :=
  mkWorkflowRunRecord (rn_id r) (rn_community_id r) (rn_workflow_id r) status (rn_trigger_event_id r) step trace (rn_trigger_context r)
    (if bool_decide (status = RsRunning) && bool_decide (rn_started_at r = None) then Some now else rn_started_at r)
    (if ends status then Some now else rn_completed_at r) (snd <$> failure) (fst <$> failure).

Definition update_workflow_run (now : Z) (db : WorkflowTables) (c : CommunityId) (id : Uuid) (status : RunStatus) (step : Z)
    (trace : Json) (failure : option (string * string)) : result WorkflowTables string :=
  if existsb (run_is c id) (wt_runs db) then
    Ok (set_runs ((fun r => if run_is c id r then updated_run now status step trace failure r else r) <$> wt_runs db) db)
  else Err "not found".

(** ** Effects *)

Inductive ActionSinkError :=
| SinkInvalidInput (e : string)
| SinkChannelNotFound (e : string)
| SinkChannelArchived (e : string)
| SinkEventBuild (e : string)
| SinkDatabase (e : string)
| SinkEmptyContent.
Definition ActionSinkError_text (e : ActionSinkError) : string :=
  match e with
  | SinkInvalidInput e => "invalid input: " +:+ e
  | SinkChannelNotFound e => "channel not found: " +:+ e
  | SinkChannelArchived e => "channel is archived: " +:+ e
  | SinkEventBuild e => "event construction failed: " +:+ e
  | SinkDatabase e => "database error: " +:+ e
  | SinkEmptyContent => "empty message content"
  end.

Inductive Effect :=
| EfMessage (c : CommunityId) (channel_id text authored_text author_pubkey : string) (reply_to : option string)
| EfReaction (message_id emoji : string)
| EfWebhook (method url : string) (headers : option (list (string * string))) (body : option string) (host : string) (pinned : IpAddr) (port : N)
| EfSleep (secs : N).

Inductive StepResult :=
| Completed (output : Json)
| Suspended (approval_token : string)
| Skipped.

(** ** Webhooks *)

(** [reqwest]'s URLs and methods, [from_utf8_lossy], and the texts of addresses
    and status codes. *)
Class HttpLib := {
  url_parse : string -> result (option string * option N) string;
  method_parse : string -> result string string;
  utf8_lossy : string -> string;
  ip_text : IpAddr -> string;
  status_text : N -> string;
  json_parse : string -> option Json;
}.

(** What the network answers a webhook call: the addresses of the host, whether
    a client could be built, the status and the chunks of the body. *)
Record WebhookEnv := mkWebhookEnv {
  we_dns : result (list IpAddr) string;
  we_client : result unit string;
  we_response : result N string;
  we_chunks : list (result string string);
}.

Definition WEBHOOK_MAX_RESPONSE_BYTES : N := 1024 * 1024.
Definition MAX_DELAY_SECS : N := 270.

Section webhook.
Context `{HttpLib}.

Definition check_ssrf (env : WebhookEnv) (host : string) : result IpAddr WorkflowError :=
  match we_dns env with
  | Err e => Err (WebhookError ("DNS resolution failed: " +:+ e))
  | Ok [] => Err (WebhookError "DNS resolution returned no addresses")
  | Ok ((first :: _) as addrs) =>
      match List.find is_private_ip addrs with
      | Some ip => Err (WebhookError ("SSRF blocked: '" +:+ host +:+ "' resolved to private/reserved address " +:+ ip_text ip))
      | None => Ok first
      end
  end.

(** The loop that reads the response. *)
Fixpoint read_body (body_bytes : string) (chunks : list (result string string)) : result string WorkflowError :=
  match chunks with
  | [] => Ok body_bytes
  | Err e :: _ => Err (WebhookError ("reading response body: " +:+ e))
  | Ok bytes :: rest =>
      let body_bytes := body_bytes +:+ bytes in
      if (WEBHOOK_MAX_RESPONSE_BYTES <? N.of_nat (String.length body_bytes))%N then
        Err (WebhookError ("response body exceeds " +:+ to_decimal WEBHOOK_MAX_RESPONSE_BYTES +:+ " byte limit"))
      else read_body body_bytes rest
  end.

(** The request is made once it could be built. *)
Definition call_webhook_impl (env : WebhookEnv) (url method : string) (headers : option (list (string * string))) (body : option string)
  : list Effect * result Json WorkflowError :=
  let prepared :=
    match url_parse url with
    | Err e => Err (WebhookError ("invalid URL: " +:+ e))
    | Ok (None, _) => Err (WebhookError "URL has no host")
    | Ok (Some host, port) =>
        let? safe_ip := check_ssrf env host in
        match we_client env with
        | Err e => Err (WebhookError e)
        | Ok _ => match method_parse method with Err e => Err (WebhookError e) | Ok m => Ok (EfWebhook m url headers body host safe_ip (default 80%N port)) end
        end
    end in
  match prepared with
  | Err e => ([], Err e)
  | Ok request =>
      ([request],
       match we_response env with
       | Err e => Err (WebhookError e)
       | Ok status =>
           let? body_bytes := read_body "" (we_chunks env) in
           Ok (JObject [("status", number_of_N status); ("body", JString (utf8_lossy body_bytes))])
       end)
  end.

(** The answer to the reaction request: its status and its text, if readable. *)
Definition add_reaction_impl (answer : result (N * option string) string) (message_id emoji : string)
  : list Effect * result Json WorkflowError :=
  ([EfReaction message_id emoji],
   match answer with
   | Err e => Err (WebhookError ("AddReaction HTTP error: " +:+ e))
   | Ok (status, text) =>
       if negb ((200 <=? status)%N && (status <? 300)%N) then
         Err (WebhookError ("AddReaction: relay returned " +:+ status_text status +:+ " for message " +:+ message_id +:+ ": " +:+
                            default "<unreadable>" text))
       else
         let body_text := default "" text in
         Ok (JObject [("added", JBool true); ("status", number_of_N status);
                      ("response", default (JObject [("raw", JString body_text)]) (json_parse body_text))])
   end).
End webhook.

(** ** Dispatch *)

(** Whether the write lease held to the end of an action, or was lost before
    its outside call or after it. *)
Inductive Lease := LeaseHeld | LeaseLostBefore (e : string) | LeaseLostAfter (e : string).

Record DispatchEnv := mkDispatchEnv {
  de_acquire : result unit string;
  de_verify : result unit string;
  de_lease : Lease;
  de_finish : result unit string;
  de_run : result WorkflowTables string;
  de_workflow : result WorkflowTables string;
  de_sink_set : bool;
  de_sink : result string ActionSinkError;
  de_webhook : WebhookEnv;
  de_reaction : result (N * option string) string;
  de_token : string;
}.

Section dispatch.
Context `{NostrLib, UuidLib, HexLib, TemplateLib, HttpLib}.

(** The errors leave out the text of the parser and the ids. *)
Definition override_uuid (explicit_channel : string) : result Uuid WorkflowError :=
  ok_or (uuid_parse_str explicit_channel) (InvalidDefinition "SendMessage: invalid channel override UUID").

Definition resolve_send_message_channel (explicit_channel : option string) (trigger_channel : string)
    (workflow_channel_id : option Uuid) : result string WorkflowError :=
  let explicit_channel := c ← explicit_channel; if bool_decide (trim c = "") then None else Some (trim c) in
  match workflow_channel_id with
  | Some id =>
      match explicit_channel with
      | Some c =>
          let? u := override_uuid c in
          if negb (bool_decide (u = id)) then
            Err (InvalidDefinition ("SendMessage: channel override must match the workflow channel (" +:+ uuid_to_string id +:+ ")"))
          else Ok (uuid_to_string id)
      | None => Ok (uuid_to_string id)
      end
  | None =>
      match explicit_channel with
      | Some c => let? u := override_uuid c in Ok (uuid_to_string u)
      | None =>
          if bool_decide (trim trigger_channel = "") then
            Err (InvalidDefinition "SendMessage: no channel_id available (trigger has no channel context and no channel override was specified)")
          else Ok (trim trigger_channel)
      end
  end.

Definition loaded {A} (what : string) (db : result WorkflowTables string) (read : WorkflowTables -> option A)
  : result A WorkflowError :=
  match db with
  | Err e => Err (WebhookError ("SendMessage: failed to load " +:+ what +:+ ": " +:+ e))
  | Ok db => ok_or (read db) (WebhookError ("SendMessage: failed to load " +:+ what +:+ ": not found"))
  end.

(** The message an action sends, from the run's workflow. *)
Definition prepare_message (env : DispatchEnv) (step : Step) (c : CommunityId) (run_id : Uuid) (ctx : TriggerContext)
    (text : string) (channel : option string) (reply_in_thread : bool) : result Effect WorkflowError :=
  let? wf_run := loaded "workflow run" (de_run env) (fun db => get_workflow_run db c run_id) in
  let? workflow := loaded "workflow" (de_workflow env) (fun db => get_workflow db c (rn_workflow_id wf_run)) in
  let? channel_id := resolve_send_message_channel channel (tc_channel_id ctx) (wr_channel_id workflow) in
  let owner_pubkey_hex := hex_encode (wr_owner_pubkey workflow) in
  let? reply_to :=
    if reply_in_thread then
      if bool_decide (tc_message_id ctx = "") then
        Err (InvalidDefinition "SendMessage: reply_in_thread is set but the trigger has no message_id to reply to")
      else Ok (Some (tc_message_id ctx))
    else Ok None in
  let? authored_text :=
    match st_action step with
    | SendMessage text _ _ => Ok text
    | _ => Err (InvalidDefinition "SendMessage: resolved action does not match its authored step")
    end in
  if negb (de_sink_set env) then
    Err (InvalidDefinition "action_sink not initialized — call set_action_sink() before executing workflows")
  else Ok (EfMessage c channel_id text authored_text owner_pubkey_hex reply_to).

(** The protected part of a dispatch. *)
Definition perform (env : DispatchEnv) (step : Step) (action : ActionDef) (c : CommunityId) (run_id : Uuid) (ctx : TriggerContext)
  : list Effect * result StepResult WorkflowError :=
  match action with
  | SendMessage text channel reply_in_thread =>
      match prepare_message env step c run_id ctx text channel reply_in_thread with
      | Err e => ([], Err e)
      | Ok message =>
          ([message],
           match de_sink env with
           | Err e => Err (WebhookError (ActionSinkError_text e))
           | Ok event_id => Ok (Completed (JObject [("sent", JBool true); ("event_id", JString event_id)]))
           end)
      end
  | SendDm _ _ => ([], Err (NotImplemented "SendDm"))
  | SetChannelTopic _ => ([], Err (NotImplemented "SetChannelTopic"))
  | AddReaction emoji =>
      if bool_decide (tc_message_id ctx = "") then ([], Err (InvalidDefinition "AddReaction: no trigger.message_id available"))
      else
        let '(effects, r) := add_reaction_impl (de_reaction env) (tc_message_id ctx) emoji in
        (effects, let? output := r in Ok (Completed output))
  | CallWebhook url method headers body =>
      let '(effects, r) := call_webhook_impl (de_webhook env) url (default "POST" method) headers body in
      (effects, let? output := r in Ok (Completed output))
  | RequestApproval _ _ _ => ([], Ok (Suspended (de_token env)))
  | Delay duration =>
      match parse_duration_secs duration with
      | Err e => ([], Err e)
      | Ok secs =>
          if (MAX_DELAY_SECS <? secs)%N then
            ([], Err (InvalidDefinition ("delay exceeds maximum of " +:+ to_decimal MAX_DELAY_SECS +:+ " seconds (got " +:+ to_decimal secs +:+
                                         "s); use the scheduled resume pattern for long delays")))
          else ([EfSleep secs], Ok (Completed (JObject [("slept_secs", number_of_N secs)])))
      end
  end.

Definition lease_lost {A} (e : string) : result A WorkflowError := Err (WebhookError ("community write lease lost: " +:+ e)).

Definition dispatch_action (env : DispatchEnv) (step : Step) (action : ActionDef) (c : CommunityId) (run_id : Uuid) (ctx : TriggerContext)
  : list Effect * result StepResult WorkflowError :=
  match de_acquire env with
  | Err e => ([], Err (WebhookError ("community write fence rejected workflow side effect: " +:+ e)))
  | Ok _ =>
      match de_verify env with
      | Err e => ([], lease_lost e)
      | Ok _ =>
          match de_lease env with
          | LeaseLostBefore e => ([], lease_lost e)
          | LeaseLostAfter e => ((perform env step action c run_id ctx).1, lease_lost e)
          | LeaseHeld =>
              let '(effects, r) := perform env step action c run_id ctx in
              (effects,
               match r with
               | Ok value =>
                   match de_finish env with
                   | Err e => Err (WebhookError ("community write lease release failed: " +:+ e))
                   | Ok _ => Ok value
                   end
               | Err e => Err e
               end)
          end
      end
  end.
End dispatch.

(** ** Steps *)

Record ExecutionResult := mkExecutionResult {
  xr_approval_token : option string;
  xr_step_index : nat;
  xr_step_outputs : gmap string Json;
  xr_trace : list Json;
}.
Record PartialProgress := mkPartialProgress { pp_step_index : nat; pp_trace : list Json }.

(** What a step meets: how its condition's task ended, what its dispatch is
    answered, and whether its timer fired before the dispatch returned, with or
    without its outside call made. *)
Record StepEnv := mkStepEnv { se_eval : EvalEnd; se_dispatch : DispatchEnv; se_timeout : option bool }.

Definition skipped_entry (step : Step) : Json := JObject [("step_id", JString (st_id step)); ("status", JString "skipped")].
Definition completed_entry (step : Step) (output : Json) : Json :=
  JObject [("step_id", JString (st_id step)); ("status", JString "completed"); ("output", output)].

Section steps.
Context `{NostrLib, UuidLib, HexLib, TemplateLib, HttpLib, EvalLib}.
Context (default_timeout_secs : N) (c : CommunityId) (run_id : Uuid) (ctx : TriggerContext) (env : nat -> StepEnv).

(** The body of the loop: the condition, the templates, the dispatch under the
    step's timer. *)
Definition step_once (i : nat) (step : Step) (outputs : gmap string Json) : list Effect * result StepResult WorkflowError :=
  let go :=
    match resolve_step_templates step ctx outputs with
    | Err e => ([], Err e)
    | Ok action =>
        let '(effects, r) := dispatch_action (se_dispatch (env i)) step action c run_id ctx in
        match se_timeout (env i) with
        | Some reached =>
            (if reached : bool then effects else [], Err (StepTimeout (st_id step) (default default_timeout_secs (st_timeout_secs step))))
        | None => (effects, r)
        end
    end in
  match st_if_expr step with
  | None => go
  | Some expr =>
      match evaluate_condition (se_eval (env i)) expr ctx outputs with
      | Err e => ([], Err e)
      | Ok false => ([], Ok Skipped)
      | Ok true => go
      end
  end.

Fixpoint run_steps (i start_index : nat) (steps : list Step) (outputs : gmap string Json) (trace : list Json)
  : list Effect * result ExecutionResult (WorkflowError * PartialProgress) :=
  match steps with
  | [] => ([], Ok (mkExecutionResult None i outputs trace))
  | step :: rest =>
      if (i <? start_index)%nat then run_steps (S i) start_index rest outputs trace
      else
        let '(effects, r) := step_once i step outputs in
        match r with
        | Err e => (effects, Err (e, mkPartialProgress i trace))
        | Ok (Suspended token) => (effects, Ok (mkExecutionResult (Some token) i outputs trace))
        | Ok (Completed output) =>
            let '(later, r) := run_steps (S i) start_index rest (<[st_id step := output]> outputs) (trace ++ [completed_entry step output]) in
            (effects ++ later, r)
        | Ok Skipped =>
            let '(later, r) := run_steps (S i) start_index rest outputs (trace ++ [skipped_entry step]) in
            (effects ++ later, r)
        end
  end.

Definition execute_steps (def : WorkflowDef) (start_index : nat) (initial_outputs : option (gmap string Json))
  : list Effect * result ExecutionResult (WorkflowError * PartialProgress) :=
  run_steps 0 start_index (wd_steps def) (default ∅ initial_outputs) [].

(** ** Runs *)

(** The permit of the semaphore and the tables a run meets. *)
Definition no_progress : PartialProgress := mkPartialProgress 0 [].

Definition execute_run (permit : bool) (now : Z) (db : result WorkflowTables string) (def : WorkflowDef)
  : option WorkflowTables * list Effect * result ExecutionResult (WorkflowError * PartialProgress) :=
  if negb permit then (None, [], Err (CapacityExceeded, no_progress))
  else
    match db with
    | Err e => (None, [], Err (Database e, no_progress))
    | Ok db =>
        match update_workflow_run now db c run_id RsRunning 0 (JArray []) None with
        | Err e => (None, [], Err (Database e, no_progress))
        | Ok db => let '(effects, r) := execute_steps def 0 None in (Some db, effects, r)
        end
    end.

Definition execute_from_step (permit : bool) (now : Z) (trace_db db : result WorkflowTables string) (def : WorkflowDef)
    (start_index : nat) (initial_outputs : option (gmap string Json))
  : option WorkflowTables * list Effect * result ExecutionResult (WorkflowError * PartialProgress) :=
  if negb permit then (None, [], Err (CapacityExceeded, no_progress))
  else
    let existing_trace :=
      match trace_db with
      | Ok db => match get_workflow_run db c run_id with Some r => rn_execution_trace r | None => JArray [] end
      | Err _ => JArray []
      end in
    match db with
    | Err e => (None, [], Err (Database e, no_progress))
    | Ok db =>
        match update_workflow_run now db c run_id RsRunning (Z.of_nat start_index) existing_trace None with
        | Err e => (None, [], Err (Database e, no_progress))
        | Ok db => let '(effects, r) := execute_steps def start_index initial_outputs in (Some db, effects, r)
        end
    end.

(** The tables after the run's last update; a failing update is only logged. *)
Definition finalize_run (now : Z) (db : result WorkflowTables string) (r : result ExecutionResult (WorkflowError * PartialProgress))
    (existing_trace : option (list Json)) : option WorkflowTables :=
  let prefix := default [] existing_trace in
  let update status step trace failure :=
    match db with
    | Err _ => None
    | Ok db => match update_workflow_run now db c run_id status (Z.of_nat step) (JArray (prefix ++ trace)) failure with Ok db => Some db | Err _ => None end
    end in
  match r with
  | Ok r =>
      match xr_approval_token r with
      | Some _ =>
          update RsFailed (xr_step_index r) (xr_trace r)
            (Some ("approval_not_supported", "approval gates not yet implemented — see WF-08"))
      | None => update RsCompleted (xr_step_index r) (xr_trace r) None
      end
  | Err (e, progress) =>
      update RsFailed (pp_step_index progress) (pp_trace progress) (Some (WorkflowError_code e, WorkflowError_text e))
  end.
End steps.
