(* ===== verification/WorkflowTheorems.v ===== *)
(** Templates and runs: substitution is a single pass over the template, a
    run's effects stay within what its definition says, and its record is the
    history of its steps. *)

From S2P Require Import Prelude Nostr Filter JsonValue RustStr Network Workflow Auth ReadGate EventStore ReadReq Tenant WorkflowRun.
From Stdlib Require Import Sorting.Sorted.

(** ** Templates *)

Lemma find_sub_none p s : find_sub p s = None <-> contains_str p s = false.
Proof.
  induction s as [|a s IH]; cbn; unfold starts_with.
  - destruct (strip_prefix p "") eqn:E; [done|]. by destruct p.
  - destruct (strip_prefix p (String a s)) eqn:E; [done|]. cbn. rewrite <- IH. destruct (find_sub p s) as [[??]|]; done.
Qed.
Lemma find_sub_some p s l r :
  find_sub p s = Some (l, r) -> s = l +:+ p +:+ r /\ (String.length r + String.length p <= String.length s)%nat.
Proof.
  revert l. induction s as [|a s IH]; intros l; cbn.
  - destruct (strip_prefix p "") eqn:E; [|done]. intros [= <- <-]. apply strip_prefix_Some in E.
    assert (String.length "" = String.length (p +:+ s)) as Hlen by by rewrite E. rewrite string_length_app in Hlen. cbn in Hlen |- *. split; [done|lia].
  - destruct (strip_prefix p (String a s)) eqn:E.
    + intros [= <- <-]. apply strip_prefix_Some in E. split; [done|].
      assert (String.length (String a s) = String.length (p +:+ s0)) as Hlen by by rewrite E. rewrite string_length_app in Hlen. cbn in Hlen. lia.
    + destruct (find_sub p s) as [[l' r']|] eqn:Ef; [|done]. intros [= <- <-]. destruct (IH l' eq_refl) as [-> Hlen]. cbn. split; [done|].
      cbn in Hlen. lia.
Qed.

Lemma strip_prefix_app p s t : strip_prefix p s <> None -> strip_prefix p (s +:+ t) <> None.
Proof.
  destruct (strip_prefix p s) as [r|] eqn:E; [|done]. intros _. apply strip_prefix_Some in E as ->.
  rewrite string_app_assoc. intros Hn. destruct (strip_prefix p (p +:+ (r +:+ t))) eqn:E; [done|].
  assert (strip_prefix p (p +:+ (r +:+ t)) = Some (r +:+ t)) by by apply strip_prefix_Some. congruence.
Qed.
(** What comes before the first occurrence has none. *)
Lemma find_sub_first p s l r : p <> "" -> find_sub p s = Some (l, r) -> contains_str p l = false.
Proof.
  intros Hp. revert l. induction s as [|a s IH]; intros l; cbn.
  - destruct (strip_prefix p "") eqn:E; [|done]. apply strip_prefix_Some in E. by destruct p.
  - destruct (strip_prefix p (String a s)) eqn:E.
    + intros [= <- <-]. by destruct p.
    + destruct (find_sub p s) as [[l' r']|] eqn:Ef; [|done]. intros [= <- <-]. cbn. rewrite IH by done. rewrite orb_false_r.
      unfold starts_with. destruct (strip_prefix p (String a l')) eqn:E'; [|done]. exfalso.
      apply (strip_prefix_app p (String a l') (p +:+ r')); [congruence|]. rewrite string_app_cons.
      by rewrite <- (proj1 (find_sub_some _ _ _ _ Ef)).
Qed.

(** A template as text and substitutions. *)
Inductive Segment := Lit (s : string) | Sub (inner : string).

Fixpoint segments (fuel : nat) (s : string) : list Segment :=
  match fuel with
  | O => [Lit s]
  | S fuel =>
      match find_sub "{{" s with
      | None => [Lit s]
      | Some (before, rest) =>
          match find_sub "}}" rest with
          | None => [Lit s]
          | Some (inner, rest) => Lit before :: Sub inner :: segments fuel rest
          end
      end
  end.
Definition segment_text (x : Segment) : string := match x with Lit s => s | Sub inner => "{{" +:+ inner +:+ "}}" end.
Definition concat_text (xs : list string) : string := foldr String.append "" xs.

Section templates.
Context `{TemplateLib}.

Definition segment_value (ctx : TriggerContext) (outputs : gmap string Json) (x : Segment) : result string WorkflowError :=
  match x with Lit s => Ok s | Sub inner => resolve_expr ctx outputs (trim inner) end.

(** The values one after another, or the first error. *)
Fixpoint segments_value (ctx : TriggerContext) (outputs : gmap string Json) (xs : list Segment) : result string WorkflowError :=
  match xs with
  | [] => Ok ""
  | x :: xs => let? v := segment_value ctx outputs x in let? rest := segments_value ctx outputs xs in Ok (v +:+ rest)
  end.

Lemma resolve_loop_segments fuel ctx outputs acc s :
  (String.length s < fuel)%nat ->
  resolve_loop fuel ctx outputs acc s =
    match segments_value ctx outputs (segments fuel s) with Ok v => Ok (acc +:+ v) | Err e => Err e end.
Proof.
  revert acc s. induction fuel as [|fuel IH]; intros acc s Hlen; [lia|]. cbn [resolve_loop segments].
  destruct (find_sub "{{" s) as [[before rest]|] eqn:Eo; [|cbn; by rewrite string_app_nil_r].
  destruct (find_sub_some _ _ _ _ Eo) as [-> Hl1]. destruct (find_sub "}}" rest) as [[inner rest']|] eqn:Ec.
  - destruct (find_sub_some _ _ _ _ Ec) as [_ Hl2]. cbn in Hl1, Hl2. cbn [segments_value segment_value].
    destruct (resolve_expr ctx outputs (trim inner)) as [v|e]; [|done]. rewrite IH by lia.
    destruct (segments_value ctx outputs (segments fuel rest')); [|done]. by rewrite !string_app_assoc.
  - cbn [segments_value segment_value]. by rewrite string_app_nil_r, !string_app_assoc.
Qed.

Lemma segments_text fuel s : concat_text (segment_text <$> segments fuel s) = s.
Proof.
  revert s. induction fuel as [|fuel IH]; intros s; cbn; [by rewrite string_app_nil_r|].
  destruct (find_sub "{{" s) as [[before rest]|] eqn:Eo; [|cbn; by rewrite string_app_nil_r].
  destruct (find_sub_some _ _ _ _ Eo) as [-> _]. destruct (find_sub "}}" rest) as [[inner rest']|] eqn:Ec.
  - destruct (find_sub_some _ _ _ _ Ec) as [-> _]. cbn. fold (concat_text (segment_text <$> segments fuel rest')).
    rewrite IH. by rewrite !string_app_assoc.
  - cbn. by rewrite string_app_nil_r.
Qed.

Lemma segments_sub fuel s inner : Sub inner ∈ segments fuel s -> contains_str "}}" inner = false.
Proof.
  revert s. induction fuel as [|fuel IH]; intros s; cbn; [by intros [?|?%elem_of_nil]%elem_of_cons|].
  destruct (find_sub "{{" s) as [[before rest]|]; [|by intros [?|?%elem_of_nil]%elem_of_cons].
  destruct (find_sub "}}" rest) as [[inner' rest']|] eqn:Ec; [|by intros [?|?%elem_of_nil]%elem_of_cons].
  intros [?|[[= ->]|?]%elem_of_cons]%elem_of_cons; [done|by apply find_sub_first in Ec|by eapply IH].
Qed.
Lemma segments_nonempty fuel s : segments fuel s <> [].
Proof. destruct fuel; [done|]. cbn. destruct (find_sub "{{" s) as [[? rest]|]; [|done]. by destruct (find_sub "}}" rest) as [[??]|]. Qed.
Lemma segments_lit fuel s x :
  (String.length s < fuel)%nat -> Lit x ∈ segments fuel s -> contains_str "{{" x = true ->
  last (segments fuel s) = Some (Lit x) /\ exists b r, x = b +:+ "{{" +:+ r /\ contains_str "}}" r = false.
Proof.
  revert s. induction fuel as [|fuel IH]; intros s Hlen; [lia|]. cbn [segments].
  destruct (find_sub "{{" s) as [[before rest]|] eqn:Eo; [|apply find_sub_none in Eo; intros [[= ->]|?%elem_of_nil]%elem_of_cons; [intros; congruence|done]].
  destruct (find_sub_some _ _ _ _ Eo) as [Hs Hl1]. destruct (find_sub "}}" rest) as [[inner rest']|] eqn:Ec.
  - destruct (find_sub_some _ _ _ _ Ec) as [_ Hl2]. apply find_sub_first in Eo; [|done]. cbn in Hl1, Hl2.
    intros [[= ->]|[?|Hin]%elem_of_cons]%elem_of_cons Hx; [congruence|done|]. destruct (IH rest' ltac:(lia) Hin Hx) as [Hlast Hex].
    split; [|done]. by rewrite !last_cons, Hlast.
  - intros [[= ->]|?%elem_of_nil]%elem_of_cons _; [|done]. split; [done|]. exists before, rest. split; [done|]. by apply find_sub_none.
Qed.

(** C32: template substitution is a single pass.  Every template splits, whatever
    the values, into literal text and substitutions between double braces, the
    last one possibly unclosed, and its resolution is the concatenation of the
    literals and the values, or the first failing filter's error: it always
    ends, and what a value contains is never looked at again, so braces typed
    by whoever triggers a workflow are not expanded. *)
Theorem templates_single_pass (template : string) :
  exists segs,
    concat_text (segment_text <$> segs) = template /\
    (forall inner, Sub inner ∈ segs -> contains_str "}}" inner = false) /\
    (forall x, Lit x ∈ segs -> contains_str "{{" x = true ->
       last segs = Some (Lit x) /\ exists b r, x = b +:+ "{{" +:+ r /\ contains_str "}}" r = false) /\
    forall ctx outputs, resolve_template template ctx outputs = segments_value ctx outputs segs.
Proof.
  exists (segments (S (String.length template)) template). split_and!.
  - apply segments_text.
  - apply segments_sub.
  - intros x. apply segments_lit. lia.
  - intros ctx outputs. unfold resolve_template. destruct (contains_str "{{" template) eqn:Ec; cbn [negb].
    + rewrite resolve_loop_segments by lia. destruct (segments_value _ _ _); [|done]. by rewrite string_app_nil_l.
    + apply find_sub_none in Ec. cbn [segments]. rewrite Ec. cbn. by rewrite string_app_nil_r.
Qed.
End templates.

(** ** Validation *)

Lemma check_ids_ok seen steps :
  check_ids seen steps = Ok tt <->
  Forall (fun s => trim (st_id s) <> "" /\ valid_step_id (st_id s) = true /\ ~ st_id s ∈ seen) steps /\ NoDup (st_id <$> steps).
Proof.
  revert seen. induction steps as [|s steps IH]; intros seen; cbn.
  { split; [split; constructor|done]. }
  rewrite Forall_cons, NoDup_cons. case_bool_decide as Ht; [naive_solver|]. destruct (valid_step_id (st_id s)); cbn [negb]; [|naive_solver].
  case_bool_decide as Hs; [naive_solver|]. rewrite IH, !Forall_forall. setoid_rewrite list_elem_of_fmap. setoid_rewrite not_elem_of_app.
  setoid_rewrite list_elem_of_singleton. split.
  - intros [Hall Hnd]. split; [split; [done|]|]; [intros x Hx; by destruct (Hall x Hx) as (?&?&?&?)|]. split; [|done].
    intros (x & Hx & Hin). destruct (Hall x Hin) as (_ & _ & _ & Hne). by symmetry in Hx.
  - intros [[_ Hall] [Hni Hnd]]. split; [|done]. intros x Hx. destruct (Hall x Hx) as (?&?&?). split_and!; [done..|]. intros Heq.
    apply Hni. eauto.
Qed.

(** What a saved definition satisfies. *)
Definition schedule_ok `{DefLib} (trigger : TriggerDef) : Prop :=
  match trigger with
  | Schedule (Some expr) None => exists sched, cron_parse (normalize_cron expr) = Ok sched
  | Schedule None (Some dur) => exists secs, parse_duration_secs dur = Ok secs /\ (60 <= secs)%N
  | Schedule _ _ => False
  | _ => True
  end.
Record valid_def `{DefLib} (def : WorkflowDef) : Prop := {
  vd_name : trim (wd_name def) <> "";
  vd_steps : wd_steps def <> [];
  vd_ids : Forall (fun s => valid_step_id (st_id s) = true) (wd_steps def);
  vd_distinct : NoDup (st_id <$> wd_steps def);
  vd_replies : trigger_has_message (wd_trigger def) = false -> Forall (fun s => replies_in_thread s = false) (wd_steps def);
  vd_schedule : schedule_ok (wd_trigger def);
}.

Lemma validate_schedule_ok `{DefLib} cron interval : validate_schedule cron interval = Ok tt <-> schedule_ok (Schedule cron interval).
Proof.
  unfold validate_schedule, validate_cron, validate_interval. destruct cron as [expr|], interval as [dur|]; cbn; try done.
  - destruct (cron_parse _); [naive_solver|]. split; [done|]. by intros [? ?].
  - destruct (parse_duration_secs dur) as [secs|]; [|split; [done|]; by intros (? & ? & _)].
    destruct (secs <? 60)%N eqn:E; [apply N.ltb_lt in E|apply N.ltb_ge in E]; (split; [|intros (? & [= <-] & ?)]); [done|lia|eauto|done].
Qed.

(** Only valid definitions are accepted. *)
Lemma validate_sound `{DefLib} def : validate_def def = Ok tt -> valid_def def.
Proof.
  unfold validate_def. case_bool_decide as Hn; [done|]. case_bool_decide as Hs; [done|].
  destruct (check_ids [] (wd_steps def)) as [[]|] eqn:Ei; [|done]. apply check_ids_ok in Ei as [Hids Hnd].
  intros Hv. split; [done..| |done| |].
  - eapply Forall_impl; [exact Hids|]. naive_solver.
  - intros Ht. rewrite Ht in Hv. destruct (List.find _ _) eqn:Ef; [done|]. apply Forall_forall. intros s Hin.
    apply (List.find_none _ _ Ef). by apply list_elem_of_In.
  - destruct (if trigger_has_message (wd_trigger def) then None else _); [done|]. destruct (wd_trigger def); try done. by apply validate_schedule_ok.
Qed.

(** ** Effects of a run *)

Section effects.
Context `{NostrLib, UuidLib, HexLib, TemplateLib, HttpLib, EvalLib}.
Context (default_timeout_secs : N) (c : CommunityId) (run_id : Uuid) (ctx : TriggerContext) (env : nat -> StepEnv).

(** The workflow a dispatch finds its run to be of. *)
Definition reads_workflow (d : DispatchEnv) (workflow : WorkflowRecord) : Prop :=
  exists db db' run, de_run d = Ok db /\ get_workflow_run db c run_id = Some run /\
    de_workflow d = Ok db' /\ get_workflow db' c (rn_workflow_id run) = Some workflow.

(** What a step may do to the outside. *)
Definition allowed_effect (d : DispatchEnv) (step : Step) (outputs : gmap string Json) (ef : Effect) : Prop :=
  match ef with
  | EfMessage c' channel_id text authored author reply_to =>
      exists channel reply workflow,
        st_action step = SendMessage authored channel reply /\ c' = c /\ reads_workflow d workflow /\
        resolve_template authored ctx outputs = Ok text /\ author = hex_encode (wr_owner_pubkey workflow) /\
        (forall id, wr_channel_id workflow = Some id -> channel_id = uuid_to_string id) /\
        reply_to = (if reply then Some (tc_message_id ctx) else None)
  | EfReaction message_id emoji =>
      exists authored, st_action step = AddReaction authored /\ resolve_template authored ctx outputs = Ok emoji /\
        message_id = tc_message_id ctx /\ message_id <> ""
  | EfWebhook _ _ _ _ _ pinned _ =>
      exists url method headers body addrs,
        st_action step = CallWebhook url method headers body /\ we_dns (de_webhook d) = Ok addrs /\ pinned ∈ addrs /\
        forall ip, ip ∈ addrs -> is_private_ip ip = false
  | EfSleep secs => exists duration, st_action step = Delay duration /\ (secs <= 270)%N
  end.

Lemma prepare_message_allowed d step text channel reply outputs m :
  resolve_step_templates step ctx outputs = Ok (SendMessage text channel reply) ->
  prepare_message d step c run_id ctx text channel reply = Ok m -> allowed_effect d step outputs m.
Proof.
  intros Hres. unfold prepare_message, loaded. destruct (de_run d) as [db|] eqn:Edb; [|done].
  destruct (get_workflow_run db c run_id) as [run|] eqn:Erun; [cbn|done]. destruct (de_workflow d) as [db'|] eqn:Edb'; [|done].
  destruct (get_workflow db' c (rn_workflow_id run)) as [wf|] eqn:Ewf; [cbn|done].
  destruct (resolve_send_message_channel channel (tc_channel_id ctx) (wr_channel_id wf)) as [ch|] eqn:Ech; [|done].
  intros Hm. assert (exists reply_to authored ch0, reply_to = (if reply then Some (tc_message_id ctx) else None) /\
    st_action step = SendMessage authored ch0 reply /\ resolve_template authored ctx outputs = Ok text /\
    m = EfMessage c ch text authored (hex_encode (wr_owner_pubkey wf)) reply_to) as (rt & au & ch0 & Hrt & Hst & Htext & ->).
  { unfold resolve_step_templates in Hres. destruct (st_action step) as [t0 ch0 r0|?|?|?|? ? hs ?|?|?] eqn:Est; cbn in Hres, Hm.
    1: destruct (resolve_template t0 ctx outputs) as [t1|] eqn:Et; [|done]; destruct ch0 as [ch0|];
       [destruct (resolve_template ch0 ctx outputs); [|done]|]; injection Hres as <- <- <-;
       (destruct r0; [case_bool_decide; [done|]|]; destruct (de_sink_set d); [|done| |done]; injection Hm as <-; eexists _, _, _; done).
    all: destruct reply; [case_bool_decide; [done|]|]; done. }
  exists ch0, reply, wf. split_and!; [done|done| |done..| |done].
  - exists db, db', run. done.
  - intros id Hid. unfold resolve_send_message_channel in Ech. rewrite Hid in Ech.
    destruct (_ ≫= _) as [x|]; [|by injection Ech as <-]. destruct (override_uuid x) as [u|]; [|done].
    destruct (bool_decide (u = id)); cbn [negb] in Ech; [by injection Ech as <-|done].
Qed.

Lemma check_ssrf_public we host ip :
  check_ssrf we host = Ok ip -> exists addrs, we_dns we = Ok addrs /\ ip ∈ addrs /\ forall x, x ∈ addrs -> is_private_ip x = false.
Proof.
  unfold check_ssrf. destruct (we_dns we) as [[|a addrs]|]; [done| |done]. destruct (List.find is_private_ip (a :: addrs)) eqn:Ef; [done|].
  intros [= ->]. exists (ip :: addrs). split; [done|]. split; [left|]. intros x Hx. apply (List.find_none _ _ Ef). by apply list_elem_of_In.
Qed.

Lemma perform_allowed d step action outputs :
  resolve_step_templates step ctx outputs = Ok action ->
  (length (perform d step action c run_id ctx).1 <= 1)%nat /\
  forall ef, ef ∈ (perform d step action c run_id ctx).1 -> allowed_effect d step outputs ef.
Proof.
  intros Hres. assert (forall ef, ef ∈ @nil Effect -> allowed_effect d step outputs ef) as Hnil by by intros ef ?%elem_of_nil.
  destruct action as [text channel reply|to_ text|topic|emoji|url method headers body|from message timeout|duration]; cbn [perform].
  - destruct (prepare_message d step c run_id ctx text channel reply) as [m|] eqn:Em; [|by split; [cbn; lia|]]. split; [cbn; lia|].
    intros ef ->%list_elem_of_singleton. by eapply prepare_message_allowed.
  - by split; [cbn; lia|].
  - by split; [cbn; lia|].
  - case_bool_decide as Hid; [by split; [cbn; lia|]|]. cbn. split; [lia|]. intros ef ->%list_elem_of_singleton. cbn.
    unfold resolve_step_templates in Hres. destruct (st_action step) as [? ch ?|? ?|?|e0|? ? hs b|? ? ?|?] eqn:Est; cbn in Hres.
    4: destruct (resolve_template e0 ctx outputs) as [e1|] eqn:Et; [|done]; injection Hres as <-; by exists e0.
    all: repeat match type of Hres with context [match ?x with _ => _ end] => destruct x end; done.
  - unfold call_webhook_impl. destruct (url_parse url) as [[[host|] port]|]; [|by split; [cbn; lia|]..].
    destruct (check_ssrf (de_webhook d) host) as [ip|] eqn:Es; [|by split; [cbn; lia|]]. destruct (we_client (de_webhook d)); [|by split; [cbn; lia|]].
    destruct (method_parse (default "POST" method)); [|by split; [cbn; lia|]]. split; [cbn; lia|]. cbn.
    intros ef ->%list_elem_of_singleton. cbn. apply check_ssrf_public in Es as (addrs & Ha & Hip & Hpub).
    unfold resolve_step_templates in Hres. destruct (st_action step) as [? ch ?|? ?|?|e0|u m hs b|? ? ?|?] eqn:Est; cbn in Hres.
    5: by exists u, m, hs, b, addrs.
    all: repeat match type of Hres with context [match ?x with _ => _ end] => destruct x end; done.
  - by split; [cbn; lia|].
  - destruct (parse_duration_secs duration) as [secs|]; [|by split; [cbn; lia|]].
    destruct (MAX_DELAY_SECS <? secs)%N eqn:El; [by split; [cbn; lia|]|]. split; [cbn; lia|]. cbn. intros ef ->%list_elem_of_singleton. cbn.
    apply N.ltb_ge in El. unfold resolve_step_templates in Hres.
    destruct (st_action step) as [? ch ?|? ?|?|e0|u m hs b|? ? ?|dur] eqn:Est; cbn in Hres.
    7: by exists dur.
    all: repeat match type of Hres with context [match ?x with _ => _ end] => destruct x end; done.
Qed.

Lemma step_once_allowed i step outputs :
  (length (step_once default_timeout_secs c run_id ctx env i step outputs).1 <= 1)%nat /\
  forall ef, ef ∈ (step_once default_timeout_secs c run_id ctx env i step outputs).1 -> allowed_effect (se_dispatch (env i)) step outputs ef.
Proof.
  assert (forall r : result StepResult WorkflowError, (length (@nil Effect, r).1 <= 1)%nat /\
    forall ef, ef ∈ (@nil Effect, r).1 -> allowed_effect (se_dispatch (env i)) step outputs ef) as Hnil
    by (intros r; split; [cbn; lia|by intros ef ?%elem_of_nil]).
  unfold step_once. set (go := match resolve_step_templates step ctx outputs with Ok _ => _ | Err _ => _ end).
  assert ((length go.1 <= 1)%nat /\ forall ef, ef ∈ go.1 -> allowed_effect (se_dispatch (env i)) step outputs ef) as Hgo.
  { subst go. destruct (resolve_step_templates step ctx outputs) as [action|] eqn:Er; [|apply Hnil].
    pose proof (perform_allowed (se_dispatch (env i)) step action outputs Er) as Hp.
    assert ((length (dispatch_action (se_dispatch (env i)) step action c run_id ctx).1 <= 1)%nat /\
      forall ef, ef ∈ (dispatch_action (se_dispatch (env i)) step action c run_id ctx).1 -> allowed_effect (se_dispatch (env i)) step outputs ef) as Hd.
    { unfold dispatch_action. destruct (de_acquire _); [|apply Hnil]. destruct (de_verify _); [|apply Hnil].
      destruct (de_lease _); [|apply Hnil|exact Hp]. destruct (perform _ _ _ _ _ _) as [effects r]. exact Hp. }
    destruct (dispatch_action _ _ _ _ _ _) as [effects r]. destruct (se_timeout (env i)) as [[]|]; [exact Hd|apply Hnil|exact Hd]. }
  destruct (st_if_expr step) as [expr|]; [|exact Hgo]. destruct (evaluate_condition _ _ _ _) as [[]|]; [exact Hgo|apply Hnil..].
Qed.

Local Abbreviation once := (step_once default_timeout_secs c run_id ctx env).

(** Which step made an effect. *)
Definition made_by (start : nat) (first : nat) (steps : list Step) (i : nat) (ef : Effect) : Prop :=
  (first <= i)%nat /\ (start <= i)%nat /\
  exists step outputs, steps !! (i - first)%nat = Some step /\ allowed_effect (se_dispatch (env i)) step outputs ef.

Definition stopped_before (r : result ExecutionResult (WorkflowError * PartialProgress)) (i : nat) : Prop :=
  match r with Err (_, p) => (i <= pp_step_index p)%nat | Ok x => (i <= xr_step_index x)%nat end.

Lemma made_by_later start first step steps i ef : made_by start (S first) steps i ef -> made_by start first (step :: steps) i ef.
Proof.
  intros (Hf & Hs & st & outs & Hl & Ha). split_and!; [lia|done|]. exists st, outs. split; [|done].
  by replace (i - first)%nat with (S (i - S first)) by lia.
Qed.

Lemma run_steps_progress first start steps outputs trace later x :
  run_steps default_timeout_secs c run_id ctx env first start steps outputs trace = (later, x) -> stopped_before x first.
Proof.
  revert first outputs trace later. induction steps as [|step steps IH]; intros first outputs trace later; cbn [run_steps].
  { intros [= _ <-]. cbn. lia. }
  assert (forall outs tr later, run_steps default_timeout_secs c run_id ctx env (S first) start steps outs tr = (later, x) -> stopped_before x first) as Hgo.
  { intros outs tr l Hr%IH. destruct x as [x|[e p]]; cbn in *; lia. }
  destruct (first <? start)%nat; [apply Hgo|]. destruct (once first step outputs) as [effects [[output|token|]|e]].
  - destruct (run_steps _ _ _ _ _ (S first) start steps _ _) as [l y] eqn:Er. intros [= _ <-]. by eapply Hgo.
  - intros [= _ <-]. cbn. lia.
  - destruct (run_steps _ _ _ _ _ (S first) start steps _ _) as [l y] eqn:Er. intros [= _ <-]. by eapply Hgo.
  - intros [= _ <-]. cbn. lia.
Qed.

Lemma run_steps_effects first start steps outputs trace :
  let '(effects, r) := run_steps default_timeout_secs c run_id ctx env first start steps outputs trace in
  exists owners, StronglySorted lt owners /\ Forall2 (made_by start first steps) owners effects /\ Forall (stopped_before r) owners.
Proof.
  revert first outputs trace. induction steps as [|step steps IH]; intros first outputs trace; cbn [run_steps].
  { exists []. split_and!; constructor. }
  destruct (first <? start)%nat eqn:Es.
  { specialize (IH (S first) outputs trace). destruct (run_steps _ _ _ _ _ (S first) start steps outputs trace) as [effects r].
    destruct IH as (owners & ? & Hm & ?). exists owners. split_and!; [done| |done]. eapply Forall2_impl; [exact Hm|]. intros. by apply made_by_later. }
  apply Nat.ltb_ge in Es. pose proof (step_once_allowed first step outputs) as [Hlen Hall].
  destruct (once first step outputs) as [effects r]. cbn [fst] in Hlen, Hall.
  assert (forall later owners (x : result ExecutionResult (WorkflowError * PartialProgress)),
    StronglySorted lt owners -> Forall2 (made_by start (S first) steps) owners later -> Forall (stopped_before x) owners -> stopped_before x first ->
    exists owners', StronglySorted lt owners' /\ Forall2 (made_by start first (step :: steps)) owners' (effects ++ later) /\ Forall (stopped_before x) owners') as Hgo.
  { intros later owners x Hsort Hm Hx Hfirst. assert (Forall2 (made_by start first (step :: steps)) owners later) as Hm'.
    { eapply Forall2_impl; [exact Hm|]. intros. by apply made_by_later. }
    destruct effects as [|ef [|? ?]]; cbn in Hlen; [by exists owners| |lia]. exists (first :: owners). split_and!.
    - constructor; [done|]. apply List.Forall_forall. intros i Hi%list_elem_of_In. apply list_elem_of_lookup in Hi as [j Hj].
      destruct (Forall2_lookup_l _ _ _ _ _ Hm Hj) as (ef' & _ & (Hle & _)). lia.
    - constructor; [|done]. split_and!; [done..|]. exists step, outputs. rewrite Nat.sub_diag. split; [done|]. apply Hall. left.
    - by constructor. }
  destruct r as [[output|token|]|e].
  - specialize (IH (S first) (<[st_id step:=output]> outputs) (trace ++ [completed_entry step output])).
    destruct (run_steps _ _ _ _ _ (S first) start steps _ _) as [later x] eqn:Er. destruct IH as (owners & ? & ? & ?). apply (Hgo later owners); [done..|].
    apply run_steps_progress in Er. destruct x as [x|[e p]]; cbn in *; lia.
  - rewrite <- (app_nil_r effects). apply (Hgo [] []); [constructor..|cbn; lia].
  - specialize (IH (S first) outputs (trace ++ [skipped_entry step])).
    destruct (run_steps _ _ _ _ _ (S first) start steps _ _) as [later x] eqn:Er. destruct IH as (owners & ? & ? & ?). apply (Hgo later owners); [done..|].
    apply run_steps_progress in Er. destruct x as [x|[e p]]; cbn in *; lia.
  - rewrite <- (app_nil_r effects). apply (Hgo [] []); [constructor..|cbn; lia].
Qed.

(** ** The record of a run *)

Definition trace_entry (step : Step) (r : StepResult) : Json :=
  match r with Completed output => completed_entry step output | _ => skipped_entry step end.
Fixpoint outputs_after (outputs : gmap string Json) (steps : list Step) (rs : list StepResult) : gmap string Json :=
  match steps, rs with
  | step :: steps, Completed output :: rs => outputs_after (<[st_id step := output]> outputs) steps rs
  | _ :: steps, _ :: rs => outputs_after outputs steps rs
  | _, _ => outputs
  end.
Definition finished (r : StepResult) : Prop := match r with Suspended _ => False | _ => True end.

(** Each step ran with the outputs of those before it. *)
Definition ran (first : nat) (outputs : gmap string Json) (steps : list Step) (rs : list StepResult) : Prop :=
  forall j step r, steps !! j = Some step -> rs !! j = Some r ->
    (once (first + j) step (outputs_after outputs (take j steps) (take j rs))).2 = Ok r /\ finished r.

(** How the steps ended after those that finished. *)
Inductive stopped (first : nat) (outputs : gmap string Json) (steps : list Step) (rs : list StepResult)
  : result ExecutionResult (WorkflowError * PartialProgress) -> list Json -> Prop :=
| stopped_done trace : length rs = length steps ->
    stopped first outputs steps rs (Ok (mkExecutionResult None (first + length steps) (outputs_after outputs steps rs) trace)) trace
| stopped_error step e trace : steps !! length rs = Some step ->
    (once (first + length rs) step (outputs_after outputs steps rs)).2 = Err e ->
    stopped first outputs steps rs (Err (e, mkPartialProgress (first + length rs) trace)) trace
| stopped_approval step token trace : steps !! length rs = Some step ->
    (once (first + length rs) step (outputs_after outputs steps rs)).2 = Ok (Suspended token) ->
    stopped first outputs steps rs (Ok (mkExecutionResult (Some token) (first + length rs) (outputs_after outputs steps rs) trace)) trace.

Lemma stopped_cons first outputs step steps r rs x trace :
  stopped (S first) (outputs_after outputs [step] [r]) steps rs x trace -> stopped first outputs (step :: steps) (r :: rs) x trace.
Proof.
  assert (outputs_after outputs (step :: steps) (r :: rs) = outputs_after (outputs_after outputs [step] [r]) steps rs) as Heq by by destruct r.
  destruct 1 as [trace' Hl|st e trace' Hl He|st tk trace' Hl He]; rewrite <- Heq in *.
  - replace (S first + length steps)%nat with (first + length (step :: steps))%nat by (cbn; lia). apply stopped_done. cbn. by rewrite Hl.
  - rewrite Nat.add_succ_comm in *. exact (stopped_error first outputs (step :: steps) (r :: rs) st e trace' Hl He).
  - rewrite Nat.add_succ_comm in *. exact (stopped_approval first outputs (step :: steps) (r :: rs) st tk trace' Hl He).
Qed.

Lemma run_steps_history first steps outputs trace :
  let '(_, x) := run_steps default_timeout_secs c run_id ctx env first 0 steps outputs trace in
  exists rs, (length rs <= length steps)%nat /\ ran first outputs steps rs /\ stopped first outputs steps rs x (trace ++ zip_with trace_entry steps rs).
Proof.
  revert first outputs trace. induction steps as [|step steps IH]; intros first outputs trace; cbn [run_steps].
  { exists []. split_and!; [done|by intros ? ? ? ?|]. cbn. rewrite app_nil_r.
    pose proof (stopped_done first outputs [] [] trace eq_refl) as Hd. cbn in Hd. by rewrite Nat.add_0_r in Hd. }
  destruct (once first step outputs) as [effects r] eqn:Eo. cbn [Nat.ltb Nat.leb].
  assert (forall r', (once first step outputs).2 = Ok r' -> finished r' -> forall outs' tr', outs' = outputs_after outputs [step] [r'] ->
    tr' = trace ++ [trace_entry step r'] ->
    let '(_, x) := run_steps default_timeout_secs c run_id ctx env (S first) 0 steps outs' tr' in
    exists rs, (length rs <= length (step :: steps))%nat /\ ran first outputs (step :: steps) rs /\
      stopped first outputs (step :: steps) rs x (trace ++ zip_with trace_entry (step :: steps) rs)) as Hgo.
  { intros r' Hr' Hfin outs' tr' -> ->. specialize (IH (S first) (outputs_after outputs [step] [r']) (trace ++ [trace_entry step r'])).
    destruct (run_steps _ _ _ _ _ _ _ _ _ _) as [l x]. destruct IH as (rs & Hl & Hran & Hst). exists (r' :: rs). split_and!.
    - cbn. lia.
    - intros [|j] st r0; cbn; [intros [= <-] [= <-]; by rewrite Nat.add_0_r|]. intros Hs Hr0. destruct (Hran j st r0 Hs Hr0) as [Ho Hf].
      split; [|done]. rewrite <- plus_n_Sm. rewrite <- Ho. by destruct r'.
    - cbn [zip_with]. rewrite cons_middle, app_assoc. by apply stopped_cons. }
  destruct r as [[output|token|]|e]; rewrite Eo in Hgo; cbn [snd] in Hgo.
  - specialize (Hgo _ eq_refl I _ _ eq_refl eq_refl). cbn in Hgo. by destruct (run_steps _ _ _ _ _ _ _ _ _ _).
  - exists []. split_and!; [cbn; lia|by intros ? ? ? ? ?|]. cbn. rewrite app_nil_r.
    pose proof (stopped_approval first outputs (step :: steps) [] step token trace) as Hd. cbn in Hd. rewrite Nat.add_0_r, Eo in Hd. by apply Hd.
  - specialize (Hgo _ eq_refl I _ _ eq_refl eq_refl). cbn in Hgo. by destruct (run_steps _ _ _ _ _ _ _ _ _ _).
  - exists []. split_and!; [cbn; lia|by intros ? ? ? ? ?|]. cbn. rewrite app_nil_r.
    pose proof (stopped_error first outputs (step :: steps) [] step e trace) as Hd. cbn in Hd. rewrite Nat.add_0_r, Eo in Hd. by apply Hd.
Qed.

(** What finalization writes of the end of a run. *)
Inductive recorded_end (steps : list Step) (rs : list StepResult) : RunStatus -> option (string * string) -> Prop :=
| rec_completed : length rs = length steps -> recorded_end steps rs RsCompleted None
| rec_failed step e : steps !! length rs = Some step -> (once (length rs) step (outputs_after ∅ steps rs)).2 = Err e ->
    recorded_end steps rs RsFailed (Some (WorkflowError_code e, WorkflowError_text e))
| rec_approval step token : steps !! length rs = Some step -> (once (length rs) step (outputs_after ∅ steps rs)).2 = Ok (Suspended token) ->
    recorded_end steps rs RsFailed (Some ("approval_not_supported", "approval gates not yet implemented — see WF-08")).

(** C16: a run does to the outside only what its definition says.  Whatever the
    tables, the network, the timers and the write lease do, the effects come in
    the order of the steps, at most one per step, none of a step before the
    start or after the one that failed; a message carries the run's community,
    the stored template's own text with its values put in, the owner of the
    run's workflow, and goes to the workflow's channel when it has one, whatever
    channel the step names; a reaction is on the triggering message; a webhook
    call is pinned to an address of its host, all of which are public; a delay
    is at most 270 seconds. *)
Theorem workflow_effects_confined (def : WorkflowDef) (start : nat) (initial : option (gmap string Json)) :
  let '(effects, r) := execute_steps default_timeout_secs c run_id ctx env def start initial in
  exists owners, StronglySorted lt owners /\ Forall (stopped_before r) owners /\
    Forall2 (fun i ef => (start <= i)%nat /\
      exists step outputs, wd_steps def !! i = Some step /\ allowed_effect (se_dispatch (env i)) step outputs ef) owners effects.
Proof.
  unfold execute_steps. pose proof (run_steps_effects 0 start (wd_steps def) (default ∅ initial) []) as Hr.
  destruct (run_steps _ _ _ _ _ _ _ _ _ _) as [effects r]. destruct Hr as (owners & Hs & Hm & Hx). exists owners. split_and!; [done..|].
  eapply Forall2_impl; [exact Hm|]. intros i ef (_ & Hst & step & outs & Hl & Ha). rewrite Nat.sub_0_r in Hl. eauto.
Qed.

(** C22: the record of a run is the history of its steps.  A run that gets a
    permit and whose row exists is marked running, its steps run in order, each
    with the outputs of those before it, and the final update writes one trace
    entry per finished step, saying completed with its output or skipped, and
    the index reached: completed exactly when no step failed or asked for
    approval, otherwise failed with the code and text of that step's error and
    nothing of it in the trace.  Without a permit nothing runs and the run fails
    as over capacity. *)
Theorem run_recorded_exact (def : WorkflowDef) (now : Z) (db : WorkflowTables) :
  existsb (run_is c run_id) (wt_runs db) = true ->
  let final db' r now' := finalize_run c run_id now' (Ok db') r None in
  let update db' now' status step trace failure := update_workflow_run now' db' c run_id status step (JArray trace) failure in
  (let '(db1, _, r) := execute_run default_timeout_secs c run_id ctx env true now (Ok db) def in
   db1 = (match update db now RsRunning 0%Z [] None with Ok x => Some x | Err _ => None end : option WorkflowTables) /\
   exists rs status failure,
     (length rs <= length (wd_steps def))%nat /\ ran 0 ∅ (wd_steps def) rs /\ recorded_end (wd_steps def) rs status failure /\
     forall db' now', final db' r now' =
       match update db' now' status (Z.of_nat (length rs)) (zip_with trace_entry (wd_steps def) rs) failure with Ok x => Some x | Err _ => None end) /\
  (let '(_, effects, r) := execute_run default_timeout_secs c run_id ctx env false now (Ok db) def in
   effects = [] /\ forall db' now', final db' r now' =
     match update db' now' RsFailed 0%Z [] (Some ("capacity_exceeded", "capacity exceeded")) with Ok x => Some x | Err _ => None end).
Proof.
  intros Hrow. cbn zeta. split; [|by cbn].
  unfold execute_run. cbn [negb]. unfold update_workflow_run at 1 2. rewrite Hrow. unfold execute_steps.
  pose proof (run_steps_history 0 (wd_steps def) ∅ []) as Hh.
  destruct (run_steps _ _ _ _ _ 0 0 (wd_steps def) (default ∅ None) []) as [effects x] eqn:Er.
  change (default ∅ None) with (∅ : gmap string Json) in Er. rewrite Er in Hh. destruct Hh as (rs & Hl & Hran & Hst). split; [done|].
  rewrite app_nil_l in Hst. inversion Hst as [trace Hlen Hx Ht|step e trace Hs He Hx Ht|step tk trace Hs He Hx Ht]; subst x trace; cbn [Nat.add] in *.
  - exists rs, RsCompleted, None. split_and!; [done..|by constructor|]. intros db' now'. cbn. by rewrite Hlen.
  - exists rs, RsFailed, (Some (WorkflowError_code e, WorkflowError_text e)). split_and!; [done..|by eapply rec_failed|]. done.
  - eexists rs, RsFailed, _. split_and!; [done..|by eapply rec_approval|]. done.
Qed.
End effects.
