(* ===== verification/WorkflowSchedule.v ===== *)
(** What starts a workflow, buzz-workflow/src/lib.rs: stored events and the
    scheduler.  Every pod runs the scheduler: a tick lists the scheduled
    workflows and handles them one after another, each with several queries, so
    the ticks of the pods interleave query by query; a pod may restart at any
    point.  Clocks are in nanoseconds, schedule instants in seconds. *)

From S2P Require Import Prelude Nostr Filter JsonValue RustStr Network Thread Workflow Auth ReadGate EventStore ReadReq Tenant WorkflowRun.

Definition KIND_REACTION : N := 7.
Definition KIND_STREAM_MESSAGE : N := 9.
Definition KIND_STREAM_MESSAGE_DIFF : N := 40008.
Definition KIND_WORKFLOW_TRIGGERED : N := 46001.
Definition KIND_WORKFLOW_APPROVAL_DENIED : N := 46012.

Definition is_workflow_execution_kind (kind : N) : bool :=
  (KIND_WORKFLOW_TRIGGERED <=? kind)%N && (kind <=? KIND_WORKFLOW_APPROVAL_DENIED)%N.

Definition KIND_WORKFLOW_DEF : N := 30620.
Definition KIND_DM_OPEN : N := 41010.
Definition KIND_DM_ADD_MEMBER : N := 41011.
Definition KIND_DM_HIDE : N := 41012.
Definition KIND_WORKFLOW_TRIGGER : N := 46020.
Definition KIND_APPROVAL_GRANT : N := 46030.
Definition KIND_APPROVAL_DENY : N := 46031.

Definition one_of (kinds : list N) (kind : N) : bool := bool_decide (kind ∈ kinds).

Definition is_command_kind (kind : N) : bool :=
  one_of [KIND_WORKFLOW_DEF; KIND_DM_OPEN; KIND_DM_ADD_MEMBER; KIND_DM_HIDE; KIND_WORKFLOW_TRIGGER; KIND_APPROVAL_GRANT;
          KIND_APPROVAL_DENY] kind.

Definition NANOS : Z := 1000000000.
(** [DateTime::timestamp]. *)
Definition timestamp (t : Z) : Z := (t / NANOS)%Z.

Definition trigger_matches_event (trigger : TriggerDef) (kind : N) : bool :=
  match trigger with
  | MessagePosted _ => N.eqb kind KIND_STREAM_MESSAGE
  | ReactionAdded _ _ => N.eqb kind KIND_REACTION
  | DiffPosted _ => N.eqb kind KIND_STREAM_MESSAGE_DIFF
  | Schedule _ _ | Webhook => false
  end.

Definition owner_authority_allows (role : option string) (needs_elevated : bool) : bool :=
  match role with
  | None => false
  | Some r => if needs_elevated then bool_decide (r = "owner") || bool_decide (r = "admin") else true
  end.

(** ** Instants *)

Definition div_euclid (a b : Z) : Z := if (0 <? b)%Z then (a / b)%Z else (- (a / - b))%Z.

Definition interval_should_fire (dur : string) (last_fired : option Z) (now : Z) : bool :=
  match parse_duration_secs dur with
  | Ok interval_secs =>
      let last := default now last_fired in
      let elapsed := Z.abs (Z.quot (now - last) NANOS) in
      (Z.of_N interval_secs <=? elapsed)%Z
  | Err _ => false
  end.

Definition interval_fire_instant `{StoreLib} (dur : string) (now : Z) : option Z :=
  match parse_duration_secs dur with
  | Ok interval_secs =>
      if (0 <? interval_secs)%N then
        let secs := as_i64_wrapped interval_secs in
        from_timestamp (div_euclid (timestamp now) secs * secs)
      else None
  | Err _ => None
  end.

Definition cron_fire_instant `{DefLib} (expr : string) (now window_secs : Z) : option Z :=
  match cron_parse (normalize_cron expr) with
  | Ok sched =>
      match cron_after sched (now - window_secs * NANOS) with
      | Some t => if (t * NANOS <=? now)%Z then Some t else None
      | None => None
      end
  | Err _ => None
  end.

(** [last_fired]: the in-memory anchors of a pod. *)
Abbreviation Anchors := (gmap (CommunityId * Uuid) Z) (only parsing).

Definition interval_prefilter_should_fire (last_fired : Anchors) (c : CommunityId) (id : Uuid) (dur : string) (last : option Z) (now : Z)
  : Anchors * bool :=
  if interval_should_fire dur last now then (last_fired, true)
  else (if bool_decide (last = None) then <[(c, id) := now]> last_fired else last_fired, false).

(** ** Events *)

Section events.
Context `{NostrLib, ReadLib, TemplateLib, EvalLib, DefLib}.

Definition event_is_reply (event : Event) : bool := bool_decide (is_Some (tm_reply (parse_thread_markers (ev_tags event)))).

(** The target of a reaction: the last [e] tag with an event id. *)
Definition reaction_target (tags : list Tag) : option string :=
  head (omap (fun tag =>
    if bool_decide (tag_kind_string tag = "e") then
      v ← tag_content tag; if (String.length v =? 64)%nat && all_chars is_ascii_hexdigit v then Some v else None
    else None) (rev tags)).

Definition build_trigger_context (stored : StoredEvent) : TriggerContext :=
  let event := se_event stored in
  let is_reaction := N.eqb (ev_kind event) KIND_REACTION in
  mkTriggerContext (ev_content event) (rd_pk_hex (ev_pubkey event)) (default "" (uuid_to_string <$> se_channel_id stored))
    (to_decimal (ev_created_at event)) (if is_reaction then ev_content event else "")
    (if is_reaction then default (event_id_to_hex (ev_id event)) (reaction_target (ev_tags event)) else event_id_to_hex (ev_id event))
    (event_is_reply event) ∅.

Definition trigger_filter (trigger : TriggerDef) : option string :=
  match trigger with
  | MessagePosted f | ReactionAdded _ f | DiffPosted f => f
  | Schedule _ _ | Webhook => None
  end.

Definition should_fire_workflow (ended : EvalEnd) (def : WorkflowDef) (ctx : TriggerContext) : bool :=
  match wd_trigger def with
  | ReactionAdded (Some expected) _ => bool_decide (tc_emoji ctx = expected)
  | _ => true
  end &&
  match trigger_filter (wd_trigger def) with
  | Some expr => match evaluate_condition ended expr ctx ∅ with Ok b => b | Err _ => false end
  | None => true
  end.

Definition check_owner_authority (db : option WorkflowTables) (c : CommunityId) (channel_id : Uuid) (owner_pubkey : string)
    (def : WorkflowDef) : result unit WorkflowError :=
  match db with
  | None => Err (Unauthorized "owner authority lookup failed (fail-closed)")
  | Some db =>
      if owner_authority_allows (get_member_role db c channel_id owner_pubkey) (requires_elevated_authority def) then Ok tt
      else Err (Unauthorized "workflow owner lacks current channel authority")
  end.

(** What the queries made for one workflow find: the tables of the role read
    and of the run insertion, [None] when they fail, and the run's new id. *)
Record EventEnv := mkEventEnv {
  ee_eval : EvalEnd;
  ee_role : option WorkflowTables;
  ee_create : option WorkflowTables;
  ee_run_id : Uuid;
}.

(** A run to be spawned, with the tables after its insertion. *)
Record Spawn := mkSpawn { sp_workflow : WorkflowRecord; sp_def : WorkflowDef; sp_run : Uuid; sp_ctx : TriggerContext; sp_db : WorkflowTables }.

Definition fire_event_workflow (env : EventEnv) (c : CommunityId) (channel_id : Uuid) (event : Event) (ctx : TriggerContext)
    (workflow : WorkflowRecord) : option Spawn :=
  match def_of_json (wr_definition workflow) with
  | Err _ => None
  | Ok def =>
      if negb (wd_enabled def) || negb (trigger_matches_event (wd_trigger def) (ev_kind event)) then None
      else if negb (should_fire_workflow (ee_eval env) def ctx) then None
      else
        match check_owner_authority (ee_role env) c channel_id (wr_owner_pubkey workflow) def with
        | Err _ => None
        | Ok _ =>
            match ee_create env with
            | None => None
            | Some db =>
                match create_workflow_run db (ee_run_id env) c (wr_id workflow) (Some (rd_id_bytes (ev_id event))) (Some ctx) with
                | Err _ => None
                | Ok (db, run) => Some (mkSpawn workflow def run ctx db)
                end
            end
        end
  end.

(** The cache, the listing on a miss ([None] when it fails), then the workflows
    one after another. *)
Definition on_event (cache : gmap (CommunityId * Uuid) (list WorkflowRecord)) (listed : option WorkflowTables) (env : nat -> EventEnv)
    (c : CommunityId) (event : StoredEvent)
  : gmap (CommunityId * Uuid) (list WorkflowRecord) * list Spawn * result unit WorkflowError :=
  match se_channel_id event with
  | None => (cache, [], Ok tt)
  | Some channel_id =>
      if is_workflow_execution_kind (ev_kind (se_event event)) then (cache, [], Ok tt)
      else
        let go cache workflows :=
          let ctx := build_trigger_context event in
          (cache, omap (fun '(i, w) => fire_event_workflow (env i) c channel_id (se_event event) ctx w) (imap pair workflows), Ok tt) in
        match cache !! (c, channel_id) with
        | Some cached => go cache cached
        | None =>
            match listed with
            | None => (cache, [], Err (Database "list_enabled_channel_workflows"))
            | Some db =>
                let fresh := list_enabled_channel_workflows db c channel_id in
                go (<[(c, channel_id) := fresh]> cache) fresh
            end
        end
  end.

(** What [dispatch_persistent_event] does with a stored event: the messages that
    workflows post, signed by the relay and marked, start nothing. *)
Definition is_relay_workflow_msg (relay : PublicKey) (event : Event) : bool :=
  N.eqb (ev_pubkey event) relay && existsb (fun t => bool_decide (head t = Some "buzz:workflow")) (ev_tags event).

Definition dispatch_workflows (relay : PublicKey) (cache : gmap (CommunityId * Uuid) (list WorkflowRecord)) (listed : option WorkflowTables)
    (env : nat -> EventEnv) (c : CommunityId) (stored_event : StoredEvent)
  : gmap (CommunityId * Uuid) (list WorkflowRecord) * list Spawn :=
  let kind := ev_kind (se_event stored_event) in
  if negb (is_workflow_execution_kind kind) && negb (is_command_kind kind) &&
     negb (is_relay_workflow_msg relay (se_event stored_event)) && negb (N.eqb kind KIND_GIFT_WRAP)
  then (on_event cache listed env c stored_event).1
  else (cache, []).

(** The event the action sink signs with the relay's keys for [SendMessage];
    [more] are the thread's [e] tags and the mentions. *)
Definition workflow_message (relay : PublicKey) (id created_at : N) (author : PublicKey) (channel_id : Uuid) (more : list Tag)
    (text : string) : Event :=
  mkEvent id relay created_at KIND_STREAM_MESSAGE
    ([["p"; rd_pk_hex author]; ["h"; uuid_to_string channel_id]; ["buzz:workflow"; "true"];
      ["buzz:workflow-owner"; rd_pk_hex author]] ++ more) text.

Definition invalidate_channel_workflows (cache : gmap (CommunityId * Uuid) (list WorkflowRecord)) (c : CommunityId) (channel_id : Uuid) :=
  delete (c, channel_id) cache.
End events.

(** ** The scheduler *)

(** A workflow that is due: its record, definition, channel and instant. *)
Record DueJob := mkDueJob {
  jb_workflow : WorkflowRecord;
  jb_def : WorkflowDef;
  jb_channel : Uuid;
  jb_instant : Z;
  jb_interval : bool;
}.
Definition jb_key (j : DueJob) : CommunityId * Uuid * Z := (wr_community_id (jb_workflow j), wr_id (jb_workflow j), jb_instant j).

(** Where a pod's loop is: asleep, about to look at the next workflow, or before
    the query for its anchor, its owner's role, the claim, the run, the link. *)
Inductive TickPhase :=
| PhIdle
| PhNext (rest : list WorkflowRecord)
| PhAnchor (w : WorkflowRecord) (def : WorkflowDef) (channel_id : Uuid) (dur : string) (rest : list WorkflowRecord)
| PhAuth (j : DueJob) (rest : list WorkflowRecord)
| PhClaim (j : DueJob) (rest : list WorkflowRecord)
| PhCreate (j : DueJob) (rest : list WorkflowRecord)
| PhAttach (j : DueJob) (run : Uuid) (rest : list WorkflowRecord).

Record Pod := mkPod {
  pd_last_fired : Anchors;
  pd_now : Z;
  pd_workflows : list WorkflowRecord;
  pd_phase : TickPhase;
}.
Definition new_pod : Pod := mkPod ∅ 0 [] PhIdle.
Definition in_phase (phase : TickPhase) (p : Pod) : Pod := mkPod (pd_last_fired p) (pd_now p) (pd_workflows p) phase.
Definition set_anchors (m : Anchors) (p : Pod) : Pod := mkPod m (pd_now p) (pd_workflows p) (pd_phase p).

(** What an await is answered: whether the query ran, the clock, a new id. *)
Record Await := mkAwait { aw_ok : bool; aw_clock : Z; aw_run_id : Uuid }.

(** What a pod did that others can see. *)
Inductive TickEvent :=
| TkAuthorized (j : DueJob) (db : WorkflowTables)
| TkCreated (j : DueJob) (run : Uuid) (ctx : TriggerContext).

Section schedule.
Context `{NostrLib, UuidLib, HexLib, TemplateLib, EvalLib, DefLib, StoreLib, HttpLib}.

Definition mark_fired (j : DueJob) (p : Pod) : Pod :=
  if jb_interval j then set_anchors (<[(wr_community_id (jb_workflow j), wr_id (jb_workflow j)) := pd_now p]> (pd_last_fired p)) p else p.

(** The prefilter with the anchor found, then the instant. *)
Definition interval_due (p : Pod) (w : WorkflowRecord) (def : WorkflowDef) (channel_id : Uuid) (dur : string) (last : option Z)
    (rest : list WorkflowRecord) : Pod :=
  let '(anchors, fire) := interval_prefilter_should_fire (pd_last_fired p) (wr_community_id w) (wr_id w) dur last (pd_now p) in
  let p := set_anchors anchors p in
  if fire then
    match interval_fire_instant dur (pd_now p) with
    | Some instant => in_phase (PhAuth (mkDueJob w def channel_id instant true) rest) p
    | None => in_phase (PhNext rest) p
    end
  else in_phase (PhNext rest) p.

Definition next_workflow (p : Pod) (w : WorkflowRecord) (rest : list WorkflowRecord) : Pod :=
  let skip := in_phase (PhNext rest) p in
  match def_of_json (wr_definition w) with
  | Err _ => skip
  | Ok def =>
      if negb (wd_enabled def) then skip
      else
        match wr_channel_id w with
        | None => skip
        | Some channel_id =>
            match wd_trigger def with
            | Schedule (Some expr) None =>
                match cron_fire_instant expr (pd_now p) 60 with
                | Some instant => in_phase (PhAuth (mkDueJob w def channel_id instant false) rest) p
                | None => skip
                end
            | Schedule None (Some dur) =>
                match pd_last_fired p !! (wr_community_id w, wr_id w) with
                | Some t => interval_due p w def channel_id dur (Some t) rest
                | None => in_phase (PhAnchor w def channel_id dur rest) p
                end
            | _ => skip
            end
        end
  end.

(** Entries of workflows no longer listed are dropped at the end of a tick. *)
Definition prune (p : Pod) : Pod :=
  set_anchors (filter (fun kv => kv.1 ∈ ((fun w => (wr_community_id w, wr_id w)) <$> pd_workflows p)) (pd_last_fired p)) p.

Definition scheduled_context (p : Pod) (j : DueJob) : TriggerContext :=
  mkTriggerContext "" "" (uuid_to_string (jb_channel j))
    (match timestamp (pd_now p) with Zneg n => String "-" (to_decimal (Npos n)) | z => to_decimal (Z.to_N z) end) "" "" false ∅.

(** One query of a pod's loop, with what follows it up to the next. *)
Definition tick_step (a : Await) (db : WorkflowTables) (p : Pod) : WorkflowTables * Pod * list TickEvent :=
  match pd_phase p with
  | PhIdle =>
      if aw_ok a then
        let workflows := list_all_enabled_workflows db in
        (db, mkPod (pd_last_fired p) (aw_clock a) workflows (PhNext workflows), [])
      else (db, p, [])
  | PhNext [] => (db, in_phase PhIdle (prune p), [])
  | PhNext (w :: rest) => (db, next_workflow p w rest, [])
  | PhAnchor w def channel_id dur rest =>
      let last :=
        if aw_ok a then (fun s => s * NANOS)%Z <$> latest_scheduled_workflow_fire db (wr_community_id w) (wr_id w) else None in
      (db, interval_due p w def channel_id dur last rest, [])
  | PhAuth j rest =>
      let tables := if aw_ok a then Some db else None in
      match check_owner_authority tables (wr_community_id (jb_workflow j)) (jb_channel j) (wr_owner_pubkey (jb_workflow j)) (jb_def j) with
      | Ok _ => (db, in_phase (PhClaim j rest) p, [TkAuthorized j db])
      | Err _ => (db, in_phase (PhNext rest) p, [])
      end
  | PhClaim j rest =>
      if aw_ok a then
        let '(db, won) := claim_scheduled_workflow_fire (aw_clock a) db (wr_community_id (jb_workflow j)) (wr_id (jb_workflow j)) (jb_instant j) in
        match won with
        | Some _ => (db, in_phase (PhCreate j rest) p, [])
        | None => (db, in_phase (PhNext rest) (mark_fired j p), [])
        end
      else (db, in_phase (PhNext rest) p, [])
  | PhCreate j rest =>
      let ctx := scheduled_context p j in
      if aw_ok a then
        match create_workflow_run db (aw_run_id a) (wr_community_id (jb_workflow j)) (wr_id (jb_workflow j)) None (Some ctx) with
        | Ok (db, run) => (db, in_phase (PhAttach j run rest) p, [TkCreated j run ctx])
        | Err _ => (db, in_phase (PhNext rest) p, [])
        end
      else (db, in_phase (PhNext rest) p, [])
  | PhAttach j run rest =>
      let db := if aw_ok a then (attach_scheduled_workflow_run db (wr_community_id (jb_workflow j)) (wr_id (jb_workflow j)) (jb_instant j) run).1 else db in
      (db, in_phase (PhNext rest) (mark_fired j p), [])
  end.

(** ** Pods together *)

Record System := mkSystem { sy_db : WorkflowTables; sy_pods : list Pod; sy_log : list TickEvent }.

(** A query of a pod, a restart, or anything else that happens to the tables. *)
Inductive SysOp :=
| SyStep (pod : nat) (a : Await)
| SyRestart (pod : nat)
| SyChange (change : WorkflowTables -> WorkflowTables).

Definition sys_step (s : System) (op : SysOp) : System :=
  match op with
  | SyStep i a =>
      match sy_pods s !! i with
      | Some p => let '(db, p, events) := tick_step a (sy_db s) p in mkSystem db (<[i := p]> (sy_pods s)) (sy_log s ++ events)
      | None => s
      end
  | SyRestart i => mkSystem (sy_db s) (<[i := new_pod]> (sy_pods s)) (sy_log s)
  | SyChange change => mkSystem (change (sy_db s)) (sy_pods s) (sy_log s)
  end.

Definition sys_init (db : WorkflowTables) (pods : nat) : System := mkSystem db (replicate pods new_pod) [].

(** A lone pod's tick, every query answered. *)
Fixpoint drive (fuel : nat) (run_id : Uuid) (now : Z) (db : WorkflowTables) (p : Pod) : WorkflowTables * Pod * list TickEvent :=
  match fuel with
  | O => (db, p, [])
  | S fuel =>
      let '(db, p, events) := tick_step (mkAwait true now run_id) db p in
      match pd_phase p with
      | PhIdle => (db, p, events)
      | _ => let '(db, p, later) := drive fuel run_id now db p in (db, p, events ++ later)
      end
  end.
End schedule.
