(* ===== verification/WorkflowFires.v ===== *)
(** Theorems on what starts workflows: a schedule instant starts at most one
    run whatever the pods do, every run is started under the owner's current
    authority, and a lone pod fires an interval exactly when it has elapsed. *)

From S2P Require Import Prelude Nostr Filter JsonValue RustStr Network Thread Workflow Auth ReadGate EventStore ReadReq Tenant WorkflowRun WorkflowSchedule.

Section fires.
Context `{NostrLib, UuidLib, HexLib, TemplateLib, EvalLib, DefLib, StoreLib, HttpLib}.

Definition claimed (db : WorkflowTables) (k : CommunityId * Uuid * Z) : Prop :=
  existsb (fire_is k.1.1 k.1.2 k.2) (wt_fires db) = true.
Definition created_key (e : TickEvent) : option (CommunityId * Uuid * Z) :=
  match e with TkCreated j _ _ => Some (jb_key j) | TkAuthorized _ _ => None end.
Definition created_keys (log : list TickEvent) : list (CommunityId * Uuid * Z) := omap created_key log.
Definition pending (p : Pod) : option (CommunityId * Uuid * Z) := match pd_phase p with PhCreate j _ => Some (jb_key j) | _ => None end.

Lemma created_keys_app log log' : created_keys (log ++ log') = created_keys log ++ created_keys log'.
Proof. apply omap_app. Qed.

Lemma fire_is_spec c w t f : fire_is c w t f = true <-> fi_community_id f = c /\ fi_workflow_id f = w /\ fi_scheduled_for f = t.
Proof. unfold fire_is. rewrite !andb_true_iff, !bool_decide_eq_true, Z.eqb_eq. tauto. Qed.

Lemma attach_claimed db c w t run k : claimed (attach_scheduled_workflow_run db c w t run).1 k <-> claimed db k.
Proof.
  unfold claimed, attach_scheduled_workflow_run. cbn. induction (wt_fires db) as [|f fs IH]; [done|]. cbn.
  rewrite !orb_true_iff, IH. destruct (fire_is c w t f && _); done.
Qed.

Lemma pending_interval_due p w def ch dur last rest : pending (interval_due p w def ch dur last rest) = None.
Proof.
  unfold interval_due. destruct (interval_prefilter_should_fire _ _ _ _ _ _) as [m []]; [|done]. by destruct (interval_fire_instant _ _).
Qed.
Lemma pending_next_workflow p w rest : pending (next_workflow p w rest) = None.
Proof.
  unfold next_workflow. destruct (def_of_json _) as [def|]; [|done]. destruct (wd_enabled def); [|done]. cbn [negb].
  destruct (wr_channel_id w); [|done]. destruct (wd_trigger def) as [| | |[] []|]; try done.
  - by destruct (cron_fire_instant _ _ _).
  - destruct (pd_last_fired p !! _); [apply pending_interval_due|done].
Qed.

(** A step only adds claims; it wins a claim, starts the run of a claim it won,
    or does neither. *)
Lemma tick_step_cases a db p db' p' events :
  tick_step a db p = (db', p', events) ->
  (forall k, claimed db k -> claimed db' k) /\
  ((pending p' = None /\ created_keys events = []) \/
   (exists k, pending p = None /\ pending p' = Some k /\ created_keys events = [] /\ ~ claimed db k /\ claimed db' k) \/
   (exists k, pending p = Some k /\ pending p' = None /\ created_keys events = [k])).
Proof.
  unfold tick_step, pending at 2 4. destruct (pd_phase p) as [|[|w rest]|w def ch dur rest|j rest|j rest|j rest|j run rest] eqn:Ep; cbn zeta.
  - destruct (aw_ok a); intros [= <- <- <-]; (split; [done|]); left; [done|]. unfold pending. by rewrite Ep.
  - intros [= <- <- <-]. split; [done|]. by left.
  - intros [= <- <- <-]. split; [done|]. left. split; [apply pending_next_workflow|done].
  - intros [= <- <- <-]. split; [done|]. left. split; [apply pending_interval_due|done].
  - destruct (check_owner_authority _ _ _ _ _); intros [= <- <- <-]; (split; [done|]); by left.
  - destruct (aw_ok a); [|intros [= <- <- <-]; split; [done|]; by left]. unfold claim_scheduled_workflow_fire.
    destruct (existsb (workflow_is _ _) _ && _) eqn:Ec; [|intros [= <- <- <-]; split; [done|]; left; unfold mark_fired; by destruct (jb_interval j)].
    intros [= <- <- <-]. apply andb_true_iff in Ec as [_ Ec%negb_true_iff]. unfold claimed; cbn.
    split; [intros k Hk; rewrite existsb_app, Hk; done|]. right; left. exists (jb_key j). split_and!; [done..|cbn; congruence|].
    rewrite existsb_app. apply orb_true_iff. right. cbn. rewrite orb_false_r. by apply fire_is_spec.
  - destruct (aw_ok a); [|intros [= <- <- <-]; split; [done|]; by left]. unfold create_workflow_run.
    destruct (_ || _); [intros [= <- <- <-]; split; [done|]; by left|]. intros [= <- <- <-]. split; [done|]. right; right. by exists (jb_key j).
  - intros [= <- <- <-]. split; [|left; unfold mark_fired; by destruct (jb_interval j)]. intros k Hk. destruct (aw_ok a); [by apply attach_claimed|done].
Qed.

(** ** At most once *)

Record once (s : System) : Prop := {
  on_created : NoDup (created_keys (sy_log s));
  on_claimed k : k ∈ created_keys (sy_log s) -> claimed (sy_db s) k;
  on_pending i p k : sy_pods s !! i = Some p -> pending p = Some k -> claimed (sy_db s) k /\ ~ k ∈ created_keys (sy_log s);
  on_alone i i' p p' k : sy_pods s !! i = Some p -> sy_pods s !! i' = Some p' -> pending p = Some k -> pending p' = Some k -> i = i';
}.

Definition keeps_claims (op : SysOp) : Prop :=
  match op with SyChange change => forall db, wt_fires (change db) = wt_fires db | _ => True end.

Lemma once_tick s i a : once s -> once (sys_step s (SyStep i a)).
Proof.
  intros [Hnd Hcl Hpe Hal]. cbn [sys_step]. destruct (sy_pods s !! i) as [p|] eqn:Ei; [|done]. destruct (tick_step a (sy_db s) p) as [[db p'] events] eqn:Et.
  apply tick_step_cases in Et as [Hmono Hcases].
  assert (forall x q, <[i:=p']> (sy_pods s) !! x = Some q -> (x = i /\ q = p') \/ (x <> i /\ sy_pods s !! x = Some q)) as Hlook.
  { intros x q Hx. apply list_lookup_insert_Some in Hx as [(-> & -> & _)|[? ?]]; auto. }
  destruct Hcases as [[Hp Hev]|[(k & Hp0 & Hp & Hev & Hun & Hck)|(k & Hp0 & Hp & Hev)]]; split; cbn [sy_log sy_db sy_pods];
    rewrite ?created_keys_app, ?Hev, ?app_nil_r; auto.
  - intros x q k Hx Hq. destruct (Hlook _ _ Hx) as [[-> ->]|[_ Hx']]; [congruence|]. destruct (Hpe _ _ _ Hx' Hq). auto.
  - intros x y q r k Hx Hy Hq Hr. destruct (Hlook _ _ Hx) as [[-> ->]|[_ Hx']]; [congruence|].
    destruct (Hlook _ _ Hy) as [[-> ->]|[_ Hy']]; [congruence|]. by eapply Hal.
  - intros x q k' Hx Hq. destruct (Hlook _ _ Hx) as [[-> ->]|[_ Hx']]; [|destruct (Hpe _ _ _ Hx' Hq); auto].
    assert (k' = k) as -> by congruence. split; [done|]. intros Hin. by apply Hun, Hcl.
  - intros x y q r k' Hx Hy Hq Hr. destruct (Hlook _ _ Hx) as [[-> ->]|[? Hx']], (Hlook _ _ Hy) as [[-> ->]|[? Hy']]; [done|..].
    + assert (k' = k) as -> by congruence. destruct Hun. by eapply Hpe.
    + assert (k' = k) as -> by congruence. destruct Hun. by eapply Hpe.
    + by eapply Hal.
  - apply NoDup_app. split_and!; [done| |apply NoDup_singleton]. intros x Hx ->%list_elem_of_singleton. by apply (proj2 (Hpe _ _ _ Ei Hp0)).
  - intros x [Hx| ->%list_elem_of_singleton]%elem_of_app; [auto|]. apply Hmono. by eapply Hpe.
  - intros x q k' Hx Hq. destruct (Hlook _ _ Hx) as [[-> ->]|[Hne Hx']]; [congruence|]. destruct (Hpe _ _ _ Hx' Hq) as [? Hni]. split; [auto|].
    intros [?| ->%list_elem_of_singleton]%elem_of_app; [done|]. by apply Hne, (Hal x i q p k).
  - intros x y q r k' Hx Hy Hq Hr. destruct (Hlook _ _ Hx) as [[-> ->]|[_ Hx']]; [congruence|].
    destruct (Hlook _ _ Hy) as [[-> ->]|[_ Hy']]; [congruence|]. by eapply Hal.
Qed.

Lemma once_step s op : keeps_claims op -> once s -> once (sys_step s op).
Proof.
  intros Hop Ho. destruct op as [i a|i|change]; [by apply once_tick|destruct Ho as [Hnd Hcl Hpe Hal]; cbn [sys_step]..].
  - assert (forall x q, <[i:=new_pod]> (sy_pods s) !! x = Some q -> q = new_pod \/ sy_pods s !! x = Some q) as Hlook.
    { intros x q Hx. apply list_lookup_insert_Some in Hx as [(-> & -> & _)|[? ?]]; auto. }
    split; cbn [sy_log sy_db sy_pods]; auto.
    + intros x q k Hx Hq. destruct (Hlook _ _ Hx) as [->|Hx']; [done|]. by eapply Hpe.
    + intros x y q r k Hx Hy Hq Hr. destruct (Hlook _ _ Hx) as [->|Hx']; [done|]. destruct (Hlook _ _ Hy) as [->|Hy']; [done|]. by eapply Hal.
  - assert (forall k, claimed (change (sy_db s)) k <-> claimed (sy_db s) k) as Heq by (intros k; unfold claimed; by rewrite Hop).
    split; cbn [sy_log sy_db sy_pods]; [done| | |done]; setoid_rewrite Heq; auto.
Qed.
Lemma once_run s ops : Forall keeps_claims ops -> once s -> once (foldl sys_step s ops).
Proof. revert s. induction ops as [|op ops IH]; intros s; [done|]. rewrite Forall_cons. intros [Hop Hops] Ho. by apply IH, once_step. Qed.
Lemma pods_new n i p : replicate n new_pod !! i = Some p -> p = new_pod.
Proof. intros Hl. by apply lookup_replicate_1 in Hl as [-> _]. Qed.
Lemma once_init db n : once (sys_init db n).
Proof. split; cbn; [constructor|by intros k ?%elem_of_nil|..]; intros i; intros; by repeat match goal with H : replicate _ _ !! _ = _ |- _ => apply pods_new in H as -> end. Qed.

(** ** Authority *)

Definition has_authority (db : WorkflowTables) (c : CommunityId) (channel_id : Uuid) (owner : string) (def : WorkflowDef) : Prop :=
  exists role, get_member_role db c channel_id owner = Some role /\
    (requires_elevated_authority def = true -> role = "owner" \/ role = "admin").

Lemma check_owner_authority_ok db c ch owner def :
  check_owner_authority db c ch owner def = Ok tt -> exists tables, db = Some tables /\ has_authority tables c ch owner def.
Proof.
  unfold check_owner_authority. destruct db as [db|]; [|done]. unfold has_authority, owner_authority_allows.
  destruct (get_member_role db c ch owner) as [role|] eqn:Er; [|done]. destruct (requires_elevated_authority def).
  - destruct (bool_decide (role = "owner") || bool_decide (role = "admin")) eqn:E; [|done]. intros _.
    exists db. split; [done|]. exists role. split; [done|]. intros _.
    apply orb_true_iff in E as [E|E]; apply bool_decide_eq_true in E; [by left|by right].
  - intros _. exists db. split; [done|]. by exists role.
Qed.

(** A due workflow, as its record says. *)
Definition due (j : DueJob) : Prop :=
  def_of_json (wr_definition (jb_workflow j)) = Ok (jb_def j) /\ wd_enabled (jb_def j) = true /\
  wr_channel_id (jb_workflow j) = Some (jb_channel j).

Definition job_authority (db : WorkflowTables) (j : DueJob) : Prop :=
  has_authority db (wr_community_id (jb_workflow j)) (jb_channel j) (wr_owner_pubkey (jb_workflow j)) (jb_def j).

(** The authority of a job was checked. *)
Definition checked (log : list TickEvent) (j : DueJob) : Prop := due j /\ exists db, TkAuthorized j db ∈ log /\ job_authority db j.

Definition phase_ok (log : list TickEvent) (phase : TickPhase) : Prop :=
  match phase with
  | PhAnchor w def ch _ _ => def_of_json (wr_definition w) = Ok def /\ wd_enabled def = true /\ wr_channel_id w = Some ch
  | PhAuth j _ => due j
  | PhClaim j _ | PhCreate j _ => checked log j
  | _ => True
  end.

Lemma phase_ok_app log log' phase : phase_ok log phase -> phase_ok (log ++ log') phase.
Proof.
  destruct phase; cbn; try done; intros (Hd & db & Hin & Ha); (split; [done|]); exists db; (split; [apply elem_of_app; by left|done]).
Qed.

Lemma interval_due_ok log p w def ch dur last rest :
  def_of_json (wr_definition w) = Ok def -> wd_enabled def = true -> wr_channel_id w = Some ch ->
  phase_ok log (pd_phase (interval_due p w def ch dur last rest)).
Proof.
  intros. unfold interval_due. destruct (interval_prefilter_should_fire _ _ _ _ _ _) as [m []]; [|done]. by destruct (interval_fire_instant _ _).
Qed.
Lemma next_workflow_ok log p w rest : phase_ok log (pd_phase (next_workflow p w rest)).
Proof.
  unfold next_workflow. destruct (def_of_json (wr_definition w)) as [def|] eqn:Ed; [|done]. destruct (wd_enabled def) eqn:Ee; [|done]. cbn [negb].
  destruct (wr_channel_id w) as [ch|] eqn:Ec; [|done]. destruct (wd_trigger def) as [| | |[expr|] [dur|]|]; try done.
  - by destruct (cron_fire_instant _ _ _).
  - destruct (pd_last_fired p !! _); [by apply interval_due_ok|done].
Qed.
Lemma mark_fired_phase j p phase : pd_phase (in_phase phase (mark_fired j p)) = phase.
Proof. done. Qed.

(** A step keeps the phase well founded, and starts only runs that were checked. *)
Lemma tick_step_checked log a db p db' p' events :
  tick_step a db p = (db', p', events) -> phase_ok log (pd_phase p) ->
  phase_ok (log ++ events) (pd_phase p') /\
  forall j run ctx, TkCreated j run ctx ∈ events -> checked log j.
Proof.
  assert (forall j run ctx, TkCreated j run ctx ∈ @nil TickEvent -> checked log j) as Hnil by by intros ? ? ? ?%elem_of_nil.
  unfold tick_step. destruct (pd_phase p) as [|[|w rest]|w def ch dur rest|j rest|j rest|j rest|j run rest] eqn:Ep; cbn zeta.
  - destruct (aw_ok a); intros [= <- <- <-] Hp; (split; [|done]); [done|]. by rewrite Ep.
  - by intros [= <- <- <-] _.
  - intros [= <- <- <-] _. split; [apply next_workflow_ok|done].
  - intros [= <- <- <-] (? & ? & ?). split; [by apply interval_due_ok|done].
  - destruct (check_owner_authority _ _ _ _ _) as [[]|] eqn:Ea; intros [= <- <- <-] Hd; [|done]. split.
    + split; [done|]. apply check_owner_authority_ok in Ea as (tables & Et & Ha). exists db. split; [apply elem_of_app; right; left|].
      destruct (aw_ok a); [|done]. by injection Et as ->.
    + by intros j' run ctx [?|?%elem_of_nil]%elem_of_cons.
  - destruct (aw_ok a); [|by intros [= <- <- <-]]. destruct (claim_scheduled_workflow_fire _ _ _ _ _) as [db1 [f|]]; intros [= <- <- <-] Hc; (split; [|done]).
    + rewrite app_nil_r. exact Hc.
    + done.
  - destruct (aw_ok a); [|by intros [= <- <- <-]]. destruct (create_workflow_run _ _ _ _ _ _) as [[db1 run]|]; intros [= <- <- <-] Hc; [|done].
    split; [done|]. intros j' run' ctx [[= -> _ _]|?%elem_of_nil]%elem_of_cons; done.
  - by intros [= <- <- <-] _.
Qed.

Record authorized (s : System) : Prop := {
  au_log n j run ctx : sy_log s !! n = Some (TkCreated j run ctx) -> checked (take n (sy_log s)) j;
  au_pods i p : sy_pods s !! i = Some p -> phase_ok (sy_log s) (pd_phase p);
}.
Lemma checked_app log log' j : checked log j -> checked (log ++ log') j.
Proof. intros (Hd & db & Hin & Ha). split; [done|]. exists db. split; [apply elem_of_app; by left|done]. Qed.

Lemma authorized_step s op : authorized s -> authorized (sys_step s op).
Proof.
  intros [Hlog Hpods]. destruct op as [i a|i|change]; cbn [sys_step].
  - destruct (sy_pods s !! i) as [p|] eqn:Ei; [|done]. destruct (tick_step a (sy_db s) p) as [[db p'] events] eqn:Et.
    apply (tick_step_checked (sy_log s)) in Et as [Hp' Hev]; [|by eapply Hpods]. split; cbn [sy_log sy_pods].
    + intros n j run ctx Hn. apply lookup_app_Some in Hn as [Hn|[Hge Hn]].
      * rewrite take_app_le by (apply lookup_lt_Some in Hn; lia). by eapply Hlog.
      * rewrite take_app_ge by lia. apply checked_app. eapply Hev. by eapply list_elem_of_lookup_2.
    + intros x q Hx. apply list_lookup_insert_Some in Hx as [(-> & -> & _)|[_ Hx]]; [done|]. by eapply phase_ok_app, Hpods.
  - split; cbn [sy_log sy_pods]; [done|]. intros x q Hx. apply list_lookup_insert_Some in Hx as [(_ & <- & _)|[_ Hx]]; [done|]. by eapply Hpods.
  - by split.
Qed.
Lemma authorized_run s ops : authorized s -> authorized (foldl sys_step s ops).
Proof. revert s. induction ops as [|op ops IH]; intros s Ha; [done|]. by apply IH, authorized_step. Qed.
Lemma authorized_init db n : authorized (sys_init db n).
Proof. split; cbn; [by intros ? ? ? ? ?|]. by intros i p ->%pods_new. Qed.

(** ** Events *)

Lemma fire_event_workflow_some `{ReadLib} env c ch event ctx w sp :
  fire_event_workflow env c ch event ctx w = Some sp ->
  sp_workflow sp = w /\ def_of_json (wr_definition w) = Ok (sp_def sp) /\ wd_enabled (sp_def sp) = true /\
  trigger_matches_event (wd_trigger (sp_def sp)) (ev_kind event) = true /\ should_fire_workflow (ee_eval env) (sp_def sp) ctx = true /\
  exists tables, ee_role env = Some tables /\ has_authority tables c ch (wr_owner_pubkey w) (sp_def sp).
Proof.
  unfold fire_event_workflow. destruct (def_of_json (wr_definition w)) as [def|]; [|done].
  destruct (wd_enabled def) eqn:Ee; [|done]. destruct (trigger_matches_event _ _) eqn:Et; [|done]. cbn [negb orb].
  destruct (should_fire_workflow _ _ _) eqn:Es; [|done]. cbn [negb].
  destruct (check_owner_authority _ _ _ _ _) as [[]|] eqn:Ea; [|done]. destruct (ee_create env) as [db|]; [|done].
  destruct (create_workflow_run _ _ _ _ _ _) as [[db' run]|]; [|done]. intros [= <-]. cbn. split_and!; try done.
  by apply check_owner_authority_ok.
Qed.

(** A run that an event started. *)
Definition event_authorized `{ReadLib} (env : nat -> EventEnv) (c : CommunityId) (event : StoredEvent) (sp : Spawn) : Prop :=
  is_workflow_execution_kind (ev_kind (se_event event)) = false /\
  exists i ch, se_channel_id event = Some ch /\
    trigger_matches_event (wd_trigger (sp_def sp)) (ev_kind (se_event event)) = true /\
    should_fire_workflow (ee_eval (env i)) (sp_def sp) (build_trigger_context event) = true /\
    exists tables, ee_role (env i) = Some tables /\ has_authority tables c ch (wr_owner_pubkey (sp_workflow sp)) (sp_def sp).

Lemma on_event_authorized `{ReadLib} cache listed env c event sp :
  sp ∈ (on_event cache listed env c event).1.2 -> event_authorized env c event sp.
Proof.
  unfold on_event. destruct (se_channel_id event) as [ch|] eqn:Ech; [|by intros ?%elem_of_nil].
  destruct (is_workflow_execution_kind _) eqn:Ek; [by intros ?%elem_of_nil|].
  assert (forall ws, sp ∈ omap (fun '(i, w) => fire_event_workflow (env i) c ch (se_event event) (build_trigger_context event) w) (imap pair ws) ->
    event_authorized env c event sp) as Hgo.
  { intros ws ([i w] & _ & Hf)%list_elem_of_omap. apply fire_event_workflow_some in Hf as (<- & _ & _ & ? & ? & Ha). split; [done|]. exists i, ch. done. }
  destruct (cache !! (c, ch)); [apply Hgo|]. destruct listed; [apply Hgo|by intros ?%elem_of_nil].
Qed.

Lemma dispatch_authorized `{ReadLib} relay cache listed env c event sp :
  sp ∈ (dispatch_workflows relay cache listed env c event).2 -> event_authorized env c event sp.
Proof.
  unfold dispatch_workflows. case_match; [apply on_event_authorized|by intros ?%elem_of_nil].
Qed.

Lemma workflow_message_marked `{ReadLib} relay id t author ch more text :
  is_relay_workflow_msg relay (workflow_message relay id t author ch more text) = true.
Proof.
  unfold is_relay_workflow_msg. cbn [ev_pubkey ev_tags workflow_message]. rewrite N.eqb_refl. cbn [andb].
  apply existsb_elem_of. exists ["buzz:workflow"; "true"]. split; [|done]. apply elem_of_app. left. set_solver.
Qed.

Lemma dispatch_emitted `{ReadLib} relay cache listed env c event :
  (is_workflow_execution_kind (ev_kind (se_event event)) = true \/
   exists id t author ch more text, se_event event = workflow_message relay id t author ch more text) ->
  dispatch_workflows relay cache listed env c event = (cache, []).
Proof.
  unfold dispatch_workflows. intros [->|(id & t & author & ch & more & text & ->)]; [done|].
  by rewrite workflow_message_marked, !andb_false_r.
Qed.

(** ** Claims *)

(** C10: however many pods run the scheduler, with their queries interleaved,
    failing and their processes restarting at any point, one schedule instant of
    one workflow of one community starts at most one run, and only after the
    instant was claimed; a pod that lost the claim or crashed after winning it
    never causes a second run.  The other changes of the tables keep the claims. *)
Theorem scheduled_fire_at_most_once (db : WorkflowTables) (pods : nat) (ops : list SysOp) :
  Forall keeps_claims ops ->
  let s := foldl sys_step (sys_init db pods) ops in
  NoDup (created_keys (sy_log s)) /\ forall k, k ∈ created_keys (sy_log s) -> claimed (sy_db s) k.
Proof. intros Hops s. destruct (once_run (sys_init db pods) ops Hops (once_init db pods)) as [Hnd Hcl _ _]. done. Qed.

(** C17: no workflow runs without its owner's authority at the time.  Every run
    of the scheduler, over any interleaving of the pods and changes of the
    tables, comes after a check in which its owner was a live member of the
    workflow's live channel, with the role owner or admin when a step calls a
    webhook; and so does every run a stored event starts, for an event of the
    kind of its trigger whose filter holds, however stale the cached list of
    workflows is.  The events workflows emit start nothing: not those of the
    workflow-execution kinds, and not the messages they post, which the relay
    signs and marks.  A role read that fails denies. *)
Theorem workflow_runs_authorized `{ReadLib} (db : WorkflowTables) (pods : nat) (ops : list SysOp) :
  (let log := sy_log (foldl sys_step (sys_init db pods) ops) in
   forall n j run ctx, log !! n = Some (TkCreated j run ctx) ->
     due j /\ exists m tables, (m < n)%nat /\ log !! m = Some (TkAuthorized j tables) /\ job_authority tables j) /\
  (forall relay cache listed env c event,
     (forall sp, sp ∈ (dispatch_workflows relay cache listed env c event).2 -> event_authorized env c event sp) /\
     ((is_workflow_execution_kind (ev_kind (se_event event)) = true \/
       exists id t author ch more text, se_event event = workflow_message relay id t author ch more text) ->
      dispatch_workflows relay cache listed env c event = (cache, []))).
Proof.
  split; [|split; [apply dispatch_authorized|apply dispatch_emitted]]. intros log n j run ctx Hn.
  destruct (au_log _ (authorized_run (sys_init db pods) ops (authorized_init db pods)) n j run ctx Hn) as (Hd & tables & Hin & Ha).
  split; [done|]. apply list_elem_of_lookup in Hin as [m Hm]. apply lookup_take_Some in Hm as [Hm Hlt]. by exists m, tables.
Qed.
End fires.

(** * An interval workflow on a lone pod: it fires exactly at the ticks at which
    its interval has elapsed since the last fire, or since the first tick.
    Across restarts it may fire twice within an interval. *)

From Stdlib Require Import Sorting.Sorted.

(** The ticks at which an interval has elapsed since the last of them; the first
    tick only starts the clock. *)
Fixpoint spaced (secs : Z) (anchor : option Z) (times : list Z) : list Z :=
  match times with
  | [] => []
  | t :: times =>
      match anchor with
      | None => spaced secs (Some t) times
      | Some a => if (secs <=? (t - a) / NANOS)%Z then t :: spaced secs (Some t) times else spaced secs (Some a) times
      end
  end.

Definition bucket (secs t : Z) : Z := (timestamp t / secs * secs)%Z.

Lemma elapsed_bucket secs a t : (0 < secs)%Z -> (secs <= (t - a) / NANOS)%Z -> (bucket secs a < bucket secs t)%Z.
Proof.
  intros Hs He. unfold bucket, timestamp, NANOS in *.
  assert (a / 1000000000 + secs <= t / 1000000000)%Z as Ht.
  { pose proof (Z.mul_div_le (t - a) 1000000000 ltac:(lia)). pose proof (Z.mul_div_le a 1000000000 ltac:(lia)).
    apply Z.div_le_lower_bound; [lia|]. nia. }
  set (x := (a / 1000000000)%Z) in *. set (y := (t / 1000000000)%Z) in *.
  assert (x / secs + 1 <= y / secs)%Z; [|nia]. rewrite <- (Z.div_add x 1 secs) by lia. apply Z.div_le_mono; lia.
Qed.

Section interval.
Context `{NostrLib, UuidLib, HexLib, TemplateLib, EvalLib, DefLib, StoreLib, HttpLib}.

(** An interval workflow that the scheduler lists alone and may run. *)
Record interval_workflow (w : WorkflowRecord) (def : WorkflowDef) (ch : Uuid) (dur : string) (secs : N) : Prop := {
  iw_def : def_of_json (wr_definition w) = Ok def;
  iw_enabled : wd_enabled def = true;
  iw_channel : wr_channel_id w = Some ch;
  iw_trigger : wd_trigger def = Schedule None (Some dur);
  iw_secs : parse_duration_secs dur = Ok secs;
  iw_range : (0 < secs < 2 ^ 63)%N;
}.
Record lone (w : WorkflowRecord) (def : WorkflowDef) (ch : Uuid) (db : WorkflowTables) : Prop := {
  ln_listed : list_all_enabled_workflows db = [w];
  ln_row : existsb (workflow_is (wr_community_id w) (wr_id w)) (wt_workflows db) = true;
  ln_role : owner_authority_allows (get_member_role db (wr_community_id w) ch (wr_owner_pubkey w)) (requires_elevated_authority def) = true;
}.

(** The ticks of a pod, each with the id its run would get, and when it fired. *)
Fixpoint fired_at (db : WorkflowTables) (p : Pod) (ticks : list (Z * Uuid)) : list Z :=
  match ticks with
  | [] => []
  | (now, run) :: ticks =>
      let '(db, p, events) := drive 9 run now db p in
      (if existsb (fun e => match e with TkCreated _ _ _ => true | _ => false end) events then [now] else []) ++ fired_at db p ticks
  end.

Context (w : WorkflowRecord) (def : WorkflowDef) (ch : Uuid) (dur : string) (secs : N).
Context (Hw : interval_workflow w def ch dur secs).
Local Abbreviation key := (wr_community_id w, wr_id w).

Lemma drive_step fuel run now db p db' p' events :
  tick_step (mkAwait true now run) db p = (db', p', events) -> pd_phase p' <> PhIdle ->
  drive (S fuel) run now db p = let '(db2, p2, later) := drive fuel run now db' p' in (db2, p2, events ++ later).
Proof. intros Ht Hp. cbn. rewrite Ht. by destruct (pd_phase p'). Qed.
Lemma drive_last fuel run now db p db' p' events :
  tick_step (mkAwait true now run) db p = (db', p', events) -> pd_phase p' = PhIdle -> drive (S fuel) run now db p = (db', p', events).
Proof. intros Ht Hp. cbn. by rewrite Ht, Hp. Qed.

(** The end of a tick of the one workflow keeps its anchor. *)
Lemma drive_end fuel run now db m :
  exists m', drive (S fuel) run now db (mkPod m now [w] (PhNext [])) = (db, mkPod m' now [w] PhIdle, []) /\ m' !! key = m !! key.
Proof.
  eexists. split; [by apply drive_last|]. cbn. destruct (m !! key) as [x|] eqn:E.
  - apply map_lookup_filter_Some. split; [done|]. cbn. by left.
  - apply map_lookup_filter_None. by left.
Qed.

Lemma lone_begin fuel run now db m now0 ws :
  lone w def ch db -> drive (S (S fuel)) run now db (mkPod m now0 ws PhIdle) =
  (let '(db2, p2, later) := drive (S fuel) run now db (mkPod m now [w] (PhNext [w])) in (db2, p2, later)).
Proof.
  intros Hl. rewrite (drive_step _ _ _ _ _ db (mkPod m now [w] (PhNext [w])) []); [|by unfold tick_step; cbn [pd_phase aw_ok aw_clock pd_last_fired]; rewrite (ln_listed _ _ _ _ Hl)|done].
  by destruct (drive (S fuel) _ _ _ _) as [[? ?] ?].
Qed.

(** The decision at the anchor found. *)
Lemma interval_due_eq m now ph last rest :
  let due := (Z.of_N secs <=? Z.abs (Z.quot (now - default now last) NANOS))%Z in
  from_timestamp (bucket (Z.of_N secs) now) = Some (bucket (Z.of_N secs) now) ->
  interval_due (mkPod m now [w] ph) w def ch dur last rest =
    if due then mkPod m now [w] (PhAuth (mkDueJob w def ch (bucket (Z.of_N secs) now) true) rest)
    else mkPod (if bool_decide (last = None) then <[key := now]> m else m) now [w] (PhNext rest).
Proof.
  intros due Hts. pose proof (iw_range _ _ _ _ _ Hw) as Hr. unfold interval_due, interval_prefilter_should_fire, interval_should_fire. cbn [pd_now pd_last_fired].
  rewrite (iw_secs _ _ _ _ _ Hw). fold due. destruct due; [|done]. cbn. unfold interval_fire_instant. rewrite (iw_secs _ _ _ _ _ Hw).
  destruct (0 <? secs)%N eqn:E0; [|apply N.ltb_ge in E0; lia]. rewrite as_i64_small by lia. unfold div_euclid.
  destruct (0 <? Z.of_N secs)%Z eqn:E1; [|apply Z.ltb_ge in E1; lia]. fold (bucket (Z.of_N secs) now).
  by rewrite Hts.
Qed.

Lemma lone_set_runs db runs : lone w def ch db -> lone w def ch (set_runs runs db).
Proof. intros [? ? ?]. by split. Qed.
Lemma lone_set_fires db fs : lone w def ch db -> lone w def ch (set_fires fs db).
Proof. intros [? ? ?]. by split. Qed.

(** The rest of a tick that is due and whose instant is unclaimed. *)
Lemma drive_fire fuel run now db m t :
  lone w def ch db -> existsb (fire_is (wr_community_id w) (wr_id w) t) (wt_fires db) = false ->
  existsb (run_is (wr_community_id w) run) (wt_runs db) = false ->
  exists db' m' e e', drive (5 + fuel) run now db (mkPod m now [w] (PhAuth (mkDueJob w def ch t true) [])) =
    (db', mkPod m' now [w] PhIdle, [e; e']) /\ (exists j ctx, e' = TkCreated j run ctx) /\ lone w def ch db' /\ m' !! key = Some now /\
    (forall f, f ∈ wt_fires db' -> fi_scheduled_for f = t \/ exists f0, f0 ∈ wt_fires db /\ fi_scheduled_for f0 = fi_scheduled_for f /\
       fi_community_id f0 = fi_community_id f /\ fi_workflow_id f0 = fi_workflow_id f) /\
    (forall r, r ∈ wt_runs db' -> r ∈ wt_runs db \/ rn_id r = run).
Proof.
  intros Hl Hun Hrun. set (j := mkDueJob w def ch t true). cbn [Nat.add].
  rewrite (drive_step _ _ _ _ _ db (mkPod m now [w] (PhClaim j [])) [TkAuthorized j db]); [| |done].
  2: { unfold tick_step. cbn [pd_phase]. unfold check_owner_authority. cbn [aw_ok j jb_workflow jb_channel jb_def]. by rewrite (ln_role _ _ _ _ Hl). }
  set (db1 := set_fires (wt_fires db ++ [mkFireRow (wr_community_id w) (wr_id w) t now None]) db).
  rewrite (drive_step _ _ _ _ _ db1 (mkPod m now [w] (PhCreate j [])) []); [| |done].
  2: { unfold tick_step, claim_scheduled_workflow_fire. cbn [pd_phase aw_ok j jb_workflow jb_instant]. by rewrite (ln_row _ _ _ _ Hl), Hun. }
  set (ctx := scheduled_context (mkPod m now [w] (PhCreate j [])) j).
  set (row := mkWorkflowRunRecord run (wr_community_id w) (wr_id w) RsPending None 0 (JArray []) (Some ctx) None None None None).
  set (db2 := set_runs (wt_runs db ++ [row]) db1).
  rewrite (drive_step _ _ _ _ _ db2 (mkPod m now [w] (PhAttach j run [])) [TkCreated j run ctx]); [| |done].
  2: { unfold tick_step, create_workflow_run. cbn [pd_phase aw_ok aw_run_id j jb_workflow]. cbn [db1 set_fires wt_runs wt_workflows].
    by rewrite Hrun, (ln_row _ _ _ _ Hl). }
  set (db3 := (attach_scheduled_workflow_run db2 (wr_community_id w) (wr_id w) t run).1).
  rewrite (drive_step _ _ _ _ _ db3 (mkPod (<[key:=now]> m) now [w] (PhNext [])) []); [|done..].
  destruct (drive_end fuel run now db3 (<[key:=now]> m)) as (m' & -> & Hm').
  exists db3, m', (TkAuthorized j db), (TkCreated j run ctx). split; [done|]. split; [eauto|]. split; [by apply lone_set_fires, lone_set_runs, lone_set_fires|].
  split; [by rewrite Hm', lookup_insert_eq|]. split.
  - intros f Hf. subst db3. unfold attach_scheduled_workflow_run in Hf. cbn in Hf. apply list_elem_of_fmap in Hf as (f0 & -> & Hf0).
    assert (fi_scheduled_for f0 = t \/ f0 ∈ wt_fires db) as [Ht|Hin].
    { apply elem_of_app in Hf0 as [?|Hf0]; [by right|]. apply list_elem_of_singleton in Hf0 as ->. by left. }
    + left. by destruct (_ && _).
    + right. exists f0. by destruct (_ && _).
  - intros r Hr. cbn in Hr. apply elem_of_app in Hr as [?|Hr]; [by left|]. apply list_elem_of_singleton in Hr as ->. by right.
Qed.

(** The claims of the workflow are no later than the bucket of its anchor. *)
Definition claims_before (db : WorkflowTables) (anchor : option Z) : Prop :=
  forall f, f ∈ wt_fires db -> fi_community_id f = wr_community_id w -> fi_workflow_id f = wr_id w ->
    exists a, anchor = Some a /\ (fi_scheduled_for f <= bucket (Z.of_N secs) a)%Z.

Lemma no_claims_latest db : claims_before db None -> latest_scheduled_workflow_fire db (wr_community_id w) (wr_id w) = None.
Proof.
  intros Hc. unfold latest_scheduled_workflow_fire.
  assert (List.filter (fun f => bool_decide (fi_community_id f = wr_community_id w) && bool_decide (fi_workflow_id f = wr_id w)) (wt_fires db) = []) as ->; [|done].
  destruct (List.filter _ _) as [|f fs] eqn:E; [done|]. assert (f ∈ List.filter (fun f => bool_decide (fi_community_id f = wr_community_id w) && bool_decide (fi_workflow_id f = wr_id w)) (wt_fires db)) as Hf by (rewrite E; left).
  apply elem_of_filter_bool in Hf as [Hin [H1' H2']%andb_true_iff]. apply bool_decide_eq_true in H1', H2'. by destruct (Hc f Hin H1' H2') as (? & ? & _).
Qed.

Lemma unclaimed db a t :
  claims_before db (Some a) -> (bucket (Z.of_N secs) a < t)%Z -> existsb (fire_is (wr_community_id w) (wr_id w) t) (wt_fires db) = false.
Proof.
  intros Hc Ht. apply not_true_iff_false. intros (f & Hin & Hf)%existsb_elem_of. unfold fire_is in Hf.
  rewrite !andb_true_iff, !bool_decide_eq_true, Z.eqb_eq in Hf. destruct Hf as [[? ?] ?]. destruct (Hc f Hin) as (x & [= <-] & ?); [done..|lia].
Qed.

(** One tick, at an anchor that was set: it fires when due. *)
Lemma lone_tick run now db m now0 ws a :
  lone w def ch db -> claims_before db (Some a) -> m !! key = Some a -> (a <= now)%Z ->
  from_timestamp (bucket (Z.of_N secs) now) = Some (bucket (Z.of_N secs) now) ->
  existsb (run_is (wr_community_id w) run) (wt_runs db) = false ->
  let due := (Z.of_N secs <=? (now - a) / NANOS)%Z in
  exists db' m' events, drive 9 run now db (mkPod m now0 ws PhIdle) = (db', mkPod m' now [w] PhIdle, events) /\
    existsb (fun e => match e with TkCreated _ _ _ => true | _ => false end) events = due /\
    lone w def ch db' /\ m' !! key = Some (if due then now else a) /\ claims_before db' (Some (if due then now else a)) /\
    forall r, r ∈ wt_runs db' -> r ∈ wt_runs db \/ rn_id r = run.
Proof.
  intros Hl Hc Hm Hle Hts Hrun due. pose proof (iw_range _ _ _ _ _ Hw) as Hr. rewrite lone_begin by done.
  assert (next_workflow (mkPod m now [w] (PhNext [w])) w [] =
    if due then mkPod m now [w] (PhAuth (mkDueJob w def ch (bucket (Z.of_N secs) now) true) []) else mkPod m now [w] (PhNext [])) as Hn.
  { unfold next_workflow. rewrite (iw_def _ _ _ _ _ Hw), (iw_enabled _ _ _ _ _ Hw), (iw_channel _ _ _ _ _ Hw), (iw_trigger _ _ _ _ _ Hw).
    cbn [negb pd_last_fired]. rewrite Hm, interval_due_eq by done. change (default now (Some a)) with a. rewrite Z.quot_div_nonneg by (unfold NANOS; lia).
    rewrite Z.abs_eq by (apply Z.div_pos; unfold NANOS; lia). done. }
  assert (tick_step (mkAwait true now run) db (mkPod m now [w] (PhNext [w])) = (db, next_workflow (mkPod m now [w] (PhNext [w])) w [], [])) as Ht by done.
  rewrite Hn in Ht. destruct due eqn:Edue.
  - rewrite (drive_step _ _ _ _ _ _ _ _ Ht) by done. apply Z.leb_le in Edue.
    pose proof (elapsed_bucket (Z.of_N secs) a now ltac:(lia) Edue) as Hb.
    destruct (drive_fire 2 run now db m (bucket (Z.of_N secs) now) Hl (unclaimed _ _ _ Hc Hb) Hrun)
      as (db' & m' & e & e' & Hd & (j & ctx & ->) & Hl' & Hm' & Hf & Hrs).
    cbn [Nat.add] in Hd. rewrite Hd.
    exists db', m', [e; TkCreated j run ctx]. split; [done|]. split; [cbn; by destruct e|]. split_and!; try done.
    intros f Hin Hfc Hfw. exists now. split; [done|]. destruct (Hf f Hin) as [->|(f0 & Hin0 & <- & Hc0 & Hw0)]; [lia|].
    destruct (Hc f0 Hin0) as (x & [= <-] & ?); [congruence..|lia].
  - rewrite (drive_step _ _ _ _ _ _ _ _ Ht) by done. destruct (drive_end 6 run now db m) as (m' & -> & Hm'). exists db, m', [].
    split_and!; try done; [congruence|auto].
Qed.

(** The first tick of a workflow never claimed starts its clock. *)
Lemma lone_first_tick run now db m now0 ws :
  lone w def ch db -> claims_before db None -> m !! key = None ->
  from_timestamp (bucket (Z.of_N secs) now) = Some (bucket (Z.of_N secs) now) ->
  exists m', drive 9 run now db (mkPod m now0 ws PhIdle) = (db, mkPod m' now [w] PhIdle, []) /\ m' !! key = Some now.
Proof.
  intros Hl Hc Hm Hts. pose proof (iw_range _ _ _ _ _ Hw) as Hr. rewrite lone_begin by done.
  rewrite (drive_step _ _ _ _ _ db (mkPod m now [w] (PhAnchor w def ch dur [])) []); [| |done].
  2: { unfold tick_step, next_workflow. cbn [pd_phase]. rewrite (iw_def _ _ _ _ _ Hw), (iw_enabled _ _ _ _ _ Hw), (iw_channel _ _ _ _ _ Hw), (iw_trigger _ _ _ _ _ Hw).
    cbn [negb pd_last_fired]. by rewrite Hm. }
  rewrite (drive_step _ _ _ _ _ db (mkPod (<[key:=now]> m) now [w] (PhNext [])) []); [| |done].
  2: { unfold tick_step. cbn [pd_phase aw_ok]. rewrite (no_claims_latest _ Hc).
    change (_ <$> None) with (@None Z). rewrite interval_due_eq by done. change (default now None) with now.
    rewrite Z.sub_diag. change (Z.abs (Z.quot 0 NANOS)) with 0%Z. destruct (Z.of_N secs <=? 0)%Z eqn:E; [apply Z.leb_le in E; lia|done]. }
  destruct (drive_end 5 run now db (<[key:=now]> m)) as (m' & -> & Hm'). exists m'. split; [done|]. by rewrite Hm', lookup_insert_eq.
Qed.

(** Ticks in order, at times chrono can represent, with new run ids. *)
Record fair_ticks (db : WorkflowTables) (ticks : list (Z * Uuid)) : Prop := {
  ft_sorted : StronglySorted Z.le (fst <$> ticks);
  ft_times t : t ∈ fst <$> ticks -> from_timestamp (bucket (Z.of_N secs) t) = Some (bucket (Z.of_N secs) t);
  ft_ids : NoDup (snd <$> ticks);
  ft_new r run : r ∈ wt_runs db -> run ∈ snd <$> ticks -> rn_id r <> run;
}.
Lemma fair_ticks_cons db t run ticks db' :
  fair_ticks db ((t, run) :: ticks) -> (forall r, r ∈ wt_runs db' -> r ∈ wt_runs db \/ rn_id r = run) ->
  existsb (run_is (wr_community_id w) run) (wt_runs db) = false /\ fair_ticks db' ticks /\
  from_timestamp (bucket (Z.of_N secs) t) = Some (bucket (Z.of_N secs) t).
Proof.
  intros [Hs Ht Hi Hn] Hruns. cbn in Hs, Ht, Hi, Hn. apply NoDup_cons in Hi as [Hi1 Hi2]. split_and!.
  - apply not_true_iff_false. intros (r & Hr & E)%existsb_elem_of. unfold run_is in E. apply andb_true_iff in E as [_ E%bool_decide_eq_true].
    by apply (Hn r run Hr); [left|].
  - inversion Hs; subst. split; [done|intros x Hx; apply Ht; by right|done|]. intros r x Hr Hx. destruct (Hruns r Hr) as [Hr'| ->].
    + apply Hn; [done|by right].
    + by intros ->.
  - apply Ht. by left.
Qed.

Lemma fired_from ticks db m now0 ws a :
  lone w def ch db -> claims_before db (Some a) -> m !! key = Some a -> fair_ticks db ticks -> Forall (Z.le a) (fst <$> ticks) ->
  fired_at db (mkPod m now0 ws PhIdle) ticks = spaced (Z.of_N secs) (Some a) (fst <$> ticks).
Proof.
  revert db m now0 ws a. induction ticks as [|[t run] ticks IH]; intros db m now0 ws a Hl Hc Hm Hf Ha; [done|]. cbn [fired_at fmap list_fmap fst spaced].
  cbn in Ha. apply Forall_cons in Ha as [Ha Has]. destruct (fair_ticks_cons db t run ticks db Hf ltac:(auto)) as (Hrun & _ & Hts).
  destruct (lone_tick run t db m now0 ws a Hl Hc Hm Ha Hts Hrun) as (db' & m' & events & Hd & Hev & Hl' & Hm' & Hc' & Hrs).
  rewrite Hd. rewrite Hev. destruct (fair_ticks_cons db t run ticks db' Hf Hrs) as (_ & Hf' & _).
  pose proof (ft_sorted _ _ Hf) as Hs. cbn in Hs. apply StronglySorted_inv in Hs as [_ Hs].
  destruct (Z.of_N secs <=? (t - a) / NANOS)%Z; cbn [app]; [f_equal|]; apply IH; done.
Qed.

(** C27: in a deployment whose only pod's queries are all answered, and whose
    only enabled scheduled workflow is an interval workflow that its owner may
    run ([lone]: the scheduler lists this workflow and no other, and nothing but
    its own runs changes the tables), a workflow never fired before fires exactly
    at the ticks at which its interval has elapsed since its last fire, the first
    tick only starting the clock, for ticks in order with new run ids: it is neither starved
    by the cold start nor by a claim of its own, however irregular the ticks
    are, and never fires twice within an interval. *)
Theorem interval_fires_exactly (db : WorkflowTables) (ticks : list (Z * Uuid)) :
  lone w def ch db -> claims_before db None -> fair_ticks db ticks ->
  fired_at db new_pod ticks = spaced (Z.of_N secs) None (fst <$> ticks).
Proof.
  intros Hl Hc Hf. destruct ticks as [|[t run] ticks]; [done|]. cbn [fired_at fmap list_fmap fst spaced].
  destruct (fair_ticks_cons db t run ticks db Hf ltac:(auto)) as (_ & Hf' & Hts).
  destruct (lone_first_tick run t db ∅ 0 [] Hl Hc (lookup_empty _) Hts) as (m' & Hd & Hm'). unfold new_pod. rewrite Hd. cbn [existsb app].
  pose proof (ft_sorted _ _ Hf) as Hs. cbn in Hs. apply StronglySorted_inv in Hs as [_ Hs].
  apply fired_from; try done. intros f Hin Hfc Hfw. by destruct (Hc f Hin Hfc Hfw) as (? & ? & _).
Qed.
End interval.

(** * The workflow engine at concrete inputs: a definition that posts and skips, a
    run that is recorded, two pods that race for an instant, and an interval. *)

From S2P Require Import WorkflowTheorems.
From S2P Require Import ReadWitness.
From Stdlib Require Import Sorting.Sorted.

Module SampleWorkflow.
Import SampleHex SampleRead.

(** ** The crates *)

Definition greet : WorkflowDef :=
  mkWorkflowDef "greet" None (Schedule None (Some "60m"))
    [mkStep "hello" None None None (SendMessage "hi {{ trigger.timestamp }}{{steps.x.output.y}}" None false);
     mkStep "later" None (Some "false") None (Delay "5s");
     mkStep "wait" None (Some "true") None (Delay "5s");
     mkStep "dm" None None None (SendDm "a" "b")] true.

#[export] Instance defs : DefLib := {|
  yaml_parse _ := Err "no yaml";
  def_json _ := Ok "json";
  def_of_json v := match v with JObject _ => Ok greet | _ => Err "no object" end;
  CronSchedule := unit;
  cron_parse _ := Err "no cron";
  cron_after _ _ := None;
|}.
#[export] Instance texts : TemplateLib := {| json_text _ := "json"; hex_npub _ := None |}.
#[export] Instance expressions : EvalLib := {|
  EvalContext := unit;
  eval_new := tt;
  eval_set_function _ _ _ := Ok tt;
  eval_set_value _ _ _ := Ok tt;
  eval_boolean expr _ := if String.eqb expr "true" then Ok true else if String.eqb expr "false" then Ok false else Err "no boolean";
  hash_iter _ m := map_to_list m;
|}.
#[export] Instance http : HttpLib := {|
  url_parse _ := Ok (Some "host", None);
  method_parse m := Ok m;
  utf8_lossy s := s;
  ip_text _ := "ip";
  status_text _ := "status";
  json_parse _ := None;
|}.

(** ** A community with one scheduled workflow *)

Definition definition : Json := JObject [("trigger", JObject [("on", JString "schedule")])].
Definition wf : WorkflowRecord := mkWorkflowRecord 70 community (padded reader) (Some 5%N) definition WsActive true 0.
Definition tables : WorkflowTables :=
  mkWorkflowTables [mkCommunityRow community "host" None None "active"] [mkChannelRow community 5 "private" None]
    [mkRoleRow community 5 (padded reader) "member" None] [wf] [] [].

Definition ctx : TriggerContext := mkTriggerContext "" "" "5" "100" "" "" false ∅.
Definition run_tables : WorkflowTables :=
  set_runs [mkWorkflowRunRecord 900 community 70 RsPending None 0 (JArray []) (Some ctx) None None None None] tables.
Definition answers : DispatchEnv :=
  mkDispatchEnv (Ok tt) (Ok tt) LeaseHeld (Ok tt) (Ok run_tables) (Ok run_tables) true (Ok "event")
    (mkWebhookEnv (Err "no dns") (Ok tt) (Err "none") []) (Err "none") "token".
Definition env (_ : nat) : StepEnv := mkStepEnv EvalFinished answers None.

(** The run posts to its channel, skips a step, sleeps, and fails at the message
    it cannot send. *)
Lemma greet_runs :
  (execute_steps 300 community 900 ctx env greet 0 None).1 =
    [EfMessage community "5" "hi 100{{steps.x.output.y}}" "hi {{ trigger.timestamp }}{{steps.x.output.y}}" (hex_encode (padded reader)) None;
     EfSleep 5].
Proof. vm_compute. reflexivity. Qed.

Lemma run_recorded_exact_witness :
  existsb (run_is community 900) (wt_runs run_tables) = true /\
  (exists rs status failure, (length rs <= 4)%nat /\ recorded_end 300 community 900 ctx env (wd_steps greet) rs status failure) /\
  option_map (fun db => (fun r => (rn_status r, rn_current_step r, rn_error_code r)) <$> wt_runs db)
    (finalize_run community 900 8 (Ok run_tables) (execute_run 300 community 900 ctx env true 7 (Ok run_tables) greet).2 None) =
    Some [(RsFailed, 3%Z, Some "action_not_implemented")].
Proof.
  split; [vm_compute; reflexivity|]. split; [|vm_compute; reflexivity].
  destruct (run_recorded_exact 300 community 900 ctx env greet 7 run_tables eq_refl) as [Hr _].
  destruct (execute_run 300 community 900 ctx env true 7 (Ok run_tables) greet) as [[db1 effects] r].
  destruct Hr as (_ & rs & status & failure & Hl & _ & He & _). exists rs, status, failure. split; [exact Hl|exact He].
Defined.

(** ** Two pods *)

Definition at_second (s : Z) : Z := (s * NANOS)%Z.
(** The queries of a whole tick of one pod, all answered but the first anchor
    read when [anchor] is false. *)
Definition tick_ops (pod : nat) (s : Z) (run : Uuid) (anchor : bool) : list SysOp :=
  let ask ok := SyStep pod (mkAwait ok (at_second s) run) in
  ask true :: ask true :: ask anchor :: replicate 6 (ask true).

(** Both pods start their clocks, both find the interval elapsed at 3600 and
    step in turn; the second loses the claim. *)
Definition race : list SysOp :=
  firstn 4 (tick_ops 0 0 1 true) ++ firstn 4 (tick_ops 1 1 2 true) ++ [SyStep 0 (mkAwait true 0 0); SyStep 1 (mkAwait true 0 0)]%Z ++
  concat (zip_with (fun a b => [a; b]) (firstn 7 (tick_ops 0 3600 901 true)) (firstn 7 (tick_ops 1 3601 902 true))).

Lemma scheduled_fire_at_most_once_witness :
  NoDup (created_keys (sy_log (foldl sys_step (sys_init tables 2) race))) /\
  created_keys (sy_log (foldl sys_step (sys_init tables 2) race)) = [(community, 70%N, 3600%Z)].
Proof.
  split; [|vm_compute; reflexivity].
  apply (scheduled_fire_at_most_once tables 2 race). apply Forall_forall. intros op Hop.
  assert (match op with SyChange _ => False | _ => True end) as Hno; [|destruct op; [exact I|exact I|destruct Hno]].
  assert (forallb (fun op => match op with SyChange _ => false | _ => true end) race = true) as Hall by (vm_compute; reflexivity).
  rewrite forallb_forall in Hall. specialize (Hall op (proj1 (list_elem_of_In _ _) Hop)). destruct op; [exact I|exact I|discriminate Hall].
Defined.

(** ** An interval *)

Lemma wf_interval : interval_workflow wf greet 5 "60m" 3600.
Proof. by split. Qed.
Lemma wf_lone : lone wf greet 5 tables.
Proof. by split. Qed.
Definition ticks : list (Z * Uuid) :=
  [(at_second 100, 901); (at_second 160, 902); (at_second 3690, 903); (at_second 3761, 904); (at_second 3800, 905); (at_second 7361, 906)]%N.
Lemma ticks_fair : fair_ticks 3600 tables ticks.
Proof.
  split.
  - repeat (constructor; [|repeat constructor; done]). constructor.
  - intros t _. reflexivity.
  - apply (bool_decide_unpack _). vm_compute. exact I.
  - intros r run Hr. by apply elem_of_nil in Hr.
Qed.

Lemma interval_fires_exactly_witness :
  fired_at tables new_pod ticks = spaced 3600 None (fst <$> ticks) /\ fired_at tables new_pod ticks = [at_second 3761; at_second 7361].
Proof.
  split; [|vm_compute; reflexivity].
  apply (interval_fires_exactly wf greet 5 "60m" 3600 wf_interval tables ticks wf_lone); [|exact ticks_fair].
  intros f Hf. by apply elem_of_nil in Hf.
Defined.

(** ** Events *)

(** A workflow that greets every message of the channel. *)
Definition on_message : DefLib := {|
  yaml_parse _ := Err "no yaml";
  def_json _ := Ok "json";
  def_of_json _ := Ok (mkWorkflowDef "greet" None (MessagePosted None) (wd_steps greet) true);
  CronSchedule := unit;
  cron_parse _ := Err "no cron";
  cron_after _ _ := None;
|}.
Definition event_env (_ : nat) : EventEnv := mkEventEnv EvalFinished (Some tables) (Some tables) 901.
Definition relay : PublicKey := 99.
Definition started (e : Event) : list Uuid :=
  sp_run <$> (@dispatch_workflows _ _ _ _ on_message relay ∅ (Some tables) event_env community
                (StoredEvent_with_received_at e 100 (Some 5%N) true)).2.

(** A member's message starts it, and so does a copy of the marked message that
    the relay did not sign; the message it posts itself does not. *)
Example dispatch_decisions :
  started note = [901%N] /\
  started (workflow_message other 200 100 reader 5 [] "hi") = [901%N] /\
  started (workflow_message relay 200 100 reader 5 [] "hi") = [].
Proof. vm_compute. done. Qed.

(** ** Restarts *)

Definition created_times (ops : list SysOp) : list (CommunityId * Uuid * Z) := created_keys (sy_log (foldl sys_step (sys_init tables 1) ops)).

(** A pod fires at 7199 for the bucket that began at 3600, restarts, and fires
    again two seconds later, for the bucket of 7200: the durable anchor is the
    bucket's beginning and not the time of the fire. *)
Definition bounce : list SysOp :=
  firstn 5 (tick_ops 0 3599 901 true) ++ firstn 7 (tick_ops 0 7199 902 true) ++ [SyRestart 0] ++ firstn 8 (tick_ops 0 7201 903 true).
Lemma restart_fires_within_interval :
  created_times (firstn 12 bounce) = [(community, 70%N, 3600%Z)] /\
  created_times bounce = [(community, 70%N, 3600%Z); (community, 70%N, 7200%Z)].
Proof. vm_compute. split; reflexivity. Qed.

(** A failed read of the anchor after a restart is not retried at the next tick:
    the clock starts over, while a read that succeeds would have fired. *)
Definition bounce_unread (anchor : bool) : list SysOp :=
  firstn 5 (tick_ops 0 3599 901 true) ++ firstn 7 (tick_ops 0 7199 902 true) ++ [SyRestart 0] ++
  firstn (if anchor then 8 else 5) (tick_ops 0 7201 903 anchor) ++ firstn 8 (tick_ops 0 7261 904 true).
Lemma failed_anchor_read_waits :
  length (created_times (bounce_unread false)) = 1%nat /\ length (created_times (bounce_unread true)) = 2%nat.
Proof. vm_compute. split; reflexivity. Qed.
End SampleWorkflow.
