(* ===== verification/ThreadStore.v ===== *)
(** Threads in the store: the [thread_metadata] table of
    buzz-db/src/store/event.rs and thread.rs, the resolution of a reply's
    ancestry in buzz-relay/src/handlers/ingest.rs, the replies a workflow posts
    (buzz-relay/src/workflow_sink.rs) and the deletion of an event with its
    counters (buzz-relay/src/handlers/side_effects.rs).

    A transaction is one step: it takes effect as a whole or, when one of its
    statements fails, not at all.  The reads that precede it are queries of
    their own, each of the table as it was when that query ran; a read that
    fails has no table ([None]).  [SELECT ... LIMIT 1] without an [ORDER BY]
    may return any of the rows it finds, which [pick] chooses. *)

From S2P Require Import Prelude Nostr Filter Auth ReadGate EventStore Thread.

(** ** The table *)

Record ThreadRow := mkThreadRow {
  tr_community_id : CommunityId;
  tr_event_created_at : Z;
  tr_event_id : string;
  tr_channel_id : Uuid;
  tr_parent_event_id : option string;
  tr_parent_event_created_at : option Z;
  tr_root_event_id : option string;
  tr_root_event_created_at : option Z;
  tr_depth : Z;
  tr_reply_count : Z;
  tr_descendant_count : Z;
  tr_last_reply_at : option Z;
  tr_broadcast : bool;
}.

Record ThreadDb := mkThreadDb {
  td_events : EventDb;
  td_threads : list ThreadRow;
}.

Record ThreadMetadataParams := mkThreadMetadataParams {
  tp_event_id : string;
  tp_event_created_at : Z;
  tp_channel_id : Uuid;
  tp_parent_event_id : option string;
  tp_parent_event_created_at : option Z;
  tp_root_event_id : option string;
  tp_root_event_created_at : option Z;
  tp_depth : Z;
  tp_broadcast : bool;
}.

(** [INT] columns are 32-bit; an update past the last value is an error. *)
Definition INT_MAX : Z := (2 ^ 31 - 1)%Z.

(** [i32] addition as a release build does it. *)
Definition wrapping_i32 (z : Z) : Z := ((z + 2 ^ 31) mod 2 ^ 32 - 2 ^ 31)%Z.

Definition metadata_row (c : CommunityId) (m : ThreadMetadataParams) : ThreadRow :=
  mkThreadRow c (tp_event_created_at m) (tp_event_id m) (tp_channel_id m) (tp_parent_event_id m)
    (tp_parent_event_created_at m) (tp_root_event_id m) (tp_root_event_created_at m) (tp_depth m) 0 0 None
    (tp_broadcast m).

(** The row written for a parent or a root that has none. *)
Definition stub_row (c : CommunityId) (ts : Z) (id : string) (ch : Uuid) : ThreadRow :=
  mkThreadRow c ts id ch None None None None 0 0 0 None false.

Definition same_thread_key (a b : ThreadRow) : bool :=
  bool_decide (tr_community_id a = tr_community_id b) && Z.eqb (tr_event_created_at a) (tr_event_created_at b) &&
  bool_decide (tr_event_id a = tr_event_id b).

(** [INSERT INTO thread_metadata ... ON CONFLICT DO NOTHING]. *)
Definition insert_thread_row (row : ThreadRow) (rows : list ThreadRow) : list ThreadRow * bool :=
  if existsb (same_thread_key row) rows then (rows, false) else (rows ++ [row], true).

Definition thread_hit (c : CommunityId) (id : string) (r : ThreadRow) : bool :=
  bool_decide (tr_community_id r = c) && bool_decide (tr_event_id r = id).

Definition with_counts (replies descendants : Z) (last : option Z) (r : ThreadRow) : ThreadRow :=
  mkThreadRow (tr_community_id r) (tr_event_created_at r) (tr_event_id r) (tr_channel_id r) (tr_parent_event_id r)
    (tr_parent_event_created_at r) (tr_root_event_id r) (tr_root_event_created_at r) (tr_depth r) replies descendants
    last (tr_broadcast r).

Definition count_reply (now : Z) (r : ThreadRow) : ThreadRow :=
  with_counts (tr_reply_count r + 1) (tr_descendant_count r) (Some now) r.
Definition count_descendant (r : ThreadRow) : ThreadRow :=
  with_counts (tr_reply_count r) (tr_descendant_count r + 1) (tr_last_reply_at r) r.
Definition uncount_reply (r : ThreadRow) : ThreadRow :=
  with_counts (Z.max (tr_reply_count r - 1) 0) (tr_descendant_count r) (tr_last_reply_at r) r.
Definition uncount_descendant (r : ThreadRow) : ThreadRow :=
  with_counts (tr_reply_count r) (Z.max (tr_descendant_count r - 1) 0) (tr_last_reply_at r) r.

(** [UPDATE thread_metadata SET ... WHERE community_id = $1 AND event_id = $2]. *)
Definition update_rows (c : CommunityId) (id : string) (f : ThreadRow -> ThreadRow) (rows : list ThreadRow) : list ThreadRow :=
  (fun r => if thread_hit c id r then f r else r) <$> rows.

(** The same update of a counter that must stay in range. *)
Definition increment_rows (c : CommunityId) (id : string) (column : ThreadRow -> Z) (f : ThreadRow -> ThreadRow)
    (rows : list ThreadRow) : result (list ThreadRow) DbError :=
  if existsb (fun r => thread_hit c id r && (INT_MAX <=? column r)%Z) rows then Err Sqlx
  else Ok (update_rows c id f rows).

(** The rows and counters a reply adds once its own row is in. *)
Definition index_reply (now : Z) (c : CommunityId) (m : ThreadMetadataParams) (pid : string) (rows : list ThreadRow)
  : result (list ThreadRow) DbError :=
  let parent_ts := default (tp_event_created_at m) (tp_parent_event_created_at m) in
  let rows := (insert_thread_row (stub_row c parent_ts pid (tp_channel_id m)) rows).1 in
  let rows :=
    match tp_root_event_id m with
    | Some root_id =>
        if bool_decide (root_id = pid) then rows
        else
          let root_ts := default (tp_event_created_at m) (tp_root_event_created_at m) in
          (insert_thread_row (stub_row c root_ts root_id (tp_channel_id m)) rows).1
    | None => rows
    end in
  let? rows := increment_rows c pid tr_reply_count (count_reply now) rows in
  match tp_root_event_id m with
  | Some root_id => increment_rows c root_id tr_descendant_count count_descendant rows
  | None => Ok rows
  end.

(** The metadata statements of an event that was inserted. *)
Definition insert_metadata (now : Z) (c : CommunityId) (m : ThreadMetadataParams) (rows : list ThreadRow)
  : result (list ThreadRow) DbError :=
  let '(rows, inserted) := insert_thread_row (metadata_row c m) rows in
  if inserted : bool then
    match tp_parent_event_id m with
    | Some pid => index_reply now c m pid rows
    | None => Ok rows
    end
  else Ok rows.

Section threads.
Context `{NostrLib, HexLib, ReadLib, StoreLib}.

(** [Db::insert_event_with_thread_metadata]: the event and its metadata in one
    transaction, then the mentions, whose failure is logged and forgotten.
    [executed], [meta_executed] and [mentions_executed] are whether Postgres ran
    the statements of the three parts. *)
Definition insert_event_with_thread_metadata (executed meta_executed mentions_executed : bool) (now : Z) (db : ThreadDb)
    (c : CommunityId) (event : Event) (channel_id : option Uuid) (thread_meta : option ThreadMetadataParams)
  : result (ThreadDb * (StoredEvent * bool)) DbError :=
  let? inserted := insert_event_on executed now (td_events db) c event channel_id in
  let '(events, (stored, was_inserted)) := inserted in
  if was_inserted : bool then
    let? threads :=
      match thread_meta with
      | Some m => if meta_executed then insert_metadata now c m (td_threads db) else Err Sqlx
      | None => Ok (td_threads db)
      end in
    match insert_mentions_in_transaction mentions_executed events c event with
    | Ok events => Ok (mkThreadDb events threads, (stored, true))
    | Err _ => Ok (mkThreadDb events threads, (stored, true))
    end
  else Ok (db, (stored, false)).

(** [soft_delete_event_and_update_thread]. *)
Definition soft_delete_event_and_update_thread (executed : bool) (now : Z) (db : ThreadDb) (c : CommunityId)
    (event_id : string) (parent_event_id root_event_id : option string) : result (ThreadDb * bool) DbError :=
  if negb executed then Err Sqlx
  else
    let '(events, deleted) := soft_delete_event now (td_events db) c event_id in
    let threads :=
      if deleted : bool then
        match parent_event_id with
        | Some pid =>
            let rows := update_rows c pid uncount_reply (td_threads db) in
            match root_event_id with
            | Some root_id => update_rows c root_id uncount_descendant rows
            | None => rows
            end
        | None => td_threads db
        end
      else td_threads db in
    Ok (mkThreadDb events threads, deleted).

(** ** Reads *)

(** [ORDER BY created_at DESC LIMIT 1]. *)
Definition newest_event (rows : list EventRow) : option EventRow :=
  head (sort_by (fun a b => (er_created_at b <=? er_created_at a)%Z) rows).

Definition event_row (live_only : bool) (c : CommunityId) (id : string) (r : EventRow) : bool :=
  bool_decide (er_community_id r = c) && bool_decide (er_id r = id) &&
  (negb live_only || bool_decide (er_deleted_at r = None)).

Definition get_event (live_only : bool) (table : option ThreadDb) (c : CommunityId) (id : string)
  : result (option StoredEvent) DbError :=
  match table with
  | None => Err Sqlx
  | Some db =>
      match newest_event (List.filter (event_row live_only c id) (db_events (td_events db))) with
      | Some r => row_to_stored_event r
      | None => Ok None
      end
  end.
Definition get_event_by_id := get_event true.
Definition get_event_by_id_including_deleted := get_event false.

Record ThreadMetadataRecord := mkThreadMetadataRecord {
  md_event_id : string;
  md_event_created_at : Z;
  md_channel_id : Uuid;
  md_parent_event_id : option string;
  md_root_event_id : option string;
  md_depth : Z;
  md_reply_count : Z;
  md_descendant_count : Z;
  md_broadcast : bool;
}.

(** [LIMIT 1]: some row, if there is one. *)
Definition limit_one {A} (pick : nat) (rows : list A) : option A := rows !! (pick mod length rows)%nat.

Definition get_thread_metadata_by_event (pick : nat) (table : option ThreadDb) (c : CommunityId) (event_id : string)
  : result (option ThreadMetadataRecord) DbError :=
  match table with
  | None => Err Sqlx
  | Some db =>
      Ok ((fun r => mkThreadMetadataRecord (tr_event_id r) (tr_event_created_at r) (tr_channel_id r) (tr_parent_event_id r)
              (tr_root_event_id r) (tr_depth r) (tr_reply_count r) (tr_descendant_count r) (tr_broadcast r)) <$>
          limit_one pick (List.filter (thread_hit c event_id) (td_threads db)))
  end.

(** ** Ancestry *)

(** The texts a resolution fails with. *)
Inductive ThreadError :=
| InvalidParentHex      (* "invalid parent event ID hex" *)
| ParentLookup (e : DbError)  (* "db error looking up parent: .." *)
| ParentNotFound        (* "reply parent not found" *)
| DifferentChannel      (* "parent event belongs to a different channel" *)
| NoChannel             (* "parent event has no channel association" *)
| InvalidRootHex        (* "invalid root event ID hex" *)
| MetadataLookup (e : DbError)  (* "db error looking up thread metadata: .." *)
| RootMismatch          (* "root tag does not match thread ancestry" *)
| DepthLimit.           (* "thread depth limit exceeded" *)

Record ThreadMetadataOwned := mkThreadMetadataOwned {
  to_event_id : string;
  to_event_created_at : Z;
  to_channel_id : Uuid;
  to_parent_event_id : string;
  to_parent_event_created_at : Z;
  to_root_event_id : string;
  to_root_event_created_at : Z;
  to_depth : Z;
  to_broadcast : bool;
}.

Definition as_params (m : ThreadMetadataOwned) : ThreadMetadataParams :=
  mkThreadMetadataParams (to_event_id m) (to_event_created_at m) (to_channel_id m) (Some (to_parent_event_id m))
    (Some (to_parent_event_created_at m)) (Some (to_root_event_id m)) (Some (to_root_event_created_at m)) (to_depth m)
    (to_broadcast m).

(** What a resolution reads: the tables its three queries see, the row an
    unordered [LIMIT 1] returns, and the clock. *)
Record ThreadReads := mkThreadReads {
  rd_event_table : option ThreadDb;
  rd_meta_table : option ThreadDb;
  rd_root_table : option ThreadDb;
  rd_pick : nat;
  rd_now : Z;
}.

(** [DateTime::from_timestamp(created_at as i64, 0).unwrap_or(..)]. *)
Definition created_or (fallback : Z) (e : Event) : Z :=
  default fallback (from_timestamp (as_i64_wrapped (ev_created_at e))).

(** The time of the root, or the parent's when the root is not found. *)
Definition root_created_at (rd : ThreadReads) (c : CommunityId) (root : string) (parent_created : Z) : Z :=
  match get_event_by_id (rd_root_table rd) c root with
  | Ok (Some root_ev) => created_or parent_created (se_event root_ev)
  | _ => parent_created
  end.

Definition marked_ancestor (id_hex : string) : option string :=
  match hex_decode id_hex with
  | Some b => if (String.length b =? 32)%nat then Some b else None
  | None => None
  end.

Definition derive_ancestry_from_parent_tags (rd : ThreadReads) (c : CommunityId) (parent_event : Event)
    (parent_bytes : string) (parent_created : Z) : string * Z * Z :=
  let markers := parse_thread_markers (ev_tags parent_event) in
  let parent_root :=
    default parent_bytes (match resolve markers with Some (root, _) => marked_ancestor root | None => None end) in
  if bool_decide (parent_root = parent_bytes) then (parent_root, parent_created, 1%Z)
  else (parent_root, root_created_at rd c parent_root parent_created, 2%Z).

(** The parent of a reply, found live and in the reply's channel. *)
Definition reply_parent (rd : ThreadReads) (c : CommunityId) (parent_bytes : string) (channel_id : Uuid)
  : result StoredEvent ThreadError :=
  match get_event_by_id (rd_event_table rd) c parent_bytes with
  | Err e => Err (ParentLookup e)
  | Ok None => Err ParentNotFound
  | Ok (Some parent) =>
      match se_channel_id parent with
      | Some parent_ch => if negb (N.eqb parent_ch channel_id) then Err DifferentChannel else Ok parent
      | None => Err NoChannel
      end
  end.

Definition parent_metadata (rd : ThreadReads) (c : CommunityId) (parent_bytes : string)
  : result (option ThreadMetadataRecord) ThreadError :=
  match get_thread_metadata_by_event (rd_pick rd) (rd_meta_table rd) c parent_bytes with
  | Err e => Err (MetadataLookup e)
  | Ok m => Ok m
  end.

Definition broadcast_flag (event : Event) : bool :=
  existsb (fun parts : Tag => (2 <=? length parts)%nat && bool_decide (parts !! 0 = Some "broadcast") &&
                              bool_decide (parts !! 1 = Some "1")) (ev_tags event).

Definition resolve_nip10_thread_meta (rd : ThreadReads) (c : CommunityId) (event : Event) (channel_id : Uuid)
  : result (option ThreadMetadataOwned) ThreadError :=
  match resolve (parse_thread_markers (ev_tags event)) with
  | None => Ok None
  | Some (root_hex, parent_hex) =>
      let? parent_bytes := ok_or (hex_decode parent_hex) InvalidParentHex in
      let? parent := reply_parent rd c parent_bytes channel_id in
      let parent_created := created_or (rd_now rd) (se_event parent) in
      let? client_root_bytes := ok_or (hex_decode root_hex) InvalidRootHex in
      let? meta := parent_metadata rd c parent_bytes in
      let? ancestry :=
        match meta with
        | Some meta =>
            let effective_root := default parent_bytes (md_root_event_id meta) in
            if negb (bool_decide (client_root_bytes = effective_root)) then Err RootMismatch
            else
              let root_ts := root_created_at rd c effective_root parent_created in
              let depth := wrapping_i32 (md_depth meta + 1) in
              if (100 <? depth)%Z then Err DepthLimit else Ok (effective_root, root_ts, depth)
        | None =>
            let '(parent_root, root_created, depth) :=
              derive_ancestry_from_parent_tags rd c (se_event parent) parent_bytes parent_created in
            if negb (bool_decide (client_root_bytes = parent_root)) then Err RootMismatch
            else Ok (parent_root, root_created, depth)
        end in
      let '(final_root_bytes, root_created, depth) := ancestry in
      Ok (Some (mkThreadMetadataOwned (rd_id_bytes (ev_id event)) (created_or (rd_now rd) event) channel_id parent_bytes
                  parent_created final_root_bytes root_created depth (broadcast_flag event)))
  end.

(** ** Replies the relay writes *)

Record ReplyAncestry := mkReplyAncestry {
  ra_parent_event_id : string;
  ra_parent_event_created_at : Z;
  ra_root_event_id : string;
  ra_root_event_created_at : Z;
  ra_depth : Z;
}.

Definition root_hex (a : ReplyAncestry) : string := hex_encode (ra_root_event_id a).
Definition parent_hex (a : ReplyAncestry) : string := hex_encode (ra_parent_event_id a).

Definition into_thread_meta (a : ReplyAncestry) (reply_event_id : string) (reply_created_at : Z) (channel_id : Uuid)
  : ThreadMetadataOwned :=
  mkThreadMetadataOwned reply_event_id reply_created_at channel_id (ra_parent_event_id a)
    (ra_parent_event_created_at a) (ra_root_event_id a) (ra_root_event_created_at a) (ra_depth a) false.

Definition resolve_relay_reply_thread_meta (rd : ThreadReads) (c : CommunityId) (parent_hex : string) (channel_id : Uuid)
  : result ReplyAncestry ThreadError :=
  let? parent_bytes := ok_or (hex_decode parent_hex) InvalidParentHex in
  let? parent := reply_parent rd c parent_bytes channel_id in
  let parent_created := created_or (rd_now rd) (se_event parent) in
  let? meta := parent_metadata rd c parent_bytes in
  let '(root_bytes, root_created, depth) :=
    match meta with
    | Some meta =>
        let effective_root := default parent_bytes (md_root_event_id meta) in
        let root_ts := if bool_decide (effective_root = parent_bytes) then parent_created
                       else root_created_at rd c effective_root parent_created in
        (effective_root, root_ts, wrapping_i32 (md_depth meta + 1))
    | None => derive_ancestry_from_parent_tags rd c (se_event parent) parent_bytes parent_created
    end in
  if (100 <? depth)%Z then Err DepthLimit
  else Ok (mkReplyAncestry parent_bytes parent_created root_bytes root_created depth).

(** The thread tags the sink signs: one for a direct reply, else the pair. *)
Definition ancestry_tags (a : ReplyAncestry) : list Tag :=
  if bool_decide (root_hex a = parent_hex a) then [["e"; root_hex a; ""; "reply"]]
  else [["e"; root_hex a; ""; "root"]; ["e"; parent_hex a; ""; "reply"]].

(** The metadata of a message that is not a reply. *)
Definition top_level (id : string) (created_at : Z) (channel_id : Uuid) : ThreadMetadataParams :=
  mkThreadMetadataParams id created_at channel_id None None None None 0 false.

(** ** Requests over a history of tables *)

(** One request, with the positions in the history of what its queries saw. *)
Inductive ThreadOp :=
| ThIngest (executed meta_executed mentions_executed : bool) (now : Z) (c : CommunityId) (event : Event) (ch : Uuid)
    (i j k pick : nat)
| ThPlain (executed mentions_executed : bool) (now : Z) (c : CommunityId) (event : Event) (ch : option Uuid)
| ThWorkflow (executed meta_executed mentions_executed : bool) (now : Z) (c : CommunityId) (event : Event) (ch : Uuid)
    (reply_to : option string) (base mentions : list Tag) (i j k pick : nat)
| ThDelete (executed : bool) (now : Z) (c : CommunityId) (target_id : string) (i j pick : nat).

Definition tx_committed {A} (db : ThreadDb) (r : result (ThreadDb * A) DbError) : ThreadDb :=
  match r with Ok (db', _) => db' | Err _ => db end.

(** An ingested event of a kind that is threaded. *)
Definition ingest_threaded (x mx ms : bool) (rd : ThreadReads) (db : ThreadDb) (c : CommunityId) (event : Event) (ch : Uuid)
  : ThreadDb :=
  match resolve_nip10_thread_meta rd c event ch with
  | Err _ => db
  | Ok thread_meta =>
      tx_committed db (insert_event_with_thread_metadata x mx ms (rd_now rd) db c event (Some ch) (as_params <$> thread_meta))
  end.

(** The message a workflow posts: its tags are [base], the thread's and those
    of its mentions. *)
Definition workflow_post (x mx ms : bool) (rd : ThreadReads) (db : ThreadDb) (c : CommunityId) (event : Event) (ch : Uuid)
    (reply_to : option string) (base mentions : list Tag) : ThreadDb :=
  let id := rd_id_bytes (ev_id event) in
  let created := created_or (rd_now rd) event in
  let post tags meta :=
    if bool_decide (ev_tags event = base ++ tags ++ mentions)
    then tx_committed db (insert_event_with_thread_metadata x mx ms (rd_now rd) db c event (Some ch) (Some meta))
    else db in
  match reply_to with
  | None => post [] (top_level id created ch)
  | Some parent_hex =>
      match resolve_relay_reply_thread_meta rd c parent_hex ch with
      | Err _ => db
      | Ok a => post (ancestry_tags a) (as_params (into_thread_meta a id created ch))
      end
  end.

(** The deletion of a target that is found, deleted before or not; a push
    lease is not deleted this way. *)
Definition delete_target (x : bool) (rd : ThreadReads) (db : ThreadDb) (c : CommunityId) (target_id : string) : ThreadDb :=
  match get_event_by_id_including_deleted (rd_event_table rd) c target_id with
  | Ok (Some target_event) =>
      if N.eqb (ev_kind (se_event target_event)) KIND_PUSH_LEASE then db
      else match get_thread_metadata_by_event (rd_pick rd) (rd_meta_table rd) c target_id with
      | Err _ => db
      | Ok meta =>
          tx_committed db (soft_delete_event_and_update_thread x (rd_now rd) db c target_id
                          (meta ≫= md_parent_event_id) (meta ≫= md_root_event_id))
      end
  | _ => db
  end.

Definition thread_op (hist : list ThreadDb) (db : ThreadDb) (op : ThreadOp) : ThreadDb :=
  match op with
  | ThIngest x mx ms now c event ch i j k pick =>
      ingest_threaded x mx ms (mkThreadReads (hist !! i) (hist !! j) (hist !! k) pick now) db c event ch
  | ThPlain x ms now c event ch => tx_committed db (insert_event_with_thread_metadata x true ms now db c event ch None)
  | ThWorkflow x mx ms now c event ch reply_to base mentions i j k pick =>
      workflow_post x mx ms (mkThreadReads (hist !! i) (hist !! j) (hist !! k) pick now) db c event ch reply_to base mentions
  | ThDelete x now c target_id i j pick =>
      delete_target x (mkThreadReads (hist !! i) (hist !! j) None pick now) db c target_id
  end.

Definition no_threads : ThreadDb := mkThreadDb (mkEventDb [] ∅) [].

(** The tables after each request, the oldest first. *)
Definition thread_history (ops : list ThreadOp) : list ThreadDb :=
  foldl (fun hist op => hist ++ [thread_op hist (default no_threads (last hist)) op]) [no_threads] ops.
Definition thread_run (ops : list ThreadOp) : ThreadDb := default no_threads (last (thread_history ops)).
End threads.
