(* ===== verification/ThreadTheorems.v ===== *)
(** The threads of the store: whatever order requests come in and whatever
    moments their queries see, the [thread_metadata] table is a forest of
    threads within channels ([threads_form_trees]), and the counters of its rows
    are the numbers of live replies ([reply_counts_exact]). *)

From S2P Require Import Prelude Nostr Filter Auth ReadGate EventStore ReadQuery ReadReq ReadTheorems ReadPush ReadStored.
From S2P Require Import ReadCount ReadTopics ReadWitness Thread ThreadStore.

Definition thread_root_of (t : ThreadRow) : string := default (tr_event_id t) (tr_root_event_id t).

Lemma wrapping_i32_small z : (- 2 ^ 31 <= z < 2 ^ 31)%Z -> wrapping_i32 z = z.
Proof. intros Hz. unfold wrapping_i32. rewrite Z.mod_small; lia. Qed.

(** ** Skeletons: the tables without deletion marks and counters *)

Definition skel (t : ThreadRow) : ThreadRow := with_counts 0 0 None t.

Record Skeleton := mkSkeleton { sk_events : list EventRow; sk_threads : list ThreadRow }.

Section skeletons.
Context `{NostrLib, HexLib, ReadLib, StoreLib}.

Definition skeleton (db : ThreadDb) : Skeleton :=
  mkSkeleton (with_deleted None <$> db_events (td_events db)) (skel <$> td_threads db).

Lemma skel_idemp t : skel (skel t) = skel t.
Proof. by destruct t. Qed.

Lemma update_rows_skel c id f rows :
  (forall t, skel (f t) = skel t) -> skel <$> update_rows c id f rows = skel <$> rows.
Proof.
  intros Hf. unfold update_rows. rewrite <- list_fmap_compose. apply list_fmap_ext. intros _ t _. cbn. by case_match.
Qed.

Lemma increment_rows_skel c id col f rows rows' :
  (forall t, skel (f t) = skel t) -> increment_rows c id col f rows = Ok rows' -> skel <$> rows' = skel <$> rows.
Proof. unfold increment_rows. intros Hf. case_match; [done|]. intros [= <-]. by apply update_rows_skel. Qed.

Lemma same_thread_key_true a b :
  same_thread_key a b = true <->
  tr_community_id a = tr_community_id b /\ tr_event_created_at a = tr_event_created_at b /\ tr_event_id a = tr_event_id b.
Proof. unfold same_thread_key. rewrite !andb_true_iff, !bool_decide_eq_true, Z.eqb_eq. tauto. Qed.

Lemma same_thread_key_skel a b : same_thread_key a (skel b) = same_thread_key a b.
Proof. by destruct b. Qed.

Lemma insert_thread_row_skel row rows :
  skel row = row ->
  skel <$> (insert_thread_row row rows).1 = (insert_thread_row row (skel <$> rows)).1 /\
  (insert_thread_row row rows).2 = (insert_thread_row row (skel <$> rows)).2.
Proof.
  intros Hrow. unfold insert_thread_row.
  assert (existsb (same_thread_key row) (skel <$> rows) = existsb (same_thread_key row) rows) as ->.
  { induction rows as [|t rows IH]; [done|]. cbn. by rewrite same_thread_key_skel, IH. }
  destruct (existsb _ _); cbn; [done|]. rewrite fmap_app. cbn. by rewrite Hrow.
Qed.

Lemma thread_hit_true c id t : thread_hit c id t = true <-> tr_community_id t = c /\ tr_event_id t = id.
Proof. unfold thread_hit. by rewrite andb_true_iff, !bool_decide_eq_true. Qed.

Lemma soft_delete_skel now db c id : with_deleted None <$> db_events (soft_delete_event now db c id).1 = with_deleted None <$> db_events db.
Proof.
  cbn. rewrite <- list_fmap_compose. apply list_fmap_ext. intros _ r _. cbn. by case_match.
Qed.

(** ** What a table holds *)

(** The events submitted. *)
Variable P : Event -> Prop.

(** The event is stored in the community, in the channel. *)
Definition stored (sk : Skeleton) (c : CommunityId) (e : Event) (ch : option Uuid) : Prop :=
  P e /\ exists now, row_of c e ch (Z.of_N (ev_created_at e)) now ∈ sk_events sk.

(** The event names a thread. *)
Definition nested (e : Event) : Prop := resolve (parse_thread_markers (ev_tags e)) <> None.

(** Following parents from [id], all of them in the channel, leads in [n] steps
    to the root, whose row is that of a stored event. *)
Inductive climbs (sk : Skeleton) (c : CommunityId) (ch : Uuid) : string -> string -> nat -> Prop :=
| climbs_root e :
    stored sk c e (Some ch) ->
    stub_row c (Z.of_N (ev_created_at e)) (rd_id_bytes (ev_id e)) ch ∈ sk_threads sk ->
    climbs sk c ch (rd_id_bytes (ev_id e)) (rd_id_bytes (ev_id e)) 0
| climbs_reply t p r n :
    t ∈ sk_threads sk -> tr_community_id t = c -> tr_channel_id t = ch -> tr_parent_event_id t = Some p ->
    tr_root_event_id t = Some r -> climbs sk c ch p r n -> climbs sk c ch (tr_event_id t) r (S n).

(** A row of the table: that of a top-level event, or of a reply. *)
Definition row_ok (exact : Prop) (sk : Skeleton) (t : ThreadRow) : Prop :=
  exists e, stored sk (tr_community_id t) e (Some (tr_channel_id t)) /\ tr_event_id t = rd_id_bytes (ev_id e) /\
  ((t = stub_row (tr_community_id t) (tr_event_created_at t) (tr_event_id t) (tr_channel_id t) /\ ~ nested e /\
    climbs sk (tr_community_id t) (tr_channel_id t) (tr_event_id t) (tr_event_id t) 0) \/
   exists rh ph r p n, resolve (parse_thread_markers (ev_tags e)) = Some (rh, ph) /\
     hex_decode rh = Some r /\ hex_decode ph = Some p /\
     tr_parent_event_id t = Some p /\ tr_root_event_id t = Some r /\ tr_event_created_at t = Z.of_N (ev_created_at e) /\
     climbs sk (tr_community_id t) (tr_channel_id t) p r n /\
     (1 <= tr_depth t <= Z.of_nat (S n))%Z /\ (tr_depth t <= 100)%Z /\ (exact -> tr_depth t = Z.of_nat (S n))).

Record thread_inv (exact : Prop) (sk : Skeleton) : Prop := {
  ti_rows : forall r, r ∈ sk_events sk ->
    exists c e ch now, P e /\ r = row_of c e ch (Z.of_N (ev_created_at e)) now /\
      from_timestamp (as_i64_wrapped (ev_created_at e)) = Some (Z.of_N (ev_created_at e));
  ti_one : forall c e ch ch', stored sk c e ch -> stored sk c e ch' -> ch = ch';
  ti_threads : forall t, t ∈ sk_threads sk -> row_ok exact sk t;
  ti_keys : forall t t', t ∈ sk_threads sk -> t' ∈ sk_threads sk -> same_thread_key t t' = true -> t = t';
  ti_indexed : forall c e ch, stored sk c e (Some ch) -> nested e ->
    exists t, t ∈ sk_threads sk /\ tr_community_id t = c /\ tr_event_id t = rd_id_bytes (ev_id e);
}.

Definition sub_skeleton (a b : Skeleton) : Prop :=
  (forall r, r ∈ sk_events a -> r ∈ sk_events b) /\ (forall t, t ∈ sk_threads a -> t ∈ sk_threads b).

#[export] Instance sub_skeleton_preorder : PreOrder sub_skeleton.
Proof. split; [by split|]. intros a b d [] []; split; eauto. Qed.

Lemma stored_mono a b c e ch : sub_skeleton a b -> stored a c e ch -> stored b c e ch.
Proof. intros [He _] [HP [now Hr]]. split; [done|]. exists now. by apply He. Qed.

Lemma climbs_mono a b c ch id r n : sub_skeleton a b -> climbs a c ch id r n -> climbs b c ch id r n.
Proof.
  intros Hs. induction 1 as [e He Hrow|t p r n Ht Hc Hch Hp Hr Hcl IH].
  - apply climbs_root; [by eapply stored_mono|]. by apply Hs.
  - apply (climbs_reply _ _ _ t p r n); try done. by apply Hs.
Qed.

Lemma row_ok_mono X a b t : sub_skeleton a b -> row_ok X a t -> row_ok X b t.
Proof.
  intros Hs (e & He & Hid & Hcase). exists e. split_and!; [by eapply stored_mono|done|].
  destruct Hcase as [(? & ? & ?)|(rh & ph & r & p & n & Hcase)]; [left|right].
  - split_and!; [done..|]. by eapply climbs_mono.
  - exists rh, ph, r, p, n. intuition. by eapply climbs_mono.
Qed.

Lemma climbs_end sk c ch id r n : climbs sk c ch id r n -> climbs sk c ch r r 0.
Proof. induction 1; [by apply climbs_root|done]. Qed.

Lemma climbs_zero sk c ch id r :
  climbs sk c ch id r 0 -> exists e, stored sk c e (Some ch) /\ id = rd_id_bytes (ev_id e) /\ r = id /\
    stub_row c (Z.of_N (ev_created_at e)) id ch ∈ sk_threads sk.
Proof. inversion 1; subst. eauto. Qed.

Section laws.
Context `{!ReadLaws}.
Variable X : Prop.
Hypothesis P_inj : forall e e', P e -> P e' -> ev_id e = ev_id e' -> e = e'.

(** Stored events with one id are one event. *)
Lemma stored_same sk c c' e e' ch ch' :
  stored sk c e ch -> stored sk c' e' ch' -> rd_id_bytes (ev_id e) = rd_id_bytes (ev_id e') -> e = e'.
Proof. intros [He _] [He' _] Hid%rd_id_bytes_inj. by apply P_inj. Qed.

(** A root is not the row of a nested event. *)
Lemma root_not_nested sk c ch id r n e ch' :
  thread_inv X sk -> climbs sk c ch id r n -> stored sk c e ch' -> rd_id_bytes (ev_id e) = r -> ~ nested e.
Proof.
  intros Hi Hcl%climbs_end He Hid Hn. apply climbs_zero in Hcl as (f & Hf & -> & _ & Hrow).
  destruct (ti_threads _ _ Hi _ Hrow) as (g & Hg & Hgid & Hcase). cbn in Hg, Hgid.
  assert (e = g) as <- by (eapply stored_same; [done..|congruence]).
  by destruct Hcase as [(_ & Hnn & _)|(? & ? & ? & ? & ? & ? & ? & ? & Hp & _)].
Qed.

(** The row of a stored event: a stub for a top-level event, else the reply. *)
Lemma row_of_event sk c ch e t :
  thread_inv X sk -> stored sk c e (Some ch) -> t ∈ sk_threads sk -> tr_community_id t = c ->
  tr_event_id t = rd_id_bytes (ev_id e) -> tr_channel_id t = ch /\
  exists n, climbs sk c ch (tr_event_id t) (thread_root_of t) n /\ (0 <= tr_depth t <= Z.of_nat n)%Z /\
    (tr_depth t <= 100)%Z /\ (X -> tr_depth t = Z.of_nat n) /\
    (nested e -> tr_event_created_at t = Z.of_N (ev_created_at e) /\ (1 <= tr_depth t)%Z /\
      exists rh ph, resolve (parse_thread_markers (ev_tags e)) = Some (rh, ph) /\ hex_decode rh = Some (thread_root_of t) /\
        hex_decode ph = tr_parent_event_id t) /\
    (~ nested e -> n = O /\ tr_depth t = 0%Z /\ thread_root_of t = tr_event_id t).
Proof.
  intros Hi He Ht <- Hid. destruct (ti_threads _ _ Hi _ Ht) as (f & Hf & Hfid & Hcase).
  assert (e = f) as <- by (eapply stored_same; [done..|congruence]).
  assert (Some ch = Some (tr_channel_id t)) as [= ->] by by eapply (ti_one _ _ Hi). split; [done|].
  destruct Hcase as [(-> & Hnn & Hcl)|(rh & ph & r & p & n & Hres & Hr & Hp & Hpar & Hroot & Htts & Hcl & Hd & Hd100 & Hex)].
  - exists O. cbn. split_and!; done || lia.
  - exists (S n). assert (thread_root_of t = r) as Hrt by (unfold thread_root_of; by rewrite Hroot).
    assert (nested e) as Hn by (unfold nested; congruence). rewrite Hrt. split_and!; try done; try lia.
    + by apply (climbs_reply _ _ _ t p r n).
    + intros _. split_and!; [congruence|lia|]. exists rh, ph. by rewrite Hpar.
Qed.

Lemma thread_inv_equiv a b : sub_skeleton a b -> sub_skeleton b a -> thread_inv X a -> thread_inv X b.
Proof.
  intros Hab Hba Hi. split.
  - intros r Hr%Hba. by apply (ti_rows _ _ Hi).
  - intros c e ch ch' Ha%(stored_mono _ _ _ _ _ Hba) Hb%(stored_mono _ _ _ _ _ Hba). by eapply (ti_one _ _ Hi).
  - intros t Ht%Hba. eapply row_ok_mono, (ti_threads _ _ Hi); done.
  - intros t t' Ht%Hba Ht'%Hba. by apply (ti_keys _ _ Hi).
  - intros c e ch Hs%(stored_mono _ _ _ _ _ Hba) Hn. destruct (ti_indexed _ _ Hi _ _ _ Hs Hn) as (t & Ht & ?).
    exists t. split; [by apply Hab|done].
Qed.

Lemma elem_of_insert_row row rows t :
  t ∈ (insert_thread_row row rows).1 <-> t ∈ rows \/ t = row /\ (insert_thread_row row rows).2 = true.
Proof.
  unfold insert_thread_row. destruct (existsb _ _); cbn; [naive_solver|].
  rewrite elem_of_app, list_elem_of_singleton. naive_solver.
Qed.

Lemma insert_row_fresh row rows t :
  (insert_thread_row row rows).2 = true -> t ∈ rows -> same_thread_key row t = false.
Proof.
  unfold insert_thread_row. destruct (existsb _ _) eqn:Ex; cbn; [done|]. intros _ Ht.
  destruct (same_thread_key row t) eqn:Ek; [|done]. rewrite <- Ex. symmetry. apply existsb_elem_of. eauto.
Qed.

Lemma insert_row_conflict row rows :
  (insert_thread_row row rows).2 = false -> exists t, t ∈ rows /\ same_thread_key row t = true.
Proof. unfold insert_thread_row. destruct (existsb _ _) eqn:Ex; cbn; [|done]. intros _. by apply existsb_elem_of in Ex. Qed.

Lemma same_thread_key_sym a b : same_thread_key a b = same_thread_key b a.
Proof. apply eq_true_iff_eq. rewrite !same_thread_key_true. naive_solver. Qed.

(** Writing the stub of a top-level event keeps the invariant. *)
Lemma add_stub sk c e ch ts (id := rd_id_bytes (ev_id e))
    (sk' := mkSkeleton (sk_events sk) (insert_thread_row (stub_row c ts id ch) (sk_threads sk)).1) :
  thread_inv X sk -> stored sk c e (Some ch) -> ~ nested e ->
  ts = Z.of_N (ev_created_at e) \/ climbs sk c ch id id 0 ->
  thread_inv X sk' /\ sub_skeleton sk sk' /\ climbs sk' c ch id id 0.
Proof.
  intros Hi He Hn Hts.
  assert (sub_skeleton sk sk') as Hsub by (split; [done|]; intros t Ht; apply elem_of_insert_row; by left).
  assert (climbs sk' c ch id id 0) as Hcl.
  { destruct Hts as [->|Hcl]; [|by eapply climbs_mono].
    destruct (insert_thread_row (stub_row c (Z.of_N (ev_created_at e)) id ch) (sk_threads sk)).2 eqn:E.
    - apply climbs_root; [by eapply stored_mono|]. apply elem_of_insert_row. by right.
    - apply insert_row_conflict in E as (t & Ht & Hk). apply same_thread_key_true in Hk as (Hc & _ & Hid).
      destruct (row_of_event _ _ _ _ _ Hi He Ht) as (Hch & n & Hcl & _ & _ & _ & _ & Htop); [done..|].
      destruct (Htop Hn) as (-> & _ & Hr). rewrite Hr, <- Hid in Hcl. by eapply climbs_mono. }
  split_and!; [|done..]. split; cbn [sk_events sk_threads].
  - apply (ti_rows _ _ Hi).
  - apply (ti_one _ _ Hi).
  - intros t [Ht|[-> _]]%elem_of_insert_row.
    + eapply row_ok_mono, (ti_threads _ _ Hi); done.
    + exists e. cbn. split_and!; [by eapply stored_mono|done|]. left. done.
  - intros t t' [Ht|[-> Hb]]%elem_of_insert_row [Ht'|[-> Hb']]%elem_of_insert_row Hk; [by apply (ti_keys _ _ Hi)| | |done].
    + rewrite same_thread_key_sym, (insert_row_fresh _ _ _ Hb' Ht) in Hk. done.
    + rewrite (insert_row_fresh _ _ _ Hb Ht') in Hk. done.
  - intros c' f ch' Hf Hnf. destruct (ti_indexed _ _ Hi _ _ _ Hf Hnf) as (t & Ht & ?). exists t. split; [by apply Hsub|done].
Qed.

(** Storing an event, with its row when it names a thread. *)
Lemma add_event sk c e ch now (ts : list ThreadRow)
    (sk' := mkSkeleton (sk_events sk ++ [row_of c e ch (Z.of_N (ev_created_at e)) now]) (sk_threads sk ++ ts)) :
  thread_inv X sk -> P e -> from_timestamp (as_i64_wrapped (ev_created_at e)) = Some (Z.of_N (ev_created_at e)) ->
  (forall ch', ~ stored sk c e ch') ->
  (ts = [] /\ (ch = None \/ ~ nested e) \/
   exists t, ts = [t] /\ tr_community_id t = c /\ tr_event_id t = rd_id_bytes (ev_id e) /\ row_ok X sk' t) ->
  thread_inv X sk' /\ sub_skeleton sk sk' /\ stored sk' c e ch.
Proof.
  intros Hi HP Hfrom Hfresh Hts.
  assert (sub_skeleton sk sk') as Hsub by (split; cbn; intros; apply elem_of_app; by left).
  assert (stored sk' c e ch) as Hst by (split; [done|]; exists now; cbn; apply elem_of_app; right; by left).
  assert (forall c' f ch', stored sk' c' f ch' -> stored sk c' f ch' \/ c' = c /\ f = e /\ ch' = ch) as Hnew.
  { intros c' f ch' [Hf [now' Hr]]. cbn in Hr. rewrite elem_of_app, list_elem_of_singleton in Hr.
    destruct Hr as [Hr|Hr]; [left; split; eauto|right]. injection Hr as -> Hid _ _ _ _ _ _ Hch _ _.
    apply rd_id_bytes_inj in Hid. split_and!; [done| |done]. by apply P_inj. }
  assert (forall t, t ∈ sk_threads sk -> tr_community_id t = c -> tr_event_id t <> rd_id_bytes (ev_id e)) as Hnot.
  { intros t Ht <- Hid. destruct (ti_threads _ _ Hi _ Ht) as (f & Hf & Hfid & _).
    assert (f = e) as -> by (destruct Hf; apply P_inj; [done..|]; apply rd_id_bytes_inj; congruence). by eapply Hfresh. }
  split_and!; [|done..]. split.
  - intros r. cbn. rewrite elem_of_app, list_elem_of_singleton. intros [Hr| ->]; [by apply (ti_rows _ _ Hi)|].
    exists c, e, ch, now. done.
  - intros c' f ch1 ch2 [Ha|(-> & -> & ->)]%Hnew [Hb|(Hc & Hf & ->)]%Hnew; [by eapply (ti_one _ _ Hi)| | |done].
    + subst. by destruct (Hfresh ch1).
    + by destruct (Hfresh ch2).
  - intros t. cbn. rewrite elem_of_app. intros [Ht|Ht]; [eapply row_ok_mono, (ti_threads _ _ Hi); done|].
    destruct Hts as [[-> _]|(t' & -> & _ & _ & Hok)]; [by apply elem_of_nil in Ht|].
    apply list_elem_of_singleton in Ht as ->. done.
  - intros t t'. cbn. rewrite !elem_of_app. destruct Hts as [[-> _]|(u & -> & Hc & Hid & _)].
    + rewrite !elem_of_nil. intros [Ht|[]] [Ht'|[]]. by apply (ti_keys _ _ Hi).
    + rewrite !list_elem_of_singleton. intros [Ht| ->] [Ht'| ->]; [by apply (ti_keys _ _ Hi)| | |done].
      all: intros (? & _ & ?)%same_thread_key_true; exfalso; eapply Hnot; [done|congruence..].
  - intros c' f ch' [Hf|(-> & -> & Hch)]%Hnew Hn.
    + destruct (ti_indexed _ _ Hi _ _ _ Hf Hn) as (t & Ht & ?). exists t. split; [by apply Hsub|done].
    + destruct Hts as [[_ [Hno|Hno]]|(t & -> & Hc & Hid & _)]; [congruence|done|].
      exists t. cbn. split; [apply elem_of_app; right; by left|done].
Qed.

(** ** Reads *)

Context `{!StoreLaws, !HexLaws, !HexTextLaws}.
Hypothesis P_bytes : forall e, P e -> String.length (rd_id_bytes (ev_id e)) = 32%nat.

Lemma newest_elem rows r : newest_event rows = Some r -> r ∈ rows.
Proof.
  unfold newest_event. intros Hh. apply (elem_of_sort_by (fun a b => (er_created_at b <=? er_created_at a)%Z)).
  destruct (sort_by _ rows); [done|]. injection Hh as ->. by left.
Qed.

(** An event that is found is a stored event. *)
Lemma get_event_stored b db c id se :
  thread_inv X (skeleton db) -> get_event b (Some db) c id = Ok (Some se) ->
  stored (skeleton db) c (se_event se) (se_channel_id se) /\ rd_id_bytes (ev_id (se_event se)) = id /\
  from_timestamp (as_i64_wrapped (ev_created_at (se_event se))) = Some (Z.of_N (ev_created_at (se_event se))).
Proof.
  intros Hi. unfold get_event. destruct (newest_event _) as [r|] eqn:En; [|done]. intros Hread.
  apply newest_elem, elem_of_filter_bool in En as [Hr Hrow]. unfold event_row in Hrow.
  rewrite !andb_true_iff, !bool_decide_eq_true in Hrow. destruct Hrow as [[<- <-] _].
  assert (with_deleted None r ∈ sk_events (skeleton db)) as Hin by (apply list_elem_of_fmap; eauto).
  destruct (ti_rows _ _ Hi _ Hin) as (c & e & ch & now & He & Heq & Hfrom).
  assert (r = with_deleted (er_deleted_at r) (row_of c e ch (Z.of_N (ev_created_at e)) now)) as Hrr.
  { rewrite <- Heq. by destruct r. }
  rewrite Hrr in Hread |- *. unfold row_to_stored_event in Hread. case_match; [done|]. cbn in Hread.
  rewrite N2Z.id, event_json_round in Hread. injection Hread as <-. cbn. split_and!; [|done..].
  split; [done|]. exists now. rewrite <- Heq. done.
Qed.

Lemma limit_one_elem {A} pick (rows : list A) x : limit_one pick rows = Some x -> x ∈ rows.
Proof. apply list_elem_of_lookup_2. Qed.

Lemma limit_one_none {A} pick (rows : list A) : limit_one pick rows = None -> rows = [].
Proof.
  unfold limit_one. intros Hn%lookup_ge_None. destruct rows as [|x rows]; [done|].
  pose proof (Nat.mod_upper_bound pick (length (x :: rows)) ltac:(done)). lia.
Qed.

(** The metadata that is found is that of a row, and none is found only where
    there is none. *)
Lemma get_metadata_row pick db c id md :
  get_thread_metadata_by_event pick (Some db) c id = Ok md ->
  match md with
  | Some md => exists t, t ∈ sk_threads (skeleton db) /\ tr_community_id t = c /\ tr_event_id t = id /\
      md_parent_event_id md = tr_parent_event_id t /\ md_root_event_id md = tr_root_event_id t /\ md_depth md = tr_depth t
  | None => forall t, t ∈ sk_threads (skeleton db) -> tr_community_id t = c -> tr_event_id t <> id
  end.
Proof.
  cbn. intros [= <-]. destruct (limit_one _ _) as [t|] eqn:El; cbn.
  - apply limit_one_elem, elem_of_filter_bool in El as [Ht [? ?]%thread_hit_true].
    exists (skel t). split_and!; [apply list_elem_of_fmap; eauto|by destruct t..].
  - apply limit_one_none in El. intros t (t0 & -> & Ht0)%list_elem_of_fmap Hc Hid.
    assert (t0 ∈ List.filter (thread_hit c id) (td_threads db)) as Hin
      by (apply elem_of_filter_bool; split; [done|]; apply thread_hit_true; by destruct t0).
    rewrite El in Hin. by apply elem_of_nil in Hin.
Qed.

(** ** Ancestry *)

(** The root and the depth of a reply to [ep]. *)
Definition ancestor (sk : Skeleton) (c : CommunityId) (ep : Event) (root : string) (depth : Z) : Prop :=
  (nested ep -> exists tp, tp ∈ sk_threads sk /\ tr_community_id tp = c /\ tr_event_id tp = rd_id_bytes (ev_id ep) /\
     thread_root_of tp = root /\ (1 <= depth <= tr_depth tp + 1)%Z /\ (X -> depth = tr_depth tp + 1)%Z) /\
  (~ nested ep -> root = rd_id_bytes (ev_id ep) /\ depth = 1%Z).

Lemma indexed_ancestor sk c ch ep tp :
  thread_inv X sk -> stored sk c ep (Some ch) -> tp ∈ sk_threads sk -> tr_community_id tp = c ->
  tr_event_id tp = rd_id_bytes (ev_id ep) ->
  ancestor sk c ep (default (rd_id_bytes (ev_id ep)) (tr_root_event_id tp)) (wrapping_i32 (tr_depth tp + 1)).
Proof.
  intros Hi Hep Htp Hc Hid. destruct (row_of_event _ _ _ _ _ Hi Hep Htp Hc Hid) as (_ & n & _ & Hd & Hd100 & _ & Hn & Htop).
  rewrite wrapping_i32_small by lia. rewrite <- Hid. fold (thread_root_of tp). split.
  - intros Hnest. exists tp. destruct (Hn Hnest) as (_ & ? & _). split_and!; done || lia.
  - intros Hnn. destruct (Htop Hnn) as (_ & -> & ->). split; [done|lia].
Qed.

Lemma derived_ancestor sk rd c ch ep created root ts depth :
  thread_inv X sk -> stored sk c ep (Some ch) -> (nested ep -> ~ X) ->
  derive_ancestry_from_parent_tags rd c ep (rd_id_bytes (ev_id ep)) created = (root, ts, depth) ->
  ancestor sk c ep root depth /\ (depth <= 2)%Z.
Proof.
  intros Hi Hep HX. unfold derive_ancestry_from_parent_tags. destruct (resolve _) as [[rh ph]|] eqn:Er.
  - assert (nested ep) as Hn by (unfold nested; congruence).
    destruct (ti_indexed _ _ Hi _ _ _ Hep Hn) as (tp & Htp & Hc & Hid).
    destruct (row_of_event _ _ _ _ _ Hi Hep Htp Hc Hid) as (_ & n & Hcl & Hd & _ & _ & Hnest & _).
    destruct (Hnest Hn) as (_ & Hd1 & rh' & ph' & Er' & Hdec & _). rewrite Er in Er'. injection Er' as <- <-.
    pose proof (climbs_end _ _ _ _ _ _ Hcl) as Hend. apply climbs_zero in Hend as (er & Her & Hrid & _).
    unfold marked_ancestor. rewrite Hdec, Hrid, P_bytes by apply Her. cbn [Nat.eqb]. cbn [default from_option id].
    rewrite bool_decide_eq_false_2.
    + intros [= <- _ <-]. split; [|lia]. split; [|done]. intros _. exists tp.
      split_and!; try done; try lia. intros HXX. by destruct (HX Hn).
    + intros Heq. by eapply (root_not_nested sk c ch _ _ _ ep); [..|exact Hn]; [done|exact Hcl|exact Hep|congruence].
  - cbn [default from_option id]. rewrite bool_decide_eq_true_2 by done. intros [= <- _ <-]. split; [|lia].
    split; [|done]. intros Hn. by destruct Hn.
Qed.

(** What the queries of a request saw, against the tables at its commit. *)
Definition reads_past (rd : ThreadReads) (sk : Skeleton) : Prop :=
  (forall db, rd_event_table rd = Some db -> thread_inv X (skeleton db) /\ sub_skeleton (skeleton db) sk) /\
  (forall db, rd_meta_table rd = Some db -> sub_skeleton (skeleton db) sk) /\
  (X -> forall db db', rd_event_table rd = Some db -> rd_meta_table rd = Some db' -> sub_skeleton (skeleton db) (skeleton db')).

Lemma reply_parent_stored rd sk c pb ch parent :
  reads_past rd sk -> reply_parent rd c pb ch = Ok parent ->
  stored sk c (se_event parent) (Some ch) /\ rd_id_bytes (ev_id (se_event parent)) = pb /\
  created_or (rd_now rd) (se_event parent) = Z.of_N (ev_created_at (se_event parent)) /\
  (X -> nested (se_event parent) -> forall db', rd_meta_table rd = Some db' ->
     exists t, t ∈ sk_threads (skeleton db') /\ tr_community_id t = c /\ tr_event_id t = pb).
Proof.
  intros (He & _ & HX). unfold reply_parent, get_event_by_id.
  destruct (rd_event_table rd) as [db|]; [|done]. destruct (He db eq_refl) as [Hi Hsub].
  destruct (get_event true (Some db) c pb) as [[se|]|] eqn:Eg; [|done..].
  destruct (get_event_stored _ _ _ _ _ Hi Eg) as (Hst & Hid & Hfrom).
  destruct (se_channel_id se) as [pch|] eqn:Ech; [|done]. case_match eqn:En; [done|]. intros [= <-].
  apply negb_false_iff, N.eqb_eq in En as ->. split_and!; [by eapply stored_mono|done|by unfold created_or; rewrite Hfrom|].
  intros HXX Hn db' Hdb'. destruct (ti_indexed _ _ Hi _ _ _ Hst Hn) as (t & Ht & Hc & Htid).
  exists t. split_and!; [by apply (HX HXX db db' eq_refl Hdb')|done|congruence].
Qed.

Lemma parent_metadata_spec rd sk c pb md :
  reads_past rd sk -> parent_metadata rd c pb = Ok md ->
  match md with
  | Some md => exists t, t ∈ sk_threads sk /\ tr_community_id t = c /\ tr_event_id t = pb /\
      md_root_event_id md = tr_root_event_id t /\ md_depth md = tr_depth t
  | None => exists db', rd_meta_table rd = Some db' /\
      forall t, t ∈ sk_threads (skeleton db') -> tr_community_id t = c -> tr_event_id t <> pb
  end.
Proof.
  intros (_ & Hm & _). unfold parent_metadata.
  destruct (rd_meta_table rd) as [db|]; [|done].
  destruct (get_thread_metadata_by_event _ _ _ _) as [md0|] eqn:Eg; [|done]. intros [= <-].
  apply get_metadata_row in Eg. destruct md0 as [md0|]; [|by eauto].
  destruct Eg as (t & Ht & ?). exists t. split; [by apply (Hm db)|]. naive_solver.
Qed.

(** The metadata of a reply [e], against the tables at its commit. *)
Definition reply_meta (sk : Skeleton) (c : CommunityId) (e : Event) (ch : Uuid) (m : ThreadMetadataOwned) : Prop :=
  to_event_id m = rd_id_bytes (ev_id e) /\ to_channel_id m = ch /\
  (from_timestamp (as_i64_wrapped (ev_created_at e)) = Some (Z.of_N (ev_created_at e)) ->
   to_event_created_at m = Z.of_N (ev_created_at e)) /\
  (exists ep, stored sk c ep (Some ch) /\ to_parent_event_id m = rd_id_bytes (ev_id ep) /\
     to_parent_event_created_at m = Z.of_N (ev_created_at ep) /\ ancestor sk c ep (to_root_event_id m) (to_depth m)) /\
  (to_depth m <= 100)%Z /\
  exists rh ph, resolve (parse_thread_markers (ev_tags e)) = Some (rh, ph) /\
    hex_decode rh = Some (to_root_event_id m) /\ hex_decode ph = Some (to_parent_event_id m).

Lemma resolve_reply_meta rd sk c e ch m :
  thread_inv X sk -> reads_past rd sk -> resolve_nip10_thread_meta rd c e ch = Ok (Some m) -> reply_meta sk c e ch m.
Proof.
  intros Hi Hrd. unfold resolve_nip10_thread_meta. destruct (resolve _) as [[rh ph]|] eqn:Er; [|done].
  destruct (hex_decode ph) as [pb|] eqn:Ep; [|done]. cbn [ok_or].
  destruct (reply_parent rd c pb ch) as [parent|] eqn:Epar; [|done].
  destruct (reply_parent_stored _ _ _ _ _ _ Hrd Epar) as (Hst & <- & -> & HX).
  destruct (hex_decode rh) as [rb|] eqn:Erb; [|done]. cbn [ok_or].
  destruct (parent_metadata rd c _) as [md|] eqn:Emd; [|done].
  pose proof (parent_metadata_spec _ _ _ _ _ Hrd Emd) as Hmd.
  assert (forall root ts depth, rb = root -> ancestor sk c (se_event parent) root depth -> (depth <= 100)%Z ->
    m = mkThreadMetadataOwned (rd_id_bytes (ev_id e)) (created_or (rd_now rd) e) ch (rd_id_bytes (ev_id (se_event parent)))
          (Z.of_N (ev_created_at (se_event parent))) root ts depth (broadcast_flag e) -> reply_meta sk c e ch m) as Hdone.
  { intros root ts depth -> Ha Hd ->. unfold reply_meta. cbn. split_and!; try done.
    - intros Hf. unfold created_or. by rewrite Hf.
    - eauto 6.
    - eauto. }
  destruct md as [md|].
  - destruct Hmd as (t & Ht & Hc & Hid & -> & ->). destruct (bool_decide (rb = _)) eqn:Eb; [|done]. cbn [negb].
    apply bool_decide_eq_true in Eb. destruct (100 <? _)%Z eqn:Ed; [done|]. apply Z.ltb_ge in Ed. intros [= <-].
    eapply Hdone; [exact Eb| |exact Ed|reflexivity]. by eapply indexed_ancestor.
  - destruct Hmd as (db' & Hdb' & Hnone).
    destruct (derive_ancestry_from_parent_tags _ _ _ _ _) as [[root ts] depth] eqn:Ed.
    destruct (bool_decide (rb = _)) eqn:Eb; [|done]. cbn [negb]. apply bool_decide_eq_true in Eb. intros [= <-].
    destruct (derived_ancestor _ _ _ _ _ _ _ _ _ Hi Hst ltac:(intros Hn HXX; destruct (HX HXX Hn _ Hdb') as (t & Ht & Hc & Hid); by eapply Hnone) Ed) as [Ha Hd].
    eapply Hdone; [exact Eb|exact Ha|lia|reflexivity].
Qed.

Lemma resolve_relay_ancestor rd sk c ph ch a :
  thread_inv X sk -> reads_past rd sk -> resolve_relay_reply_thread_meta rd c ph ch = Ok a ->
  exists ep, stored sk c ep (Some ch) /\ ra_parent_event_id a = rd_id_bytes (ev_id ep) /\
     ra_parent_event_created_at a = Z.of_N (ev_created_at ep) /\ ancestor sk c ep (ra_root_event_id a) (ra_depth a) /\
     (ra_depth a <= 100)%Z.
Proof.
  intros Hi Hrd. unfold resolve_relay_reply_thread_meta.
  destruct (hex_decode ph) as [pb|] eqn:Ep; [|done]. cbn [ok_or].
  destruct (reply_parent rd c pb ch) as [parent|] eqn:Epar; [|done].
  destruct (reply_parent_stored _ _ _ _ _ _ Hrd Epar) as (Hst & <- & -> & HX).
  destruct (parent_metadata rd c _) as [md|] eqn:Emd; [|done].
  pose proof (parent_metadata_spec _ _ _ _ _ Hrd Emd) as Hmd. destruct md as [md|].
  - destruct Hmd as (t & Ht & Hc & Hid & -> & ->). destruct (100 <? _)%Z eqn:Ed; [done|]. apply Z.ltb_ge in Ed.
    intros [= <-]. exists (se_event parent). cbn. split_and!; try done. by eapply indexed_ancestor.
  - destruct Hmd as (db' & Hdb' & Hnone).
    destruct (derive_ancestry_from_parent_tags _ _ _ _ _) as [[root ts] depth] eqn:Ed.
    destruct (derived_ancestor _ _ _ _ _ _ _ _ _ Hi Hst ltac:(intros Hn HXX; destruct (HX HXX Hn _ Hdb') as (t & Ht & Hc & Hid); by eapply Hnone) Ed) as [Ha Hd].
    destruct (100 <? depth)%Z; [done|]. intros [= <-]. exists (se_event parent). cbn. split_and!; try done. lia.
Qed.

Lemma ancestor_root_stored sk c ch ep root depth :
  thread_inv X sk -> stored sk c ep (Some ch) -> ancestor sk c ep root depth ->
  exists er, stored sk c er (Some ch) /\ root = rd_id_bytes (ev_id er).
Proof.
  intros Hi Hst [Hn Htop]. destruct (resolve (parse_thread_markers (ev_tags ep))) eqn:Er.
  - destruct Hn as (tp & Htp & Hc & Hid & <- & _); [by unfold nested; rewrite Er|].
    destruct (row_of_event _ _ _ _ _ Hi Hst Htp Hc Hid) as (_ & n & Hcl & _).
    apply climbs_end, climbs_zero in Hcl as (er & Her & ? & _). eauto.
  - destruct Htop as [-> _]; [unfold nested; rewrite Er; tauto|]. eauto.
Qed.

(** The tags the sink signs name the ancestry. *)
Lemma markers_app l m tags :
  Forall (fun t : Tag => t !! 0 <> Some "e") l ->
  foldl marker_step m (l ++ tags) = foldl marker_step m tags.
Proof.
  induction 1 as [|t l Ht _ IH] in m |- *; [done|]. cbn. rewrite IH. f_equal. unfold marker_step.
  destruct t as [|name [|id [|x [|mk rest]]]]; try done. cbn in Ht. destruct (String.eqb_spec name "e"); [congruence|done].
Qed.

Lemma event_id_hex_encoded e : P e -> is_event_id_hex (hex_encode (rd_id_bytes (ev_id e))) = true.
Proof. intros He. unfold is_event_id_hex. by rewrite hex_encode_length, hex_encode_chars, P_bytes. Qed.

Lemma ancestry_tags_resolve a base mentions ep er :
  P ep -> P er ->
  Forall (fun t : Tag => t !! 0 <> Some "e") base -> Forall (fun t : Tag => t !! 0 <> Some "e") mentions ->
  ra_parent_event_id a = rd_id_bytes (ev_id ep) -> ra_root_event_id a = rd_id_bytes (ev_id er) ->
  resolve (parse_thread_markers (base ++ ancestry_tags a ++ mentions)) = Some (root_hex a, parent_hex a).
Proof.
  intros HPp HPr Hb Hm Hp Hr. unfold parse_thread_markers, parse_thread_markers_from_parts. rewrite markers_app by done.
  rewrite foldl_app. rewrite <- (app_nil_r mentions), markers_app by done. cbn [foldl].
  unfold ancestry_tags, root_hex, parent_hex. rewrite Hp, Hr. case_bool_decide as Heq; cbn;
    rewrite !event_id_hex_encoded by done; cbn; [by rewrite Heq|done].
Qed.

Lemma no_thread_tags base mentions :
  Forall (fun t : Tag => t !! 0 <> Some "e") base -> Forall (fun t : Tag => t !! 0 <> Some "e") mentions ->
  resolve (parse_thread_markers (base ++ [] ++ mentions)) = None.
Proof.
  intros Hb Hm. unfold parse_thread_markers, parse_thread_markers_from_parts.
  by rewrite markers_app, app_nil_l, <- (app_nil_r mentions), markers_app.
Qed.

Lemma workflow_reply_meta rd sk c e ch ph a base mentions :
  thread_inv X sk -> reads_past rd sk -> resolve_relay_reply_thread_meta rd c ph ch = Ok a ->
  Forall (fun t : Tag => t !! 0 <> Some "e") base -> Forall (fun t : Tag => t !! 0 <> Some "e") mentions ->
  ev_tags e = base ++ ancestry_tags a ++ mentions ->
  reply_meta sk c e ch (into_thread_meta a (rd_id_bytes (ev_id e)) (created_or (rd_now rd) e) ch).
Proof.
  intros Hi Hrd Ha Hb Hm Htags. destruct (resolve_relay_ancestor _ _ _ _ _ _ Hi Hrd Ha) as (ep & Hst & Hp & Hpt & Hanc & Hd).
  destruct (ancestor_root_stored _ _ _ _ _ _ Hi Hst Hanc) as (er & Her & Hr).
  unfold reply_meta. cbn. split_and!; try done.
  - intros Hf. unfold created_or. by rewrite Hf.
  - eauto 6.
  - exists (root_hex a), (parent_hex a). rewrite Htags, (ancestry_tags_resolve _ _ _ ep er) by (done || apply Hst || apply Her).
    unfold root_hex, parent_hex. by rewrite !hex_decode_encode.
Qed.

(** ** Commits *)

(** The rows a metadata insertion leaves, counters apart. *)
Definition grow (c : CommunityId) (m : ThreadMetadataParams) (rows : list ThreadRow) : list ThreadRow :=
  let '(rows, inserted) := insert_thread_row (metadata_row c m) rows in
  if inserted : bool then
    match tp_parent_event_id m with
    | Some pid =>
        let rows := (insert_thread_row
          (stub_row c (default (tp_event_created_at m) (tp_parent_event_created_at m)) pid (tp_channel_id m)) rows).1 in
        match tp_root_event_id m with
        | Some root_id =>
            if bool_decide (root_id = pid) then rows
            else (insert_thread_row
              (stub_row c (default (tp_event_created_at m) (tp_root_event_created_at m)) root_id (tp_channel_id m)) rows).1
        | None => rows
        end
    | None => rows
    end
  else rows.

Lemma insert_metadata_skel now c m rows rows' :
  insert_metadata now c m rows = Ok rows' -> skel <$> rows' = grow c m (skel <$> rows).
Proof.
  unfold insert_metadata, grow.
  destruct (insert_thread_row_skel (metadata_row c m) rows eq_refl) as [E1 E2].
  destruct (insert_thread_row (metadata_row c m) rows) as [rows1 ins].
  destruct (insert_thread_row (metadata_row c m) (skel <$> rows)) as [S1 ins']. cbn in E1, E2. subst.
  destruct ins'; [|by intros [= <-]]. destruct (tp_parent_event_id m) as [pid|]; [|by intros [= <-]].
  unfold index_reply. cbn zeta.
  set (ps := stub_row c _ pid _). rewrite <- (proj1 (insert_thread_row_skel ps rows1 eq_refl)).
  set (rows2 := (insert_thread_row ps rows1).1).
  destruct (tp_root_event_id m) as [rid|].
  - case_bool_decide as Heq.
    + destruct (increment_rows _ _ _ (count_reply now) rows2) as [rows3|] eqn:E3; [|done]. intros E4.
      rewrite (increment_rows_skel _ _ _ count_descendant _ _ (fun _ => eq_refl) E4). by rewrite (increment_rows_skel _ _ _ (count_reply now) _ _ (fun _ => eq_refl) E3).
    + set (rs := stub_row c _ rid _). rewrite <- (proj1 (insert_thread_row_skel rs rows2 eq_refl)).
      destruct (increment_rows _ _ _ (count_reply now) _) as [rows3|] eqn:E3; [|done]. intros E4.
      rewrite (increment_rows_skel _ _ _ count_descendant _ _ (fun _ => eq_refl) E4). by rewrite (increment_rows_skel _ _ _ (count_reply now) _ _ (fun _ => eq_refl) E3).
  - destruct (increment_rows _ _ _ (count_reply now) rows2) as [rows3|] eqn:E3; [|done]. intros [= <-].
    by rewrite (increment_rows_skel _ _ _ (count_reply now) _ _ (fun _ => eq_refl) E3).
Qed.

Lemma insert_row_perm row rows rows' :
  rows ≡ₚ rows' -> (insert_thread_row row rows).1 ≡ₚ (insert_thread_row row rows').1.
Proof.
  intros Hp. unfold insert_thread_row.
  assert (existsb (same_thread_key row) rows = existsb (same_thread_key row) rows') as ->.
  { apply eq_true_iff_eq. rewrite !existsb_elem_of. by setoid_rewrite Hp. }
  destruct (existsb _ _); cbn; [done|]. by rewrite Hp.
Qed.

Lemma insert_row_app row rows t :
  same_thread_key row t = false -> (insert_thread_row row (rows ++ [t])).1 ≡ₚ (insert_thread_row row rows).1 ++ [t].
Proof.
  intros Hk. unfold insert_thread_row. rewrite existsb_app. cbn. rewrite Hk, !orb_false_r.
  destruct (existsb _ _); cbn; [done|]. solve_Permutation.
Qed.

Lemma insert_row_conflict_id row rows : (insert_thread_row row rows).2 = false -> (insert_thread_row row rows).1 = rows.
Proof. unfold insert_thread_row. by destruct (existsb _ _). Qed.

Lemma insert_row_new row rows : (forall t, t ∈ rows -> same_thread_key row t = false) -> insert_thread_row row rows = (rows ++ [row], true).
Proof.
  intros Hn. unfold insert_thread_row. destruct (existsb _ _) eqn:Ex; [|done].
  apply existsb_elem_of in Ex as (t & Ht & Hk). by rewrite Hn in Hk.
Qed.

(** The parent's row, written when it is missing. *)
Lemma parent_step sk c ch ep root depth (p := rd_id_bytes (ev_id ep))
    (sk' := mkSkeleton (sk_events sk)
              (insert_thread_row (stub_row c (Z.of_N (ev_created_at ep)) p ch) (sk_threads sk)).1) :
  thread_inv X sk -> stored sk c ep (Some ch) -> ancestor sk c ep root depth ->
  thread_inv X sk' /\ sub_skeleton sk sk' /\
  exists n, climbs sk' c ch p root n /\ (1 <= depth <= Z.of_nat (S n))%Z /\ (X -> depth = Z.of_nat (S n)).
Proof.
  intros Hi Hst [Hn Htop]. destruct (resolve (parse_thread_markers (ev_tags ep))) eqn:Er.
  - assert (nested ep) as Hnest by (unfold nested; by rewrite Er).
    destruct (Hn Hnest) as (tp & Htp & Hc & Hid & <- & Hd & HX).
    destruct (row_of_event _ _ _ _ _ Hi Hst Htp Hc Hid) as (Hch & n & Hcl & Hdn & _ & Hex & Hown & _).
    destruct (Hown Hnest) as (Hts & _).
    assert (sk' = sk) as ->.
    { destruct sk as [ES S]. unfold sk'. cbn [sk_events sk_threads]. f_equal. apply insert_row_conflict_id.
      unfold insert_thread_row. replace (existsb _ _) with true; [done|]. symmetry. apply existsb_elem_of.
      exists tp. split; [done|]. by apply same_thread_key_true. }
    split_and!; [done..|]. exists n. fold p in Hid. rewrite Hid in Hcl. split_and!; [done|lia..|]. intros HXX.
    rewrite (HX HXX), (Hex HXX). lia.
  - assert (~ nested ep) as Hnn by (unfold nested; rewrite Er; tauto). destruct (Htop Hnn) as [-> ->].
    destruct (add_stub sk c ep ch (Z.of_N (ev_created_at ep)) Hi Hst Hnn) as (Hi' & Hsub & Hcl); [by left|].
    split_and!; [done..|]. exists O. split_and!; done || lia.
Qed.

(** A committed reply keeps the invariant. *)
Lemma reply_inv sk c e ch now m
    (sk' := mkSkeleton (sk_events sk ++ [row_of c e (Some ch) (Z.of_N (ev_created_at e)) now])
              (grow c (as_params m) (sk_threads sk))) :
  thread_inv X sk -> P e -> from_timestamp (as_i64_wrapped (ev_created_at e)) = Some (Z.of_N (ev_created_at e)) ->
  (forall ch', ~ stored sk c e ch') -> reply_meta sk c e ch m -> thread_inv X sk' /\ sub_skeleton sk sk'.
Proof.
  intros Hi HP Hfrom Hfresh (Hid & Hch & Hts & (ep & Hep & Hpar & Hpts & Hanc) & Hd100 & rh & ph & Hres & Hrh & Hph).
  specialize (Hts Hfrom). set (t := metadata_row c (as_params m)).
  set (ps := stub_row c (Z.of_N (ev_created_at ep)) (rd_id_bytes (ev_id ep)) ch).
  destruct (parent_step _ _ _ _ _ _ Hi Hep Hanc) as (Hi1 & Hsub1 & n & Hcl & Hd & HX). fold ps in Hi1, Hsub1, Hcl.
  set (sk1 := mkSkeleton (sk_events sk) (insert_thread_row ps (sk_threads sk)).1) in *.
  destruct (add_event sk1 c e (Some ch) now [t] Hi1 HP Hfrom) as (Hi2 & Hsub2 & Hst2).
  { intros ch' [HPe [now' Hin]]. apply (Hfresh ch'). split; [done|]. by exists now'. }
  { right. exists t. split_and!; [done..|]. exists e. cbn. rewrite Hid, Hch. split_and!; [|done|].
    - split; [done|]. exists now. cbn. apply elem_of_app. right. by left.
    - right. exists rh, ph, (to_root_event_id m), (to_parent_event_id m), n. split_and!; try done; try lia.
      rewrite Hpar. eapply climbs_mono; [|exact Hcl]. split; cbn; intros; apply elem_of_app; by left. }
  set (sk2 := mkSkeleton _ _) in Hi2, Hsub2, Hst2.
  assert (forall id', (exists f ch', stored sk c f ch' /\ id' = rd_id_bytes (ev_id f)) -> id' <> rd_id_bytes (ev_id e)) as Hne.
  { intros id' (f & ch' & Hf & ->) Heq. destruct (Hf). assert (f = e) as -> by (apply P_inj; [done..|]; by apply rd_id_bytes_inj).
    by eapply Hfresh. }
  assert (insert_thread_row t (sk_threads sk) = (sk_threads sk ++ [t], true)) as Hnew.
  { apply insert_row_new. intros u Hu. destruct (same_thread_key t u) eqn:Ek; [|done].
    apply same_thread_key_true in Ek as (Hc & _ & Hu'). cbn in Hc, Hu'. destruct (ti_threads _ _ Hi _ Hu) as (f & Hf & Hfid & _).
    rewrite <- Hc in Hf. destruct (Hne (tr_event_id u)); [eauto|congruence]. }
  assert (same_thread_key ps t = false) as Hkp.
  { destruct (same_thread_key ps t) eqn:Ek; [|done]. apply same_thread_key_true in Ek as (_ & _ & Hk). cbn in Hk.
    destruct (Hne (rd_id_bytes (ev_id ep))); [eauto|congruence]. }
  unfold sk', grow. fold t. rewrite Hnew. cbn [as_params tp_parent_event_id tp_parent_event_created_at tp_root_event_id
    tp_root_event_created_at tp_channel_id tp_event_created_at default from_option]. rewrite Hpts, Hpar, Hch.
  unfold id at 1 3. fold ps. case_bool_decide as Hroot.
  - assert (forall u, u ∈ (insert_thread_row ps (sk_threads sk ++ [t])).1 <-> u ∈ sk_threads sk2) as Heq
      by (intros u; by rewrite (insert_row_app ps _ t Hkp)).
    split; [eapply thread_inv_equiv; [..|exact Hi2]; split; cbn; try done; intros u; by apply Heq|].
    etrans; [exact Hsub1|]. etrans; [exact Hsub2|]. split; cbn; [done|]. intros u. apply Heq.
  - destruct (climbs_zero _ _ _ _ _ (climbs_end _ _ _ _ _ _ Hcl)) as (er & Her & Hrid & _ & _).
    assert (~ nested er) as Hnn by (eapply (root_not_nested sk1); [done|exact Hcl|exact Her|by symmetry]).
    destruct (add_stub sk2 c er ch (to_root_event_created_at m) Hi2) as (Hi3 & Hsub3 & _); [by eapply stored_mono|done| |].
    { right. rewrite <- Hrid. eapply climbs_mono; [exact Hsub2|]. by eapply climbs_end. }
    rewrite <- Hrid in Hi3, Hsub3. set (rs := stub_row c _ (to_root_event_id m) ch) in *. set (sk3 := mkSkeleton _ _) in Hi3, Hsub3.
    assert (forall u, u ∈ (insert_thread_row rs (insert_thread_row ps (sk_threads sk ++ [t])).1).1 <-> u ∈ sk_threads sk3) as Heq.
    { intros u. by rewrite (insert_row_perm rs _ _ (insert_row_app ps (sk_threads sk) t Hkp)). }
    split; [eapply thread_inv_equiv; [..|exact Hi3]; split; cbn; try done; intros u; by apply Heq|].
    etrans; [exact Hsub1|]. etrans; [exact Hsub2|]. etrans; [exact Hsub3|]. split; cbn; [done|]. intros u. apply Heq.
Qed.

Lemma insert_mentions_events ms db c e db' :
  insert_mentions_in_transaction ms db c e = Ok db' -> db_events db' = db_events db.
Proof.
  unfold insert_mentions_in_transaction. case_bool_decide; [by intros [= <-]|]. destruct (from_timestamp _); [|done]. cbn.
  case_bool_decide; [by intros [= <-]|]. destruct ms; cbn; [|done]. by intros [= <-].
Qed.

(** What an insertion does to the tables. *)
Lemma insert_thread_effect x mx ms now db c e ch meta db' st b :
  thread_inv X (skeleton db) -> P e -> (ev_created_at e < 2 ^ 63)%N ->
  insert_event_with_thread_metadata x mx ms now db c e ch meta = Ok (db', (st, b)) ->
  db' = db \/
  from_timestamp (as_i64_wrapped (ev_created_at e)) = Some (Z.of_N (ev_created_at e)) /\
  (forall ch', ~ stored (skeleton db) c e ch') /\
  db_events (td_events db') = db_events (td_events db) ++ [row_of c e ch (Z.of_N (ev_created_at e)) now] /\
  match meta with
  | Some m => insert_metadata now c m (td_threads db) = Ok (td_threads db')
  | None => td_threads db' = td_threads db
  end.
Proof.
  intros Hi HP Ht. unfold insert_event_with_thread_metadata, insert_event_on.
  destruct (N.eqb _ _); [done|]. destruct (is_ephemeral _); [done|].
  destruct (from_timestamp _) as [t|] eqn:Et; [|done]. cbn [ok_or].
  pose proof (from_timestamp_secs _ _ Et) as ->. rewrite as_i64_small in * by done.
  destruct x; cbn [negb]; [|done]. cbn zeta. destruct (existsb _ _) eqn:Ex; [intros [= <- _ _]; by left|].
  intros Hres. right. split_and!; [done|..].
  { intros ch' [_ [now' (r & Hr & Hin)%list_elem_of_fmap]]. apply not_true_iff_false in Ex. apply Ex, existsb_elem_of.
    exists r. split; [done|]. unfold same_key. rewrite !andb_true_iff, !bool_decide_eq_true, Z.eqb_eq.
    destruct r. injection Hr as <- <- _ <- _ _ _ _ _ _ _. done. }
  all: destruct meta as [m|]; cbn in Hres.
  - destruct mx; [|done]. destruct (insert_metadata _ _ _ _) as [rows|]; [|done]. cbn in Hres.
    destruct (insert_mentions_in_transaction _ _ _ _) as [ev|] eqn:Em; injection Hres as <- _ _; cbn; [|done].
    by rewrite (insert_mentions_events _ _ _ _ _ Em).
  - destruct (insert_mentions_in_transaction _ _ _ _) as [ev|] eqn:Em; injection Hres as <- _ _; cbn; [|done].
    by rewrite (insert_mentions_events _ _ _ _ _ Em).
  - destruct mx; [|done]. destruct (insert_metadata _ _ _ _) as [rows|]; [|done]. cbn in Hres.
    by destruct (insert_mentions_in_transaction _ _ _ _); injection Hres as <- _ _.
  - by destruct (insert_mentions_in_transaction _ _ _ _); injection Hres as <- _ _.
Qed.

(** What each kind of metadata says of the event it comes with. *)
Definition meta_ok (sk : Skeleton) (c : CommunityId) (e : Event) (ch : option Uuid) (meta : option ThreadMetadataParams) : Prop :=
  (meta = None /\ (ch = None \/ ~ nested e)) \/
  (exists ch' created, ch = Some ch' /\ ~ nested e /\ meta = Some (top_level (rd_id_bytes (ev_id e)) created ch') /\
     (from_timestamp (as_i64_wrapped (ev_created_at e)) = Some (Z.of_N (ev_created_at e)) -> created = Z.of_N (ev_created_at e))) \/
  (exists ch' m, ch = Some ch' /\ meta = Some (as_params m) /\ reply_meta sk c e ch' m).

Lemma commit_inv x mx ms now db c e ch meta db' st b :
  thread_inv X (skeleton db) -> P e -> (ev_created_at e < 2 ^ 63)%N -> meta_ok (skeleton db) c e ch meta ->
  insert_event_with_thread_metadata x mx ms now db c e ch meta = Ok (db', (st, b)) ->
  thread_inv X (skeleton db') /\ sub_skeleton (skeleton db) (skeleton db').
Proof.
  intros Hi HP Ht Hmeta Hins.
  destruct (insert_thread_effect _ _ _ _ _ _ _ _ _ _ _ _ Hi HP Ht Hins) as [->|(Hfrom & Hfresh & Hev & Hth)]; [by split|].
  assert (skeleton db' = mkSkeleton (sk_events (skeleton db) ++ [row_of c e ch (Z.of_N (ev_created_at e)) now])
                           (skel <$> td_threads db')) as -> by (unfold skeleton; by rewrite Hev, fmap_app).
  destruct Hmeta as [(-> & Hno)|[(ch' & created & -> & Hnn & -> & Hts)|(ch' & m & -> & -> & Hm)]].
  - rewrite Hth, <- (app_nil_r (skel <$> td_threads db)).
    destruct (add_event (skeleton db) c e ch now [] Hi HP Hfrom Hfresh) as (Hi' & Hs & _); [by left|done].
  - rewrite (insert_metadata_skel _ _ _ _ _ Hth), (Hts Hfrom).
    destruct (add_event (skeleton db) c e (Some ch') now [] Hi HP Hfrom Hfresh) as (Hi' & Hs & Hst); [left; by auto|].
    rewrite app_nil_r in Hi', Hs, Hst. destruct (add_stub _ c e ch' (Z.of_N (ev_created_at e)) Hi' Hst Hnn) as (Hi2 & Hs2 & _); [by left|].
    unfold grow. cbn [top_level tp_parent_event_id]. cbn in Hi2, Hs2 |- *.
    change (metadata_row c _) with (stub_row c (Z.of_N (ev_created_at e)) (rd_id_bytes (ev_id e)) ch').
    destruct (insert_thread_row _ _) as [rows []] eqn:Er; cbn in Hi2, Hs2; (split; [exact Hi2|by etrans]).
  - rewrite (insert_metadata_skel _ _ _ _ _ Hth).
    destruct (reply_inv (skeleton db) c e ch' now m Hi HP Hfrom Hfresh Hm) as [? ?]. done.
Qed.

(** ** Requests *)

Definition op_event (op : ThreadOp) : option Event :=
  match op with
  | ThIngest _ _ _ _ _ e _ _ _ _ _ | ThPlain _ _ _ _ e _ | ThWorkflow _ _ _ _ _ e _ _ _ _ _ _ _ _ => Some e
  | ThDelete _ _ _ _ _ _ _ => None
  end.

(** An event stored without metadata in a channel names no thread, and the
    tags of a workflow's message beside its ancestry are not event references. *)
Definition op_threaded (op : ThreadOp) : Prop :=
  match op with
  | ThPlain _ _ _ _ e ch => ch = None \/ ~ nested e
  | ThWorkflow _ _ _ _ _ _ _ _ base mentions _ _ _ _ =>
      Forall (fun t : Tag => t !! 0 <> Some "e") base /\ Forall (fun t : Tag => t !! 0 <> Some "e") mentions
  | _ => True
  end.

(** The metadata is read no earlier than the event it belongs to. *)
Definition in_order (op : ThreadOp) : Prop :=
  match op with
  | ThIngest _ _ _ _ _ _ _ i j _ _ | ThWorkflow _ _ _ _ _ _ _ _ _ _ i j _ _ | ThDelete _ _ _ _ i j _ => i <= j
  | ThPlain _ _ _ _ _ _ => True
  end.

Definition history_inv (hist : list ThreadDb) : Prop :=
  forall i db, hist !! i = Some db ->
    thread_inv X (skeleton db) /\ forall j db', i <= j -> hist !! j = Some db' -> sub_skeleton (skeleton db) (skeleton db').

Lemma history_reads hist db i j k pick now :
  history_inv hist -> last hist = Some db -> (X -> i <= j) ->
  reads_past (mkThreadReads (hist !! i) (hist !! j) (hist !! k) pick now) (skeleton db).
Proof.
  intros Hh Hl Hij. rewrite last_lookup in Hl.
  assert (forall i' db', hist !! i' = Some db' -> sub_skeleton (skeleton db') (skeleton db)) as Hsub.
  { intros i' db' Hi'. destruct (Hh i' db' Hi') as [_ Hs]. apply (Hs (pred (length hist))); [|done].
    apply lookup_lt_Some in Hi'. lia. }
  split_and!; cbn.
  - intros db' Hi'. split; [by apply (Hh i)|by eapply Hsub].
  - intros db' Hj. by eapply Hsub.
  - intros HX db1 db2 H1' H2'. destruct (Hh i db1 H1') as [_ Hs]. apply (Hs j); [by apply Hij|done].
Qed.

Lemma commit_step x mx ms now db c e ch meta :
  thread_inv X (skeleton db) -> P e -> (ev_created_at e < 2 ^ 63)%N -> meta_ok (skeleton db) c e ch meta ->
  let db' := tx_committed db (insert_event_with_thread_metadata x mx ms now db c e ch meta) in
  thread_inv X (skeleton db') /\ sub_skeleton (skeleton db) (skeleton db').
Proof.
  intros Hi HP Ht Hm. destruct (insert_event_with_thread_metadata _ _ _ _ _ _ _ _ _) as [[db' [st b]]|] eqn:Ei; cbn; [|done].
  by eapply commit_inv.
Qed.

Lemma nested_dec e : {nested e} + {~ nested e}.
Proof. unfold nested. destruct (resolve _); [by left|right]. tauto. Qed.

Lemma ingest_meta_ok rd sk c e ch meta :
  thread_inv X sk -> reads_past rd sk -> resolve_nip10_thread_meta rd c e ch = Ok meta ->
  meta_ok sk c e (Some ch) (as_params <$> meta).
Proof.
  intros Hi Hrd Hres. destruct meta as [m|]; cbn.
  - right; right. exists ch, m. split_and!; [done..|]. by eapply resolve_reply_meta.
  - left. split; [done|]. right. intros Hn. unfold resolve_nip10_thread_meta in Hres. unfold nested in Hn.
    destruct (resolve _) as [[rh ph]|]; [|done].
    destruct (hex_decode ph); [|done]. cbn [ok_or] in Hres. destruct (reply_parent _ _ _ _); [|done].
    destruct (hex_decode rh); [|done]. cbn [ok_or] in Hres. destruct (parent_metadata _ _ _) as [[md|]|]; [| |done].
    + by repeat case_match.
    + destruct (derive_ancestry_from_parent_tags _ _ _ _ _) as [[? ?] ?]. by repeat case_match.
Qed.

Lemma thread_op_inv hist db op :
  history_inv hist -> last hist = Some db -> op_threaded op -> (X -> in_order op) ->
  (forall e, op_event op = Some e -> P e /\ (ev_created_at e < 2 ^ 63)%N) ->
  thread_inv X (skeleton (thread_op hist db op)) /\ sub_skeleton (skeleton db) (skeleton (thread_op hist db op)).
Proof.
  intros Hh Hl Hop Hord Hev.
  assert (thread_inv X (skeleton db)) as Hi by (rewrite last_lookup in Hl; by apply (Hh _ _ Hl)).
  destruct op as [x mx ms now c e ch i j k pick|x ms now c e ch|x mx ms now c e ch rt base mentions i j k pick|x now c id i j pick];
    cbn [thread_op op_threaded in_order op_event] in *.
  - destruct (Hev e eq_refl) as [HP Ht]. pose proof (history_reads _ _ i j k pick now Hh Hl Hord) as Hrd.
    unfold ingest_threaded. destruct (resolve_nip10_thread_meta _ _ _ _) as [meta|] eqn:Er; [|done].
    apply commit_step; [done..|]. by eapply ingest_meta_ok.
  - destruct (Hev e eq_refl) as [HP Ht]. apply commit_step; [done..|]. by left.
  - destruct (Hev e eq_refl) as [HP Ht]. destruct Hop as [Hb Hm].
    pose proof (history_reads _ _ i j k pick now Hh Hl Hord) as Hrd. unfold workflow_post. destruct rt as [ph|].
    + destruct (resolve_relay_reply_thread_meta _ _ _ _) as [a|] eqn:Ea; [|done]. case_bool_decide as Htags; [|done].
      apply commit_step; [done..|]. right; right. eexists _, _. split_and!; [done..|].
      exact (workflow_reply_meta _ _ _ e _ _ _ _ _ Hi Hrd Ea Hb Hm Htags).
    + case_bool_decide as Htags; [|done]. apply commit_step; [done..|]. right; left. exists ch, (created_or now e).
      split_and!; [done| |done|].
      * unfold nested. rewrite Htags, no_thread_tags by done. tauto.
      * unfold created_or. by intros ->.
  - unfold delete_target. destruct (get_event_by_id_including_deleted _ _ _) as [[se|]|]; [|done..].
    destruct (N.eqb _ KIND_PUSH_LEASE); [done|].
    destruct (get_thread_metadata_by_event _ _ _ _) as [meta|]; [|done].
    unfold soft_delete_event_and_update_thread. destruct x; cbn [negb]; [|done].
    cbn [rd_now]. destruct (soft_delete_event now (td_events db) c id) as [ev b] eqn:Es. cbn beta iota zeta. unfold tx_committed.
    assert (forall rows, skel <$> rows = skel <$> td_threads db -> skeleton (mkThreadDb ev rows) = skeleton db) as Hsame.
    { intros rows Hr. unfold skeleton. cbn. rewrite Hr. f_equal. change ev with (ev, b).1. rewrite <- Es. apply soft_delete_skel. }
    rewrite Hsame; [done|]. destruct b; [|done]. destruct (meta ≫= md_parent_event_id); [|done].
    destruct (meta ≫= md_root_event_id); by rewrite !update_rows_skel.
Qed.

Lemma history_inv_run ops :
  (forall op, op ∈ ops -> op_threaded op /\ (X -> in_order op) /\
     forall e, op_event op = Some e -> P e /\ (ev_created_at e < 2 ^ 63)%N) ->
  history_inv (thread_history ops) /\ exists db, last (thread_history ops) = Some db.
Proof.
  unfold thread_history. induction ops as [|op ops IH] using rev_ind; intros Hops.
  { split; [|by exists no_threads]. intros [|i] db; cbn; [|done]. intros [= <-]. split; [|intros [|j] db' _; cbn; [by intros [= <-]|done]].
    split; cbn; try (by intros ? ?%elem_of_nil); [|by intros t t' ?%elem_of_nil|].
    all: by intros c e ch; intros; destruct_and?; repeat match goal with Hs : stored _ _ _ _ |- _ => destruct Hs as [_ [? ?%elem_of_nil]] end. }
  destruct IH as [Hh [db Hl]]; [intros o Ho; apply Hops, elem_of_app; by left|].
  rewrite foldl_app. cbn [foldl]. set (hist := foldl _ _ ops) in *. rewrite Hl. cbn [default from_option].
  destruct (Hops op) as (Hop & Hord & Hev); [apply elem_of_app; right; by left|].
  destruct (thread_op_inv hist db op Hh Hl Hop Hord Hev) as [Hi Hs]. cbn [id] in *.
  split; [|rewrite last_snoc; eauto]. rewrite last_lookup in Hl.
  intros i db1 [Hi1|[Hge Hi1]]%lookup_app_Some.
  - destruct (Hh i db1 Hi1) as [Hinv Hmono]. split; [done|]. intros j db2 Hij [Hj|[Hge Hj]]%lookup_app_Some; [by eapply Hmono|].
    apply list_lookup_singleton_Some in Hj as [_ <-]. etrans; [|exact Hs]. apply (Hmono (pred (length hist))); [|done].
    apply lookup_lt_Some in Hi1. lia.
  - apply list_lookup_singleton_Some in Hi1 as [Hi0 <-]. split; [done|].
    intros j db2 Hij [Hj|[_ Hj]]%lookup_app_Some; [apply lookup_lt_Some in Hj; lia|].
    by apply list_lookup_singleton_Some in Hj as [_ <-].
Qed.
End laws.
End skeletons.

(** ** The forest *)

Section forest.
Context `{NostrLib, HexLib, ReadLib, StoreLib}.

Definition submitted (ops : list ThreadOp) (e : Event) : Prop := exists op, op ∈ ops /\ op_event op = Some e.

(** Events carry times within range and collision-free ids of 32 bytes. *)
Record well_threaded (ops : list ThreadOp) : Prop := {
  wt_time : forall e, submitted ops e -> (ev_created_at e < 2 ^ 63)%N;
  wt_bytes : forall e, submitted ops e -> String.length (rd_id_bytes (ev_id e)) = 32%nat;
  wt_ids : forall e e', submitted ops e -> submitted ops e' -> ev_id e = ev_id e' -> e = e';
  wt_ops : forall op, op ∈ ops -> op_threaded op;
}.

(** The event of a row, deleted since or not. *)
Definition event_of (db : ThreadDb) (t : ThreadRow) (r : EventRow) : Prop :=
  r ∈ db_events (td_events db) /\ er_community_id r = tr_community_id t /\ er_id r = tr_event_id t /\
  er_channel_id r = Some (tr_channel_id t).

(** Following parents within the channel leads in [n] steps to a top-level row. *)
Inductive thread_path (db : ThreadDb) (c : CommunityId) (ch : Uuid) : string -> string -> nat -> Prop :=
| path_root t r :
    t ∈ td_threads db -> tr_community_id t = c -> tr_channel_id t = ch ->
    tr_parent_event_id t = None -> tr_root_event_id t = None ->
    event_of db t r -> er_created_at r = tr_event_created_at t ->
    thread_path db c ch (tr_event_id t) (tr_event_id t) 0
| path_reply t p root n :
    t ∈ td_threads db -> tr_community_id t = c -> tr_channel_id t = ch ->
    tr_parent_event_id t = Some p -> tr_root_event_id t = Some root ->
    thread_path db c ch p root n -> thread_path db c ch (tr_event_id t) root (S n).

Lemma skeleton_thread db t : t ∈ sk_threads (skeleton db) -> exists u, u ∈ td_threads db /\ t = skel u.
Proof. intros (u & -> & Hu)%list_elem_of_fmap. eauto. Qed.

Lemma stored_row P db c e ch :
  stored P (skeleton db) c e ch ->
  exists r, r ∈ db_events (td_events db) /\ er_community_id r = c /\ er_id r = rd_id_bytes (ev_id e) /\
    er_channel_id r = ch /\ er_created_at r = Z.of_N (ev_created_at e).
Proof.
  intros [_ [now (r & Hr & Hin)%list_elem_of_fmap]]. exists r. destruct r. injection Hr as <- <- _ <- _ _ _ _ <- _ _. done.
Qed.

Lemma climbs_path P db c ch id root n : climbs P (skeleton db) c ch id root n -> thread_path db c ch id root n.
Proof.
  induction 1 as [e He (u & Hu & Heq)%skeleton_thread|t p r n (u & Hu & ->)%skeleton_thread Hc Hch Hp Hr Hcl IH].
  - apply stored_row in He as (r & Hr & Hrc & Hri & Hrch & Hrt). destruct u. injection Heq as <- <- <- <- <- <- <- <- <- _.
    by apply (path_root db c ch _ r Hu).
  - change (tr_event_id (skel u)) with (tr_event_id u). by apply (path_reply db c ch u p r n).
Qed.

Context `{!ReadLaws, !StoreLaws, !HexLaws, !HexTextLaws}.

Lemma run_inv ops (X := Forall in_order ops) :
  well_threaded ops ->
  history_inv (submitted ops) X (thread_history ops) /\ thread_inv (submitted ops) X (skeleton (thread_run ops)).
Proof.
  intros Hwt. destruct (history_inv_run (submitted ops) X (wt_ids _ Hwt) (wt_bytes _ Hwt) ops) as [Hh [db Hl]].
  { intros op Hop. split_and!; [by apply (wt_ops _ Hwt)|intros HX; by eapply Forall_forall in HX|].
    intros e He. assert (submitted ops e) by (by exists op). split; [done|]. by apply (wt_time _ Hwt). }
  split; [done|]. unfold thread_run. rewrite Hl. rewrite last_lookup in Hl. by apply (Hh _ _ Hl).
Qed.

(** C12: Let the submitted events have dates below 2^63 and ids of 32 bytes that
    do not collide, and let no event that names a thread be stored in a channel
    without metadata.  Then whatever requests come, in whatever order, with reads
    of any earlier moments and failing statements, the table of threads is a
    forest: from
    every row, following parents leads through rows of the same channel, in
    some number of steps, to the row's root, a top-level event; the depth
    recorded is at most that number and at most 100, and is that number when
    every request read the metadata no earlier than the event; the row's event
    is stored in the row's channel; and rows of one event agree. *)
Theorem threads_form_trees (ops : list ThreadOp) (db := thread_run ops) :
  well_threaded ops ->
  forall t, t ∈ td_threads db ->
    (exists n, thread_path db (tr_community_id t) (tr_channel_id t) (tr_event_id t) (thread_root_of t) n /\
       (0 <= tr_depth t <= Z.of_nat n)%Z /\ (tr_depth t <= 100)%Z /\
       (Forall in_order ops -> tr_depth t = Z.of_nat n)) /\
    (exists r, event_of db t r) /\
    (forall t', t' ∈ td_threads db -> tr_community_id t' = tr_community_id t -> tr_event_id t' = tr_event_id t ->
       tr_channel_id t' = tr_channel_id t /\ tr_parent_event_id t' = tr_parent_event_id t /\
       tr_root_event_id t' = tr_root_event_id t /\ tr_depth t' = tr_depth t).
Proof.
  intros Hwt t Ht. destruct (run_inv ops Hwt) as [_ Hi]. fold db in Hi.
  assert (forall u, u ∈ td_threads db -> skel u ∈ sk_threads (skeleton db)) as Hin by (intros u Hu; apply list_elem_of_fmap; eauto).
  destruct (ti_threads _ _ _ Hi _ (Hin t Ht)) as (e & He & Hid & Hcase). cbn in He, Hid.
  destruct (row_of_event _ _ (wt_ids _ Hwt) _ _ _ _ _ Hi He (Hin t Ht) eq_refl Hid)
    as (_ & n & Hcl & Hd & Hd100 & Hex & Hnest & Htop).
  split_and!.
  - change (tr_depth (skel t)) with (tr_depth t) in *. exists n. split_and!; [by apply climbs_path in Hcl|lia..|done].
  - destruct (stored_row _ _ _ _ _ He) as (r & Hr & Hrc & Hri & Hrch & _). exists r. by rewrite <- Hid in Hri.
  - intros t' Ht' Hc' Hid'. rewrite <- Hc' in He.
    destruct (row_of_event _ _ (wt_ids _ Hwt) _ _ _ _ (skel t') Hi He (Hin t' Ht') eq_refl) as (Hch' & n' & _ & _ & _ & _ & Hnest' & Htop');
      [cbn; congruence|]. cbn in Hch'. split; [done|].
    destruct (nested_dec e) as [Hn|Hn].
    + destruct (Hnest Hn) as [Hts _], (Hnest' Hn) as [Hts' _]. cbn in Hts, Hts'.
      assert (skel t' = skel t) as Heq.
      { apply (ti_keys _ _ _ Hi); [by apply Hin..|]. apply same_thread_key_true. cbn. split_and!; congruence. }
      destruct t, t'. injection Heq as -> -> -> -> -> -> -> -> -> _. done.
    + destruct (ti_threads _ _ _ Hi _ (Hin t' Ht')) as (e' & He' & Hid2 & Hcase'). cbn in He', Hid2.
      assert (e' = e) as -> by (destruct He' as [? _], He as [? _]; apply (wt_ids _ Hwt); [done..|]; apply rd_id_bytes_inj; congruence).
      destruct Hcase as [(Heq & _)|(? & ? & ? & ? & ? & Hr & _)]; [|by destruct Hn; unfold nested; rewrite Hr].
      destruct Hcase' as [(Heq' & _)|(? & ? & ? & ? & ? & Hr & _)]; [|by destruct Hn; unfold nested; rewrite Hr].
      destruct t, t'. injection Heq as -> -> -> -> -> _. injection Heq' as -> -> -> -> -> _. done.
Qed.

(** ** Counters *)

Definition live (db : ThreadDb) (c : CommunityId) (id : string) : bool :=
  existsb (event_row true c id) (db_events (td_events db)).

(** The live events whose row names [id] in a column. *)
Definition names (live : CommunityId -> string -> bool) (column : ThreadRow -> option string) (c : CommunityId) (id : string)
    (t : ThreadRow) : bool :=
  bool_decide (tr_community_id t = c) && bool_decide (column t = Some id) && live c (tr_event_id t).
Definition tally (db : ThreadDb) (column : ThreadRow -> option string) (c : CommunityId) (id : string) : Z :=
  Z.of_nat (length (List.filter (names (live db) column c id) (td_threads db))).
Definition live_replies (db : ThreadDb) := tally db tr_parent_event_id.
Definition live_descendants (db : ThreadDb) := tally db tr_root_event_id.

(** The row keyed by the time of its event, as every row is but the stubs
    written for a root that was not found. *)
Definition own_row (db : ThreadDb) (t : ThreadRow) : Prop :=
  exists r, event_of db t r /\ er_created_at r = tr_event_created_at t.

Definition thread_key (t : ThreadRow) : CommunityId * Z * string := (tr_community_id t, tr_event_created_at t, tr_event_id t).

Record counted (db : ThreadDb) : Prop := {
  ct_keys : NoDup (thread_key <$> td_threads db);
  ct_exact : forall t, t ∈ td_threads db -> own_row db t ->
    tr_reply_count t = live_replies db (tr_community_id t) (tr_event_id t) /\
    tr_descendant_count t = live_descendants db (tr_community_id t) (tr_event_id t);
}.

Definition skel_column (column : ThreadRow -> option string) : Prop := forall t, column (skel t) = column t.

Lemma tally_skel lv column c id rows :
  skel_column column -> length (List.filter (names lv column c id) (skel <$> rows)) = length (List.filter (names lv column c id) rows).
Proof.
  intros Hc. induction rows as [|t rows IH]; [done|]. cbn.
  replace (names lv column c id (skel t)) with (names lv column c id t) by (unfold names; by rewrite Hc).
  destruct (names lv column c id t); cbn; by rewrite IH.
Qed.

Lemma key_skel (rows : list ThreadRow) : thread_key <$> (skel <$> rows) = thread_key <$> rows.
Proof. rewrite <- list_fmap_compose. by apply list_fmap_ext. Qed.

Lemma insert_row_nodup row rows : NoDup (thread_key <$> rows) -> NoDup (thread_key <$> (insert_thread_row row rows).1).
Proof.
  unfold insert_thread_row. destruct (existsb _ _) eqn:Ex; cbn; [done|]. intros Hn. rewrite fmap_app. apply NoDup_app.
  split_and!; [done| |apply NoDup_singleton]. intros k (t & -> & Ht)%list_elem_of_fmap [= Hc Hts Hid]%list_elem_of_singleton.
  apply not_true_iff_false in Ex. apply Ex, existsb_elem_of. exists t. split; [done|]. by apply same_thread_key_true.
Qed.

Lemma grow_nodup c m rows : NoDup (thread_key <$> rows) -> NoDup (thread_key <$> grow c m rows).
Proof.
  intros Hn. unfold grow. pose proof (insert_row_nodup (metadata_row c m) rows Hn) as H1'.
  destruct (insert_thread_row _ rows) as [rows1 []]; [|done]. cbn in H1'. destruct (tp_parent_event_id m); [|done].
  destruct (tp_root_event_id m); [case_bool_decide|]; by repeat apply insert_row_nodup.
Qed.

Section commit.
Variable X : Prop.
Variable P : Event -> Prop.
Hypothesis P_inj : forall e e', P e -> P e' -> ev_id e = ev_id e' -> e = e'.

(** What a row names has a row of its own. *)
Lemma climbs_own sk c ch id root n :
  thread_inv P X sk -> climbs P sk c ch id root n ->
  exists f y, stored P sk c f (Some ch) /\ id = rd_id_bytes (ev_id f) /\ y ∈ sk_threads sk /\ tr_community_id y = c /\
    tr_event_id y = id /\ tr_event_created_at y = Z.of_N (ev_created_at f).
Proof.
  intros Hi. destruct 1 as [e He Hrow|t p r n Ht Hc Hch Hp Hr Hcl].
  - exists e. eexists. split_and!; [done|done|exact Hrow|done..].
  - destruct (ti_threads _ _ _ Hi _ Ht) as (e & He & Hid & [(Heq & _)|(? & ? & ? & ? & ? & _ & _ & _ & _ & _ & Hts & _)]).
    { rewrite Heq in Hp. done. }
    rewrite Hc, Hch in He. exists e, t. split_and!; done.
Qed.

Lemma named_own sk column c id x :
  thread_inv P X sk -> column = tr_parent_event_id \/ column = tr_root_event_id ->
  x ∈ sk_threads sk -> tr_community_id x = c -> column x = Some id ->
  exists f ch y, stored P sk c f (Some ch) /\ id = rd_id_bytes (ev_id f) /\ y ∈ sk_threads sk /\ tr_community_id y = c /\
    tr_event_id y = id /\ tr_event_created_at y = Z.of_N (ev_created_at f).
Proof.
  intros Hi Hcol Hx <- Hid. destruct (ti_threads _ _ _ Hi _ Hx) as (e & He & _ & Hcase).
  destruct Hcase as [(Heq & _)|(rh & ph & r & p & n & _ & _ & _ & Hp & Hr & _ & Hcl & _)].
  { rewrite Heq in Hid. by destruct Hcol as [-> | ->]. }
  destruct Hcol as [-> | ->].
  - rewrite Hp in Hid. injection Hid as <-. destruct (climbs_own _ _ _ _ _ _ Hi Hcl) as (f & y & ?). by exists f, (tr_channel_id x), y.
  - rewrite Hr in Hid. injection Hid as <-. destruct (climbs_own _ _ _ _ _ _ Hi (climbs_end _ _ _ _ _ _ _ Hcl)) as (f & y & ?).
    by exists f, (tr_channel_id x), y.
Qed.

(** One for the row the column names. *)
Definition named (c : CommunityId) (o : option string) (u : ThreadRow) : Z :=
  if bool_decide (tr_community_id u = c /\ o = Some (tr_event_id u)) then 1 else 0.

Lemma filter_congr {A} (f g : A -> bool) l : (forall x, x ∈ l -> f x = g x) -> List.filter f l = List.filter g l.
Proof.
  induction l as [|x l IH]; intros Hfg; [done|]. cbn. rewrite (Hfg x) by by left. rewrite IH by (intros; apply Hfg; by right). done.
Qed.

Lemma filter_all_false {A} (f : A -> bool) l : (forall x, x ∈ l -> f x = false) -> List.filter f l = [].
Proof. intros Hf. induction l as [|x l IH]; [done|]. cbn. rewrite Hf by by left. apply IH. intros y Hy. apply Hf. by right. Qed.

(** Storing an event [e] with the rows [news]: at most one of them, that of
    the event, names others. *)
Section grow_step.
Variables (db db' : ThreadDb) (c : CommunityId) (e : Event) (ch : option Uuid) (now : Z) (news : list ThreadRow).
Variables dp dr : option string.
Hypothesis Hi : thread_inv P X (skeleton db).
Hypothesis Hi' : thread_inv P X (skeleton db').
Hypothesis HP : P e.
Hypothesis Hfresh : forall ch', ~ stored P (skeleton db) c e ch'.
Hypothesis Hev : db_events (td_events db') = db_events (td_events db) ++ [row_of c e ch (Z.of_N (ev_created_at e)) now].
Hypothesis Hth : skel <$> td_threads db' ≡ₚ (skel <$> td_threads db) ++ news.

Definition names_only (column : ThreadRow -> option string) (d : option string) : Prop :=
  Forall (fun t => column t = None) news /\ d = None \/
  exists t stubs, news ≡ₚ t :: stubs /\ tr_community_id t = c /\ tr_event_id t = rd_id_bytes (ev_id e) /\
    column t = d /\ Forall (fun t => column t = None) stubs.

Lemma fresh_row t : t ∈ td_threads db -> tr_community_id t = c -> tr_event_id t <> rd_id_bytes (ev_id e).
Proof.
  intros Ht Hc Hid. destruct (ti_threads _ _ _ Hi (skel t)) as (f & Hf & Hfid & _); [apply list_elem_of_fmap; eauto|].
  cbn in Hf, Hfid. assert (f = e) as -> by (destruct Hf; apply P_inj; [done..|]; apply rd_id_bytes_inj; congruence).
  rewrite Hc in Hf. by eapply Hfresh.
Qed.

Lemma live_grow c0 id0 :
  live db' c0 id0 = live db c0 id0 || (bool_decide (c = c0) && bool_decide (rd_id_bytes (ev_id e) = id0)).
Proof. unfold live. rewrite Hev, existsb_app. cbn. unfold event_row at 2. cbn. by rewrite andb_true_r, orb_false_r. Qed.

Lemma tally_grow column d c0 id0 :
  skel_column column -> names_only column d ->
  (tally db' column c0 id0 = tally db column c0 id0 + if bool_decide (c0 = c /\ d = Some id0) then 1 else 0)%Z.
Proof.
  intros Hcol Hnews. unfold tally.
  rewrite <- (tally_skel (live db') column c0 id0 (td_threads db') Hcol), (filter_length_perm _ _ _ Hth), List.filter_app, length_app.
  rewrite tally_skel by done.
  rewrite (filter_congr (names (live db') column c0 id0) (names (live db) column c0 id0) (td_threads db)).
  2: { intros t Ht. unfold names. rewrite live_grow. destruct (bool_decide (tr_community_id t = c0)) eqn:Ec; [|done].
       apply bool_decide_eq_true in Ec as <-. f_equal. destruct (bool_decide (c = _)) eqn:Ec; cbn; [|by rewrite orb_false_r].
       apply bool_decide_eq_true in Ec. rewrite bool_decide_eq_false_2, orb_false_r; [done|].
       intros Heq. by eapply (fresh_row t). }
  assert (forall l, Forall (fun t => column t = None) l -> List.filter (names (live db') column c0 id0) l = []) as Hnone.
  { intros l Hl. apply filter_all_false. intros t Ht. eapply Forall_forall in Hl; [|done]. unfold names.
    rewrite (bool_decide_eq_false_2 (column t = Some id0)) by congruence. by rewrite andb_false_r. }
  destruct Hnews as [[Hl ->]|(t & stubs & Hp & Hc & Hid & Hct & Hl)].
  - rewrite Hnone by done. rewrite bool_decide_eq_false_2 by naive_solver. cbn. lia.
  - rewrite (filter_length_perm _ _ _ Hp). cbn. rewrite (Hnone stubs) by done.
    assert (names (live db') column c0 id0 t = bool_decide (c0 = c /\ d = Some id0)) as ->.
    { unfold names. rewrite Hc, Hct, live_grow, Hid. apply eq_true_iff_eq.
      rewrite !andb_true_iff, orb_true_iff, andb_true_iff, !bool_decide_eq_true. naive_solver. }
    case_bool_decide; cbn; lia.
Qed.

(** A row with no row of its key before is named by none before. *)
Lemma tally_unnamed column u :
  column = tr_parent_event_id \/ column = tr_root_event_id -> own_row db' u ->
  (forall y, y ∈ td_threads db -> same_thread_key u y = false) ->
  tally db column (tr_community_id u) (tr_event_id u) = 0%Z.
Proof.
  intros Hcol (r & (Hr & Hrc & Hri & _) & Hrt) Hkey. unfold tally. rewrite filter_all_false; [done|].
  intros x Hx. destruct (names _ _ _ _ x) eqn:En; [|done]. unfold names in En.
  rewrite !andb_true_iff, !bool_decide_eq_true in En. destruct En as [[Hxc Hxcol] _].
  destruct (named_own (skeleton db) column (tr_community_id u) (tr_event_id u) (skel x) Hi Hcol)
    as (f & chf & y & Hf & Hfid & (y0 & -> & Hy0)%list_elem_of_fmap & Hyc & Hyid & Hyt);
    [apply list_elem_of_fmap; eauto|done|by destruct Hcol as [-> | ->]|].
  cbn in Hyc, Hyid, Hyt. rewrite <- (Hkey y0 Hy0). symmetry. apply same_thread_key_true. split_and!; try done.
  destruct (ti_rows _ _ _ Hi' (with_deleted None r)) as (c' & g & ch' & now' & HPg & Hg & _); [apply list_elem_of_fmap; eauto|].
  destruct r. injection Hg as -> -> _ -> _ _ _ _ _ _ _. cbn in Hrt, Hri.
  assert (f = g) as <- by (destruct Hf; apply P_inj; [done..|]; apply rd_id_bytes_inj; congruence). congruence.
Qed.

Lemma counted_grow :
  counted db -> NoDup (thread_key <$> td_threads db') ->
  names_only tr_parent_event_id dp -> names_only tr_root_event_id dr ->
  (forall u', u' ∈ td_threads db' ->
     (exists u, u ∈ td_threads db /\ skel u' = skel u /\ tr_reply_count u' = tr_reply_count u + named c dp u /\
        tr_descendant_count u' = tr_descendant_count u + named c dr u)%Z \/
     (tr_reply_count u' = named c dp u' /\ tr_descendant_count u' = named c dr u' /\
      forall y, y ∈ td_threads db -> same_thread_key u' y = false)) ->
  counted db'.
Proof.
  intros [_ Hex] Hnd' Hdp Hdr Hrows. split; [done|]. intros u' Hu' Hown.
  unfold live_replies, live_descendants.
  rewrite (tally_grow tr_parent_event_id dp), (tally_grow tr_root_event_id dr) by done.
  assert (forall o, (if bool_decide (tr_community_id u' = c /\ o = Some (tr_event_id u')) then 1 else 0)%Z = named c o u') as Hn by done.
  rewrite !Hn. destruct (Hrows u' Hu') as [(u & Hu & Heq & -> & ->)|(-> & -> & Hkey)].
  - assert (tr_community_id u' = tr_community_id u /\ tr_event_id u' = tr_event_id u /\
            tr_event_created_at u' = tr_event_created_at u /\ tr_channel_id u' = tr_channel_id u) as (Ec & Ei & Et & Eh)
      by (destruct u, u'; by injection Heq as -> -> -> -> _ _ _ _ _ _).
    assert (own_row db u) as Hou.
    { destruct Hown as (r & (Hr & Hrc & Hri & Hrch) & Hrt). rewrite Hev, elem_of_app, list_elem_of_singleton in Hr.
      destruct Hr as [Hr| ->]; [exists r; unfold event_of; rewrite <- Ec, <- Ei, <- Et, <- Eh; done|].
      cbn in Hrc, Hri. destruct (fresh_row u Hu); congruence. }
    destruct (Hex u Hu Hou) as [-> ->]. unfold named. by rewrite Ec, Ei.
  - rewrite (tally_unnamed tr_parent_event_id u' (or_introl eq_refl) Hown Hkey).
    rewrite (tally_unnamed tr_root_event_id u' (or_intror eq_refl) Hown Hkey). lia.
Qed.
End grow_step.

(** The rows after a reply's stubs and counters. *)
Lemma insert_row_suffix row rows :
  exists l, (insert_thread_row row rows).1 = rows ++ l /\
    forall s, s ∈ l -> s = row /\ forall y, y ∈ rows -> same_thread_key row y = false.
Proof.
  pose proof (insert_row_fresh row rows) as Hf. unfold insert_thread_row in *. destruct (existsb _ _); cbn in *.
  - exists []. rewrite app_nil_r. split; [done|]. by intros s ?%elem_of_nil.
  - exists [row]. split; [done|]. intros s ->%list_elem_of_singleton. split; [done|]. intros y. by apply Hf.
Qed.

Lemma index_reply_rows now c m pid rid rows rows' :
  tp_root_event_id m = Some rid -> index_reply now c m pid rows = Ok rows' ->
  exists l, (forall s, s ∈ l -> (exists ts id, s = stub_row c ts id (tp_channel_id m)) /\ forall y, y ∈ rows -> same_thread_key s y = false) /\
    rows' = update_rows c rid count_descendant (update_rows c pid (count_reply now) (rows ++ l)).
Proof.
  intros Hroot. unfold index_reply. rewrite Hroot. cbn zeta.
  destruct (insert_row_suffix (stub_row c (default (tp_event_created_at m) (tp_parent_event_created_at m)) pid (tp_channel_id m)) rows)
    as (l1 & -> & Hl1).
  set (rs := stub_row c (default (tp_event_created_at m) (tp_root_event_created_at m)) rid _).
  assert (exists l2, (if bool_decide (rid = pid) then rows ++ l1 else (insert_thread_row rs (rows ++ l1)).1) = (rows ++ l1) ++ l2 /\
    forall s, s ∈ l2 -> s = rs /\ forall y, y ∈ rows ++ l1 -> same_thread_key rs y = false) as (l2 & -> & Hl2).
  { case_bool_decide; [|apply insert_row_suffix]. exists []. rewrite app_nil_r. split; [done|]. by intros s ?%elem_of_nil. }
  unfold increment_rows. destruct (existsb _ _); [done|]. destruct (existsb _ _); [done|]. intros [= <-]. exists (l1 ++ l2).
  split; [|by rewrite app_assoc]. intros s [Hs|Hs]%elem_of_app.
  - destruct (Hl1 s Hs) as [-> Hk]. eauto.
  - destruct (Hl2 s Hs) as [-> Hk]. split; [unfold rs; eauto|]. intros y Hy. apply Hk, elem_of_app. by left.
Qed.

Lemma bumped_row now c pid rid rows u' :
  u' ∈ update_rows c rid count_descendant (update_rows c pid (count_reply now) rows) ->
  exists u, u ∈ rows /\ skel u' = skel u /\ (tr_reply_count u' = tr_reply_count u + named c (Some pid) u)%Z /\
    (tr_descendant_count u' = tr_descendant_count u + named c (Some rid) u)%Z.
Proof.
  unfold update_rows. intros (u1 & -> & (u & -> & Hu)%list_elem_of_fmap)%list_elem_of_fmap. exists u. split; [done|].
  assert (forall id, named c (Some id) u = if thread_hit c id u then 1 else 0)%Z as Hn.
  { intros id. unfold named. destruct (thread_hit c id u) eqn:Eh.
    - apply thread_hit_true in Eh as [-> ->]. by rewrite bool_decide_eq_true_2.
    - rewrite bool_decide_eq_false_2; [done|]. intros [Hc [= ->]]. apply not_true_iff_false in Eh. by apply Eh, thread_hit_true. }
  rewrite !Hn. replace (thread_hit c rid (if thread_hit c pid u then count_reply now u else u)) with (thread_hit c rid u)
    by by destruct (thread_hit c pid u).
  destruct (thread_hit c rid u), (thread_hit c pid u); cbn; split_and!; done || lia.
Qed.

Lemma skel_key a b u : skel a = skel b -> same_thread_key a u = same_thread_key b u.
Proof. intros Heq. by destruct a, b; injection Heq as -> -> -> _ _ _ _ _ _ _. Qed.
Lemma skel_named c o a b : skel a = skel b -> named c o a = named c o b.
Proof. intros Heq. by destruct a, b; injection Heq as -> -> -> _ _ _ _ _ _ _. Qed.

Lemma counted_commit x mx ms now db c e ch meta db' st b :
  thread_inv P X (skeleton db) -> P e -> (ev_created_at e < 2 ^ 63)%N -> meta_ok P X (skeleton db) c e ch meta ->
  insert_event_with_thread_metadata x mx ms now db c e ch meta = Ok (db', (st, b)) -> counted db -> counted db'.
Proof.
  intros Hi HP Ht Hmeta Hins Hct. destruct (commit_inv P X P_inj _ _ _ _ _ _ _ _ _ _ _ _ Hi HP Ht Hmeta Hins) as [Hi' _].
  destruct (insert_thread_effect P X _ _ _ _ _ _ _ _ _ _ _ _ Hi HP Ht Hins) as [->|(Hfrom & Hfresh & Hev & Hth)]; [done|].
  pose proof (fresh_row db c e Hi HP Hfresh) as Hnot. pose proof (ct_keys _ Hct) as Hnd.
  destruct Hmeta as [(-> & _)|[(ch' & created & -> & _ & -> & _)|(ch' & m & -> & -> & Hm)]].
  - apply (counted_grow db db' c e ch now [] None None); try done; [by rewrite Hth, app_nil_r|by rewrite Hth|by left..|].
    rewrite Hth. intros u Hu. left. exists u. unfold named. rewrite !bool_decide_eq_false_2 by naive_solver. split_and!; done || lia.
  - set (t := metadata_row c (top_level (rd_id_bytes (ev_id e)) created ch')).
    assert (forall y, y ∈ td_threads db -> same_thread_key t y = false) as Hkey.
    { intros y Hy. destruct (same_thread_key t y) eqn:Ek; [|done]. apply same_thread_key_true in Ek as (Hc & _ & Hid).
      cbn in Hc, Hid. by destruct (Hnot y Hy). }
    unfold insert_metadata in Hth. fold t in Hth. rewrite insert_row_new in Hth by done. cbn in Hth. injection Hth as Hth.
    apply (counted_grow db db' c e (Some ch') now [t] None None); try done.
    + by rewrite <- Hth, fmap_app.
    + pose proof (insert_row_nodup t _ Hnd) as Hn. rewrite insert_row_new in Hn by done. by rewrite <- Hth.
    + left. split; [by repeat constructor|done].
    + left. split; [by repeat constructor|done].
    + intros u. rewrite <- Hth, elem_of_app, list_elem_of_singleton. unfold named. rewrite !bool_decide_eq_false_2 by naive_solver.
      intros [Hu| ->]; [left|by right]. exists u. rewrite bool_decide_eq_false_2 by naive_solver. split_and!; done || lia.
  - set (t := metadata_row c (as_params m)). destruct Hm as (Hid & Hch & _).
    assert (forall y, y ∈ td_threads db -> same_thread_key t y = false) as Hkey.
    { intros y Hy. destruct (same_thread_key t y) eqn:Ek; [|done]. apply same_thread_key_true in Ek as (Hc & _ & Hy').
      cbn in Hc, Hy'. destruct (Hnot y Hy); congruence. }
    unfold insert_metadata in Hth. fold t in Hth. rewrite insert_row_new in Hth by done. cbn [as_params tp_parent_event_id] in Hth.
    pose proof Hth as Hth0. apply (index_reply_rows _ _ _ _ (to_root_event_id m)) in Hth as (l & Hl & Hrows); [|done].
    apply (counted_grow db db' c e (Some ch') now (t :: l) (Some (to_parent_event_id m)) (Some (to_root_event_id m))); try done.
    + rewrite Hrows, !update_rows_skel, !fmap_app by done. cbn. rewrite <- app_assoc. cbn.
      replace (skel <$> l) with l; [done|]. symmetry. rewrite <- (list_fmap_id l) at 2. apply list_fmap_ext. intros i s Hs.
      destruct (Hl s) as [(ts & id & ->) _]; [by eapply list_elem_of_lookup_2|done].
    + rewrite <- key_skel.
      assert (insert_metadata now c (as_params m) (td_threads db) = Ok (td_threads db')) as Hins'.
      { unfold insert_metadata. fold t. rewrite insert_row_new by done. exact Hth0. }
      rewrite (insert_metadata_skel _ _ _ _ _ Hins'). apply grow_nodup. by rewrite key_skel.
    + right. exists t, l. split_and!; try done. apply Forall_forall. intros s Hs. by destruct (Hl s Hs) as [(ts & id & ->) _].
    + right. exists t, l. split_and!; try done. apply Forall_forall. intros s Hs. by destruct (Hl s Hs) as [(ts & id & ->) _].
    + intros u'. rewrite Hrows. intros (u & Hu & Heq & Hr & Hd)%bumped_row.
      rewrite !elem_of_app, list_elem_of_singleton in Hu. destruct Hu as [[Hu| ->]|Hu].
      * left. by exists u.
      * right. rewrite Hr, Hd, !(skel_named _ _ _ _ Heq). split_and!; [cbn; lia..|]. intros y Hy. rewrite (skel_key _ _ _ Heq). by apply Hkey.
      * right. destruct (Hl u Hu) as [(ts & id & ->) Hk]. rewrite Hr, Hd, !(skel_named _ _ _ _ Heq). split_and!; [cbn; lia..|].
        intros y Hy. rewrite (skel_key _ _ _ Heq). apply Hk, elem_of_app. by left.
Qed.

(** ** Deletions *)

Section delete_step.
Variables (dbi dbj db : ThreadDb) (c : CommunityId) (id : string) (pick : nat) (now : Z).
Variables (se : StoredEvent) (meta : option ThreadMetadataRecord).
Hypothesis Hi : thread_inv P X (skeleton db).
Hypothesis Hii : thread_inv P X (skeleton dbi).
Hypothesis Hij : sub_skeleton (skeleton dbi) (skeleton dbj).
Hypothesis Hj : sub_skeleton (skeleton dbj) (skeleton db).
Hypothesis Hct : counted db.
Hypothesis Hse : get_event_by_id_including_deleted (Some dbi) c id = Ok (Some se).
Hypothesis Hmd : get_thread_metadata_by_event pick (Some dbj) c id = Ok meta.

(** The metadata read is that of the target's row, if it has one that names
    others. *)
Lemma delete_target_row :
  match meta ≫= md_parent_event_id, meta ≫= md_root_event_id with
  | Some p, Some r => exists t0, t0 ∈ td_threads db /\ tr_community_id t0 = c /\ tr_event_id t0 = id /\
      tr_parent_event_id t0 = Some p /\ tr_root_event_id t0 = Some r /\
      forall t, t ∈ td_threads db -> tr_community_id t = c -> tr_event_id t = id -> thread_key t = thread_key t0
  | None, None => forall t, t ∈ td_threads db -> tr_community_id t = c -> tr_event_id t = id ->
      tr_parent_event_id t = None /\ tr_root_event_id t = None
  | _, _ => False
  end.
Proof.
  destruct (get_event_stored _ _ _ _ _ _ _ Hii Hse) as (Hst & Hid & _).
  pose proof (stored_mono _ _ _ _ _ _ (transitivity Hij Hj) Hst) as Hst'.
  pose proof (get_metadata_row _ _ _ _ _ Hmd) as Hrow.
  assert (forall t, t ∈ td_threads db -> tr_community_id t = c -> tr_event_id t = id ->
    row_ok P X (skeleton db) (skel t) /\ stored P (skeleton db) c (se_event se) (Some (tr_channel_id t))) as Hrows.
  { intros t Ht Hc Htid. assert (skel t ∈ sk_threads (skeleton db)) as Hin by (apply list_elem_of_fmap; eauto).
    pose proof (ti_threads _ _ _ Hi _ Hin) as Hok. split; [done|]. destruct Hok as (e & He & Heid & _). cbn in He, Heid.
    assert (e = se_event se) as <- by (destruct He, Hst; apply P_inj; [done..|]; apply rd_id_bytes_inj; congruence).
    by rewrite Hc in He. }
  assert (forall t, t ∈ td_threads db -> tr_community_id t = c -> tr_event_id t = id -> ~ nested (se_event se) ->
    tr_parent_event_id t = None /\ tr_root_event_id t = None) as Htop.
  { intros t Ht Hc Htid Hn. destruct (Hrows t Ht Hc Htid) as [(e & He & Heid & Hcase) _]. cbn in He, Heid.
    assert (e = se_event se) as -> by (destruct He, Hst; apply P_inj; [done..|]; apply rd_id_bytes_inj; congruence).
    destruct Hcase as [(Heq & _)|(? & ? & ? & ? & ? & Hr & _)]; [|by destruct Hn; unfold nested; rewrite Hr].
    destruct t. by injection Heq as -> -> -> -> -> _. }
  destruct (nested_dec (se_event se)) as [Hn|Hn].
  - destruct meta as [md|]; cbn.
    + destruct Hrow as (y & (t0 & Heq & Ht0)%Hj%list_elem_of_fmap & Hc & Hyid & -> & -> & _). subst y. cbn in Hc, Hyid |- *.
      destruct (Hrows t0 Ht0 Hc Hyid) as [Hok Hch]. assert (skel t0 ∈ sk_threads (skeleton db)) as Hin by (apply list_elem_of_fmap; eauto).
      assert (forall t, t ∈ td_threads db -> tr_community_id t = c -> tr_event_id t = id ->
        tr_event_created_at t = Z.of_N (ev_created_at (se_event se)) /\ exists p r, tr_parent_event_id t = Some p /\ tr_root_event_id t = Some r) as Hnest.
      { intros t Ht Hct' Htid. destruct (Hrows t Ht Hct' Htid) as [(e & He & Heid & Hcase) _]. cbn in He, Heid.
        assert (e = se_event se) as -> by (destruct He, Hst; apply P_inj; [done..|]; apply rd_id_bytes_inj; congruence).
        destruct Hcase as [(_ & Hnn & _)|(? & ? & r & p & ? & _ & _ & _ & Hp & Hr & Hts & _)]; [done|]. eauto 6. }
      destruct (Hnest t0 Ht0 Hc Hyid) as (Hts & p & r & Hp & Hr). rewrite Hp, Hr. exists t0. split_and!; try done.
      intros t Ht Htc Htid. destruct (Hnest t Ht Htc Htid) as (Htts & _). unfold thread_key. congruence.
    + intros t Ht Hc Htid. destruct (Hrows t Ht Hc Htid) as [_ Hch].
      assert (se_channel_id se = Some (tr_channel_id t)) as Hsc by (by eapply (ti_one _ _ _ Hi)). rewrite Hsc in Hst.
      destruct (ti_indexed _ _ _ Hii _ _ _ Hst Hn) as (y & Hy%Hij & Hyc & Hyid). destruct (Hrow y Hy Hyc). congruence.
  - destruct meta as [md|]; cbn; [|by intros; apply Htop].
    destruct Hrow as (y & (t0 & -> & Ht0)%Hj%list_elem_of_fmap & Hc & Hyid & -> & -> & _). cbn in Hc, Hyid |- *.
    destruct (Htop t0 Ht0 Hc Hyid Hn) as [-> ->]. by intros; apply Htop.
Qed.

Lemma live_delete ev b :
  soft_delete_event now (td_events db) c id = (ev, b) ->
  b = live db c id /\
  (forall rows c0 id0, live (mkThreadDb ev rows) c0 id0 = live db c0 id0 && negb (bool_decide (c0 = c /\ id0 = id))) /\
  (b = false -> ev = td_events db) /\
  (forall rows t u, own_row (mkThreadDb ev rows) t -> skel t = skel u -> own_row db u).
Proof.
  unfold soft_delete_event. intros [= <- <-]. split_and!.
  - reflexivity.
  - intros rows c0 id0. unfold live. cbn. induction (db_events (td_events db)) as [|r l IH]; [done|]. cbn. rewrite IH. clear IH.
    rewrite andb_orb_distrib_l. f_equal. unfold event_row. cbn [negb orb].
    destruct (bool_decide (er_community_id r = c) && bool_decide (er_id r = id) && bool_decide (er_deleted_at r = None)) eqn:Eh; cbn.
    + rewrite !andb_true_iff, !bool_decide_eq_true in Eh. destruct Eh as [[-> ->] ->].
      rewrite andb_false_r. symmetry. destruct (bool_decide (c = c0)) eqn:E1; [|done]. destruct (bool_decide (id = id0)) eqn:E2; [|done].
      apply bool_decide_eq_true in E1 as <-, E2 as <-. rewrite (bool_decide_eq_true_2 (_ /\ _)) by done. by rewrite andb_false_r.
    + destruct (bool_decide (er_community_id r = c0)) eqn:E1; [|done]. destruct (bool_decide (er_id r = id0)) eqn:E2; [|done].
      destruct (bool_decide (er_deleted_at r = None)) eqn:E3; [|done]. apply bool_decide_eq_true in E1 as <-, E2 as <-.
      symmetry. apply negb_true_iff, bool_decide_eq_false. intros [Hc Hi0]. by rewrite Hc, Hi0, !bool_decide_eq_true_2 in Eh.
  - intros Hb. destruct (td_events db) as [E ms]. cbn in *. f_equal. rewrite <- (list_fmap_id E) at 2. apply list_fmap_ext.
    intros i r Hr%list_elem_of_lookup_2. cbn. destruct (_ && _) eqn:Eh; [|done]. apply not_true_iff_false in Hb. destruct Hb.
    apply existsb_elem_of. eauto.
  - intros rows t u (r & (Hr & Hrc & Hri & Hrch) & Hrt) Heq. apply list_elem_of_fmap in Hr as (r0 & -> & Hr0). exists r0.
    assert (tr_community_id t = tr_community_id u /\ tr_event_id t = tr_event_id u /\
            tr_event_created_at t = tr_event_created_at u /\ tr_channel_id t = tr_channel_id u) as (Ec & Ei & Et & Eh)
      by (destruct t, u; by injection Heq as -> -> -> -> _ _ _ _ _ _).
    unfold event_of. rewrite <- Ec, <- Ei, <- Et, <- Eh.
    destruct (_ && _) in Hrc, Hri, Hrch, Hrt; done.
Qed.

Lemma filter_negb_split {A} (f g : A -> bool) l :
  length (List.filter f l) = length (List.filter (fun x => f x && negb (g x)) l) + length (List.filter (fun x => f x && g x) l).
Proof. induction l as [|x l IH]; [done|]. cbn. destruct (f x), (g x); cbn; lia. Qed.

(** The target no longer counts for what its row names. *)
Lemma tally_delete ev rows column c0 id0 target :
  soft_delete_event now (td_events db) c id = (ev, true) -> skel <$> rows = skel <$> td_threads db -> skel_column column ->
  (target = None /\ (forall t, t ∈ td_threads db -> tr_community_id t = c -> tr_event_id t = id -> column t = None) \/
   exists t0, t0 ∈ td_threads db /\ tr_community_id t0 = c /\ tr_event_id t0 = id /\ column t0 = target /\
     forall t, t ∈ td_threads db -> tr_community_id t = c -> tr_event_id t = id -> thread_key t = thread_key t0) ->
  (tally (mkThreadDb ev rows) column c0 id0 = tally db column c0 id0 - if bool_decide (c0 = c /\ target = Some id0) then 1 else 0)%Z.
Proof.
  intros Hsd Hrows Hcol Htarget. destruct (live_delete _ _ Hsd) as (Hb & Hlive & _). unfold tally. cbn [td_threads].
  rewrite <- (tally_skel _ _ _ _ rows), Hrows, tally_skel by done.
  set (g := fun t => bool_decide (c0 = c /\ tr_event_id t = id)).
  rewrite (filter_negb_split (names (live db) column c0 id0) g).
  rewrite (filter_congr (names (live (mkThreadDb ev rows)) column c0 id0) (fun t => names (live db) column c0 id0 t && negb (g t))).
  2: { intros t _. unfold names, g. rewrite Hlive. by rewrite !andb_assoc. }
  assert (Z.of_nat (length (List.filter (fun t => names (live db) column c0 id0 t && g t) (td_threads db))) =
          if bool_decide (c0 = c /\ target = Some id0) then 1 else 0)%Z as Hone; [|lia].
  assert (forall t, t ∈ td_threads db -> names (live db) column c0 id0 t && g t = true <->
    c0 = c /\ tr_community_id t = c /\ tr_event_id t = id /\ column t = Some id0) as Hspec.
  { intros t Ht. unfold names, g. rewrite !andb_true_iff, !bool_decide_eq_true. split; [naive_solver|].
    intros (-> & Hc & Hid & Hcolt). split_and!; try done. by rewrite Hid, <- Hb. }
  destruct Htarget as [[-> Hnone]|(t0 & Ht0 & Hc & Hid & Hct0 & Huniq)].
  - rewrite (bool_decide_eq_false_2 (_ /\ _)) by naive_solver. rewrite filter_all_false; [done|]. intros t Ht.
    apply not_true_iff_false. rewrite Hspec by done. intros (_ & Htc & Htid & Hcolt). by rewrite Hnone in Hcolt.
  - apply list_elem_of_split in Ht0 as (l1 & l2 & Hsplit).
    pose proof (ct_keys _ Hct) as Hnd. rewrite Hsplit, fmap_app in Hnd. cbn in Hnd. apply NoDup_app in Hnd as (_ & Hd1 & Hd2%NoDup_cons).
    assert (forall t, t ∈ l1 \/ t ∈ l2 -> names (live db) column c0 id0 t && g t = false) as Hother.
    { intros t Ht. assert (t ∈ td_threads db) as Htt by (rewrite Hsplit, elem_of_app, elem_of_cons; tauto).
      apply not_true_iff_false. rewrite Hspec by done. intros (_ & Htc & Htid & _). pose proof (Huniq t Htt Htc Htid) as Hk.
      destruct Ht as [Ht|Ht].
      - apply (Hd1 (thread_key t)); [apply list_elem_of_fmap; eauto|]. rewrite Hk. by left.
      - apply (proj1 Hd2). rewrite <- Hk. apply list_elem_of_fmap; eauto. }
    assert (names (live db) column c0 id0 t0 && g t0 = bool_decide (c0 = c /\ target = Some id0)) as Ht0'.
    { apply eq_true_iff_eq. rewrite Hspec, bool_decide_eq_true by (rewrite Hsplit, elem_of_app, elem_of_cons; tauto). naive_solver. }
    rewrite Hsplit, List.filter_app, length_app. cbn [List.filter]. rewrite Ht0'.
    rewrite (filter_all_false _ l1), (filter_all_false _ l2) by (intros t Ht; apply Hother; tauto). case_bool_decide; done.
Qed.

Lemma counted_delete db' b :
  soft_delete_event_and_update_thread true now db c id (meta ≫= md_parent_event_id) (meta ≫= md_root_event_id) = Ok (db', b) ->
  counted db'.
Proof.
  unfold soft_delete_event_and_update_thread. cbn [negb]. destruct (soft_delete_event _ _ _ _) as [ev b0] eqn:Es.
  intros [= <- <-]. destruct (live_delete _ _ Es) as (Hb & Hlive & Hsame & Hown). destruct b0.
  2: { rewrite Hsame by done. by destruct db. }
  pose proof delete_target_row as Hrow.
  assert (exists rows, skel <$> rows = skel <$> td_threads db /\
    mkThreadDb ev rows = mkThreadDb ev (match meta ≫= md_parent_event_id with
      | Some pid => match meta ≫= md_root_event_id with
          | Some root_id => update_rows c root_id uncount_descendant (update_rows c pid uncount_reply (td_threads db))
          | None => update_rows c pid uncount_reply (td_threads db) end
      | None => td_threads db end) /\
    forall u', u' ∈ rows -> exists u, u ∈ td_threads db /\ skel u' = skel u /\
      (tr_reply_count u' = if bool_decide (tr_community_id u = c /\ meta ≫= md_parent_event_id = Some (tr_event_id u))
                           then Z.max (tr_reply_count u - 1) 0 else tr_reply_count u)%Z /\
      (tr_descendant_count u' = if bool_decide (tr_community_id u = c /\ meta ≫= md_root_event_id = Some (tr_event_id u))
                                then Z.max (tr_descendant_count u - 1) 0 else tr_descendant_count u)%Z) as (rows & Hsk & <- & Hrows).
  { eexists. split_and!; [|reflexivity|].
    - destruct (meta ≫= md_parent_event_id), (meta ≫= md_root_event_id); by rewrite ?update_rows_skel.
    - destruct (meta ≫= md_parent_event_id) as [p|], (meta ≫= md_root_event_id) as [r|]; try done.
      + intros u'. unfold update_rows. intros (u1 & -> & (u & -> & Hu)%list_elem_of_fmap)%list_elem_of_fmap. exists u.
        split; [done|].
        assert (forall x, thread_hit c x u = bool_decide (tr_community_id u = c /\ Some x = Some (tr_event_id u))) as Hh.
        { intros x. apply eq_true_iff_eq. rewrite thread_hit_true, bool_decide_eq_true. naive_solver. }
        replace (thread_hit c r (if thread_hit c p u then uncount_reply u else u)) with (thread_hit c r u)
          by by destruct (thread_hit c p u).
        rewrite <- !Hh. by destruct (thread_hit c r u), (thread_hit c p u).
      + intros u' Hu'. exists u'. rewrite !bool_decide_eq_false_2 by naive_solver. done. }
  split; [by rewrite <- key_skel; cbn; rewrite Hsk, key_skel; apply Hct|]. intros u' Hu' Hown'. cbn in Hu'.
  destruct (Hrows u' Hu') as (u & Hu & Heq & -> & ->). destruct (ct_exact _ Hct u Hu (Hown _ _ _ Hown' Heq)) as [-> ->].
  assert (tr_community_id u' = tr_community_id u /\ tr_event_id u' = tr_event_id u) as [-> ->]
    by (destruct u, u'; by injection Heq as -> _ -> _ _ _ _ _ _ _).
  unfold live_replies, live_descendants.
  pose proof (tally_delete ev rows tr_parent_event_id (tr_community_id u) (tr_event_id u) (meta ≫= md_parent_event_id) Es Hsk ltac:(done)) as H1'.
  pose proof (tally_delete ev rows tr_root_event_id (tr_community_id u) (tr_event_id u) (meta ≫= md_root_event_id) Es Hsk ltac:(done)) as H2'.
  assert (forall column, 0 <= tally (mkThreadDb ev rows) column (tr_community_id u) (tr_event_id u))%Z as Hpos by (intros; unfold tally; lia).
  pose proof (Hpos tr_parent_event_id) as Hp. pose proof (Hpos tr_root_event_id) as Hr.
  destruct (meta ≫= md_parent_event_id) as [p|], (meta ≫= md_root_event_id) as [r|]; try done.
  - destruct Hrow as (t0 & Ht0). rewrite H1' in * by (right; exists t0; naive_solver). rewrite H2' in * by (right; exists t0; naive_solver).
    repeat case_bool_decide; lia.
  - rewrite H1' in * by (left; naive_solver). rewrite H2' in * by (left; naive_solver).
    repeat case_bool_decide; lia.
Qed.
End delete_step.

Hypothesis P_bytes : forall e, P e -> String.length (rd_id_bytes (ev_id e)) = 32%nat.
Hypothesis HX : X.

Lemma counted_committed x mx ms now db c e ch meta :
  thread_inv P X (skeleton db) -> P e -> (ev_created_at e < 2 ^ 63)%N -> meta_ok P X (skeleton db) c e ch meta -> counted db ->
  counted (tx_committed db (insert_event_with_thread_metadata x mx ms now db c e ch meta)).
Proof.
  intros Hi HP Ht Hm Hct. destruct (insert_event_with_thread_metadata _ _ _ _ _ _ _ _ _) as [[db' [st b]]|] eqn:Ei; cbn; [|done].
  by eapply counted_commit.
Qed.

Lemma counted_op hist db op :
  history_inv P X hist -> last hist = Some db -> op_threaded op -> in_order op ->
  (forall e, op_event op = Some e -> P e /\ (ev_created_at e < 2 ^ 63)%N) -> counted db -> counted (thread_op hist db op).
Proof.
  intros Hh Hl Hop Hord Hev Hct.
  assert (thread_inv P X (skeleton db)) as Hi by (rewrite last_lookup in Hl; by apply (Hh _ _ Hl)).
  destruct op as [x mx ms now c e ch i j k pick|x ms now c e ch|x mx ms now c e ch rt base mentions i j k pick|x now c id i j pick];
    cbn [thread_op op_threaded in_order op_event] in *.
  - destruct (Hev e eq_refl) as [HP Ht]. pose proof (history_reads P X _ _ i j k pick now Hh Hl (fun _ => Hord)) as Hrd.
    unfold ingest_threaded. destruct (resolve_nip10_thread_meta _ _ _ _) as [meta|] eqn:Er; [|done].
    apply counted_committed; [done..| |done]. by eapply ingest_meta_ok.
  - destruct (Hev e eq_refl) as [HP Ht]. apply counted_committed; [done..| |done]. by left.
  - destruct (Hev e eq_refl) as [HP Ht]. destruct Hop as [Hb Hm].
    pose proof (history_reads P X _ _ i j k pick now Hh Hl (fun _ => Hord)) as Hrd. unfold workflow_post. destruct rt as [ph|].
    + destruct (resolve_relay_reply_thread_meta _ _ _ _) as [a|] eqn:Ea; [|done]. case_bool_decide as Htags; [|done].
      apply counted_committed; [done..| |done]. right; right. eexists _, _. split_and!; [done..|].
      exact (workflow_reply_meta P X P_inj P_bytes _ _ _ e _ _ _ _ _ Hi Hrd Ea Hb Hm Htags).
    + case_bool_decide as Htags; [|done]. apply counted_committed; [done..| |done]. right; left. exists ch, (created_or now e).
      split_and!; [done| |done|].
      * unfold nested. rewrite Htags, no_thread_tags by done. tauto.
      * unfold created_or. by intros ->.
  - unfold delete_target. cbn [rd_event_table rd_meta_table rd_pick rd_now].
    destruct (hist !! i) as [dbi|] eqn:Ehi; [|done].
    destruct (get_event_by_id_including_deleted _ _ _) as [[se|]|] eqn:Ese; [|done..].
    destruct (N.eqb _ KIND_PUSH_LEASE); [done|].
    destruct (hist !! j) as [dbj|] eqn:Ehj; [|done].
    destruct (get_thread_metadata_by_event _ _ _ _) as [meta|] eqn:Emd; [|done].
    destruct x; [|done]. destruct (soft_delete_event_and_update_thread _ _ _ _ _ _ _) as [[db' b]|] eqn:Es; [|done].
    destruct (Hh _ _ Ehi) as [Hii Hmi]. destruct (Hh _ _ Ehj) as [_ Hmj]. rewrite last_lookup in Hl. cbn [tx_committed].
    eapply (counted_delete dbi dbj db c id pick now se meta Hi Hii); try done; [by eapply Hmi|].
    eapply Hmj; [|done]. apply lookup_lt_Some in Ehj. lia.
Qed.
End commit.

(** C13: Under the same conditions, when every request reads the metadata of an
    event no earlier than the event, then whatever requests come, with failing
    statements between them,
    the reply count of every row keyed by its event's time is the number of
    live events whose row names it as parent, and its descendant count the
    number of those whose row names it as root. *)
Theorem reply_counts_exact (ops : list ThreadOp) (db := thread_run ops) :
  well_threaded ops -> Forall in_order ops ->
  forall t, t ∈ td_threads db -> own_row db t ->
    tr_reply_count t = live_replies db (tr_community_id t) (tr_event_id t) /\
    tr_descendant_count t = live_descendants db (tr_community_id t) (tr_event_id t).
Proof.
  intros Hwt HX. cut (counted db); [by intros [_ Hex]|].
  set (P := submitted ops). set (X := Forall in_order ops).
  assert (forall ops', (forall op, op ∈ ops' -> op ∈ ops) -> counted (thread_run ops')) as Hall; [|by apply Hall].
  intros ops'. induction ops' as [|op ops' IH] using rev_ind; intros Hsub.
  { split; [by apply NoDup_nil|]. by intros t ?%elem_of_nil. }
  assert (forall op, op ∈ ops' -> op ∈ ops) as Hsub' by (intros o Ho; apply Hsub, elem_of_app; by left).
  assert (forall op, op ∈ ops -> op_threaded op /\ (X -> in_order op) /\
    forall e, op_event op = Some e -> P e /\ (ev_created_at e < 2 ^ 63)%N) as Hops.
  { intros o Ho. split_and!; [by apply (wt_ops _ Hwt)|intros _; by eapply Forall_forall in HX|].
    intros e He. assert (submitted ops e) by (by exists o). split; [done|]. by apply (wt_time _ Hwt). }
  destruct (history_inv_run P X (wt_ids _ Hwt) (wt_bytes _ Hwt) ops') as [Hh [db0 Hl]]; [by auto|].
  specialize (IH Hsub'). unfold thread_run in IH |- *. rewrite Hl in IH. cbn in IH.
  unfold thread_history at 1. rewrite foldl_app. cbn [foldl]. fold (thread_history ops'). rewrite last_snoc, Hl. cbn [default from_option id].
  assert (op ∈ ops) as Hop by (apply Hsub, elem_of_app; right; by left). destruct (Hops op Hop) as (Ho & Hord & He).
  by apply (counted_op X P (wt_ids _ Hwt) (wt_bytes _ Hwt) (thread_history ops') db0 op Hh Hl Ho (Hord HX) He).
Qed.
End forest.

(** ** Concrete histories *)

Module SampleThread.
Import SampleHex SampleRead.

Definition channel : Uuid := 5.
Definition mark (role : string) (id : N) : Tag := ["e"; hex_encode (rd_id_bytes id); ""; role].
Definition root : Event := mkEvent 1 10 100 9 [["h"; "5"]] "root".
Definition first_reply : Event := mkEvent 2 11 110 9 [["h"; "5"]; mark "reply" 1] "first".
Definition nested_reply : Event := mkEvent 3 10 120 9 [["h"; "5"]; mark "root" 1; mark "reply" 2] "nested".
Definition deep_reply : Event := mkEvent 4 11 130 9 [["h"; "5"]; mark "root" 1; mark "reply" 3] "deep".

Definition ingest (e : Event) (i j k : nat) : ThreadOp := ThIngest true true true 200 community e channel i j k 0.

(** A message, a reply, a reply to the reply, and the deletion of the first. *)
Definition story : list ThreadOp :=
  [ingest root 0 0 0; ingest first_reply 1 1 1; ingest nested_reply 2 2 2; ThDelete true 201 community (rd_id_bytes 2) 3 3 0].

Lemma story_events e : submitted story e -> e = root \/ e = first_reply \/ e = nested_reply.
Proof. intros (op & Hop & He). unfold story in Hop. set_unfold in Hop. naive_solver. Qed.

Lemma story_threaded : well_threaded story.
Proof.
  split.
  - intros e [-> |[-> | ->]]%story_events; done.
  - intros e [-> |[-> | ->]]%story_events; done.
  - intros e e' [-> |[-> | ->]]%story_events [-> |[-> | ->]]%story_events; done.
  - intros op Hop. unfold story in Hop. set_unfold in Hop. by destruct Hop as [-> |[-> |[-> |[-> |[]]]]].
Qed.
Lemma story_ordered : Forall in_order story.
Proof. repeat constructor. Qed.

(** The row of [e] in the table. *)
Definition row_in (db : ThreadDb) (e : Event) : option ThreadRow :=
  head (List.filter (thread_hit community (rd_id_bytes (ev_id e))) (td_threads db)).

Lemma row_in_elem db e t : row_in db e = Some t -> t ∈ td_threads db.
Proof.
  unfold row_in. intros Hh. assert (t ∈ List.filter (thread_hit community (rd_id_bytes (ev_id e))) (td_threads db)) as Ht.
  { destruct (List.filter _ _); [done|]. injection Hh as ->. by left. }
  by apply elem_of_filter_bool in Ht as [Ht _].
Qed.
End SampleThread.

Import SampleHex SampleRead SampleThread.

Lemma threads_form_trees_witness :
  exists t, row_in (thread_run story) nested_reply = Some t /\
    exists n, thread_path (thread_run story) community channel (rd_id_bytes 3) (rd_id_bytes 1) n /\ (2 <= Z.of_nat n)%Z.
Proof.
  destruct (row_in (thread_run story) nested_reply) as [t|] eqn:Et; [|by vm_compute in Et]. exists t. split; [done|].
  destruct (threads_form_trees story story_threaded t) as [(n & Hp & Hd & _) _].
  { exact (row_in_elem _ _ _ Et). }
  vm_compute in Et. injection Et as <-. exists n. split; [exact Hp|]. apply Hd.
Defined.

Lemma reply_counts_exact_witness :
  exists t, row_in (thread_run story) root = Some t /\ tr_reply_count t = 0%Z /\ tr_descendant_count t = 1%Z /\
    live_replies (thread_run story) community (rd_id_bytes 1) = 0%Z /\
    live_descendants (thread_run story) community (rd_id_bytes 1) = 1%Z.
Proof.
  destruct (row_in (thread_run story) root) as [t|] eqn:Et; [|by vm_compute in Et]. exists t. split; [done|].
  assert (t ∈ td_threads (thread_run story)) as Ht by exact (row_in_elem _ _ _ Et).
  destruct (reply_counts_exact story story_threaded story_ordered t Ht) as [Hr Hd].
  - vm_compute in Et. injection Et as <-.
    eexists. split; [split; [vm_compute; left|]|]; vm_compute; done.
  - vm_compute in Et. injection Et as <-. split_and!; [done..|by symmetry|by symmetry].
Defined.

(** A parent that names a thread but was stored without metadata, as the kinds
    outside the threaded ones are: its first reply is accepted and leaves a
    stub by which the same reference is refused from then on. *)
Definition unindexed : list ThreadOp :=
  [ingest root 0 0 0; ThPlain true true 200 community first_reply (Some channel)].
Definition reads_of (ops : list ThreadOp) : ThreadReads :=
  let db := Some (thread_run ops) in mkThreadReads db db db 0 200.
Definition second_nested_reply : Event := mkEvent 5 12 125 9 [["h"; "5"]; mark "root" 1; mark "reply" 2] "again".

Example unindexed_parent_refuses_second_reply :
  (match resolve_nip10_thread_meta (reads_of unindexed) community second_nested_reply channel with
   | Ok (Some m) => to_depth m = 2%Z /\ to_root_event_id m = rd_id_bytes 1 | _ => False end) /\
  resolve_nip10_thread_meta (reads_of (unindexed ++ [ingest nested_reply 2 2 2])) community second_nested_reply channel =
    Err RootMismatch.
Proof. vm_compute. done. Qed.

(** A reply whose metadata query ran before its parent was committed, and its
    event query after, is recorded two levels deep, whatever its parent's depth. *)
Example racing_reply_depth :
  tr_depth <$> row_in (thread_run [ingest root 0 0 0; ingest first_reply 1 1 1; ingest nested_reply 2 2 2; ingest deep_reply 3 2 3]) deep_reply
    = Some 2%Z /\
  tr_depth <$> row_in (thread_run [ingest root 0 0 0; ingest first_reply 1 1 1; ingest nested_reply 2 2 2; ingest deep_reply 3 3 3]) deep_reply
    = Some 3%Z.
Proof. vm_compute. done. Qed.

(** A nested reply in a thread whose root was deleted adds a second row for the
    root, keyed by the parent's time, which counts only from then on. *)
Example deleted_root_second_row :
  (fun t => (tr_event_created_at t, tr_descendant_count t)) <$>
    List.filter (thread_hit community (rd_id_bytes 1))
      (td_threads (thread_run [ingest root 0 0 0; ingest first_reply 1 1 1;
                               ThDelete true 201 community (rd_id_bytes 1) 2 2 0; ingest nested_reply 3 3 3]))
  = [(100, 2); (110, 1)]%Z.
Proof. vm_compute. done. Qed.
