(* ===== verification/Ingest.v ===== *)
(** The gate of event ingest, buzz-relay/src/handlers/ingest.rs: the beginning
    of [ingest_event_inner], up to and including the channel membership check,
    which both transports pass for every event they submit.

    [admission] follows the function in order and says where an event goes next:
    to one of the handlers that take an event over, or into the pipeline that
    validates and stores it, with the channel it will be stored in and the mode
    that source_publication.rs selects for repository, project and Wiki events.

    What a request reads is its [IngestEnv]: a query that fails has no table.
    [ingest_gate_exact] states exactly which events pass. *)

From S2P Require Import Prelude Nostr Filter Auth RustStr JsonValue ReadGate EventStore ReadQuery ReadReq ReadTheorems.
From S2P Require Import AuthRun Tenant Conformance Replace WorkflowSchedule ReadPush ReadStored ReadCount ReadTopics ReadWitness Thread ThreadStore.

(** ** Kinds *)

Definition KIND_PROFILE : N := 0.
Definition KIND_TEXT_NOTE : N := 1.
Definition KIND_CONTACT_LIST : N := 3.
Definition KIND_MUTE_LIST : N := 10000.
Definition KIND_PIN_LIST : N := 10001.
Definition KIND_NIP65_RELAY_LIST_METADATA : N := 10002.
Definition KIND_BOOKMARK_LIST : N := 10003.
Definition KIND_EMOJI_LIST : N := 10030.
Definition KIND_FOLLOW_SET : N := 30000.
Definition KIND_EMOJI_SET : N := 30030.
Definition KIND_DELETION : N := 5.
Definition KIND_LONG_FORM : N := 30023.
Definition KIND_USER_STATUS : N := 30315.
Definition KIND_AGENT_PROFILE : N := 10100.
Definition KIND_TEAM : N := 30176.
Definition KIND_MANAGED_AGENT : N := 30177.
Definition KIND_REPORT : N := 1984.
Definition KIND_PRODUCT_FEEDBACK : N := 42000.
Definition KIND_NIP29_PUT_USER : N := 9000.
Definition KIND_NIP29_REMOVE_USER : N := 9001.
Definition KIND_NIP29_EDIT_METADATA : N := 9002.
Definition KIND_NIP29_DELETE_EVENT : N := 9005.
Definition KIND_NIP29_CREATE_GROUP : N := 9007.
Definition KIND_NIP29_DELETE_GROUP : N := 9008.
Definition KIND_NIP29_JOIN_REQUEST : N := 9021.
Definition KIND_NIP29_LEAVE_REQUEST : N := 9022.
Definition KIND_MODERATION_BAN : N := 9040.
Definition KIND_MODERATION_UNBAN : N := 9041.
Definition KIND_MODERATION_TIMEOUT : N := 9042.
Definition KIND_MODERATION_UNTIMEOUT : N := 9043.
Definition KIND_MODERATION_RESOLVE_REPORT : N := 9044.
Definition RELAY_ADMIN_ADD_MEMBER : N := 9030.
Definition RELAY_ADMIN_REMOVE_MEMBER : N := 9031.
Definition RELAY_ADMIN_CHANGE_ROLE : N := 9032.
Definition RELAY_ADMIN_SET_WORKSPACE_PROFILE : N := 9033.
Definition KIND_NIP43_LEAVE_REQUEST : N := 28936.
Definition KIND_IA_ARCHIVE_REQUEST : N := 9035.
Definition KIND_IA_UNARCHIVE_REQUEST : N := 9036.
Definition KIND_THREAD_SUMMARY : N := 39005.
Definition KIND_WINDOW_BOUNDS : N := 39006.
Definition KIND_PRESENCE_UPDATE : N := 20001.
Definition KIND_STREAM_MESSAGE_V2 : N := 40002.
Definition KIND_STREAM_MESSAGE_EDIT : N := 40003.
Definition KIND_STREAM_MESSAGE_PINNED : N := 40004.
Definition KIND_STREAM_MESSAGE_BOOKMARKED : N := 40005.
Definition KIND_STREAM_MESSAGE_SCHEDULED : N := 40006.
Definition KIND_STREAM_REMINDER : N := 40007.
Definition KIND_CANVAS : N := 40100.
Definition KIND_CHANNEL_SUMMARY : N := 40901.
Definition KIND_PRESENCE_SNAPSHOT : N := 40902.
Definition KIND_FORUM_POST : N := 45001.
Definition KIND_FORUM_VOTE : N := 45002.
Definition KIND_FORUM_COMMENT : N := 45003.
Definition KIND_AGENT_USER_INPUT_REQUESTED : N := 46040.
Definition KIND_AGENT_USER_INPUT_ANSWER : N := 46041.
Definition KIND_AGENT_USER_INPUT_RESOLVED : N := 46042.
Definition KIND_AGENT_RECEIPT : N := 46043.
Definition KIND_CONTACT_DECISION : N := 46044.
Definition KIND_HUDDLE_STARTED : N := 48100.
Definition KIND_HUDDLE_PARTICIPANT_JOINED : N := 48101.
Definition KIND_HUDDLE_PARTICIPANT_LEFT : N := 48102.
Definition KIND_HUDDLE_ENDED : N := 48103.
Definition KIND_HUDDLE_GUIDELINES : N := 48106.
Definition KIND_GIT_REPO_ANNOUNCEMENT : N := 30617.
Definition KIND_GIT_REPO_STATE : N := 30618.
Definition KIND_GIT_PATCH : N := 1617.
Definition KIND_GIT_PULL_REQUEST : N := 1618.
Definition KIND_GIT_PR_UPDATE : N := 1619.
Definition KIND_GIT_ISSUE : N := 1621.
Definition KIND_GIT_STATUS_OPEN : N := 1630.
Definition KIND_GIT_STATUS_MERGED : N := 1631.
Definition KIND_GIT_STATUS_CLOSED : N := 1632.
Definition KIND_GIT_STATUS_DRAFT : N := 1633.
Definition KIND_PROJECT : N := 30621.
Definition KIND_ORG_ROSTER : N := 30680.

Definition is_moderation_command_kind (kind : N) : bool :=
  one_of [KIND_MODERATION_BAN; KIND_MODERATION_UNBAN; KIND_MODERATION_TIMEOUT; KIND_MODERATION_UNTIMEOUT;
          KIND_MODERATION_RESOLVE_REPORT] kind.
Definition is_relay_admin_kind (kind : N) : bool :=
  one_of [RELAY_ADMIN_ADD_MEMBER; RELAY_ADMIN_REMOVE_MEMBER; RELAY_ADMIN_CHANGE_ROLE; RELAY_ADMIN_SET_WORKSPACE_PROFILE] kind.
Definition is_relay_only_kind (kind : N) : bool :=
  one_of [KIND_NIP43_MEMBERSHIP_LIST; KIND_CHANNEL_SUMMARY; KIND_PRESENCE_SNAPSHOT; KIND_DM_VISIBILITY; KIND_THREAD_SUMMARY;
          KIND_WINDOW_BOUNDS; KIND_CONTACT_DECISION] kind.

(** [serde_json::from_str], when the text is JSON. *)
Class JsonText := { json_from_str : string -> option Json }.

(** The kinds [source_publication::classify] looks into. *)
Definition is_publication_kind (kind : N) : bool := one_of [KIND_GIT_REPO_ANNOUNCEMENT; KIND_PROJECT; KIND_REPO_WIKI_PAGE] kind.

Definition is_global_only_kind (kind : N) : bool :=
  one_of [KIND_PROFILE; KIND_TEXT_NOTE; KIND_CONTACT_LIST; KIND_LONG_FORM; KIND_USER_STATUS; KIND_READ_STATE;
          KIND_MUTE_LIST; KIND_PIN_LIST; KIND_NIP65_RELAY_LIST_METADATA; KIND_BOOKMARK_LIST; KIND_FOLLOW_SET;
          KIND_BOOKMARK_SET; KIND_EMOJI_SET; KIND_EMOJI_LIST; KIND_AGENT_ENGRAM; KIND_EVENT_REMINDER;
          KIND_AGENT_PROFILE; KIND_PERSONA; KIND_TEAM; KIND_MANAGED_AGENT; KIND_PRIVATE_MANAGED_AGENT;
          KIND_TEAM_CATALOG; KIND_GIT_REPO_ANNOUNCEMENT; KIND_GIT_REPO_STATE; KIND_REPO_WIKI_PAGE; KIND_GIT_PATCH;
          KIND_GIT_PULL_REQUEST; KIND_GIT_PR_UPDATE; KIND_GIT_ISSUE; KIND_GIT_STATUS_OPEN; KIND_GIT_STATUS_MERGED;
          KIND_GIT_STATUS_CLOSED; KIND_GIT_STATUS_DRAFT; KIND_PROJECT; KIND_ORG_ROSTER; KIND_MODERATION_BAN;
          KIND_MODERATION_UNBAN; KIND_MODERATION_TIMEOUT; KIND_MODERATION_UNTIMEOUT; KIND_MODERATION_RESOLVE_REPORT;
          RELAY_ADMIN_ADD_MEMBER; RELAY_ADMIN_REMOVE_MEMBER; RELAY_ADMIN_CHANGE_ROLE;
          RELAY_ADMIN_SET_WORKSPACE_PROFILE; KIND_NIP43_LEAVE_REQUEST; KIND_IA_ARCHIVE_REQUEST;
          KIND_IA_UNARCHIVE_REQUEST; KIND_AGENT_TURN_METRIC; KIND_PUSH_LEASE] kind.

Definition requires_h_channel_scope (kind : N) : bool :=
  one_of [KIND_STREAM_MESSAGE; KIND_STREAM_MESSAGE_V2; KIND_STREAM_MESSAGE_EDIT; KIND_STREAM_MESSAGE_PINNED;
          KIND_STREAM_MESSAGE_BOOKMARKED; KIND_STREAM_MESSAGE_SCHEDULED; KIND_STREAM_REMINDER; KIND_STREAM_MESSAGE_DIFF;
          KIND_CANVAS; KIND_FORUM_POST; KIND_FORUM_VOTE; KIND_FORUM_COMMENT; KIND_AGENT_RECEIPT; KIND_NIP29_PUT_USER;
          KIND_NIP29_REMOVE_USER; KIND_NIP29_EDIT_METADATA; KIND_NIP29_DELETE_EVENT; KIND_NIP29_DELETE_GROUP;
          KIND_NIP29_LEAVE_REQUEST; KIND_HUDDLE_STARTED; KIND_HUDDLE_PARTICIPANT_JOINED; KIND_HUDDLE_PARTICIPANT_LEFT;
          KIND_HUDDLE_ENDED; KIND_HUDDLE_GUIDELINES] kind.

Section gate.
Context `{NostrLib, UuidLib, HexLib, Sha256Lib, AuthLib, ReadLib, StoreLib, WikiLib, JsonText}.

(** [required_scope_for_kind]: the arms in order. *)
Definition required_scope_for_kind (kind : N) (event : Event) : result Scope string :=
  if one_of [KIND_PROFILE] kind then Ok UsersWrite
  else if one_of [KIND_TEXT_NOTE; KIND_LONG_FORM] kind then Ok MessagesWrite
  else if one_of [KIND_CONTACT_LIST; KIND_READ_STATE; KIND_USER_STATUS; KIND_AGENT_ENGRAM; KIND_EVENT_REMINDER; KIND_PERSONA;
                  KIND_TEAM; KIND_MANAGED_AGENT; KIND_PRIVATE_MANAGED_AGENT; KIND_TEAM_CATALOG; KIND_ORG_ROSTER;
                  KIND_PUSH_LEASE] kind then Ok UsersWrite
  else if one_of [KIND_AGENT_TURN_METRIC] kind then Ok MessagesWrite
  else if one_of [KIND_REPORT; KIND_PRODUCT_FEEDBACK] kind then Ok MessagesWrite
  else if is_moderation_command_kind kind then Ok MessagesWrite
  else if one_of [KIND_MUTE_LIST; KIND_PIN_LIST; KIND_NIP65_RELAY_LIST_METADATA; KIND_BOOKMARK_LIST; KIND_FOLLOW_SET;
                  KIND_BOOKMARK_SET; KIND_EMOJI_SET; KIND_EMOJI_LIST; KIND_AGENT_PROFILE] kind then Ok UsersWrite
  else if one_of [KIND_DELETION; KIND_REACTION; KIND_GIFT_WRAP; KIND_STREAM_MESSAGE; KIND_STREAM_MESSAGE_V2;
                  KIND_NIP29_DELETE_EVENT; KIND_STREAM_MESSAGE_EDIT; KIND_STREAM_MESSAGE_PINNED;
                  KIND_STREAM_MESSAGE_BOOKMARKED; KIND_STREAM_MESSAGE_SCHEDULED; KIND_STREAM_REMINDER;
                  KIND_STREAM_MESSAGE_DIFF; KIND_FORUM_POST; KIND_FORUM_VOTE; KIND_FORUM_COMMENT;
                  KIND_AGENT_USER_INPUT_REQUESTED; KIND_AGENT_USER_INPUT_ANSWER; KIND_AGENT_USER_INPUT_RESOLVED;
                  KIND_AGENT_RECEIPT] kind then Ok MessagesWrite
  else if one_of [KIND_NIP29_PUT_USER; KIND_NIP29_REMOVE_USER; KIND_NIP29_DELETE_GROUP] kind then Ok AdminChannels
  else if is_relay_admin_kind kind then Ok AdminUsers
  else if one_of [KIND_IA_ARCHIVE_REQUEST; KIND_IA_UNARCHIVE_REQUEST] kind then Ok UsersWrite
  else if one_of [KIND_NIP29_EDIT_METADATA] kind then
    if existsb (fun t => String.eqb (tag_kind_string t) "archived") (ev_tags event) then Ok AdminChannels else Ok ChannelsWrite
  else if one_of [KIND_NIP29_CREATE_GROUP; KIND_CANVAS] kind then Ok ChannelsWrite
  else if one_of [KIND_NIP29_JOIN_REQUEST; KIND_NIP29_LEAVE_REQUEST; KIND_NIP43_LEAVE_REQUEST] kind then Ok ChannelsRead
  else if one_of [KIND_HUDDLE_STARTED; KIND_HUDDLE_PARTICIPANT_JOINED; KIND_HUDDLE_PARTICIPANT_LEFT; KIND_HUDDLE_ENDED;
                  KIND_HUDDLE_GUIDELINES] kind then Ok ChannelsWrite
  else if one_of [KIND_GIT_REPO_ANNOUNCEMENT; KIND_GIT_REPO_STATE; KIND_REPO_WIKI_PAGE] kind then Ok ReposWrite
  else if one_of [KIND_PROJECT] kind then Ok ReposWrite
  else if one_of [KIND_GIT_PATCH; KIND_GIT_PULL_REQUEST; KIND_GIT_PR_UPDATE; KIND_GIT_ISSUE; KIND_GIT_STATUS_OPEN;
                  KIND_GIT_STATUS_MERGED; KIND_GIT_STATUS_CLOSED; KIND_GIT_STATUS_DRAFT] kind then Ok MessagesWrite
  else if one_of [KIND_DM_OPEN; KIND_DM_ADD_MEMBER; KIND_DM_HIDE] kind then Ok MessagesWrite
  else if one_of [KIND_WORKFLOW_DEF; KIND_WORKFLOW_TRIGGER] kind then Ok MessagesWrite
  else if one_of [KIND_APPROVAL_GRANT; KIND_APPROVAL_DENY] kind then Ok MessagesWrite
  else Err "restricted: unknown event kind".

(** ** The principal *)

Inductive HttpAuthMethod := HttpNip98 | DevPubkey.

Inductive IngestAuth :=
| Nip42 (pubkey : PublicKey) (scopes : list Scope) (channel_ids : option (list Uuid)) (conn_id : Uuid)
| Http (pubkey : PublicKey) (scopes : list Scope) (auth_method : HttpAuthMethod).

Definition auth_pubkey (a : IngestAuth) : PublicKey := match a with Nip42 pk _ _ _ | Http pk _ _ => pk end.
Definition auth_scopes (a : IngestAuth) : list Scope := match a with Nip42 _ s _ _ | Http _ s _ => s end.
Definition auth_channel_ids (a : IngestAuth) : option (list Uuid) :=
  match a with Nip42 _ _ (Some ids) _ => Some ids | _ => None end.
Definition is_http (a : IngestAuth) : bool := match a with Http _ _ _ => true | Nip42 _ _ _ _ => false end.

(** ** Refusals: the error and its text, up to interpolated values *)

Record Refusal := mkRefusal { rf_error : IngestError; rf_text : string }.
Definition rejected {A} (text : string) : result A Refusal := Err (mkRefusal Rejected text).
Definition auth_failed {A} (text : string) : result A Refusal := Err (mkRefusal AuthFailed text).
Definition internal {A} (text : string) : result A Refusal := Err (mkRefusal Internal text).

(** ** Conditional publication, handlers/source_publication.rs *)

Inductive ConditionalRevision := ExpectMissing | ExpectRevision (id : string).
Inductive PublicationMode := Legacy | Conditional (revision : ConditionalRevision).
#[export] Instance revision_eq_dec : EqDecision ConditionalRevision.
Proof. solve_decision. Defined.
#[export] Instance mode_eq_dec : EqDecision PublicationMode.
Proof. solve_decision. Defined.

Definition MAX_SIGNED_EVENT_BYTES : Z := 192 * 1024.
Definition SOURCE_MARKER_TAGS : list string :=
  ["source-kind"; "wiki-manifest"; "wiki-slug"; "wiki-snapshot"; "wiki-source-files"; "wiki-version"].

Definition invalid_publication {A} (reason : string) : result A Refusal :=
  rejected ("invalid: conditional publication: " +:+ reason).

Definition is_lower_hex_text (value : string) (len : nat) : bool := (String.length value =? len)%nat && all_chars lower_hex value.

Definition named (name : string) (t : Tag) : bool := bool_decide (t !! 0 = Some name).
Definition has_tag (event : Event) (name : string) : bool := existsb (named name) (ev_tags event).
Definition has_any_tag (event : Event) (names : list string) : bool := existsb (has_tag event) names.

(** [exact_tag]: the one tag of the name, of the given width. *)
Definition exact_tag (event : Event) (name : string) (width : nat) : result (option Tag) Refusal :=
  match List.filter (named name) (ev_tags event) with
  | [] => Ok None
  | [t] => if (length t =? width)%nat then Ok (Some t) else invalid_publication "tag must have exact width"
  | _ => invalid_publication "tag must occur exactly once"
  end.
Definition singleton_tag (event : Event) (name : string) : result (option string) Refusal :=
  match List.filter (named name) (ev_tags event) with
  | [] => Ok None
  | [t] => if (length t =? 2)%nat then Ok (t !! 1) else invalid_publication "tag must have exactly two elements"
  | _ => invalid_publication "must have exactly one tag"
  end.
(** The value of a required tag of the width. *)
Definition required_tag (event : Event) (name : string) (width : nat) (missing : string) : result Tag Refusal :=
  let? t := exact_tag event name width in
  match t with Some t => Ok t | None => invalid_publication missing end.
Definition nth_text (t : Tag) (i : nat) : string := default "" (t !! i).

Inductive ExpectedRevisionValue := Absent | RevisionId (id : string).

Definition parse_expected_revision (event : Event) : result (option ExpectedRevisionValue) Refusal :=
  match List.filter (named "expected-revision") (ev_tags event) with
  | [] => Ok None
  | [t] =>
      if negb (length t =? 2)%nat then invalid_publication "expected-revision must be exactly one two-element tag"
      else
        let value := nth_text t 1 in
        if String.eqb value "absent" then Ok (Some Absent)
        else if negb (is_lower_hex_text value 64) then
          invalid_publication "expected-revision must be `absent` or a 64-character lowercase event ID"
        else match hex_decode value with
             | Some bytes => Ok (Some (RevisionId bytes))
             | None => invalid_publication "expected-revision is not hexadecimal"
             end
  | _ => invalid_publication "expected-revision must be exactly one two-element tag"
  end.

Definition repo_char (c : ascii) : bool :=
  is_ascii_digit c || byte_in 65 90 c || byte_in 97 122 c || Ascii.eqb c "." || Ascii.eqb c "_" || Ascii.eqb c "-".
Definition valid_repo_id (value : string) : bool :=
  negb (String.eqb value "") && (String.length value <=? 64)%nat && negb (starts_with "." value) &&
  negb (contains_str ".." value) && all_chars repo_char value.

Definition validate_repository_coordinate (event : Event) : result unit Refusal :=
  let? d := singleton_tag event "d" in
  match d with
  | None => invalid_publication "repository announcement requires one d tag"
  | Some d => if valid_repo_id d then Ok tt else invalid_publication "repository d tag is malformed"
  end.

(** [parse_wiki_d_tag] of buzz-core/src/wiki_page.rs. *)
Definition WIKI_TOC_SLUG : string := "_toc".
Record WikiDTag := mkWikiDTag { wd_repo_d : string; wd_slug : string }.
Definition is_toc (d : WikiDTag) : bool := String.eqb (wd_slug d) WIKI_TOC_SLUG.
Definition page_slug_char (c : ascii) : bool := byte_in 97 122 c || is_ascii_digit c || Ascii.eqb c "-".
Definition validate_page_slug (slug : string) : bool :=
  negb (String.eqb slug "") && (String.length slug <=? 80)%nat &&
  negb (starts_with "-" slug) && bool_decide (strip_suffix "-" slug = None) && all_chars page_slug_char slug.
Definition parse_wiki_d_tag (d : string) : option WikiDTag :=
  match rsplit_once "/" d with
  | None => None
  | Some (repo_d, slug) =>
      if negb (valid_repo_id repo_d) then None
      else if String.eqb slug WIKI_TOC_SLUG || validate_page_slug slug then Some (mkWikiDTag repo_d slug) else None
  end.

Definition parse_repo_coordinate (value : string) : result (string * string) Refusal :=
  let (kind, rest) := match split_once ":" value with Some (k, r) => (k, r) | None => (value, "") end in
  if negb (String.eqb kind "30617") then invalid_publication "Wiki a tag must name a kind:30617 repository"
  else
    let (owner, repo) := match split_once ":" rest with Some (o, r) => (o, r) | None => (rest, "") end in
    if negb (is_lower_hex_text owner 64 && valid_repo_id repo) then
      invalid_publication "Wiki a tag repository coordinate is malformed"
    else Ok (owner, repo).

Definition valid_commit (source_kind value : string) : bool :=
  if String.eqb source_kind "git" then is_lower_hex_text value 40 || is_lower_hex_text value 64
  else if String.eqb source_kind "folder" then is_some_and (strip_prefix "folder:" value) (fun h => is_lower_hex_text h 64)
  else false.

Definition is_immutable_slug (slug : string) : bool :=
  existsb (fun prefix => is_some_and (strip_prefix prefix slug) (fun digest => is_lower_hex_text digest 64)) ["p1-"; "m1-"].
Definition is_reserved_immutable_d_tag (d_tag : string) : bool :=
  is_some_and (rsplit_once "/" d_tag) (fun '(_, slug) => is_immutable_slug slug).
Definition has_reserved_immutable_address (event : Event) : bool :=
  existsb (fun t => named "d" t && is_some_and (t !! 1) is_reserved_immutable_d_tag) (ev_tags event).

Definition validate_v1_common_tags (event : Event) : result unit Refusal :=
  let? version := required_tag event "wiki-version" 2 "v1 Wiki event requires wiki-version=1" in
  if negb (String.eqb (nth_text version 1) "1") then invalid_publication "wiki-version must be 1"
  else
    let? snapshot := required_tag event "wiki-snapshot" 2 "v1 Wiki event requires one wiki-snapshot tag" in
    match uuid_parse_str (nth_text snapshot 1) with
    | None => invalid_publication "wiki-snapshot must be a canonical UUID"
    | Some uuid =>
        if negb (String.eqb (uuid_to_string uuid) (nth_text snapshot 1)) then
          invalid_publication "wiki-snapshot must be a lowercase canonical UUID"
        else
          let? source_kind := required_tag event "source-kind" 2 "v1 Wiki event requires one source-kind tag" in
          if negb (String.eqb (nth_text source_kind 1) "git" || String.eqb (nth_text source_kind 1) "folder") then
            invalid_publication "source-kind must be git or folder"
          else
            let? commit := required_tag event "commit" 2 "v1 Wiki event requires one commit tag" in
            if valid_commit (nth_text source_kind 1) (nth_text commit 1) then Ok tt
            else invalid_publication "v1 Wiki commit tag is malformed"
    end.

Definition validate_toc_tags (event : Event) : result unit Refusal :=
  let? manifest := required_tag event "wiki-manifest" 3 "v1 Wiki _toc requires one wiki-manifest tag" in
  if negb (is_lower_hex_text (nth_text manifest 1) 64 && is_lower_hex_text (nth_text manifest 2) 64) then
    invalid_publication "wiki-manifest must contain a 64-character event ID and digest"
  else
    let? cadence := required_tag event "cadence" 2 "v1 Wiki _toc requires one cadence tag" in
    if negb (bool_decide (nth_text cadence 1 ∈ ["manual"; "on-push"; "daily"; "weekly"])) then
      invalid_publication "Wiki cadence is malformed"
    else
      let? expected := required_tag event "expected-revision" 2 "v1 Wiki _toc requires one expected-revision tag" in
      if String.eqb (nth_text expected 1) "absent" || is_lower_hex_text (nth_text expected 1) 64 then Ok tt
      else invalid_publication "Wiki _toc expected-revision is malformed".

Fixpoint nonempty_tags (event : Event) (names : list string) : result unit Refusal :=
  match names with
  | [] => Ok tt
  | name :: names =>
      let? t := required_tag event name 2 "v1 Wiki page metadata is incomplete" in
      if String.eqb (nth_text t 1) "" then invalid_publication "v1 Wiki page metadata must not be empty"
      else nonempty_tags event names
  end.

Definition validate_page_tags (event : Event) : result unit Refusal :=
  let? _ := nonempty_tags event ["wiki-slug"; "title"; "section"; "language"; "wiki-source-files"] in
  match List.find (named "wiki-source-files") (ev_tags event) ≫= (fun t : Tag => t !! 1) with
  | None => invalid_publication "v1 Wiki page source metadata is missing"
  | Some source_files =>
      match json_from_str source_files with
      | None => invalid_publication "wiki-source-files must be canonical JSON"
      | Some parsed =>
          if bool_decide (is_Some (as_array parsed)) && all_chars (fun c => negb (Ascii.eqb c "000")) (ev_content event) then Ok tt
          else invalid_publication "wiki-source-files or page content is malformed"
      end
  end.

Definition validate_manifest_event (event : Event) : result unit Refusal :=
  if (MAX_SIGNED_EVENT_BYTES <? Z.of_nat (String.length (ev_content event)))%Z then
    invalid_publication "Wiki manifest exceeds the signed event bound"
  else match json_from_str (ev_content event) with
       | Some _ => Ok tt
       | None => invalid_publication "v1 Wiki manifest content must be JSON"
       end.

(** Whether the event is the table of contents. *)
Definition validate_wiki_event (event : Event) (source_marked reserved has_expected : bool) : result bool Refusal :=
  let? d := singleton_tag event "d" in
  match d with
  | None => invalid_publication "Wiki event requires one d tag"
  | Some d =>
      match parse_wiki_d_tag d with
      | None => invalid_publication "Wiki d tag is malformed"
      | Some parsed =>
          let? a := singleton_tag event "a" in
          match a with
          | None => invalid_publication "Wiki event requires one repository a tag"
          | Some a =>
              let? coordinate := parse_repo_coordinate a in
              let '(owner, repo) := coordinate in
              if negb (String.eqb repo (wd_repo_d parsed)) then invalid_publication "Wiki a tag repository does not match d"
              else if negb (String.eqb owner (rd_pk_hex (ev_pubkey event))) then
                invalid_publication "Wiki event must be signed by the repository owner"
              else if reserved && negb (is_immutable_slug (wd_slug parsed)) then
                invalid_publication "reserved Wiki address must use a p1- or m1- digest slug"
              else
                let? _ :=
                  if source_marked then
                    let? _ := validate_v1_common_tags event in
                    if is_toc parsed then validate_toc_tags event
                    else if starts_with "p1-" (wd_slug parsed) then validate_page_tags event
                    else if starts_with "m1-" (wd_slug parsed) then validate_manifest_event event
                    else invalid_publication "v1 Wiki pages and manifests require immutable slugs"
                  else Ok tt in
                if has_expected && negb (is_toc parsed) then
                  invalid_publication "expected-revision is only valid on the Wiki _toc head"
                else Ok (is_toc parsed)
          end
      end
  end.

Definition validate_signed_event_size (event : Event) : result unit Refusal :=
  if (MAX_SIGNED_EVENT_BYTES <? signed_json_len event)%Z then invalid_publication "Wiki event exceeds the signed 192 KiB bound"
  else Ok tt.

(** What an event of a publication kind asks a condition by. *)
Definition requests_condition (event : Event) (expected : option ExpectedRevisionValue) : bool :=
  let wiki := N.eqb (ev_kind event) KIND_REPO_WIKI_PAGE in
  bool_decide (is_Some expected) || (wiki && has_any_tag event SOURCE_MARKER_TAGS) ||
  (wiki && has_reserved_immutable_address event).

Definition conditional (expected : option ExpectedRevisionValue) : PublicationMode :=
  Conditional match expected with Some Absent | None => ExpectMissing | Some (RevisionId id) => ExpectRevision id end.

(** [source_publication::classify]. *)
Definition classify_publication (event : Event) (enabled : bool) : result PublicationMode Refusal :=
  let kind := ev_kind event in
  if negb (is_publication_kind kind) then Ok Legacy
  else
    let wiki := N.eqb kind KIND_REPO_WIKI_PAGE in
    let? _ := if wiki then validate_signed_event_size event else Ok tt in
    let? expected := parse_expected_revision event in
    let source_marked := wiki && has_any_tag event SOURCE_MARKER_TAGS in
    let reserved := wiki && has_reserved_immutable_address event in
    if negb (requests_condition event expected) then Ok Legacy
    else
      let? _ :=
        if N.eqb kind KIND_GIT_REPO_ANNOUNCEMENT then validate_repository_coordinate event
        else if N.eqb kind KIND_PROJECT then
          let? d := singleton_tag event "d" in
          match d with Some _ => Ok tt | None => invalid_publication "Project publication requires one d tag" end
        else Ok tt in
      let? toc := if wiki then validate_wiki_event event source_marked reserved (bool_decide (is_Some expected)) else Ok false in
      if negb enabled then rejected "unsupported: crew-conditional-publication-v1 is not enabled on this relay"
      else if wiki && negb toc && bool_decide (is_Some expected) then
        invalid_publication "expected-revision is only valid on the Wiki _toc head"
      else if wiki && toc && (source_marked || has_tag event "wiki-version") && negb (bool_decide (is_Some expected)) then
        invalid_publication "a v1 Wiki _toc must carry one expected-revision tag"
      else Ok (conditional expected).

(** ** What a request reads *)

(** A row of [community_bans]. *)
Record BanRow := mkBanRow {
  bn_community_id : CommunityId; bn_pubkey : string;
  bn_banned : bool; bn_ban_expires_at : option Z; bn_muted_until : option Z }.

Record RestrictionState := mkRestrictionState { rs_banned : bool; rs_muted_until : option Z }.

(** [now] is the database's clock. *)
Definition restriction_state (now : Z) (rows : list BanRow) (c : CommunityId) (pubkey : string) : RestrictionState :=
  match List.find (fun r => bool_decide (bn_community_id r = c) && bool_decide (bn_pubkey r = pubkey)) rows with
  | Some r =>
      mkRestrictionState
        (bn_banned r && match bn_ban_expires_at r with None => true | Some t => (now <? t)%Z end)
        (match bn_muted_until r with Some t => if (now <? t)%Z then Some t else None | None => None end)
  | None => mkRestrictionState false None
  end.

Record IngestEnv := mkIngestEnv {
  ie_communities : option (list CommunityRow);
  ie_verify_joined : bool;
  ie_now : Z;
  ie_conditional_publication : bool;
  ie_bans : option (list BanRow);
  ie_sql_now : Z;
  ie_mute_now : Z;
  ie_targets : option ThreadDb;
  ie_channel : option ChannelDb;
  ie_member_cache : option bool;
  ie_members : option ChannelDb;
  ie_open : option ChannelDb;
}.

(** [is_serving_active] and [map_serving_fence_state]. *)
Definition is_serving_active (rows : list CommunityRow) (c : CommunityId) : bool :=
  existsb (fun r => bool_decide (cr_id r = c) && active r) rows.
Definition serving_fence (table : option (list CommunityRow)) (c : CommunityId) : result unit Refusal :=
  match table with
  | Some rows => if is_serving_active rows c then Ok tt else rejected "restricted: community writes are fenced"
  | None => internal "error: checking community write fence"
  end.

(** [get_channel]: the live row. *)
Definition get_channel_row (table : option ChannelDb) (c : CommunityId) (ch : Uuid) : result ChannelRow unit :=
  match table with
  | Some db => ok_or (List.find (fun r => bool_decide (chr_community_id r = c) && bool_decide (chr_id r = ch) &&
                                bool_decide (chr_deleted_at r = None)) (cd_channels db)) tt
  | None => Err tt
  end.

(** ** The first gate: what every event must satisfy *)

Definition MAX_TIMESTAMP_DRIFT_SECS : Z := 900.
Definition MAX_EVENT_CONTENT_BYTES : nat := 256 * 1024.

(** [i64] subtraction and [abs] as a release build does them. *)
Definition wrapping_i64 (z : Z) : Z := ((z + 2 ^ 63) mod 2 ^ 64 - 2 ^ 63)%Z.
Definition i64_abs (z : Z) : Z := wrapping_i64 (Z.abs z).
Definition drift (event_ts now : Z) : Z := i64_abs (wrapping_i64 (event_ts - now)).

Definition identity_gate (env : IngestEnv) (c : CommunityId) (event : Event) (auth : IngestAuth) : result unit Refusal :=
  let kind := ev_kind event in
  let? _ := serving_fence (ie_communities env) c in
  if N.eqb kind KIND_AUTH then rejected "invalid: AUTH events cannot be submitted"
  else if one_of [KIND_MEMBER_ADDED_NOTIFICATION; KIND_MEMBER_REMOVED_NOTIFICATION] kind then
    rejected "invalid: membership notifications are relay-signed only"
  else if is_http auth && one_of [KIND_GIFT_WRAP; KIND_PRESENCE_UPDATE] kind then
    rejected "invalid: kind is only accepted via WebSocket"
  else if is_relay_only_kind kind then rejected "restricted: relay-only kind"
  else if negb (ie_verify_joined env) then internal "error: internal verification error"
  else match verify_event event with
  | Err _ => rejected "invalid: event"
  | Ok _ =>
    if (MAX_TIMESTAMP_DRIFT_SECS <? drift (as_i64_wrapped (ev_created_at event)) (ie_now env))%Z then
      rejected "invalid: event timestamp too far from server time"
    else if (MAX_EVENT_CONTENT_BYTES <? String.length (ev_content event))%nat then
      rejected "invalid: content exceeds maximum size"
    else if negb (N.eqb (ev_pubkey event) (auth_pubkey auth)) && negb (N.eqb kind KIND_GIFT_WRAP) then
      auth_failed "invalid: event pubkey does not match authenticated identity"
    else match required_scope_for_kind kind event with
    | Err msg => rejected msg
    | Ok required =>
        if is_relay_admin_kind kind && bool_decide (is_Some (auth_channel_ids auth)) then
          auth_failed "restricted: relay admin commands require a global token, not a channel-scoped token"
        else if N.eqb kind KIND_NIP43_LEAVE_REQUEST && bool_decide (is_Some (auth_channel_ids auth)) then
          auth_failed "restricted: leave requests require a global token"
        else if negb (bool_decide (required ∈ auth_scopes auth)) then auth_failed "restricted: insufficient scope"
        else Ok tt
    end
  end.

(** ** The second gate: restrictions *)

Definition restriction_gate (env : IngestEnv) (c : CommunityId) (kind : N) (pubkey : string) : result unit Refusal :=
  if negb (is_moderation_command_kind kind) && negb (is_relay_admin_kind kind) then
    match ie_bans env with
    | None => internal "error: internal error checking restriction state"
    | Some rows =>
        let r := restriction_state (ie_sql_now env) rows c pubkey in
        if rs_banned r then auth_failed "blocked: you are banned from this community"
        else match rs_muted_until r with
             | Some until => if (ie_mute_now env <? until)%Z then auth_failed "restricted: you are timed out" else Ok tt
             | None => Ok tt
             end
    end
  else Ok tt.

(** ** The channel of an event *)

(** The value of an [e] tag that is an event id. *)
Definition e_target (t : Tag) : option string :=
  if String.eqb (tag_kind_string t) "e" then
    match tag_content t with Some v => if is_event_id_hex v then Some v else None | None => None end
  else None.

(** [extract_channel_id]: the first [h] tag that is a UUID. *)
Definition h_channel (t : Tag) : option Uuid :=
  if String.eqb (tag_kind_string t) "h" then tag_content t ≫= uuid_parse_str else None.
Definition extract_channel_id (event : Event) : option Uuid := EventStore.find_map h_channel (ev_tags event).

Inductive ReactionChannelResult :=
| ReactionChannel (ch : Uuid) | ReactionNoChannel | ReactionNotFound | ReactionNoTarget | ReactionDbError (e : DbError).

Definition derive_reaction_channel (table : option ThreadDb) (c : CommunityId) (event : Event) : ReactionChannelResult :=
  match EventStore.find_map e_target (rev (ev_tags event)) with
  | None => ReactionNoTarget
  | Some target_hex =>
      match hex_decode target_hex with
      | Some id_bytes =>
          if (String.length id_bytes =? 32)%nat then
            match get_event_by_id table c id_bytes with
            | Ok (Some target) => match se_channel_id target with Some ch => ReactionChannel ch | None => ReactionNoChannel end
            | Ok None => ReactionNotFound
            | Err e => ReactionDbError e
            end
          else ReactionNoTarget
      | None => ReactionNoTarget
      end
  end.

(** The channel of a deletion: its target's. *)
Definition deletion_channel (table : option ThreadDb) (c : CommunityId) (event : Event) : result (option Uuid) Refusal :=
  match EventStore.find_map e_target (ev_tags event) with
  | None => Ok None
  | Some target_hex =>
      match hex_decode target_hex with
      | None => rejected "invalid: malformed deletion target id"
      | Some target_bytes =>
          match get_event_by_id table c target_bytes with
          | Ok (Some target) => Ok (se_channel_id target)
          | Ok None => Ok None
          | Err _ => internal "error: looking up deletion target"
          end
      end
  end.

Definition event_channel (env : IngestEnv) (c : CommunityId) (event : Event) : result (option Uuid) Refusal :=
  let kind := ev_kind event in
  let? channel_id :=
    if N.eqb kind KIND_REACTION then
      match derive_reaction_channel (ie_targets env) c event with
      | ReactionChannel ch => Ok (Some ch)
      | ReactionNoChannel => Ok None
      | ReactionNotFound => rejected "invalid: reaction target event not found"
      | ReactionNoTarget => rejected "invalid: reaction must reference a target event via e tag"
      | ReactionDbError _ => internal "error: internal error looking up reaction target"
      end
    else if N.eqb kind KIND_GIFT_WRAP then Ok None
    else if N.eqb kind KIND_DELETION then deletion_channel (ie_targets env) c event
    else Ok (extract_channel_id event) in
  let channel_id := if is_global_only_kind kind then None else channel_id in
  if requires_h_channel_scope kind && bool_decide (channel_id = None) then
    rejected "invalid: channel-scoped events must include an h tag"
  else Ok channel_id.

(** ** The third gate: access to the channel *)

Definition check_token_channel_access (auth : IngestAuth) (ch : Uuid) : result unit string :=
  match auth_channel_ids auth with
  | Some allowed => if bool_decide (ch ∈ allowed) then Ok tt else Err "restricted: token does not have access to this channel"
  | None => Ok tt
  end.

Definition token_gate (auth : IngestAuth) (channel_id : option Uuid) : result unit Refusal :=
  match channel_id with
  | Some ch => match check_token_channel_access auth ch with Ok _ => Ok tt | Err text => auth_failed text end
  | None => if bool_decide (is_Some (auth_channel_ids auth))
            then auth_failed "restricted: channel-scoped tokens cannot publish global events" else Ok tt
  end.

(** [is_member_cached]; the cache answers for ten seconds. *)
Definition is_member_cached (env : IngestEnv) (c : CommunityId) (ch : Uuid) (pubkey : string) : result bool unit :=
  match ie_member_cache env with
  | Some cached => Ok cached
  | None => match ie_members env with Some db => Ok (is_member db c ch pubkey) | None => Err tt end
  end.

Definition check_channel_membership (env : IngestEnv) (c : CommunityId) (ch : Uuid) (pubkey : string)
    (channel : option ChannelRow) : result unit string :=
  match is_member_cached env c ch pubkey with
  | Ok true => Ok tt
  | Err _ => Err "error: database error"
  | Ok false =>
      let is_open := match channel with
                     | Some row => String.eqb (chr_visibility row) "open"
                     | None => match get_channel_row (ie_open env) c ch with
                               | Ok row => String.eqb (chr_visibility row) "open" | Err _ => false end
                     end in
      if is_open : bool then Ok tt else Err "restricted: not a channel member"
  end.

(** The kinds whose own validators decide about access. *)
Definition skip_membership (kind : N) : bool :=
  one_of [KIND_NIP29_JOIN_REQUEST; KIND_NIP29_CREATE_GROUP; KIND_STREAM_MESSAGE_EDIT; KIND_NIP29_EDIT_METADATA;
          KIND_NIP29_DELETE_EVENT; KIND_NIP29_DELETE_GROUP] kind.

Definition membership_gate (env : IngestEnv) (c : CommunityId) (kind : N) (pubkey : string) (channel_id : option Uuid)
    (channel : option ChannelRow) : result unit Refusal :=
  match channel_id with
  | Some ch =>
      if negb (skip_membership kind) then
        match check_channel_membership env c ch pubkey channel with Ok _ => Ok tt | Err text => rejected text end
      else Ok tt
  | None => Ok tt
  end.

(** ** The gate *)

Inductive Admission :=
| ToCommand
| ToFeedback
| ToReport
| ToModeration
| ToRelayAdmin
| ToLeave
| ToPipeline (mode : PublicationMode) (channel_id : option Uuid) (channel : option ChannelRow).

Definition admission (env : IngestEnv) (tenant : TenantContext) (event : Event) (auth : IngestAuth) : result Admission Refusal :=
  let c := tc_community tenant in
  let kind := ev_kind event in
  let? _ := identity_gate env c event auth in
  let? publication_mode := classify_publication event (ie_conditional_publication env) in
  if is_command_kind kind then Ok ToCommand
  else if N.eqb kind KIND_PRODUCT_FEEDBACK then Ok ToFeedback
  else if N.eqb kind KIND_REPORT then Ok ToReport
  else if is_moderation_command_kind kind then Ok ToModeration
  else
    let pubkey_bytes := rd_pk_bytes (auth_pubkey auth) in
    let? _ := restriction_gate env c kind pubkey_bytes in
    let? channel_id := event_channel env c event in
    let? _ := token_gate auth channel_id in
    let channel_row := match channel_id with
                       | Some ch => match get_channel_row (ie_channel env) c ch with Ok row => Some row | Err _ => None end
                       | None => None
                       end in
    let? _ := membership_gate env c kind pubkey_bytes channel_id channel_row in
    if is_relay_admin_kind kind then Ok ToRelayAdmin
    else if N.eqb kind KIND_NIP43_LEAVE_REQUEST then Ok ToLeave
    else Ok (ToPipeline publication_mode channel_id channel_row).

(** ** What the gate asks for *)

(** The event is dated within a quarter of an hour of the clock, or 2^63 seconds
    after it. *)
Definition dated (event : Event) (now : Z) : Prop :=
  (Z.abs (Z.of_N (ev_created_at event) - now) <= 900)%Z \/ (Z.of_N (ev_created_at event) = now + 2 ^ 63)%Z.

Record passes_identity (env : IngestEnv) (c : CommunityId) (event : Event) (auth : IngestAuth) : Prop := {
  pi_serving : exists rows r, ie_communities env = Some rows /\ r ∈ rows /\ cr_id r = c /\
    cr_archived_at r = None /\ cr_deleted_at r = None /\ cr_deletion_state r = "active";
  pi_kind : (ev_kind event ∉ [KIND_AUTH; KIND_MEMBER_ADDED_NOTIFICATION; KIND_MEMBER_REMOVED_NOTIFICATION]) /\
    is_relay_only_kind (ev_kind event) = false;
  pi_transport : is_http auth = true -> ev_kind event ∉ [KIND_GIFT_WRAP; KIND_PRESENCE_UPDATE];
  pi_verified : ie_verify_joined env = true /\ verify_id event = true /\ verify_signature event = true;
  pi_dated : dated event (ie_now env);
  pi_size : (String.length (ev_content event) <= MAX_EVENT_CONTENT_BYTES)%nat;
  pi_signer : ev_pubkey event = auth_pubkey auth \/ ev_kind event = KIND_GIFT_WRAP;
  pi_scope : exists required, required_scope_for_kind (ev_kind event) event = Ok required /\ required ∈ auth_scopes auth;
  pi_global : is_relay_admin_kind (ev_kind event) = true \/ ev_kind event = KIND_NIP43_LEAVE_REQUEST ->
    auth_channel_ids auth = None;
}.

(** Neither banned nor timed out. *)
Definition unrestricted (env : IngestEnv) (c : CommunityId) (pubkey : string) : Prop :=
  exists rows, ie_bans env = Some rows /\
    forall r, List.find (fun r => bool_decide (bn_community_id r = c) && bool_decide (bn_pubkey r = pubkey)) rows = Some r ->
      (bn_banned r = true -> exists t, bn_ban_expires_at r = Some t /\ (t <= ie_sql_now env)%Z) /\
      (forall t, bn_muted_until r = Some t -> (t <= Z.max (ie_sql_now env) (ie_mute_now env))%Z).

(** The token, when it names channels, names this one; without a channel it
    names none. *)
Definition channel_token_allows (auth : IngestAuth) (channel_id : option Uuid) : Prop :=
  forall ids, auth_channel_ids auth = Some ids -> exists ch, channel_id = Some ch /\ ch ∈ ids.

(** A member, or not one of a channel that is open. *)
Definition may_write (env : IngestEnv) (c : CommunityId) (pubkey : string) (ch : Uuid) (channel : option ChannelRow) : Prop :=
  is_member_cached env c ch pubkey = Ok true \/
  (is_member_cached env c ch pubkey = Ok false /\
   exists row, chr_visibility row = "open" /\
     (channel = Some row \/ (channel = None /\ get_channel_row (ie_open env) c ch = Ok row))).

(** The row of the channel the event goes to. *)
Definition channel_row_of (env : IngestEnv) (c : CommunityId) (channel_id : option Uuid) : option ChannelRow :=
  match channel_id with
  | Some ch => match get_channel_row (ie_channel env) c ch with Ok row => Some row | Err _ => None end
  | None => None
  end.

Definition handled_kinds : list N :=
  [KIND_WORKFLOW_DEF; KIND_DM_OPEN; KIND_DM_ADD_MEMBER; KIND_DM_HIDE;
   KIND_WORKFLOW_TRIGGER; KIND_APPROVAL_GRANT; KIND_APPROVAL_DENY; KIND_PRODUCT_FEEDBACK; KIND_REPORT; KIND_MODERATION_BAN;
   KIND_MODERATION_UNBAN; KIND_MODERATION_TIMEOUT; KIND_MODERATION_UNTIMEOUT; KIND_MODERATION_RESOLVE_REPORT;
   RELAY_ADMIN_ADD_MEMBER; RELAY_ADMIN_REMOVE_MEMBER; RELAY_ADMIN_CHANGE_ROLE; RELAY_ADMIN_SET_WORKSPACE_PROFILE;
   KIND_NIP43_LEAVE_REQUEST].

(** What each way on asks for beyond [passes_identity]. *)
Definition goes_to (env : IngestEnv) (c : CommunityId) (event : Event) (auth : IngestAuth) (a : Admission) : Prop :=
  let kind := ev_kind event in
  let pubkey := rd_pk_bytes (auth_pubkey auth) in
  match a with
  | ToCommand => is_command_kind kind = true
  | ToFeedback => kind = KIND_PRODUCT_FEEDBACK
  | ToReport => kind = KIND_REPORT
  | ToModeration => is_moderation_command_kind kind = true
  | ToRelayAdmin => is_relay_admin_kind kind = true
  | ToLeave => kind = KIND_NIP43_LEAVE_REQUEST /\ unrestricted env c pubkey
  | ToPipeline mode channel_id channel =>
      (kind ∉ handled_kinds) /\ classify_publication event (ie_conditional_publication env) = Ok mode /\ unrestricted env c pubkey /\ event_channel env c event = Ok channel_id /\
      channel = channel_row_of env c channel_id /\ channel_token_allows auth channel_id /\
      (forall ch, channel_id = Some ch -> skip_membership kind = true \/ may_write env c pubkey ch channel)
  end.

(** ** The gates decide it *)

Lemma one_of_true kinds kind : one_of kinds kind = true <-> kind ∈ kinds.
Proof. apply bool_decide_eq_true. Qed.
Lemma one_of_false kinds kind : one_of kinds kind = false <-> kind ∉ kinds.
Proof. apply bool_decide_eq_false. Qed.

Lemma serving_fence_ok table c :
  serving_fence table c = Ok tt <->
  exists rows r, table = Some rows /\ r ∈ rows /\ cr_id r = c /\
    cr_archived_at r = None /\ cr_deleted_at r = None /\ cr_deletion_state r = "active".
Proof.
  unfold serving_fence. destruct table as [rows|]; [|split; [done|naive_solver]].
  destruct (is_serving_active rows c) eqn:Ea.
  - split; [intros _|done]. apply existsb_elem_of in Ea as (r & Hr & Hact). unfold active in Hact.
    rewrite !andb_true_iff, !bool_decide_eq_true in Hact. naive_solver.
  - split; [done|]. intros (rows' & r & [= <-] & Hr & Hact). exfalso. apply not_true_iff_false in Ea. apply Ea, existsb_elem_of.
    exists r. split; [done|]. unfold active. rewrite !andb_true_iff, !bool_decide_eq_true. naive_solver.
Qed.

(** The drift test, with its one wrap-around. *)
Lemma drift_dated event now :
  (ev_created_at event < 2 ^ 64)%N -> (900 <= now < 2 ^ 62)%Z ->
  (drift (as_i64_wrapped (ev_created_at event)) now <= 900)%Z <-> dated event now.
Proof.
  intros Hc Hn. unfold dated, drift, i64_abs. set (t := ev_created_at event) in *.
  assert (wrapping_i64 (as_i64_wrapped t - now) = wrapping_i64 (Z.of_N t - now)) as ->.
  { unfold as_i64_wrapped, wrapping_i64. rewrite N.mod_small by done. destruct (t <? 2 ^ 63)%N; [done|]. f_equal.
    replace (Z.of_N t - 2 ^ 64 - now + 2 ^ 63)%Z with (Z.of_N t - now + 2 ^ 63 + (-1) * 2 ^ 64)%Z by lia. by rewrite Z_mod_plus_full. }
  set (d := (Z.of_N t - now)%Z). assert (- 2 ^ 62 < d < 2 ^ 64 - 900)%Z as Hd by lia. unfold wrapping_i64.
  destruct (decide (d < 2 ^ 63)%Z) as [Hs|Hs].
  - rewrite (Z.mod_small (d + 2 ^ 63)) by lia. replace (d + 2 ^ 63 - 2 ^ 63)%Z with d by lia. rewrite Z.mod_small by lia. lia.
  - assert ((d + 2 ^ 63) mod 2 ^ 64 = d - 2 ^ 63)%Z as ->.
    { symmetry. apply Z.mod_unique with 1%Z; lia. }
    replace (d - 2 ^ 63 - 2 ^ 63)%Z with (d - 2 ^ 64)%Z by lia.
    destruct (decide (d = 2 ^ 63)%Z) as [Heq|Hne]; [|rewrite Z.mod_small by lia; lia].
    rewrite Heq. change ((Z.abs (2 ^ 63 - 2 ^ 64) + 2 ^ 63) mod 2 ^ 64 - 2 ^ 63)%Z with (- 2 ^ 63)%Z. lia.
Qed.

Lemma identity_gate_ok env c event auth :
  (ev_created_at event < 2 ^ 64)%N -> (900 <= ie_now env < 2 ^ 62)%Z ->
  identity_gate env c event auth = Ok tt <-> passes_identity env c event auth.
Proof.
  intros Hc Hn. pose proof (drift_dated event (ie_now env) Hc Hn) as Hdrift. unfold identity_gate. cbn zeta. split.
  - destruct (serving_fence _ _) as [[]|] eqn:Ef; [|done]. apply serving_fence_ok in Ef.
    destruct (N.eqb_spec (ev_kind event) KIND_AUTH); [done|].
    destruct (one_of [KIND_MEMBER_ADDED_NOTIFICATION; _] _) eqn:Em; [done|]. apply one_of_false in Em.
    destruct (is_http auth && _) eqn:Eh; [done|]. destruct (is_relay_only_kind _) eqn:Er; [done|].
    destruct (ie_verify_joined env) eqn:Ej; [|done]. cbn [negb]. unfold verify_event.
    destruct (verify_id event) eqn:Evi; [|done]. destruct (verify_signature event) eqn:Evs; [|done]. cbn [negb].
    destruct (_ <? drift _ _)%Z eqn:Ed; [done|]. apply Z.ltb_ge in Ed.
    destruct (_ <? String.length _)%nat eqn:Es; [done|]. apply Nat.ltb_ge in Es.
    destruct (negb (N.eqb (ev_pubkey event) _) && _) eqn:Ep; [done|].
    destruct (required_scope_for_kind _ _) as [required|] eqn:Erq; [|done].
    destruct (is_relay_admin_kind _ && _) eqn:Ea; [done|]. destruct (N.eqb _ KIND_NIP43_LEAVE_REQUEST && _) eqn:El; [done|].
    destruct (bool_decide (required ∈ _)) eqn:Eq; [|done]. intros _. apply bool_decide_eq_true in Eq.
    split; try done.
    + split; [|done]. set_solver.
    + intros Hh. rewrite Hh in Eh. cbn in Eh. by apply one_of_false in Eh.
    + by apply Hdrift.
    + apply andb_false_iff in Ep as [Ep|Ep]; apply negb_false_iff, N.eqb_eq in Ep; auto.
    + eauto.
    + intros Hg. destruct (auth_channel_ids auth); [|done]. rewrite !bool_decide_eq_true_2, !andb_true_r in * by done.
      apply N.eqb_neq in El. destruct Hg; congruence.
  - intros [Hs [Hk1 Hk2] Ht (Hj & Hvi & Hvs) Hd Hz Hp (required & Hrq & Hin) Hg].
    rewrite (proj2 (serving_fence_ok _ _) Hs). destruct (N.eqb_spec (ev_kind event) KIND_AUTH); [set_solver|].
    rewrite (proj2 (one_of_false [KIND_MEMBER_ADDED_NOTIFICATION; _] _)) by set_solver.
    assert (is_http auth && one_of [KIND_GIFT_WRAP; KIND_PRESENCE_UPDATE] (ev_kind event) = false) as ->.
    { destruct (is_http auth); [|done]. by apply one_of_false, Ht. }
    rewrite Hk2, Hj. unfold verify_event. rewrite Hvi, Hvs. cbn [negb]. apply Hdrift in Hd.
    rewrite (proj2 (Z.ltb_ge _ _)) by done. rewrite (proj2 (Nat.ltb_ge _ _)) by done.
    assert (negb (N.eqb (ev_pubkey event) (auth_pubkey auth)) && negb (N.eqb (ev_kind event) KIND_GIFT_WRAP) = false) as ->.
    { apply andb_false_iff. rewrite !negb_false_iff, !N.eqb_eq. done. }
    rewrite Hrq.
    assert (is_relay_admin_kind (ev_kind event) && bool_decide (is_Some (auth_channel_ids auth)) = false) as ->.
    { destruct (is_relay_admin_kind _); [|done]. rewrite Hg by by left. done. }
    assert (N.eqb (ev_kind event) KIND_NIP43_LEAVE_REQUEST && bool_decide (is_Some (auth_channel_ids auth)) = false) as ->.
    { destruct (N.eqb_spec (ev_kind event) KIND_NIP43_LEAVE_REQUEST); [|done]. rewrite Hg by by right. done. }
    by rewrite bool_decide_eq_true_2.
Qed.

Lemma restriction_gate_ok env c kind pubkey :
  restriction_gate env c kind pubkey = Ok tt <->
  is_moderation_command_kind kind = true \/ is_relay_admin_kind kind = true \/ unrestricted env c pubkey.
Proof.
  unfold restriction_gate. destruct (is_moderation_command_kind kind); cbn; [tauto|].
  destruct (is_relay_admin_kind kind); cbn; [tauto|]. unfold unrestricted.
  destruct (ie_bans env) as [rows|]; [|split; [done|naive_solver]]. unfold restriction_state.
  destruct (List.find _ rows) as [r|] eqn:Ef; cbn; [|split; [|done]; intros _; right; right; exists rows; split; [done|congruence]].
  assert (rs_banned (mkRestrictionState (bn_banned r && match bn_ban_expires_at r with None => true | Some t => (ie_sql_now env <? t)%Z end) None)
    = false <-> (bn_banned r = true -> exists t, bn_ban_expires_at r = Some t /\ (t <= ie_sql_now env)%Z)) as Hb.
  { cbn. destruct (bn_banned r); cbn; [|done]. destruct (bn_ban_expires_at r) as [t|]; [rewrite Z.ltb_ge|]; naive_solver. }
  cbn in Hb. destruct (bn_banned r && _) eqn:Eb.
  - split; [done|]. intros [?|[?|(rows' & [= <-] & Hr)]]; [done..|]. apply Hr in Ef as [Ef _]. apply Hb in Ef. done.
  - destruct (bn_muted_until r) as [t|] eqn:Em; [destruct (ie_sql_now env <? t)%Z eqn:Es; [destruct (ie_mute_now env <? t)%Z eqn:Ev|]|].
    1: split; [done|]; intros [?|[?|(rows' & [= <-] & Hr)]]; [done..|]; apply Hr in Ef as [_ Ef]; apply Ef in Em; lia.
    all: split; [|done]; intros _; right; right; exists rows; split; [done|]; intros r' Hr'; rewrite Ef in Hr'; injection Hr' as <-.
    all: split; [by apply Hb|]; intros t'; rewrite Em; intros [= <-]; lia.
Qed.

Lemma token_gate_ok auth channel_id : token_gate auth channel_id = Ok tt <-> channel_token_allows auth channel_id.
Proof.
  unfold token_gate, check_token_channel_access, channel_token_allows. destruct channel_id as [ch|], (auth_channel_ids auth) as [ids|]; cbn.
  - case_bool_decide; split; naive_solver.
  - naive_solver.
  - split; [done|]. intros Ht. destruct (Ht ids eq_refl) as (ch & [=] & _).
  - naive_solver.
Qed.

Lemma membership_gate_ok env c kind pubkey channel_id channel :
  membership_gate env c kind pubkey channel_id channel = Ok tt <->
  forall ch, channel_id = Some ch -> skip_membership kind = true \/ may_write env c pubkey ch channel.
Proof.
  unfold membership_gate. destruct channel_id as [ch|]; [|naive_solver].
  destruct (skip_membership kind); cbn [negb]; [naive_solver|].
  assert (check_channel_membership env c ch pubkey channel = Ok tt <-> may_write env c pubkey ch channel) as Hm.
  { unfold check_channel_membership, may_write. destruct (is_member_cached _ _ _ _) as [[]|]; [naive_solver| |naive_solver].
    destruct channel as [row|].
    - destruct (String.eqb_spec (chr_visibility row) "open"); naive_solver.
    - destruct (get_channel_row _ _ _) as [row|]; [|naive_solver]. destruct (String.eqb_spec (chr_visibility row) "open"); naive_solver. }
  destruct (check_channel_membership _ _ _ _ _) as [[]|]; naive_solver.
Qed.

(** Case analysis on a kind of a list of constants. *)
Ltac split_kinds H := repeat (apply elem_of_cons in H as [H|H]; [|]); try (by apply elem_of_nil in H).

Lemma handled_route kind :
  kind ∉ handled_kinds <->
  is_command_kind kind = false /\ kind <> KIND_PRODUCT_FEEDBACK /\ kind <> KIND_REPORT /\
  is_moderation_command_kind kind = false /\ is_relay_admin_kind kind = false /\ kind <> KIND_NIP43_LEAVE_REQUEST.
Proof.
  unfold is_command_kind, is_moderation_command_kind, is_relay_admin_kind. rewrite !one_of_false.
  unfold handled_kinds. rewrite !not_elem_of_cons. naive_solver.
Qed.

(** Relay administration and leaving are global. *)
Lemma admin_channel env c event :
  is_relay_admin_kind (ev_kind event) = true \/ ev_kind event = KIND_NIP43_LEAVE_REQUEST -> event_channel env c event = Ok None.
Proof.
  unfold event_channel. intros Hk. assert (ev_kind event ∈ [RELAY_ADMIN_ADD_MEMBER; RELAY_ADMIN_REMOVE_MEMBER; RELAY_ADMIN_CHANGE_ROLE;
    RELAY_ADMIN_SET_WORKSPACE_PROFILE; KIND_NIP43_LEAVE_REQUEST]) as Hin.
  { unfold is_relay_admin_kind in Hk. rewrite one_of_true in Hk. set_solver. }
  clear Hk. split_kinds Hin; rewrite Hin; vm_compute; done.
Qed.

(** No kind has two ways on. *)
Lemma one_route kind :
  length (List.filter id [is_command_kind kind; N.eqb kind KIND_PRODUCT_FEEDBACK; N.eqb kind KIND_REPORT;
    is_moderation_command_kind kind; is_relay_admin_kind kind; N.eqb kind KIND_NIP43_LEAVE_REQUEST]) <= 1.
Proof.
  destruct (decide (kind ∈ handled_kinds)) as [Hin|Hout].
  - unfold handled_kinds in Hin. split_kinds Hin; rewrite Hin; vm_compute; lia.
  - apply handled_route in Hout as (-> & ?%N.eqb_neq & ?%N.eqb_neq & -> & -> & ?%N.eqb_neq).
    repeat match goal with Hk : (kind =? _)%N = false |- _ => rewrite Hk; clear Hk end. cbn. lia.
Qed.

(** The gates after the handlers' kinds are dispatched. *)
Lemma channel_gates_ok env c event auth (kind := ev_kind event) (pubkey := rd_pk_bytes (auth_pubkey auth)) (r : option Uuid -> Admission) a :
  (let? _ := restriction_gate env c kind pubkey in
   let? channel_id := event_channel env c event in
   let? _ := token_gate auth channel_id in
   let? _ := membership_gate env c kind pubkey channel_id (channel_row_of env c channel_id) in
   Ok (r channel_id)) = Ok a <->
  (is_moderation_command_kind kind = true \/ is_relay_admin_kind kind = true \/ unrestricted env c pubkey) /\
  exists channel_id, event_channel env c event = Ok channel_id /\ channel_token_allows auth channel_id /\
    (forall ch, channel_id = Some ch -> skip_membership kind = true \/ may_write env c pubkey ch (channel_row_of env c channel_id)) /\
    a = r channel_id.
Proof.
  pose proof (restriction_gate_ok env c kind pubkey) as Hr. destruct (restriction_gate _ _ _ _) as [[]|]; [|naive_solver].
  destruct (event_channel env c event) as [channel_id|]; [|naive_solver].
  pose proof (token_gate_ok auth channel_id) as Ht. destruct (token_gate auth channel_id) as [[]|]; [|naive_solver].
  pose proof (membership_gate_ok env c kind pubkey channel_id (channel_row_of env c channel_id)) as Hm.
  destruct (membership_gate _ _ _ _ _ _) as [[]|]; [|naive_solver]. split.
  - intros [= <-]. split; [by apply Hr|]. exists channel_id. split_and!; [done|by apply Ht|by apply Hm|done].
  - intros (_ & channel_id' & [= <-] & _ & _ & ->). done.
Qed.

(** A kind with a handler of its own has no publication mode. *)
Lemma handled_unconditional event enabled :
  ev_kind event ∈ handled_kinds -> classify_publication event enabled = Ok Legacy.
Proof.
  unfold classify_publication. intros Hk. assert (is_publication_kind (ev_kind event) = false) as ->; [|done].
  unfold handled_kinds in Hk. split_kinds Hk; by rewrite Hk.
Qed.

(** No condition where the relay does not offer them, and none dropped. *)
Lemma classify_publication_mode event enabled mode :
  classify_publication event enabled = Ok mode ->
  (enabled = false -> mode = Legacy) /\
  (mode = Legacy -> is_publication_kind (ev_kind event) = true ->
     parse_expected_revision event = Ok None /\
     (ev_kind event = KIND_REPO_WIKI_PAGE ->
        has_any_tag event SOURCE_MARKER_TAGS = false /\ has_reserved_immutable_address event = false)).
Proof.
  unfold classify_publication. destruct (is_publication_kind _); cbn [negb]; [|by intros [= <-]].
  destruct (if _ : bool then validate_signed_event_size event else Ok tt); [|done].
  destruct (parse_expected_revision event) as [expected|]; [|done].
  destruct (requests_condition event expected) eqn:Er; cbn [negb].
  - destruct (if N.eqb _ KIND_GIT_REPO_ANNOUNCEMENT then _ else _); [|done].
    destruct (if N.eqb _ KIND_REPO_WIKI_PAGE then validate_wiki_event _ _ _ _ else _) as [toc|]; [|done].
    destruct enabled; cbn [negb]; [|done]. destruct (_ && negb toc && _); [done|]. destruct (_ && toc && _ && _); [done|].
    by intros [= <-].
  - intros [= <-]. split; [done|]. intros _ _. unfold requests_condition in Er.
    apply orb_false_iff in Er as [[He Hs]%orb_false_iff Hr]. apply bool_decide_eq_false in He.
    destruct expected; [by destruct He|]. split; [done|]. intros Hk. by rewrite Hk, N.eqb_refl in Hs, Hr.
Qed.

Lemma admission_ok env tenant event auth a :
  (ev_created_at event < 2 ^ 64)%N -> (900 <= ie_now env < 2 ^ 62)%Z ->
  admission env tenant event auth = Ok a <->
  passes_identity env (tc_community tenant) event auth /\ goes_to env (tc_community tenant) event auth a.
Proof.
  intros Hc Hn. unfold admission. set (c := tc_community tenant). set (kind := ev_kind event). cbn zeta.
  pose proof (identity_gate_ok env c event auth Hc Hn) as Hid.
  destruct (identity_gate env c event auth) as [[]|]; [|split; [done|]; intros [Hp _]; by apply Hid in Hp].
  assert (passes_identity env c event auth) as Hp by by apply Hid. clear Hid.
  transitivity (goes_to env c event auth a); [|tauto]. pose proof (handled_route kind) as Hroute. unfold goes_to. fold kind.
  assert (forall x : Admission, (Ok x : result Admission Refusal) = Ok a <-> a = x) as Hok by (intros x; split; [by intros [= ->]|by intros ->]).
  destruct (decide (kind ∈ handled_kinds)) as [Hin|Hout].
  { rewrite (handled_unconditional event) by done. pose proof (one_route kind) as Hone.
    destruct (N.eqb_spec kind KIND_PRODUCT_FEEDBACK), (N.eqb_spec kind KIND_REPORT), (N.eqb_spec kind KIND_NIP43_LEAVE_REQUEST),
      (is_command_kind kind) eqn:E2, (is_moderation_command_kind kind) eqn:E3,
      (is_relay_admin_kind kind) eqn:E4; try (cbn in Hone; lia); clear Hone.
    all: try (rewrite Hok; split; [by intros ->|]; destruct a; intros Ha; first [done | by destruct Ha]).
    - etrans; [exact (channel_gates_ok env c event auth (fun _ => ToLeave) a)|]. fold kind. rewrite E3, E4.
      rewrite (admin_channel env c event) by by right. split.
      + intros ([?|[?|Hu]] & ch & _ & _ & _ & ->); done.
      + destruct a; intros Ha; try done; [|by destruct Ha]. split; [tauto|]. exists None. split_and!; try done.
        intros ids Hids. rewrite (pi_global _ _ _ _ Hp) in Hids by by right. done.
    - etrans; [exact (channel_gates_ok env c event auth (fun _ => ToRelayAdmin) a)|]. fold kind. rewrite E3, E4.
      rewrite (admin_channel env c event) by by left. split.
      + intros (_ & ch & _ & _ & _ & ->). done.
      + destruct a; intros Ha; try done; [|by destruct Ha..]. split; [tauto|]. exists None. split_and!; try done.
        intros ids Hids. rewrite (pi_global _ _ _ _ Hp) in Hids by by left. done.
    - exfalso. apply (proj2 Hroute); done. }
  apply Hroute in Hout as Hkinds. destruct Hkinds as (E2 & Hfb & Hrp & E3 & E4 & Hlv).
  assert (forall x, match x with ToPipeline _ _ _ => False | _ => True end -> goes_to env c event auth x -> False) as Hhandled.
  { intros x Hx Hgo. unfold goes_to in Hgo. fold kind in Hgo. destruct x; [congruence..|by destruct Hgo|done]. }
  specialize (Hhandled a). unfold goes_to in Hhandled. fold kind in Hhandled.
  destruct (classify_publication event _) as [mode|r].
  2:{ split; [done|]. destruct a as [| | | | | |mode' ch row]; intros Ha; [by destruct (Hhandled I Ha)..|by destruct Ha as (_ & [=] & _)]. }
  rewrite E2, E3, E4, (proj2 (N.eqb_neq _ _) Hfb), (proj2 (N.eqb_neq _ _) Hrp), (proj2 (N.eqb_neq _ _) Hlv).
  etrans; [exact (channel_gates_ok env c event auth (fun ch => ToPipeline mode ch (channel_row_of env c ch)) a)|].
  fold kind. rewrite E3, E4. split.
  - intros ([?|[?|Hu]] & ch & Hch & Ht & Hm & ->); done.
  - destruct a as [| | | | | |mode' ch row]; intros Ha; [first [done|by destruct (Hhandled I Ha)]..|].
    destruct Ha as (_ & [= ->] & Hu & Hch & -> & Ht & Hm). split; [tauto|]. by exists ch.
Qed.

End gate.

(** ** Concrete submissions *)

Module SampleIngest.
Import SampleHex SampleRead.
#[local] Existing Instances SampleAuth.lib SampleAuth.sha.

#[export] Instance wiki : WikiLib := {| signed_json_len _ := 100%Z; row_envelope_len _ := 100%Z; event_envelope_len _ := 100%Z |}.
#[export] Instance json : JsonText := {| json_from_str _ := Some JNull |}.

Definition tenant : TenantContext := resolved community "host".
Definition clock : Z := 1000000.
Definition env : IngestEnv :=
  mkIngestEnv (Some [mkCommunityRow community "host" None None "active"]) true clock true
    (Some [mkBanRow community (rd_pk_bytes other) true None None]) clock clock (Some no_threads) (Some channels) None
    (Some channels) (Some channels).

(** A message of kind 40002 in a channel, signed by [pk] at [t]. *)
Definition message (pk : PublicKey) (t : N) (ch : string) : Event := mkEvent (t + pk) pk t KIND_STREAM_MESSAGE_V2 [["h"; ch]] "hello".
Definition session (pk : PublicKey) : IngestAuth := Nip42 pk [MessagesWrite] None 1.
Definition private_channel : ChannelRow := mkChannelRow community 5 "private" None.

(** A member writes into a private channel; nobody else does, and a banned
    author is stopped before the channel is looked at. *)
Example gate_decisions :
  admission env tenant (message reader 1000000 "5") (session reader) = Ok (ToPipeline Legacy (Some 5%N) (Some private_channel)) /\
  admission env tenant (message reader 1000000 "6") (session reader) = rejected "restricted: not a channel member" /\
  admission env tenant (message other 1000000 "6") (session other) = auth_failed "blocked: you are banned from this community" /\
  admission env tenant (message reader 999099 "5") (session reader) = rejected "invalid: event timestamp too far from server time" /\
  admission env tenant (message reader 1000000 "5") (session other) =
    auth_failed "invalid: event pubkey does not match authenticated identity".
Proof. vm_compute. done. Qed.

(** The one date far from the clock that passes: its distance is [i64::MIN],
    whose absolute value wraps to itself. *)
Example far_future_event_passes :
  admission env tenant (message reader (1000000 + 2 ^ 63) "5") (session reader) =
    Ok (ToPipeline Legacy (Some 5%N) (Some private_channel)).
Proof. vm_compute. done. Qed.

(** A repository announcement that expects no head yet passes the gates of the
    pipeline in its mode; malformed and unoffered conditions are refused, and so
    is a banned author. *)
Definition announce (pk : PublicKey) (tags : list Tag) : Event :=
  mkEvent (1000000 + pk) pk 1000000 KIND_GIT_REPO_ANNOUNCEMENT ([["d"; "repo"]] ++ tags) "".
Definition writer (pk : PublicKey) : IngestAuth := Nip42 pk [ReposWrite] None 1.
Example publication_decisions :
  admission env tenant (announce reader []) (writer reader) = Ok (ToPipeline Legacy None None) /\
  admission env tenant (announce reader [["expected-revision"; "absent"]]) (writer reader) =
    Ok (ToPipeline (Conditional ExpectMissing) None None) /\
  admission env tenant (announce reader [["expected-revision"; "ABSENT"]]) (writer reader) =
    invalid_publication "expected-revision must be `absent` or a 64-character lowercase event ID" /\
  classify_publication (announce reader [["expected-revision"; "absent"]]) false =
    rejected "unsupported: crew-conditional-publication-v1 is not enabled on this relay" /\
  admission env tenant (announce other []) (writer other) = auth_failed "blocked: you are banned from this community".
Proof. vm_compute. done. Qed.
End SampleIngest.

Import SampleHex SampleRead.
#[local] Existing Instances SampleAuth.lib SampleAuth.sha SampleIngest.wiki SampleIngest.json.


(** ** Stray channel tags *)

(** A text note is stored without a channel, whatever its [h] tag says. *)
Definition stray : Event := mkEvent 105 other 85 KIND_TEXT_NOTE [["h"; "5"]] "hello, everyone".
Definition stray_db : EventDb := run_ops [OpInsert true 86 community stray (if is_global_only_kind KIND_TEXT_NOTE then None else Some 5%N)].
Definition room_posts : ReqFilter := kind_filter None KIND_TEXT_NOTE {[h_tag := {["5"]}]} None.
Definition any_posts : ReqFilter := kind_filter None KIND_TEXT_NOTE ∅ None.
Definition posts_page (f : ReqFilter) : result (list StoredEvent) DbError :=
  query_events_on stray_db (history_query community (extract_channel_id_from_filters [f]) [5%N] (rd_pk_bytes reader) None f).

(** Such a note meets the matcher's [#h] clause and may be delivered to a member
    of the channel its tag names, and to anyone who asks without the clause, but
    the page of the [#h] filter, pinned to the channel, does not hold it. *)
Example stray_h_lost :
  (match posts_page any_posts with
   | Ok [st] => (ev_id (se_event st) =? ev_id stray)%N && filters_match [rf_filter room_posts] st &&
                deliverable room_posts [5%N] (rd_pk_bytes reader) st
   | _ => false
   end) = true /\
  posts_page room_posts = Ok [].
Proof. split; vm_compute; reflexivity. Qed.
